(* ===== verification/_CoqProject ===== *)
-Q . S2P
Prelude.v
RustStr.v
Utf8.v
UnixPath.v
Permissions.v
PatchParser.v
PatchGrammar.v
SeekSequence.v
TextFile.v
ExecFs.v
FileUpdate.v
ApplyPatch.v
Invocation.v
MemFs.v
PatchWitnesses.v
ExecRule.v
ExecPolicy.v
ExecPolicyParser.v
ExecPolicyAmend.v
ExecWitnesses.v
ExecRequirements.v
ShellParse.v
DangerousCommand.v
ExecApproval.v
ExecPolicyManager.v
ApprovalWitnesses.v
StreamParser.v
TaggedLines.v
Utf8Stream.v
Truncation.v
HeadTail.v
ResponseItems.v
History.v
HistoryPaired.v
NetAddr.v
NetHost.v
NetConfig.v
NetProxy.v
NetSpec.v
NetWitnesses.v
Readiness.v
ReverseScanner.v
AbsolutePath.v
PathUri.v
PathUriFacts.v
SandboxPolicy.v
LegacySandbox.v
SandboxAccess.v
SandboxLocal.v
LegacyRoundtrip.v
PatchSafety.v
PermissionProfiles.v
PolicyTransforms.v
PolicyTransformFacts.v
IntersectFacts.v
ProfileIntersection.v
ProfileIntersectionFacts.v
SandboxWitnesses.v
ContextFragments.v
TokenEstimates.v
HistoryManager.v
HistoryTurns.v
HistoryRevisions.v
Fields.v
WorldState.v
WorldStateFacts.v
HistoryWitnesses.v
Compaction.v
RolloutReconstruction.v
RolloutFacts.v
RolloutHistory.v
RolloutTruncation.v
RolloutWitnesses.v
ConfigMerge.v
ConfigMergeFacts.v
ShellEnvironment.v
ConfigLayers.v
ConfigLayerFacts.v
Constrained.v
ConfigWitnesses.v
