(* ===== verification/Prelude.v ===== *)
(** * Verification of the zipcode agent's core (crates under [codex-rs])

    Zipcode is a coding agent written in Rust.  A session keeps a conversation
    with a model; the model answers with text and with calls of tools; the agent
    decides whether a call may run, runs it and sends what came out back to the
    model.  This library models the parts of the program that decide what is
    changed, what is allowed and what is shown, and proves them correct.

    ** The parts and how they interact

    - _Patches_ ([apply-patch]).  The model edits files with a patch text.  The
      text is parsed while it streams in, checked against the files so that the
      changes can be shown for approval, and applied file by file through the
      [ExecutorFileSystem] trait, which records what was committed.
    - _Execution policy_ ([execpolicy], [config/src/requirements_exec_policy.rs]).
      Rule files and the administrator's requirements declare which command
      prefixes and hosts are allowed, prompted for or forbidden; approved
      commands are appended to a rules file; a migration cleans it.
    - _Command approval_ ([shell-command], [core/src/exec_policy.rs]).  A shell
      script is taken apart into its commands, the policy and a list of
      dangerous commands decide whether it runs, is asked about or is refused,
      and which rule the user may be offered.  The policy manager loads the
      rules of the configuration layers and keeps them up to date.
    - _Paths_ ([utils/absolute-path], [utils/path-uri]).  Host paths are
      normalised; [file:] URIs name paths of POSIX and Windows executors.
    - _Sandbox policies and permissions_ ([protocol/src/permissions.rs],
      [protocol/src/models.rs], [permission_profile_intersection.rs],
      [sandboxing/src/policy_transforms.rs]).  A policy lists entries with access
      modes; profiles carry policies, overlays widen them, intersections limit
      what a request may get.  [core/src/safety.rs] uses the policy to decide
      whether a verified patch is applied without asking.
    - _Network proxy_ ([network-proxy], [core/src/config/network_proxy_spec.rs]).
      All traffic of tools goes through a proxy that decides on hosts and
      addresses; its state is shared by tasks and reloaded while they run.
    - _Conversation history_ ([core/src/context_manager], [history],
      [context-fragments]).  Items are recorded with their limits and counted in
      tokens, rolled back by turns, and normalised before they are sent: calls
      and outputs paired, unsupported media replaced.  Messages that the program
      itself injects are marked fragments and are told apart from the user's.
    - _World state_ ([core/src/context/world_state]).  What the model was last
      told about its environment is a JSON snapshot; changes are sent and
      persisted as merge patches, by full contexts, turns and steps.
    - _Sessions_ ([core/src/session/rollout_reconstruction.rs],
      [core/src/compact.rs], [core/src/thread_rollout_truncation.rs]).  A session
      is a rollout file of items; a compaction replaces the history by a summary;
      a resumed or forked session is rebuilt from its rollout, taking rollbacks
      and compactions into account.
    - _Configuration_ ([config], [protocol/src/shell_environment.rs]).  TOML layers
      from packaged defaults over user and project files to managed settings are
      merged by precedence; requirements constrain settings; one table decides
      which environment variables a command inherits.
    - _Text in both directions_ ([utils/stream-parser], [utils/string],
      [utils/output-truncation], [core/src/unified_exec/head_tail_buffer.rs]).
      The model's text arrives in chunks and hidden tags are taken out of it; the
      output of tools is capped before the model sees it.
    - _Support_: the readiness flag that tool calls wait for ([utils/readiness])
      and the scanner that reads a rollout file from its end
      ([rollout/src/reverse_jsonl_scanner.rs]).

    ** Files

    Foundations:
    - [Prelude]: [result] ([Result]), [outcome] (a [Result] that may also panic)
      with its [let!] notation, tactics, the [zip] hint databases, lemmas on
      lists and options, saturating and wrapping machine integers.
    - [RustStr], [Utf8], [UnixPath]: [char], [str], UTF-8 and [Path] of the Rust
      standard library.  A string is the list of its scalar values; byte lengths
      are computed where they matter.
    - [Permissions]: the types of [protocol/src/permissions.rs] that command
      approval and the sandbox policies share.

    Patches (each file after the source file it translates):
    - [PatchParser] ([parser.rs], [streaming_parser.rs]), [PatchGrammar] (the
      grammar in the comment of [parser.rs] with a printer), [SeekSequence],
      [TextFile], [FileUpdate] (the files of those names), [ApplyPatch]
      ([lib.rs]), [Invocation] ([invocation.rs]), [PatchWitnesses].
    - [ExecFs] ([file-system/src/lib.rs]): the file system as a class of
      operations over a world, and a class of the laws clients rely on.  A path
      names a text, a symbolic link or something else, and the laws leave open
      which paths are names of the same file ([touches]): symbolic links, hard
      links and linked directories are all allowed, and a theorem that needs a
      file to have one name says so.  [MemFs] is an instance in memory, with
      symbolic links, that satisfies the laws.

    Execution policy and command approval:
    - [ExecRule] ([decision.rs], [rule.rs], [error.rs]), [ExecPolicy]
      ([policy.rs], [executable_name.rs]), [ExecPolicyParser] ([parser.rs]),
      [ExecPolicyAmend] ([amend.rs], [sandbox_migration.rs]), [ExecWitnesses],
      [ExecRequirements] ([requirements_exec_policy.rs]).
    - [ShellParse] ([bash.rs], [shell_detect.rs]), [DangerousCommand]
      ([is_dangerous_command.rs]), [ExecApproval] ([exec_policy.rs],
      [model_policy.rs], [executable_identity.rs]), [ExecPolicyManager] (the
      manager of [exec_policy.rs], layer folders of [config/src/state.rs]),
      [ApprovalWitnesses].

    Paths, sandbox policies and permissions:
    - [AbsolutePath], [PathUri] (the crates of those names), [PathUriFacts]
      (the laws of the URL crates as a class, and what follows).
    - [SandboxPolicy], [LegacySandbox] ([permissions.rs] and the legacy policies
      of [protocol.rs]), [SandboxAccess] (the access rules as a specification),
      [SandboxLocal] (policies on a POSIX executor), [LegacyRoundtrip].
    - [PermissionProfiles] ([models.rs]), [PolicyTransforms]
      ([policy_transforms.rs]), [PolicyTransformFacts], [IntersectFacts],
      [ProfileIntersection] ([permission_profile_intersection.rs]),
      [ProfileIntersectionFacts], [PatchSafety] ([safety.rs]).  What is shown of
      a patch for approval ([core/src/apply_patch.rs]) is in [Invocation].
    - [SandboxWitnesses], with a URL type that satisfies the laws.

    Network proxy:
    - [NetAddr] (addresses of [std::net] and their classes), [NetHost]
      ([policy.rs]), [NetConfig] ([config.rs], [state.rs]), [NetProxy]
      ([runtime.rs], [network_policy.rs], [connect_policy.rs]), [NetSpec]
      ([network_proxy_spec.rs], [environment_policy.rs] and the network
      requirements of the configuration), [NetWitnesses].

    Text and support:
    - [StreamParser] ([stream_text.rs], [inline_hidden_tag.rs], [citation.rs]),
      [TaggedLines] ([tagged_line_parser.rs], [proposed_plan.rs],
      [assistant_text.rs]), [Utf8Stream] ([utf8_stream.rs]): the trait
      [StreamTextParser] is a class with a class of laws; citations and plans
      are instances, and the UTF-8 layer is proved against the laws only.
    - [Truncation], [HeadTail].
    - [Readiness], [ReverseScanner].
    - [Fields]: the ordered maps of [serde_json] and [toml], used by the world
      state and the configuration.

    Configuration:
    - [ConfigMerge] ([merge.rs], [key_aliases.rs], [overrides.rs]),
      [ConfigMergeFacts] (what merging and overrides do to one setting).
    - [ShellEnvironment] ([shell_environment_policy.rs], [shell_environment.rs],
      [exec_env.rs]).
    - [ConfigLayers] ([state.rs], [config_layer_source.rs], [fingerprint.rs]),
      [ConfigLayerFacts] (its theorems).
    - [Constrained] ([constraint.rs]), [ConfigWitnesses].

    History and sessions:
    - [ResponseItems], [History] ([normalize.rs] and operations of
      [history.rs]), [HistoryPaired] (its theorems).
    - [ContextFragments] ([fragment.rs], [additional_context.rs],
      [contextual_user_message.rs], [event_mapping.rs]), [TokenEstimates] (token
      usage of [protocol.rs], the estimates of [history.rs]).
    - [HistoryManager] ([ContextManager] of [history.rs], all operations),
      [HistoryTurns] (rolling back), [HistoryRevisions] (recording, the
      counters, and the token counts of a conversation).
    - [WorldState] ([world_state/mod.rs], the baseline of [history.rs] and
      [session/mod.rs]), [WorldStateFacts], [HistoryWitnesses].
    - [Compaction] ([compact.rs]).
    - [RolloutReconstruction] ([rollout_reconstruction.rs]), [RolloutFacts] (the
      backward scan), [RolloutHistory] (the rebuilt history), [RolloutTruncation]
      ([thread_rollout_truncation.rs]), [RolloutWitnesses].

    ** How code becomes definitions

    A method that mutates [self] is a function to the new state and its result.
    An asynchronous method of the file system is a step on an explicit world.
    Where tasks share state ([NetProxy], [Readiness]) each critical section is a
    step of a relation, so that other tasks run between them.  [Result] is
    [result] or [outcome]; where the Rust could panic (a slice, an index, an
    underflow, [expect]) the definition has the panic as a value, and theorems
    show that it is not reached.  Integers that can overflow are [N] or [Z] with
    the saturation or wrap-around written out; [usize] is 64 bits.  Hash maps
    and sets are [gmap] and [gset].  The target is Unix; paths of the host are
    valid UTF-8.

    Code outside the repository is a parameter with named hypotheses: the
    Starlark interpreter (the calls a rule file makes), JSON, the tree-sitter
    parser and queries, [shlex], the [similar] diff, [globset], the [url],
    [urlencoding] and [base64] crates ([UrlLaws]), DNS, the policy decider and
    the configuration reloader of the proxy, tokio's watch channel, UUIDs, the
    sizes of serialised items, the image decoder, the reader of hook prompts, the
    lower case of Unicode strings, wild-card patterns, SHA-256, serde's readers of
    single fields, and the queries of the host (directories, links, what is on
    disk).  Parameters with hypotheses are instantiated in the witness files.

    ** What the theorems show

    - Patches: a text of the grammar parses to what it denotes, or is refused
      where the parser is stricter than the grammar ([parse_print_patch]); nothing
      panics ([apply_patch_no_panic]); the line search finds the first match of
      the strictest pass ([seek_sequence_spec]); the two ways to apply
      replacements agree ([appliers_agree]); an exact delta replays and undoes
      the run, also one that failed halfway and one on symbolic links
      ([delta_faithful]); everything shown for approval, texts and diffs, is what
      happens ([verified_changes_applied]); and a patch approved without asking
      leaves every file alone that the sandbox policy protects and that the patch
      does not reach under another name
      ([approved_patch_leaves_protected_files]).
    - Policy and approval: the decision is the strictest of the rules that cover
      a command ([check_spec]); a rule declaration means what it says and its
      examples hold ([prefix_rule_meaning], [parse_examples_hold]); saving a rule
      is idempotent and append-only under faults ([save_rule_once],
      [amend_append_only]); the commands of a script are found in source order
      ([plain_commands_in_source_order]); a dangerous command runs only with
      consent ([dangerous_command_match_spec], [dangerous_needs_consent]); the
      approval requirement is the one its specification gives, and what is
      offered as a rule is sound ([approval_requirement_spec],
      [proposed_amendment_sound]); the administrator's rules are in force for
      every command they cover, by name as long as no rule covers the path
      ([requirements_always_enforced], [updates_only_add]).
    - Paths: every value of [AbsolutePathBuf] is a normal absolute path
      ([absolute_paths_normal]), and paths survive the way to a URI and back
      ([abs_path_roundtrip]).
    - Sandbox policies: access is that of the most specific entry
      ([access_is_most_specific]), metadata stays protected
      ([metadata_is_protected]), denials are carried over and found by the
      matcher ([preserved_denials], [read_deny_matcher_sound]), full write
      access means what it says ([full_write_access_is_total]), and legacy
      policies survive the translation ([legacy_policy_roundtrip]).
    - Permissions: overlays compose ([overlays_compose]); intersections grant
      nothing that was not requested, keep denials and never panic
      ([intersection_within_request], [intersection_keeps_denials],
      [profile_intersection_sound], [profile_intersection_total]).
    - Network: an allowed request is one the current rules allow, whatever other
      tasks do ([allowed_requests_safe], [proxy_invariant]); the address of a
      connection is checked ([connect_checks_address]); the check against managed
      constraints is exact ([validate_exact]), and so are the denials of the
      execution policy ([exec_policy_denials_enforced]).
    - Text: parsing does not depend on how the text is cut
      ([citation_chunking], [assistant_chunking], [utf8_chunking]); truncation
      stays within budgets on character boundaries ([truncate_middle_spec]); the
      head/tail buffer is the summary of its stream ([head_tail_refines]).
    - Configuration: the merged table has, path by path, the setting of the
      highest layer that says anything ([highest_layer_wins]); origins name that
      layer, element by element ([origins_tell_truth]); stacks stay ordered and checked
      ([stacks_stay_ordered]); the two forms of the environment filters are never
      mixed ([filter_forms_never_mixed]); the last override wins
      ([last_override_wins]); constraints always hold
      ([constraints_always_hold]); and the environment of a command is given
      variable by variable ([environment_per_variable]), and what must not be
      inherited is not, by commands either ([scrubbed_command]).
    - History: prompts are paired and clean, and shrinking keeps the pairing
      ([for_prompt_paired], [remove_first_item_paired]); recording appends what
      the model sees, cut to its limits ([recorded_items]); rolling back drops
      whole turns and undoes a recorded turn ([rollback_drops_turns],
      [rollback_undoes_turn]); the counters tell rewrites and messages of the
      user ([revisions_track_history]).
    - Fragments and estimates: what is rendered as context is recognised as
      context ([rendered_context_recognised]), merging keeps all fragments
      ([merged_fragments]); the estimate of a conversation is the exact cost
      of its instructions and items, media counted by their estimates and not by
      their encoding, and saturates ([history_estimate]); usage totals are sums
      ([usage_totals]).
    - World state: a merge patch takes one snapshot to the next
      ([merge_patch_advances]), and replaying the persisted patches gives the
      baseline the session holds ([replay_restores_baseline]).
    - Sessions: a compaction keeps the newest messages within its budget and is
      stable under repetition ([compaction_keeps_newest], [compaction_stable],
      [initial_context_placement]); the backward scan of a rollout finds what the
      surviving turns say ([scan_finds_survivors]); the rebuilt history is that
      of a replay from the beginning ([rebuilt_history]); fork turns are the
      surviving turns ([fork_turns_survive]).
    - Support: tokens are found also when the counter wraps
      ([alloc_token_total]), registered waiters wake
      whatever other tasks do ([registered_waiters_wake]), and the scanner returns the records of the
      file in reverse for every chunk size ([scan_all_records]).

    ** What the models showed of the code

    - A move of a file onto itself deletes it ([MemFs.self_move_deletes]).
    - Verification overlooks a hunk that updates the target of an earlier move
      ([PatchWitnesses.move_target_not_checked]), which is why
      [verified_changes_applied] asks for fresh move targets.
    - Some address blocks that are not routable count as public
      ([NetAddr.not_routable_but_public]).
    - A forced reload resets the total of blocked requests but not their log
      ([NetWitnesses.force_reload_resets_total]), and a reload can lose a record
      ([NetWitnesses.reload_loses_record]).
    - A waiter of the readiness flag can miss the broadcast
      ([Readiness.wakeup_can_be_lost]); without tokens the flag becomes ready by
      itself ([Readiness.auto_ready]).
    - A Windows device path written with slashes becomes a POSIX path
      ([PathUriFacts.slash_device_path_is_posix]).
    - Building the read-deny matcher panics when the current directory is gone
      ([SandboxLocal.read_deny_matcher_panics]).
    - The protection of metadata under nested writable roots depends on the
      order of the entries ([SandboxWitnesses.metadata_denial_depends_on_order]),
      which is why [metadata_is_protected] speaks of every metadata directory.
    - An intersection of overlays drops requested read-only paths below a granted
      root ([SandboxWitnesses.intersection_widens_read_only]).
    - The serialised legacy form of permissions forgets that an entry is optional
      ([SandboxWitnesses.legacy_roots_forget_missing_paths]).
    - Rolling back the turn that compacted the history rebuilds an empty one
      ([RolloutWitnesses.rolled_back_checkpoint_loses_history]), which is why
      [rebuilt_history] asks that the checkpoint survives.
    - Removing the first item does not change the history version
      ([HistoryWitnesses.remove_first_keeps_version]), and rolling back a history
      without turns is not a no-op ([HistoryWitnesses.rollback_without_turns]).
    - Origins of settings stay when a higher layer replaces their table
      ([ConfigWitnesses.stale_origin]).
    - Adding a file under the name of a dangling symbolic link gives a delta that
      wrongly claims to be exact ([MemFs.dangling_link_delta]), which is why
      [delta_faithful] asks that links lead somewhere; a symbolic link in a
      writable root lets an approved patch write elsewhere, which the platform
      sandbox has to prevent ([SandboxWitnesses.link_escapes_approval]).
    - The parser refuses update hunks without changes and context lines in a row,
      which the documented grammar has ([PatchWitnesses.refused_by_parser]), and
      the search at the end of a file does not fall back
      ([PatchWitnesses.line_search]).
    - Allowlist entries that are no hosts are all equal to the managed check
      ([NetWitnesses.unparsable_entries_are_equal]).
    - A rule for the path of a program comes before the administrator's rule for
      its name ([ApprovalWitnesses.path_rule_comes_first]).
    - A relative base gives a relative [AbsolutePathBuf]
      ([AbsolutePath.relative_base]).

    ** Recursion and fuel

    Nearly all recursion is structural.  Fuel is used where it is not, and each
    round consumes part of what the fuel counts: [StreamParser.push_loop] (one
    more than the pending text), [Utf8.from_utf8] and the lossy decoder (the
    bytes), [ShellParse.detect_shell] (the length of the program name),
    [ShellParse.walk_plain] and [walk_literal] (the nodes of the tree),
    [Readiness.alloc_token] (one more than the tokens),
    [ReverseScanner.scan_loop] (the bytes left and one more),
    [AbsolutePath.ancestors_loop] and [PathUri.uri_ancestors_loop] (the
    components and one more).  [DangerousCommand.dangerous_within] counts the
    wrappers the code itself allows.

    ** What is not modelled

    The terminal interface, servers, model clients, login, telemetry and the
    asynchronous agent loop are I/O and glue; the platform sandboxes
    (Seatbelt, bubblewrap, landlock, Windows tokens) are calls of the operating
    system.  Serialisation is serde's.  Sandboxed and remote file systems are
    covered only through the laws of [ExecFs].  Advisory file locks are taken to
    exclude other writers.  Windows branches of the host code are left out.
    The requests for summaries, the sections of the world state (texts) and cuts
    of rollouts by turn identifier (a projection of the app server) are left out.
    Loading the configuration files and the conversion of the merged table to
    typed settings are I/O and serde.  What could follow: command summaries,
    templates and fuzzy matching. *)

From stdpp Require Export base tactics list numbers option strings sets gmap pretty sorting.
From Stdlib Require Export Lia.

(** ** Results

    [result A E] is Rust's [Result<A, E>]; [rbind] is the [?] operator. *)
Inductive result (A E : Type) : Type :=
| Ok (a : A)
| Err (e : E).
Arguments Ok {A E} a.
Arguments Err {A E} e.

Definition rbind {A B E} (r : result A E) (k : A → result B E) : result B E :=
  match r with
  | Ok a => k a
  | Err e => Err e
  end.

Definition rmap {A B E} (f : A → B) (r : result A E) : result B E :=
  match r with
  | Ok a => Ok (f a)
  | Err e => Err e
  end.

Definition rmap_err {A E F} (f : E → F) (r : result A E) : result A F :=
  match r with
  | Ok a => Ok a
  | Err e => Err (f e)
  end.

Definition is_ok {A E} (r : result A E) : bool :=
  match r with Ok _ => true | Err _ => false end.

Definition ok_or {A E} (o : option A) (e : E) : result A E :=
  match o with Some a => Ok a | None => Err e end.

(** [iter().map(f).collect::<Result<Vec<_>, _>>()]: the first error wins. *)
Fixpoint rmapM {A B E} (f : A → result B E) (l : list A) : result (list B) E :=
  match l with
  | [] => Ok []
  | x :: l' => rbind (f x) (λ y, rmap (cons y) (rmapM f l'))
  end.

Declare Scope res_scope.
Delimit Scope res_scope with res.
Notation "'let?' x ':=' r 'in' k" := (rbind r (λ x, k))
  (at level 10, x name, r at level 100, k at level 200) : res_scope.
Notation "'let?' ' pat ':=' r 'in' k" := (rbind r (λ x, match x with pat => k end))
  (at level 10, pat pattern, r at level 100, k at level 200) : res_scope.
(** ** Outcomes

    A computation that returns, returns an error, or panics (an arithmetic
    underflow, a slice out of range, an [expect] on [None]). *)
Inductive outcome (A E : Type) : Type :=
| Done (a : A)
| Fail (e : E)
| Panic.
Arguments Done {A E} a.
Arguments Fail {A E} e.
Arguments Panic {A E}.

Definition obind {A B E} (r : outcome A E) (k : A → outcome B E) : outcome B E :=
  match r with
  | Done a => k a
  | Fail e => Fail e
  | Panic => Panic
  end.

(** Lift an option whose [None] is an error, or a panic. *)
Definition or_fail {A E} (o : option A) (e : E) : outcome A E :=
  match o with Some a => Done a | None => Fail e end.
Definition or_panic {A E} (o : option A) : outcome A E :=
  match o with Some a => Done a | None => Panic end.

Definition panics {A E} (r : outcome A E) : Prop := r = Panic.

Notation "'let!' x ':=' r 'in' k" := (obind r (λ x, k))
  (at level 10, x name, r at level 100, k at level 200) : res_scope.
Notation "'let!' ' pat ':=' r 'in' k" := (obind r (λ x, match x with pat => k end))
  (at level 10, pat pattern, r at level 100, k at level 200) : res_scope.
#[global] Open Scope res_scope.

(** [a - b] on [usize] and [&l[a..b]]: [None] is a panic. *)
Definition usub (a b : nat) : option nat := if b <=? a then Some (a - b) else None.
Definition slice {A} (l : list A) (a b : nat) : option (list A) :=
  if (a <=? b) && (b <=? length l) then Some (take (b - a) (drop a l)) else None.

#[global] Instance result_eq_dec {A E} `{EqDecision A, EqDecision E} :
  EqDecision (result A E).
Proof. solve_decision. Defined.

(** ** Tactics *)

(** Split the outermost [match] or [if] of the goal, keeping its equation. *)
Ltac case_m :=
  match goal with
  | |- context [match ?x with _ => _ end] =>
      lazymatch x with
      | context [match _ with _ => _ end] => fail
      | _ => destruct x eqn:?
      end
  end.

Ltac case_m_in H :=
  match type of H with
  | context [match ?x with _ => _ end] =>
      lazymatch x with
      | context [match _ with _ => _ end] => fail
      | _ => destruct x eqn:?
      end
  end.

(** Turn boolean tests in the context into propositions. *)
Ltac bool_prop :=
  repeat match goal with
  | H : bool_decide _ = true |- _ => apply bool_decide_eq_true in H
  | H : bool_decide _ = false |- _ => apply bool_decide_eq_false in H
  | H : _ && _ = true |- _ => apply andb_true_iff in H; destruct H
  | H : _ || _ = false |- _ => apply orb_false_iff in H; destruct H
  | H : negb _ = true |- _ => apply negb_true_iff in H
  | H : negb _ = false |- _ => apply negb_false_iff in H
  | H : Nat.ltb _ _ = true |- _ => apply Nat.ltb_lt in H
  | H : Nat.ltb _ _ = false |- _ => apply Nat.ltb_ge in H
  | H : Nat.leb _ _ = true |- _ => apply Nat.leb_le in H
  | H : Nat.leb _ _ = false |- _ => apply Nat.leb_gt in H
  | H : Nat.eqb _ _ = true |- _ => apply Nat.eqb_eq in H
  | H : Nat.eqb _ _ = false |- _ => apply Nat.eqb_neq in H
  end.

Create HintDb zip.
Create Rewrite HintDb zip.

(** ** Options and lists *)

(** [Option::is_some_and]. *)
Definition is_some_and {A} (o : option A) (p : A → bool) : bool :=
  match o with Some a => p a | None => false end.

Definition is_none {A} (o : option A) : bool :=
  match o with Some _ => false | None => true end.

(** [Vec::is_empty]. *)
Definition is_empty {A} (l : list A) : bool :=
  match l with [] => true | _ => false end.

(** [slice::last]. *)
Definition last_opt {A} (l : list A) : option A := last l.

(** [Vec::pop] without the popped value: all but the last element. *)
Definition drop_last {A} (l : list A) : list A := take (length l - 1) l.

(** Update the last element in place, as [last_mut] does. *)
Definition update_last {A} (f : A → A) (l : list A) : list A :=
  match last l with
  | Some x => drop_last l ++ [f x]
  | None => l
  end.

(** [Iterator::position]. *)
Fixpoint position {A} (p : A → bool) (l : list A) : option nat :=
  match l with
  | [] => None
  | x :: l' => if p x then Some 0 else S <$> position p l'
  end.

Lemma is_empty_true {A} (l : list A) : is_empty l = true ↔ l = [].
Proof. destruct l; simpl; naive_solver. Qed.

Lemma is_empty_false {A} (l : list A) : is_empty l = false ↔ l ≠ [].
Proof. destruct l; simpl; naive_solver. Qed.

Lemma update_last_snoc {A} (f : A → A) l x : update_last f (l ++ [x]) = l ++ [f x].
Proof.
  unfold update_last, drop_last. rewrite last_snoc, length_app. simpl.
  replace (length l + 1 - 1) with (length l) by lia. by rewrite take_app_length.
Qed.

Lemma drop_last_snoc {A} (l : list A) x : drop_last (l ++ [x]) = l.
Proof.
  unfold drop_last. rewrite length_app. simpl.
  replace (length l + 1 - 1) with (length l) by lia. by rewrite take_app_length.
Qed.

Lemma last_opt_snoc {A} (l : list A) x : last_opt (l ++ [x]) = Some x.
Proof. apply last_snoc. Qed.

Lemma list_snoc_cases {A} (l : list A) : l = [] ∨ ∃ l' x, l = l' ++ [x].
Proof. destruct l as [|x l' _] using rev_ind; [by left|right; eauto]. Qed.

Lemma position_Some {A} (p : A → bool) l i :
  position p l = Some i →
  ∃ x, l !! i = Some x ∧ p x = true ∧ ∀ j y, j < i → l !! j = Some y → p y = false.
Proof.
  revert i; induction l as [|x l IH]; intros i; simpl; [done|].
  destruct (p x) eqn:Hp.
  - intros [= <-]. exists x. split_and!; [done..|lia].
  - intros (k & Hk & ->)%fmap_Some. destruct (IH _ Hk) as (y & ? & ? & Hmin).
    exists y. split_and!; [done..|]. intros [|j] z Hj Hz; simplify_eq/=; [done|].
    eapply Hmin; [|done]. lia.
Qed.

Lemma position_None {A} (p : A → bool) l :
  position p l = None ↔ ∀ x, x ∈ l → p x = false.
Proof.
  induction l as [|x l IH]; simpl; [set_solver|].
  destruct (p x) eqn:Hp; [split; [done|]|].
  - intros H. specialize (H x ltac:(set_solver)). congruence.
  - rewrite fmap_None, IH. set_solver.
Qed.

Lemma foldl_reverse {A B} (f : A → B → A) a l :
  foldl f a (reverse l) = foldr (λ x acc, f acc x) a l.
Proof. induction l as [|x l IH]; [done|]. by rewrite reverse_cons, foldl_app, IH. Qed.

Lemma StronglySorted_single {A} (R : A → A → Prop) x : StronglySorted R [x].
Proof. constructor; constructor. Qed.

Lemma StronglySorted_impl {A} (R S : A → A → Prop) l :
  (∀ a b, R a b → S a b) → StronglySorted R l → StronglySorted S l.
Proof.
  intros HRS. induction 1 as [|x l Hs IH Hx]; constructor; [done|].
  eapply Forall_impl; [exact Hx|]. simpl. auto.
Qed.

Lemma StronglySorted_snoc {A} (R : A → A → Prop) l x :
  StronglySorted R l → Forall (λ y, R y x) l → StronglySorted R (l ++ [x]).
Proof.
  induction l as [|y l IH]; simpl; intros Hs Hx; [apply StronglySorted_single|].
  apply StronglySorted_inv in Hs as [Hs Hy]. apply Forall_cons in Hx as [Hyx Hx].
  constructor; [auto|]. apply Forall_app; auto.
Qed.

Lemma StronglySorted_app_2 {A} (R : A → A → Prop) l1 l2 :
  StronglySorted R l1 → StronglySorted R l2 → (∀ a b, a ∈ l1 → b ∈ l2 → R a b) →
  StronglySorted R (l1 ++ l2).
Proof.
  induction l1 as [|x l1 IH]; intros H1 H2 H12; simpl; [done|].
  apply StronglySorted_inv in H1 as [H1 Hx]. constructor.
  - apply IH; [done..|]. set_solver.
  - apply Forall_app. split; [done|]. apply Forall_forall. set_solver.
Qed.

#[export] Hint Rewrite @update_last_snoc @drop_last_snoc @last_opt_snoc : zip.

(** ** Machine integers *)

Definition usize_max : N := 18446744073709551615%N.
Definition u64_max : N := 18446744073709551615%N.
Definition i64_max : Z := 9223372036854775807%Z.
Definition i32_max : Z := 2147483647%Z.
Definition i32_min : Z := (-2147483648)%Z.

(** [usize::saturating_add] and [saturating_mul] on a 64-bit target. *)
Definition sat_add (a b : N) : N := N.min usize_max (a + b).
Definition sat_mul (a b : N) : N := N.min usize_max (a * b).

(** [i32] arithmetic wraps around. *)
Definition wrap_i32 (z : Z) : Z := ((z + 2147483648) mod 4294967296 - 2147483648)%Z.

Lemma wrap_i32_range z : (i32_min ≤ wrap_i32 z ≤ i32_max)%Z.
Proof.
  unfold wrap_i32, i32_min, i32_max.
  pose proof (Z.mod_pos_bound (z + 2147483648) 4294967296). lia.
Qed.

Lemma wrap_i32_id z : (i32_min ≤ z ≤ i32_max)%Z → wrap_i32 z = z.
Proof.
  unfold wrap_i32, i32_min, i32_max. intros. rewrite Z.mod_small; lia.
Qed.
