(* ===== verification/RustStr.v ===== *)
(** * Rust strings

    The part of the Rust standard library's [char] and [str] that the modelled
    crates use.  A [char] is its Unicode scalar value (an [N]); a [str] is the
    list of its characters.  Indices are character indices, except where the
    source depends on byte lengths ([byte_len]); every delimiter
    the sources search for is a valid string, so a match in the UTF-8 bytes is
    a match on characters. *)

From S2P Require Import Prelude.

Abbreviation char := N.
Abbreviation bytes := (list N).
Abbreviation str := (list N).

(** String literals of the source (ASCII). *)
Definition lit (s : String.string) : str := Ascii.N_of_ascii <$> String.list_ascii_of_string s.

Definition nl : char := 10%N.
Definition cr : char := 13%N.

(** ** Characters *)

(** [char::is_whitespace]: the Unicode property White_Space. *)
Definition is_whitespace (c : char) : bool :=
  ((9 <=? c) && (c <=? 13) || (c =? 32) || (c =? 133) || (c =? 160) || (c =? 5760)
   || (8192 <=? c) && (c <=? 8202) || (c =? 8232) || (c =? 8233) || (c =? 8239)
   || (c =? 8287) || (c =? 12288))%N.

Definition is_ascii_digit (c : char) : bool := ((48 <=? c) && (c <=? 57))%N.
Definition is_ascii_uppercase (c : char) : bool := ((65 <=? c) && (c <=? 90))%N.
Definition is_ascii_lowercase (c : char) : bool := ((97 <=? c) && (c <=? 122))%N.
Definition is_ascii_alphabetic (c : char) : bool :=
  is_ascii_uppercase c || is_ascii_lowercase c.
Definition is_ascii_alphanumeric (c : char) : bool :=
  is_ascii_digit c || is_ascii_uppercase c || is_ascii_lowercase c.

(** [char::to_ascii_lowercase]. *)
Definition ascii_lower (c : char) : char :=
  if is_ascii_uppercase c then (c + 32)%N else c.
Definition to_ascii_lowercase (s : str) : str := ascii_lower <$> s.

(** [str::eq_ignore_ascii_case]. *)
Definition eq_ignore_ascii_case (a b : str) : bool :=
  bool_decide (to_ascii_lowercase a = to_ascii_lowercase b).

(** [char::len_utf8]. *)
Definition len_utf8 (c : char) : N :=
  (if c <? 128 then 1 else if c <? 2048 then 2 else if c <? 65536 then 3 else 4)%N.

(** [str::len]: the number of UTF-8 bytes. *)
Definition byte_len (s : str) : N := foldr (λ c n, len_utf8 c + n)%N 0%N s.

(** ** Trimming *)

Fixpoint trim_start_matches (p : char → bool) (s : str) : str :=
  match s with
  | c :: s' => if p c then trim_start_matches p s' else s
  | [] => []
  end.

Fixpoint trim_end_matches (p : char → bool) (s : str) : str :=
  match s with
  | [] => []
  | c :: s' =>
      match trim_end_matches p s' with
      | [] => if p c then [] else [c]
      | t => c :: t
      end
  end.

Definition trim_start (s : str) : str := trim_start_matches is_whitespace s.
Definition trim_end (s : str) : str := trim_end_matches is_whitespace s.
Definition trim (s : str) : str := trim_end (trim_start s).

(** ** Prefixes, suffixes and search *)

Fixpoint strip_prefix (p s : str) : option str :=
  match p, s with
  | [], _ => Some s
  | a :: p', b :: s' => if (a =? b)%N then strip_prefix p' s' else None
  | _ :: _, [] => None
  end.

Definition starts_with (s p : str) : bool := negb (is_none (strip_prefix p s)).

Definition strip_suffix (p s : str) : option str :=
  reverse <$> strip_prefix (reverse p) (reverse s).

Definition ends_with (s p : str) : bool := negb (is_none (strip_suffix p s)).

(** [str::find] with a string needle: the first position that matches. *)
Fixpoint find_str (needle hay : str) : option nat :=
  if starts_with hay needle then Some 0 else
  match hay with
  | [] => None
  | _ :: hay' => S <$> find_str needle hay'
  end.

Definition contains_str (s needle : str) : bool := negb (is_none (find_str needle s)).
Definition contains_char (s : str) (c : char) : bool := bool_decide (c ∈ s).

(** ** Splitting and joining *)

(** [str::split(char)]. *)
Fixpoint split_on (c : char) (s : str) : list str :=
  match s with
  | [] => [[]]
  | x :: s' =>
      if (x =? c)%N then [] :: split_on c s' else
      match split_on c s' with
      | [] => [[x]]
      | l :: ls => (x :: l) :: ls
      end
  end.

(** [str::split_inclusive(char)]. *)
Fixpoint split_inclusive (c : char) (s : str) : list str :=
  match s with
  | [] => []
  | x :: s' =>
      if (x =? c)%N then [x] :: split_inclusive c s' else
      match split_inclusive c s' with
      | [] => [[x]]
      | l :: ls => (x :: l) :: ls
      end
  end.

(** What [str::lines] does to one inclusive piece. *)
Definition chomp (line : str) : str :=
  match strip_suffix [nl] line with
  | None => line
  | Some l => match strip_suffix [cr] l with None => l | Some l' => l' end
  end.

Definition lines (s : str) : list str := chomp <$> split_inclusive nl s.

(** [[str]::join]. *)
Fixpoint join (sep : str) (ls : list str) : str :=
  match ls with
  | [] => []
  | [l] => l
  | l :: ls' => l ++ sep ++ join sep ls'
  end.

(** [str::split_once(char)] and [str::rsplit_once(char)]. *)
Fixpoint split_once (c : char) (s : str) : option (str * str) :=
  match s with
  | [] => None
  | x :: s' =>
      if (x =? c)%N then Some ([], s') else
      (λ '(a, b), (x :: a, b)) <$> split_once c s'
  end.

Definition rsplit_once (c : char) (s : str) : option (str * str) :=
  (λ '(a, b), (reverse b, reverse a)) <$> split_once c (reverse s).

(** ** Formatting *)

(** [{n}] for an unsigned integer. *)
Definition fmt_N (n : N) : str := lit (pretty n).
Definition fmt_nat (n : nat) : str := fmt_N (N.of_nat n).

(** ** Facts: trimming *)

Lemma trim_start_matches_suffix p s :
  ∃ w, s = w ++ trim_start_matches p s ∧ Forall (λ c, p c = true) w.
Proof.
  induction s as [|c s (w & Hs & Hw)]; simpl; [by exists []|].
  destruct (p c) eqn:Hc; [|by exists []].
  exists (c :: w). rewrite <- app_comm_cons, <- Hs. auto.
Qed.

Lemma trim_end_matches_prefix p s :
  ∃ w, s = trim_end_matches p s ++ w ∧ Forall (λ c, p c = true) w.
Proof.
  induction s as [|c s (w & Hs & Hw)]; simpl; [by exists []|].
  destruct (trim_end_matches p s) as [|d t] eqn:Ht; simplify_eq/=.
  - destruct (p c) eqn:Hc; [exists (c :: w)|exists w]; auto.
  - by exists w.
Qed.

Lemma trim_end_matches_idemp p s :
  trim_end_matches p (trim_end_matches p s) = trim_end_matches p s.
Proof.
  induction s as [|c s IH]; simpl; [done|].
  destruct (trim_end_matches p s) as [|d t] eqn:Ht.
  - destruct (p c) eqn:Hc; simpl; by rewrite ?Hc.
  - change (trim_end_matches p (c :: d :: t))
      with (match trim_end_matches p (d :: t) with [] => if p c then [] else [c] | u => c :: u end).
    by rewrite IH.
Qed.

Lemma trim_end_matches_snoc_keep p s c :
  p c = false → trim_end_matches p (s ++ [c]) = s ++ [c].
Proof.
  intros Hc. induction s as [|d s IH]; simpl; [by rewrite Hc|].
  rewrite IH. by destruct s.
Qed.

Lemma trim_end_matches_cons_keep p c s :
  p c = false → trim_end_matches p (c :: s) = c :: trim_end_matches p s.
Proof. intros Hc. simpl. rewrite Hc. by destruct (trim_end_matches p s). Qed.

Lemma trim_end_cons c s : is_whitespace c = false → trim_end (c :: s) = c :: trim_end s.
Proof. apply trim_end_matches_cons_keep. Qed.

Lemma trim_start_cons c s : is_whitespace c = false → trim_start (c :: s) = c :: s.
Proof. intros Hc. unfold trim_start; simpl. by rewrite Hc. Qed.

Lemma trim_start_trim_end_comm_aux p s c s' :
  trim_end_matches p s = c :: s' → p c = false →
  trim_start_matches p (trim_end_matches p s) = trim_end_matches p s.
Proof. intros -> Hc. simpl. by rewrite Hc. Qed.

(** The first kept character of a left-trimmed string is not whitespace. *)
Lemma trim_start_matches_head p s c s' :
  trim_start_matches p s = c :: s' → p c = false.
Proof.
  induction s as [|d s IH]; simpl; [done|].
  destruct (p d) eqn:Hd; [auto|]. by intros [= <- <-].
Qed.

Lemma trim_start_matches_idemp p s :
  trim_start_matches p (trim_start_matches p s) = trim_start_matches p s.
Proof.
  destruct (trim_start_matches p s) as [|c s'] eqn:H; [done|].
  apply trim_start_matches_head in H. simpl. by rewrite H.
Qed.

Lemma trim_idemp s : trim (trim s) = trim s.
Proof.
  unfold trim, trim_end, trim_start.
  destruct (trim_start_matches is_whitespace s) as [|c s'] eqn:H; [done|].
  pose proof (trim_start_matches_head _ _ _ _ H) as Hc.
  rewrite (trim_end_matches_cons_keep _ c) by done. cbn [trim_start_matches].
  by rewrite Hc, trim_end_matches_cons_keep, trim_end_matches_idemp.
Qed.

Lemma trim_end_matches_snoc_drop p s c :
  p c = true → trim_end_matches p (s ++ [c]) = trim_end_matches p s.
Proof.
  intros Hc. induction s as [|d s IH]; simpl; [by rewrite Hc|]. by rewrite IH.
Qed.

(** A right-trimmed string ends with a character that is kept. *)
Lemma trim_end_matches_fix p s :
  trim_end_matches p s = s → s ≠ [] → ∃ s' c, s = s' ++ [c] ∧ p c = false.
Proof.
  intros Hs Hne. destruct (list_snoc_cases s) as [->|(s' & c & ->)]; [done|].
  exists s', c. split; [done|]. destruct (p c) eqn:Hc; [|done].
  rewrite trim_end_matches_snoc_drop in Hs by done.
  destruct (trim_end_matches_prefix p s') as (w & Hw & _).
  rewrite Hs in Hw. apply (f_equal length) in Hw. rewrite !length_app in Hw. simpl in Hw. lia.
Qed.

Lemma trim_end_app_keep m s : trim_end s = s → s ≠ [] → trim_end (m ++ s) = m ++ s.
Proof.
  intros Hs Hne. destruct (trim_end_matches_fix _ _ Hs Hne) as (s' & c & -> & Hc).
  rewrite app_assoc. by apply trim_end_matches_snoc_keep.
Qed.

Lemma trim_app_keep c m s :
  is_whitespace c = false → trim_end s = s → s ≠ [] → trim (c :: m ++ s) = c :: m ++ s.
Proof.
  intros Hc Hs Hne. unfold trim. rewrite trim_start_cons by done.
  change (c :: m ++ s) with ((c :: m) ++ s). by apply trim_end_app_keep.
Qed.

(** Right-trimming leaves nothing, or keeps the first character. *)
Lemma trim_end_head c s : trim_end (c :: s) = [] ∨ ∃ t, trim_end (c :: s) = c :: t.
Proof.
  unfold trim_end; simpl. destruct (trim_end_matches is_whitespace s); [|eauto].
  destruct (is_whitespace c); eauto.
Qed.

Lemma trim_none s : Forall (λ c, is_whitespace c = false) s → trim s = s.
Proof.
  intros Hs. unfold trim. assert (trim_start s = s) as ->.
  { destruct Hs as [|c s Hc _]; [done|]. by apply trim_start_cons. }
  induction Hs as [|c s Hc _ IH]; [done|]. by rewrite trim_end_cons, IH.
Qed.

Lemma trim_length s : length (trim s) ≤ length s.
Proof.
  unfold trim, trim_end, trim_start.
  destruct (trim_start_matches_suffix is_whitespace s) as (w & Hs & _).
  destruct (trim_end_matches_prefix is_whitespace (trim_start_matches is_whitespace s))
    as (v & Ht & _).
  apply (f_equal length) in Hs, Ht. rewrite !length_app in *. lia.
Qed.

(** ** Facts: prefixes and suffixes *)

Lemma strip_prefix_Some p s r : strip_prefix p s = Some r ↔ s = p ++ r.
Proof.
  revert s; induction p as [|a p IH]; intros s; simpl; [naive_solver|].
  destruct s as [|b s]; [naive_solver|].
  destruct (N.eqb_spec a b) as [->|Hab].
  - rewrite IH. naive_solver.
  - naive_solver.
Qed.

Lemma strip_prefix_app p s : strip_prefix p (p ++ s) = Some s.
Proof. by apply strip_prefix_Some. Qed.

Lemma strip_prefix_None p s : strip_prefix p s = None ↔ ∀ r, s ≠ p ++ r.
Proof.
  destruct (strip_prefix p s) as [r|] eqn:H.
  - apply strip_prefix_Some in H. naive_solver.
  - split; [|done]. intros _ r Hr. apply strip_prefix_Some in Hr. congruence.
Qed.

Lemma starts_with_spec s p : starts_with s p = true ↔ ∃ r, s = p ++ r.
Proof.
  unfold starts_with. destruct (strip_prefix p s) as [r|] eqn:H; simpl.
  - apply strip_prefix_Some in H. naive_solver.
  - rewrite strip_prefix_None in H. naive_solver.
Qed.

Lemma strip_suffix_Some p s r : strip_suffix p s = Some r ↔ s = r ++ p.
Proof.
  unfold strip_suffix. rewrite fmap_Some. setoid_rewrite strip_prefix_Some. split.
  - intros (x & Hs & ->). apply (f_equal reverse) in Hs.
    by rewrite reverse_involutive, reverse_app, !reverse_involutive in Hs.
  - intros ->. exists (reverse r). rewrite reverse_app, reverse_involutive. done.
Qed.

Lemma ends_with_spec s p : ends_with s p = true ↔ ∃ r, s = r ++ p.
Proof.
  unfold ends_with. destruct (strip_suffix p s) as [r|] eqn:H; simpl.
  - apply strip_suffix_Some in H. naive_solver.
  - split; [done|]. intros (r & Hr). apply strip_suffix_Some in Hr. congruence.
Qed.

Lemma strip_suffix_None p s : strip_suffix p s = None ↔ ∀ r, s ≠ r ++ p.
Proof.
  destruct (strip_suffix p s) as [r|] eqn:H.
  - apply strip_suffix_Some in H. naive_solver.
  - split; [|done]. intros _ r Hr. apply strip_suffix_Some in Hr. congruence.
Qed.

(** ** Facts: search *)

Lemma find_str_Some needle hay i :
  find_str needle hay = Some i →
  hay = take i hay ++ needle ++ drop (i + length needle) hay ∧
  ∀ j, j < i → starts_with (drop j hay) needle = false.
Proof.
  revert i; induction hay as [|c hay IH]; intros i; simpl;
    destruct (starts_with _ needle) eqn:Hs.
  - intros [= <-]. apply starts_with_spec in Hs as (r & Hr).
    split; [|lia]. destruct needle, r; simplify_eq/=; done.
  - done.
  - intros [= <-]. apply starts_with_spec in Hs as (r & Hr).
    split; [|lia]. simpl. rewrite Hr at 2. by rewrite drop_app_length.
  - intros (k & Hk & ->)%fmap_Some. destruct (IH _ Hk) as [Heq Hmin].
    split; [simpl; by rewrite <- Heq|].
    intros [|j] Hj; [done|]. simpl. apply Hmin. lia.
Qed.

Lemma find_str_None needle hay :
  find_str needle hay = None → ∀ j, starts_with (drop j hay) needle = false.
Proof.
  induction hay as [|c hay IH]; simpl; destruct (starts_with _ needle) eqn:Hs; try done.
  - intros _ [|j]; done.
  - intros H%fmap_None [|j]; [done|]. simpl. auto.
Qed.

(** ** Facts: splitting and joining *)

Lemma split_on_nonempty c s : split_on c s ≠ [].
Proof. destruct s as [|x s]; simpl; [done|]. repeat case_m; done. Qed.

Lemma join_cons sep l ls : ls ≠ [] → join sep (l :: ls) = l ++ sep ++ join sep ls.
Proof. by destruct ls. Qed.

Lemma join_split_on c s : join [c] (split_on c s) = s.
Proof.
  induction s as [|x s IH]; simpl; [done|].
  destruct (N.eqb_spec x c) as [->|Hx].
  - rewrite join_cons by apply split_on_nonempty. by rewrite IH.
  - pose proof (split_on_nonempty c s). destruct (split_on c s) as [|l ls]; [done|].
    rewrite <- IH. by destruct ls.
Qed.

Lemma split_on_app_nosep c l s :
  c ∉ l → split_on c (l ++ c :: s) = l :: split_on c s.
Proof.
  induction l as [|x l IH]; simpl; intros Hc.
  - by rewrite N.eqb_refl.
  - destruct (N.eqb_spec x c) as [->|Hx]; [set_solver|].
    by rewrite IH by set_solver.
Qed.

Lemma split_on_nosep c l : c ∉ l → split_on c l = [l].
Proof.
  induction l as [|x l IH]; simpl; intros Hc; [done|].
  destruct (N.eqb_spec x c) as [->|Hx]; [set_solver|]. by rewrite IH by set_solver.
Qed.

Lemma split_on_join c ls :
  ls ≠ [] → Forall (λ l, c ∉ l) ls → split_on c (join [c] ls) = ls.
Proof.
  induction ls as [|l ls IH]; [done|]. intros _ [Hl Hls]%Forall_cons.
  destruct ls as [|l' ls]; [by apply split_on_nosep|].
  rewrite join_cons by done. simpl. rewrite split_on_app_nosep by done.
  by rewrite <- IH.
Qed.

Lemma split_on_no_sep c s : Forall (λ l, c ∉ l) (split_on c s).
Proof.
  induction s as [|x s IH]; simpl; [constructor; [set_solver|done]|].
  destruct (N.eqb_spec x c) as [->|Hx]; [constructor; [set_solver|done]|].
  destruct (split_on c s) as [|l ls]; [constructor; set_solver|].
  apply Forall_cons in IH as [Hl Hls]. constructor; [set_solver|done].
Qed.

Lemma split_once_Some c s a b : split_once c s = Some (a, b) → s = a ++ c :: b.
Proof.
  revert a; induction s as [|x s IH]; intros a; simpl; [done|].
  destruct (N.eqb_spec x c) as [->|Hx]; [by intros [= <- <-]|].
  intros ([a' b'] & H & [= -> ->])%fmap_Some. by rewrite (IH a' H).
Qed.

Lemma rsplit_once_Some c s a b : rsplit_once c s = Some (a, b) → s = a ++ c :: b.
Proof.
  unfold rsplit_once. intros ([x y] & H & [= -> ->])%fmap_Some.
  apply split_once_Some in H. apply (f_equal reverse) in H.
  by rewrite reverse_involutive, reverse_app, reverse_cons, <- app_assoc in H.
Qed.

Lemma split_inclusive_app_nosep c l s :
  c ∉ l → split_inclusive c (l ++ c :: s) = (l ++ [c]) :: split_inclusive c s.
Proof.
  induction l as [|x l IH]; simpl; intros Hc.
  - by rewrite N.eqb_refl.
  - destruct (N.eqb_spec x c) as [->|Hx]; [set_solver|]. by rewrite IH by set_solver.
Qed.

Lemma split_inclusive_nosep c l : c ∉ l → l ≠ [] → split_inclusive c l = [l].
Proof.
  induction l as [|x l IH]; simpl; intros Hc Hne; [done|].
  destruct (N.eqb_spec x c) as [->|Hx]; [set_solver|].
  destruct l as [|y l]; [done|]. by rewrite IH by set_solver.
Qed.

Lemma concat_split_inclusive c s : concat (split_inclusive c s) = s.
Proof.
  induction s as [|x s IH]; simpl; [done|].
  destruct (N.eqb_spec x c) as [->|Hx]; simpl; [by rewrite IH|].
  destruct (split_inclusive c s) as [|l ls]; simpl in *; by rewrite <- IH.
Qed.

(** A line as [lines] yields it from text whose line breaks are plain. *)
Definition plain_line (l : str) : Prop := nl ∉ l ∧ ∀ l', l ≠ l' ++ [cr].

Lemma chomp_plain_nl l : plain_line l → chomp (l ++ [nl]) = l.
Proof.
  intros [_ Hcr]. unfold chomp.
  rewrite (proj2 (strip_suffix_Some [nl] (l ++ [nl]) l)) by done.
  destruct (strip_suffix [cr] l) as [r|] eqn:H; [|done].
  apply strip_suffix_Some in H. by destruct (Hcr r).
Qed.

Lemma chomp_nonl l : nl ∉ l → chomp l = l.
Proof.
  intros Hnl. unfold chomp. destruct (strip_suffix [nl] l) eqn:H; [|done].
  apply strip_suffix_Some in H. subst. set_solver.
Qed.

(** [lines] inverts [join "\n"] on plain lines whose last one is not empty. *)
Lemma lines_join ls :
  Forall plain_line ls → last ls ≠ Some [] → lines (join [nl] ls) = ls.
Proof.
  unfold lines. induction ls as [|l ls IH]; [done|].
  intros [Hl Hls]%Forall_cons Hlast.
  destruct ls as [|l' ls].
  - simpl in *. destruct Hl as [Hnl _].
    rewrite split_inclusive_nosep by (done || naive_solver).
    simpl. by rewrite chomp_nonl.
  - rewrite join_cons by done. simpl app.
    rewrite split_inclusive_app_nosep by apply Hl.
    rewrite fmap_cons, chomp_plain_nl by done. f_equal. by apply IH.
Qed.

(** ** Facts: bytes *)

Lemma len_utf8_range c : (1 ≤ len_utf8 c ≤ 4)%N.
Proof. unfold len_utf8. repeat case_m; lia. Qed.

Lemma byte_len_app s t : byte_len (s ++ t) = (byte_len s + byte_len t)%N.
Proof. induction s as [|c s IH]; simpl; [done|]. rewrite IH. lia. Qed.

Lemma byte_len_nil_inv s : byte_len s = 0%N → s = [].
Proof. destruct s as [|c s]; [done|]. simpl. pose proof (len_utf8_range c). lia. Qed.

Lemma byte_len_length s : (N.of_nat (length s) ≤ byte_len s)%N.
Proof.
  induction s as [|c s IH]; simpl; [lia|]. pose proof (len_utf8_range c). lia.
Qed.

#[export] Hint Rewrite strip_prefix_app trim_idemp trim_end_matches_idemp
  join_split_on byte_len_app : zip.

#[global] Arguments lit : simpl never.
#[global] Arguments strip_prefix : simpl never.
#[global] Arguments strip_suffix : simpl never.
#[global] Arguments find_str : simpl never.
#[global] Arguments trim : simpl never.
#[global] Arguments trim_start : simpl never.
#[global] Arguments trim_end : simpl never.

(** ** Facts: case *)

Lemma contains_char_false s c : contains_char s c = false ↔ c ∉ s.
Proof. unfold contains_char. by rewrite bool_decide_eq_false. Qed.

Lemma ascii_lower_idemp c : ascii_lower (ascii_lower c) = ascii_lower c.
Proof.
  unfold ascii_lower, is_ascii_uppercase.
  destruct ((65 <=? c) && (c <=? 90))%N eqn:H; [|by rewrite H].
  apply andb_true_iff in H as [?%N.leb_le ?%N.leb_le].
  destruct ((65 <=? c + 32) && (c + 32 <=? 90))%N eqn:H'; [|done].
  apply andb_true_iff in H' as [?%N.leb_le ?%N.leb_le]. lia.
Qed.

Lemma to_ascii_lowercase_idemp s : to_ascii_lowercase (to_ascii_lowercase s) = to_ascii_lowercase s.
Proof.
  unfold to_ascii_lowercase. rewrite <- list_fmap_compose. apply list_fmap_ext.
  intros. apply ascii_lower_idemp.
Qed.

Lemma lowercase_app a b : to_ascii_lowercase (a ++ b) = to_ascii_lowercase a ++ to_ascii_lowercase b.
Proof. apply fmap_app. Qed.

(** Trimming commutes with lower case when the trimmed characters have no case. *)
Lemma trim_end_lowercase p s :
  (∀ c, p (ascii_lower c) = p c) →
  trim_end_matches p (to_ascii_lowercase s) = to_ascii_lowercase (trim_end_matches p s).
Proof.
  intros Hp. induction s as [|c s IH]; [done|]. cbn [to_ascii_lowercase fmap list_fmap trim_end_matches].
  change (ascii_lower <$> s) with (to_ascii_lowercase s). rewrite IH, Hp.
  destruct (trim_end_matches p s); [by destruct (p c)|done].
Qed.

(** ** Ordering and [Vec::dedup] *)

Fixpoint list_compare {A} (cmp : A → A → comparison) (a b : list A) : comparison :=
  match a, b with
  | [], [] => Eq
  | [], _ => Lt
  | _, [] => Gt
  | x :: a', y :: b' => match cmp x y with Eq => list_compare cmp a' b' | c => c end
  end.

Definition str_compare : str → str → comparison := list_compare N.compare.
(** [Vec::dedup]. *)
Fixpoint dedup {A} `{EqDecision A} (l : list A) : list A :=
  match l with
  | [] => []
  | x :: l' =>
      match dedup l' with
      | y :: l'' => if decide (x = y) then y :: l'' else x :: y :: l''
      | [] => [x]
      end
  end.

(** The orders are total: what [Ord] promises. *)
Class TotalCompare {A} (cmp : A → A → comparison) := {
  compare_eq : ∀ a b, cmp a b = Eq → a = b;
  compare_refl : ∀ a, cmp a a = Eq;
  compare_opp : ∀ a b, cmp b a = CompOpp (cmp a b);
  compare_lt_trans : ∀ a b c, cmp a b = Lt → cmp b c = Lt → cmp a c = Lt;
}.

#[global] Instance N_total_compare : TotalCompare N.compare.
Proof.
  split.
  - apply N.compare_eq.
  - apply N.compare_refl.
  - intros. apply N.compare_antisym.
  - intros a b c. rewrite !N.compare_lt_iff. lia.
Qed.

#[global] Instance list_total_compare {A} (cmp : A → A → comparison) `{!TotalCompare cmp} :
  TotalCompare (list_compare cmp).
Proof.
  split.
  - induction a as [|x a IH]; intros [|y b]; simpl; try done.
    destruct (cmp x y) eqn:Hxy; [|done..]. intros H. by rewrite (compare_eq _ _ Hxy), (IH b H).
  - induction a as [|x a IH]; simpl; [done|]. by rewrite compare_refl.
  - induction a as [|x a IH]; intros [|y b]; simpl; try done.
    rewrite (compare_opp x y). destruct (cmp x y); simpl; auto.
  - induction a as [|x a IH]; intros [|y b] [|z c]; simpl; try done.
    destruct (cmp x y) eqn:Hxy; [|intros _|done].
    + rewrite (compare_eq _ _ Hxy). destruct (cmp y z); [apply IH|done..].
    + destruct (cmp y z) eqn:Hyz; [|intros _|done].
      * intros _. by rewrite <- (compare_eq _ _ Hyz), Hxy.
      * by rewrite (compare_lt_trans _ _ _ Hxy Hyz).
Qed.

#[global] Instance str_total_compare : TotalCompare str_compare.
Proof. apply list_total_compare, _. Qed.
Lemma elem_of_dedup {A} `{EqDecision A} (x : A) l : x ∈ dedup l ↔ x ∈ l.
Proof.
  induction l as [|y l IH]; simpl; [done|]. rewrite elem_of_cons, <- IH.
  destruct (dedup l) as [|z l']; [set_solver|]. case_decide; [subst|]; set_solver.
Qed.
