(* ===== verification/Utf8.v ===== *)
(** * UTF-8 and UTF-16

    [std::str::from_utf8] on byte lists, the encodings of strings, and the facts
    that relate them. *)

From S2P Require Import Prelude RustStr.

(** ** Decoding: [std::str::from_utf8] *)

Inductive decoded :=
| DChar (c : char) (len : nat)
| DIncomplete
| DInvalid (len : nat).

Definition is_cont (b : N) : bool := ((128 <=? b) && (b <=? 191))%N.
Definition in_range (lo hi b : N) : bool := ((lo <=? b) && (b <=? hi))%N.

(** The first character; an invalid sequence is reported with its length, a
    sequence cut short by the end of the input as incomplete. *)
Definition decode_char (bs : bytes) : decoded :=
  match bs with
  | [] => DIncomplete
  | b0 :: r0 =>
      if (b0 <? 128)%N then DChar b0 1
      else if in_range 194 223 b0 then
        match r0 with
        | [] => DIncomplete
        | b1 :: _ =>
            if is_cont b1 then DChar ((b0 - 192) * 64 + (b1 - 128)) 2 else DInvalid 1
        end
      else if in_range 224 239 b0 then
        match r0 with
        | [] => DIncomplete
        | b1 :: r1 =>
            if in_range (if b0 =? 224 then 160 else 128) (if b0 =? 237 then 159 else 191) b1 then
              match r1 with
              | [] => DIncomplete
              | b2 :: _ =>
                  if is_cont b2
                  then DChar (((b0 - 224) * 64 + (b1 - 128)) * 64 + (b2 - 128)) 3
                  else DInvalid 2
              end
            else DInvalid 1
        end
      else if in_range 240 244 b0 then
        match r0 with
        | [] => DIncomplete
        | b1 :: r1 =>
            if in_range (if b0 =? 240 then 144 else 128) (if b0 =? 244 then 143 else 191) b1 then
              match r1 with
              | [] => DIncomplete
              | b2 :: r2 =>
                  if is_cont b2 then
                    match r2 with
                    | [] => DIncomplete
                    | b3 :: _ =>
                        if is_cont b3
                        then DChar ((((b0 - 240) * 64 + (b1 - 128)) * 64 + (b2 - 128)) * 64
                                    + (b3 - 128)) 4
                        else DInvalid 3
                    end
                  else DInvalid 2
              end
            else DInvalid 1
        end
      else DInvalid 1
  end%N.

Record Utf8Error := { valid_up_to : nat; error_len : option nat }.

Fixpoint utf8_loop (fuel : nat) (bs : bytes) (pos : nat) (acc : str) : result str Utf8Error :=
  match fuel, bs with
  | _, [] => Ok acc
  | 0, _ => Err {| valid_up_to := pos; error_len := None |}
  | S fuel, _ =>
      match decode_char bs with
      | DChar c n => utf8_loop fuel (drop n bs) (pos + n) (acc ++ [c])
      | DIncomplete => Err {| valid_up_to := pos; error_len := None |}
      | DInvalid n => Err {| valid_up_to := pos; error_len := Some n |}
      end
  end.

(** Every decoded character takes at least one byte, so the length is enough. *)
Definition from_utf8 (bs : bytes) : result str Utf8Error := utf8_loop (length bs) bs 0 [].

(** [String::from_utf8_lossy]: each invalid sequence becomes one replacement
    character. *)
Definition replacement_char : char := 65533%N.

Fixpoint lossy_loop (fuel : nat) (bs : bytes) : str :=
  match fuel, bs with
  | _, [] | 0, _ => []
  | S fuel, _ =>
      match decode_char bs with
      | DChar c n => c :: lossy_loop fuel (drop n bs)
      | DIncomplete => [replacement_char]
      | DInvalid n => replacement_char :: lossy_loop fuel (drop n bs)
      end
  end.

Definition from_utf8_lossy (bs : bytes) : str := lossy_loop (length bs) bs.

(** ** UTF-16, as little-endian bytes *)

Definition encode_utf16_char (c : char) : list N :=
  (if c <? 65536 then [c]
   else [55296 + (c - 65536) / 1024; 56320 + (c - 65536) mod 1024])%N.

Definition encode_utf16 (s : str) : list N := concat (encode_utf16_char <$> s).

(** [u16::to_le_bytes] over a sequence, and [chunks_exact(2)] with
    [u16::from_le_bytes]. *)
Definition to_le_bytes (units : list N) : bytes :=
  concat ((λ u, [(u mod 256)%N; (u / 256)%N]) <$> units).

Fixpoint from_le_bytes (bs : bytes) : list N :=
  match bs with
  | lo :: hi :: bs => (lo + 256 * hi)%N :: from_le_bytes bs
  | _ => []
  end.

(** [String::from_utf16_lossy]. *)
Fixpoint from_utf16_lossy (units : list N) : str :=
  match units with
  | [] => []
  | u :: rest =>
      if in_range 55296 56319 u then
        match rest with
        | v :: rest' =>
            if in_range 56320 57343 v
            then (65536 + (u - 55296) * 1024 + (v - 56320))%N :: from_utf16_lossy rest'
            else replacement_char :: from_utf16_lossy rest
        | [] => [replacement_char]
        end
      else if in_range 56320 57343 u then replacement_char :: from_utf16_lossy rest
      else u :: from_utf16_lossy rest
  end.

(** ** Encoding *)

Definition encode_char (c : char) : bytes :=
  (if c <? 128 then [c]
   else if c <? 2048 then [192 + c / 64; 128 + c mod 64]
   else if c <? 65536 then [224 + c / 64 / 64; 128 + (c / 64) mod 64; 128 + c mod 64]
   else [240 + c / 64 / 64 / 64; 128 + (c / 64 / 64) mod 64; 128 + (c / 64) mod 64;
         128 + c mod 64])%N.

Definition encode (s : str) : bytes := concat (encode_char <$> s).

(** Unicode scalar values: no surrogates. *)
Definition scalar (c : char) : Prop := (c < 55296 ∨ (57344 ≤ c ∧ c < 1114112))%N.

#[global] Instance scalar_dec c : Decision (scalar c).
Proof. unfold scalar. apply _. Defined.

Lemma div_mod_64 c : ∃ q r, (c = 64 * q + r ∧ r < 64 ∧ c / 64 = q ∧ c mod 64 = r)%N.
Proof.
  exists (c / 64)%N, (c mod 64)%N.
  pose proof (N.div_mod c 64 ltac:(done)). pose proof (N.mod_lt c 64 ltac:(done)). auto.
Qed.

Ltac range_true :=
  repeat match goal with
  | |- context [(?a <? ?b)%N] =>
      first [rewrite (proj2 (N.ltb_lt a b)) by lia | rewrite (proj2 (N.ltb_ge a b)) by lia]
  | |- context [(?a <=? ?b)%N] =>
      first [rewrite (proj2 (N.leb_le a b)) by lia | rewrite (proj2 (N.leb_gt a b)) by lia]
  | |- context [(?a =? ?b)%N] => destruct (N.eqb_spec a b)
  end; cbn [andb].

Lemma decode_encode_char c z :
  scalar c → decode_char (encode_char c ++ z) = DChar c (length (encode_char c)).
Proof.
  intros Hc. unfold encode_char, scalar in *.
  destruct (div_mod_64 c) as (q1 & r1 & H1 & Hr1 & -> & ->).
  destruct (div_mod_64 q1) as (q2 & r2 & H2 & Hr2 & -> & ->).
  destruct (div_mod_64 q2) as (q3 & r3 & H3 & Hr3 & -> & ->).
  destruct (c <? 128)%N eqn:E1; [|destruct (c <? 2048)%N eqn:E2; [|destruct (c <? 65536)%N eqn:E3]];
    rewrite ?N.ltb_lt, ?N.ltb_ge in *;
    cbn [app length]; unfold decode_char, is_cont, in_range; range_true;
    try lia; do 2 f_equal; try lia.
Qed.

(** The beginning of a character is not yet a character. *)
Lemma decode_char_prefix c x y :
  scalar c → encode_char c = x ++ y → x ≠ [] → y ≠ [] → decode_char x = DIncomplete.
Proof.
  intros Hc. unfold encode_char, scalar in *.
  destruct (div_mod_64 c) as (q1 & r1 & H1 & Hr1 & -> & ->).
  destruct (div_mod_64 q1) as (q2 & r2 & H2 & Hr2 & -> & ->).
  destruct (div_mod_64 q2) as (q3 & r3 & H3 & Hr3 & -> & ->).
  destruct (c <? 128)%N eqn:E1; [|destruct (c <? 2048)%N eqn:E2; [|destruct (c <? 65536)%N eqn:E3]];
    rewrite ?N.ltb_lt, ?N.ltb_ge in *; intros Heq Hx Hy;
    destruct x as [|x0 [|x1 [|x2 [|x3 x4]]]]; try done; simplify_eq/=;
    try match goal with H : [] = _ ++ _ |- _ => by symmetry in H; apply app_eq_nil in H as [_ ?] end;
    unfold is_cont, in_range; range_true; try done; try lia.
Qed.

Lemma encode_char_ne c : encode_char c ≠ [].
Proof. unfold encode_char. by repeat case_m. Qed.

Lemma encode_app s t : encode (s ++ t) = encode s ++ encode t.
Proof. unfold encode. by rewrite fmap_app, concat_app. Qed.

Lemma encode_cons c s : encode (c :: s) = encode_char c ++ encode s.
Proof. done. Qed.

(** Bytes that begin a character and do not finish it, or nothing. *)
Definition partial (r : bytes) : Prop := r = [] ∨ decode_char r = DIncomplete.

Lemma utf8_loop_encode s r : ∀ fuel pos acc,
  Forall scalar s → partial r → length (encode s ++ r) ≤ fuel →
  utf8_loop fuel (encode s ++ r) pos acc =
  if is_empty r then Ok (acc ++ s)
  else Err {| valid_up_to := pos + length (encode s); error_len := None |}.
Proof.
  induction s as [|c s IH]; intros fuel pos acc Hs Hr Hf.
  - cbn [encode fmap list_fmap concat app length] in *. rewrite Nat.add_0_r, app_nil_r.
    destruct r as [|b r]; [by destruct fuel|]. destruct Hr as [|Hr]; [done|].
    destruct fuel as [|fuel]; [done|]. cbn [utf8_loop]. by rewrite Hr.
  - apply Forall_cons in Hs as [Hc Hs]. rewrite encode_cons, <- app_assoc in *.
    pose proof (encode_char_ne c) as Hne.
    assert (length (encode_char c) ≠ 0) as Hlen by (intros ?%nil_length_inv; done).
    rewrite length_app in Hf. destruct fuel as [|fuel]; [lia|].
    assert (∃ b bs, encode_char c ++ encode s ++ r = b :: bs) as (b & bs & Hb)
      by (destruct (encode_char c); [done|simpl; eauto]).
    cbn [utf8_loop]. rewrite Hb, <- Hb. rewrite decode_encode_char, drop_app_length by done.
    rewrite IH by (done || lia). rewrite <- app_assoc. simpl.
    destruct (is_empty r); [done|]. do 2 f_equal. rewrite length_app. lia.
Qed.

Lemma from_utf8_encode s r :
  Forall scalar s → partial r →
  from_utf8 (encode s ++ r) =
  if is_empty r then Ok s else Err {| valid_up_to := length (encode s); error_len := None |}.
Proof. intros Hs Hr. unfold from_utf8. by rewrite utf8_loop_encode. Qed.

(** A prefix of encoded text is whole characters and the beginning of one. *)
Lemma encode_prefix s : ∀ x y,
  Forall scalar s → encode s = x ++ y →
  ∃ s1 s2 r, s = s1 ++ s2 ∧ x = encode s1 ++ r ∧ partial r ∧ r ++ y = encode s2.
Proof.
  induction s as [|c s IH]; intros x y Hs Heq.
  - symmetry in Heq. apply app_eq_nil in Heq as [-> ->]. exists [], [], []. split_and!; try done. by left.
  - apply Forall_cons in Hs as [Hc Hs]. rewrite encode_cons in Heq.
    destruct (decide (length (encode_char c) ≤ length x)) as [Hle|Hgt].
    + assert (x = encode_char c ++ drop (length (encode_char c)) x) as Hx.
      { apply (f_equal (take (length (encode_char c)))) in Heq as Ht.
        rewrite take_app_length, take_app_le in Ht by done. by rewrite Ht at 1; rewrite take_drop. }
      set (x' := drop (length (encode_char c)) x) in *. rewrite Hx, <- app_assoc in Heq.
      apply app_inv_head in Heq. destruct (IH x' y Hs Heq) as (s1 & s2 & r & -> & -> & Hr & Hy).
      exists (c :: s1), s2, r. split; [done|]. split; [|done].
      by rewrite Hx, encode_cons, <- app_assoc.
    + assert (encode_char c = x ++ drop (length x) (encode_char c)) as Hx.
      { apply (f_equal (take (length x))) in Heq as Ht.
        rewrite take_app_length, take_app_le in Ht by lia. by rewrite <- Ht at 1; rewrite take_drop. }
      exists [], (c :: s), x. split; [done|]. split; [done|]. split; [|by rewrite encode_cons].
      destruct x as [|b x]; [by left|right]. eapply decode_char_prefix; [exact Hc|exact Hx|done|].
      intros Hd. apply (f_equal length) in Hd. rewrite length_drop in Hd. simpl in *. lia.
Qed.
