(* ===== verification/UnixPath.v ===== *)
(** * Paths on a Unix target

    The part of [std::path] that the sources use on strings: components,
    comparison, [file_name], [file_stem], [parent] and [is_absolute]. *)

From S2P Require Import Prelude RustStr.

(** [Path::components]: the root, then the segments, without empty ones and
    without [.] unless it comes first. *)
Inductive component := RootDir | CurDir | ParentDir | Normal (s : str).

#[global] Instance component_eq_dec : EqDecision component.
Proof. solve_decision. Defined.

Definition segment_component (s : str) : option component :=
  if is_empty s || bool_decide (s = lit ".") then None
  else if bool_decide (s = lit "..") then Some ParentDir
  else Some (Normal s).

Definition components (path : str) : list component :=
  let segments := split_on 47 path in
  (if starts_with path (lit "/") then [RootDir]
   else if bool_decide (head segments = Some (lit ".")) then [CurDir] else [])
  ++ omap segment_component segments.

(** Paths are compared by their components. *)
Definition path_eq (a b : str) : bool := bool_decide (components a = components b).

Definition path_file_name (path : str) : option str :=
  match last (components path) with Some (Normal s) => Some s | _ => None end.

(** [Path::file_stem]: the name up to its last dot, unless the name starts
    with that dot. *)
Definition path_file_stem (path : str) : option str :=
  name ← path_file_name path;
  match rsplit_once 46 name with
  | Some ([], _) | None => Some name
  | Some (before, _) => Some before
  end.

(** The components of [Path::parent]. *)
Definition parent_components (path : str) : option (list component) :=
  match last (components path) with
  | None | Some RootDir => None
  | Some _ => Some (drop_last (components path))
  end.

Definition is_absolute (path : str) : bool := starts_with path (lit "/").

(** [Path::extension]. *)
Definition path_extension (path : str) : option str :=
  name ← path_file_name path;
  match rsplit_once 46 name with
  | Some ([], _) | None => None
  | Some (_, ext) => Some ext
  end.

(** [Path::join] with a relative path. *)
Definition path_push (base segment : str) : str :=
  if is_empty base then segment
  else if ends_with base (lit "/") then base ++ segment
  else base ++ lit "/" ++ segment.

(** [codex-rs/utils/path-uri]: [PathConvention] and its lexical split. *)
Inductive PathConvention := Posix | Windows.

#[global] Instance PathConvention_eq_dec : EqDecision PathConvention.
Proof. solve_decision. Defined.

Definition is_separator (convention : PathConvention) (c : char) : bool :=
  match convention with
  | Posix => (c =? 47)%N
  | Windows => (c =? 47)%N || (c =? 92)%N
  end.

Fixpoint path_segments (convention : PathConvention) (s : str) : list str :=
  match s with
  | [] => [[]]
  | c :: s' =>
      if is_separator convention c then [] :: path_segments convention s' else
      match path_segments convention s' with
      | [] => [[c]]
      | l :: ls => (c :: l) :: ls
      end
  end.

(** ** The name of a path is one of its segments *)

Lemma split_on_length c s seg : seg ∈ split_on c s → seg = s ∨ length seg < length s.
Proof.
  revert seg. induction s as [|d s IH]; intros seg Hin; simpl in Hin.
  - apply list_elem_of_singleton in Hin as ->. by left.
  - case_match; simpl.
    + apply elem_of_cons in Hin as [->|Hin]; [simpl; lia|].
      destruct (IH _ Hin) as [->|]; simpl; lia.
    + destruct (split_on c s) as [|l ls] eqn:Hs; simpl in *; [by apply split_on_nonempty in Hs|].
      apply elem_of_cons in Hin as [->|Hin].
      * destruct (IH l ltac:(set_solver)) as [->|]; simpl; [by left|lia].
      * destruct (IH seg ltac:(set_solver)) as [->|]; lia.
Qed.

Lemma path_file_name_segment path name : path_file_name path = Some name → name ∈ split_on 47 path.
Proof.
  unfold path_file_name. destruct (last (components path)) as [[| | |s]|] eqn:Hl; try done.
  intros [= <-]. apply last_Some_elem_of in Hl. unfold components in Hl.
  apply elem_of_app in Hl as [Hl|Hl].
  - repeat case_match; set_solver.
  - apply list_elem_of_omap in Hl as (seg & Hseg & Hs). unfold segment_component in Hs.
    repeat case_match; simplify_eq. done.
Qed.

(** Taking the stem of a path ends: it is the path itself or shorter. *)
Lemma path_file_stem_length path stem :
  path_file_stem path = Some stem → stem = path ∨ length stem < length path.
Proof.
  unfold path_file_stem. intros (name & Hname & Hs)%bind_Some.
  apply path_file_name_segment, split_on_length in Hname.
  destruct (rsplit_once 46 name) as [[[|c b] a]|] eqn:Hr; simplify_eq; try done.
  apply rsplit_once_Some in Hr. right. apply (f_equal length) in Hr.
  rewrite length_app in Hr. destruct Hname as [->|]; simpl in *; lia.
Qed.
