(* ===== verification/Permissions.v ===== *)
(** * Permission profiles

    The data of [codex-rs/protocol/src/permissions.rs] and of the permission
    types of [models.rs]: access modes, the paths and entries of a file-system
    policy, policies and profiles.  Paths are [PathUri]s, a parameter of the
    types. *)

From S2P Require Import Prelude RustStr.

Inductive NetworkSandboxPolicy := NetworkRestricted | NetworkEnabled.

Inductive FileSystemAccessMode := Read | Write | Deny.

#[global] Instance FileSystemAccessMode_eq_dec : EqDecision FileSystemAccessMode.
Proof. solve_decision. Defined.

Definition can_read (m : FileSystemAccessMode) : bool :=
  match m with Deny => false | _ => true end.
Definition can_write (m : FileSystemAccessMode) : bool :=
  match m with Write => true | _ => false end.

(** The derived order: a later mode wins a conflict. *)
Definition access_rank (m : FileSystemAccessMode) : nat :=
  match m with Read => 0 | Write => 1 | Deny => 2 end.

Inductive FileSystemSpecialPath :=
| Root
| Minimal
| ProjectRoots (subpath : option str)
| Tmpdir
| SlashTmp
| Unknown (path : str) (subpath : option str).

#[global] Instance FileSystemSpecialPath_eq_dec : EqDecision FileSystemSpecialPath.
Proof. solve_decision. Defined.

Inductive FileSystemPath (uri : Type) :=
| PathEntry (path : uri)
| GlobPattern (pattern : str)
| Special (value : FileSystemSpecialPath).
Arguments PathEntry {uri}.
Arguments GlobPattern {uri}.
Arguments Special {uri}.

#[global] Instance FileSystemPath_eq_dec {uri} `{!EqDecision uri} : EqDecision (FileSystemPath uri).
Proof. solve_decision. Defined.

Inductive FileSystemSandboxEntryMissingPathBehavior := SkipMissing.

#[global] Instance MissingPathBehavior_eq_dec : EqDecision FileSystemSandboxEntryMissingPathBehavior.
Proof. solve_decision. Defined.

Record FileSystemSandboxEntry (uri : Type) := mk_entry {
  entry_path : FileSystemPath uri;
  access : FileSystemAccessMode;
  missing_path_behavior : option FileSystemSandboxEntryMissingPathBehavior;
}.
Arguments mk_entry {uri}.
Arguments entry_path {uri}.
Arguments access {uri}.
Arguments missing_path_behavior {uri}.

#[global] Instance FileSystemSandboxEntry_eq_dec {uri} `{!EqDecision uri} :
  EqDecision (FileSystemSandboxEntry uri).
Proof. solve_decision. Defined.

Definition new_entry {uri} (path : FileSystemPath uri) (mode : FileSystemAccessMode)
    : FileSystemSandboxEntry uri := mk_entry path mode None.
Definition skip_missing_path {uri} (path : FileSystemPath uri) (mode : FileSystemAccessMode)
    : FileSystemSandboxEntry uri := mk_entry path mode (Some SkipMissing).
Definition skips_missing_path {uri} (e : FileSystemSandboxEntry uri) : bool :=
  bool_decide (missing_path_behavior e = Some SkipMissing).

Inductive FileSystemSandboxKind := Restricted | Unrestricted | ExternalSandbox.

#[global] Instance FileSystemSandboxKind_eq_dec : EqDecision FileSystemSandboxKind.
Proof. solve_decision. Defined.

Record FileSystemSandboxPolicy (uri : Type) := {
  fs_kind : FileSystemSandboxKind;
  fs_glob_scan_max_depth : option N;
  fs_entries : list (FileSystemSandboxEntry uri);
}.
Arguments fs_kind {uri}.
Arguments fs_glob_scan_max_depth {uri}.
Arguments fs_entries {uri}.

Definition is_restricted {uri} (p : FileSystemSandboxPolicy uri) : bool :=
  match fs_kind p with Restricted => true | _ => false end.

Definition unrestricted {uri} : FileSystemSandboxPolicy uri :=
  {| fs_kind := Unrestricted; fs_glob_scan_max_depth := None; fs_entries := [] |}.
Definition external_sandbox {uri} : FileSystemSandboxPolicy uri :=
  {| fs_kind := ExternalSandbox; fs_glob_scan_max_depth := None; fs_entries := [] |}.
Definition restricted {uri} (entries : list (FileSystemSandboxEntry uri))
    : FileSystemSandboxPolicy uri :=
  {| fs_kind := Restricted; fs_glob_scan_max_depth := None; fs_entries := entries |}.

Definition read_only_file_system_entries {uri} : list (FileSystemSandboxEntry uri) :=
  [new_entry (Special Root) Read].
Definition read_only {uri} : FileSystemSandboxPolicy uri :=
  restricted read_only_file_system_entries.

Definition with_entries {uri} (p : FileSystemSandboxPolicy uri)
    (entries : list (FileSystemSandboxEntry uri)) : FileSystemSandboxPolicy uri :=
  {| fs_kind := fs_kind p; fs_glob_scan_max_depth := fs_glob_scan_max_depth p;
     fs_entries := entries |}.

(** ** Profiles *)

Inductive ManagedFileSystemPermissions (uri : Type) :=
| ManagedRestricted (entries : list (FileSystemSandboxEntry uri)) (glob_scan_max_depth : option N)
| ManagedUnrestricted.
Arguments ManagedRestricted {uri}.
Arguments ManagedUnrestricted {uri}.

Inductive PermissionProfile (uri : Type) :=
| Managed (file_system : ManagedFileSystemPermissions uri) (network : NetworkSandboxPolicy)
| Disabled
| External (network : NetworkSandboxPolicy).
Arguments Managed {uri}.
Arguments Disabled {uri}.
Arguments External {uri}.

Definition to_sandbox_policy {uri} (p : ManagedFileSystemPermissions uri)
    : FileSystemSandboxPolicy uri :=
  match p with
  | ManagedRestricted entries depth =>
      {| fs_kind := Restricted; fs_glob_scan_max_depth := depth; fs_entries := entries |}
  | ManagedUnrestricted => unrestricted
  end.

Definition file_system_sandbox_policy {uri} (p : PermissionProfile uri)
    : FileSystemSandboxPolicy uri :=
  match p with
  | Managed file_system _ => to_sandbox_policy file_system
  | Disabled => unrestricted
  | External _ => external_sandbox
  end.

Definition network_sandbox_policy {uri} (p : PermissionProfile uri) : NetworkSandboxPolicy :=
  match p with
  | Managed _ network | External network => network
  | Disabled => NetworkEnabled
  end.
