(* ===== verification/PatchParser.v ===== *)
(** * The patch parser

    [codex-rs/apply-patch/src/parser.rs] and [streaming_parser.rs]: the hunk
    data model, the line-driven streaming parser (a state machine fed with text
    deltas) and the strict / lenient entry point [parse_patch].

    A Rust method that mutates [self] and returns a [Result] becomes a function
    to the new parser and the result.  [process_line] and its helpers do not
    mutate the parser before returning an error, so they return the new parser
    inside the result. *)

From S2P Require Import Prelude RustStr.

(** ** Markers (parser.rs) *)

Definition BEGIN_PATCH_MARKER : str := lit "*** Begin Patch".
Definition END_PATCH_MARKER : str := lit "*** End Patch".
Definition ADD_FILE_MARKER : str := lit "*** Add File: ".
Definition DELETE_FILE_MARKER : str := lit "*** Delete File: ".
Definition UPDATE_FILE_MARKER : str := lit "*** Update File: ".
Definition MOVE_TO_MARKER : str := lit "*** Move to: ".
Definition EOF_MARKER : str := lit "*** End of File".
Definition CHANGE_CONTEXT_MARKER : str := lit "@@ ".
Definition EMPTY_CHANGE_CONTEXT_MARKER : str := lit "@@".
Definition ENVIRONMENT_ID_MARKER : str := lit "*** Environment ID:".

(** ** Data model (parser.rs) *)

Inductive ParseError :=
| InvalidPatchError (message : str)
| InvalidHunkError (message : str) (line_number : nat).

Record UpdateFileChunk := {
  change_context : option str;
  old_lines : list str;
  new_lines : list str;
  context_line_indices : list (nat * nat);
  is_end_of_file : bool;
}.

(** [UpdateFileChunk::default()]. *)
Definition default_chunk : UpdateFileChunk :=
  {| change_context := None; old_lines := []; new_lines := [];
     context_line_indices := []; is_end_of_file := false |}.

Inductive Hunk :=
| AddFile (path : str) (contents : str)
| DeleteFile (path : str)
| UpdateFile (path : str) (move_path : option str) (chunks : list UpdateFileChunk).

#[global] Instance ParseError_eq_dec : EqDecision ParseError.
Proof. solve_decision. Defined.
#[global] Instance UpdateFileChunk_eq_dec : EqDecision UpdateFileChunk.
Proof. solve_decision. Defined.
#[global] Instance Hunk_eq_dec : EqDecision Hunk.
Proof. solve_decision. Defined.

(** [Hunk::path]: the path affected, the destination of a move. *)
Definition hunk_path (h : Hunk) : str :=
  match h with
  | AddFile path _ => path
  | DeleteFile path => path
  | UpdateFile _ (Some path) _ => path
  | UpdateFile path None _ => path
  end.

(** [UpdateFileChunk::push_context_line]. *)
Definition push_context_line (line : str) (c : UpdateFileChunk) : UpdateFileChunk :=
  {| change_context := change_context c;
     old_lines := old_lines c ++ [line];
     new_lines := new_lines c ++ [line];
     context_line_indices :=
       context_line_indices c ++ [(length (old_lines c), length (new_lines c))];
     is_end_of_file := is_end_of_file c |}.

(** [chunk.new_lines.push(line)], [chunk.old_lines.push(line)] and
    [chunk.is_end_of_file = true]. *)
Definition push_new_line (line : str) (c : UpdateFileChunk) : UpdateFileChunk :=
  {| change_context := change_context c; old_lines := old_lines c;
     new_lines := new_lines c ++ [line];
     context_line_indices := context_line_indices c; is_end_of_file := is_end_of_file c |}.
Definition push_old_line (line : str) (c : UpdateFileChunk) : UpdateFileChunk :=
  {| change_context := change_context c; old_lines := old_lines c ++ [line];
     new_lines := new_lines c;
     context_line_indices := context_line_indices c; is_end_of_file := is_end_of_file c |}.
Definition mark_end_of_file (c : UpdateFileChunk) : UpdateFileChunk :=
  {| change_context := change_context c; old_lines := old_lines c;
     new_lines := new_lines c;
     context_line_indices := context_line_indices c; is_end_of_file := true |}.

(** ** The streaming parser (streaming_parser.rs) *)

Inductive StreamingParserMode :=
| NotStarted
| StartedPatch
| InAddFile
| InDeleteFile
| InUpdateFile (hunk_line_number : nat)
| EndedPatch.

Record StreamingParserState := {
  mode : StreamingParserMode;
  hunks : list Hunk;
  environment_id : option str;
}.

Record StreamingPatchParser := {
  line_buffer : str;
  state : StreamingParserState;
  line_number : nat;
}.

Definition default_parser : StreamingPatchParser :=
  {| line_buffer := [];
     state := {| mode := NotStarted; hunks := []; environment_id := None |};
     line_number := 0 |}.

Definition set_state (st : StreamingParserState) (p : StreamingPatchParser) :=
  {| line_buffer := line_buffer p; state := st; line_number := line_number p |}.
Definition set_mode (m : StreamingParserMode) (p : StreamingPatchParser) :=
  set_state {| mode := m; hunks := hunks (state p);
               environment_id := environment_id (state p) |} p.
Definition set_hunks (hs : list Hunk) (p : StreamingPatchParser) :=
  set_state {| mode := mode (state p); hunks := hs;
               environment_id := environment_id (state p) |} p.
Definition set_environment_id (e : str) (p : StreamingPatchParser) :=
  set_state {| mode := mode (state p); hunks := hunks (state p);
               environment_id := Some e |} p.

Definition push_hunk (h : Hunk) (p : StreamingPatchParser) :=
  set_hunks (hunks (state p) ++ [h]) p.

(** [chunk.old_lines.is_empty() && chunk.new_lines.is_empty()]. *)
Definition chunk_is_blank (c : UpdateFileChunk) : bool :=
  is_empty (old_lines c) && is_empty (new_lines c).

Definition msg_unexpected_line (line : str) : str :=
  lit "Unexpected line found in update hunk: '" ++ line
  ++ lit "'. Every line should start with ' ' (context line), '+' (added line), or '-' (removed line)".
Definition msg_expected_context (line : str) : str :=
  lit "Expected update hunk to start with a @@ context marker, got: '" ++ line ++ lit "'".
Definition msg_bad_header (trimmed : str) : str :=
  lit "'" ++ trimmed
  ++ lit "' is not a valid hunk header. Valid hunk headers: '*** Add File: {path}', '*** Delete File: {path}', '*** Update File: {path}'".
Definition msg_no_lines : str := lit "Update hunk does not contain any lines".
Definition msg_first_line : str := lit "The first line of the patch must be '*** Begin Patch'".
Definition msg_last_line : str := lit "The last line of the patch must be '*** End Patch'".

Definition ensure_update_hunk_is_not_empty (p : StreamingPatchParser) (line : str)
  : result unit ParseError :=
  match last (hunks (state p)) with
  | Some (UpdateFile path _ chunks) =>
      match is_empty chunks, mode (state p) with
      | true, InUpdateFile hunk_line_number =>
          Err (InvalidHunkError
                 (lit "Update file hunk for path '" ++ path ++ lit "' is empty")
                 hunk_line_number)
      | _, _ =>
          if is_some_and (last chunks) chunk_is_blank then
            if bool_decide (line = END_PATCH_MARKER)
            then Err (InvalidHunkError msg_no_lines (line_number p))
            else Err (InvalidHunkError (msg_unexpected_line line) (line_number p))
          else Ok ()
      end
  | _ => Ok ()
  end.

Definition is_started (m : StreamingParserMode) : bool :=
  match m with StartedPatch => true | _ => false end.

(** [handle_hunk_headers_and_end_patch]: [Some p'] is [Ok(true)] with the new
    parser, [None] is [Ok(false)]. *)
Definition handle_hunk_headers_and_end_patch (p : StreamingPatchParser) (trimmed : str)
  : result (option StreamingPatchParser) ParseError :=
  match (if is_started (mode (state p)) then strip_prefix ENVIRONMENT_ID_MARKER trimmed
         else None) with
  | Some env =>
      match environment_id (state p) with
      | Some _ =>
          Err (InvalidPatchError
                 (lit "apply_patch environment_id cannot be specified more than once"))
      | None =>
          let env := trim env in
          if is_empty env
          then Err (InvalidPatchError (lit "apply_patch environment_id cannot be empty"))
          else Ok (Some (set_environment_id env p))
      end
  | None =>
      if bool_decide (trimmed = END_PATCH_MARKER) then
        let? _ := ensure_update_hunk_is_not_empty p trimmed in
        Ok (Some (set_mode EndedPatch p))
      else
      match strip_prefix ADD_FILE_MARKER trimmed with
      | Some path =>
          let? _ := ensure_update_hunk_is_not_empty p trimmed in
          Ok (Some (set_mode InAddFile (push_hunk (AddFile path []) p)))
      | None =>
      match strip_prefix DELETE_FILE_MARKER trimmed with
      | Some path =>
          let? _ := ensure_update_hunk_is_not_empty p trimmed in
          Ok (Some (set_mode InDeleteFile (push_hunk (DeleteFile path) p)))
      | None =>
      match strip_prefix UPDATE_FILE_MARKER trimmed with
      | Some path =>
          let? _ := ensure_update_hunk_is_not_empty p trimmed in
          Ok (Some (set_mode (InUpdateFile (line_number p))
                      (push_hunk (UpdateFile path None []) p)))
      | None => Ok None
      end end end
  end.

(** [if chunks.is_empty() { chunks.push(default) }
     if let Some(chunk) = chunks.last_mut() { f(chunk) }]. *)
Definition with_last_chunk (f : UpdateFileChunk → UpdateFileChunk)
    (chunks : list UpdateFileChunk) : list UpdateFileChunk :=
  update_last f (if is_empty chunks then [default_chunk] else chunks).

(** The [UpdateFile] mode's work on the last hunk: the new move path and
    chunks, or the error message. *)
Definition process_update_line (line update_line : str) (move_path : option str)
    (chunks : list UpdateFileChunk)
  : result (option str * list UpdateFileChunk) str :=
  let is_context := bool_decide (update_line = EMPTY_CHANGE_CONTEXT_MARKER)
                    || starts_with update_line CHANGE_CONTEXT_MARKER in
  let last_blank := is_some_and (last chunks) chunk_is_blank in
  if is_some_and (last chunks) is_end_of_file && is_empty update_line then
    Ok (move_path, chunks)
  else if is_some_and (last chunks) is_end_of_file && negb is_context then
    Err (msg_expected_context line)
  else
  match (if is_empty chunks && is_none move_path
         then strip_prefix MOVE_TO_MARKER update_line else None) with
  | Some move_to_path => Ok (Some move_to_path, chunks)
  | None =>
  if is_context && last_blank then Err (msg_unexpected_line line)
  else if bool_decide (update_line = EMPTY_CHANGE_CONTEXT_MARKER) then
    Ok (move_path, chunks ++ [default_chunk])
  else
  match strip_prefix CHANGE_CONTEXT_MARKER update_line with
  | Some ctx =>
      Ok (move_path,
          chunks ++ [{| change_context := Some ctx; old_lines := []; new_lines := [];
                        context_line_indices := []; is_end_of_file := false |}])
  | None =>
  if bool_decide (update_line = EOF_MARKER) then
    if last_blank then Err msg_no_lines
    else Ok (move_path, update_last mark_end_of_file chunks)
  else if is_empty line then
    Ok (move_path, with_last_chunk (push_context_line []) chunks)
  else
  match strip_prefix (lit " ") line with
  | Some line_to_add => Ok (move_path, with_last_chunk (push_context_line line_to_add) chunks)
  | None =>
  match strip_prefix (lit "+") line with
  | Some line_to_add => Ok (move_path, with_last_chunk (push_new_line line_to_add) chunks)
  | None =>
  match strip_prefix (lit "-") line with
  | Some line_to_remove => Ok (move_path, with_last_chunk (push_old_line line_to_remove) chunks)
  | None =>
  if is_some_and (last chunks) (λ c, negb (chunk_is_blank c))
  then Err (msg_expected_context line)
  else Err (msg_unexpected_line line)
  end end end end end.

Definition process_line (p : StreamingPatchParser) (line : str)
  : result StreamingPatchParser ParseError :=
  let trimmed := trim line in
  let hunk_error msg := Err (InvalidHunkError msg (line_number p)) in
  match mode (state p) with
  | NotStarted =>
      if bool_decide (trimmed = BEGIN_PATCH_MARKER) then Ok (set_mode StartedPatch p)
      else Err (InvalidPatchError msg_first_line)
  | StartedPatch =>
      let? handled := handle_hunk_headers_and_end_patch p trimmed in
      match handled with
      | Some p' => Ok p'
      | None => hunk_error (msg_bad_header trimmed)
      end
  | InAddFile =>
      let? handled := handle_hunk_headers_and_end_patch p trimmed in
      match handled with
      | Some p' => Ok p'
      | None =>
          match strip_prefix (lit "+") line, last (hunks (state p)) with
          | Some line_to_add, Some (AddFile path contents) =>
              Ok (set_hunks (update_last
                    (λ _, AddFile path (contents ++ line_to_add ++ [nl])) (hunks (state p))) p)
          | _, _ => hunk_error (msg_bad_header trimmed)
          end
      end
  | InDeleteFile =>
      let? handled := handle_hunk_headers_and_end_patch p trimmed in
      match handled with
      | Some p' => Ok p'
      | None => hunk_error (msg_bad_header trimmed)
      end
  | InUpdateFile hunk_line_number =>
      let update_line := trim_end line in
      let? handled := handle_hunk_headers_and_end_patch p update_line in
      match handled with
      | Some p' => Ok p'
      | None =>
          match last (hunks (state p)) with
          | Some (UpdateFile path move_path chunks) =>
              match process_update_line line update_line move_path chunks with
              | Ok (move_path', chunks') =>
                  Ok (set_mode (InUpdateFile hunk_line_number)
                        (set_hunks (update_last
                           (λ _, UpdateFile path move_path' chunks') (hunks (state p))) p))
              | Err msg => hunk_error msg
              end
          | _ => hunk_error (msg_unexpected_line line)
          end
      end
  | EndedPatch =>
      if is_empty trimmed then Ok p else Err (InvalidPatchError msg_last_line)
  end.

(** One completed line of [push_delta]: take the buffer, drop one trailing
    carriage return, count the line, process it. *)
Definition set_line_buffer (b : str) (p : StreamingPatchParser) :=
  {| line_buffer := b; state := state p; line_number := line_number p |}.
Definition next_line (p : StreamingPatchParser) : StreamingPatchParser :=
  {| line_buffer := []; state := state p; line_number := S (line_number p) |}.
Definition strip_cr (line : str) : str :=
  match strip_suffix [cr] line with Some l => l | None => line end.

Definition push_char (p : StreamingPatchParser) (ch : char)
  : StreamingPatchParser * result unit ParseError :=
  if (ch =? nl)%N then
    let line := strip_cr (line_buffer p) in
    match process_line (next_line p) line with
    | Ok p' => (p', Ok ())
    | Err e => (next_line p, Err e)
    end
  else (set_line_buffer (line_buffer p ++ [ch]) p, Ok ()).

Fixpoint push_chars (p : StreamingPatchParser) (delta : str)
  : StreamingPatchParser * result unit ParseError :=
  match delta with
  | [] => (p, Ok ())
  | ch :: delta' =>
      match push_char p ch with
      | (p', Ok _) => push_chars p' delta'
      | (p', Err e) => (p', Err e)
      end
  end.

Definition push_delta (p : StreamingPatchParser) (delta : str)
  : StreamingPatchParser * result (list Hunk) ParseError :=
  match push_chars p delta with
  | (p', Ok _) => (p', Ok (hunks (state p')))
  | (p', Err e) => (p', Err e)
  end.

Definition is_ended (m : StreamingParserMode) : bool :=
  match m with EndedPatch => true | _ => false end.

(** [finish] up to its last test: the buffered line, if any, is processed. *)
Definition finish_buffer (p : StreamingPatchParser)
  : StreamingPatchParser * result unit ParseError :=
  if is_empty (line_buffer p) then (p, Ok ()) else
  let line := line_buffer p in
  let p := next_line p in
  if bool_decide (trim line = END_PATCH_MARKER) then
    match ensure_update_hunk_is_not_empty p (trim line) with
    | Ok _ => (set_mode EndedPatch p, Ok ())
    | Err e => (p, Err e)
    end
  else
    match process_line p line with
    | Ok p' => (p', Ok ())
    | Err e => (p, Err e)
    end.

Definition finish (p : StreamingPatchParser)
  : StreamingPatchParser * result (list Hunk) ParseError :=
  match finish_buffer p with
  | (p', Err e) => (p', Err e)
  | (p', Ok _) =>
      if is_ended (mode (state p')) then (p', Ok (hunks (state p')))
      else (p', Err (InvalidPatchError msg_last_line))
  end.

(** ** The entry point (parser.rs) *)

Inductive ParseMode := Strict | Lenient.

Record ApplyPatchArgs := {
  args_patch : str;
  args_hunks : list Hunk;
  args_workdir : option str;
  args_environment_id : option str;
}.

Definition check_start_and_end_lines_strict (first_line last_line : option str)
  : result unit ParseError :=
  match trim <$> first_line, trim <$> last_line with
  | Some first, last =>
      if bool_decide (first = BEGIN_PATCH_MARKER)
         && is_some_and last (λ l, bool_decide (l = END_PATCH_MARKER)) then Ok ()
      else if negb (bool_decide (first = BEGIN_PATCH_MARKER)) then
        Err (InvalidPatchError msg_first_line)
      else Err (InvalidPatchError msg_last_line)
  | None, _ => Err (InvalidPatchError msg_last_line)
  end.

Definition check_patch_boundaries_strict (ls : list str) : result (list str) ParseError :=
  let? _ := check_start_and_end_lines_strict (head ls) (last ls) in Ok ls.

(** The heredoc openers [<<EOF], [<<'EOF'] and [<<"EOF"]. *)
Definition is_heredoc_open (first : str) : bool :=
  bool_decide (first = lit "<<EOF") || bool_decide (first = lit "<<'EOF'")
  || bool_decide (first = lit "<<" ++ [34%N] ++ lit "EOF" ++ [34%N]).

Definition check_patch_boundaries_lenient (original_lines : list str)
  : result (list str) ParseError :=
  match check_patch_boundaries_strict original_lines with
  | Ok ls => Ok ls
  | Err original_parse_error =>
      match original_lines, last original_lines with
      | first :: _ :: _, Some lst =>
          if is_heredoc_open first && ends_with lst (lit "EOF")
             && (4 <=? length original_lines) then
            check_patch_boundaries_strict
              (take (length original_lines - 2) (drop 1 original_lines))
          else Err original_parse_error
      | _, _ => Err original_parse_error
      end
  end.

Definition parse_patch_text (patch : str) (m : ParseMode) : result ApplyPatchArgs ParseError :=
  let ls := lines (trim patch) in
  let? patch_lines :=
    match m with
    | Strict => check_patch_boundaries_strict ls
    | Lenient => check_patch_boundaries_lenient ls
    end in
  let patch := join [nl] patch_lines in
  match push_delta default_parser patch with
  | (_, Err e) => Err e
  | (p, Ok _) =>
      match finish p with
      | (_, Err e) => Err e
      | (p, Ok hs) =>
          Ok {| args_patch := patch; args_hunks := hs; args_workdir := None;
                args_environment_id := environment_id (state p) |}
      end
  end.

Definition PARSE_IN_STRICT_MODE : bool := false.

Definition parse_patch (patch : str) : result ApplyPatchArgs ParseError :=
  parse_patch_text patch (if PARSE_IN_STRICT_MODE then Strict else Lenient).

(** ** Streaming: the way the text is cut into deltas does not matter *)

(** Feed several deltas, stopping at the first error. *)
Fixpoint push_all (p : StreamingPatchParser) (deltas : list str)
  : StreamingPatchParser * result (list Hunk) ParseError :=
  match deltas with
  | [] => push_delta p []
  | d :: ds =>
      match push_delta p d with
      | (p', Ok _) => push_all p' ds
      | (p', Err e) => (p', Err e)
      end
  end.

Lemma push_chars_app p d1 d2 :
  push_chars p (d1 ++ d2) =
  match push_chars p d1 with
  | (p', Ok _) => push_chars p' d2
  | (p', Err e) => (p', Err e)
  end.
Proof.
  revert p; induction d1 as [|c d1 IH]; intros p; simpl; [done|].
  destruct (push_char p c) as [p' [|]]; [apply IH|done].
Qed.

(** However a patch text is cut into deltas, feeding the deltas one after
    the other leaves the streaming parser in the same state and returns the
    same hunks or the same error as feeding the whole text at once. *)
Theorem push_all_concat p deltas : push_all p deltas = push_delta p (concat deltas).
Proof.
  revert p; induction deltas as [|d ds IH]; intros p; simpl; [done|].
  unfold push_delta at 1 2. rewrite push_chars_app.
  destruct (push_chars p d) as [p' [|]]; [|done]. rewrite IH. done.
Qed.

(** ** Well-formed chunks and hunks *)

Definition pair_lt (a b : nat * nat) : Prop := a.1 < b.1 ∧ a.2 < b.2.

(** The recorded context lines exist on both sides, are equal there, and are
    recorded in order. *)
Definition chunk_wf (c : UpdateFileChunk) : Prop :=
  StronglySorted pair_lt (context_line_indices c) ∧
  Forall (λ ij, ∃ l, old_lines c !! ij.1 = Some l ∧ new_lines c !! ij.2 = Some l)
    (context_line_indices c).

Definition chunk_full (c : UpdateFileChunk) : Prop := chunk_is_blank c = false.

Definition hunk_wf (h : Hunk) : Prop :=
  match h with
  | AddFile _ contents => contents = [] ∨ ∃ s, contents = s ++ [nl]
  | DeleteFile _ => True
  | UpdateFile _ _ chunks => chunks ≠ [] ∧ Forall (λ c, chunk_wf c ∧ chunk_full c) chunks
  end.

(** The chunks of a hunk that is still being read: only the last may be blank. *)
Definition chunks_open (chunks : list UpdateFileChunk) : Prop :=
  chunks = [] ∨ ∃ cs c, chunks = cs ++ [c] ∧
    Forall (λ c, chunk_wf c ∧ chunk_full c) cs ∧ chunk_wf c.

Definition env_wf (e : option str) : Prop :=
  match e with Some s => s ≠ [] ∧ trim s = s | None => True end.

Definition state_inv (st : StreamingParserState) : Prop :=
  env_wf (environment_id st) ∧
  match mode st with
  | NotStarted | StartedPatch => hunks st = []
  | InAddFile => Forall hunk_wf (hunks st) ∧ ∃ path c, last (hunks st) = Some (AddFile path c)
  | InDeleteFile => Forall hunk_wf (hunks st) ∧ ∃ path, last (hunks st) = Some (DeleteFile path)
  | InUpdateFile _ =>
      ∃ hs path mv cs, hunks st = hs ++ [UpdateFile path mv cs] ∧
        Forall hunk_wf hs ∧ chunks_open cs
  | EndedPatch => Forall hunk_wf (hunks st)
  end.

Lemma chunk_wf_default ctx :
  chunk_wf {| change_context := ctx; old_lines := []; new_lines := [];
              context_line_indices := []; is_end_of_file := false |}.
Proof. split; simpl; constructor. Qed.

Lemma chunk_wf_bounds c ij :
  chunk_wf c → ij ∈ context_line_indices c →
  ij.1 < length (old_lines c) ∧ ij.2 < length (new_lines c).
Proof.
  intros [_ Hf] Hin. rewrite Forall_forall in Hf.
  destruct (Hf _ Hin) as (l & H1 & H2). split; by eapply lookup_lt_Some.
Qed.

Lemma chunk_wf_push_context line c : chunk_wf c → chunk_wf (push_context_line line c).
Proof.
  intros Hwf. pose proof (chunk_wf_bounds c) as Hb. destruct Hwf as [Hs Hf]. split; simpl.
  - apply StronglySorted_snoc; [done|]. apply Forall_forall. intros ij Hin.
    unfold pair_lt; simpl. by apply Hb.
  - apply Forall_app. split.
    + eapply Forall_impl; [done|]. intros ij (l & H1 & H2).
      exists l. split; by apply lookup_app_l_Some.
    + constructor; [|constructor]. exists line; simpl.
      by rewrite !list_lookup_middle.
Qed.

Lemma chunk_wf_push_new line c : chunk_wf c → chunk_wf (push_new_line line c).
Proof.
  intros [Hs Hf]. split; simpl; [done|]. eapply Forall_impl; [done|].
  intros ij (l & H1 & H2). exists l. split; [done|]. by apply lookup_app_l_Some.
Qed.

Lemma chunk_wf_push_old line c : chunk_wf c → chunk_wf (push_old_line line c).
Proof.
  intros [Hs Hf]. split; simpl; [done|]. eapply Forall_impl; [done|].
  intros ij (l & H1 & H2). exists l. split; [|done]. by apply lookup_app_l_Some.
Qed.

Lemma chunk_wf_mark_eof c : chunk_wf c → chunk_wf (mark_end_of_file c).
Proof. by intros [Hs Hf]. Qed.

#[export] Hint Resolve chunk_wf_default chunk_wf_push_context chunk_wf_push_new
  chunk_wf_push_old chunk_wf_mark_eof : zip.

Lemma chunks_open_update_last f cs :
  (∀ c, chunk_wf c → chunk_wf (f c)) → chunks_open cs → chunks_open (update_last f cs).
Proof.
  intros Hf [->|(cs' & c & -> & Hcs & Hc)]; [by left|right].
  rewrite update_last_snoc. exists cs', (f c). auto.
Qed.

Lemma chunks_open_with_last f cs :
  (∀ c, chunk_wf c → chunk_wf (f c)) → chunks_open cs → chunks_open (with_last_chunk f cs).
Proof.
  intros Hf Hcs. unfold with_last_chunk. apply chunks_open_update_last; [done|].
  destruct cs; simpl; [|done]. right. exists [], default_chunk.
  split_and!; [done|constructor|apply chunk_wf_default].
Qed.

(** Opening a new chunk is guarded by the previous one not being blank. *)
Lemma chunks_open_snoc cs c :
  chunks_open cs → is_some_and (last cs) chunk_is_blank = false → chunk_wf c →
  chunks_open (cs ++ [c]).
Proof.
  intros Hcs Hlast Hc. right. exists cs, c. split_and!; [done| |done].
  destruct Hcs as [->|(cs' & c' & -> & Hcs & Hc')]; [constructor|].
  rewrite last_snoc in Hlast. apply Forall_app. auto.
Qed.

Lemma process_update_line_open line update_line mv cs mv' cs' :
  process_update_line line update_line mv cs = Ok (mv', cs') →
  chunks_open cs → chunks_open cs'.
Proof.
  unfold process_update_line. intros H Hcs.
  repeat case_m_in H; simplify_eq; bool_prop; try done;
    eauto using chunks_open_update_last, chunks_open_with_last with zip.
  all: apply chunks_open_snoc; [done| |apply chunk_wf_default].
  all: destruct (is_some_and (last cs) chunk_is_blank); [|done].
  all: rewrite andb_true_r in *; bool_prop; try congruence.
  all: match goal with H : strip_prefix _ _ = Some _ |- _ => apply strip_prefix_Some in H end.
  all: match goal with H : starts_with _ _ = false |- _ =>
         rewrite (proj2 (starts_with_spec _ _)) in H by eauto end; done.
Qed.

(** What the non-emptiness check establishes for the last hunk. *)
Lemma ensure_complete p line :
  state_inv (state p) → ensure_update_hunk_is_not_empty p line = Ok () →
  Forall hunk_wf (hunks (state p)).
Proof.
  unfold state_inv, ensure_update_hunk_is_not_empty. intros [_ Hinv].
  destruct (mode (state p)) eqn:Hm; try (rewrite Hinv; intros; by constructor);
    try (by destruct Hinv); try (by intros).
  destruct Hinv as (hs & path & mv & cs & Hhs & Hwf & Hopen). rewrite Hhs, last_snoc.
  destruct Hopen as [->|(cs' & c & -> & Hcs & Hc)]; [done|].
  replace (is_empty (cs' ++ [c])) with false by (by destruct cs').
  rewrite last_snoc; simpl. destruct (chunk_is_blank c) eqn:Hb; [case_m; done|].
  intros _. apply Forall_app. split; [done|]. constructor; [|constructor].
  split; [by destruct cs'|]. apply Forall_app. split; [done|]. by apply Forall_singleton.
Qed.

Lemma handle_headers_inv p trimmed p' :
  state_inv (state p) → handle_hunk_headers_and_end_patch p trimmed = Ok (Some p') →
  state_inv (state p').
Proof.
  unfold handle_hunk_headers_and_end_patch. intros Hinv H.
  destruct (if is_started _ then _ else _) as [env|] eqn:Henv.
  { destruct (is_started (mode (state p))) eqn:Hm; [|done].
    case_m_in H; [done|]. case_m_in H; simplify_eq.
    destruct Hinv as [_ Hinv]. split; simpl.
    - split; [by apply is_empty_false|apply trim_idemp].
    - by destruct (mode (state p)). }
  destruct (bool_decide _); [|repeat case_m_in H].
  all: try match type of H with context [ensure_update_hunk_is_not_empty ?q ?l] =>
    destruct (ensure_update_hunk_is_not_empty q l) as [[]|] eqn:He end; simplify_eq/=.
  all: pose proof (ensure_complete _ _ Hinv He) as Hall.
  all: destruct Hinv as [Henvwf _]; split; simpl; try done.
  - split; [|rewrite last_snoc; eauto]. apply Forall_app; repeat constructor; auto.
  - split; [|rewrite last_snoc; eauto]. apply Forall_app; repeat constructor; auto.
  - eexists _, _, _, _. split_and!; [done..|by left].
Qed.

Lemma process_line_inv p line p' :
  state_inv (state p) → process_line p line = Ok p' → state_inv (state p').
Proof.
  intros Hinv. unfold process_line.
  destruct (mode (state p)) eqn:Hm.
  - case_m; intros; simplify_eq. destruct Hinv as [? Hinv]. rewrite Hm in Hinv. by split.
  - destruct (handle_hunk_headers_and_end_patch p _) as [[q|]|] eqn:Hh; simpl; intros; simplify_eq.
    eauto using handle_headers_inv.
  - destruct (handle_hunk_headers_and_end_patch p _) as [[q|]|] eqn:Hh; simpl; intros H; simplify_eq;
      [eauto using handle_headers_inv|].
    destruct Hinv as [? Hinv]. rewrite Hm in Hinv. destruct Hinv as [Hall (path & c & Hl)].
    rewrite Hl in H. case_m_in H; simplify_eq. split; simpl; [done|]. rewrite Hm.
    destruct (list_snoc_cases (hunks (state p))) as [Hn|(hs & h & Hhs)];
      [by rewrite Hn in Hl|]. rewrite Hhs, update_last_snoc, last_snoc in *.
    apply Forall_app in Hall as [Hall _]. split; [|eauto].
    apply Forall_app. split; [done|]. apply Forall_singleton. simpl. right.
    eexists (c ++ _). by rewrite <- app_assoc.
  - destruct (handle_hunk_headers_and_end_patch p _) as [[q|]|] eqn:Hh; simpl; intros; simplify_eq.
    eauto using handle_headers_inv.
  - destruct (handle_hunk_headers_and_end_patch p _) as [[q|]|] eqn:Hh; simpl; intros H; simplify_eq;
      [eauto using handle_headers_inv|].
    destruct Hinv as [? Hinv]. rewrite Hm in Hinv.
    destruct Hinv as (hs & path & mv & cs & Hhs & Hwf & Hopen).
    rewrite Hhs, last_snoc in H.
    destruct (process_update_line _ _ _ _) as [[mv' cs']|] eqn:Hp; simplify_eq.
    split; simpl; [done|]. rewrite update_last_snoc.
    eexists _, _, _, _. eauto using process_update_line_open.
  - case_m; intros; simplify_eq. done.
Qed.

Lemma push_chars_inv p d p' r :
  state_inv (state p) → push_chars p d = (p', r) → state_inv (state p').
Proof.
  revert p; induction d as [|c d IH]; intros p Hinv; simpl; [by intros [= <- _]|].
  unfold push_char. destruct (c =? nl)%N.
  - destruct (process_line (next_line p) _) as [q|e] eqn:Hp; simpl.
    + intros H. eapply IH; [|done]. by eapply process_line_inv; [|done].
    + by intros [= <- _].
  - intros H. by eapply IH; [|done].
Qed.

Lemma finish_inv p p' hs :
  state_inv (state p) → finish p = (p', Ok hs) →
  Forall hunk_wf hs ∧ env_wf (environment_id (state p')).
Proof.
  unfold finish. intros Hinv.
  assert (∀ q, finish_buffer p = (q, Ok ()) → state_inv (state q)) as Hq.
  { unfold finish_buffer. intros q. case_m; [by intros [= <-]|]. case_m.
    - destruct (ensure_update_hunk_is_not_empty _ _) as [[]|] eqn:He; [|done].
      intros [= <-]. split; [by destruct Hinv|]. simpl.
      eapply (ensure_complete (next_line p)); [done|exact He].
    - destruct (process_line _ _) eqn:Hp; [|done]. intros [= <-].
      by eapply process_line_inv; [|done]. }
  destruct (finish_buffer p) as [q [[]|e]] eqn:Hb; [|done].
  specialize (Hq q eq_refl) as [Henv Hinv']. destruct (mode (state q)) eqn:Hm; simpl; intros; simplify_eq.
  done.
Qed.

Lemma default_parser_inv : state_inv (state default_parser).
Proof. by split. Qed.

Lemma parse_patch_hunks_wf patch args :
  parse_patch patch = Ok args →
  Forall hunk_wf (args_hunks args) ∧ env_wf (args_environment_id args).
Proof.
  unfold parse_patch, parse_patch_text. destruct (match _ with Strict => _ | Lenient => _ end) as [ls|];
    [|done]. simpl. unfold push_delta.
  destruct (push_chars _ _) as [p [|]] eqn:Hp; [|done].
  destruct (finish p) as [p' [hs|]] eqn:Hf; [|done]. intros [= <-]. simpl.
  eapply finish_inv; [|done]. eapply push_chars_inv; [|done]. apply default_parser_inv.
Qed.

(** Every hunk a successful parse returns is well formed: an update hunk
    has at least one chunk, no chunk is blank, the recorded context lines are
    in range, equal on both sides and in order, an added file is empty or ends
    with a newline; and the environment id is trimmed and not empty. *)
Theorem parse_patch_wf patch args :
  parse_patch patch = Ok args →
  Forall hunk_wf (args_hunks args) ∧ env_wf (args_environment_id args).
Proof. apply parse_patch_hunks_wf. Qed.
