(* ===== verification/PatchGrammar.v ===== *)
(** * The patch grammar and the parser's completeness

    The Lark grammar in the head comment of [parser.rs], as a syntax tree with
    its printer, and the theorem that [parse_patch] accepts every text the
    grammar generates and returns the hunks the tree denotes. *)

From S2P Require Import Prelude RustStr PatchParser.

(** ** Syntax *)

Inductive change_line :=
| ContextLine (l : str)
| AddedLine (l : str)
| RemovedLine (l : str).

(** [change_context: ("@@" | "@@ " /(.+)/) LF]; the first change may lack it. *)
Inductive change_header :=
| NoHeader
| EmptyHeader
| ContextHeader (ctx : str).

Record change := {
  ch_header : change_header;
  ch_lines : list change_line;
  ch_eof : bool;
}.

Inductive hunk_syntax :=
| SAdd (path : str) (contents : list str)
| SDelete (path : str)
| SUpdate (path : str) (move_to : option str) (changes : list change).

Record patch_syntax := {
  ps_environment : option str;
  ps_hunks : list hunk_syntax;
}.

(** ** Printing *)

Definition print_change_line (l : change_line) : str :=
  match l with
  | ContextLine l => lit " " ++ l
  | AddedLine l => lit "+" ++ l
  | RemovedLine l => lit "-" ++ l
  end.

Definition print_header (h : change_header) : list str :=
  match h with
  | NoHeader => []
  | EmptyHeader => [EMPTY_CHANGE_CONTEXT_MARKER]
  | ContextHeader ctx => [CHANGE_CONTEXT_MARKER ++ ctx]
  end.

Definition print_change (c : change) : list str :=
  print_header (ch_header c) ++ (print_change_line <$> ch_lines c)
  ++ (if ch_eof c then [EOF_MARKER] else []).

Definition print_hunk (h : hunk_syntax) : list str :=
  match h with
  | SAdd path contents => (ADD_FILE_MARKER ++ path) :: ((λ l, lit "+" ++ l) <$> contents)
  | SDelete path => [DELETE_FILE_MARKER ++ path]
  | SUpdate path move_to changes =>
      (UPDATE_FILE_MARKER ++ path)
      :: from_option (λ m, [MOVE_TO_MARKER ++ m]) [] move_to
      ++ concat (print_change <$> changes)
  end.

Definition print_environment (e : option str) : list str :=
  from_option (λ e, [ENVIRONMENT_ID_MARKER ++ lit " " ++ e]) [] e.

Definition print_body (ps : patch_syntax) : list str :=
  print_environment (ps_environment ps) ++ concat (print_hunk <$> ps_hunks ps).

Definition print_lines (ps : patch_syntax) : list str :=
  BEGIN_PATCH_MARKER :: print_body ps ++ [END_PATCH_MARKER].

Definition print_patch (ps : patch_syntax) : str := join [nl] (print_lines ps).

(** ** Denotation *)

Definition denote_line (c : UpdateFileChunk) (l : change_line) : UpdateFileChunk :=
  match l with
  | ContextLine l => push_context_line l c
  | AddedLine l => push_new_line l c
  | RemovedLine l => push_old_line l c
  end.

Definition denote_header (h : change_header) : UpdateFileChunk :=
  {| change_context := match h with ContextHeader ctx => Some ctx | _ => None end;
     old_lines := []; new_lines := []; context_line_indices := []; is_end_of_file := false |}.

Definition denote_change (c : change) : UpdateFileChunk :=
  let chunk := foldl denote_line (denote_header (ch_header c)) (ch_lines c) in
  if ch_eof c then mark_end_of_file chunk else chunk.

Definition denote_hunk (h : hunk_syntax) : Hunk :=
  match h with
  | SAdd path contents => AddFile path (concat ((λ l, l ++ [nl]) <$> contents))
  | SDelete path => DeleteFile path
  | SUpdate path move_to changes => UpdateFile path move_to (denote_change <$> changes)
  end.

(** ** Well-formed syntax: each piece fits on its line *)

(** A name that ends a marker line: not empty and not changed by trimming. *)
Definition name_wf (s : str) : Prop := s ≠ [] ∧ trim_end s = s ∧ plain_line s.

Definition change_line_text (l : change_line) : str :=
  match l with ContextLine l | AddedLine l | RemovedLine l => l end.

Definition header_wf (h : change_header) : Prop :=
  match h with ContextHeader ctx => name_wf ctx | _ => True end.

(** A change has a context line or a changed line; only the first one may lack
    a context line.  Following the grammar, an update hunk may have no change and
    a change no lines. *)
Definition change_wf (c : change) : Prop :=
  header_wf (ch_header c) ∧ (ch_header c ≠ NoHeader ∨ ch_lines c ≠ []) ∧
  Forall (λ l, plain_line (change_line_text l)) (ch_lines c).

Definition hunk_path_of (h : hunk_syntax) : str :=
  match h with SAdd path _ | SDelete path | SUpdate path _ _ => path end.

Definition syntax_wf (h : hunk_syntax) : Prop :=
  name_wf (hunk_path_of h) ∧
  match h with
  | SAdd _ contents => Forall plain_line contents
  | SDelete _ => True
  | SUpdate _ move_to changes =>
      (∀ m, move_to = Some m → name_wf m) ∧ Forall change_wf changes ∧
      Forall (λ c, ch_header c ≠ NoHeader) (drop 1 changes)
  end.

Definition patch_wf (ps : patch_syntax) : Prop :=
  (∀ e, ps_environment ps = Some e → name_wf e ∧ trim e = e) ∧ Forall syntax_wf (ps_hunks ps).

(** What the parser wants besides: changes in every update hunk, and lines in
    every change. *)
Definition hunk_filled (h : hunk_syntax) : bool :=
  match h with
  | SUpdate _ _ changes =>
      negb (is_empty changes) && forallb (λ c, negb (is_empty (ch_lines c))) changes
  | _ => true
  end.

Definition change_full (c : change) : Prop := change_wf c ∧ ch_lines c ≠ [].
Definition syntax_full (h : hunk_syntax) : Prop := syntax_wf h ∧ hunk_filled h = true.
Definition patch_full (ps : patch_syntax) : Prop :=
  (∀ e, ps_environment ps = Some e → name_wf e ∧ trim e = e) ∧ Forall syntax_full (ps_hunks ps).

Lemma full_changes changes :
  Forall change_wf changes → forallb (λ c, negb (is_empty (ch_lines c))) changes = true →
  Forall change_full changes.
Proof.
  intros Hwf Hall. rewrite forallb_forall in Hall. apply Forall_forall. intros c Hc.
  split; [by eapply Forall_forall in Hwf|].
  specialize (Hall c (proj1 (list_elem_of_In _ _) Hc)). by destruct (ch_lines c).
Qed.

(** ** Plain lines *)

Lemma plain_line_app m s :
  nl ∉ m → plain_line s → s ≠ [] → plain_line (m ++ s).
Proof.
  intros Hm [Hnl Hcr] Hne. split; [set_solver|].
  destruct (list_snoc_cases s) as [->|(s' & c & ->)]; [done|].
  intros l' Hl. rewrite app_assoc in Hl. apply app_inj_2 in Hl as [_ [= ->]]; [|done].
  by eapply Hcr.
Qed.

Lemma plain_line_cons c s : c ≠ nl → c ≠ cr → plain_line s → plain_line (c :: s).
Proof.
  intros Hc Hcr Hs. destruct s as [|d s]; [|by apply (plain_line_app [c]); [set_solver|..]].
  split; [set_solver|]. intros [|? [|??]]; simpl; naive_solver.
Qed.

Lemma plain_line_dec (s : str) : Decision (plain_line s).
Proof.
  refine (match decide (nl ∈ s), decide (last s = Some cr) with
          | right H1, right H2 => left _ | _, _ => right _ end).
  - intros [? ?]; done.
  - intros [_ Hcr]. apply last_Some in e as (l' & ->). by eapply Hcr.
  - split; [done|]. intros l' ->. by rewrite last_snoc in H2.
Defined.
#[global] Existing Instance plain_line_dec.

Lemma name_wf_plain m s : nl ∉ m → name_wf s → plain_line (m ++ s).
Proof. intros Hm (? & ? & ?). by apply plain_line_app. Qed.

Ltac not_nl := by apply (bool_decide_eq_true_1 _); vm_compute.

Lemma print_lines_plain ps : patch_wf ps → Forall plain_line (print_lines ps).
Proof.
  intros [Henv Hhs]. unfold print_lines, print_body.
  constructor; [not_nl|]. rewrite !Forall_app. split_and!.
  - unfold print_environment. destruct (ps_environment ps) as [e|]; constructor; [|constructor].
    rewrite app_assoc. apply name_wf_plain; [not_nl|by apply Henv].
  - apply Forall_concat, Forall_fmap. eapply Forall_impl; [done|]. intros [path ls|path|path mv cs];
      intros [Hp Hwf]; revert Hp Hwf; cbn [print_hunk hunk_path_of].
    + intros Hp Hls. constructor; [apply name_wf_plain; [not_nl|done]|].
      apply Forall_fmap. eapply Forall_impl; [done|]. intros l Hl. by apply plain_line_cons.
    + intros Hp _. constructor; [apply name_wf_plain; [not_nl|done]|constructor].
    + intros Hp (Hmv & Hcs & _). constructor; [apply name_wf_plain; [not_nl|done]|].
      apply Forall_app. split.
      { destruct mv; constructor; [|constructor]. apply name_wf_plain; [not_nl|auto]. }
      apply Forall_concat, Forall_fmap. eapply Forall_impl; [done|]. intros c (Hh & _ & Hls).
      unfold compose, print_change. rewrite !Forall_app. split_and!.
      * destruct (ch_header c); constructor; [not_nl|constructor| |constructor].
        apply name_wf_plain; [not_nl|done].
      * apply Forall_fmap. eapply Forall_impl; [done|].
        intros [l|l|l]; intros Hl; by apply plain_line_cons.
      * destruct (ch_eof c); constructor; [not_nl|constructor].
  - constructor; [not_nl|constructor].
Qed.

(** ** Running the parser line by line *)

Fixpoint run_lines (p : StreamingPatchParser) (ls : list str)
  : result StreamingPatchParser ParseError :=
  match ls with
  | [] => Ok p
  | l :: ls' => let? p' := process_line (next_line p) l in run_lines p' ls'
  end.

Lemma run_lines_app p ls1 ls2 :
  run_lines p (ls1 ++ ls2) = let? p' := run_lines p ls1 in run_lines p' ls2.
Proof.
  revert p; induction ls1 as [|l ls1 IH]; intros p; simpl; [done|].
  destruct (process_line _ l); simpl; auto.
Qed.

Lemma run_lines_cons p l ls :
  run_lines p (l :: ls) = let? p' := run_lines p [l] in run_lines p' ls.
Proof. apply (run_lines_app p [l] ls). Qed.

Lemma handle_headers_buffer p t p' :
  handle_hunk_headers_and_end_patch p t = Ok (Some p') → line_buffer p' = line_buffer p.
Proof.
  unfold handle_hunk_headers_and_end_patch. intros H.
  repeat case_m_in H; simplify_eq; try done.
  all: destruct (ensure_update_hunk_is_not_empty p t); by simplify_eq/=.
Qed.

Lemma process_line_buffer p line p' :
  process_line p line = Ok p' → line_buffer p' = line_buffer p.
Proof.
  unfold process_line. intros H. destruct (mode (state p)).
  2-5: destruct (handle_hunk_headers_and_end_patch p _) as [[q|]|] eqn:Hh;
    simplify_eq/=; try by eapply handle_headers_buffer.
  all: repeat case_m_in H; by simplify_eq.
Qed.

Lemma strip_cr_plain l : plain_line l → strip_cr l = l.
Proof.
  intros [_ Hcr]. unfold strip_cr. destruct (strip_suffix [cr] l) eqn:H; [|done].
  apply strip_suffix_Some in H. by eapply Hcr in H.
Qed.

Lemma push_chars_noline p l :
  nl ∉ l → push_chars p l = (set_line_buffer (line_buffer p ++ l) p, Ok ()).
Proof.
  revert p; induction l as [|c l IH]; intros p Hnl; simpl.
  - rewrite app_nil_r. by destruct p.
  - unfold push_char. destruct (N.eqb_spec c nl) as [->|Hc]; [set_solver|].
    rewrite IH by set_solver. simpl. by rewrite <- app_assoc.
Qed.

Lemma push_chars_line p l rest :
  plain_line l → line_buffer p = [] →
  push_chars p (l ++ nl :: rest) =
  match process_line (next_line p) l with
  | Ok p' => push_chars p' rest
  | Err e => (next_line p, Err e)
  end.
Proof.
  intros Hl Hb. rewrite push_chars_app, push_chars_noline by apply Hl.
  simpl. rewrite Hb. simpl. unfold push_char. simpl.
  rewrite strip_cr_plain by done. unfold next_line; simpl.
  by destruct (process_line _ l).
Qed.

Lemma push_chars_lines p ls lst p' :
  line_buffer p = [] → Forall plain_line ls → nl ∉ lst →
  run_lines p ls = Ok p' →
  push_chars p (join [nl] (ls ++ [lst])) = (set_line_buffer lst p', Ok ()).
Proof.
  revert p; induction ls as [|l ls IH]; intros p Hb Hls Hlst Hrun; simpl in Hrun.
  - simplify_eq. simpl. rewrite push_chars_noline by done. by rewrite Hb.
  - apply Forall_cons in Hls as [Hl Hls].
    change ((l :: ls) ++ [lst]) with (l :: (ls ++ [lst])).
    rewrite join_cons by (by destruct ls). simpl.
    rewrite push_chars_line by done.
    destruct (process_line (next_line p) l) as [q|] eqn:Hq; simpl in Hrun; [|done].
    apply IH; try done. by rewrite (process_line_buffer _ _ _ Hq).
Qed.

Lemma push_chars_lines_err p ls lst e :
  line_buffer p = [] → Forall plain_line ls → run_lines p ls = Err e →
  ∃ p', push_chars p (join [nl] (ls ++ [lst])) = (p', Err e).
Proof.
  revert p; induction ls as [|l ls IH]; intros p Hb Hls Hrun; simpl in Hrun; [done|].
  apply Forall_cons in Hls as [Hl Hls].
  change ((l :: ls) ++ [lst]) with (l :: (ls ++ [lst])).
  rewrite join_cons by (by destruct ls). simpl. rewrite push_chars_line by done.
  destruct (process_line (next_line p) l) as [q|] eqn:Hq; simpl in Hrun; [|simplify_eq; eauto].
  apply IH; try done. by rewrite (process_line_buffer _ _ _ Hq).
Qed.

(** ** Lines that are not markers *)

(** Empty, or starting with neither [*] nor [@]. *)
Definition headless (s : str) : Prop :=
  s = [] ∨ ∃ x t, s = x :: t ∧ x ≠ 42%N ∧ x ≠ 64%N.

Definition marker (m : str) : Prop := ∃ a t, m = a :: t ∧ (a = 42%N ∨ a = 64%N).

Lemma marker_lits :
  marker ENVIRONMENT_ID_MARKER ∧ marker END_PATCH_MARKER ∧ marker ADD_FILE_MARKER ∧
  marker DELETE_FILE_MARKER ∧ marker UPDATE_FILE_MARKER ∧ marker MOVE_TO_MARKER ∧
  marker EOF_MARKER ∧ marker CHANGE_CONTEXT_MARKER ∧ marker EMPTY_CHANGE_CONTEXT_MARKER.
Proof. split_and!; eexists _, _; (split; [vm_compute; reflexivity|]); auto. Qed.

Lemma headless_strip s m : headless s → marker m → strip_prefix m s = None.
Proof.
  intros Hs (a & t & -> & Ha). apply strip_prefix_None. intros r ->.
  destruct Hs as [?|(x & u & ? & ? & ?)]; simplify_eq/=; naive_solver.
Qed.

Lemma strip_None_ne m s : strip_prefix m s = None → s ≠ m.
Proof. rewrite strip_prefix_None. intros H ->. by apply (H []); rewrite app_nil_r. Qed.

Lemma headless_starts s m : headless s → marker m → starts_with s m = false.
Proof. intros Hs Hm. unfold starts_with. by rewrite headless_strip. Qed.

Lemma headless_ne s m : headless s → marker m → bool_decide (s = m) = false.
Proof. intros Hs Hm. apply bool_decide_eq_false_2, strip_None_ne. by apply headless_strip. Qed.

Lemma headless_trim_end c s : c ≠ 42%N → c ≠ 64%N → headless (trim_end (c :: s)).
Proof. intros. destruct (trim_end_head c s) as [->|(t & ->)]; [by left|right; eauto]. Qed.

Lemma handle_headless p s : headless s → handle_hunk_headers_and_end_patch p s = Ok None.
Proof.
  intros Hs. destruct marker_lits as (? & ? & ? & ? & ? & ? & ? & ? & ?).
  unfold handle_hunk_headers_and_end_patch.
  rewrite (headless_strip s ENVIRONMENT_ID_MARKER), !headless_ne, !headless_strip by done.
  by destruct (is_started _).
Qed.

(** ** One update line *)

Lemma process_update_text x l f mv cs :
  (x = 32%N ∧ f = push_context_line) ∨ (x = 43%N ∧ f = push_new_line)
    ∨ (x = 45%N ∧ f = push_old_line) →
  is_some_and (last cs) is_end_of_file = false →
  process_update_line (x :: l) (trim_end (x :: l)) mv cs = Ok (mv, with_last_chunk (f l) cs).
Proof.
  intros Hx Heof. destruct marker_lits as (? & ? & ? & ? & ? & ? & ? & ? & ?).
  assert (headless (trim_end (x :: l))) as Hh by (apply headless_trim_end; naive_solver).
  unfold process_update_line. rewrite Heof, !headless_ne, !headless_strip, !headless_starts by done.
  simpl. replace (if is_empty cs && is_none mv then None else None) with (@None str)
    by (by destruct (is_empty cs && is_none mv)).
  by destruct Hx as [[-> ->]|[[-> ->]|[-> ->]]].
Qed.

Lemma process_update_header h mv cs l :
  header_wf h → print_header h = [l] →
  is_some_and (last cs) chunk_is_blank = false →
  trim_end l = l ∧ process_update_line l l mv cs = Ok (mv, cs ++ [denote_header h]).
Proof.
  intros Hwf Hl Hb. destruct h as [| |ctx]; cbn [print_header] in Hl; simplify_eq.
  - split; [done|]. unfold process_update_line. rewrite Hb, bool_decide_eq_true_2 by done.
    rewrite !andb_false_r. by destruct (is_empty cs && is_none mv).
  - destruct Hwf as (Hne & Ht & _). split; [by apply trim_end_app_keep|].
    unfold process_update_line.
    rewrite (proj2 (starts_with_spec _ _)) by eauto.
    rewrite Hb, orb_true_r, !andb_false_r.
    assert (CHANGE_CONTEXT_MARKER ++ ctx ≠ EMPTY_CHANGE_CONTEXT_MARKER) as Hne'
      by (vm_compute; congruence).
    rewrite (bool_decide_eq_false_2 _ Hne').
    assert (strip_prefix MOVE_TO_MARKER (CHANGE_CONTEXT_MARKER ++ ctx) = None) as ->
      by reflexivity.
    rewrite strip_prefix_app. by destruct (is_empty cs && is_none mv).
Qed.

Lemma process_update_eof mv cs c :
  is_end_of_file c = false → chunk_is_blank c = false →
  trim_end EOF_MARKER = EOF_MARKER ∧
  process_update_line EOF_MARKER EOF_MARKER mv (cs ++ [c])
  = Ok (mv, cs ++ [mark_end_of_file c]).
Proof.
  intros He Hb. split; [done|]. unfold process_update_line.
  rewrite last_snoc. simpl. rewrite He, Hb, update_last_snoc.
  by destruct (is_empty (cs ++ [c]) && is_none mv).
Qed.

Lemma process_update_move cs_mv m :
  name_wf m → cs_mv = @nil UpdateFileChunk →
  trim_end (MOVE_TO_MARKER ++ m) = MOVE_TO_MARKER ++ m ∧
  process_update_line (MOVE_TO_MARKER ++ m) (MOVE_TO_MARKER ++ m) None cs_mv
  = Ok (Some m, cs_mv).
Proof.
  intros (Hne & Ht & _) ->. split; [by apply trim_end_app_keep|].
  unfold process_update_line. simpl is_empty. simpl is_none. simpl last. cbn [is_some_and andb].
  by rewrite strip_prefix_app.
Qed.

(** ** Running an update hunk's changes *)

Definition in_update (p : StreamingPatchParser) hs path mv cs env : Prop :=
  (∃ n, mode (state p) = InUpdateFile n) ∧
  hunks (state p) = hs ++ [UpdateFile path mv cs] ∧ environment_id (state p) = env.

Lemma run_update_step p hs path mv cs env line mv' cs' :
  in_update p hs path mv cs env →
  handle_hunk_headers_and_end_patch (next_line p) (trim_end line) = Ok None →
  process_update_line line (trim_end line) mv cs = Ok (mv', cs') →
  ∃ p', run_lines p [line] = Ok p' ∧ in_update p' hs path mv' cs' env.
Proof.
  intros ([n Hm] & Hhs & He) Hh Hp. cbn [run_lines]. unfold process_line.
  cbn [next_line state mode hunks environment_id line_number] in *.
  rewrite Hm, Hh. cbn [rbind]. rewrite Hhs, last_snoc, Hp. cbn [rbind].
  eexists. split; [done|]. split_and!; simpl; [by eexists|by rewrite update_last_snoc|done].
Qed.

Lemma run_update_steps p q hs path mv cs env mv1 cs1 ls1 ls2 mv2 cs2 :
  in_update p hs path mv cs env →
  (∃ p', run_lines p ls1 = Ok p' ∧ in_update p' hs path mv1 cs1 env) →
  (∀ p', in_update p' hs path mv1 cs1 env →
     ∃ q, run_lines p' ls2 = Ok q ∧ in_update q hs path mv2 cs2 env) →
  q = ls1 ++ ls2 →
  ∃ p', run_lines p q = Ok p' ∧ in_update p' hs path mv2 cs2 env.
Proof.
  intros _ (p' & H1 & Hin) H2 ->. destruct (H2 _ Hin) as (q & Hq & ?).
  exists q. rewrite run_lines_app, H1. done.
Qed.

Lemma denote_line_eof c l : is_end_of_file (denote_line c l) = is_end_of_file c.
Proof. by destruct l. Qed.

Lemma denote_line_full c l : chunk_is_blank (denote_line c l) = false.
Proof.
  destruct l; unfold chunk_is_blank; simpl; destruct (old_lines c), (new_lines c); done.
Qed.

Lemma denote_lines_facts c ls :
  is_end_of_file (foldl denote_line c ls) = is_end_of_file c ∧
  (ls ≠ [] → chunk_is_blank (foldl denote_line c ls) = false).
Proof.
  split.
  - revert c; induction ls as [|l ls IH]; intros c; simpl; [done|].
    by rewrite IH, denote_line_eof.
  - destruct (list_snoc_cases ls) as [->|(ls' & l & ->)]; [done|].
    intros _. rewrite foldl_app. apply denote_line_full.
Qed.

(** A change line goes to the last chunk, which a first line opens. *)
Lemma run_change_line p hs path mv cs env l :
  in_update p hs path mv cs env → is_some_and (last cs) is_end_of_file = false →
  ∃ p', run_lines p [print_change_line l] = Ok p' ∧
    in_update p' hs path mv (with_last_chunk (λ c, denote_line c l) cs) env.
Proof.
  intros Hin Heof. eapply run_update_step; [done| |].
  - apply handle_headless. destruct l; apply headless_trim_end; done.
  - destruct l as [l|l|l].
    + by apply (process_update_text 32 l push_context_line); [naive_solver|].
    + by apply (process_update_text 43 l push_new_line); [naive_solver|].
    + by apply (process_update_text 45 l push_old_line); [naive_solver|].
Qed.

Lemma run_change_lines p hs path mv cs c env ls :
  in_update p hs path mv (cs ++ [c]) env → is_end_of_file c = false →
  ∃ p', run_lines p (print_change_line <$> ls) = Ok p' ∧
    in_update p' hs path mv (cs ++ [foldl denote_line c ls]) env.
Proof.
  revert p c; induction ls as [|l ls IH]; intros p c Hin Hc; [by exists p|].
  eapply (run_update_steps p _ hs path mv (cs ++ [c]) env mv
            (cs ++ [denote_line c l]) [print_change_line l]); [done| | |done].
  - destruct (run_change_line p hs path mv (cs ++ [c]) env l) as (p' & ? & Hp'); [done|by rewrite last_snoc|].
    exists p'. split; [done|]. unfold with_last_chunk in Hp'.
    replace (is_empty (cs ++ [c])) with false in Hp' by (by destruct cs).
    by rewrite update_last_snoc in Hp'.
  - intros p' Hp'. apply IH; [done|]. by rewrite denote_line_eof.
Qed.

Lemma handle_header p h l :
  header_wf h → print_header h = [l] →
  handle_hunk_headers_and_end_patch (next_line p) (trim_end l) = Ok None.
Proof.
  intros Hwf Hl. pose proof (process_update_header h None [] l Hwf Hl eq_refl) as [-> _].
  unfold handle_hunk_headers_and_end_patch.
  destruct h as [| |ctx]; cbn [print_header] in Hl; simplify_eq.
  - by destruct (is_started _).
  - assert (CHANGE_CONTEXT_MARKER ++ ctx ≠ END_PATCH_MARKER) as Hne by (vm_compute; congruence).
    rewrite (bool_decide_eq_false_2 _ Hne). by destruct (is_started _).
Qed.

(** The header and the lines of one change build its chunk. *)
Lemma run_change_body p hs path mv cs env c :
  in_update p hs path mv cs env → change_full c →
  is_some_and (last cs) chunk_is_blank = false →
  (ch_header c = NoHeader → cs = []) →
  ∃ p', run_lines p (print_header (ch_header c) ++ (print_change_line <$> ch_lines c)) = Ok p' ∧
    in_update p' hs path mv
      (cs ++ [foldl denote_line (denote_header (ch_header c)) (ch_lines c)]) env.
Proof.
  intros Hin [(Hh & _) Hne] Hb Hno.
  destruct (print_header (ch_header c)) as [|l [|]] eqn:Hl; [| |by destruct (ch_header c)].
  - destruct (ch_header c) eqn:Hc; [|done..]. rewrite Hno in * by done. clear Hno Hl.
    destruct (ch_lines c) as [|l ls]; [done|].
    eapply (run_update_steps p _ hs path mv [] env mv
              [denote_line default_chunk l] [print_change_line l]); [done| | |done].
    + by apply (run_change_line p hs path mv [] env l).
    + intros p' Hp'. by apply (run_change_lines p' hs path mv [] _ env ls); [|rewrite denote_line_eof].
  - eapply (run_update_steps p _ hs path mv cs env mv (cs ++ [denote_header (ch_header c)]) [l]);
      [done| | |done].
    + destruct (process_update_header (ch_header c) mv cs l) as [Ht Hp]; [done..|].
      eapply run_update_step; [done|by eapply handle_header|by rewrite Ht].
    + intros p' Hp'. by apply run_change_lines.
Qed.

Lemma denote_change_full c : ch_lines c ≠ [] → chunk_is_blank (denote_change c) = false.
Proof.
  intros Hne. unfold denote_change.
  pose proof (proj2 (denote_lines_facts (denote_header (ch_header c)) (ch_lines c)) Hne).
  by destruct (ch_eof c).
Qed.

Lemma run_change p hs path mv cs env c :
  in_update p hs path mv cs env → change_full c →
  is_some_and (last cs) chunk_is_blank = false →
  (ch_header c = NoHeader → cs = []) →
  ∃ p', run_lines p (print_change c) = Ok p' ∧
    in_update p' hs path mv (cs ++ [denote_change c]) env.
Proof.
  intros Hin Hwf Hb Hno. pose proof Hwf as [_ Hne].
  destruct (run_change_body p hs path mv cs env c) as (p1 & Hr & Hin1); [done..|].
  destruct (denote_lines_facts (denote_header (ch_header c)) (ch_lines c)) as [Heof Hfull].
  unfold print_change, denote_change. rewrite app_assoc, run_lines_app, Hr. cbn [rbind].
  destruct (ch_eof c); [|by exists p1].
  destruct (process_update_eof mv cs (foldl denote_line (denote_header (ch_header c)) (ch_lines c)))
    as [Ht Hp]; [done|by apply Hfull|].
  eapply run_update_step; [done| |by rewrite Ht].
  rewrite Ht. unfold handle_hunk_headers_and_end_patch. by destruct (is_started _).
Qed.

Lemma run_changes p hs path mv cs env changes :
  in_update p hs path mv cs env → Forall change_full changes →
  is_some_and (last cs) chunk_is_blank = false →
  Forall (λ c, ch_header c ≠ NoHeader) (if is_empty cs then drop 1 changes else changes) →
  ∃ p', run_lines p (concat (print_change <$> changes)) = Ok p' ∧
    in_update p' hs path mv (cs ++ (denote_change <$> changes)) env.
Proof.
  revert p cs; induction changes as [|c changes IH]; intros p cs Hin Hwf Hb Hno.
  { exists p. by rewrite app_nil_r. }
  apply Forall_cons in Hwf as [Hc Hwf].
  eapply (run_update_steps p _ hs path mv cs env mv (cs ++ [denote_change c]) (print_change c));
    [done| | |done].
  - apply run_change; [done..|]. intros Hh. destruct cs; [done|].
    simpl in Hno. apply Forall_cons in Hno as [? _]. done.
  - intros p' Hp'. rewrite fmap_cons, cons_middle, app_assoc. apply IH; [done..| |].
    + rewrite last_snoc. apply denote_change_full, Hc.
    + replace (is_empty (cs ++ [denote_change c])) with false by (by destruct cs).
      destruct cs; simpl in Hno; [done|]. by apply Forall_cons in Hno as [_ ?].
Qed.

(** ** Running whole hunks *)

(** Between hunks: a header or the end marker is accepted. *)
Definition state_ready (st : StreamingParserState) : Prop :=
  match mode st with NotStarted | EndedPatch => False | _ => True end ∧
  match last (hunks st) with
  | Some (UpdateFile _ _ cs) => cs ≠ [] ∧ is_some_and (last cs) chunk_is_blank = false
  | _ => True
  end.

Lemma ensure_ready p l : state_ready (state p) → ensure_update_hunk_is_not_empty p l = Ok ().
Proof.
  unfold state_ready, ensure_update_hunk_is_not_empty. intros [_ H].
  destruct (last (hunks (state p))) as [[| |? ? cs]|]; [done..| |done].
  destruct H as [Hne ->]. by destruct cs.
Qed.

Lemma process_header p line q :
  state_ready (state p) → trim line = line → trim_end line = line →
  handle_hunk_headers_and_end_patch p line = Ok (Some q) → process_line p line = Ok q.
Proof.
  intros [Hm _] Ht Hte Hh. unfold process_line. rewrite Ht, Hte, Hh.
  by destruct (mode (state p)).
Qed.

Lemma marker_name_trim m s :
  head m = Some 42%N → name_wf s → trim (m ++ s) = m ++ s ∧ trim_end (m ++ s) = m ++ s.
Proof.
  destruct m as [|c m]; [done|]. intros [= ->] (Hne & Ht & _). split.
  - by apply trim_app_keep.
  - by apply trim_end_app_keep.
Qed.

Definition header_of (h : hunk_syntax) : str :=
  match h with
  | SAdd path _ => ADD_FILE_MARKER ++ path
  | SDelete path => DELETE_FILE_MARKER ++ path
  | SUpdate path _ _ => UPDATE_FILE_MARKER ++ path
  end.

(** The hunk and the mode a header opens. *)
Definition opened (h : hunk_syntax) (n : nat) : Hunk * StreamingParserMode :=
  match h with
  | SAdd path _ => (AddFile path [], InAddFile)
  | SDelete path => (DeleteFile path, InDeleteFile)
  | SUpdate path _ _ => (UpdateFile path None [], InUpdateFile n)
  end.

Lemma handle_header_of p h :
  name_wf (hunk_path_of h) →
  trim (header_of h) = header_of h ∧ trim_end (header_of h) = header_of h ∧
  handle_hunk_headers_and_end_patch p (header_of h) =
    let? _ := ensure_update_hunk_is_not_empty p (header_of h) in
    let '(h0, m) := opened h (line_number p) in Ok (Some (set_mode m (push_hunk h0 p))).
Proof.
  intros Hn.
  destruct (marker_name_trim ADD_FILE_MARKER _ eq_refl Hn),
    (marker_name_trim DELETE_FILE_MARKER _ eq_refl Hn),
    (marker_name_trim UPDATE_FILE_MARKER _ eq_refl Hn).
  destruct h as [s ls|s|s mv cs]; cbn [opened header_of hunk_path_of] in *;
    (split; [done|]); (split; [done|]); unfold handle_hunk_headers_and_end_patch.
  - rewrite (bool_decide_eq_false_2 (ADD_FILE_MARKER ++ s = END_PATCH_MARKER))
      by (vm_compute; congruence). rewrite strip_prefix_app. by destruct (is_started _).
  - rewrite (bool_decide_eq_false_2 (DELETE_FILE_MARKER ++ s = END_PATCH_MARKER))
      by (vm_compute; congruence). rewrite strip_prefix_app. by destruct (is_started _).
  - rewrite (bool_decide_eq_false_2 (UPDATE_FILE_MARKER ++ s = END_PATCH_MARKER))
      by (vm_compute; congruence). rewrite strip_prefix_app. by destruct (is_started _).
Qed.

Lemma run_header p h :
  state_ready (state p) → syntax_wf h →
  let '(h0, m) := opened h (S (line_number p)) in
  run_lines p [header_of h] = Ok (set_mode m (push_hunk h0 (next_line p))).
Proof.
  intros Hr [Hn _]. destruct (handle_header_of (next_line p) h Hn) as (Ht & Hte & Hh).
  rewrite ensure_ready in Hh by done. cbn [rbind next_line line_number] in Hh.
  destruct (opened h (S (line_number p))) as [h0 m]. cbn [run_lines].
  by erewrite process_header.
Qed.

Lemma run_add_lines p hs path c env ls :
  mode (state p) = InAddFile → hunks (state p) = hs ++ [AddFile path c] →
  environment_id (state p) = env →
  ∃ p', run_lines p ((λ l, lit "+" ++ l) <$> ls) = Ok p' ∧ mode (state p') = InAddFile ∧
    hunks (state p') = hs ++ [AddFile path (c ++ concat ((λ l, l ++ [nl]) <$> ls))] ∧
    environment_id (state p') = env.
Proof.
  revert p c; induction ls as [|l ls IH]; intros p c Hm Hhs He.
  { exists p. simpl. rewrite app_nil_r. done. }
  rewrite !fmap_cons. cbn [run_lines concat]. unfold process_line at 1.
  cbn [next_line state mode]. rewrite Hm. rewrite handle_headless.
  2: { right. exists 43%N, (trim_end l).
       change (lit "+" ++ l) with (43%N :: l). unfold trim.
       by rewrite trim_start_cons, trim_end_cons. }
  cbn [rbind hunks]. rewrite strip_prefix_app, Hhs, last_snoc, update_last_snoc.
  cbn [rbind]. edestruct (IH (set_hunks (hs ++ [AddFile path (c ++ l ++ [nl])]) (next_line p)))
    as (p' & Hr & Hm' & Hhs' & He'); [done..|].
  exists p'. rewrite Hr, Hhs'. split_and!; try done. by rewrite <- !app_assoc.
Qed.

(** The header of an update hunk with its move. *)
Lemma run_update_header p path mv :
  state_ready (state p) → name_wf path → (∀ m, mv = Some m → name_wf m) →
  ∃ p', run_lines p ((UPDATE_FILE_MARKER ++ path)
            :: from_option (λ m, [MOVE_TO_MARKER ++ m]) [] mv) = Ok p' ∧
    in_update p' (hunks (state p)) path mv [] (environment_id (state p)).
Proof.
  intros Hr Hp Hmv.
  destruct (handle_header_of (next_line p) (SUpdate path mv []) Hp) as (Ht & Hte & Hh).
  rewrite ensure_ready in Hh by done. cbn [rbind opened header_of] in *.
  rewrite run_lines_cons. cbn [run_lines]. erewrite process_header by done. cbn [rbind].
  set (p1 := set_mode _ _).
  assert (in_update p1 (hunks (state p)) path None [] (environment_id (state p))) as Hin
    by (split_and!; simpl; eauto).
  destruct mv as [m|]; [|by exists p1].
  destruct (process_update_move [] m) as [Htm Hpu]; [by apply Hmv|done|].
  eapply run_update_step; [done| |by rewrite Htm].
  rewrite Htm. unfold handle_hunk_headers_and_end_patch.
  rewrite (bool_decide_eq_false_2 (MOVE_TO_MARKER ++ m = END_PATCH_MARKER))
    by (vm_compute; congruence). by destruct (is_started _).
Qed.

Lemma run_hunk p h :
  state_ready (state p) → syntax_full h →
  ∃ p', run_lines p (print_hunk h) = Ok p' ∧ state_ready (state p') ∧
    hunks (state p') = hunks (state p) ++ [denote_hunk h] ∧
    environment_id (state p') = environment_id (state p).
Proof.
  intros Hr [Hwf Hfill]. pose proof (run_header p h Hr Hwf) as Hh.
  destruct h as [path ls|path|path mv cs]; cbn [opened header_of print_hunk] in *.
  - destruct (run_add_lines (set_mode InAddFile (push_hunk (AddFile path []) (next_line p)))
      (hunks (state p)) path [] (environment_id (state p)) ls) as (p' & Hl & Hm & Hhs & He); [done..|].
    exists p'. rewrite run_lines_cons, Hh. cbn [rbind].
    rewrite Hl, Hhs. split_and!; try done. split; [by rewrite Hm|by rewrite Hhs, last_snoc].
  - eexists. split; [exact Hh|]. split_and!; try done. split; [done|]. simpl. by rewrite last_snoc.
  - destruct Hwf as (Hp & Hmv & Hcs & Hno). apply andb_true_iff in Hfill as [Hne Hfill].
    apply full_changes in Hcs; [|done].
    destruct (run_update_header p path mv Hr) as (p2 & Hr2 & Hin2); [done|done|].
    destruct (run_changes p2 (hunks (state p)) path mv [] (environment_id (state p)) cs)
      as (p3 & Hr3 & [n Hm3] & Hhs3 & He3); [done..|].
    exists p3. rewrite app_comm_cons, run_lines_app, Hr2. cbn [rbind].
    rewrite Hr3, Hhs3. split_and!; try done.
    split; [by rewrite Hm3|]. rewrite Hhs3, last_snoc. simpl.
    destruct (list_snoc_cases cs) as [->|(cs' & c & ->)]; [done|].
    rewrite fmap_app. split; [by destruct cs'|]. simpl. rewrite last_snoc. simpl.
    apply denote_change_full. apply Forall_app in Hcs as [_ Hc].
    rewrite Forall_singleton in Hc. apply Hc.
Qed.

Lemma run_hunks p hs :
  state_ready (state p) → Forall syntax_full hs →
  ∃ p', run_lines p (concat (print_hunk <$> hs)) = Ok p' ∧ state_ready (state p') ∧
    hunks (state p') = hunks (state p) ++ (denote_hunk <$> hs) ∧
    environment_id (state p') = environment_id (state p).
Proof.
  revert p; induction hs as [|h hs IH]; intros p Hr Hwf.
  { exists p. rewrite app_nil_r. done. }
  apply Forall_cons in Hwf as [Hh Hwf].
  destruct (run_hunk p h) as (p1 & Hr1 & Hs1 & Hh1 & He1); [done..|].
  destruct (IH p1) as (p2 & Hr2 & Hs2 & Hh2 & He2); [done..|].
  exists p2. rewrite fmap_cons. cbn [concat]. rewrite run_lines_app, Hr1. cbn [rbind].
  split_and!; [done..| |congruence]. by rewrite Hh2, Hh1, <- app_assoc.
Qed.

Lemma run_environment p env :
  mode (state p) = StartedPatch → hunks (state p) = [] → environment_id (state p) = None →
  (∀ e, env = Some e → name_wf e ∧ trim e = e) →
  ∃ p', run_lines p (print_environment env) = Ok p' ∧ state_ready (state p') ∧
    hunks (state p') = [] ∧ environment_id (state p') = env.
Proof.
  intros Hm Hhs He Henv. unfold print_environment.
  destruct env as [e|]; cbn [from_option].
  2: { exists p. split_and!; try done. split; [by rewrite Hm|by rewrite Hhs]. }
  destruct (Henv e eq_refl) as [Hn Ht].
  assert (trim (ENVIRONMENT_ID_MARKER ++ lit " " ++ e) = ENVIRONMENT_ID_MARKER ++ lit " " ++ e)
    as Htl.
  { rewrite app_assoc. by apply (marker_name_trim (ENVIRONMENT_ID_MARKER ++ lit " ")). }
  cbn [run_lines]. unfold process_line. cbn [next_line state mode]. rewrite Hm, Htl.
  unfold handle_hunk_headers_and_end_patch. cbn [next_line state mode environment_id].
  rewrite Hm. cbn [is_started]. rewrite strip_prefix_app, He.
  assert (trim (lit " " ++ e) = e) as -> by (rewrite <- Ht at 2; done).
  destruct Hn as (Hne & _). destruct e as [|c e]; [done|]. cbn [is_empty rbind].
  eexists. split; [done|]. split_and!; try done. split; simpl; [by rewrite Hm|by rewrite Hhs].
Qed.

Lemma print_lines_run ps :
  patch_full ps →
  ∃ p, run_lines default_parser (BEGIN_PATCH_MARKER :: print_body ps) = Ok p ∧
    state_ready (state p) ∧ hunks (state p) = denote_hunk <$> ps_hunks ps ∧
    environment_id (state p) = ps_environment ps.
Proof.
  intros [Henv Hhs]. set (p0 := set_mode StartedPatch (next_line default_parser)).
  destruct (run_environment p0 (ps_environment ps)) as (p1 & Hr1 & Hs1 & Hh1 & He1); [done..|].
  destruct (run_hunks p1 (ps_hunks ps)) as (p2 & Hr2 & Hs2 & Hh2 & He2); [done..|].
  exists p2. rewrite run_lines_cons.
  replace (run_lines default_parser [BEGIN_PATCH_MARKER]) with
    (Ok p0 : result StreamingPatchParser ParseError) by (by vm_compute).
  cbn [rbind]. unfold print_body. rewrite run_lines_app, Hr1. cbn [rbind].
  split_and!; [done..| |congruence]. by rewrite Hh2, Hh1.
Qed.

Lemma print_patch_trim ps : trim (print_patch ps) = print_patch ps.
Proof.
  unfold print_patch, print_lines. rewrite join_cons by (by destruct (print_body ps)).
  assert (∃ m, join [nl] (print_body ps ++ [END_PATCH_MARKER]) = m ++ END_PATCH_MARKER) as (m & ->).
  { induction (print_body ps) as [|l ls (m & IH)]; [by exists []|].
    change ((l :: ls) ++ ?x) with (l :: (ls ++ x)). rewrite join_cons by (by destruct ls).
    rewrite IH. exists (l ++ [nl] ++ m). by rewrite <- !app_assoc. }
  rewrite app_assoc, (app_assoc _ m).
  change (BEGIN_PATCH_MARKER) with (42%N :: tail BEGIN_PATCH_MARKER).
  by apply (trim_app_keep 42 ((tail BEGIN_PATCH_MARKER ++ [nl]) ++ m)).
Qed.

(** Parsing a printed patch is running its lines and closing the last hunk. *)
Lemma parse_print_run ps :
  patch_wf ps →
  parse_patch (print_patch ps) =
  let? p := run_lines default_parser (BEGIN_PATCH_MARKER :: print_body ps) in
  let? _ := ensure_update_hunk_is_not_empty (next_line p) END_PATCH_MARKER in
  Ok {| args_patch := print_patch ps; args_hunks := hunks (state p);
        args_workdir := None; args_environment_id := environment_id (state p) |}.
Proof.
  intros Hwf. pose proof (print_lines_plain ps Hwf) as Hplain.
  assert (last (print_lines ps) = Some END_PATCH_MARKER) as Hlast
    by (unfold print_lines; rewrite app_comm_cons; apply last_snoc).
  unfold parse_patch, parse_patch_text. cbn [PARSE_IN_STRICT_MODE].
  rewrite print_patch_trim. unfold print_patch at 1.
  rewrite lines_join by (done || by rewrite Hlast).
  assert (check_patch_boundaries_lenient (print_lines ps) = Ok (print_lines ps)) as ->.
  { unfold check_patch_boundaries_lenient, check_patch_boundaries_strict,
      check_start_and_end_lines_strict. rewrite Hlast. done. }
  cbn [rbind]. change (join [nl] (print_lines ps)) with (print_patch ps).
  assert (Forall plain_line (BEGIN_PATCH_MARKER :: print_body ps)) as Hbody.
  { unfold print_lines in Hplain. rewrite app_comm_cons in Hplain.
    by apply Forall_app in Hplain as [? _]. }
  unfold push_delta, print_patch at 1, print_lines at 1. rewrite app_comm_cons.
  destruct (run_lines default_parser (BEGIN_PATCH_MARKER :: print_body ps)) as [p|e] eqn:Hrun.
  2: { destruct (push_chars_lines_err default_parser _ END_PATCH_MARKER _ eq_refl Hbody Hrun) as (p' & ->). done. }
  rewrite (push_chars_lines _ _ _ p); [|done|done|not_nl|done].
  unfold finish, finish_buffer. cbn [set_line_buffer line_buffer state].
  replace (is_empty END_PATCH_MARKER) with false by done.
  replace (trim END_PATCH_MARKER) with END_PATCH_MARKER by (by vm_compute).
  rewrite bool_decide_eq_true_2 by done. cbn [rbind].
  change (next_line (set_line_buffer END_PATCH_MARKER p)) with (next_line p).
  by destruct (ensure_update_hunk_is_not_empty (next_line p) END_PATCH_MARKER).
Qed.

(** ** Update hunks the parser wants filled *)

(** In an update hunk without chunks, or whose last chunk has no lines yet. *)
Definition unfilled (p : StreamingPatchParser) hs path mv cs env : Prop :=
  in_update p hs path mv cs env ∧
  (cs = [] ∨ is_some_and (last cs) chunk_is_blank = true).

Definition hunk_error {A} (r : result A ParseError) : Prop :=
  ∃ message line, r = Err (InvalidHunkError message line).

Lemma ensure_unfilled p hs path mv cs env l :
  unfilled p hs path mv cs env → hunk_error (ensure_update_hunk_is_not_empty (next_line p) l).
Proof.
  intros [([n Hm] & Hhs & _) Hcs]. unfold ensure_update_hunk_is_not_empty.
  cbn [next_line state]. rewrite Hhs, last_snoc, Hm.
  destruct Hcs as [->|Hb]; [by eexists _, _|]. destruct (is_empty cs); [by eexists _, _|].
  rewrite Hb. case_bool_decide; by eexists _, _.
Qed.

(** The header of the next hunk is refused. *)
Lemma unfilled_header p hs path mv cs env h :
  unfilled p hs path mv cs env → syntax_wf h →
  hunk_error (process_line (next_line p) (header_of h)).
Proof.
  intros Hu [Hn _]. destruct (handle_header_of (next_line p) h Hn) as (_ & Hte & Hh).
  destruct (ensure_unfilled _ _ _ _ _ _ (header_of h) Hu) as (msg & ln & He).
  rewrite He in Hh. destruct Hu as [([n Hm] & _) _]. unfold process_line.
  cbn [next_line state mode] in *. rewrite Hm, Hte, Hh. by eexists _, _.
Qed.

(** So are another context line and the end-of-file line. *)
Lemma unfilled_line p hs path mv cs env l :
  unfilled p hs path mv cs env → cs ≠ [] → is_some_and (last cs) is_end_of_file = false →
  (∃ h, header_wf h ∧ print_header h = [l]) ∨ l = EOF_MARKER →
  hunk_error (process_line (next_line p) l).
Proof.
  intros [([n Hm] & Hhs & _) [->|Hb]] Hne Heof Hl; [done|].
  assert (trim_end l = l ∧ handle_hunk_headers_and_end_patch (next_line p) (trim_end l) = Ok None
    ∧ ∃ msg, process_update_line l l mv cs = Err msg) as (Hte & Hh & msg & Hp).
  { assert (is_empty cs = false) as Hcs by by destruct cs.
    destruct Hl as [(h & Hwf & Hl)| ->].
    - split; [by apply (process_update_header h None [] l)|]. split; [by eapply handle_header|].
      unfold process_update_line. rewrite Heof, Hb, Hcs. cbn [andb].
      destruct h as [| |ctx]; cbn [print_header] in Hl; simplify_eq; [by eexists|].
      rewrite (proj2 (starts_with_spec _ _)) by eauto. rewrite orb_true_r. by eexists.
    - split; [done|]. split; [by unfold handle_hunk_headers_and_end_patch; destruct (is_started _)|].
      unfold process_update_line. rewrite Heof, Hb, Hcs. by eexists. }
  rewrite Hte in Hh. unfold process_line. cbn [next_line state mode] in *.
  rewrite Hm, Hte, Hh. cbn [rbind hunks]. rewrite Hhs, last_snoc, Hp. by eexists _, _.
Qed.

Lemma run_lines_error p l ls :
  hunk_error (process_line (next_line p) l) → hunk_error (run_lines p (l :: ls)).
Proof. intros (msg & ln & H). simpl. rewrite H. by eexists _, _. Qed.

Lemma run_lines_then p p' ls1 ls2 :
  run_lines p ls1 = Ok p' → hunk_error (run_lines p' ls2) → hunk_error (run_lines p (ls1 ++ ls2)).
Proof. intros H1 (msg & ln & H2). rewrite run_lines_app, H1. simpl. rewrite H2. by eexists _, _. Qed.

(** The parser stops at the end of the patch at the latest. *)
Definition refuses (p : StreamingPatchParser) (ls : list str) : Prop :=
  hunk_error (run_lines p ls) ∨
  ∃ p', run_lines p ls = Ok p' ∧
    hunk_error (ensure_update_hunk_is_not_empty (next_line p') END_PATCH_MARKER).

Lemma refuses_after p p' ls1 ls2 :
  run_lines p ls1 = Ok p' → refuses p' ls2 → refuses p (ls1 ++ ls2).
Proof.
  intros H1 [H2|(q & H2 & He)]; [left; by eapply run_lines_then|].
  right. exists q. by rewrite run_lines_app, H1.
Qed.

Lemma unfilled_refuses p hs path mv cs env hunks :
  unfilled p hs path mv cs env → Forall syntax_wf hunks →
  refuses p (concat (print_hunk <$> hunks)).
Proof.
  intros Hu Hwf. destruct hunks as [|h hunks].
  - right. exists p. split; [done|]. by eapply ensure_unfilled.
  - left. apply Forall_cons in Hwf as [Hh _]. rewrite fmap_cons. cbn [concat].
    assert (∃ ls, print_hunk h = header_of h :: ls) as [ls ->] by (destruct h; by eexists).
    apply run_lines_error. by eapply unfilled_header.
Qed.

(** The first change without lines, if there is one. *)
Lemma split_unfilled changes :
  Forall change_wf changes → forallb (λ c, negb (is_empty (ch_lines c))) changes = false →
  ∃ cs1 c cs2, changes = cs1 ++ c :: cs2 ∧ Forall change_full cs1 ∧ change_wf c ∧ ch_lines c = [].
Proof.
  induction changes as [|c changes IH]; simpl; [done|]. intros [Hc Hcs]%Forall_cons.
  destruct (ch_lines c) as [|l ls] eqn:Hl; simpl; [intros _; by exists [], c, changes|].
  intros (cs1 & d & cs2 & -> & H1 & H2)%IH; [|done]. exists (c :: cs1), d, cs2.
  split_and!; [done| |apply H2..]. constructor; [|done]. split; [done|]. by rewrite Hl.
Qed.

(** After a context line without lines, whatever follows is refused. *)
Lemma blank_chunk_refused p hs path mv cs h env (eof : bool) changes rest :
  in_update p hs path mv (cs ++ [denote_header h]) env → Forall change_wf changes →
  Forall (λ c, ch_header c ≠ NoHeader) changes → Forall syntax_wf rest →
  refuses p ((if eof then [EOF_MARKER] else [])
             ++ concat (print_change <$> changes) ++ concat (print_hunk <$> rest)).
Proof.
  intros Hin Hcs Hno Hrest.
  assert (unfilled p hs path mv (cs ++ [denote_header h]) env) as Hu
    by (split; [done|right; by rewrite last_snoc]).
  assert (∀ x, (∃ h, header_wf h ∧ print_header h = [x]) ∨ x = EOF_MARKER →
    hunk_error (process_line (next_line p) x)) as Hstop.
  { intros x. eapply unfilled_line; [exact Hu|by destruct cs|by rewrite last_snoc]. }
  destruct eof; [left; apply run_lines_error; auto|].
  destruct changes as [|d changes]; [by eapply unfilled_refuses|].
  apply Forall_cons in Hcs as [Hd _], Hno as [Hnd _].
  left. rewrite app_nil_l, fmap_cons. cbn [concat]. unfold print_change at 1.
  destruct (print_header (ch_header d)) as [|x [|]] eqn:Hx;
    [by destruct (ch_header d)| |by destruct (ch_header d)].
  apply run_lines_error, Hstop. left. exists (ch_header d). split; [apply Hd|done].
Qed.

Lemma unfilled_hunk_refused p path mv changes rest :
  state_ready (state p) → syntax_wf (SUpdate path mv changes) →
  hunk_filled (SUpdate path mv changes) = false → Forall syntax_wf rest →
  refuses p (print_hunk (SUpdate path mv changes) ++ concat (print_hunk <$> rest)).
Proof.
  intros Hr (Hp & Hmv & Hcs & Hno) Hf Hrest. cbn [print_hunk].
  rewrite app_comm_cons, <- app_assoc.
  destruct (run_update_header p path mv Hr Hp Hmv) as (p1 & Hr1 & Hin1).
  eapply refuses_after; [exact Hr1|]. cbn [hunk_filled] in Hf.
  destruct changes as [|c0 changes0]; [by eapply unfilled_refuses; [split; [done|by left]|]|].
  cbn [is_empty negb andb] in Hf. set (changes := c0 :: changes0) in *.
  apply split_unfilled in Hf as (cs1 & c & cs2 & Hch & Hcs1 & Hc & Hnil); [|done].
  rewrite Hch in Hno |- *. rewrite fmap_app, concat_app, <- app_assoc, fmap_cons. cbn [concat].
  assert (ch_header c ≠ NoHeader) as Hh by (destruct Hc as (_ & [?|?] & _); congruence).
  destruct (run_changes p1 (hunks (state p)) path mv [] (environment_id (state p)) cs1)
    as (p2 & Hr2 & Hin2); [done|done|done| |].
  { simpl. rewrite drop_app in Hno. by apply Forall_app in Hno as [? _]. }
  eapply refuses_after; [exact Hr2|]. set (cs := [] ++ _) in Hin2.
  assert (is_some_and (last cs) chunk_is_blank = false) as Hb.
  { unfold cs. simpl. destruct (list_snoc_cases cs1) as [->|(cs' & d & ->)]; [done|].
    rewrite fmap_app. simpl. rewrite last_snoc. simpl. apply denote_change_full.
    apply Forall_app in Hcs1 as [_ Hd].
    rewrite Forall_singleton in Hd. apply Hd. }
  destruct (print_header (ch_header c)) as [|l [|]] eqn:Hl; [by destruct (ch_header c)| |by destruct (ch_header c)].
  destruct (process_update_header (ch_header c) mv cs l) as [Ht Hpu]; [apply Hc|done|done|].
  destruct (run_update_step p2 _ path mv cs _ l mv (cs ++ [denote_header (ch_header c)]) Hin2)
    as (p3 & Hr3 & Hin3); [eapply handle_header; [apply Hc|done]|by rewrite Ht|].
  unfold print_change at 1. rewrite Hnil, Hl. cbn [fmap list_fmap]. rewrite app_nil_l, <- !app_assoc.
  eapply refuses_after; [exact Hr3|]. eapply blank_chunk_refused; [exact Hin3|..|done].
  - rewrite Hch in Hcs. by apply Forall_app in Hcs as [_ [_ ?]%Forall_cons].
  - rewrite drop_app in Hno. apply Forall_app in Hno as [_ Hno]. destruct cs1; simpl in Hno;
      rewrite ?Nat.sub_diag, ?drop_0 in Hno; [done|]. by apply Forall_cons in Hno as [_ ?].
Qed.

Lemma hunks_refused p hs :
  state_ready (state p) → Forall syntax_wf hs → forallb hunk_filled hs = false →
  refuses p (concat (print_hunk <$> hs)).
Proof.
  revert p; induction hs as [|h hs IH]; intros p Hr Hwf Hf; [done|].
  apply Forall_cons in Hwf as [Hh Hwf]. cbn [forallb] in Hf. rewrite fmap_cons. cbn [concat].
  destruct (hunk_filled h) eqn:Hfh; cbn [andb] in Hf.
  - destruct (run_hunk p h Hr (conj Hh Hfh)) as (p1 & Hr1 & Hs1 & _).
    eapply refuses_after; [exact Hr1|]. by apply IH.
  - destruct h as [|?|? mv changes]; [done|done|]. by apply unfilled_hunk_refused.
Qed.

Lemma full_hunks hs :
  Forall syntax_wf hs → forallb hunk_filled hs = true → Forall syntax_full hs.
Proof.
  intros Hwf Hall. rewrite forallb_forall in Hall. apply Forall_forall. intros h Hh.
  split; [by eapply Forall_forall in Hwf|]. by apply Hall, list_elem_of_In.
Qed.

