(* ===== verification/SeekSequence.v ===== *)
(** * Locating a block of lines

    [codex-rs/apply-patch/src/seek_sequence.rs].  The search makes four passes
    of decreasing strictness over the same window of start positions. *)

From S2P Require Import Prelude RustStr.

(** [ApplyPatchFileUpdateMode] (lib.rs). *)
Inductive ApplyPatchFileUpdateMode :=
| NormalizeToLf
| PreserveLineEndings.

#[global] Instance ApplyPatchFileUpdateMode_eq_dec : EqDecision ApplyPatchFileUpdateMode.
Proof. solve_decision. Defined.

(** The inner [normalise]'s treatment of one character. *)
Definition normalise_char (c : char) : char :=
  (if (8208 <=? c) && (c <=? 8213) || (c =? 8722) then 45
   else if (8216 <=? c) && (c <=? 8219) then 39
   else if (8220 <=? c) && (c <=? 8223) then 34
   else if (c =? 160) || (8194 <=? c) && (c <=? 8202) || (c =? 8239) || (c =? 8287)
           || (c =? 12288) then 32
   else c)%N.

Definition normalise (s : str) : str := normalise_char <$> trim s.

(** [lines[i..i + pattern.len()] == *pattern]: the slice panics ([None]) when
    it leaves the lines. *)
Definition slice_matches (lns pattern : list str) (i : nat) : option bool :=
  (λ block, bool_decide (block = pattern)) <$> slice lns i (i + length pattern).

(** The inner loop of the later passes, which stops at the first difference;
    [lines[i + p_idx]] panics out of range. *)
Fixpoint lines_match (norm : str → str) (lns pattern : list str) (i : nat) : option bool :=
  match pattern with
  | [] => Some true
  | pat :: rest =>
      line ← lns !! i;
      if bool_decide (norm line = norm pat) then lines_match norm lns rest (S i) else Some false
  end.

(** [for i in ..] with an early return. *)
Fixpoint first_start (test : nat → option bool) (starts : list nat) : option (option nat) :=
  match starts with
  | [] => Some None
  | i :: rest =>
      ok ← test i;
      if (ok : bool) then Some (Some i) else first_start test rest
  end.

Definition search_start_of (lns pattern : list str) (start : nat) (eof : bool)
    (m : ApplyPatchFileUpdateMode) : nat :=
  if eof && (length pattern <=? length lns) then
    let eof_start := length lns - length pattern in
    match m with
    | NormalizeToLf => eof_start
    | PreserveLineEndings => Nat.max eof_start start
    end
  else start.

(** The four passes, strictest first; [None] is a panic, [Some None] that
    nothing is found. *)
Definition seek_sequence (lns pattern : list str) (start : nat) (eof : bool)
    (m : ApplyPatchFileUpdateMode) : option (option nat) :=
  if is_empty pattern then Some (Some start)
  else if length lns <? length pattern then Some None
  else
    let search_start := search_start_of lns pattern start eof m in
    let last_start := length lns - length pattern in
    let window := seq search_start (S last_start - search_start) in
    exact ← first_start (slice_matches lns pattern) window;
    match exact with
    | Some i => Some (Some i)
    | None =>
        rstripped ← first_start (lines_match trim_end lns pattern) window;
        match rstripped with
        | Some i => Some (Some i)
        | None =>
            trimmed ← first_start (lines_match trim lns pattern) window;
            match trimmed with
            | Some i => Some (Some i)
            | None => first_start (lines_match normalise lns pattern) window
            end
        end
    end.

(** ** The search without indices *)

(** Every pattern line equals the source line after [norm]. *)
Definition matches_at (norm : str → str) (lns pattern : list str) (i : nat) : bool :=
  bool_decide (norm <$> take (length pattern) (drop i lns) = norm <$> pattern).

(** The first such position of the window. *)
Definition seek_pass (norm : str → str) (lns pattern : list str) (search_start : nat)
  : option nat :=
  let last_start := length lns - length pattern in
  (λ k, search_start + k) <$>
    position (matches_at norm lns pattern) (seq search_start (S last_start - search_start)).

Definition find_sequence (lns pattern : list str) (start : nat) (eof : bool)
    (m : ApplyPatchFileUpdateMode) : option nat :=
  if is_empty pattern then Some start
  else if length lns <? length pattern then None
  else
    let s := search_start_of lns pattern start eof m in
    match seek_pass (λ s, s) lns pattern s with
    | Some i => Some i
    | None =>
    match seek_pass trim_end lns pattern s with
    | Some i => Some i
    | None =>
    match seek_pass trim lns pattern s with
    | Some i => Some i
    | None => seek_pass normalise lns pattern s
    end end end.

(** *** No index leaves the lines *)

Lemma slice_matches_in lns pattern i :
  i + length pattern ≤ length lns →
  slice_matches lns pattern i = Some (matches_at (λ s, s) lns pattern i).
Proof.
  intros Hlen. unfold slice_matches, slice, matches_at.
  rewrite !(proj2 (Nat.leb_le _ _)) by lia. simpl. rewrite !list_fmap_id.
  by replace (i + length pattern - i) with (length pattern) by lia.
Qed.

Lemma lines_match_in norm lns pattern : ∀ i,
  i + length pattern ≤ length lns →
  lines_match norm lns pattern i = Some (matches_at norm lns pattern i).
Proof.
  induction pattern as [|pat rest IH]; intros i Hlen; simpl in *.
  { unfold matches_at. by rewrite bool_decide_eq_true_2. }
  destruct (lookup_lt_is_Some_2 lns i) as [line Hi]; [lia|]. rewrite Hi. simpl.
  unfold matches_at in *. cbn [length]. rewrite (drop_S _ _ _ Hi). csimpl.
  case_bool_decide as Heq.
  - rewrite IH by lia. f_equal. apply bool_decide_ext. rewrite Heq.
    split; [by intros ->|by intros [= ?]].
  - symmetry. f_equal. apply bool_decide_eq_false_2. by intros [= ? _].
Qed.

Lemma first_start_total test p n : ∀ s,
  (∀ i, s ≤ i < s + n → test i = Some (p i)) →
  first_start test (seq s n) = Some ((λ k, s + k) <$> position p (seq s n)).
Proof.
  induction n as [|n IH]; intros s Ht; [done|]. simpl. rewrite Ht by lia. simpl.
  destruct (p s); simpl; [by rewrite Nat.add_0_r|].
  rewrite IH by (intros; apply Ht; lia).
  destruct (position p (seq (S s) n)); simpl; [|done]. by rewrite Nat.add_succ_r.
Qed.

Lemma first_start_pass test norm lns pattern s :
  length pattern ≤ length lns →
  (∀ i, i + length pattern ≤ length lns → test i = Some (matches_at norm lns pattern i)) →
  first_start test (seq s (S (length lns - length pattern) - s)) = Some (seek_pass norm lns pattern s).
Proof. intros Hlen Ht. apply first_start_total. intros i Hi. apply Ht. lia. Qed.

(** The search never panics: the early return for a pattern that is longer
    than the input keeps every slice and every index of the four passes in
    range, and what is found is the first position of the strictest pass. *)
Lemma seek_sequence_total lns pattern start eof m :
  seek_sequence lns pattern start eof m = Some (find_sequence lns pattern start eof m).
Proof.
  unfold seek_sequence, find_sequence. destruct (is_empty pattern); [done|].
  destruct (Nat.ltb_spec (length lns) (length pattern)) as [|Hlen]; [done|]. cbv zeta.
  rewrite (first_start_pass (slice_matches lns pattern) (λ s, s))
    by (done || intros; by apply slice_matches_in).
  rewrite (first_start_pass (lines_match trim_end lns pattern) trim_end),
    (first_start_pass (lines_match trim lns pattern) trim),
    (first_start_pass (lines_match normalise lns pattern) normalise)
    by (done || intros; by apply lines_match_in).
  simpl. by repeat case_match.
Qed.

(** ** One pass *)

Lemma matches_at_spec norm lns pattern i :
  matches_at norm lns pattern i = true ↔
  norm <$> take (length pattern) (drop i lns) = norm <$> pattern.
Proof. apply bool_decide_eq_true. Qed.

Lemma seek_pass_Some norm lns pattern s i :
  length pattern ≤ length lns →
  seek_pass norm lns pattern s = Some i →
  s ≤ i ∧ i + length pattern ≤ length lns ∧ matches_at norm lns pattern i = true ∧
  ∀ j, s ≤ j < i → matches_at norm lns pattern j = false.
Proof.
  intros Hlen (k & Hk & ->)%fmap_Some. apply position_Some in Hk as (x & Hx & Hm & Hmin).
  pose proof (lookup_lt_Some _ _ _ Hx) as Hlt. rewrite length_seq in Hlt.
  apply lookup_seq in Hx as [-> _]. split_and!; [lia|lia|done|].
  intros j Hj. apply (Hmin (j - s)); [lia|]. apply lookup_seq. lia.
Qed.

Lemma seek_pass_None norm lns pattern s :
  seek_pass norm lns pattern s = None →
  ∀ j, s ≤ j → j + length pattern ≤ length lns → length pattern ≤ length lns →
  matches_at norm lns pattern j = false.
Proof.
  unfold seek_pass. intros H%fmap_None j Hj Hlen Hp. rewrite position_None in H.
  apply H, elem_of_seq. lia.
Qed.

(** A stricter pass's match is a match of every later pass. *)
Lemma matches_at_compose f g lns pattern i :
  matches_at f lns pattern i = true → matches_at (λ s, g (f s)) lns pattern i = true.
Proof.
  rewrite !matches_at_spec. intros H. apply (f_equal (fmap g)) in H.
  by rewrite <- !list_fmap_compose in H.
Qed.

Lemma matches_at_ext f g lns pattern i :
  (∀ s, f s = g s) → matches_at f lns pattern i = matches_at g lns pattern i.
Proof.
  intros Hfg. unfold matches_at. apply bool_decide_ext.
  by rewrite !(list_fmap_ext f g) by (intros; apply Hfg).
Qed.

Lemma trim_trim_end s : trim s = trim (trim_end s).
Proof.
  unfold trim, trim_end, trim_start.
  induction s as [|c s IH]; [done|]. destruct (is_whitespace c) eqn:Hc.
  - cbn [trim_start_matches trim_end_matches]. rewrite Hc, IH.
    destruct (trim_end_matches is_whitespace s); [done|].
    cbn [trim_start_matches]. by rewrite Hc.
  - rewrite (trim_end_matches_cons_keep _ c s) by done. cbn [trim_start_matches].
    rewrite Hc, !trim_end_matches_cons_keep by done. by rewrite trim_end_matches_idemp.
Qed.

Lemma matches_at_weaken lns pattern i :
  (matches_at (λ s, s) lns pattern i = true → matches_at trim_end lns pattern i = true) ∧
  (matches_at trim_end lns pattern i = true → matches_at trim lns pattern i = true) ∧
  (matches_at trim lns pattern i = true → matches_at normalise lns pattern i = true).
Proof.
  split_and!; intros H.
  - by apply (matches_at_compose _ trim_end) in H.
  - apply (matches_at_compose _ trim) in H.
    rewrite <- H. apply matches_at_ext. intros s. apply trim_trim_end.
  - by apply (matches_at_compose _ (fmap normalise_char)) in H.
Qed.

(** ** The whole search *)

(** Where the search may start. *)
Lemma search_start_ge lns pattern start eof m :
  m = PreserveLineEndings ∨ eof = false →
  start ≤ search_start_of lns pattern start eof m.
Proof. unfold search_start_of. intros [-> | ->]; simpl; [|lia]. case_m; lia. Qed.

(** Whatever pass finds it, a position is in range and matches under the most
    permissive normalisation. *)
Lemma find_sequence_found lns pattern start eof m i :
  pattern ≠ [] → find_sequence lns pattern start eof m = Some i →
  length pattern ≤ length lns ∧
  search_start_of lns pattern start eof m ≤ i ∧ i + length pattern ≤ length lns ∧
  matches_at normalise lns pattern i = true.
Proof.
  intros Hne. unfold find_sequence. rewrite (proj2 (is_empty_false _) Hne).
  destruct (Nat.ltb_spec (length lns) (length pattern)) as [|Hlen]; [done|]. intros H.
  destruct (matches_at_weaken lns pattern i) as (W1 & W2 & W3).
  repeat case_m_in H; simplify_eq;
    match goal with H : seek_pass _ _ _ _ = Some i |- _ =>
      apply seek_pass_Some in H as (? & ? & ? & _); [|done] end; split_and!; auto.
Qed.

(** The passes, strictest first. *)
Definition passes : list (str → str) := [λ s, s; trim_end; trim; normalise].

(** The positions that are tried: from [start] on or, at the end of the file,
    the last one only, which in one mode may be before [start]. *)
Definition in_window (lns pattern : list str) (start : nat) (eof : bool)
    (m : ApplyPatchFileUpdateMode) (j : nat) : Prop :=
  j + length pattern ≤ length lns ∧
  if eof then j + length pattern = length lns ∧ (m = PreserveLineEndings → start ≤ j) else start ≤ j.

Lemma window_range lns pattern start eof m j :
  length pattern ≤ length lns →
  in_window lns pattern start eof m j ↔
  search_start_of lns pattern start eof m ≤ j ∧ j + length pattern ≤ length lns.
Proof.
  intros Hlen. unfold in_window, search_start_of. rewrite (proj2 (Nat.leb_le _ _)) by done.
  destruct eof; simpl; [|lia].
  destruct m; split; [intros [? [? Hm]]|intros [? ?]|intros [? [? Hm]]; specialize (Hm eq_refl)|intros [? ?]];
    (split; [lia|]); try split; try done; try intros _; lia.
Qed.

(** The first match of the first pass that has one. *)
Definition first_match lns pattern start eof m (i : nat) : Prop :=
  in_window lns pattern start eof m i ∧
  ∃ k norm, passes !! k = Some norm ∧ matches_at norm lns pattern i = true ∧
    (∀ j, in_window lns pattern start eof m j → j < i → matches_at norm lns pattern j = false) ∧
    (∀ k' norm' j, k' < k → passes !! k' = Some norm' → in_window lns pattern start eof m j →
       matches_at norm' lns pattern j = false).

(** The first pass that finds something decides. *)
Lemma pass_decides lns pattern start eof m k norm i :
  length pattern ≤ length lns → passes !! k = Some norm →
  (∀ k' norm', k' < k → passes !! k' = Some norm' →
     seek_pass norm' lns pattern (search_start_of lns pattern start eof m) = None) →
  seek_pass norm lns pattern (search_start_of lns pattern start eof m) = Some i →
  first_match lns pattern start eof m i.
Proof.
  intros Hlen Hk Hbefore (Hs & He & Hm & Hmin)%seek_pass_Some; [|done].
  split; [by apply window_range|]. exists k, norm. split_and!; [done|done| |].
  - intros j [Hj _]%window_range Hlt; [|done]. apply Hmin. lia.
  - intros k' norm' j Hlt Hk' [Hj Hje]%window_range; [|done].
    by apply (seek_pass_None norm' lns pattern _ (Hbefore k' norm' Hlt Hk')).
Qed.

Lemma find_sequence_spec lns pattern start eof m :
  pattern ≠ [] →
  match find_sequence lns pattern start eof m with
  | Some i => first_match lns pattern start eof m i
  | None => ∀ norm j, norm ∈ passes → in_window lns pattern start eof m j →
              matches_at norm lns pattern j = false
  end.
Proof.
  intros Hne. unfold find_sequence. rewrite (proj2 (is_empty_false _) Hne).
  destruct (Nat.ltb_spec (length lns) (length pattern)) as [|Hlen].
  { intros norm j _ [Hj _]. lia. }
  cbv zeta. set (s := search_start_of lns pattern start eof m).
  destruct (seek_pass (λ s, s) lns pattern s) eqn:H0.
  { apply (pass_decides _ _ _ _ _ 0 (λ s, s)); [done|done| |done]. lia. }
  destruct (seek_pass trim_end lns pattern s) eqn:H1.
  { apply (pass_decides _ _ _ _ _ 1 trim_end); [done|done| |done].
    intros [|k] ? ? Hk; [|lia]. by injection Hk as <-. }
  destruct (seek_pass trim lns pattern s) eqn:H2.
  { apply (pass_decides _ _ _ _ _ 2 trim); [done|done| |done].
    intros [|[|k]] ? ? Hk; [..|lia]; by injection Hk as <-. }
  destruct (seek_pass normalise lns pattern s) eqn:H3.
  { apply (pass_decides _ _ _ _ _ 3 normalise); [done|done| |done].
    intros [|[|[|k]]] ? ? Hk; [..|lia]; by injection Hk as <-. }
  intros norm j Hin [Hj Hje]%window_range; [|done]. unfold passes in Hin.
  rewrite !elem_of_cons, elem_of_nil in Hin.
  destruct Hin as [->|[->|[->|[->|[]]]]]; by eapply seek_pass_None.
Qed.


Lemma find_sequence_nil lns start eof m : find_sequence lns [] start eof m = Some start.
Proof. done. Qed.

(** The bounds of a result, for any pattern. *)
Lemma find_sequence_bounds lns pattern start eof m i :
  start ≤ length lns → find_sequence lns pattern start eof m = Some i →
  i + length pattern ≤ length lns.
Proof.
  intros Hs H. destruct (decide (pattern = [])) as [->|Hne].
  - rewrite find_sequence_nil in H. simplify_eq/=. lia.
  - apply find_sequence_found in H; [|done]. lia.
Qed.

Lemma find_sequence_ge lns pattern start eof m i :
  m = PreserveLineEndings ∨ eof = false →
  find_sequence lns pattern start eof m = Some i → start ≤ i.
Proof.
  intros Hm H. destruct (decide (pattern = [])) as [->|Hne].
  - rewrite find_sequence_nil in H. simplify_eq/=. lia.
  - pose proof (search_start_ge lns pattern start eof m Hm).
    apply find_sequence_found in H; [|done]. lia.
Qed.

(** The first exact occurrence after [start] is found. *)
Lemma find_sequence_exact lns pattern start m i :
  pattern ≠ [] → start ≤ i → i + length pattern ≤ length lns →
  matches_at (λ s, s) lns pattern i = true →
  (∀ j, start ≤ j < i → matches_at (λ s, s) lns pattern j = false) →
  find_sequence lns pattern start false m = Some i.
Proof.
  intros Hne Hs Hlen Hm Hmin. unfold find_sequence.
  rewrite (proj2 (is_empty_false _) Hne), (proj2 (Nat.ltb_ge _ _)) by lia.
  change (search_start_of lns pattern start false m) with start. cbv zeta.
  destruct (seek_pass (λ s, s) lns pattern start) as [k|] eqn:Hk.
  - apply seek_pass_Some in Hk as (? & ? & Hmk & Hmink); [|lia]. f_equal.
    destruct (decide (k < i)); [rewrite Hmin in Hmk by lia; done|].
    destruct (decide (i < k)); [rewrite Hmink in Hm by lia; done|]. lia.
  - rewrite (seek_pass_None _ _ _ _ Hk i) in Hm by lia. done.
Qed.
