(* ===== verification/TextFile.v ===== *)
(** * Source files with their line endings

    [codex-rs/apply-patch/src/text_file.rs]: a file as logical lines, each with
    the terminator it had, so that an update keeps the endings of the lines it
    does not touch.  The source scans bytes; carriage return and line feed are
    ASCII, so the scan is the same on characters. *)

From S2P Require Import Prelude RustStr.

(** [(start_index, old_len, new_lines)]. *)
Abbreviation Replacement := (nat * nat * list str)%type.

Inductive LineEnding := Lf | CrLf | Cr.

Definition ending_str (e : LineEnding) : str :=
  match e with Lf => [nl] | CrLf => [cr; nl] | Cr => [cr] end.

Record SourceLine := { text : str; ending : option LineEnding }.

Record SourceFile := { file_lines : list SourceLine; preferred_ending : LineEnding }.

#[global] Instance LineEnding_eq_dec : EqDecision LineEnding.
Proof. solve_decision. Defined.
#[global] Instance SourceLine_eq_dec : EqDecision SourceLine.
Proof. solve_decision. Defined.

(** The scanning loop of [SourceFile::parse]: [cur] is
    [contents[line_start..cursor]], [preferred] the ending seen first. *)
Fixpoint parse_loop (cur : str) (preferred : option LineEnding) (s : str)
  : list SourceLine * option LineEnding :=
  let push e rest :=
    let '(ls, p) := parse_loop [] (Some (default e preferred)) rest in
    ({| text := cur; ending := Some e |} :: ls, p) in
  match s with
  | [] => (if is_empty cur then [] else [{| text := cur; ending := None |}], preferred)
  | c :: s' =>
      if (c =? cr)%N then
        match s' with
        | c' :: s'' => if (c' =? nl)%N then push CrLf s'' else push Cr s'
        | [] => push Cr s'
        end
      else if (c =? nl)%N then push Lf s'
      else parse_loop (cur ++ [c]) preferred s'
  end.

Definition parse_source (contents : str) : SourceFile :=
  let '(ls, p) := parse_loop [] None contents in
  {| file_lines := ls; preferred_ending := default Lf p |}.

Definition line_texts (f : SourceFile) : list str := text <$> file_lines f.

(** [apply_replacements]'s walk over the source lines.  The subtraction
    [start_idx - source_index] panics (or wraps) when it is negative: [None]. *)
Fixpoint replace_loop (pref : LineEnding) (source : list SourceLine) (source_index : nat)
    (replacements : list Replacement) : option (list SourceLine) :=
  match replacements with
  | [] => Some source
  | (start_idx, old_len, new_segment) :: rest =>
      if start_idx <? source_index then None else
      let kept := start_idx - source_index in
      tail ← replace_loop pref (drop old_len (drop kept source)) (start_idx + old_len) rest;
      Some (take kept source
            ++ ((λ t, {| text := t; ending := Some pref |}) <$> new_segment) ++ tail)
  end.

Definition terminate (pref : LineEnding) (l : SourceLine) : SourceLine :=
  {| text := text l; ending := Some (default pref (ending l)) |}.

Definition apply_source_replacements (f : SourceFile) (replacements : list Replacement)
  : option SourceFile :=
  ls ← replace_loop (preferred_ending f) (file_lines f) 0 replacements;
  Some {| file_lines := terminate (preferred_ending f) <$> ls;
          preferred_ending := preferred_ending f |}.

Definition line_contents (l : SourceLine) : str := text l ++ from_option ending_str [] (ending l).

Definition into_contents (f : SourceFile) : str := concat (line_contents <$> file_lines f).

(** ** Parsing keeps every character *)

(** The loop's equations, one per kind of character. *)
Lemma parse_loop_crlf cur p s :
  parse_loop cur p (cr :: nl :: s) =
  let '(ls, q) := parse_loop [] (Some (default CrLf p)) s in
  ({| text := cur; ending := Some CrLf |} :: ls, q).
Proof. done. Qed.

Lemma parse_loop_cr cur p s :
  head s ≠ Some nl →
  parse_loop cur p (cr :: s) =
  let '(ls, q) := parse_loop [] (Some (default Cr p)) s in
  ({| text := cur; ending := Some Cr |} :: ls, q).
Proof.
  destruct s as [|c s]; [done|]. intros Hc. simpl.
  destruct (N.eqb_spec c nl) as [->|]; [done|]. done.
Qed.

Lemma parse_loop_lf cur p s :
  parse_loop cur p (nl :: s) =
  let '(ls, q) := parse_loop [] (Some (default Lf p)) s in
  ({| text := cur; ending := Some Lf |} :: ls, q).
Proof. done. Qed.

Lemma parse_loop_other cur p c s :
  c ≠ cr → c ≠ nl → parse_loop cur p (c :: s) = parse_loop (cur ++ [c]) p s.
Proof.
  intros Hcr Hnl. simpl.
  destruct (N.eqb_spec c cr); [done|]. by destruct (N.eqb_spec c nl).
Qed.

(** Induction following the scan. *)
Lemma scan_ind (P : str → Prop) :
  P [] → (∀ s, P s → P (cr :: nl :: s)) → (∀ s, head s ≠ Some nl → P s → P (cr :: s)) →
  (∀ s, P s → P (nl :: s)) → (∀ c s, c ≠ cr → c ≠ nl → P s → P (c :: s)) → ∀ s, P s.
Proof.
  intros H0 H1 H2 H3 H4 s. remember (length s) as n eqn:Hn. revert s Hn.
  induction n as [n IH] using lt_wf_ind; intros s ->.
  destruct s as [|c s]; [done|].
  destruct (decide (c = cr)) as [->|Hcr].
  - destruct s as [|c s]; [by apply H2, H0|].
    destruct (decide (c = nl)) as [->|Hnl]; [apply H1|apply H2; [naive_solver|]];
      (eapply IH; [|done]; simpl; lia).
  - destruct (decide (c = nl)) as [->|Hnl]; [apply H3|by apply H4; [..|eapply IH; [|done]; simpl; lia]].
    eapply IH; [|done]. simpl. lia.
Qed.

Definition contents_of (ls : list SourceLine) : str := concat (line_contents <$> ls).

Lemma contents_of_cons l ls : contents_of (l :: ls) = line_contents l ++ contents_of ls.
Proof. done. Qed.

Lemma parse_loop_contents s : ∀ cur p, contents_of (parse_loop cur p s).1 = cur ++ s.
Proof.
  induction s as [|s IH|s Hs IH|s IH|c s Hcr Hnl IH] using scan_ind; intros cur p.
  - simpl. destruct cur; [done|]. unfold contents_of, line_contents; simpl.
    by rewrite !app_nil_r.
  - rewrite parse_loop_crlf. specialize (IH [] (Some (default CrLf p))).
    destruct (parse_loop _ _ s) as [ls q]. cbn [fst] in *.
    rewrite contents_of_cons, IH. unfold line_contents; simpl. by rewrite <- app_assoc.
  - rewrite parse_loop_cr by done. specialize (IH [] (Some (default Cr p))).
    destruct (parse_loop _ _ s) as [ls q]. cbn [fst] in *.
    rewrite contents_of_cons, IH. unfold line_contents; simpl. by rewrite <- app_assoc.
  - rewrite parse_loop_lf. specialize (IH [] (Some (default Lf p))).
    destruct (parse_loop _ _ s) as [ls q]. cbn [fst] in *.
    rewrite contents_of_cons, IH. unfold line_contents; simpl. by rewrite <- app_assoc.
  - rewrite parse_loop_other by done. rewrite IH. by rewrite <- app_assoc.
Qed.

Lemma source_roundtrip_lines contents :
  contents_of (file_lines (parse_source contents)) = contents.
Proof.
  unfold parse_source. pose proof (parse_loop_contents contents [] None) as H.
  destruct (parse_loop [] None contents) as [ls p]. exact H.
Qed.

(** Splitting a file into lines loses nothing: writing the parsed file back
    gives the original contents, whatever mixture of line endings it has. *)
Theorem source_roundtrip contents : into_contents (parse_source contents) = contents.
Proof. apply source_roundtrip_lines. Qed.

(** ** The lines of a parsed file *)

Definition no_break (t : str) : Prop := nl ∉ t ∧ cr ∉ t.

(** Every line but the last is terminated; a line without an ending has text. *)
Definition lines_wf (ls : list SourceLine) : Prop :=
  Forall (λ l, no_break (text l)) ls ∧
  Forall (λ l, ending l ≠ None) (drop_last ls) ∧
  (∀ l, last ls = Some l → ending l = None → text l ≠ []).

Lemma drop_last_cons {A} (x : A) l : l ≠ [] → drop_last (x :: l) = x :: drop_last l.
Proof.
  intros Hl. destruct l as [|y l]; [done|]. unfold drop_last. simpl. by rewrite Nat.sub_0_r.
Qed.

Lemma lines_wf_cons t e ls :
  no_break t → lines_wf ls → lines_wf ({| text := t; ending := Some e |} :: ls).
Proof.
  intros Ht (H1 & H2 & H3). split_and!; [by constructor| |].
  - destruct ls as [|l ls]; [constructor|]. rewrite drop_last_cons by done. by constructor.
  - destruct ls as [|l ls]; [by intros ? [= <-]|exact H3].
Qed.

Lemma parse_loop_wf s : ∀ cur p, no_break cur → lines_wf (parse_loop cur p s).1.
Proof.
  assert (no_break []) by (split; set_solver).
  induction s as [|s IH|s Hs IH|s IH|c s Hcr Hnl IH] using scan_ind; intros cur p Hcur.
  - simpl. destruct cur as [|x cur]; simpl; [by split_and!; [constructor..|]|].
    split_and!; [by apply Forall_singleton|constructor|]. by intros ? [= <-].
  - rewrite parse_loop_crlf. specialize (IH [] (Some (default CrLf p))).
    destruct (parse_loop _ _ s). apply lines_wf_cons; auto.
  - rewrite parse_loop_cr by done. specialize (IH [] (Some (default Cr p))).
    destruct (parse_loop _ _ s). apply lines_wf_cons; auto.
  - rewrite parse_loop_lf. specialize (IH [] (Some (default Lf p))).
    destruct (parse_loop _ _ s). apply lines_wf_cons; auto.
  - rewrite parse_loop_other by done. apply IH. destruct Hcur. split; set_solver.
Qed.

Lemma parse_source_wf s : lines_wf (file_lines (parse_source s)).
Proof.
  unfold parse_source. pose proof (parse_loop_wf s [] None) as H.
  destruct (parse_loop [] None s). apply H. split; set_solver.
Qed.

(** ** Ordered, non-overlapping replacements *)

(** [replacements] is source-ordered and non-overlapping from [base] on, and
    stays inside a file of [n] lines. *)
Fixpoint ordered_from (base n : nat) (replacements : list Replacement) : Prop :=
  match replacements with
  | [] => True
  | (s, len, _) :: rest => base ≤ s ∧ s + len ≤ n ∧ ordered_from (s + len) n rest
  end.

Lemma ordered_from_mono b b' n reps : b' ≤ b → ordered_from b n reps → ordered_from b' n reps.
Proof. destruct reps as [|[[s len] new] reps]; simpl; [done|]. intuition lia. Qed.

Lemma replace_loop_ordered pref reps : ∀ source base n,
  base ≤ n → length source = n - base → ordered_from base n reps →
  ∃ ls, replace_loop pref source base reps = Some ls.
Proof.
  induction reps as [|[[s len] new] reps IH]; intros source base n Hn Hlen Hord; simpl; [eauto|].
  destruct Hord as (Hb & Hin & Hord). rewrite (proj2 (Nat.ltb_ge _ _)) by lia.
  destruct (IH (drop len (drop (s - base) source)) (s + len) n) as (ls & ->).
  - lia.
  - rewrite !length_drop. lia.
  - done.
  - eauto.
Qed.
