(* ===== verification/ExecFs.v ===== *)
(** * The file-system and path interfaces

    What the patch code uses of [ExecutorFileSystem]
    ([codex-rs/file-system/src/lib.rs]) and of [PathUri]
    ([codex-rs/utils/path-uri]): operations as classes, the laws a
    file system promises as a second class, so that clients are proved against
    the laws.  The sandbox context is the same in every call of one patch
    application and is part of the instance. *)

From S2P Require Import Prelude RustStr.

(** [std::io::ErrorKind], as far as it is inspected. *)
Inductive ErrorKind := NotFound | InvalidInput | InvalidData | OtherKind.

Record io_error := { err_kind : ErrorKind; err_text : str }.

Definition is_not_found (e : io_error) : bool :=
  match err_kind e with NotFound => true | _ => false end.

Record metadata := { md_is_directory : bool; md_is_file : bool; md_is_symlink : bool }.

(** [PathUri]: its [Eq] (identity, or up to case for Windows paths), [join],
    [parent] and the display form. *)
Class PathUriOps (path : Type) := {
  eq_uri : path → path → bool;
  eq_uri_refl : ∀ p, eq_uri p p = true;
  path_join : path → str → result path str;
  path_parent : path → option path;
  path_native : path → str;
}.

(** [ExecutorFileSystem], as state passing over the world [W].  The options of
    each call are its [follow_symlinks] flag ([recursive] and [force] are
    constants of the call sites). *)
Class ExecutorFileSystem (W path : Type) := {
  read_file_text : W → path → bool → result str io_error;
  get_metadata : W → path → bool → result metadata io_error;
  write_file : W → path → str → bool → W * result unit io_error;
  create_directory : W → path → bool → W * result unit io_error;
  remove : W → path → bool → W * result unit io_error;
}.

(** What a name stands for when links are not followed: a regular file with
    its text, a symbolic link, or another file (not UTF-8, a device).
    Directories are not entries. *)
Inductive fs_entry (path : Type) := FsText (s : str) | FsLink (target : path) | FsOther.
Arguments FsText {path}.
Arguments FsLink {path}.
Arguments FsOther {path}.

Definition is_link {path} (e : option (fs_entry path)) : bool :=
  match e with Some (FsLink _) => true | _ => false end.

(** The promises of a file system that nobody else changes meanwhile.
    [touches w p q] holds of the other names [q] under which an operation on [p]
    can be seen: the target of a symbolic link, another hard link to the same
    file, another spelling of [p] through a linked directory.  The laws put no
    bound on them; the theorems say which of them they allow.  None of the
    operations makes a new link. *)
Class FileSystemLaws (W path : Type) `{ExecutorFileSystem W path} := {
  entry_at : W → path → option (fs_entry path);
  touches : W → path → path → Prop;
  read_ok : ∀ w p fl s, read_file_text w p fl = Ok s →
    is_link (entry_at w p) = true ∨ entry_at w p = Some (FsText s);
  read_not_found : ∀ w p fl e, read_file_text w p fl = Err e → err_kind e = NotFound →
    is_link (entry_at w p) = true ∨ entry_at w p = None;
  metadata_ok : ∀ w p fl md, get_metadata w p fl = Ok md →
    md_is_symlink md = is_link (entry_at w p);
  metadata_not_found : ∀ w p fl e, get_metadata w p fl = Err e → err_kind e = NotFound →
    entry_at w p = None ∨ ∃ q, q ≠ p ∧ touches w p q ∧ entry_at w q = None;
  write_ok : ∀ w p s fl w', write_file w p s fl = (w', Ok ()) →
    (is_link (entry_at w p) = false → entry_at w' p = Some (FsText s))
    ∧ (∀ q, q ≠ p → ¬ touches w p q → entry_at w' q = entry_at w q)
    ∧ ∀ a b, touches w' a b → touches w a b;
  write_not_found : ∀ w p s fl w' e, write_file w p s fl = (w', Err e) →
    err_kind e = NotFound →
    (∀ q, entry_at w' q = entry_at w q) ∧ ∀ a b, touches w' a b → touches w a b;
  create_directory_frame : ∀ w p fl w' r, create_directory w p fl = (w', r) →
    (∀ q, entry_at w' q = entry_at w q) ∧ ∀ a b, touches w' a b → touches w a b;
  remove_ok : ∀ w p fl w', remove w p fl = (w', Ok ()) →
    entry_at w' p = None
    ∧ (∀ q, q ≠ p → ¬ touches w p q → entry_at w' q = entry_at w q)
    ∧ ∀ a b, touches w' a b → touches w a b;
  remove_err : ∀ w p fl w' e, remove w p fl = (w', Err e) →
    (entry_at w' p = entry_at w p ∨ entry_at w' p = None)
    ∧ (∀ q, q ≠ p → ¬ touches w p q → entry_at w' q = entry_at w q)
    ∧ ∀ a b, touches w' a b → touches w a b;
}.

(** A name that is not a symbolic link and is the only name of its file. *)
Definition sole_name {W path} `{FileSystemLaws W path} (w : W) (p : path) : Prop :=
  is_link (entry_at w p) = false ∧ ∀ q, touches w p q → q = p.
