(* ===== verification/FileUpdate.v ===== *)
(** * Computing and applying line replacements

    [codex-rs/apply-patch/src/file_update.rs]: from a file's lines and the
    chunks of an update hunk to the new contents of the file. *)

From S2P Require Import Prelude RustStr PatchParser SeekSequence TextFile ExecFs.

(** [ApplyPatchError] (lib.rs). *)
Inductive ApplyPatchError :=
| PatchParseError (e : ParseError)
| IoError (context : str) (source : io_error)
| ComputeReplacements (message : str)
| PathUriError (message : str)
| ImplicitInvocation.

(** ** Locating one chunk *)

(** The context line narrows the position. *)
Definition seek_context (original_lines : list str) (path : str) (chunk : UpdateFileChunk)
    (m : ApplyPatchFileUpdateMode) (line_index : nat) : outcome nat ApplyPatchError :=
  match change_context chunk with
  | None => Done line_index
  | Some ctx_line =>
      let! found := or_panic (seek_sequence original_lines [ctx_line] line_index false m) in
      match found with
      | Some idx => Done (idx + 1)
      | None =>
          Fail (ComputeReplacements
                  (lit "Failed to find context '" ++ ctx_line ++ lit "' in " ++ path))
      end
  end.

(** A chunk with no old lines is inserted at the end of the file. *)
Definition insertion_index (original_lines : list str) (m : ApplyPatchFileUpdateMode)
  : outcome nat ApplyPatchError :=
  match m with
  | NormalizeToLf =>
      if is_some_and (last original_lines) is_empty
      then or_panic (usub (length original_lines) 1)
      else Done (length original_lines)
  | PreserveLineEndings => Done (length original_lines)
  end.

(** The old lines, then, if they end with an empty line that is not there, the
    old lines without it. *)
Definition locate (original_lines : list str) (chunk : UpdateFileChunk)
    (m : ApplyPatchFileUpdateMode) (line_index : nat)
  : option (option nat * list str * list str) :=
  let seek pat := seek_sequence original_lines pat line_index (is_end_of_file chunk) m in
  let pattern := old_lines chunk in
  let new_slice := new_lines chunk in
  found ← seek pattern;
  match found with
  | Some i => Some (Some i, pattern, new_slice)
  | None =>
      if is_some_and (last pattern) is_empty then
        let pattern := drop_last pattern in
        let new_slice :=
          if is_some_and (last new_slice) is_empty then drop_last new_slice else new_slice in
        found ← seek pattern;
        Some (found, pattern, new_slice)
      else Some (None, pattern, new_slice)
  end.

(** ** The replacements of one chunk *)

(** After the last context line. *)
Definition tail_replacement (start_idx : nat) (pattern new_slice : list str)
    (old_start new_start : nat) : outcome (list Replacement) ApplyPatchError :=
  if negb (old_start =? length pattern) || negb (new_start =? length new_slice) then
    let! len := or_panic (usub (length pattern) old_start) in
    let! seg := or_panic (slice new_slice new_start (length new_slice)) in
    Done [(start_idx + old_start, len, seg)]
  else Done [].

(** Between context lines: one replacement per run of changed lines. *)
Fixpoint context_replacements (start_idx : nat) (pattern new_slice : list str)
    (old_start new_start : nat) (indices : list (nat * nat))
  : outcome (list Replacement) ApplyPatchError :=
  match indices with
  | [] => tail_replacement start_idx pattern new_slice old_start new_start
  | (old_context, new_context) :: rest =>
      if (length pattern <=? old_context) || (length new_slice <=? new_context) then
        tail_replacement start_idx pattern new_slice old_start new_start
      else
        let! here :=
          if negb (old_start =? old_context) || negb (new_start =? new_context) then
            let! len := or_panic (usub old_context old_start) in
            let! seg := or_panic (slice new_slice new_start new_context) in
            Done [(start_idx + old_start, len, seg)]
          else Done [] in
        let! more :=
          context_replacements start_idx pattern new_slice (old_context + 1) (new_context + 1) rest in
        Done (here ++ more)
  end.

Definition chunk_replacements (chunk : UpdateFileChunk) (m : ApplyPatchFileUpdateMode)
    (start_idx : nat) (pattern new_slice : list str)
  : outcome (list Replacement) ApplyPatchError :=
  match m with
  | NormalizeToLf => Done [(start_idx, length pattern, new_slice)]
  | PreserveLineEndings =>
      context_replacements start_idx pattern new_slice 0 0 (context_line_indices chunk)
  end.

(** The body of [compute_replacements]' loop: the new replacements and the new
    [line_index]. *)
Definition compute_chunk (original_lines : list str) (path : str)
    (m : ApplyPatchFileUpdateMode) (chunk : UpdateFileChunk) (line_index : nat)
  : outcome (list Replacement * nat) ApplyPatchError :=
  let! line_index := seek_context original_lines path chunk m line_index in
  if is_empty (old_lines chunk) then
    let! insertion_idx := insertion_index original_lines m in
    Done ([(insertion_idx, 0, new_lines chunk)], line_index)
  else
    let! '(found, pattern, new_slice) := or_panic (locate original_lines chunk m line_index) in
    match found with
    | Some start_idx =>
        let! reps := chunk_replacements chunk m start_idx pattern new_slice in
        Done (reps, start_idx + length pattern)
    | None =>
        Fail (ComputeReplacements
                (lit "Failed to find expected lines in " ++ path ++ lit ":" ++ [nl]
                 ++ join [nl] (old_lines chunk)))
    end.

Fixpoint compute_loop (original_lines : list str) (path : str)
    (m : ApplyPatchFileUpdateMode) (chunks : list UpdateFileChunk)
    (replacements : list Replacement) (line_index : nat)
  : outcome (list Replacement) ApplyPatchError :=
  match chunks with
  | [] => Done replacements
  | chunk :: rest =>
      let! '(reps, line_index) := compute_chunk original_lines path m chunk line_index in
      compute_loop original_lines path m rest (replacements ++ reps) line_index
  end.

(** [sort_by_key(|(index, _, _)| *index)], a stable sort. *)
Definition rep_start (r : Replacement) : nat := r.1.1.
Definition rep_len (r : Replacement) : nat := r.1.2.
Definition rep_end (r : Replacement) : nat := rep_start r + rep_len r.

Fixpoint insert_by_start (r : Replacement) (l : list Replacement) : list Replacement :=
  match l with
  | [] => [r]
  | x :: l' => if rep_start r <=? rep_start x then r :: l else x :: insert_by_start r l'
  end.

Definition sort_by_start (l : list Replacement) : list Replacement :=
  foldr insert_by_start [] l.

Definition compute_replacements (original_lines : list str) (path : str)
    (chunks : list UpdateFileChunk) (m : ApplyPatchFileUpdateMode)
  : outcome (list Replacement) ApplyPatchError :=
  let! reps := compute_loop original_lines path m chunks [] 0 in
  Done (sort_by_start reps).

(** ** Applying replacements to a vector of lines *)

(** [for _ in 0..old_len { if start_idx < lines.len() { lines.remove(start_idx) } }]. *)
Fixpoint remove_lines (n start_idx : nat) (lns : list str) : list str :=
  match n with
  | 0 => lns
  | S n' =>
      remove_lines n' start_idx
        (if start_idx <? length lns then delete start_idx lns else lns)
  end.

(** [lines.insert(i, x)] panics beyond the end. *)
Fixpoint insert_lines (i : nat) (segment : list str) (lns : list str) : option (list str) :=
  match segment with
  | [] => Some lns
  | x :: rest =>
      if i <=? length lns
      then insert_lines (S i) rest (take i lns ++ x :: drop i lns)
      else None
  end.

Definition apply_one (r : Replacement) (lns : list str) : option (list str) :=
  let '(start_idx, old_len, new_segment) := r in
  insert_lines start_idx new_segment (remove_lines old_len start_idx lns).

(** Replacements are applied last first. *)
Definition apply_replacements (lns : list str) (replacements : list Replacement)
  : option (list str) :=
  foldr (λ r acc, acc ≫= apply_one r) (Some lns) replacements.

(** ** New contents *)

Definition split_lines (contents : str) : list str :=
  let ls := split_on nl contents in
  if is_some_and (last ls) is_empty then drop_last ls else ls.

Definition finish_lines (new_lns : list str) : str :=
  join [nl] (if is_some_and (last new_lns) is_empty then new_lns else new_lns ++ [[]]).

(** [derive_new_contents_from_chunks] once the file has been read. *)
Definition new_contents (m : ApplyPatchFileUpdateMode) (path_text : str)
    (chunks : list UpdateFileChunk) (original_contents : str) : outcome str ApplyPatchError :=
  match m with
  | NormalizeToLf =>
      let original_lines := split_lines original_contents in
      let! replacements := compute_replacements original_lines path_text chunks m in
      let! new_lns := or_panic (apply_replacements original_lines replacements) in
      Done (finish_lines new_lns)
  | PreserveLineEndings =>
      let source_file := parse_source original_contents in
      let! replacements := compute_replacements (line_texts source_file) path_text chunks m in
      let! new_file := or_panic (apply_source_replacements source_file replacements) in
      Done (into_contents new_file)
  end.

Record AppliedPatch := { ap_original : str; ap_new : str }.

Definition derive_new_contents_from_chunks {W path} `{ExecutorFileSystem W path, PathUriOps path}
    (w : W) (p : path) (chunks : list UpdateFileChunk) (m : ApplyPatchFileUpdateMode)
    (follow_symlinks : bool) : outcome AppliedPatch ApplyPatchError :=
  match read_file_text w p follow_symlinks with
  | Err err => Fail (IoError (lit "Failed to read file to update " ++ path_native p) err)
  | Ok original_contents =>
      let! new := new_contents m (path_native p) chunks original_contents in
      Done {| ap_original := original_contents; ap_new := new |}
  end.

(** ** Unified diffs; the diff text is the [similar] crate's. *)
Record ApplyPatchFileUpdate := {
  afu_unified_diff : str;
  afu_original_content : str;
  afu_content : str;
}.

Definition unified_diff_from_chunks_with_context_and_mode {W path}
    `{ExecutorFileSystem W path, PathUriOps path} (text_diff : str → str → nat → str)
    (w : W) (p : path) (chunks : list UpdateFileChunk) (context : nat)
    (m : ApplyPatchFileUpdateMode) : outcome ApplyPatchFileUpdate ApplyPatchError :=
  let! ap := derive_new_contents_from_chunks w p chunks m true in
  Done {| afu_unified_diff := text_diff (ap_original ap) (ap_new ap) context;
          afu_original_content := ap_original ap; afu_content := ap_new ap |}.

Definition unified_diff_from_chunks_with_mode {W path}
    `{ExecutorFileSystem W path, PathUriOps path} (text_diff : str → str → nat → str)
    (w : W) (p : path) (chunks : list UpdateFileChunk) (m : ApplyPatchFileUpdateMode) :=
  unified_diff_from_chunks_with_context_and_mode text_diff w p chunks 1 m.

(** ** The stable sort *)

Definition rep_within (n : nat) (r : Replacement) : Prop := rep_end r ≤ n.

(** [b] may follow [a]: it starts after it, or [a] is an insertion at the end. *)
Definition may_follow (n : nat) (a b : Replacement) : Prop :=
  rep_end a ≤ rep_start b ∨ rep_start a = n.

Lemma insert_by_start_perm r l : insert_by_start r l ≡ₚ r :: l.
Proof.
  induction l as [|x l IH]; simpl; [done|]. case_m; [done|]. rewrite IH. apply Permutation_swap.
Qed.

Lemma sort_by_start_perm l : sort_by_start l ≡ₚ l.
Proof.
  induction l as [|r l IH]; simpl; [done|]. by rewrite insert_by_start_perm, IH.
Qed.

Lemma ordered_from_Forall b n reps :
  ordered_from b n reps → Forall (λ r, b ≤ rep_start r ∧ rep_end r ≤ n) reps.
Proof.
  revert b; induction reps as [|[[s len] new] reps IH]; intros b; [constructor|].
  intros (Hb & Hn & Hord). constructor; [done|].
  eapply Forall_impl; [by apply IH|]. unfold rep_end; simpl; intros r; lia.
Qed.

Lemma insert_front n r l :
  rep_within n r → ordered_from (rep_end r) n l → ordered_from (rep_start r) n (insert_by_start r l).
Proof.
  intros Hr Hl. destruct r as [[s len] new]. unfold rep_within, rep_end, rep_start, rep_len in *; simpl in *.
  destruct l as [|[[s' len'] new'] l]; simpl in *; [lia|].
  rewrite (proj2 (Nat.leb_le _ _)) by (unfold rep_start; simpl; lia).
  simpl. split_and!; try lia; apply Hl.
Qed.

Lemma insert_end n r l b :
  rep_start r = n → rep_within n r → b ≤ n → ordered_from b n l →
  ordered_from b n (insert_by_start r l).
Proof.
  destruct r as [[s len] new]. unfold rep_within, rep_end, rep_start, rep_len; simpl. intros -> Hr.
  assert (len = 0) as -> by lia. revert b.
  induction l as [|[[s' len'] new'] l IH]; intros b Hb Hl; simpl in *; [lia|].
  destruct Hl as (Hb' & Hn & Hl).
  unfold rep_start; cbn [fst].
  destruct (Nat.leb_spec n s'); simpl; (split; [lia|split; [lia|]]).
  - split; [lia|]. split; [lia|]. done.
  - apply IH; [lia|done].
Qed.

(** The sort puts the insertions at the end last and leaves the rest in order. *)
Lemma sort_by_start_ordered n reps :
  StronglySorted (may_follow n) reps → Forall (rep_within n) reps →
  ordered_from 0 n (sort_by_start reps).
Proof.
  induction reps as [|r reps IH]; intros Hs Hw; simpl; [done|].
  apply StronglySorted_inv in Hs as [Hs Hf]. apply Forall_cons in Hw as [Hr Hw].
  specialize (IH Hs Hw).
  destruct (decide (rep_start r = n)) as [Hn|Hn]; [apply insert_end; [done..|lia|done]|].
  apply (ordered_from_mono (rep_start r)); [lia|]. apply insert_front; [done|].
  assert (Forall (λ x, rep_end r ≤ rep_start x) (sort_by_start reps)) as Hall.
  { rewrite sort_by_start_perm. eapply Forall_impl; [exact Hf|]. intros x Hx. by destruct Hx. }
  clear -IH Hall. destruct (sort_by_start reps) as [|[[s len] new] l]; [done|].
  apply Forall_cons in Hall as [Hx _]. destruct IH as (_ & ? & ?).
  split_and!; [exact Hx|done..].
Qed.

(** ** The two appliers *)

Lemma remove_lines_spec n : ∀ start lns,
  start ≤ length lns → remove_lines n start lns = take start lns ++ drop (start + n) lns.
Proof.
  induction n as [|n IH]; intros start lns Hs; simpl.
  - by rewrite Nat.add_0_r, take_drop.
  - destruct (Nat.ltb_spec start (length lns)) as [Hlt|Hge].
    + rewrite IH by (rewrite length_delete; [lia|by apply lookup_lt_is_Some]).
      rewrite delete_take_drop.
      rewrite take_app_le, take_take by (rewrite length_take; lia).
      rewrite Nat.min_id. f_equal.
      rewrite drop_app_ge by (rewrite length_take; lia). rewrite drop_drop. f_equal.
      rewrite length_take. lia.
    + rewrite IH by lia. f_equal. rewrite !drop_ge by lia. done.
Qed.

Lemma insert_lines_spec segment : ∀ i lns,
  i ≤ length lns → insert_lines i segment lns = Some (take i lns ++ segment ++ drop i lns).
Proof.
  induction segment as [|x segment IH]; intros i lns Hi; simpl; [by rewrite take_drop|].
  rewrite (proj2 (Nat.leb_le _ _)) by done.
  rewrite IH by (rewrite length_app; simpl; rewrite length_take, length_drop; lia).
  f_equal. rewrite (cons_middle x), !app_assoc.
  assert (length (take i lns ++ [x]) = S i) as Hl by (rewrite length_app, length_take; simpl; lia).
  rewrite <- Hl, take_app_length, drop_app_length. by rewrite <- !app_assoc.
Qed.

Lemma apply_one_spec s len new lns :
  s ≤ length lns → apply_one (s, len, new) lns = Some (take s lns ++ new ++ drop (s + len) lns).
Proof.
  intros Hs. unfold apply_one. rewrite remove_lines_spec by done.
  rewrite insert_lines_spec by (rewrite length_app, length_take; lia).
  f_equal. rewrite take_app_le by (rewrite length_take; lia).
  rewrite take_take, Nat.min_id. f_equal. f_equal.
  rewrite drop_app_ge by (rewrite length_take; lia). rewrite drop_drop. f_equal.
  rewrite length_take. lia.
Qed.

(** The legacy applier never panics when the replacements are sorted and start
    inside the file, even if they overlap. *)
Lemma apply_replacements_total lns reps :
  StronglySorted (λ a b, rep_start a ≤ rep_start b) reps →
  Forall (λ r, rep_start r ≤ length lns) reps →
  ∃ out, apply_replacements lns reps = Some out ∧
    ∀ s, s ≤ length lns → Forall (λ r, s ≤ rep_start r) reps → s ≤ length out.
Proof.
  induction reps as [|r reps IH]; intros Hs Hf; [by eexists|].
  apply StronglySorted_inv in Hs as [Hs Hr]. apply Forall_cons in Hf as [Hrs Hf].
  destruct (IH Hs Hf) as (out & Ho & Hlen).
  assert (rep_start r ≤ length out) as Hro by (by apply Hlen).
  destruct r as [[s len] new]. unfold apply_replacements in *. simpl. rewrite Ho. simpl.
  unfold rep_start in Hro; simpl in Hro.
  change (insert_lines s new (remove_lines len s out)) with (apply_one (s, len, new) out).
  rewrite apply_one_spec by done. eexists. split; [done|]. intros s' Hs' Hall.
  apply Forall_cons in Hall as [Hle _]. unfold rep_start in Hle; simpl in Hle.
  rewrite length_app, length_take. lia.
Qed.

Lemma insert_by_start_sorted r l :
  StronglySorted (λ a b, rep_start a ≤ rep_start b) l →
  StronglySorted (λ a b, rep_start a ≤ rep_start b) (insert_by_start r l).
Proof.
  induction l as [|x l IH]; intros Hs; simpl; [apply StronglySorted_single|].
  apply StronglySorted_inv in Hs as [Hs Hx].
  destruct (Nat.leb_spec (rep_start r) (rep_start x)).
  - constructor; [by constructor|]. constructor; [done|].
    eapply Forall_impl; [done|]. simpl. lia.
  - constructor; [auto|]. rewrite insert_by_start_perm. constructor; [lia|done].
Qed.

Lemma sort_by_start_sorted l : StronglySorted (λ a b, rep_start a ≤ rep_start b) (sort_by_start l).
Proof. induction l; simpl; [constructor|]. by apply insert_by_start_sorted. Qed.

(** The line-by-line walk computes what the descending splices compute. *)
Lemma replace_loop_texts pref n reps : ∀ base (source : list SourceLine) lns,
  length lns = n → base ≤ n → drop base lns = text <$> source →
  ordered_from base n reps →
  ∃ ls, replace_loop pref source base reps = Some ls ∧
    apply_replacements lns reps = Some (take base lns ++ (text <$> ls)).
Proof.
  induction reps as [|[[s len] new] reps IH]; intros base source lns Hn Hb Hd Hord; simpl.
  { exists source. by rewrite <- Hd, take_drop. }
  destruct Hord as (Hbs & Hin & Hord). rewrite (proj2 (Nat.ltb_ge _ _)) by lia.
  destruct (IH (s + len) (drop len (drop (s - base) source)) lns) as (ls & Hl & Ha); [done|lia| |done|].
  { rewrite !fmap_drop, <- Hd, !drop_drop. f_equal. lia. }
  rewrite Hl. eexists. split; [done|].
  unfold apply_replacements in *. simpl. rewrite Ha. simpl.
  change (insert_lines s new (remove_lines len s ?x)) with (apply_one (s, len, new) x).
  assert (length (take (s + len) lns) = s + len) as Hlt by (rewrite length_take; lia).
  rewrite apply_one_spec by (rewrite length_app; lia). f_equal.
  rewrite take_app_le, take_take by lia. rewrite Nat.min_l by lia.
  rewrite drop_app_ge by lia. rewrite Hlt, Nat.sub_diag, drop_0.
  rewrite !fmap_app, <- list_fmap_compose, (app_assoc (take base lns)). f_equal.
  - rewrite <- (take_drop base lns) at 1. rewrite take_app, take_take.
    rewrite length_take, !Nat.min_r, Nat.min_l by lia. f_equal.
    by rewrite Hd, fmap_take.
  - f_equal. by rewrite list_fmap_id.
Qed.

(** On source-ordered, non-overlapping replacements the two appliers agree:
    the walk that keeps line endings does not underflow, the descending
    remove/insert does not panic, and both produce the same line texts. *)
Theorem appliers_agree f reps :
  ordered_from 0 (length (file_lines f)) reps →
  ∃ f', apply_source_replacements f reps = Some f' ∧
    apply_replacements (line_texts f) reps = Some (line_texts f').
Proof.
  intros Hord.
  destruct (replace_loop_texts (preferred_ending f) (length (file_lines f)) reps 0
              (file_lines f) (line_texts f)) as (ls & Hl & Ha);
    [apply length_fmap|lia|by rewrite drop_0|done|].
  unfold apply_source_replacements. rewrite Hl. simpl. eexists. split; [done|].
  rewrite Ha. simpl. f_equal. unfold line_texts. simpl. by rewrite <- list_fmap_compose.
Qed.

(** ** The replacements of one chunk *)

Lemma drop_last_length {A} (l : list A) : length (drop_last l) = length l - 1.
Proof. unfold drop_last. rewrite length_take. lia. Qed.

Lemma locate_bounds lns chunk m li i pat new :
  li ≤ length lns → locate lns chunk m li = Some (Some i, pat, new) →
  i + length pat ≤ length lns ∧
  (m = PreserveLineEndings ∨ is_end_of_file chunk = false → li ≤ i).
Proof.
  intros Hli. unfold locate. rewrite !seek_sequence_total. cbn [mbind option_bind]. intros H.
  assert (find_sequence lns pat li (is_end_of_file chunk) m = Some i) as Hs
    by (repeat case_m_in H; by simplify_eq).
  split; [by eapply find_sequence_bounds|]. intros Hm. by eapply find_sequence_ge.
Qed.

Lemma locate_total lns chunk m li : is_Some (locate lns chunk m li).
Proof.
  unfold locate. rewrite !seek_sequence_total. cbn [mbind option_bind]. repeat case_m; eauto.
Qed.

(** The run-by-run replacements lie in order inside the located block. *)
Lemma context_replacements_ok start pat new idxs : ∀ os ns,
  StronglySorted pair_lt idxs → Forall (λ ij, os ≤ ij.1 ∧ ns ≤ ij.2) idxs →
  os ≤ length pat → ns ≤ length new →
  ∃ reps, context_replacements start pat new os ns idxs = Done reps ∧
    StronglySorted (λ a b, rep_end a ≤ rep_start b) reps ∧
    Forall (λ r, start + os ≤ rep_start r ∧ rep_end r ≤ start + length pat) reps.
Proof.
  assert (∀ os ns, os ≤ length pat → ns ≤ length new →
    ∃ reps, tail_replacement start pat new os ns = Done reps ∧
      StronglySorted (λ a b, rep_end a ≤ rep_start b) reps ∧
      Forall (λ r, start + os ≤ rep_start r ∧ rep_end r ≤ start + length pat) reps) as Htail.
  { intros os ns Hos Hns. unfold tail_replacement, usub, slice.
    rewrite !(proj2 (Nat.leb_le _ _)) by lia. simpl.
    case_m; eexists; (split; [done|]); [|by split; constructor].
    split; [apply StronglySorted_single|]. apply Forall_singleton.
    unfold rep_end, rep_start, rep_len; simpl; lia. }
  induction idxs as [|[oc nc] idxs IH]; intros os ns Hs Hf Hos Hns; cbn [context_replacements];
    [by apply Htail|].
  apply StronglySorted_inv in Hs as [Hs Hlt]. apply Forall_cons in Hf as [[Ho Hn] Hf].
  simpl in Ho, Hn.
  destruct (Nat.leb_spec (length pat) oc), (Nat.leb_spec (length new) nc);
    cbn [orb]; try by apply Htail.
  destruct (IH (oc + 1) (nc + 1)) as (more & -> & Hms & Hmf); [done| |lia|lia|].
  { eapply Forall_impl; [exact Hlt|]. intros ij [??]; simpl in *. lia. }
  unfold usub, slice. rewrite !(proj2 (Nat.leb_le _ _)) by lia. cbn [andb or_panic obind].
  assert (Forall (λ r, start + os ≤ rep_start r ∧ rep_end r ≤ start + length pat) more) as Hmf'.
  { eapply Forall_impl; [exact Hmf|]. simpl. intros r. lia. }
  case_m; cbn [obind]; eexists; (split; [done|]); simpl; [|done].
  split; constructor; try done.
  - eapply Forall_impl; [exact Hmf|]. unfold rep_end, rep_start, rep_len; simpl. intros r. lia.
  - unfold rep_end, rep_start, rep_len; simpl. lia.
Qed.

Lemma seek_context_ok lns path chunk m li :
  li ≤ length lns →
  match seek_context lns path chunk m li with
  | Done li' => li ≤ li' ≤ length lns
  | Fail _ => True
  | Panic => False
  end.
Proof.
  intros Hli. unfold seek_context. destruct (change_context chunk) as [ctx|]; [|lia].
  rewrite seek_sequence_total. cbn [or_panic obind].
  destruct (find_sequence _ _ _ _ _) as [i|] eqn:Hs; [|done].
  pose proof (find_sequence_bounds _ _ _ _ _ _ Hli Hs).
  assert (li ≤ i) by (eapply find_sequence_ge; eauto). simpl in *. lia.
Qed.

(** What one iteration of the loop establishes: no panic; the replacements
    start inside the file; and, when endings are preserved, they are in order,
    at or after [line_index], and end before the new [line_index] (or are
    insertions at the end of the file). *)
Lemma compute_chunk_ok lns path m chunk li :
  chunk_wf chunk → li ≤ length lns →
  match compute_chunk lns path m chunk li with
  | Done (reps, li') =>
      li' ≤ length lns ∧ Forall (λ r, rep_start r ≤ length lns) reps ∧
      (m = PreserveLineEndings →
         li ≤ li' ∧ StronglySorted (may_follow (length lns)) reps ∧
         Forall (λ r, rep_within (length lns) r ∧ li ≤ rep_start r ∧
                      (rep_end r ≤ li' ∨ rep_start r = length lns)) reps)
  | Fail _ => True
  | Panic => False
  end.
Proof.
  intros [Hsort Hidx] Hli. unfold compute_chunk.
  pose proof (seek_context_ok lns path chunk m li Hli) as Hctx.
  destruct (seek_context lns path chunk m li) as [li1| |]; [|done..]. cbn [obind].
  destruct (is_empty (old_lines chunk)).
  { unfold insertion_index, usub. destruct m; [case_m|]; cbn [obind or_panic].
    - destruct (Nat.leb_spec 1 (length lns)); cbn [obind or_panic].
      + split_and!; [lia|apply Forall_singleton; unfold rep_start; simpl; lia|done].
      + destruct (last lns) as [l|] eqn:Hl; [|done]. destruct lns; [done|simpl in *; lia].
    - split_and!; [lia|apply Forall_singleton; unfold rep_start; simpl; lia|done].
    - split_and!; [lia|apply Forall_singleton; unfold rep_start; simpl; lia|]. intros _.
      split_and!; [lia|apply StronglySorted_single|]. apply Forall_singleton.
      unfold rep_within, rep_end, rep_start, rep_len; simpl; lia. }
  destruct (locate_total lns chunk m li1) as [[[[i|] pat] new] Hloc]; rewrite Hloc;
    cbn [or_panic obind]; [|done].
  pose proof (locate_bounds _ _ _ _ _ _ _ (proj2 Hctx) Hloc) as [Hb Hge].
  destruct m; cbn [chunk_replacements obind].
  { split_and!; [lia| |done]. apply Forall_singleton. unfold rep_start; simpl. lia. }
  destruct (context_replacements_ok i pat new (context_line_indices chunk) 0 0)
    as (reps & -> & Hrs & Hrf); [done| |lia|lia|].
  { apply Forall_forall. intros; lia. }
  cbn [obind]. specialize (Hge (or_introl eq_refl)). split_and!; [lia| |].
  - eapply Forall_impl; [exact Hrf|]. unfold rep_end; simpl. intros r. lia.
  - intros _. split_and!; [lia|..].
    + eapply StronglySorted_impl; [|exact Hrs]. intros a b Hab. by left.
    + eapply Forall_impl; [exact Hrf|]. unfold rep_within, rep_end; simpl. intros r. lia.
Qed.

Lemma compute_loop_ok lns path m chunks : ∀ acc li,
  Forall chunk_wf chunks → li ≤ length lns →
  Forall (λ r, rep_start r ≤ length lns) acc →
  (m = PreserveLineEndings →
     StronglySorted (may_follow (length lns)) acc ∧
     Forall (λ r, rep_within (length lns) r ∧ (rep_end r ≤ li ∨ rep_start r = length lns)) acc) →
  match compute_loop lns path m chunks acc li with
  | Done reps =>
      Forall (λ r, rep_start r ≤ length lns) reps ∧
      (m = PreserveLineEndings →
         StronglySorted (may_follow (length lns)) reps ∧
         Forall (rep_within (length lns)) reps)
  | Fail _ => True
  | Panic => False
  end.
Proof.
  induction chunks as [|c chunks IH]; intros acc li Hwf Hli Hacc Hpres; cbn [compute_loop].
  { split; [done|]. intros Hm. destruct (Hpres Hm) as [? Hf]. split; [done|].
    eapply Forall_impl; [exact Hf|]. naive_solver. }
  apply Forall_cons in Hwf as [Hc Hwf].
  pose proof (compute_chunk_ok lns path m c li Hc Hli) as Hchunk.
  destruct (compute_chunk lns path m c li) as [[reps li']| |]; [|done..]. cbn [obind].
  destruct Hchunk as (Hli' & Hst & Hord). apply IH; [done..| |].
  - by apply Forall_app.
  - intros Hm. destruct (Hpres Hm) as [Hs Hf]. destruct (Hord Hm) as (Hle & Hs' & Hf').
    rewrite Forall_forall in Hf. rewrite Forall_forall in Hf'. split.
    + apply StronglySorted_app_2; [done..|]. intros a b Ha Hb.
      destruct (Hf _ Ha) as [_ [?|?]], (Hf' _ Hb) as (_ & ? & _); [left; lia|by right].
    + apply Forall_forall. intros r [Hr|Hr]%elem_of_app; [|naive_solver].
      destruct (Hf _ Hr) as [? [?|?]]; split; auto with lia.
Qed.

(** ** Properties of the computation *)

Lemma compute_replacements_ok lns path m chunks :
  Forall chunk_wf chunks →
  match compute_replacements lns path chunks m with
  | Done reps =>
      StronglySorted (λ a b, rep_start a ≤ rep_start b) reps ∧
      Forall (λ r, rep_start r ≤ length lns) reps ∧
      (m = PreserveLineEndings → ordered_from 0 (length lns) reps)
  | Fail _ => True
  | Panic => False
  end.
Proof.
  intros Hwf. unfold compute_replacements.
  pose proof (compute_loop_ok lns path m chunks [] 0 Hwf) as H.
  destruct (compute_loop lns path m chunks [] 0) as [reps| |]; cbn [obind]; [|done|].
  - destruct H as [Hst Hord]; [lia|constructor|by split; constructor|]. split_and!.
    + apply sort_by_start_sorted.
    + by rewrite sort_by_start_perm.
    + intros Hm. destruct (Hord Hm). by apply sort_by_start_ordered.
  - apply H; [lia|constructor|by split; constructor].
Qed.

(** With line endings preserved, the replacements computed from well-formed
    chunks are source-ordered, do not overlap and stay inside the file, which
    is what the rebuilding walk asserts. *)
Theorem compute_replacements_ordered lns path chunks reps :
  Forall chunk_wf chunks →
  compute_replacements lns path chunks PreserveLineEndings = Done reps →
  ordered_from 0 (length lns) reps.
Proof.
  intros Hwf Hc. pose proof (compute_replacements_ok lns path PreserveLineEndings chunks Hwf) as H.
  rewrite Hc in H. destruct H as (_ & _ & H). by apply H.
Qed.

Lemma new_contents_total m path_text chunks original :
  Forall chunk_wf chunks → new_contents m path_text chunks original ≠ Panic.
Proof.
  intros Hwf. unfold new_contents. destruct m.
  - pose proof (compute_replacements_ok (split_lines original) path_text NormalizeToLf chunks Hwf) as H.
    destruct (compute_replacements _ _ _ _) as [reps| |]; cbn [obind]; [|done..].
    destruct H as (Hs & Hf & _).
    destruct (apply_replacements_total (split_lines original) reps Hs Hf) as (out & -> & _). done.
  - pose proof (compute_replacements_ok (line_texts (parse_source original)) path_text
      PreserveLineEndings chunks Hwf) as H.
    destruct (compute_replacements _ _ _ _) as [reps| |]; cbn [obind]; [|done..].
    destruct H as (_ & _ & Hord). unfold apply_source_replacements.
    destruct (replace_loop_ordered (preferred_ending (parse_source original)) reps
      (file_lines (parse_source original)) 0 (length (file_lines (parse_source original))))
      as (ls & ->); [lia|lia| |done].
    unfold line_texts in Hord. rewrite length_fmap in Hord. by apply Hord.
Qed.

(** ** What an update does to the text *)

(** A chunk replaces the first exact occurrence of its old lines by its
    new lines and leaves every other line alone. *)
Theorem update_single_chunk path_text chunk original i :
  change_context chunk = None → is_end_of_file chunk = false → old_lines chunk ≠ [] →
  let lns := split_lines original in
  i + length (old_lines chunk) ≤ length lns →
  take (length (old_lines chunk)) (drop i lns) = old_lines chunk →
  (∀ j, j < i → take (length (old_lines chunk)) (drop j lns) ≠ old_lines chunk) →
  new_contents NormalizeToLf path_text [chunk] original =
  Done (finish_lines (take i lns ++ new_lines chunk
                      ++ drop (i + length (old_lines chunk)) lns)).
Proof.
  intros Hctx Heof Hne lns Hlen Hat Hfirst.
  assert (find_sequence lns (old_lines chunk) 0 false NormalizeToLf = Some i) as Hseek.
  { apply find_sequence_exact; [done|lia|done| |].
    - apply matches_at_spec. by rewrite !list_fmap_id.
    - intros j Hj. apply bool_decide_eq_false_2. rewrite !list_fmap_id. apply Hfirst. lia. }
  unfold new_contents, compute_replacements. cbn [compute_loop]. unfold compute_chunk, seek_context.
  rewrite Hctx. cbn [obind]. rewrite (proj2 (is_empty_false _) Hne). unfold locate.
  fold lns. rewrite Heof, !seek_sequence_total, Hseek.
  cbn [or_panic mbind option_bind obind chunk_replacements app].
  unfold sort_by_start, apply_replacements. cbn [foldr insert_by_start mbind option_bind].
  rewrite apply_one_spec by lia. done.
Qed.

(** A chunk of context lines only. *)
Definition context_only (c : UpdateFileChunk) : Prop :=
  new_lines c = old_lines c ∧ old_lines c ≠ [] ∧
  context_line_indices c = (λ i, (i, i)) <$> seq 0 (length (old_lines c)).

Lemma context_only_replacements start lns : ∀ n k m,
  k ≤ length lns → length lns ≤ k + n →
  context_replacements start lns lns k k ((λ i, (i, i)) <$> seq k (n + m)) = Done [].
Proof.
  assert (tail_replacement start lns lns (length lns) (length lns) = Done []) as Htail
    by (unfold tail_replacement; by rewrite Nat.eqb_refl).
  induction n as [|n IH]; intros k m Hk Hn.
  - replace k with (length lns) in * by lia. destruct m as [|m]; simpl; [done|].
    by rewrite (proj2 (Nat.leb_le _ _)) by done.
  - cbn [Nat.add seq fmap list_fmap context_replacements].
    destruct (Nat.leb_spec (length lns) k).
    + replace k with (length lns) in * by lia. done.
    + cbn [orb]. rewrite Nat.eqb_refl. cbn [negb orb obind].
      rewrite Nat.add_1_r, IH by lia. done.
Qed.

Lemma context_only_chunk lns path c li reps li' :
  context_only c → compute_chunk lns path PreserveLineEndings c li = Done (reps, li') → reps = [].
Proof.
  intros (Hnew & Hne & Hidx). unfold compute_chunk.
  destruct (seek_context _ _ _ _ _) as [li1| |]; cbn [obind]; [|done..].
  rewrite (proj2 (is_empty_false _) Hne).
  destruct (locate lns c PreserveLineEndings li1) as [[[[i|] pat] new]|] eqn:Hloc;
    cbn [or_panic obind]; [|done..].
  assert (pat = new ∧ length pat ≤ length (old_lines c)) as [<- Hlen].
  { unfold locate in Hloc. rewrite Hnew, !seek_sequence_total in Hloc.
    cbn [mbind option_bind] in Hloc.
    repeat case_m_in Hloc; simplify_eq; rewrite ?drop_last_length; split; (done || lia). }
  cbn [chunk_replacements]. rewrite Hidx.
  replace (length (old_lines c)) with (length pat + (length (old_lines c) - length pat)) by lia.
  rewrite context_only_replacements by lia. cbn [obind]. by intros [= <- _].
Qed.

(** With line endings preserved, a hunk made of context lines changes
    nothing: the file's contents stay the same, byte for byte, except that a
    missing final line ending is added. *)
Theorem context_only_identity path_text chunks original out :
  Forall context_only chunks →
  new_contents PreserveLineEndings path_text chunks original = Done out →
  out = original ∨ out = original ++ ending_str (preferred_ending (parse_source original)).
Proof.
  intros Hctx. unfold new_contents, compute_replacements. set (f := parse_source original).
  assert (∀ li reps, compute_loop (line_texts f) path_text PreserveLineEndings chunks [] li = Done reps →
    reps = []) as Hnil.
  { induction Hctx as [|c cs Hc Hcs IH]; intros li reps; cbn [compute_loop]; [by intros [= <-]|].
    destruct (compute_chunk _ _ _ _ _) as [[rs li']| |] eqn:Hch; cbn [obind]; [|done..].
    rewrite (context_only_chunk _ _ _ _ _ _ Hc Hch). apply IH. }
  destruct (compute_loop _ _ _ _ _ _) as [reps| |] eqn:Hl; cbn [obind]; [|done..].
  rewrite (Hnil 0 reps Hl). cbn. intros [= <-].
  destruct (parse_source_wf original) as (_ & Hend & _). fold f in Hend.
  pose proof (source_roundtrip_lines original) as Hrt. fold f in Hrt.
  destruct (list_snoc_cases (file_lines f)) as [Hls|(ls & l & Hls)].
  { left. rewrite <- Hrt. unfold into_contents. simpl. by rewrite Hls. }
  rewrite Hls, drop_last_snoc in Hend. unfold into_contents. simpl.
  rewrite <- Hrt, Hls, fmap_app, fmap_app.
  assert (line_contents <$> (terminate (preferred_ending f) <$> ls) = line_contents <$> ls) as ->.
  { rewrite <- list_fmap_compose. apply list_fmap_ext. intros i x Hx. simpl.
    rewrite Forall_forall in Hend. specialize (Hend x (list_elem_of_lookup_2 _ _ _ Hx)).
    unfold line_contents; simpl. by destruct (ending x). }
  unfold contents_of. rewrite (fmap_app _ ls), !concat_app. simpl. rewrite !app_nil_r.
  unfold line_contents; simpl. destruct (ending l); simpl; [by left|right].
  by rewrite !app_nil_r, app_assoc.
Qed.
