(* ===== verification/ApplyPatch.v ===== *)
(** * Applying a patch to the file system

    [codex-rs/apply-patch/src/lib.rs]: each hunk is applied in turn through the
    [ExecutorFileSystem] interface, and every committed change is recorded in
    an [AppliedPatchDelta] that is returned even when a later hunk fails. *)

From S2P Require Import Prelude RustStr PatchParser SeekSequence TextFile ExecFs FileUpdate.

Record ApplyPatchOptions := {
  opt_update_file_mode : ApplyPatchFileUpdateMode;
  opt_follow_symlinks : bool;
}.

Definition default_options : ApplyPatchOptions :=
  {| opt_update_file_mode := NormalizeToLf; opt_follow_symlinks := true |}.

(** ** Errors *)

(** [Display] for [ParseError] and [ApplyPatchError]. *)
Definition display_parse_error (e : ParseError) : str :=
  match e with
  | InvalidPatchError message => lit "invalid patch: " ++ message
  | InvalidHunkError message line_number =>
      lit "invalid hunk at line " ++ fmt_nat line_number ++ lit ", " ++ message
  end.

Definition display_apply_error (e : ApplyPatchError) : str :=
  match e with
  | PatchParseError e => display_parse_error e
  | IoError context source => context ++ lit ": " ++ err_text source
  | ComputeReplacements message => message
  | PathUriError message => message
  | ImplicitInvocation =>
      lit "patch detected without explicit call to apply_patch. Rerun as ["
      ++ [34%N] ++ lit "apply_patch" ++ [34%N] ++ lit ", " ++ [34%N] ++ lit "<patch>" ++ [34%N]
      ++ lit "]"
  end.

(** The [anyhow] errors of [apply_hunks_to_files]: a bare message, an
    [io::Error] with an optional context, or one of the crate's own errors. *)
Inductive anyhow :=
| AnyMessage (message : str)
| AnyIo (context : option str) (e : io_error)
| AnyApply (e : ApplyPatchError).

Definition anyhow_to_string (e : anyhow) : str :=
  match e with
  | AnyMessage m => m
  | AnyIo (Some c) _ => c
  | AnyIo None e => err_text e
  | AnyApply e => display_apply_error e
  end.

(** [downcast_ref::<io::Error>], otherwise wrapped by [io::Error::other]. *)
Definition error_of_anyhow (e : anyhow) : ApplyPatchError :=
  match e with
  | AnyIo _ io => IoError (lit "I/O error") io
  | _ => IoError (anyhow_to_string e) {| err_kind := OtherKind; err_text := anyhow_to_string e |}
  end.

(** ** The delta *)

Inductive AppliedPatchFileChange (path : Type) :=
| AppliedAdd (content : str) (overwritten_content : option str)
| AppliedDelete (content : str)
| AppliedUpdate (move_path : option path) (old_content : str)
    (overwritten_move_content : option str) (new_content : str).
Arguments AppliedAdd {path}.
Arguments AppliedDelete {path}.
Arguments AppliedUpdate {path}.

Record AppliedPatchChange (path : Type) := {
  change_path : path;
  change_kind : AppliedPatchFileChange path;
}.
Arguments change_path {path}.
Arguments change_kind {path}.

Record AppliedPatchDelta (path : Type) := {
  changes : list (AppliedPatchChange path);
  exact : bool;
}.
Arguments changes {path}.
Arguments exact {path}.

Definition empty_delta {path} : AppliedPatchDelta path := {| changes := []; exact := true |}.

Definition append_delta {path} (d other : AppliedPatchDelta path) : AppliedPatchDelta path :=
  {| changes := changes d ++ changes other; exact := exact d && exact other |}.

Definition push_change {path} (p : path) k (d : AppliedPatchDelta path) : AppliedPatchDelta path :=
  {| changes := changes d ++ [{| change_path := p; change_kind := k |}]; exact := exact d |}.
Definition set_exact {path} (b : bool) (d : AppliedPatchDelta path) : AppliedPatchDelta path :=
  {| changes := changes d; exact := b |}.

Record AffectedPaths := { added : list str; modified : list str; deleted : list str }.

Definition no_paths : AffectedPaths := {| added := []; modified := []; deleted := [] |}.

Record ApplyPatchFailure (path : Type) := {
  failure_error : ApplyPatchError;
  failure_delta : AppliedPatchDelta path;
}.
Arguments failure_error {path}.
Arguments failure_delta {path}.

(** ** File-system helpers *)

Section apply.
Context {W path : Type} `{!ExecutorFileSystem W path} `{!PathUriOps path}.
Implicit Types (w : W) (p : path).

Definition note_existing_path_delta_support w p (fl exact : bool) : bool :=
  match get_metadata w p fl with
  | Ok md => if md_is_file md && negb (md_is_symlink md) then exact else false
  | Err e => if is_not_found e then exact else false
  end.

Definition read_optional_file_text_for_delta w p (fl exact : bool) : option str * bool :=
  let exact := note_existing_path_delta_support w p fl exact in
  match read_file_text w p fl with
  | Ok content => (Some content, exact)
  | Err e => if is_not_found e then (None, exact) else (None, false)
  end.

Definition ensure_not_directory w p (fl : bool) : result unit io_error :=
  let? md := get_metadata w p fl in
  if md_is_directory md
  then Err {| err_kind := InvalidInput; err_text := lit "path is a directory" |}
  else Ok ().

Definition remove_failure_was_side_effect_free w p (expected : option str) (fl : bool) : bool :=
  match expected with
  | Some expected =>
      match read_file_text w p fl with
      | Ok content => bool_decide (content = expected)
      | Err _ => false
      end
  | None => false
  end.

Definition write_file_with_missing_parent_retry w p (contents : str) (fl : bool)
  : W * result unit anyhow :=
  let failed e := AnyIo (Some (lit "Failed to write file " ++ path_native p)) e in
  match write_file w p contents fl with
  | (w, Ok _) => (w, Ok ())
  | (w, Err err) =>
      if is_not_found err then
        let '(w, made) :=
          match path_parent p with
          | Some parent => create_directory w parent fl
          | None => (w, Ok ())
          end in
        match made with
        | Err e =>
            (w, Err (AnyIo (Some (lit "Failed to create parent directories for "
                                  ++ path_native p)) e))
        | Ok _ =>
            match write_file w p contents fl with
            | (w, Ok _) => (w, Ok ())
            | (w, Err e) => (w, Err (failed e))
            end
        end
      else (w, Err (failed err))
  end.

(** ** One hunk *)

(** The world, the delta and the outcome of one iteration. *)
Abbreviation step := (W * AppliedPatchDelta path * outcome AffectedPaths anyhow)%type.

(** [Hunk::resolve_path]: the path named in the header, not a move's target. *)
Definition hunk_source (h : Hunk) : str :=
  match h with AddFile s _ | DeleteFile s | UpdateFile s _ _ => s end.
Definition resolve_path (cwd : path) (h : Hunk) : result path str :=
  path_join cwd (hunk_source h).

Definition apply_add w (delta : AppliedPatchDelta path) (aff : AffectedPaths)
    (fl : bool) (affected_path : str) (path_uri : path) (contents : str) : step :=
  let '(overwritten, ex) := read_optional_file_text_for_delta w path_uri fl (exact delta) in
  let delta := set_exact ex delta in
  match write_file_with_missing_parent_retry w path_uri contents fl with
  | (w, Err e) => (w, set_exact false delta, Fail e)
  | (w, Ok _) =>
      (w, push_change path_uri (AppliedAdd contents overwritten) delta,
       Done {| added := added aff ++ [affected_path]; modified := modified aff;
               deleted := deleted aff |})
  end.

Definition apply_delete w (delta : AppliedPatchDelta path) (aff : AffectedPaths)
    (fl : bool) (affected_path : str) (path_uri : path) : step :=
  let failed e := AnyIo (Some (lit "Failed to delete file " ++ path_native path_uri)) e in
  let delta := set_exact (note_existing_path_delta_support w path_uri fl (exact delta)) delta in
  let deleted_content :=
    match read_file_text w path_uri fl with Ok c => Some c | Err _ => None end in
  let delta := if is_none deleted_content then set_exact false delta else delta in
  match ensure_not_directory w path_uri fl with
  | Err e => (w, delta, Fail (failed e))
  | Ok _ =>
      match remove w path_uri fl with
      | (w, Err e) =>
          (w, set_exact (exact delta
                 && remove_failure_was_side_effect_free w path_uri deleted_content fl) delta,
           Fail (failed e))
      | (w, Ok _) =>
          (w, match deleted_content with
              | Some content => push_change path_uri (AppliedDelete content) delta
              | None => delta
              end,
           Done {| added := added aff; modified := modified aff;
                   deleted := deleted aff ++ [affected_path] |})
      end
  end.

(** An update with a move: write the destination, record it as an addition,
    remove the source, then turn the record into the update it was. *)
Definition apply_move w (delta : AppliedPatchDelta path) (aff : AffectedPaths)
    (fl : bool) (affected_path : str) (cwd path_uri : path) (dest : str)
    (original_contents new_contents : str) : step :=
  let failed e := AnyIo (Some (lit "Failed to remove original " ++ path_native path_uri)) e in
  match path_join cwd dest with
  | Err e => (w, delta, Fail (AnyApply (PathUriError e)))
  | Ok dest_uri =>
      let '(overwritten, ex) := read_optional_file_text_for_delta w dest_uri fl (exact delta) in
      let delta := set_exact ex delta in
      match write_file_with_missing_parent_retry w dest_uri new_contents fl with
      | (w, Err e) => (w, set_exact false delta, Fail e)
      | (w, Ok _) =>
          let dest_write_change_index := length (changes delta) in
          let delta := push_change dest_uri (AppliedAdd new_contents overwritten) delta in
          match ensure_not_directory w path_uri fl with
          | Err e => (w, delta, Fail (failed e))
          | Ok _ =>
              match remove w path_uri fl with
              | (w, Err e) =>
                  (w, set_exact (exact delta && remove_failure_was_side_effect_free w path_uri
                                   (Some original_contents) fl) delta,
                   Fail (failed e))
              | (w, Ok _) =>
                  (w, {| changes :=
                           <[dest_write_change_index :=
                               {| change_path := path_uri;
                                  change_kind := AppliedUpdate (Some dest_uri) original_contents
                                                   overwritten new_contents |}]> (changes delta);
                         exact := exact delta |},
                   Done {| added := added aff; modified := modified aff ++ [affected_path];
                           deleted := deleted aff |})
              end
          end
      end
  end.

Definition apply_update w (delta : AppliedPatchDelta path) (aff : AffectedPaths)
    (m : ApplyPatchFileUpdateMode) (fl : bool) (affected_path : str) (cwd path_uri : path)
    (move_path : option str) (chunks : list UpdateFileChunk) : step :=
  let delta := set_exact (note_existing_path_delta_support w path_uri fl (exact delta)) delta in
  match derive_new_contents_from_chunks w path_uri chunks m fl with
  | Panic => (w, delta, Panic)
  | Fail e => (w, delta, Fail (AnyApply e))
  | Done ap =>
      match move_path with
      | Some dest =>
          apply_move w delta aff fl affected_path cwd path_uri dest (ap_original ap) (ap_new ap)
      | None =>
          match write_file w path_uri (ap_new ap) fl with
          | (w, Err e) =>
              (w, set_exact false delta,
               Fail (AnyIo (Some (lit "Failed to write file " ++ path_native path_uri)) e))
          | (w, Ok _) =>
              (w, push_change path_uri (AppliedUpdate None (ap_original ap) None (ap_new ap)) delta,
               Done {| added := added aff; modified := modified aff ++ [affected_path];
                       deleted := deleted aff |})
          end
      end
  end.

Definition apply_hunk (options : ApplyPatchOptions) (cwd : path) w
    (delta : AppliedPatchDelta path) (aff : AffectedPaths) (h : Hunk) : step :=
  let fl := opt_follow_symlinks options in
  match resolve_path cwd h with
  | Err e => (w, delta, Fail (AnyApply (PathUriError e)))
  | Ok path_uri =>
      match h with
      | AddFile _ contents => apply_add w delta aff fl (hunk_path h) path_uri contents
      | DeleteFile _ => apply_delete w delta aff fl (hunk_path h) path_uri
      | UpdateFile _ move_path chunks =>
          apply_update w delta aff (opt_update_file_mode options) fl (hunk_path h) cwd path_uri
            move_path chunks
      end
  end.

(** ** All hunks *)

Fixpoint apply_hunks_loop (options : ApplyPatchOptions) (cwd : path) w
    (delta : AppliedPatchDelta path) (aff : AffectedPaths) (hs : list Hunk) : step :=
  match hs with
  | [] => (w, delta, Done aff)
  | h :: hs' =>
      match apply_hunk options cwd w delta aff h with
      | (w, delta, Done aff) => apply_hunks_loop options cwd w delta aff hs'
      | stopped => stopped
      end
  end.

Definition apply_hunks_to_files (options : ApplyPatchOptions) (cwd : path) w (hs : list Hunk)
    (delta : AppliedPatchDelta path) : step :=
  if is_empty hs then (w, delta, Fail (AnyMessage (lit "No files were modified.")))
  else apply_hunks_loop options cwd w delta no_paths hs.

Definition print_summary (a : AffectedPaths) : str :=
  let line (tag : str) (p : str) := tag ++ lit " " ++ p ++ [nl] in
  lit "Success. Updated the following files:" ++ [nl]
  ++ concat (line (lit "A") <$> added a) ++ concat (line (lit "M") <$> modified a)
  ++ concat (line (lit "D") <$> deleted a).

(** Writing to standard output or error may fail; [None] is success. *)
Context (write_stdout write_stderr : str → option io_error).

Definition from_io (e : io_error) : ApplyPatchError := IoError (lit "I/O error") e.

Definition apply_hunks_with_options (options : ApplyPatchOptions) (cwd : path) w (hs : list Hunk)
  : W * outcome (AppliedPatchDelta path) (ApplyPatchFailure path) :=
  match apply_hunks_to_files options cwd w hs empty_delta with
  | (w, delta, Panic) => (w, Panic)
  | (w, delta, Done affected) =>
      match write_stdout (print_summary affected) with
      | Some e => (w, Fail {| failure_error := from_io e; failure_delta := delta |})
      | None => (w, Done delta)
      end
  | (w, delta, Fail error) =>
      match write_stderr (anyhow_to_string error ++ [nl]) with
      | Some e => (w, Fail {| failure_error := from_io e; failure_delta := delta |})
      | None => (w, Fail {| failure_error := error_of_anyhow error; failure_delta := delta |})
      end
  end.

Definition parse_error_report (e : ParseError) : str :=
  match e with
  | InvalidPatchError message => lit "Invalid patch: " ++ message ++ [nl]
  | InvalidHunkError message line_number =>
      lit "Invalid patch hunk on line " ++ fmt_nat line_number ++ lit ": " ++ message ++ [nl]
  end.

Definition apply_patch_with_options (patch : str) (options : ApplyPatchOptions) (cwd : path) w
  : W * outcome (AppliedPatchDelta path) (ApplyPatchFailure path) :=
  match parse_patch patch with
  | Ok source => apply_hunks_with_options options cwd w (args_hunks source)
  | Err e =>
      match write_stderr (parse_error_report e) with
      | Some io => (w, Fail {| failure_error := from_io io; failure_delta := empty_delta |})
      | None => (w, Fail {| failure_error := PatchParseError e; failure_delta := empty_delta |})
      end
  end.

Definition apply_patch (patch : str) (cwd : path) w :=
  apply_patch_with_options patch default_options cwd w.

End apply.

(** ** What a delta means *)

Section delta.
Context {path : Type} `{!EqDecision path}.

(** What each name stands for. *)
Abbreviation view := (path → option (fs_entry path)).

Definition vset (p : path) (o : option str) (v : view) : view :=
  λ q, if decide (q = p) then FsText <$> o else v q.

Definition replay_change (c : AppliedPatchChange path) (v : view) : view :=
  match change_kind c with
  | AppliedAdd content _ => vset (change_path c) (Some content) v
  | AppliedDelete _ => vset (change_path c) None v
  | AppliedUpdate None _ _ new => vset (change_path c) (Some new) v
  | AppliedUpdate (Some dest) _ _ new => vset (change_path c) None (vset dest (Some new) v)
  end.

Definition undo_change (c : AppliedPatchChange path) (v : view) : view :=
  match change_kind c with
  | AppliedAdd _ overwritten => vset (change_path c) overwritten v
  | AppliedDelete content => vset (change_path c) (Some content) v
  | AppliedUpdate None old _ _ => vset (change_path c) (Some old) v
  | AppliedUpdate (Some dest) old overwritten _ =>
      vset dest overwritten (vset (change_path c) (Some old) v)
  end.

(** Changes are replayed first to last and undone last to first. *)
Definition replay (cs : list (AppliedPatchChange path)) (v : view) : view :=
  foldl (λ v c, replay_change c v) v cs.
Definition undo (cs : list (AppliedPatchChange path)) (v : view) : view :=
  foldr undo_change v cs.

Lemma vset_ext p o v v' q : (∀ q, v q = v' q) → vset p o v q = vset p o v' q.
Proof. intros H. unfold vset. by rewrite H. Qed.

Lemma undo_change_ext c v v' : (∀ q, v q = v' q) → ∀ q, undo_change c v q = undo_change c v' q.
Proof.
  intros H q. unfold undo_change. destruct (change_kind c) as [| |[d|]];
    repeat (apply vset_ext; intros); auto.
Qed.

Lemma replay_change_ext c v v' : (∀ q, v q = v' q) → ∀ q, replay_change c v q = replay_change c v' q.
Proof.
  intros H q. unfold replay_change. destruct (change_kind c) as [| |[d|]];
    repeat (apply vset_ext; intros); auto.
Qed.

Lemma undo_ext cs v v' : (∀ q, v q = v' q) → ∀ q, undo cs v q = undo cs v' q.
Proof. intros H. induction cs; simpl; [done|]. by apply undo_change_ext. Qed.

(** [v] and [v'] are related by one recorded change, both ways. *)
Definition change_relates (c : AppliedPatchChange path) (v v' : view) : Prop :=
  (∀ q, v' q = replay_change c v q) ∧ (∀ q, v q = undo_change c v' q).

(** The recorded changes relate the view before to the view after. *)
Definition changes_relate (v0 v : view) (cs : list (AppliedPatchChange path)) : Prop :=
  (∀ q, replay cs v0 q = v q) ∧ (∀ q, undo cs v q = v0 q).

Lemma changes_relate_same v0 v v' cs :
  changes_relate v0 v cs → (∀ q, v' q = v q) → changes_relate v0 v' cs.
Proof.
  intros [Hr Hu] Hv. split; intros q; [by rewrite Hr, Hv|].
  rewrite <- Hu. apply undo_ext. intros; by rewrite Hv.
Qed.

Lemma changes_relate_push v0 v v' cs c :
  changes_relate v0 v cs → change_relates c v v' → changes_relate v0 v' (cs ++ [c]).
Proof.
  intros [Hr Hu] [Hf Hb]. split; intros q.
  - unfold replay. rewrite foldl_app. simpl. rewrite Hf. by apply replay_change_ext.
  - unfold undo. rewrite foldr_app. simpl. rewrite <- Hu. apply undo_ext. intros; by rewrite <- Hb.
Qed.

(** [v'] is [v] with [p] set to [o]. *)
Definition updates_at (v v' : view) (p : path) (o : option str) : Prop :=
  v' p = FsText <$> o ∧ ∀ q, q ≠ p → v' q = v q.

Lemma updates_vset v v' p o o' :
  updates_at v v' p o → v p = FsText <$> o' →
  (∀ q, v' q = vset p o v q) ∧ ∀ q, v q = vset p o' v' q.
Proof. intros [Hp Hq] Ho. unfold vset. split; intros; case_decide; subst; auto. by rewrite Hq. Qed.

(** A move, seen as a write of [dest] and a removal of [p]. *)
Lemma move_relates v v1 v2 p dest old new o :
  v p = Some (FsText old) → v dest = FsText <$> o →
  updates_at v v1 dest (Some new) → updates_at v1 v2 p None →
  change_relates {| change_path := p; change_kind := AppliedUpdate (Some dest) old o new |} v v2.
Proof.
  intros Hold Ho [Hd Hf] [Hn Hq]. split; unfold replay_change, undo_change; simpl; intros x;
    unfold vset; repeat case_decide; subst; simpl in *; auto.
  - by rewrite Hq.
  - by rewrite Hq, Hf.
  - by rewrite Hq, Hf.
Qed.
End delta.

(** ** Tracking through the file-system operations *)

Section names.
Context {path : Type} `{!PathUriOps path}.

(** The paths a hunk, and a patch, names. *)
Definition hunk_names (cwd : path) (h : Hunk) : list path :=
  let named s := match path_join cwd s with Ok p => [p] | Err _ => [] end in
  named (hunk_source h) ++
  match h with UpdateFile _ (Some dest) _ => named dest | _ => [] end.
Definition patch_names (cwd : path) (hs : list Hunk) : list path := hs ≫= hunk_names cwd.

Lemma hunk_names_source cwd h p : resolve_path cwd h = Ok p → p ∈ hunk_names cwd h.
Proof. unfold resolve_path, hunk_names. intros ->. set_solver. Qed.

Lemma hunk_names_dest cwd s dest cs p :
  path_join cwd dest = Ok p → p ∈ hunk_names cwd (UpdateFile s (Some dest) cs).
Proof. unfold hunk_names. intros ->. set_solver. Qed.
End names.

Section tracking.
Context {W path : Type} `{!EqDecision path} `{!ExecutorFileSystem W path}
  `{!PathUriOps path} `{!FileSystemLaws W path}.
Implicit Types (w : W) (p : path) (d : AppliedPatchDelta path).

Lemma is_not_found_kind e : is_not_found e = true → err_kind e = NotFound.
Proof. unfold is_not_found. by destruct (err_kind e). Qed.

Lemma note_exact w p fl ex : note_existing_path_delta_support w p fl ex = true → ex = true.
Proof. unfold note_existing_path_delta_support. repeat case_m; done. Qed.

(** A write with its retry promises what a write promises. *)
Lemma write_retry_ok w p s fl w' :
  write_file_with_missing_parent_retry w p s fl = (w', Ok ()) →
  (is_link (entry_at w p) = false → entry_at w' p = Some (FsText s))
  ∧ (∀ q, q ≠ p → ¬ touches w p q → entry_at w' q = entry_at w q)
  ∧ ∀ a b, touches w' a b → touches w a b.
Proof.
  unfold write_file_with_missing_parent_retry.
  destruct (write_file w p s fl) as [w1 [[]|e]] eqn:H1; [intros; simplify_eq; by apply write_ok in H1|].
  destruct (is_not_found e) eqn:He; [|done].
  destruct (write_not_found _ _ _ _ _ _ H1 (is_not_found_kind _ He)) as [Hw1 Ht1].
  destruct (match path_parent p with Some _ => _ | None => _ end) as [w2 [[]|e2]] eqn:H2; [|done].
  assert ((∀ q, entry_at w2 q = entry_at w1 q) ∧ ∀ a b, touches w2 a b → touches w1 a b) as [Hw2 Ht2].
  { destruct (path_parent p); [by eapply create_directory_frame|by simplify_eq]. }
  destruct (write_file w2 p s fl) as [w3 [[]|e3]] eqn:H3; [|done].
  intros; simplify_eq. apply write_ok in H3 as (Hp & Hq & Ht3). rewrite Hw2, Hw1 in Hp.
  split_and!; auto. intros q Hne Hnt. rewrite Hq, Hw2, Hw1; auto.
Qed.

(** At a name with no other name a write and a removal change only that name. *)
Lemma write_plain w w' p s fl :
  write_file_with_missing_parent_retry w p s fl = (w', Ok ()) → sole_name w p →
  updates_at (entry_at w) (entry_at w') p (Some s).
Proof.
  intros (Hp & Hq & _)%write_retry_ok [Hl Ht]. split; [by apply Hp|].
  intros q Hne. apply Hq; [done|]. intros H. by apply Hne, Ht.
Qed.

Lemma remove_plain w w' p fl :
  remove w p fl = (w', Ok ()) → sole_name w p → updates_at (entry_at w) (entry_at w') p None.
Proof.
  intros (Hp & Hq & _)%remove_ok [Hl Ht]. split; [done|].
  intros q Hne. apply Hq; [done|]. intros H. by apply Hne, Ht.
Qed.

Lemma update_plain w w' p s fl :
  write_file w p s fl = (w', Ok ()) → sole_name w p →
  updates_at (entry_at w) (entry_at w') p (Some s).
Proof.
  intros (Hp & Hq & _)%write_ok [Hl Ht]. split; [by apply Hp|].
  intros q Hne. apply Hq; [done|]. intros H. by apply Hne, Ht.
Qed.

Lemma read_plain w p fl s :
  read_file_text w p fl = Ok s → sole_name w p → entry_at w p = Some (FsText s).
Proof. intros [Hl|?]%read_ok [Hn _]; [congruence|done]. Qed.

(** Links stay what they are, and no name gets another name. *)
Definition keeps_links w w' : Prop :=
  (∀ q, is_link (entry_at w q) = false → is_link (entry_at w' q) = false)
  ∧ ∀ a b, touches w' a b → touches w a b.

#[global] Instance keeps_links_preorder : PreOrder keeps_links.
Proof.
  split; [by intros w|]. intros w1 w2 w3 [H1 H2] [H3 H4]. split; auto.
Qed.

Lemma sole_name_kept w w' q : keeps_links w w' → sole_name w q → sole_name w' q.
Proof. intros [H1 H2] [Hl Ht]. split; auto. Qed.

Lemma updates_keep_links w w' p o :
  updates_at (entry_at w) (entry_at w') p o → (∀ a b, touches w' a b → touches w a b) →
  keeps_links w w'.
Proof.
  intros [Hp Hq] Hm. split; [|done]. intros q Hl.
  destruct (decide (q = p)) as [->|]; [rewrite Hp; by destruct o|by rewrite Hq].
Qed.

(** A failed removal after which the file still reads as before did nothing. *)
Lemma remove_side_effect_free w w' p s fl e :
  remove w p fl = (w', Err e) → sole_name w p →
  remove_failure_was_side_effect_free w' p (Some s) fl = true →
  (∀ q, entry_at w' q = entry_at w q) ∧ ∀ a b, touches w' a b → touches w a b.
Proof.
  intros Hrm [Hl Ht]. unfold remove_failure_was_side_effect_free.
  destruct (read_file_text w' p fl) as [c|] eqn:Hr; [|done]. intros _.
  destruct (remove_err _ _ _ _ _ Hrm) as (Hs & Hq & Hm). split; [|done].
  assert (entry_at w' p = entry_at w p) as Hsame.
  { destruct Hs as [Hs|Hn]; [done|]. apply read_ok in Hr as [Hr|Hr]; rewrite Hn in Hr; done. }
  intros q. destruct (decide (q = p)) as [->|Hne]; [done|]. apply Hq; [done|].
  intros H. by apply Hne, Ht.
Qed.

(** *** Names with other names

    A hard link to a named file, or a linked directory on the way to it, is
    outside what the delta can record; a symbolic link named by the patch is
    what the guard is for, as long as it leads to a file that exists and that
    the patch does not name itself. *)
Definition links_settled w (named : list path) : Prop :=
  ∀ p q, p ∈ named → q ≠ p → touches w p q →
    is_link (entry_at w p) = true ∧ entry_at w q ≠ None ∧ q ∉ named.

Section from.
Context (w0 : W) (named : list path) (Hsettled : links_settled w0 named).

(** As long as the delta is exact only named files that are no links change. *)
Definition confined w : Prop :=
  (∀ q, q ∉ named → entry_at w q = entry_at w0 q)
  ∧ (∀ q, is_link (entry_at w0 q) = true → is_link (entry_at w q) = true)
  ∧ ∀ a b, touches w a b → touches w0 a b.

Definition tracks w d : Prop :=
  exact d = true →
  changes_relate (entry_at w0) (entry_at w) (changes d) ∧ confined w.

Lemma tracks_inexact w d : exact d = false → tracks w d.
Proof. intros He Hex. congruence. Qed.

Lemma tracks_same w w' d d' :
  tracks w d → (exact d' = true → exact d = true) → changes d' = changes d →
  (exact d' = true →
   (∀ q, entry_at w' q = entry_at w q) ∧ ∀ a b, touches w' a b → touches w a b) →
  tracks w' d'.
Proof.
  intros Ht He Hc Hv Hex. destruct (Ht (He Hex)) as [Hr (H1 & H2 & H3)].
  destruct (Hv Hex) as [Hsame Hm]. rewrite Hc. split; [by eapply changes_relate_same|].
  split_and!; intros; rewrite ?Hsame; auto.
Qed.

Lemma confined_step w w' p o :
  confined w → p ∈ named → sole_name w p → updates_at (entry_at w) (entry_at w') p o →
  (∀ a b, touches w' a b → touches w a b) → confined w'.
Proof.
  intros (H1 & H2 & H3) Hp [Hl _] [_ Hq] Hm. split_and!; [| |by auto].
  - intros q Hn. rewrite Hq by (by intros ->). by apply H1.
  - intros q Hk%H2. rewrite Hq; [done|]. intros ->. congruence.
Qed.

Lemma tracks_push w w' d d' c :
  tracks w d → (exact d' = true → exact d = true) → changes d' = changes d ++ [c] →
  (exact d' = true → confined w → change_relates c (entry_at w) (entry_at w') ∧ confined w') →
  tracks w' d'.
Proof.
  intros Ht He Hc Hrel Hex. destruct (Ht (He Hex)) as [Hr Hcon].
  destruct (Hrel Hex Hcon) as [??]. rewrite Hc. split; [by eapply changes_relate_push|done].
Qed.

(** What the guard is for: it keeps the delta exact only at a name that is not
    a link and that no other name shares. *)
Lemma guard_plain w p fl ex :
  confined w → p ∈ named → note_existing_path_delta_support w p fl ex = true → sole_name w p.
Proof.
  intros (Hout & Hlinks & Htouch) Hp Hn.
  assert (is_link (entry_at w p) = false) as Hl.
  { unfold note_existing_path_delta_support in Hn.
    destruct (get_metadata w p fl) as [md|e] eqn:Hmd.
    - rewrite <- (metadata_ok _ _ _ _ Hmd). by destruct (md_is_file md), (md_is_symlink md).
    - destruct (is_not_found e) eqn:He; [|done].
      destruct (metadata_not_found _ _ _ _ Hmd (is_not_found_kind _ He)) as [->|(q & Hne & Ht & Hq)];
        [done|].
      destruct (Hsettled p q Hp Hne (Htouch _ _ Ht)) as (_ & Hsome & Hnot).
      by rewrite <- Hout in Hsome. }
  split; [done|]. intros q Ht. destruct (decide (q = p)) as [|Hne]; [done|].
  destruct (Hsettled p q Hp Hne (Htouch _ _ Ht)) as (Hk%Hlinks & _). congruence.
Qed.

Lemma read_optional_spec w p fl ex o ex' :
  confined w → p ∈ named →
  read_optional_file_text_for_delta w p fl ex = (o, ex') → ex' = true →
  ex = true ∧ sole_name w p ∧ entry_at w p = FsText <$> o.
Proof.
  intros Hc Hp. unfold read_optional_file_text_for_delta.
  destruct (read_file_text w p fl) as [s|e] eqn:Hr; [|destruct (is_not_found e) eqn:Hn];
    intros [= <- Hex] ->; [..|done]; (split; [by eapply note_exact|]);
    pose proof (guard_plain _ _ _ _ Hc Hp Hex) as Hpl; (split; [done|]).
  - by eapply read_plain.
  - destruct Hpl as [Hl _].
    destruct (read_not_found _ _ _ _ Hr (is_not_found_kind _ Hn)); [congruence|done].
Qed.

Lemma read_optional_exact w p fl ex o ex' :
  read_optional_file_text_for_delta w p fl ex = (o, ex') → ex' = true → ex = true.
Proof.
  unfold read_optional_file_text_for_delta.
  destruct (read_file_text w p fl) as [s|e]; [|destruct (is_not_found e)];
    intros [= _ Hex] ->; [..|done]; by eapply note_exact.
Qed.

Lemma apply_add_tracks w d aff fl a p s w' d' out :
  tracks w d → p ∈ named → apply_add w d aff fl a p s = (w', d', out) → tracks w' d'.
Proof.
  intros Ht Hp. unfold apply_add.
  destruct (read_optional_file_text_for_delta w p fl (exact d)) as [o ex] eqn:Hr.
  destruct (write_file_with_missing_parent_retry w p s fl) as [w1 [[]|e]] eqn:Hw;
    intros; simplify_eq; [|by apply tracks_inexact].
  eapply tracks_push; [exact Ht|by eapply read_optional_exact|done|]. simpl. intros -> Hcon.
  destruct (read_optional_spec _ _ _ _ _ _ Hcon Hp Hr eq_refl) as (_ & Hpl & Ho).
  pose proof (write_plain _ _ _ _ _ Hw Hpl) as Hup. apply write_retry_ok in Hw as (_ & _ & Hm).
  split; [exact (updates_vset _ _ _ _ _ Hup Ho)|by eapply confined_step].
Qed.

Lemma apply_delete_tracks w d aff fl a p w' d' out :
  tracks w d → p ∈ named → apply_delete w d aff fl a p = (w', d', out) → tracks w' d'.
Proof.
  intros Ht Hp. unfold apply_delete.
  destruct (read_file_text w p fl) as [s|e] eqn:Hr; cbn [is_none].
  2: { destruct (ensure_not_directory w p fl) as [[]|]; [|intros; simplify_eq; by apply tracks_inexact].
       destruct (remove w p fl) as [w1 [[]|]]; intros; simplify_eq; by apply tracks_inexact. }
  destruct (ensure_not_directory w p fl) as [[]|].
  2: { intros; simplify_eq. eapply tracks_same; [exact Ht|by apply note_exact|done..]. }
  destruct (remove w p fl) as [w1 [[]|e1]] eqn:Hrm; intros; simplify_eq.
  - eapply tracks_push; [exact Ht|by apply note_exact|done|]. simpl. intros Hex Hcon.
    pose proof (guard_plain _ _ _ _ Hcon Hp Hex) as Hpl.
    pose proof (remove_plain _ _ _ _ Hrm Hpl) as Hup. apply remove_ok in Hrm as (_ & _ & Hm).
    split; [|by eapply confined_step].
    exact (updates_vset _ _ _ _ (Some s) Hup (read_plain _ _ _ _ Hr Hpl)).
  - eapply tracks_same; [exact Ht| |done|]; simpl; intros [Hex Hfree]%andb_true_iff;
      [by eapply note_exact|].
    destruct (Ht (note_exact _ _ _ _ Hex)) as [_ Hcon].
    eapply remove_side_effect_free; eauto using guard_plain.
Qed.

Lemma apply_move_tracks w d aff fl a cwd p dest old new w' d' out :
  tracks w d → p ∈ named → (∀ q, path_join cwd dest = Ok q → q ∈ named) →
  (exact d = true → sole_name w p ∧ entry_at w p = Some (FsText old)) →
  apply_move w d aff fl a cwd p dest old new = (w', d', out) → tracks w' d'.
Proof.
  intros Ht Hp Hnamed Hold. unfold apply_move.
  destruct (path_join cwd dest) as [q|] eqn:Hj; [|by intros; simplify_eq].
  specialize (Hnamed q eq_refl).
  destruct (read_optional_file_text_for_delta w q fl (exact d)) as [o ex] eqn:Hr.
  destruct (write_file_with_missing_parent_retry w q new fl) as [w1 [[]|e]] eqn:Hw;
    [|intros; simplify_eq; by apply tracks_inexact].
  assert (ex = true → confined w → updates_at (entry_at w) (entry_at w1) q (Some new)
    ∧ entry_at w q = FsText <$> o ∧ confined w1 ∧ sole_name w1 p) as Hstep.
  { intros -> Hcon. destruct (read_optional_spec _ _ _ _ _ _ Hcon Hnamed Hr eq_refl) as (Hex & Hpl & Ho).
    destruct (Hold Hex) as [Hsole _].
    pose proof (write_plain _ _ _ _ _ Hw Hpl) as Hup. apply write_retry_ok in Hw as (_ & _ & Hm).
    split_and!; [done|done|by eapply confined_step|].
    by eapply sole_name_kept, Hsole; eapply updates_keep_links. }
  assert (tracks w1 (push_change q (AppliedAdd new o) (set_exact ex d))) as Ht1.
  { eapply tracks_push; [exact Ht|by eapply read_optional_exact|done|]. simpl. intros Hex Hcon.
    destruct (Hstep Hex Hcon) as (Hup & Ho & Hc1 & _).
    split; [exact (updates_vset _ _ _ _ _ Hup Ho)|done]. }
  destruct (ensure_not_directory w1 p fl) as [[]|]; [|by intros; simplify_eq].
  destruct (remove w1 p fl) as [w2 [[]|e2]] eqn:Hrm; intros; simplify_eq.
  - eapply (tracks_push w _ d); [exact Ht|by eapply read_optional_exact| |]; simpl.
    + replace (length (changes d)) with (length (changes d) + 0) by lia.
      by rewrite insert_app_r.
    + intros Hex Hcon. destruct (Hstep Hex Hcon) as (Hup & Ho & Hc1 & Hpl1).
      destruct (Hold (read_optional_exact _ _ _ _ _ _ Hr Hex)) as [_ Ht0].
      pose proof (remove_plain _ _ _ _ Hrm Hpl1) as Hup2. apply remove_ok in Hrm as (_ & _ & Hm).
      split; [by eapply move_relates|exact (confined_step _ _ _ _ Hc1 Hp Hpl1 Hup2 Hm)].
  - eapply tracks_same; [exact Ht1| |done|]; simpl; intros [Hex Hfree]%andb_true_iff; [done|].
    destruct (Ht (read_optional_exact _ _ _ _ _ _ Hr Hex)) as [_ Hcon].
    destruct (Hstep Hex Hcon) as (_ & _ & _ & Hpl1). eapply remove_side_effect_free; eauto.
Qed.

Lemma apply_update_tracks w d aff m fl a cwd p mv cs w' d' out :
  tracks w d → p ∈ named → (∀ dest q, mv = Some dest → path_join cwd dest = Ok q → q ∈ named) →
  apply_update w d aff m fl a cwd p mv cs = (w', d', out) → tracks w' d'.
Proof.
  intros Ht Hp Hmv. unfold apply_update, derive_new_contents_from_chunks.
  set (d1 := set_exact _ d).
  assert (tracks w d1) as Ht1 by (eapply tracks_same; [exact Ht|apply note_exact|done..]).
  destruct (read_file_text w p fl) as [s|] eqn:Hr; [|by intros; simplify_eq].
  assert (exact d1 = true → sole_name w p ∧ entry_at w p = Some (FsText s)) as Hpl.
  { intros Hex. destruct (Ht1 Hex) as [_ Hcon]. pose proof (guard_plain _ _ _ _ Hcon Hp Hex).
    split; [done|by eapply read_plain]. }
  destruct (new_contents m (path_native p) cs s) as [new| |]; cbn [obind ap_original ap_new];
    [|by intros; simplify_eq..].
  destruct mv as [dest|]; [by apply apply_move_tracks; eauto|].
  destruct (write_file w p new fl) as [w1 [[]|]] eqn:Hw; intros; simplify_eq;
    [|by apply tracks_inexact].
  eapply tracks_push; [exact Ht1|done|done|]. intros Hex Hcon. destruct (Hpl Hex) as [Hpn Hs].
  pose proof (update_plain _ _ _ _ _ Hw Hpn) as Hup. apply write_ok in Hw as (_ & _ & Hm).
  split; [exact (updates_vset _ _ _ _ (Some s) Hup Hs)|by eapply confined_step].
Qed.

Lemma apply_hunk_tracks opts cwd w d aff h w' d' out :
  tracks w d → hunk_names cwd h ⊆ named →
  apply_hunk opts cwd w d aff h = (w', d', out) → tracks w' d'.
Proof.
  intros Ht Hsub. unfold apply_hunk.
  destruct (resolve_path cwd h) as [p|] eqn:Hp; [|by intros; simplify_eq].
  assert (p ∈ named) as Hin by (by apply Hsub, hunk_names_source).
  destruct h; eauto using apply_add_tracks, apply_delete_tracks.
  intros H. eapply apply_update_tracks in H; [done..|]. intros dest q -> Hj.
  by apply Hsub, hunk_names_dest.
Qed.

Lemma apply_hunks_loop_tracks opts cwd hs : ∀ w d aff w' d' out,
  tracks w d → patch_names cwd hs ⊆ named →
  apply_hunks_loop opts cwd w d aff hs = (w', d', out) → tracks w' d'.
Proof.
  induction hs as [|h hs IH]; intros w d aff w' d' out Ht Hsub; simpl; [by intros; simplify_eq|].
  destruct (apply_hunk opts cwd w d aff h) as [[w1 d1] o1] eqn:Hh.
  assert (hunk_names cwd h ⊆ named ∧ patch_names cwd hs ⊆ named) as [H1 H2]
    by (unfold patch_names in *; csimpl in Hsub; set_solver).
  apply apply_hunk_tracks in Hh; [|done..].
  destruct o1; [by eauto|by intros; simplify_eq..].
Qed.
End from.

(** C1: the delta is faithful.  Whether the application of the hunks succeeds
    or fails halfway, if the returned delta claims to be exact then replaying
    its changes on the files as they were before gives the files as they are
    now, and undoing them gives back the files as they were.  The view is by
    name and includes symbolic links, which the delta must not claim to have
    changed.  The hypothesis says which other names the named files may have:
    none, unless the named path is itself a symbolic link, which then leads to
    files that exist and that the patch does not name.  So hard links to a named
    file, linked directories on the way to it and dangling links are left out;
    [dangling_link_delta] shows what happens with the last. *)
Theorem delta_faithful opts cwd w hs w' d out :
  links_settled w (patch_names cwd hs) →
  apply_hunks_to_files opts cwd w hs empty_delta = (w', d, out) →
  exact d = true →
  (∀ q, replay (changes d) (entry_at w) q = entry_at w' q) ∧
  (∀ q, undo (changes d) (entry_at w') q = entry_at w q).
Proof.
  unfold apply_hunks_to_files. intros Hs H Hex.
  assert (tracks w (patch_names cwd hs) w' d) as Ht; [|by apply Ht].
  assert (tracks w (patch_names cwd hs) w empty_delta) as Ht0 by done.
  destruct (is_empty hs); [by simplify_eq|]. by eapply apply_hunks_loop_tracks in H.
Qed.
End tracking.

(** ** No panic, end to end *)

Section safety.
Context {W path : Type} `{!ExecutorFileSystem W path} `{!PathUriOps path}.

Lemma apply_hunk_no_panic opts cwd (w : W) (d : AppliedPatchDelta path) aff h w' d' :
  hunk_wf h → apply_hunk opts cwd w d aff h ≠ (w', d', Panic).
Proof.
  intros Hwf. unfold apply_hunk. destruct (resolve_path cwd h) as [p|]; [|done].
  destruct h as [? c|?|? mv cs].
  - unfold apply_add. by repeat case_m.
  - unfold apply_delete. by repeat case_m.
  - unfold apply_update, derive_new_contents_from_chunks.
    destruct (read_file_text w p _) as [s|]; [|done].
    assert (Forall chunk_wf cs) as Hcs
      by (destruct Hwf as [_ Hcs]; eapply Forall_impl; [exact Hcs|]; by intros ? [? _]).
    pose proof (new_contents_total (opt_update_file_mode opts) (path_native p) cs s Hcs) as Hn.
    destruct (new_contents _ _ _ _) as [new| |]; cbn [obind ap_original ap_new]; [|done|done].
    destruct mv as [dest|]; [unfold apply_move|]; by repeat case_m.
Qed.

Lemma apply_hunks_loop_no_panic opts cwd hs : ∀ (w : W) (d : AppliedPatchDelta path) aff w' d',
  Forall hunk_wf hs → apply_hunks_loop opts cwd w d aff hs ≠ (w', d', Panic).
Proof.
  induction hs as [|h hs IH]; intros w d aff w' d' Hwf; simpl; [done|].
  apply Forall_cons in Hwf as [Hh Hwf].
  destruct (apply_hunk opts cwd w d aff h) as [[w1 d1] [aff1|e|]] eqn:Ho; [by apply IH|done|].
  by apply apply_hunk_no_panic in Ho.
Qed.

(** C22: applying a patch never panics: whatever the patch text and whatever
    the file system answers, the parser only produces chunks for which no index
    computation of the file update can underflow or run out of range. *)
Theorem apply_patch_no_panic out err patch opts cwd (w w' : W) :
  apply_patch_with_options (path := path) out err patch opts cwd w ≠ (w', Panic).
Proof.
  unfold apply_patch_with_options.
  destruct (parse_patch patch) as [args|e] eqn:Hp; [|by repeat case_m].
  destruct (parse_patch_hunks_wf _ _ Hp) as [Hwf _].
  unfold apply_hunks_with_options, apply_hunks_to_files.
  destruct (is_empty (args_hunks args)); [by repeat case_m|].
  destruct (apply_hunks_loop opts cwd w empty_delta no_paths (args_hunks args))
    as [[w1 d1] [aff|e|]] eqn:Hl; [by repeat case_m|by repeat case_m|].
  by apply apply_hunks_loop_no_panic in Hl.
Qed.

(** The paths a hunk adds to the summary. *)
Definition affected_by (h : Hunk) (a : AffectedPaths) : AffectedPaths :=
  match h with
  | AddFile p _ => {| added := added a ++ [p]; modified := modified a; deleted := deleted a |}
  | DeleteFile p => {| added := added a; modified := modified a; deleted := deleted a ++ [p] |}
  | UpdateFile _ _ _ =>
      {| added := added a; modified := modified a ++ [hunk_path h]; deleted := deleted a |}
  end.

Lemma apply_hunk_affected opts cwd (w : W) (d : AppliedPatchDelta path) aff h w' d' aff' :
  apply_hunk opts cwd w d aff h = (w', d', Done aff') → aff' = affected_by h aff.
Proof.
  unfold apply_hunk. destruct (resolve_path cwd h) as [p|]; [|done]. destruct h as [? c|?|? mv cs].
  - unfold apply_add. repeat case_m; by intros; simplify_eq.
  - unfold apply_delete. repeat case_m; by intros; simplify_eq.
  - unfold apply_update. destruct (derive_new_contents_from_chunks _ _ _ _ _); [|done..].
    destruct mv; [unfold apply_move|]; repeat case_m; by intros; simplify_eq.
Qed.

(** The summary of a successful application lists, in patch order, exactly
    the added, modified (under the new name after a move) and deleted paths. *)
Theorem affected_paths_complete opts cwd (w : W) hs w' (d d' : AppliedPatchDelta path) aff :
  apply_hunks_to_files opts cwd w hs d = (w', d', Done aff) →
  aff = foldl (λ a h, affected_by h a) no_paths hs.
Proof.
  unfold apply_hunks_to_files. destruct (is_empty hs); [done|]. generalize no_paths as a.
  revert w d. induction hs as [|h hs IH]; intros w d a; simpl; [by intros; simplify_eq|].
  destruct (apply_hunk opts cwd w d a h) as [[w1 d1] [aff1|e|]] eqn:Ho; [|done..].
  intros H. apply apply_hunk_affected in Ho as ->. by eapply IH.
Qed.
End safety.
