(* ===== verification/Invocation.v ===== *)
(** * Recognising and verifying an [apply_patch] invocation

    [codex-rs/apply-patch/src/invocation.rs]: from the arguments of a command
    to the file changes that are shown for approval.  The tree-sitter query
    over the shell script and the [similar] diff are parameters. *)

From S2P Require Import Prelude RustStr UnixPath PatchParser SeekSequence ExecFs FileUpdate ApplyPatch.

(** ** Shells *)

Definition APPLY_PATCH_COMMANDS : list str := [lit "apply_patch"; lit "applypatch"].

Inductive ApplyPatchShell := Unix | PowerShell | Cmd.

(** One of the literals of a [matches!]. *)
Definition one_of (s : str) (names : list String.string) : bool :=
  bool_decide (s ∈ lit <$> names).

Definition classify_shell_name (shell : str) (convention : PathConvention) : option str :=
  basename ← last (path_segments convention shell);
  let stem :=
    match rsplit_once 46 basename with
    | Some (stem, _) => if is_empty stem then basename else stem
    | None => basename
    end in
  Some (to_ascii_lowercase stem).

Definition classify_shell (shell flag : str) (convention : PathConvention)
  : option ApplyPatchShell :=
  name ← classify_shell_name shell convention;
  if one_of name ["bash"; "zsh"; "sh"]%string && one_of flag ["-lc"; "-c"]%string
  then Some Unix
  else if one_of name ["pwsh"; "powershell"]%string && eq_ignore_ascii_case flag (lit "-command")
  then Some PowerShell
  else if one_of name ["cmd"]%string && eq_ignore_ascii_case flag (lit "/c")
  then Some Cmd
  else None.

Definition can_skip_flag (shell flag : str) (convention : PathConvention) : bool :=
  is_some_and (classify_shell_name shell convention) (λ name,
    one_of name ["pwsh"; "powershell"]%string && eq_ignore_ascii_case flag (lit "-noprofile")).

(** ** Results *)

(** The payloads of the library errors are their texts. *)
Inductive ExtractHeredocError :=
| CommandDidNotStartWithApplyPatch
| FailedToLoadBashGrammar (e : str)
| HeredocNotUtf8 (e : str)
| FailedToParsePatchIntoAst
| FailedToFindHeredocBody.

Inductive MaybeApplyPatch :=
| Body (args : ApplyPatchArgs)
| ShellParseError (e : ExtractHeredocError)
| PatchParseFailure (e : ParseError)
| NotApplyPatch.

Inductive ApplyPatchFileChange (path : Type) :=
| ChangeAdd (content : str)
| ChangeDelete (content : str)
| ChangeUpdate (unified_diff : str) (move_path : option path) (new_content : str).
Arguments ChangeAdd {path}.
Arguments ChangeDelete {path}.
Arguments ChangeUpdate {path}.

Record ApplyPatchAction (path : Type) `{Countable path} := {
  action_changes : gmap path (ApplyPatchFileChange path);
  action_update_file_mode : ApplyPatchFileUpdateMode;
  action_patch : str;
  action_cwd : path;
}.
Arguments action_changes {path _ _}.
Arguments action_update_file_mode {path _ _}.
Arguments action_patch {path _ _}.
Arguments action_cwd {path _ _}.

Inductive MaybeApplyPatchVerified (path : Type) `{Countable path} :=
| VBody (action : ApplyPatchAction path)
| VShellParseError (e : ExtractHeredocError)
| VCorrectnessError (e : ApplyPatchError)
| VNotApplyPatch.
Arguments VBody {path _ _}.
Arguments VShellParseError {path _ _}.
Arguments VCorrectnessError {path _ _}.
Arguments VNotApplyPatch {path _ _}.

(** ** Extracting the heredoc *)

(** The captures of [APPLY_PATCH_QUERY]. *)
Inductive capture_name := CapHeredoc | CapCdPath | CapCdRawString | CapOther.

(** A captured node: its name and [utf8_text]. *)
Abbreviation capture := (capture_name * result str str)%type.

Definition strip_quotes (raw : str) : str :=
  default raw (s ← strip_prefix [39%N] raw; strip_suffix [39%N] s).

(** The inner loop over the captures of one match. *)
Fixpoint read_captures (cs : list capture) (heredoc cd_path : option str)
  : result (option str * option str) ExtractHeredocError :=
  match cs with
  | [] => Ok (heredoc, cd_path)
  | (name, text) :: cs' =>
      match name with
      | CapHeredoc =>
          let? t := rmap_err HeredocNotUtf8 text in
          read_captures cs' (Some (trim_end_matches (λ c, (c =? nl)%N) t)) cd_path
      | CapCdPath =>
          let? t := rmap_err HeredocNotUtf8 text in
          read_captures cs' heredoc (Some t)
      | CapCdRawString =>
          let? raw := rmap_err HeredocNotUtf8 text in
          read_captures cs' heredoc (Some (strip_quotes raw))
      | CapOther => read_captures cs' heredoc cd_path
      end
  end.

Fixpoint first_heredoc (ms : list (list capture))
  : result (str * option str) ExtractHeredocError :=
  match ms with
  | [] => Err CommandDidNotStartWithApplyPatch
  | m :: ms' =>
      let? '(heredoc, cd_path) := read_captures m None None in
      match heredoc with
      | Some h => Ok (h, cd_path)
      | None => first_heredoc ms'
      end
  end.

Section invocation.
Context {W path : Type} `{!EqDecision path} `{!Countable path}
  `{!ExecutorFileSystem W path} `{!PathUriOps path}.
(** The bash parser and query, [PathUri::infer_path_convention], the diff. *)
Context (bash_query : str → result (list (list capture)) ExtractHeredocError)
  (infer_path_convention : path → option PathConvention)
  (text_diff : str → str → nat → str).
Implicit Types (w : W) (cwd p : path) (argv : list str).

Definition extract_apply_patch_from_bash (src : str)
  : result (str * option str) ExtractHeredocError :=
  let? matches := bash_query src in first_heredoc matches.

Definition extract_apply_patch_from_shell (shell : ApplyPatchShell) (script : str) :=
  match shell with
  | Unix | PowerShell | Cmd => extract_apply_patch_from_bash script
  end.

Definition parse_shell_script argv cwd : option (ApplyPatchShell * str) :=
  convention ← infer_path_convention cwd;
  match argv with
  | [shell; flag; script] => (λ t, (t, script)) <$> classify_shell shell flag convention
  | [shell; skip_flag; flag; script] =>
      if negb (can_skip_flag shell skip_flag convention) then None
      else (λ t, (t, script)) <$> classify_shell shell flag convention
  | _ => None
  end.

Definition set_workdir (workdir : option str) (args : ApplyPatchArgs) : ApplyPatchArgs :=
  {| args_patch := args_patch args; args_hunks := args_hunks args; args_workdir := workdir;
     args_environment_id := args_environment_id args |}.

(** The shell form of an invocation. *)
Definition parse_shell_invocation argv cwd : MaybeApplyPatch :=
  match parse_shell_script argv cwd with
  | Some (shell, script) =>
      match extract_apply_patch_from_shell shell script with
      | Ok (body, workdir) =>
          match parse_patch body with
          | Ok source => Body (set_workdir workdir source)
          | Err e => PatchParseFailure e
          end
      | Err CommandDidNotStartWithApplyPatch => NotApplyPatch
      | Err e => ShellParseError e
      end
  | None => NotApplyPatch
  end.

Definition maybe_parse_apply_patch argv cwd : MaybeApplyPatch :=
  match argv with
  | [cmd; body] =>
      if bool_decide (cmd ∈ APPLY_PATCH_COMMANDS) then
        match parse_patch body with
        | Ok source => Body source
        | Err e => PatchParseFailure e
        end
      else parse_shell_invocation argv cwd
  | _ => parse_shell_invocation argv cwd
  end.

(** ** Verification *)

(** [Option<Result>::transpose()?] on a joined path. *)
Definition join_opt cwd (s : option str) : outcome (option path) ApplyPatchError :=
  match s with
  | None => Done None
  | Some s =>
      match path_join cwd s with
      | Ok p => Done (Some p)
      | Err e => Fail (PathUriError e)
      end
  end.

(** The change one hunk stands for, from the file system as it is now. *)
Definition verify_hunk (m : ApplyPatchFileUpdateMode) w (effective_cwd p : path) (h : Hunk)
  : outcome (ApplyPatchFileChange path) ApplyPatchError :=
  match h with
  | AddFile _ contents => Done (ChangeAdd contents)
  | DeleteFile _ =>
      match read_file_text w p true with
      | Ok content => Done (ChangeDelete content)
      | Err source => Fail (IoError (lit "Failed to read " ++ path_native p) source)
      end
  | UpdateFile _ move_path chunks =>
      let! u := unified_diff_from_chunks_with_mode text_diff w p chunks m in
      let! dest := join_opt effective_cwd move_path in
      Done (ChangeUpdate (afu_unified_diff u) dest (afu_content u))
  end.

(** [HashMap::contains_key] compares keys with [PathUri]'s [Eq]; as a key is
    inserted only when no equal one is there, the map itself can be keyed by the
    URI. *)
Definition contains_key (changes : gmap path (ApplyPatchFileChange path)) p : bool :=
  existsb (λ '(k, _), eq_uri k p) (map_to_list changes).

Lemma contains_key_none changes p : contains_key changes p = false → changes !! p = None.
Proof.
  unfold contains_key. intros Hn. destruct (changes !! p) as [c|] eqn:Hp; [|done].
  assert (existsb (λ '(k, _), eq_uri k p) (map_to_list changes) = true) as Hy; [|congruence].
  apply existsb_exists. exists (p, c). split; [|apply eq_uri_refl].
  by apply list_elem_of_In, elem_of_map_to_list.
Qed.

Fixpoint verify_loop (m : ApplyPatchFileUpdateMode) w (effective_cwd : path)
    (hs : list Hunk) (changes : gmap path (ApplyPatchFileChange path))
  : outcome (gmap path (ApplyPatchFileChange path)) ApplyPatchError :=
  match hs with
  | [] => Done changes
  | h :: hs' =>
      match resolve_path effective_cwd h with
      | Err e => Fail (PathUriError e)
      | Ok p =>
          if contains_key changes p then
            Fail (PatchParseError (InvalidPatchError
                    (lit "multiple operations target " ++ path_native p)))
          else
            let! c := verify_hunk m w effective_cwd p h in
            verify_loop m w effective_cwd hs' (<[p := c]> changes)
      end
  end.

Definition try_verify_apply_patch_args (args : ApplyPatchArgs) cwd
    (m : ApplyPatchFileUpdateMode) w : outcome (ApplyPatchAction path) ApplyPatchError :=
  let! workdir := join_opt cwd (args_workdir args) in
  let effective_cwd := default cwd workdir in
  let! changes := verify_loop m w effective_cwd (args_hunks args) ∅ in
  Done {| action_changes := changes; action_update_file_mode := m;
          action_patch := args_patch args; action_cwd := effective_cwd |}.

(** The callers return a [MaybeApplyPatchVerified]; the only other outcome a
    verification could have is a panic. *)
Abbreviation verified := (outcome (MaybeApplyPatchVerified path) Empty_set).

Definition verify_apply_patch_args_with_mode (args : ApplyPatchArgs) cwd
    (m : ApplyPatchFileUpdateMode) w : verified :=
  match try_verify_apply_patch_args args cwd m w with
  | Done action => Done (VBody action)
  | Fail err => Done (VCorrectnessError err)
  | Panic => Panic
  end.

Definition verify_apply_patch_args (args : ApplyPatchArgs) cwd w :=
  verify_apply_patch_args_with_mode args cwd NormalizeToLf w.

Definition maybe_parse_apply_patch_verified_with_mode argv cwd
    (m : ApplyPatchFileUpdateMode) w : verified :=
  let raw_argument := match argv with [body] => is_ok (parse_patch body) | _ => false end in
  let raw_script :=
    match parse_shell_script argv cwd with
    | Some (_, script) => is_ok (parse_patch script)
    | None => false
    end in
  if raw_argument || raw_script then Done (VCorrectnessError ImplicitInvocation)
  else
    match maybe_parse_apply_patch argv cwd with
    | Body args => verify_apply_patch_args_with_mode args cwd m w
    | ShellParseError e => Done (VShellParseError e)
    | PatchParseFailure e => Done (VCorrectnessError (PatchParseError e))
    | NotApplyPatch => Done VNotApplyPatch
    end.

Definition maybe_parse_apply_patch_verified argv cwd w :=
  maybe_parse_apply_patch_verified_with_mode argv cwd NormalizeToLf w.

(** ** No panic *)

Lemma derive_new_contents_no_panic w p chunks m fl :
  Forall chunk_wf chunks → derive_new_contents_from_chunks w p chunks m fl ≠ Panic.
Proof.
  intros Hwf. unfold derive_new_contents_from_chunks. destruct (read_file_text w p fl); [|done].
  pose proof (new_contents_total m (path_native p) chunks a Hwf).
  by destruct (new_contents _ _ _ _).
Qed.

Lemma verify_hunk_no_panic m w ecwd p h : hunk_wf h → verify_hunk m w ecwd p h ≠ Panic.
Proof.
  intros Hwf. destruct h as [|?|? mv chunks]; simpl; [done|by case_m|].
  unfold unified_diff_from_chunks_with_mode, unified_diff_from_chunks_with_context_and_mode.
  assert (Forall chunk_wf chunks) as Hcs
    by (destruct Hwf as [_ Hcs]; eapply Forall_impl; [exact Hcs|]; by intros ? [? _]).
  pose proof (derive_new_contents_no_panic w p chunks m true Hcs).
  destruct (derive_new_contents_from_chunks _ _ _ _ _); simpl; [|done|done].
  unfold join_opt. by repeat case_m.
Qed.

Lemma verify_loop_no_panic m w ecwd hs : ∀ changes,
  Forall hunk_wf hs → verify_loop m w ecwd hs changes ≠ Panic.
Proof.
  induction hs as [|h hs IH]; intros changes Hwf; simpl; [done|].
  apply Forall_cons in Hwf as [Hh Hwf]. destruct (resolve_path ecwd h) as [p|]; [|done].
  destruct (contains_key changes p); [done|]. pose proof (verify_hunk_no_panic m w ecwd p h Hh).
  destruct (verify_hunk m w ecwd p h); simpl; auto.
Qed.

Lemma verify_args_no_panic args cwd m w :
  Forall hunk_wf (args_hunks args) → verify_apply_patch_args_with_mode args cwd m w ≠ Panic.
Proof.
  intros Hwf. unfold verify_apply_patch_args_with_mode, try_verify_apply_patch_args.
  unfold join_opt at 1. destruct (args_workdir args) as [d|]; [destruct (path_join cwd d)|]; simpl;
    try done;
    match goal with |- context [verify_loop m w ?e ?hs ∅] =>
      pose proof (verify_loop_no_panic m w e hs ∅ Hwf); by destruct (verify_loop m w e hs ∅) end.
Qed.

(** The patch of a recognised invocation was parsed from a command argument or
    from the heredoc of a shell script. *)
Lemma maybe_parse_body argv cwd args :
  maybe_parse_apply_patch argv cwd = Body args →
  (∃ cmd body, argv = [cmd; body] ∧ cmd ∈ APPLY_PATCH_COMMANDS ∧ parse_patch body = Ok args) ∨
  (∃ shell script body workdir parsed,
     parse_shell_script argv cwd = Some (shell, script) ∧
     extract_apply_patch_from_bash script = Ok (body, workdir) ∧
     parse_patch body = Ok parsed ∧ args = set_workdir workdir parsed).
Proof.
  assert (parse_shell_invocation argv cwd = Body args → ∃ shell script body workdir parsed,
     parse_shell_script argv cwd = Some (shell, script) ∧
     extract_apply_patch_from_bash script = Ok (body, workdir) ∧
     parse_patch body = Ok parsed ∧ args = set_workdir workdir parsed) as Hshell.
  { unfold parse_shell_invocation. destruct (parse_shell_script argv cwd) as [[sh sc]|]; [|done].
    assert (extract_apply_patch_from_shell sh sc = extract_apply_patch_from_bash sc) as ->
      by by destruct sh.
    destruct (extract_apply_patch_from_bash sc) as [[body wd]|[]] eqn:He; [|done..].
    destruct (parse_patch body) as [parsed|] eqn:Hp; [|done]. intros [= <-].
    by exists sh, sc, body, wd, parsed. }
  unfold maybe_parse_apply_patch. destruct argv as [|cmd [|body [|??]]]; auto.
  case_bool_decide; [|auto]. destruct (parse_patch body) as [a|] eqn:Hp; [|done].
  intros [= <-]. left. eauto 6.
Qed.

Lemma maybe_parse_body_wf argv cwd args :
  maybe_parse_apply_patch argv cwd = Body args → Forall hunk_wf (args_hunks args).
Proof.
  intros [(?&?&_&_&H)|(?&?&?&?&?&_&_&H&->)]%maybe_parse_body;
    by apply parse_patch_hunks_wf in H as [? _].
Qed.

(** Verifying an invocation never panics, whatever the arguments of the
    command are and whatever the file system answers. *)
Theorem verification_no_panic argv cwd m w :
  maybe_parse_apply_patch_verified_with_mode argv cwd m w ≠ Panic.
Proof.
  unfold maybe_parse_apply_patch_verified_with_mode. destruct (_ || _); [done|].
  destruct (maybe_parse_apply_patch argv cwd) eqn:Hm; [|done..].
  apply verify_args_no_panic. by eapply maybe_parse_body_wf.
Qed.

(** A patch is only taken from an explicit invocation: when verification
    returns an action, the command was [apply_patch <patch>], or a shell script
    that is not itself a patch and whose heredoc is; the action carries that
    patch text. *)
Theorem verified_action_explicit argv cwd m w action :
  maybe_parse_apply_patch_verified_with_mode argv cwd m w = Done (VBody action) →
  (∃ cmd body, argv = [cmd; body] ∧ cmd ∈ APPLY_PATCH_COMMANDS ∧
     ∃ args, parse_patch body = Ok args ∧ action_patch action = args_patch args) ∨
  (∃ shell script body workdir,
     parse_shell_script argv cwd = Some (shell, script) ∧ is_ok (parse_patch script) = false ∧
     extract_apply_patch_from_bash script = Ok (body, workdir) ∧
     ∃ args, parse_patch body = Ok args ∧ action_patch action = args_patch args).
Proof.
  unfold maybe_parse_apply_patch_verified_with_mode.
  destruct (_ || _) eqn:Hraw; [done|]. apply orb_false_iff in Hraw as [_ Hraw].
  destruct (maybe_parse_apply_patch argv cwd) as [args| | |] eqn:Hm; [|done..].
  unfold verify_apply_patch_args_with_mode, try_verify_apply_patch_args.
  destruct (join_opt cwd (args_workdir args)); simpl; [|done..].
  destruct (verify_loop _ _ _ _ _); simpl; [|done..]. intros [= <-]. simpl.
  apply maybe_parse_body in Hm as [(c&b&?&?&?)|(sh&sc&b&wd&parsed&Hs&?&?&->)]; [left; eauto 8|].
  right. rewrite Hs in Hraw. exists sh, sc, b, wd. split; [done|]. split; [done|]. split; [done|]. by exists parsed.
Qed.

End invocation.

(** ** Verification predicts application *)

#[local] Instance from_option_True_dec {A} (P : A → Prop) `{!∀ a, Decision (P a)} (o : option A) :
  Decision (from_option P True o).
Proof. destruct o; apply _. Defined.

Section agreement.
Context {W path : Type} `{!EqDecision path} `{!Countable path}
  `{!ExecutorFileSystem W path} `{!PathUriOps path} `{!FileSystemLaws W path}.
Context (text_diff : str → str → nat → str).
Abbreviation change_map := (gmap path (ApplyPatchFileChange path)).
Implicit Types (w : W) (p q : path) (cs : change_map).

(** The change [c] shown for [p] is true of the file system [w] and done in
    [w']: a deletion shows the text that is deleted, an update the diff of the
    text that is there and the text that replaces it. *)
Definition change_done (w w' : W) p (c : ApplyPatchFileChange path) : Prop :=
  match c with
  | ChangeAdd s => entry_at w' p = Some (FsText s)
  | ChangeDelete s => entry_at w p = Some (FsText s) ∧ entry_at w' p = None
  | ChangeUpdate diff move_path s =>
      ∃ old, entry_at w p = Some (FsText old) ∧ diff = text_diff old s 1 ∧
      match move_path with
      | None => entry_at w' p = Some (FsText s)
      | Some d => entry_at w' p = None ∧ entry_at w' d = Some (FsText s)
      end
  end.

Definition move_target (c : ApplyPatchFileChange path) : option path :=
  match c with ChangeUpdate _ (Some d) _ => Some d | _ => None end.

(** The file system [w'] is [w] with the changes [cs] made, and no other. *)
Definition changes_done cs (w w' : W) : Prop :=
  map_Forall (change_done w w') cs ∧
  ∀ q, cs !! q = None → map_Forall (λ _ c, move_target c ≠ Some q) cs →
    entry_at w' q = entry_at w q.

(** No file the changes write has another name. *)
Definition sole_names cs w : Prop :=
  ∀ p c q, cs !! p = Some c → q = p ∨ move_target c = Some q → sole_name w q.

(** No move goes to a path the patch changes, or where another move goes. *)
Definition moves_disjoint cs : Prop :=
  ∀ p c d, cs !! p = Some c → move_target c = Some d →
    cs !! d = None ∧ ∀ p' c', cs !! p' = Some c' → move_target c' = Some d → p' = p.

#[export] Instance ApplyPatchFileChange_eq_dec : EqDecision (ApplyPatchFileChange path).
Proof. solve_decision. Defined.

#[export] Instance moves_disjoint_dec cs : Decision (moves_disjoint cs).
Proof.
  refine (cast_if (decide (map_Forall (λ p c,
    from_option (λ d, cs !! d = None ∧
      map_Forall (λ p' c', move_target c' ≠ Some d ∨ p' = p) cs) True (move_target c)) cs))).
  - intros p c d Hp Hd. specialize (m p c Hp). simpl in m. rewrite Hd in m.
    destruct m as [Hn Hu]. split; [done|]. intros p' c' Hp' Hc'. by destruct (Hu p' c' Hp').
  - intros Hdis. apply n. intros p c Hp. destruct (move_target c) as [d|] eqn:Hd; [|done].
    destruct (Hdis p c d Hp Hd) as [Hn Hu]. split; [done|]. intros p' c' Hp'.
    destruct (decide (move_target c' = Some d)); [right; eauto|by left].
Defined.

Lemma moves_disjoint_subseteq cs cs' : cs ⊆ cs' → moves_disjoint cs' → moves_disjoint cs.
Proof.
  intros Hsub Hd p c d Hp Hc. destruct (Hd p c d) as [Hn Hu]; [by eapply lookup_weaken|done|].
  split; [by eapply lookup_weaken_None|]. intros p' c' Hp' Hc'.
  eapply Hu; [by eapply lookup_weaken|done].
Qed.

Lemma verify_loop_extends m w cwd hs : ∀ cs cs',
  verify_loop text_diff m w cwd hs cs = Done cs' → cs ⊆ cs'.
Proof.
  induction hs as [|h hs IH]; intros cs cs'; simpl; [by intros [= <-]|].
  destruct (resolve_path cwd h) as [p|]; [|done].
  destruct (contains_key cs p) eqn:Hp; [done|]. apply contains_key_none in Hp.
  destruct (verify_hunk _ _ _ _ _ _) as [c| |]; simpl; [|done..].
  intros H%IH. etrans; [by apply insert_subseteq|exact H].
Qed.

(** Applying a hunk does what its verification said, if the file it names is
    still the one that was verified. *)
Lemma apply_hunk_change m cwd w w1 w2 p h c (d d' : AppliedPatchDelta path) aff aff' :
  resolve_path cwd h = Ok p → verify_hunk text_diff m w cwd p h = Done c →
  sole_name w p → keeps_links w w1 → (∀ q, move_target c = Some q → sole_name w q) →
  entry_at w1 p = entry_at w p → move_target c ≠ Some p →
  apply_hunk {| opt_update_file_mode := m; opt_follow_symlinks := true |} cwd w1 d aff h
    = (w2, d', Done aff') →
  change_done w w2 p c ∧ keeps_links w1 w2
  ∧ ∀ q, q ≠ p → move_target c ≠ Some q → entry_at w2 q = entry_at w1 q.
Proof.
  intros Hp Hv Hsole Hkeep Htgt Hw Hmv. pose proof (sole_name_kept _ _ _ Hkeep Hsole) as Hsole1.
  unfold apply_hunk. rewrite Hp. simpl. destruct h as [? s|?|? mv chunks]; simpl in Hv.
  - injection Hv as <-. unfold apply_add. destruct (read_optional_file_text_for_delta _ _ _ _).
    destruct (write_file_with_missing_parent_retry w1 p s true) as [w3 [[]|]] eqn:Hwr; [|done].
    intros; simplify_eq. pose proof (write_plain _ _ _ _ _ Hwr Hsole1) as Hup.
    apply write_retry_ok in Hwr as (_ & _ & Hm).
    split_and!; [apply Hup|by eapply updates_keep_links|intros; by apply Hup].
  - destruct (read_file_text w p true) as [s|] eqn:Hr; [|done]. injection Hv as <-.
    unfold apply_delete. destruct (ensure_not_directory w1 p true); [|done].
    destruct (remove w1 p true) as [w3 [[]|]] eqn:Hrm; [|done].
    intros; simplify_eq. pose proof (remove_plain _ _ _ _ Hrm Hsole1) as Hup.
    apply remove_ok in Hrm as (_ & _ & Hm). apply (read_plain _ _ _ _ Hr) in Hsole.
    split_and!; [split; [done|apply Hup]|by eapply updates_keep_links|intros; by apply Hup].
  - unfold unified_diff_from_chunks_with_mode, unified_diff_from_chunks_with_context_and_mode,
      derive_new_contents_from_chunks in Hv.
    unfold apply_update, derive_new_contents_from_chunks.
    destruct (read_file_text w p true) as [s|] eqn:Hr; [|done].
    destruct (read_file_text w1 p true) as [s1|] eqn:Hr1; [|done].
    apply read_plain in Hr, Hr1; [|done..]. rewrite Hr1, Hr in Hw. injection Hw as ->.
    destruct (new_contents m (path_native p) chunks s) as [new| |]; [|done..].
    cbn [obind ap_original ap_new afu_unified_diff afu_content] in *.
    destruct mv as [dest|]; simpl in Hv.
    + unfold apply_move. destruct (path_join cwd dest) as [dst|] eqn:Hd; [|done].
      simpl in Hv. injection Hv as <-. simpl in Hmv.
      destruct (read_optional_file_text_for_delta _ _ _ _).
      destruct (write_file_with_missing_parent_retry w1 dst new true) as [w3 [[]|]] eqn:Hwr; [|done].
      destruct (ensure_not_directory w3 p true); [|done].
      destruct (remove w3 p true) as [w4 [[]|]] eqn:Hrm; [|done]. intros; simplify_eq.
      pose proof (write_plain _ _ _ _ _ Hwr (sole_name_kept _ _ _ Hkeep (Htgt _ eq_refl))) as Hup.
      apply write_retry_ok in Hwr as (_ & _ & Hm).
      pose proof (updates_keep_links _ _ _ _ Hup Hm) as Hk.
      pose proof (remove_plain _ _ _ _ Hrm (sole_name_kept _ _ _ Hk Hsole1)) as Hup2.
      apply remove_ok in Hrm as (_ & _ & Hm2).
      destruct Hup as [Hd1 Hd2], Hup2 as [Hr2 Hr3]. split_and!.
      * exists s. split_and!; [done|done|done|]. rewrite Hr3; [done|congruence].
      * etrans; [exact Hk|]. by eapply updates_keep_links.
      * intros q Hq Hq'. simpl in Hq'. rewrite Hr3, Hd2; congruence.
    + injection Hv as <-. destruct (write_file w1 p new true) as [w3 [[]|]] eqn:Hwr; [|done].
      intros; simplify_eq. pose proof (update_plain _ _ _ _ _ Hwr Hsole1) as Hup.
      apply write_ok in Hwr as (_ & _ & Hm).
      split_and!; [|by eapply updates_keep_links|intros; by apply Hup].
      exists s. split_and!; [done|done|apply Hup].
Qed.

(** One more change keeps the earlier ones. *)
Lemma changes_done_insert cs w w1 w2 p c :
  cs !! p = None → moves_disjoint (<[p := c]> cs) →
  changes_done cs w w1 → change_done w w2 p c →
  (∀ q, q ≠ p → move_target c ≠ Some q → entry_at w2 q = entry_at w1 q) →
  changes_done (<[p := c]> cs) w w2.
Proof.
  intros Hp Hdis [Hcs Hframe] Hc Hq.
  assert (move_target c ≠ None → ∃ d, move_target c = Some d ∧ cs !! d = None ∧
    map_Forall (λ _ c', move_target c' ≠ Some d) cs) as Htgt.
  { intros Hne. destruct (move_target c) as [d|] eqn:Hm; [|done]. exists d. split; [done|].
    destruct (Hdis p c d (lookup_insert_eq _ _ _) Hm) as [Hd Hu]. split.
    - by apply lookup_insert_None in Hd as [? _].
    - intros p' c' Hp' Hc'. assert (p' ≠ p) as Hne' by congruence. apply Hne'.
      eapply Hu; [by rewrite lookup_insert_ne|done]. }
  assert (∀ x y, cs !! x = Some y → move_target c ≠ Some x) as Hsrc.
  { intros x y Hx Hm. destruct Htgt as (d & Hd & Hd' & _); congruence. }
  split.
  - apply map_Forall_insert_2; [done|]. intros p' c' Hp'. specialize (Hcs p' c' Hp').
    assert (entry_at w2 p' = entry_at w1 p') as Heq
      by (apply Hq; [congruence|by eapply Hsrc]).
    destruct c' as [s|s|u [d|] s]; simpl in *; rewrite ?Heq; try done.
    destruct Hcs as (old & Hold & Hdiff & H1 & H2). exists old. split_and!; [done..|].
    rewrite Hq; [done|..].
    + intros ->. destruct (Hdis p' (ChangeUpdate u (Some p) s) p) as [Hd _];
        [by rewrite lookup_insert_ne by congruence|done|].
      by rewrite lookup_insert_eq in Hd.
    + intros Hm. destruct Htgt as (d' & Hd' & _ & Hall); [congruence|].
      apply (Hall p' _ Hp'). simpl. congruence.
  - intros q [Hq1 Hq2]%lookup_insert_None Hall.
    apply map_Forall_insert in Hall as [Hc' Hall]; [|done].
    rewrite Hq; [by apply Hframe|congruence|done].
Qed.

Lemma apply_loop_changes m cwd w hs : ∀ cs cs' w1 w2 (d d' : AppliedPatchDelta path) aff aff',
  verify_loop text_diff m w cwd hs cs = Done cs' → moves_disjoint cs' → sole_names cs' w →
  changes_done cs w w1 → keeps_links w w1 →
  apply_hunks_loop {| opt_update_file_mode := m; opt_follow_symlinks := true |} cwd w1 d aff hs
    = (w2, d', Done aff') →
  changes_done cs' w w2.
Proof.
  induction hs as [|h hs IH]; intros cs cs' w1 w2 d d' aff aff'; simpl;
    [by intros; simplify_eq|].
  destruct (resolve_path cwd h) as [p|] eqn:Hp; [|done].
  destruct (contains_key cs p) eqn:Hcp; [done|]. apply contains_key_none in Hcp.
  destruct (verify_hunk text_diff m w cwd p h) as [c| |] eqn:Hv; simpl; [|done..].
  intros Hl Hdis Hsole Hdone Hkeep.
  destruct (apply_hunk _ cwd w1 d aff h) as [[w3 d3] [aff3| |]] eqn:Hh; [|done..].
  pose proof (verify_loop_extends _ _ _ _ _ _ Hl) as Hsub.
  pose proof (moves_disjoint_subseteq _ _ Hsub Hdis) as Hdis1.
  assert (cs' !! p = Some c) as Hpc by (eapply lookup_weaken; [|exact Hsub]; apply lookup_insert_eq).
  destruct (apply_hunk_change m cwd w w1 w3 p h c d d3 aff aff3) as (Hc & Hk & Hq);
    [done|done|by eapply Hsole; eauto|done|by intros q Hq; eapply Hsole; eauto|..|done|].
  { destruct Hdone as [_ Hframe]. apply Hframe; [done|]. intros x y Hx Hy.
    destruct (Hdis1 x y p) as [Hn _]; [by rewrite lookup_insert_ne by congruence|done|].
    by rewrite lookup_insert_eq in Hn. }
  { intros Hm. destruct (Hdis1 p c p (lookup_insert_eq _ _ _) Hm) as [Hn _].
    by rewrite lookup_insert_eq in Hn. }
  eapply (IH (<[p := c]> cs) cs'); [done|done|done|by eapply changes_done_insert|by etrans].
Qed.

(** ** What is shown for approval *)

(** The protocol's [FileChange], as [convert_apply_patch_to_protocol] of
    [core/src/apply_patch.rs] fills it, keyed by the displayed path. *)
Inductive FileChange :=
| ShownAdd (content : str)
| ShownDelete (content : str)
| ShownUpdate (unified_diff : str) (move_path : option str).

Definition protocol_change (c : ApplyPatchFileChange path) : FileChange :=
  match c with
  | ChangeAdd content => ShownAdd content
  | ChangeDelete content => ShownDelete content
  | ChangeUpdate unified_diff move_path _ => ShownUpdate unified_diff (path_native <$> move_path)
  end.

Definition convert_apply_patch_to_protocol (action : ApplyPatchAction path) : gmap str FileChange :=
  foldl (λ result '(p, c), <[path_native p := protocol_change c]> result) ∅
    (map_to_list (action_changes action)).

(** What is shown under the name [k] is true of [w] and done in [w']. *)
Definition shown_done (w w' : W) (k : str) (c : FileChange) : Prop :=
  ∃ p, path_native p = k ∧
  match c with
  | ShownAdd s => entry_at w' p = Some (FsText s)
  | ShownDelete s => entry_at w p = Some (FsText s) ∧ entry_at w' p = None
  | ShownUpdate diff move_path =>
      ∃ old new, entry_at w p = Some (FsText old) ∧ diff = text_diff old new 1 ∧
      match move_path with
      | None => entry_at w' p = Some (FsText new)
      | Some dest => entry_at w' p = None
          ∧ ∃ d, path_native d = dest ∧ entry_at w' d = Some (FsText new)
      end
  end.

Lemma shown_done_of w w' p c : change_done w w' p c → shown_done w w' (path_native p) (protocol_change c).
Proof.
  intros H. exists p. split; [done|]. destruct c as [s|s|diff [d|] s]; simpl in *; [done|done|..];
    destruct H as (old & ? & ? & H); exists old, s; split_and!; try done; naive_solver.
Qed.

Lemma shown_lookup l : ∀ (m : gmap str FileChange) k c,
  foldl (λ result '(p, c), <[path_native p := protocol_change c]> result) m l !! k = Some c →
  m !! k = Some c ∨ ∃ p x, (p, x) ∈ l ∧ path_native p = k ∧ protocol_change x = c.
Proof.
  induction l as [|[p x] l IH]; intros m k c; simpl; [by left|].
  intros [[[Hk Hc]|[_ ?]]%lookup_insert_Some|(p' & x' & ? & ? & ?)]%IH; [|by left|].
  - right. exists p, x. split; [left|done].
  - right. exists p', x'. split; [by right|done].
Qed.

Lemma shown_complete l : ∀ (m : gmap str FileChange) k,
  is_Some (m !! k) ∨ (∃ p x, (p, x) ∈ l ∧ path_native p = k) →
  is_Some (foldl (λ result '(p, c), <[path_native p := protocol_change c]> result) m l !! k).
Proof.
  induction l as [|[p x] l IH]; intros m k; simpl.
  { intros [?|(? & ? & ?%elem_of_nil & _)]; done. }
  intros H. apply IH. destruct (decide (path_native p = k)) as [<-|Hne].
  { left. rewrite lookup_insert_eq. eauto. }
  destruct H as [H|(p' & x' & [[= -> ->]|H]%elem_of_cons & Hk)]; [|done|right; eauto].
  left. by rewrite lookup_insert_ne.
Qed.

(** C5: what is approved is what happens.  Suppose verification of a parsed
    patch returns an action whose moves go to fresh paths, and none of the files
    it writes has a second name (it is not a symbolic link, no hard link leads to
    the same file, no linked directory is on the way).  Then after a successful
    application of the same hunks, in the action's directory and mode, everything
    shown for approval is true: added files hold the shown text, deleted files
    held the shown text and are gone, an updated file held a text whose shown
    diff leads to the text it, or its move target, holds now, and moved files are
    gone.  No changed path is left out of what is shown (two paths with the same
    display form share an entry), and every file the action does not name is
    untouched. *)
Theorem verified_changes_applied args cwd m w action w' (d : AppliedPatchDelta path) aff :
  try_verify_apply_patch_args text_diff args cwd m w = Done action →
  moves_disjoint (action_changes action) → sole_names (action_changes action) w →
  apply_hunks_to_files
    {| opt_update_file_mode := action_update_file_mode action; opt_follow_symlinks := true |}
    (action_cwd action) w (args_hunks args) empty_delta = (w', d, Done aff) →
  changes_done (action_changes action) w w'
  ∧ map_Forall (shown_done w w') (convert_apply_patch_to_protocol action)
  ∧ ∀ p, is_Some (action_changes action !! p) →
      is_Some (convert_apply_patch_to_protocol action !! path_native p).
Proof.
  unfold try_verify_apply_patch_args, apply_hunks_to_files.
  destruct (join_opt cwd (args_workdir args)) as [wd| |]; simpl; [|done..].
  destruct (verify_loop _ _ _ _ _ _) as [cs| |] eqn:Hl; simpl; [|done..].
  intros [= <-]. simpl. intros Hdis Hsole. destruct (is_empty (args_hunks args)); [done|].
  intros Happ. assert (changes_done cs w w') as Hdone.
  { eapply apply_loop_changes; [exact Hl|done|done| |done|exact Happ].
    split; [apply map_Forall_empty|done]. }
  split_and!; [done| |].
  - intros k c [?|(p & x & Hx%elem_of_map_to_list & <- & <-)]%shown_lookup; [done|].
    apply shown_done_of. by apply Hdone.
  - intros p [c Hc%elem_of_map_to_list]. apply shown_complete. right. eauto.
Qed.
End agreement.
