(* ===== verification/MemFs.v ===== *)
(** * A file system in memory

    A concrete [ExecutorFileSystem]: a finite map from absolute paths to what
    they name, symbolic links included, with the laws of [FileSystemLaws].  It
    instantiates the theorems about patch application and runs concrete
    patches. *)

From S2P Require Import Prelude RustStr PatchParser SeekSequence TextFile ExecFs.
From S2P Require Import FileUpdate ApplyPatch.

Abbreviation mem_fs := (gmap str (fs_entry str)).

Definition not_found : io_error :=
  {| err_kind := NotFound; err_text := lit "No such file or directory" |}.
Definition too_many_links : io_error :=
  {| err_kind := OtherKind; err_text := lit "Too many levels of symbolic links" |}.
Definition not_utf8 : io_error :=
  {| err_kind := InvalidData; err_text := lit "stream did not contain valid UTF-8" |}.

#[global] Program Instance mem_paths : PathUriOps str := {
  eq_uri p q := bool_decide (p = q);
  path_join cwd s := Ok (if starts_with s (lit "/") then s else cwd ++ lit "/" ++ s);
  path_parent p := fst <$> rsplit_once 47%N p;
  path_native p := p;
}.
Next Obligation. intros p. by apply bool_decide_eq_true_2. Qed.

Section mem.
Context {path : Type} `{Countable path}.
Abbreviation mem := (gmap path (fs_entry path)).
Implicit Types (w : mem) (p q : path).

(** Following at most [n] links. *)
Fixpoint follow_links (n : nat) w p : option path :=
  match w !! p with
  | Some (FsLink t) => match n with 0 => None | S n => follow_links n w t end
  | _ => Some p
  end.

(** The name an operation works on; not following a link is an error. *)
Definition mem_locate w p (fl : bool) : result path io_error :=
  ok_or (follow_links (if fl then 40 else 0) w p) too_many_links.

#[global] Instance mem_file_system : ExecutorFileSystem mem path := {
  read_file_text w p fl :=
    let? q := mem_locate w p fl in
    match w !! q with
    | Some (FsText s) => Ok s
    | Some _ => Err not_utf8
    | None => Err not_found
    end;
  get_metadata w p fl :=
    let? q := mem_locate w p fl in
    if is_some_and (w !! q) (λ _, true)
    then Ok {| md_is_directory := false; md_is_file := true; md_is_symlink := is_link (w !! p) |}
    else Err not_found;
  write_file w p s fl :=
    match mem_locate w p fl with
    | Ok q => (<[q := FsText s]> w, Ok ())
    | Err e => (w, Err e)
    end;
  create_directory w _ _ := (w, Ok ());
  remove w p _ :=
    match w !! p with
    | Some _ => (delete p w, Ok ())
    | None => (w, Err not_found)
    end;
}.

(** The names reached by following links. *)
Definition link_step w p q : Prop := w !! p = Some (FsLink q).
Definition mem_touches w : path → path → Prop := rtc (link_step w).

Lemma follow_links_reaches n : ∀ w p q,
  follow_links n w p = Some q → mem_touches w p q ∧ is_link (w !! q) = false.
Proof.
  induction n as [|n IH]; intros w p q; simpl; destruct (w !! p) as [[s|t|]|] eqn:Hp;
    try (intros [= <-]; split; [apply rtc_refl|by rewrite Hp]); [done|].
  intros [Hr Hl]%IH. split; [|done]. by eapply rtc_l.
Qed.

Lemma mem_locate_ok w p fl q : mem_locate w p fl = Ok q → mem_touches w p q ∧ is_link (w !! q) = false.
Proof.
  unfold mem_locate. destruct (follow_links _ w p) eqn:E; [|done]. intros [= <-].
  by eapply follow_links_reaches.
Qed.

Lemma mem_locate_no_link w p fl q : mem_locate w p fl = Ok q → is_link (w !! p) = false → q = p.
Proof.
  unfold mem_locate. destruct fl; simpl; destruct (w !! p) as [[]|]; simpl; naive_solver.
Qed.

Lemma touches_no_link w p q : is_link (w !! p) = false → mem_touches w p q → q = p.
Proof. intros Hl Ht. inversion Ht as [|? y ? Hs]; [done|]. unfold link_step in Hs. by rewrite Hs in Hl. Qed.

Lemma touches_insert w q s a b :
  mem_touches (<[q := FsText s]> w) a b → mem_touches w a b.
Proof.
  apply rtc_subrel. unfold link_step. intros x y [[_ ?]|[_ ?]]%lookup_insert_Some; done.
Qed.

Lemma touches_delete w q a b : mem_touches (delete q w) a b → mem_touches w a b.
Proof. apply rtc_subrel. unfold link_step. intros x y [_ ?]%lookup_delete_Some. done. Qed.
End mem.

#[global] Program Instance mem_laws `{Countable path}
  : FileSystemLaws (gmap path (fs_entry path)) path := {
  entry_at w p := w !! p;
  touches w p q := mem_touches w p q;
}.
Next Obligation.
  intros path ?? w p fl s. simpl. destruct (is_link (w !! p)) eqn:Hl; [by left|].
  destruct (mem_locate w p fl) as [q|] eqn:Hq; [|done]. apply mem_locate_no_link in Hq as ->; [|done].
  simpl. right. by repeat (case_match; simplify_eq/=).
Qed.
Next Obligation.
  intros path ?? w p fl e. simpl. destruct (is_link (w !! p)) eqn:Hl; [by left|].
  destruct (mem_locate w p fl) as [q|] eqn:Hq; [apply mem_locate_no_link in Hq as ->; [|done]|];
    simpl; intros He Hk; right; [by repeat (case_match; simplify_eq/=)|].
  unfold mem_locate in Hq. destruct (follow_links _ _ _); by simplify_eq/=.
Qed.
Next Obligation.
  intros path ?? w p fl md. simpl. destruct (mem_locate w p fl) as [q|]; [|done]. simpl.
  destruct (w !! q); [|done]. by intros [= <-].
Qed.
Next Obligation.
  intros path ?? w p fl e. simpl. unfold mem_locate at 1. intros He Hk.
  destruct (follow_links _ w p) as [q|] eqn:Hq; simpl in He; [|by simplify_eq].
  apply follow_links_reaches in Hq as [Hr _].
  destruct (w !! q) eqn:Hn; [done|]. destruct (decide (q = p)) as [->|]; eauto.
Qed.
Next Obligation.
  intros path ?? w p s fl w'. simpl. destruct (mem_locate w p fl) as [q|] eqn:Hq; [|done].
  intros [= <-]. split_and!.
  - intros Hl. rewrite (mem_locate_no_link _ _ _ _ Hq Hl). by rewrite lookup_insert_eq.
  - intros x Hx Ht. apply lookup_insert_ne. intros ->. by apply mem_locate_ok in Hq as [? _].
  - apply touches_insert.
Qed.
Next Obligation.
  intros path ?? w p s fl w' e. simpl. destruct (mem_locate w p fl); [done|]. by intros [= <- _].
Qed.
Next Obligation. intros path ?? w p fl w' r. simpl. by intros [= <- _]. Qed.
Next Obligation.
  intros path ?? w p fl w'. simpl. destruct (w !! p) eqn:Hp; [|done]. intros [= <-].
  split_and!; [by apply lookup_delete_eq| |apply touches_delete].
  intros q Hq _. by apply lookup_delete_ne.
Qed.
Next Obligation.
  intros path ?? w p fl w' e. simpl. destruct (w !! p) eqn:Hp; [done|]. intros [= <- _]. auto.
Qed.

(** Names that are no links are the only names of their files. *)
Lemma mem_sole_name `{Countable path} (w : gmap path (fs_entry path)) p :
  is_link (w !! p) = false → sole_name w p.
Proof. intros Hl. split; [done|]. intros q. by apply touches_no_link. Qed.

Lemma mem_links_settled `{Countable path} (w : gmap path (fs_entry path)) named :
  forallb (λ p, negb (is_link (w !! p))) named = true → links_settled w named.
Proof.
  intros Hall p q Hp Hne Ht. rewrite forallb_forall in Hall.
  specialize (Hall p (proj1 (list_elem_of_In _ _) Hp)). apply negb_true_iff in Hall.
  by apply touches_no_link in Ht.
Qed.

(** Lines of a concrete patch. *)
Definition text_of (ls : list String.string) : str := join [nl] (lit <$> ls).

Definition quiet (_ : str) : option io_error := None.

(** ** Concrete runs *)

Definition demo_patch : str := text_of
  ["*** Begin Patch"; "*** Add File: new.txt"; "+hello";
   "*** Update File: a.txt"; "*** Move to: b.txt"; "@@"; " one"; "-two"; "+2";
   "*** Delete File: c.txt"; "*** End Patch"]%string.

Definition demo_fs : mem_fs :=
  {[ lit "/w/a.txt" := FsText (lit "one" ++ [nl] ++ lit "two" ++ [nl]);
     lit "/w/c.txt" := FsText (lit "bye");
     lit "/w/l.txt" := FsLink (lit "/w/a.txt") ]}.

Definition demo_hunks : list Hunk :=
  match parse_patch demo_patch with Ok args => args_hunks args | Err _ => [] end.

Example demo_result :
  (apply_patch quiet quiet demo_patch (lit "/w") demo_fs).1 =
  {[ lit "/w/new.txt" := FsText (lit "hello" ++ [nl]);
     lit "/w/b.txt" := FsText (lit "one" ++ [nl] ++ lit "2" ++ [nl]);
     lit "/w/l.txt" := FsLink (lit "/w/a.txt") ]}.
Proof. vm_compute. reflexivity. Qed.

(** A move whose destination is the source itself. *)
Definition self_move_patch : str := text_of
  ["*** Begin Patch"; "*** Update File: a.txt"; "*** Move to: a.txt"; "@@"; "-two"; "+2";
   "*** End Patch"]%string.

(** A move onto the file itself succeeds and loses the file: the new
    contents are written to the destination and then the source, which is the
    same path, is removed. *)
Theorem self_move_deletes :
  let '(w', out) := apply_patch quiet quiet self_move_patch (lit "/w") demo_fs in
  w' !! lit "/w/a.txt" = None ∧ demo_fs !! lit "/w/a.txt" ≠ None ∧
  match out with Done d => exact d = true | _ => False end.
Proof. vm_compute. done. Qed.

(** Deleting a symbolic link removes the link and not the file it leads to;
    the delta, which would say otherwise, is marked inexact. *)
Definition delete_link_patch : str := text_of
  ["*** Begin Patch"; "*** Delete File: l.txt"; "*** End Patch"]%string.

Example delete_link_inexact :
  let '(w', out) := apply_patch quiet quiet delete_link_patch (lit "/w") demo_fs in
  w' = delete (lit "/w/l.txt") demo_fs ∧
  match out with Done d => exact d = false | _ => False end.
Proof. vm_compute. done. Qed.

(** A dangling link: its metadata are those of a file that is not there, so
    the guard lets it pass, but the write goes through the link. *)
Definition dangling_fs : mem_fs := {[ lit "/w/s" := FsLink (lit "/w/t") ]}.
Definition dangling_patch : str := text_of
  ["*** Begin Patch"; "*** Add File: s"; "+hi"; "*** End Patch"]%string.

(** Adding a file under the name of a dangling symbolic link creates the
    link's target and yields a delta that claims to be exact and says the file
    was created under the name of the link. *)
Theorem dangling_link_delta :
  let '(w', out) := apply_patch quiet quiet dangling_patch (lit "/w") dangling_fs in
  w' !! lit "/w/s" = Some (FsLink (lit "/w/t"))
  ∧ w' !! lit "/w/t" = Some (FsText (lit "hi" ++ [nl]))
  ∧ match out with
    | Done d => exact d = true ∧ changes d =
        [{| change_path := lit "/w/s"; change_kind := AppliedAdd (lit "hi" ++ [nl]) None |}]
    | _ => False
    end.
Proof. vm_compute. done. Qed.

(** ** Instances of the general theorems *)

Lemma delta_faithful_witness :
  let r := apply_hunks_to_files default_options (lit "/w") demo_fs demo_hunks empty_delta in
  exact r.1.2 = true ∧
  (∀ q, replay (changes r.1.2) (entry_at demo_fs) q = entry_at r.1.1 q) ∧
  (∀ q, undo (changes r.1.2) (entry_at r.1.1) q = entry_at demo_fs q).
Proof.
  set (r := apply_hunks_to_files _ _ _ _ _).
  assert (exact r.1.2 = true) as He by (vm_compute; reflexivity).
  split; [exact He|].
  apply (delta_faithful default_options (lit "/w") demo_fs demo_hunks r.1.1 r.1.2 r.2);
    [apply mem_links_settled; vm_compute; reflexivity| |exact He].
  fold r. destruct r as [[? ?] ?]. reflexivity.
Defined.

Lemma affected_paths_witness :
  let r := apply_hunks_to_files default_options (lit "/w") demo_fs demo_hunks
             (@empty_delta str) in
  ∃ aff, r.2 = Done aff ∧ aff = foldl (λ a h, affected_by h a) no_paths demo_hunks.
Proof.
  set (r := apply_hunks_to_files _ _ _ _ _).
  assert (∃ aff, r.2 = Done aff) as (aff & Ha) by (eexists; vm_compute; reflexivity).
  exists aff. split; [exact Ha|].
  apply (affected_paths_complete default_options (lit "/w") demo_fs demo_hunks r.1.1
           empty_delta r.1.2 aff).
  rewrite <- Ha. fold r. destruct r as [[? ?] ?]. reflexivity.
Defined.
