(* ===== verification/PatchWitnesses.v ===== *)
(** * Instances of the patch theorems

    Every theorem of the patch components that has hypotheses, applied to a
    concrete input on which they hold. *)

From S2P Require Import Prelude RustStr UnixPath PatchParser PatchGrammar SeekSequence TextFile.
From S2P Require Import FileUpdate ExecFs ApplyPatch Invocation MemFs.

(** ** The parser *)

Lemma parse_patch_wf_witness :
  ∃ args, parse_patch demo_patch = Ok args ∧
    Forall hunk_wf (args_hunks args) ∧ env_wf (args_environment_id args).
Proof.
  destruct (parse_patch demo_patch) as [args|] eqn:H;
    [|exfalso; vm_compute in H; discriminate H].
  exists args. split; [reflexivity|]. exact (parse_patch_wf demo_patch args H).
Defined.

Definition demo_change : change :=
  {| ch_header := ContextHeader (lit "fn main"); ch_eof := true;
     ch_lines := [ContextLine (lit "a"); RemovedLine (lit "b"); AddedLine (lit "c")] |}.

Definition demo_syntax : patch_syntax :=
  {| ps_environment := Some (lit "env-1");
     ps_hunks := [SAdd (lit "new.txt") [lit "hello"; []]; SDelete (lit "old.txt");
                  SUpdate (lit "src/a.rs") (Some (lit "src/b.rs")) [demo_change]] |}.

Definition name_ok (s : str) : bool :=
  bool_decide (s ≠ []) && bool_decide (trim_end s = s) && bool_decide (plain_line s).

Lemma name_ok_wf s : name_ok s = true → name_wf s.
Proof. unfold name_ok, name_wf. intros. bool_prop. auto. Qed.

Lemma demo_syntax_wf : patch_wf demo_syntax.
Proof.
  assert (∀ s, bool_decide (plain_line s) = true → plain_line s) as Hp
    by (intros s; apply bool_decide_eq_true).
  assert (change_wf demo_change) as Hc.
  { split; [by apply name_ok_wf; vm_compute|]. split; [by left|].
    by repeat (apply Forall_cons; split; [apply Hp; vm_compute; reflexivity|]). }
  split.
  - intros e [= <-]. split; [by apply name_ok_wf; vm_compute|by vm_compute].
  - apply Forall_cons; split; [|apply Forall_cons; split; [|apply Forall_singleton]].
    + split; [by apply name_ok_wf; vm_compute|].
      by repeat (apply Forall_cons; split; [apply Hp; vm_compute; reflexivity|]).
    + split; [by apply name_ok_wf; vm_compute|done].
    + split; [by apply name_ok_wf; vm_compute|]. split.
      * intros m [= <-]. by apply name_ok_wf; vm_compute.
      * split; [by apply Forall_singleton|constructor].
Qed.

(** Two texts of the documented grammar the parser refuses: an update hunk
    without changes, and two context lines in a row. *)
Definition empty_update : patch_syntax :=
  {| ps_environment := None; ps_hunks := [SUpdate (lit "a.rs") None []] |}.
Definition two_contexts : patch_syntax :=
  {| ps_environment := None;
     ps_hunks := [SUpdate (lit "a.rs") None
       [{| ch_header := ContextHeader (lit "class A"); ch_lines := []; ch_eof := false |};
        {| ch_header := ContextHeader (lit "fn f"); ch_eof := false;
           ch_lines := [AddedLine (lit "x")] |}]] |}.

Example refused_by_parser :
  print_patch two_contexts = text_of
    ["*** Begin Patch"; "*** Update File: a.rs"; "@@ class A"; "@@ fn f"; "+x"; "*** End Patch"]%string
  ∧ is_ok (parse_patch (print_patch two_contexts)) = false
  ∧ is_ok (parse_patch (print_patch empty_update)) = false.
Proof. vm_compute. split_and!; reflexivity. Qed.


(** ** The line search *)

Definition demo_lines : list str := [lit "one"; lit "two  "; lit "three"].

(** Found in the second pass; not found; found only when the end of the file is
    not asked for, although the documentation promises to fall back to [start]. *)
Example line_search :
  seek_sequence demo_lines [lit "two"; lit "three"] 0 false NormalizeToLf = Some (Some 1)
  ∧ seek_sequence demo_lines [lit "four"] 0 false NormalizeToLf = Some None
  ∧ seek_sequence demo_lines [lit "one"] 0 false NormalizeToLf = Some (Some 0)
  ∧ seek_sequence demo_lines [lit "one"] 0 true NormalizeToLf = Some None.
Proof. by vm_compute. Qed.

(** ** Updating a file *)

Definition demo_chunk : UpdateFileChunk :=
  {| change_context := None; old_lines := [lit "two"; lit "three"];
     new_lines := [lit "2"; lit "three"]; context_line_indices := [(1, 1)];
     is_end_of_file := false |}.

Definition demo_text : str := text_of ["one"; "two"; "three"; "four"]%string.

Lemma demo_chunk_wf : Forall chunk_wf [demo_chunk].
Proof.
  apply Forall_singleton. split; [apply StronglySorted_single|].
  apply Forall_singleton. by exists (lit "three").
Qed.

Lemma appliers_agree_witness :
  let f := parse_source demo_text in
  ∃ f', apply_source_replacements f [(1, 1, [lit "2"])] = Some f' ∧
    apply_replacements (line_texts f) [(1, 1, [lit "2"])] = Some (line_texts f').
Proof. apply (appliers_agree (parse_source demo_text) [(1, 1, [lit "2"])]). vm_compute. lia. Defined.

Lemma compute_replacements_ordered_witness :
  let lns := split_lines demo_text in
  compute_replacements lns [] [demo_chunk] PreserveLineEndings = Done [(1, 1, [lit "2"])] ∧
  ordered_from 0 (length lns) [(1, 1, [lit "2"])].
Proof.
  assert (compute_replacements (split_lines demo_text) [] [demo_chunk] PreserveLineEndings
          = Done [(1, 1, [lit "2"])]) as H by (vm_compute; reflexivity).
  split; [exact H|]. exact (compute_replacements_ordered _ _ _ _ demo_chunk_wf H).
Defined.

Lemma update_single_chunk_witness :
  new_contents NormalizeToLf [] [demo_chunk] demo_text =
  Done (finish_lines [lit "one"; lit "2"; lit "three"; lit "four"]).
Proof.
  refine (update_single_chunk [] demo_chunk demo_text 1 _ _ _ _ _ _);
    [reflexivity|reflexivity|discriminate|vm_compute; lia|vm_compute; reflexivity|].
  intros j Hj. assert (j = 0) as -> by lia. vm_compute. discriminate.
Defined.

Lemma context_only_identity_witness :
  ∃ c out, new_contents PreserveLineEndings [] [c] demo_text = Done out ∧
    (out = demo_text
     ∨ out = demo_text ++ ending_str (preferred_ending (parse_source demo_text))).
Proof.
  set (c := {| change_context := None; old_lines := [lit "two"; lit "three"];
               new_lines := [lit "two"; lit "three"]; context_line_indices := [(0, 0); (1, 1)];
               is_end_of_file := false |}).
  exists c.
  assert (∃ out, new_contents PreserveLineEndings [] [c] demo_text = Done out) as (out & H)
    by (eexists; vm_compute; reflexivity).
  exists out. split; [exact H|]. refine (context_only_identity _ _ _ _ _ H).
  by apply Forall_singleton.
Defined.

(** ** Verifying an invocation *)

Definition demo_query (_ : str) : result (list (list capture)) ExtractHeredocError :=
  Ok [[(CapHeredoc, Ok (demo_patch ++ [nl])); (CapCdRawString, Ok (lit "'/w'"))]].
Definition posix (_ : str) : option PathConvention := Some Posix.
Definition no_diff (_ _ : str) (_ : nat) : str := [].
(** A diff that shows both texts in full. *)
Definition full_diff (old new : str) (_ : nat) : str :=
  lit "-" ++ old ++ [nl] ++ lit "+" ++ new ++ [nl].

(** Whether the names the changes write are links, by computation. *)
Definition no_links (cs : gmap str (ApplyPatchFileChange str)) (w : mem_fs) : bool :=
  forallb (λ '(p, c), negb (is_link (w !! p))
    && negb (is_some_and (move_target c) (λ q, is_link (w !! q)))) (map_to_list cs).

Lemma no_links_sole cs w : no_links cs w = true → sole_names cs w.
Proof.
  unfold no_links. rewrite forallb_forall. intros Hall p c q Hp Hq. apply mem_sole_name.
  specialize (Hall (p, c)). rewrite <- list_elem_of_In, elem_of_map_to_list in Hall.
  apply Hall, andb_true_iff in Hp as [H1%negb_true_iff H2%negb_true_iff].
  destruct Hq as [->|Hq]; [done|]. by rewrite Hq in H2.
Qed.

Definition demo_args : ApplyPatchArgs :=
  {| args_patch := demo_patch; args_hunks := demo_hunks; args_workdir := None;
     args_environment_id := None |}.

Definition shell_argv : list str := [lit "/bin/bash"; lit "-lc"; lit "cd '/w' && apply_patch"].

Lemma verified_action_explicit_witness :
  ∃ action,
    maybe_parse_apply_patch_verified_with_mode demo_query posix no_diff shell_argv (lit "/")
      NormalizeToLf demo_fs = Done (VBody action) ∧
    ((∃ cmd body, shell_argv = [cmd; body] ∧ cmd ∈ APPLY_PATCH_COMMANDS ∧
       ∃ args, parse_patch body = Ok args ∧ action_patch action = args_patch args) ∨
     (∃ shell script body workdir,
       parse_shell_script posix shell_argv (lit "/") = Some (shell, script) ∧
       is_ok (parse_patch script) = false ∧
       extract_apply_patch_from_bash demo_query script = Ok (body, workdir) ∧
       ∃ args, parse_patch body = Ok args ∧ action_patch action = args_patch args)).
Proof.
  destruct (maybe_parse_apply_patch_verified_with_mode demo_query posix no_diff shell_argv
              (lit "/") NormalizeToLf demo_fs) as [[action|?|?|]|e|] eqn:H;
    try (exfalso; vm_compute in H; discriminate H).
  exists action. split; [reflexivity|].
  exact (verified_action_explicit _ _ _ _ _ _ _ _ H).
Defined.

Lemma verified_changes_applied_witness :
  ∃ action w' (d : AppliedPatchDelta str) aff,
    try_verify_apply_patch_args full_diff demo_args (lit "/w") NormalizeToLf demo_fs = Done action ∧
    apply_hunks_to_files default_options (lit "/w") demo_fs demo_hunks empty_delta
      = (w', d, Done aff) ∧
    changes_done full_diff (action_changes action) demo_fs w' ∧
    map_Forall (shown_done full_diff demo_fs w') (convert_apply_patch_to_protocol action).
Proof.
  destruct (try_verify_apply_patch_args full_diff demo_args (lit "/w") NormalizeToLf demo_fs)
    as [action|e|] eqn:Hv; [|exfalso; vm_compute in Hv; discriminate Hv..].
  destruct (apply_hunks_to_files default_options (lit "/w") demo_fs demo_hunks (@empty_delta str))
    as [[w' d] [aff|e|]] eqn:Ha; [|exfalso; vm_compute in Ha; discriminate Ha..].
  exists action, w', d, aff. split; [reflexivity|]. split; [reflexivity|].
  assert (action_update_file_mode action = NormalizeToLf ∧ action_cwd action = lit "/w" ∧
          moves_disjoint (action_changes action) ∧ sole_names (action_changes action) demo_fs)
    as (Hm & Hc & Hd & Hs).
  { vm_compute in Hv. injection Hv as <-. split; [reflexivity|]. split; [reflexivity|]. split.
    - apply (bool_decide_eq_true_1 (moves_disjoint _)). vm_compute. reflexivity.
    - apply no_links_sole. vm_compute. reflexivity. }
  destruct (verified_changes_applied full_diff demo_args (lit "/w") NormalizeToLf demo_fs action w' d aff
              Hv Hd Hs) as (H1 & H2 & _); [rewrite Hm, Hc; exact Ha|].
  split; [exact H1|exact H2].
Defined.

(** A second hunk updates the file the first one moves onto. *)
Definition chain_patch : str := text_of
  ["*** Begin Patch"; "*** Update File: a.txt"; "*** Move to: c.txt"; "@@"; "-two"; "+2";
   "*** Update File: c.txt"; "@@"; "-one"; "+1"; "*** End Patch"]%string.

Definition chain_fs : mem_fs :=
  {[ lit "/w/a.txt" := FsText (lit "one" ++ [nl] ++ lit "two" ++ [nl]);
     lit "/w/c.txt" := FsText (lit "one" ++ [nl] ++ lit "three" ++ [nl]) ]}.

(** The check for several operations on one path looks at the paths in the hunk
    headers only.  When a hunk updates the target of an earlier move, the
    announced contents of that file and the contents the application leaves
    there differ. *)
Theorem move_target_not_checked :
  match parse_patch chain_patch with
  | Ok args =>
      match try_verify_apply_patch_args no_diff args (lit "/w") NormalizeToLf chain_fs with
      | Done action =>
          action_changes action !! lit "/w/c.txt" =
            Some (ChangeUpdate [] None (lit "1" ++ [nl] ++ lit "three" ++ [nl])) ∧
          (apply_patch quiet quiet chain_patch (lit "/w") chain_fs).1 !! lit "/w/c.txt" =
            Some (FsText (lit "1" ++ [nl] ++ lit "2" ++ [nl]))
      | _ => False
      end
  | Err _ => False
  end.
Proof. vm_compute. split; reflexivity. Qed.
