(* ===== verification/ExecRule.v ===== *)
(** * Command and network rules

    [codex-rs/execpolicy/src/decision.rs], [error.rs] and [rule.rs]: decisions,
    prefix patterns over command tokens, what a rule reports when it matches,
    and the normalisation of network hosts. *)

From S2P Require Import Prelude RustStr.

(** ** Decisions *)

Inductive Decision := Allow | Prompt | Forbidden.

#[global] Instance Decision_eq_dec : EqDecision Decision.
Proof. solve_decision. Defined.

(** The derived [Ord]: declaration order. *)
Definition decision_rank (d : Decision) : nat :=
  match d with Allow => 0 | Prompt => 1 | Forbidden => 2 end.

Definition decision_le (a b : Decision) : Prop := decision_rank a ≤ decision_rank b.
Definition decision_max (a b : Decision) : Decision :=
  if decision_rank a <=? decision_rank b then b else a.

(** [Iterator::max]. *)
Fixpoint decisions_max (ds : list Decision) : option Decision :=
  match ds with
  | [] => None
  | d :: ds' =>
      match decisions_max ds' with
      | None => Some d
      | Some e => Some (decision_max d e)
      end
  end.

(** ** Errors *)

Record TextPosition := { line : nat; column : nat }.
Record TextRange := { start : TextPosition; end_ : TextPosition }.
Record ErrorLocation := { loc_path : str; loc_range : TextRange }.

(** A Starlark error is its message and the span it resolves to. *)
Inductive Error :=
| InvalidDecision (raw : str)
| InvalidPattern (message : str)
| InvalidExample (message : str)
| InvalidRule (message : str)
| ExampleDidNotMatch (rules examples : list str) (location : option ErrorLocation)
| ExampleDidMatch (rule example : str) (location : option ErrorLocation)
| Starlark (message : str) (span : option ErrorLocation).

Definition with_location (e : Error) (location : ErrorLocation) : Error :=
  match e with
  | ExampleDidNotMatch rules examples None => ExampleDidNotMatch rules examples (Some location)
  | ExampleDidMatch rule example None => ExampleDidMatch rule example (Some location)
  | other => other
  end.

Definition error_location (e : Error) : option ErrorLocation :=
  match e with
  | ExampleDidNotMatch _ _ location | ExampleDidMatch _ _ location => location
  | Starlark _ span => span
  | _ => None
  end.

Definition parse_decision (raw : str) : result Decision Error :=
  if bool_decide (raw = lit "allow") then Ok Allow
  else if bool_decide (raw = lit "prompt") then Ok Prompt
  else if bool_decide (raw = lit "forbidden") then Ok Forbidden
  else Err (InvalidDecision raw).

(** ** Patterns *)

Inductive PatternToken :=
| Single (expected : str)
| Alts (alternatives : list str).

Definition token_matches (t : PatternToken) (token : str) : bool :=
  match t with
  | Single expected => bool_decide (expected = token)
  | Alts alternatives => existsb (λ alt, bool_decide (alt = token)) alternatives
  end.

Definition alternatives (t : PatternToken) : list str :=
  match t with Single expected => [expected] | Alts alternatives => alternatives end.

Record PrefixPattern := { first : str; rest : list PatternToken }.

Fixpoint tokens_match (ts : list PatternToken) (cmd : list str) : bool :=
  match ts, cmd with
  | t :: ts', c :: cmd' => token_matches t c && tokens_match ts' cmd'
  | _, _ => true
  end.

Definition matches_prefix (p : PrefixPattern) (cmd : list str) : option (list str) :=
  let pattern_length := length (rest p) + 1 in
  match cmd with
  | [] => None
  | cmd0 :: cmd_rest =>
      if (length cmd <? pattern_length) || negb (bool_decide (cmd0 = first p)) then None
      else if tokens_match (rest p) (take (length (rest p)) cmd_rest)
      then Some (take pattern_length cmd)
      else None
  end.

(** ** Rules.  [AbsolutePathBuf] is a parameter of the match report. *)

Inductive RuleMatch (abs_path : Type) :=
| PrefixRuleMatch (matched_prefix : list str) (decision : Decision)
    (resolved_program : option abs_path) (justification : option str)
| HeuristicsRuleMatch (command : list str) (decision : Decision).
Arguments PrefixRuleMatch {abs_path}.
Arguments HeuristicsRuleMatch {abs_path}.

Definition match_decision {abs_path} (m : RuleMatch abs_path) : Decision :=
  match m with PrefixRuleMatch _ d _ _ => d | HeuristicsRuleMatch _ d => d end.

Definition with_resolved_program {abs_path} (resolved : abs_path) (m : RuleMatch abs_path)
  : RuleMatch abs_path :=
  match m with
  | PrefixRuleMatch matched_prefix d _ j => PrefixRuleMatch matched_prefix d (Some resolved) j
  | other => other
  end.

Record PrefixRule := {
  pattern : PrefixPattern;
  rule_decision : Decision;
  justification : option str;
}.

(** [trait Rule], whose only implementation is [PrefixRule]. *)
Class Rule (R : Type) := {
  program : R → str;
  rule_matches : ∀ {abs_path}, R → list str → option (RuleMatch abs_path);
}.

#[global] Instance prefix_rule_Rule : Rule PrefixRule := {
  program r := first (pattern r);
  rule_matches _ r cmd :=
    (λ matched_prefix, PrefixRuleMatch matched_prefix (rule_decision r) None (justification r))
      <$> matches_prefix (pattern r) cmd;
}.

(** ** Network rules *)

Inductive NetworkRuleProtocol := Http | Https | Socks5Tcp | Socks5Udp.

Definition parse_protocol (raw : str) : result NetworkRuleProtocol Error :=
  if bool_decide (raw = lit "http") then Ok Http
  else if bool_decide (raw ∈ [lit "https"; lit "https_connect"; lit "http-connect"]) then Ok Https
  else if bool_decide (raw = lit "socks5_tcp") then Ok Socks5Tcp
  else if bool_decide (raw = lit "socks5_udp") then Ok Socks5Udp
  else Err (InvalidRule
    (lit "network_rule protocol must be one of http, https, socks5_tcp, socks5_udp (got "
     ++ raw ++ lit ")")).

Definition as_policy_string (p : NetworkRuleProtocol) : str :=
  match p with
  | Http => lit "http" | Https => lit "https"
  | Socks5Tcp => lit "socks5_tcp" | Socks5Udp => lit "socks5_udp"
  end.

Record NetworkRule := {
  host : str;
  protocol : NetworkRuleProtocol;
  net_decision : Decision;
  net_justification : option str;
}.

Definition is_port (port : str) : bool := negb (is_empty port) && forallb is_ascii_digit port.

(** The host without brackets or port. *)
Definition strip_host_port (raw host : str) : result str Error :=
  match strip_prefix (lit "[") host with
  | Some stripped =>
      match split_once 93 stripped with
      | None => Err (InvalidRule (lit "network_rule host has an invalid bracketed IPv6 literal"))
      | Some (inside, rest) =>
          let port_ok := is_some_and (strip_prefix (lit ":") rest) is_port in
          if negb (is_empty rest) && negb port_ok
          then Err (InvalidRule
                 (lit "network_rule host contains an unsupported suffix: " ++ raw))
          else Ok inside
      end
  | None =>
      if count_occ N.eq_dec host 58%N =? 1 then
        match rsplit_once 58 host with
        | Some (candidate, port) =>
            if negb (is_empty candidate) && is_port port then Ok candidate else Ok host
        | None => Ok host
        end
      else Ok host
  end.

Definition normalize_network_rule_host (raw : str) : result str Error :=
  let host := trim raw in
  if is_empty host then Err (InvalidRule (lit "network_rule host cannot be empty"))
  else if contains_str host (lit "://") || contains_char host 47 || contains_char host 63
          || contains_char host 35
  then Err (InvalidRule
         (lit "network_rule host must be a hostname or IP literal (without scheme or path)"))
  else
    let? host := strip_host_port raw host in
    let normalized := to_ascii_lowercase (trim (trim_end_matches (λ c, (c =? 46)%N) host)) in
    if is_empty normalized then Err (InvalidRule (lit "network_rule host cannot be empty"))
    else if contains_char normalized 42
    then Err (InvalidRule
           (lit "network_rule host must be a specific host; wildcards are not allowed"))
    else if existsb is_whitespace normalized
    then Err (InvalidRule (lit "network_rule host cannot contain whitespace"))
    else Ok normalized.

(** ** Facts: decisions *)

Lemma decision_le_antisym a b : decision_le a b → decision_le b a → a = b.
Proof. destruct a, b; unfold decision_le; simpl; lia || done. Qed.

#[global] Instance decision_le_preorder : PreOrder decision_le.
Proof. split; [intros ?; unfold decision_le; lia|]. intros ???; unfold decision_le; lia. Qed.

Lemma decision_max_spec a b :
  decision_le a (decision_max a b) ∧ decision_le b (decision_max a b) ∧
  (decision_max a b = a ∨ decision_max a b = b).
Proof. destruct a, b; unfold decision_le; simpl; intuition lia. Qed.

Lemma decisions_max_None ds : decisions_max ds = None ↔ ds = [].
Proof. destruct ds; simpl; [done|]. by case_m. Qed.

Lemma decisions_max_Some ds d :
  decisions_max ds = Some d ↔ d ∈ ds ∧ ∀ e, e ∈ ds → decision_le e d.
Proof.
  assert (∀ d, decisions_max ds = Some d → d ∈ ds ∧ ∀ e, e ∈ ds → decision_le e d) as Hfwd.
  { induction ds as [|x ds IH]; simpl; [done|]. intros y.
    destruct (decisions_max ds) as [z|] eqn:Hz.
    - intros [= <-]. destruct (IH z eq_refl) as [Hin Hle].
      destruct (decision_max_spec x z) as (H1 & H2 & Hm). split.
      + destruct Hm as [-> | ->]; set_solver.
      + intros e [->|He]%elem_of_cons; [exact H1|]. exact (transitivity (Hle e He) H2).
    - intros [= <-]. apply decisions_max_None in Hz as ->. split; [set_solver|].
      by intros e ->%list_elem_of_singleton. }
  split; [apply Hfwd|]. intros [Hin Hle].
  destruct (decisions_max ds) as [z|] eqn:Hz.
  - destruct (Hfwd z eq_refl) as [Hz1 Hz2]. f_equal. apply decision_le_antisym; auto.
  - apply decisions_max_None in Hz as ->. set_solver.
Qed.

(** ** Facts: patterns *)

Lemma token_matches_spec t c : token_matches t c = true ↔ c ∈ alternatives t.
Proof.
  destruct t as [e|alts]; simpl.
  - rewrite bool_decide_eq_true, list_elem_of_singleton. naive_solver.
  - rewrite existsb_exists. setoid_rewrite bool_decide_eq_true.
    setoid_rewrite <- list_elem_of_In. naive_solver.
Qed.

Lemma tokens_match_spec ts cmd :
  length cmd = length ts →
  tokens_match ts cmd = true ↔ Forall2 (λ t c, c ∈ alternatives t) ts cmd.
Proof.
  revert cmd; induction ts as [|t ts IH]; intros [|c cmd]; simpl; try done.
  intros [= Hl]. rewrite andb_true_iff, token_matches_spec, IH, Forall2_cons by done. done.
Qed.

(** The commands a pattern covers: its first token, then one of the
    alternatives of each further token, then anything. *)
Definition covers (p : PrefixPattern) (prefix : list str) : Prop :=
  ∃ args, prefix = first p :: args ∧ Forall2 (λ t c, c ∈ alternatives t) (rest p) args.

Lemma matches_prefix_covers p cmd prefix :
  matches_prefix p cmd = Some prefix ↔ covers p prefix ∧ ∃ tail, cmd = prefix ++ tail.
Proof.
  unfold matches_prefix, covers. destruct cmd as [|c cmd].
  { split; [done|]. intros [(args & -> & _) (tail & [=])]. }
  destruct (length (c :: cmd) <? length (rest p) + 1) eqn:Hlen; simpl in Hlen; bool_prop.
  { split; [done|]. intros [(args & -> & Ha) (tail & [= _ ->])]. apply Forall2_length in Ha.
    rewrite length_app in Hlen. lia. }
  simpl orb. destruct (bool_decide (c = first p)) eqn:Hc; bool_prop; simpl.
  2: { split; [done|]. intros [(args & -> & _) (tail & [= -> _])]. done. }
  subst c. assert (length (take (length (rest p)) cmd) = length (rest p)) as Htk
    by (rewrite length_take; lia).
  replace (length (rest p) + 1) with (S (length (rest p))) by lia. simpl.
  destruct (tokens_match (rest p) (take (length (rest p)) cmd)) eqn:Hm.
  - apply tokens_match_spec in Hm; [|done]. split.
    + intros [= <-]. split; [by eexists|]. exists (drop (length (rest p)) cmd). simpl.
      by rewrite take_drop.
    + intros [(args & -> & Ha) (tail & [= ->])]. apply Forall2_length in Ha.
      by rewrite Ha, take_app_length.
  - split; [done|]. intros [(args & -> & Ha) (tail & [= ->])]. exfalso.
    pose proof (Forall2_length _ _ _ Ha) as Hl. rewrite Hl, take_app_length in Hm.
    apply tokens_match_spec in Ha; [congruence|done].
Qed.

(** ** Facts: hosts *)

Lemma no_whitespace s : existsb is_whitespace s = false ↔ Forall (λ c, is_whitespace c = false) s.
Proof.
  induction s as [|c s IH]; simpl; [by split|]. by rewrite orb_false_iff, Forall_cons, IH.
Qed.

Lemma trim_end_matches_id p s : Forall (λ c, p c = false) s → trim_end_matches p s = s.
Proof.
  induction 1 as [|c s Hc Hs IH]; simpl; [done|]. rewrite IH, Hc. by destruct s.
Qed.

Lemma trim_id s : Forall (λ c, is_whitespace c = false) s → trim s = s.
Proof.
  intros Hs. unfold trim. destruct s as [|c s]; [done|].
  pose proof Hs as [Hc _]%Forall_cons. rewrite trim_start_cons by done.
  by apply trim_end_matches_id.
Qed.

(** What a normalised host looks like. *)
Definition host_wf (h : str) : Prop :=
  h ≠ [] ∧ Forall (λ c, is_whitespace c = false) h ∧ 42%N ∉ h ∧ to_ascii_lowercase h = h.

Lemma normalize_host_wf raw h : normalize_network_rule_host raw = Ok h → host_wf h.
Proof.
  unfold normalize_network_rule_host. destruct (is_empty (trim raw)); [done|].
  destruct (_ || _); [done|]. destruct (strip_host_port raw (trim raw)) as [h0|]; [|done]. simpl.
  set (n := to_ascii_lowercase _). destruct (is_empty n) eqn:He; [done|].
  destruct (contains_char n 42) eqn:Hc; [done|].
  destruct (existsb is_whitespace n) eqn:Hw; [done|]. intros [= <-].
  split; [by apply is_empty_false|]. split; [by apply no_whitespace|].
  split; [by apply contains_char_false|]. apply to_ascii_lowercase_idemp.
Qed.

(** Lowercasing introduces letters only, so the other characters of the result
    are characters of the argument. *)
Lemma elem_of_lowercase c s :
  c ∈ to_ascii_lowercase s → is_ascii_lowercase c = false → c ∈ s.
Proof.
  unfold to_ascii_lowercase. intros (d & -> & Hd)%list_elem_of_fmap Hc.
  unfold ascii_lower in *. destruct (is_ascii_uppercase d) eqn:Hu; [|done].
  unfold is_ascii_uppercase, is_ascii_lowercase in *.
  apply andb_true_iff in Hu as [?%N.leb_le ?%N.leb_le].
  apply andb_false_iff in Hc as [?%N.leb_gt|?%N.leb_gt]; lia.
Qed.

Lemma elem_of_trim_end_matches p c s : c ∈ trim_end_matches p s → c ∈ s.
Proof.
  destruct (trim_end_matches_prefix p s) as (w & Hw & _). rewrite Hw at 2. set_solver.
Qed.

Lemma elem_of_trim c s : c ∈ trim s → c ∈ s.
Proof.
  unfold trim. intros H%elem_of_trim_end_matches.
  destruct (trim_start_matches_suffix is_whitespace s) as (w & Hw & _). rewrite Hw. set_solver.
Qed.

Lemma strip_host_port_elem raw h h' c : strip_host_port raw h = Ok h' → c ∈ h' → c ∈ h.
Proof.
  unfold strip_host_port. destruct (strip_prefix (lit "[") h) as [s|] eqn:Hs.
  - apply strip_prefix_Some in Hs as ->.
    destruct (split_once 93 s) as [[inside rest]|] eqn:Hi; [|done].
    apply split_once_Some in Hi as ->. destruct (_ && _); [done|]. intros [= <-]. set_solver.
  - destruct (_ =? 1); [|by intros [= <-]].
    destruct (rsplit_once 58 h) as [[a b]|] eqn:Hr; [|by intros [= <-]].
    apply rsplit_once_Some in Hr as ->. case_m; intros [= <-]; set_solver.
Qed.

(** A normalised network host is not empty, is lower case, and contains no
    whitespace, no wildcard and none of the characters of a URL's scheme
    separator, path, query or fragment; and a plain host name that satisfies
    this is its own normal form, so normalising again changes nothing. *)
Theorem normalize_host_shape raw h :
  normalize_network_rule_host raw = Ok h →
  host_wf h ∧ 47%N ∉ h ∧ 63%N ∉ h ∧ 35%N ∉ h ∧
  (58%N ∉ h → head h ≠ Some 91%N → last h ≠ Some 46%N → normalize_network_rule_host h = Ok h).
Proof.
  intros Hn. pose proof (normalize_host_wf raw h Hn) as Hwf.
  assert (47%N ∉ h ∧ 63%N ∉ h ∧ 35%N ∉ h) as (H1 & H2 & H3).
  { revert Hn. unfold normalize_network_rule_host. destruct (is_empty (trim raw)); [done|].
    destruct (_ || _) eqn:Hbad; [done|].
    destruct (strip_host_port raw (trim raw)) as [h0|] eqn:Hp; [|done]. simpl.
    repeat case_m; [done..|]. intros [= <-].
    rewrite !orb_false_iff, !contains_char_false in Hbad. destruct Hbad as [[[_ Ha] Hb] Hc].
    split_and!; intros Hin; [apply Ha|apply Hb|apply Hc];
      apply (strip_host_port_elem _ _ _ _ Hp), (elem_of_trim_end_matches (λ c, (c =? 46)%N)),
        elem_of_trim, elem_of_lowercase; done. }
  split_and!; [done..|]. intros Hcolon Hhead Hlast. destruct Hwf as (Hne & Hws & Hstar & Hlow).
  unfold normalize_network_rule_host. rewrite trim_id by done.
  rewrite (proj2 (is_empty_false h)) by done.
  assert (contains_str h (lit "://") = false) as ->.
  { unfold contains_str. destruct (find_str (lit "://") h) as [i|] eqn:Hf; [|done].
    apply find_str_Some in Hf as [Hf _]. exfalso. apply Hcolon. rewrite Hf.
    apply elem_of_app. right. apply elem_of_app. left. vm_compute. by left. }
  rewrite !(proj2 (contains_char_false _ _)) by done. simpl.
  assert (strip_host_port h h = Ok h) as ->.
  { unfold strip_host_port. destruct (strip_prefix (lit "[") h) eqn:Hs.
    - apply strip_prefix_Some in Hs as ->. by destruct Hhead.
    - rewrite (proj1 (count_occ_not_In N.eq_dec h 58%N)); [done|].
      by rewrite <- list_elem_of_In. }
  simpl. assert (trim_end_matches (λ c, (c =? 46)%N) h = h) as ->.
  { destruct (list_snoc_cases h) as [->|(h' & c & ->)]; [done|].
    apply trim_end_matches_snoc_keep. apply N.eqb_neq. intros ->. by rewrite last_snoc in Hlast. }
  rewrite trim_id, Hlow, (proj2 (is_empty_false h)), (proj2 (contains_char_false h 42)),
    (proj2 (no_whitespace h)) by done. done.
Qed.

Lemma normalize_host_shape_witness :
  normalize_network_rule_host (lit " API.Example.com.:443 ") = Ok (lit "api.example.com") ∧
  normalize_network_rule_host (lit "api.example.com") = Ok (lit "api.example.com").
Proof.
  assert (normalize_network_rule_host (lit " API.Example.com.:443 ")
          = Ok (lit "api.example.com")) as H by (vm_compute; reflexivity).
  split; [exact H|].
  apply (normalize_host_shape (lit " API.Example.com.:443 ") (lit "api.example.com") H);
    [apply (bool_decide_eq_true_1 (58%N ∉ lit "api.example.com")); vm_compute; reflexivity
    |vm_compute; discriminate|vm_compute; discriminate].
Defined.

(** A trailing dot after the port hides the port: it stays in the host. *)
Example normalize_keeps_port :
  normalize_network_rule_host (lit "example.com:80.") = Ok (lit "example.com:80").
Proof. vm_compute. reflexivity. Qed.
