(* ===== verification/ExecPolicy.v ===== *)
(** * The execution policy

    [codex-rs/execpolicy/src/policy.rs] and [executable_name.rs]: the rules by
    program, the overlay of one policy on another, and the evaluation of a
    command.  [MultiMap] and [HashMap] are finite maps; the source's
    iterations over them do not depend on the order. *)

From S2P Require Import Prelude RustStr ExecRule.

(** A growing multimap: each key has its values in insertion order. *)
Abbreviation rule_map := (gmap str (list PrefixRule)).

Definition multi_insert (k : str) (r : PrefixRule) (m : rule_map) : rule_map :=
  <[k := default [] (m !! k) ++ [r]]> m.

Definition multi_extend (k : str) (rs : list PrefixRule) (m : rule_map) : rule_map :=
  foldl (λ m r, multi_insert k r m) m rs.

Record MatchOptions := { resolve_host_executables : bool }.
Definition default_match_options : MatchOptions := {| resolve_host_executables := false |}.

(** [executable_lookup_key] on a target that is not Windows. *)
Definition executable_lookup_key (raw : str) : str := raw.

(** ** Ordering of strings and of prefixes *)

Definition prefix_compare : list str → list str → comparison := list_compare str_compare.
Definition prefix_le (a b : list str) : Prop := prefix_compare a b ≠ Gt.

#[global] Instance prefix_le_dec : RelDecision prefix_le.
Proof. intros a b. unfold prefix_le. apply _. Defined.

#[global] Instance prefix_total_compare : TotalCompare prefix_compare.
Proof. apply list_total_compare, _. Qed.

Definition prefix_lt (a b : list str) : Prop := prefix_compare a b = Lt.

#[global] Instance prefix_le_trans : Transitive prefix_le.
Proof.
  intros a b c. unfold prefix_le. destruct (prefix_compare a b) eqn:Hab; [|..|done].
  - by rewrite (compare_eq _ _ Hab).
  - intros _. destruct (prefix_compare b c) eqn:Hbc; [|..|done].
    + by rewrite <- (compare_eq _ _ Hbc), Hab.
    + by rewrite (compare_lt_trans _ _ _ Hab Hbc).
Qed.

#[global] Instance prefix_le_total : Total prefix_le.
Proof.
  intros a b. unfold prefix_le. rewrite (compare_opp (cmp:=prefix_compare) a b). destruct (prefix_compare a b); auto.
Qed.

Lemma prefix_le_lt a b : prefix_le a b → a ≠ b → prefix_lt a b.
Proof.
  unfold prefix_le, prefix_lt. destruct (prefix_compare a b) eqn:H; [|done..].
  by apply compare_eq in H.
Qed.

Lemma dedup_sorted l : StronglySorted prefix_le l → StronglySorted prefix_lt (dedup l).
Proof.
  induction 1 as [|x l Hl IH Hx]; [constructor|]. simpl.
  assert (∀ y, y ∈ dedup l → prefix_le x y) as Hle.
  { intros y Hy. rewrite Forall_forall in Hx. by apply Hx, elem_of_dedup. }
  destruct (dedup l) as [|z l']; [apply StronglySorted_single|].
  case_decide as Hxz; [done|]. constructor; [done|].
  pose proof (prefix_le_lt x z (Hle z ltac:(set_solver)) Hxz) as Hlt.
  apply StronglySorted_inv in IH as [_ Hz]. constructor; [done|].
  eapply Forall_impl; [exact Hz|]. intros y Hy. eapply compare_lt_trans; [exact Hlt|exact Hy].
Qed.

Section policy.
(** [AbsolutePathBuf] with its conversion from a string and [Path::file_name]. *)
Context {abs_path : Type} `{!EqDecision abs_path}
  (try_from : str → option abs_path) (file_name : abs_path → option str).

Record Policy := {
  rules_by_program : rule_map;
  network_rules : list NetworkRule;
  host_executables_by_name : gmap str (list abs_path);
}.

Record Evaluation := {
  ev_decision : Decision;
  matched_rules : list (RuleMatch abs_path);
}.

Implicit Types (p : Policy) (cmd : list str).

Definition empty_policy : Policy :=
  {| rules_by_program := ∅; network_rules := []; host_executables_by_name := ∅ |}.

Definition executable_path_lookup_key (path : abs_path) : option str :=
  executable_lookup_key <$> file_name path.

(** ** Updating a policy *)

Definition add_prefix_rule p (prefix : list str) (decision : Decision) : result Policy Error :=
  match prefix with
  | [] => Err (InvalidPattern (lit "prefix cannot be empty"))
  | first_token :: rest =>
      let rule := {| pattern := {| first := first_token; rest := Single <$> rest |};
                     rule_decision := decision; justification := None |} in
      Ok {| rules_by_program := multi_insert first_token rule (rules_by_program p);
            network_rules := network_rules p;
            host_executables_by_name := host_executables_by_name p |}
  end.

Definition add_network_rule p (host : str) (protocol : NetworkRuleProtocol)
    (decision : Decision) (justification : option str) : result Policy Error :=
  let? host := normalize_network_rule_host host in
  if is_some_and justification (λ raw, is_empty (trim raw))
  then Err (InvalidRule (lit "justification cannot be empty"))
  else
    Ok {| rules_by_program := rules_by_program p;
          network_rules := network_rules p ++
            [{| host := host; protocol := protocol; net_decision := decision;
                net_justification := justification |}];
          host_executables_by_name := host_executables_by_name p |}.

Definition set_host_executable_paths p (name : str) (paths : list abs_path) : Policy :=
  {| rules_by_program := rules_by_program p; network_rules := network_rules p;
     host_executables_by_name := <[name := paths]> (host_executables_by_name p) |}.

Definition merge_overlay p (overlay : Policy) : Policy :=
  {| rules_by_program :=
       foldl (λ m '(program, rules), multi_extend program rules m) (rules_by_program p)
         (map_to_list (rules_by_program overlay));
     network_rules := network_rules p ++ network_rules overlay;
     host_executables_by_name :=
       host_executables_by_name overlay ∪ host_executables_by_name p |}.

(** ** Reading a policy *)

Definition render_pattern_token (t : PatternToken) : str :=
  match t with
  | Single value => value
  | Alts alternatives => lit "[" ++ join (lit "|") alternatives ++ lit "]"
  end.

Definition render_prefix (r : PrefixRule) : list str :=
  first (pattern r) :: (render_pattern_token <$> rest (pattern r)).

Definition all_rules p : list PrefixRule := mjoin (map_to_list (rules_by_program p)).*2.

Definition is_allow (r : PrefixRule) : bool := bool_decide (rule_decision r = Allow).

Definition get_allowed_prefixes p : list (list str) :=
  dedup (merge_sort prefix_le (render_prefix <$> base.filter (λ r, is_allow r = true) (all_rules p))).

Definition upsert_domain (entries : list str) (host : str) : list str :=
  base.filter (.≠ host) entries ++ [host].

Definition compile_rule '(allowed, denied) (r : NetworkRule) : list str * list str :=
  match net_decision r with
  | Allow => (upsert_domain allowed (host r), base.filter (.≠ host r) denied)
  | Forbidden => (base.filter (.≠ host r) allowed, upsert_domain denied (host r))
  | Prompt => (allowed, denied)
  end.

Definition compiled_network_domains p : list str * list str :=
  foldl compile_rule ([], []) (network_rules p).

(** ** Evaluating a command *)

Definition match_exact_rules p cmd : option (list (RuleMatch abs_path)) :=
  match cmd with
  | [] => None
  | first :: _ =>
      match rules_by_program p !! first with
      | Some rules => Some (omap (λ r, rule_matches r cmd) rules)
      | None => Some []
      end
  end.

Definition match_host_executable_rules p cmd : list (RuleMatch abs_path) :=
  match cmd with
  | [] => []
  | first :: args =>
      match try_from first with
      | None => []
      | Some program =>
          match executable_path_lookup_key program with
          | None => []
          | Some basename =>
              match rules_by_program p !! basename with
              | None => []
              | Some rules =>
                  if is_some_and (host_executables_by_name p !! basename)
                       (λ paths, negb (bool_decide (program ∈ paths)))
                  then []
                  else
                    with_resolved_program program
                      <$> omap (λ r, rule_matches r (basename :: args)) rules
              end
          end
      end
  end.

Definition matches_for_command_with_options p cmd (fallback : option (list str → Decision))
    (options : MatchOptions) : list (RuleMatch abs_path) :=
  let exact_matches := default [] (match_exact_rules p cmd) in
  let matched :=
    if negb (is_empty exact_matches) then exact_matches
    else if resolve_host_executables options then match_host_executable_rules p cmd
    else [] in
  match fallback with
  | Some heuristics =>
      if is_empty matched then [HeuristicsRuleMatch cmd (heuristics cmd)] else matched
  | None => matched
  end.

Definition matches_for_command p cmd fallback :=
  matches_for_command_with_options p cmd fallback default_match_options.

(** [None] is the panic of [expect]. *)
Definition from_matches (ms : list (RuleMatch abs_path)) : option Evaluation :=
  decision ← decisions_max (match_decision <$> ms);
  Some {| ev_decision := decision; matched_rules := ms |}.

Definition is_match (e : Evaluation) : bool :=
  existsb (λ m, match m with HeuristicsRuleMatch _ _ => false | _ => true end) (matched_rules e).

Definition check_with_options p cmd (heuristics : list str → Decision) (options : MatchOptions) :=
  from_matches (matches_for_command_with_options p cmd (Some heuristics) options).

Definition check p cmd heuristics := check_with_options p cmd heuristics default_match_options.

Definition check_multiple_with_options p (commands : list (list str))
    (heuristics : list str → Decision) (options : MatchOptions) : option Evaluation :=
  from_matches (mjoin ((λ cmd, matches_for_command_with_options p cmd (Some heuristics) options)
                         <$> commands)).

Definition check_multiple p commands heuristics :=
  check_multiple_with_options p commands heuristics default_match_options.

(** [RequirementsExecPolicy::fingerprint]; [fmt_rule] is the derived [Debug]. *)
Definition fingerprint (fmt_rule : PrefixRule → str) p : list str :=
  merge_sort (λ a b, str_compare a b ≠ Gt)
    (mjoin ((λ '(program, rules), (λ r, program ++ lit ":" ++ fmt_rule r) <$> rules)
              <$> map_to_list (rules_by_program p))).

(** ** Well-formed policies and the rules that cover a command *)

Definition rules_for p (k : str) : list PrefixRule := default [] (rules_by_program p !! k).

(** Every rule is stored under its own program. *)
Definition policy_wf p : Prop :=
  map_Forall (λ k rs, Forall (λ r, first (pattern r) = k) rs) (rules_by_program p).

Definition covers_command (r : PrefixRule) cmd : Prop :=
  ∃ prefix tail, covers (pattern r) prefix ∧ cmd = prefix ++ tail.

Definition in_policy p (r : PrefixRule) : Prop := ∃ k, r ∈ rules_for p k.

Lemma rules_for_wf p k r : policy_wf p → r ∈ rules_for p k → first (pattern r) = k.
Proof.
  intros Hwf. unfold rules_for. destruct (rules_by_program p !! k) as [rs|] eqn:Hk; [|set_solver].
  specialize (Hwf k rs Hk). rewrite Forall_forall in Hwf. apply Hwf.
Qed.

Lemma rule_matches_spec (r : PrefixRule) cmd (m : RuleMatch abs_path) :
  rule_matches r cmd = Some m ↔
  ∃ prefix tail, covers (pattern r) prefix ∧ cmd = prefix ++ tail ∧
    m = PrefixRuleMatch prefix (rule_decision r) None (justification r).
Proof.
  simpl. rewrite fmap_Some. setoid_rewrite matches_prefix_covers. naive_solver.
Qed.

Lemma covers_command_head r cmd : covers_command r cmd → head cmd = Some (first (pattern r)).
Proof. by intros (prefix & tail & (args & -> & _) & ->). Qed.

Lemma elem_of_match_exact p cmd m :
  m ∈ default [] (match_exact_rules p cmd) ↔
  ∃ (k : str) (r : PrefixRule), head cmd = Some k ∧ r ∈ rules_for p k ∧ rule_matches r cmd = Some m.
Proof.
  unfold match_exact_rules, rules_for. destruct cmd as [|k args].
  - simpl. split; [set_solver|naive_solver].
  - destruct (rules_by_program p !! k) as [rs|] eqn:Hk; simpl.
    + rewrite list_elem_of_omap. split; [intros (r & ? & ?); exists k, r|intros (k' & r & [= <-] & H & ?)];
        rewrite Hk in *; naive_solver.
    + split; [set_solver|]. intros (k' & r & [= <-] & H & _). rewrite Hk in H. set_solver.
Qed.

(** In a well-formed policy the exact matches are the rules, wherever they are
    stored, that cover the command. *)
Lemma elem_of_match_exact_wf p cmd m :
  policy_wf p →
  m ∈ default [] (match_exact_rules p cmd) ↔
  ∃ r : PrefixRule, in_policy p r ∧ rule_matches r cmd = Some m.
Proof.
  intros Hwf. rewrite elem_of_match_exact. split.
  - intros (k & r & _ & Hr & Hm). exists r. split; [by exists k|done].
  - intros (r & (k & Hr) & Hm). exists k, r. split; [|done].
    rewrite <- (rules_for_wf p k r Hwf Hr). apply covers_command_head.
    apply rule_matches_spec in Hm as (prefix & tail & ? & ? & _). by exists prefix, tail.
Qed.

Lemma matches_nonempty p cmd h options :
  matches_for_command_with_options p cmd (Some h) options ≠ [].
Proof.
  unfold matches_for_command_with_options. cbv zeta.
  set (ms := if negb _ then _ else _). destruct (is_empty ms) eqn:He; [done|].
  by apply is_empty_false in He.
Qed.

Lemma from_matches_Some ms ev :
  from_matches ms = Some ev ↔
  matched_rules ev = ms ∧ ev_decision ev ∈ match_decision <$> ms ∧
  ∀ m, m ∈ ms → decision_le (match_decision m) (ev_decision ev).
Proof.
  unfold from_matches. destruct (decisions_max (match_decision <$> ms)) as [d|] eqn:Hd; simpl.
  - pose proof Hd as [Hin Hle]%decisions_max_Some. split.
    + intros [= <-]. simpl. split; [done|]. split; [done|]. intros m Hm. apply Hle.
      by apply list_elem_of_fmap_2.
    + intros (<- & Hin' & Hle'). destruct ev as [d' ms]; simpl in *. do 2 f_equal.
      apply decision_le_antisym; [|auto].
      apply list_elem_of_fmap in Hin as (m & -> & ?). auto.
  - split; [done|]. intros (_ & Hin & _). apply decisions_max_None in Hd. rewrite Hd in Hin.
    set_solver.
Qed.

Lemma from_matches_None ms : from_matches ms = None ↔ ms = [].
Proof.
  unfold from_matches. destruct (decisions_max (match_decision <$> ms)) eqn:Hd; simpl.
  - split; [done|]. by intros ->.
  - apply decisions_max_None in Hd. split; [|done]. intros _. by apply fmap_nil_inv in Hd.
Qed.

Lemma check_total p cmd h options : ∃ ev, check_with_options p cmd h options = Some ev.
Proof.
  unfold check_with_options.
  destruct (from_matches _) as [ev|] eqn:H; [by exists ev|].
  apply from_matches_None in H. by apply matches_nonempty in H.
Qed.

(** The default options look at exact matches only. *)
Lemma matches_default p cmd h :
  matches_for_command_with_options p cmd (Some h) default_match_options =
  if is_empty (default [] (match_exact_rules p cmd)) then [HeuristicsRuleMatch cmd (h cmd)]
  else default [] (match_exact_rules p cmd).
Proof.
  unfold matches_for_command_with_options. simpl.
  destruct (default [] (match_exact_rules p cmd)); done.
Qed.

(** C6: evaluation implements the policy's meaning.  In a well-formed policy
    the decision on a command is the strictest decision among the rules of the
    policy that cover the command, wherever they are stored; only when no rule
    covers it does the fallback decide, and evaluation never panics. *)
Theorem check_spec p cmd h :
  policy_wf p →
  ∃ ev, check p cmd h = Some ev ∧
    ((∃ r, in_policy p r ∧ covers_command r cmd) →
       (∀ r, in_policy p r → covers_command r cmd →
          decision_le (rule_decision r) (ev_decision ev)) ∧
       ∃ r, in_policy p r ∧ covers_command r cmd ∧ rule_decision r = ev_decision ev) ∧
    ((∀ r, in_policy p r → ¬ covers_command r cmd) →
       ev_decision ev = h cmd ∧ matched_rules ev = [HeuristicsRuleMatch cmd (h cmd)]).
Proof.
  intros Hwf. destruct (check_total p cmd h default_match_options) as (ev & Hev).
  exists ev. split; [done|]. unfold check_with_options in Hev. rewrite matches_default in Hev.
  pose proof (λ m, elem_of_match_exact_wf p cmd m Hwf) as Helem.
  destruct (default [] (match_exact_rules p cmd)) as [|m0 ms] eqn:Hms; simpl in Hev.
  - apply from_matches_Some in Hev as (Hm & Hin & _). split.
    + intros (r & Hr & (prefix & tail & Hc & ->)). exfalso. apply (not_elem_of_nil
        (PrefixRuleMatch prefix (rule_decision r) None (justification r) : RuleMatch abs_path)).
      apply Helem. exists r. split; [done|]. apply rule_matches_spec. eauto.
    + intros _. rewrite Hm. split; [|done]. simpl in Hin. set_solver.
  - apply from_matches_Some in Hev as (Hm & Hin & Hle). split.
    + intros _. split.
      * intros r Hr (prefix & tail & Hc & ->).
        apply (Hle (PrefixRuleMatch prefix (rule_decision r) None (justification r))).
        apply Helem. exists r. split; [done|]. apply rule_matches_spec. eauto.
      * apply list_elem_of_fmap in Hin as (m & -> & Hm').
        apply Helem in Hm' as (r & Hr & (prefix & tail & ? & ? & ->)%rule_matches_spec).
        exists r. split; [done|]. split; [by exists prefix, tail|done].
    + intros Hno. exfalso. assert (m0 ∈ m0 :: ms) as Hm' by set_solver.
      apply Helem in Hm' as (r & Hr & (prefix & tail & ? & ? & _)%rule_matches_spec).
      apply (Hno r Hr). by exists prefix, tail.
Qed.

(** Several commands are judged together by the strictest of their
    individual decisions; the evaluation panics exactly when there is no
    command at all. *)
Theorem check_multiple_spec p cmds h options :
  match check_multiple_with_options p cmds h options with
  | None => cmds = []
  | Some ev =>
      (∀ cmd, cmd ∈ cmds → ∃ e, check_with_options p cmd h options = Some e ∧
         decision_le (ev_decision e) (ev_decision ev)) ∧
      (∃ cmd e, cmd ∈ cmds ∧ check_with_options p cmd h options = Some e ∧
         ev_decision e = ev_decision ev)
  end.
Proof.
  unfold check_multiple_with_options. destruct (from_matches _) as [ev|] eqn:Hev.
  - apply from_matches_Some in Hev as (_ & Hin & Hle).
    assert (∀ cmd m, cmd ∈ cmds → m ∈ matches_for_command_with_options p cmd (Some h) options →
      decision_le (match_decision m) (ev_decision ev)) as Hall.
    { intros cmd m Hc Hm. apply Hle, list_elem_of_join. eexists. split; [exact Hm|].
      by apply list_elem_of_fmap_2'  with cmd. }
    split.
    + intros cmd Hc. destruct (check_total p cmd h options) as (e & He). exists e.
      split; [done|]. apply from_matches_Some in He as (_ & He & _).
      apply list_elem_of_fmap in He as (m & -> & Hm). by apply (Hall cmd).
    + apply list_elem_of_fmap in Hin as (m & Hm & Hj).
      apply list_elem_of_join in Hj as (ms & Hmms & Hms).
      apply list_elem_of_fmap in Hms as (cmd & -> & Hc).
      destruct (check_total p cmd h options) as (e & He). exists cmd, e.
      split; [done|]. split; [done|]. apply from_matches_Some in He as (_ & He & Hle').
      apply decision_le_antisym.
      * apply list_elem_of_fmap in He as (m' & -> & Hm'). by apply (Hall cmd).
      * rewrite Hm. by apply Hle'.
  - apply from_matches_None in Hev. destruct cmds as [|cmd cmds]; [done|]. simpl in Hev.
    apply app_eq_nil in Hev as [Hev _]. by apply matches_nonempty in Hev.
Qed.

(** ** Overlays *)

Lemma rules_multi_insert (k k' : str) (r : PrefixRule) (m : rule_map) :
  default [] (multi_insert k r m !! k') =
  default [] (m !! k') ++ (if decide (k = k') then [r] else []).
Proof.
  unfold multi_insert. destruct (decide (k = k')) as [<-|Hne].
  - by rewrite lookup_insert_eq.
  - by rewrite lookup_insert_ne, app_nil_r.
Qed.

Lemma rules_multi_extend (k k' : str) (rs : list PrefixRule) : ∀ m : rule_map,
  default [] (multi_extend k rs m !! k') =
  default [] (m !! k') ++ (if decide (k = k') then rs else []).
Proof.
  unfold multi_extend. induction rs as [|r rs IH]; intros m; simpl.
  - by case_decide; rewrite app_nil_r.
  - rewrite IH, rules_multi_insert. case_decide; by rewrite <- app_assoc.
Qed.

Lemma foldl_extend (k : str) (l : list (str * list PrefixRule)) : ∀ m : rule_map,
  NoDup l.*1 →
  default [] (foldl (λ m '(program, rules), multi_extend program rules m) m l !! k) =
  default [] (m !! k) ++ default [] ((list_to_map l : rule_map) !! k).
Proof.
  induction l as [|[k' rs] l IH]; intros m Hnd; simpl.
  - by rewrite lookup_empty, app_nil_r.
  - apply NoDup_cons in Hnd as [Hk' Hnd]. rewrite IH, rules_multi_extend by done.
    destruct (decide (k' = k)) as [->|Hne].
    + rewrite lookup_insert_eq. rewrite not_elem_of_list_to_map_1 by done. simpl.
      by rewrite app_nil_r.
    + by rewrite lookup_insert_ne, app_nil_r.
Qed.

Lemma rules_for_merge p o k : rules_for (merge_overlay p o) k = rules_for p k ++ rules_for o k.
Proof.
  unfold rules_for. simpl. rewrite foldl_extend by apply NoDup_fst_map_to_list.
  by rewrite list_to_map_to_list.
Qed.

Lemma policy_wf_rules p :
  policy_wf p ↔ ∀ k, Forall (λ r, first (pattern r) = k) (rules_for p k).
Proof.
  unfold policy_wf, rules_for. split.
  - intros Hwf k. destruct (rules_by_program p !! k) eqn:Hk; [by apply Hwf|constructor].
  - intros Hwf k rs Hk. specialize (Hwf k). by rewrite Hk in Hwf.
Qed.

Lemma merge_overlay_wf p o : policy_wf p → policy_wf o → policy_wf (merge_overlay p o).
Proof.
  rewrite !policy_wf_rules. intros Hp Ho k. rewrite rules_for_merge. apply Forall_app. auto.
Qed.

Lemma add_prefix_rule_wf p prefix d p' :
  add_prefix_rule p prefix d = Ok p' → policy_wf p → policy_wf p'.
Proof.
  unfold add_prefix_rule. destruct prefix as [|f args]; [done|]. intros [= <-].
  rewrite !policy_wf_rules. intros Hp k. unfold rules_for; simpl. rewrite rules_multi_insert.
  apply Forall_app. split; [apply Hp|]. case_decide; [by apply Forall_singleton|constructor].
Qed.

Lemma in_policy_merge p o r : in_policy (merge_overlay p o) r ↔ in_policy p r ∨ in_policy o r.
Proof.
  unfold in_policy. setoid_rewrite rules_for_merge. setoid_rewrite elem_of_app. naive_solver.
Qed.

Lemma exact_matches_merge p o cmd :
  default [] (match_exact_rules (merge_overlay p o) cmd) =
  default [] (match_exact_rules p cmd) ++ default [] (match_exact_rules o cmd).
Proof.
  destruct cmd as [|k args]; [done|].
  assert (∀ q, default [] (match_exact_rules q (k :: args)) =
               omap (λ r, rule_matches r (k :: args)) (rules_for q k)) as Hq.
  { intros q. unfold match_exact_rules, rules_for. by destruct (rules_by_program q !! k). }
  by rewrite !Hq, rules_for_merge, omap_app.
Qed.

(** An overlay adds rules and never weakens a decision the base policy
    makes: the combined policy has exactly the rules of both, is well formed
    when they are, and where a rule of the base covers the command, the combined
    decision is at least as strict as the decision of the base. *)
Theorem merge_overlay_stricter p o :
  (∀ r, in_policy (merge_overlay p o) r ↔ in_policy p r ∨ in_policy o r) ∧
  (policy_wf p → policy_wf o → policy_wf (merge_overlay p o)) ∧
  ∀ cmd h ev, check p cmd h = Some ev → is_match ev = true →
    ∃ ev', check (merge_overlay p o) cmd h = Some ev' ∧
      decision_le (ev_decision ev) (ev_decision ev').
Proof.
  split; [apply in_policy_merge|]. split; [apply merge_overlay_wf|]. intros cmd h ev Hev Hm.
  destruct (check_total (merge_overlay p o) cmd h default_match_options) as (ev' & Hev').
  exists ev'. split; [done|]. unfold check, check_with_options in Hev, Hev'.
  rewrite matches_default in Hev, Hev'. rewrite exact_matches_merge in Hev'.
  apply from_matches_Some in Hev as (Hms & Hin & _).
  destruct (default [] (match_exact_rules p cmd)) as [|m ms] eqn:Hp; simpl in Hms, Hin.
  { unfold is_match in Hm. rewrite Hms in Hm. done. }
  apply from_matches_Some in Hev' as (_ & _ & Hle). simpl in Hle.
  change (ev_decision ev ∈ match_decision <$> m :: ms) in Hin.
  apply list_elem_of_fmap in Hin as (m' & -> & Hm'). apply Hle.
  change (m' ∈ (m :: ms) ++ default [] (match_exact_rules o cmd)). set_solver.
Qed.

(** ** Allowed prefixes *)

Lemma elem_of_all_rules p r : r ∈ all_rules p ↔ in_policy p r.
Proof.
  unfold all_rules, in_policy, rules_for. rewrite list_elem_of_join. split.
  - intros (rs & Hr & ([k rs'] & -> & Hk)%list_elem_of_fmap). apply elem_of_map_to_list in Hk.
    exists k. by rewrite Hk.
  - intros (k & Hr). destruct (rules_by_program p !! k) as [rs|] eqn:Hk; [|set_solver].
    exists rs. split; [done|]. apply list_elem_of_fmap. exists (k, rs).
    split; [done|]. by apply elem_of_map_to_list.
Qed.

(** The listing of allowed prefixes shows each allowed prefix once, in
    strictly ascending order, and shows exactly the renderings of the rules
    that allow. *)
Theorem allowed_prefixes_spec p :
  StronglySorted prefix_lt (get_allowed_prefixes p) ∧
  ∀ prefix, prefix ∈ get_allowed_prefixes p ↔
    ∃ r, in_policy p r ∧ rule_decision r = Allow ∧ render_prefix r = prefix.
Proof.
  unfold get_allowed_prefixes. split.
  - apply dedup_sorted, StronglySorted_merge_sort; apply _.
  - intros prefix. rewrite elem_of_dedup, merge_sort_Permutation, list_elem_of_fmap.
    setoid_rewrite list_elem_of_filter. setoid_rewrite elem_of_all_rules. unfold is_allow.
    setoid_rewrite bool_decide_eq_true. naive_solver.
Qed.

(** ** Host executables *)

(** A basename rule is only applied to an absolute program path that is
    trusted for that name: every match reported with a resolved program comes
    from a rule of the program's basename, and if the policy lists the host
    executables of that name, the program is one of them. *)
Theorem resolved_program_trusted p first args h options prefix d prog j :
  PrefixRuleMatch prefix d (Some prog) j
    ∈ matches_for_command_with_options p (first :: args) h options →
  resolve_host_executables options = true ∧ try_from first = Some prog ∧
  ∃ basename, executable_path_lookup_key prog = Some basename ∧
    (∀ paths, host_executables_by_name p !! basename = Some paths → prog ∈ paths) ∧
    ∃ r, r ∈ rules_for p basename ∧ rule_decision r = d ∧ justification r = j ∧
      covers (pattern r) prefix ∧ ∃ tail, basename :: args = prefix ++ tail.
Proof.
  assert (∀ m, m ∈ default [] (match_exact_rules p (first :: args)) →
    ∀ a b c, m ≠ PrefixRuleMatch a b (Some prog) c) as Hexact.
  { intros m Hm a b c ->. apply elem_of_match_exact in Hm as (k & r & _ & _ & Hr).
    apply rule_matches_spec in Hr as (? & ? & _ & _ & [=]). }
  intros Hin.
  assert (PrefixRuleMatch prefix d (Some prog) j ∈ match_host_executable_rules p (first :: args)
          ∧ resolve_host_executables options = true) as [Hhost Hopt].
  { unfold matches_for_command_with_options in Hin. cbv zeta in Hin.
    set (ex := default [] (match_exact_rules p (first :: args))) in *.
    assert (PrefixRuleMatch prefix d (Some prog) j ∈ if negb (is_empty ex) then ex
            else if resolve_host_executables options
                 then match_host_executable_rules p (first :: args) else []) as Hm.
    { destruct h as [h|]; [|done]. destruct (is_empty (if negb _ then _ else _)); [|done].
      apply list_elem_of_singleton in Hin. done. }
    destruct (is_empty ex); simpl in Hm; [|by destruct (Hexact _ Hm prefix d j)].
    destruct (resolve_host_executables options); [done|set_solver]. }
  clear Hin. unfold match_host_executable_rules in Hhost. destruct (try_from first) as [prog'|]; [|set_solver].
  destruct (executable_path_lookup_key prog') as [basename|] eqn:Hb; [|set_solver].
  destruct (rules_by_program p !! basename) as [rules|] eqn:Hr; [|set_solver].
  destruct (is_some_and _ _) eqn:Hpaths; [set_solver|].
  apply list_elem_of_fmap in Hhost as (m & Hm & Hmr).
  apply list_elem_of_omap in Hmr as (r & Hr' & Hrm).
  apply rule_matches_spec in Hrm as (pre & tail & Hc & Ht & ->).
  simpl in Hm. injection Hm as -> -> -> ->.
  split; [done|]. split; [done|]. exists basename. split; [done|]. split.
  - intros paths Hps. rewrite Hps in Hpaths. simpl in Hpaths. by bool_prop.
  - exists r. unfold rules_for. rewrite Hr. simpl. eauto 8.
Qed.

(** ** Network domains *)

(** The last rule about a host that is not a prompt. *)
Definition last_decision (rules : list NetworkRule) (h : str) : option Decision :=
  last (net_decision <$> base.filter (λ r, host r = h ∧ net_decision r ≠ Prompt) rules).

Lemma last_decision_snoc rules r h :
  last_decision (rules ++ [r]) h =
  if decide (host r = h ∧ net_decision r ≠ Prompt) then Some (net_decision r)
  else last_decision rules h.
Proof.
  unfold last_decision. rewrite filter_app, fmap_app, filter_cons, filter_nil.
  case_decide; simpl; [by rewrite last_snoc|by rewrite app_nil_r].
Qed.

Lemma compile_rules_spec rules :
  let '(allowed, denied) := foldl compile_rule ([], []) rules in
  NoDup allowed ∧ NoDup denied ∧
  ∀ h, (h ∈ allowed ↔ last_decision rules h = Some Allow) ∧
       (h ∈ denied ↔ last_decision rules h = Some Forbidden).
Proof.
  clear. induction rules as [|r rules IH] using rev_ind.
  - simpl. split; [constructor|]. split; [constructor|]. intros h. unfold last_decision. simpl.
    split; split; set_solver || done.
  - rewrite foldl_app. destruct (foldl compile_rule ([], []) rules) as [al de].
    destruct IH as (Hal & Hde & Hspec). simpl. unfold compile_rule, upsert_domain.
    assert (∀ l : list str, NoDup l → NoDup (base.filter (.≠ host r) l ++ [host r])) as Hup.
    { intros l Hl. apply NoDup_app. split; [by apply NoDup_filter|]. split; [|by apply NoDup_singleton].
      intros x Hx. apply list_elem_of_filter in Hx. set_solver. }
    destruct (net_decision r) eqn:Hd; (split; [auto using NoDup_filter|]);
      (split; [auto using NoDup_filter|]); intros h; rewrite last_decision_snoc, Hd;
      destruct (Hspec h) as [H1 H2]; case_decide as Hdec.
    all: rewrite ?elem_of_app, ?list_elem_of_filter, ?list_elem_of_singleton.
    all: try (destruct Hdec as [<- Hdec]).
    all: try (assert (h ≠ host r) by (intros ->; apply Hdec; done)).
    all: intuition congruence.
Qed.

(** The compiled network domains are the verdicts of the last word on each
    host: a host is allowed (denied) exactly when the last rule about it that
    is not a prompt allows (forbids) it; the lists have no duplicates and no
    host is on both. *)
Theorem compiled_domains_last_wins p allowed denied :
  compiled_network_domains p = (allowed, denied) →
  NoDup allowed ∧ NoDup denied ∧ (∀ h, h ∈ allowed → h ∉ denied) ∧
  ∀ h, (h ∈ allowed ↔ last_decision (network_rules p) h = Some Allow) ∧
       (h ∈ denied ↔ last_decision (network_rules p) h = Some Forbidden).
Proof.
  unfold compiled_network_domains. intros H.
  pose proof (compile_rules_spec (network_rules p)) as Hs. rewrite H in Hs.
  destruct Hs as (Ha & Hd & Hs). split_and!; [done..| |done].
  intros h Hh Hh'. destruct (Hs h) as [H1 H2]. apply H1 in Hh. apply H2 in Hh'. congruence.
Qed.

End policy.
