(* ===== verification/ExecPolicyParser.v ===== *)
(** * Building a policy from rule files

    [codex-rs/execpolicy/src/parser.rs], the example checks of [rule.rs] and
    [load_policies] of [execpolicycheck.rs].  A rule file is a Starlark module;
    the interpreter is a parameter that gives the calls the module makes to the
    three builtins, in order: the builtins all return [None], so what they do
    cannot influence which call comes next, except that an error ends the
    module. *)

From S2P Require Import Prelude RustStr UnixPath ExecRule ExecPolicy.

(** ** Starlark values, as far as the builtins look at them *)

Inductive Value :=
| VStr (s : str)
| VList (l : list Value)
| VOther (type_name : str).

Definition unpack_str (v : Value) : option str :=
  match v with VStr s => Some s | _ => None end.

Definition get_type (v : Value) : str :=
  match v with VStr _ => lit "string" | VList _ => lit "list" | VOther t => t end.

(** ** Patterns and examples *)

Definition parse_pattern_token (v : Value) : result PatternToken Error :=
  match v with
  | VStr s => Ok (Single s)
  | VList content =>
      let? tokens :=
        rmapM (λ v, ok_or (unpack_str v)
          (InvalidPattern (lit "pattern alternative must be a string (got " ++ get_type v
                           ++ lit ")"))) content in
      match tokens with
      | [] => Err (InvalidPattern (lit "pattern alternatives cannot be empty"))
      | [single] => Ok (Single single)
      | _ => Ok (Alts tokens)
      end
  | VOther t =>
      Err (InvalidPattern
             (lit "pattern element must be a string or list of strings (got " ++ t ++ lit ")"))
  end.

Definition parse_pattern (items : list Value) : result (list PatternToken) Error :=
  let? tokens := rmapM parse_pattern_token items in
  if is_empty tokens then Err (InvalidPattern (lit "pattern cannot be empty")) else Ok tokens.

Definition parse_list_example (content : list Value) : result (list str) Error :=
  let? tokens :=
    rmapM (λ v, ok_or (unpack_str v)
      (InvalidExample (lit "example tokens must be strings (got " ++ get_type v ++ lit ")")))
      content in
  if is_empty tokens then Err (InvalidExample (lit "example cannot be an empty list"))
  else Ok tokens.

Definition parse_network_rule_decision (raw : str) : result Decision Error :=
  if bool_decide (raw = lit "deny") then Ok Forbidden else parse_decision raw.

Definition validate_host_executable_name (name : str) : result unit Error :=
  if is_empty name then Err (InvalidRule (lit "host_executable name cannot be empty"))
  else if negb (length (components name) =? 1)
          || negb (bool_decide (path_file_name name = Some name))
  then Err (InvalidRule
         (lit "host_executable name must be a bare executable name (got " ++ name ++ lit ")"))
  else Ok ().

Definition attach_validation_location (e : Error) (location : option ErrorLocation) : Error :=
  match location with Some l => with_location e l | None => e end.

Definition parse_justification (j : option str) : result (option str) Error :=
  match j with
  | Some raw =>
      if is_empty (trim raw) then Err (InvalidRule (lit "justification cannot be empty"))
      else Ok (Some raw)
  | None => Ok None
  end.

(** The rules a pattern stands for: one per alternative of its first token. *)
Definition expand_rules (tokens : list PatternToken) (decision : Decision)
    (justification : option str) : list PrefixRule :=
  match tokens with
  | [] => []
  | first_token :: rest =>
      (λ head, {| pattern := {| first := head; rest := rest |}; rule_decision := decision;
                  justification := justification |}) <$> alternatives first_token
  end.

(** ** Calls of a module *)

Inductive call :=
| CallPrefixRule (pattern : list Value) (decision : option str) (match_ : option (list Value))
    (not_match : option (list Value)) (justification : option str)
    (location : option ErrorLocation)
| CallNetworkRule (host protocol decision : str) (justification : option str)
| CallHostExecutable (name : str) (paths : list Value).

Section parser.
Context {abs_path : Type} `{!EqDecision abs_path}
  (try_from : str → result abs_path str) (file_name : abs_path → option str).
(** [shlex] and the derived [Debug] text of a rule and of a match. *)
Context (shlex_split : str → option (list str)) (try_join : list str → option str)
  (fmt_rule : PrefixRule → str) (fmt_match : RuleMatch abs_path → str).
(** The interpreter: [Err] if the module does not parse; otherwise the calls
    and how the module ends if none of them fails.  [starlark_error] is the
    error around a failed call. *)
Context (starlark : str → str → result (list call * result unit Error) Error)
  (starlark_error : Error → Error).

Abbreviation policy := (@Policy abs_path).

Definition ok {A E} (r : result A E) : option A :=
  match r with Ok a => Some a | Err _ => None end.

(** ** Example checks (rule.rs) *)

Definition example_matches (p : policy) (example : list str) : list (RuleMatch abs_path) :=
  matches_for_command_with_options (λ s, ok (try_from s)) file_name p example None
    {| resolve_host_executables := true |}.

Definition render_example (example : list str) : str :=
  default (lit "unable to render example") (try_join example).

Definition validate_match_examples (p : policy) (rules : list PrefixRule)
    (matches : list (list str)) : result unit Error :=
  let unmatched := base.filter (λ e, is_empty (example_matches p e) = true) matches in
  if is_empty unmatched then Ok ()
  else Err (ExampleDidNotMatch (fmt_rule <$> rules) (render_example <$> unmatched) None).

Fixpoint validate_not_match_examples (p : policy) (not_matches : list (list str))
  : result unit Error :=
  match not_matches with
  | [] => Ok ()
  | example :: rest =>
      match example_matches p example with
      | m :: _ => Err (ExampleDidMatch (fmt_match m) (render_example example) None)
      | [] => validate_not_match_examples p rest
      end
  end.

(** ** The builder *)

Record PendingExampleValidation := {
  pending_rules : list PrefixRule;
  pending_matches : list (list str);
  pending_not_matches : list (list str);
  pending_location : option ErrorLocation;
}.

Record PolicyBuilder := {
  b_rules : rule_map;
  b_network_rules : list NetworkRule;
  b_host_executables : gmap str (list abs_path);
  b_pending : list PendingExampleValidation;
}.

Definition new_builder : PolicyBuilder :=
  {| b_rules := ∅; b_network_rules := []; b_host_executables := ∅; b_pending := [] |}.

Definition add_rule (r : PrefixRule) (b : PolicyBuilder) : PolicyBuilder :=
  {| b_rules := multi_insert (program r) r (b_rules b); b_network_rules := b_network_rules b;
     b_host_executables := b_host_executables b; b_pending := b_pending b |}.

Definition builder_add_network_rule (r : NetworkRule) (b : PolicyBuilder) : PolicyBuilder :=
  {| b_rules := b_rules b; b_network_rules := b_network_rules b ++ [r];
     b_host_executables := b_host_executables b; b_pending := b_pending b |}.

Definition add_host_executable (name : str) (paths : list abs_path) (b : PolicyBuilder)
  : PolicyBuilder :=
  {| b_rules := b_rules b; b_network_rules := b_network_rules b;
     b_host_executables := <[name := paths]> (b_host_executables b); b_pending := b_pending b |}.

Definition add_pending_example_validation (v : PendingExampleValidation) (b : PolicyBuilder)
  : PolicyBuilder :=
  {| b_rules := b_rules b; b_network_rules := b_network_rules b;
     b_host_executables := b_host_executables b; b_pending := b_pending b ++ [v] |}.

Definition validation_policy (b : PolicyBuilder) (rules : list PrefixRule) : policy :=
  {| rules_by_program := foldl (λ m r, multi_insert (program r) r m) ∅ rules;
     network_rules := []; host_executables_by_name := b_host_executables b |}.

Definition run_validation (b : PolicyBuilder) (v : PendingExampleValidation) : result unit Error :=
  let p := validation_policy b (pending_rules v) in
  let attach e := attach_validation_location e (pending_location v) in
  let? _ := rmap_err attach (validate_not_match_examples p (pending_not_matches v)) in
  rmap_err attach (validate_match_examples p (pending_rules v) (pending_matches v)).

(** [&self.pending_example_validations[start..]]; [start] is a length seen
    before, so the slice is in range. *)
Definition validate_pending_examples_from (b : PolicyBuilder) (start : nat) : result unit Error :=
  rmap (λ _, ()) (rmapM (run_validation b) (drop start (b_pending b))).

Definition build (b : PolicyBuilder) : policy :=
  {| rules_by_program := b_rules b; network_rules := b_network_rules b;
     host_executables_by_name := b_host_executables b |}.

(** ** The builtins *)

Definition parse_string_example (raw : str) : result (list str) Error :=
  let? tokens :=
    ok_or (shlex_split raw) (InvalidExample (lit "example string has invalid shell syntax")) in
  if is_empty tokens then Err (InvalidExample (lit "example cannot be an empty string"))
  else Ok tokens.

Definition parse_example (v : Value) : result (list str) Error :=
  match v with
  | VStr raw => parse_string_example raw
  | VList content => parse_list_example content
  | VOther t =>
      Err (InvalidExample (lit "example must be a string or list of strings (got " ++ t ++ lit ")"))
  end.

Definition parse_examples (items : list Value) : result (list (list str)) Error :=
  rmapM parse_example items.

Definition parse_opt_examples (o : option (list Value)) : result (list (list str)) Error :=
  match o with Some items => parse_examples items | None => Ok [] end.

Definition prefix_rule (b : PolicyBuilder) (items : list Value) (decision : option str)
    (match_ not_match : option (list Value)) (justification : option str)
    (location : option ErrorLocation) : PolicyBuilder * result unit Error :=
  let parsed :=
    let? decision := match decision with Some raw => parse_decision raw | None => Ok Allow end in
    let? justification := parse_justification justification in
    let? tokens := parse_pattern items in
    let? matches := parse_opt_examples match_ in
    let? not_matches := parse_opt_examples not_match in
    Ok (expand_rules tokens decision justification, matches, not_matches) in
  match parsed with
  | Err e => (b, Err e)
  | Ok (rules, matches, not_matches) =>
      let b := add_pending_example_validation
                 {| pending_rules := rules; pending_matches := matches;
                    pending_not_matches := not_matches; pending_location := location |} b in
      (foldl (λ b r, add_rule r b) b rules, Ok ())
  end.

Definition network_rule (b : PolicyBuilder) (host protocol decision : str)
    (justification : option str) : PolicyBuilder * result unit Error :=
  let parsed :=
    let? protocol := parse_protocol protocol in
    let? decision := parse_network_rule_decision decision in
    let? justification := parse_justification justification in
    let? host := normalize_network_rule_host host in
    Ok {| host := host; protocol := protocol; net_decision := decision;
          net_justification := justification |} in
  match parsed with
  | Err e => (b, Err e)
  | Ok r => (builder_add_network_rule r b, Ok ())
  end.

Definition parse_literal_absolute_path (raw : str) : result abs_path Error :=
  if negb (is_absolute raw)
  then Err (InvalidRule (lit "host_executable paths must be absolute (got " ++ raw ++ lit ")"))
  else
    rmap_err (λ e, InvalidRule (lit "invalid absolute path `" ++ raw ++ lit "`: " ++ e))
      (try_from raw).

Fixpoint parse_host_paths (name : str) (paths : list Value) (parsed : list abs_path)
  : result (list abs_path) Error :=
  match paths with
  | [] => Ok parsed
  | v :: rest =>
      let? raw :=
        ok_or (unpack_str v)
          (InvalidRule (lit "host_executable paths must be strings (got " ++ get_type v
                        ++ lit ")")) in
      let? path := parse_literal_absolute_path raw in
      if bool_decide (executable_path_lookup_key file_name path
                      = Some (executable_lookup_key name))
      then parse_host_paths name rest
             (if bool_decide (path ∈ parsed) then parsed else parsed ++ [path])
      else Err (InvalidRule (lit "host_executable path `" ++ raw ++ lit "` must have basename `"
                             ++ name ++ lit "`"))
  end.

Definition host_executable (b : PolicyBuilder) (name : str) (paths : list Value)
  : PolicyBuilder * result unit Error :=
  match (let? _ := validate_host_executable_name name in parse_host_paths name paths []) with
  | Err e => (b, Err e)
  | Ok parsed => (add_host_executable (executable_lookup_key name) parsed b, Ok ())
  end.

(** ** Parsing a file *)

Definition run_call (b : PolicyBuilder) (c : call) : PolicyBuilder * result unit Error :=
  match c with
  | CallPrefixRule items decision match_ not_match justification location =>
      prefix_rule b items decision match_ not_match justification location
  | CallNetworkRule host protocol decision justification =>
      network_rule b host protocol decision justification
  | CallHostExecutable name paths => host_executable b name paths
  end.

(** A failed call ends the module; what earlier calls added stays. *)
Fixpoint run_calls (b : PolicyBuilder) (cs : list call) : PolicyBuilder * result unit Error :=
  match cs with
  | [] => (b, Ok ())
  | c :: cs' =>
      match run_call b c with
      | (b, Ok _) => run_calls b cs'
      | (b, Err e) => (b, Err (starlark_error e))
      end
  end.

Definition parse (b : PolicyBuilder) (policy_identifier contents : str)
  : PolicyBuilder * result unit Error :=
  let pending_validation_count := length (b_pending b) in
  match starlark policy_identifier contents with
  | Err e => (b, Err e)
  | Ok (calls, ending) =>
      match run_calls b calls with
      | (b, Err e) => (b, Err e)
      | (b, Ok _) =>
          match ending with
          | Err e => (b, Err e)
          | Ok _ => (b, validate_pending_examples_from b pending_validation_count)
          end
      end
  end.

(** [load_policies], once the files have been read. *)
Fixpoint load_policies (b : PolicyBuilder) (files : list (str * str)) : result policy Error :=
  match files with
  | [] => Ok (build b)
  | (policy_identifier, contents) :: files' =>
      match parse b policy_identifier contents with
      | (b, Ok _) => load_policies b files'
      | (_, Err e) => Err e
      end
  end.

(** ** The builder's invariant *)

(** Rules are stored under their program, hosts are normalised, and the listed
    executables of a name have that name and are listed once. *)
Definition builder_wf (b : PolicyBuilder) : Prop :=
  policy_wf (build b) ∧
  Forall (λ r, host_wf (host r)) (b_network_rules b) ∧
  map_Forall (λ name paths, NoDup paths ∧
    Forall (λ path, executable_path_lookup_key file_name path = Some name) paths)
    (b_host_executables b).

Lemma new_builder_wf : builder_wf new_builder.
Proof.
  split; [apply map_Forall_empty|]. split; [constructor|apply map_Forall_empty].
Qed.

Lemma rules_for_add_rule b r k :
  rules_for (build (add_rule r b)) k =
  rules_for (build b) k ++ (if decide (program r = k) then [r] else []).
Proof. unfold rules_for. simpl. apply rules_multi_insert. Qed.

Lemma add_rule_wf r b : builder_wf b → builder_wf (add_rule r b).
Proof.
  intros (Hr & Hn & Hh). split; [|done]. rewrite policy_wf_rules in *. intros k.
  rewrite rules_for_add_rule. apply Forall_app. split; [apply Hr|].
  case_decide; [by apply Forall_singleton|constructor].
Qed.

Lemma add_rules_wf rules : ∀ b, builder_wf b → builder_wf (foldl (λ b r, add_rule r b) b rules).
Proof. induction rules as [|r rules IH]; intros b Hb; simpl; [done|]. by apply IH, add_rule_wf. Qed.

Lemma parse_host_paths_ok name paths : ∀ parsed out,
  parse_host_paths name paths parsed = Ok out →
  NoDup parsed → Forall (λ p, executable_path_lookup_key file_name p = Some name) parsed →
  NoDup out ∧ Forall (λ p, executable_path_lookup_key file_name p = Some name) out.
Proof.
  induction paths as [|v paths IH]; intros parsed out; simpl; [by intros [= <-]|].
  destruct (unpack_str v) as [raw|]; [|done]. simpl.
  destruct (parse_literal_absolute_path raw) as [path|]; [|done]. simpl.
  case_bool_decide as Hname; [|done]. intros H Hnd Hall. apply (IH _ _ H); case_bool_decide; try done.
  - apply NoDup_app. split; [done|]. split; [|apply NoDup_singleton]. set_solver.
  - apply Forall_app. split; [done|]. by apply Forall_singleton.
Qed.

Lemma run_call_wf b c b' r : run_call b c = (b', r) → builder_wf b → builder_wf b'.
Proof.
  intros H Hb. destruct c as [items d m nm j loc|h p d j|name paths]; simpl in H.
  - unfold prefix_rule in H. cbv zeta in H.
    match type of H with match ?x with _ => _ end = _ => destruct x as [[[rules ms] nms]|] end;
      [|by simplify_eq]. injection H as <- <-. by apply add_rules_wf.
  - unfold network_rule in H.
    destruct (parse_protocol p); simpl in H; [|by simplify_eq].
    destruct (parse_network_rule_decision d); simpl in H; [|by simplify_eq].
    destruct (parse_justification j); simpl in H; [|by simplify_eq].
    destruct (normalize_network_rule_host h) eqn:Hh; simpl in H; simplify_eq; [|done].
    destruct Hb as (? & Hn & ?). split; [done|]. split; [|done]. simpl.
    apply Forall_app. split; [done|]. apply Forall_singleton. simpl. by eapply normalize_host_wf.
  - unfold host_executable in H. destruct (validate_host_executable_name name); simpl in H;
      [|by simplify_eq]. destruct (parse_host_paths name paths []) as [out|] eqn:Hp; simplify_eq; [|done].
    destruct Hb as (? & ? & Hh). split; [done|]. split; [done|]. simpl.
    apply map_Forall_insert_2; [|done]. eapply parse_host_paths_ok; [exact Hp|constructor..].
Qed.

Lemma run_calls_wf cs : ∀ b b' r, run_calls b cs = (b', r) → builder_wf b → builder_wf b'.
Proof.
  induction cs as [|c cs IH]; intros b b' r; simpl; [by intros; simplify_eq|].
  destruct (run_call b c) as [b1 [[]|e]] eqn:Hc; intros H Hb.
  - eapply IH; [exact H|]. by eapply run_call_wf.
  - simplify_eq. by eapply run_call_wf.
Qed.

Lemma parse_builder_wf b id text b' r : parse b id text = (b', r) → builder_wf b → builder_wf b'.
Proof.
  unfold parse. destruct (starlark id text) as [[cs ending]|]; [|by intros; simplify_eq].
  destruct (run_calls b cs) as [b1 [[]|]] eqn:Hr; intros H Hb;
    apply (run_calls_wf _ _ _ _ Hr) in Hb; [destruct ending|]; by simplify_eq.
Qed.

(** Parsing keeps the builder well formed, whether the file is accepted
    or rejected halfway: every rule is stored under its own program, every
    network host is normalised, and every executable listed for a name has
    that basename and is listed once. *)
Theorem parse_preserves_wf b id text b' r :
  parse b id text = (b', r) → builder_wf b → builder_wf b'.
Proof. apply parse_builder_wf. Qed.

(** A loaded policy satisfies the hypothesis of the policy's theorems. *)
Lemma load_policies_wf files : ∀ b p,
  builder_wf b → load_policies b files = Ok p → policy_wf p.
Proof.
  induction files as [|[id text] files IH]; intros b p Hb; simpl.
  - intros [= <-]. apply Hb.
  - destruct (parse b id text) as [b1 [[]|]] eqn:Hp; [|done]. apply IH.
    by eapply parse_builder_wf.
Qed.

(** ** What a prefix rule means *)

Lemma in_policy_add_rules rules : ∀ b r,
  in_policy (build (foldl (λ b r, add_rule r b) b rules)) r ↔ in_policy (build b) r ∨ r ∈ rules.
Proof.
  clear. induction rules as [|r0 rules IH]; intros b r; simpl; [set_solver|].
  rewrite IH. unfold in_policy. setoid_rewrite rules_for_add_rule. setoid_rewrite elem_of_app.
  rewrite elem_of_cons. split.
  - intros [(k & [Hk|Hk])|Hr]; [by left; eauto| |by right; right].
    case_decide; [apply list_elem_of_singleton in Hk; auto|set_solver].
  - intros [(k & Hk)|[->|Hr]]; [by left; eauto| |by right].
    left. exists (program r0). right. rewrite decide_True by done. set_solver.
Qed.

Lemma expand_rules_cover tokens d j cmd :
  tokens ≠ [] →
  (∃ r, r ∈ expand_rules tokens d j ∧ covers_command r cmd) ↔
  ∃ prefix tail, cmd = prefix ++ tail ∧ Forall2 (λ t c, c ∈ alternatives t) tokens prefix.
Proof.
  clear. destruct tokens as [|t ts]; [done|]. intros _. simpl. split.
  - intros (r & (h & -> & Hh)%list_elem_of_fmap & (prefix & tail & (args & -> & Ha) & ->)).
    simpl in *. exists (h :: args), tail. split; [done|]. by constructor.
  - intros (prefix & tail & -> & Hp). inversion Hp as [|? h ? args Hh Ha]; subst.
    eexists. split; [by apply list_elem_of_fmap_2|]. exists (h :: args), tail.
    split; [|done]. by exists args.
Qed.

(** Declaring a prefix rule adds rules of the stated decision that cover
    exactly the commands whose first tokens are, one by one, among the
    alternatives of the pattern's tokens; the other rules stay. *)
Theorem prefix_rule_meaning b items d ms nms j loc b' :
  prefix_rule b items d ms nms j loc = (b', Ok ()) →
  ∃ tokens decision rules,
    parse_pattern items = Ok tokens ∧
    match d with Some raw => parse_decision raw | None => Ok Allow end = Ok decision ∧
    (∀ r, in_policy (build b') r ↔ in_policy (build b) r ∨ r ∈ rules) ∧
    Forall (λ r, rule_decision r = decision) rules ∧
    ∀ cmd, (∃ r, r ∈ rules ∧ covers_command r cmd) ↔
      ∃ prefix tail, cmd = prefix ++ tail ∧ Forall2 (λ t c, c ∈ alternatives t) tokens prefix.
Proof.
  unfold prefix_rule. cbv zeta.
  destruct (match d with Some _ => _ | None => _ end) as [decision|]; [|done]. simpl.
  destruct (parse_justification j) as [j'|]; [|done]. simpl.
  destruct (parse_pattern items) as [tokens|] eqn:Ht; [|done]. simpl.
  destruct (parse_opt_examples ms) as [es|]; [|done]. simpl.
  destruct (parse_opt_examples nms) as [nes|]; [|done]. simpl. intros [= <-].
  assert (tokens ≠ []) as Hne.
  { unfold parse_pattern in Ht. destruct (rmapM _ _) as [ts|]; [|done]. simpl in Ht.
    destruct (is_empty ts) eqn:He; [done|]. injection Ht as <-. by apply is_empty_false. }
  exists tokens, decision, (expand_rules tokens decision j').
  split; [done|]. split; [done|]. split; [intros r; by rewrite in_policy_add_rules|].
  split; [|intros cmd; by apply expand_rules_cover].
  destruct tokens as [|t ts]; [done|]. apply Forall_forall.
  by intros r (h & -> & _)%list_elem_of_fmap.
Qed.

(** ** Examples *)

Definition validation_holds (b : PolicyBuilder) (v : PendingExampleValidation) : Prop :=
  Forall (λ e, example_matches (validation_policy b (pending_rules v)) e ≠ [])
    (pending_matches v) ∧
  Forall (λ e, example_matches (validation_policy b (pending_rules v)) e = [])
    (pending_not_matches v).

Lemma validate_match_examples_spec p rules es :
  validate_match_examples p rules es = Ok () ↔ Forall (λ e, example_matches p e ≠ []) es.
Proof.
  unfold validate_match_examples. rewrite Forall_forall.
  destruct (is_empty _) eqn:He.
  - split; [intros _|done]. intros e Hin Hno. apply is_empty_true in He.
    apply (not_elem_of_nil e). rewrite <- He. apply list_elem_of_filter.
    by rewrite is_empty_true.
  - split; [done|]. intros Hall. apply is_empty_false in He. exfalso. apply He.
    apply elem_of_nil_inv. intros e [Hno%is_empty_true Hin]%list_elem_of_filter.
    by apply (Hall e).
Qed.

Lemma validate_not_match_examples_spec p es :
  validate_not_match_examples p es = Ok () ↔ Forall (λ e, example_matches p e = []) es.
Proof.
  induction es as [|e es IH]; simpl; [done|]. rewrite Forall_cons, <- IH.
  destruct (example_matches p e) eqn:He; naive_solver.
Qed.

Lemma run_validation_spec b v : run_validation b v = Ok () ↔ validation_holds b v.
Proof.
  unfold run_validation, validation_holds.
  rewrite <- (validate_match_examples_spec _ (pending_rules v)).
  rewrite <- validate_not_match_examples_spec.
  destruct (validate_not_match_examples _ _) as [[]|]; simpl; [|naive_solver].
  destruct (validate_match_examples _ _ _) as [[]|]; simpl; naive_solver.
Qed.

Lemma rmapM_Ok {A B E} (f : A → result B E) l ys :
  rmapM f l = Ok ys → Forall2 (λ x y, f x = Ok y) l ys.
Proof.
  revert ys; induction l as [|x l IH]; intros ys; simpl; [intros [= <-]; constructor|].
  destruct (f x) as [y|] eqn:Hx; simpl; [|done].
  destruct (rmapM f l) as [ys'|]; simpl; [|done]. intros [= <-]. constructor; auto.
Qed.

(** An accepted file's examples hold: every rule it declares matches all
    its positive examples and none of its negative ones. *)
Theorem parse_examples_hold b id text b' :
  parse b id text = (b', Ok ()) →
  Forall (validation_holds b') (drop (length (b_pending b)) (b_pending b')).
Proof.
  unfold parse. destruct (starlark id text) as [[cs ending]|]; [|done].
  destruct (run_calls b cs) as [b1 [[]|]]; [|done]. destruct ending as [[]|]; [|done].
  intros [= <- H]. unfold validate_pending_examples_from in H.
  destruct (rmapM _ _) as [us|] eqn:Hm; [|done]. apply rmapM_Ok in Hm.
  apply Forall_forall. intros v (i & Hv)%list_elem_of_lookup.
  destruct (Forall2_lookup_l _ _ _ _ _ Hm Hv) as ([] & _ & Hr). by apply run_validation_spec.
Qed.

End parser.
