(* ===== verification/ExecPolicyAmend.v ===== *)
(** * Amending the saved rules

    [codex-rs/execpolicy/src/amend.rs] and [sandbox_migration.rs]: appending an
    approved rule to the rules file, and the one-shot removal of allow rules
    that are no longer offered.  Every file operation may fail; the faults are
    an argument of the operations.  JSON is a parameter. *)

From S2P Require Import Prelude RustStr ExecRule ExecFs.

Inductive AmendError :=
| EmptyPrefix
| InvalidNetworkRule (message : str)
| MissingParent (path : str)
| CreatePolicyDir (dir : str) (source : io_error)
| SerializePrefix (source : str)
| SerializeNetworkRule (source : str)
| OpenPolicyFile (path : str) (source : io_error)
| WritePolicyFile (path : str) (source : io_error)
| LockPolicyFile (path : str) (source : io_error)
| SeekPolicyFile (path : str) (source : io_error)
| ReadPolicyFile (path : str) (source : io_error).

(** Which operation fails, if any; a failed write has written some characters. *)
Record faults := {
  f_create_dir : option io_error;
  f_open : option io_error;
  f_lock : option io_error;
  f_seek : option io_error;
  f_read : option io_error;
  f_write_newline : option (io_error * nat);
  f_write_line : option (io_error * nat);
}.

Definition no_faults : faults :=
  {| f_create_dir := None; f_open := None; f_lock := None; f_seek := None; f_read := None;
     f_write_newline := None; f_write_line := None |}.

(** The directory and the rules file. *)
Record rules_fs := { dir_exists : bool; rules_file : option str }.

Definition set_file (contents : str) (s : rules_fs) : rules_fs :=
  {| dir_exists := dir_exists s; rules_file := Some contents |}.

(** [write_all] on a file opened for appending. *)
Definition append_all (text : str) (fault : option (io_error * nat)) (s : rules_fs)
  : rules_fs * result unit io_error :=
  let contents := default [] (rules_file s) in
  match fault with
  | None => (set_file (contents ++ text) s, Ok ())
  | Some (e, n) => (set_file (contents ++ take n text) s, Err e)
  end.

Definition check_fault {A} (fault : option io_error) (k : A) (err : io_error → A) : A :=
  match fault with Some e => err e | None => k end.

Definition append_locked_line (f : faults) (policy_path line : str) (s : rules_fs)
  : rules_fs * result unit AmendError :=
  check_fault (f_open f)
    (let s := set_file (default [] (rules_file s)) s in
     check_fault (f_lock f)
       (check_fault (f_seek f)
          (check_fault (f_read f)
             (let contents := default [] (rules_file s) in
              if bool_decide (line ∈ lines contents) then (s, Ok ())
              else
                let '(s, r) :=
                  if negb (is_empty contents) && negb (ends_with contents [nl])
                  then append_all [nl] (f_write_newline f) s else (s, Ok ()) in
                match r with
                | Err e => (s, Err (WritePolicyFile policy_path e))
                | Ok _ =>
                    let '(s, r) := append_all (line ++ [nl]) (f_write_line f) s in
                    (s, rmap_err (WritePolicyFile policy_path) r)
                end)
             (λ e, (s, Err (ReadPolicyFile policy_path e))))
          (λ e, (s, Err (SeekPolicyFile policy_path e))))
       (λ e, (s, Err (LockPolicyFile policy_path e))))
    (λ e, (s, Err (OpenPolicyFile policy_path e))).

(** ** Lines of an appended file *)

(** The pieces [split_inclusive] yields. *)
Fixpoint pieces (c : char) (ls : list str) : Prop :=
  match ls with
  | [] => True
  | l :: ls' => (∃ x, l = x ++ [c] ∧ c ∉ x ∧ pieces c ls') ∨ (ls' = [] ∧ l ≠ [] ∧ c ∉ l)
  end.

Lemma split_inclusive_pieces c s : pieces c (split_inclusive c s).
Proof.
  induction s as [|x s IH]; simpl; [done|]. destruct (N.eqb_spec x c) as [->|Hx].
  - left. exists []. split; [done|]. split; [set_solver|done].
  - destruct (split_inclusive c s) as [|l ls]; simpl.
    + right. split; [done|]. split; [done|set_solver].
    + destruct IH as [(y & -> & Hy & Hls)|(-> & Hl & Hc)].
      * left. exists (x :: y). split; [done|]. split; [set_solver|done].
      * right. split; [done|]. split; [done|set_solver].
Qed.

Lemma split_inclusive_concat c ls : pieces c ls → split_inclusive c (concat ls) = ls.
Proof.
  induction ls as [|l ls IH]; simpl; [done|]. intros [(x & -> & Hx & Hls)|(-> & Hl & Hc)].
  - rewrite <- app_assoc. simpl. by rewrite split_inclusive_app_nosep, IH.
  - simpl. rewrite app_nil_r. by apply split_inclusive_nosep.
Qed.

Lemma pieces_filter c (P : str → Prop) `{!∀ l, base.Decision (P l)} ls :
  pieces c ls → pieces c (base.filter P ls).
Proof.
  induction ls as [|l ls IH]; [done|]. rewrite filter_cons.
  intros [(x & -> & Hx & Hls)|(-> & Hl & Hc)]; case_decide; simpl; auto.
  left. eauto.
Qed.

(** Text whose last line is terminated. *)
Definition closed (s : str) : Prop := s = [] ∨ last s = Some nl.

Lemma split_inclusive_closed s t :
  closed s → split_inclusive nl (s ++ t) = split_inclusive nl s ++ split_inclusive nl t.
Proof.
  assert (∀ n s, length s ≤ n → closed s →
    split_inclusive nl (s ++ t) = split_inclusive nl s ++ split_inclusive nl t) as Hn.
  { clear s. induction n as [|n IH]; intros s Hl Hs; (destruct s as [|c s]; [done|simpl in Hl; try lia]).
    destruct Hs as [?|Hs]; [done|]. simpl.
    destruct (N.eqb_spec c nl) as [->|Hc].
    - rewrite IH; [done|lia|]. destruct s; [by left|right; done].
    - destruct s as [|d s]; [injection Hs; congruence|].
      rewrite IH; [|lia|right; done].
      destruct (split_inclusive nl (d :: s)) as [|l ls] eqn:Hd; [|done]. exfalso.
      apply (f_equal (@concat _)) in Hd. by rewrite concat_split_inclusive in Hd. }
  intros Hs. by eapply Hn.
Qed.

Lemma lines_closed s t : closed s → lines (s ++ t) = lines s ++ lines t.
Proof. intros Hs. unfold lines. by rewrite split_inclusive_closed, fmap_app. Qed.

Lemma lines_one l : plain_line l → lines (l ++ [nl]) = [l].
Proof.
  intros Hl. unfold lines. rewrite (split_inclusive_app_nosep nl l []) by apply Hl. simpl.
  by rewrite chomp_plain_nl.
Qed.

(** Terminating the last line does not change the lines, unless it ends in a
    carriage return. *)
Lemma lines_terminate s :
  s ≠ [] → last s ≠ Some nl → last s ≠ Some cr → lines (s ++ [nl]) = lines s.
Proof.
  intros Hne Hnl Hcr.
  assert (∃ s1 l, s = s1 ++ l ∧ closed s1 ∧ nl ∉ l ∧ l ≠ []) as (s1 & l & -> & Hs1 & Hl & Hlne).
  { clear Hcr. induction s as [|c s IH] using rev_ind; [done|].
    rewrite last_snoc in Hnl. assert (c ≠ nl) as Hc by congruence.
    destruct (decide (s = [])) as [->|Hs]; [exists [], [c]; split; [done|]; split; [by left|set_solver]|].
    destruct (decide (last s = Some nl)) as [Hl|Hl].
    - exists s, [c]. split; [done|]. split; [by right|set_solver].
    - destruct (IH Hs Hl) as (s1 & l & -> & ? & ? & ?). exists s1, (l ++ [c]).
      rewrite app_assoc. split; [done|]. split; [done|]. split; [set_solver|]. by destruct l. }
  rewrite <- app_assoc, !(lines_closed s1) by done. f_equal.
  rewrite lines_one.
  - unfold lines. rewrite split_inclusive_nosep by done. simpl. by rewrite chomp_nonl.
  - split; [done|]. intros l' ->. by rewrite app_assoc, last_snoc in Hcr.
Qed.

Lemma ends_with_nl s : ends_with s [nl] = true ↔ last s = Some nl.
Proof. rewrite ends_with_spec, last_Some. done. Qed.

Lemma join_not_elem c sep ls :
  c ∉ sep → Forall (λ l, c ∉ l) ls → c ∉ join sep ls.
Proof.
  intros Hsep. induction 1 as [|l ls Hl Hls IH]; [set_solver|].
  destruct ls as [|l' ls]; [done|]. rewrite join_cons by done. set_solver.
Qed.

Section amend.
(** [serde_json::to_string] on a string, [serde_json::from_str] on an array of
    strings, and [Path::parent]. *)
Context (to_json : str → result str str) (from_json : str → option (list str))
  (parent : str → option str).

Definition append_rule_line (f : faults) (policy_path rule : str) (s : rules_fs)
  : rules_fs * result unit AmendError :=
  match parent policy_path with
  | None => (s, Err (MissingParent policy_path))
  | Some dir =>
      let made := {| dir_exists := true; rules_file := rules_file s |} in
      if dir_exists s then append_locked_line f policy_path rule s
      else check_fault (f_create_dir f) (append_locked_line f policy_path rule made)
             (λ e, (s, Err (CreatePolicyDir dir e)))
  end.

(** A double quote; the literals of the source contain some. *)
Definition dq : str := [34%N].

Definition allow_rule_start : str := lit "prefix_rule(pattern=".
Definition allow_rule_end : str := lit ", decision=" ++ dq ++ lit "allow" ++ dq ++ lit ")".

Definition allow_rule_line (tokens : list str) : str :=
  allow_rule_start ++ (lit "[" ++ join (lit ", ") tokens ++ lit "]") ++ allow_rule_end.

Definition blocking_append_allow_prefix_rule (f : faults) (policy_path : str)
    (prefix : list str) (s : rules_fs) : rules_fs * result unit AmendError :=
  if is_empty prefix then (s, Err EmptyPrefix)
  else
    match rmapM to_json prefix with
    | Err e => (s, Err (SerializePrefix e))
    | Ok tokens => append_rule_line f policy_path (allow_rule_line tokens) s
    end.

Definition decision_name (d : Decision) : str :=
  match d with Allow => lit "allow" | Prompt => lit "prompt" | Forbidden => lit "deny" end.

(** [Error::to_string] for the errors of host normalisation. *)
Definition host_error_text (e : Error) : str :=
  match e with InvalidRule m => lit "invalid rule: " ++ m | _ => [] end.

Definition network_rule_line (host : str) (protocol : NetworkRuleProtocol) (decision : Decision)
    (justification : option str) : result str AmendError :=
  let json s := rmap_err SerializeNetworkRule (to_json s) in
  let? host := json host in
  let? protocol := json (as_policy_string protocol) in
  let? decision := json (decision_name decision) in
  let args := [lit "host=" ++ host; lit "protocol=" ++ protocol; lit "decision=" ++ decision] in
  let? args :=
    match justification with
    | None => Ok args
    | Some j => let? j := json j in Ok (args ++ [lit "justification=" ++ j])
    end in
  Ok (lit "network_rule(" ++ join (lit ", ") args ++ lit ")").

Definition blocking_append_network_rule (f : faults) (policy_path host : str)
    (protocol : NetworkRuleProtocol) (decision : Decision) (justification : option str)
    (s : rules_fs) : rules_fs * result unit AmendError :=
  let rule :=
    let? host :=
      rmap_err (λ e, InvalidNetworkRule (host_error_text e)) (normalize_network_rule_host host) in
    if is_some_and justification (λ raw, is_empty (trim raw))
    then Err (InvalidNetworkRule (lit "justification cannot be empty"))
    else network_rule_line host protocol decision justification in
  match rule with
  | Err e => (s, Err e)
  | Ok line => append_rule_line f policy_path line s
  end.

(** ** The migration *)

Definition lower_prefix (prefix : list str) : list str := to_ascii_lowercase <$> prefix.

Definition should_remove_rule (line : str) (banned : gset (list str)) : bool :=
  let line := default line (strip_suffix [nl] line) in
  let line := default line (strip_suffix [cr] line) in
  match strip_prefix allow_rule_start line ≫= strip_suffix allow_rule_end with
  | None => false
  | Some pattern =>
      match from_json pattern with
      | None => false
      | Some prefix => bool_decide (lower_prefix prefix ∈ banned)
      end
  end.

Definition strip_banned_allow_rules (contents : str) (banned_prefixes : list (list str)) : str :=
  let banned : gset (list str) := list_to_set (lower_prefix <$> banned_prefixes) in
  concat (base.filter (λ line, should_remove_rule line banned = false)
            (split_inclusive nl contents)).

(** The state of the home directory the migration sees. *)
Record home := { marker : bool; saved_rules : option str }.

(** Faults of the migration: reading, rewriting (with what the file holds
    afterwards) and writing the marker. *)
Record migration_faults := {
  m_exists : option io_error;
  m_read : option io_error;
  m_rewrite : option (io_error * str);
  m_marker : option io_error;
}.

Definition clean_rules_file (f : migration_faults) (banned : list (list str)) (h : home)
  : home * result unit io_error :=
  check_fault (m_read f)
    (match saved_rules h with
     | None => (h, Ok ())
     | Some contents =>
         let retained := strip_banned_allow_rules contents banned in
         if bool_decide (retained = contents) then (h, Ok ())
         else
           match m_rewrite f with
           | Some (e, remains) => ({| marker := marker h; saved_rules := Some remains |}, Err e)
           | None => ({| marker := marker h; saved_rules := Some retained |}, Ok ())
           end
     end)
    (λ e, (h, if is_not_found e then Ok () else Err e)).

Definition prefix_rule_migration (f : migration_faults) (banned : list (list str)) (h : home)
  : home * result unit io_error :=
  check_fault (m_exists f)
    (if marker h then (h, Ok ())
     else
       match clean_rules_file f banned h with
       | (h, Err e) => (h, Err e)
       | (h, Ok _) =>
           check_fault (m_marker f)
             ({| marker := true; saved_rules := saved_rules h |}, Ok ())
             (λ e, (h, Err e))
       end)
    (λ e, (h, Err e)).

(** ** Appending never loses a rule *)

Definition contents_of (s : rules_fs) : str := default [] (rules_file s).

Lemma append_all_prefix text fault s :
  contents_of s `prefix_of` contents_of (append_all text fault s).1.
Proof.
  unfold append_all, contents_of. destruct fault as [[e n]|]; simpl; by apply prefix_app_r.
Qed.

Lemma append_locked_line_prefix f path line s :
  contents_of s `prefix_of` contents_of (append_locked_line f path line s).1.
Proof.
  unfold append_locked_line, check_fault.
  destruct (f_open f); [done|]. destruct (f_lock f); [done|].
  destruct (f_seek f); [done|]. destruct (f_read f); [done|]. cbv zeta.
  set (s0 := set_file _ s). change (contents_of s) with (contents_of s0).
  destruct (bool_decide _); [done|].
  match goal with |- context [if ?b then append_all [nl] ?w s0 else _] =>
    set (step1 := if b then append_all [nl] w s0 else (s0, Ok ())) end.
  assert (contents_of s0 `prefix_of` contents_of step1.1) as H1
    by (unfold step1; case_match; [apply append_all_prefix|done]).
  destruct step1 as [s1 [[]|e]]; [|done]. simpl in *.
  pose proof (append_all_prefix (line ++ [nl]) (f_write_line f) s1) as H2.
  destruct (append_all (line ++ [nl]) (f_write_line f) s1) as [s2 r]. by etrans.
Qed.

Lemma append_rule_line_prefix f path rule s :
  contents_of s `prefix_of` contents_of (append_rule_line f path rule s).1.
Proof.
  unfold append_rule_line, check_fault. destruct (parent path); [|done].
  destruct (dir_exists s); [apply append_locked_line_prefix|].
  destruct (f_create_dir f); [done|].
  apply (append_locked_line_prefix f path rule {| dir_exists := true; rules_file := _ |}).
Qed.

(** Saving a rule is append-only: whichever file operation fails, and
    wherever a write is cut short, the previous contents of the rules file are
    kept as a prefix of the new contents. *)
Theorem amend_append_only f path prefix host protocol decision justification s :
  contents_of s `prefix_of` contents_of (blocking_append_allow_prefix_rule f path prefix s).1 ∧
  contents_of s `prefix_of`
    contents_of (blocking_append_network_rule f path host protocol decision justification s).1.
Proof.
  split.
  - unfold blocking_append_allow_prefix_rule. destruct (is_empty prefix); [done|].
    destruct (rmapM to_json prefix); [apply append_rule_line_prefix|done].
  - unfold blocking_append_network_rule. cbv zeta.
    match goal with |- context [match ?x with Ok _ => _ | Err _ => _ end] => destruct x end;
      [apply append_rule_line_prefix|done].
Qed.

(** ** Saving a rule once *)

(** JSON text has no raw control characters. *)
Context (json_plain : ∀ s j, to_json s = Ok j → nl ∉ j ∧ cr ∉ j).

Lemma tokens_plain prefix tokens :
  rmapM to_json prefix = Ok tokens → Forall (λ l, nl ∉ l) tokens.
Proof.
  clear from_json parent.
  revert tokens; induction prefix as [|p prefix IH]; intros tokens; simpl; [by intros [= <-]|].
  destruct (to_json p) as [j|] eqn:Hj; [|done]. simpl.
  destruct (rmapM to_json prefix); [|done]. intros [= <-]. constructor; [|by apply IH].
  by apply (json_plain p j Hj).
Qed.

Lemma allow_rule_line_plain prefix tokens :
  rmapM to_json prefix = Ok tokens → plain_line (allow_rule_line tokens).
Proof.
  clear from_json parent. intros Ht%tokens_plain. unfold allow_rule_line. split.
  - assert (nl ∉ allow_rule_start ∧ nl ∉ allow_rule_end ∧ nl ∉ lit "[" ∧ nl ∉ lit "]" ∧
            nl ∉ lit ", ") as (? & ? & ? & ? & ?)
      by (split_and!; apply (bool_decide_eq_true_1 (_ ∉ _)); vm_compute; reflexivity).
    pose proof (join_not_elem nl (lit ", ") tokens). set_solver.
  - intros l' Hl. apply (f_equal last) in Hl. rewrite last_snoc in Hl.
    change allow_rule_end with (lit ", decision=" ++ dq ++ lit "allow" ++ dq ++ [41%N]) in Hl.
    by rewrite !app_assoc, last_snoc in Hl.
Qed.

Lemma append_locked_line_ok path line s :
  plain_line line → last (contents_of s) ≠ Some cr →
  ∃ s', append_locked_line no_faults path line s = (s', Ok ()) ∧
    dir_exists s' = dir_exists s ∧
    lines (contents_of s') = lines (contents_of s)
      ++ (if decide (line ∈ lines (contents_of s)) then [] else [line]).
Proof.
  intros Hline Hcr. unfold append_locked_line, check_fault. simpl. fold (contents_of s).
  set (c := contents_of s) in *. destruct (decide (line ∈ lines c)) as [Hin|Hin].
  - rewrite bool_decide_eq_true_2 by done. eexists. split; [done|]. split; [done|].
    by rewrite app_nil_r.
  - rewrite bool_decide_eq_false_2 by done.
    destruct (negb (is_empty c) && negb (ends_with c [nl])) eqn:Hend; simpl;
      (eexists; split; [done|]; split; [done|]); unfold contents_of at 1; simpl.
    + bool_prop. assert (last c ≠ Some nl) as Hnl
        by (intros Hl%ends_with_nl; congruence).
      assert (c ≠ []) as Hne by (by apply is_empty_false).
      rewrite lines_closed by (right; by rewrite last_snoc).
      by rewrite lines_terminate, lines_one.
    + rewrite lines_closed, lines_one; [done|done|]. apply andb_false_iff in Hend as [He|He];
        bool_prop; [left; by apply is_empty_true|right; by apply ends_with_nl].
Qed.

Lemma append_locked_line_again path line s :
  rules_file s ≠ None → line ∈ lines (contents_of s) →
  append_locked_line no_faults path line s = (s, Ok ()).
Proof.
  unfold append_locked_line, check_fault, contents_of, set_file. simpl. intros Hs Hin.
  destruct s as [d [c|]]; [|done]. simpl in *. by rewrite bool_decide_eq_true_2.
Qed.

Lemma append_locked_line_some path line s s' r :
  append_locked_line no_faults path line s = (s', r) → rules_file s' ≠ None.
Proof.
  unfold append_locked_line, check_fault. simpl. intros H. by repeat case_m_in H; simplify_eq/=.
Qed.

(** Saving an approved prefix adds its rule once: without I/O faults the
    lines of the rules file are the old lines followed by the rule, unless the
    rule was already there; and saving it again changes nothing. *)
Theorem save_rule_once path dir prefix tokens s :
  parent path = Some dir → prefix ≠ [] → rmapM to_json prefix = Ok tokens →
  last (contents_of s) ≠ Some cr →
  ∃ s', blocking_append_allow_prefix_rule no_faults path prefix s = (s', Ok ()) ∧
    lines (contents_of s') = lines (contents_of s)
      ++ (if decide (allow_rule_line tokens ∈ lines (contents_of s)) then []
          else [allow_rule_line tokens]) ∧
    blocking_append_allow_prefix_rule no_faults path prefix s' = (s', Ok ()).
Proof.
  intros Hpar Hne Htok Hcr. pose proof (allow_rule_line_plain _ _ Htok) as Hplain.
  set (s1 := {| dir_exists := true; rules_file := rules_file s |}).
  assert (∀ x, blocking_append_allow_prefix_rule no_faults path prefix x =
    append_locked_line no_faults path (allow_rule_line tokens)
      {| dir_exists := true; rules_file := rules_file x |}) as Heq.
  { intros x. unfold blocking_append_allow_prefix_rule, append_rule_line.
    rewrite (proj2 (is_empty_false prefix)), Htok, Hpar by done. destruct x as [[|] ?]; done. }
  destruct (append_locked_line_ok path (allow_rule_line tokens) s1 Hplain Hcr)
    as (s' & Hs' & Hd & Hl).
  exists s'. rewrite Heq. split; [exact Hs'|]. split; [exact Hl|]. rewrite Heq.
  destruct s' as [d' c']. simpl in Hd |- *. subst d'. apply append_locked_line_again.
  - by eapply append_locked_line_some in Hs'.
  - rewrite Hl. clear from_json. case_decide; set_solver.
Qed.

(** ** What the migration removes *)

(** Parsing gives back the array of strings that was printed. *)
Context (json_roundtrip : ∀ prefix tokens, rmapM to_json prefix = Ok tokens →
  from_json (lit "[" ++ join (lit ", ") tokens ++ lit "]") = Some prefix).

Lemma should_remove_saved prefix tokens banned :
  rmapM to_json prefix = Ok tokens →
  should_remove_rule (allow_rule_line tokens ++ [nl]) banned =
  bool_decide (lower_prefix prefix ∈ banned).
Proof.
  intros Htok. pose proof (allow_rule_line_plain _ _ Htok) as [_ Hcr].
  unfold should_remove_rule.
  rewrite (proj2 (strip_suffix_Some [nl] _ (allow_rule_line tokens))) by done. cbn [from_option id].
  destruct (strip_suffix [cr] (allow_rule_line tokens)) as [l|] eqn:Hl;
    [apply strip_suffix_Some in Hl; by destruct (Hcr l)|]. cbn [from_option id].
  unfold allow_rule_line. rewrite strip_prefix_app. cbn [mbind option_bind].
  rewrite (proj2 (strip_suffix_Some _ _ (lit "[" ++ join (lit ", ") tokens ++ lit "]"))) by done.
  by rewrite (json_roundtrip _ _ Htok).
Qed.

(** The lines that are kept, in order, with their terminators. *)
Lemma strip_banned_lines contents banned :
  split_inclusive nl (strip_banned_allow_rules contents banned) =
  base.filter (λ l, should_remove_rule l (list_to_set (lower_prefix <$> banned)) = false)
    (split_inclusive nl contents).
Proof.
  unfold strip_banned_allow_rules.
  apply split_inclusive_concat, pieces_filter, split_inclusive_pieces.
Qed.

(** The migration removes exactly the banned rules: the lines that stay
    are the lines that are not banned allow rules, unchanged and in order; a
    rule saved for a prefix is removed exactly when the prefix is banned up to
    ASCII case; and stripping again removes nothing more. *)
Theorem migration_removes_banned contents banned prefix tokens :
  rmapM to_json prefix = Ok tokens →
  split_inclusive nl (strip_banned_allow_rules contents banned) =
    base.filter (λ l, should_remove_rule l (list_to_set (lower_prefix <$> banned)) = false)
      (split_inclusive nl contents) ∧
  (should_remove_rule (allow_rule_line tokens ++ [nl]) (list_to_set (lower_prefix <$> banned))
     = true ↔ lower_prefix prefix ∈ lower_prefix <$> banned) ∧
  strip_banned_allow_rules (strip_banned_allow_rules contents banned) banned =
    strip_banned_allow_rules contents banned.
Proof.
  clear parent. intros Htok. split; [apply strip_banned_lines|]. split.
  - by rewrite (should_remove_saved _ _ _ Htok), bool_decide_eq_true, elem_of_list_to_set.
  - unfold strip_banned_allow_rules at 1. rewrite strip_banned_lines, list_filter_filter.
    unfold strip_banned_allow_rules. f_equal. apply list_filter_iff. naive_solver.
Qed.

Lemma clean_rules_marker f banned h h' r :
  clean_rules_file f banned h = (h', r) → marker h' = marker h.
Proof.
  unfold clean_rules_file, check_fault. destruct (m_read f); [by intros [= <- _]|].
  destruct (saved_rules h) as [c|]; [|by intros [= <- _]].
  destruct (bool_decide _); [by intros [= <- _]|].
  destruct (m_rewrite f) as [[??]|]; by intros [= <- _].
Qed.

Lemma migration_done f banned h :
  marker h = true → m_exists f = None → prefix_rule_migration f banned h = (h, Ok ()).
Proof. unfold prefix_rule_migration, check_fault. by intros -> ->. Qed.

(** The migration runs once: after it succeeds the marker is set and any
    later run, with whatever banned list, leaves the rules alone; when it fails
    the marker is not set, so it will be tried again. *)
Theorem migration_one_shot f banned h h' r :
  prefix_rule_migration f banned h = (h', r) →
  match r with
  | Ok _ =>
      marker h' = true ∧
      (marker h = true → h' = h) ∧
      ∀ f' banned', m_exists f' = None → prefix_rule_migration f' banned' h' = (h', Ok ())
  | Err _ => marker h' = marker h
  end.
Proof.
  unfold prefix_rule_migration at 1, check_fault.
  destruct (m_exists f); [by intros; simplify_eq|].
  destruct (marker h) eqn:Hm.
  { intros; simplify_eq. split; [done|]. split; [done|]. auto using migration_done. }
  destruct (clean_rules_file f banned h) as [h1 [[]|e]] eqn:Hc.
  - destruct (m_marker f).
    + intros; simplify_eq. apply clean_rules_marker in Hc. congruence.
    + intros; simplify_eq. split; [done|]. split; [done|]. auto using migration_done.
  - intros; simplify_eq. apply clean_rules_marker in Hc. congruence.
Qed.

End amend.
