(* ===== verification/ExecWitnesses.v ===== *)
(** * Instances of the execution-policy theorems

    Concrete policies, rule files and saved rules on which the hypotheses of the
    policy theorems hold, with Unix paths, a fixed module in place of the
    Starlark interpreter and a JSON codec for alphanumeric strings. *)

From S2P Require Import Prelude RustStr UnixPath ExecFs ExecRule ExecPolicy ExecPolicyParser ExecPolicyAmend.

(** ** A policy built from a rule file *)

Definition unix_path (s : str) : result str str :=
  if is_absolute s then Ok s else Err (lit "not absolute").

Definition strs (l : list String.string) : list Value := (λ s, VStr (lit s)) <$> l.

(** prefix_rule(pattern=["git", ["push", "fetch"]], decision="forbidden",
    match=[["git", "push"]], not_match=[["git", "status"]]);
    prefix_rule(pattern=["git"]); network and host-executable declarations. *)
Definition demo_calls : list call :=
  [CallPrefixRule [VStr (lit "git"); VList (strs ["push"; "fetch"]%string)]
     (Some (lit "forbidden")) (Some [VList (strs ["git"; "push"]%string)])
     (Some [VList (strs ["git"; "status"]%string)]) None None;
   CallPrefixRule [VStr (lit "git")] None None None (Some (lit "read only")) None;
   CallNetworkRule (lit "Example.com") (lit "https") (lit "allow") None;
   CallNetworkRule (lit "example.com:443") (lit "https") (lit "deny") None;
   CallHostExecutable (lit "git") (strs ["/usr/bin/git"]%string)].

Definition demo_starlark (_ _ : str) : result (list call * result unit Error) Error :=
  Ok (demo_calls, Ok ()).

Abbreviation demo_parse := (parse unix_path path_file_name (λ _, None) (λ _, None)
  (λ _, []) (λ _, []) demo_starlark id).

Definition demo_builder : @PolicyBuilder str := (demo_parse new_builder [] []).1.
Definition demo_policy : @Policy str := build demo_builder.

Lemma demo_parse_ok : demo_parse new_builder [] [] = (demo_builder, Ok ()).
Proof. vm_compute. reflexivity. Qed.

Lemma demo_policy_wf : policy_wf demo_policy.
Proof.
  refine (proj1 (parse_builder_wf unix_path path_file_name _ _ _ _ _ _ _ _ _ _ _ demo_parse_ok _)).
  apply new_builder_wf.
Qed.

Lemma parse_preserves_wf_witness :
  demo_parse new_builder [] [] = (demo_builder, Ok ()) ∧ builder_wf path_file_name demo_builder.
Proof.
  split; [exact demo_parse_ok|].
  refine (parse_preserves_wf unix_path path_file_name _ _ _ _ _ _ _ _ _ _ _ demo_parse_ok _).
  apply new_builder_wf.
Defined.

Lemma parse_examples_hold_witness :
  Forall (validation_holds unix_path path_file_name demo_builder) (b_pending demo_builder).
Proof.
  exact (parse_examples_hold unix_path path_file_name _ _ _ _ _ _ _ _ _ _ demo_parse_ok).
Defined.

Lemma prefix_rule_meaning_witness :
  ∃ tokens decision rules,
    parse_pattern [VStr (lit "ls")] = Ok tokens ∧
    (Ok Allow : result Decision Error) = Ok decision ∧
    (∀ r, in_policy (build (prefix_rule (λ _, None) (@new_builder str) [VStr (lit "ls")]
                             None None None None None).1) r
      ↔ in_policy (build (@new_builder str)) r ∨ r ∈ rules) ∧
    Forall (λ r, rule_decision r = decision) rules ∧
    ∀ cmd, (∃ r, r ∈ rules ∧ covers_command r cmd) ↔
      ∃ prefix tail, cmd = prefix ++ tail ∧ Forall2 (λ t c, c ∈ alternatives t) tokens prefix.
Proof.
  refine (prefix_rule_meaning (λ _, None) new_builder [VStr (lit "ls")] None None None None None
            _ _). vm_compute. reflexivity.
Defined.

Definition ask (_ : list str) : Decision := Prompt.
Definition git_push : list str := [lit "git"; lit "push"; lit "-f"].

Lemma check_spec_witness :
  ∃ ev, check (λ s, ok (unix_path s)) path_file_name demo_policy git_push ask = Some ev ∧
    ((∃ r, in_policy demo_policy r ∧ covers_command r git_push) →
       (∀ r, in_policy demo_policy r → covers_command r git_push →
          decision_le (rule_decision r) (ev_decision ev)) ∧
       ∃ r, in_policy demo_policy r ∧ covers_command r git_push ∧
         rule_decision r = ev_decision ev) ∧
    ((∀ r, in_policy demo_policy r → ¬ covers_command r git_push) →
       ev_decision ev = ask git_push ∧
       matched_rules ev = [HeuristicsRuleMatch git_push (ask git_push)]).
Proof. exact (check_spec _ path_file_name demo_policy git_push ask demo_policy_wf). Defined.

(** The strictest of the two rules that cover the command decides. *)
Example git_push_forbidden :
  ev_decision <$> check (λ s, ok (unix_path s)) path_file_name demo_policy git_push ask
  = Some Forbidden.
Proof. vm_compute. reflexivity. Qed.

Lemma resolved_program_trusted_witness :
  ∃ basename, executable_path_lookup_key path_file_name (lit "/usr/bin/git") = Some basename ∧
    ∀ paths, host_executables_by_name demo_policy !! basename = Some paths →
      lit "/usr/bin/git" ∈ paths.
Proof.
  assert (PrefixRuleMatch [lit "git"] Allow (Some (lit "/usr/bin/git")) (Some (lit "read only"))
    ∈ matches_for_command_with_options (λ s, ok (unix_path s)) path_file_name demo_policy
        (lit "/usr/bin/git" :: [lit "status"]) None {| resolve_host_executables := true |}) as Hin
    by (vm_compute; left).
  destruct (resolved_program_trusted _ _ _ _ _ _ _ _ _ _ _ Hin) as (_ & _ & b & Hb & Hp & _).
  exists b. split; [exact Hb|exact Hp].
Defined.

Lemma compiled_domains_last_wins_witness :
  compiled_network_domains demo_policy = ([], [lit "example.com"]) ∧
  last_decision (network_rules demo_policy) (lit "example.com") = Some Forbidden.
Proof.
  assert (compiled_network_domains demo_policy = ([], [lit "example.com"])) as H
    by (vm_compute; reflexivity).
  split; [exact H|].
  apply (compiled_domains_last_wins demo_policy [] [lit "example.com"] H).
  apply list_elem_of_singleton. reflexivity.
Defined.

(** ** Saved rules *)

Definition quote (s : str) : str := dq ++ s ++ dq.

Definition demo_to_json (s : str) : result str str :=
  if forallb is_ascii_alphanumeric s then Ok (quote s) else Err (lit "unsupported").

Fixpoint odds (l : list str) : list str :=
  match l with x :: y :: l' => y :: odds l' | _ => [] end.

Definition demo_from_json (s : str) : option (list str) := Some (odds (split_on 34 s)).

Lemma alnum_not_elem c s :
  is_ascii_alphanumeric c = false → forallb is_ascii_alphanumeric s = true → c ∉ s.
Proof.
  intros Hc Hs Hin. rewrite forallb_forall in Hs.
  rewrite (Hs c) in Hc by by apply list_elem_of_In. done.
Qed.

Lemma demo_json_plain s j : demo_to_json s = Ok j → nl ∉ j ∧ cr ∉ j.
Proof.
  unfold demo_to_json. destruct (forallb is_ascii_alphanumeric s) eqn:Hs; [|done].
  intros [= <-]. unfold quote, dq, nl, cr.
  pose proof (alnum_not_elem 10 s eq_refl Hs). pose proof (alnum_not_elem 13 s eq_refl Hs).
  rewrite !elem_of_app, !list_elem_of_singleton. naive_solver.
Qed.

Lemma odds_quoted prefix tokens l :
  rmapM demo_to_json prefix = Ok tokens → 34%N ∉ l →
  odds (split_on 34 (l ++ join (lit ", ") tokens ++ lit "]")) = prefix.
Proof.
  revert tokens l; induction prefix as [|p prefix IH]; intros tokens l; cbn [rmapM].
  - intros [= <-] Hl. rewrite split_on_nosep; [done|]. cbn [join app].
    rewrite not_elem_of_app. split; [done|].
    apply (bool_decide_eq_true_1 (_ ∉ _)). vm_compute. reflexivity.
  - unfold demo_to_json at 1. destruct (forallb is_ascii_alphanumeric p) eqn:Hp; [|done].
    cbn [rbind]. destruct (rmapM demo_to_json prefix) as [ts|] eqn:Ht; [|done].
    intros [= <-] Hl. pose proof (alnum_not_elem 34 p eq_refl Hp) as Hq.
    assert (∃ l', 34%N ∉ l' ∧ join (lit ", ") (quote p :: ts) ++ lit "]" =
      34%N :: p ++ 34%N :: l' ++ join (lit ", ") ts ++ lit "]") as (l' & Hl' & ->).
    { destruct ts as [|t ts].
      - exists []. split; [set_solver|]. unfold quote, dq. cbn [join app]. by rewrite <- app_assoc.
      - exists (lit ", "). split; [apply (bool_decide_eq_true_1 (_ ∉ _)); vm_compute; reflexivity|].
        rewrite join_cons by done. unfold quote, dq. rewrite <- !app_assoc. reflexivity. }
    rewrite split_on_app_nosep, split_on_app_nosep by done. cbn [odds]. f_equal. by apply IH.
Qed.

Lemma demo_json_roundtrip prefix tokens :
  rmapM demo_to_json prefix = Ok tokens →
  demo_from_json (lit "[" ++ join (lit ", ") tokens ++ lit "]") = Some prefix.
Proof.
  intros H. unfold demo_from_json. f_equal. apply odds_quoted; [done|].
  apply (bool_decide_eq_true_1 (_ ∉ _)). vm_compute. reflexivity.
Qed.

Definition rules_path : str := lit "/home/u/rules/default.rules".
Definition rules_parent (p : str) : option str := fst <$> rsplit_once 47 p.
Definition demo_saved : rules_fs := {| dir_exists := false; rules_file := None |}.
Definition demo_tokens : list str := [quote (lit "ls"); quote (lit "l")].

Lemma save_rule_once_witness :
  ∃ s', blocking_append_allow_prefix_rule demo_to_json rules_parent no_faults rules_path
          [lit "ls"; lit "l"] demo_saved = (s', Ok ()) ∧
    lines (contents_of s') = [allow_rule_line demo_tokens].
Proof.
  destruct (save_rule_once demo_to_json rules_parent demo_json_plain rules_path
              (lit "/home/u/rules") [lit "ls"; lit "l"] demo_tokens demo_saved)
    as (s' & H & Hl & _);
    [vm_compute; reflexivity|discriminate|vm_compute; reflexivity|vm_compute; discriminate|].
  exists s'. split; [exact H|exact Hl].
Defined.

Lemma migration_removes_banned_witness :
  let banned := [[lit "LS"; lit "l"]] in
  should_remove_rule demo_from_json (allow_rule_line demo_tokens ++ [nl])
    (list_to_set (lower_prefix <$> banned)) = true.
Proof.
  refine (proj2 (proj1 (proj2 (migration_removes_banned demo_to_json demo_from_json
    demo_json_plain demo_json_roundtrip [] [[lit "LS"; lit "l"]] [lit "ls"; lit "l"] demo_tokens _)))
    _); [vm_compute; reflexivity|].
  apply list_elem_of_singleton. vm_compute. reflexivity.
Defined.

Definition quiet_migration : migration_faults :=
  {| m_exists := None; m_read := None; m_rewrite := None; m_marker := None |}.

Definition demo_home : home :=
  {| marker := false; saved_rules := Some (allow_rule_line demo_tokens ++ [nl]) |}.

Lemma migration_one_shot_witness :
  let r := prefix_rule_migration demo_from_json quiet_migration [[lit "ls"; lit "l"]] demo_home in
  r = ({| marker := true; saved_rules := Some [] |}, Ok ()) ∧
  ∀ f' banned', m_exists f' = None →
    prefix_rule_migration demo_from_json f' banned' r.1 = (r.1, Ok ()).
Proof.
  assert (prefix_rule_migration demo_from_json quiet_migration [[lit "ls"; lit "l"]] demo_home
          = ({| marker := true; saved_rules := Some [] |}, Ok ())) as H by (vm_compute; reflexivity).
  cbv zeta. rewrite H. split; [reflexivity|].
  exact (proj2 (proj2 (migration_one_shot demo_from_json _ _ _ _ _ H))).
Defined.
