(* ===== verification/ExecRequirements.v ===== *)
(** * Rules from [requirements.toml]

    [codex-rs/config/src/requirements_exec_policy.rs]: an administrator's
    [prefix_rules], after TOML has been read, as a policy. *)

From S2P Require Import Prelude RustStr ExecRule ExecPolicy.

Record RequirementsExecPolicyPatternTokenToml := {
  token : option str;
  any_of : option (list str);
}.

Inductive RequirementsExecPolicyDecisionToml := TomlAllow | TomlPrompt | TomlForbidden.

Definition as_decision (d : RequirementsExecPolicyDecisionToml) : Decision :=
  match d with TomlAllow => Allow | TomlPrompt => Prompt | TomlForbidden => Forbidden end.

Record RequirementsExecPolicyPrefixRuleToml := {
  toml_pattern : list RequirementsExecPolicyPatternTokenToml;
  toml_decision : option RequirementsExecPolicyDecisionToml;
  toml_justification : option str;
}.

Inductive RequirementsExecPolicyParseError :=
| EmptyPrefixRules
| EmptyPattern (rule_index : nat)
| InvalidPatternToken (rule_index token_index : nat) (reason : str)
| EmptyJustification (rule_index : nat)
| MissingDecision (rule_index : nat)
| AllowDecisionNotAllowed (rule_index : nat).

Definition parse_toml_pattern_token (t : RequirementsExecPolicyPatternTokenToml)
    (rule_index token_index : nat) : result PatternToken RequirementsExecPolicyParseError :=
  let invalid reason := Err (InvalidPatternToken rule_index token_index reason) in
  match token t, any_of t with
  | Some single, None =>
      if is_empty (trim single) then invalid (lit "token cannot be empty") else Ok (Single single)
  | None, Some alternatives =>
      if is_empty alternatives then invalid (lit "any_of cannot be empty")
      else if existsb (λ alt, is_empty (trim alt)) alternatives
      then invalid (lit "any_of cannot include empty tokens")
      else Ok (Alts alternatives)
  | Some _, Some _ => invalid (lit "set either token or any_of, not both")
  | None, None => invalid (lit "set either token or any_of")
  end.

Fixpoint parse_toml_pattern (ts : list RequirementsExecPolicyPatternTokenToml)
    (rule_index token_index : nat)
    : result (list PatternToken) RequirementsExecPolicyParseError :=
  match ts with
  | [] => Ok []
  | t :: ts =>
      let? t := parse_toml_pattern_token t rule_index token_index in
      let? ts := parse_toml_pattern ts rule_index (S token_index) in
      Ok (t :: ts)
  end.

(** One turn of the loop of [to_policy]: the rules of one table. *)
Definition toml_rules (rule_index : nat) (rule : RequirementsExecPolicyPrefixRuleToml)
    : result (list PrefixRule) RequirementsExecPolicyParseError :=
  if is_some_and (toml_justification rule) (λ j, is_empty (trim j))
  then Err (EmptyJustification rule_index)
  else if is_empty (toml_pattern rule) then Err (EmptyPattern rule_index)
  else
    let? pattern_tokens := parse_toml_pattern (toml_pattern rule) rule_index 0 in
    let? decision :=
      match toml_decision rule with
      | Some TomlAllow => Err (AllowDecisionNotAllowed rule_index)
      | Some decision => Ok (as_decision decision)
      | None => Err (MissingDecision rule_index)
      end in
    match pattern_tokens with
    | [] => Err (EmptyPattern rule_index)
    | first_token :: rest =>
        Ok ((λ head, {| pattern := {| first := head; rest := rest |}; rule_decision := decision;
                        justification := toml_justification rule |}) <$> alternatives first_token)
    end.

Fixpoint toml_rule_map (rule_index : nat) (rules : list RequirementsExecPolicyPrefixRuleToml)
    (rules_by_program : rule_map) : result rule_map RequirementsExecPolicyParseError :=
  match rules with
  | [] => Ok rules_by_program
  | rule :: rules =>
      let? rs := toml_rules rule_index rule in
      toml_rule_map (S rule_index) rules
        (foldl (λ m r, multi_insert (first (pattern r)) r m) rules_by_program rs)
  end.

Section requirements.
Context {abs_path : Type}.

Definition to_policy (prefix_rules : list RequirementsExecPolicyPrefixRuleToml)
    : result (@Policy abs_path) RequirementsExecPolicyParseError :=
  if is_empty prefix_rules then Err EmptyPrefixRules
  else
    let? rules_by_program := toml_rule_map 0 prefix_rules ∅ in
    Ok {| rules_by_program := rules_by_program; network_rules := [];
          host_executables_by_name := ∅ |}.
End requirements.

(** ** What a table must look like *)

Definition token_valid (t : RequirementsExecPolicyPatternTokenToml) : Prop :=
  (∃ single, token t = Some single ∧ any_of t = None ∧ trim single ≠ []) ∨
  (∃ alts, token t = None ∧ any_of t = Some alts ∧ alts ≠ [] ∧ ∀ a, a ∈ alts → trim a ≠ []).

(** The token a valid table stands for. *)
Definition token_of (t : RequirementsExecPolicyPatternTokenToml) : PatternToken :=
  match token t, any_of t with
  | Some single, _ => Single single
  | None, alts => Alts (default [] alts)
  end.

Definition rule_valid (rule : RequirementsExecPolicyPrefixRuleToml) : Prop :=
  (∀ j, toml_justification rule = Some j → trim j ≠ []) ∧
  toml_pattern rule ≠ [] ∧ Forall token_valid (toml_pattern rule) ∧
  (toml_decision rule = Some TomlPrompt ∨ toml_decision rule = Some TomlForbidden).

(** The rules a valid table stands for, one per alternative of its first token. *)
Definition rules_of (rule : RequirementsExecPolicyPrefixRuleToml) : list PrefixRule :=
  match token_of <$> toml_pattern rule with
  | [] => []
  | first_token :: rest =>
      (λ head, {| pattern := {| first := head; rest := rest |};
                  rule_decision := default Forbidden (as_decision <$> toml_decision rule);
                  justification := toml_justification rule |}) <$> alternatives first_token
  end.

Lemma parse_toml_token_spec t i j :
  match parse_toml_pattern_token t i j with
  | Ok tok => token_valid t ∧ tok = token_of t
  | Err e => ¬ token_valid t ∧ ∃ reason, e = InvalidPatternToken i j reason
  end.
Proof.
  unfold parse_toml_pattern_token, token_valid, token_of.
  destruct (token t) as [single|], (any_of t) as [alts|]; simpl.
  - split; [naive_solver|eauto].
  - destruct (is_empty (trim single)) eqn:He.
    + apply is_empty_true in He. split; [naive_solver|eauto].
    + apply is_empty_false in He. split; [naive_solver|done].
  - destruct (is_empty alts) eqn:He.
    + apply is_empty_true in He. split; [naive_solver|eauto].
    + apply is_empty_false in He. destruct (existsb _ alts) eqn:Hex.
      * apply existsb_exists in Hex as (a & Ha%list_elem_of_In & Hta%is_empty_true).
        split; [naive_solver|eauto].
      * split; [|done]. right. exists alts. split_and!; try done. intros a Ha Hta.
        apply not_true_iff_false in Hex. apply Hex, existsb_exists. exists a.
        split; [by apply list_elem_of_In|]. by apply is_empty_true.
  - split; [naive_solver|eauto].
Qed.

Lemma parse_toml_pattern_spec ts i j :
  match parse_toml_pattern ts i j with
  | Ok toks => Forall token_valid ts ∧ toks = token_of <$> ts
  | Err e => ¬ Forall token_valid ts ∧ ∃ k reason, e = InvalidPatternToken i k reason
  end.
Proof.
  revert j. induction ts as [|t ts IH]; intros j; simpl; [done|].
  pose proof (parse_toml_token_spec t i j) as Ht.
  destruct (parse_toml_pattern_token t i j) as [tok|e]; simpl.
  - specialize (IH (S j)). destruct (parse_toml_pattern ts i (S j)) as [toks|e]; simpl.
    + destruct Ht as [? ->], IH as [? ->]. split; [by constructor|done].
    + destruct IH as [? ?]. split; [|done]. by intros [_ ?]%Forall_cons.
  - destruct Ht as [? (reason & ->)]. split; [by intros [? _]%Forall_cons|]. eauto.
Qed.

(** The position of the table an error is about. *)
Definition error_rule_index (e : RequirementsExecPolicyParseError) : option nat :=
  match e with
  | EmptyPrefixRules => None
  | EmptyPattern i | InvalidPatternToken i _ _ | EmptyJustification i | MissingDecision i
  | AllowDecisionNotAllowed i => Some i
  end.

Lemma toml_rules_spec i rule :
  match toml_rules i rule with
  | Ok rs => rule_valid rule ∧ rs = rules_of rule
  | Err e => ¬ rule_valid rule ∧ error_rule_index e = Some i
  end.
Proof.
  unfold toml_rules, rule_valid, rules_of.
  destruct (is_some_and (toml_justification rule) _) eqn:Hj.
  { split; [|done]. intros [Hv _]. destruct (toml_justification rule) as [j|]; [|done].
    by apply (Hv j eq_refl), is_empty_true. }
  destruct (is_empty (toml_pattern rule)) eqn:Hp.
  { apply is_empty_true in Hp. split; [naive_solver|done]. }
  apply is_empty_false in Hp. pose proof (parse_toml_pattern_spec (toml_pattern rule) i 0) as Ht.
  destruct (parse_toml_pattern (toml_pattern rule) i 0) as [toks|e]; simpl.
  2: { destruct Ht as [Hnv (k & reason & ->)]. split; [naive_solver|done]. }
  destruct Ht as [Hv ->].
  assert (∀ j, toml_justification rule = Some j → trim j ≠ []) as Hjust.
  { intros j Hjj. rewrite Hjj in Hj. by apply is_empty_false in Hj. }
  destruct (toml_pattern rule) as [|t ts]; [done|].
  destruct (toml_decision rule) as [[]|]; simpl; split; naive_solver.
Qed.

Lemma rules_foldl_multi_insert (k : str) (rs : list PrefixRule) : ∀ m : rule_map,
  default [] (foldl (λ m r, multi_insert (first (pattern r)) r m) m rs !! k) =
  default [] (m !! k) ++ base.filter (λ r, first (pattern r) = k) rs.
Proof.
  induction rs as [|r rs IH]; intros m; simpl; [by rewrite app_nil_r|].
  rewrite IH, rules_multi_insert, <- app_assoc, filter_cons. f_equal.
  by destruct (decide (first (pattern r) = k)).
Qed.

Lemma toml_rule_map_spec (i : nat) (rules : list RequirementsExecPolicyPrefixRuleToml) (m : rule_map) :
  match toml_rule_map i rules m with
  | Ok m' => Forall rule_valid rules ∧ ∀ k,
      default [] (m' !! k) =
      default [] (m !! k) ++ base.filter (λ r, first (pattern r) = k) (mjoin (rules_of <$> rules))
  | Err e => ∃ j t, error_rule_index e = Some (i + j) ∧ rules !! j = Some t ∧ ¬ rule_valid t ∧
      Forall rule_valid (take j rules)
  end.
Proof.
  revert i m. induction rules as [|t rules IH]; intros i m; simpl.
  - split; [done|]. intros k. by rewrite app_nil_r.
  - pose proof (toml_rules_spec i t) as Ht. destruct (toml_rules i t) as [rs|e]; simpl.
    + destruct Ht as [Hv ->]. set (m1 := foldl _ m (rules_of t)). specialize (IH (S i) m1).
      destruct (toml_rule_map (S i) rules m1) as [m'|e].
      * destruct IH as [Hvs Hk]. split; [by constructor|]. intros k.
        rewrite Hk. unfold m1. rewrite rules_foldl_multi_insert, filter_app. by rewrite <- app_assoc.
      * destruct IH as (j & u & He & Hj & Hu & Htake). exists (S j), u.
        split_and!; [|done|done|by constructor]. rewrite He. f_equal. lia.
    + destruct Ht as [Hv He]. exists 0, t. split_and!; [|done..]. rewrite He. f_equal. lia.
Qed.

Lemma rules_of_restrictive t r : rule_valid t → r ∈ rules_of t → rule_decision r ≠ Allow.
Proof.
  intros (_ & _ & _ & Hd). unfold rules_of. destruct (token_of <$> toml_pattern t); [set_solver|].
  intros (a & -> & _)%list_elem_of_fmap. simpl. by destruct Hd as [-> | ->].
Qed.

(** An administrator's tables become exactly the rules they describe, and
    never an allowance.  The conversion succeeds exactly when there is a table
    and each of them is valid; the policy then stores every rule under its
    program and has the rules of the tables and no other, none of which allows
    anything.  An error names the first table that is not valid. *)
Theorem requirements_to_policy_spec {abs_path}
    (prefix_rules : list RequirementsExecPolicyPrefixRuleToml) :
  match to_policy prefix_rules with
  | Ok p =>
      prefix_rules ≠ [] ∧ Forall rule_valid prefix_rules ∧ policy_wf (abs_path:=abs_path) p ∧
      (∀ r, in_policy p r ↔ ∃ t, t ∈ prefix_rules ∧ r ∈ rules_of t) ∧
      (∀ r, in_policy p r → rule_decision r ≠ Allow)
  | Err e =>
      match error_rule_index e with
      | None => prefix_rules = []
      | Some i => ∃ t, prefix_rules !! i = Some t ∧ ¬ rule_valid t ∧
                    Forall rule_valid (take i prefix_rules)
      end
  end.
Proof.
  unfold to_policy. destruct (is_empty prefix_rules) eqn:He; [by apply is_empty_true in He|].
  apply is_empty_false in He. pose proof (toml_rule_map_spec 0 prefix_rules ∅) as Hm.
  destruct (toml_rule_map 0 prefix_rules ∅) as [m|e]; simpl.
  - destruct Hm as [Hv Hk].
    assert (∀ r, in_policy (abs_path:=abs_path) {| rules_by_program := m; network_rules := [];
        host_executables_by_name := ∅ |} r ↔ ∃ t, t ∈ prefix_rules ∧ r ∈ rules_of t) as Hiff.
    { intros r. unfold in_policy, rules_for. cbn [rules_by_program]. setoid_rewrite Hk.
      setoid_rewrite lookup_empty. cbn [default app]. setoid_rewrite list_elem_of_filter.
      setoid_rewrite list_elem_of_join. setoid_rewrite list_elem_of_fmap. naive_solver. }
    split_and!; [done..| |done|].
    + apply policy_wf_rules. intros k. unfold rules_for. cbn [rules_by_program].
      rewrite Hk, lookup_empty. cbn [default app]. apply Forall_forall.
      by intros r [? _]%list_elem_of_filter.
    + intros r (t & Ht & Hr)%Hiff. rewrite Forall_forall in Hv. eapply rules_of_restrictive; eauto.
  - destruct Hm as (j & t & -> & ? & ? & ?). by exists t.
Qed.
