(* ===== verification/ShellParse.v ===== *)
(** * Shell scripts as lists of commands

    [codex-rs/shell-command/src/bash.rs] and [detect_shell_type] of
    [shell_detect.rs].  A script is parsed by tree-sitter, a parameter; the
    code reads the syntax tree, which is data here: a node has the kind, the
    position, the text and the children that tree-sitter reports for it. *)

From S2P Require Import Prelude RustStr UnixPath.

(** ** The shell that runs a script *)

Inductive ShellType := Zsh | Bash | PowerShell | Sh | Cmd.

#[global] Instance ShellType_eq_dec : EqDecision ShellType.
Proof. solve_decision. Defined.

(** The recursion of [detect_shell_type]: [fuel] bounds the number of file
    stems that are taken. *)
Fixpoint detect_shell (fuel : nat) (shell_path : str) : option ShellType :=
  if bool_decide (shell_path = lit "zsh") then Some Zsh
  else if bool_decide (shell_path = lit "sh") then Some Sh
  else if bool_decide (shell_path = lit "cmd") then Some Cmd
  else if bool_decide (shell_path = lit "bash") then Some Bash
  else if bool_decide (shell_path = lit "pwsh") then Some PowerShell
  else if bool_decide (shell_path = lit "powershell") then Some PowerShell
  else
    match path_file_stem shell_path with
    | Some shell_name =>
        if path_eq shell_name shell_path then None
        else match fuel with
             | O => None
             | S fuel => detect_shell fuel shell_name
             end
    | None => None
    end.

Definition detect_shell_type (shell_path : str) : option ShellType :=
  detect_shell (length shell_path) shell_path.

Definition extract_bash_command (command : list str) : option (str * str) :=
  match command with
  | [shell; flag; script] =>
      if negb (bool_decide (flag = lit "-lc") || bool_decide (flag = lit "-c"))
         || negb (match detect_shell_type shell with
                  | Some Zsh | Some Bash | Some Sh => true
                  | _ => false
                  end)
      then None
      else Some (shell, script)
  | _ => None
  end.

(** ** Syntax trees *)

Inductive Node := mk_node {
  kind : str;
  is_named : bool;
  has_error : bool;
  start_byte : N;
  end_byte : N;
  utf8_text : option str;
  children : list Node;
}.

Definition named_children (n : Node) : list Node := base.filter (λ c, is_named c = true) (children n).
Definition named_child0 (n : Node) : option Node := head (named_children n).
Definition is_kind (n : Node) (k : String.string) : bool := bool_decide (kind n = lit k).

Fixpoint node_size (n : Node) : nat := S (sum_list_with node_size (children n)).

(** The nodes of a tree, parents first and children in order. *)
Fixpoint preorder (n : Node) : list Node := n :: mjoin (preorder <$> children n).

(** ** Words *)

(** The characters that a shell may still expand in an unquoted word. *)
Definition expansion_chars : str := lit "{}*?[]\~^#$`".

Definition is_literal_word_or_number (n : Node) : bool :=
  (is_kind n "word" || is_kind n "number")
  && is_empty (named_children n)
  && is_some_and (utf8_text n) (λ word,
       negb (starts_with word (lit "="))
       && negb (existsb (λ c, bool_decide (c ∈ expansion_chars)) word)).

(** Two neighbouring characters of which the first is a backslash that the
    shell would remove.  All of them are ASCII, so the pairs of characters are
    the pairs of bytes. *)
Fixpoint has_escape (s : str) : bool :=
  match s with
  | a :: ((b :: _) as s') =>
      ((a =? 92)%N && bool_decide (b ∈ lit "$`\" ++ [34; 10]%N)) || has_escape s'
  | _ => false
  end.

Definition unquote (q : char) (raw : str) : option str :=
  text ← strip_prefix [q] raw; strip_suffix [q] text.

Definition parse_double_quoted_string (n : Node) : option str :=
  if negb (is_kind n "string") then None
  else if negb (forallb (λ part, is_kind part "string_content") (named_children n)) then None
  else
    raw ← utf8_text n;
    stripped ← unquote 34 raw;
    if has_escape stripped then None else Some stripped.

Definition parse_raw_string (n : Node) : option str :=
  if negb (is_kind n "raw_string") then None
  else raw_string ← utf8_text n; unquote 39 raw_string.

(** The words of the parts of a concatenated argument, one after the other. *)
Definition concat_parts (word_of : Node → option str) : list Node → str → option str :=
  fix go (parts : list Node) (concatenated : str) : option str :=
    match parts with
    | [] => Some concatenated
    | part :: parts =>
        if is_named part then word ← word_of part; go parts (concatenated ++ word)
        else go parts concatenated
    end.

Fixpoint parse_literal_shell_word (n : Node) : option str :=
  if (is_kind n "word" || is_kind n "number") && is_literal_word_or_number n then utf8_text n
  else if is_kind n "string" then parse_double_quoted_string n
  else if is_kind n "raw_string" then parse_raw_string n
  else if is_kind n "concatenation" then
    concatenated ← concat_parts parse_literal_shell_word (children n) [];
    if is_empty concatenated then None else Some concatenated
  else None.

(** ** Commands *)

(** One part of a concatenated argument. *)
Definition plain_part (part : Node) : option str :=
  if is_kind part "word" || is_kind part "number" then utf8_text part
  else if is_kind part "string" then parse_double_quoted_string part
  else if is_kind part "raw_string" then parse_raw_string part
  else None.

(** One turn of the loop of [parse_plain_command_from_node], which pushes one
    word or gives up. *)
Definition plain_child (child : Node) : option str :=
  if is_kind child "command_name" then
    word_node ← named_child0 child;
    if negb (is_kind word_node "word") then None else utf8_text word_node
  else if is_kind child "word" || is_kind child "number" then utf8_text child
  else if is_kind child "string" then parse_double_quoted_string child
  else if is_kind child "raw_string" then parse_raw_string child
  else if is_kind child "concatenation" then
    parts ← mapM plain_part (named_children child);
    if is_empty (mjoin parts) then None else Some (mjoin parts)
  else None.

Definition parse_plain_command_from_node (cmd : Node) : option (list str) :=
  if negb (is_kind cmd "command") then None else mapM plain_child (named_children cmd).

Fixpoint literal_children (cs : list Node) (words : list str) (found_command_name : bool)
    : option (list str) :=
  match cs with
  | [] => if found_command_name then Some words else None
  | child :: cs =>
      if is_kind child "command_name" then
        name ← named_child0 child;
        command_name ← parse_literal_shell_word name;
        literal_children cs (words ++ [command_name]) true
      else
        match (if found_command_name then parse_literal_shell_word child else None) with
        | Some word => literal_children cs (words ++ [word]) found_command_name
        | None => literal_children cs words found_command_name
        end
  end.

Definition parse_literal_command_from_node (cmd : Node) : option (list str) :=
  if negb (is_kind cmd "command") then None
  else literal_children (named_children cmd) [] false.

(** ** Scripts *)

Definition allowed_kinds : list str :=
  [lit "program"; lit "list"; lit "pipeline"; lit "command"; lit "command_name"; lit "word";
   lit "string"; lit "string_content"; lit "raw_string"; lit "number"; lit "concatenation"].
Definition allowed_punct_tokens : list str :=
  [lit "&&"; lit "||"; lit ";"; lit "|"; [34%N]; lit "'"].

(** The tests the walk makes on one node. *)
Definition node_allowed (n : Node) : bool :=
  if is_named n then
    bool_decide (kind n ∈ allowed_kinds)
    && negb ((is_kind n "word" || is_kind n "number") && negb (is_literal_word_or_number n))
  else
    negb (existsb (λ c, bool_decide (c ∈ lit "&;|")) (kind n)
          && negb (bool_decide (kind n ∈ allowed_punct_tokens)))
    && (bool_decide (kind n ∈ allowed_punct_tokens) || is_empty (trim (kind n))).

Definition is_command_node (n : Node) : bool := is_named n && is_kind n "command".

(** The walk of [try_parse_word_only_commands_sequence]: the stack has its top
    first, and the children are pushed in order. *)
Fixpoint walk_plain (fuel : nat) (stack : list Node) (command_nodes : list Node)
    : option (list Node) :=
  match stack, fuel with
  | [], _ => Some command_nodes
  | _, O => None
  | node :: stack, S fuel =>
      if node_allowed node then
        walk_plain fuel (reverse (children node) ++ stack)
          (command_nodes ++ if is_command_node node then [node] else [])
      else None
  end.

(** [slice::sort_by_key], a stable sort. *)
Fixpoint insert_by (n : Node) (ns : list Node) : list Node :=
  match ns with
  | [] => [n]
  | m :: ns => if (start_byte n <=? start_byte m)%N then n :: m :: ns else m :: insert_by n ns
  end.
Definition sort_by_start_byte (ns : list Node) : list Node := foldr insert_by [] ns.

Definition try_parse_word_only_commands_sequence (root : Node) : option (list (list str)) :=
  if has_error root then None
  else
    command_nodes ← walk_plain (node_size root) [root] [];
    mapM parse_plain_command_from_node (sort_by_start_byte command_nodes).

Fixpoint walk_literal (fuel : nat) (stack : list Node) (commands : list (list str))
    : option (list (list str)) :=
  match stack, fuel with
  | [], _ => Some commands
  | _, O => None
  | node :: stack, S fuel =>
      let commands :=
        if is_kind node "command" then
          match parse_literal_command_from_node node with
          | Some command => commands ++ [command]
          | None => commands
          end
        else commands in
      walk_literal fuel (reverse (named_children node) ++ stack) commands
  end.

Section scripts.
(** tree-sitter with its Bash grammar. *)
Context (try_parse_shell : str → option Node).

Definition parse_shell_script_into_commands (script : str) : option (list (list str)) :=
  tree ← try_parse_shell script; try_parse_word_only_commands_sequence tree.

Definition parse_shell_lc_plain_commands (command : list str) : option (list (list str)) :=
  '(_, script) ← extract_bash_command command; parse_shell_script_into_commands script.

Definition parse_shell_lc_literal_commands (command : list str) : option (list (list str)) :=
  '(_, script) ← extract_bash_command command;
  root ← try_parse_shell script;
  if has_error root then None else walk_literal (node_size root) [root] [].
End scripts.

(** ** Finding the shell *)

Lemma detect_shell_fuel f1 f2 p :
  length p ≤ f1 → length p ≤ f2 → detect_shell f1 p = detect_shell f2 p.
Proof.
  revert f2 p. induction f1 as [|f1 IH]; intros f2 p H1 H2.
  - assert (p = []) as -> by (by apply length_zero_iff_nil; lia). by destruct f2.
  - destruct f2 as [|f2].
    { assert (p = []) as -> by (by apply length_zero_iff_nil; lia). done. }
    simpl. repeat (case_bool_decide; [done|]).
    destruct (path_file_stem p) as [stem|] eqn:Hs; [|done].
    destruct (path_eq stem p) eqn:He; [done|].
    apply path_file_stem_length in Hs as [->|Hs].
    + unfold path_eq in He. by rewrite bool_decide_eq_false in He.
    + apply IH; lia.
Qed.

(** The recursion of the source, with no fuel: a path that is not the name of
    a shell is replaced by its file stem until that changes nothing. *)
Lemma detect_shell_type_step p stem :
  p ∉ [lit "zsh"; lit "sh"; lit "cmd"; lit "bash"; lit "pwsh"; lit "powershell"] →
  path_file_stem p = Some stem → path_eq stem p = false →
  detect_shell_type p = detect_shell_type stem.
Proof.
  intros Hp Hs He. unfold detect_shell_type.
  pose proof (path_file_stem_length _ _ Hs) as [->|Hlen].
  { unfold path_eq in He. by rewrite bool_decide_eq_false in He. }
  destruct (length p) as [|n] eqn:Hn; [lia|]. simpl.
  repeat (rewrite bool_decide_eq_false_2 by set_solver).
  rewrite Hs, He. apply detect_shell_fuel; lia.
Qed.

(** ** Induction on syntax trees *)

Lemma Node_nested_ind (P : Node → Prop) :
  (∀ n, Forall P (children n) → P n) → ∀ n, P n.
Proof.
  intros HP. fix IH 1. intros n. apply HP. destruct n as [? ? ? ? ? ? cs]. simpl.
  induction cs as [|c cs IHcs]; constructor; [apply IH|exact IHcs].
Qed.

(** The order in which the walk with a stack meets the nodes. *)
Fixpoint stack_order (n : Node) : list Node :=
  n :: mjoin (reverse (stack_order <$> children n)).

Definition forest_order (ns : list Node) : list Node := mjoin (stack_order <$> ns).

Lemma forest_order_cons n ns :
  forest_order (n :: ns) = n :: forest_order (reverse (children n) ++ ns).
Proof.
  unfold forest_order. simpl. destruct n as [? ? ? ? ? ? cs]; simpl.
  by rewrite fmap_app, join_app, fmap_reverse.
Qed.

Lemma stack_order_preorder n : stack_order n ≡ₚ preorder n.
Proof.
  induction n as [n IH] using Node_nested_ind. destruct n as [? ? ? ? ? ? cs]; simpl in *.
  f_equiv. rewrite reverse_Permutation. induction IH as [|c cs Hc _ IH]; simpl; [done|].
  by rewrite Hc, IH.
Qed.

Lemma walk_plain_spec fuel stack acc :
  sum_list_with node_size stack ≤ fuel →
  walk_plain fuel stack acc =
  if forallb node_allowed (forest_order stack)
  then Some (acc ++ base.filter (λ n, is_command_node n = true) (forest_order stack))
  else None.
Proof.
  revert stack acc. induction fuel as [|fuel IH]; intros stack acc Hf.
  - destruct stack as [|n stack]; simpl in *; [by rewrite app_nil_r|]. destruct n; simpl in Hf; lia.
  - destruct stack as [|n stack]; [by rewrite app_nil_r|].
    rewrite forest_order_cons. cbn [walk_plain forallb].
    destruct (node_allowed n); [|done]. cbn [andb]. rewrite IH.
    + rewrite filter_cons. destruct (is_command_node n); simpl; by rewrite <- app_assoc.
    + rewrite sum_list_with_app, sum_list_with_reverse. destruct n as [? ? ? ? ? ? cs]; simpl in *. lia.
Qed.

(** ** Positions *)

Definition seq_spans (ok : Node → bool) (hi : N) : N → list Node → bool :=
  fix go (lo : N) (cs : list Node) : bool :=
    match cs with
    | [] => (lo <=? hi)%N
    | c :: cs => (lo <=? start_byte c)%N && ok c && go (end_byte c) cs
    end.

(** The spans of a parse tree: a node contains its children, which follow one
    another, and a command is not empty. *)
Fixpoint spans_ok (n : Node) : bool :=
  (negb (is_command_node n) || (start_byte n <? end_byte n)%N)
  && seq_spans spans_ok (end_byte n) (start_byte n) (children n).

Definition span_in (lo hi : N) (m : Node) : Prop :=
  (lo ≤ start_byte m ≤ end_byte m ∧ end_byte m ≤ hi)%N ∧
  (is_command_node m = true → (start_byte m < hi)%N).

Lemma span_in_mono lo hi lo' hi' m :
  span_in lo hi m → (lo' ≤ lo)%N → (hi ≤ hi')%N → span_in lo' hi' m.
Proof. unfold span_in. intros ((? & ?) & Hc) ? ?. split; [lia|]. intros Hm. specialize (Hc Hm). lia. Qed.

(** A forest whose trees have good spans, between two positions. *)
Lemma seq_spans_in hi lo cs :
  Forall (λ c, spans_ok c = true →
    ∀ m, m ∈ preorder c → span_in (start_byte c) (end_byte c) m) cs →
  seq_spans spans_ok hi lo cs = true →
  (lo ≤ hi)%N ∧ ∀ c m, c ∈ cs → m ∈ preorder c → span_in lo hi m.
Proof.
  intros Hcs. revert lo. induction Hcs as [|c cs Hc _ IH]; simpl; intros lo.
  - intros ?%N.leb_le. split; [done|]. set_solver.
  - rewrite !andb_true_iff, N.leb_le. intros ((Hlo & Hok) & Hgo).
    specialize (Hc Hok). destruct (IH _ Hgo) as [Hhi Hrest].
    assert (span_in (start_byte c) (end_byte c) c) as ((? & ?) & _)
      by (apply Hc; destruct c; simpl; set_solver).
    split; [lia|]. intros c' m [->|Hc']%elem_of_cons Hm.
    + eapply span_in_mono; [by apply Hc|lia..].
    + eapply span_in_mono; [by eapply Hrest|lia..].
Qed.

Lemma preorder_inv n m : m ∈ preorder n → m = n ∨ ∃ c, c ∈ children n ∧ m ∈ preorder c.
Proof.
  destruct n as [? ? ? ? ? ? cs]; simpl. intros [->|Hm]%elem_of_cons; [by left|right].
  apply list_elem_of_join in Hm as (l & Hm & (c & -> & Hc)%list_elem_of_fmap). eauto.
Qed.

Lemma spans_ok_unfold n :
  spans_ok n = (negb (is_command_node n) || (start_byte n <? end_byte n)%N)
               && seq_spans spans_ok (end_byte n) (start_byte n) (children n).
Proof. by destruct n. Qed.

Lemma spans_ok_in n :
  spans_ok n = true → ∀ m, m ∈ preorder n → span_in (start_byte n) (end_byte n) m.
Proof.
  induction n as [n IH] using Node_nested_ind. rewrite spans_ok_unfold, andb_true_iff, orb_true_iff.
  intros [Hcmd Hseq]. apply seq_spans_in in Hseq as [Hle Hin]; [|done].
  intros m [->|(c & Hc & Hm)]%preorder_inv.
  - split; [lia|]. intros Hn. rewrite Hn in Hcmd. simpl in Hcmd. destruct Hcmd as [|Hlt]; [done|].
    by apply N.ltb_lt in Hlt.
  - by eapply Hin.
Qed.

(** ** The stable sort puts the commands back in source order *)

Lemma insert_by_app n a b :
  Forall (λ m, (start_byte m < start_byte n)%N) a → insert_by n (a ++ b) = a ++ insert_by n b.
Proof.
  induction 1 as [|m a Hm _ IH]; simpl; [done|].
  destruct (N.leb_spec (start_byte n) (start_byte m)); [lia|]. by rewrite IH.
Qed.

Lemma insert_by_first n l :
  Forall (λ m, (start_byte n ≤ start_byte m)%N) l → insert_by n l = n :: l.
Proof.
  destruct 1 as [|m l Hm _]; simpl; [done|].
  by destruct (N.leb_spec (start_byte n) (start_byte m)); [|lia].
Qed.

Lemma sort_by_start_byte_app later earlier :
  Forall (λ m, Forall (λ m', (start_byte m' < start_byte m)%N) (sort_by_start_byte earlier)) later →
  sort_by_start_byte (later ++ earlier) = sort_by_start_byte earlier ++ sort_by_start_byte later.
Proof.
  induction 1 as [|m later Hm _ IH]; simpl; [by rewrite app_nil_r|].
  unfold sort_by_start_byte in *. simpl. rewrite IH. by apply insert_by_app.
Qed.

Definition commands_of (ns : list Node) : list Node :=
  base.filter (λ n, is_command_node n = true) ns.

Lemma commands_of_app a b : commands_of (a ++ b) = commands_of a ++ commands_of b.
Proof. apply filter_app. Qed.

Lemma elem_of_commands_order n m :
  m ∈ commands_of (stack_order n) ↔ m ∈ preorder n ∧ is_command_node m = true.
Proof. unfold commands_of. rewrite list_elem_of_filter, stack_order_preorder. naive_solver. Qed.

Lemma sort_forest hi lo cs :
  Forall (λ c, spans_ok c = true →
    sort_by_start_byte (commands_of (stack_order c)) = commands_of (preorder c)) cs →
  seq_spans spans_ok hi lo cs = true →
  sort_by_start_byte (commands_of (mjoin (reverse (stack_order <$> cs)))) =
  commands_of (mjoin (preorder <$> cs)).
Proof.
  intros Hcs. revert lo. induction Hcs as [|c cs Hc _ IH]; [done|]. intros lo.
  cbn [seq_spans]. rewrite !andb_true_iff, N.leb_le. intros ((Hlo & Hok) & Hgo).
  rewrite !fmap_cons, reverse_cons, join_app.
  replace (mjoin [stack_order c]) with (stack_order c) by (simpl; by rewrite app_nil_r).
  replace (mjoin (preorder c :: (preorder <$> cs)))
    with (preorder c ++ mjoin (preorder <$> cs)) by done.
  rewrite !commands_of_app, sort_by_start_byte_app.
  - by rewrite (Hc Hok), (IH _ Hgo).
  - apply Forall_forall. intros m Hm. rewrite (Hc Hok). apply Forall_forall. intros m' Hm'.
    apply list_elem_of_filter in Hm' as [Hcmd Hm'], Hm as [_ Hm].
    destruct (spans_ok_in c Hok m' Hm') as [_ Hlt]. specialize (Hlt Hcmd).
    rewrite reverse_Permutation in Hm.
    apply list_elem_of_join in Hm as (l & Hm & (c' & -> & Hc')%list_elem_of_fmap).
    rewrite stack_order_preorder in Hm.
    destruct (seq_spans_in hi (end_byte c) cs) as [_ Hin]; [|done|].
    + apply Forall_forall. intros c'' _. apply spans_ok_in.
    + destruct (Hin c' m Hc' Hm) as [[? _] _]. lia.
Qed.

Lemma sort_tree n :
  spans_ok n = true → sort_by_start_byte (commands_of (stack_order n)) = commands_of (preorder n).
Proof.
  induction n as [n IH] using Node_nested_ind. intros Hok. pose proof (spans_ok_in n Hok) as Hin.
  rewrite spans_ok_unfold, andb_true_iff in Hok. destruct Hok as [_ Hseq].
  pose proof (sort_forest _ _ _ IH Hseq) as Hsort.
  assert (stack_order n = n :: mjoin (reverse (stack_order <$> children n))) as -> by (by destruct n).
  assert (preorder n = n :: mjoin (preorder <$> children n)) as Hpre by (by destruct n).
  rewrite Hpre in Hin |- *. unfold commands_of in *. rewrite !filter_cons.
  destruct (decide (is_command_node n = true)); [|done].
  unfold sort_by_start_byte in *. cbn [foldr]. rewrite Hsort. apply insert_by_first.
  apply Forall_forall. intros m [_ Hm]%list_elem_of_filter.
  destruct (Hin m ltac:(set_solver)) as [[? _] _]. lia.
Qed.

(** C32: splitting a script into plain commands is what its syntax says.  For a
    tree with ordered spans the walk with a stack and the sort by position
    return, exactly when the tree has no error and every node passes the test
    of plain scripts, the plain commands of all the command nodes in source
    order; the walk always ends. *)
Theorem plain_commands_in_source_order (root : Node) :
  spans_ok root = true →
  try_parse_word_only_commands_sequence root =
  if has_error root then None
  else if forallb node_allowed (preorder root)
  then mapM parse_plain_command_from_node
         (base.filter (λ n, is_command_node n = true) (preorder root))
  else None.
Proof.
  intros Hok. unfold try_parse_word_only_commands_sequence. destruct (has_error root); [done|].
  rewrite walk_plain_spec by (simpl; lia). unfold forest_order. simpl. rewrite app_nil_r.
  replace (forallb node_allowed (stack_order root)) with (forallb node_allowed (preorder root)).
  - destruct (forallb node_allowed (preorder root)); [|done]. simpl.
    pose proof (sort_tree root Hok) as Hsort. unfold commands_of in Hsort. by rewrite Hsort.
  - apply eq_true_iff_eq. rewrite !forallb_forall. setoid_rewrite <- list_elem_of_In.
    by setoid_rewrite stack_order_preorder.
Qed.

(** ** Plain commands are literal commands *)

Fixpoint named_preorder (n : Node) : list Node :=
  n :: mjoin ((λ c, if is_named c then named_preorder c else []) <$> children n).

Lemma named_preorder_spec n m :
  m ∈ named_preorder n ↔ m = n ∨ ∃ c, c ∈ named_children n ∧ m ∈ named_preorder c.
Proof.
  destruct n as [? ? ? ? ? ? cs]; unfold named_children; simpl.
  rewrite elem_of_cons, list_elem_of_join. apply or_iff_compat_l. split.
  - intros (l & Hm & (c & -> & Hc)%list_elem_of_fmap). destruct (is_named c) eqn:Hn; [|set_solver].
    exists c. by rewrite list_elem_of_filter.
  - intros (c & [Hn Hc]%list_elem_of_filter & Hm). exists (named_preorder c). split; [done|].
    apply list_elem_of_fmap. exists c. by rewrite Hn.
Qed.

Lemma named_size cs :
  sum_list_with node_size (base.filter (λ c, is_named c = true) cs) ≤ sum_list_with node_size cs.
Proof. induction cs as [|c cs IH]; [done|]. rewrite filter_cons. case_decide; simpl; lia. Qed.

Lemma walk_literal_spec fuel stack acc :
  sum_list_with node_size stack ≤ fuel →
  ∃ res, walk_literal fuel stack acc = Some res ∧
    ∀ cmd, cmd ∈ res ↔ cmd ∈ acc ∨ ∃ n m, n ∈ stack ∧ m ∈ named_preorder n ∧
                                     parse_literal_command_from_node m = Some cmd.
Proof.
  revert stack acc. induction fuel as [|fuel IH]; intros stack acc Hf.
  - destruct stack as [|n stack]; [|destruct n; simpl in Hf; lia].
    exists acc. split; [done|]. set_solver.
  - destruct stack as [|n stack]; [exists acc; split; [done|]; set_solver|].
    cbn [walk_literal]. set (acc' := if is_kind n "command" then _ else _).
    assert (∀ cmd, cmd ∈ acc' ↔ cmd ∈ acc ∨ parse_literal_command_from_node n = Some cmd) as Hacc.
    { intros cmd. unfold acc'. unfold parse_literal_command_from_node at 2.
      destruct (is_kind n "command") eqn:Hk; simpl; [|naive_solver].
      unfold parse_literal_command_from_node. rewrite Hk. simpl.
      destruct (literal_children _ _ _); set_solver. }
    clearbody acc'.
    destruct (IH (reverse (named_children n) ++ stack) acc') as (res & Hres & Hin).
    { rewrite sum_list_with_app, sum_list_with_reverse. unfold named_children.
      pose proof (named_size (children n)). destruct n as [? ? ? ? ? ? cs]; simpl in *. lia. }
    exists res. split; [done|]. intros cmd. rewrite Hin, Hacc.
    setoid_rewrite elem_of_app. setoid_rewrite elem_of_reverse. setoid_rewrite elem_of_cons.
    split.
    + intros [[?|?]|(x & m & [Hx|Hx] & Hm & Hp)]; [by left|right..].
      * exists n, n. split_and!; [by left| |done]. apply named_preorder_spec. by left.
      * exists n, m. split_and!; [by left| |done]. apply named_preorder_spec. eauto.
      * eauto 6.
    + intros [?|(x & m & [->|Hx] & Hm & Hp)]; [by left; left| |].
      * apply named_preorder_spec in Hm as [->|(c & Hc & Hm)]; [by left; right|].
        right. eauto 6.
      * right. eauto 6.
Qed.

(** Tokens have no children, and the name of a command comes first. *)
Definition grammar_ok (root : Node) : bool :=
  is_named root
  && forallb (λ n, is_named n || is_empty (children n)) (preorder root)
  && forallb (λ n, negb (is_command_node n)
                   || is_some_and (named_child0 n) (λ c, is_kind c "command_name"))
       (preorder root).

Lemma self_preorder n : n ∈ preorder n.
Proof. destruct n; simpl. set_solver. Qed.

Lemma child_preorder n c m : c ∈ children n → m ∈ preorder c → m ∈ preorder n.
Proof.
  destruct n as [? ? ? ? ? ? cs]; simpl. intros Hc Hm. apply elem_of_cons. right.
  apply list_elem_of_join. exists (preorder c). split; [done|]. by apply list_elem_of_fmap_2'  with c.
Qed.

Lemma named_in_preorder n m :
  (∀ x, x ∈ preorder n → is_named x || is_empty (children x) = true) →
  m ∈ preorder n → is_named m = true → is_named n = true → m ∈ named_preorder n.
Proof.
  revert m. induction n as [n IH] using Node_nested_ind. intros m Htok Hm Hnm Hn.
  apply named_preorder_spec. apply preorder_inv in Hm as [->|(c & Hc & Hm)]; [by left|right].
  rewrite Forall_forall in IH. assert (is_named c = true) as Hnc.
  { pose proof (Htok c) as Ht. rewrite orb_true_iff in Ht.
    destruct Ht as [|He]; [by eapply child_preorder, self_preorder|done|].
    apply is_empty_true in He. apply preorder_inv in Hm as [->|(c' & Hc' & _)]; [done|].
    rewrite He in Hc'. set_solver. }
  exists c. split; [by apply list_elem_of_filter|]. apply IH; try done.
  intros x Hx. apply Htok. by eapply child_preorder.
Qed.

Definition all_allowed (n : Node) : Prop := ∀ m, m ∈ preorder n → node_allowed m = true.

Lemma all_allowed_child n c : all_allowed n → c ∈ named_children n → all_allowed c ∧ is_named c = true.
Proof.
  intros Hn [Hnc Hc]%list_elem_of_filter. split; [|done]. intros m Hm. apply Hn. by eapply child_preorder.
Qed.

Lemma named_child0_elem n c : named_child0 n = Some c → c ∈ named_children n.
Proof. unfold named_child0. intros H%head_Some_elem_of. done. Qed.

(** A word of a plain script is literal. *)
Lemma allowed_word_literal n w :
  all_allowed n → is_named n = true → is_kind n "word" || is_kind n "number" = true →
  utf8_text n = Some w → parse_literal_shell_word n = Some w.
Proof.
  intros Hall Hn Hk Hw. specialize (Hall n (self_preorder n)). unfold node_allowed in Hall.
  rewrite Hn, Hk in Hall. simpl in Hall. apply andb_true_iff in Hall as [_ Hall].
  rewrite negb_involutive in Hall. destruct n; simpl in *. by rewrite Hk, Hall.
Qed.

Lemma is_kind_eq n k : is_kind n k = true ↔ kind n = lit k.
Proof. unfold is_kind. by rewrite bool_decide_eq_true. Qed.

Lemma is_kind_other n k k' : lit k ≠ lit k' → is_kind n k = true → is_kind n k' = false.
Proof. rewrite is_kind_eq. unfold is_kind. intros H ->. by rewrite bool_decide_eq_false. Qed.

Lemma literal_word_unfold n :
  parse_literal_shell_word n =
  if (is_kind n "word" || is_kind n "number") && is_literal_word_or_number n then utf8_text n
  else if is_kind n "string" then parse_double_quoted_string n
  else if is_kind n "raw_string" then parse_raw_string n
  else if is_kind n "concatenation" then
    concatenated ← concat_parts parse_literal_shell_word (children n) [];
    if is_empty concatenated then None else Some concatenated
  else None.
Proof. by destruct n. Qed.

#[local] Arguments lit : simpl never.

Lemma plain_part_literal n w :
  all_allowed n → is_named n = true → plain_part n = Some w → parse_literal_shell_word n = Some w.
Proof.
  intros Hall Hn. unfold plain_part.
  destruct (is_kind n "word" || is_kind n "number") eqn:Hw; [by apply allowed_word_literal|].
  rewrite literal_word_unfold, Hw. simpl.
  destruct (is_kind n "string"); [done|]. by destruct (is_kind n "raw_string").
Qed.

Lemma concat_parts_plain cs ws acc :
  (∀ c, c ∈ cs → is_named c = true → all_allowed c) →
  mapM plain_part (base.filter (λ c, is_named c = true) cs) = Some ws →
  concat_parts parse_literal_shell_word cs acc = Some (acc ++ mjoin ws).
Proof.
  revert ws acc. induction cs as [|c cs IH]; intros ws acc Hall.
  - intros [= <-]. simpl. by rewrite app_nil_r.
  - rewrite filter_cons. cbn [concat_parts]. case_decide as Hn.
    + rewrite Hn. simpl. intros (w & Hw & (ws' & Hws & [= <-])%bind_Some)%bind_Some.
      rewrite (plain_part_literal c w) by (try done; apply Hall; set_solver). simpl.
      rewrite (IH ws') by (try done; intros; apply Hall; set_solver). simpl.
      by rewrite <- app_assoc.
    + apply not_true_is_false in Hn. rewrite Hn. apply IH. intros; apply Hall; set_solver.
Qed.

Lemma plain_child_literal n w :
  all_allowed n → is_named n = true → is_kind n "command_name" = false →
  plain_child n = Some w → parse_literal_shell_word n = Some w.
Proof.
  intros Hall Hn Hc. unfold plain_child. rewrite Hc.
  destruct (is_kind n "word" || is_kind n "number") eqn:Hw; [by apply allowed_word_literal|].
  rewrite literal_word_unfold, Hw. cbn [andb].
  destruct (is_kind n "string"); [done|]. destruct (is_kind n "raw_string"); [done|].
  destruct (is_kind n "concatenation"); [|done].
  intros (ws & Hws & Hif)%bind_Some.
  rewrite (concat_parts_plain _ ws); [done| |done].
  intros c Hc' Hnc. apply (all_allowed_child n c Hall). by apply list_elem_of_filter.
Qed.

Lemma plain_child_name n w :
  all_allowed n → is_kind n "command_name" = true → plain_child n = Some w →
  ∃ name, named_child0 n = Some name ∧ parse_literal_shell_word name = Some w.
Proof.
  intros Hall Hc. unfold plain_child. rewrite Hc. intros (name & Hname & Hw)%bind_Some.
  exists name. split; [done|]. destruct (is_kind name "word") eqn:Hk; [|done].
  destruct (all_allowed_child n name Hall) as [Ha Hn]; [by apply named_child0_elem|].
  apply allowed_word_literal; [done..| |done]. by rewrite Hk.
Qed.

Lemma literal_children_plain cs ws acc found :
  Forall (λ c, all_allowed c ∧ is_named c = true) cs →
  mapM plain_child cs = Some ws →
  found = true ∨ is_some_and (head cs) (λ c, is_kind c "command_name") = true →
  literal_children cs acc found = Some (acc ++ ws).
Proof.
  intros Hcs. revert ws acc found.
  induction Hcs as [|c cs [Hall Hn] _ IH]; intros ws acc found.
  - intros [= <-] [->|Hf]; [by rewrite app_nil_r|done].
  - cbn [mapM]. intros (w & Hw & (ws' & Hws & [= <-])%bind_Some)%bind_Some Hf. cbn [literal_children].
    destruct (is_kind c "command_name") eqn:Hk.
    + destruct (plain_child_name c w Hall Hk Hw) as (name & -> & Hname). simpl. rewrite Hname. simpl.
      rewrite (IH ws') by auto. by rewrite <- app_assoc.
    + destruct Hf as [->|Hf]; [|simpl in Hf; congruence].
      rewrite (plain_child_literal c w) by done. rewrite (IH ws') by auto. by rewrite <- app_assoc.
Qed.

(** What the dangerous-command check relies on: every plain command of a
    script is among its literal commands. *)
Lemma plain_node_literal n ws :
  all_allowed n → is_some_and (named_child0 n) (λ c, is_kind c "command_name") = true →
  parse_plain_command_from_node n = Some ws → parse_literal_command_from_node n = Some ws.
Proof.
  intros Hall Hname. unfold parse_plain_command_from_node, parse_literal_command_from_node.
  destruct (is_kind n "command"); [|done]. simpl. intros Hws.
  apply (literal_children_plain _ ws []); [|done|by right].
  apply Forall_forall. intros c Hc. by apply all_allowed_child with n.
Qed.

Lemma sort_by_start_byte_perm ns : sort_by_start_byte ns ≡ₚ ns.
Proof.
  induction ns as [|n ns IH]; [done|]. unfold sort_by_start_byte in *. cbn [foldr].
  rewrite <- IH at 2. generalize (foldr insert_by [] ns). intros l. clear.
  induction l as [|m l IH]; simpl; [done|]. case_match; [done|]. rewrite IH. constructor.
Qed.

Lemma parse_plain_inv root cmds :
  try_parse_word_only_commands_sequence root = Some cmds →
  has_error root = false ∧ all_allowed root ∧
  ∀ cmd, cmd ∈ cmds → ∃ n, n ∈ preorder root ∧ is_command_node n = true ∧
                        parse_plain_command_from_node n = Some cmd.
Proof.
  unfold try_parse_word_only_commands_sequence. destruct (has_error root); [done|].
  rewrite walk_plain_spec by (simpl; lia). unfold forest_order. simpl. rewrite app_nil_r.
  destruct (forallb _ _) eqn:Hall; [|done]. simpl. intros Hm.
  split; [done|]. split.
  - intros m Hm'. rewrite forallb_forall in Hall. apply Hall, list_elem_of_In.
    by rewrite stack_order_preorder.
  - intros cmd Hcmd. apply mapM_Some in Hm.
    apply list_elem_of_lookup in Hcmd as (i & Hi).
    destruct (Forall2_lookup_r _ _ _ _ _ Hm Hi) as (n & Hn%list_elem_of_lookup_2 & Hp).
    exists n. rewrite sort_by_start_byte_perm in Hn. by apply elem_of_commands_order in Hn as [??].
Qed.

(** What tree-sitter documents of the trees it returns. *)
Class GrammarLaws (try_parse_shell : str → option Node) := {
  tree_grammar script root :
    try_parse_shell script = Some root → has_error root = false → grammar_ok root = true;
}.

Lemma plain_in_literal try_parse_shell `{!GrammarLaws try_parse_shell} command cmds :
  parse_shell_lc_plain_commands try_parse_shell command = Some cmds →
  ∃ lits, parse_shell_lc_literal_commands try_parse_shell command = Some lits ∧
    ∀ cmd, cmd ∈ cmds → cmd ∈ lits.
Proof.
  unfold parse_shell_lc_plain_commands, parse_shell_script_into_commands,
    parse_shell_lc_literal_commands.
  intros ([shell script] & -> & (root & Hroot & Hplain)%bind_Some)%bind_Some. simpl. rewrite Hroot.
  simpl. apply parse_plain_inv in Hplain as (He & Hall & Hcmds). rewrite He.
  pose proof (tree_grammar _ _ Hroot He) as Hg. unfold grammar_ok in Hg.
  rewrite !andb_true_iff, !forallb_forall in Hg. destruct Hg as [[Hn Htok] Hname].
  destruct (walk_literal_spec (node_size root) [root] []) as (lits & -> & Hlits); [simpl; lia|].
  exists lits. split; [done|]. intros cmd (n & Hin & Hc & Hp)%Hcmds. apply Hlits. right.
  exists root, n. split_and!; [set_solver| |].
  - apply named_in_preorder; [|done| |done].
    + intros x Hx. by apply Htok, list_elem_of_In.
    + unfold is_command_node in Hc. by apply andb_true_iff in Hc as [? _].
  - apply plain_node_literal; [| |done].
    + intros m Hm. apply Hall. clear -Hin Hm. revert Hin.
      induction root as [root IH] using Node_nested_ind.
      intros [->|(c & Hc & Hin)]%preorder_inv; [done|]. rewrite Forall_forall in IH.
      eapply child_preorder; [exact Hc|]. by apply IH.
    + specialize (Hname n). rewrite <- list_elem_of_In, Hc in Hname. by apply Hname.
Qed.
