(* ===== verification/DangerousCommand.v ===== *)
(** * Dangerous commands

    [codex-rs/shell-command/src/command_safety/is_dangerous_command.rs] on a
    target that is not Windows: a forced [rm], possibly under [sudo], [env],
    [trap] and shell scripts. *)

From S2P Require Import Prelude RustStr UnixPath ShellParse.

Inductive DangerousCommandMatch := ForcedRm | Other.

#[global] Instance DangerousCommandMatch_eq_dec : EqDecision DangerousCommandMatch.
Proof. solve_decision. Defined.

Definition max_dangerous_command_wrapper_depth : nat := 8.

Definition executable_name_lookup_key (raw : str) : option str := path_file_name raw.

Fixpoint take_while {A} (p : A → bool) (l : list A) : list A :=
  match l with
  | [] => []
  | x :: l => if p x then x :: take_while p l else []
  end.

Definition rm_args_include_force_option (args : list str) : bool :=
  existsb (λ arg,
      bool_decide (arg = lit "--force")
      || is_some_and (strip_prefix (lit "-") arg) (λ flags,
           negb (starts_with flags (lit "-")) && contains_char flags 102))
    (take_while (λ arg, negb (bool_decide (arg = lit "--"))) args).

(** The arguments of [env] from the command it runs on. *)
Fixpoint skip_env_assignments (args : list str) : list str :=
  match args with
  | [] => []
  | argument :: args' =>
      if bool_decide (argument = lit "--") then args'
      else if bool_decide (argument = lit "-i") || bool_decide (argument = lit "--ignore-environment")
              || is_some_and (split_once 61 argument) (λ '(name, _),
                   negb (is_empty name) && negb (starts_with name (lit "-")))
      then skip_env_assignments args'
      else args
  end.

(** The script that [trap] stores. *)
Definition trap_action (command : list str) : option str :=
  let action_index :=
    if is_some_and (command !! 1) (λ argument, bool_decide (argument = lit "--")) then 2 else 1 in
  action ← command !! action_index;
  if starts_with action (lit "-") then None else Some action.

Section dangerous.
Context (try_parse_shell : str → option Node).

(** The checks that recur, over the check [rec] one wrapper deeper. *)
Definition dangerous_command_match_for_env (rec : list str → option DangerousCommandMatch)
    (command : list str) : option DangerousCommandMatch :=
  rec (skip_env_assignments (drop 1 command)).

Definition dangerous_command_match_for_trap (rec : list str → option DangerousCommandMatch)
    (command : list str) : option DangerousCommandMatch :=
  action ← trap_action command; rec [lit "sh"; lit "-c"; action].

Definition dangerous_command_match_for_exec (rec : list str → option DangerousCommandMatch)
    (command : list str) : option DangerousCommandMatch :=
  match head command ≫= executable_name_lookup_key with
  | None => None
  | Some cmd0 =>
      if bool_decide (cmd0 = lit "rm") && rm_args_include_force_option (drop 1 command)
      then Some ForcedRm
      else if bool_decide (cmd0 = lit "sudo") then rec (drop 1 command)
      else if bool_decide (cmd0 = lit "env") then dangerous_command_match_for_env rec command
      else if bool_decide (cmd0 = lit "trap") then dangerous_command_match_for_trap rec command
      else None
  end.

Fixpoint find_map {A B} (f : A → option B) (l : list A) : option B :=
  match l with
  | [] => None
  | x :: l => match f x with Some y => Some y | None => find_map f l end
  end.

(** The recursion, by the number of wrappers that may still be opened: it is
    zero when [wrapper_depth] exceeds the maximum. *)
Fixpoint dangerous_within (remaining : nat) (command : list str) : option DangerousCommandMatch :=
  match remaining with
  | O => Some Other
  | S remaining =>
      match dangerous_command_match_for_exec (dangerous_within remaining) command with
      | Some dangerous_match => Some dangerous_match
      | None =>
          commands ← parse_shell_lc_literal_commands try_parse_shell command;
          find_map (dangerous_within remaining) commands
      end
  end.

Definition dangerous_command_match_with_depth (command : list str) (wrapper_depth : nat)
    : option DangerousCommandMatch :=
  dangerous_within (S max_dangerous_command_wrapper_depth - wrapper_depth) command.

Definition dangerous_command_match (command : list str) : option DangerousCommandMatch :=
  dangerous_command_match_with_depth command 0.

(** ** What the check looks for *)

(** One wrapper opened. *)
Inductive unwraps : list str → list str → Prop :=
| unwraps_sudo cmd0 args :
    executable_name_lookup_key cmd0 = Some (lit "sudo") → unwraps (cmd0 :: args) args
| unwraps_env cmd0 args :
    executable_name_lookup_key cmd0 = Some (lit "env") →
    unwraps (cmd0 :: args) (skip_env_assignments args)
| unwraps_trap cmd0 args action :
    executable_name_lookup_key cmd0 = Some (lit "trap") →
    trap_action (cmd0 :: args) = Some action →
    unwraps (cmd0 :: args) [lit "sh"; lit "-c"; action]
| unwraps_script command commands inner :
    parse_shell_lc_literal_commands try_parse_shell command = Some commands →
    inner ∈ commands → unwraps command inner.

(** [rm] with an option [--force] or a group of flags with [f], before [--]. *)
Definition forced_rm (command : list str) : Prop :=
  ∃ cmd0 args, command = cmd0 :: args ∧
    executable_name_lookup_key cmd0 = Some (lit "rm") ∧ rm_args_include_force_option args = true.

Lemma find_map_Some {A B} (f : A → option B) l y :
  find_map f l = Some y → ∃ x, x ∈ l ∧ f x = Some y.
Proof.
  induction l as [|x l IH]; simpl; [done|]. destruct (f x) eqn:Hx.
  - intros [= ->]. exists x. set_solver.
  - intros (z & ? & ?)%IH. exists z. set_solver.
Qed.

Lemma find_map_None {A B} (f : A → option B) l :
  find_map f l = None → ∀ x, x ∈ l → f x = None.
Proof. induction l as [|x l IH]; simpl; [set_solver|]. destruct (f x) eqn:Hx; set_solver. Qed.

#[local] Arguments lit : simpl never.

(** The check with room for [S n] more wrappers, as one step: a forced [rm]
    here, or the check on a command one wrapper in. *)
Lemma dangerous_within_step n command d :
  dangerous_within (S n) command = Some d →
  (forced_rm command ∧ d = ForcedRm) ∨
  ∃ inner, unwraps command inner ∧ dangerous_within n inner = Some d.
Proof.
  cbn [dangerous_within]. destruct (dangerous_command_match_for_exec _ _) as [d'|] eqn:Hexec.
  - intros [= ->]. revert Hexec. unfold dangerous_command_match_for_exec.
    destruct command as [|cmd0 args]; [done|]. simpl.
    destruct (executable_name_lookup_key cmd0) as [k|] eqn:Hk; [|done]. rewrite drop_0.
    case_bool_decide as Hrm; subst; simpl.
    + destruct (rm_args_include_force_option args) eqn:Hf.
      * intros [= <-]. left. split; [|done]. exists cmd0, args. done.
      * done.
    + case_bool_decide as Hsudo; subst.
      { intros H. right. exists args. split; [by eapply unwraps_sudo|done]. }
      case_bool_decide as Henv; subst.
      { intros H. right. eexists. split; [by eapply unwraps_env|]. exact H. }
      case_bool_decide as Htrap; subst; [|done].
      unfold dangerous_command_match_for_trap. intros (action & Ha & H)%bind_Some. right.
      eexists. split; [by eapply unwraps_trap|done].
  - intros (commands & Hc & (inner & Hin & Hd)%find_map_Some)%bind_Some. right.
    exists inner. split; [by eapply unwraps_script|done].
Qed.

Lemma dangerous_within_none n command :
  dangerous_within (S n) command = None →
  ¬ forced_rm command ∧ ∀ inner, unwraps command inner → dangerous_within n inner = None.
Proof.
  cbn [dangerous_within]. destruct (dangerous_command_match_for_exec _ _) as [d'|] eqn:Hexec; [done|].
  intros Hscript. unfold dangerous_command_match_for_exec in Hexec.
  unfold dangerous_command_match_for_env, dangerous_command_match_for_trap in Hexec. split.
  - intros (cmd0 & args & -> & Hk & Hf). simpl in Hexec. rewrite Hk, drop_0, Hf in Hexec. done.
  - intros inner Hu. destruct Hu as [cmd0 args Hk|cmd0 args Hk|cmd0 args action Hk Ha|
      command commands inner Hc Hin].
    + simpl in Hexec. rewrite Hk in Hexec. by rewrite drop_0 in Hexec.
    + simpl in Hexec. rewrite Hk in Hexec. by rewrite drop_0 in Hexec.
    + simpl in Hexec. rewrite Hk, Ha in Hexec. done.
    + rewrite Hc in Hscript. by eapply find_map_None.
Qed.

Lemma dangerous_within_spec n command :
  match dangerous_within n command with
  | Some ForcedRm => ∃ k rm, k < n ∧ nsteps unwraps k command rm ∧ forced_rm rm
  | Some Other => ∃ inner, nsteps unwraps n command inner
  | None => (∀ inner, ¬ nsteps unwraps n command inner) ∧
            ∀ k rm, k < n → nsteps unwraps k command rm → ¬ forced_rm rm
  end.
Proof.
  revert command. induction n as [|n IH]; intros command.
  - simpl. exists command. constructor.
  - destruct (dangerous_within (S n) command) as [d|] eqn:Hd.
    + destruct (dangerous_within_step _ _ _ Hd) as [[Hrm ->]|(inner & Hu & Hin)].
      * exists 0, command. split_and!; [lia|constructor|done].
      * specialize (IH inner). rewrite Hin in IH. destruct d.
        -- destruct IH as (k & rm & ? & ? & ?). exists (S k), rm.
           split_and!; [lia|eapply nsteps_l; eassumption|done].
        -- destruct IH as (last & ?). exists last. eapply nsteps_l; eassumption.
    + destruct (dangerous_within_none _ _ Hd) as [Hrm Hin]. split.
      * intros inner Hs. inversion_clear Hs as [|? ? mid ? Hu Hs']. specialize (IH mid).
        rewrite (Hin mid Hu) in IH. destruct IH as [IH _]. by apply (IH inner).
      * intros k rm Hk Hs. destruct k as [|k]; [by inversion Hs; subst|].
        inversion_clear Hs as [|? ? mid ? Hu Hs']. specialize (IH mid).
        rewrite (Hin mid Hu) in IH. destruct IH as [_ IH]. apply (IH k rm); [lia|done].
Qed.

(** C25: the check for dangerous commands finds exactly the forced removals
    under at most eight wrappers ([sudo], [env], [trap] or a shell script), and
    fails closed beyond: the match is [ForcedRm] only if such a removal is
    there, [Other] only if a ninth wrapper can be opened, and there is no match
    exactly when neither is the case. *)
Theorem dangerous_command_match_spec command :
  match dangerous_command_match command with
  | Some ForcedRm =>
      ∃ k rm, k ≤ max_dangerous_command_wrapper_depth ∧ nsteps unwraps k command rm ∧ forced_rm rm
  | Some Other =>
      ∃ inner, nsteps unwraps (S max_dangerous_command_wrapper_depth) command inner
  | None =>
      (∀ inner, ¬ nsteps unwraps (S max_dangerous_command_wrapper_depth) command inner) ∧
      ∀ k rm, k ≤ max_dangerous_command_wrapper_depth → nsteps unwraps k command rm →
              ¬ forced_rm rm
  end.
Proof.
  unfold dangerous_command_match, dangerous_command_match_with_depth.
  replace (S max_dangerous_command_wrapper_depth - 0)
    with (S max_dangerous_command_wrapper_depth) by lia.
  pose proof (dangerous_within_spec (S max_dangerous_command_wrapper_depth) command) as H.
  destruct (dangerous_within _ command) as [[]|].
  - destruct H as (k & rm & ? & ? & ?). exists k, rm. split; [lia|done].
  - done.
  - destruct H as [H1 H2]. split; [done|]. intros k rm Hk. apply H2. lia.
Qed.

Lemma nsteps_first {A} (R : relation A) n m x z : n ≤ m → nsteps R m x z → ∃ y, nsteps R n x y.
Proof.
  revert m x. induction n as [|n IH]; intros m x Hle Hs; [exists x; constructor|].
  destruct Hs as [|m x y z Hxy Hs]; [lia|]. destruct (IH m y) as (w & ?); [lia|done|].
  exists w. eapply nsteps_l; eassumption.
Qed.

(** One more wrapper does not hide what the check finds. *)
Lemma dangerous_unwraps command inner :
  unwraps command inner → dangerous_command_match inner ≠ None →
  dangerous_command_match command ≠ None.
Proof.
  intros Hu Hin Hout. apply Hin.
  unfold dangerous_command_match, dangerous_command_match_with_depth in *.
  set (n := S max_dangerous_command_wrapper_depth - 0) in *.
  pose proof (dangerous_within_spec n command) as Ho. rewrite Hout in Ho. destruct Ho as [Ho1 Ho2].
  pose proof (dangerous_within_spec n inner) as Hi.
  assert (∀ last, ¬ nsteps unwraps n inner last) as Hno.
  { intros last Hs. destruct (nsteps_first unwraps n (S n) command last) as (y & ?); [lia|eapply nsteps_l; eassumption|].
    by eapply Ho1. }
  destruct (dangerous_within n inner) as [[]|]; [|..|done].
  - destruct Hi as (k & rm & Hk & Hs & Hrm). destruct (decide (S k < n)).
    + destruct (Ho2 (S k) rm); [done|eapply nsteps_l; eassumption|done].
    + replace n with (S k) in * by lia. destruct (Ho1 rm). eapply nsteps_l; eassumption.
  - destruct Hi as (last & ?). by apply Hno in H.
Qed.

(** A script is at least as dangerous as its parts.  If a plain command
    that a shell invocation is split into is dangerous, the whole invocation is
    found dangerous as well. *)
Theorem plain_parts_covered `{!GrammarLaws try_parse_shell} command cmds cmd :
  parse_shell_lc_plain_commands try_parse_shell command = Some cmds →
  cmd ∈ cmds → dangerous_command_match cmd ≠ None → dangerous_command_match command ≠ None.
Proof.
  intros Hp Hin. destruct (plain_in_literal _ _ _ Hp) as (lits & Hl & Hsub).
  apply dangerous_unwraps. eapply unwraps_script; [done|by apply Hsub].
Qed.
End dangerous.

(** ** A parser for one script *)

Definition leaf (k : String.string) (named : bool) (a b : N) (text : str) : Node :=
  mk_node (lit k) named false a b (Some text) [].
Definition inner_node (k : String.string) (a b : N) (cs : list Node) : Node :=
  mk_node (lit k) true false a b None cs.

(** The tree of [ls && sudo rm -rf x]. *)
Definition demo_script : str := lit "ls && sudo rm -rf x".
Definition demo_tree : Node :=
  inner_node "program" 0 19
    [inner_node "list" 0 19
       [inner_node "command" 0 2 [inner_node "command_name" 0 2 [leaf "word" true 0 2 (lit "ls")]];
        leaf "&&" false 3 5 (lit "&&");
        inner_node "command" 6 19
          [inner_node "command_name" 6 10 [leaf "word" true 6 10 (lit "sudo")];
           leaf "word" true 11 13 (lit "rm"); leaf "word" true 14 17 (lit "-rf");
           leaf "word" true 18 19 (lit "x")]]].
Definition demo_shell (script : str) : option Node :=
  if bool_decide (script = demo_script) then Some demo_tree else None.

#[export] Instance demo_shell_laws : GrammarLaws demo_shell.
Proof.
  constructor. intros script root. unfold demo_shell. case_bool_decide; [|done].
  intros [= <-] _. vm_compute. reflexivity.
Qed.

Lemma plain_commands_in_source_order_witness :
  try_parse_word_only_commands_sequence demo_tree =
  if has_error demo_tree then None
  else if forallb node_allowed (preorder demo_tree)
  then mapM parse_plain_command_from_node
         (base.filter (λ n, is_command_node n = true) (preorder demo_tree))
  else None.
Proof. apply plain_commands_in_source_order. vm_compute. reflexivity. Defined.

Example demo_plain :
  try_parse_word_only_commands_sequence demo_tree =
  Some [[lit "ls"]; [lit "sudo"; lit "rm"; lit "-rf"; lit "x"]].
Proof. vm_compute. reflexivity. Qed.

Lemma plain_parts_covered_witness :
  dangerous_command_match demo_shell [lit "/bin/bash"; lit "-lc"; demo_script] ≠ None.
Proof.
  apply (plain_parts_covered demo_shell) with
    (cmds := [[lit "ls"]; [lit "sudo"; lit "rm"; lit "-rf"; lit "x"]])
    (cmd := [lit "sudo"; lit "rm"; lit "-rf"; lit "x"]).
  - vm_compute. reflexivity.
  - right. left.
  - vm_compute. discriminate.
Defined.

(** [env] nested eight and nine times over a forced [rm]. *)
Example wrappers_fail_closed :
  dangerous_command_match demo_shell (replicate 8 (lit "env") ++ [lit "rm"; lit "-rf"; lit "x"])
    = Some ForcedRm ∧
  dangerous_command_match demo_shell (replicate 9 (lit "env") ++ [lit "rm"; lit "-rf"; lit "x"])
    = Some Other ∧
  dangerous_command_match demo_shell (replicate 9 (lit "env") ++ [lit "ls"]) = Some Other ∧
  dangerous_command_match demo_shell [lit "rm"; lit "--"; lit "-f"] = None.
Proof. vm_compute. done. Qed.
