(* ===== verification/ExecApproval.v ===== *)
(** * Approval of commands

    [codex-rs/core/src/exec_policy.rs] with [exec_policy/model_policy.rs] and
    [exec_policy/executable_identity.rs], on a target that is not Windows: the
    policy that is in force, the decision on commands no rule covers, the
    requirement for running a command, the amendments that are proposed, and
    the updates of the policy.  [update_lock] makes the updates follow one
    another; the blocking task that appends a rule does not panic and the
    semaphore is never closed, so those two errors do not occur. *)

From S2P Require Import Prelude RustStr UnixPath Permissions ExecRule.
From S2P Require Import ExecPolicy ExecFs ExecPolicyAmend ShellParse DangerousCommand.

(** ** Approval settings ([codex-rs/protocol]) *)

Record GranularApprovalConfig := {
  sandbox_approval : bool;
  rules : bool;
  skill_approval : bool;
  request_permissions : bool;
  mcp_elicitations : bool;
}.

Inductive AskForApproval :=
| UnlessTrusted
| OnRequest
| Granular (granular_config : GranularApprovalConfig)
| Never.

Inductive SandboxPermissions := UseDefault | RequireEscalated | WithAdditionalPermissions.

Definition requests_sandbox_override (p : SandboxPermissions) : bool :=
  match p with UseDefault => false | _ => true end.

(** ** Requests and requirements *)

Inductive AllowPrefixRules := Honor | IgnoreForCyberModel.

#[global] Instance AllowPrefixRules_eq_dec : EqDecision AllowPrefixRules.
Proof. solve_decision. Defined.

(** [ExecPolicyAmendment] is the command prefix it allows. *)
Inductive ExecApprovalRequirement :=
| Skip (bypass_sandbox : bool) (proposed_execpolicy_amendment : option (list str))
| NeedsApproval (reason : option str) (proposed_execpolicy_amendment : option (list str))
| RequirementForbidden (reason : str).

Definition proposed_execpolicy_amendment (r : ExecApprovalRequirement) : option (list str) :=
  match r with
  | NeedsApproval _ prefix | Skip _ prefix => prefix
  | RequirementForbidden _ => None
  end.

Definition prompt_conflict_reason : str :=
  lit "approval required by policy, but AskForApproval is set to Never".
Definition reject_sandbox_approval_reason : str :=
  lit "approval required by policy, but AskForApproval::Granular.sandbox_approval is false".
Definition reject_rules_approval_reason : str :=
  lit "approval required by policy rule, but AskForApproval::Granular.rules is false".

Definition banned_prefix_suggestions : list (list str) :=
  [[lit "/bin/bash"]; [lit "/bin/bash"; lit "-c"]; [lit "/bin/bash"; lit "-lc"]; [lit "/bin/sh"];
   [lit "/bin/sh"; lit "-c"]; [lit "/bin/sh"; lit "-lc"]; [lit "/bin/zsh"];
   [lit "/bin/zsh"; lit "-c"]; [lit "/bin/zsh"; lit "-lc"]; [lit "Rscript"]; [lit "bash"];
   [lit "bash"; lit "-c"]; [lit "bash"; lit "-lc"]; [lit "bun"]; [lit "bun"; lit "-e"];
   [lit "bun"; lit "run"]; [lit "cmd"]; [lit "cmd"; lit "/c"]; [lit "cmd"; lit "/k"];
   [lit "cmd.exe"]; [lit "cmd.exe"; lit "/c"]; [lit "cmd.exe"; lit "/k"]; [lit "dash"];
   [lit "dash"; lit "-c"]; [lit "deno"]; [lit "deno"; lit "eval"]; [lit "env"]; [lit "fish"];
   [lit "fish"; lit "-c"]; [lit "git"]; [lit "julia"]; [lit "julia"; lit "-e"]; [lit "ksh"];
   [lit "ksh"; lit "-c"]; [lit "lua"]; [lit "lua"; lit "-e"]; [lit "node"];
   [lit "node"; lit "-e"]; [lit "nodejs"]; [lit "nodejs"; lit "-e"]; [lit "npm"; lit "run"];
   [lit "osascript"]; [lit "perl"]; [lit "perl"; lit "-e"]; [lit "php"]; [lit "php"; lit "-r"];
   [lit "pnpm"; lit "run"]; [lit "powershell"]; [lit "powershell"; lit "-Command"];
   [lit "powershell"; lit "-EncodedCommand"]; [lit "powershell"; lit "-File"];
   [lit "powershell"; lit "-c"]; [lit "powershell.exe"]; [lit "powershell.exe"; lit "-Command"];
   [lit "powershell.exe"; lit "-EncodedCommand"]; [lit "powershell.exe"; lit "-File"];
   [lit "powershell.exe"; lit "-c"]; [lit "pwsh"]; [lit "pwsh"; lit "-Command"];
   [lit "pwsh"; lit "-EncodedCommand"]; [lit "pwsh"; lit "-File"]; [lit "pwsh"; lit "-c"];
   [lit "pwsh"; lit "-e"]; [lit "pwsh"; lit "-ec"]; [lit "pwsh"; lit "-f"]; [lit "py"];
   [lit "py"; lit "-3"]; [lit "pypy"]; [lit "pypy3"]; [lit "python"]; [lit "python"; lit "-"];
   [lit "python"; lit "-c"]; [lit "python3"]; [lit "python3"; lit "-"];
   [lit "python3"; lit "-c"]; [lit "pythonw"]; [lit "pyw"]; [lit "rm"]; [lit "ruby"];
   [lit "ruby"; lit "-e"]; [lit "sh"]; [lit "sh"; lit "-c"]; [lit "sh"; lit "-lc"]; [lit "sudo"];
   [lit "yarn"; lit "run"]; [lit "zsh"]; [lit "zsh"; lit "-c"]; [lit "zsh"; lit "-lc"]].

Definition prompt_is_rejected_by_policy (approval_policy : AskForApproval) (prompt_is_rule : bool)
    : option str :=
  match approval_policy with
  | Never => Some prompt_conflict_reason
  | OnRequest => None
  | UnlessTrusted => None
  | Granular granular_config =>
      if prompt_is_rule then
        if negb (rules granular_config) then Some reject_rules_approval_reason else None
      else if negb (sandbox_approval granular_config) then Some reject_sandbox_approval_reason
      else None
  end.

(** [default_exec_approval_requirement] of [tools/sandboxing.rs]. *)
Definition default_exec_approval_requirement {uri} (policy : AskForApproval)
    (file_system_sandbox_policy : FileSystemSandboxPolicy uri) : ExecApprovalRequirement :=
  let needs_approval :=
    match policy with
    | Never => false
    | OnRequest | Granular _ =>
        match fs_kind file_system_sandbox_policy with Restricted => true | _ => false end
    | UnlessTrusted => true
    end in
  if needs_approval
     && match policy with Granular config => negb (sandbox_approval config) | _ => false end
  then RequirementForbidden (lit "approval policy disallowed sandbox approval prompt")
  else if needs_approval then NeedsApproval None None
  else Skip false None.

#[local] Set Default Proof Using "Type".

Section approval.
(** [AbsolutePathBuf], tree-sitter and [shlex::try_join]. *)
Context {abs_path : Type} `{!EqDecision abs_path}
  (try_from : str → option abs_path) (file_name : abs_path → option str)
  (try_parse_shell : str → option Node) (try_join : list str → option str) {uri : Type}.

Abbreviation policy := (@Policy abs_path).
Abbreviation evaluation := (@Evaluation abs_path).
Abbreviation rule_match := (RuleMatch abs_path).

Record ExecApprovalRequest := {
  req_command : list str;
  approval_policy : AskForApproval;
  permission_profile : PermissionProfile uri;
  environment_policy : option policy;
  sandbox_permissions : SandboxPermissions;
  prefix_rule : option (list str);
  allow_prefix_rules : AllowPrefixRules;
}.

Definition match_options : MatchOptions := {| resolve_host_executables := true |}.

Definition is_policy_match (m : rule_match) : bool :=
  match m with PrefixRuleMatch _ _ _ _ => true | HeuristicsRuleMatch _ _ => false end.

Definition has_decision (d : Decision) (m : rule_match) : bool :=
  is_policy_match m && bool_decide (match_decision m = d).

(** ** The policy in force ([model_policy.rs]) *)

Definition current_for_prefix_rules (current : policy) (mode : AllowPrefixRules) : policy :=
  if bool_decide (mode = Honor) then current
  else
    {| rules_by_program :=
         foldl (λ m '(program, rule), multi_insert program rule m) ∅
           (mjoin ((λ '(program, rules),
                      (pair program) <$> base.filter (λ rule, is_allow rule = false) rules)
                   <$> map_to_list (rules_by_program current)));
       network_rules := network_rules current;
       host_executables_by_name := host_executables_by_name current |}.

Definition current_for_environment (current : policy) (environment : option policy)
    (mode : AllowPrefixRules) : policy :=
  let p := current_for_prefix_rules current mode in
  match environment with Some overlay => merge_overlay p overlay | None => p end.

(** ** Commands that no rule covers *)

Definition render_decision_for_unmatched_command (approval : AskForApproval)
    (profile : PermissionProfile uri) (permissions : SandboxPermissions) (command : list str)
    : Decision :=
  if negb (is_none (dangerous_command_match try_parse_shell command)) then
    match approval with Never => Forbidden | OnRequest | UnlessTrusted | Granular _ => Prompt end
  else
    match approval with
    | Never => Allow
    | UnlessTrusted => Prompt
    | OnRequest =>
        match fs_kind (file_system_sandbox_policy profile) with
        | Unrestricted | ExternalSandbox => Allow
        | Restricted => if requests_sandbox_override permissions then Prompt else Allow
        end
    | Granular _ =>
        match fs_kind (file_system_sandbox_policy profile) with
        | Unrestricted | ExternalSandbox => Allow
        | Restricted => if requests_sandbox_override permissions then Prompt else Allow
        end
    end.

Definition commands_for_exec_policy (command : list str) : list (list str) :=
  match parse_shell_lc_plain_commands try_parse_shell command with
  | Some commands => if negb (is_empty commands) then commands else [command]
  | None => [command]
  end.

(** ** Proposed amendments *)

Definition find_heuristics (d : Decision) : list rule_match → option (list str) :=
  find_map (λ m, match m with
                 | HeuristicsRuleMatch command decision =>
                     if bool_decide (decision = d) then Some command else None
                 | _ => None
                 end).

Definition try_derive_execpolicy_amendment_for_prompt_rules (matched : list rule_match)
    : option (list str) :=
  if existsb (has_decision Prompt) matched then None else find_heuristics Prompt matched.

Definition try_derive_execpolicy_amendment_for_allow_rules (matched : list rule_match)
    : option (list str) :=
  if existsb is_policy_match matched then None else find_heuristics Allow matched.

Definition prefix_rule_would_approve_all_commands (exec_policy : policy) (prefix : list str)
    (commands : list (list str)) (fallback : list str → Decision) : bool :=
  match add_prefix_rule exec_policy prefix Allow with
  | Err _ => false
  | Ok policy_with_prefix_rule =>
      forallb (λ command,
          is_some_and
            (check_with_options try_from file_name policy_with_prefix_rule command fallback
               match_options)
            (λ ev, bool_decide (ev_decision ev = Allow)))
        commands
  end.

Definition derive_requested_execpolicy_amendment_from_prefix_rule
    (prefix : option (list str)) (matched : list rule_match) (exec_policy : policy)
    (commands : list (list str)) (fallback : list str → Decision) : option (list str) :=
  prefix ← prefix;
  if is_empty prefix then None
  else if existsb (λ banned, bool_decide (prefix = banned)) banned_prefix_suggestions then None
  else if existsb is_policy_match matched then None
  else if prefix_rule_would_approve_all_commands exec_policy prefix commands fallback
  then Some prefix else None.

(** ** Reasons *)

Definition render_shlex_command (args : list str) : str :=
  default (join (lit " ") args) (try_join args).

(** [Iterator::max_by_key]: the last of the greatest. *)
Definition max_by_length {A} (l : list (list str * A)) : option (list str * A) :=
  foldl (λ best x,
      match best with
      | Some b => if length (fst b) <=? length (fst x) then Some x else Some b
      | None => Some x
      end) None l.

Definition rule_matches_with (d : Decision) : list rule_match → list (list str * option str) :=
  omap (λ m, match m with
             | PrefixRuleMatch matched_prefix decision _ justification =>
                 if bool_decide (decision = d) then Some (matched_prefix, justification) else None
             | _ => None
             end).

Definition quoted (command : str) : str := lit "`" ++ command ++ lit "`".

Definition derive_prompt_reason (command_args : list str) (ev : evaluation) : option str :=
  let command := render_shlex_command command_args in
  match max_by_length (rule_matches_with Prompt (matched_rules ev)) with
  | Some (_, Some justification) =>
      Some (quoted command ++ lit " requires approval: " ++ justification)
  | Some (_, None) => Some (quoted command ++ lit " requires approval by policy")
  | None => None
  end.

Definition dangerous_command_rejection_reason (m : DangerousCommandMatch) : str :=
  match m with
  | ForcedRm => lit "rm -f style commands are not permitted. Use a safer approach"
  | Other => lit "blocked by policy"
  end.

Definition derive_forbidden_reason (command_args : list str) (ev : evaluation)
    (dangerous : option DangerousCommandMatch) : str :=
  let command := render_shlex_command command_args in
  match max_by_length (rule_matches_with Forbidden (matched_rules ev)) with
  | Some (_, Some justification) => quoted command ++ lit " rejected: " ++ justification
  | Some (matched_prefix, None) =>
      quoted command ++ lit " rejected: policy forbids commands starting with "
      ++ quoted (render_shlex_command matched_prefix)
  | None =>
      match dangerous with
      | Some m => quoted command ++ lit " rejected: " ++ dangerous_command_rejection_reason m
      | None => quoted command ++ lit " rejected: blocked by policy"
      end
  end.

Definition derive_rejected_prompt_reason (fallback_reason : str)
    (dangerous : option DangerousCommandMatch) : str :=
  match dangerous with
  | Some ForcedRm => dangerous_command_rejection_reason ForcedRm
  | Some Other | None => fallback_reason
  end.

Definition dangerous_command_match_for_heuristics (ev : evaluation) (d : Decision)
    : option DangerousCommandMatch :=
  find_map (λ m, match m with
                 | HeuristicsRuleMatch command decision =>
                     if bool_decide (decision = d)
                     then dangerous_command_match try_parse_shell command else None
                 | _ => None
                 end) (matched_rules ev).

(** ** The requirement for a command *)

Definition fallback_of (req : ExecApprovalRequest) : list str → Decision :=
  render_decision_for_unmatched_command (approval_policy req) (permission_profile req)
    (sandbox_permissions req).

(** [None] is the panic of an evaluation without commands. *)
Definition create_exec_approval_requirement_for_parsed_commands (current : policy)
    (req : ExecApprovalRequest) (commands : list (list str)) : option ExecApprovalRequirement :=
  let exec_policy := current_for_environment current (environment_policy req)
                       (allow_prefix_rules req) in
  let auto_amendment_allowed := bool_decide (allow_prefix_rules req = Honor) in
  let fallback := fallback_of req in
  ev ← check_multiple_with_options try_from file_name exec_policy commands fallback match_options;
  let requested_amendment :=
    if auto_amendment_allowed then
      derive_requested_execpolicy_amendment_from_prefix_rule (prefix_rule req) (matched_rules ev)
        exec_policy commands fallback
    else None in
  Some
    match ev_decision ev with
    | Forbidden =>
        RequirementForbidden
          (derive_forbidden_reason (req_command req) ev
             (dangerous_command_match_for_heuristics ev Forbidden))
    | Prompt =>
        let prompt_is_rule := existsb (has_decision Prompt) (matched_rules ev) in
        match prompt_is_rejected_by_policy (approval_policy req) prompt_is_rule with
        | Some reason =>
            if prompt_is_rule then RequirementForbidden reason
            else RequirementForbidden
                   (derive_rejected_prompt_reason reason
                      (dangerous_command_match_for_heuristics ev Prompt))
        | None =>
            NeedsApproval (derive_prompt_reason (req_command req) ev)
              (match requested_amendment with
               | Some a => Some a
               | None =>
                   if auto_amendment_allowed
                   then try_derive_execpolicy_amendment_for_prompt_rules (matched_rules ev)
                   else None
               end)
        end
    | Allow =>
        Skip
          (forallb (λ command,
               existsb (has_decision Allow)
                 (matches_for_command_with_options try_from file_name exec_policy command None
                    match_options))
             commands)
          (if auto_amendment_allowed
           then try_derive_execpolicy_amendment_for_allow_rules (matched_rules ev)
           else None)
    end.

Definition create_exec_approval_requirement_for_command (current : policy)
    (req : ExecApprovalRequest) : option ExecApprovalRequirement :=
  create_exec_approval_requirement_for_parsed_commands current req
    (commands_for_exec_policy (req_command req)).

(** ** Shells ([executable_identity.rs]) *)

Inductive UnifiedExecShellMode := Direct | ZshFork.

Definition shell_approval_command (command : list str) (configured_shell_path : str)
    (shell_mode : UnifiedExecShellMode) : list str :=
  match command with
  | [] => command
  | executable :: _ =>
      let is_system_shell :=
        is_some_and (parent_components executable) (λ parent,
          bool_decide (parent = components (lit "/bin"))
          || bool_decide (parent = components (lit "/usr/bin"))) in
      let is_configured_shell := path_eq executable configured_shell_path in
      if is_configured_shell || is_system_shell
         || match shell_mode with ZshFork => true | Direct => false end
      then command else [executable]
  end.

Definition with_command (req : ExecApprovalRequest) (command : list str) : ExecApprovalRequest :=
  {| req_command := command; approval_policy := approval_policy req;
     permission_profile := permission_profile req; environment_policy := environment_policy req;
     sandbox_permissions := sandbox_permissions req; prefix_rule := prefix_rule req;
     allow_prefix_rules := allow_prefix_rules req |}.

Definition create_exec_approval_requirement_for_shell (current : policy)
    (request : ExecApprovalRequest) (configured_shell_path : str)
    (shell_mode : UnifiedExecShellMode) : option ExecApprovalRequirement :=
  let command := req_command request in
  let executable := shell_approval_command command configured_shell_path shell_mode in
  if length executable =? length command
  then create_exec_approval_requirement_for_command current request
  else
    create_exec_approval_requirement_for_parsed_commands current (with_command request executable)
      (executable :: commands_for_exec_policy command).

(** ** Which rules cover a command *)

Definition covering (p : policy) (cmd : list str) : list rule_match :=
  matches_for_command_with_options try_from file_name p cmd None match_options.

(** The strictest covering rule, or the fallback when there is none. *)
Definition decision_for (p : policy) (fallback : list str → Decision) (cmd : list str) : Decision :=
  default (fallback cmd) (decisions_max (match_decision <$> covering p cmd)).

Lemma matches_with_fallback p cmd h :
  matches_for_command_with_options try_from file_name p cmd (Some h) match_options =
  if is_empty (covering p cmd) then [HeuristicsRuleMatch cmd (h cmd)] else covering p cmd.
Proof. done. Qed.

(** Every covering match is that of a rule of the policy. *)
Lemma covering_rule p cmd m :
  m ∈ covering p cmd →
  is_policy_match m = true ∧ ∃ r, in_policy p r ∧ rule_decision r = match_decision m.
Proof.
  unfold covering, matches_for_command_with_options. cbn [resolve_host_executables match_options].
  destruct (negb (is_empty (default [] (match_exact_rules p cmd)))).
  - intros (k & r & _ & Hr & (prefix & tail & _ & _ & ->)%rule_matches_spec)%(elem_of_match_exact
      try_from). split; [done|]. exists r. split; [by exists k|done].
  - unfold match_host_executable_rules. destruct cmd as [|first args]; [set_solver|].
    destruct (try_from first) as [program|]; [|set_solver].
    destruct (executable_path_lookup_key _ _) as [basename|]; [|set_solver].
    destruct (rules_by_program p !! basename) as [rs|] eqn:Hrs; [|set_solver].
    case_match; [set_solver|].
    intros (m' & -> & Hm)%list_elem_of_fmap. apply list_elem_of_omap in Hm as (r & Hr & Hm).
    apply rule_matches_spec in Hm as (prefix & tail & _ & _ & ->). split; [done|].
    exists r. split; [|done]. exists basename. unfold rules_for. by rewrite Hrs.
Qed.

Lemma covering_policy_match p cmd m : m ∈ covering p cmd → is_policy_match m = true.
Proof. by intros [? _]%covering_rule. Qed.

Lemma decision_for_spec p h cmd :
  (covering p cmd = [] ∧ decision_for p h cmd = h cmd) ∨
  (covering p cmd ≠ [] ∧ decision_for p h cmd ∈ match_decision <$> covering p cmd ∧
   ∀ m, m ∈ covering p cmd → decision_le (match_decision m) (decision_for p h cmd)).
Proof.
  unfold decision_for. destruct (decisions_max (match_decision <$> covering p cmd)) as [d|] eqn:Hd.
  - right. pose proof Hd as [Hin Hle]%decisions_max_Some. split_and!.
    + intros He. rewrite He in Hin. set_solver.
    + done.
    + intros m Hm. apply Hle. by apply list_elem_of_fmap_2.
  - left. apply decisions_max_None, fmap_nil_inv in Hd. by rewrite Hd.
Qed.

Lemma elem_of_matches p h cmd m :
  m ∈ matches_for_command_with_options try_from file_name p cmd (Some h) match_options →
  decision_le (match_decision m) (decision_for p h cmd).
Proof.
  rewrite matches_with_fallback. destruct (decision_for_spec p h cmd) as [[-> ->]|(Hne & _ & Hle)].
  - simpl. intros ->%list_elem_of_singleton. done.
  - rewrite (proj2 (is_empty_false _) Hne). apply Hle.
Qed.

Lemma decision_for_elem p h cmd :
  decision_for p h cmd ∈ match_decision <$>
    matches_for_command_with_options try_from file_name p cmd (Some h) match_options.
Proof.
  rewrite matches_with_fallback. destruct (decision_for_spec p h cmd) as [[-> ->]|(Hne & Hin & _)].
  - simpl. by left.
  - by rewrite (proj2 (is_empty_false _) Hne).
Qed.

(** The evaluation of several commands is the strictest of their decisions. *)
Lemma check_multiple_decision p h cmds ev :
  check_multiple_with_options try_from file_name p cmds h match_options = Some ev →
  (∃ cmd, cmd ∈ cmds ∧ decision_for p h cmd = ev_decision ev) ∧
  (∀ cmd, cmd ∈ cmds → decision_le (decision_for p h cmd) (ev_decision ev)) ∧
  (∀ m, m ∈ matched_rules ev ↔ ∃ cmd, cmd ∈ cmds ∧
     m ∈ matches_for_command_with_options try_from file_name p cmd (Some h) match_options).
Proof.
  clear try_join.
  unfold check_multiple_with_options. intros (Hm & Hin & Hle)%from_matches_Some.
  assert (∀ m, m ∈ matched_rules ev ↔ ∃ cmd, cmd ∈ cmds ∧
     m ∈ matches_for_command_with_options try_from file_name p cmd (Some h) match_options) as Hiff.
  { intros m. rewrite Hm, list_elem_of_join. setoid_rewrite list_elem_of_fmap. naive_solver. }
  rewrite <- Hm in Hin, Hle.
  assert (∀ cmd, cmd ∈ cmds → decision_le (decision_for p h cmd) (ev_decision ev)) as Hall.
  { intros cmd Hc. pose proof (decision_for_elem p h cmd) as (m & -> & Hm')%list_elem_of_fmap.
    apply Hle, Hiff. eauto. }
  split_and!; [|done|done].
  apply list_elem_of_fmap in Hin as (m & Hd & (cmd & Hc & Hm')%Hiff). exists cmd. split; [done|].
  apply decision_le_antisym; [by apply Hall|]. rewrite Hd. by apply elem_of_matches.
Qed.

Lemma check_multiple_total p h cmds :
  cmds ≠ [] → ∃ ev, check_multiple_with_options try_from file_name p cmds h match_options = Some ev.
Proof.
  intros Hne. unfold check_multiple_with_options.
  destruct (from_matches _) as [ev|] eqn:He; [by exists ev|].
  apply from_matches_None in He. destruct cmds as [|cmd cmds]; [done|].
  rewrite fmap_cons in He. apply (app_eq_nil (matches_for_command_with_options _ _ _ _ _ _))
    in He as [He _]. by apply matches_nonempty in He.
Qed.

(** ** What a requirement means *)

Definition policy_in_force (current : policy) (req : ExecApprovalRequest) : policy :=
  current_for_environment current (environment_policy req) (allow_prefix_rules req).

(** Some rule, and not the fallback, asks for approval of one of the commands. *)
Definition rule_prompts (p : policy) (cmds : list (list str)) : bool :=
  existsb (λ cmd, existsb (has_decision Prompt) (covering p cmd)) cmds.

Lemma existsb_rule_matches p h cmds ev (f : rule_match → bool) :
  (∀ m, f m = true → is_policy_match m = true) →
  check_multiple_with_options try_from file_name p cmds h match_options = Some ev →
  existsb f (matched_rules ev) = existsb (λ cmd, existsb f (covering p cmd)) cmds.
Proof.
  intros Hf Hev. apply check_multiple_decision in Hev as (_ & _ & Hiff).
  apply eq_true_iff_eq. rewrite !existsb_exists. setoid_rewrite <- list_elem_of_In.
  setoid_rewrite Hiff. setoid_rewrite existsb_exists. setoid_rewrite <- list_elem_of_In.
  setoid_rewrite matches_with_fallback. split.
  - intros (m & (cmd & Hc & Hm) & Hfm). exists cmd. split; [done|]. exists m. split; [|done].
    destruct (is_empty (covering p cmd)); [|done]. apply list_elem_of_singleton in Hm as ->.
    by apply Hf in Hfm.
  - intros (cmd & Hc & m & Hm & Hfm). exists m. split; [|done]. exists cmd. split; [done|].
    rewrite (proj2 (is_empty_false (covering p cmd))); [done|]. intros He. rewrite He in Hm. set_solver.
Qed.

Lemma has_decision_policy d (m : rule_match) : has_decision d m = true → is_policy_match m = true.
Proof. unfold has_decision. by intros [??]%andb_true_iff. Qed.

Lemma decision_le_forbidden d : decision_le Forbidden d → d = Forbidden.
Proof. unfold decision_le. destruct d; simpl; [lia..|done]. Qed.

(** The requirement by cases on the strictest decision. *)
Lemma approval_cases current req cmds :
  cmds ≠ [] →
  let p := policy_in_force current req in
  let decision := decision_for p (fallback_of req) in
  ∃ r, create_exec_approval_requirement_for_parsed_commands current req cmds = Some r ∧
  match r with
  | Skip bypass_sandbox _ =>
      (∀ cmd, cmd ∈ cmds → decision cmd = Allow) ∧
      (bypass_sandbox = true ↔ ∀ cmd, cmd ∈ cmds → covering p cmd ≠ [])
  | NeedsApproval _ _ =>
      (∃ cmd, cmd ∈ cmds ∧ decision cmd = Prompt) ∧
      (∀ cmd, cmd ∈ cmds → decision cmd ≠ Forbidden) ∧
      prompt_is_rejected_by_policy (approval_policy req) (rule_prompts p cmds) = None
  | RequirementForbidden _ =>
      (∃ cmd, cmd ∈ cmds ∧ decision cmd = Forbidden) ∨
      ((∃ cmd, cmd ∈ cmds ∧ decision cmd = Prompt) ∧
       (∀ cmd, cmd ∈ cmds → decision cmd ≠ Forbidden) ∧
       prompt_is_rejected_by_policy (approval_policy req) (rule_prompts p cmds) ≠ None)
  end.
Proof.
  intros Hne p decision. unfold create_exec_approval_requirement_for_parsed_commands.
  fold (policy_in_force current req). fold p.
  destruct (check_multiple_total p (fallback_of req) cmds Hne) as (ev & Hev). rewrite Hev.
  eexists. split; [reflexivity|].
  rewrite (existsb_rule_matches _ _ _ _ _ (has_decision_policy Prompt) Hev).
  apply check_multiple_decision in Hev as (Hex & Hall & _).
  fold decision in Hex, Hall. fold (rule_prompts p cmds). destruct (ev_decision ev).
  - assert (∀ cmd, cmd ∈ cmds → decision cmd = Allow) as Hallow.
    { intros cmd Hc. apply Hall in Hc. unfold decision_le in Hc.
      destruct (decision cmd); simpl in Hc; [done|lia..]. }
    split; [done|]. rewrite forallb_forall. setoid_rewrite <- list_elem_of_In.
    split; intros H cmd Hc; specialize (H cmd Hc); specialize (Hallow cmd Hc).
    + intros He. unfold covering in He. by rewrite He in H.
    + fold (covering p cmd). destruct (covering p cmd) as [|m ms] eqn:Hcov; [done|].
      destruct (decision_for_spec p (fallback_of req) cmd) as [[Hc' _]|(_ & _ & Hle)]; [congruence|].
      fold (decision cmd) in Hle. rewrite Hallow, Hcov in Hle. simpl.
      unfold has_decision at 1. rewrite (covering_policy_match p cmd m) by (rewrite Hcov; set_solver).
      rewrite bool_decide_eq_true_2; [done|]. specialize (Hle m ltac:(set_solver)).
      unfold decision_le in Hle. destruct (match_decision m); simpl in Hle; [done|lia..].
  - assert (∀ cmd, cmd ∈ cmds → decision cmd ≠ Forbidden) as Hnf.
    { intros cmd Hc Hf. apply Hall in Hc. rewrite Hf in Hc. by apply decision_le_forbidden in Hc. }
    destruct (prompt_is_rejected_by_policy _ _) as [reason|].
    + destruct (rule_prompts p cmds); right; done.
    + done.
  - by left.
Qed.

Lemma commands_for_exec_policy_nonempty command : commands_for_exec_policy command ≠ [].
Proof.
  unfold commands_for_exec_policy. destruct (parse_shell_lc_plain_commands _ _) as [cmds|]; [|done].
  destruct cmds; done.
Qed.

(** C4: what the requirement for a command means.  It is computed for every
    request (no panic) from the decision on each command the request is split
    into, the strictest rule that covers it or else the fallback.  Running is
    allowed without a question only if all of them are allowed, and outside the
    sandbox exactly when a rule covers each of them; a question is asked only if
    the strictest decision is to prompt and the approval settings let that kind
    of prompt through; otherwise the command is forbidden. *)
Theorem approval_requirement_spec current req :
  let cmds := commands_for_exec_policy (req_command req) in
  let p := policy_in_force current req in
  let decision := decision_for p (fallback_of req) in
  ∃ r, create_exec_approval_requirement_for_command current req = Some r ∧
  match r with
  | Skip bypass_sandbox _ =>
      (∀ cmd, cmd ∈ cmds → decision cmd = Allow) ∧
      (bypass_sandbox = true ↔ ∀ cmd, cmd ∈ cmds → covering p cmd ≠ [])
  | NeedsApproval _ _ =>
      (∃ cmd, cmd ∈ cmds ∧ decision cmd = Prompt) ∧
      (∀ cmd, cmd ∈ cmds → decision cmd ≠ Forbidden) ∧
      prompt_is_rejected_by_policy (approval_policy req) (rule_prompts p cmds) = None
  | RequirementForbidden _ =>
      (∃ cmd, cmd ∈ cmds ∧ decision cmd = Forbidden) ∨
      ((∃ cmd, cmd ∈ cmds ∧ decision cmd = Prompt) ∧
       (∀ cmd, cmd ∈ cmds → decision cmd ≠ Forbidden) ∧
       prompt_is_rejected_by_policy (approval_policy req) (rule_prompts p cmds) ≠ None)
  end.
Proof. apply approval_cases, commands_for_exec_policy_nonempty. Qed.

Lemma unmatched_dangerous req cmd :
  dangerous_command_match try_parse_shell cmd ≠ None →
  fallback_of req cmd ≠ Allow ∧ (approval_policy req = Never → fallback_of req cmd = Forbidden).
Proof.
  intros Hd. unfold fallback_of, render_decision_for_unmatched_command.
  destruct (dangerous_command_match try_parse_shell cmd); [|done]. simpl.
  by destruct (approval_policy req).
Qed.

(** C18: a dangerous command is never run unseen.  If one of the commands of
    the request is found dangerous and no rule covers it, the request is not
    waved through, whatever the sandbox and the other commands are; when the
    user is never to be asked it is forbidden. *)
Theorem dangerous_needs_consent current req cmd :
  cmd ∈ commands_for_exec_policy (req_command req) →
  covering (policy_in_force current req) cmd = [] →
  dangerous_command_match try_parse_shell cmd ≠ None →
  ∃ r, create_exec_approval_requirement_for_command current req = Some r ∧
    (∀ bypass amendment, r ≠ Skip bypass amendment) ∧
    (approval_policy req = Never → ∃ reason, r = RequirementForbidden reason).
Proof.
  intros Hin Hcov [Hna Hnever]%(unmatched_dangerous req).
  pose proof (decision_for_spec (policy_in_force current req) (fallback_of req) cmd) as Hd.
  destruct Hd as [[_ Hd]|[? _]]; [|done].
  destruct (approval_cases current req _ (commands_for_exec_policy_nonempty (req_command req)))
    as (r & Hr & Hcase).
  exists r. split; [exact Hr|]. destruct r as [bypass am|reason am|reason].
  - destruct Hcase as [Hall _]. specialize (Hall cmd Hin). congruence.
  - split; [done|]. intros Hn. destruct Hcase as (_ & Hnf & _). specialize (Hnf cmd Hin).
    rewrite Hd, (Hnever Hn) in Hnf. done.
  - split; [done|]. eauto.
Qed.

(** ** Amendments *)

Lemma find_heuristics_covering p h cmds ev d a :
  check_multiple_with_options try_from file_name p cmds h match_options = Some ev →
  find_heuristics d (matched_rules ev) = Some a →
  a ∈ cmds ∧ covering p a = [] ∧ h a = d.
Proof.
  intros (_ & _ & Hiff)%check_multiple_decision (m & Hm & Ha)%find_map_Some.
  destruct m as [| command decision]; [done|]. case_bool_decide as Hd; [|done].
  injection Ha as ->. apply Hiff in Hm as (cmd & Hc & Hm). rewrite matches_with_fallback in Hm.
  destruct (is_empty (covering p cmd)) eqn:He.
  - apply list_elem_of_singleton in Hm. simplify_eq. apply is_empty_true in He. done.
  - by apply covering_policy_match in Hm.
Qed.

(** No rule covers any of the commands. *)
Definition uncovered (p : policy) (cmds : list (list str)) : Prop :=
  ∀ cmd, cmd ∈ cmds → covering p cmd = [].

Lemma no_policy_match_uncovered p h cmds ev :
  check_multiple_with_options try_from file_name p cmds h match_options = Some ev →
  existsb is_policy_match (matched_rules ev) = false → uncovered p cmds.
Proof.
  clear try_join.
  intros Hev. rewrite (existsb_rule_matches _ _ _ _ _ (λ m Hm, Hm) Hev). intros He cmd Hc.
  destruct (covering p cmd) as [|m ms] eqn:Hcov; [done|].
  assert (existsb (λ cmd, existsb is_policy_match (covering p cmd)) cmds = true); [|congruence].
  apply existsb_exists. exists cmd. split; [by apply list_elem_of_In|]. apply existsb_exists.
  exists m. split; [apply list_elem_of_In; rewrite Hcov; set_solver|].
  apply (covering_policy_match p cmd). rewrite Hcov. set_solver.
Qed.

Lemma requested_amendment_inv prefix p cmds h ev a :
  check_multiple_with_options try_from file_name p cmds h match_options = Some ev →
  derive_requested_execpolicy_amendment_from_prefix_rule prefix (matched_rules ev) p cmds h
    = Some a →
  prefix = Some a ∧ a ∉ banned_prefix_suggestions ∧ uncovered p cmds ∧
  ∃ p', add_prefix_rule p a Allow = Ok p' ∧ ∀ cmd, cmd ∈ cmds → decision_for p' h cmd = Allow.
Proof.
  intros Hev. unfold derive_requested_execpolicy_amendment_from_prefix_rule.
  intros (x & -> & Hx)%bind_Some. destruct (is_empty x); [done|].
  destruct (existsb _ banned_prefix_suggestions) eqn:Hb; [done|].
  destruct (existsb is_policy_match _) eqn:Hm; [done|].
  destruct (prefix_rule_would_approve_all_commands _ _ _ _) eqn:Hw; [|done]. injection Hx as ->.
  split; [done|]. split.
  { intros Hin. apply not_true_iff_false in Hb. apply Hb, existsb_exists. exists a.
    split; [by apply list_elem_of_In|]. by apply bool_decide_eq_true. }
  split; [by eapply no_policy_match_uncovered|].
  unfold prefix_rule_would_approve_all_commands in Hw.
  destruct (add_prefix_rule p a Allow) as [p'|] eqn:Hp'; [|done]. exists p'. split; [done|].
  intros cmd Hc. rewrite forallb_forall in Hw. specialize (Hw cmd).
  rewrite <- list_elem_of_In in Hw. specialize (Hw Hc).
  destruct (check_with_options _ _ _ _ _ _) as [e|] eqn:He; [|done]. simpl in Hw.
  apply bool_decide_eq_true in Hw. unfold check_with_options in He.
  apply from_matches_Some in He as (_ & Hin & Hle).
  pose proof (decision_for_elem p' h cmd) as (m & -> & Hm')%list_elem_of_fmap.
  specialize (Hle m Hm'). rewrite Hw in Hle. unfold decision_le in Hle.
  destruct (match_decision m); simpl in Hle; [done|lia..].
Qed.

(** A proposed amendment is sound.  Amendments are proposed only where
    allow rules are honoured.  The prefix the model asked for is proposed only
    if it is not one of the banned prefixes, no rule covers any of the commands,
    and with the rule added every command of the request is allowed; any other
    proposal is one of the commands themselves, one that no rule covers. *)
Theorem proposed_amendment_sound current req cmds r a :
  create_exec_approval_requirement_for_parsed_commands current req cmds = Some r →
  proposed_execpolicy_amendment r = Some a →
  let p := policy_in_force current req in
  allow_prefix_rules req = Honor ∧
  ((prefix_rule req = Some a ∧ a ∉ banned_prefix_suggestions ∧ uncovered p cmds ∧
    ∃ p', add_prefix_rule p a Allow = Ok p' ∧
      ∀ cmd, cmd ∈ cmds → decision_for p' (fallback_of req) cmd = Allow) ∨
   (a ∈ cmds ∧ covering p a = [] ∧ fallback_of req a ≠ Forbidden)).
Proof.
  unfold create_exec_approval_requirement_for_parsed_commands. fold (policy_in_force current req).
  cbv zeta. set (p := policy_in_force current req).
  intros (ev & Hev & Hr)%bind_Some Ha. injection Hr as <-.
  destruct (bool_decide (allow_prefix_rules req = Honor)) eqn:Hh.
  2: { destruct (ev_decision ev); [done| |done].
       destruct (prompt_is_rejected_by_policy _ _); [by destruct (existsb _ _)|done]. }
  apply bool_decide_eq_true in Hh. split; [done|]. destruct (ev_decision ev); [| |done].
  - right. cbn in Ha. unfold try_derive_execpolicy_amendment_for_allow_rules in Ha.
    destruct (existsb _ _); [done|].
    destruct (find_heuristics_covering _ _ _ _ _ _ Hev Ha) as (? & ? & ->). done.
  - destruct (prompt_is_rejected_by_policy _ _); [by destruct (existsb _ _)|]. cbn in Ha.
    destruct (derive_requested_execpolicy_amendment_from_prefix_rule _ _ _ _ _) eqn:Hreq.
    + injection Ha as ->. left. by eapply requested_amendment_inv.
    + right. unfold try_derive_execpolicy_amendment_for_prompt_rules in Ha.
      destruct (existsb _ _); [done|].
      destruct (find_heuristics_covering _ _ _ _ _ _ Hev Ha) as (? & ? & ->). done.
Qed.

(** ** Models whose allow rules are ignored *)

Lemma rules_foldl_insert (k : str) (l : list (str * PrefixRule)) : ∀ m : rule_map,
  default [] (foldl (λ m '(program, rule), multi_insert program rule m) m l !! k) =
  default [] (m !! k) ++ (base.filter (λ x, x.1 = k) l).*2.
Proof.
  induction l as [|[k' r] l IH]; intros m; simpl; [by rewrite app_nil_r|].
  rewrite IH, rules_multi_insert, <- app_assoc. f_equal. rewrite filter_cons. simpl.
  destruct (decide (k' = k)); done.
Qed.

Lemma filter_pairs (k k' : str) (rs : list PrefixRule) :
  (base.filter (λ x, x.1 = k) (pair k' <$> rs)).*2 = if decide (k' = k) then rs else [].
Proof.
  induction rs as [|r rs IH]; [by case_decide|].
  rewrite fmap_cons, filter_cons. cbn [fst]. destruct (decide (k' = k)); [|done].
  rewrite fmap_cons. by f_equal.
Qed.

Lemma rules_for_ignored current k :
  rules_for (current_for_prefix_rules current IgnoreForCyberModel) k =
  base.filter (λ r, is_allow r = false) (rules_for current k).
Proof.
  unfold rules_for, current_for_prefix_rules. cbn [bool_decide]. rewrite bool_decide_eq_false_2 by done.
  cbn [rules_by_program]. rewrite rules_foldl_insert, lookup_empty. cbn [default app].
  rewrite <- (list_to_map_to_list (rules_by_program current)) at 2.
  pose proof (NoDup_fst_map_to_list (rules_by_program current)) as Hnd.
  induction (map_to_list (rules_by_program current)) as [|[k' rs] l IH].
  - cbn [list_to_map foldr]. by rewrite lookup_empty.
  - rewrite fmap_cons in Hnd. apply NoDup_cons in Hnd as [Hk' Hnd]. specialize (IH Hnd).
    rewrite fmap_cons. match goal with |- context [mjoin (?a :: ?b)] =>
      change (mjoin (a :: b)) with (a ++ mjoin b) end.
    rewrite filter_app, fmap_app, filter_pairs, IH. cbn [list_to_map foldr].
    destruct (decide (k' = k)) as [->|Hne].
    + rewrite lookup_insert_eq, not_elem_of_list_to_map_1 by done. simpl. by rewrite app_nil_r.
    + by rewrite lookup_insert_ne.
Qed.

Lemma in_policy_ignored current r :
  in_policy (current_for_prefix_rules current IgnoreForCyberModel) r ↔
  in_policy current r ∧ rule_decision r ≠ Allow.
Proof.
  clear try_parse_shell try_from.
  unfold in_policy. setoid_rewrite rules_for_ignored. setoid_rewrite list_elem_of_filter.
  unfold is_allow. setoid_rewrite bool_decide_eq_false. naive_solver.
Qed.

(** No rule of the policy allows anything. *)
Definition restrictive (p : policy) : Prop := ∀ r, in_policy p r → rule_decision r ≠ Allow.

Lemma restrictive_not_covered p h cmd :
  restrictive p → decision_for p h cmd = Allow → covering p cmd = [].
Proof.
  intros Hp Hd. destruct (decision_for_spec p h cmd) as [[? _]|(_ & Hin & _)]; [done|].
  rewrite Hd in Hin. apply list_elem_of_fmap in Hin as (m & Hm & [_ (r & Hr & Hd')]%covering_rule).
  by destruct (Hp r Hr); rewrite Hd'.
Qed.

(** Where allow rules are ignored they have no effect.  The policy in
    force then has the restrictive rules of the current policy and the rules of
    the environment; if the environment's rules allow nothing, no request runs
    outside the sandbox, and no amendment is proposed. *)
Theorem ignored_allow_rules current req :
  allow_prefix_rules req = IgnoreForCyberModel →
  (∀ o, environment_policy req = Some o → restrictive o) →
  (∀ r, in_policy (policy_in_force current req) r ↔
     (in_policy current r ∧ rule_decision r ≠ Allow) ∨
     ∃ o, environment_policy req = Some o ∧ in_policy o r) ∧
  ∃ r, create_exec_approval_requirement_for_command current req = Some r ∧
    proposed_execpolicy_amendment r = None ∧ ∀ amendment, r ≠ Skip true amendment.
Proof.
  intros Hmode Henv.
  assert (∀ r, in_policy (policy_in_force current req) r ↔
     (in_policy current r ∧ rule_decision r ≠ Allow) ∨
     ∃ o, environment_policy req = Some o ∧ in_policy o r) as Hiff.
  { intros r. unfold policy_in_force, current_for_environment. rewrite Hmode.
    destruct (environment_policy req) as [o|].
    - rewrite (in_policy_merge try_from), in_policy_ignored. naive_solver.
    - rewrite in_policy_ignored. naive_solver. }
  split; [done|].
  destruct (approval_cases current req _ (commands_for_exec_policy_nonempty (req_command req)))
    as (r & Hr & Hcase).
  exists r. split; [exact Hr|]. split.
  - unfold create_exec_approval_requirement_for_parsed_commands in Hr. rewrite Hmode in Hr.
    apply bind_Some in Hr as (ev & _ & Hr). injection Hr as <-.
    destruct (ev_decision ev); [done| |done].
    destruct (prompt_is_rejected_by_policy _ _); [by destruct (existsb _ _)|done].
  - intros am ->. destruct Hcase as [Hallow [Hcov _]].
    destruct (commands_for_exec_policy (req_command req)) as [|cmd cmds] eqn:Hc;
      [by apply commands_for_exec_policy_nonempty in Hc|].
    apply (Hcov eq_refl cmd ltac:(set_solver)).
    apply restrictive_not_covered with (fallback_of req); [|by apply Hallow; set_solver].
    intros r [[_ ?]|(o & Ho & Hor)]%Hiff; [done|]. by apply (Henv o Ho).
Qed.

(** ** Executables *)

Lemma shell_approval_command_cases command configured mode :
  length (shell_approval_command command configured mode) ≠ length command →
  ∃ executable args, command = executable :: args ∧ args ≠ [] ∧
    shell_approval_command command configured mode = [executable].
Proof.
  unfold shell_approval_command. destruct command as [|executable args]; [done|].
  cbv zeta. case_match; [done|]. intros Hl. exists executable, args. split; [done|].
  split; [|done]. intros ->. done.
Qed.

(** What an executable is told to run does not vouch for the executable.
    Unless the command is run by the configured shell or by one from [/bin] or
    [/usr/bin], it runs without a question only if the bare executable is
    allowed as well, and outside the sandbox only if a rule covers the bare
    executable; its apparent commands can only add restrictions. *)
Theorem executable_needs_own_rule current req configured mode bypass amendment :
  length (shell_approval_command (req_command req) configured mode) ≠ length (req_command req) →
  create_exec_approval_requirement_for_shell current req configured mode
    = Some (Skip bypass amendment) →
  let p := policy_in_force current req in
  ∃ executable args, req_command req = executable :: args ∧
    decision_for p (fallback_of req) [executable] = Allow ∧
    (bypass = true → covering p [executable] ≠ []) ∧
    ∀ cmd, cmd ∈ commands_for_exec_policy (req_command req) →
      decision_for p (fallback_of req) cmd = Allow.
Proof.
  intros Hlen Hskip p.
  destruct (shell_approval_command_cases _ _ _ Hlen) as (executable & args & Hcmd & _ & Hsac).
  unfold create_exec_approval_requirement_for_shell in Hskip.
  rewrite (proj2 (Nat.eqb_neq _ _) Hlen), Hsac in Hskip.
  destruct (approval_cases current (with_command req [executable])
    ([executable] :: commands_for_exec_policy (req_command req)) ltac:(done)) as (r & Hr & Hcase).
  rewrite Hskip in Hr. injection Hr as <-. destruct Hcase as [Hallow Hbypass].
  exists executable, args. split_and!; [done|by apply Hallow; set_solver| |].
  - intros Hb. apply Hbypass; [done|set_solver].
  - intros cmd Hc. apply Hallow. set_solver.
Qed.
End approval.
