(* ===== verification/ExecPolicyManager.v ===== *)
(** * The policy manager

    [ExecPolicyManager] of [codex-rs/core/src/exec_policy.rs]: loading the rule
    files of the configuration layers, overlaying the administrator's rules,
    and adding the rules a user approves, in memory and in the rules file. *)

From S2P Require Import Prelude RustStr UnixPath Permissions ExecRule.
From S2P Require Import ExecPolicy ExecFs ExecPolicyParser ExecPolicyAmend ShellParse.
From S2P Require Import DangerousCommand ExecApproval.

(** ** Configuration layers ([codex-rs/config]) *)

Inductive ConfigLayerSource :=
| PackagedDefaults (file : str)
| Mdm (domain key : str)
| System (file : str)
| EnterpriseManaged (id name : str)
| User (file : str) (profile : option str)
| Project (dot_codex_folder : str)
| SessionFlags
| LegacyManagedConfigTomlFromFile (file : str)
| LegacyManagedConfigTomlFromMdm.

(** Of a layer, where it comes from and whether it has a [disabled_reason]. *)
Record ConfigLayerEntry := { layer_name : ConfigLayerSource; layer_disabled : bool }.

Definition is_user_or_project (name : ConfigLayerSource) : bool :=
  match name with User _ _ | Project _ => true | _ => false end.

Inductive ExecPolicyError :=
| ReadDir (dir : str) (source : io_error)
| ReadFile (path : str) (source : io_error)
| ParsePolicy (path : str) (source : Error).

Inductive ExecPolicyUpdateError :=
| AppendRule (path : str) (source : AmendError)
| AddRule (source : Error).

(** An entry of a directory: its name, and whether it is a regular file. *)
Record DirEntry := { entry_name : str; entry_is_file : result bool io_error }.

Definition rules_dir_name : str := lit "rules".
Definition rule_extension : str := lit "rules".
Definition default_policy_file : str := lit "default.rules".

Definition default_policy_path (codex_home : str) : str :=
  path_push (path_push codex_home rules_dir_name) default_policy_file.

#[local] Set Default Proof Using "Type".

Section manager.
Context {abs_path : Type} `{!EqDecision abs_path}
  (try_from : str → result abs_path str) (file_name : abs_path → option str)
  (shlex_split : str → option (list str)) (try_join : list str → option str)
  (fmt_rule : PrefixRule → str) (fmt_match : RuleMatch abs_path → str)
  (starlark : str → str → result (list call * result unit Error) Error)
  (starlark_error : Error → Error)
  (to_json : str → result str str) (parent : str → option str).
(** Reading a directory, entry by entry, and a file. *)
Context (read_dir : str → result (list (result DirEntry io_error)) io_error)
  (read_to_string : str → result str io_error).

Abbreviation policy := (@Policy abs_path).
Abbreviation parse_rules :=
  (parse try_from file_name shlex_split try_join fmt_rule fmt_match starlark starlark_error).
Abbreviation covering_rules := (covering (λ s, ok (try_from s)) file_name).
Abbreviation decision_of := (decision_for (λ s, ok (try_from s)) file_name).

(** The configuration as far as it is read here; [requirements] is the
    administrator's policy. *)
Record ConfigLayerStack := {
  layers : list ConfigLayerEntry;
  ignore_user_and_project_exec_policy_rules : bool;
  requirements : option policy;
}.

Definition config_folder (layer : ConfigLayerEntry) : option str :=
  match layer_name layer with
  | System file | User file _ => parent file
  | Project dot_codex_folder => Some dot_codex_folder
  | _ => None
  end.

Definition layers_low_to_high (stack : ConfigLayerStack) : list ConfigLayerEntry :=
  base.filter (λ layer, layer_disabled layer = false) (layers stack).

(** ** Loading *)

Fixpoint collect_entries (dir : str) (entries : list (result DirEntry io_error))
    (policy_paths : list str) : result (list str) ExecPolicyError :=
  match entries with
  | [] => Ok policy_paths
  | Err source :: _ => Err (ReadDir dir source)
  | Ok entry :: entries =>
      let path := path_push dir (entry_name entry) in
      match entry_is_file entry with
      | Err source => Err (ReadDir dir source)
      | Ok is_file =>
          collect_entries dir entries
            (if bool_decide (path_extension path = Some rule_extension) && is_file
             then policy_paths ++ [path] else policy_paths)
      end
  end.

(** All paths are in [dir], so the order of paths is that of the strings. *)
Definition collect_policy_files (dir : str) : result (list str) ExecPolicyError :=
  match read_dir dir with
  | Err source => if is_not_found source then Ok [] else Err (ReadDir dir source)
  | Ok entries =>
      let? policy_paths := collect_entries dir entries [] in
      Ok (merge_sort (λ a b, str_compare a b ≠ Gt) policy_paths)
  end.

Fixpoint layer_policy_paths (ignore : bool) (ls : list ConfigLayerEntry)
    : result (list str) ExecPolicyError :=
  match ls with
  | [] => Ok []
  | layer :: ls =>
      if ignore && is_user_or_project (layer_name layer) then layer_policy_paths ignore ls
      else
        match config_folder layer with
        | None => layer_policy_paths ignore ls
        | Some folder =>
            let? paths := collect_policy_files (path_push folder rules_dir_name) in
            let? rest := layer_policy_paths ignore ls in
            Ok (paths ++ rest)
        end
  end.

Fixpoint parse_policy_files (b : PolicyBuilder) (paths : list str)
    : result (@PolicyBuilder abs_path) ExecPolicyError :=
  match paths with
  | [] => Ok b
  | path :: paths =>
      let? contents := rmap_err (ReadFile path) (read_to_string path) in
      match parse_rules b path contents with
      | (b, Ok _) => parse_policy_files b paths
      | (_, Err source) => Err (ParsePolicy path source)
      end
  end.

Definition load_exec_policy (stack : ConfigLayerStack) : result policy ExecPolicyError :=
  let? policy_paths :=
    layer_policy_paths (ignore_user_and_project_exec_policy_rules stack)
      (layers_low_to_high stack) in
  let? b := parse_policy_files new_builder policy_paths in
  Ok match requirements stack with
     | None => build b
     | Some requirements_policy => merge_overlay (build b) requirements_policy
     end.

Definition load_exec_policy_with_warning (stack : ConfigLayerStack)
    : result (policy * option ExecPolicyError) ExecPolicyError :=
  match load_exec_policy stack with
  | Ok p => Ok (p, None)
  | Err (ParsePolicy path source) =>
      Ok (default empty_policy (requirements stack), Some (ParsePolicy path source))
  | Err err => Err err
  end.

(** ** Updating *)

(** The policy in memory and the rules file. *)
Record manager := { mgr_policy : policy; mgr_fs : rules_fs }.

Definition append_amendment_and_update (f : faults) (codex_home : str) (amendment : list str)
    (m : manager) : manager * result unit ExecPolicyUpdateError :=
  let policy_path := default_policy_path codex_home in
  match blocking_append_allow_prefix_rule to_json parent f policy_path amendment (mgr_fs m) with
  | (fs, Err source) =>
      ({| mgr_policy := mgr_policy m; mgr_fs := fs |}, Err (AppendRule policy_path source))
  | (fs, Ok _) =>
      let m := {| mgr_policy := mgr_policy m; mgr_fs := fs |} in
      let existing_evaluation :=
        check_multiple_with_options (λ s, ok (try_from s)) file_name (mgr_policy m) [amendment]
          (λ _, Forbidden) match_options in
      let already_allowed :=
        is_some_and existing_evaluation (λ ev,
          bool_decide (ev_decision ev = Allow) && existsb (has_decision Allow) (matched_rules ev)) in
      if already_allowed then (m, Ok ())
      else
        match add_prefix_rule (mgr_policy m) amendment Allow with
        | Err source => (m, Err (AddRule source))
        | Ok updated_policy => ({| mgr_policy := updated_policy; mgr_fs := fs |}, Ok ())
        end
  end.

Definition append_network_rule_and_update (f : faults) (codex_home host : str)
    (protocol : NetworkRuleProtocol) (decision : Decision) (justification : option str)
    (m : manager) : manager * result unit ExecPolicyUpdateError :=
  let policy_path := default_policy_path codex_home in
  match blocking_append_network_rule to_json parent f policy_path host protocol decision
          justification (mgr_fs m) with
  | (fs, Err source) =>
      ({| mgr_policy := mgr_policy m; mgr_fs := fs |}, Err (AppendRule policy_path source))
  | (fs, Ok _) =>
      match add_network_rule (mgr_policy m) host protocol decision justification with
      | Err source => ({| mgr_policy := mgr_policy m; mgr_fs := fs |}, Err (AddRule source))
      | Ok updated_policy => ({| mgr_policy := updated_policy; mgr_fs := fs |}, Ok ())
      end
  end.

(** One update, with any faults of the file system. *)
Inductive update_step (codex_home : str) : manager → manager → Prop :=
| step_amendment f amendment m m' r :
    append_amendment_and_update f codex_home amendment m = (m', r) → update_step codex_home m m'
| step_network f host protocol decision justification m m' r :
    append_network_rule_and_update f codex_home host protocol decision justification m = (m', r) →
    update_step codex_home m m'.

(** ** Rules in force *)

(** A stored rule that covers a command bounds the decision on it from below. *)
Lemma rule_enforced (p : policy) r h cmd :
  r ∈ rules_for p (first (pattern r)) → covers_command r cmd →
  decision_le (rule_decision r) (decision_of p h cmd) ∧
  ∃ m, m ∈ covering_rules p cmd ∧ match_decision m = rule_decision r.
Proof.
  intros Hr Hc. pose proof (covers_command_head r cmd Hc) as Hhead.
  destruct Hc as (prefix & tail & Hcov & Hcmd).
  set (m := PrefixRuleMatch prefix (rule_decision r) None (justification r) : RuleMatch abs_path).
  assert (m ∈ default [] (match_exact_rules p cmd)) as Hm.
  { apply (elem_of_match_exact (λ s, ok (try_from s))). exists (first (pattern r)), r.
    split_and!; [done..|]. apply rule_matches_spec. by exists prefix, tail. }
  assert (covering_rules p cmd = default [] (match_exact_rules p cmd)) as Hcr.
  { unfold covering, matches_for_command_with_options. cbn [resolve_host_executables match_options].
    destruct (default [] (match_exact_rules p cmd)); [set_solver|done]. }
  split; [|exists m; by rewrite Hcr].
  destruct (decision_for_spec (λ s, ok (try_from s)) file_name p h cmd) as [[He _]|(_ & _ & Hle)].
  - rewrite <- Hcr, He in Hm. set_solver.
  - rewrite Hcr in Hle. apply (Hle m Hm).
Qed.

(** A rule for the name of a program covers a command that gives the path of
    the program: the path is the program's, and the list of the program's paths,
    if there is one, has it. *)
Definition covers_by_name (p : policy) (r : PrefixRule) (cmd : list str) : Prop :=
  ∃ path args program name,
    cmd = path :: args ∧ try_from path = Ok program ∧
    executable_path_lookup_key file_name program = Some name ∧
    is_some_and (host_executables_by_name p !! name)
      (λ paths, negb (bool_decide (program ∈ paths))) = false ∧
    covers_command r (name :: args).

(** Such a rule bounds the decision too, unless a rule covers the text of the
    command: rules for the text come first. *)
Lemma rule_enforced_by_name (p : policy) r h cmd :
  r ∈ rules_for p (first (pattern r)) → covers_by_name p r cmd →
  decision_le (rule_decision r) (decision_of p h cmd) ∨
  ∃ r', in_policy p r' ∧ covers_command r' cmd.
Proof.
  intros Hr (path & args & program & name & -> & Hpath & Hname & Hlist & Hc).
  destruct (default [] (match_exact_rules p (path :: args))) as [|m0 ms] eqn:He.
  2: { right. assert (m0 ∈ default [] (match_exact_rules p (path :: args))) as Hm by (rewrite He; left).
       apply (elem_of_match_exact (λ s, ok (try_from s))) in Hm as (k & r' & _ & Hr' & Hm).
       apply rule_matches_spec in Hm as (prefix & tail & ? & ? & _).
       exists r'. split; [by exists k|by exists prefix, tail]. }
  left. pose proof (covers_command_head _ _ Hc) as Hhead. simpl in Hhead. injection Hhead as Hfirst.
  destruct Hc as (prefix & tail & Hcov & Hcmd).
  set (m := with_resolved_program program
              (PrefixRuleMatch prefix (rule_decision r) None (justification r))).
  assert (m ∈ match_host_executable_rules (λ s, ok (try_from s)) file_name p (path :: args)) as Hm.
  { unfold match_host_executable_rules. rewrite Hpath. cbn [ok]. rewrite Hname, Hfirst.
    unfold rules_for in Hr. destruct (rules_by_program p !! first (pattern r)) as [rs|] eqn:Hrs;
      [|by apply elem_of_nil in Hr].
    rewrite <- Hfirst, Hlist. apply list_elem_of_fmap_2, list_elem_of_omap. exists r.
    split; [done|]. apply rule_matches_spec. rewrite Hfirst in Hcmd |- *. by exists prefix, tail. }
  assert (covering_rules p (path :: args)
    = match_host_executable_rules (λ s, ok (try_from s)) file_name p (path :: args)) as Hcr.
  { unfold covering, matches_for_command_with_options. cbn [resolve_host_executables match_options].
    by rewrite He. }
  destruct (decision_for_spec (λ s, ok (try_from s)) file_name p h (path :: args))
    as [[Hn _]|(_ & _ & Hle)].
  - rewrite Hcr in Hn. rewrite Hn in Hm. by apply elem_of_nil in Hm.
  - rewrite Hcr in Hle. apply (Hle m Hm).
Qed.

(** ** The administrator's rules *)

Lemma load_requirements stack p w q k :
  load_exec_policy_with_warning stack = Ok (p, w) → requirements stack = Some q →
  rules_for q k `suffix_of` rules_for p k.
Proof.
  unfold load_exec_policy_with_warning, load_exec_policy. intros Hload Hq. rewrite Hq in Hload.
  destruct (layer_policy_paths _ _) as [paths|[]]; simpl in Hload; simplify_eq; [|done].
  destruct (parse_policy_files new_builder paths) as [b|[]]; simpl in Hload; simplify_eq; [|done].
  rewrite rules_for_merge. by eexists.
Qed.

Lemma filter_forall {A} (P : A → Prop) `{!∀ x, base.Decision (P x)} l :
  Forall P l → base.filter P l = l.
Proof. induction 1 as [|x l Hx _ IH]; [done|]. by rewrite filter_cons_True, IH. Qed.

Lemma layer_paths_ignored ls :
  layer_policy_paths true ls =
  layer_policy_paths true (base.filter (λ l, is_user_or_project (layer_name l) = false) ls).
Proof.
  induction ls as [|l ls IH]; [done|]. rewrite filter_cons. case_decide as Hl.
  - cbn [layer_policy_paths]. rewrite Hl. simpl. by rewrite IH.
  - apply not_false_iff_true in Hl. cbn [layer_policy_paths]. by rewrite Hl.
Qed.

(** C30: the administrator's rules are always in force.  Whatever the rule
    files contain, and also when one of them does not parse and is reported as a
    warning, a rule of [requirements.toml] that covers the text of a command
    bounds the decision on it from below.  A rule for the name of a program also
    bounds the commands that give the path of the program, provided that the list
    of paths in force for the name (which a rule file may set when the
    administrator does not) has the path and that no rule, of whatever layer,
    covers the text of the command; [path_rule_comes_first] shows that such a
    rule does lift the administrator's.  If the rules of users and projects are
    to be ignored, their layers do not influence the policy at all. *)
Theorem requirements_always_enforced stack p w :
  load_exec_policy_with_warning stack = Ok (p, w) →
  (∀ q r cmd h, requirements stack = Some q → policy_wf q → in_policy q r → covers_command r cmd →
     decision_le (rule_decision r) (decision_of p h cmd)) ∧
  (∀ q r cmd h, requirements stack = Some q → policy_wf q → in_policy q r →
     covers_by_name p r cmd → (∀ r', in_policy p r' → ¬ covers_command r' cmd) →
     decision_le (rule_decision r) (decision_of p h cmd)) ∧
  (ignore_user_and_project_exec_policy_rules stack = true →
   load_exec_policy_with_warning
     {| layers := base.filter (λ l, is_user_or_project (layer_name l) = false)
                    (layers_low_to_high stack);
        ignore_user_and_project_exec_policy_rules := true; requirements := requirements stack |}
   = Ok (p, w)).
Proof.
  clear to_json.
  intros Hload.
  assert (∀ q r, requirements stack = Some q → policy_wf q → in_policy q r →
    r ∈ rules_for p (first (pattern r))) as Hin.
  { intros q r Hq Hwf (k & Hr). rewrite (rules_for_wf q k r Hwf Hr).
    destruct (load_requirements _ _ _ _ k Hload Hq) as [l ->]. set_solver. }
  split_and!.
  - intros q r cmd h Hq Hwf Hr Hc. apply rule_enforced; [by eapply Hin|done].
  - intros q r cmd h Hq Hwf Hr Hc Hno.
    destruct (rule_enforced_by_name p r h cmd) as [?|(r' & Hr' & Hc')]; [by eapply Hin|done|done|].
    by destruct (Hno r' Hr').
  - intros Hig. rewrite <- Hload. unfold load_exec_policy_with_warning, load_exec_policy.
    rewrite Hig. cbn [ignore_user_and_project_exec_policy_rules requirements].
    rewrite (layer_paths_ignored (layers_low_to_high stack)).
    set (ls := base.filter _ (layers_low_to_high stack)).
    assert (layers_low_to_high {| layers := ls; ignore_user_and_project_exec_policy_rules := true;
      requirements := requirements stack |} = ls) as ->; [|done].
    unfold layers_low_to_high. cbn [layers]. apply filter_forall, Forall_forall.
    intros l [_ Hl]%list_elem_of_filter. by apply list_elem_of_filter in Hl as [? _].
Qed.

(** ** Updates *)

Definition allow_rule (prefix : list str) (rule : PrefixRule) : Prop :=
  ∃ first_token rest, prefix = first_token :: rest ∧
    rule = {| pattern := {| first := first_token; rest := Single <$> rest |};
              rule_decision := Allow; justification := None |}.

Lemma add_prefix_rule_inv (p p' : policy) prefix :
  add_prefix_rule p prefix Allow = Ok p' →
  ∃ rule, allow_rule prefix rule ∧ network_rules p' = network_rules p ∧
    ∀ k, rules_for p' k = rules_for p k ++ (if decide (first (pattern rule) = k) then [rule] else []).
Proof.
  unfold add_prefix_rule, rules_for. destruct prefix as [|t rest]; [done|]. intros [= <-].
  eexists. split; [by exists t, rest|]. split; [done|]. intros k. apply rules_multi_insert.
Qed.

Lemma allow_rule_covers prefix rule : allow_rule prefix rule → covers_command rule prefix.
Proof.
  intros (t & rest & -> & ->). exists (t :: rest), []. split; [|by rewrite app_nil_r].
  exists rest. simpl. split; [done|]. induction rest as [|x rest IH]; constructor; [simpl; by left|exact IH].
Qed.

Lemma blocking_append_nonempty f path prefix fs fs' :
  blocking_append_allow_prefix_rule to_json parent f path prefix fs = (fs', Ok ()) → prefix ≠ [].
Proof. unfold blocking_append_allow_prefix_rule. by destruct prefix. Qed.

Lemma already_allowed_covering (p : policy) cmd :
  is_some_and
    (check_multiple_with_options (λ s, ok (try_from s)) file_name p [cmd] (λ _, Forbidden)
       match_options)
    (λ ev, bool_decide (ev_decision ev = Allow) && existsb (has_decision Allow) (matched_rules ev))
  = true →
  ∃ m, m ∈ covering_rules p cmd ∧ match_decision m = Allow.
Proof.
  destruct (check_multiple_with_options _ _ _ _ _ _) as [ev|] eqn:Hev; [|done].
  cbn [is_some_and]. intros [_ Hex]%andb_true_iff.
  rewrite (existsb_rule_matches _ _ _ _ _ _ _ (has_decision_policy Allow) Hev) in Hex.
  apply existsb_exists in Hex as (c & [<-|[]] & Hex).
  apply existsb_exists in Hex as (m & Hm%list_elem_of_In & Hd). exists m. split; [done|].
  unfold has_decision in Hd. apply andb_true_iff in Hd as [_ Hd]. by apply bool_decide_eq_true in Hd.
Qed.

(** The effect of an amendment on the rules, by outcome. *)
Lemma amendment_cases f home amendment m m' r :
  append_amendment_and_update f home amendment m = (m', r) →
  (mgr_policy m' = mgr_policy m ∧
   ((∃ source, r = Err (AppendRule (default_policy_path home) source)) ∨
    (r = Ok () ∧ ∃ mt, mt ∈ covering_rules (mgr_policy m) amendment ∧ match_decision mt = Allow))) ∨
  (r = Ok () ∧ add_prefix_rule (mgr_policy m) amendment Allow = Ok (mgr_policy m')).
Proof.
  unfold append_amendment_and_update.
  destruct (blocking_append_allow_prefix_rule _ _ _ _ _ _) as [fs [[]|source]] eqn:Hb.
  2: { intros; simplify_eq. left. eauto. }
  cbn [mgr_policy]. destruct (is_some_and _ _) eqn:Ha.
  - intros; simplify_eq. left. split; [done|]. right. split; [done|]. by apply already_allowed_covering.
  - destruct (add_prefix_rule (mgr_policy m) amendment Allow) as [p'|e] eqn:Hadd.
    + intros; simplify_eq. by right.
    + apply blocking_append_nonempty in Hb. by destruct amendment.
Qed.

(** An approved amendment takes effect or nothing changes.  If the update
    succeeds, a rule that allows the approved command is in force afterwards
    and the only rule that may have been added is the one for that prefix; if
    it fails, the failure is that of the rules file and the policy in memory is
    as before, so that memory is never ahead of the file. *)
Theorem amendment_takes_effect f home amendment m m' r :
  append_amendment_and_update f home amendment m = (m', r) →
  match r with
  | Err e =>
      (∃ source, e = AppendRule (default_policy_path home) source) ∧ mgr_policy m' = mgr_policy m
  | Ok _ =>
      (∃ mt, mt ∈ covering_rules (mgr_policy m') amendment ∧ match_decision mt = Allow) ∧
      (∀ rule, in_policy (mgr_policy m) rule → in_policy (mgr_policy m') rule) ∧
      (∀ rule, in_policy (mgr_policy m') rule →
         in_policy (mgr_policy m) rule ∨ allow_rule amendment rule)
  end.
Proof.
  clear try_join starlark shlex_split read_to_string read_dir fmt_rule.
  intros [[Hp [(source & ->)|[-> Hm]]]|[-> Hadd]]%amendment_cases.
  - eauto.
  - rewrite Hp. split_and!; auto.
  - destruct (add_prefix_rule_inv _ _ _ Hadd) as (rule & Hallow & _ & Hrules). split_and!.
    + destruct (rule_enforced (mgr_policy m') rule (λ _, Allow) amendment) as [_ (mt & ? & Hd)].
      * rewrite Hrules. rewrite decide_True by done. set_solver.
      * by apply allow_rule_covers.
      * exists mt. split; [done|]. destruct Hallow as (? & ? & _ & ->). done.
    + intros r (k & Hr). exists k. rewrite Hrules. set_solver.
    + intros r (k & Hr). rewrite Hrules in Hr. apply elem_of_app in Hr as [Hr|Hr]; [left; by exists k|].
      right. case_decide; [|set_solver]. by apply list_elem_of_singleton in Hr as ->.
Qed.

(** ** Sequences of updates *)

(** What one update leaves of the previous state. *)
Definition extends (m m' : manager) : Prop :=
  (∀ k, rules_for (mgr_policy m) k `prefix_of` rules_for (mgr_policy m') k) ∧
  network_rules (mgr_policy m) `prefix_of` network_rules (mgr_policy m') ∧
  contents_of (mgr_fs m) `prefix_of` contents_of (mgr_fs m') ∧
  (policy_wf (mgr_policy m) → policy_wf (mgr_policy m')).

#[local] Instance extends_preorder : PreOrder extends.
Proof.
  split.
  - intros m. by split_and!.
  - intros a b c (?&?&?&?) (?&?&?&?). split_and!; [intros k|..|auto]; etrans; eauto.
Qed.

Lemma append_prefix_contents f path prefix fs :
  contents_of fs `prefix_of`
    contents_of (blocking_append_allow_prefix_rule to_json parent f path prefix fs).1.
Proof.
  unfold blocking_append_allow_prefix_rule. destruct (is_empty prefix); [done|].
  destruct (rmapM to_json prefix); [apply append_rule_line_prefix|done].
Qed.

Lemma append_network_contents f path host protocol decision justification fs :
  contents_of fs `prefix_of`
    contents_of (blocking_append_network_rule to_json parent f path host protocol decision
                   justification fs).1.
Proof.
  unfold blocking_append_network_rule. cbv zeta.
  match goal with |- context [match ?x with Ok _ => _ | Err _ => _ end] => destruct x end;
    [apply append_rule_line_prefix|done].
Qed.

Lemma amendment_contents f home amendment m :
  contents_of (mgr_fs m) `prefix_of`
    contents_of (mgr_fs (append_amendment_and_update f home amendment m).1).
Proof.
  unfold append_amendment_and_update.
  pose proof (append_prefix_contents f (default_policy_path home) amendment (mgr_fs m)) as Hc.
  destruct (blocking_append_allow_prefix_rule _ _ _ _ _ _) as [fs [[]|source]]; [|done].
  cbn [mgr_policy]. destruct (is_some_and _ _); [done|].
  by destruct (add_prefix_rule (mgr_policy m) amendment Allow).
Qed.

Lemma step_extends home m m' : update_step home m m' → extends m m'.
Proof.
  intros [f amendment ? ? r Hs|f host protocol decision justification ? ? r Hs].
  - pose proof (amendment_contents f home amendment m0) as Hc. rewrite Hs in Hc. simpl in Hc.
    apply amendment_cases in Hs as [[Hp _]|[_ Hadd]].
    + unfold extends. rewrite Hp. by split_and!.
    + pose proof (add_prefix_rule_wf _ _ _ _ Hadd).
      destruct (add_prefix_rule_inv _ _ _ Hadd) as (rule & _ & Hn & Hrules).
      split_and!; [intros k; rewrite Hrules; by eexists|by rewrite Hn|done|done].
  - unfold append_network_rule_and_update in Hs.
    pose proof (append_network_contents f (default_policy_path home) host protocol decision
      justification (mgr_fs m0)) as Hc.
    destruct (blocking_append_network_rule _ _ _ _ _ _ _ _ _) as [fs [[]|source]];
      [|by simplify_eq; split_and!].
    unfold add_network_rule in Hs.
    destruct (normalize_network_rule_host host) as [h|e]; simpl in Hs;
      [|by simplify_eq; split_and!].
    destruct (is_some_and _ _); simplify_eq; split_and!; try done. by eexists.
Qed.

(** Approvals accumulate.  Over any sequence of updates, whatever file
    operations fail, no rule is lost or reordered, neither in the policy in
    memory nor in the rules file, and a policy that stores rules under their
    programs keeps doing so. *)
Theorem updates_only_add home m m' : rtc (update_step home) m m' → extends m m'.
Proof.
  induction 1 as [m|m1 m2 m3 Hs _ IH]; [reflexivity|]. etrans; [|exact IH].
  by apply (step_extends home).
Qed.
End manager.
