(* ===== verification/ApprovalWitnesses.v ===== *)
(** * The approval theorems on concrete requests

    Each theorem about approvals and the policy manager that has hypotheses,
    applied to a concrete request, policy or update. *)

From S2P Require Import Prelude RustStr UnixPath Permissions ExecRule.
From S2P Require Import ExecPolicy ExecFs ExecPolicyParser ExecPolicyAmend ShellParse.
From S2P Require Import DangerousCommand ExecApproval ExecRequirements ExecPolicyManager.

(** Absolute paths are strings that start with a slash. *)
Definition demo_try_from (s : str) : result str str :=
  if is_absolute s then Ok s else Err (lit "not absolute").
Abbreviation demo_path := (λ s : str, ok (demo_try_from s)).

Abbreviation demo_covering := (covering demo_path path_file_name).
Abbreviation demo_decision := (decision_for demo_path path_file_name).
Abbreviation demo_parsed :=
  (create_exec_approval_requirement_for_parsed_commands demo_path path_file_name demo_shell
     (λ _, None) (uri:=str)).
Abbreviation demo_create :=
  (create_exec_approval_requirement_for_command demo_path path_file_name demo_shell
     (λ _, None) (uri:=str)).
Abbreviation demo_create_shell :=
  (create_exec_approval_requirement_for_shell demo_path path_file_name demo_shell
     (λ _, None) (uri:=str)).
Abbreviation demo_fallback := (fallback_of (abs_path:=str) demo_shell (uri:=str)).

Definition rule_for (prefix : list str) (d : Decision) : @Policy str :=
  match add_prefix_rule empty_policy prefix d with Ok p => p | Err _ => empty_policy end.

Definition allow_ls : @Policy str := rule_for [lit "ls"] Allow.
Definition forbid_git_push : @Policy str := rule_for [lit "git"; lit "push"] Forbidden.

Definition demo_request (command : list str) (approval : AskForApproval) (mode : AllowPrefixRules)
    (prefix : option (list str)) : @ExecApprovalRequest str str :=
  {| req_command := command; approval_policy := approval;
     permission_profile := Managed (ManagedRestricted [] None) NetworkRestricted;
     environment_policy := None; sandbox_permissions := RequireEscalated; prefix_rule := prefix;
     allow_prefix_rules := mode |}.

(** ** Approvals *)

Definition script_request : @ExecApprovalRequest str str :=
  demo_request [lit "/bin/bash"; lit "-lc"; demo_script] Never Honor None.

Definition sudo_rm : list str := [lit "sudo"; lit "rm"; lit "-rf"; lit "x"].

Lemma dangerous_needs_consent_witness :
  ∃ r, demo_create allow_ls script_request = Some r ∧
    (∀ bypass amendment, r ≠ Skip bypass amendment) ∧
    (approval_policy script_request = Never → ∃ reason, r = RequirementForbidden reason).
Proof.
  apply (dangerous_needs_consent demo_path path_file_name demo_shell (λ _, None) allow_ls
           script_request sudo_rm).
  - assert (commands_for_exec_policy demo_shell (req_command script_request)
            = [[lit "ls"]; sudo_rm]) as -> by (vm_compute; reflexivity).
    right. left.
  - vm_compute. reflexivity.
  - vm_compute. discriminate.
Defined.

Definition npm_request : @ExecApprovalRequest str str :=
  demo_request [lit "npm"; lit "test"; lit "--all"] OnRequest Honor (Some [lit "npm"; lit "test"]).

Example npm_requirement :
  demo_parsed allow_ls npm_request [req_command npm_request] =
  Some (NeedsApproval None (Some [lit "npm"; lit "test"])).
Proof. vm_compute. reflexivity. Qed.

Lemma proposed_amendment_sound_witness :
  let p := policy_in_force allow_ls npm_request in
  allow_prefix_rules npm_request = Honor ∧
  ((prefix_rule npm_request = Some [lit "npm"; lit "test"] ∧
    [lit "npm"; lit "test"] ∉ banned_prefix_suggestions ∧
    uncovered demo_path path_file_name p [req_command npm_request] ∧
    ∃ p', add_prefix_rule p [lit "npm"; lit "test"] Allow = Ok p' ∧
      ∀ cmd, cmd ∈ [req_command npm_request] →
        demo_decision p' (demo_fallback npm_request) cmd = Allow) ∨
   ([lit "npm"; lit "test"] ∈ [req_command npm_request] ∧
    demo_covering p [lit "npm"; lit "test"] = [] ∧
    demo_fallback npm_request [lit "npm"; lit "test"] ≠ Forbidden)).
Proof.
  apply (proposed_amendment_sound demo_path path_file_name demo_shell (λ _, None) allow_ls
           npm_request [req_command npm_request]
           (NeedsApproval None (Some [lit "npm"; lit "test"]))).
  - vm_compute. reflexivity.
  - vm_compute. reflexivity.
Defined.

Definition cyber_request : @ExecApprovalRequest str str :=
  demo_request [lit "ls"] OnRequest IgnoreForCyberModel None.

Lemma ignored_allow_rules_witness :
  (∀ r, in_policy (policy_in_force allow_ls cyber_request) r ↔
     (in_policy allow_ls r ∧ rule_decision r ≠ Allow) ∨
     ∃ o, environment_policy cyber_request = Some o ∧ in_policy o r) ∧
  ∃ r, demo_create allow_ls cyber_request = Some r ∧
    proposed_execpolicy_amendment r = None ∧ ∀ amendment, r ≠ Skip true amendment.
Proof.
  apply (ignored_allow_rules demo_path path_file_name demo_shell (λ _, None) allow_ls cyber_request).
  - reflexivity.
  - intros o. discriminate.
Defined.

(** With its allow rules honoured the same request runs outside the sandbox. *)
Example honoured_allow_rule :
  demo_create allow_ls (demo_request [lit "ls"] OnRequest Honor None) = Some (Skip true None) ∧
  demo_create allow_ls cyber_request = Some (NeedsApproval None None).
Proof. vm_compute. done. Qed.

Definition shell_request : @ExecApprovalRequest str str :=
  {| req_command := [lit "/opt/odd/bash"; lit "-lc"; lit "ls"]; approval_policy := OnRequest;
     permission_profile := Disabled; environment_policy := None;
     sandbox_permissions := UseDefault; prefix_rule := None; allow_prefix_rules := Honor |}.

Lemma executable_needs_own_rule_witness :
  let p := policy_in_force allow_ls shell_request in
  ∃ executable args, req_command shell_request = executable :: args ∧
    demo_decision p (demo_fallback shell_request) [executable] = Allow ∧
    (false = true → demo_covering p [executable] ≠ []) ∧
    ∀ cmd, cmd ∈ commands_for_exec_policy demo_shell (req_command shell_request) →
      demo_decision p (demo_fallback shell_request) cmd = Allow.
Proof.
  apply (executable_needs_own_rule demo_path path_file_name demo_shell (λ _, None) allow_ls
           shell_request (lit "/bin/zsh") Direct false (Some [lit "/opt/odd/bash"])).
  - vm_compute. discriminate.
  - vm_compute. reflexivity.
Defined.

(** ** Loading *)

(** A user's rules directory with one file, which does not parse. *)
Definition user_rules : str := lit "/home/u/.codex/rules".
Definition demo_read_dir (dir : str) : result (list (result DirEntry io_error)) io_error :=
  if bool_decide (dir = user_rules)
  then Ok [Ok {| entry_name := lit "a.rules"; entry_is_file := Ok true |};
           Ok {| entry_name := lit "notes.txt"; entry_is_file := Ok true |}]
  else Err {| err_kind := NotFound; err_text := lit "no such directory" |}.

Definition demo_parent (path : str) : option str :=
  if bool_decide (path = lit "/home/u/.codex/config.toml") then Some (lit "/home/u/.codex")
  else fst <$> rsplit_once 47 path.

Definition demo_stack : @ConfigLayerStack str :=
  {| layers := [{| layer_name := System (lit "/etc/codex/config.toml"); layer_disabled := false |};
                {| layer_name := User (lit "/home/u/.codex/config.toml") None;
                   layer_disabled := false |}];
     ignore_user_and_project_exec_policy_rules := false;
     requirements := Some forbid_git_push |}.

Abbreviation demo_load :=
  (load_exec_policy_with_warning demo_try_from path_file_name (λ _, None) (λ _, None) (λ _, [])
     (λ _, []) (λ _ _, Err (InvalidRule (lit "syntax"))) (λ e, e) demo_parent demo_read_dir
     (λ _, Ok (lit "prefix_rule("))).

Definition demo_warning : option ExecPolicyError :=
  Some (ParsePolicy (lit "/home/u/.codex/rules/a.rules") (InvalidRule (lit "syntax"))).

Example demo_loaded : demo_load demo_stack = Ok (forbid_git_push, demo_warning).
Proof. vm_compute. reflexivity. Qed.

Lemma requirements_always_enforced_witness :
  ∃ q r, requirements demo_stack = Some q ∧ policy_wf q ∧ in_policy q r ∧
    rule_decision r = Forbidden ∧
    (∀ cmd h, covers_command r cmd → decision_le Forbidden (demo_decision forbid_git_push h cmd)).
Proof.
  destruct (requirements_always_enforced demo_try_from path_file_name (λ _, None) (λ _, None)
           (λ _, []) (λ _, []) (λ _ _, Err (InvalidRule (lit "syntax"))) (λ e, e) demo_parent
           demo_read_dir (λ _, Ok (lit "prefix_rule(")) demo_stack forbid_git_push demo_warning
           ltac:(vm_compute; reflexivity)) as (Htext & _ & _).
  assert (policy_wf forbid_git_push) as Hwf.
  { intros k rs Hk. unfold forbid_git_push, rule_for in Hk. simpl in Hk. unfold multi_insert in Hk.
    apply lookup_insert_Some in Hk as [[<- <-]|[_ Hk]]; [|by rewrite lookup_empty in Hk].
    rewrite lookup_empty. apply Forall_singleton. reflexivity. }
  assert (∃ r, in_policy forbid_git_push r ∧ rule_decision r = Forbidden) as (r & Hr & Hd).
  { eexists. split; [exists (lit "git"); vm_compute; left|reflexivity]. }
  exists forbid_git_push, r. split; [reflexivity|]. split; [exact Hwf|]. split; [exact Hr|].
  split; [exact Hd|]. intros cmd h Hc. rewrite <- Hd.
  exact (Htext forbid_git_push r cmd h eq_refl Hwf Hr Hc).
Defined.

(** The rule is there, and it is a prohibition that a fallback cannot lift. *)
Example requirement_in_force :
  demo_decision forbid_git_push (λ _, Allow) [lit "git"; lit "push"; lit "origin"] = Forbidden ∧
  demo_decision forbid_git_push (λ _, Allow) [lit "git"; lit "status"] = Allow.
Proof. vm_compute. done. Qed.

(** Rules for the text of a command come first: a rule of a user for the text
    [/usr/bin/git push] lifts the prohibition of [git push] for that path. *)
Definition path_rule_policy : @Policy str :=
  merge_overlay (rule_for [lit "/usr/bin/git"; lit "push"] Allow) forbid_git_push.

Example path_rule_comes_first :
  demo_decision forbid_git_push (λ _, Allow) [lit "/usr/bin/git"; lit "push"] = Forbidden ∧
  demo_decision path_rule_policy (λ _, Allow) [lit "git"; lit "push"] = Forbidden ∧
  demo_decision path_rule_policy (λ _, Allow) [lit "/usr/bin/git"; lit "push"] = Allow.
Proof. vm_compute. done. Qed.

(** ** Updates *)

Definition demo_json (s : str) : result str str := Ok ([34%N] ++ s ++ [34%N]).
Definition demo_manager : @manager str :=
  {| mgr_policy := forbid_git_push; mgr_fs := {| dir_exists := true; rules_file := None |} |}.

Abbreviation demo_amend :=
  (append_amendment_and_update demo_try_from path_file_name demo_json demo_parent).

Definition amended : @manager str * result unit ExecPolicyUpdateError :=
  demo_amend no_faults (lit "/home/u/.codex") [lit "npm"; lit "test"] demo_manager.

Lemma amendment_takes_effect_witness :
  amended.2 = Ok () ∧
  (∃ mt, mt ∈ demo_covering (mgr_policy amended.1) [lit "npm"; lit "test"] ∧
     match_decision mt = Allow) ∧
  (∀ rule, in_policy forbid_git_push rule → in_policy (mgr_policy amended.1) rule) ∧
  (∀ rule, in_policy (mgr_policy amended.1) rule →
     in_policy forbid_git_push rule ∨ allow_rule [lit "npm"; lit "test"] rule).
Proof.
  split; [vm_compute; reflexivity|].
  apply (amendment_takes_effect demo_try_from path_file_name demo_json demo_parent no_faults
           (lit "/home/u/.codex") [lit "npm"; lit "test"] demo_manager amended.1 (Ok ())).
  vm_compute. reflexivity.
Defined.

Lemma updates_only_add_witness : extends demo_manager amended.1.
Proof.
  apply (updates_only_add demo_try_from path_file_name demo_json demo_parent
           (lit "/home/u/.codex") demo_manager amended.1).
  apply rtc_once.
  apply (step_amendment demo_try_from path_file_name demo_json demo_parent _ no_faults
           [lit "npm"; lit "test"] _ _ (Ok ())).
  vm_compute. reflexivity.
Defined.

(** The line that was saved. *)
Example amended_file :
  rules_file (mgr_fs amended.1) =
  Some (lit "prefix_rule(pattern=[" ++ [34%N] ++ lit "npm" ++ [34%N] ++ lit ", " ++ [34%N]
        ++ lit "test" ++ [34%N] ++ lit "], decision=" ++ [34%N] ++ lit "allow" ++ [34%N]
        ++ lit ")" ++ [nl]).
Proof. vm_compute. reflexivity. Qed.
