(* ===== verification/StreamParser.v ===== *)
(** * Streaming text parsers and hidden inline tags

    [codex-rs/utils/stream-parser]: [stream_text.rs], [inline_hidden_tag.rs] and
    [citation.rs].  The interface of a streaming parser with the laws its
    clients rely on, and the parser that hides tags such as citations. *)

From S2P Require Import Prelude RustStr.

(** ** The interface *)

Record StreamTextChunk (T : Type) := { visible_text : str; extracted : list T }.
Arguments visible_text {T}.
Arguments extracted {T}.

Definition empty_chunk {T} : StreamTextChunk T := {| visible_text := []; extracted := [] |}.

Definition chunk_is_empty {T} (c : StreamTextChunk T) : bool :=
  is_empty (visible_text c) && is_empty (extracted c).

(** Appending the output of a later chunk, as the callers do. *)
Definition chunk_app {T} (a b : StreamTextChunk T) : StreamTextChunk T :=
  {| visible_text := visible_text a ++ visible_text b; extracted := extracted a ++ extracted b |}.

Class StreamTextParser (P T : Type) := {
  push_str : P → str → P * StreamTextChunk T;
  finish : P → P * StreamTextChunk T;
}.

(** What a client may rely on: on the states a parser reaches, pushing nothing
    does nothing, and pushing a text in two pieces is pushing it at once, up to
    an equivalence of outputs that appending respects. *)
Class StreamTextLaws (P T : Type) `{StreamTextParser P T} := {
  parser_ok : P → Prop;
  out_equiv : relation (StreamTextChunk T);
  out_equivalence :: Equivalence out_equiv;
  out_app_proper :: Proper (out_equiv ==> out_equiv ==> out_equiv) chunk_app;
  push_ok : ∀ p s, parser_ok p → parser_ok (push_str p s).1;
  push_nil : ∀ p, parser_ok p → push_str p [] = (p, empty_chunk);
  push_app : ∀ p a b, parser_ok p →
    let '(p1, o1) := push_str p a in
    let '(p2, o2) := push_str p1 b in
    ∃ o, push_str p (a ++ b) = (p2, o) ∧ out_equiv o (chunk_app o1 o2);
}.

(** Feed several chunks and append what they produce. *)
Fixpoint push_chunks {P T} `{StreamTextParser P T} (p : P) (chunks : list str)
  : P * StreamTextChunk T :=
  match chunks with
  | [] => (p, empty_chunk)
  | c :: cs =>
      let '(p, o) := push_str p c in
      let '(p, o') := push_chunks p cs in
      (p, chunk_app o o')
  end.

Lemma chunk_app_empty_r {T} (c : StreamTextChunk T) : chunk_app c empty_chunk = c.
Proof. destruct c. unfold chunk_app. simpl. by rewrite !app_nil_r. Qed.

Lemma chunk_app_empty_l {T} (c : StreamTextChunk T) : chunk_app empty_chunk c = c.
Proof. by destruct c. Qed.

Lemma chunk_app_assoc {T} (a b c : StreamTextChunk T) :
  chunk_app a (chunk_app b c) = chunk_app (chunk_app a b) c.
Proof. unfold chunk_app. simpl. by rewrite !app_assoc. Qed.

(** Cutting a text into chunks does not matter, for any parser with the laws. *)
Lemma push_chunks_concat {P T} `{StreamTextLaws P T} (chunks : list str) : ∀ p,
  parser_ok p →
  ∃ o, push_str p (concat chunks) = ((push_chunks p chunks).1, o) ∧
    out_equiv o (push_chunks p chunks).2.
Proof.
  induction chunks as [|c cs IH]; intros p Hp; simpl.
  - rewrite push_nil by done. by eexists.
  - pose proof (push_app p c (concat cs) Hp) as Happ. pose proof (push_ok p c Hp) as Hok.
    destruct (push_str p c) as [p1 o1]. simpl in Hok.
    destruct (IH p1 Hok) as (o2 & Ho2 & Heq). rewrite Ho2 in Happ.
    destruct Happ as (o & Ho & Hoeq). destruct (push_chunks p1 cs) as [p2 o2'].
    simpl in *. exists o. split; [done|]. by rewrite Hoeq, Heq.
Qed.

(** ** Hidden inline tags *)

Record InlineTagSpec (T : Type) := { spec_tag : T; spec_open : str; spec_close : str }.
Arguments spec_tag {T}.
Arguments spec_open {T}.
Arguments spec_close {T}.

Record ExtractedInlineTag (T : Type) := { ex_tag : T; ex_content : str }.
Arguments ex_tag {T}.
Arguments ex_content {T}.

Record ActiveTag (T : Type) := { act_tag : T; act_close : str; act_content : str }.
Arguments act_tag {T}.
Arguments act_close {T}.
Arguments act_content {T}.

Record InlineHiddenTagParser (T : Type) := {
  specs : list (InlineTagSpec T);
  pending : str;
  active : option (ActiveTag T);
}.
Arguments specs {T}.
Arguments pending {T}.
Arguments active {T}.

(** The length of the longest proper prefix of [needle] that ends [s]. *)
Fixpoint suffix_prefix_from (s needle : str) (k : nat) : nat :=
  match k with
  | 0 => 0
  | S k' => if ends_with s (take k needle) then k else suffix_prefix_from s needle k'
  end.

Definition longest_suffix_prefix_len (s needle : str) : nat :=
  suffix_prefix_from s needle (Nat.min (length s) (length needle - 1)).

Section inline.
Context {T : Type}.
Implicit Types (sp : list (InlineTagSpec T)) (p : InlineHiddenTagParser T).
Abbreviation out := (StreamTextChunk (ExtractedInlineTag T)).

(** [new] panics without specs or with an empty delimiter. *)
Definition new_inline_parser sp : option (InlineHiddenTagParser T) :=
  if is_empty sp
     || existsb (λ s, is_empty (spec_open s) || is_empty (spec_close s)) sp
  then None
  else Some {| specs := sp; pending := []; active := None |}.

(** [(pos, len, idx)]: the earliest match, then the longest, then the first. *)
Definition better (a b : nat * nat * nat) : bool :=
  let '(pos_a, len_a, idx_a) := a in
  let '(pos_b, len_b, idx_b) := b in
  if pos_a =? pos_b then
    if len_a =? len_b then idx_a <? idx_b else len_b <? len_a
  else pos_a <? pos_b.

Definition min_candidate (cs : list (nat * nat * nat)) : option (nat * nat * nat) :=
  match cs with
  | [] => None
  | c :: cs => Some (foldl (λ best x, if better x best then x else best) c cs)
  end.

Definition find_next_open sp (pending : str) : option (nat * nat) :=
  let candidates :=
    omap (λ '(idx, s), (λ pos, (pos, length (spec_open s), idx)) <$> find_str (spec_open s) pending)
      (imap pair sp) in
  (λ '(pos, _, idx), (pos, idx)) <$> min_candidate candidates.

Definition max_open_prefix_suffix_len sp (pending : str) : nat :=
  foldr (λ s n, Nat.max (longest_suffix_prefix_len pending (spec_open s)) n) 0 sp.

(** The loop of [push_str]; every iteration but the last drains a delimiter. *)
Fixpoint push_loop (fuel : nat) sp (active : option (ActiveTag T)) (pending : str) (o : out)
  : option (ActiveTag T) * str * out :=
  match fuel with
  | 0 => (active, pending, o)
  | S fuel =>
      match active with
      | Some a =>
          match find_str (act_close a) pending with
          | Some close_idx =>
              push_loop fuel sp None (drop (close_idx + length (act_close a)) pending)
                {| visible_text := visible_text o;
                   extracted := extracted o ++
                     [{| ex_tag := act_tag a;
                         ex_content := act_content a ++ take close_idx pending |}] |}
          | None =>
              let keep := longest_suffix_prefix_len pending (act_close a) in
              let n := length pending - keep in
              (Some {| act_tag := act_tag a; act_close := act_close a;
                       act_content := act_content a ++ take n pending |},
               drop n pending, o)
          end
      | None =>
          match find_next_open sp pending with
          | Some (open_idx, spec_idx) =>
              match sp !! spec_idx with
              | Some s =>
                  push_loop fuel sp
                    (Some {| act_tag := spec_tag s; act_close := spec_close s; act_content := [] |})
                    (drop (open_idx + length (spec_open s)) pending)
                    {| visible_text := visible_text o ++ take open_idx pending;
                       extracted := extracted o |}
              | None => (None, pending, o)
              end
          | None =>
              let n := length pending - max_open_prefix_suffix_len sp pending in
              (None, drop n pending,
               {| visible_text := visible_text o ++ take n pending; extracted := extracted o |})
          end
      end
  end.

Definition inline_push_str p (chunk : str) : InlineHiddenTagParser T * out :=
  let text := pending p ++ chunk in
  let '(active, pending, o) := push_loop (S (length text)) (specs p) (active p) text empty_chunk in
  ({| specs := specs p; pending := pending; active := active |}, o).

Definition inline_finish p : InlineHiddenTagParser T * out :=
  ({| specs := specs p; pending := []; active := None |},
   match active p with
   | Some a =>
       {| visible_text := [];
          extracted := [{| ex_tag := act_tag a; ex_content := act_content a ++ pending p |}] |}
   | None => {| visible_text := pending p; extracted := [] |}
   end).

#[global] Instance inline_parser : StreamTextParser (InlineHiddenTagParser T) (ExtractedInlineTag T) :=
  {| push_str := inline_push_str; finish := inline_finish |}.
End inline.

(** ** Citations *)

Inductive CitationTag := Citation.

Definition CITATION_OPEN : str := lit "<oai-mem-citation>".
Definition CITATION_CLOSE : str := lit "</oai-mem-citation>".

Definition citation_spec : InlineTagSpec CitationTag :=
  {| spec_tag := Citation; spec_open := CITATION_OPEN; spec_close := CITATION_CLOSE |}.

Record CitationStreamParser := { cit_inner : InlineHiddenTagParser CitationTag }.

Definition new_citation_parser : CitationStreamParser :=
  {| cit_inner := {| specs := [citation_spec]; pending := []; active := None |} |}.

Definition citation_chunk (o : StreamTextChunk (ExtractedInlineTag CitationTag))
  : StreamTextChunk str :=
  {| visible_text := visible_text o; extracted := ex_content <$> extracted o |}.

#[global] Instance citation_parser : StreamTextParser CitationStreamParser str := {|
  push_str p chunk :=
    let '(i, o) := push_str (cit_inner p) chunk in ({| cit_inner := i |}, citation_chunk o);
  finish p :=
    let '(i, o) := finish (cit_inner p) in ({| cit_inner := i |}, citation_chunk o);
|}.

Definition strip_citations (text : str) : str * list str :=
  let '(p, o) := push_str new_citation_parser text in
  let '(_, tail) := finish p in
  (visible_text o ++ visible_text tail, extracted o ++ extracted tail).

Example strip_citations_example :
  strip_citations (lit "hello <oai-mem-citation>doc A</oai-mem-citation> world")
  = (lit "hello  world", [lit "doc A"]).
Proof. vm_compute. reflexivity. Qed.

(** ** Scanning for one delimiter *)

Lemma find_str_intro needle hay i :
  i ≤ length hay → starts_with (drop i hay) needle = true →
  (∀ j, j < i → starts_with (drop j hay) needle = false) →
  find_str needle hay = Some i.
Proof.
  revert i; induction hay as [|c hay IH]; intros i Hi Hs Hmin.
  - simpl in Hi. assert (i = 0) as -> by lia. simpl in Hs. unfold find_str. by rewrite Hs.
  - destruct i as [|i].
    + simpl in Hs. unfold find_str. by rewrite Hs.
    + change (find_str needle (c :: hay)) with
        (if starts_with (c :: hay) needle then Some 0 else S <$> find_str needle hay).
      rewrite (Hmin 0 ltac:(lia) : starts_with (c :: hay) needle = false).
      rewrite (IH i); [done|simpl in Hi; lia|done|]. intros j Hj. apply (Hmin (S j)). lia.
Qed.

Lemma find_str_le needle hay : ∀ i, find_str needle hay = Some i → i ≤ length hay.
Proof.
  induction hay as [|c hay IH]; intros i; unfold find_str; fold find_str;
    (destruct (starts_with _ needle); [intros [= <-]; lia|]); [done|].
  intros (k & Hk & ->)%fmap_Some. simpl. specialize (IH k Hk). lia.
Qed.

Lemma find_str_bound needle hay i :
  find_str needle hay = Some i →
  i + length needle ≤ length hay ∧ starts_with (drop i hay) needle = true.
Proof.
  intros Hf. pose proof (find_str_le _ _ _ Hf) as Hi. apply find_str_Some in Hf as [Heq _]. split.
  - apply (f_equal length) in Heq. rewrite !length_app, length_take, length_drop in Heq. lia.
  - rewrite Heq. apply starts_with_spec. exists (drop (i + length needle) hay).
    rewrite drop_app_length' by (rewrite length_take; lia). done.
Qed.

Lemma starts_with_app x c needle :
  length needle ≤ length x → starts_with (x ++ c) needle = starts_with x needle.
Proof.
  intros Hl. apply eq_true_iff_eq. rewrite !starts_with_spec. split.
  - intros (z & Hz). exists (drop (length needle) x).
    apply (f_equal (take (length needle))) in Hz.
    rewrite take_app_le, take_app_length in Hz by lia. by rewrite <- Hz at 1; rewrite take_drop.
  - intros (z & ->). exists (z ++ c). by rewrite app_assoc.
Qed.

Lemma find_str_app needle p c i :
  find_str needle p = Some i → find_str needle (p ++ c) = Some i.
Proof.
  intros Hf. destruct (find_str_bound _ _ _ Hf) as [Hb Hs]. apply find_str_Some in Hf as [_ Hmin].
  apply find_str_intro.
  - rewrite length_app. lia.
  - rewrite drop_app_le by lia. rewrite starts_with_app; [done|]. rewrite length_drop. lia.
  - intros j Hj. rewrite drop_app_le by lia. rewrite starts_with_app; [auto|].
    rewrite length_drop. lia.
Qed.

Lemma find_str_shift needle m : ∀ hay,
  m ≤ length hay → (∀ j, j < m → starts_with (drop j hay) needle = false) →
  find_str needle hay = (λ i, m + i) <$> find_str needle (drop m hay).
Proof.
  induction m as [|m IH]; intros hay Hm Hno.
  - rewrite drop_0. destruct (find_str needle hay); done.
  - destruct hay as [|c hay]; [simpl in Hm; lia|].
    change (find_str needle (c :: hay)) with
      (if starts_with (c :: hay) needle then Some 0 else S <$> find_str needle hay).
    rewrite (Hno 0 ltac:(lia) : starts_with (c :: hay) needle = false). simpl in Hm |- *.
    rewrite (IH hay); [|lia|intros j Hj; apply (Hno (S j)); lia].
    by destruct (find_str needle (drop m hay)).
Qed.

(** [k] is the length of the longest proper prefix of [n] that ends [s]. *)
Definition suffix_match (s n : str) (k : nat) : Prop := ∃ x, s = x ++ take k n.

Definition is_longest (s n : str) (k : nat) : Prop :=
  k ≤ length s ∧ k ≤ length n - 1 ∧ suffix_match s n k ∧
  ∀ k', k < k' → k' ≤ length s → k' ≤ length n - 1 → ¬ suffix_match s n k'.

Lemma suffix_prefix_from_spec s n m :
  m ≤ length s → m ≤ length n - 1 →
  let k := suffix_prefix_from s n m in
  k ≤ m ∧ suffix_match s n k ∧ ∀ k', k < k' → k' ≤ m → ¬ suffix_match s n k'.
Proof.
  intros Hs Hn. induction m as [|m IH]; simpl.
  - split; [done|]. split; [exists s; by rewrite take_0, app_nil_r|lia].
  - destruct (ends_with s (take (S m) n)) eqn:He.
    + apply ends_with_spec in He. split; [lia|]. split; [done|lia].
    + destruct IH as (H1 & H2 & H3); [lia..|]. split; [lia|]. split; [done|].
      intros k' Hk Hk' Hm. destruct (decide (k' = S m)) as [->|Hne]; [|by apply (H3 k'); [|lia|]].
      apply ends_with_spec in Hm. congruence.
Qed.

Lemma longest_spec s n : is_longest s n (longest_suffix_prefix_len s n).
Proof.
  unfold longest_suffix_prefix_len.
  destruct (suffix_prefix_from_spec s n (Nat.min (length s) (length n - 1))) as (H1 & H2 & H3);
    [lia..|]. split; [lia|]. split; [lia|]. split; [done|]. intros k' ???. apply H3; lia.
Qed.

Lemma longest_unique s n k : is_longest s n k → longest_suffix_prefix_len s n = k.
Proof.
  intros (H1 & H2 & H3 & H4). destruct (longest_spec s n) as (G1 & G2 & G3 & G4).
  destruct (lt_eq_lt_dec (longest_suffix_prefix_len s n) k) as [[Hlt|]|Hgt]; [|done|].
  - by destruct (G4 k Hlt H1 H2).
  - by destruct (H4 _ Hgt G1 G2).
Qed.

(** Look for [n] in [p]: found, with what precedes and follows it; or not found,
    with what can be given out and what must be kept. *)
Definition scan (n p : str) : bool * str * str :=
  match find_str n p with
  | Some i => (true, take i p, drop (i + length n) p)
  | None =>
      let t := length p - longest_suffix_prefix_len p n in (false, take t p, drop t p)
  end.

Lemma scan_found_app n p c a r :
  scan n p = (true, a, r) → scan n (p ++ c) = (true, a, r ++ c).
Proof.
  unfold scan. destruct (find_str n p) as [i|] eqn:Hf; [|done]. intros [= <- <-].
  rewrite (find_str_app _ _ c _ Hf). destruct (find_str_bound _ _ _ Hf).
  by rewrite take_app_le, drop_app_le by lia.
Qed.

(** Nothing starts in the part that is given out. *)
Lemma scan_partial_none n p c a r :
  scan n p = (false, a, r) → p = a ++ r ∧
  ∀ j, j < length a → starts_with (drop j (p ++ c)) n = false.
Proof.
  unfold scan. destruct (find_str n p) as [i|] eqn:Hf; [done|].
  destruct (longest_spec p n) as (Hk1 & Hk2 & _ & Hmax).
  set (k := longest_suffix_prefix_len p n) in *. intros [= <- <-].
  split; [by rewrite take_drop|]. intros j Hj. rewrite length_take in Hj.
  destruct (starts_with (drop j (p ++ c)) n) eqn:Hs; [exfalso|done].
  apply starts_with_spec in Hs as (z & Hz). rewrite drop_app_le in Hz by lia.
  destruct (decide (length n ≤ length (drop j p))) as [Hle|Hgt].
  - pose proof (find_str_None _ _ Hf j) as Hno.
    rewrite <- (starts_with_app (drop j p) c) in Hno by done. rewrite Hz in Hno.
    assert (starts_with (n ++ z) n = true) as Hy by (apply starts_with_spec; by exists z). congruence.
  - rewrite length_drop in Hgt. apply (Hmax (length p - j)); [lia|lia|lia|].
    exists (take j p). apply (f_equal (take (length p - j))) in Hz.
    rewrite take_app_le, (take_ge (drop j p)) in Hz by (rewrite length_drop; lia).
    rewrite take_app_le in Hz by lia. by rewrite <- Hz, take_drop.
Qed.

Lemma scan_partial_longest n p c a r :
  scan n p = (false, a, r) →
  longest_suffix_prefix_len (p ++ c) n = longest_suffix_prefix_len (r ++ c) n.
Proof.
  intros Hs. pose proof (scan_partial_none n p [] a r Hs) as [Hp _]. revert Hs.
  unfold scan. destruct (find_str n p) as [i|]; [done|].
  destruct (longest_spec p n) as (Hk1 & Hk2 & _ & Hmax).
  set (k := longest_suffix_prefix_len p n) in *. intros [= Ha Hr].
  assert (length r = k) as Hlr by (rewrite <- Hr, length_drop; lia).
  apply longest_unique.
  destruct (longest_spec (r ++ c) n) as (G1 & G2 & (x & Hx) & G4).
  set (g := longest_suffix_prefix_len (r ++ c) n) in *.
  rewrite length_app in G1. split; [rewrite length_app; rewrite Hp, length_app; lia|].
  split; [done|]. split.
  { exists (a ++ x). rewrite Hp, <- !app_assoc. by rewrite Hx. }
  intros k' Hlt Hlen Hn (y & Hy). rewrite length_app in Hlen.
  destruct (decide (k' ≤ length r + length c)) as [Hle|Hgt].
  - apply (G4 k'); [done|rewrite length_app; lia|done|].
    exists (drop (length a) y). rewrite Hp, <- app_assoc in Hy.
    assert (length a ≤ length y) as Hay.
    { apply (f_equal length) in Hy. rewrite !length_app, length_take in Hy. lia. }
    apply (f_equal (drop (length a))) in Hy. rewrite drop_app_length, drop_app_le in Hy by done.
    done.
  - apply (Hmax (k' - length c)); [lia|lia|lia|]. exists y.
    assert (length y + k' = length p + length c) as Hl.
    { apply (f_equal length) in Hy. rewrite !length_app, length_take in Hy. lia. }
    apply (f_equal (take (length p))) in Hy. rewrite take_app_length in Hy.
    rewrite take_app in Hy. rewrite (take_ge y) in Hy by lia.
    rewrite take_take in Hy. rewrite Hy. do 2 f_equal. lia.
Qed.

Lemma scan_partial_app n p c a r :
  scan n p = (false, a, r) →
  scan n (p ++ c) = let '(b, a', r') := scan n (r ++ c) in (b, a ++ a', r').
Proof.
  intros Hs. destruct (scan_partial_none n p c a r Hs) as [Hp Hno].
  pose proof (scan_partial_longest n p c a r Hs) as Hl.
  assert (drop (length a) (p ++ c) = r ++ c) as Hd
    by (by rewrite Hp, <- app_assoc, drop_app_length).
  unfold scan. rewrite (find_str_shift n (length a)); [|rewrite Hp, !length_app; lia|done].
  rewrite Hd. destruct (find_str n (r ++ c)) as [i|] eqn:Hf; simpl.
  - rewrite Hp, <- app_assoc, take_app_add, <- Nat.add_assoc, drop_app_add. done.
  - rewrite Hl. set (g := longest_suffix_prefix_len (r ++ c) n).
    pose proof (longest_spec (r ++ c) n) as (Hg & _). fold g in Hg.
    replace (length (p ++ c) - g) with (length a + (length (r ++ c) - g))
      by (rewrite Hp, <- app_assoc, (length_app a); lia).
    by rewrite Hp, <- app_assoc, take_app_add, drop_app_add.
Qed.

Lemma scan_idem n p a r : n ≠ [] → scan n p = (false, a, r) → scan n r = (false, [], r).
Proof.
  intros Hn Hs. pose proof (scan_partial_app n p [] a r Hs) as H.
  rewrite !app_nil_r, Hs in H. destruct (scan n r) as [[b a'] r'] eqn:Hr.
  injection H as <- Ha ->. assert (a' = []) as ->; [|done].
  apply (f_equal length) in Ha. rewrite length_app in Ha. by apply nil_length_inv; lia.
Qed.

Lemma scan_shrinks n p a r : n ≠ [] → scan n p = (true, a, r) → length r < length p.
Proof.
  unfold scan. intros Hn. destruct (find_str n p) as [i|] eqn:Hf; [|done]. intros [= <- <-].
  destruct (find_str_bound _ _ _ Hf). destruct n; [done|]. simpl in *. rewrite length_drop. lia.
Qed.

(** ** One tag *)

Section single.
Context {T : Type} (s : InlineTagSpec T).
Hypothesis (Hopen : spec_open s ≠ []) (Hclose : spec_close s ≠ []).
Abbreviation out := (StreamTextChunk (ExtractedInlineTag T)).
Implicit Types (act : option (ActiveTag T)) (p c : str) (o : out).

Definition fresh_tag : ActiveTag T :=
  {| act_tag := spec_tag s; act_close := spec_close s; act_content := [] |}.

Definition visible (v : str) : out := {| visible_text := v; extracted := [] |}.
Definition hidden (a : ActiveTag T) (v : str) : out :=
  {| visible_text := [];
     extracted := [{| ex_tag := act_tag a; ex_content := act_content a ++ v |}] |}.
Definition grow (a : ActiveTag T) (v : str) : ActiveTag T :=
  {| act_tag := act_tag a; act_close := act_close a; act_content := act_content a ++ v |}.

(** The loop, one delimiter at a time. *)
Lemma push_loop_step fuel act p o :
  push_loop (S fuel) [s] act p o =
  match act with
  | Some a =>
      let '(found, v, r) := scan (act_close a) p in
      if found then push_loop fuel [s] None r (chunk_app o (hidden a v))
      else (Some (grow a v), r, o)
  | None =>
      let '(found, v, r) := scan (spec_open s) p in
      if found then push_loop fuel [s] (Some fresh_tag) r (chunk_app o (visible v))
      else (None, r, chunk_app o (visible v))
  end.
Proof.
  destruct act as [a|]; simpl; unfold scan, chunk_app; simpl.
  - destruct (find_str (act_close a) p); [|done]. by rewrite app_nil_r.
  - unfold find_next_open, max_open_prefix_suffix_len. simpl. rewrite Nat.max_0_r.
    destruct (find_str (spec_open s) p); simpl; by rewrite app_nil_r.
Qed.

Definition act_wf act : Prop := ∀ a, act = Some a → act_close a ≠ [].

Lemma push_loop_fuel f f' act p o :
  act_wf act → length p < f → length p < f' →
  push_loop f [s] act p o = push_loop f' [s] act p o.
Proof.
  revert f' act p o; induction f as [|f IH]; intros f' act p o Hact Hf Hf'; [lia|].
  destruct f' as [|f']; [lia|]. rewrite !push_loop_step. destruct act as [a|].
  - destruct (scan (act_close a) p) as [[[] v] r] eqn:Hs; [|done].
    apply scan_shrinks in Hs; [|by apply Hact]. apply IH; [by intros ?|lia..].
  - destruct (scan (spec_open s) p) as [[[] v] r] eqn:Hs; [|done].
    apply scan_shrinks in Hs; [|done]. apply IH; [|lia..]. by intros ? [= <-].
Qed.

Lemma push_loop_out fuel act p o :
  push_loop fuel [s] act p o =
  let '(act', r, o') := push_loop fuel [s] act p empty_chunk in (act', r, chunk_app o o').
Proof.
  revert act p o; induction fuel as [|fuel IH]; intros act p o;
    [simpl; by rewrite chunk_app_empty_r|].
  rewrite !push_loop_step. destruct act as [a|].
  - destruct (scan (act_close a) p) as [[[] v] r]; [|by rewrite chunk_app_empty_r].
    rewrite (IH None r (chunk_app o _)), (IH None r (chunk_app empty_chunk _)).
    destruct (push_loop fuel [s] None r empty_chunk) as [[??]?].
    by rewrite chunk_app_empty_l, chunk_app_assoc.
  - destruct (scan (spec_open s) p) as [[[] v] r]; [|by rewrite chunk_app_empty_l].
    rewrite (IH _ r (chunk_app o _)), (IH _ r (chunk_app empty_chunk _)).
    destruct (push_loop fuel [s] _ r empty_chunk) as [[??]?].
    by rewrite chunk_app_empty_l, chunk_app_assoc.
Qed.

Definition run act p := push_loop (S (length p)) [s] act p empty_chunk.

Definition then_out o '(act, r, o') : option (ActiveTag T) * str * out :=
  (act, r, chunk_app o o').

Lemma run_step act p :
  act_wf act →
  run act p =
  match act with
  | Some a =>
      let '(found, v, r) := scan (act_close a) p in
      if found then then_out (hidden a v) (run None r) else (Some (grow a v), r, empty_chunk)
  | None =>
      let '(found, v, r) := scan (spec_open s) p in
      if found then then_out (visible v) (run (Some fresh_tag) r) else (None, r, visible v)
  end.
Proof.
  intros Hact. unfold run at 1. rewrite push_loop_step. destruct act as [a|].
  - destruct (scan (act_close a) p) as [[[] v] r] eqn:Hs; [|done].
    apply scan_shrinks in Hs; [|by apply Hact].
    rewrite push_loop_out, (push_loop_fuel _ (S (length r))) by (done || lia). fold (run None r).
    by destruct (run None r) as [[??]?].
  - destruct (scan (spec_open s) p) as [[[] v] r] eqn:Hs; [|by rewrite chunk_app_empty_l].
    apply scan_shrinks in Hs; [|done].
    rewrite push_loop_out, (push_loop_fuel _ (S (length r))); [|by intros ? [= <-]|lia..].
    fold (run (Some fresh_tag) r). rewrite chunk_app_empty_l.
    by destruct (run (Some fresh_tag) r) as [[??]?].
Qed.

Lemma grow_grow a v v' : grow (grow a v) v' = grow a (v ++ v').
Proof. unfold grow. simpl. by rewrite app_assoc. Qed.

Lemma then_out_run_chain o o' x : then_out o (then_out o' x) = then_out (chunk_app o o') x.
Proof. destruct x as [[??]?]. simpl. by rewrite chunk_app_assoc. Qed.

(** Reading on from where a first piece left off. *)
Lemma run_app act p c :
  act_wf act →
  run act (p ++ c) = let '(act', r, o) := run act p in then_out o (run act' (r ++ c)).
Proof.
  remember (length p) as n eqn:Hn. revert act p Hn.
  induction n as [n IH] using lt_wf_ind; intros act p -> Hact.
  rewrite (run_step act p), (run_step act (p ++ c)) by done. destruct act as [a|].
  - destruct (scan (act_close a) p) as [[[] v] r] eqn:Hs.
    + rewrite (scan_found_app _ _ c _ _ Hs). apply scan_shrinks in Hs; [|by apply Hact].
      rewrite (IH (length r) Hs None r eq_refl) by done.
      destruct (run None r) as [[act1 r1] o1]. simpl. by rewrite then_out_run_chain.
    + rewrite (scan_partial_app _ _ c _ _ Hs).
      rewrite (run_step (Some (grow a v))) by (intros ? [= <-]; exact (Hact a eq_refl)).
      change (act_close (grow a v)) with (act_close a).
      destruct (scan (act_close a) (r ++ c)) as [[[] v'] r'] eqn:Hs'.
      * rewrite then_out_run_chain, chunk_app_empty_l. unfold hidden. simpl. by rewrite app_assoc.
      * simpl. by rewrite grow_grow, chunk_app_empty_l.
  - destruct (scan (spec_open s) p) as [[[] v] r] eqn:Hs.
    + rewrite (scan_found_app _ _ c _ _ Hs). apply scan_shrinks in Hs; [|done].
      rewrite (IH (length r) Hs (Some fresh_tag) r eq_refl) by by intros ? [= <-].
      destruct (run (Some fresh_tag) r) as [[act1 r1] o1]. simpl. by rewrite then_out_run_chain.
    + rewrite (scan_partial_app _ _ c _ _ Hs), (run_step None) by done.
      destruct (scan (spec_open s) (r ++ c)) as [[[] v'] r'] eqn:Hs'; [by rewrite then_out_run_chain|].
      done.
Qed.

(** The tag being read is the configured one. *)
Definition act_ours act : Prop := ∀ a, act = Some a → act_close a = spec_close s.

Lemma act_ours_wf act : act_ours act → act_wf act.
Proof. intros H a Ha. by rewrite (H a Ha). Qed.

Lemma run_ours act p : act_ours act → act_ours (run act p).1.1.
Proof.
  remember (length p) as n eqn:Hn. revert act p Hn.
  induction n as [n IH] using lt_wf_ind; intros act p -> Hact.
  rewrite run_step by by apply act_ours_wf. destruct act as [a|].
  - destruct (scan (act_close a) p) as [[[] v] r] eqn:Hs.
    + apply scan_shrinks in Hs; [|by apply (act_ours_wf (Some a))].
      specialize (IH _ Hs None r eq_refl). destruct (run None r) as [[??]?]. by apply IH.
    + intros ? [= <-]. by apply (Hact a).
  - destruct (scan (spec_open s) p) as [[[] v] r] eqn:Hs; [|done].
    apply scan_shrinks in Hs; [|done]. specialize (IH _ Hs (Some fresh_tag) r eq_refl).
    destruct (run (Some fresh_tag) r) as [[??]?]. apply IH. by intros ? [= <-].
Qed.

(** What a run leaves cannot be read any further. *)
Lemma run_settled act p act' r o :
  act_wf act → run act p = (act', r, o) → run act' r = (act', r, empty_chunk).
Proof.
  intros Hact Hr. pose proof (run_app act p [] Hact) as H. rewrite app_nil_r, Hr, app_nil_r in H.
  destruct (run act' r) as [[a2 r2] o2]. simpl in H. injection H as <- <- Ho.
  assert (o2 = empty_chunk) as ->; [|done]. destruct o as [v e], o2 as [v2 e2].
  unfold chunk_app in Ho. simpl in Ho. injection Ho as Hv He.
  assert (v2 = []) as -> by (apply (f_equal length) in Hv; rewrite length_app in Hv;
    apply nil_length_inv; lia).
  assert (e2 = []) as -> by (apply (f_equal length) in He; rewrite length_app in He;
    apply nil_length_inv; lia). done.
Qed.

Definition inline_ok (p : InlineHiddenTagParser T) : Prop :=
  specs p = [s] ∧ act_ours (active p) ∧
  run (active p) (pending p) = (active p, pending p, empty_chunk).

Lemma inline_push_run (p : InlineHiddenTagParser T) c :
  specs p = [s] →
  inline_push_str p c =
  let '(act, r, o) := run (active p) (pending p ++ c) in
  ({| specs := [s]; pending := r; active := act |}, o).
Proof. intros Hs. unfold inline_push_str, run. by rewrite Hs. Qed.

Lemma inline_push_ok (p : InlineHiddenTagParser T) c : inline_ok p → inline_ok (inline_push_str p c).1.
Proof.
  intros (Hs & Ho & Hset). rewrite inline_push_run by done.
  pose proof (run_ours (active p) (pending p ++ c) Ho) as Ho'.
  destruct (run (active p) (pending p ++ c)) as [[act r] o] eqn:Hr. simpl in *.
  split; [done|]. split; [done|]. simpl. eapply run_settled; [|exact Hr]. by apply act_ours_wf.
Qed.

Lemma inline_push_nil (p : InlineHiddenTagParser T) : inline_ok p → inline_push_str p [] = (p, empty_chunk).
Proof.
  intros (Hs & Ho & Hset). rewrite inline_push_run, app_nil_r, Hset by done.
  destruct p as [sp pe ac]. simpl in *. by rewrite Hs.
Qed.

Lemma inline_push_app (p : InlineHiddenTagParser T) a b :
  inline_ok p →
  let '(p1, o1) := inline_push_str p a in
  let '(p2, o2) := inline_push_str p1 b in
  inline_push_str p (a ++ b) = (p2, chunk_app o1 o2).
Proof.
  intros (Hs & Ho & _). rewrite (inline_push_run p a), (inline_push_run p (a ++ b)) by done.
  rewrite app_assoc, (run_app (active p) (pending p ++ a) b) by by apply act_ours_wf.
  destruct (run (active p) (pending p ++ a)) as [[act1 r1] o1].
  cbn beta iota. rewrite inline_push_run by done. simpl.
  by destruct (run act1 (r1 ++ b)) as [[act2 r2] o2].
Qed.
End single.

(** ** The citation parser *)

Lemma citation_open_ne : spec_open citation_spec ≠ [].
Proof. done. Qed.
Lemma citation_close_ne : spec_close citation_spec ≠ [].
Proof. done. Qed.

Definition citation_ok (p : CitationStreamParser) : Prop := inline_ok citation_spec (cit_inner p).

Lemma new_citation_ok : citation_ok new_citation_parser.
Proof. split; [done|]. split; [done|]. vm_compute. reflexivity. Qed.

Lemma citation_chunk_app a b :
  citation_chunk (chunk_app a b) = chunk_app (citation_chunk a) (citation_chunk b).
Proof. unfold citation_chunk, chunk_app. simpl. by rewrite fmap_app. Qed.

#[global] Program Instance citation_laws : StreamTextLaws CitationStreamParser str := {|
  parser_ok := citation_ok;
  out_equiv := eq;
|}.
Next Obligation.
  intros p c Hok. simpl. pose proof (inline_push_ok citation_spec citation_open_ne
    citation_close_ne _ c Hok) as H. by destruct (inline_push_str (cit_inner p) c).
Qed.
Next Obligation.
  intros p Hok. simpl. rewrite (inline_push_nil citation_spec) by done. by destruct p.
Qed.
Next Obligation.
  intros p a b Hok. simpl.
  pose proof (inline_push_app citation_spec citation_open_ne citation_close_ne _ a b Hok) as H.
  destruct (inline_push_str (cit_inner p) a) as [p1 o1]. simpl.
  destruct (inline_push_str p1 b) as [p2 o2]. rewrite H.
  eexists. split; [done|]. by rewrite citation_chunk_app.
Qed.

(** However the assistant's text is cut into chunks, the citation parser
    ends in the same state and gives out the same visible text and the same
    citations as when it reads the text at once. *)
Theorem citation_chunking chunks :
  push_chunks new_citation_parser chunks = push_str new_citation_parser (concat chunks).
Proof.
  destruct (@push_chunks_concat _ _ _ citation_laws chunks new_citation_parser
              new_citation_ok) as (o & -> & ->).
  by destruct (push_chunks new_citation_parser chunks).
Qed.

(** ** What is hidden and what is shown *)

(** A delimiter whose first character does not recur is found where it is put. *)
Lemma find_str_marker h t v rest :
  h ∉ t → contains_str v (h :: t) = false →
  find_str (h :: t) (v ++ (h :: t) ++ rest) = Some (length v).
Proof.
  intros Hh Hv. unfold contains_str in Hv. apply negb_false_iff in Hv.
  destruct (find_str (h :: t) v) as [i|] eqn:Hf; [done|]. clear Hv.
  pose proof (find_str_None _ _ Hf) as Hno. apply find_str_intro.
  - rewrite length_app. lia.
  - rewrite drop_app_length. apply starts_with_spec. by exists rest.
  - intros j Hj. rewrite drop_app_le by lia.
    destruct (starts_with (drop j v ++ (h :: t) ++ rest) (h :: t)) eqn:Hs; [exfalso|done].
    destruct (decide (length (h :: t) ≤ length (drop j v))) as [Hle|Hgt].
    + rewrite starts_with_app in Hs by exact Hle. by rewrite Hno in Hs.
    + apply starts_with_spec in Hs as (z & Hz).
      assert (length (drop j v) = length v - j) as Hl by apply length_drop.
      apply (f_equal (lookup (length v - j))) in Hz.
      rewrite lookup_app_r, Hl, Nat.sub_diag in Hz by lia.
      destruct (length v - j) as [|m] eqn:Hm; [lia|]. simpl in Hz.
      rewrite lookup_app_l in Hz by (simpl in Hgt; lia).
      apply Hh. apply list_elem_of_lookup. by exists m.
Qed.

Lemma scan_marker h t v rest :
  h ∉ t → contains_str v (h :: t) = false →
  scan (h :: t) (v ++ (h :: t) ++ rest) = (true, v, rest).
Proof.
  intros Hh Hv. unfold scan. rewrite find_str_marker by done.
  by rewrite take_app_length, drop_app_add', drop_app_length.
Qed.

(** A text with citations: visible parts and citations in turn, a last visible
    part, and a citation that is not closed before the end, if any. *)
Definition citation_text (segments : list (str * str)) (tail : str) (unclosed : option str) : str :=
  concat ((λ '(v, c), v ++ CITATION_OPEN ++ c ++ CITATION_CLOSE) <$> segments)
  ++ tail ++ from_option (λ c, CITATION_OPEN ++ c) [] unclosed.

Definition free_of (marker s : str) : Prop := contains_str s marker = false.

Lemma free_of_find marker s : free_of marker s → find_str marker s = None.
Proof. unfold free_of, contains_str. by destruct (find_str marker s). Qed.

Abbreviation crun := (run citation_spec).
Abbreviation cfresh := (fresh_tag citation_spec).

Lemma crun_visible v rest :
  free_of CITATION_OPEN v →
  crun None (v ++ CITATION_OPEN ++ rest) = then_out (visible v) (crun (Some cfresh) rest).
Proof.
  intros Hv. rewrite run_step by done. simpl spec_open.
  assert (CITATION_OPEN = 60%N :: lit "oai-mem-citation>") as Heq by reflexivity.
  unfold free_of in Hv. rewrite Heq in *. rewrite scan_marker; [done| |done].
  apply (bool_decide_eq_true_1 (_ ∉ _)). vm_compute. reflexivity.
Qed.

Lemma crun_hidden c rest :
  free_of CITATION_CLOSE c →
  crun (Some cfresh) (c ++ CITATION_CLOSE ++ rest)
  = then_out (hidden cfresh c) (crun None rest).
Proof.
  intros Hc. rewrite run_step by (done || by intros ? [= <-]). simpl act_close.
  assert (CITATION_CLOSE = 60%N :: lit "/oai-mem-citation>") as Heq by reflexivity.
  unfold free_of in Hc. rewrite Heq in *. rewrite scan_marker; [done| |done].
  apply (bool_decide_eq_true_1 (_ ∉ _)). vm_compute. reflexivity.
Qed.

(** Reading the last part and finishing gives it all out. *)
Definition flush (x : option (ActiveTag CitationTag) * str *
                      StreamTextChunk (ExtractedInlineTag CitationTag)) :=
  let '(act, r, o) := x in
  chunk_app o (inline_finish {| specs := [citation_spec]; pending := r; active := act |}).2.

Lemma flush_then_out o x : flush (then_out o x) = chunk_app o (flush x).
Proof. destruct x as [[??]?]. simpl. by rewrite chunk_app_assoc. Qed.

Lemma flush_tail v : free_of CITATION_OPEN v → flush (crun None v) = visible v.
Proof.
  intros Hv%free_of_find. rewrite run_step by done. unfold scan. simpl spec_open. rewrite Hv. simpl.
  unfold chunk_app, visible. simpl. by rewrite take_drop.
Qed.

Lemma flush_unclosed c :
  free_of CITATION_CLOSE c → flush (crun (Some cfresh) c) = hidden cfresh c.
Proof.
  intros Hc%free_of_find. rewrite run_step by (done || by intros ? [= <-]).
  unfold scan. simpl act_close. rewrite Hc. simpl.
  unfold chunk_app, hidden. simpl. by rewrite take_drop.
Qed.

Lemma flush_text segments tail unclosed :
  Forall (λ '(v, c), free_of CITATION_OPEN v ∧ free_of CITATION_CLOSE c) segments →
  free_of CITATION_OPEN tail → (∀ c, unclosed = Some c → free_of CITATION_CLOSE c) →
  citation_chunk (flush (crun None (citation_text segments tail unclosed))) =
  {| visible_text := concat segments.*1 ++ tail;
     extracted := segments.*2 ++ option_list unclosed |}.
Proof.
  intros Hs Ht Hu. unfold citation_text.
  induction Hs as [|[v c] segments [Hv Hc] Hs IH]; cbn [fmap list_fmap concat app].
  - destruct unclosed as [c|]; cbn [from_option].
    + rewrite crun_visible, flush_then_out, flush_unclosed by auto. simpl.
      unfold citation_chunk, chunk_app. simpl. by rewrite app_nil_r.
    + by rewrite app_nil_r, flush_tail.
  - rewrite <- !app_assoc. rewrite crun_visible, flush_then_out, crun_hidden, flush_then_out by done.
    rewrite !citation_chunk_app, IH. reflexivity.
Qed.

(** Stripping citations shows exactly the text outside the citations and
    extracts exactly the citations, in order; a citation that is still open at
    the end of the text is extracted too. *)
Theorem strip_citations_spec segments tail unclosed :
  Forall (λ '(v, c), free_of CITATION_OPEN v ∧ free_of CITATION_CLOSE c) segments →
  free_of CITATION_OPEN tail → (∀ c, unclosed = Some c → free_of CITATION_CLOSE c) →
  strip_citations (citation_text segments tail unclosed) =
  (concat segments.*1 ++ tail, segments.*2 ++ option_list unclosed).
Proof.
  intros Hs Ht Hu. pose proof (flush_text segments tail unclosed Hs Ht Hu) as Hf.
  unfold strip_citations. simpl push_str. rewrite (inline_push_run citation_spec) by done.
  simpl active. simpl pending. rewrite app_nil_l.
  destruct (crun None (citation_text segments tail unclosed)) as [[act r] o].
  simpl in Hf |- *. rewrite citation_chunk_app in Hf. injection Hf as Hv He.
  by rewrite Hv, He.
Qed.

Lemma strip_citations_spec_witness :
  strip_citations (citation_text [(lit "see ", lit "doc A")] (lit " and < ") (Some (lit "doc B")))
  = (lit "see " ++ lit " and < ", [lit "doc A"; lit "doc B"]).
Proof.
  refine (strip_citations_spec [(lit "see ", lit "doc A")] (lit " and < ") (Some (lit "doc B"))
            _ _ _).
  - apply Forall_singleton. split; vm_compute; reflexivity.
  - vm_compute. reflexivity.
  - intros c [= <-]. vm_compute. reflexivity.
Defined.
