(* ===== verification/TaggedLines.v ===== *)
(** * Tag blocks on lines of their own, and assistant text

    [codex-rs/utils/stream-parser]: [tagged_line_parser.rs], [proposed_plan.rs]
    and [assistant_text.rs].  A tag must be alone on its line; the parser holds
    a line back until it can no longer be a tag. *)

From S2P Require Import Prelude RustStr StreamParser.

Record TagSpec (T : Type) := { tag_open : str; tag_close : str; tag_tag : T }.
Arguments tag_open {T}.
Arguments tag_close {T}.
Arguments tag_tag {T}.

Inductive TaggedLineSegment (T : Type) :=
| Normal (text : str)
| TagStart (tag : T)
| TagDelta (tag : T) (text : str)
| TagEnd (tag : T).
Arguments Normal {T}.
Arguments TagStart {T}.
Arguments TagDelta {T}.
Arguments TagEnd {T}.

Record TaggedLineParser (T : Type) := {
  tag_specs : list (TagSpec T);
  active_tag : option T;
  detect_tag : bool;
  line_buffer : str;
}.
Arguments tag_specs {T}.
Arguments active_tag {T}.
Arguments detect_tag {T}.
Arguments line_buffer {T}.

Section tagged.
Context {T : Type} `{!EqDecision T}.
Abbreviation segments := (list (TaggedLineSegment T)).
Implicit Types (p : TaggedLineParser T) (segs : segments).

(** Append a segment, joining text to text of the same kind. *)
Definition push_segment segs (segment : TaggedLineSegment T) : segments :=
  match segment with
  | Normal delta =>
      if is_empty delta then segs else
      match last segs with
      | Some (Normal existing) => update_last (λ _, Normal (existing ++ delta)) segs
      | _ => segs ++ [Normal delta]
      end
  | TagDelta tag delta =>
      if is_empty delta then segs else
      match last segs with
      | Some (TagDelta existing_tag existing) =>
          if decide (existing_tag = tag)
          then update_last (λ _, TagDelta existing_tag (existing ++ delta)) segs
          else segs ++ [TagDelta tag delta]
      | _ => segs ++ [TagDelta tag delta]
      end
  | TagStart tag => segs ++ [TagStart tag]
  | TagEnd tag => segs ++ [TagEnd tag]
  end.

Definition text_segment (active : option T) (text : str) : TaggedLineSegment T :=
  match active with Some tag => TagDelta tag text | None => Normal text end.

Definition push_text p (text : str) segs : segments :=
  push_segment segs (text_segment (active_tag p) text).

Definition is_tag_prefix (sp : list (TagSpec T)) (slug : str) : bool :=
  let slug := trim_end slug in
  existsb (λ s, starts_with (tag_open s) slug || starts_with (tag_close s) slug) sp.

Definition match_open (sp : list (TagSpec T)) (slug : str) : option T :=
  tag_tag <$> List.find (λ s, bool_decide (tag_open s = slug)) sp.
Definition match_close (sp : list (TagSpec T)) (slug : str) : option T :=
  tag_tag <$> List.find (λ s, bool_decide (tag_close s = slug)) sp.

Definition set_active (active : option T) p : TaggedLineParser T :=
  {| tag_specs := tag_specs p; active_tag := active; detect_tag := detect_tag p;
     line_buffer := line_buffer p |}.
Definition set_detect (detect : bool) p : TaggedLineParser T :=
  {| tag_specs := tag_specs p; active_tag := active_tag p; detect_tag := detect;
     line_buffer := line_buffer p |}.
Definition set_buffer (buffer : str) p : TaggedLineParser T :=
  {| tag_specs := tag_specs p; active_tag := active_tag p; detect_tag := detect_tag p;
     line_buffer := buffer |}.

Definition line_slug (line : str) : str :=
  trim_end (trim_start (default line (strip_suffix [nl] line))).

(** Whether a complete line opens or closes a tag in the current state. *)
Definition line_event (sp : list (TagSpec T)) (active : option T) (line : str)
  : option T * TaggedLineSegment T :=
  let slug := line_slug line in
  match match_open sp slug, active with
  | Some tag, None => (Some tag, TagStart tag)
  | _, _ =>
      match match_close sp slug with
      | Some tag =>
          if decide (active = Some tag) then (None, TagEnd tag)
          else (active, text_segment active line)
      | None => (active, text_segment active line)
      end
  end.

Definition finish_line p segs : TaggedLineParser T * segments :=
  let '(active, event) := line_event (tag_specs p) (active_tag p) (line_buffer p) in
  (set_detect true (set_active active (set_buffer [] p)), push_segment segs event).

(** The loop of [parse]; [run] is text of a line that is not a tag. *)
Fixpoint parse_loop p (run : str) segs (delta : str) : TaggedLineParser T * segments :=
  match delta with
  | [] => (p, if is_empty run then segs else push_text p run segs)
  | ch :: delta' =>
      if detect_tag p then
        let segs := if is_empty run then segs else push_text p run segs in
        let p := set_buffer (line_buffer p ++ [ch]) p in
        if (ch =? nl)%N then
          let '(p, segs) := finish_line p segs in parse_loop p [] segs delta'
        else
          let slug := trim_start (line_buffer p) in
          if is_empty slug || is_tag_prefix (tag_specs p) slug then parse_loop p [] segs delta'
          else
            let buffered := line_buffer p in
            let p := set_detect false (set_buffer [] p) in
            parse_loop p [] (push_text p buffered segs) delta'
      else
        let run := run ++ [ch] in
        if (ch =? nl)%N then parse_loop (set_detect true p) [] (push_text p run segs) delta'
        else parse_loop p run segs delta'
  end.

Definition parse_tagged p (delta : str) : TaggedLineParser T * segments :=
  parse_loop p [] [] delta.

Definition finish_tagged p : TaggedLineParser T * segments :=
  let '(active, segs) :=
    if is_empty (line_buffer p) then (active_tag p, [])
    else
      let '(active, event) := line_event (tag_specs p) (active_tag p) (line_buffer p) in
      (active, push_segment [] event) in
  ({| tag_specs := tag_specs p; active_tag := None; detect_tag := true; line_buffer := [] |},
   match active with Some tag => push_segment segs (TagEnd tag) | None => segs end).
End tagged.

(** ** Proposed plans *)

Definition OPEN_TAG : str := lit "<proposed_plan>".
Definition CLOSE_TAG : str := lit "</proposed_plan>".

Inductive PlanTag := ProposedPlan.

#[global] Instance PlanTag_eq_dec : EqDecision PlanTag.
Proof. solve_decision. Defined.

Inductive ProposedPlanSegment :=
| PlanNormal (text : str)
| ProposedPlanStart
| ProposedPlanDelta (text : str)
| ProposedPlanEnd.

Record ProposedPlanParser := { plan_parser : TaggedLineParser PlanTag }.

Definition plan_spec : TagSpec PlanTag :=
  {| tag_open := OPEN_TAG; tag_close := CLOSE_TAG; tag_tag := ProposedPlan |}.

Definition new_plan_parser : ProposedPlanParser :=
  {| plan_parser := {| tag_specs := [plan_spec]; active_tag := None; detect_tag := true;
                       line_buffer := [] |} |}.

Definition map_segment (s : TaggedLineSegment PlanTag) : ProposedPlanSegment :=
  match s with
  | Normal text => PlanNormal text
  | TagStart ProposedPlan => ProposedPlanStart
  | TagDelta ProposedPlan text => ProposedPlanDelta text
  | TagEnd ProposedPlan => ProposedPlanEnd
  end.

Definition normal_text {T} (s : TaggedLineSegment T) : str :=
  match s with Normal text => text | _ => [] end.

Definition map_segments (segs : list (TaggedLineSegment PlanTag))
  : StreamTextChunk ProposedPlanSegment :=
  {| visible_text := concat (normal_text <$> segs); extracted := map_segment <$> segs |}.

#[global] Instance plan_stream : StreamTextParser ProposedPlanParser ProposedPlanSegment := {|
  push_str p chunk :=
    let '(q, segs) := parse_tagged (plan_parser p) chunk in
    ({| plan_parser := q |}, map_segments segs);
  finish p :=
    let '(q, segs) := finish_tagged (plan_parser p) in
    ({| plan_parser := q |}, map_segments segs);
|}.

Definition strip_proposed_plan_blocks (text : str) : str :=
  let '(p, o) := push_str new_plan_parser text in
  visible_text o ++ visible_text (finish p).2.

Definition plan_step '(plan_text, saw) (s : ProposedPlanSegment) : str * bool :=
  match s with
  | ProposedPlanStart => ([], true)
  | ProposedPlanDelta delta => (plan_text ++ delta, saw)
  | ProposedPlanEnd | PlanNormal _ => (plan_text, saw)
  end.

Definition extract_proposed_plan_text (text : str) : option str :=
  let '(p, o) := push_str new_plan_parser text in
  let '(plan_text, saw) := foldl plan_step ([], false) (extracted o ++ extracted (finish p).2) in
  if saw : bool then Some plan_text else None.

(** ** Assistant text *)

Record AssistantTextChunk := {
  at_visible_text : str;
  citations : list str;
  plan_segments : list ProposedPlanSegment;
}.

Definition assistant_chunk_is_empty (c : AssistantTextChunk) : bool :=
  is_empty (at_visible_text c) && is_empty (citations c) && is_empty (plan_segments c).

Record AssistantTextStreamParser := {
  plan_mode : bool;
  at_citations : CitationStreamParser;
  at_plan : ProposedPlanParser;
}.

Definition new_assistant_parser (plan_mode : bool) : AssistantTextStreamParser :=
  {| plan_mode := plan_mode; at_citations := new_citation_parser; at_plan := new_plan_parser |}.

(** The text with the citations removed goes through the plan parser. *)
Definition parse_visible_text (mode : bool) (plan : ProposedPlanParser) (visible : str)
  : ProposedPlanParser * str * list ProposedPlanSegment :=
  if mode then
    let '(plan, o) := push_str plan visible in (plan, visible_text o, extracted o)
  else (plan, visible, []).

Definition assistant_push_str (p : AssistantTextStreamParser) (chunk : str)
  : AssistantTextStreamParser * AssistantTextChunk :=
  let '(cit, c) := push_str (at_citations p) chunk in
  let '(plan, visible, segs) := parse_visible_text (plan_mode p) (at_plan p) (visible_text c) in
  ({| plan_mode := plan_mode p; at_citations := cit; at_plan := plan |},
   {| at_visible_text := visible; citations := extracted c; plan_segments := segs |}).

Definition assistant_finish (p : AssistantTextStreamParser)
  : AssistantTextStreamParser * AssistantTextChunk :=
  let '(cit, c) := finish (at_citations p) in
  let '(plan, visible, segs) := parse_visible_text (plan_mode p) (at_plan p) (visible_text c) in
  let '(plan, tail) :=
    if plan_mode p then finish plan else (plan, empty_chunk) in
  ({| plan_mode := plan_mode p; at_citations := cit; at_plan := plan |},
   {| at_visible_text := visible ++ visible_text tail; citations := extracted c;
      plan_segments := segs ++ extracted tail |}).

(** ** Segments up to the joining of text *)

Section merging.
Context {T : Type} `{!EqDecision T}.
Abbreviation segments := (list (TaggedLineSegment T)).
Implicit Types (p : TaggedLineParser T) (segs : segments).

Definition merge_onto segs (l : segments) : segments := foldl push_segment segs l.
Definition merge (l : segments) : segments := merge_onto [] l.

(** The segment that two adjacent ones join into, if they do. *)
Definition glue (y x : TaggedLineSegment T) : option (TaggedLineSegment T) :=
  match y, x with
  | Normal e, Normal d => Some (Normal (e ++ d))
  | TagDelta t e, TagDelta t' d => if decide (t = t') then Some (TagDelta t (e ++ d)) else None
  | _, _ => None
  end.

Definition blank (x : TaggedLineSegment T) : bool :=
  match x with Normal d | TagDelta _ d => is_empty d | _ => false end.

Lemma push_segment_nil x : push_segment [] x = if blank x then [] else [x].
Proof. by destruct x as [[]| |? []|]. Qed.

Lemma push_segment_snoc segs y x :
  push_segment (segs ++ [y]) x =
  if blank x then segs ++ [y] else
  match glue y x with Some z => segs ++ [z] | None => (segs ++ [y]) ++ [x] end.
Proof.
  destruct x as [d|t|t d|t]; [|by destruct y| |by destruct y]; simpl;
    (destruct (is_empty d); [done|]); rewrite last_snoc.
  - destruct y; simpl; [by rewrite update_last_snoc|done..].
  - destruct y; simpl; [done..| |done]. case_decide; [by rewrite update_last_snoc|done].
Qed.

Lemma blank_text a x : blank (text_segment a x) = is_empty x.
Proof. by destruct a. Qed.

Lemma glue_text y a u v :
  glue y (text_segment a (u ++ v)) = glue y (text_segment a u) ≫= λ z, glue z (text_segment a v).
Proof.
  destruct a as [t|], y as [e|t'|t' e|t']; simpl; try done.
  - case_decide; simpl; [|done]. by rewrite decide_True, app_assoc.
  - by rewrite app_assoc.
Qed.

Lemma glue_text_text a u v :
  glue (text_segment a u) (text_segment a v) = Some (text_segment a (u ++ v)).
Proof. destruct a; simpl; [by rewrite decide_True|done]. Qed.

(** A segment with text glues with more text of its kind. *)
Lemma glue_glue y a u v z :
  glue y (text_segment a u) = Some z → glue z (text_segment a v) ≠ None.
Proof.
  destruct a as [t|], y as [e|t'|t' e|t']; simpl; try done; [case_decide; [|done]|];
    intros [= <-]; simpl; by rewrite ?decide_True.
Qed.

Lemma push_text_empty segs a : push_segment segs (text_segment a []) = segs.
Proof. by destruct a. Qed.

(** Text pushed in two pieces is text pushed at once. *)
Lemma push_text_app segs a x y :
  push_segment (push_segment segs (text_segment a x)) (text_segment a y)
  = push_segment segs (text_segment a (x ++ y)).
Proof.
  destruct (decide (x = [])) as [->|Hx]; [by rewrite push_text_empty|].
  destruct (decide (y = [])) as [->|Hy]; [by rewrite push_text_empty, app_nil_r|].
  assert (x ++ y ≠ []) as Hxy by (by destruct x).
  destruct (list_snoc_cases segs) as [->|(l & s & ->)].
  - rewrite !push_segment_nil, !blank_text, !(proj2 (is_empty_false _)) by done.
    rewrite (push_segment_snoc [] (text_segment a x)), blank_text, glue_text_text.
    by rewrite (proj2 (is_empty_false y)).
  - rewrite !push_segment_snoc, !blank_text, glue_text, !(proj2 (is_empty_false _)) by done.
    destruct (glue s (text_segment a x)) as [z|] eqn:Hg; simpl;
      rewrite push_segment_snoc, blank_text, (proj2 (is_empty_false y)) by done.
    + by destruct (glue z (text_segment a y)) eqn:Hz; [|destruct (glue_glue _ _ _ y _ Hg)].
    + by rewrite glue_text_text.
Qed.

(** ** Events of single characters *)

(** What one character does, with text given out character by character. *)
Definition step_char p (ch : char) : TaggedLineParser T * segments :=
  if detect_tag p then
    let q := set_buffer (line_buffer p ++ [ch]) p in
    if (ch =? nl)%N then
      let '(active, event) := line_event (tag_specs q) (active_tag q) (line_buffer q) in
      (set_detect true (set_active active (set_buffer [] q)), [event])
    else if is_empty (trim_start (line_buffer q))
            || is_tag_prefix (tag_specs q) (trim_start (line_buffer q)) then (q, [])
    else (set_detect false (set_buffer [] q), [text_segment (active_tag q) (line_buffer q)])
  else
    (if (ch =? nl)%N then set_detect true p else p, [text_segment (active_tag p) [ch]]).

Fixpoint steps p (delta : str) : TaggedLineParser T * segments :=
  match delta with
  | [] => (p, [])
  | ch :: delta' =>
      let '(p, e) := step_char p ch in
      let '(p, es) := steps p delta' in
      (p, e ++ es)
  end.

Lemma steps_app p a b :
  steps p (a ++ b) =
  let '(p1, e1) := steps p a in let '(p2, e2) := steps p1 b in (p2, e1 ++ e2).
Proof.
  revert p; induction a as [|ch a IH]; intros p; simpl; [by destruct (steps p b)|].
  destruct (step_char p ch) as [p1 e1]. rewrite IH. destruct (steps p1 a) as [p2 e2].
  destruct (steps p2 b) as [p3 e3]. by rewrite app_assoc.
Qed.

(** The parser's loop gives out the merged events. *)
Lemma parse_loop_steps delta : ∀ p run segs,
  parse_loop p run segs delta =
  let '(p', es) := steps p delta in (p', merge_onto (push_text p run segs) es).
Proof.
  assert (∀ p run segs, (if is_empty run then segs else push_text p run segs)
                        = push_text p run segs) as Hif.
  { intros p run segs. unfold push_text. destruct run; [by rewrite push_text_empty|done]. }
  assert (∀ p segs, push_text p [] segs = segs) as Hnil
    by (intros; apply push_text_empty).
  induction delta as [|ch delta IH]; intros p run segs; simpl; [by rewrite Hif|].
  unfold step_char. destruct (detect_tag p) eqn:Hd.
  - rewrite Hif. destruct (ch =? nl)%N.
    + unfold finish_line. simpl.
      destruct (line_event (tag_specs p) (active_tag p) (line_buffer p ++ [ch])) as [active ev].
      rewrite IH, Hnil. by destruct (steps _ delta).
    + simpl. destruct (_ || _).
      * rewrite IH, Hnil. by destruct (steps _ delta).
      * rewrite IH, Hnil. by destruct (steps _ delta).
  - destruct (ch =? nl)%N.
    + rewrite IH, Hnil. destruct (steps _ delta). simpl. unfold push_text. by rewrite push_text_app.
    + rewrite IH. destruct (steps p delta). simpl. unfold push_text. by rewrite push_text_app.
Qed.

Lemma parse_tagged_steps p delta :
  parse_tagged p delta = let '(p', es) := steps p delta in (p', merge es).
Proof.
  unfold parse_tagged. rewrite parse_loop_steps. unfold push_text, merge.
  by rewrite push_text_empty.
Qed.

(** ** Merging twice *)

Lemma merge_onto_push segs l x :
  merge_onto segs (push_segment l x) = push_segment (merge_onto segs l) x.
Proof.
  destruct (list_snoc_cases l) as [->|(l' & y & ->)].
  - rewrite push_segment_nil. destruct (blank x) eqn:Hb; [|done]. simpl.
    destruct x as [[]| |? []|]; done.
  - rewrite push_segment_snoc. unfold merge_onto. destruct (blank x) eqn:Hb.
    { destruct x as [[]| |? []|]; done. }
    destruct (glue y x) as [z|] eqn:Hg; rewrite !foldl_app; [|done]. simpl.
    destruct y as [e|t|t e|t], x as [d|t'|t' d|t']; try done; simpl in Hg;
      [|case_decide; [subst|done]]; injection Hg as <-;
      [symmetry; apply (push_text_app _ None)|symmetry; apply (push_text_app _ (Some t'))].
Qed.

Lemma merge_onto_snoc segs l x :
  merge_onto segs (l ++ [x]) = push_segment (merge_onto segs l) x.
Proof. unfold merge_onto. by rewrite foldl_app. Qed.

Lemma merge_onto_merge segs l : merge_onto segs (merge l) = merge_onto segs l.
Proof.
  induction l as [|x l IH] using rev_ind; [done|]. unfold merge in *.
  by rewrite !merge_onto_snoc, merge_onto_push, IH.
Qed.

Lemma merge_onto_app segs a b : merge_onto segs (a ++ b) = merge_onto (merge_onto segs a) b.
Proof. apply foldl_app. Qed.

Lemma merge_app_merge a b : merge (merge a ++ merge b) = merge (a ++ b).
Proof.
  unfold merge at 1. unfold merge_onto. rewrite foldl_app. fold (merge_onto [] (merge a)).
  rewrite merge_onto_merge. fold (merge_onto (merge_onto [] a) (merge b)).
  rewrite merge_onto_merge. unfold merge, merge_onto. by rewrite foldl_app.
Qed.

Lemma normal_text_push segs x :
  concat (normal_text <$> push_segment segs x) = concat (normal_text <$> segs) ++ normal_text x.
Proof.
  destruct (list_snoc_cases segs) as [->|(l & y & ->)].
  - rewrite push_segment_nil. destruct x as [[]| |? []|]; simpl; by rewrite ?app_nil_r.
  - rewrite push_segment_snoc. destruct (blank x) eqn:Hb.
    { destruct x as [[]| |? []|]; simpl in *; by rewrite ?app_nil_r. }
    destruct (glue y x) as [z|] eqn:Hg; rewrite !fmap_app, !concat_app; simpl; rewrite !app_nil_r; [|done].
    destruct y as [e|t|t e|t], x as [d|t'|t' d|t']; try done; simpl in Hg;
      [|case_decide; [|done]]; injection Hg as <-; simpl; by rewrite ?app_assoc, ?app_nil_r.
Qed.

Lemma normal_text_merge l : concat (normal_text <$> merge l) = concat (normal_text <$> l).
Proof.
  induction l as [|x l IH] using rev_ind; [done|].
  unfold merge in *. rewrite merge_onto_snoc, normal_text_push, IH, fmap_app, concat_app. simpl. by rewrite app_nil_r.
Qed.
End merging.

(** ** The plan parser's laws *)

Definition unmap_segment (s : ProposedPlanSegment) : TaggedLineSegment PlanTag :=
  match s with
  | PlanNormal text => Normal text
  | ProposedPlanStart => TagStart ProposedPlan
  | ProposedPlanDelta text => TagDelta ProposedPlan text
  | ProposedPlanEnd => TagEnd ProposedPlan
  end.

Lemma unmap_map (segs : list (TaggedLineSegment PlanTag)) : unmap_segment <$> (map_segment <$> segs) = segs.
Proof.
  rewrite <- list_fmap_compose. rewrite <- (list_fmap_id segs) at 2. apply list_fmap_ext.
  intros _ s _. by destruct s as [|[]|[]|[]].
Qed.

(** Plan segments with adjacent text of one kind joined. *)
Definition merge_plan (l : list ProposedPlanSegment) : list (TaggedLineSegment PlanTag) :=
  merge (unmap_segment <$> l).

Lemma merge_plan_app a b a' b' :
  merge_plan a = merge_plan a' → merge_plan b = merge_plan b' →
  merge_plan (a ++ b) = merge_plan (a' ++ b').
Proof.
  unfold merge_plan. intros Ha Hb. rewrite !fmap_app, <- merge_app_merge, Ha, Hb.
  apply merge_app_merge.
Qed.

Definition plan_out_equiv (a b : StreamTextChunk ProposedPlanSegment) : Prop :=
  visible_text a = visible_text b ∧ merge_plan (extracted a) = merge_plan (extracted b).

#[global] Instance plan_out_equivalence : Equivalence plan_out_equiv.
Proof.
  split; unfold plan_out_equiv; [by split|by intros ?? [-> ->]|].
  by intros ??? [-> ->] [-> ->].
Qed.

#[global] Instance plan_out_app_proper :
  Proper (plan_out_equiv ==> plan_out_equiv ==> plan_out_equiv) chunk_app.
Proof.
  intros a a' [Ha Ha'] b b' [Hb Hb']. split; simpl; [by rewrite Ha, Hb|by apply merge_plan_app].
Qed.

Lemma map_segments_equiv es1 es2 :
  plan_out_equiv (map_segments (merge (es1 ++ es2)))
    (chunk_app (map_segments (merge es1)) (map_segments (merge es2))).
Proof.
  split; simpl.
  - by rewrite !normal_text_merge, fmap_app, concat_app.
  - unfold merge_plan. rewrite fmap_app, !unmap_map. rewrite merge_app_merge.
    apply merge_onto_merge.
Qed.

#[global] Program Instance plan_laws : StreamTextLaws ProposedPlanParser ProposedPlanSegment := {|
  parser_ok _ := True;
  out_equiv := plan_out_equiv;
|}.
Next Obligation. done. Qed.
Next Obligation. intros [p] _. done. Qed.
Next Obligation.
  intros p a b _. simpl. rewrite !parse_tagged_steps, steps_app.
  destruct (steps (plan_parser p) a) as [p1 e1]. simpl.
  rewrite parse_tagged_steps. destruct (steps p1 b) as [p2 e2]. eexists. split; [done|].
  apply map_segments_equiv.
Qed.

(** ** Assistant text *)

Definition at_app (a b : AssistantTextChunk) : AssistantTextChunk :=
  {| at_visible_text := at_visible_text a ++ at_visible_text b;
     citations := citations a ++ citations b;
     plan_segments := plan_segments a ++ plan_segments b |}.

Definition at_empty : AssistantTextChunk :=
  {| at_visible_text := []; citations := []; plan_segments := [] |}.

(** The same text, the same citations, the same plan up to how its text is cut. *)
Definition at_equiv (a b : AssistantTextChunk) : Prop :=
  at_visible_text a = at_visible_text b ∧ citations a = citations b ∧
  merge_plan (plan_segments a) = merge_plan (plan_segments b).

#[global] Instance at_equivalence : Equivalence at_equiv.
Proof.
  split; unfold at_equiv; [by split|by intros ?? (-> & -> & ->)|].
  by intros ??? (-> & -> & ->) (-> & -> & ->).
Qed.

#[global] Instance at_app_proper : Proper (at_equiv ==> at_equiv ==> at_equiv) at_app.
Proof.
  intros a a' (H1 & H2 & H3) b b' (G1 & G2 & G3). split; [|split]; simpl;
    [by rewrite H1, G1|by rewrite H2, G2|by apply merge_plan_app].
Qed.

Fixpoint assistant_push_all (p : AssistantTextStreamParser) (chunks : list str)
  : AssistantTextStreamParser * AssistantTextChunk :=
  match chunks with
  | [] => (p, at_empty)
  | c :: cs =>
      let '(p, o) := assistant_push_str p c in
      let '(p, o') := assistant_push_all p cs in
      (p, at_app o o')
  end.

Lemma assistant_push_ok p c :
  citation_ok (at_citations p) → citation_ok (at_citations (assistant_push_str p c).1).
Proof.
  intros Hok. pose proof (push_ok (StreamTextLaws := citation_laws) (at_citations p) c Hok) as H.
  unfold assistant_push_str. destruct (push_str (at_citations p) c) as [cit o].
  by destruct (parse_visible_text _ _ _) as [[??]?].
Qed.

Lemma assistant_push_nil p :
  citation_ok (at_citations p) → assistant_push_str p [] = (p, at_empty).
Proof.
  intros Hok. unfold assistant_push_str.
  rewrite (push_nil (StreamTextLaws := citation_laws) (at_citations p) Hok).
  unfold parse_visible_text. destruct p as [[] cit plan]; simpl; [|done].
  by destruct plan.
Qed.

Lemma assistant_push_app p a b :
  citation_ok (at_citations p) →
  let '(p1, o1) := assistant_push_str p a in
  let '(p2, o2) := assistant_push_str p1 b in
  ∃ o, assistant_push_str p (a ++ b) = (p2, o) ∧ at_equiv o (at_app o1 o2).
Proof.
  intros Hok. pose proof (push_app (StreamTextLaws := citation_laws) (at_citations p) a b Hok) as H.
  unfold assistant_push_str. destruct (push_str (at_citations p) a) as [c1 u1].
  unfold parse_visible_text. destruct (plan_mode p) eqn:Hm.
  - pose proof (push_app (StreamTextLaws := plan_laws) (at_plan p) (visible_text u1)) as Hplan.
    destruct (push_str (at_plan p) (visible_text u1)) as [q1 v1]. cbn [at_citations at_plan plan_mode].
    destruct (push_str c1 b) as [c2 u2]. destruct H as (u & -> & ->).
    specialize (Hplan (visible_text u2) I).
    destruct (push_str q1 (visible_text u2)) as [q2 v2]. simpl visible_text.
    destruct Hplan as (v & -> & Hv & Hs). eexists. split; [done|]. done.
  - cbn [at_citations at_plan plan_mode]. destruct (push_str c1 b) as [c2 u2].
    destruct H as (u & -> & ->). eexists. split; [done|]. done.
Qed.

(** However the assistant's text is cut into chunks, the parser ends in
    the same state and gives out the same visible text, the same citations and
    the same plan, up to how the plan's text is cut into segments. *)
Theorem assistant_chunking mode chunks :
  let p := new_assistant_parser mode in
  ∃ o, assistant_push_str p (concat chunks) = ((assistant_push_all p chunks).1, o) ∧
    at_equiv o (assistant_push_all p chunks).2.
Proof.
  assert (∀ p, citation_ok (at_citations p) →
    ∃ o, assistant_push_str p (concat chunks) = ((assistant_push_all p chunks).1, o) ∧
      at_equiv o (assistant_push_all p chunks).2) as H; [|apply H, new_citation_ok].
  induction chunks as [|c cs IH]; intros p Hp; simpl.
  - rewrite assistant_push_nil by done. by eexists.
  - pose proof (assistant_push_app p c (concat cs) Hp) as Happ.
    pose proof (assistant_push_ok p c Hp) as Hok.
    destruct (assistant_push_str p c) as [p1 o1]. simpl in Hok.
    destruct (IH p1 Hok) as (o2 & Ho2 & Heq). rewrite Ho2 in Happ.
    destruct Happ as (o & Ho & Hoeq). destruct (assistant_push_all p1 cs) as [p2 o2'].
    simpl in *. exists o. split; [done|]. by rewrite Hoeq, Heq.
Qed.

(** ** The line-by-line reference *)

Section reference.
Context {T : Type} `{!EqDecision T} (sp : list (TagSpec T)).
Abbreviation segments := (list (TaggedLineSegment T)).
Implicit Types (p : TaggedLineParser T) (segs : segments) (active : option T).

(** Read whole lines: each one opens a tag, closes it, or is text. *)
Fixpoint line_events active (ls : list str) : option T * segments :=
  match ls with
  | [] => (active, [])
  | l :: ls' =>
      let '(active, e) := line_event sp active l in
      let '(active, es) := line_events active ls' in
      (active, e :: es)
  end.

(** A tag that is open at the end is closed. *)
Definition reference (text : str) : segments :=
  let '(active, es) := line_events None (split_inclusive nl text) in
  merge (es ++ (TagEnd <$> option_list active)).

(** The parser at the start of a line. *)
Definition line_start active : TaggedLineParser T :=
  {| tag_specs := sp; active_tag := active; detect_tag := true; line_buffer := [] |}.

Definition parse_whole (text : str) : segments :=
  let '(p, s1) := parse_tagged (line_start None) text in merge (s1 ++ (finish_tagged p).2).

Lemma match_tag_Some (f : TagSpec T → str) slug t :
  tag_tag <$> List.find (λ s, bool_decide (f s = slug)) sp = Some t → ∃ s, s ∈ sp ∧ f s = slug.
Proof.
  intros (s & Hs & _)%fmap_Some. apply find_some in Hs as [Hin Heq].
  apply bool_decide_eq_true in Heq. exists s. split; [by apply list_elem_of_In|done].
Qed.

Lemma trim_end_app_prefix u z : ∃ w, trim_end (u ++ z) = trim_end u ++ w.
Proof.
  induction u as [|c u [w IH]]; [by exists (trim_end z)|].
  unfold trim_end in *. simpl. rewrite IH.
  destruct (trim_end_matches is_whitespace u) as [|d t]; simpl.
  - destruct w as [|e w]; simpl; [by exists []; rewrite app_nil_r|].
    destruct (is_whitespace c); [by exists (c :: e :: w)|by exists (e :: w)].
  - by exists w.
Qed.

Lemma trim_start_app x z : trim_start x ≠ [] → trim_start (x ++ z) = trim_start x ++ z.
Proof.
  unfold trim_start. induction x as [|c x IH]; simpl; [done|].
  destruct (is_whitespace c); [auto|done].
Qed.

Lemma line_slug_body y : nl ∉ y → line_slug y = trim y.
Proof.
  intros Hy. unfold line_slug. destruct (strip_suffix [nl] y) as [l|] eqn:Hl; [|done].
  apply strip_suffix_Some in Hl as ->. set_solver.
Qed.

Lemma line_slug_nl y : line_slug (y ++ [nl]) = trim y.
Proof. unfold line_slug. by rewrite (proj2 (strip_suffix_Some [nl] _ y)). Qed.

(** A line that begins with something no tag begins with is text. *)
Lemma not_tag_text active x z line :
  trim_start x ≠ [] → is_tag_prefix sp (trim_start x) = false →
  line_slug line = trim (x ++ z) → line_event sp active line = (active, text_segment active line).
Proof.
  intros Hne Hno Hslug. unfold line_event. rewrite Hslug.
  assert (∀ s, s ∈ sp → tag_open s ≠ trim (x ++ z) ∧ tag_close s ≠ trim (x ++ z)) as Hall.
  { assert (∃ w, trim (x ++ z) = trim_end (trim_start x) ++ w) as (w & Hw)
      by (unfold trim; rewrite trim_start_app by done; apply trim_end_app_prefix).
    assert (∀ o, o = trim (x ++ z) → starts_with o (trim_end (trim_start x)) = true) as Hst
      by (intros o ->; apply starts_with_spec; by exists w).
    intros s Hs. unfold is_tag_prefix in Hno.
    split; intros Ho%Hst;
      (assert (existsb (λ s, starts_with (tag_open s) (trim_end (trim_start x))
         || starts_with (tag_close s) (trim_end (trim_start x))) sp = true); [|congruence]);
      apply existsb_exists; exists s; (split; [by apply list_elem_of_In|]); rewrite Ho;
      by rewrite ?orb_true_r. }
  assert (match_open sp (trim (x ++ z)) = None) as ->.
  { destruct (match_open sp (trim (x ++ z))) as [t|] eqn:Hm; [|done].
    apply (match_tag_Some tag_open) in Hm as (s & Hs & Ho). by destruct (Hall s Hs). }
  assert (match_close sp (trim (x ++ z)) = None) as ->; [|done].
  destruct (match_close sp (trim (x ++ z))) as [t|] eqn:Hm; [|done].
  apply (match_tag_Some tag_close) in Hm as (s & Hs & Ho). by destruct (Hall s Hs).
Qed.

(** Characters after the line turned out to be text. *)
Lemma steps_text active l : nl ∉ l → ∀ segs,
  let p := {| tag_specs := sp; active_tag := active; detect_tag := false; line_buffer := [] |} in
  (steps p l).1 = p ∧ merge_onto segs (steps p l).2 = push_segment segs (text_segment active l).
Proof.
  induction l as [|c l IH]; intros Hl segs; simpl.
  - split; [done|]. by rewrite push_text_empty.
  - destruct (N.eqb_spec c nl) as [->|Hc]; [set_solver|].
    destruct (IH ltac:(set_solver) (push_segment segs (text_segment active [c]))) as [H1 H2].
    destruct (steps _ l) as [p' es]. simpl in *. split; [done|]. rewrite H2. apply push_text_app.
Qed.

(** Characters of a line that may still be a tag. *)
Lemma steps_detect active l : nl ∉ l → ∀ b segs,
  let p := {| tag_specs := sp; active_tag := active; detect_tag := true; line_buffer := b |} in
  steps p l = (set_buffer (b ++ l) p, []) ∨
  ((steps p l).1 = {| tag_specs := sp; active_tag := active; detect_tag := false;
                      line_buffer := [] |} ∧
   merge_onto segs (steps p l).2 = push_segment segs (text_segment active (b ++ l)) ∧
   ∃ x z, b ++ l = x ++ z ∧ trim_start x ≠ [] ∧ is_tag_prefix sp (trim_start x) = false).
Proof.
  induction l as [|c l IH]; intros Hl b segs p; [left; subst p; simpl; by rewrite app_nil_r|].
  subst p. simpl. unfold step_char. simpl. destruct (N.eqb_spec c nl) as [->|Hc]; [set_solver|].
  destruct (is_empty (trim_start (b ++ [c])) || is_tag_prefix sp (trim_start (b ++ [c]))) eqn:Ht.
  - unfold set_buffer. simpl.
    destruct (IH ltac:(set_solver) (b ++ [c]) segs) as [H|(H1 & H2 & H3)].
    + left. simpl in H. rewrite H. unfold set_buffer. simpl. by rewrite <- app_assoc.
    + right. destruct (steps _ l) as [q es]. simpl in *. rewrite <- app_assoc in H2, H3. done.
  - right. unfold set_detect, set_buffer. simpl. bool_prop.
    destruct (steps_text active l ltac:(set_solver)
                (push_segment segs (text_segment active (b ++ [c])))) as [H1 H2].
    destruct (steps _ l) as [q es]. simpl in *. split; [done|]. split.
    + rewrite H2, push_text_app, <- app_assoc. done.
    + exists (b ++ [c]), l. rewrite <- app_assoc. split; [done|].
      split; [by apply is_empty_false|done].
Qed.

Lemma steps_line active l segs :
  nl ∉ l →
  let '(active', e) := line_event sp active (l ++ [nl]) in
  (steps (line_start active) (l ++ [nl])).1 = line_start active' ∧
  merge_onto segs (steps (line_start active) (l ++ [nl])).2 = push_segment segs e.
Proof.
  intros Hl. rewrite steps_app. unfold line_start at 1 3.
  destruct (steps_detect active l Hl [] segs) as [H|(H1 & H2 & x & z & Hx & Hne & Hno)].
  - rewrite H. simpl. unfold step_char. simpl.
    by destruct (line_event sp active (l ++ [nl])) as [a e].
  - rewrite (not_tag_text active x z); [|done..|by rewrite line_slug_nl; f_equal].
    destruct (steps _ l) as [q es]. simpl in H1, H2. subst q. simpl. split; [done|].
    unfold merge_onto in *. rewrite foldl_app, H2. simpl. apply push_text_app.
Qed.

(** The last line, without a line feed, and [finish]. *)
Lemma steps_last active l segs :
  nl ∉ l → l ≠ [] →
  let '(active', e) := line_event sp active l in
  let '(p, es) := steps (line_start active) l in
  merge_onto (merge_onto segs es) (finish_tagged p).2 =
  merge_onto (push_segment segs e) (TagEnd <$> option_list active').
Proof.
  intros Hl Hne. unfold line_start.
  destruct (steps_detect active l Hl [] segs) as [H|(H1 & H2 & x & z & Hx & Hxne & Hno)].
  - rewrite H. simpl. unfold finish_tagged, set_buffer. simpl.
    rewrite (proj2 (is_empty_false l)) by done.
    destruct (line_event sp active l) as [[a|] e]; cbn [snd option_list].
    + rewrite merge_onto_app, merge_onto_push. done.
    + rewrite merge_onto_push. done.
  - rewrite (not_tag_text active x z); [|done..|by rewrite line_slug_body; [f_equal|]].
    destruct (steps _ l) as [q es]. simpl in H1, H2. subst q. rewrite H2.
    unfold finish_tagged. simpl. by destruct active.
Qed.

(** Lines are read one after the other. *)
Lemma parse_lines_reference text : ∀ active segs,
  let '(active', es) := line_events active (split_inclusive nl text) in
  let '(p, es') := steps (line_start active) text in
  merge_onto (merge_onto segs es') (finish_tagged p).2 =
  merge_onto segs (es ++ (TagEnd <$> option_list active')).
Proof.
  remember (length text) as n eqn:Hn. revert text Hn.
  induction n as [n IH] using lt_wf_ind. intros text -> active segs.
  destruct (decide (nl ∈ text)) as [Hin|Hno].
  - apply list_elem_of_split_l in Hin as (l & rest & -> & Hl).
    rewrite split_inclusive_app_nosep by done.
    change (l ++ nl :: rest) with (l ++ [nl] ++ rest). rewrite app_assoc, steps_app. simpl.
    pose proof (steps_line active l segs Hl) as Hline.
    destruct (line_event sp active (l ++ [nl])) as [a e].
    destruct (steps (line_start active) (l ++ [nl])) as [p1 e1]. simpl in Hline.
    destruct Hline as [-> He1].
    assert (length rest < length (l ++ [nl] ++ rest)) as Hlen
      by (rewrite !length_app; simpl; lia).
    specialize (IH _ Hlen rest eq_refl a (push_segment segs e)).
    destruct (line_events a (split_inclusive nl rest)) as [a2 es2].
    destruct (steps (line_start a) rest) as [p2 e2].
    assert (merge_onto segs (e1 ++ e2) = merge_onto (push_segment segs e) e2) as ->
      by (unfold merge_onto in *; by rewrite foldl_app, He1).
    exact IH.
  - destruct (decide (text = [])) as [->|Hne]; [simpl; by destruct active|].
    rewrite split_inclusive_nosep by done. simpl.
    pose proof (steps_last active text segs Hno Hne) as Hlast.
    destruct (line_event sp active text) as [a e].
    destruct (steps (line_start active) text) as [p es]. done.
Qed.

(** The character-by-character parser is the line-by-line reference: on a
    whole text it produces, up to the joining of adjacent text, the start of a
    tag for each line that is an opening tag while none is open, the end for
    each line that closes the open tag, every other line as text inside or
    outside the tag, and closes a tag that is still open at the end. *)
Theorem tagged_lines_reference text : parse_whole text = reference text.
Proof.
  unfold parse_whole, reference. rewrite parse_tagged_steps.
  pose proof (parse_lines_reference text None []) as H.
  destruct (line_events None (split_inclusive nl text)) as [a es].
  destruct (steps (line_start None) text) as [p es'].
  unfold merge at 1. rewrite merge_onto_app. rewrite merge_onto_merge. exact H.
Qed.
End reference.
