(* ===== verification/Utf8Stream.v ===== *)
(** * UTF-8 over a streaming parser

    [codex-rs/utils/stream-parser/src/utf8_stream.rs]: bytes are buffered until
    they make whole characters, which go to an inner text parser.  The inner
    parser is any [StreamTextParser]; the theorems use its laws only. *)

From S2P Require Import Prelude RustStr Utf8 StreamParser TaggedLines.

(** ** The parser *)

Inductive Utf8StreamParserError :=
| InvalidUtf8 (valid_up_to error_len : nat)
| IncompleteUtf8AtEof.

Section utf8.
Context {P T : Type} `{!StreamTextParser P T}.

Record Utf8StreamParser := { inner : P; pending_utf8 : bytes }.

Implicit Types (p : Utf8StreamParser).

Definition new_utf8_parser (inner : P) : Utf8StreamParser :=
  {| inner := inner; pending_utf8 := [] |}.

Definition push_inner (inner : P) (text : str) (left : bytes)
  : Utf8StreamParser * result (StreamTextChunk T) Utf8StreamParserError :=
  let '(inner, o) := push_str inner text in
  ({| inner := inner; pending_utf8 := left |}, Ok o).

Definition push_bytes p (chunk : bytes)
  : Utf8StreamParser * result (StreamTextChunk T) Utf8StreamParserError :=
  let pending := pending_utf8 p ++ chunk in
  match from_utf8 pending with
  | Ok text => push_inner (inner p) text []
  | Err err =>
      match error_len err with
      | Some error_len => (p, Err (InvalidUtf8 (valid_up_to err) error_len))
      | None =>
          if valid_up_to err =? 0
          then ({| inner := inner p; pending_utf8 := pending |}, Ok empty_chunk)
          else
            match from_utf8 (take (valid_up_to err) pending) with
            | Ok text => push_inner (inner p) text (drop (valid_up_to err) pending)
            | Err prefix_err =>
                (p, Err (InvalidUtf8 (valid_up_to prefix_err)
                           (default 0 (error_len prefix_err))))
            end
      end
  end.

Definition utf8_error (e : Utf8Error) : Utf8StreamParserError :=
  match error_len e with
  | Some error_len => InvalidUtf8 (valid_up_to e) error_len
  | None => IncompleteUtf8AtEof
  end.

Definition utf8_finish p
  : Utf8StreamParser * result (StreamTextChunk T) Utf8StreamParserError :=
  let flush inner o :=
    let '(inner, tail) := finish inner in
    ({| inner := inner; pending_utf8 := [] |}, Ok (chunk_app o tail)) in
  if is_empty (pending_utf8 p) then flush (inner p) empty_chunk
  else
    match from_utf8 (pending_utf8 p) with
    | Err err => (p, Err (utf8_error err))
    | Ok text => let '(inner, o) := push_str (inner p) text in flush inner o
    end.

Definition into_inner p : result P Utf8StreamParserError :=
  if is_empty (pending_utf8 p) then Ok (inner p)
  else
    match from_utf8 (pending_utf8 p) with
    | Ok _ => Ok (inner p)
    | Err err => Err (utf8_error err)
    end.

(** Undecoded bytes are dropped. *)
Definition into_inner_lossy p : P := inner p.

(** Feed several chunks, stopping at the first error. *)
Fixpoint push_all_bytes p (chunks : list bytes)
  : Utf8StreamParser * result (StreamTextChunk T) Utf8StreamParserError :=
  match chunks with
  | [] => (p, Ok empty_chunk)
  | c :: cs =>
      match push_bytes p c with
      | (p, Err e) => (p, Err e)
      | (p, Ok o) =>
          let '(p, r) := push_all_bytes p cs in (p, rmap (chunk_app o) r)
      end
  end.
End utf8.
Arguments Utf8StreamParser : clear implicits.

(** ** Streaming *)

Section laws.
Context {P T : Type} `{StreamTextLaws P T}.

(** The parser has read [text] and holds the bytes [rest]. *)
Lemma push_bytes_step (p : P) s x y :
  parser_ok p → Forall scalar s → ∀ rest, partial rest → rest ++ x ++ y = encode s →
  ∃ s1 s2 rest' o,
    s = s1 ++ s2 ∧ partial rest' ∧ rest' ++ y = encode s2 ∧
    push_bytes {| inner := p; pending_utf8 := rest |} x =
      ({| inner := (push_str p s1).1; pending_utf8 := rest' |}, Ok o) ∧
    o = (push_str p s1).2.
Proof.
  intros Hp Hs rest Hrest Heq. rewrite app_assoc in Heq. symmetry in Heq.
  destruct (encode_prefix s (rest ++ x) y Hs Heq) as (s1 & s2 & r & -> & Hx & Hr & Hy).
  apply Forall_app in Hs as [Hs1 Hs2]. exists s1, s2, r, (push_str p s1).2.
  split; [done|]. split; [done|]. split; [done|]. split; [|done].
  unfold push_bytes. cbn [pending_utf8 inner]. rewrite Hx, from_utf8_encode by done.
  destruct (is_empty r) eqn:He.
  - apply is_empty_true in He as ->. unfold push_inner. by destruct (push_str p s1).
  - cbn [error_len valid_up_to]. destruct (length (encode s1) =? 0) eqn:Hz.
    + apply Nat.eqb_eq, nil_length_inv in Hz.
      assert (s1 = []) as ->.
      { destruct s1 as [|c s1]; [done|]. rewrite encode_cons in Hz.
        apply app_eq_nil in Hz as [Hz _]. by apply encode_char_ne in Hz. }
      rewrite push_nil by done. done.
    + rewrite take_app_length, drop_app_length.
      rewrite <- (app_nil_r (encode s1)), from_utf8_encode by (done || by left). simpl.
      unfold push_inner. by destruct (push_str p s1).
Qed.

(** However encoded text is cut into byte chunks, even inside characters,
    every chunk is accepted, no byte is left over, and the inner parser ends as
    if it had been given the text at once, with an equivalent output. *)
Theorem utf8_chunking (p : P) text chunks :
  parser_ok p → Forall scalar text → concat chunks = encode text →
  ∃ o, push_all_bytes (new_utf8_parser p) chunks
       = ({| inner := (push_str p text).1; pending_utf8 := [] |}, Ok o) ∧
    out_equiv (push_str p text).2 o.
Proof.
  intros Hp Hs Heq. unfold new_utf8_parser.
  assert (∀ chunks p text rest, parser_ok p → Forall scalar text → partial rest →
    rest ++ concat chunks = encode text →
    ∃ o, push_all_bytes {| inner := p; pending_utf8 := rest |} chunks
       = ({| inner := (push_str p text).1; pending_utf8 := [] |}, Ok o) ∧
    out_equiv (push_str p text).2 o) as Hgen; [|apply Hgen; [done..|by left|done]].
  clear. induction chunks as [|c cs IH]; intros p text rest Hp Hs Hr Heq; simpl in *.
  - rewrite app_nil_r in Heq. subst rest.
    assert (text = []) as ->.
    { destruct text as [|ch text]; [done|]. exfalso. rewrite encode_cons in Hr.
      apply Forall_cons in Hs as [Hc _]. pose proof (encode_char_ne ch).
      destruct Hr as [Hr|Hr]; [by apply app_eq_nil in Hr as [??]|].
      by rewrite decode_encode_char in Hr. }
    rewrite push_nil by done. by eexists.
  - destruct (push_bytes_step p text c (concat cs) Hp Hs rest Hr Heq)
      as (s1 & s2 & rest' & o & -> & Hr' & Heq' & -> & ->).
    apply Forall_app in Hs as [Hs1 Hs2].
    pose proof (push_app p s1 s2 Hp) as Happ. pose proof (push_ok p s1 Hp) as Hok.
    destruct (push_str p s1) as [p1 o1]. simpl in *.
    destruct (IH p1 s2 rest' Hok Hs2 Hr' Heq') as (o2 & -> & Ho2).
    destruct (push_str p1 s2) as [p2 u2]. destruct Happ as (u & -> & Hu). simpl in *.
    eexists. split; [done|]. by rewrite Hu, Ho2.
Qed.
End laws.

(** A rejected chunk leaves the parser as it was. *)
Lemma push_bytes_rollback {P T} `{!StreamTextParser P T} (p p' : Utf8StreamParser P) chunk e :
  push_bytes p chunk = (p', Err e) → p' = p.
Proof.
  unfold push_bytes, push_inner. destruct (from_utf8 _) as [text|err].
  - by destruct (push_str (inner p) text).
  - destruct (error_len err); [by intros; simplify_eq|]. destruct (_ =? 0); [done|].
    destruct (from_utf8 _) as [text|]; [|by intros; simplify_eq].
    by destruct (push_str (inner p) text).
Qed.

(** Text with two-, three- and four-byte characters, cut inside each of them. *)
Definition demo_utf8 : str := lit "a" ++ [233; 8364; 128512]%N ++ lit "b".

Definition demo_bytes : list bytes :=
  [[97; 195]; [169; 226; 130]; []; [172; 240]; [159; 152]; [128; 98]]%N.

Lemma utf8_chunking_witness :
  ∃ o, push_all_bytes (new_utf8_parser new_citation_parser) demo_bytes
       = ({| inner := (push_str new_citation_parser demo_utf8).1; pending_utf8 := [] |}, Ok o) ∧
    out_equiv (push_str new_citation_parser demo_utf8).2 o.
Proof.
  apply (@utf8_chunking _ _ _ citation_laws new_citation_parser demo_utf8 demo_bytes).
  - exact new_citation_ok.
  - apply (bool_decide_eq_true_1 (Forall scalar demo_utf8)). vm_compute. reflexivity.
  - vm_compute. reflexivity.
Defined.
