(* ===== verification/Truncation.v ===== *)
(** * Truncating output to a budget

    [codex-rs/utils/string/src/truncate.rs] and
    [codex-rs/utils/output-truncation/src/lib.rs]: text is cut in the middle on
    character boundaries so that its head and tail fit a byte budget, and the
    items of a tool result share one budget.  Lengths are byte counts ([N]);
    strings are shorter than [usize::MAX]. *)

From S2P Require Import Prelude RustStr.

#[local] Open Scope N_scope.

Definition APPROX_BYTES_PER_TOKEN : N := 4.

Definition approx_token_count (text : str) : N :=
  sat_add (byte_len text) (APPROX_BYTES_PER_TOKEN - 1) / APPROX_BYTES_PER_TOKEN.

Definition approx_bytes_for_tokens (tokens : N) : N := sat_mul tokens APPROX_BYTES_PER_TOKEN.

(** [usize] and [u64] have the same width. *)
Definition approx_tokens_from_byte_count (n : N) : N :=
  sat_add n (APPROX_BYTES_PER_TOKEN - 1) / APPROX_BYTES_PER_TOKEN.

(** ** Byte slices: [&s[..n]] and [&s[n..]] panic off a character boundary. *)

Fixpoint slice_to (s : str) (n : N) : option str :=
  if n =? 0 then Some [] else
  match s with
  | [] => None
  | c :: s' => if len_utf8 c <=? n then cons c <$> slice_to s' (n - len_utf8 c) else None
  end.

Fixpoint slice_from (s : str) (n : N) : option str :=
  if n =? 0 then Some s else
  match s with
  | [] => None
  | c :: s' => if len_utf8 c <=? n then slice_from s' (n - len_utf8 c) else None
  end.

(** ** Splitting *)

Record split_state := {
  prefix_end : N;
  suffix_start : N;
  removed_chars : N;
  suffix_started : bool;
}.

(** The loop over [char_indices], [idx] being the position of the first
    character of [s]. *)
Fixpoint split_loop (beginning_bytes tail_start_target idx : N) (s : str) (st : split_state)
  : split_state :=
  match s with
  | [] => st
  | ch :: s' =>
      let char_end := idx + len_utf8 ch in
      let st :=
        if char_end <=? beginning_bytes then
          {| prefix_end := char_end; suffix_start := suffix_start st;
             removed_chars := removed_chars st; suffix_started := suffix_started st |}
        else if tail_start_target <=? idx then
          if suffix_started st then st
          else {| prefix_end := prefix_end st; suffix_start := idx;
                  removed_chars := removed_chars st; suffix_started := true |}
        else {| prefix_end := prefix_end st; suffix_start := suffix_start st;
                removed_chars := sat_add (removed_chars st) 1;
                suffix_started := suffix_started st |} in
      split_loop beginning_bytes tail_start_target char_end s' st
  end.

Definition split_string (s : str) (beginning_bytes end_bytes : N) : option (N * str * str) :=
  if is_empty s then Some (0, [], [])
  else
    let len := byte_len s in
    let st := split_loop beginning_bytes (len - end_bytes) 0 s
                {| prefix_end := 0; suffix_start := len; removed_chars := 0;
                   suffix_started := false |} in
    let suffix_start := if suffix_start st <? prefix_end st then prefix_end st
                        else suffix_start st in
    before ← slice_to s (prefix_end st);
    after ← slice_from s suffix_start;
    Some (removed_chars st, before, after).

Definition split_budget (budget : N) : N * N :=
  let left := budget / 2 in (left, budget - left).

(** ** Truncating text *)

Definition ellipsis : str := [8230].

Definition format_truncation_marker (use_tokens : bool) (removed_count : N) : str :=
  ellipsis ++ fmt_N removed_count
  ++ (if use_tokens then lit " tokens truncated" else lit " chars truncated") ++ ellipsis.

Definition removed_units (use_tokens : bool) (removed_bytes removed_chars : N) : N :=
  if use_tokens then approx_tokens_from_byte_count removed_bytes else removed_chars.

Definition truncate_with_byte_estimate (s : str) (max_bytes : N) (use_tokens : bool) : option str :=
  if is_empty s then Some []
  else if max_bytes =? 0 then
    Some (format_truncation_marker use_tokens
            (removed_units use_tokens (byte_len s) (N.of_nat (length s))))
  else if byte_len s <=? max_bytes then Some s
  else
    let '(left_budget, right_budget) := split_budget max_bytes in
    '(removed_chars, before, after) ← split_string s left_budget right_budget;
    let marker := format_truncation_marker use_tokens
                    (removed_units use_tokens (byte_len s - max_bytes) removed_chars) in
    Some (before ++ marker ++ after).

Definition truncate_middle_chars (s : str) (max_bytes : N) : option str :=
  truncate_with_byte_estimate s max_bytes false.

Definition truncate_middle_with_token_budget (s : str) (max_tokens : N)
  : option (str * option N) :=
  if is_empty s then Some ([], None)
  else if (0 <? max_tokens) && (byte_len s <=? approx_bytes_for_tokens max_tokens)
  then Some (s, None)
  else
    truncated ← truncate_with_byte_estimate s (approx_bytes_for_tokens max_tokens) true;
    if bool_decide (truncated = s) then Some (truncated, None)
    else Some (truncated, Some (approx_token_count s)).

(** ** Policies ([protocol.rs]) and items *)

Inductive TruncationPolicy := Bytes (n : N) | Tokens (n : N).

Definition token_budget (p : TruncationPolicy) : N :=
  match p with Bytes n => approx_tokens_from_byte_count n | Tokens n => n end.

Definition byte_budget (p : TruncationPolicy) : N :=
  match p with Bytes n => n | Tokens n => approx_bytes_for_tokens n end.

Definition truncate_text (content : str) (policy : TruncationPolicy) : option str :=
  match policy with
  | Bytes n => truncate_middle_chars content n
  | Tokens n => fst <$> truncate_middle_with_token_budget content n
  end.

Definition formatted_truncate_text (content : str) (policy : TruncationPolicy) : option str :=
  if byte_len content <=? byte_budget policy then Some content
  else
    text ← truncate_text content policy;
    Some (lit "Warning: truncated output (original token count: "
          ++ fmt_N (approx_token_count content) ++ lit ")" ++ [nl] ++ lit "Total output lines: "
          ++ fmt_nat (length (lines content)) ++ [nl; nl] ++ text).

Inductive ImageDetail := Auto | Low | High | Original.

Inductive FunctionCallOutputContentItem :=
| InputText (text : str)
| InputImage (image_url : str) (detail : option ImageDetail)
| InputAudio (audio_url : str)
| EncryptedContent (encrypted_content : str).

Inductive FunctionCallOutputBody :=
| OutputText (text : str)
| ContentItems (items : list FunctionCallOutputContentItem).

Record FunctionCallOutputPayload := {
  body : FunctionCallOutputBody;
  success : option bool;
}.

Definition text_of_item (i : FunctionCallOutputContentItem) : option str :=
  match i with InputText t => Some t | _ => None end.
Definition is_text (i : FunctionCallOutputContentItem) : bool :=
  match i with InputText _ => true | _ => false end.

(** The texts joined by line feeds, as the source accumulates them. *)
Definition combine_texts (texts : list str) : str :=
  foldl (λ combined t, (if is_empty combined then [] else combined ++ [nl]) ++ t) [] texts.

Definition formatted_truncate_text_content_items_with_policy
    (items : list FunctionCallOutputContentItem) (policy : TruncationPolicy)
  : option (list FunctionCallOutputContentItem * option N) :=
  let texts := omap text_of_item items in
  let combined := combine_texts texts in
  if is_empty texts || (byte_len combined <=? byte_budget policy) then Some (items, None)
  else
    text ← formatted_truncate_text combined policy;
    Some (InputText text :: base.filter (λ i, is_text i = false) items,
          Some (approx_token_count combined)).

Section items.
Context (estimate_audio_token_count : str → N) (policy : TruncationPolicy).

Definition text_cost (text : str) : N :=
  match policy with Bytes _ => byte_len text | Tokens _ => approx_token_count text end.

Definition audio_cost (audio_url : str) : N :=
  match policy with
  | Bytes _ => approx_bytes_for_tokens (estimate_audio_token_count audio_url)
  | Tokens _ => estimate_audio_token_count audio_url
  end.

Definition snippet_policy (remaining : N) : TruncationPolicy :=
  match policy with Bytes _ => Bytes remaining | Tokens _ => Tokens remaining end.

Definition item_budget : N :=
  match policy with Bytes _ => byte_budget policy | Tokens _ => token_budget policy end.

(** What the loop carries: the budget left and the omitted texts and audios. *)
Record item_state := { remaining : N; omitted_text : N; omitted_audio : N }.

(** The loop body: what is given out for an item, and the new state. *)
Definition item_step (item : FunctionCallOutputContentItem) (st : item_state)
  : option (list FunctionCallOutputContentItem * item_state) :=
  match item with
  | InputText text =>
      if is_empty text then Some ([], st)
      else if remaining st =? 0
      then Some ([], {| remaining := remaining st; omitted_text := omitted_text st + 1;
                        omitted_audio := omitted_audio st |})
      else if text_cost text <=? remaining st
      then Some ([InputText text],
                 {| remaining := remaining st - text_cost text;
                    omitted_text := omitted_text st; omitted_audio := omitted_audio st |})
      else
        snippet ← truncate_text text (snippet_policy (remaining st));
        if is_empty snippet
        then Some ([], {| remaining := 0; omitted_text := omitted_text st + 1;
                          omitted_audio := omitted_audio st |})
        else Some ([InputText snippet],
                   {| remaining := 0; omitted_text := omitted_text st;
                      omitted_audio := omitted_audio st |})
  | InputAudio audio_url =>
      if audio_cost audio_url <=? remaining st
      then Some ([item], {| remaining := remaining st - audio_cost audio_url;
                            omitted_text := omitted_text st;
                            omitted_audio := omitted_audio st |})
      else Some ([], {| remaining := remaining st; omitted_text := omitted_text st;
                        omitted_audio := omitted_audio st + 1 |})
  | InputImage _ _ | EncryptedContent _ => Some ([item], st)
  end.

(** The loop: what is given out for the items, and the final state. *)
Fixpoint items_loop (items : list FunctionCallOutputContentItem) (st : item_state)
  : option (list FunctionCallOutputContentItem * item_state) :=
  match items with
  | [] => Some ([], st)
  | item :: items' =>
      '(given, st) ← item_step item st;
      '(rest, st) ← items_loop items' st;
      Some (given ++ rest, st)
  end.

Definition omitted_note (n : N) (what : str) : list FunctionCallOutputContentItem :=
  if 0 <? n then [InputText (lit "[omitted " ++ fmt_N n ++ what)] else [].

Definition truncate_function_output_items_with_policy
    (items : list FunctionCallOutputContentItem) : option (list FunctionCallOutputContentItem) :=
  '(out, st) ← items_loop items {| remaining := item_budget; omitted_text := 0;
                                   omitted_audio := 0 |};
  Some (out ++ omitted_note (omitted_text st) (lit " text items ...]")
        ++ omitted_note (omitted_audio st) (lit " audio items ...]")).

Definition truncate_function_output_payload (output : FunctionCallOutputPayload)
  : option FunctionCallOutputPayload :=
  match body output with
  | OutputText text =>
      t ← truncate_text text policy; Some {| body := OutputText t; success := success output |}
  | ContentItems items =>
      i ← truncate_function_output_items_with_policy items;
      Some {| body := ContentItems i; success := success output |}
  end.
End items.

(** [approx_tokens_from_byte_count_i64]. *)
Definition approx_tokens_from_byte_count_i64 (n : Z) : Z :=
  if (n <=? 0)%Z then 0%Z
  else Z.min i64_max (Z.of_N (approx_tokens_from_byte_count (Z.to_N n))).

(** ** The split *)

Lemma byte_len_cons c s : byte_len (c :: s) = len_utf8 c + byte_len s.
Proof. done. Qed.

Lemma slice_to_app a b : slice_to (a ++ b) (byte_len a) = Some a.
Proof.
  induction a as [|c a IH]; [by destruct b|]. rewrite byte_len_cons. simpl.
  pose proof (len_utf8_range c). rewrite (proj2 (N.eqb_neq _ 0)), (proj2 (N.leb_le _ _)) by lia.
  by replace (len_utf8 c + byte_len a - len_utf8 c) with (byte_len a) by lia; rewrite IH.
Qed.

Lemma slice_from_app a b : slice_from (a ++ b) (byte_len a) = Some b.
Proof.
  induction a as [|c a IH]; [by destruct b|]. rewrite byte_len_cons. simpl.
  pose proof (len_utf8_range c). rewrite (proj2 (N.eqb_neq _ 0)), (proj2 (N.leb_le _ _)) by lia.
  by replace (len_utf8 c + byte_len a - len_utf8 c) with (byte_len a) by lia.
Qed.

(** The longest prefix that fits a budget, and the rest. *)
Fixpoint fit (budget : N) (s : str) : str * str :=
  match s with
  | [] => ([], [])
  | c :: s' =>
      if len_utf8 c <=? budget
      then let '(a, b) := fit (budget - len_utf8 c) s' in (c :: a, b) else ([], s)
  end.

(** The characters before a position, and the rest. *)
Fixpoint skip (n : N) (s : str) : str * str :=
  match s with
  | [] => ([], [])
  | c :: s' => if 0 <? n then let '(a, b) := skip (n - len_utf8 c) s' in (c :: a, b) else ([], s)
  end.

Lemma fit_spec budget s a b :
  fit budget s = (a, b) → s = a ++ b ∧ byte_len a ≤ budget ∧
  ∀ c b', b = c :: b' → budget < byte_len a + len_utf8 c.
Proof.
  revert budget a b; induction s as [|c s IH]; intros budget a b; simpl.
  { intros [= <- <-]. split; [done|]. split; [simpl; lia|done]. }
  destruct (len_utf8 c <=? budget) eqn:Hc.
  - apply N.leb_le in Hc. destruct (fit (budget - len_utf8 c) s) as [a' b'] eqn:Hf.
    intros [= <- <-]. apply IH in Hf as (-> & Hle & Hmax). split; [done|].
    rewrite byte_len_cons. split; [lia|]. intros d b'' Hd. specialize (Hmax d b'' Hd). lia.
  - apply N.leb_gt in Hc. intros [= <- <-]. split; [done|]. split; [simpl; lia|].
    intros d b' [= <- _]. simpl. lia.
Qed.

Lemma skip_spec n s a b :
  skip n s = (a, b) → s = a ++ b ∧ (b ≠ [] → n ≤ byte_len a).
Proof.
  revert n a b; induction s as [|c s IH]; intros n a b; simpl; [by intros [= <- <-]|].
  destruct (0 <? n) eqn:Hn.
  - destruct (skip (n - len_utf8 c) s) as [a' b'] eqn:Hf. intros [= <- <-].
    apply IH in Hf as (-> & Hle). split; [done|]. intros Hb. rewrite byte_len_cons.
    specialize (Hle Hb). lia.
  - apply N.ltb_ge in Hn. intros [= <- <-]. split; [done|]. simpl. lia.
Qed.

(** While the prefix fits. *)
Lemma split_loop_prefix B t s : ∀ idx st,
  idx ≤ B → prefix_end st = idx →
  let '(a, b) := fit (B - idx) s in
  split_loop B t idx s st =
  split_loop B t (idx + byte_len a) b
    {| prefix_end := idx + byte_len a; suffix_start := suffix_start st;
       removed_chars := removed_chars st; suffix_started := suffix_started st |}.
Proof.
  induction s as [|c s IH]; intros idx st Hidx Hp; simpl fit.
  - cbn [split_loop byte_len foldr]. rewrite N.add_0_r. destruct st. simpl in *. by subst.
  - destruct (len_utf8 c <=? B - idx) eqn:Hc.
    + apply N.leb_le in Hc. pose proof (len_utf8_range c).
      specialize (IH (idx + len_utf8 c)
        {| prefix_end := idx + len_utf8 c; suffix_start := suffix_start st;
           removed_chars := removed_chars st; suffix_started := suffix_started st |}
        ltac:(lia) eq_refl).
      replace (B - (idx + len_utf8 c)) with (B - idx - len_utf8 c) in IH by lia.
      destruct (fit (B - idx - len_utf8 c) s) as [a b]. cbn [split_loop].
      rewrite (proj2 (N.leb_le _ _)) by lia. rewrite IH. rewrite byte_len_cons.
      by rewrite N.add_assoc.
    + cbn [byte_len foldr]. rewrite N.add_0_r. destruct st. simpl in *. by subst.
Qed.

(** Once the tail has started nothing changes. *)
Lemma split_loop_tail B t s : ∀ idx st,
  B ≤ idx → t ≤ idx → suffix_started st = true → split_loop B t idx s st = st.
Proof.
  induction s as [|c s IH]; intros idx st HB Ht Hst; [done|]. cbn [split_loop].
  pose proof (len_utf8_range c).
  rewrite (proj2 (N.leb_gt _ _)), (proj2 (N.leb_le _ _)), Hst by lia.
  apply IH; [lia|lia|done].
Qed.

(** The characters that are removed, then the tail. *)
Lemma split_loop_rest B t s : ∀ idx st,
  (∀ c s', s = c :: s' → B < idx + len_utf8 c) →
  suffix_started st = false → suffix_start st = idx + byte_len s →
  removed_chars st + N.of_nat (length s) ≤ usize_max →
  let '(m, a) := skip (t - idx) s in
  split_loop B t idx s st =
  {| prefix_end := prefix_end st; suffix_start := idx + byte_len m;
     removed_chars := removed_chars st + N.of_nat (length m);
     suffix_started := negb (is_empty a) |}.
Proof.
  induction s as [|c s IH]; intros idx st Hfirst Hst Hss Hmax; simpl skip.
  - cbn [split_loop byte_len foldr length] in *. destruct st. simpl in *.
    rewrite Hst, Hss, N.add_0_r. by rewrite N.add_0_r.
  - specialize (Hfirst c s eq_refl). pose proof (len_utf8_range c). cbn [split_loop].
    rewrite (proj2 (N.leb_gt _ _)) by lia. destruct (0 <? t - idx) eqn:Ht.
    + apply N.ltb_lt in Ht. rewrite (proj2 (N.leb_gt _ _)) by lia.
      rewrite byte_len_cons in Hss. cbn [length] in Hmax.
      specialize (IH (idx + len_utf8 c)
        {| prefix_end := prefix_end st; suffix_start := suffix_start st;
           removed_chars := sat_add (removed_chars st) 1; suffix_started := suffix_started st |}).
      replace (t - (idx + len_utf8 c)) with (t - idx - len_utf8 c) in IH by lia.
      destruct (skip (t - idx - len_utf8 c) s) as [m a]. rewrite IH; clear IH; simpl.
      * unfold sat_add. f_equal; lia.
      * intros d s' _. pose proof (len_utf8_range d). lia.
      * done.
      * lia.
      * unfold sat_add. lia.
    + apply N.ltb_ge in Ht. rewrite (proj2 (N.leb_le _ _)), Hst by lia.
      rewrite split_loop_tail by (simpl; lia || done). simpl. f_equal; lia.
Qed.

(** The head is the longest prefix that fits the first budget, the tail fits the
    second, and the removed characters are those in between; the slices are on
    character boundaries. *)
Lemma split_string_spec s B E :
  byte_len s ≤ usize_max →
  ∃ before middle after,
    split_string s B E = Some (N.of_nat (length middle), before, after) ∧
    s = before ++ middle ++ after ∧ byte_len before ≤ B ∧ byte_len after ≤ E ∧
    (∀ c r, middle ++ after = c :: r → B < byte_len before + len_utf8 c).
Proof.
  intros Hmax. unfold split_string. destruct (is_empty s) eqn:He.
  { apply is_empty_true in He as ->. exists [], [], []. split_and!; simpl; try done; lia. }
  destruct (fit B s) as [before r] eqn:Hf.
  destruct (skip (byte_len s - E - byte_len before) r) as [middle after] eqn:Hs.
  pose proof (fit_spec _ _ _ _ Hf) as (Hsr & Hb & Hfirst).
  pose proof (skip_spec _ _ _ _ Hs) as (Hr & Ht). exists before, middle, after.
  assert (split_loop B (byte_len s - E) 0 s {| prefix_end := 0; suffix_start := byte_len s;
            removed_chars := 0; suffix_started := false |} =
          {| prefix_end := byte_len before; suffix_start := byte_len before + byte_len middle;
             removed_chars := N.of_nat (length middle); suffix_started := negb (is_empty after) |})
    as ->.
  { pose proof (split_loop_prefix B (byte_len s - E) s 0 {| prefix_end := 0;
      suffix_start := byte_len s; removed_chars := 0; suffix_started := false |} ltac:(lia) eq_refl)
      as H1. rewrite N.sub_0_r, Hf, N.add_0_l in H1. rewrite H1. simpl.
    pose proof (split_loop_rest B (byte_len s - E) r (byte_len before)
      {| prefix_end := byte_len before; suffix_start := byte_len s; removed_chars := 0;
         suffix_started := false |}) as H2.
    rewrite Hs in H2. simpl in H2. rewrite H2; [done|exact Hfirst|done| |].
    - by rewrite Hsr, byte_len_app.
    - pose proof (byte_len_length r). rewrite Hsr, byte_len_app in Hmax. lia. }
  cbn [prefix_end suffix_start removed_chars]. rewrite (proj2 (N.ltb_ge _ _)) by lia.
  assert (slice_to s (byte_len before) = Some before) as -> by (rewrite Hsr; apply slice_to_app).
  assert (slice_from s (byte_len before + byte_len middle) = Some after) as ->
    by (rewrite Hsr, Hr, app_assoc, <- byte_len_app; apply slice_from_app).
  simpl. split; [done|]. split; [by rewrite Hsr, Hr|]. split; [done|]. split.
  - destruct (decide (after = [])) as [->|Hne]; [simpl; lia|]. specialize (Ht Hne).
    rewrite Hsr, Hr, !byte_len_app in Ht. lia.
  - intros c r' Hc. apply (Hfirst c r'). by rewrite Hr.
Qed.

(** Truncation keeps a head and a tail of the text within the byte budget
    and replaces exactly what lies between them by a marker that tells how much
    was removed; text within the budget is returned unchanged; and no slice
    falls inside a character. *)
Theorem truncate_middle_spec s max_bytes use_tokens :
  byte_len s ≤ usize_max →
  ∃ out, truncate_with_byte_estimate s max_bytes use_tokens = Some out ∧
    (s = [] ∨ (0 < max_bytes ∧ byte_len s ≤ max_bytes) → out = s) ∧
    (s ≠ [] → max_bytes = 0 ∨ max_bytes < byte_len s →
     ∃ before middle after,
       s = before ++ middle ++ after ∧ byte_len before + byte_len after ≤ max_bytes ∧
       byte_len before ≤ max_bytes / 2 ∧ (middle ≠ []) ∧
       out = before ++ format_truncation_marker use_tokens
               (removed_units use_tokens (byte_len s - max_bytes) (N.of_nat (length middle)))
             ++ after).
Proof.
  intros Hmax. unfold truncate_with_byte_estimate. destruct (is_empty s) eqn:He.
  { apply is_empty_true in He as ->. eexists. split; [done|]. split; [done|]. done. }
  apply is_empty_false in He. destruct (N.eqb_spec max_bytes 0) as [->|Hz].
  { eexists. split; [done|]. split; [intros [?|[??]]; [done|lia]|]. intros _ _.
    exists [], s, []. rewrite app_nil_r, N.sub_0_r. simpl. split; [done|]. split; [lia|].
    split; [apply N.le_0_l|]. split; [done|]. by rewrite ?app_nil_r. }
  destruct (byte_len s <=? max_bytes) eqn:Hle.
  { apply N.leb_le in Hle. eexists. split; [done|]. split; [done|]. intros _ Hcut. exfalso. lia. }
  apply N.leb_gt in Hle. cbn [split_budget].
  destruct (split_string_spec s (max_bytes / 2) (max_bytes - max_bytes / 2) Hmax)
    as (before & middle & after & -> & Hs & Hb & Ha & _). simpl.
  pose proof (N.Div0.div_le_upper_bound max_bytes 2 max_bytes ltac:(lia)).
  eexists. split; [done|]. split; [intros [?|[??]]; [done|lia]|]. intros _ _.
  exists before, middle, after. split; [done|]. split; [lia|]. split; [done|]. split; [|done].
  intros ->. rewrite Hs, !byte_len_app in Hle. simpl in Hle. lia.
Qed.

(** Witness: a text of nine characters, one of three bytes, in a budget of six. *)
Lemma truncate_middle_spec_witness :
  byte_len (lit "abcd" ++ [8364] ++ lit "wxyz") ≤ usize_max ∧
  ∃ out, truncate_with_byte_estimate (lit "abcd" ++ [8364] ++ lit "wxyz") 6 false = Some out ∧
    ∃ before middle after, lit "abcd" ++ [8364] ++ lit "wxyz" = before ++ middle ++ after ∧
      byte_len before + byte_len after ≤ 6.
Proof.
  split; [by vm_compute|].
  destruct (truncate_middle_spec (lit "abcd" ++ [8364] ++ lit "wxyz") 6 false)
    as (out & Hout & _ & Hcut); [by vm_compute|]. exists out. split; [exact Hout|].
  destruct Hcut as (before & middle & after & Hs & Hle & _); [done|by right; vm_compute|].
  exists before, middle, after. by split.
Defined.

Example truncate_example :
  truncate_with_byte_estimate (lit "abcd" ++ [8364] ++ lit "wxyz") 6 false
  = Some (lit "abc" ++ ellipsis ++ lit "3 chars truncated" ++ ellipsis ++ lit "xyz").
Proof. by vm_compute. Qed.

(** ** Items *)

Lemma truncate_with_byte_estimate_total s n u :
  byte_len s ≤ usize_max → is_Some (truncate_with_byte_estimate s n u).
Proof.
  intros Hmax. unfold truncate_with_byte_estimate. destruct (is_empty s); [done|].
  destruct (n =? 0); [done|]. destruct (byte_len s <=? n); [done|]. cbn [split_budget].
  by destruct (split_string_spec s (n / 2) (n - n / 2) Hmax) as (? & ? & ? & -> & _).
Qed.

Lemma truncate_text_total s p : byte_len s ≤ usize_max → is_Some (truncate_text s p).
Proof.
  intros Hmax. destruct p as [n|n]; [by apply truncate_with_byte_estimate_total|].
  unfold truncate_text, truncate_middle_with_token_budget.
  destruct (is_empty s); [done|]. destruct (_ && _); [done|].
  destruct (truncate_with_byte_estimate_total s (approx_bytes_for_tokens n) true Hmax) as [t ->].
  simpl. by destruct (bool_decide _).
Qed.

(** Which items are never cut, and which carry content. *)
Definition is_media (i : FunctionCallOutputContentItem) : bool :=
  match i with InputImage _ _ | EncryptedContent _ => true | _ => false end.
Definition is_audio (i : FunctionCallOutputContentItem) : bool :=
  match i with InputAudio _ => true | _ => false end.
Definition is_empty_text (i : FunctionCallOutputContentItem) : bool :=
  match i with InputText t => is_empty t | _ => false end.

Definition keep (f : FunctionCallOutputContentItem → bool)
  (items : list FunctionCallOutputContentItem) := base.filter (λ i, f i = true) items.

Definition count (f : FunctionCallOutputContentItem → bool)
  (items : list FunctionCallOutputContentItem) : N := N.of_nat (length (keep f items)).

Definition content (i : FunctionCallOutputContentItem) : bool := negb (is_empty_text i).

Section items_proofs.
Context (est : str → N) (policy : TruncationPolicy).

Definition item_cost (i : FunctionCallOutputContentItem) : N :=
  match i with
  | InputText t => text_cost policy t
  | InputAudio u => audio_cost est policy u
  | InputImage _ _ | EncryptedContent _ => 0
  end.

Definition total_cost (items : list FunctionCallOutputContentItem) : N :=
  foldr (λ i n, item_cost i + n) 0 items.

Lemma text_cost_pos t : t ≠ [] → byte_len t ≤ usize_max → 0 < text_cost policy t.
Proof.
  intros Ht Hmax. destruct t as [|c t]; [done|]. pose proof (len_utf8_range c).
  unfold text_cost, approx_token_count, sat_add, APPROX_BYTES_PER_TOKEN in *.
  rewrite byte_len_cons in *. destruct policy; [lia|].
  apply N.div_str_pos. unfold usize_max in *. lia.
Qed.

(** What the loop gives out, against what it is given. *)
Record items_ok (items kept : list FunctionCallOutputContentItem) (st st' : item_state) : Prop := {
  ok_media : keep is_media kept = keep is_media items;
  ok_audio : sublist (keep is_audio kept) (keep is_audio items);
  ok_text_count : omitted_text st' + count is_text kept
                  = omitted_text st + count is_text (keep content items);
  ok_audio_count : omitted_audio st' + count is_audio kept
                   = omitted_audio st + count is_audio items;
  ok_audio_cost : total_cost (keep is_audio kept) + remaining st' ≤ remaining st;
  ok_fits : total_cost items ≤ remaining st →
            kept = keep content items ∧ remaining st' + total_cost items = remaining st ∧
            omitted_text st' = omitted_text st ∧ omitted_audio st' = omitted_audio st;
}.

Lemma total_cost_cons i items : total_cost (i :: items) = item_cost i + total_cost items.
Proof. done. Qed.

Lemma total_cost_nil : total_cost [] = 0.
Proof. done. Qed.

Lemma total_cost_app a b : total_cost (a ++ b) = total_cost a + total_cost b.
Proof.
  induction a as [|i a IH]; [done|]. rewrite <- app_comm_cons, !total_cost_cons. lia.
Qed.

Lemma keep_app f a b : keep f (a ++ b) = keep f a ++ keep f b.
Proof. apply filter_app. Qed.

Lemma keep_cons f i items : keep f (i :: items) = if f i then i :: keep f items else keep f items.
Proof.
  unfold keep. destruct (f i) eqn:Hf; [by rewrite filter_cons_True|].
  rewrite filter_cons_False; [done|]. by rewrite Hf.
Qed.

Lemma count_cons f i items : count f (i :: items) = (if f i then 1 else 0) + count f items.
Proof. unfold count. rewrite keep_cons. destruct (f i); cbn [length]; lia. Qed.

Lemma keep_nil f : keep f [] = [].
Proof. done. Qed.

Lemma count_nil f : count f [] = 0.
Proof. done. Qed.

Lemma count_app f a b : count f (a ++ b) = count f a + count f b.
Proof. unfold count. rewrite keep_app, length_app. lia. Qed.

(** Two stretches of the loop compose. *)
Lemma items_ok_app a b ka kb s s1 s2 :
  items_ok a ka s s1 → items_ok b kb s1 s2 → items_ok (a ++ b) (ka ++ kb) s s2.
Proof.
  intros [M1 A1 T1 N1 C1 F1] [M2 A2 T2 N2 C2 F2].
  split; rewrite ?keep_app, ?count_app, ?total_cost_app.
  - by rewrite M1, M2.
  - by apply sublist_app.
  - lia.
  - lia.
  - lia.
  - intros Hfit. destruct F1 as (-> & ? & ? & ?); [lia|].
    destruct F2 as (-> & ? & ? & ?); [lia|]. split; [done|]. lia.
Qed.

(** The remaining goals about one item: counts and costs of short lists. *)
Ltac solve_item :=
  first [done | apply sublist_nil_l
        | rewrite ?count_cons, ?count_nil, ?keep_cons, ?keep_nil; cbn; lia
        | rewrite ?keep_cons, ?keep_nil; cbn [is_audio]; rewrite ?total_cost_cons, ?total_cost_nil;
          cbn [item_cost remaining]; lia
        | intros Hfit; rewrite ?total_cost_cons, ?total_cost_nil in *;
          cbn [item_cost remaining omitted_text omitted_audio] in *;
          (exfalso; lia) || (split_and!; done || lia)].

Lemma text_step_ok t st :
  byte_len t ≤ usize_max →
  ∃ given st', item_step est policy (InputText t) st = Some (given, st') ∧
    items_ok [InputText t] given st st'.
Proof.
  intros Hmax. cbn [item_step]. destruct (is_empty t) eqn:He.
  { apply is_empty_true in He as ->. exists [], st. split; [done|].
    assert (total_cost [InputText []] = 0) as Hcost
      by (unfold total_cost, item_cost, text_cost; by destruct policy).
    split; rewrite ?Hcost; try done. intros _. split_and!; [done|lia|done..]. }
  pose proof (text_cost_pos t (proj1 (is_empty_false t) He) Hmax) as Hpos.
  assert (keep content [InputText t] = [InputText t]) as Hkeep
    by (rewrite keep_cons; unfold content; cbn [is_empty_text]; by rewrite He).
  destruct (N.eqb_spec (remaining st) 0) as [Hz|Hz].
  { eexists _, _. split; [done|]. split; rewrite ?Hkeep; solve_item. }
  destruct (N.leb_spec (text_cost policy t) (remaining st)) as [Hle|Hgt].
  { eexists _, _. split; [done|]. split; rewrite ?Hkeep; solve_item. }
  destruct (truncate_text_total t (snippet_policy policy (remaining st)) Hmax) as [u ->]. simpl.
  destruct (is_empty u); eexists _, _; (split; [done|]); split; rewrite ?Hkeep; solve_item.
Qed.

Lemma item_step_ok i st :
  (∀ t, i = InputText t → byte_len t ≤ usize_max) →
  ∃ given st', item_step est policy i st = Some (given, st') ∧ items_ok [i] given st st'.
Proof.
  intros Hmax. destruct i as [t|url d|url|e]; [by apply text_step_ok, Hmax|..]; cbn [item_step].
  - eexists _, _. split; [done|]. split; solve_item.
  - destruct (N.leb_spec (audio_cost est policy url) (remaining st)); eexists _, _;
      (split; [done|]); split; solve_item.
  - eexists _, _. split; [done|]. split; solve_item.
Qed.

Lemma items_loop_ok items : ∀ st,
  (∀ t, InputText t ∈ items → byte_len t ≤ usize_max) →
  ∃ kept st', items_loop est policy items st = Some (kept, st') ∧ items_ok items kept st st'.
Proof.
  induction items as [|i items IH]; intros st Hmax.
  { exists [], st. split; [done|]. split; solve_item. }
  destruct (item_step_ok i st) as (given & st1 & Hi & Hok1).
  { intros t ->. apply Hmax. by apply list_elem_of_here. }
  destruct (IH st1) as (rest & st2 & Hrest & Hok2).
  { intros t Ht. apply Hmax. by apply list_elem_of_further. }
  exists (given ++ rest), st2. cbn [items_loop]. rewrite Hi. simpl. rewrite Hrest.
  split; [done|]. exact (items_ok_app [i] items given rest st st1 st2 Hok1 Hok2).
Qed.
End items_proofs.

(** The items of a tool result share one budget.  Images and encrypted
    content are all kept, in order; every text with content is either given out
    (whole, or cut) or counted in the note about omitted texts; the audio that is
    given out is some of the audio, in order and within the budget, and the rest
    is counted; and when everything fits nothing but empty texts is left out and
    no note is added. *)
Theorem items_share_budget est policy items :
  (∀ t, InputText t ∈ items → byte_len t ≤ usize_max) →
  ∃ kept texts audios,
    truncate_function_output_items_with_policy est policy items
    = Some (kept ++ omitted_note texts (lit " text items ...]")
            ++ omitted_note audios (lit " audio items ...]")) ∧
    keep is_media kept = keep is_media items ∧
    texts + count is_text kept = count is_text (keep content items) ∧
    audios + count is_audio kept = count is_audio items ∧
    sublist (keep is_audio kept) (keep is_audio items) ∧
    total_cost est policy (keep is_audio kept) ≤ item_budget policy ∧
    (total_cost est policy items ≤ item_budget policy →
     kept = keep content items ∧ texts = 0 ∧ audios = 0).
Proof.
  intros Hmax. unfold truncate_function_output_items_with_policy.
  destruct (items_loop_ok est policy items {| remaining := item_budget policy; omitted_text := 0;
    omitted_audio := 0 |} Hmax) as (kept & [r ot oa] & -> & [M A T N C F]). cbn in T, N, C, F.
  exists kept, ot, oa. split_and!; [done|done|done|done|done|lia|].
  intros Hfit. by destruct (F Hfit) as (-> & _ & -> & ->).
Qed.

(** Witness: a budget of five bytes that the first text overruns. *)
Lemma items_share_budget_witness :
  ∃ kept texts audios,
    truncate_function_output_items_with_policy (λ _, 1) (Bytes 5)
      [InputText (lit "abcdefgh"); InputImage (lit "u") None; InputText (lit "x");
       InputAudio (lit "a")]
    = Some (kept ++ omitted_note texts (lit " text items ...]")
            ++ omitted_note audios (lit " audio items ...]")) ∧
    keep is_media kept = [InputImage (lit "u") None] ∧
    texts + count is_text kept = 2 ∧ audios + count is_audio kept = 1.
Proof.
  destruct (items_share_budget (λ _, 1) (Bytes 5)
      [InputText (lit "abcdefgh"); InputImage (lit "u") None; InputText (lit "x");
       InputAudio (lit "a")]) as (kept & texts & audios & H & M & T & N & _).
  { intros t Ht. rewrite !elem_of_cons in Ht.
    destruct Ht as [[= ->]|[[=]|[[= ->]|[[=]|Ht]]]]; [by vm_compute..|].
    by apply elem_of_nil in Ht. }
  exists kept, texts, audios. split; [exact H|]. split; [exact M|]. split; [exact T|exact N].
Defined.

Example items_example :
  truncate_function_output_items_with_policy (λ _, 1) (Bytes 5)
    [InputText (lit "abcdefgh"); InputImage (lit "u") None; InputText (lit "x");
     InputAudio (lit "a")]
  = Some [InputText (lit "ab" ++ ellipsis ++ lit "3 chars truncated" ++ ellipsis ++ lit "fgh");
          InputImage (lit "u") None; InputText (lit "[omitted 1 text items ...]");
          InputText (lit "[omitted 1 audio items ...]")].
Proof. by vm_compute. Qed.
