(* ===== verification/HeadTail.v ===== *)
(** * The head/tail buffer of process output

    [codex-rs/core/src/unified_exec/head_tail_buffer.rs]: a capped buffer that
    keeps the first and the last bytes of a stream.  It is specified by the
    summary of the whole stream, and every way to fill it refines the summary. *)

From S2P Require Import Prelude RustStr.

Section buffer.
Context (MAX_BYTES : nat).

Definition HEAD_BUDGET : nat := MAX_BYTES / 2.
Definition TAIL_BUDGET : nat := MAX_BYTES - HEAD_BUDGET.

Record HeadTailBuffer := { head : bytes; tail : bytes; omitted_bytes : N }.

Definition empty_buffer : HeadTailBuffer := {| head := []; tail := []; omitted_bytes := 0 |}.

Definition len (l : bytes) : N := N.of_nat (length l).

Definition retained_bytes (b : HeadTailBuffer) : N := sat_add (len (head b)) (len (tail b)).

Definition total_bytes (b : HeadTailBuffer) : N := sat_add (retained_bytes b) (omitted_bytes b).

(** [split_at_checked] gives [None] when the chunk is shorter than the room left. *)
Definition fill_head (b : HeadTailBuffer) (chunk : bytes) : HeadTailBuffer * bytes :=
  let remaining_head := HEAD_BUDGET - length (head b) in
  let '(chunk_head, chunk_tail) :=
    if remaining_head <=? length chunk
    then (take remaining_head chunk, drop remaining_head chunk) else (chunk, []) in
  ({| head := head b ++ chunk_head; tail := tail b; omitted_bytes := omitted_bytes b |}, chunk_tail).

(** [skip] is at most [excess_tail], which is at most the length of the chunk:
    the slice is in range. *)
Definition push_tail (b : HeadTailBuffer) (chunk : bytes) : HeadTailBuffer :=
  let remaining_tail := TAIL_BUDGET - length (tail b) in
  let excess_tail := length chunk - remaining_tail in
  let '(kept, chunk) :=
    if excess_tail <? length (tail b) then (drop excess_tail (tail b), chunk)
    else let skip := excess_tail - length (tail b) in ([], drop skip chunk) in
  {| head := head b; tail := kept ++ chunk;
     omitted_bytes := sat_add (omitted_bytes b) (N.of_nat excess_tail) |}.

Definition push_chunk (b : HeadTailBuffer) (chunk : bytes) : HeadTailBuffer :=
  let '(b, chunk) := fill_head b chunk in push_tail b chunk.

Definition to_bytes (b : HeadTailBuffer) : bytes := head b ++ tail b.

Definition format_output_omission_marker (omitted_bytes : N) : str :=
  lit "... " ++ fmt_N omitted_bytes ++ lit " bytes omitted ...".

(** The marker is ASCII: its bytes are its characters. *)
Definition to_bytes_with_omission_marker (b : HeadTailBuffer) : bytes :=
  if (omitted_bytes b =? 0)%N then to_bytes b
  else head b ++ [nl] ++ format_output_omission_marker (omitted_bytes b) ++ [nl] ++ tail b.

(** [wrap] is where the ring buffer of the source tail wraps around, which
    decides how [as_slices] cuts it. *)
Definition push_buffer (b buffer : HeadTailBuffer) (wrap : nat) : HeadTailBuffer :=
  let b := {| head := head b; tail := tail b;
              omitted_bytes := sat_add (omitted_bytes b) (omitted_bytes buffer) |} in
  let '(b, overflow) :=
    if is_empty (head b)
    then ({| head := head buffer; tail := tail b; omitted_bytes := omitted_bytes b |}, [])
    else fill_head b (head buffer) in
  if length (tail buffer) =? TAIL_BUDGET then
    {| head := head b; tail := tail buffer;
       omitted_bytes := sat_add (sat_add (omitted_bytes b) (len (tail b))) (len overflow) |}
  else
    let b := push_tail b overflow in
    if is_empty (tail b)
    then {| head := head b; tail := tail buffer; omitted_bytes := omitted_bytes b |}
    else
      let '(first, second) := (take wrap (tail buffer), drop wrap (tail buffer)) in
      push_tail (push_tail b first) second.

(** ** The specification: the summary of a stream *)

Definition last_n (n : nat) (l : bytes) : bytes := drop (length l - n) l.

Definition summary (s : bytes) : HeadTailBuffer :=
  {| head := take HEAD_BUDGET s;
     tail := last_n TAIL_BUDGET (drop HEAD_BUDGET s);
     omitted_bytes := N.of_nat (length (drop HEAD_BUDGET s) - TAIL_BUDGET) |}.

(** The buffers the operations build, with the stream each of them has seen. *)
Inductive built : HeadTailBuffer → bytes → Prop :=
| built_empty : built empty_buffer []
| built_chunk b s chunk : built b s → built (push_chunk b chunk) (s ++ chunk)
| built_buffer a s b t wrap : built a s → built b t → built (push_buffer a b wrap) (s ++ t).

Lemma last_n_all n l : length l ≤ n → last_n n l = l.
Proof. intros. unfold last_n. by replace (length l - n) with 0 by lia. Qed.

Lemma last_n_length n l : length (last_n n l) = Nat.min n (length l).
Proof. unfold last_n. rewrite length_drop. lia. Qed.

Lemma last_n_app n a b : last_n n (a ++ b) = last_n (n - length b) a ++ last_n n b.
Proof.
  unfold last_n. rewrite length_app, drop_app. f_equal; [|f_equal; lia].
  destruct (le_lt_dec (length b) n); [f_equal; lia|]. by rewrite !drop_ge by lia.
Qed.

Lemma last_n_app_long n a b : n ≤ length b → last_n n (a ++ b) = last_n n b.
Proof.
  intros. rewrite last_n_app. replace (n - length b) with 0 by lia.
  unfold last_n at 1. rewrite Nat.sub_0_r. by rewrite drop_all.
Qed.

Lemma last_n_last_n n m l : n ≤ m → last_n n (last_n m l) = last_n n l.
Proof.
  intros. unfold last_n. rewrite length_drop, drop_drop. f_equal. lia.
Qed.

Lemma fill_head_eq b chunk :
  fill_head b chunk =
  ({| head := head b ++ take (HEAD_BUDGET - length (head b)) chunk; tail := tail b;
      omitted_bytes := omitted_bytes b |}, drop (HEAD_BUDGET - length (head b)) chunk).
Proof.
  unfold fill_head. destruct (_ <=? _) eqn:H; [done|]. apply Nat.leb_gt in H.
  by rewrite take_ge, drop_ge by lia.
Qed.

(** Pushing on the tail keeps the last bytes of the old tail and the chunk. *)
Lemma push_tail_eq b chunk :
  length (tail b) ≤ TAIL_BUDGET →
  push_tail b chunk =
  {| head := head b; tail := last_n TAIL_BUDGET (tail b ++ chunk);
     omitted_bytes := sat_add (omitted_bytes b)
                        (N.of_nat (length (tail b ++ chunk) - TAIL_BUDGET)) |}.
Proof.
  intros Hlen. unfold push_tail, last_n. rewrite length_app.
  destruct (_ <? _) eqn:H.
  - apply Nat.ltb_lt in H. rewrite drop_app_le by lia. f_equal; [|f_equal; lia].
    do 2 f_equal. lia.
  - apply Nat.ltb_ge in H. rewrite drop_app_ge by lia. f_equal; [|f_equal; lia].
    simpl. f_equal. lia.
Qed.

Lemma sat_add_small a b : (a + b ≤ usize_max)%N → sat_add a b = (a + b)%N.
Proof. unfold sat_add. lia. Qed.

Lemma summary_tail_length s : length (tail (summary s)) ≤ TAIL_BUDGET.
Proof. cbn [summary tail]. rewrite last_n_length. lia. Qed.

(** Once the head is full, bytes go to the tail of the summary. *)
Lemma summary_full s t :
  HEAD_BUDGET ≤ length s →
  summary (s ++ t) =
  {| head := take HEAD_BUDGET s; tail := last_n TAIL_BUDGET (drop HEAD_BUDGET s ++ t);
     omitted_bytes := N.of_nat (length (drop HEAD_BUDGET s ++ t) - TAIL_BUDGET) |}.
Proof. intros. unfold summary. by rewrite take_app_le, drop_app_le by lia. Qed.

Lemma push_tail_full s h t o :
  (len s ≤ usize_max)%N → t = last_n TAIL_BUDGET s →
  o = N.of_nat (length s - TAIL_BUDGET) → ∀ chunk, (len (s ++ chunk) ≤ usize_max)%N →
  push_tail {| head := h; tail := t; omitted_bytes := o |} chunk =
  {| head := h; tail := last_n TAIL_BUDGET (s ++ chunk);
     omitted_bytes := N.of_nat (length (s ++ chunk) - TAIL_BUDGET) |}.
Proof.
  intros Hs -> -> chunk Hmax. unfold len in *. rewrite length_app in Hmax.
  rewrite push_tail_eq by (cbn [tail]; rewrite last_n_length; lia).
  cbn [head tail omitted_bytes].
  pose proof (last_n_length TAIL_BUDGET s) as Hl. f_equal.
  - rewrite !last_n_app. by rewrite last_n_last_n by lia.
  - rewrite sat_add_small; rewrite !length_app, ?last_n_length; lia.
Qed.

Lemma push_chunk_summary s chunk :
  (len (s ++ chunk) ≤ usize_max)%N → push_chunk (summary s) chunk = summary (s ++ chunk).
Proof.
  intros Hmax. pose proof Hmax as Hmax'. unfold len in Hmax'. rewrite length_app in Hmax'.
  unfold push_chunk. rewrite fill_head_eq. cbn [head tail omitted_bytes summary].
  rewrite length_take. rewrite (push_tail_full (drop HEAD_BUDGET s));
    [|unfold len; rewrite length_drop; lia|done|done
     |unfold len; rewrite length_app, !length_drop; lia].
  unfold summary. rewrite take_app, drop_app.
  destruct (le_lt_dec HEAD_BUDGET (length s)).
  - rewrite Nat.min_l by lia. by replace (HEAD_BUDGET - length s) with (HEAD_BUDGET - HEAD_BUDGET) by lia.
  - by rewrite Nat.min_r by lia.
Qed.

(** Appending a buffer.  First the head: what overflows it comes before the tail
    of the source. *)
Lemma push_buffer_head s t o :
  ∃ overflow,
    (if is_empty (take HEAD_BUDGET s)
     then ({| head := take HEAD_BUDGET t; tail := tail (summary s); omitted_bytes := o |}, [])
     else fill_head {| head := take HEAD_BUDGET s; tail := tail (summary s);
                       omitted_bytes := o |} (take HEAD_BUDGET t))
    = ({| head := take HEAD_BUDGET (s ++ t); tail := tail (summary s); omitted_bytes := o |},
       overflow) ∧
    drop HEAD_BUDGET (s ++ t) = (drop HEAD_BUDGET s ++ overflow) ++ drop HEAD_BUDGET t.
Proof.
  destruct (is_empty (take HEAD_BUDGET s)) eqn:He.
  - exists []. rewrite app_nil_r. apply is_empty_true in He.
    destruct (decide (HEAD_BUDGET = 0)) as [->|Hpos]; [by rewrite !take_0, !drop_0|].
    destruct s as [|x s]; [by rewrite drop_nil|]. by destruct HEAD_BUDGET.
  - eexists. rewrite fill_head_eq. cbn [head tail omitted_bytes]. split.
    + rewrite take_app, take_take, length_take. do 3 f_equal.
      destruct (le_lt_dec HEAD_BUDGET (length s)); f_equal; lia.
    + rewrite drop_app, <- app_assoc. f_equal.
      rewrite <- (take_drop HEAD_BUDGET t) at 1.
      rewrite drop_app, length_take. f_equal.
      * destruct (le_lt_dec HEAD_BUDGET (length s)); f_equal; lia.
      * destruct (le_lt_dec HEAD_BUDGET (length t)).
        -- replace (_ - _) with 0 by lia. done.
        -- by rewrite (drop_ge t) by lia; rewrite drop_nil.
Qed.

(** Then the tail: a full source tail replaces it, a partial one is pushed. *)
Lemma push_buffer_summary s t wrap :
  (len (s ++ t) ≤ usize_max)%N → push_buffer (summary s) (summary t) wrap = summary (s ++ t).
Proof.
  intros Hmax. unfold len in Hmax.
  assert (HEAD_BUDGET ≤ TAIL_BUDGET) as Hbudget.
  { unfold TAIL_BUDGET, HEAD_BUDGET. pose proof (Nat.div_mod_eq MAX_BYTES 2). lia. }
  unfold push_buffer. cbn [head tail omitted_bytes].
  destruct (push_buffer_head s t (sat_add (omitted_bytes (summary s)) (omitted_bytes (summary t))))
    as (overflow & Hhead & Hdrop).
  change (head (summary s)) with (take HEAD_BUDGET s).
  change (head (summary t)) with (take HEAD_BUDGET t). rewrite Hhead. clear Hhead.
  cbn [head tail omitted_bytes].
  assert (length (s ++ t) - HEAD_BUDGET
          = length (drop HEAD_BUDGET s) + length overflow + length (drop HEAD_BUDGET t)) as Hlen
    by (rewrite <- length_drop, Hdrop, !length_app; lia).
  assert (length (tail (summary t)) = Nat.min TAIL_BUDGET (length (drop HEAD_BUDGET t))) as Htl
    by apply last_n_length.
  assert (length (tail (summary s)) = Nat.min TAIL_BUDGET (length (drop HEAD_BUDGET s))) as Hsl
    by apply last_n_length.
  set (u := drop HEAD_BUDGET s) in *. set (v := drop HEAD_BUDGET t) in *.
  assert (length u + length overflow + length v ≤ length (s ++ t)) as Hle by lia.
  change (omitted_bytes (summary s)) with (N.of_nat (length u - TAIL_BUDGET)).
  change (omitted_bytes (summary t)) with (N.of_nat (length v - TAIL_BUDGET)).
  assert (summary (s ++ t) =
          {| head := take HEAD_BUDGET (s ++ t); tail := last_n TAIL_BUDGET ((u ++ overflow) ++ v);
             omitted_bytes := N.of_nat (length ((u ++ overflow) ++ v) - TAIL_BUDGET) |}) as ->
    by (rewrite <- Hdrop; done).
  destruct (Nat.eqb_spec (length (tail (summary t))) TAIL_BUDGET).
  - rewrite last_n_app_long by lia. f_equal. unfold sat_add, len. rewrite !length_app. lia.
  - assert (length v < TAIL_BUDGET) as Hv by lia.
    rewrite (push_tail_full u); [|unfold len; lia|done|unfold sat_add; lia
                                 |unfold len; rewrite length_app; lia].
    cbn [head tail omitted_bytes].
    change (tail (summary t)) with (last_n TAIL_BUDGET v). rewrite (last_n_all _ v) by lia.
    destruct (is_empty _) eqn:He.
    + apply is_empty_true, (f_equal length) in He. rewrite last_n_length in He. simpl in He.
      assert (u ++ overflow = []) as -> by (apply length_zero_iff_nil; lia).
      rewrite last_n_all by (simpl; lia). f_equal. simpl. lia.
    + rewrite (push_tail_full (u ++ overflow)); [|unfold len; rewrite length_app; lia|done|done
        |unfold len; rewrite !length_app, length_take; lia].
      rewrite (push_tail_full ((u ++ overflow) ++ take wrap v));
        [|unfold len; rewrite !length_app, length_take; lia|done|done
         |unfold len; rewrite !length_app, length_take, length_drop; lia].
      by rewrite <- (app_assoc (u ++ overflow)), take_drop.
Qed.

Lemma built_summary b s : built b s → (len s ≤ usize_max)%N → b = summary s.
Proof.
  induction 1 as [|b s chunk _ IH|a s b t wrap _ IHa _ IHb]; intros Hmax.
  - unfold summary, empty_buffer. by rewrite take_nil, drop_nil.
  - rewrite IH; [by apply push_chunk_summary|]. unfold len in *. rewrite length_app in Hmax. lia.
  - unfold len in *. rewrite length_app in Hmax. rewrite IHa, IHb by lia.
    apply push_buffer_summary. unfold len. rewrite length_app. lia.
Qed.

Lemma budgets_sum : HEAD_BUDGET + TAIL_BUDGET = MAX_BYTES.
Proof.
  unfold TAIL_BUDGET, HEAD_BUDGET. pose proof (Nat.div_mod_eq MAX_BYTES 2). lia.
Qed.

(** C36: however output arrives, in chunks or in whole buffers, the buffer is the
    summary of the stream: its first [HEAD_BUDGET] bytes, the last
    [TAIL_BUDGET] of the rest and the number of bytes between them.  It never
    keeps more than [MAX_BYTES], it knows the length of the stream, and a stream
    that fits is reproduced exactly. *)
Theorem head_tail_refines b s :
  built b s → (len s ≤ usize_max)%N →
  b = summary s ∧ length (to_bytes b) ≤ MAX_BYTES ∧ total_bytes b = len s ∧
  (length s ≤ MAX_BYTES → to_bytes_with_omission_marker b = s).
Proof.
  intros Hb Hmax. rewrite (built_summary b s Hb Hmax). pose proof budgets_sum. unfold len in Hmax.
  split; [done|]. unfold to_bytes_with_omission_marker, to_bytes, total_bytes, retained_bytes.
  cbn [summary head tail omitted_bytes]. split; [|split].
  - rewrite length_app, length_take, last_n_length. lia.
  - unfold sat_add, len. rewrite length_take, last_n_length, length_drop. lia.
  - intros Hfit. rewrite length_drop. replace (_ - _ - _) with 0 by lia. simpl.
    rewrite last_n_all by (rewrite length_drop; lia). apply take_drop.
Qed.
End buffer.

(** Witness: a buffer of five bytes that takes three chunks, then another buffer. *)
Lemma head_tail_refines_witness :
  push_buffer 5 (push_chunk 5 (push_chunk 5 empty_buffer [1; 2; 3]%N) [4; 5; 6; 7]%N)
    (push_chunk 5 empty_buffer [8; 9]%N) 0
  = {| head := [1; 2]; tail := [7; 8; 9]; omitted_bytes := 4 |}%N ∧
  total_bytes (push_buffer 5 (push_chunk 5 (push_chunk 5 empty_buffer [1; 2; 3]%N) [4; 5; 6; 7]%N)
    (push_chunk 5 empty_buffer [8; 9]%N) 0) = 9%N.
Proof.
  destruct (head_tail_refines 5
    (push_buffer 5 (push_chunk 5 (push_chunk 5 empty_buffer [1; 2; 3]%N) [4; 5; 6; 7]%N)
       (push_chunk 5 empty_buffer [8; 9]%N) 0)
    (([] ++ [1; 2; 3]) ++ [4; 5; 6; 7] ++ ([] ++ [8; 9]))%N) as (Hb & _ & Ht & _).
  - rewrite app_assoc. repeat constructor.
  - by vm_compute.
  - split; [rewrite Hb; by vm_compute|exact Ht].
Defined.
