(* ===== verification/ResponseItems.v ===== *)
(** * The items of the conversation

    [ResponseItem] and the types it is made of
    ([codex-rs/protocol/src/models.rs]), the envelope that history keeps around
    an item ([codex-rs/history/src/lib.rs]) and a message's content with its
    classifications ([codex-rs/context-fragments/src/annotated_content.rs]).
    The JSON values and numbers of [serde_json] are parameters. *)

From S2P Require Import Prelude RustStr Truncation.

Class JsonTypes := { Value : Type; Number : Type }.

Section items.
Context {J : JsonTypes}.

Inductive ContentItem :=
| CInputText (text : str)
| CInputImage (image_url : str) (detail : option ImageDetail)
| CInputAudio (audio_url : str)
| COutputText (text : str).

Inductive AgentMessageInputContent :=
| AInputText (text : str)
| AEncryptedContent (encrypted_content : str).

Inductive MessagePhase := Commentary | FinalAnswer.

Inductive ReasoningItemReasoningSummary := SummaryText (text : str).
Inductive ReasoningItemContent := ReasoningText (text : str) | RText (text : str).

Inductive LocalShellStatus := Completed | InProgress | Incomplete.

Record LocalShellExecAction := {
  command : list str;
  timeout_ms : option N;
  working_directory : option str;
  env : option (gmap str str);
  user : option str;
}.

Inductive LocalShellAction := Exec (action : LocalShellExecAction).

Inductive WebSearchAction :=
| Search (query : option str) (queries : option (list str))
| OpenPage (url : option str)
| FindInPage (url : option str) (pattern : option str)
| WOther.

Record ExecutedToolCallTruncation := {
  original_bytes : N;
  max_bytes : N;
  omitted_calls : option N;
  original_name_bytes : option N;
}.

Inductive ExecutedToolCallArguments :=
| Raw (value : Value)
| Truncated (truncation : ExecutedToolCallTruncation).

Record ExecutedToolCall := { tool_name : str; tool_arguments : ExecutedToolCallArguments }.

(** [ContentItemKind] is a wrapper of a string. *)
Record InternalChatMessageMetadataPassthrough := {
  turn_id : option str;
  create_time : option Number;
  content_item_kinds : option (list str);
  cell_id : option str;
  executed_tool_calls : option (list ExecutedToolCall);
  tool_calls_complete : option bool;
}.

Definition default_passthrough : InternalChatMessageMetadataPassthrough :=
  {| turn_id := None; create_time := None; content_item_kinds := None; cell_id := None;
     executed_tool_calls := None; tool_calls_complete := None |}.

Abbreviation passthrough := (option InternalChatMessageMetadataPassthrough).

(** [ResponseItemId] is a wrapper of a string. *)
Inductive ResponseItem :=
| AdditionalTools (id : option str) (role : str) (tools : list Value)
| Message (id : option str) (role : str) (content : list ContentItem)
    (phase : option MessagePhase) (meta : passthrough)
| AgentMessage (id : option str) (author recipient : str)
    (content : list AgentMessageInputContent) (meta : passthrough)
| Reasoning (id : option str) (summary : list ReasoningItemReasoningSummary)
    (content : option (list ReasoningItemContent)) (encrypted_content : option str)
    (meta : passthrough)
| LocalShellCall (id call_id : option str) (status : LocalShellStatus)
    (action : LocalShellAction) (meta : passthrough)
| FunctionCall (id : option str) (name : str) (namespace : option str) (arguments : str)
    (encrypted_function_args : option (list str)) (call_id : str) (meta : passthrough)
| ToolSearchCall (id call_id status : option str) (execution : str) (arguments : Value)
    (meta : passthrough)
| FunctionCallOutput (id call_id name namespace : option str)
    (output : FunctionCallOutputPayload) (meta : passthrough)
| CustomToolCall (id status : option str) (call_id name : str) (namespace : option str)
    (input : str) (meta : passthrough)
| CustomToolCallOutput (id : option str) (call_id : str) (name : option str)
    (output : FunctionCallOutputPayload) (meta : passthrough)
| ToolSearchOutput (id call_id : option str) (status execution : str) (tools : list Value)
    (meta : passthrough)
| WebSearchCall (id status : option str) (action : option WebSearchAction) (meta : passthrough)
| ImageGenerationCall (id : option str) (status : str) (revised_prompt : option str)
    (result : str) (meta : passthrough)
| Compaction (id : option str) (encrypted_content : str) (meta : passthrough)
| CompactionTrigger
| ContextCompaction (id encrypted_content : option str) (meta : passthrough)
| Other.

Record CodexHarnessMetadata := {
  client_authored : bool;
  fallback_token_limit_override : option N;
}.

Record ResponseItemEnvelope := {
  item : ResponseItem;
  metadata : option CodexHarnessMetadata;
}.

Definition new_envelope (i : ResponseItem) : ResponseItemEnvelope :=
  {| item := i; metadata := None |}.

(** [FunctionCallOutputPayload::from_text]. *)
Definition from_text (content : str) : FunctionCallOutputPayload :=
  {| body := OutputText content; success := None |}.

(** ** Annotated content *)

Record AnnotatedContent := { ac_content : ContentItem; ac_kind : str }.

Definition unknown_kind : str := lit "unknown".

Definition set_kinds (kinds : option (list str)) (m : InternalChatMessageMetadataPassthrough)
  : InternalChatMessageMetadataPassthrough :=
  {| turn_id := turn_id m; create_time := create_time m; content_item_kinds := kinds;
     cell_id := cell_id m; executed_tool_calls := executed_tool_calls m;
     tool_calls_complete := tool_calls_complete m |}.

(** The content is taken out of the item, and so are the kinds; missing kinds
    are unknown. *)
Definition to_annotated_content (i : ResponseItem)
  : option (list AnnotatedContent * ResponseItem) :=
  match i with
  | Message id role content phase meta =>
      let kinds := default [] (meta ≫= content_item_kinds) in
      Some (zip_with Build_AnnotatedContent content
              (kinds ++ replicate (length content) unknown_kind),
            Message id role [] phase (set_kinds None <$> meta))
  | _ => None
  end.

Definition set_annotated_content (i : ResponseItem) (annotated : list AnnotatedContent)
  : option ResponseItem :=
  match i with
  | Message id role _ phase meta =>
      Some (Message id role (ac_content <$> annotated) phase
              (Some (set_kinds (Some (ac_kind <$> annotated))
                       (default default_passthrough meta))))
  | _ => None
  end.
End items.
