(* ===== verification/History.v ===== *)
(** * The conversation history sent to the model

    [codex-rs/core/src/context_manager/normalize.rs] and the operations of
    [history.rs] that keep calls and outputs paired: before a prompt is sent
    every tool call has an output and every output has a call.  UUIDs of version
    5 are a parameter, and so is whether the build has debug assertions, under
    which [error_or_panic] panics ([None]). *)

From S2P Require Import Prelude RustStr Truncation ResponseItems.

Inductive InputModality := MText | MImage | MAudio.

#[global] Instance InputModality_eq_dec : EqDecision InputModality.
Proof. solve_decision. Defined.

Section normalize.
Context {J : JsonTypes} (new_v5 : str → str) (debug_assertions : bool).
Abbreviation items_t := (list ResponseItemEnvelope).

Definition error_or_panic {A} (a : A) : option A := if debug_assertions then None else Some a.

Definition synthetic_output_id (prefix : str) (item_id : option str) : option str :=
  source_id ← item_id;
  if is_empty source_id then None
  else Some (prefix ++ lit "_" ++ new_v5 (prefix ++ lit ":" ++ source_id)).

(** ** Missing outputs *)

Definition function_output_id (e : ResponseItemEnvelope) : option str :=
  match item e with FunctionCallOutput _ (Some call_id) _ _ _ _ => Some call_id | _ => None end.
Definition tool_search_output_id (e : ResponseItemEnvelope) : option str :=
  match item e with ToolSearchOutput _ (Some call_id) _ _ _ _ => Some call_id | _ => None end.
Definition custom_tool_output_id (e : ResponseItemEnvelope) : option str :=
  match item e with CustomToolCallOutput _ call_id _ _ _ => Some call_id | _ => None end.

(** [HashSet]s of call ids. *)
Definition ids (f : ResponseItemEnvelope → option str) (items : items_t) : gset str :=
  list_to_set (omap f items).

Definition aborted_function_output (id : option str) (call_id : str) : ResponseItemEnvelope :=
  new_envelope (FunctionCallOutput (synthetic_output_id (lit "fco") id) (Some call_id) None None
                  (from_text (lit "aborted")) None).

Definition empty_tool_search_output (id : option str) (call_id : str) : ResponseItemEnvelope :=
  new_envelope (ToolSearchOutput (synthetic_output_id (lit "tso") id) (Some call_id)
                  (lit "completed") (lit "client") [] None).

Definition aborted_custom_output (id : option str) (call_id : str) : ResponseItemEnvelope :=
  new_envelope (CustomToolCallOutput (synthetic_output_id (lit "ctco") id) call_id None
                  (from_text (lit "aborted")) None).

(** The output to insert after an item, if it is a call without one. *)
Definition missing_output (function_output_ids tool_search_output_ids custom_tool_output_ids
    : gset str) (e : ResponseItemEnvelope) : option (option ResponseItemEnvelope) :=
  match item e with
  | FunctionCall id _ _ _ _ call_id _ =>
      if bool_decide (call_id ∈ function_output_ids) then Some None
      else Some (Some (aborted_function_output id call_id))
  | ToolSearchCall id (Some call_id) _ _ _ _ =>
      if bool_decide (call_id ∈ tool_search_output_ids) then Some None
      else Some (Some (empty_tool_search_output id call_id))
  | CustomToolCall id _ call_id _ _ _ _ =>
      if bool_decide (call_id ∈ custom_tool_output_ids) then Some None
      else error_or_panic (Some (aborted_custom_output id call_id))
  | LocalShellCall id (Some call_id) _ _ _ =>
      if bool_decide (call_id ∈ function_output_ids) then Some None
      else error_or_panic (Some (aborted_function_output id call_id))
  | _ => Some None
  end.

Fixpoint missing_outputs (fo ts co : gset str) (idx : nat) (items : items_t)
  : option (list (nat * ResponseItemEnvelope)) :=
  match items with
  | [] => Some []
  | e :: items' =>
      o ← missing_output fo ts co e;
      rest ← missing_outputs fo ts co (S idx) items';
      Some (match o with Some out => (idx, out) :: rest | None => rest end)
  end.

(** [Vec::insert] panics past the end. *)
Definition vec_insert {A} (i : nat) (x : A) (l : list A) : option (list A) :=
  if i <=? length l then Some (take i l ++ x :: drop i l) else None.

Definition ensure_call_outputs_present (items : items_t) : option items_t :=
  missing ← missing_outputs (ids function_output_id items) (ids tool_search_output_id items)
              (ids custom_tool_output_id items) 0 items;
  foldl (λ acc '(idx, out), items ← acc; vec_insert (idx + 1) out items)
    (Some items) (reverse missing).

(** ** Orphan outputs *)

Definition function_call_id (e : ResponseItemEnvelope) : option str :=
  match item e with
  | FunctionCall _ _ _ _ _ call_id _ | LocalShellCall _ (Some call_id) _ _ _ => Some call_id
  | _ => None
  end.
Definition tool_search_call_id (e : ResponseItemEnvelope) : option str :=
  match item e with ToolSearchCall _ (Some call_id) _ _ _ _ => Some call_id | _ => None end.
Definition custom_tool_call_id (e : ResponseItemEnvelope) : option str :=
  match item e with CustomToolCall _ _ call_id _ _ _ _ => Some call_id | _ => None end.

Definition is_orphan (function_call_ids tool_search_call_ids custom_tool_call_ids : gset str)
    (e : ResponseItemEnvelope) : bool :=
  match item e with
  | FunctionCallOutput _ (Some call_id) _ _ _ _ => negb (bool_decide (call_id ∈ function_call_ids))
  | CustomToolCallOutput _ call_id _ _ _ => negb (bool_decide (call_id ∈ custom_tool_call_ids))
  | ToolSearchOutput _ (Some call_id) _ execution _ _ =>
      negb (bool_decide (execution = lit "server"))
      && negb (bool_decide (call_id ∈ tool_search_call_ids))
  | _ => false
  end.

Fixpoint orphan_positions (fc ts cc : gset str) (position : nat) (items : items_t)
  : option (list nat) :=
  match items with
  | [] => Some []
  | e :: items' =>
      if is_orphan fc ts cc e then
        _ ← error_or_panic ();
        cons position <$> orphan_positions fc ts cc (S position) items'
      else orphan_positions fc ts cc (S position) items'
  end.

(** [retain] with the peekable iterator of positions. *)
Fixpoint retain_unlisted (positions : list nat) (position : nat) (items : items_t) : items_t :=
  match items with
  | [] => []
  | e :: items' =>
      match positions with
      | p :: positions' =>
          if p =? position then retain_unlisted positions' (S position) items'
          else e :: retain_unlisted positions (S position) items'
      | [] => e :: retain_unlisted [] (S position) items'
      end
  end.

Definition remove_orphan_outputs (items : items_t) : option items_t :=
  positions ← orphan_positions (ids function_call_id items) (ids tool_search_call_id items)
                (ids custom_tool_call_id items) 0 items;
  Some (if is_empty positions then items else retain_unlisted positions 0 items).

(** ** Removing the counterpart of an item *)

Definition remove_first_matching (items : items_t) (p : ResponseItemEnvelope → bool) : items_t :=
  match position p items with Some pos => delete pos items | None => items end.

Definition has_id (f : ResponseItemEnvelope → option str) (call_id : str)
    (e : ResponseItemEnvelope) : bool := bool_decide (f e = Some call_id).

Definition plain_function_call_id (e : ResponseItemEnvelope) : option str :=
  match item e with FunctionCall _ _ _ _ _ call_id _ => Some call_id | _ => None end.
Definition local_shell_call_id (e : ResponseItemEnvelope) : option str :=
  match item e with LocalShellCall _ (Some call_id) _ _ _ => Some call_id | _ => None end.

Definition remove_corresponding_for (items : items_t) (i : ResponseItem) : items_t :=
  match i with
  | FunctionCall _ _ _ _ _ call_id _ | LocalShellCall _ (Some call_id) _ _ _ =>
      remove_first_matching items (has_id function_output_id call_id)
  | FunctionCallOutput _ (Some call_id) _ _ _ _ =>
      match position (has_id plain_function_call_id call_id) items with
      | Some pos => delete pos items
      | None => remove_first_matching items (has_id local_shell_call_id call_id)
      end
  | ToolSearchCall _ (Some call_id) _ _ _ _ =>
      remove_first_matching items (has_id tool_search_output_id call_id)
  | ToolSearchOutput _ (Some call_id) _ _ _ _ =>
      remove_first_matching items (has_id tool_search_call_id call_id)
  | CustomToolCall _ _ call_id _ _ _ _ =>
      remove_first_matching items (has_id custom_tool_output_id call_id)
  | CustomToolCallOutput _ call_id _ _ _ =>
      remove_first_matching items (has_id custom_tool_call_id call_id)
  | _ => items
  end.

(** ** Unsupported media *)

(** [UnsupportedMedia] of [context/unsupported_media.rs], which has no markers. *)
Definition unsupported_image_text : str :=
  lit "image content omitted because you do not support image input".
Definition unsupported_audio_text : str :=
  lit "audio content omitted because you do not support audio input".
Definition unsupported_image : AnnotatedContent :=
  {| ac_content := CInputText unsupported_image_text; ac_kind := lit "images.unsupported" |}.
Definition unsupported_audio : AnnotatedContent :=
  {| ac_content := CInputText unsupported_audio_text; ac_kind := lit "audio.unsupported" |}.

Definition is_image_content (c : ContentItem) : bool :=
  match c with CInputImage _ _ => true | _ => false end.
Definition is_audio_content (c : ContentItem) : bool :=
  match c with CInputAudio _ => true | _ => false end.

(** The two branches the strippers share: messages and tool outputs. *)
Definition strip_message (bad : ContentItem → bool) (placeholder : AnnotatedContent)
    (i : ResponseItem) : ResponseItem :=
  match to_annotated_content i with
  | None => i
  | Some (content, taken) =>
      default taken (set_annotated_content taken
        ((λ c, if bad (ac_content c) then placeholder else c) <$> content))
  end.

Definition strip_payload (bad : FunctionCallOutputContentItem → bool) (text : str)
    (output : FunctionCallOutputPayload) : FunctionCallOutputPayload :=
  match body output with
  | OutputText _ => output
  | ContentItems items =>
      {| body := ContentItems ((λ i, if bad i then InputText text else i) <$> items);
         success := success output |}
  end.

Definition is_image_output (i : FunctionCallOutputContentItem) : bool :=
  match i with InputImage _ _ => true | _ => false end.

Definition strip_item (bad : ContentItem → bool) (placeholder : AnnotatedContent)
    (bad_output : FunctionCallOutputContentItem → bool) (text : str) (i : ResponseItem)
  : ResponseItem :=
  match i with
  | Message _ _ _ _ _ => strip_message bad placeholder i
  | FunctionCallOutput id call_id name namespace output meta =>
      FunctionCallOutput id call_id name namespace (strip_payload bad_output text output) meta
  | CustomToolCallOutput id call_id name output meta =>
      CustomToolCallOutput id call_id name (strip_payload bad_output text output) meta
  | _ => i
  end.

Definition strip_image_item (i : ResponseItem) : ResponseItem :=
  match i with
  | ImageGenerationCall id status revised_prompt _ meta =>
      ImageGenerationCall id status revised_prompt [] meta
  | _ => strip_item is_image_content unsupported_image is_image_output unsupported_image_text i
  end.

Definition strip_audio_item (i : ResponseItem) : ResponseItem :=
  strip_item is_audio_content unsupported_audio is_audio unsupported_audio_text i.

Definition update_item (f : ResponseItem → ResponseItem) (e : ResponseItemEnvelope)
  : ResponseItemEnvelope := {| item := f (item e); metadata := metadata e |}.

Definition strip_images_when_unsupported (input_modalities : list InputModality) (items : items_t)
  : items_t :=
  if bool_decide (MImage ∈ input_modalities) then items else update_item strip_image_item <$> items.

Definition strip_audio_when_unsupported (input_modalities : list InputModality) (items : items_t)
  : items_t :=
  if bool_decide (MAudio ∈ input_modalities) then items else update_item strip_audio_item <$> items.

(** [ContextManager::normalize_history] on the items. *)
Definition normalize_history (input_modalities : list InputModality) (items : items_t)
  : option items_t :=
  items ← ensure_call_outputs_present items;
  items ← remove_orphan_outputs items;
  Some (strip_audio_when_unsupported input_modalities
          (strip_images_when_unsupported input_modalities items)).
End normalize.

(** ** The history and its operations *)

Section manager.
Context {J : JsonTypes} {TokenUsageInfo TurnContextItem WorldStateSnapshot : Type}.

Record ContextManager := {
  cm_items : list ResponseItemEnvelope;
  history_version : N;
  user_message_revision : N;
  token_info : option TokenUsageInfo;
  reference_context_item : option TurnContextItem;
  world_state_baseline : option WorldStateSnapshot;
}.

Definition remove_first_item (h : ContextManager) : ContextManager :=
  match cm_items h with
  | [] => h
  | removed :: items =>
      {| cm_items := remove_corresponding_for items (item removed);
         history_version := history_version h;
         user_message_revision := user_message_revision h; token_info := token_info h;
         reference_context_item := reference_context_item h; world_state_baseline := None |}
  end.

Definition replace_compacted (items : list ResponseItemEnvelope) (h : ContextManager)
  : ContextManager :=
  {| cm_items := items; history_version := sat_add (history_version h) 1;
     user_message_revision := user_message_revision h; token_info := token_info h;
     reference_context_item := reference_context_item h; world_state_baseline := None |}.

Definition replace_annotated (items : list ResponseItemEnvelope) (h : ContextManager)
  : ContextManager :=
  replace_compacted items
    {| cm_items := cm_items h; history_version := history_version h;
       user_message_revision := sat_add (user_message_revision h) 1; token_info := token_info h;
       reference_context_item := reference_context_item h;
       world_state_baseline := world_state_baseline h |}.

Definition for_prompt_annotated (new_v5 : str → str) (debug : bool)
    (input_modalities : list InputModality) (h : ContextManager)
  : option (list ResponseItemEnvelope) :=
  normalize_history new_v5 debug input_modalities (cm_items h).

Definition for_prompt (new_v5 : str → str) (debug : bool)
    (input_modalities : list InputModality) (h : ContextManager) : option (list ResponseItem) :=
  option_map (map item) (for_prompt_annotated new_v5 debug input_modalities h).
End manager.
