(* ===== verification/HistoryPaired.v ===== *)
(** * Calls and outputs of the history are paired

    What the normalisation of [History] promises: the pairing of calls and
    outputs, a reference definition without positions and insertions, and the
    theorems that relate them. *)

From S2P Require Import Prelude RustStr Truncation ResponseItems History.

(** ** Calls, outputs and pairing *)

Inductive call_kind := KFunction | KSearch | KCustom.

#[global] Instance call_kind_eq_dec : EqDecision call_kind.
Proof. solve_decision. Defined.

Abbreviation key := (call_kind * str)%type.

(** Case analysis on the optional call ids of an item. *)
Ltac split_ids :=
  repeat match goal with
  | |- context [match ?o with Some _ => _ | None => _ end] => is_var o; destruct o
  end.

Lemma existsb_equal {A} (f g : A → bool) l : (∀ x, f x = g x) → existsb f l = existsb g l.
Proof. intros H. induction l as [|x l IH]; [done|]. simpl. by rewrite H, IH. Qed.

Lemma existsb_none {A} (f : A → bool) (l : list A) : (∀ x, x ∈ l → f x = false) → existsb f l = false.
Proof.
  intros H. induction l as [|x l IH]; [done|]. simpl. rewrite H, IH by set_solver. done.
Qed.

Lemma filter_all {A} (P : A → Prop) `{!∀ x, base.Decision (P x)} (l : list A) :
  (∀ x, x ∈ l → P x) → base.filter P l = l.
Proof.
  intros Hl. induction l as [|x l IH]; [done|].
  rewrite filter_cons_True by set_solver. f_equal. set_solver.
Qed.

Section pairing.
Context {J : JsonTypes}.
Implicit Types (e : ResponseItemEnvelope) (items : list ResponseItemEnvelope).

Definition call_key e : option key :=
  match item e with
  | FunctionCall _ _ _ _ _ id _ | LocalShellCall _ (Some id) _ _ _ => Some (KFunction, id)
  | ToolSearchCall _ (Some id) _ _ _ _ => Some (KSearch, id)
  | CustomToolCall _ _ id _ _ _ _ => Some (KCustom, id)
  | _ => None
  end.

Definition output_key e : option key :=
  match item e with
  | FunctionCallOutput _ (Some id) _ _ _ _ => Some (KFunction, id)
  | ToolSearchOutput _ (Some id) _ _ _ _ => Some (KSearch, id)
  | CustomToolCallOutput _ id _ _ _ => Some (KCustom, id)
  | _ => None
  end.

(** Outputs of tools that ran on the server stand alone. *)
Definition server_output e : bool :=
  match item e with
  | ToolSearchOutput _ _ _ execution _ _ => bool_decide (execution = lit "server")
  | _ => false
  end.

Definition calls items : list key := omap call_key items.
Definition outputs items : list key := omap output_key items.

(** Every call with an id has an output with that id; every output with an id
    has a call or is the server's.  An item without an id stands alone
    ([stands_alone]). *)
Definition paired items : Prop :=
  (∀ k, k ∈ calls items → k ∈ outputs items) ∧
  (∀ e k, e ∈ items → output_key e = Some k → server_output e = false → k ∈ calls items).

Lemma elem_of_ids (f : ResponseItemEnvelope → option str) items k :
  k ∈ ids f items ↔ ∃ e, e ∈ items ∧ f e = Some k.
Proof. unfold ids. by rewrite elem_of_list_to_set, list_elem_of_omap. Qed.

Lemma elem_of_calls items k : k ∈ calls items ↔ ∃ e, e ∈ items ∧ call_key e = Some k.
Proof. apply list_elem_of_omap. Qed.

Lemma elem_of_outputs items k : k ∈ outputs items ↔ ∃ e, e ∈ items ∧ output_key e = Some k.
Proof. apply list_elem_of_omap. Qed.

(** The three sets of ids of each pass are the keys by kind. *)
Lemma ids_keys (f : ResponseItemEnvelope → option str) (g : ResponseItemEnvelope → option key)
    kind items id :
  (∀ e, f e = Some id ↔ g e = Some (kind, id)) →
  bool_decide (id ∈ ids f items) = bool_decide ((kind, id) ∈ omap g items).
Proof.
  intros Hfg. apply bool_decide_ext. rewrite elem_of_ids, list_elem_of_omap.
  by setoid_rewrite Hfg.
Qed.

(** An id of one kind of item is the key of that kind. *)
Ltac solve_key :=
  unfold function_output_id, tool_search_output_id, custom_tool_output_id, function_call_id,
    tool_search_call_id, custom_tool_call_id, call_key, output_key;
  case_m; repeat case_m; naive_solver.

Lemma function_output_key e id : function_output_id e = Some id ↔ output_key e = Some (KFunction, id).
Proof. solve_key. Qed.
Lemma tool_search_output_key e id :
  tool_search_output_id e = Some id ↔ output_key e = Some (KSearch, id).
Proof. solve_key. Qed.
Lemma custom_tool_output_key e id :
  custom_tool_output_id e = Some id ↔ output_key e = Some (KCustom, id).
Proof. solve_key. Qed.
Lemma function_call_key e id : function_call_id e = Some id ↔ call_key e = Some (KFunction, id).
Proof. solve_key. Qed.
Lemma tool_search_call_key e id : tool_search_call_id e = Some id ↔ call_key e = Some (KSearch, id).
Proof. solve_key. Qed.
Lemma custom_tool_call_key e id : custom_tool_call_id e = Some id ↔ call_key e = Some (KCustom, id).
Proof. solve_key. Qed.

(** ** The reference: each item with the output it lacks *)

Context (new_v5 : str → str).

(** The output that is made up for a call. *)
Definition synthetic e : option ResponseItemEnvelope :=
  match item e with
  | FunctionCall id _ _ _ _ call_id _ | LocalShellCall id (Some call_id) _ _ _ =>
      Some (aborted_function_output new_v5 id call_id)
  | ToolSearchCall id (Some call_id) _ _ _ _ => Some (empty_tool_search_output new_v5 id call_id)
  | CustomToolCall id _ call_id _ _ _ _ => Some (aborted_custom_output new_v5 id call_id)
  | _ => None
  end.

Definition unanswered items e : bool :=
  match call_key e with Some k => negb (bool_decide (k ∈ outputs items)) | None => false end.

Definition with_output items e : list ResponseItemEnvelope :=
  e :: (if unanswered items e then option_list (synthetic e) else []).

Definition orphan items e : bool :=
  match output_key e with
  | Some k => negb (server_output e) && negb (bool_decide (k ∈ calls items))
  | None => false
  end.

Definition reference items : list ResponseItemEnvelope :=
  concat (with_output items <$> base.filter (λ e, orphan items e = false) items).

(** The calls that are always answered, so that a missing output is an error. *)
Definition strict_call e : bool :=
  match item e with CustomToolCall _ _ _ _ _ _ _ | LocalShellCall _ _ _ _ _ => true | _ => false end.

(** What [error_or_panic] reports. *)
Definition inconsistent items : bool :=
  existsb (λ e, strict_call e && unanswered items e) items || existsb (orphan items) items.

Lemma missing_output_eq debug items e :
  missing_output new_v5 debug (ids function_output_id items) (ids tool_search_output_id items)
    (ids custom_tool_output_id items) e =
  if debug && strict_call e && unanswered items e then None
  else Some (if unanswered items e then synthetic e else None).
Proof.
  unfold missing_output, unanswered, call_key, synthetic, strict_call, error_or_panic, outputs.
  destruct (item e); split_ids; simpl; rewrite ?andb_false_r; try done.
  all: rewrite ?(ids_keys function_output_id output_key KFunction items _
                   (λ e, function_output_key e _)),
         ?(ids_keys tool_search_output_id output_key KSearch items _
             (λ e, tool_search_output_key e _)),
         ?(ids_keys custom_tool_output_id output_key KCustom items _
             (λ e, custom_tool_output_key e _)).
  all: by destruct debug, (bool_decide _).
Qed.

Lemma is_orphan_eq items e :
  is_orphan (ids function_call_id items) (ids tool_search_call_id items)
    (ids custom_tool_call_id items) e = orphan items e.
Proof.
  unfold is_orphan, orphan, output_key, server_output, calls.
  destruct (item e); split_ids; simpl; try done.
  all: by rewrite ?(ids_keys function_call_id call_key KFunction items _
                   (λ e, function_call_key e _)),
         ?(ids_keys tool_search_call_id call_key KSearch items _
             (λ e, tool_search_call_key e _)),
         ?(ids_keys custom_tool_call_id call_key KCustom items _
             (λ e, custom_tool_call_key e _)).
Qed.

(** The insertions, last position first, put every output after its call. *)
Lemma insert_missing_eq fo ts co debug (f : ResponseItemEnvelope → option ResponseItemEnvelope)
    items : ∀ pre m,
  (∀ e, e ∈ items → ∀ o, missing_output new_v5 debug fo ts co e = Some o → o = f e) →
  missing_outputs new_v5 debug fo ts co (length pre) items = Some m →
  foldr (λ '(idx, out) acc, items ← acc; vec_insert (idx + 1) out items)
    (Some (pre ++ items)) m = Some (pre ++ concat ((λ e, e :: option_list (f e)) <$> items)).
Proof.
  induction items as [|e items IH]; intros pre m Hf; simpl; [by intros [= <-]|].
  destruct (missing_output new_v5 debug fo ts co e) as [o|] eqn:Ho; [|done]. simpl.
  destruct (missing_outputs _ _ _ _ _ _ items) as [rest|] eqn:Hrest; [|done]. simpl.
  intros [= <-]. specialize (IH (pre ++ [e]) rest).
  rewrite length_app, Nat.add_comm, <- app_assoc in IH.
  specialize (IH (λ x Hx, Hf x ltac:(set_solver)) Hrest).
  rewrite <- (Hf e ltac:(set_solver) o Ho). destruct o as [out|]; simpl.
  - simpl in IH. rewrite IH. simpl. unfold vec_insert.
    rewrite (proj2 (Nat.leb_le _ _)) by (rewrite !length_app; simpl; lia).
    f_equal. rewrite <- !app_assoc, app_assoc.
    rewrite take_app_length', drop_app_length' by (rewrite length_app; simpl; lia).
    by rewrite <- !app_assoc.
  - simpl in IH. by rewrite IH, <- app_assoc.
Qed.

Lemma missing_outputs_None debug items0 items : ∀ idx,
  missing_outputs new_v5 debug (ids function_output_id items0) (ids tool_search_output_id items0)
    (ids custom_tool_output_id items0) idx items = None ↔
  debug && existsb (λ e, strict_call e && unanswered items0 e) items = true.
Proof.
  induction items as [|e items IH]; intros idx; simpl; [by rewrite andb_false_r|].
  rewrite missing_output_eq, andb_orb_distrib_r, orb_true_iff, <- (IH (S idx)), <- andb_assoc.
  clear IH. destruct (debug && _); simpl; [split; [by left|by intros _]|].
  destruct (missing_outputs _ _ _ _ _ _ items); simpl; split; [done|by intros [[=]|[=]]|by right|done].
Qed.

Lemma ensure_eq debug items :
  ensure_call_outputs_present new_v5 debug items =
  if debug && existsb (λ e, strict_call e && unanswered items e) items then None
  else Some (concat (with_output items <$> items)).
Proof.
  unfold ensure_call_outputs_present.
  pose proof (missing_outputs_None debug items items 0) as Hnone.
  destruct (missing_outputs _ _ _ _ _ 0 items) as [m|] eqn:Hm; simpl.
  - destruct (debug && _) eqn:Hd; [by discriminate (proj2 Hnone eq_refl)|].
    rewrite foldl_reverse.
    assert (concat (with_output items <$> items) = [] ++ concat ((λ e, e :: option_list
              (if unanswered items e then synthetic e else None)) <$> items)) as ->.
    { simpl. f_equal. apply list_fmap_ext. intros _ e _. unfold with_output.
      by destruct (unanswered items e). }
    etrans; [|eapply (insert_missing_eq _ _ _ debug
                (λ e, if unanswered items e then synthetic e else None) items [] m);
              [intros e _ o|exact Hm]].
    + clear. simpl. induction m as [|[idx out] m IH]; [done|]. simpl. by rewrite IH.
    + rewrite missing_output_eq. by destruct (debug && _ && _); intros [= <-].
  - by rewrite (proj1 Hnone eq_refl).
Qed.

(** ** Orphans *)

Lemma orphan_positions_eq debug fc ts cc items : ∀ pos,
  orphan_positions debug fc ts cc pos items =
  if debug && existsb (is_orphan fc ts cc) items then None
  else orphan_positions false fc ts cc pos items.
Proof.
  induction items as [|e items IH]; intros pos; simpl; [by rewrite andb_false_r|].
  rewrite IH. destruct (is_orphan fc ts cc e), debug; simpl; done || by destruct (existsb _ _).
Qed.

Lemma orphan_positions_filter fc ts cc items : ∀ pos,
  ∃ ps, orphan_positions false fc ts cc pos items = Some ps ∧ Forall (λ p, pos ≤ p) ps ∧
    retain_unlisted ps pos items = base.filter (λ e, is_orphan fc ts cc e = false) items ∧
    (ps = [] → base.filter (λ e, is_orphan fc ts cc e = false) items = items).
Proof.
  induction items as [|e items IH]; intros pos; simpl.
  { by exists []. }
  destruct (IH (S pos)) as (ps & Hps & Hge & Hr & Hnil). rewrite Hps.
  destruct (is_orphan fc ts cc e) eqn:He; simpl.
  - exists (pos :: ps). split_and!; [done| | |done].
    + apply Forall_cons. split; [lia|]. eapply Forall_impl; [exact Hge|]. simpl. lia.
    + rewrite Nat.eqb_refl, filter_cons_False by (by rewrite He). done.
  - exists ps. split_and!; [done| | |].
    + eapply Forall_impl; [exact Hge|]. simpl. lia.
    + rewrite filter_cons_True by done. destruct ps as [|p ps]; [by f_equal|].
      apply Forall_cons in Hge as [Hp _].
      rewrite (proj2 (Nat.eqb_neq _ _)) by lia. by f_equal.
    + intros Hn. rewrite filter_cons_True by done. by rewrite Hnil.
Qed.

Lemma remove_orphan_eq debug items :
  remove_orphan_outputs debug items =
  if debug && existsb (orphan items) items then None
  else Some (base.filter (λ e, orphan items e = false) items).
Proof.
  unfold remove_orphan_outputs. rewrite orphan_positions_eq.
  assert (existsb (is_orphan (ids function_call_id items) (ids tool_search_call_id items)
            (ids custom_tool_call_id items)) items = existsb (orphan items) items) as ->.
  { apply existsb_equal, is_orphan_eq. }
  destruct (debug && _); [done|].
  destruct (orphan_positions_filter (ids function_call_id items) (ids tool_search_call_id items)
    (ids custom_tool_call_id items) items 0) as (ps & -> & _ & Hr & Hnil). simpl.
  assert (base.filter (λ e, is_orphan (ids function_call_id items) (ids tool_search_call_id items)
            (ids custom_tool_call_id items) e = false) items
          = base.filter (λ e, orphan items e = false) items) as Heq.
  { apply list_filter_iff. intros e. by rewrite is_orphan_eq. }
  destruct (is_empty ps) eqn:Hps.
  - apply is_empty_true in Hps. by rewrite <- Heq, Hnil.
  - by rewrite Hr, Heq.
Qed.

(** ** The two passes together *)

Lemma synthetic_keys e out :
  synthetic e = Some out →
  call_key out = None ∧ output_key out = call_key e ∧ server_output out = false.
Proof.
  unfold synthetic, call_key, output_key, server_output.
  destruct (item e); try done; split_ids; intros [= <-]; try done.
Qed.

Lemma call_synthetic e k : call_key e = Some k → is_Some (synthetic e) ∧ output_key e = None.
Proof.
  unfold synthetic, call_key, output_key. destruct (item e); try done; by split_ids.
Qed.

Lemma output_not_call e k : output_key e = Some k → call_key e = None.
Proof. unfold call_key, output_key. destruct (item e); try done; by split_ids. Qed.

(** What an item becomes: itself, and the output of an unanswered call. *)
Lemma elem_of_with_output items e x :
  x ∈ with_output items e ↔
  x = e ∨ (unanswered items e = true ∧ synthetic e = Some x).
Proof.
  unfold with_output. rewrite elem_of_cons. destruct (unanswered items e).
  - destruct (synthetic e) as [out|]; simpl; set_solver.
  - set_solver.
Qed.

Lemma elem_of_expanded items l x :
  x ∈ concat (with_output items <$> l) ↔
  ∃ e, e ∈ l ∧ (x = e ∨ (unanswered items e = true ∧ synthetic e = Some x)).
Proof.
  rewrite list_elem_of_In, in_concat. split.
  - intros (xs & Hxs & Hx). apply list_elem_of_In, list_elem_of_fmap in Hxs as (e & -> & He).
    exists e. split; [done|]. by apply elem_of_with_output, list_elem_of_In.
  - intros (e & He & Hx). exists (with_output items e). split.
    + apply list_elem_of_In, list_elem_of_fmap. by exists e.
    + by apply list_elem_of_In, elem_of_with_output.
Qed.

Lemma calls_expanded items l : calls (concat (with_output items <$> l)) = calls l.
Proof.
  induction l as [|e l IH]; [done|]. rewrite fmap_cons, concat_cons. unfold calls in *.
  rewrite omap_app, IH. clear IH.
  assert (omap call_key (with_output items e) = omap call_key [e]) as ->;
    [|by rewrite <- omap_app].
  unfold with_output. destruct (unanswered items e); [|done].
  destruct (synthetic e) as [out|] eqn:Hs; [|done]. simpl.
  by destruct (synthetic_keys e out Hs) as (-> & _).
Qed.

Lemma orphan_calls items items' e : calls items = calls items' → orphan items e = orphan items' e.
Proof. unfold orphan. by intros ->. Qed.

Lemma synthetic_not_orphan items e out :
  e ∈ items → synthetic e = Some out → orphan items out = false.
Proof.
  intros He Hs. unfold orphan. destruct (synthetic_keys e out Hs) as (_ & -> & ->).
  destruct (call_key e) as [k|] eqn:Hk; [|done]. simpl.
  rewrite bool_decide_eq_true_2; [done|]. apply elem_of_calls. by exists e.
Qed.

Lemma orphan_unanswered items e : orphan items e = true → unanswered items e = false.
Proof.
  unfold orphan, unanswered. destruct (output_key e) as [k|] eqn:Hk; [|done].
  by rewrite (output_not_call e k Hk).
Qed.

Lemma filter_expanded items l :
  (∀ e, e ∈ l → e ∈ items) →
  base.filter (λ e, orphan items e = false) (concat (with_output items <$> l)) =
  concat (with_output items <$> base.filter (λ e, orphan items e = false) l) ∧
  existsb (orphan items) (concat (with_output items <$> l)) = existsb (orphan items) l.
Proof.
  induction l as [|e l IH]; intros Hl; [done|].
  destruct IH as [IHf IHe]; [set_solver|]. cbn [fmap list_fmap concat].
  rewrite filter_app, existsb_app, IHf, IHe. clear IHf IHe.
  assert (base.filter (λ e, orphan items e = false)
            (if unanswered items e then option_list (synthetic e) else []) =
          (if unanswered items e then option_list (synthetic e) else []) ∧
          existsb (orphan items)
            (if unanswered items e then option_list (synthetic e) else []) = false) as [Hf Hx].
  { destruct (unanswered items e); [|done]. destruct (synthetic e) as [out|] eqn:Hs; [|done].
    pose proof (synthetic_not_orphan items e out ltac:(set_solver) Hs) as Ho. simpl.
    by rewrite Ho, filter_cons_True. }
  change (with_output items e)
    with (e :: (if unanswered items e then option_list (synthetic e) else [])).
  cbn [existsb]. rewrite Hx, orb_false_r. split; [|done].
  destruct (orphan items e) eqn:He.
  - rewrite !filter_cons_False by (by rewrite He). rewrite Hf.
    by rewrite (orphan_unanswered items e He).
  - rewrite !filter_cons_True by done. rewrite Hf. done.
Qed.

Definition strip_media (input_modalities : list InputModality) items : list ResponseItemEnvelope :=
  strip_audio_when_unsupported input_modalities
    (strip_images_when_unsupported input_modalities items).

Lemma normalize_eq debug mods items :
  normalize_history new_v5 debug mods items =
  if debug && inconsistent items then None else Some (strip_media mods (reference items)).
Proof.
  unfold normalize_history, inconsistent. rewrite ensure_eq, andb_orb_distrib_r.
  destruct (debug && existsb _ items) eqn:Hd; [done|]. simpl. rewrite remove_orphan_eq.
  destruct (filter_expanded items items) as [Hf Hx]; [done|].
  assert (∀ e, orphan (concat (with_output items <$> items)) e = orphan items e) as Horph
    by (intros e; apply orphan_calls, calls_expanded).
  assert (existsb (orphan (concat (with_output items <$> items)))
            (concat (with_output items <$> items)) = existsb (orphan items) items) as ->.
  { rewrite <- Hx. apply existsb_equal, Horph. }
  clear Hd. destruct (debug && _); [done|]. simpl. unfold strip_media. do 3 f_equal.
  unfold reference. rewrite <- Hf. apply list_filter_iff. intros e. by rewrite Horph.
Qed.

Lemma elem_of_reference items x :
  x ∈ reference items ↔
  ∃ e, e ∈ items ∧ orphan items e = false ∧
    (x = e ∨ (unanswered items e = true ∧ synthetic e = Some x)).
Proof.
  unfold reference. rewrite elem_of_expanded. setoid_rewrite list_elem_of_filter. naive_solver.
Qed.

Lemma call_not_orphan items e k : call_key e = Some k → orphan items e = false.
Proof. intros Hk. unfold orphan. by destruct (call_synthetic e k Hk) as [_ ->]. Qed.

Lemma calls_reference items k : k ∈ calls (reference items) ↔ k ∈ calls items.
Proof.
  rewrite !elem_of_calls. split.
  - intros (x & Hx & Hk). apply elem_of_reference in Hx as (e & He & _ & [->|[_ Hs]]);
      [by exists e|]. apply synthetic_keys in Hs as [? _]. congruence.
  - intros (e & He & Hk). exists e. split; [|done]. apply elem_of_reference. exists e.
    split_and!; [done|by eapply call_not_orphan|by left].
Qed.

(** The reference pairs every call with an output. *)
Lemma reference_paired items : paired (reference items).
Proof.
  split.
  - intros k Hk. rewrite calls_reference, elem_of_calls in Hk. destruct Hk as (e & He & Hk).
    apply elem_of_outputs. destruct (unanswered items e) eqn:Hu.
    + destruct (call_synthetic e k Hk) as [[out Hs] _]. exists out. split.
      * apply elem_of_reference. exists e. split_and!; [done|by eapply call_not_orphan|by right].
      * by destruct (synthetic_keys e out Hs) as (_ & -> & _).
    + unfold unanswered in Hu. rewrite Hk, negb_false_iff, bool_decide_eq_true in Hu.
      apply elem_of_outputs in Hu as (x & Hx & Hxk). exists x. split; [|done].
      apply elem_of_reference. exists x. split_and!; [done| |by left].
      unfold orphan. rewrite Hxk, bool_decide_eq_true_2; [by rewrite andb_false_r|].
      apply elem_of_calls. by exists e.
  - intros x k Hx Hk Hserver. rewrite calls_reference.
    apply elem_of_reference in Hx as (e & He & Ho & [->|[_ Hs]]).
    + unfold orphan in Ho. rewrite Hk, Hserver in Ho. simpl in Ho.
      by apply negb_false_iff, bool_decide_eq_true in Ho.
    + apply elem_of_calls. exists e. split; [done|].
      by destruct (synthetic_keys e x Hs) as (_ & <- & _).
Qed.

Lemma paired_clean items :
  paired items →
  (∀ e, e ∈ items → unanswered items e = false) ∧ (∀ e, e ∈ items → orphan items e = false).
Proof.
  intros [Hc Ho]. split; intros e He.
  - unfold unanswered. destruct (call_key e) as [k|] eqn:Hk; [|done].
    apply negb_false_iff, bool_decide_eq_true, Hc, elem_of_calls. by exists e.
  - unfold orphan. destruct (output_key e) as [k|] eqn:Hk; [|done].
    destruct (server_output e) eqn:Hs; [done|]. simpl.
    apply negb_false_iff, bool_decide_eq_true. by eapply Ho.
Qed.

(** A paired history is left alone. *)
Lemma paired_fixed items :
  paired items → reference items = items ∧ inconsistent items = false.
Proof.
  intros [Hu Ho]%paired_clean. split.
  - unfold reference. rewrite filter_all by done. clear Ho.
    assert (∀ l, (∀ e, e ∈ l → unanswered items e = false) →
              concat (with_output items <$> l) = l) as H; [|by apply H].
    intros l Hl. induction l as [|e l IH]; [done|]. rewrite fmap_cons, concat_cons, IH by set_solver.
    unfold with_output. by rewrite Hl by set_solver.
  - unfold inconsistent. rewrite !existsb_none; [done|done|].
    intros e He. rewrite Hu by done. apply andb_false_r.
Qed.
End pairing.

(** ** Stripped media *)

Section media.
Context {J : JsonTypes}.

(** The kinds of a message are aligned with its content. *)
Definition aligned (content : list ContentItem) (meta : option InternalChatMessageMetadataPassthrough)
  : Prop :=
  ∃ m ks, meta = Some m ∧ content_item_kinds m = Some ks ∧ length ks = length content.

(** No medium of the kind is left in messages and tool outputs. *)
Definition clean (bad : ContentItem → bool) (bad_output : FunctionCallOutputContentItem → bool)
    (i : ResponseItem) : Prop :=
  match i with
  | Message _ _ content _ meta => aligned content meta ∧ Forall (λ c, bad c = false) content
  | FunctionCallOutput _ _ _ _ output _ | CustomToolCallOutput _ _ _ output _ =>
      match body output with
      | ContentItems items => Forall (λ c, bad_output c = false) items
      | OutputText _ => True
      end
  | _ => True
  end.

Definition no_generated_image (i : ResponseItem) : Prop :=
  match i with ImageGenerationCall _ _ _ result _ => result = [] | _ => True end.

Definition clean_images (i : ResponseItem) : Prop :=
  clean is_image_content is_image_output i ∧ no_generated_image i.
Definition clean_audio (i : ResponseItem) : Prop := clean is_audio_content is_audio i.

Lemma strip_message_eq bad ph id role content phase meta :
  ∃ kinds, length kinds = length content ∧
    strip_message bad ph (Message id role content phase meta) =
    Message id role
      (ac_content <$> ((λ c, if bad (ac_content c) then ph else c) <$>
                       zip_with Build_AnnotatedContent content kinds)) phase
      (Some (set_kinds (Some (ac_kind <$> ((λ c, if bad (ac_content c) then ph else c) <$>
                       zip_with Build_AnnotatedContent content kinds)))
               (default default_passthrough meta))) ∧
    (∀ m ks, meta = Some m → content_item_kinds m = Some ks → length ks = length content →
     kinds = ks).
Proof.
  set (kinds := take (length content) (default [] (meta ≫= content_item_kinds)
                  ++ replicate (length content) unknown_kind)).
  assert (length kinds = length content) as Hlen
    by (unfold kinds; rewrite length_take, length_app, length_replicate; lia).
  exists kinds. split; [exact Hlen|]. split.
  - unfold strip_message, to_annotated_content. simpl.
    assert (zip_with Build_AnnotatedContent content
              (default [] (meta ≫= content_item_kinds) ++ replicate (length content) unknown_kind)
            = zip_with Build_AnnotatedContent content kinds) as ->.
    { unfold kinds. generalize (default [] (meta ≫= content_item_kinds)
        ++ replicate (length content) unknown_kind). clear.
      induction content as [|c content IH]; intros [|k l]; try done. simpl. by rewrite <- IH. }
    f_equal. f_equal. by destruct meta.
  - intros m ks -> Hks Hl. unfold kinds. simpl. rewrite Hks. simpl.
    by rewrite take_app_length'.
Qed.

Lemma zip_contents content kinds :
  length kinds = length content →
  ac_content <$> zip_with Build_AnnotatedContent content kinds = content ∧
  ac_kind <$> zip_with Build_AnnotatedContent content kinds = kinds.
Proof.
  revert kinds; induction content as [|c content IH]; intros [|k kinds] H; try done.
  simpl in H. destruct (IH kinds) as [Hc Hk]; [lia|]. split; simpl; f_equal; done.
Qed.

Lemma strip_payload_body bad text output :
  body (strip_payload bad text output) =
  match body output with
  | OutputText t => OutputText t
  | ContentItems items => ContentItems ((λ i, if bad i then InputText text else i) <$> items)
  end.
Proof. unfold strip_payload. by destruct (body output) eqn:Hb. Qed.

Lemma replace_clean {A} (p q : A → bool) x (l : list A) :
  q x = false → Forall (λ c, q c = false) l →
  Forall (λ c, q c = false) ((λ c, if p c then x else c) <$> l).
Proof.
  intros Hx Hl. rewrite Forall_fmap. eapply Forall_impl; [exact Hl|]. simpl.
  intros c Hc. by destruct (p c).
Qed.

Lemma replace_all {A} (p : A → bool) x (l : list A) :
  p x = false → Forall (λ c, p c = false) ((λ c, if p c then x else c) <$> l).
Proof.
  intros Hx. rewrite Forall_fmap. apply Forall_true. intros c. simpl. by destruct (p c) eqn:Hc.
Qed.

Lemma replace_none {A} (p : A → bool) x (l : list A) :
  Forall (λ c, p c = false) l → (λ c, if p c then x else c) <$> l = l.
Proof. induction 1 as [|c l Hc _ IH]; [done|]. rewrite fmap_cons, IH. by rewrite Hc. Qed.

Lemma Forall_ac (q : ContentItem → bool) (l : list AnnotatedContent) :
  Forall (λ c, q c = false) (ac_content <$> l) ↔ Forall (λ c, q (ac_content c) = false) l.
Proof. by rewrite Forall_fmap. Qed.

(** Stripping cleans, keeps other media clean, and leaves clean items alone. *)
Lemma strip_item_clean bad ph bad_output text i :
  bad (ac_content ph) = false → bad_output (InputText text) = false →
  clean bad bad_output (strip_item bad ph bad_output text i).
Proof.
  intros Hph Htext. destruct i; try done; cbn [strip_item].
  - destruct (strip_message_eq bad ph id role content phase meta) as (kinds & Hlen & -> & _).
    split; [eexists _, _; split_and!; [done|done|by rewrite !length_fmap]|].
    apply Forall_ac, (replace_all (λ c, bad (ac_content c))). done.
  - cbn [clean]. rewrite strip_payload_body. destruct (body output); [done|]. by apply replace_all.
  - cbn [clean]. rewrite strip_payload_body. destruct (body output); [done|]. by apply replace_all.
Qed.

Lemma strip_item_keeps bad ph bad_output text q q_output i :
  q (ac_content ph) = false → q_output (InputText text) = false →
  clean q q_output i → clean q q_output (strip_item bad ph bad_output text i).
Proof.
  intros Hph Htext. destruct i; try done; cbn [strip_item].
  - destruct (strip_message_eq bad ph id role content phase meta) as (kinds & Hlen & -> & _).
    intros [_ Hc]. split; [eexists _, _; split_and!; [done|done|by rewrite !length_fmap]|].
    apply Forall_ac, (replace_clean _ (λ c, q (ac_content c))); [done|].
    apply Forall_ac. by rewrite (proj1 (zip_contents content kinds Hlen)).
  - cbn [clean]. rewrite strip_payload_body. destruct (body output); [done|].
    by apply replace_clean.
  - cbn [clean]. rewrite strip_payload_body. destruct (body output); [done|].
    by apply replace_clean.
Qed.

Lemma strip_payload_id bad text output :
  match body output with
  | ContentItems items => Forall (λ c, bad c = false) items
  | OutputText _ => True
  end → strip_payload bad text output = output.
Proof.
  unfold strip_payload. destruct output as [[t|items] ok]; [done|]. simpl.
  intros H. by rewrite replace_none.
Qed.

Lemma strip_item_id bad ph bad_output text i :
  clean bad bad_output i → strip_item bad ph bad_output text i = i.
Proof.
  destruct i; try done; cbn [strip_item clean].
  - intros [(m & ks & -> & Hks & Hl) Hc].
    destruct (strip_message_eq bad ph id role content phase (Some m))
      as (kinds & Hlen & -> & Hkinds).
    rewrite (Hkinds m ks eq_refl Hks Hl) in *. clear Hkinds kinds.
    destruct (zip_contents content ks Hlen) as [Hzc Hzk].
    rewrite (replace_none (λ c, bad (ac_content c)))
      by (apply Forall_ac; by rewrite Hzc).
    rewrite Hzc, Hzk. simpl. do 2 f_equal. destruct m. simpl in *. by subst.
  - intros H. by rewrite strip_payload_id.
  - intros H. by rewrite strip_payload_id.
Qed.

Lemma strip_image_clean i : clean_images (strip_image_item i).
Proof.
  split; [|by destruct i]. destruct i; try done; by apply strip_item_clean.
Qed.

Lemma strip_audio_clean i : clean_audio (strip_audio_item i).
Proof. by apply strip_item_clean. Qed.

Lemma strip_audio_keeps_images i : clean_images i → clean_images (strip_audio_item i).
Proof.
  intros [Hc Hg]. split; [by apply strip_item_keeps|]. unfold strip_audio_item.
  by destruct i.
Qed.

Lemma strip_image_id i : clean_images i → strip_image_item i = i.
Proof.
  intros [Hc Hg]. destruct i; try done; try (by apply strip_item_id). simpl in *. by subst.
Qed.

Lemma strip_audio_id i : clean_audio i → strip_audio_item i = i.
Proof. apply strip_item_id. Qed.

(** Stripping does not touch what pairs items. *)
Definition same_keys (f : ResponseItem → ResponseItem) : Prop :=
  ∀ e, call_key (update_item f e) = call_key e ∧ output_key (update_item f e) = output_key e ∧
    server_output (update_item f e) = server_output e.

Lemma strip_image_keys : same_keys strip_image_item.
Proof. intros [i meta]. by destruct i. Qed.

Lemma strip_audio_keys : same_keys strip_audio_item.
Proof. intros [i meta]. by destruct i. Qed.

Lemma paired_update f items : same_keys f → paired items → paired (update_item f <$> items).
Proof.
  intros Hf [Hc Ho].
  assert (∀ k, k ∈ calls (update_item f <$> items) ↔ k ∈ calls items) as Hcalls.
  { intros k. rewrite !elem_of_calls. setoid_rewrite list_elem_of_fmap. split.
    - intros (x & (e & -> & He) & Hk). exists e. split; [done|]. by destruct (Hf e) as [<- _].
    - intros (e & He & Hk). exists (update_item f e). split; [by exists e|].
      by destruct (Hf e) as [-> _]. }
  split.
  - intros k Hk. apply Hcalls, Hc, elem_of_outputs in Hk as (e & He & Hk).
    apply elem_of_outputs. exists (update_item f e). rewrite list_elem_of_fmap.
    split; [by exists e|]. by destruct (Hf e) as (_ & -> & _).
  - intros x k (e & -> & He)%list_elem_of_fmap Hk Hs. apply Hcalls.
    destruct (Hf e) as (_ & Hke & Hse). apply (Ho e); congruence.
Qed.

Lemma paired_strip mods items : paired items → paired (strip_media mods items).
Proof.
  intros H. unfold strip_media, strip_audio_when_unsupported, strip_images_when_unsupported.
  do 2 case_bool_decide; eauto using paired_update, strip_image_keys, strip_audio_keys.
Qed.

(** Which media are clean after stripping. *)
Definition media_clean (mods : list InputModality) (e : ResponseItemEnvelope) : Prop :=
  (MImage ∉ mods → clean_images (item e)) ∧ (MAudio ∉ mods → clean_audio (item e)).

Lemma strip_media_clean mods items : Forall (media_clean mods) (strip_media mods items).
Proof.
  unfold strip_media, strip_audio_when_unsupported, strip_images_when_unsupported.
  do 2 case_bool_decide; rewrite ?Forall_fmap; apply Forall_true; intros e; split; try done;
    intros _; simpl; eauto using strip_image_clean, strip_audio_clean, strip_audio_keeps_images.
Qed.

Lemma update_item_id f e : f (item e) = item e → update_item f e = e.
Proof. unfold update_item. destruct e as [i m]. simpl. by intros ->. Qed.

Lemma strip_media_id mods items : Forall (media_clean mods) items → strip_media mods items = items.
Proof.
  intros H. unfold strip_media, strip_audio_when_unsupported, strip_images_when_unsupported.
  assert ((MImage ∉ mods → update_item strip_image_item <$> items = items) ∧
          (MAudio ∉ mods → update_item strip_audio_item <$> items = items)) as [Hi Ha].
  { split; intros Hm; induction H as [|e l [Hi Ha] _ IH]; try done; rewrite fmap_cons, IH; f_equal;
      apply update_item_id; eauto using strip_image_id, strip_audio_id. }
  do 2 case_bool_decide; rewrite ?Hi, ?Ha by done; done.
Qed.

(** Neither a call nor an output with an id: messages and the like, and the
    outputs of external tools, which name the tool instead of a call. *)
Definition stands_alone e : bool := is_none (call_key e) && is_none (output_key e).

Definition alone items : list ResponseItemEnvelope :=
  base.filter (λ e, stands_alone e = true) items.

Lemma alone_update f items : same_keys f → alone (update_item f <$> items) = update_item f <$> alone items.
Proof.
  intros Hf. unfold alone. induction items as [|e items IH]; [done|]. rewrite fmap_cons.
  assert (stands_alone (update_item f e) = stands_alone e) as He
    by (unfold stands_alone; by destruct (Hf e) as (-> & -> & _)).
  rewrite !filter_cons, He, IH. by case_decide.
Qed.

Lemma alone_strip mods items : alone (strip_media mods items) = strip_media mods (alone items).
Proof.
  unfold strip_media, strip_audio_when_unsupported, strip_images_when_unsupported.
  do 2 case_bool_decide; rewrite ?alone_update; auto using strip_image_keys, strip_audio_keys.
Qed.

(** They are all kept, and no other is made up. *)
Lemma alone_reference new_v5 items : alone (reference new_v5 items) = alone items.
Proof.
  assert (∀ all, alone (concat (with_output new_v5 all <$> base.filter (λ e, orphan all e = false) items))
    = alone items) as H; [|apply H].
  intros all. unfold alone. induction items as [|e items IH]; [done|].
  assert (stands_alone e = true → orphan all e = false ∧ unanswered all e = false) as Hkeep.
  { unfold stands_alone, orphan, unanswered. by destruct (call_key e), (output_key e). }
  assert (∀ out, synthetic new_v5 e = Some out → stands_alone out = false) as Hsyn.
  { intros out Ho. destruct (synthetic_keys _ _ _ Ho) as (Hc & Hk & _).
    unfold stands_alone. rewrite Hc, Hk. simpl. unfold call_key. unfold synthetic in Ho.
    by destruct (item e); try done; revert Ho; split_ids. }
  destruct (decide (stands_alone e = true)) as [Ha|Ha].
  - destruct (Hkeep Ha) as [Ho Hu].
    rewrite (filter_cons_True (λ e, stands_alone e = true) e items Ha).
    rewrite (filter_cons_True (λ e, orphan all e = false) e items Ho).
    rewrite fmap_cons, concat_cons. unfold with_output at 1. rewrite Hu. cbn [app].
    rewrite filter_cons_True by done. by rewrite IH.
  - rewrite (filter_cons_False (λ e, stands_alone e = true) e items Ha), <- IH.
    destruct (decide (orphan all e = false)) as [Ho|Ho];
      [|by rewrite (filter_cons_False (λ e, orphan all e = false) e items Ho)].
    rewrite (filter_cons_True (λ e, orphan all e = false) e items Ho).
    rewrite fmap_cons, concat_cons, filter_app. unfold with_output at 1.
    rewrite filter_cons_False by done.
    destruct (unanswered all e); [|done]. destruct (synthetic new_v5 e) as [out|] eqn:Hs; [|done].
    simpl. unfold base.filter, list_filter at 1. rewrite decide_False by (by rewrite (Hsyn out)). done.
Qed.

(** ** Theorems *)

Context {TokenUsageInfo TurnContextItem WorldStateSnapshot : Type}.
Implicit Types (h : @ContextManager J TokenUsageInfo TurnContextItem WorldStateSnapshot).

(** C16: in the prompt every call that has a call id is answered by an output
    with that id, and every output that has a call id, other than the server's,
    answers a call; the items without a call id, among them the outputs that name
    an external tool, stand alone and are all kept, in order.  The prompt is the
    history without orphan outputs, each call without an output followed at once
    by a made-up one, with the media the model does not support replaced.  A
    build with debug assertions panics instead exactly when the history is
    inconsistent. *)
Theorem for_prompt_paired new_v5 debug mods h :
  match for_prompt_annotated new_v5 debug mods h with
  | None => debug = true ∧ inconsistent (cm_items h) = true
  | Some out =>
      debug && inconsistent (cm_items h) = false ∧
      out = strip_media mods (reference new_v5 (cm_items h)) ∧
      paired out ∧ alone out = strip_media mods (alone (cm_items h)) ∧
      Forall (media_clean mods) out
  end.
Proof.
  unfold for_prompt_annotated. rewrite normalize_eq. destruct (debug && _) eqn:Hd.
  - by apply andb_true_iff in Hd.
  - split_and!; [done|done|apply paired_strip, reference_paired| |apply strip_media_clean].
    by rewrite alone_strip, alone_reference.
Qed.

(** Preparing a prompt is idempotent: its items, taken as a history, are
    their own prompt, in every kind of build. *)
Theorem for_prompt_idempotent new_v5 debug debug' mods h out :
  for_prompt_annotated new_v5 debug mods h = Some out →
  for_prompt_annotated new_v5 debug' mods (replace_compacted out h) = Some out.
Proof.
  unfold for_prompt_annotated. rewrite !normalize_eq. destruct (debug && _); [done|].
  intros [= <-]. simpl.
  destruct (paired_fixed new_v5 (strip_media mods (reference new_v5 (cm_items h)))) as [-> ->];
    [apply paired_strip, reference_paired|]. rewrite andb_false_r.
  by rewrite strip_media_id by apply strip_media_clean.
Qed.
End media.

(** ** Removing the oldest item *)

Section removal.
Context {J : JsonTypes}.
Implicit Types (e x : ResponseItemEnvelope) (items : list ResponseItemEnvelope).

(** No two calls, and no two outputs, have the same key. *)
Definition unique_keys items : Prop := NoDup (calls items) ∧ NoDup (outputs items).

(** An item with the key is gone, or there was none. *)
Definition drop_one (g : ResponseItemEnvelope → option key) (k : key) items items' : Prop :=
  (k ∉ omap g items ∧ items' = items) ∨
  (∃ a x b, items = a ++ x :: b ∧ g x = Some k ∧ items' = a ++ b).

Lemma delete_first items p pos :
  position p items = Some pos →
  ∃ a x b, items = a ++ x :: b ∧ p x = true ∧ delete pos items = a ++ b.
Proof.
  intros (x & Hx & Hp & _)%position_Some. exists (take pos items), x, (drop (S pos) items).
  split_and!; [by rewrite take_drop_middle|done|apply delete_take_drop].
Qed.

Lemma remove_first_drop items (f : ResponseItemEnvelope → option str) g kind id :
  (∀ e, f e = Some id ↔ g e = Some (kind, id)) →
  drop_one g (kind, id) items (remove_first_matching items (has_id f id)).
Proof.
  intros Hfg. unfold remove_first_matching. destruct (position _ items) as [pos|] eqn:Hpos.
  - apply delete_first in Hpos as (a & x & b & Hi & Hp & Hd). right. exists a, x, b.
    split_and!; [done| |done]. apply bool_decide_eq_true in Hp. by apply Hfg.
  - left. split; [|done]. rewrite list_elem_of_omap. intros (e & He & Hk).
    rewrite position_None in Hpos. specialize (Hpos e He). apply bool_decide_eq_false in Hpos.
    by apply Hpos, Hfg.
Qed.

(** A function output may answer a function call or a local shell call. *)
Lemma remove_function_call_drop items id :
  drop_one call_key (KFunction, id) items
    match position (has_id plain_function_call_id id) items with
    | Some pos => delete pos items
    | None => remove_first_matching items (has_id local_shell_call_id id)
    end.
Proof.
  assert (∀ e, plain_function_call_id e = Some id ∨ local_shell_call_id e = Some id ↔
               call_key e = Some (KFunction, id)) as Hkey.
  { intros e. unfold plain_function_call_id, local_shell_call_id, call_key.
    destruct (item e); split_ids; naive_solver. }
  unfold remove_first_matching. destruct (position (has_id plain_function_call_id id) items)
    as [pos|] eqn:Hpos; [|destruct (position (has_id local_shell_call_id id) items)
                            as [pos|] eqn:Hpos'].
  - apply delete_first in Hpos as (a & x & b & Hi & Hp & Hd). right. exists a, x, b.
    split_and!; [done| |done]. apply bool_decide_eq_true in Hp. apply Hkey. by left.
  - apply delete_first in Hpos' as (a & x & b & Hi & Hp & Hd). right. exists a, x, b.
    split_and!; [done| |done]. apply bool_decide_eq_true in Hp. apply Hkey. by right.
  - left. split; [|done]. rewrite list_elem_of_omap. intros (e & He & Hk).
    rewrite position_None in Hpos, Hpos'. specialize (Hpos e He). specialize (Hpos' e He).
    apply bool_decide_eq_false in Hpos, Hpos'. apply Hkey in Hk. naive_solver.
Qed.

Lemma remove_corresponding_drop items e :
  match call_key e, output_key e with
  | Some k, _ => drop_one output_key k items (remove_corresponding_for items (item e))
  | None, Some k => drop_one call_key k items (remove_corresponding_for items (item e))
  | None, None => remove_corresponding_for items (item e) = items
  end.
Proof.
  destruct e as [i meta]. destruct i; try done; split_ids; try done; simpl; split_ids; try done.
  all: first [ apply remove_function_call_drop
             | apply remove_first_drop; intros x;
               first [ apply function_output_key | apply tool_search_output_key
                     | apply custom_tool_output_key | apply tool_search_call_key
                     | apply custom_tool_call_key ] ].
Qed.

Lemma calls_app a b : calls (a ++ b) = calls a ++ calls b.
Proof. apply omap_app. Qed.

Lemma outputs_app a b : outputs (a ++ b) = outputs a ++ outputs b.
Proof. apply omap_app. Qed.

Lemma calls_cons e items : calls (e :: items) = option_list (call_key e) ++ calls items.
Proof. unfold calls. cbn. by destruct (call_key e). Qed.

Lemma outputs_cons e items : outputs (e :: items) = option_list (output_key e) ++ outputs items.
Proof. unfold outputs. cbn. by destruct (output_key e). Qed.

Lemma NoDup_middle {A} (k : A) l1 l2 :
  NoDup (l1 ++ k :: l2) → k ∉ l1 ++ l2 ∧ NoDup (l1 ++ l2).
Proof. rewrite <- Permutation_middle. apply NoDup_cons. Qed.

Lemma output_elem e k items : e ∈ items → output_key e = Some k → k ∈ outputs items.
Proof. intros He Hk. apply elem_of_outputs. by exists e. Qed.

(** Removing a call and its output, or an output and its call: what is left is
    paired when the removed key is the only one of its kind. *)
Lemma remove_pair_paired items items' (k : key) :
  paired items → k ∉ calls items' → k ∉ outputs items' →
  (∀ k', k' ≠ k → k' ∈ calls items' ↔ k' ∈ calls items) →
  (∀ k', k' ≠ k → k' ∈ outputs items' ↔ k' ∈ outputs items) →
  (∀ e, e ∈ items' → e ∈ items) → paired items'.
Proof.
  intros [Hc Ho] Kc Ko Hcalls Houts Hsub. split.
  - intros k' Hk'. assert (k' ≠ k) by (by intros ->). apply Houts, Hc, Hcalls; done.
  - intros e k' He Hk Hs. assert (k' ≠ k).
    { intros ->. destruct Ko. by eapply output_elem. }
    apply Hcalls; [done|]. eapply Ho; eauto.
Qed.

(** The call goes with its output. *)
Lemma remove_call_paired e k items items' :
  call_key e = Some k → paired (e :: items) → unique_keys (e :: items) →
  drop_one output_key k items items' → paired items' ∧ unique_keys items'.
Proof.
  intros Hk Hpaired [Uc Uo] Hdrop. pose proof (proj2 (call_synthetic (λ s, s) e k Hk)) as Hok.
  rewrite calls_cons, Hk in Uc. rewrite outputs_cons, Hok in Uo. simpl in Uc, Uo.
  apply NoDup_cons in Uc as [Uk Uc].
  assert (k ∈ outputs items) as Hin.
  { destruct Hpaired as [Hc _]. specialize (Hc k). rewrite calls_cons, outputs_cons, Hk, Hok in Hc.
    apply Hc. by apply list_elem_of_here. }
  destruct Hdrop as [[Hno _]|(a & x & b & -> & Hx & ->)]; [done|].
  pose proof (output_not_call x k Hx) as Hxc.
  rewrite calls_app, calls_cons, Hxc in Uk, Uc. rewrite outputs_app, outputs_cons, Hx in Uo.
  simpl in Uk, Uc, Uo. apply NoDup_middle in Uo as [Uko Uo]. rewrite <- calls_app in Uk, Uc.
  rewrite <- outputs_app in Uko, Uo. split; [|by split].
  eapply (remove_pair_paired _ _ k Hpaired); [done|done| | |set_solver].
  - intros k' Hne. rewrite calls_cons, Hk, !calls_app, calls_cons, Hxc. simpl. set_solver.
  - intros k' Hne. rewrite outputs_cons, Hok, !outputs_app, outputs_cons, Hx. simpl. set_solver.
Qed.

(** The output goes with its call, if that is still there. *)
Lemma remove_output_paired e k items items' :
  output_key e = Some k → paired (e :: items) → unique_keys (e :: items) →
  drop_one call_key k items items' → paired items' ∧ unique_keys items'.
Proof.
  intros Hk Hpaired [Uc Uo] Hdrop. pose proof (output_not_call e k Hk) as Hck.
  rewrite calls_cons, Hck in Uc. rewrite outputs_cons, Hk in Uo. simpl in Uc, Uo.
  apply NoDup_cons in Uo as [Uk Uo].
  destruct Hdrop as [[Hno ->]|(a & x & b & -> & Hx & ->)].
  { split; [|by split]. eapply (remove_pair_paired _ _ k Hpaired); [done|done| | |set_solver].
    - intros k' Hne. by rewrite calls_cons, Hck.
    - intros k' Hne. rewrite outputs_cons, Hk. simpl. set_solver. }
  pose proof (proj2 (call_synthetic (λ s, s) x k Hx)) as Hxo.
  rewrite calls_app, calls_cons, Hx in Uc. rewrite outputs_app, outputs_cons, Hxo in Uk, Uo.
  simpl in Uc, Uk, Uo. apply NoDup_middle in Uc as [Ukc Uc]. rewrite <- calls_app in Ukc, Uc.
  rewrite <- outputs_app in Uk, Uo. split; [|by split].
  eapply (remove_pair_paired _ _ k Hpaired); [done|done| | |set_solver].
  - intros k' Hne. rewrite calls_cons, Hck, !calls_app, calls_cons, Hx. simpl. set_solver.
  - intros k' Hne. rewrite outputs_cons, Hk, !outputs_app, outputs_cons, Hxo. simpl. set_solver.
Qed.

Context {TokenUsageInfo TurnContextItem WorldStateSnapshot : Type}.
Implicit Types (h : @ContextManager J TokenUsageInfo TurnContextItem WorldStateSnapshot).

Lemma remove_first_step h :
  paired (cm_items h) → unique_keys (cm_items h) →
  paired (cm_items (remove_first_item h)) ∧ unique_keys (cm_items (remove_first_item h)).
Proof.
  intros Hp Hu. unfold remove_first_item.
  destruct (cm_items h) as [|e items] eqn:Hi; [by rewrite Hi|].
  cbn [cm_items]. pose proof (remove_corresponding_drop items e) as Hdrop.
  destruct (call_key e) as [k|] eqn:Hk; [by eapply remove_call_paired|].
  destruct (output_key e) as [k|] eqn:Ho; [by eapply remove_output_paired|].
  rewrite Hdrop. destruct Hp as [Hc Ho'], Hu as [Uc Uo].
  rewrite calls_cons, Hk in Hc, Ho', Uc. rewrite outputs_cons, Ho in Hc, Uo.
  simpl in Hc, Ho', Uc, Uo. split; [|done]. split; [done|]. intros x k Hx. apply Ho'. set_solver.
Qed.

(** When the history has to shrink, removing the oldest item together with
    its counterpart keeps it paired, and keys stay unique, so that any number of
    removals does. *)
Theorem remove_first_item_paired h n :
  paired (cm_items h) → unique_keys (cm_items h) →
  paired (cm_items (Nat.iter n remove_first_item h)) ∧
  unique_keys (cm_items (Nat.iter n remove_first_item h)).
Proof.
  intros Hp Hu. induction n as [|n [IHp IHu]]; [done|]. by apply remove_first_step.
Qed.
End removal.

(** ** Instances *)

Section demo.
#[local] Instance demo_json : JsonTypes := {| Value := unit; Number := unit |}.

Definition demo_call : ResponseItemEnvelope :=
  new_envelope (FunctionCall (Some (lit "fc_1")) (lit "shell") None (lit "{}") None (lit "c1") None).
Definition demo_output : ResponseItemEnvelope :=
  new_envelope (FunctionCallOutput None (Some (lit "c1")) None None (from_text (lit "ok")) None).
Definition demo_custom : ResponseItemEnvelope :=
  new_envelope (CustomToolCall None None (lit "c2") (lit "apply_patch") None (lit "p") None).
Definition demo_orphan : ResponseItemEnvelope :=
  new_envelope (CustomToolCallOutput None (lit "c3") None (from_text (lit "x")) None).

Definition demo_history : @ContextManager demo_json unit unit unit :=
  {| cm_items := [demo_call; demo_custom; demo_orphan]; history_version := 0;
     user_message_revision := 0; token_info := None; reference_context_item := None;
     world_state_baseline := None |}.

Definition demo_prompt : list ResponseItemEnvelope :=
  [demo_call; aborted_function_output (λ s, s) (Some (lit "fc_1")) (lit "c1");
   demo_custom; aborted_custom_output (λ s, s) None (lit "c2")].

(** Unanswered calls are answered, the orphan is dropped; a debug build panics. *)
Example demo_for_prompt :
  for_prompt_annotated (λ s, s) false [MText; MImage; MAudio] demo_history = Some demo_prompt ∧
  for_prompt_annotated (λ s, s) true [MText; MImage; MAudio] demo_history = None.
Proof. by vm_compute. Qed.

(** Witness of idempotence: the prompt above, in a debug build. *)
Lemma for_prompt_idempotent_witness :
  for_prompt_annotated (λ s, s) true [MText; MImage; MAudio]
    (replace_compacted demo_prompt demo_history) = Some demo_prompt.
Proof. apply (for_prompt_idempotent (λ s, s) false). by vm_compute. Defined.

Definition demo_paired : @ContextManager demo_json unit unit unit :=
  replace_compacted [demo_call; demo_custom; demo_output;
    aborted_custom_output (λ s, s) None (lit "c2")] demo_history.

(** Witness: removing the call takes its output away and leaves the other pair. *)
Lemma remove_first_item_paired_witness :
  cm_items (remove_first_item demo_paired)
  = [demo_custom; aborted_custom_output (λ s, s) None (lit "c2")] ∧
  paired (cm_items (remove_first_item demo_paired)).
Proof.
  split; [by vm_compute|].
  destruct (remove_first_item_paired demo_paired 1) as [Hp _]; [|split|exact Hp].
  - assert (reference (λ s, s) (cm_items demo_paired) = cm_items demo_paired) as H
      by (vm_compute; reflexivity).
    rewrite <- H. apply reference_paired.
  - apply (bool_decide_eq_true_1 (NoDup (calls (cm_items demo_paired)))). vm_compute. reflexivity.
  - apply (bool_decide_eq_true_1 (NoDup (outputs (cm_items demo_paired)))). vm_compute. reflexivity.
Defined.
End demo.
