(* ===== verification/NetAddr.v ===== *)
(** * Internet addresses

    What the network proxy uses of [std::net]: addresses, their parser and the
    classes of addresses; and [is_non_public_ip] of
    [codex-rs/network-proxy/src/policy.rs], which is proved to be a union of
    address ranges.  An IPv4 address is a 32-bit, an IPv6 address a 128-bit
    number. *)

From S2P Require Import Prelude RustStr.

#[local] Open Scope N_scope.

Inductive IpAddr := V4 (ip : N) | V6 (ip : N).

#[global] Instance IpAddr_eq_dec : EqDecision IpAddr.
Proof. solve_decision. Defined.

Definition u32_max : N := 4294967295.

Definition ipv4 (a b c d : N) : N := a * 16777216 + b * 65536 + c * 256 + d.

Definition octet (i : N) (ip : N) : N := (ip / 2 ^ (8 * (3 - i))) mod 256.
Definition segment (i : N) (ip : N) : N := (ip / 2 ^ (16 * (7 - i))) mod 65536.

(** ** The classes of [Ipv4Addr] and [Ipv6Addr] *)

Definition v4_is_loopback (ip : N) : bool := octet 0 ip =? 127.
Definition v4_is_private (ip : N) : bool :=
  (octet 0 ip =? 10)
  || (octet 0 ip =? 172) && (16 <=? octet 1 ip) && (octet 1 ip <=? 31)
  || (octet 0 ip =? 192) && (octet 1 ip =? 168).
Definition v4_is_link_local (ip : N) : bool := (octet 0 ip =? 169) && (octet 1 ip =? 254).
Definition v4_is_unspecified (ip : N) : bool := ip =? 0.
Definition v4_is_multicast (ip : N) : bool := (224 <=? octet 0 ip) && (octet 0 ip <=? 239).
Definition v4_is_broadcast (ip : N) : bool := ip =? u32_max.

Definition v6_is_loopback (ip : N) : bool := ip =? 1.
Definition v6_is_unspecified (ip : N) : bool := ip =? 0.
Definition v6_is_multicast (ip : N) : bool := segment 0 ip / 256 =? 255.
Definition v6_is_unique_local (ip : N) : bool := N.land (segment 0 ip) 65024 =? 64512.
Definition v6_is_unicast_link_local (ip : N) : bool := N.land (segment 0 ip) 65472 =? 65152.

(** [Ipv6Addr::to_ipv4]: compatible ([::a.b.c.d]) and mapped ([::ffff:a.b.c.d]). *)
Definition to_ipv4 (ip : N) : option N :=
  if (ip / 2 ^ 32 =? 0) || (ip / 2 ^ 32 =? 65535) then Some (ip mod 2 ^ 32) else None.

Definition is_loopback (ip : IpAddr) : bool :=
  match ip with V4 ip => v4_is_loopback ip | V6 ip => v6_is_loopback ip end.

(** ** [is_non_public_ip] *)

Definition ipv4_in_cidr (ip base prefix : N) : bool :=
  let mask := if prefix =? 0 then 0 else N.land (N.shiftl u32_max (32 - prefix)) u32_max in
  N.land ip mask =? N.land base mask.

Definition is_non_public_ipv4 (ip : N) : bool :=
  v4_is_loopback ip || v4_is_private ip || v4_is_link_local ip || v4_is_unspecified ip
  || v4_is_multicast ip || v4_is_broadcast ip
  || ipv4_in_cidr ip (ipv4 0 0 0 0) 8
  || ipv4_in_cidr ip (ipv4 100 64 0 0) 10
  || ipv4_in_cidr ip (ipv4 192 0 0 0) 24
  || ipv4_in_cidr ip (ipv4 192 0 2 0) 24
  || ipv4_in_cidr ip (ipv4 198 18 0 0) 15
  || ipv4_in_cidr ip (ipv4 198 51 100 0) 24
  || ipv4_in_cidr ip (ipv4 203 0 113 0) 24
  || ipv4_in_cidr ip (ipv4 240 0 0 0) 4.

Definition is_non_public_ipv6 (ip : N) : bool :=
  match to_ipv4 ip with
  | Some v4 => is_non_public_ipv4 v4 || v6_is_loopback ip
  | None =>
      v6_is_loopback ip || v6_is_unspecified ip || v6_is_multicast ip || v6_is_unique_local ip
      || v6_is_unicast_link_local ip
  end.

Definition is_non_public_ip (ip : IpAddr) : bool :=
  match ip with V4 ip => is_non_public_ipv4 ip | V6 ip => is_non_public_ipv6 ip end.

(** ** Display of an address *)

Definition fmt_v4 (a : N) : str :=
  join (lit ".") (fmt_N <$> [octet 0 a; octet 1 a; octet 2 a; octet 3 a]).

Definition hex_digit (d : N) : char := if d <? 10 then 48 + d else 87 + d.

(** [{:x}] of a segment. *)
Definition fmt_hex (n : N) : str :=
  let ds := [n / 4096; n / 256 mod 16; n / 16 mod 16] in
  (hex_digit <$> trim_start_matches (λ d, d =? 0) ds) ++ [hex_digit (n mod 16)].

Definition segments (a : N) : list N := (λ i, segment i a) <$> [0; 1; 2; 3; 4; 5; 6; 7].

(** The longest run of zeros, the first of equal ones: its start and length. *)
Fixpoint longest_zeros (i start len best_start best_len : nat) (l : list N) : nat * nat :=
  match l with
  | [] => (best_start, best_len)
  | x :: l =>
      if x =? 0 then
        let start := if (len =? 0)%nat then i else start in
        let len := S len in
        if (best_len <? len)%nat then longest_zeros (S i) start len start len l
        else longest_zeros (S i) start len best_start best_len l
      else longest_zeros (S i) 0 0 best_start best_len l
  end.

Definition to_ipv4_mapped (a : N) : option N :=
  if a / 2 ^ 32 =? 65535 then Some (a mod 2 ^ 32) else None.

Definition fmt_v6 (a : N) : str :=
  match to_ipv4_mapped a with
  | Some v4 => lit "::ffff:" ++ fmt_v4 v4
  | None =>
      let segs := segments a in
      let '(start, len) := longest_zeros 0 0 0 0 0 segs in
      let show l := join (lit ":") (fmt_hex <$> l) in
      if (1 <? len)%nat
      then show (take start segs) ++ lit "::" ++ show (drop (start + len) segs)
      else show segs
  end.

Definition fmt_ip (ip : IpAddr) : str := match ip with V4 a => fmt_v4 a | V6 a => fmt_v6 a end.

(** ** Parsing: [str::parse::<IpAddr>] *)

Definition to_digit (radix : N) (c : char) : option N :=
  let d :=
    if is_ascii_digit c then Some (c - 48)
    else if (97 <=? c) && (c <=? 122) then Some (c - 87)
    else if (65 <=? c) && (c <=? 90) then Some (c - 55) else None in
  n ← d; if n <? radix then Some n else None.

Fixpoint read_digits (radix : N) (acc : N) (s : str) : N * nat * str :=
  match s with
  | [] => (acc, 0%nat, [])
  | c :: s' =>
      match to_digit radix c with
      | Some d => let '(n, k, rest) := read_digits radix (acc * radix + d) s' in (n, S k, rest)
      | None => (acc, 0%nat, s)
      end
  end.

(** [limit] is the largest value of the integer type. *)
Definition read_number (radix limit : N) (max_digits : nat) (allow_zero_prefix : bool) (s : str)
  : option (N * str) :=
  let '(n, k, rest) := read_digits radix 0 s in
  if (max_digits <? k)%nat || (k =? 0)%nat then None
  else if negb allow_zero_prefix && starts_with s (lit "0") && (1 <? k)%nat then None
  else if n <=? limit then Some (n, rest) else None.

Definition read_given_char (c : char) (s : str) : option str :=
  match s with d :: s' => if c =? d then Some s' else None | [] => None end.

(** The separator comes before every element but the first. *)
Definition read_separator {A} (sep : char) (index : nat) (read : str → option (A * str)) (s : str)
  : option (A * str) :=
  s ← (if (0 <? index)%nat then read_given_char sep s else Some s); read s.

Definition read_ipv4_addr (s : str) : option (N * str) :=
  let group i s := read_separator 46 i (read_number 10 255 3 false) s in
  '(a, s) ← group 0%nat s; '(b, s) ← group 1%nat s; '(c, s) ← group 2%nat s; '(d, s) ← group 3%nat s;
  Some (ipv4 a b c d, s).

(** Up to [limit] 16-bit groups, the [i]-th first; the flag tells that an IPv4
    address ended them. *)
Fixpoint read_groups (limit i : nat) (fuel : nat) (s : str) : list N * bool * str :=
  match fuel with
  | O => ([], false, s)
  | S fuel =>
      let v4 := if (i <? limit - 1)%nat then read_separator 58 i read_ipv4_addr s else None in
      match v4 with
      | Some (a, s) => ([a / 65536; a mod 65536], true, s)
      | None =>
          match read_separator 58 i (read_number 16 65535 4 true) s with
          | Some (g, s) =>
              let '(gs, v4, s) := read_groups limit (S i) fuel s in (g :: gs, v4, s)
          | None => ([], false, s)
          end
      end
  end.

Definition from_segments (gs : list N) : N := foldl (λ acc g, acc * 65536 + g) 0 gs.

Definition read_ipv6_addr (s : str) : option (N * str) :=
  let '(head, head_ipv4, s) := read_groups 8 0 8 s in
  if (length head =? 8)%nat then Some (from_segments head, s)
  else if head_ipv4 then None
  else
    s ← read_given_char 58 s; s ← read_given_char 58 s;
    let limit := (8 - (length head + 1))%nat in
    let '(tail, _, s) := read_groups limit 0 limit s in
    Some (from_segments (head ++ replicate (8 - length head - length tail) 0 ++ tail), s).

Definition parse_ip (s : str) : option IpAddr :=
  let whole (r : option (N * str)) := '(a, rest) ← r; if is_empty rest then Some a else None in
  match read_ipv4_addr s with
  | Some (a, rest) => if is_empty rest then Some (V4 a) else None
  | None => V6 <$> whole (read_ipv6_addr s)
  end.

Example parse_ip_examples :
  parse_ip (lit "127.0.0.1") = Some (V4 (ipv4 127 0 0 1)) ∧
  parse_ip (lit "::1") = Some (V6 1) ∧ parse_ip (lit "01.2.3.4") = None ∧
  parse_ip (lit "::ffff:10.0.0.1") = Some (V6 (65535 * 2 ^ 32 + ipv4 10 0 0 1)) ∧
  parse_ip (lit "fe80::1%eth0") = None ∧ parse_ip (lit "1.2.3") = None ∧
  parse_ip (lit "1:2:3:4:5:6:7:8:9") = None ∧ parse_ip (lit "2001:db8::1") =
    Some (V6 (8193 * 2 ^ 112 + 3512 * 2 ^ 96 + 1)).
Proof. vm_compute. done. Qed.

(** ** Masks are ranges *)

#[local] Ltac Zify.zify_post_hook ::= Z.to_euclidean_division_equations.

(** A mask of high ones clears the low [k] bits. *)
Lemma land_high_mask x k m :
  x < 2 ^ (k + m) → N.land x (N.shiftl (N.ones m) k) = x / 2 ^ k * 2 ^ k.
Proof.
  intros Hx. apply N.bits_inj. intros i. rewrite N.land_spec.
  destruct (N.lt_ge_cases i k) as [Hi|Hi].
  - rewrite N.shiftl_spec_low by done. rewrite andb_false_r.
    by rewrite N.mul_pow2_bits_low.
  - rewrite N.shiftl_spec_high' by done. rewrite N.mul_pow2_bits_high by done.
    rewrite N.div_pow2_bits. replace (i - k + k) with i by lia.
    destruct (N.lt_ge_cases (i - k) m) as [Hm|Hm].
    + rewrite N.ones_spec_low by done. by rewrite andb_true_r.
    + rewrite N.ones_spec_high by done. rewrite andb_false_r. symmetry.
      destruct (N.eq_dec x 0) as [->|Hnz]; [apply N.bits_0|].
      apply N.bits_above_log2. apply (N.log2_lt_pow2 x); [lia|].
      eapply N.lt_le_trans; [exact Hx|]. apply N.pow_le_mono_r; lia.
Qed.

(** An address is in a block exactly when it is in the block's range. *)
Lemma ipv4_in_cidr_range ip base k m :
  k + m = 32 → 0 < m → ip < 2 ^ 32 → base < 2 ^ 32 →
  ipv4_in_cidr ip base m = (base / 2 ^ k * 2 ^ k <=? ip) && (ip <? base / 2 ^ k * 2 ^ k + 2 ^ k).
Proof.
  intros Hkm Hm Hip Hbase. unfold ipv4_in_cidr.
  rewrite (proj2 (N.eqb_neq m 0)) by lia.
  assert (N.land (N.shiftl u32_max (32 - m)) u32_max = N.shiftl (N.ones m) k) as ->.
  { replace (32 - m) with k by lia. change u32_max with (N.ones 32).
    apply N.bits_inj. intros i. rewrite N.land_spec.
    destruct (N.lt_ge_cases i k) as [Hi|Hi]; [by rewrite !N.shiftl_spec_low|].
    rewrite !N.shiftl_spec_high' by done. destruct (N.lt_ge_cases (i - k) m) as [Hj|Hj].
    - rewrite !N.ones_spec_low by lia. done.
    - rewrite (N.ones_spec_high m), (N.ones_spec_high 32 i) by lia. apply andb_false_r. }
  rewrite !land_high_mask by (rewrite Hkm; done).
  assert (0 < 2 ^ k) as Hk by (apply N.neq_0_lt_0, N.pow_nonzero; done).
  pose proof (N.div_mod ip (2 ^ k) ltac:(lia)) as Hd.
  pose proof (N.mod_lt ip (2 ^ k) ltac:(lia)) as Hlt.
  set (p := 2 ^ k) in *. set (q := ip / p) in *. set (b := base / p) in *. clearbody p q b.
  apply eq_true_iff_eq. rewrite N.eqb_eq, andb_true_iff, N.leb_le, N.ltb_lt. split; [nia|].
  intros [H1 H2]. assert (q = b); [|by subst]. nia.
Qed.

Definition in_range (lo hi ip : N) : bool := (lo <=? ip) && (ip <=? hi).

(** The blocks that are not public, as ranges of addresses. *)
Definition non_public_ranges : list (N * N) :=
  [(ipv4 0 0 0 0, ipv4 0 255 255 255); (ipv4 10 0 0 0, ipv4 10 255 255 255);
   (ipv4 100 64 0 0, ipv4 100 127 255 255); (ipv4 127 0 0 0, ipv4 127 255 255 255);
   (ipv4 169 254 0 0, ipv4 169 254 255 255); (ipv4 172 16 0 0, ipv4 172 31 255 255);
   (ipv4 192 0 0 0, ipv4 192 0 0 255); (ipv4 192 0 2 0, ipv4 192 0 2 255);
   (ipv4 192 168 0 0, ipv4 192 168 255 255); (ipv4 198 18 0 0, ipv4 198 19 255 255);
   (ipv4 198 51 100 0, ipv4 198 51 100 255); (ipv4 203 0 113 0, ipv4 203 0 113 255);
   (ipv4 224 0 0 0, ipv4 255 255 255 255)].

(** A block given by its first address and its size. *)
Lemma ipv4_in_block ip lo m size :
  ip < 2 ^ 32 → m <= 32 → 0 < m → lo < 2 ^ 32 → size = 2 ^ (32 - m) → lo mod size = 0 →
  ipv4_in_cidr ip lo m = (lo <=? ip) && (ip <? lo + size).
Proof.
  intros Hip Hm32 Hm Hlo -> Hmod. rewrite (ipv4_in_cidr_range ip lo (32 - m) m) by (done || lia).
  assert (2 ^ (32 - m) ≠ 0) as Hnz by (apply N.pow_nonzero; done).
  pose proof (N.div_mod lo (2 ^ (32 - m)) Hnz) as Hd. rewrite Hmod, N.add_0_r, N.mul_comm in Hd.
  by rewrite <- Hd.
Qed.

(** The classification of an address is membership in the ranges. *)
Lemma non_public_ipv4_ranges ip :
  ip < 2 ^ 32 →
  is_non_public_ipv4 ip = existsb (λ r, in_range r.1 r.2 ip) non_public_ranges.
Proof.
  intros Hip. unfold is_non_public_ipv4.
  rewrite (ipv4_in_block ip (ipv4 0 0 0 0) 8 16777216), (ipv4_in_block ip (ipv4 100 64 0 0) 10 4194304),
    (ipv4_in_block ip (ipv4 192 0 0 0) 24 256), (ipv4_in_block ip (ipv4 192 0 2 0) 24 256),
    (ipv4_in_block ip (ipv4 198 18 0 0) 15 131072), (ipv4_in_block ip (ipv4 198 51 100 0) 24 256),
    (ipv4_in_block ip (ipv4 203 0 113 0) 24 256), (ipv4_in_block ip (ipv4 240 0 0 0) 4 268435456)
    by (done || by vm_compute).
  unfold v4_is_loopback, v4_is_private, v4_is_link_local, v4_is_unspecified, v4_is_multicast,
    v4_is_broadcast, octet, u32_max.
  change (2 ^ (8 * (3 - 0))) with 16777216. change (2 ^ (8 * (3 - 1))) with 65536.
  change (2 ^ 32) with 4294967296 in Hip.
  unfold non_public_ranges, in_range, ipv4. cbn [existsb fst snd].
  pose proof (N.div_mod ip 16777216 ltac:(done)) as Hd.
  pose proof (N.mod_lt ip 16777216 ltac:(done)) as Hl.
  set (a := ip / 16777216) in *. set (r := ip mod 16777216) in *. clearbody a r.
  rewrite (N.mod_small a 256) by lia.
  assert (ip / 65536 = a * 256 + r / 65536) as -> by (subst; lia).
  assert (r / 65536 < 256) as Hb by lia.
  rewrite (N.Div0.add_mod (a * 256)) , N.Div0.mod_mul, N.add_0_l, N.Div0.mod_mod, (N.mod_small _ _ Hb).
  pose proof (N.div_mod r 65536 ltac:(done)) as Hd'.
  pose proof (N.mod_lt r 65536 ltac:(done)) as Hl'.
  set (b := r / 65536) in *. set (t := r mod 65536) in *. clearbody b t.
  apply eq_true_iff_eq.
  rewrite ?orb_true_iff, ?andb_true_iff, ?N.leb_le, ?N.ltb_lt, ?N.eqb_eq. lia.
Qed.

(** IPv6 blocks, by their first 16 bits. *)
Definition v6_range (lo hi ip : N) : bool := in_range (lo * 2 ^ 112) ((hi + 1) * 2 ^ 112 - 1) ip.

Definition ip_wf (ip : IpAddr) : Prop := match ip with V4 a => a < 2 ^ 32 | V6 a => a < 2 ^ 128 end.

Lemma segment0 ip : ip < 2 ^ 128 → segment 0 ip = ip / 2 ^ 112 ∧ ip / 2 ^ 112 < 65536.
Proof.
  intros H. unfold segment. change (16 * (7 - 0)) with 112.
  assert (ip / 2 ^ 112 < 65536) as Hlt.
  { apply N.Div0.div_lt_upper_bound. by change (2 ^ 112 * 65536) with (2 ^ 128). }
  split; [by apply N.mod_small|done].
Qed.

(** The first bits of an address put it in a range. *)
Lemma v6_range_spec ip lo hi :
  v6_range lo hi ip = (lo <=? ip / 2 ^ 112) && (ip / 2 ^ 112 <=? hi).
Proof.
  unfold v6_range, in_range.
  assert (2 ^ 112 ≠ 0) as Hnz by done. set (p := 2 ^ 112) in *. clearbody p.
  pose proof (N.div_mod ip p Hnz). pose proof (N.mod_lt ip p Hnz).
  set (q := ip / p) in *. clearbody q.
  apply eq_true_iff_eq. rewrite !andb_true_iff, !N.leb_le. nia.
Qed.

Lemma land_prefix seg k m v :
  k + m = 16 → seg < 65536 →
  (N.land seg (N.shiftl (N.ones m) k) =? v * 2 ^ k) = (seg / 2 ^ k =? v).
Proof.
  intros Hkm Hs. rewrite land_high_mask by (by rewrite Hkm).
  assert (0 < 2 ^ k) as Hk by (apply N.neq_0_lt_0, N.pow_nonzero; done).
  apply eq_true_iff_eq. rewrite !N.eqb_eq. nia.
Qed.

(** The classification that guards against requests into local networks is
    exactly membership in the blocks its comments name: an IPv4 address in one of
    thirteen ranges; an IPv6 address that embeds an IPv4 address by that
    address; any other IPv6 address when it is unique-local, link-local or
    multicast. *)
Theorem non_public_ip_spec ip :
  ip_wf ip →
  is_non_public_ip ip =
  match ip with
  | V4 a => existsb (λ r, in_range r.1 r.2 a) non_public_ranges
  | V6 a =>
      match to_ipv4 a with
      | Some v4 => existsb (λ r, in_range r.1 r.2 v4) non_public_ranges
      | None => v6_range 64512 65023 a || v6_range 65152 65215 a || v6_range 65280 65535 a
      end
  end.
Proof.
  destruct ip as [a|a]; intros Hwf; [by apply non_public_ipv4_ranges|].
  cbn [is_non_public_ip]. unfold is_non_public_ipv6. destruct (to_ipv4 a) as [v4|] eqn:Hv4.
  - unfold to_ipv4 in Hv4. destruct (_ || _) eqn:He; [|done]. injection Hv4 as <-.
    rewrite non_public_ipv4_ranges by (apply N.mod_lt; done).
    destruct (v6_is_loopback a) eqn:Hl; [|apply orb_false_r].
    apply N.eqb_eq in Hl as ->. by vm_compute.
  - assert (1 < a) as Hbig.
    { unfold to_ipv4 in Hv4. destruct (N.lt_ge_cases 1 a) as [|Hle]; [done|].
      assert (a / 2 ^ 32 = 0) as Hz; [|by rewrite Hz in Hv4].
      apply N.div_small. change (2 ^ 32) with 4294967296. lia. }
    unfold v6_is_loopback, v6_is_unspecified, v6_is_multicast, v6_is_unique_local,
      v6_is_unicast_link_local.
    rewrite (proj2 (N.eqb_neq a 1)), (proj2 (N.eqb_neq a 0)) by lia.
    destruct (segment0 a Hwf) as [-> Hseg]. rewrite !v6_range_spec.
    set (seg := a / 2 ^ 112) in *. clearbody seg.
    change 65024 with (N.shiftl (N.ones 7) 9). change 64512 with (126 * 2 ^ 9) at 1.
    change 65472 with (N.shiftl (N.ones 10) 6). change 65152 with (1018 * 2 ^ 6) at 1.
    rewrite !land_prefix by done. change (2 ^ 9) with 512. change (2 ^ 6) with 64.
    apply eq_true_iff_eq.
    rewrite ?orb_true_iff, ?andb_true_iff, ?N.leb_le, ?N.ltb_lt, ?N.eqb_eq.
    clear -Hseg. lia.
Qed.

(** Witness: an address of a private network, and the same one mapped to IPv6. *)
Lemma non_public_ip_spec_witness :
  is_non_public_ip (V4 (ipv4 192 168 1 1)) = true ∧
  is_non_public_ip (V6 (65535 * 2 ^ 32 + ipv4 192 168 1 1)) = true.
Proof.
  split; rewrite non_public_ip_spec by (by vm_compute); by vm_compute.
Defined.

(** Addresses that are not globally routable and are still classified as public:
    documentation (2001:db8::/32), the discard prefix (100::/64) and a loopback
    address behind the NAT64 prefix (64:ff9b::7f00:1). *)
Example not_routable_but_public :
  (∃ a, parse_ip (lit "2001:db8::1") = Some a ∧ is_non_public_ip a = false) ∧
  (∃ a, parse_ip (lit "100::1") = Some a ∧ is_non_public_ip a = false) ∧
  (∃ a, parse_ip (lit "64:ff9b::7f00:1") = Some a ∧ is_non_public_ip a = false).
Proof. split_and!; eexists; split; (vm_compute; reflexivity). Qed.
