(* ===== verification/NetHost.v ===== *)
(** * Hosts and domain patterns of the network proxy

    [codex-rs/network-proxy/src/policy.rs] and the domain permissions of
    [config.rs]: normalising hosts, patterns with wildcard prefixes, compiling
    them to globs and comparing them with managed patterns.  The [globset] and
    [url] crates are parameters. *)

From S2P Require Import Prelude RustStr NetAddr.

(** [str::split_once] with a string. *)
Definition split_once_str (needle s : str) : option (str * str) :=
  i ← find_str needle s; Some (take i s, drop (i + length needle) s).

Definition dot : char := 46%N.
Definition colon : char := 58%N.

(** ** Hosts *)

Definition unscoped_ip_literal (host : str) : option str :=
  '(ip, _) ← split_once 37 host; _ ← parse_ip ip; Some ip.

Definition normalize_ip_literal (host : str) : option str :=
  match parse_ip host with
  | Some _ => Some host
  | None =>
      let scoped delimiter :=
        '(ip, scope) ← split_once_str delimiter host;
        _ ← parse_ip ip; Some (ip ++ lit "%" ++ scope) in
      match scoped (lit "%25") with Some h => Some h | None => scoped (lit "%") end
  end.

Definition normalize_dns_host_or_ip_literal (host : str) : str :=
  let host := trim_end_matches (λ c, (c =? dot)%N) (to_ascii_lowercase host) in
  default host (normalize_ip_literal host).

(** [host.find(']')] on a host that starts with a bracket. *)
Definition bracketed (host : str) : option str :=
  match host with
  | 91%N :: rest => fst <$> split_once 93 rest
  | _ => None
  end.

Definition count_char (c : char) (s : str) : nat := length (base.filter (λ x, x = c) s).

Definition normalize_host (host : str) : str :=
  let host := trim host in
  match bracketed host with
  | Some inner => normalize_dns_host_or_ip_literal inner
  | None =>
      if count_char colon host =? 1
      then normalize_dns_host_or_ip_literal (default [] (head (split_on colon host)))
      else normalize_dns_host_or_ip_literal host
  end.

(** [Host::parse]. *)
Definition host_parse (input : str) : result str str :=
  let normalized := normalize_host input in
  if is_empty normalized then Err (lit "host is empty") else Ok normalized.

Definition is_loopback_host (host : str) : bool :=
  let host := default host (unscoped_ip_literal host) in
  bool_decide (host = lit "localhost") || is_some_and (parse_ip host) is_loopback.

(** ** Domain patterns *)

Inductive DomainPattern :=
| ApexAndSubdomains (domain : str)
| SubdomainsOnly (domain : str)
| Exact (domain : str).

Definition apex_prefix : str := lit "**.".
Definition sub_prefix : str := lit "*.".

Definition parse_domain (domain : str) (build : str → DomainPattern) : DomainPattern :=
  let domain := trim domain in if is_empty domain then Exact [] else build domain.

(** [DomainPattern::parse]. *)
Definition pattern_parse (input : str) : DomainPattern :=
  let input := trim input in
  if is_empty input then Exact []
  else
    match strip_prefix apex_prefix input with
    | Some domain => parse_domain domain ApexAndSubdomains
    | None =>
        match strip_prefix sub_prefix input with
        | Some domain => parse_domain domain SubdomainsOnly
        | None => Exact input
        end
    end.

Definition normalize_pattern (pattern : str) : str :=
  let pattern := trim pattern in
  if bool_decide (pattern = lit "*") then lit "*"
  else
    let '(prefix, remainder) :=
      match strip_prefix apex_prefix pattern with
      | Some domain => (apex_prefix, domain)
      | None =>
          match strip_prefix sub_prefix pattern with
          | Some domain => (sub_prefix, domain)
          | None => ([], pattern)
          end
      end in
    prefix ++ normalize_host remainder.

(** The glob for any subdomain of a domain. *)
Definition sub_glob (domain : str) : str := lit "?*." ++ domain.

Definition expand_domain_pattern (pattern : str) : list str :=
  match pattern_parse pattern with
  | Exact domain => [domain]
  | SubdomainsOnly domain => [sub_glob domain]
  | ApexAndSubdomains domain => [domain; sub_glob domain]
  end.

Definition is_global_wildcard_domain_pattern (pattern : str) : bool :=
  existsb (λ candidate, bool_decide (candidate = lit "*"))
    (expand_domain_pattern (normalize_pattern pattern)).

Definition normalize_domain (domain : str) : str :=
  to_ascii_lowercase (trim_end_matches (λ c, (c =? dot)%N) domain).

Definition domain_eq (l r : str) : bool := bool_decide (normalize_domain l = normalize_domain r).

Definition is_subdomain_or_equal (child parent : str) : bool :=
  let child := normalize_domain child in
  let parent := normalize_domain parent in
  bool_decide (child = parent) || ends_with child (dot :: parent).

Definition is_strict_subdomain (child parent : str) : bool :=
  let child := normalize_domain child in
  let parent := normalize_domain parent in
  negb (bool_decide (child = parent)) && ends_with child (dot :: parent).

(** [DomainPattern::allows]. *)
Definition allows (p candidate : DomainPattern) : bool :=
  match p with
  | Exact domain =>
      match candidate with Exact candidate => domain_eq candidate domain | _ => false end
  | SubdomainsOnly domain =>
      match candidate with
      | Exact candidate => is_strict_subdomain candidate domain
      | SubdomainsOnly candidate => is_subdomain_or_equal candidate domain
      | ApexAndSubdomains candidate => is_strict_subdomain candidate domain
      end
  | ApexAndSubdomains domain =>
      match candidate with
      | Exact candidate | SubdomainsOnly candidate | ApexAndSubdomains candidate =>
          is_subdomain_or_equal candidate domain
      end
  end.

(** ** The crates the proxy relies on *)

(** [globset]: whether a pattern compiles, and what a compiled pattern matches
    when case is ignored.  [url::Host::parse], displayed. *)
Class GlobUrl := {
  glob_valid : str → bool;
  glob_match : str → str → bool;
  url_host_parse : str → option str;
}.

(** Characters with a meaning in a glob. *)
Definition glob_meta : list char := lit "?*[]{}\".

Definition plain (s : str) : Prop := Forall (λ c, c ∉ glob_meta) s.

(** The documented behaviour of globs on the patterns the proxy builds from
    plain domains. *)
Class GlobLaws `{GlobUrl} : Prop := {
  glob_plain d h : plain d → glob_valid d = true ∧
    (glob_match d h = true ↔ to_ascii_lowercase h = to_ascii_lowercase d);
  glob_sub d h : plain d → glob_valid (sub_glob d) = true ∧
    (glob_match (sub_glob d) h = true ↔
     ∃ x, x ≠ [] ∧ to_ascii_lowercase h = x ++ dot :: to_ascii_lowercase d);
  glob_star h : glob_valid (lit "*") = true ∧ glob_match (lit "*") h = true;
}.

Section globs.
Context `{GlobUrl}.

(** A [GlobSet] is the list of its patterns. *)
Definition GlobSet : Type := list str.
Definition glob_set_match (set : GlobSet) (host : str) : bool := existsb (λ p, glob_match p host) set.

Definition parse_domain_for_constraints (domain : str) : str :=
  let domain := trim_end_matches (λ c, (c =? dot)%N) (trim domain) in
  if is_empty domain then []
  else
    let host :=
      if starts_with domain [91%N] && ends_with domain [93%N]
      then take (length domain - 1 - 1) (drop 1 domain) else domain in
    if contains_char host 42 || contains_char host 63 || contains_char host 37 then domain
    else default [] (url_host_parse host).

(** [DomainPattern::parse_for_constraints]. *)
Definition pattern_parse_for_constraints (input : str) : DomainPattern :=
  let input := trim input in
  if is_empty input then Exact []
  else
    match strip_prefix apex_prefix input with
    | Some domain => ApexAndSubdomains (parse_domain_for_constraints domain)
    | None =>
        match strip_prefix sub_prefix input with
        | Some domain => SubdomainsOnly (parse_domain_for_constraints domain)
        | None => Exact (parse_domain_for_constraints input)
        end
    end.

Inductive GlobalWildcard := AllowWildcard | RejectWildcard.

Definition wildcard_message : str :=
  lit "unsupported global wildcard domain pattern " ++ [34%N; 42%N; 34%N]
  ++ lit "; use exact hosts or scoped wildcards like *.example.com or **.example.com".

(** The inner loop over the candidates of one pattern. *)
Fixpoint add_candidates (candidates : list str) (seen : gset str) (builder : GlobSet)
  : result (gset str * GlobSet) str :=
  match candidates with
  | [] => Ok (seen, builder)
  | candidate :: candidates =>
      if bool_decide (candidate ∈ seen) then add_candidates candidates seen builder
      else if glob_valid candidate
      then add_candidates candidates ({[candidate]} ∪ seen) (builder ++ [candidate])
      else Err (lit "invalid glob pattern: " ++ candidate)
  end.

Fixpoint compile_loop (global_wildcard : GlobalWildcard) (patterns : list str) (seen : gset str)
    (builder : GlobSet) : result GlobSet str :=
  match patterns with
  | [] => Ok builder
  | pattern :: patterns =>
      match global_wildcard with
      | RejectWildcard =>
          if is_global_wildcard_domain_pattern pattern then Err wildcard_message
          else
            rbind (add_candidates (expand_domain_pattern (normalize_pattern pattern)) seen builder)
              (λ '(seen, builder), compile_loop global_wildcard patterns seen builder)
      | AllowWildcard =>
          rbind (add_candidates (expand_domain_pattern (normalize_pattern pattern)) seen builder)
            (λ '(seen, builder), compile_loop global_wildcard patterns seen builder)
      end
  end.

Definition compile_globset_with_policy (patterns : list str) (global_wildcard : GlobalWildcard)
  : result GlobSet str := compile_loop global_wildcard patterns ∅ [].

Definition compile_allowlist_globset (patterns : list str) : result GlobSet str :=
  compile_globset_with_policy patterns AllowWildcard.
Definition compile_denylist_globset (patterns : list str) : result GlobSet str :=
  compile_globset_with_policy patterns RejectWildcard.

Definition globset_matches_host_or_unscoped (set : GlobSet) (host : str) : bool :=
  glob_set_match set host || is_some_and (unscoped_ip_literal host) (glob_set_match set).
End globs.

(** ** Domain permissions of the configuration *)

Inductive NetworkDomainPermission := PNone | PAllow | PDeny.

#[global] Instance NetworkDomainPermission_eq_dec : EqDecision NetworkDomainPermission.
Proof. solve_decision. Defined.

(** The order of the variants. *)
Definition permission_rank (p : NetworkDomainPermission) : nat :=
  match p with PNone => 0 | PAllow => 1 | PDeny => 2 end.

Record NetworkDomainPermissionEntry := { pattern : str; permission : NetworkDomainPermission }.

#[global] Instance NetworkDomainPermissionEntry_eq_dec : EqDecision NetworkDomainPermissionEntry.
Proof. solve_decision. Defined.

(** [NetworkDomainPermissions] is the list of its entries. *)
Abbreviation NetworkDomainPermissions := (list NetworkDomainPermissionEntry).

(** One entry of the loop of [effective_entries]. *)
Definition effective_step
    '((order, permissions) : list str * gmap str NetworkDomainPermission)
    (e : NetworkDomainPermissionEntry) : list str * gmap str NetworkDomainPermission :=
  let order := if bool_decide (is_Some (permissions !! pattern e)) then order
               else order ++ [pattern e] in
  let current := default (permission e) (permissions !! pattern e) in
  let merged := if permission_rank current <? permission_rank (permission e)
                then permission e else current in
  (order, <[pattern e := merged]> permissions).

(** Each pattern is taken out of the map once. *)
Fixpoint drain_order (order : list str) (permissions : gmap str NetworkDomainPermission)
  : NetworkDomainPermissions :=
  match order with
  | [] => []
  | p :: order =>
      match permissions !! p with
      | Some perm =>
          {| pattern := p; permission := perm |} :: drain_order order (delete p permissions)
      | None => drain_order order permissions
      end
  end.

Definition effective_entries (entries : NetworkDomainPermissions) : NetworkDomainPermissions :=
  let '(order, permissions) := foldl effective_step ([], ∅) entries in
  drain_order order permissions.

(** ** What patterns cover *)

(** The hosts a pattern stands for. *)
Definition pattern_covers (p : DomainPattern) (host : str) : Prop :=
  match p with
  | Exact d => d = lit "*" ∨ to_ascii_lowercase host = to_ascii_lowercase d
  | SubdomainsOnly d => ∃ x, x ≠ [] ∧ to_ascii_lowercase host = x ++ dot :: to_ascii_lowercase d
  | ApexAndSubdomains d =>
      to_ascii_lowercase host = to_ascii_lowercase d ∨
      ∃ x, x ≠ [] ∧ to_ascii_lowercase host = x ++ dot :: to_ascii_lowercase d
  end.

(** A pattern of the configuration covers a normalised host. *)
Definition covers (pattern host : str) : Prop :=
  pattern_covers (pattern_parse (normalize_pattern pattern)) host.

(** Apart from the wildcard the pattern has no character with a meaning in a glob. *)
Definition plain_pattern (pattern : str) : Prop :=
  match pattern_parse (normalize_pattern pattern) with
  | Exact d => d = lit "*" ∨ plain d
  | SubdomainsOnly d | ApexAndSubdomains d => plain d
  end.

Lemma add_candidates_spec `{GlobUrl} cs seen builder seen' builder' :
  add_candidates cs seen builder = Ok (seen', builder') →
  (∀ c, c ∈ seen ↔ c ∈ builder) →
  (∀ c, c ∈ seen' ↔ c ∈ builder') ∧ (∀ c, c ∈ builder' ↔ c ∈ builder ∨ c ∈ cs).
Proof.
  revert seen builder; induction cs as [|c cs IH]; intros seen builder; simpl.
  { intros [= <- <-] Hs. split; [done|]. set_solver. }
  case_bool_decide as Hc.
  - intros Hadd Hs. destruct (IH _ _ Hadd Hs) as [H1 H2]. split; [done|].
    intros x. rewrite H2. set_solver.
  - destruct (glob_valid c); [|done]. intros Hadd Hs. destruct (IH _ _ Hadd) as [H1 H2].
    { intros x. set_solver. }
    split; [done|]. intros x. rewrite H2. set_solver.
Qed.

Lemma compile_loop_spec `{GlobUrl} w ps seen builder set :
  compile_loop w ps seen builder = Ok set → (∀ c, c ∈ seen ↔ c ∈ builder) →
  ∀ c, c ∈ set ↔ c ∈ builder ∨ ∃ p, p ∈ ps ∧ c ∈ expand_domain_pattern (normalize_pattern p).
Proof.
  revert seen builder; induction ps as [|p ps IH]; intros seen builder Hc Hs c.
  { simpl in Hc. injection Hc as <-. set_solver. }
  assert (rbind (add_candidates (expand_domain_pattern (normalize_pattern p)) seen builder)
            (λ '(seen, builder), compile_loop w ps seen builder) = Ok set) as Hstep.
  { simpl in Hc. destruct w; [done|]. by destruct (is_global_wildcard_domain_pattern p). }
  destruct (add_candidates _ seen builder) as [[seen' builder']|] eqn:Hadd; [|done].
  simpl in Hstep. destruct (add_candidates_spec _ _ _ _ _ Hadd Hs) as [H1 H2].
  rewrite (IH _ _ Hstep H1 c), H2. set_solver.
Qed.

Lemma existsb_elem {A} (f : A → bool) (l : list A) :
  existsb f l = true ↔ ∃ x, x ∈ l ∧ f x = true.
Proof. rewrite existsb_exists. by setoid_rewrite list_elem_of_In. Qed.

(** A compiled set matches the hosts its patterns cover. *)
Lemma compile_covers `{GlobLaws} w ps set host :
  compile_globset_with_policy ps w = Ok set → Forall plain_pattern ps →
  glob_set_match set host = true ↔ ∃ p, p ∈ ps ∧ covers p host.
Proof.
  intros Hc Hps. unfold glob_set_match. rewrite existsb_elem.
  setoid_rewrite (compile_loop_spec _ _ _ _ _ Hc ltac:(set_solver)).
  rewrite Forall_forall in Hps. split.
  - intros (g & [Hg|(p & Hp & Hg)] & Hm); [set_solver|]. exists p. split; [done|].
    specialize (Hps p Hp). unfold covers, plain_pattern, expand_domain_pattern in *.
    destruct (pattern_parse (normalize_pattern p)) as [d|d|d]; simpl.
    + apply elem_of_cons in Hg as [->|Hg]; [left|right].
      * by apply (glob_plain d host).
      * apply list_elem_of_singleton in Hg as ->. by apply (glob_sub d host).
    + apply list_elem_of_singleton in Hg as ->. by apply (glob_sub d host).
    + apply list_elem_of_singleton in Hg as ->. destruct Hps as [->|Hd]; [by left|right].
      by apply (glob_plain d host).
  - intros (p & Hp & Hcov). specialize (Hps p Hp).
    unfold covers, plain_pattern in *. 
    assert (∃ g, g ∈ expand_domain_pattern (normalize_pattern p) ∧ glob_match g host = true)
      as (g & Hg & Hm); [|by exists g; split; [right; by exists p|]].
    unfold expand_domain_pattern. destruct (pattern_parse (normalize_pattern p)) as [d|d|d].
    + destruct Hcov as [Hcov|Hcov].
      * exists d. split; [set_solver|]. by apply (glob_plain d host).
      * exists (sub_glob d). split; [set_solver|]. by apply (glob_sub d host).
    + exists (sub_glob d). split; [set_solver|]. by apply (glob_sub d host).
    + exists d. split; [set_solver|]. destruct Hcov as [->|Hcov]; [apply glob_star|].
      destruct Hps as [->|Hd]; [apply glob_star|]. by apply (glob_plain d host).
Qed.

(** What a pattern matches, glob syntax inside the domain included (a wildcard
    in the middle of a label): by text for a domain without such syntax, by the
    glob otherwise. *)
Definition exact_matches `{GlobUrl} (d host : str) : Prop :=
  if decide (plain d) then to_ascii_lowercase host = to_ascii_lowercase d
  else glob_match d host = true.
Definition below_matches `{GlobUrl} (d host : str) : Prop :=
  if decide (plain d)
  then ∃ x, x ≠ [] ∧ to_ascii_lowercase host = x ++ dot :: to_ascii_lowercase d
  else glob_match (sub_glob d) host = true.
Definition pattern_matches `{GlobUrl} (p : DomainPattern) (host : str) : Prop :=
  match p with
  | Exact d => exact_matches d host
  | SubdomainsOnly d => below_matches d host
  | ApexAndSubdomains d => exact_matches d host ∨ below_matches d host
  end.

Lemma pattern_matches_globs `{GlobLaws} pattern host :
  pattern_matches (pattern_parse pattern) host ↔
  ∃ g, g ∈ expand_domain_pattern pattern ∧ glob_match g host = true.
Proof.
  assert (∀ d, exact_matches d host ↔ glob_match d host = true) as He.
  { intros d. unfold exact_matches. case_decide; [|done]. symmetry. by apply glob_plain. }
  assert (∀ d, below_matches d host ↔ glob_match (sub_glob d) host = true) as Hb.
  { intros d. unfold below_matches. case_decide; [|done]. symmetry. by apply glob_sub. }
  unfold expand_domain_pattern. destruct (pattern_parse pattern) as [d|d|d]; simpl;
    rewrite ?He, ?Hb; set_solver.
Qed.

(** A compiled set matches exactly the hosts its patterns match. *)
Lemma compile_matches `{GlobLaws} w ps set host :
  compile_globset_with_policy ps w = Ok set →
  glob_set_match set host = true ↔
  ∃ p, p ∈ ps ∧ pattern_matches (pattern_parse (normalize_pattern p)) host.
Proof.
  intros Hc. unfold glob_set_match. rewrite existsb_elem.
  setoid_rewrite (compile_loop_spec _ _ _ _ _ Hc ltac:(set_solver)).
  setoid_rewrite pattern_matches_globs. set_solver.
Qed.

(** ** Comparing patterns *)

Definition is_dot (c : char) : bool := (c =? dot)%N.

Lemma is_dot_lower c : is_dot (ascii_lower c) = is_dot c.
Proof.
  unfold is_dot, ascii_lower, is_ascii_uppercase, dot.
  destruct ((65 <=? c) && (c <=? 90))%N eqn:H; [|done].
  apply andb_true_iff in H as [?%N.leb_le ?%N.leb_le].
  rewrite (proj2 (N.eqb_neq _ _)), (proj2 (N.eqb_neq _ _)) by lia. done.
Qed.

Lemma normalize_domain_idemp d : normalize_domain (normalize_domain d) = normalize_domain d.
Proof.
  unfold normalize_domain. rewrite (trim_end_lowercase is_dot) by apply is_dot_lower.
  by rewrite trim_end_matches_idemp, to_ascii_lowercase_idemp.
Qed.

(** A label in front of a normalised domain. *)
Lemma normalize_domain_label c d :
  normalize_domain d = d → d ≠ [] → ascii_lower c = c →
  normalize_domain (c :: dot :: d) = c :: dot :: d.
Proof.
  intros Hd Hne Hc. assert (trim_end_matches is_dot d = d) as Ht.
  { rewrite <- Hd. unfold normalize_domain.
    rewrite (trim_end_lowercase is_dot) by apply is_dot_lower. by rewrite trim_end_matches_idemp. }
  assert (to_ascii_lowercase d = d) as Hl.
  { rewrite <- Hd. unfold normalize_domain. by rewrite to_ascii_lowercase_idemp. }
  destruct (trim_end_matches_fix is_dot d Ht Hne) as (d' & x & -> & Hx).
  unfold normalize_domain. change (c :: dot :: d' ++ [x]) with ((c :: dot :: d') ++ [x]).
  rewrite (trim_end_matches_snoc_keep is_dot) by done.
  change ((c :: dot :: d') ++ [x]) with ([c; dot] ++ (d' ++ [x])).
  rewrite lowercase_app, Hl. simpl. by rewrite Hc.
Qed.

(** The hosts of a pattern, with case and trailing dots ignored as the
    comparison ignores them. *)
Definition host_of (p : DomainPattern) (host : str) : Prop :=
  let h := normalize_domain host in
  match p with
  | Exact d => h = normalize_domain d
  | SubdomainsOnly d => ∃ x, x ≠ [] ∧ h = x ++ dot :: normalize_domain d
  | ApexAndSubdomains d =>
      h = normalize_domain d ∨ ∃ x, x ≠ [] ∧ h = x ++ dot :: normalize_domain d
  end.

Definition pattern_domain (p : DomainPattern) : str :=
  match p with Exact d | SubdomainsOnly d | ApexAndSubdomains d => d end.

(** The domain of a pattern is not empty and does not start with a dot. *)
Definition domain_wf (p : DomainPattern) : Prop :=
  match normalize_domain (pattern_domain p) with [] => False | c :: _ => c ≠ dot end.

#[global] Instance domain_wf_dec p : Decision (domain_wf p).
Proof. unfold domain_wf. destruct (normalize_domain _); apply _. Defined.

(** A proper suffix after a dot, when the whole does not start with a dot. *)
Lemma suffix_nonempty (c d : str) :
  match c with [] => False | x :: _ => x ≠ dot end →
  ends_with c (dot :: d) = true ↔ ∃ x, x ≠ [] ∧ c = x ++ dot :: d.
Proof.
  intros Hc. rewrite ends_with_spec. split.
  - intros (x & ->). exists x. split; [|done]. by intros ->.
  - intros (x & _ & ->). by exists x.
Qed.

Lemma strict_subdomain_spec c d :
  domain_wf (Exact c) →
  is_strict_subdomain c d = true ↔ ∃ x, x ≠ [] ∧ normalize_domain c = x ++ dot :: normalize_domain d.
Proof.
  intros Hwf. unfold is_strict_subdomain. rewrite andb_true_iff, suffix_nonempty by exact Hwf.
  split; [by intros [_ ?]|]. intros (x & Hx & Heq). split; [|by exists x].
  rewrite negb_true_iff. apply bool_decide_eq_false. rewrite Heq. intros Hc.
  apply (f_equal length) in Hc. rewrite length_app in Hc. simpl in Hc. lia.
Qed.

Lemma subdomain_or_equal_spec c d :
  domain_wf (Exact c) →
  is_subdomain_or_equal c d = true ↔
  normalize_domain c = normalize_domain d ∨
  ∃ x, x ≠ [] ∧ normalize_domain c = x ++ dot :: normalize_domain d.
Proof.
  intros Hwf. unfold is_subdomain_or_equal.
  by rewrite orb_true_iff, suffix_nonempty, bool_decide_eq_true by exact Hwf.
Qed.

(** Two subdomains that differ in their first label. *)
Lemma labels_differ (C D : str) : ¬ (97%N :: dot :: C = D ∧ 98%N :: dot :: C = D).
Proof. intros [<- H]. by injection H. Qed.

(** A one-letter subdomain is under a domain only if its parent is. *)
Lemma label_suffix a (C D x : str) :
  x ≠ [] → a :: dot :: C = x ++ dot :: D → C = D ∨ ∃ y, C = y ++ dot :: D.
Proof.
  intros Hx Heq. destruct x as [|b x]; [done|]. injection Heq as _ Heq.
  destruct x as [|c x]; [left; by injection Heq|]. right. injection Heq as _ Heq. by exists x.
Qed.

(** Strictly below a domain. *)
Definition below (D h : str) : Prop := ∃ x, x ≠ [] ∧ h = x ++ dot :: D.

Lemma below_trans C D h : below C h → C = D ∨ below D C → below D h.
Proof.
  intros (x & Hx & ->) [<-|(y & Hy & ->)]; [by exists x|].
  exists (x ++ dot :: y). rewrite <- app_assoc. split; [|done]. by destruct x.
Qed.

(** The normalised domain of a well-formed pattern and its one-letter
    subdomains are hosts. *)
Lemma domain_wf_hosts p :
  let C := normalize_domain (pattern_domain p) in
  domain_wf p →
  normalize_domain C = C ∧
  ∀ c, ascii_lower c = c → normalize_domain (c :: dot :: C) = c :: dot :: C.
Proof.
  intros C Hwf. split; [apply normalize_domain_idemp|]. intros c Hc.
  apply normalize_domain_label; [apply normalize_domain_idemp| |done].
  unfold C. unfold domain_wf in Hwf. by destruct (normalize_domain _).
Qed.

(** What a one-letter subdomain says about its parent. *)
Lemma below_label p D c :
  domain_wf p → below D (c :: dot :: normalize_domain (pattern_domain p)) →
  normalize_domain (pattern_domain p) = D ∨ below D (normalize_domain (pattern_domain p)).
Proof.
  intros Hwf (x & Hx & Heq). destruct (label_suffix _ _ _ _ Hx Heq) as [?|(y & Hy)]; [by left|].
  right. exists y. split; [|done]. intros ->. unfold domain_wf in Hwf. by rewrite Hy in Hwf.
Qed.

(** Some subdomain of a pattern's domain is not a given host. *)
Lemma subdomains_not_exact p D :
  domain_wf p →
  ¬ (∀ h, below (normalize_domain (pattern_domain p)) (normalize_domain h) → normalize_domain h = D).
Proof.
  intros Hwf Hall. destruct (domain_wf_hosts p Hwf) as [_ Hl].
  apply (labels_differ (normalize_domain (pattern_domain p)) D).
  rewrite <- (Hl 97%N), <- (Hl 98%N) by done.
  split; apply Hall; rewrite Hl by done; by eexists [_].
Qed.

(** Every subdomain of a pattern's domain is at or below a domain only if the
    pattern's domain is. *)
Lemma subdomains_below p D :
  let C := normalize_domain (pattern_domain p) in
  domain_wf p →
  (∀ h, below C (normalize_domain h) → normalize_domain h = D ∨ below D (normalize_domain h)) →
  C = D ∨ below D C.
Proof.
  intros C Hwf Hall. destruct (domain_wf_hosts p Hwf) as [_ Hl]. fold C in Hl.
  assert (∀ c, ascii_lower c = c → c :: dot :: C = D ∨ below D (c :: dot :: C)) as Hc.
  { intros c Hc. rewrite <- (Hl c Hc). apply Hall. rewrite (Hl c Hc). by exists [c]. }
  destruct (Hc 97%N) as [Ha|Ha]; [done| |by apply (below_label p D _ Hwf) in Ha].
  destruct (Hc 98%N) as [Hb|Hb]; [done| |by apply (below_label p D _ Hwf) in Hb].
  destruct (labels_differ C D); done.
Qed.

(** [host_of] in terms of [below]. *)
Lemma host_of_alt p h :
  host_of p h ↔
  let D := normalize_domain (pattern_domain p) in
  match p with
  | Exact _ => normalize_domain h = D
  | SubdomainsOnly _ => below D (normalize_domain h)
  | ApexAndSubdomains _ => normalize_domain h = D ∨ below D (normalize_domain h)
  end.
Proof. by destruct p. Qed.

(** The comparison of domain patterns is exact: a managed pattern allows a
    candidate pattern if and only if every host of the candidate is a host of
    the managed pattern. *)
Lemma allows_hosts m c :
  domain_wf c → allows m c = true ↔ ∀ h, host_of c h → host_of m h.
Proof.
  intros Hwf. setoid_rewrite host_of_alt.
  destruct (domain_wf_hosts c Hwf) as [HC _].
  pose proof (λ D, subdomains_below c D Hwf) as Hlab.
  pose proof (λ D, subdomains_not_exact c D Hwf) as Hne.
  destruct m as [d|d|d], c as [e|e|e]; cbn [allows pattern_domain] in *;
    unfold domain_eq; rewrite ?bool_decide_eq_true;
    rewrite ?strict_subdomain_spec, ?subdomain_or_equal_spec by exact Hwf;
    fold (below (normalize_domain d) (normalize_domain e)); clear Hwf;
    generalize dependent (normalize_domain e); intros C HC Hlab Hne;
    generalize dependent (normalize_domain d); intros D;
    (split; [intros HD h Hh; naive_solver eauto using below_trans|intros Hall]).
  - apply Hlab. naive_solver.
  - apply Hlab. naive_solver.
  - rewrite <- HC. naive_solver.
  - rewrite <- HC. naive_solver.
  - apply Hlab. naive_solver.
  - rewrite <- HC. naive_solver.
  - destruct (Hne D). naive_solver.
  - destruct (Hne D). naive_solver.
  - rewrite <- HC. naive_solver.
Qed.

(** A pattern that stands for hosts: a domain that is there and has no glob
    syntax of its own.  An entry that is no host ([UrlHost::parse] fails) has an
    empty domain, an entry with a wildcard inside keeps its text. *)
Definition literal_pattern (p : DomainPattern) : Prop := domain_wf p ∧ plain (pattern_domain p).

(** What the comparison of a managed pattern with a candidate means: inclusion
    of the hosts for patterns that stand for hosts, the comparison of the texts
    otherwise. *)
Definition pattern_below (m e : DomainPattern) : Prop :=
  if decide (literal_pattern m ∧ literal_pattern e) then ∀ h, host_of e h → host_of m h
  else allows m e = true.

Lemma allows_below m e : allows m e = true ↔ pattern_below m e.
Proof. unfold pattern_below. case_decide as Hl; [|done]. apply allows_hosts, Hl. Qed.

(** ** The effective permissions *)

(** The permission of highest rank given to a pattern. *)
Definition strongest (es : NetworkDomainPermissions) (e : NetworkDomainPermissionEntry) : Prop :=
  e ∈ es ∧
  ∀ e', e' ∈ es → pattern e' = pattern e → permission_rank (permission e') ≤ permission_rank (permission e).

Lemma permission_rank_inj p q : permission_rank p = permission_rank q → p = q.
Proof. by destruct p, q. Qed.

Definition effective_inv (es : NetworkDomainPermissions)
    '((order, m) : list str * gmap str NetworkDomainPermission) : Prop :=
  NoDup order ∧ (∀ p, p ∈ order ↔ is_Some (m !! p)) ∧
  (∀ p, is_Some (m !! p) ↔ p ∈ pattern <$> es) ∧
  ∀ p perm, m !! p = Some perm → strongest es {| pattern := p; permission := perm |}.

Lemma effective_step_inv es acc e :
  effective_inv es acc → effective_inv (es ++ [e]) (effective_step acc e).
Proof.
  destruct acc as [order m]. intros (Hnd & Ho & Hp & Hs). unfold effective_step, effective_inv.
  assert (∀ e', e' ∈ es ++ [e] ↔ e' ∈ es ∨ e' = e) as Hsnoc by set_solver.
  split_and!.
  - case_bool_decide as H; [done|]. apply NoDup_app. split_and!; [done| |apply NoDup_singleton].
    intros x Hx ->%list_elem_of_singleton. by apply H, Ho.
  - intros p. destruct (decide (p = pattern e)) as [->|Hne].
    + rewrite lookup_insert_eq. case_bool_decide as H; [|by set_solver].
      by rewrite Ho.
    + rewrite lookup_insert_ne by done. case_bool_decide as H; [by rewrite Ho|].
      rewrite <- Ho. set_solver.
  - intros p. rewrite fmap_app, elem_of_app, <- Hp. simpl. rewrite list_elem_of_singleton.
    destruct (decide (p = pattern e)) as [->|Hne].
    + rewrite lookup_insert_eq. naive_solver.
    + rewrite lookup_insert_ne by done. naive_solver.
  - intros p perm. destruct (decide (p = pattern e)) as [->|Hne].
    + rewrite lookup_insert_eq. intros [= <-].
      assert (∀ c, m !! pattern e = Some c → strongest es {| pattern := pattern e; permission := c |})
        as Hc by auto.
      destruct (m !! pattern e) as [c|] eqn:Hm; simpl.
      * destruct (Hc _ eq_refl) as [Hin Hmax]. clear Hc. destruct (Nat.ltb_spec (permission_rank c) (permission_rank (permission e))).
        -- split; [rewrite Hsnoc; right; by destruct e|]. simpl.
           intros e' [He'| ->]%Hsnoc Heq; [|done]. specialize (Hmax e' He' Heq). simpl in Hmax. lia.
        -- split; [rewrite Hsnoc; by left|]. simpl.
           intros e' [He'| ->]%Hsnoc Heq; [by apply Hmax|done].
      * rewrite Nat.ltb_irrefl. split; [rewrite Hsnoc; right; by destruct e|]. simpl.
        intros e' [He'| ->]%Hsnoc Heq; [|done].
        assert (is_Some (m !! pattern e)) as [? ?]; [|congruence].
        apply Hp. rewrite <- Heq. by apply list_elem_of_fmap_2.
    + rewrite lookup_insert_ne by done. intros [Hin Hmax]%Hs. split; [rewrite Hsnoc; by left|].
      intros e' [He'| ->]%Hsnoc Heq; [by apply Hmax|]. by destruct Hne.
Qed.

Lemma effective_fold_inv es : effective_inv es (foldl effective_step ([], ∅) es).
Proof.
  induction es as [|e es IH] using rev_ind.
  - split_and!; [constructor|..]; intros p; rewrite ?lookup_empty; set_solver.
  - rewrite foldl_app. by apply effective_step_inv.
Qed.

Lemma drain_order_elem order m e :
  NoDup order → e ∈ drain_order order m ↔ pattern e ∈ order ∧ m !! pattern e = Some (permission e).
Proof.
  revert m; induction order as [|p order IH]; intros m Hnd; simpl; [set_solver|].
  apply NoDup_cons in Hnd as [Hp Hnd].
  destruct (m !! p) as [perm|] eqn:Hm; rewrite ?elem_of_cons, IH by done; split.
  - intros [->|[Ho Hl]]; simpl; [by auto|].
    apply lookup_delete_Some in Hl as [? ?]. auto.
  - intros [[Heq|Ho] Hl]; [left|right].
    + destruct e as [q r]. simpl in *. subst. congruence.
    + split; [done|]. apply lookup_delete_Some. split; [|done]. by intros ->.
  - intros [? ?]; auto.
  - intros [[Heq|Ho] Hl]; [congruence|done].
Qed.

Lemma effective_entries_strongest es e : e ∈ effective_entries es ↔ strongest es e.
Proof.
  unfold effective_entries. pose proof (effective_fold_inv es) as Hinv.
  destruct (foldl _ _ _) as [order m]. destruct Hinv as (Hnd & Ho & Hp & Hs).
  rewrite drain_order_elem by done. split.
  - intros [_ Hl]. destruct e. by apply Hs.
  - intros [Hin Hmax].
    assert (is_Some (m !! pattern e)) as [perm Hl] by by apply Hp, list_elem_of_fmap_2.
    split; [by apply Ho|]. rewrite Hl. f_equal. apply permission_rank_inj.
    destruct (Hs _ _ Hl) as [Hin' Hmax']. apply Nat.le_antisymm.
    + by apply (Hmax {| pattern := pattern e; permission := perm |}).
    + by apply (Hmax' e).
Qed.

(** Deny wins over allow, and allow over none. *)
Lemma effective_deny es p :
  {| pattern := p; permission := PDeny |} ∈ effective_entries es ↔
  {| pattern := p; permission := PDeny |} ∈ es.
Proof.
  rewrite effective_entries_strongest. split; [by intros [? _]|]. intros Hin. split; [done|].
  intros [? []] _ _; simpl; lia.
Qed.

Lemma effective_allow es p :
  {| pattern := p; permission := PAllow |} ∈ effective_entries es ↔
  {| pattern := p; permission := PAllow |} ∈ es ∧ {| pattern := p; permission := PDeny |} ∉ es.
Proof.
  rewrite effective_entries_strongest. split.
  - intros [Hin Hmax]. split; [done|]. intros Hd. specialize (Hmax _ Hd eq_refl). simpl in Hmax. lia.
  - intros [Hin Hd]. split; [done|]. intros [q []] Hin' Heq; simpl in *; subst; first [lia|done].
Qed.
