(* ===== verification/NetConfig.v ===== *)
(** * Configuration of the network proxy

    [codex-rs/network-proxy/src/config.rs] and [state.rs]: the configuration
    with its domain and socket permissions, the addresses the listeners bind
    to, the constraints of a managed configuration, and the state compiled from
    a configuration.  The MITM hooks and the [url] crate are parameters. *)

From S2P Require Import Prelude RustStr UnixPath NetAddr NetHost.

(** ** What the configuration relies on *)

(** A parsed URL of the [url] crate, as far as the proxy reads it. *)
Record Url := {
  scheme : str;
  username : str;
  password : option str;
  host_str : option str;
  url_port : option N;
}.

(** [url::Url::parse], the [Debug] form of a string, and the normalised form of
    an absolute path. *)
Class Externals := {
  url_parse : str → option Url;
  fmt_debug : str → str;
  from_absolute_path : str → option str;
}.

(** The MITM hooks: their configuration, the check of one hook, their compiled
    form (which reads the environment and files) and the MITM state. *)
Class MitmHooks := {
  MitmHookConfig : Type;
  MitmHookConfig_eq_dec :: EqDecision MitmHookConfig;
  validate_hook : nat → MitmHookConfig → result () (list str);
  MitmHooksByHost : Type;
  compile_hooks : list MitmHookConfig → result MitmHooksByHost (list str);
  MitmState : Type;
  mitm_state_new : bool → result MitmState (list str);
}.

(** An [anyhow::Error]: its contexts, the outermost first. *)
Definition anyhow : Type := list str.
Definition context {A} (msg : str) (r : result A anyhow) : result A anyhow :=
  rmap_err (cons msg) r.

(** A [BTreeMap] in the order of its keys. *)
Definition key_le {A} (a b : str * A) : Prop := str_compare a.1 b.1 ≠ Gt.
#[global] Instance key_le_dec {A} : RelDecision (@key_le A).
Proof. intros a b. unfold key_le. apply _. Defined.
Definition btree_entries {A} (m : gmap str A) : list (str * A) :=
  merge_sort key_le (map_to_list m).

(** ** The configuration *)

Inductive NetworkUnixSocketPermission := SocketAllow | SocketDeny.
#[global] Instance NetworkUnixSocketPermission_eq_dec : EqDecision NetworkUnixSocketPermission.
Proof. solve_decision. Defined.

Abbreviation NetworkUnixSocketPermissions := (gmap str NetworkUnixSocketPermission).

Inductive NetworkMode := Limited | Full.
#[global] Instance NetworkMode_eq_dec : EqDecision NetworkMode.
Proof. solve_decision. Defined.

Definition allows_method (m : NetworkMode) (method : str) : bool :=
  match m with
  | Full => true
  | Limited => bool_decide (method ∈ [lit "GET"; lit "HEAD"; lit "OPTIONS"])
  end.

Record NetworkProxyConfig `{MitmHooks} := {
  enabled : bool;
  proxy_url : str;
  enable_socks5 : bool;
  socks_url : str;
  enable_socks5_udp : bool;
  allow_upstream_proxy : bool;
  dangerously_allow_non_loopback_proxy : bool;
  dangerously_allow_all_unix_sockets : bool;
  mode : NetworkMode;
  domains : option NetworkDomainPermissions;
  unix_sockets : option NetworkUnixSocketPermissions;
  allow_local_binding : bool;
  mitm : bool;
  credential_broker : bool;
  credential_broker_openai_host : option str;
  dangerously_allow_plaintext_credential_injection : bool;
  mitm_hooks : list MitmHookConfig;
}.

#[global] Instance NetworkProxyConfig_eq_dec `{MitmHooks} : EqDecision NetworkProxyConfig.
Proof. solve_decision. Defined.

Definition default_proxy_url : str := lit "http://127.0.0.1:3128".
Definition default_socks_url : str := lit "http://127.0.0.1:8081".

(** [NetworkProxyConfig::default]. *)
Definition default_config `{MitmHooks} : NetworkProxyConfig := {|
  enabled := false; proxy_url := default_proxy_url; enable_socks5 := true;
  socks_url := default_socks_url; enable_socks5_udp := true; allow_upstream_proxy := true;
  dangerously_allow_non_loopback_proxy := false; dangerously_allow_all_unix_sockets := false;
  mode := Full; domains := None; unix_sockets := None; allow_local_binding := false;
  mitm := false; credential_broker := false; credential_broker_openai_host := None;
  dangerously_allow_plaintext_credential_injection := false; mitm_hooks := [];
|}.

Section config.
Context `{Externals, MitmHooks, GlobUrl}.

(** Assignments to one field. *)
Definition set_enabled c v : NetworkProxyConfig :=
  {|
     enabled := v; proxy_url := proxy_url c; enable_socks5 := enable_socks5 c; socks_url :=
     socks_url c; enable_socks5_udp := enable_socks5_udp c; allow_upstream_proxy :=
     allow_upstream_proxy c; dangerously_allow_non_loopback_proxy :=
     dangerously_allow_non_loopback_proxy c; dangerously_allow_all_unix_sockets :=
     dangerously_allow_all_unix_sockets c; mode := mode c; domains := domains c; unix_sockets :=
     unix_sockets c; allow_local_binding := allow_local_binding c; mitm := mitm c;
     credential_broker := credential_broker c; credential_broker_openai_host :=
     credential_broker_openai_host c; dangerously_allow_plaintext_credential_injection :=
     dangerously_allow_plaintext_credential_injection c; mitm_hooks := mitm_hooks c
  |}.
Definition set_proxy_url c v : NetworkProxyConfig :=
  {|
     enabled := enabled c; proxy_url := v; enable_socks5 := enable_socks5 c; socks_url :=
     socks_url c; enable_socks5_udp := enable_socks5_udp c; allow_upstream_proxy :=
     allow_upstream_proxy c; dangerously_allow_non_loopback_proxy :=
     dangerously_allow_non_loopback_proxy c; dangerously_allow_all_unix_sockets :=
     dangerously_allow_all_unix_sockets c; mode := mode c; domains := domains c; unix_sockets :=
     unix_sockets c; allow_local_binding := allow_local_binding c; mitm := mitm c;
     credential_broker := credential_broker c; credential_broker_openai_host :=
     credential_broker_openai_host c; dangerously_allow_plaintext_credential_injection :=
     dangerously_allow_plaintext_credential_injection c; mitm_hooks := mitm_hooks c
  |}.
Definition set_socks_url c v : NetworkProxyConfig :=
  {|
     enabled := enabled c; proxy_url := proxy_url c; enable_socks5 := enable_socks5 c; socks_url
     := v; enable_socks5_udp := enable_socks5_udp c; allow_upstream_proxy :=
     allow_upstream_proxy c; dangerously_allow_non_loopback_proxy :=
     dangerously_allow_non_loopback_proxy c; dangerously_allow_all_unix_sockets :=
     dangerously_allow_all_unix_sockets c; mode := mode c; domains := domains c; unix_sockets :=
     unix_sockets c; allow_local_binding := allow_local_binding c; mitm := mitm c;
     credential_broker := credential_broker c; credential_broker_openai_host :=
     credential_broker_openai_host c; dangerously_allow_plaintext_credential_injection :=
     dangerously_allow_plaintext_credential_injection c; mitm_hooks := mitm_hooks c
  |}.
Definition set_allow_upstream_proxy c v : NetworkProxyConfig :=
  {|
     enabled := enabled c; proxy_url := proxy_url c; enable_socks5 := enable_socks5 c; socks_url
     := socks_url c; enable_socks5_udp := enable_socks5_udp c; allow_upstream_proxy := v;
     dangerously_allow_non_loopback_proxy := dangerously_allow_non_loopback_proxy c;
     dangerously_allow_all_unix_sockets := dangerously_allow_all_unix_sockets c; mode := mode c;
     domains := domains c; unix_sockets := unix_sockets c; allow_local_binding :=
     allow_local_binding c; mitm := mitm c; credential_broker := credential_broker c;
     credential_broker_openai_host := credential_broker_openai_host c;
     dangerously_allow_plaintext_credential_injection :=
     dangerously_allow_plaintext_credential_injection c; mitm_hooks := mitm_hooks c
  |}.
Definition set_dangerously_allow_non_loopback_proxy c v : NetworkProxyConfig :=
  {|
     enabled := enabled c; proxy_url := proxy_url c; enable_socks5 := enable_socks5 c; socks_url
     := socks_url c; enable_socks5_udp := enable_socks5_udp c; allow_upstream_proxy :=
     allow_upstream_proxy c; dangerously_allow_non_loopback_proxy := v;
     dangerously_allow_all_unix_sockets := dangerously_allow_all_unix_sockets c; mode := mode c;
     domains := domains c; unix_sockets := unix_sockets c; allow_local_binding :=
     allow_local_binding c; mitm := mitm c; credential_broker := credential_broker c;
     credential_broker_openai_host := credential_broker_openai_host c;
     dangerously_allow_plaintext_credential_injection :=
     dangerously_allow_plaintext_credential_injection c; mitm_hooks := mitm_hooks c
  |}.
Definition set_dangerously_allow_all_unix_sockets c v : NetworkProxyConfig :=
  {|
     enabled := enabled c; proxy_url := proxy_url c; enable_socks5 := enable_socks5 c; socks_url
     := socks_url c; enable_socks5_udp := enable_socks5_udp c; allow_upstream_proxy :=
     allow_upstream_proxy c; dangerously_allow_non_loopback_proxy :=
     dangerously_allow_non_loopback_proxy c; dangerously_allow_all_unix_sockets := v; mode :=
     mode c; domains := domains c; unix_sockets := unix_sockets c; allow_local_binding :=
     allow_local_binding c; mitm := mitm c; credential_broker := credential_broker c;
     credential_broker_openai_host := credential_broker_openai_host c;
     dangerously_allow_plaintext_credential_injection :=
     dangerously_allow_plaintext_credential_injection c; mitm_hooks := mitm_hooks c
  |}.
Definition set_mode c v : NetworkProxyConfig :=
  {|
     enabled := enabled c; proxy_url := proxy_url c; enable_socks5 := enable_socks5 c; socks_url
     := socks_url c; enable_socks5_udp := enable_socks5_udp c; allow_upstream_proxy :=
     allow_upstream_proxy c; dangerously_allow_non_loopback_proxy :=
     dangerously_allow_non_loopback_proxy c; dangerously_allow_all_unix_sockets :=
     dangerously_allow_all_unix_sockets c; mode := v; domains := domains c; unix_sockets :=
     unix_sockets c; allow_local_binding := allow_local_binding c; mitm := mitm c;
     credential_broker := credential_broker c; credential_broker_openai_host :=
     credential_broker_openai_host c; dangerously_allow_plaintext_credential_injection :=
     dangerously_allow_plaintext_credential_injection c; mitm_hooks := mitm_hooks c
  |}.
Definition set_domains c v : NetworkProxyConfig :=
  {|
     enabled := enabled c; proxy_url := proxy_url c; enable_socks5 := enable_socks5 c; socks_url
     := socks_url c; enable_socks5_udp := enable_socks5_udp c; allow_upstream_proxy :=
     allow_upstream_proxy c; dangerously_allow_non_loopback_proxy :=
     dangerously_allow_non_loopback_proxy c; dangerously_allow_all_unix_sockets :=
     dangerously_allow_all_unix_sockets c; mode := mode c; domains := v; unix_sockets :=
     unix_sockets c; allow_local_binding := allow_local_binding c; mitm := mitm c;
     credential_broker := credential_broker c; credential_broker_openai_host :=
     credential_broker_openai_host c; dangerously_allow_plaintext_credential_injection :=
     dangerously_allow_plaintext_credential_injection c; mitm_hooks := mitm_hooks c
  |}.
Definition set_unix_sockets c v : NetworkProxyConfig :=
  {|
     enabled := enabled c; proxy_url := proxy_url c; enable_socks5 := enable_socks5 c; socks_url
     := socks_url c; enable_socks5_udp := enable_socks5_udp c; allow_upstream_proxy :=
     allow_upstream_proxy c; dangerously_allow_non_loopback_proxy :=
     dangerously_allow_non_loopback_proxy c; dangerously_allow_all_unix_sockets :=
     dangerously_allow_all_unix_sockets c; mode := mode c; domains := domains c; unix_sockets :=
     v; allow_local_binding := allow_local_binding c; mitm := mitm c; credential_broker :=
     credential_broker c; credential_broker_openai_host := credential_broker_openai_host c;
     dangerously_allow_plaintext_credential_injection :=
     dangerously_allow_plaintext_credential_injection c; mitm_hooks := mitm_hooks c
  |}.
Definition set_allow_local_binding c v : NetworkProxyConfig :=
  {|
     enabled := enabled c; proxy_url := proxy_url c; enable_socks5 := enable_socks5 c; socks_url
     := socks_url c; enable_socks5_udp := enable_socks5_udp c; allow_upstream_proxy :=
     allow_upstream_proxy c; dangerously_allow_non_loopback_proxy :=
     dangerously_allow_non_loopback_proxy c; dangerously_allow_all_unix_sockets :=
     dangerously_allow_all_unix_sockets c; mode := mode c; domains := domains c; unix_sockets :=
     unix_sockets c; allow_local_binding := v; mitm := mitm c; credential_broker :=
     credential_broker c; credential_broker_openai_host := credential_broker_openai_host c;
     dangerously_allow_plaintext_credential_injection :=
     dangerously_allow_plaintext_credential_injection c; mitm_hooks := mitm_hooks c
  |}.
Definition set_mitm c v : NetworkProxyConfig :=
  {|
     enabled := enabled c; proxy_url := proxy_url c; enable_socks5 := enable_socks5 c; socks_url
     := socks_url c; enable_socks5_udp := enable_socks5_udp c; allow_upstream_proxy :=
     allow_upstream_proxy c; dangerously_allow_non_loopback_proxy :=
     dangerously_allow_non_loopback_proxy c; dangerously_allow_all_unix_sockets :=
     dangerously_allow_all_unix_sockets c; mode := mode c; domains := domains c; unix_sockets :=
     unix_sockets c; allow_local_binding := allow_local_binding c; mitm := v; credential_broker
     := credential_broker c; credential_broker_openai_host := credential_broker_openai_host c;
     dangerously_allow_plaintext_credential_injection :=
     dangerously_allow_plaintext_credential_injection c; mitm_hooks := mitm_hooks c
  |}.
Definition set_credential_broker c v : NetworkProxyConfig :=
  {|
     enabled := enabled c; proxy_url := proxy_url c; enable_socks5 := enable_socks5 c; socks_url
     := socks_url c; enable_socks5_udp := enable_socks5_udp c; allow_upstream_proxy :=
     allow_upstream_proxy c; dangerously_allow_non_loopback_proxy :=
     dangerously_allow_non_loopback_proxy c; dangerously_allow_all_unix_sockets :=
     dangerously_allow_all_unix_sockets c; mode := mode c; domains := domains c; unix_sockets :=
     unix_sockets c; allow_local_binding := allow_local_binding c; mitm := mitm c;
     credential_broker := v; credential_broker_openai_host := credential_broker_openai_host c;
     dangerously_allow_plaintext_credential_injection :=
     dangerously_allow_plaintext_credential_injection c; mitm_hooks := mitm_hooks c
  |}.
Definition set_credential_broker_openai_host c v : NetworkProxyConfig :=
  {|
     enabled := enabled c; proxy_url := proxy_url c; enable_socks5 := enable_socks5 c; socks_url
     := socks_url c; enable_socks5_udp := enable_socks5_udp c; allow_upstream_proxy :=
     allow_upstream_proxy c; dangerously_allow_non_loopback_proxy :=
     dangerously_allow_non_loopback_proxy c; dangerously_allow_all_unix_sockets :=
     dangerously_allow_all_unix_sockets c; mode := mode c; domains := domains c; unix_sockets :=
     unix_sockets c; allow_local_binding := allow_local_binding c; mitm := mitm c;
     credential_broker := credential_broker c; credential_broker_openai_host := v;
     dangerously_allow_plaintext_credential_injection :=
     dangerously_allow_plaintext_credential_injection c; mitm_hooks := mitm_hooks c
  |}.

Definition nonempty {A} (l : list A) : option (list A) := if is_empty l then None else Some l.

Definition domain_entries (c : NetworkProxyConfig) (p : NetworkDomainPermission) : option (list str) :=
  entries ← domains c;
  nonempty (pattern <$> base.filter (λ e, permission e = p) (effective_entries entries)).

Definition allowed_domains c : option (list str) := domain_entries c PAllow.
Definition denied_domains c : option (list str) := domain_entries c PDeny.

Definition allow_unix_sockets c : list str :=
  default [] ((λ m, fst <$> base.filter (λ e, e.2 = SocketAllow) (btree_entries m)) <$> unix_sockets c).

(** One entry of the loop of [set_domain_entries]. *)
Definition push_entry (p : NetworkDomainPermission) (ds : NetworkDomainPermissions) (entry : str)
  : NetworkDomainPermissions :=
  let e := {| pattern := entry; permission := p |} in
  if bool_decide (e ∈ ds) then ds else ds ++ [e].

Definition set_domain_entries c (entries : list str) (p : NetworkDomainPermission) : NetworkProxyConfig :=
  let ds := base.filter (λ e, permission e ≠ p) (default [] (domains c)) in
  set_domains c (nonempty (foldl (push_entry p) ds entries)).

Definition set_allowed_domains c entries := set_domain_entries c entries PAllow.
Definition set_denied_domains c entries := set_domain_entries c entries PDeny.

Definition upsert_domain_permission c (host : str) (p : NetworkDomainPermission)
    (normalize : str → str) : NetworkProxyConfig :=
  let ds := base.filter (λ e, normalize (pattern e) ≠ normalize host) (default [] (domains c)) in
  set_domains c (nonempty (ds ++ [{| pattern := host; permission := p |}])).

Definition nonempty_map {A} (m : gmap str A) : option (gmap str A) :=
  if bool_decide (m = ∅) then None else Some m.

Definition set_unix_socket_entries c (entries : list str) (p : NetworkUnixSocketPermission)
  : NetworkProxyConfig :=
  let m := base.filter (λ e, e.2 ≠ p) (default ∅ (unix_sockets c)) in
  set_unix_sockets c (nonempty_map (foldl (λ m entry, <[entry := p]> m) m entries)).

Definition set_allow_unix_sockets c entries := set_unix_socket_entries c entries SocketAllow.

Definition set_credential_broker_enabled c (on : bool) : NetworkProxyConfig :=
  set_mitm (set_credential_broker c on) (mitm c || on).

Definition trusted_credential_broker_host (base_url : str) : option str :=
  url ← url_parse base_url;
  if bool_decide (scheme url = lit "https") && is_empty (username url) && is_none (password url)
  then normalize_host <$> host_str url else None.

Definition set_credential_broker_openai_base_url c (base_url : option str) : NetworkProxyConfig :=
  set_credential_broker_openai_host c (base_url ≫= trusted_credential_broker_host).

(** ** Listener addresses *)

Record SocketAddr := { ip : IpAddr; port : N }.

Definition localhost_v4 (port : N) : SocketAddr := {| ip := V4 (ipv4 127 0 0 1); port := port |}.

Definition clamp_non_loopback (addr : SocketAddr) (allow_non_loopback : bool) : SocketAddr :=
  if is_loopback (ip addr) then addr
  else if allow_non_loopback then addr
  else localhost_v4 (port addr).

Definition clamp_bind_addrs (http_addr socks_addr : SocketAddr) c : SocketAddr * SocketAddr :=
  let http_addr := clamp_non_loopback http_addr (dangerously_allow_non_loopback_proxy c) in
  let socks_addr := clamp_non_loopback socks_addr (dangerously_allow_non_loopback_proxy c) in
  if is_empty (allow_unix_sockets c) && negb (dangerously_allow_all_unix_sockets c)
  then (http_addr, socks_addr)
  else (localhost_v4 (port http_addr), localhost_v4 (port socks_addr)).

(** [str::parse::<u16>]. *)
Definition parse_u16 (s : str) : option N :=
  let s := match s with 43%N :: s' => s' | _ => s end in
  match read_digits 10 0 s with
  | (n, S _, []) => if (n <=? 65535)%N then Some n else None
  | _ => None
  end.

Inductive ValidatedUnixSocketPath :=
| Native (path : str)
| UnixStyleAbsolute (path : str).

Definition UnixStyleAbsolutePath_parse (value : str) : option str :=
  if starts_with value (lit "/") then Some value else None.

(** [ValidatedUnixSocketPath::parse]. *)
Definition socket_path_parse (socket_path : str) : result ValidatedUnixSocketPath anyhow :=
  if is_absolute socket_path then
    match from_absolute_path socket_path with
    | Some path => Ok (Native path)
    | None => Err [lit "failed to normalize unix socket path " ++ fmt_debug socket_path]
    end
  else
    match UnixStyleAbsolutePath_parse socket_path with
    | Some path => Ok (UnixStyleAbsolute path)
    | None => Err [lit "expected an absolute path, got " ++ fmt_debug socket_path]
    end.

Fixpoint validate_socket_paths (index : nat) (paths : list str) : result () anyhow :=
  match paths with
  | [] => Ok ()
  | path :: paths =>
      let? _ := context (lit "invalid network.allow_unix_sockets[" ++ fmt_nat index ++ lit "]")
                  (socket_path_parse path) in
      validate_socket_paths (S index) paths
  end.

Definition validate_unix_socket_allowlist_paths c : result () anyhow :=
  validate_socket_paths 0 (allow_unix_sockets c).

(** [SocketAddressParts]: a host and a port. *)
Definition missing_host (url : str) : anyhow := [lit "missing host in network proxy address: " ++ url].

Definition parse_host_port_fallback (input : str) (default_port : N) : result (str * N) anyhow :=
  let without_scheme := default input (snd <$> split_once_str (lit "://") input) in
  let host_port := default without_scheme (head (split_on 47 without_scheme)) in
  let host_port := default host_port (snd <$> rsplit_once 64 host_port) in
  let unbracketed :=
    match (if count_char colon host_port =? 1 then rsplit_once colon host_port else None) with
    | Some (host, port) =>
        if is_empty host then Err (missing_host input)
        else Ok (host, default default_port (parse_u16 port))
    | None =>
        if is_empty host_port then Err (missing_host input) else Ok (host_port, default_port)
    end in
  match host_port with
  | 91%N :: rest =>
      match split_once 93 rest with
      | Some (host, after) =>
          let port := default default_port (p ← strip_prefix [colon] after; parse_u16 p) in
          if is_empty host then Err (missing_host input) else Ok (host, port)
      | None => unbracketed
      end
  | _ => unbracketed
  end.

Definition is_bracket (c : char) : bool := (c =? 91)%N || (c =? 93)%N.
Definition trim_matches (p : char → bool) (s : str) : str := trim_end_matches p (trim_start_matches p s).

Definition is_v6 (o : option IpAddr) : bool := match o with Some (V6 _) => true | _ => false end.

Definition parse_host_port (url : str) (default_port : N) : result (str * N) anyhow :=
  let trimmed := trim url in
  if is_empty trimmed then Err (missing_host url)
  else if is_v6 (parse_ip trimmed) && negb (starts_with trimmed [91%N])
  then Ok (trimmed, default_port)
  else
    let candidate :=
      if contains_str trimmed (lit "://") then trimmed else lit "http://" ++ trimmed in
    match (parsed ← url_parse candidate; host ← host_str parsed; Some (parsed, host)) with
    | Some (parsed, host) =>
        let host := trim_matches is_bracket host in
        if is_empty host then Err (missing_host url)
        else Ok (host, default default_port (url_port parsed))
    | None => parse_host_port_fallback trimmed default_port
    end.

Definition resolve_addr (url : str) (default_port : N) : result SocketAddr anyhow :=
  let? '(host, port) := parse_host_port url default_port in
  let host := if eq_ignore_ascii_case host (lit "localhost") then lit "127.0.0.1" else host in
  match parse_ip host with
  | Some ip => Ok {| ip := ip; port := port |}
  | None => Ok (localhost_v4 port)
  end.

Definition resolve_runtime c : result (SocketAddr * SocketAddr) anyhow :=
  let? _ := validate_unix_socket_allowlist_paths c in
  let? http_addr := context (lit "invalid network.proxy_url: " ++ proxy_url c)
                      (resolve_addr (proxy_url c) 3128) in
  let? socks_addr := context (lit "invalid network.socks_url: " ++ socks_url c)
                       (resolve_addr (socks_url c) 8081) in
  Ok (clamp_bind_addrs http_addr socks_addr c).

Definition format_host_and_port (host : str) (port : N) : str :=
  if contains_char host colon then lit "[" ++ host ++ lit "]:" ++ fmt_N port
  else host ++ lit ":" ++ fmt_N port.

Definition host_and_port_from_network_addr (value : str) (default_port : N) : str :=
  let trimmed := trim value in
  if is_empty trimmed then lit "<missing>"
  else
    match parse_host_port trimmed default_port with
    | Ok (host, port) => format_host_and_port host port
    | Err _ => format_host_and_port trimmed default_port
    end.

Definition managed_proxy_ports c : result (list N) anyhow :=
  let? '(http_addr, socks_addr) := resolve_runtime c in
  if (port http_addr =? 0)%N
  then Err [lit "network.proxy_url must use a fixed non-zero port for managed proxy provisioning"]
  else if enable_socks5 c && (port socks_addr =? 0)%N
  then Err [lit "network.socks_url must use a fixed non-zero port for managed proxy provisioning"]
  else
    let ports := port http_addr :: (if enable_socks5 c then [port socks_addr] else []) in
    Ok (dedup (merge_sort N.le ports)).

(** ** Constraints *)

Record NetworkProxyConstraints := {
  k_enabled : option bool;
  k_mode : option NetworkMode;
  k_allow_upstream_proxy : option bool;
  k_non_loopback_proxy : option bool;
  k_all_unix_sockets : option bool;
  k_allowed_domains : option (list str);
  k_allowlist_expansion_enabled : option bool;
  k_denied_domains : option (list str);
  k_denylist_expansion_enabled : option bool;
  k_allow_unix_sockets : option (list str);
  k_allow_local_binding : option bool;
}.

(** [InvalidValue]. *)
Record NetworkProxyConstraintError := { field_name : str; candidate : str; allowed : str }.

Definition invalid_value (field candidate allowed : str) : result () NetworkProxyConstraintError :=
  Err {| field_name := field; candidate := candidate; allowed := allowed |}.

Definition disabled_by_managed : str := lit "false (disabled by managed config)".

(** A setting that may not be on. *)
Definition reject_true (field : str) (on : bool) : result () NetworkProxyConstraintError :=
  if on then invalid_value field (lit "true") disabled_by_managed else Ok ().

Definition validate_non_global_wildcard_domain_patterns (field : str) (patterns : list str)
  : result () NetworkProxyConstraintError :=
  match find is_global_wildcard_domain_pattern patterns with
  | Some p =>
      invalid_value field (trim p)
        (lit "exact hosts or scoped wildcards like *.example.com or **.example.com")
  | None => Ok ()
  end.

Fixpoint validate_hooks (index : nat) (hooks : list MitmHookConfig) : result () anyhow :=
  match hooks with
  | [] => Ok ()
  | hook :: hooks => let? _ := validate_hook index hook in validate_hooks (S index) hooks
  end.

Definition validate_mitm_hook_config c : result () anyhow :=
  if is_empty (mitm_hooks c) then Ok ()
  else if negb (mitm c) then Err [lit "network.mitm_hooks requires network.mitm = true"]
  else validate_hooks 0 (mitm_hooks c).

(** The outermost message of the error. *)
Definition invalid_mitm_hook_configuration (err : anyhow) : NetworkProxyConstraintError :=
  {| field_name := lit "network.mitm_hooks"; candidate := default [] (head err);
     allowed := lit "valid MITM hook configuration" |}.

Definition network_mode_rank (m : NetworkMode) : nat := match m with Limited => 0 | Full => 1 end.
Definition fmt_mode (m : NetworkMode) : str := match m with Limited => lit "Limited" | Full => lit "Full" end.

Definition fmt_debug_list (l : list str) : str :=
  lit "[" ++ join (lit ", ") (fmt_debug <$> l) ++ lit "]".

(** The set of the entries in lower case; a set is iterated in the order of
    [elements]. *)
Definition lower_set (l : list str) : gset str := list_to_set (to_ascii_lowercase <$> l).

Definition missing_entries (field what : str) (missing : gset str)
  : result () NetworkProxyConstraintError :=
  if bool_decide (missing = ∅) then Ok ()
  else invalid_value field what (fmt_debug_list (elements missing)).

Definition validate_allowed_domains (allowed denied managed : list str) (expansion : option bool)
  : result () NetworkProxyConstraintError :=
  let field := lit "network.allowed_domains" in
  match expansion with
  | Some true =>
      missing_entries field (lit "missing managed allowed_domains entries")
        (lower_set managed ∖ lower_set allowed ∖ lower_set denied)
  | Some false =>
      if bool_decide (lower_set allowed = lower_set managed ∖ lower_set denied) then Ok ()
      else invalid_value field (fmt_debug_list allowed) (lit "must match managed allowed_domains")
  | None =>
      let managed := pattern_parse_for_constraints <$> managed in
      let invalid := base.filter (λ entry,
        existsb (λ m, allows m (pattern_parse_for_constraints entry)) managed = false) allowed in
      if is_empty invalid then Ok ()
      else invalid_value field (fmt_debug_list invalid) (lit "subset of managed allowed_domains")
  end.

Definition validate_denied_domains (denied managed : list str) (expansion : option bool)
  : result () NetworkProxyConstraintError :=
  let field := lit "network.denied_domains" in
  match expansion with
  | Some false =>
      if bool_decide (lower_set denied = lower_set managed) then Ok ()
      else invalid_value field (fmt_debug_list denied) (lit "must match managed denied_domains")
  | Some true | None =>
      missing_entries field (lit "missing managed denied_domains entries")
        (lower_set managed ∖ lower_set denied)
  end.

Definition validate_policy_against_constraints (c : NetworkProxyConfig) (k : NetworkProxyConstraints)
  : result () NetworkProxyConstraintError :=
  let config_allowed := default [] (allowed_domains c) in
  let config_denied := default [] (denied_domains c) in
  let? _ := rmap_err invalid_mitm_hook_configuration (validate_mitm_hook_config c) in
  let? _ := validate_non_global_wildcard_domain_patterns (lit "network.denied_domains")
              config_denied in
  let? _ := match k_enabled k with
            | Some max_enabled => reject_true (lit "network.enabled") (enabled c && negb max_enabled)
            | None => Ok ()
            end in
  let? _ := match k_mode k with
            | Some max_mode =>
                if network_mode_rank max_mode <? network_mode_rank (mode c)
                then invalid_value (lit "network.mode") (fmt_mode (mode c))
                       (fmt_mode max_mode ++ lit " or more restrictive")
                else Ok ()
            | None => Ok ()
            end in
  let? _ := match k_allow_upstream_proxy k with
            | Some true | None => Ok ()
            | Some false => reject_true (lit "network.allow_upstream_proxy") (allow_upstream_proxy c)
            end in
  let? _ := match k_non_loopback_proxy k with
            | Some true | None => Ok ()
            | Some false =>
                reject_true (lit "network.dangerously_allow_non_loopback_proxy")
                  (dangerously_allow_non_loopback_proxy c)
            end in
  let allow_all := default (is_none (k_allow_unix_sockets k)) (k_all_unix_sockets k) in
  let? _ := reject_true (lit "network.dangerously_allow_all_unix_sockets")
              (dangerously_allow_all_unix_sockets c && negb allow_all) in
  let? _ := match k_allow_local_binding k with
            | Some allow => reject_true (lit "network.allow_local_binding")
                              (allow_local_binding c && negb allow)
            | None => Ok ()
            end in
  let? _ := match k_allowed_domains k with
            | Some managed =>
                let? _ := validate_non_global_wildcard_domain_patterns
                            (lit "network.allowed_domains") managed in
                validate_allowed_domains config_allowed config_denied managed
                  (k_allowlist_expansion_enabled k)
            | None => Ok ()
            end in
  let? _ := match k_denied_domains k with
            | Some managed =>
                let? _ := validate_non_global_wildcard_domain_patterns
                            (lit "network.denied_domains") managed in
                validate_denied_domains config_denied managed (k_denylist_expansion_enabled k)
            | None => Ok ()
            end in
  match k_allow_unix_sockets k with
  | Some managed =>
      let invalid := base.filter (λ entry, to_ascii_lowercase entry ∉ lower_set managed)
                       (allow_unix_sockets c) in
      if is_empty invalid then Ok ()
      else invalid_value (lit "network.allow_unix_sockets") (fmt_debug_list invalid)
             (lit "subset of managed allow_unix_sockets")
  | None => Ok ()
  end.

Definition default_constraints : NetworkProxyConstraints := {|
  k_enabled := None; k_mode := None; k_allow_upstream_proxy := None;
  k_non_loopback_proxy := None; k_all_unix_sockets := None; k_allowed_domains := None;
  k_allowlist_expansion_enabled := None; k_denied_domains := None;
  k_denylist_expansion_enabled := None; k_allow_unix_sockets := None;
  k_allow_local_binding := None;
|}.

(** ** The compiled state *)

Record BlockedRequest := {
  blocked_host : str;
  blocked_reason : str;
  blocked_client : option str;
  blocked_method : option str;
  blocked_mode : option NetworkMode;
  blocked_protocol : str;
  blocked_execution_id : option str;
  blocked_decision : option str;
  blocked_source : option str;
  blocked_port : option N;
  blocked_timestamp : Z;
}.

Record ConfigState := {
  config : NetworkProxyConfig;
  brokerage_created_default_allowlist : bool;
  allow_set : GlobSet;
  deny_set : GlobSet;
  mitm_state : option MitmState;
  compiled_hooks : MitmHooksByHost;
  constraints : NetworkProxyConstraints;
  blocked : list BlockedRequest;
  blocked_total : N;
}.

Definition compile_mitm_hooks c : result MitmHooksByHost anyhow :=
  let? _ := validate_mitm_hook_config c in compile_hooks (mitm_hooks c).

Definition fmt_constraint_error (e : NetworkProxyConstraintError) : str :=
  lit "invalid value for " ++ field_name e ++ lit ": " ++ candidate e
  ++ lit " (allowed " ++ allowed e ++ lit ")".

Definition into_anyhow (e : NetworkProxyConstraintError) : anyhow := [fmt_constraint_error e].

(** The configuration [build_config_state] compiles: the credential broker may
    turn the proxy on and allow every domain by default. *)
Definition broker_config (c : NetworkProxyConfig) (k : NetworkProxyConstraints)
  : NetworkProxyConfig * bool :=
  let c := if bool_decide (k_enabled k = Some false) then set_credential_broker c false else c in
  let created_proxy := credential_broker c && negb (enabled c) in
  let created_allowlist :=
    created_proxy && is_none (allowed_domains c) && is_none (k_allowed_domains k) in
  let c := if created_proxy then set_enabled c true else c in
  let c := if created_allowlist then set_allowed_domains c [lit "*"] else c in
  (c, created_allowlist).

Definition build_config_state (c : NetworkProxyConfig) (k : NetworkProxyConstraints)
  : result ConfigState anyhow :=
  let '(c, created_allowlist) := broker_config c k in
  let? _ := validate_unix_socket_allowlist_paths c in
  if negb (negb (credential_broker c) || mitm c)
  then Err [lit "network.credential_broker requires network.mitm = true"]
  else
    let allowed := default [] (allowed_domains c) in
    let denied := default [] (denied_domains c) in
    let? _ := rmap_err into_anyhow
                (validate_non_global_wildcard_domain_patterns (lit "network.denied_domains") denied) in
    let? deny_set := rmap_err (λ e, [e]) (compile_denylist_globset denied) in
    let? allow_set := rmap_err (λ e, [e]) (compile_allowlist_globset allowed) in
    let? hooks := compile_mitm_hooks c in
    let? mitm := if mitm c then rmap Some (mitm_state_new (allow_upstream_proxy c)) else Ok None in
    Ok {| config := c; brokerage_created_default_allowlist := created_allowlist;
          allow_set := allow_set; deny_set := deny_set; mitm_state := mitm;
          compiled_hooks := hooks; constraints := k; blocked := []; blocked_total := 0 |}.
End config.

(** ** The domain lists *)

Section lists.
Context `{Externals, MitmHooks, GlobUrl}.
Implicit Types c : NetworkProxyConfig.

(** The entries of a configuration. *)
Definition entries_of c : NetworkDomainPermissions := default [] (domains c).

Lemma nonempty_default {A} (l : list A) : default [] (nonempty l) = l.
Proof. by destruct l. Qed.

Lemma domain_entries_elem c p q :
  q ∈ default [] (domain_entries c p) ↔
  {| pattern := q; permission := p |} ∈ effective_entries (entries_of c).
Proof.
  unfold domain_entries, entries_of. destruct (domains c) as [ds|]; simpl.
  - rewrite nonempty_default, list_elem_of_fmap. setoid_rewrite list_elem_of_filter. split.
    + intros ([q' p'] & -> & Hp & Hin). simpl in *. by subst.
    + intros Hin. by exists {| pattern := q; permission := p |}.
  - split; [by intros ?%not_elem_of_nil|]. rewrite effective_entries_strongest.
    by intros [?%not_elem_of_nil _].
Qed.

(** A pattern is denied if an entry denies it, allowed if an entry allows it and
    none denies it. *)
Lemma denied_elem c q :
  q ∈ default [] (denied_domains c) ↔ {| pattern := q; permission := PDeny |} ∈ entries_of c.
Proof. unfold denied_domains. by rewrite domain_entries_elem, effective_deny. Qed.

Lemma allowed_elem c q :
  q ∈ default [] (allowed_domains c) ↔
  {| pattern := q; permission := PAllow |} ∈ entries_of c ∧
  {| pattern := q; permission := PDeny |} ∉ entries_of c.
Proof. unfold allowed_domains. by rewrite domain_entries_elem, effective_allow. Qed.

Lemma domain_entries_None c p : domain_entries c p = None ↔ default [] (domain_entries c p) = [].
Proof.
  split; [by intros ->|]. unfold domain_entries. destruct (domains c) as [ds|]; simpl; [|done].
  unfold nonempty. destruct (pattern <$> _); [done|]. done.
Qed.

Lemma push_entries_elem p ds l e :
  e ∈ foldl (push_entry p) ds l ↔ e ∈ ds ∨ permission e = p ∧ pattern e ∈ l.
Proof.
  revert ds; induction l as [|x l IH]; intros ds; simpl; [set_solver|].
  rewrite IH. unfold push_entry. destruct e as [q r]. simpl.
  case_bool_decide as Hx.
  - rewrite elem_of_cons. split; [naive_solver|]. intros [?|[-> [->|?]]]; auto.
  - rewrite elem_of_app, list_elem_of_singleton, elem_of_cons. split; [|naive_solver].
    intros [[?|[= -> ->]]|[-> ?]]; auto.
Qed.

Lemma set_domain_entries_elem c l p e :
  e ∈ entries_of (set_domain_entries c l p) ↔
  e ∈ entries_of c ∧ permission e ≠ p ∨ permission e = p ∧ pattern e ∈ l.
Proof.
  unfold set_domain_entries, entries_of. simpl.
  rewrite nonempty_default, push_entries_elem, list_elem_of_filter. naive_solver.
Qed.

Lemma upsert_elem c h p n e :
  e ∈ entries_of (upsert_domain_permission c h p n) ↔
  e ∈ entries_of c ∧ n (pattern e) ≠ n h ∨ e = {| pattern := h; permission := p |}.
Proof.
  unfold upsert_domain_permission, entries_of. simpl.
  rewrite nonempty_default, elem_of_app, list_elem_of_filter, list_elem_of_singleton. naive_solver.
Qed.
End lists.

(** ** Listener addresses are local *)

Section bind.
Context `{Externals, MitmHooks, GlobUrl}.
Implicit Types c : NetworkProxyConfig.

Lemma clamp_loopback addr : is_loopback (ip (clamp_non_loopback addr false)) = true.
Proof. unfold clamp_non_loopback. by destruct (is_loopback (ip addr)) eqn:?. Qed.

Lemma clamp_port addr b : port (clamp_non_loopback addr b) = port addr.
Proof. unfold clamp_non_loopback. by repeat case_match. Qed.

(** The listeners are reachable from other machines only if the
    configuration says so and no unix socket is proxied: otherwise both
    resolved addresses are loopback addresses.  Ports are kept. *)
Theorem resolve_runtime_loopback c http_addr socks_addr :
  resolve_runtime c = Ok (http_addr, socks_addr) →
  dangerously_allow_non_loopback_proxy c = false ∨
  allow_unix_sockets c ≠ [] ∨ dangerously_allow_all_unix_sockets c = true →
  is_loopback (ip http_addr) = true ∧ is_loopback (ip socks_addr) = true ∧
  (∃ a, resolve_addr (proxy_url c) 3128 = Ok a ∧ port http_addr = port a) ∧
  (∃ a, resolve_addr (socks_url c) 8081 = Ok a ∧ port socks_addr = port a).
Proof.
  unfold resolve_runtime. destruct (validate_unix_socket_allowlist_paths c) as [[]|]; [|done].
  destruct (resolve_addr (proxy_url c) 3128) as [a|]; [|done].
  destruct (resolve_addr (socks_url c) 8081) as [b|]; [|done]. simpl.
  unfold clamp_bind_addrs. intros Hr Hc. case_match eqn:Hu.
  - injection Hr as <- <-. apply andb_true_iff in Hu as [Hu Hall].
    apply is_empty_true in Hu. apply negb_true_iff in Hall.
    assert (dangerously_allow_non_loopback_proxy c = false) as ->
      by (destruct Hc as [?|[?|?]]; congruence).
    rewrite !clamp_loopback, !clamp_port. split_and!; eauto.
  - injection Hr as <- <-. simpl. rewrite !clamp_port. split_and!; eauto.
Qed.
End bind.

(** ** What the constraints demand *)

Section constraints.
Context `{Externals, MitmHooks, GlobUrl}.
Implicit Types (c : NetworkProxyConfig) (k : NetworkProxyConstraints).

Definition no_global_wildcard (patterns : list str) : Prop :=
  Forall (λ p, is_global_wildcard_domain_pattern p = false) patterns.

(** [sub] relates a managed pattern to a pattern below it. *)
Definition allowed_ok (sub : DomainPattern → DomainPattern → Prop)
    (allowed denied managed : list str) (expansion : option bool) : Prop :=
  match expansion with
  | Some true => lower_set managed ⊆ lower_set allowed ∪ lower_set denied
  | Some false => lower_set allowed = lower_set managed ∖ lower_set denied
  | None =>
      ∀ e, e ∈ allowed → ∃ m, m ∈ managed ∧
        sub (pattern_parse_for_constraints m) (pattern_parse_for_constraints e)
  end.

Definition denied_ok (denied managed : list str) (expansion : option bool) : Prop :=
  match expansion with
  | Some false => lower_set denied = lower_set managed
  | _ => lower_set managed ⊆ lower_set denied
  end.

(** A configuration within its constraints. *)
Record complies_by (sub : DomainPattern → DomainPattern → Prop) c k : Prop := {
  comply_hooks : validate_mitm_hook_config c = Ok ();
  comply_wildcard : no_global_wildcard (default [] (denied_domains c));
  comply_enabled : k_enabled k = Some false → enabled c = false;
  comply_mode m : k_mode k = Some m → network_mode_rank (mode c) ≤ network_mode_rank m;
  comply_upstream : k_allow_upstream_proxy k = Some false → allow_upstream_proxy c = false;
  comply_loopback :
    k_non_loopback_proxy k = Some false → dangerously_allow_non_loopback_proxy c = false;
  comply_all_sockets :
    default (is_none (k_allow_unix_sockets k)) (k_all_unix_sockets k) = false →
    dangerously_allow_all_unix_sockets c = false;
  comply_local : k_allow_local_binding k = Some false → allow_local_binding c = false;
  comply_allowed managed : k_allowed_domains k = Some managed →
    no_global_wildcard managed ∧
    allowed_ok sub (default [] (allowed_domains c)) (default [] (denied_domains c)) managed
      (k_allowlist_expansion_enabled k);
  comply_denied managed : k_denied_domains k = Some managed →
    no_global_wildcard managed ∧
    denied_ok (default [] (denied_domains c)) managed (k_denylist_expansion_enabled k);
  comply_sockets managed : k_allow_unix_sockets k = Some managed →
    lower_set (allow_unix_sockets c) ⊆ lower_set managed;
}.

(** Patterns compared as the code compares them. *)
Definition sub_allows (m e : DomainPattern) : Prop := allows m e = true.
Definition complies c k : Prop := complies_by sub_allows c k.

Lemma rbind_unit_ok {E A} (r : result () E) (k : () → result A E) a :
  rbind r k = Ok a ↔ r = Ok () ∧ k () = Ok a.
Proof. destruct r as [[]|]; simpl; naive_solver. Qed.

Lemma reject_true_ok field b : reject_true field b = Ok () ↔ b = false.
Proof. destruct b; simpl; naive_solver. Qed.

Lemma wildcard_patterns_ok field ps :
  validate_non_global_wildcard_domain_patterns field ps = Ok () ↔ no_global_wildcard ps.
Proof.
  unfold validate_non_global_wildcard_domain_patterns, no_global_wildcard.
  induction ps as [|p ps IH]; simpl; [by split|]. rewrite Forall_cons, <- IH.
  destruct (is_global_wildcard_domain_pattern p); naive_solver.
Qed.

Lemma missing_entries_ok field what X : missing_entries field what X = Ok () ↔ X = ∅.
Proof. unfold missing_entries. case_bool_decide; naive_solver. Qed.

Lemma is_empty_filter_ok {A} (P : A → Prop) `{∀ x, Decision (P x)} (l : list A) :
  is_empty (base.filter P l) = true ↔ ∀ x, x ∈ l → ¬ P x.
Proof.
  rewrite is_empty_true. split.
  - intros Hf x Hx HP. assert (x ∈ base.filter P l) as Hin by by apply list_elem_of_filter.
    rewrite Hf in Hin. by apply not_elem_of_nil in Hin.
  - intros Hno. destruct (base.filter P l) as [|x l'] eqn:Hf; [done|].
    assert (x ∈ base.filter P l) as [HP Hx]%list_elem_of_filter by (rewrite Hf; left).
    by destruct (Hno x Hx).
Qed.

Lemma difference_empty_iff (X Y : gset str) : X ∖ Y = ∅ ↔ X ⊆ Y.
Proof. split; [apply empty_difference_subseteq_L|apply subseteq_empty_difference_L]. Qed.

Lemma validate_allowed_ok al de ma ex :
  validate_allowed_domains al de ma ex = Ok () ↔ allowed_ok sub_allows al de ma ex.
Proof.
  unfold validate_allowed_domains, allowed_ok. destruct ex as [[]|].
  - by rewrite missing_entries_ok, difference_difference_l_L, difference_empty_iff.
  - case_bool_decide; naive_solver.
  - case_match eqn:He.
    + rewrite is_empty_filter_ok in He. split; [intros _ e Hin|done].
      specialize (He e Hin). apply not_false_is_true, existsb_elem in He as (m & Hm & Ha).
      apply list_elem_of_fmap in Hm as (m' & -> & Hm). eauto.
    + split; [done|]. intros Hall. exfalso. apply not_true_iff_false in He. apply He.
      apply is_empty_filter_ok. intros e Hin. destruct (Hall e Hin) as (m & Hm & Ha).
      apply not_false_iff_true, existsb_elem. eexists. split; [by apply list_elem_of_fmap_2|done].
Qed.

Lemma validate_denied_ok de ma ex : validate_denied_domains de ma ex = Ok () ↔ denied_ok de ma ex.
Proof.
  unfold validate_denied_domains, denied_ok. destruct ex as [[]|].
  - by rewrite missing_entries_ok, difference_empty_iff.
  - case_bool_decide; naive_solver.
  - by rewrite missing_entries_ok, difference_empty_iff.
Qed.

Lemma sockets_ok (l managed : list str) :
  is_empty (base.filter (λ e, to_ascii_lowercase e ∉ lower_set managed) l) = true ↔
  lower_set l ⊆ lower_set managed.
Proof.
  rewrite is_empty_filter_ok. unfold lower_set. split.
  - intros Hl x. rewrite !elem_of_list_to_set. intros (e & -> & He)%list_elem_of_fmap.
    destruct (decide (to_ascii_lowercase e ∈ (list_to_set (to_ascii_lowercase <$> managed) : gset str)))
      as [Hin|Hin]; [by rewrite elem_of_list_to_set in Hin|]. by destruct (Hl e He).
  - intros Hs x Hx Hn. apply Hn, Hs. apply elem_of_list_to_set, list_elem_of_fmap_2, Hx.
Qed.

Lemma rmap_err_ok {A E F} (f : E → F) (r : result A E) a : rmap_err f r = Ok a ↔ r = Ok a.
Proof. destruct r; simpl; naive_solver. Qed.

(** An optional check. *)
Lemma option_check_ok {A E} (o : option A) (f : A → result () E) :
  match o with Some a => f a | None => Ok () end = Ok () ↔ ∀ a, o = Some a → f a = Ok ().
Proof. destruct o; naive_solver. Qed.

Lemma flag_check_ok field (o : option bool) b :
  match o with Some true | None => Ok () | Some false => reject_true field b end = Ok () ↔
  (o = Some false → b = false).
Proof. destruct o as [[]|]; rewrite ?reject_true_ok; naive_solver. Qed.

Lemma max_check_ok field (o : option bool) b :
  match o with Some m => reject_true field (b && negb m) | None => Ok () end = Ok () ↔
  (o = Some false → b = false).
Proof. destruct o as [[]|], b; simpl; naive_solver. Qed.

Lemma mode_check_ok c k :
  match k_mode k with
  | Some max_mode =>
      if network_mode_rank max_mode <? network_mode_rank (mode c)
      then invalid_value (lit "network.mode") (fmt_mode (mode c))
             (fmt_mode max_mode ++ lit " or more restrictive")
      else Ok ()
  | None => Ok ()
  end = Ok () ↔ ∀ m, k_mode k = Some m → network_mode_rank (mode c) ≤ network_mode_rank m.
Proof.
  destruct (k_mode k) as [m|]; [|naive_solver].
  destruct (Nat.ltb_spec (network_mode_rank m) (network_mode_rank (mode c))).
  - split; [done|]. intros Hm. specialize (Hm m eq_refl). lia.
  - split; [|done]. by intros _ ? [= <-].
Qed.

(** The checks succeed exactly on the configurations within the constraints. *)
Lemma validate_complies c k : validate_policy_against_constraints c k = Ok () ↔ complies c k.
Proof.
  unfold validate_policy_against_constraints.
  rewrite !rbind_unit_ok, rmap_err_ok, wildcard_patterns_ok, max_check_ok, mode_check_ok,
    !flag_check_ok, reject_true_ok, max_check_ok, !option_check_ok.
  setoid_rewrite rbind_unit_ok. setoid_rewrite wildcard_patterns_ok.
  setoid_rewrite validate_allowed_ok. setoid_rewrite validate_denied_ok.
  assert (∀ managed, (let invalid := base.filter (λ entry, to_ascii_lowercase entry ∉ lower_set managed)
                       (allow_unix_sockets c) in
      if is_empty invalid then Ok ()
      else invalid_value (lit "network.allow_unix_sockets") (fmt_debug_list invalid)
             (lit "subset of managed allow_unix_sockets")) = Ok () ↔
      lower_set (allow_unix_sockets c) ⊆ lower_set managed) as Hs.
  { intros managed. simpl. rewrite <- sockets_ok. destruct (is_empty _); naive_solver. }
  setoid_rewrite Hs. rewrite andb_false_iff, negb_false_iff.
  split.
  - intros (? & ? & ? & ? & ? & ? & Hall & ? & ? & ? & ?).
    split; try done. intros Hd. destruct Hall as [?|?]; congruence.
  - intros []. split_and!; try done.
    destruct (default (is_none (k_allow_unix_sockets k)) (k_all_unix_sockets k));
      [by right|left; auto].
Qed.

(** ** Compiling a configuration keeps it within its constraints *)

Lemma lower_set_elem (l l' : list str) : (∀ x, x ∈ l ↔ x ∈ l') → lower_set l = lower_set l'.
Proof.
  intros Hl. apply set_eq. intros x. unfold lower_set.
  rewrite !elem_of_list_to_set, !list_elem_of_fmap. by setoid_rewrite Hl.
Qed.

(** The default allowlist changes no denied pattern. *)
Lemma denied_set_allowed c l q :
  q ∈ default [] (denied_domains (set_allowed_domains c l)) ↔ q ∈ default [] (denied_domains c).
Proof.
  rewrite !denied_elem. unfold set_allowed_domains. rewrite set_domain_entries_elem. simpl.
  naive_solver.
Qed.

Lemma broker_config_complies c k : complies c k → complies (broker_config c k).1 k.
Proof.
  intros Hc. unfold broker_config.
  assert (complies (if bool_decide (k_enabled k = Some false) then set_credential_broker c false else c) k)
    as Hc1 by (case_bool_decide; [by destruct Hc|done]).
  set (c1 := if bool_decide _ then _ else _) in *.
  destruct (credential_broker c1 && negb (enabled c1)) eqn:Hcr; simpl; [|done].
  assert (k_enabled k ≠ Some false) as Hen.
  { intros Hk. unfold c1 in Hcr. rewrite bool_decide_eq_true_2 in Hcr by done. done. }
  assert (complies (set_enabled c1 true) k) as Hc2 by (destruct Hc1; split; done).
  destruct (is_none (allowed_domains c1) && is_none (k_allowed_domains k)) eqn:Hal; [|done].
  apply andb_true_iff in Hal as [_ Hka]. destruct (k_allowed_domains k) eqn:Hk; [done|].
  pose proof (denied_set_allowed (set_enabled c1 true) [lit "*"]) as Hd.
  destruct Hc2. split; try done.
  - unfold no_global_wildcard in *. rewrite Forall_forall in *. intros p Hp.
    apply comply_wildcard0. by apply Hd.
  - intros managed Hm. congruence.
  - intros managed Hm. destruct (comply_denied0 managed Hm) as [Hw Hok]. split; [done|].
    unfold denied_ok in *. by rewrite (lower_set_elem _ _ Hd).
Qed.

(** What a successful build returns. *)
Lemma build_config_state_inv c k s :
  build_config_state c k = Ok s →
  config s = (broker_config c k).1 ∧ constraints s = k ∧ blocked s = [] ∧ blocked_total s = 0%N ∧
  compile_allowlist_globset (default [] (allowed_domains (config s))) = Ok (allow_set s) ∧
  compile_denylist_globset (default [] (denied_domains (config s))) = Ok (deny_set s).
Proof.
  unfold build_config_state. destruct (broker_config c k) as [c' cr]. simpl.
  destruct (validate_unix_socket_allowlist_paths c'); [|done]. simpl.
  destruct (negb _); [done|]. destruct (rmap_err into_anyhow _); [|done]. simpl.
  destruct (compile_denylist_globset _) eqn:Hd; [|done]. simpl.
  destruct (compile_allowlist_globset _) eqn:Ha; [|done]. simpl.
  destruct (compile_mitm_hooks c'); [|done]. simpl.
  destruct (if mitm c' then _ else _); [|done]. simpl. by intros [= <-].
Qed.

(** C39: the check of a configuration against the managed constraints is exact:
    for every configuration it succeeds if and only if every setting is within
    its constraint.  Without an expansion setting each allowed pattern must be
    below one managed pattern: for patterns that are a domain with an optional
    wildcard prefix, its hosts are among the hosts of the managed pattern; for
    the others (an entry with a wildcard inside a label, or one that is no host
    and so has the empty domain) the texts the code makes of them are compared,
    as [unparsable_entries_are_equal] shows. *)
Theorem validate_exact c k :
  validate_policy_against_constraints c k = Ok () ↔ complies_by pattern_below c k.
Proof.
  rewrite validate_complies.
  assert (∀ ma, allowed_ok sub_allows (default [] (allowed_domains c)) (default [] (denied_domains c))
                  ma (k_allowlist_expansion_enabled k) ↔
                allowed_ok pattern_below (default [] (allowed_domains c)) (default [] (denied_domains c))
                  ma (k_allowlist_expansion_enabled k)) as Hok.
  { intros ma. unfold allowed_ok. destruct (k_allowlist_expansion_enabled k) as [[]|]; [done..|].
    unfold sub_allows. by setoid_rewrite allows_below. }
  split; intros [? ? ? ? ? ? ? ? Hal ? ?]; (split; try done); intros ma Hma;
    destruct (Hal ma Hma); (split; [done|by apply Hok]).
Qed.
End constraints.
