(* ===== verification/NetProxy.v ===== *)
(** * The network proxy at run time

    [codex-rs/network-proxy/src/runtime.rs], [network_policy.rs] and
    [connect_policy.rs]: the shared state with its reloads and updates, the
    decision on a host, the policy decision with its audit event, and the check
    of the address a connection goes to.  The operations on the shared state are
    also given as the critical sections other tasks can run between. *)

From Stdlib Require Import ZifyBool.
From S2P Require Import Prelude RustStr UnixPath NetAddr NetHost NetConfig.

Definition MAX_BLOCKED_EVENTS : nat := 200.

(** ** Decisions on a host *)

Inductive HostBlockReason := Denied | NotAllowed | NotAllowedLocal.

Definition reason_str (r : HostBlockReason) : str :=
  match r with
  | Denied => lit "denied"
  | NotAllowed => lit "not_allowed"
  | NotAllowedLocal => lit "not_allowed_local"
  end.

Inductive HostBlockDecision := Allowed | Blocked (reason : HostBlockReason).

#[global] Instance HostBlockReason_eq_dec : EqDecision HostBlockReason.
Proof. solve_decision. Defined.
#[global] Instance HostBlockDecision_eq_dec : EqDecision HostBlockDecision.
Proof. solve_decision. Defined.

(** [tokio::net::lookup_host] under its timeout: [None] when it fails or times
    out. *)
Definition Lookup : Type := str → N → option (list SocketAddr).

Definition host_resolves_to_non_public_ip (lookup : Lookup) (host : str) (port : N) : bool :=
  match parse_ip host with
  | Some ip => is_non_public_ip ip
  | None =>
      match lookup host port with
      | Some addrs => existsb (λ addr, is_non_public_ip (ip addr)) addrs
      | None => true
      end
  end.

Definition is_explicit_local_allowlisted (allowed_domains : list str) (host : str) : bool :=
  let unscoped := unscoped_ip_literal host in
  existsb (λ pattern,
    let pattern := trim pattern in
    if bool_decide (pattern = lit "*") || starts_with pattern sub_prefix
       || starts_with pattern apex_prefix then false
    else if contains_char pattern 42 || contains_char pattern 63 then false
    else
      let normalized := normalize_host pattern in
      bool_decide (normalized = host) || is_some_and unscoped (λ ip, bool_decide (normalized = ip)))
    allowed_domains.

(** A literal of the local network. *)
Definition is_local_literal (host : str) : bool :=
  let host_no_scope := default host (unscoped_ip_literal host) in
  is_loopback_host host || is_some_and (parse_ip host_no_scope) is_non_public_ip.

Section runtime.
Context `{Externals, MitmHooks, GlobUrl}.
Implicit Types s : ConfigState.

(** The decision on a host in a state that needs no reload. *)
Definition decide_host (lookup : Lookup) s (host : str) (port : N) : HostBlockDecision :=
  match host_parse host with
  | Err _ => Blocked NotAllowed
  | Ok host =>
      let domains := allowed_domains (config s) in
      let is_allowlisted := globset_matches_host_or_unscoped (allow_set s) host in
      if globset_matches_host_or_unscoped (deny_set s) host then Blocked Denied
      else if negb (allow_local_binding (config s)) &&
              (if is_local_literal host
               then negb (is_explicit_local_allowlisted (default [] domains) host)
               else host_resolves_to_non_public_ip lookup host port)
      then Blocked NotAllowedLocal
      else if is_none domains || negb is_allowlisted then Blocked NotAllowed
      else Allowed
  end.

(** ** The shared state *)

Definition set_blocked s (l : list BlockedRequest) (total : N) : ConfigState :=
  {| config := config s;
     brokerage_created_default_allowlist := brokerage_created_default_allowlist s;
     allow_set := allow_set s; deny_set := deny_set s; mitm_state := mitm_state s;
     compiled_hooks := compiled_hooks s; constraints := constraints s;
     blocked := l; blocked_total := total |}.

Definition set_config s (c : NetworkProxyConfig) : ConfigState :=
  {| config := c; brokerage_created_default_allowlist := brokerage_created_default_allowlist s;
     allow_set := allow_set s; deny_set := deny_set s; mitm_state := mitm_state s;
     compiled_hooks := compiled_hooks s; constraints := constraints s;
     blocked := blocked s; blocked_total := blocked_total s |}.

(** What [maybe_reload] and [reload_now] answer. *)
Definition Reload : Type := result (option ConfigState) anyhow.

(** [reload_if_needed] when no other task runs in between. *)
Definition reload_if_needed (r : Reload) s : result ConfigState anyhow :=
  rmap (λ new, match new with
               | None => s
               | Some new => set_blocked new (blocked s) (blocked_total s)
               end) r.

Definition force_reload (r : result ConfigState anyhow) s : result ConfigState anyhow :=
  rmap (λ new, set_blocked new (blocked s) (blocked_total new)) r.

Definition replace_config_state (r : Reload) (new : ConfigState) s : result ConfigState anyhow :=
  let? s := reload_if_needed r s in Ok (set_blocked new (blocked s) (blocked_total s)).

Definition host_blocked (r : Reload) (lookup : Lookup) s (host : str) (port : N)
  : result (HostBlockDecision * ConfigState) anyhow :=
  let? s := reload_if_needed r s in Ok (decide_host lookup s host port, s).

Definition set_execution_id (e : BlockedRequest) (id : option str) : BlockedRequest :=
  {| blocked_host := blocked_host e; blocked_reason := blocked_reason e;
     blocked_client := blocked_client e; blocked_method := blocked_method e;
     blocked_mode := blocked_mode e; blocked_protocol := blocked_protocol e;
     blocked_execution_id := id; blocked_decision := blocked_decision e;
     blocked_source := blocked_source e; blocked_port := blocked_port e;
     blocked_timestamp := blocked_timestamp e |}.

(** The loop that pops from the front. *)
Fixpoint pop_excess (fuel : nat) (l : list BlockedRequest) : list BlockedRequest :=
  match fuel with
  | 0 => l
  | S fuel =>
      if MAX_BLOCKED_EVENTS <? length l then pop_excess fuel (drop 1 l) else l
  end.

(** The critical section of [record_blocked]. *)
Definition push_blocked (entry : BlockedRequest) s : ConfigState :=
  let l := blocked s ++ [entry] in
  set_blocked s (pop_excess (length l) l) (N.min u64_max (blocked_total s + 1)).

(** [record_blocked]; the entry that is stored goes to the observer too. *)
Definition record_blocked (r : Reload) (execution_id : option str) (entry : BlockedRequest) s
  : result (ConfigState * BlockedRequest) anyhow :=
  let? s := reload_if_needed r s in
  let entry := set_execution_id entry execution_id in
  Ok (push_blocked entry s, entry).

Definition blocked_snapshot (r : Reload) s : result (list BlockedRequest * ConfigState) anyhow :=
  let? s := reload_if_needed r s in Ok (blocked s, s).

Definition take_blocked s : list BlockedRequest * ConfigState :=
  (blocked s, set_blocked s [] (blocked_total s)).

Definition drain_blocked (r : Reload) s : result (list BlockedRequest * ConfigState) anyhow :=
  let? s := reload_if_needed r s in Ok (take_blocked s).

Definition method_allowed (r : Reload) s (method : str) : result (bool * ConfigState) anyhow :=
  let? s := reload_if_needed r s in Ok (allows_method (mode (config s)) method, s).

(** ** Updates *)

Inductive DomainListKind := AllowList | DenyList.

Definition list_name (t : DomainListKind) : str :=
  match t with AllowList => lit "allowlist" | DenyList => lit "denylist" end.
Definition constraint_field (t : DomainListKind) : str :=
  match t with AllowList => lit "network.allowed_domains" | DenyList => lit "network.denied_domains" end.
Definition kind_permission (t : DomainListKind) : NetworkDomainPermission :=
  match t with AllowList => PAllow | DenyList => PDeny end.
Definition kind_entries (t : DomainListKind) (c : NetworkProxyConfig) : list str :=
  default [] (match t with AllowList => allowed_domains c | DenyList => denied_domains c end).
Definition opposite_entries (t : DomainListKind) (c : NetworkProxyConfig) : list str :=
  default [] (match t with AllowList => denied_domains c | DenyList => allowed_domains c end).

Definition contains_host (entries : list str) (host : str) : bool :=
  existsb (λ entry, bool_decide (normalize_host entry = host)) entries.

(** The part of an iteration of [update_domain_list] before the write lock:
    [None] when there is nothing to do, otherwise the state to install. *)
Definition prepare_update (t : DomainListKind) (host : str) s : result (option ConfigState) anyhow :=
  let c := config s in
  if contains_host (kind_entries t c) host && negb (contains_host (opposite_entries t c) host)
  then Ok None
  else
    let candidate := upsert_domain_permission c host (kind_permission t) normalize_host in
    let? _ := context (constraint_field t ++ lit " constrained by managed config")
                (rmap_err into_anyhow (validate_policy_against_constraints candidate (constraints s))) in
    let? new := context (lit "failed to compile updated network " ++ list_name t)
                  (build_config_state candidate (constraints s)) in
    Ok (Some (set_blocked new (blocked s) (blocked_total s))).

(** [update_domain_list] when no other task runs in between: the first
    iteration commits. *)
Definition update_domain_list (r : Reload) (t : DomainListKind) (host : str) s
  : result ConfigState anyhow :=
  let? host := context (lit "invalid network host") (rmap_err (λ e, [e]) (host_parse host)) in
  let? s := reload_if_needed r s in
  let? new := prepare_update t host s in Ok (default s new).

Definition add_allowed_domain r host s := update_domain_list r AllowList host s.
Definition add_denied_domain r host s := update_domain_list r DenyList host s.

(** The part of an iteration of [set_network_mode] before the write lock. *)
Definition prepare_mode (m : NetworkMode) s : result () anyhow :=
  context (lit "network.mode constrained by managed config")
    (rmap_err into_anyhow
       (validate_policy_against_constraints (set_mode (config s) m) (constraints s))).

Definition set_network_mode (r : Reload) (m : NetworkMode) s : result ConfigState anyhow :=
  let? s := reload_if_needed r s in
  let? _ := prepare_mode m s in Ok (set_config s (set_mode (config s) m)).

(** ** Unix sockets *)

(** [std::fs::canonicalize], and whether the target is macOS. *)
Definition socket_matches (canonicalize : str → option str) (requested : str) (allowed : str) : bool :=
  match socket_path_parse allowed with
  | Ok (Native path) =>
      bool_decide (path = requested) ||
      match canonicalize requested, canonicalize path with
      | Some r, Some a => bool_decide (a = r)
      | _, _ => false
      end
  | Ok (UnixStyleAbsolute _) | Err _ => false
  end.

Definition is_unix_socket_allowed (macos : bool) (canonicalize : str → option str) (r : Reload)
    (path : str) s : result (bool * ConfigState) anyhow :=
  let? s := reload_if_needed r s in
  Ok (if negb macos then false
      else if negb (is_absolute path) then false
      else if dangerously_allow_all_unix_sockets (config s) then true
      else
        match from_absolute_path path with
        | None => false
        | Some requested =>
            existsb (socket_matches canonicalize requested) (allow_unix_sockets (config s))
        end, s).
End runtime.

(** ** The policy decision *)

Inductive NetworkProtocol := Http | HttpsConnect | Socks5Tcp | Socks5Udp.
Inductive NetworkPolicyDecision := PolicyDeny | PolicyAsk.
Inductive NetworkDecisionSource := BaselinePolicy | ModeGuard | ProxyState | Decider.

Definition policy_decision_str (d : NetworkPolicyDecision) : str :=
  match d with PolicyDeny => lit "deny" | PolicyAsk => lit "ask" end.
Definition source_str (d : NetworkDecisionSource) : str :=
  match d with
  | BaselinePolicy => lit "baseline_policy"
  | ModeGuard => lit "mode_guard"
  | ProxyState => lit "proxy_state"
  | Decider => lit "decider"
  end.

(** [disconnect] is an opaque handle. *)
Record NetworkPolicyRequest := {
  protocol : NetworkProtocol;
  req_host : str;
  req_port : N;
  environment_id : option str;
  client_addr : option str;
  method : option str;
  command : option str;
  exec_policy_hint : option str;
  execution_id : option str;
  disconnect : option nat;
}.

Inductive NetworkDecision :=
| NetAllow
| NetDeny (reason : str) (source : NetworkDecisionSource) (decision : NetworkPolicyDecision).

Definition REASON_POLICY_DENIED : str := lit "policy_denied".

Definition deny_with_source (reason : str) (source : NetworkDecisionSource) : NetworkDecision :=
  NetDeny (if is_empty reason then REASON_POLICY_DENIED else reason) source PolicyDeny.
Definition ask_with_source (reason : str) (source : NetworkDecisionSource) : NetworkDecision :=
  NetDeny (if is_empty reason then REASON_POLICY_DENIED else reason) source PolicyAsk.

Definition map_decider_decision (d : NetworkDecision) : NetworkDecision :=
  match d with NetAllow => NetAllow | NetDeny reason _ decision => NetDeny reason Decider decision end.

Record NetworkPolicyAuditEvent := {
  ev_timestamp : str;
  ev_scope : str;
  ev_decision : str;
  ev_source : str;
  ev_reason : str;
  ev_protocol : NetworkProtocol;
  ev_host : str;
  ev_port : N;
  ev_method : option str;
  ev_client : option str;
  ev_policy_override : bool;
}.

(** The identity of the proxy handle a request came through. *)
Record ProxyHandle := { handle_environment_id : option str; handle_execution_id : option str }.

(** The request the decider sees. *)
Definition decider_request (h : ProxyHandle) (q : NetworkPolicyRequest) : NetworkPolicyRequest :=
  {| protocol := protocol q; req_host := req_host q; req_port := req_port q;
     environment_id := match environment_id q with
                       | Some e => Some e
                       | None => handle_environment_id h
                       end;
     client_addr := client_addr q; method := method q; command := command q;
     exec_policy_hint := exec_policy_hint q; execution_id := handle_execution_id h;
     disconnect := disconnect q |}.

Section policy.
Context `{Externals, MitmHooks, GlobUrl}.
Implicit Types s : ConfigState.

(** The decision and whether the decider overrode the policy. *)
Definition policy_decision (d : HostBlockDecision) (decider : option (NetworkPolicyRequest → NetworkDecision))
    (h : ProxyHandle) (q : NetworkPolicyRequest) : NetworkDecision * bool :=
  match d with
  | Allowed => (NetAllow, false)
  | Blocked NotAllowed =>
      match decider with
      | Some decide =>
          let decision := map_decider_decision (decide (decider_request h q)) in
          (decision, match decision with NetAllow => true | _ => false end)
      | None => (deny_with_source (reason_str NotAllowed) BaselinePolicy, false)
      end
  | Blocked reason => (deny_with_source (reason_str reason) BaselinePolicy, false)
  end.

Definition audit_fields (decision : NetworkDecision) (policy_override : bool)
  : str * NetworkDecisionSource * str :=
  match decision with
  | NetAllow =>
      (lit "allow", if policy_override then Decider else BaselinePolicy,
       if policy_override then reason_str NotAllowed else lit "allow")
  | NetDeny reason source decision => (policy_decision_str decision, source, reason)
  end.

(** [evaluate_host_policy] at a time [now], with the event given to the observer. *)
Definition evaluate_host_policy (r : Reload) (lookup : Lookup) (now : str)
    (decider : option (NetworkPolicyRequest → NetworkDecision)) (h : ProxyHandle)
    (q : NetworkPolicyRequest) s
  : result (NetworkDecision * NetworkPolicyAuditEvent * ConfigState) anyhow :=
  let? '(host_decision, s) := host_blocked r lookup s (req_host q) (req_port q) in
  let '(decision, policy_override) := policy_decision host_decision decider h q in
  let '(policy_decision, source, reason) := audit_fields decision policy_override in
  Ok (decision,
      {| ev_timestamp := now; ev_scope := lit "domain"; ev_decision := policy_decision;
         ev_source := source_str source; ev_reason := reason; ev_protocol := protocol q;
         ev_host := req_host q; ev_port := req_port q; ev_method := method q;
         ev_client := client_addr q; ev_policy_override := policy_override |}, s).

(** ** The address a connection goes to *)

(** [rama_net::address::Host]. *)
Inductive TargetHost := Address (ip : IpAddr) | Name (name : str).

Definition is_localhost_name (name : str) : bool :=
  eq_ignore_ascii_case (trim_end_matches is_dot name) (lit "localhost").

Definition is_non_public_target (host : TargetHost) : bool :=
  match host with Address ip => is_non_public_ip ip | Name name => is_localhost_name name end.

Definition target_matches_non_public_addr (host : TargetHost) (addr : IpAddr) : bool :=
  match host with
  | Address ip => bool_decide (ip = addr)
  | Name name => is_localhost_name name && is_loopback addr
  end.

(** [Display] of a host, given that of an address. *)
Definition host_to_string (host : TargetHost) : str :=
  match host with Address ip => fmt_ip ip | Name name => name end.

(** Both checks reload first: [r] and [r'] are what the reloader answers. *)
Definition allows_non_public_target (r r' : Reload) (lookup : Lookup) (host : TargetHost)
    (port : N) (addr : IpAddr) s : result (bool * ConfigState) anyhow :=
  let? s := context (lit "read network proxy config") (reload_if_needed r s) in
  if allow_local_binding (config s) then Ok (true, s)
  else if negb (target_matches_non_public_addr host addr) then Ok (false, s)
  else
    let? '(d, s) := context (lit "evaluate network proxy target")
                      (host_blocked r' lookup s (host_to_string host) port) in
    Ok (bool_decide (d = Allowed), s).

(** [TargetCheckedStreamConnector::connect]: whether the address may be connected to. *)
Definition connect (r r' : Reload) (lookup : Lookup) (host : TargetHost) (port : N)
    (addr : IpAddr) s : result ConfigState anyhow :=
  if is_non_public_ip addr then
    let? '(ok, s) := allows_non_public_target r r' lookup host port addr s in
    if (ok : bool) then Ok s else Err [lit "network target rejected by policy"]
  else Ok s.
End policy.

(** ** Tasks on the shared state *)

Section tasks.
Context `{Externals, MitmHooks, GlobUrl}.
Implicit Types s : ConfigState.

(** A task between its read lock and its write lock: a reload with the new state
    and what it read, an update of a domain list with the state it read and the
    state to install, a change of mode. *)
Inductive Task :=
| ReloadTask (new : ConfigState) (l : list BlockedRequest) (total : N)
| UpdateTask (previous : NetworkProxyConfig) (k : NetworkProxyConstraints) (new : ConfigState)
| ModeTask (m : NetworkMode) (k : NetworkProxyConstraints).

Record World := { shared : ConfigState; tasks : list Task }.

(** States that come from outside are compiled from a validated configuration,
    as [NetworkProxySpec] makes them. *)
Definition supplied s : Prop :=
  ∃ c k, validate_policy_against_constraints c k = Ok () ∧ build_config_state c k = Ok s.

(** A task that finds the state changed goes back to its start, which is the end
    of its pending part. *)
Inductive step : World → World → Prop :=
| step_reload_read s ts new :
    supplied new →
    step {| shared := s; tasks := ts |}
         {| shared := s; tasks := ReloadTask new (blocked s) (blocked_total s) :: ts |}
| step_reload_write s ts1 ts2 new l total :
    step {| shared := s; tasks := ts1 ++ ReloadTask new l total :: ts2 |}
         {| shared := set_blocked new l total; tasks := ts1 ++ ts2 |}
| step_force_reload s ts new s' :
    supplied new → force_reload (Ok new) s = Ok s' →
    step {| shared := s; tasks := ts |} {| shared := s'; tasks := ts |}
| step_replace s ts new s' :
    supplied new → replace_config_state (Ok None) new s = Ok s' →
    step {| shared := s; tasks := ts |} {| shared := s'; tasks := ts |}
| step_record s ts entry :
    step {| shared := s; tasks := ts |} {| shared := push_blocked entry s; tasks := ts |}
| step_drain s ts :
    step {| shared := s; tasks := ts |} {| shared := (take_blocked s).2; tasks := ts |}
| step_update_read s ts t host new :
    prepare_update t host s = Ok (Some new) →
    step {| shared := s; tasks := ts |}
         {| shared := s; tasks := UpdateTask (config s) (constraints s) new :: ts |}
| step_update_write s ts1 ts2 previous k new :
    constraints s = k → config s = previous →
    step {| shared := s; tasks := ts1 ++ UpdateTask previous k new :: ts2 |}
         {| shared := new; tasks := ts1 ++ ts2 |}
| step_update_retry s ts1 ts2 previous k new :
    constraints s ≠ k ∨ config s ≠ previous →
    step {| shared := s; tasks := ts1 ++ UpdateTask previous k new :: ts2 |}
         {| shared := s; tasks := ts1 ++ ts2 |}
| step_mode_read s ts m :
    prepare_mode m s = Ok () →
    step {| shared := s; tasks := ts |}
         {| shared := s; tasks := ModeTask m (constraints s) :: ts |}
| step_mode_write s ts1 ts2 m k :
    constraints s = k →
    step {| shared := s; tasks := ts1 ++ ModeTask m k :: ts2 |}
         {| shared := set_config s (set_mode (config s) m); tasks := ts1 ++ ts2 |}
| step_mode_retry s ts1 ts2 m k :
    constraints s ≠ k →
    step {| shared := s; tasks := ts1 ++ ModeTask m k :: ts2 |}
         {| shared := s; tasks := ts1 ++ ts2 |}.

(** The proxy starts with a supplied state and no task. *)
Inductive reachable : World → Prop :=
| reachable_init s : supplied s → reachable {| shared := s; tasks := [] |}
| reachable_step w w' : reachable w → step w w' → reachable w'.

(** ** Invariants of the shared state *)

(** The compiled sets belong to the configuration. *)
Definition compiled s : Prop :=
  compile_allowlist_globset (default [] (allowed_domains (config s))) = Ok (allow_set s) ∧
  compile_denylist_globset (default [] (denied_domains (config s))) = Ok (deny_set s).

Record state_ok s : Prop := {
  ok_compiled : compiled s;
  ok_complies : complies (config s) (constraints s);
  ok_blocked : length (blocked s) ≤ MAX_BLOCKED_EVENTS;
}.

Definition task_ok (t : Task) : Prop :=
  match t with
  | ReloadTask new l _ => state_ok new ∧ length l ≤ MAX_BLOCKED_EVENTS
  | UpdateTask _ _ new => state_ok new
  | ModeTask m k => ∀ m', k_mode k = Some m' → network_mode_rank m ≤ network_mode_rank m'
  end.

Definition world_ok (w : World) : Prop := state_ok (shared w) ∧ Forall task_ok (tasks w).

Lemma build_ok c k s :
  complies c k → build_config_state c k = Ok s → state_ok s.
Proof.
  intros Hc (Hcfg & Hk & Hb & _ & Ha & Hd)%build_config_state_inv. split.
  - done.
  - rewrite Hcfg, Hk. by apply broker_config_complies.
  - rewrite Hb. simpl. lia.
Qed.

Lemma supplied_ok s : supplied s → state_ok s.
Proof. intros (c & k & Hv%validate_complies & Hb). by eapply build_ok. Qed.

Lemma set_blocked_ok s l total :
  state_ok s → length l ≤ MAX_BLOCKED_EVENTS → state_ok (set_blocked s l total).
Proof. intros [] Hl. by split. Qed.

Lemma pop_excess_length fuel l :
  length l ≤ fuel → length (pop_excess fuel l) = length l `min` MAX_BLOCKED_EVENTS.
Proof.
  revert l; induction fuel as [|fuel IH]; intros l Hl; simpl.
  { destruct l; [done|]. simpl in Hl. lia. }
  destruct (Nat.ltb_spec MAX_BLOCKED_EVENTS (length l)).
  - rewrite IH; rewrite length_drop; lia.
  - lia.
Qed.

(** The loop keeps the newest entries. *)
Lemma pop_excess_drop fuel l :
  length l ≤ fuel → pop_excess fuel l = drop (length l - MAX_BLOCKED_EVENTS) l.
Proof.
  revert l; induction fuel as [|fuel IH]; intros l Hl; simpl.
  { by destruct l; [|simpl in Hl; lia]. }
  destruct (Nat.ltb_spec MAX_BLOCKED_EVENTS (length l)).
  - rewrite IH by (rewrite length_drop; lia). rewrite drop_drop, length_drop. f_equal. lia.
  - by replace (length l - MAX_BLOCKED_EVENTS) with 0 by lia.
Qed.

Lemma push_blocked_ok entry s : state_ok s → state_ok (push_blocked entry s).
Proof.
  intros Hs. apply set_blocked_ok; [done|]. rewrite pop_excess_length by lia. lia.
Qed.

Lemma prepare_update_ok t host s new :
  state_ok s → prepare_update t host s = Ok (Some new) → state_ok new.
Proof.
  intros Hs. unfold prepare_update. destruct (_ && _); [done|].
  destruct (validate_policy_against_constraints _ _) as [[]|] eqn:Hv; [|done]. simpl.
  destruct (build_config_state _ _) as [b|] eqn:Hb; [|done]. simpl. intros [= <-].
  apply set_blocked_ok; [|by destruct Hs]. apply validate_complies in Hv. by eapply build_ok.
Qed.

Lemma prepare_mode_ok m s : prepare_mode m s = Ok () → task_ok (ModeTask m (constraints s)).
Proof.
  unfold prepare_mode. destruct (validate_policy_against_constraints _ _) as [[]|] eqn:Hv; [|done].
  intros _. apply validate_complies in Hv. by destruct Hv.
Qed.

Lemma set_mode_ok s m :
  state_ok s → task_ok (ModeTask m (constraints s)) → state_ok (set_config s (set_mode (config s) m)).
Proof. intros [Hc [] Hb] Hm. split; [done| |done]. by split. Qed.

Lemma tasks_drop ts1 t ts2 :
  Forall task_ok (ts1 ++ t :: ts2) → task_ok t ∧ Forall task_ok (ts1 ++ ts2).
Proof. rewrite !Forall_app, Forall_cons. tauto. Qed.

Lemma step_ok w w' : step w w' → world_ok w → world_ok w'.
Proof.
  intros Hstep [Hs Hts].
  destruct Hstep as [s ts new Hnew|s ts1 ts2 new l total|s ts new s' Hnew [= <-]
    |s ts new s' Hnew [= <-]|s ts entry|s ts|s ts t host new Hu|s ts1 ts2 prev k new _ _
    |s ts1 ts2 prev k new _|s ts m Hm|s ts1 ts2 m k <-|s ts1 ts2 m k _]; simpl in *;
    try apply tasks_drop in Hts as [Ht Hts]; (split; [|done || (apply Forall_cons; split; [|done])]);
    simpl in *; try done.
  - split; [by apply supplied_ok|]. by destruct Hs.
  - apply set_blocked_ok; apply Ht.
  - apply set_blocked_ok; [by apply supplied_ok|by destruct Hs].
  - apply set_blocked_ok; [by apply supplied_ok|by destruct Hs].
  - by apply push_blocked_ok.
  - apply set_blocked_ok; [done|]. simpl. lia.
  - by eapply prepare_update_ok.
  - by apply (prepare_mode_ok _ _ Hm).
  - by apply set_mode_ok.
Qed.

Lemma reachable_ok w : reachable w → world_ok w.
Proof.
  induction 1 as [s Hs|w w' _ IH Hstep]; [|by eapply step_ok].
  split; [by apply supplied_ok|constructor].
Qed.
End tasks.

(** ** What the decisions mean *)

(** The names a host is looked up under: itself and the address without scope. *)
Definition names (host : str) : list str := host :: option_list (unscoped_ip_literal host).

(** The patterns of a configuration hold no glob syntax but their prefix. *)
Definition plain_config `{MitmHooks} (c : NetworkProxyConfig) : Prop :=
  Forall plain_pattern (default [] (allowed_domains c)) ∧
  Forall plain_pattern (default [] (denied_domains c)).

(** An entry of the configuration with a permission covers the host. *)
Definition host_listed `{MitmHooks} (c : NetworkProxyConfig) (p : NetworkDomainPermission)
    (host : str) : Prop :=
  ∃ q name, {| pattern := q; permission := p |} ∈ entries_of c ∧ name ∈ names host ∧ covers q name.

(** An entry of the configuration with a permission matches the host; unlike
    [host_listed] this also reads patterns with wildcards inside a label. *)
Definition host_matched `{MitmHooks, GlobUrl} (c : NetworkProxyConfig) (p : NetworkDomainPermission)
    (host : str) : Prop :=
  ∃ q name, {| pattern := q; permission := p |} ∈ entries_of c ∧ name ∈ names host ∧
    pattern_matches (pattern_parse (normalize_pattern q)) name.

(** The local network is ruled out: a literal of it is named by an entry, any
    other host resolves to public addresses only. *)
Definition local_ok `{MitmHooks} (lookup : Lookup) (c : NetworkProxyConfig) (host : str) (port : N)
  : Prop :=
  if is_local_literal host then
    ∃ q, {| pattern := q; permission := PAllow |} ∈ entries_of c ∧
      normalize_host (trim q) ∈ names host
  else
    match parse_ip host with
    | Some a => is_non_public_ip a = false
    | None =>
        ∃ addrs, lookup host port = Some addrs ∧ Forall (λ a, is_non_public_ip (ip a) = false) addrs
    end.

Section meaning.
Context `{Externals, MitmHooks, G : GlobUrl, !GlobLaws}.
Implicit Types s : ConfigState.

Lemma globset_covers w ps set host :
  compile_globset_with_policy ps w = Ok set → Forall plain_pattern ps →
  globset_matches_host_or_unscoped set host = true ↔
  ∃ p name, p ∈ ps ∧ name ∈ names host ∧ covers p name.
Proof.
  intros Hc Hps. unfold globset_matches_host_or_unscoped, names.
  pose proof (λ h, compile_covers w ps set h Hc Hps) as Hm. rewrite orb_true_iff, Hm.
  destruct (unscoped_ip_literal host) as [a|]; simpl.
  - rewrite Hm. set_solver.
  - set_solver.
Qed.

Lemma deny_set_listed s host :
  compiled s → plain_config (config s) →
  globset_matches_host_or_unscoped (deny_set s) host = true ↔ host_listed (config s) PDeny host.
Proof.
  intros [_ Hd] [_ Hp]. rewrite (globset_covers _ _ _ _ Hd Hp). unfold host_listed.
  by setoid_rewrite denied_elem.
Qed.

Lemma allow_set_listed s host :
  compiled s → plain_config (config s) →
  globset_matches_host_or_unscoped (allow_set s) host = true → host_listed (config s) PAllow host.
Proof.
  intros [Ha _] [Hp _]. rewrite (globset_covers _ _ _ _ Ha Hp). unfold host_listed.
  setoid_rewrite allowed_elem. naive_solver.
Qed.

Lemma explicit_local_spec (l : list str) host :
  is_explicit_local_allowlisted l host = true → ∃ q, q ∈ l ∧ normalize_host (trim q) ∈ names host.
Proof.
  unfold is_explicit_local_allowlisted. rewrite existsb_elem. intros (q & Hq & Hm).
  exists q. split; [done|]. destruct (_ || _); [done|]. destruct (_ || _); [done|].
  apply orb_true_iff in Hm as [Hm|Hm]; unfold names.
  - apply bool_decide_eq_true in Hm as ->. left.
  - destruct (unscoped_ip_literal host) as [a|]; [|done]. simpl in *.
    apply bool_decide_eq_true in Hm as ->. right. left.
Qed.

Lemma resolves_public lookup host port :
  host_resolves_to_non_public_ip lookup host port = false →
  match parse_ip host with
  | Some a => is_non_public_ip a = false
  | None =>
      ∃ addrs, lookup host port = Some addrs ∧ Forall (λ a, is_non_public_ip (ip a) = false) addrs
  end.
Proof.
  unfold host_resolves_to_non_public_ip. destruct (parse_ip host); [done|].
  destruct (lookup host port) as [addrs|]; [|done]. intros Hex. exists addrs. split; [done|].
  apply Forall_forall. intros a Ha. destruct (is_non_public_ip (ip a)) eqn:Hn; [|done].
  rewrite <- Hex. symmetry. apply existsb_elem. eauto.
Qed.

Lemma globset_matched w ps set host :
  compile_globset_with_policy ps w = Ok set →
  globset_matches_host_or_unscoped set host = true ↔
  ∃ p name, p ∈ ps ∧ name ∈ names host ∧ pattern_matches (pattern_parse (normalize_pattern p)) name.
Proof.
  intros Hc. unfold globset_matches_host_or_unscoped, names.
  pose proof (λ h, compile_matches w ps set h Hc) as Hm. rewrite orb_true_iff, Hm.
  destruct (unscoped_ip_literal host) as [a|]; simpl; [rewrite Hm|]; set_solver.
Qed.

Lemma deny_set_matched s host :
  compiled s →
  globset_matches_host_or_unscoped (deny_set s) host = true ↔ host_matched (config s) PDeny host.
Proof.
  intros [_ Hd]. rewrite (globset_matched _ _ _ _ Hd). unfold host_matched.
  by setoid_rewrite denied_elem.
Qed.

Lemma allow_set_matched s host :
  compiled s →
  globset_matches_host_or_unscoped (allow_set s) host = true → host_matched (config s) PAllow host.
Proof.
  intros [Ha _]. rewrite (globset_matched _ _ _ _ Ha). unfold host_matched.
  setoid_rewrite allowed_elem. naive_solver.
Qed.

(** What the first checks rule out, without a condition on the patterns. *)
Lemma decide_host_passed lookup s host port h :
  compiled s → host_parse host = Ok h →
  decide_host lookup s host port ≠ Blocked Denied →
  decide_host lookup s host port ≠ Blocked NotAllowedLocal →
  ¬ host_matched (config s) PDeny h ∧
  (allow_local_binding (config s) = false → local_ok lookup (config s) h port).
Proof.
  intros Hc Hh. unfold decide_host. rewrite Hh. intros Hd Hl.
  destruct (globset_matches_host_or_unscoped (deny_set s) h) eqn:Hdeny; [done|]. split.
  { rewrite <- (deny_set_matched s h Hc). by rewrite Hdeny. }
  intros Hb. rewrite Hb in Hl. simpl in Hl. unfold local_ok.
  destruct (is_local_literal h).
  - destruct (is_explicit_local_allowlisted _ h) eqn:He; [|done].
    apply explicit_local_spec in He as (q & Hq & Hn). apply allowed_elem in Hq as [Hq _]. eauto.
  - destruct (host_resolves_to_non_public_ip lookup h port) eqn:Hr; [done|].
    by apply resolves_public.
Qed.

Lemma decide_host_matched lookup s host port :
  compiled s → decide_host lookup s host port = Allowed →
  ∃ h, host_parse host = Ok h ∧ host_matched (config s) PAllow h.
Proof.
  intros Hc Hd. unfold decide_host in Hd. destruct (host_parse host) as [h|]; [|done].
  exists h. split; [done|]. apply (allow_set_matched s h Hc).
  destruct (globset_matches_host_or_unscoped (allow_set s) h); [done|].
  rewrite orb_true_r in Hd. repeat case_match; done.
Qed.

(** A decision that is neither "denied" nor "local": what the first checks rule out. *)
Lemma decide_host_checks lookup s host port h :
  compiled s → plain_config (config s) → host_parse host = Ok h →
  decide_host lookup s host port ≠ Blocked Denied →
  decide_host lookup s host port ≠ Blocked NotAllowedLocal →
  ¬ host_listed (config s) PDeny h ∧
  (allow_local_binding (config s) = false → local_ok lookup (config s) h port).
Proof.
  intros Hc Hp Hh Hd Hl. destruct (decide_host_passed lookup s host port h Hc Hh Hd Hl) as [Hn ?].
  split; [|done]. by rewrite <- (deny_set_listed s h Hc Hp), (deny_set_matched s h Hc).
Qed.

Lemma decide_host_allowed lookup s host port :
  compiled s → plain_config (config s) → decide_host lookup s host port = Allowed →
  ∃ h, host_parse host = Ok h ∧ host_listed (config s) PAllow h.
Proof.
  intros Hc Hp Hd. unfold decide_host in Hd. destruct (host_parse host) as [h|]; [|done].
  exists h. split; [done|]. apply (allow_set_listed s h Hc Hp).
  destruct (globset_matches_host_or_unscoped (allow_set s) h); [done|].
  rewrite orb_true_r in Hd. repeat case_match; done.
Qed.

(** What a reload may bring. *)
Definition reload_ok (r : Reload) : Prop := ∀ new, r = Ok (Some new) → supplied new.

Lemma reload_state_ok r s s' : reload_ok r → state_ok s → reload_if_needed r s = Ok s' → state_ok s'.
Proof.
  intros Hr Hs. unfold reload_if_needed. destruct r as [[new|]|]; simpl; intros [= <-]; [|done].
  apply set_blocked_ok; [by apply supplied_ok, Hr|by destruct Hs].
Qed.
End meaning.

(** ** The name "localhost" *)

Lemma localhost_char c : ascii_lower c ∈ lit "localhost" → is_ascii_alphanumeric c = true.
Proof.
  unfold ascii_lower. destruct (is_ascii_uppercase c) eqn:Hu.
  - intros _. unfold is_ascii_alphanumeric, is_ascii_uppercase in *. rewrite Hu.
    by rewrite ?orb_true_r.
  - intros Hin. assert (Forall (λ c, is_ascii_alphanumeric c = true) (lit "localhost")) as Hf
      by (vm_compute; repeat constructor).
    rewrite Forall_forall in Hf. by apply Hf.
Qed.

Definition name_char (c : char) : bool := is_ascii_alphanumeric c || is_dot c.

Lemma name_char_plain c :
  name_char c = true → is_whitespace c = false ∧ c ≠ 91%N ∧ c ≠ colon.
Proof.
  unfold name_char, is_ascii_alphanumeric, is_ascii_digit, is_ascii_lowercase, is_ascii_uppercase,
    is_dot, is_whitespace, dot, colon.
  intros Hc. assert (c < 128)%N as Hlt by lia. lia.
Qed.

Lemma normalize_name s :
  Forall (λ c, name_char c = true) s → normalize_host s = normalize_dns_host_or_ip_literal s.
Proof.
  intros Hs. unfold normalize_host.
  assert (trim s = s) as ->.
  { apply trim_none. eapply Forall_impl; [exact Hs|]. intros c Hc. by apply name_char_plain. }
  assert (bracketed s = None) as ->.
  { destruct s as [|c s]; [done|]. apply Forall_cons in Hs as [Hc _].
    apply name_char_plain in Hc as (_ & Hc & _). unfold bracketed. by repeat case_match; subst. }
  assert (count_char colon s = 0) as ->; [|done]. unfold count_char.
  rewrite length_zero_iff_nil. apply is_empty_true, is_empty_filter_ok.
  rewrite Forall_forall in Hs. intros c Hc. by apply name_char_plain, Hs.
Qed.

Lemma localhost_normal name :
  is_localhost_name name = true → normalize_host name = lit "localhost".
Proof.
  unfold is_localhost_name, eq_ignore_ascii_case. rewrite bool_decide_eq_true. intros Hn.
  change (to_ascii_lowercase (lit "localhost")) with (lit "localhost") in Hn.
  rewrite normalize_name.
  - unfold normalize_dns_host_or_ip_literal.
    rewrite (trim_end_lowercase is_dot) by apply is_dot_lower. by rewrite Hn.
  - destruct (trim_end_matches_prefix is_dot name) as (t & -> & Ht). apply Forall_app. split.
    + apply Forall_forall. intros c Hc. unfold name_char. rewrite localhost_char; [done|].
      rewrite <- Hn. by apply list_elem_of_fmap_2.
    + eapply Forall_impl; [exact Ht|]. intros c Hc. unfold name_char. simpl in Hc. rewrite Hc.
      apply orb_true_r.
Qed.

(** ** Patterns that are hosts *)

(** A host in normal form without glob syntax. *)
Definition host_normal (h : str) : Prop := normalize_host h = h ∧ trim h = h ∧ plain h.

(** A host that starts with a wildcard keeps it. *)
Lemma star_normalize_dns x : ∃ y, normalize_dns_host_or_ip_literal (42%N :: x) = 42%N :: y.
Proof.
  unfold normalize_dns_host_or_ip_literal.
  change (to_ascii_lowercase (42%N :: x)) with (42%N :: to_ascii_lowercase x).
  rewrite (trim_end_matches_cons_keep _ 42%N) by done.
  set (y := trim_end_matches _ (to_ascii_lowercase x)). exists y.
  assert (∀ d, (∃ d', d = 37%N :: d') →
    ('(ip, scope) ← split_once_str d (42%N :: y); _ ← parse_ip ip; Some (ip ++ lit "%" ++ scope)) = None)
    as Hs.
  { intros d (d' & ->). unfold split_once_str.
    assert (find_str (37%N :: d') (42%N :: y) = S <$> find_str (37%N :: d') y) as -> by done.
    destruct (find_str (37%N :: d') y) as [i|]; reflexivity. }
  unfold normalize_ip_literal. rewrite (Hs (lit "%25")), (Hs (lit "%")) by by eexists. done.
Qed.

Lemma star_normalize_host e x : trim e = 42%N :: x → ∃ y, normalize_host e = 42%N :: y.
Proof.
  intros He. unfold normalize_host. rewrite He. simpl. case_match; [|apply star_normalize_dns].
  destruct (split_on colon x); apply star_normalize_dns.
Qed.

Lemma strip_prefix_cons a p b s :
  strip_prefix (a :: p) (b :: s) = if (a =? b)%N then strip_prefix p s else None.
Proof. done. Qed.

Lemma plain_no_star h y : plain h → h ≠ 42%N :: y.
Proof. intros Hp ->. apply Forall_cons in Hp as [Hp _]. apply Hp. right. left. Qed.

Lemma strip_star_None h : plain h → strip_prefix apex_prefix h = None ∧ strip_prefix sub_prefix h = None.
Proof.
  intros Hp. destruct h as [|c h]; [done|]. pose proof (plain_no_star _ h Hp) as Hc.
  change apex_prefix with [42; 42; 46]%N. change sub_prefix with [42; 46]%N.
  rewrite !strip_prefix_cons.
  destruct (N.eqb_spec 42 c); [by subst|done].
Qed.

Lemma host_parse_nonempty i h : host_parse i = Ok h → h ≠ [].
Proof. unfold host_parse. case_match eqn:He; [done|]. intros [= <-]. by apply is_empty_false. Qed.

(** An entry that is the host up to normalisation covers it. *)
Lemma host_entry_covers e h :
  host_normal h → h ≠ [] → normalize_host e = h → covers e h.
Proof.
  intros (Hn & Ht & Hp) Hne He. unfold covers.
  assert (∀ x, trim e ≠ 42%N :: x) as Hstar.
  { intros x Hx. apply star_normalize_host in Hx as (y & Hy). rewrite He in Hy.
    by apply (plain_no_star h y). }
  assert (normalize_pattern e = h) as ->.
  { unfold normalize_pattern. rewrite bool_decide_eq_false_2 by (intros Hx; by apply (Hstar [])).
    assert (normalize_host (trim e) = h) as <-.
    { rewrite <- He. unfold normalize_host. by rewrite trim_idemp. }
    destruct (trim e) as [|c x]; [done|].
    change apex_prefix with [42; 42; 46]%N. change sub_prefix with [42; 46]%N.
  rewrite !strip_prefix_cons.
    destruct (N.eqb_spec 42 c) as [<-|_]; [by destruct (Hstar x)|done]. }
  unfold pattern_parse. rewrite Ht. destruct (is_empty h) eqn:Hemp; [by apply is_empty_true in Hemp|].
  destruct (strip_star_None h Hp) as [-> ->]. simpl. by right.
Qed.

(** ** Properties *)

Section theorems.
Context `{Externals, MitmHooks, G : GlobUrl}.
Implicit Types s : ConfigState.

(** C19: in every state the tasks of the proxy can reach, in any interleaving of
    their critical sections, the configuration is within its managed
    constraints, the compiled sets are those of the configuration, and the log
    of blocked requests is bounded. *)
Theorem proxy_invariant w :
  reachable w →
  let s := shared w in
  validate_policy_against_constraints (config s) (constraints s) = Ok () ∧
  compile_allowlist_globset (default [] (allowed_domains (config s))) = Ok (allow_set s) ∧
  compile_denylist_globset (default [] (denied_domains (config s))) = Ok (deny_set s) ∧
  length (blocked s) ≤ MAX_BLOCKED_EVENTS.
Proof.
  intros [[[Ha Hd] Hc Hb] _]%reachable_ok s. split_and!; [|done..]. by apply validate_complies.
Qed.

(** C8: a request the proxy lets through is safe.  In every reachable state, if
    the policy allows a request then no deny entry of the configuration matches
    its host (wildcards inside a label included), and either an allow entry
    matches it or the decider let it through; the audit event says "allow" and
    marks an override exactly in the second case.  When local binding is off the
    local network is out of reach but for what is named: a host that is a literal
    of it is the text of an allow entry, and any other host resolves to public
    addresses only. *)
Theorem allowed_requests_safe `{!GlobLaws} w r lookup now decider hd q ev s :
  reachable w → reload_ok r →
  evaluate_host_policy r lookup now decider hd q (shared w) = Ok (NetAllow, ev, s) →
  ev_decision ev = lit "allow" ∧
  match host_parse (req_host q) with
  | Ok h =>
      ¬ host_matched (config s) PDeny h ∧
      (allow_local_binding (config s) = false → local_ok lookup (config s) h (req_port q)) ∧
      (if ev_policy_override ev
       then ∃ decide, decider = Some decide ∧ decide (decider_request hd q) = NetAllow
       else host_matched (config s) PAllow h)
  | Err _ => ∃ decide, decider = Some decide ∧ decide (decider_request hd q) = NetAllow
  end.
Proof.
  intros [Hs _]%reachable_ok Hr. unfold evaluate_host_policy, host_blocked.
  destruct (reload_if_needed r (shared w)) as [s1|] eqn:Hre; [|done]. simpl.
  pose proof (reload_state_ok _ _ _ Hr Hs Hre) as [Hc _ _].
  destruct (decide_host lookup s1 (req_host q) (req_port q)) as [|reason] eqn:Hd; simpl.
  - intros [= <- <-]. split; [done|].
    destruct (decide_host_matched _ _ _ _ Hc Hd) as (h & Hh & Hl). rewrite Hh. simpl.
    destruct (decide_host_passed lookup s1 _ (req_port q) h Hc Hh) as [? ?]; [congruence..|]. done.
  - destruct reason; [done| |done]. destruct decider as [decide|]; [|done]. simpl.
    destruct (decide (decider_request hd q)) eqn:Hdec; [|done]. simpl. intros [= <- <-].
    split; [done|]. destruct (host_parse (req_host q)) as [h|] eqn:Hh; simpl; [|eauto].
    destruct (decide_host_passed lookup s1 _ (req_port q) h Hc Hh) as [? ?]; [congruence..|].
    split_and!; eauto.
Qed.

(** The second check, at connection time, stops DNS rebinding: when a
    connection to an address that is not public is let through, local binding
    is on, or the target is that very address or the name "localhost" with a
    loopback address, and the configuration names it. *)
Theorem connect_checks_address `{!GlobLaws} w r r' lookup host port addr s :
  reachable w → reload_ok r → reload_ok r' →
  connect r r' lookup host port addr (shared w) = Ok s →
  is_non_public_ip addr = true → plain_config (config s) →
  (∀ a, host = Address a → parse_ip (fmt_ip a) = Some a ∧ host_parse (fmt_ip a) = Ok (fmt_ip a)) →
  allow_local_binding (config s) = true ∨
  target_matches_non_public_addr host addr = true ∧
  ∃ h q, host_parse (host_to_string host) = Ok h ∧ ¬ host_listed (config s) PDeny h ∧
    {| pattern := q; permission := PAllow |} ∈ entries_of (config s) ∧
    normalize_host (trim q) ∈ names h.
Proof.
  intros [Hs _]%reachable_ok Hr Hr' Hcon Hnp Hp Hfmt. unfold connect, allows_non_public_target in Hcon.
  rewrite Hnp in Hcon. destruct (reload_if_needed r (shared w)) as [s1|] eqn:Hre; [|done]. simpl in Hcon.
  pose proof (reload_state_ok _ _ _ Hr Hs Hre) as Hs1.
  destruct (allow_local_binding (config s1)) eqn:Hb1; simpl in Hcon.
  { injection Hcon as <-. by left. }
  destruct (target_matches_non_public_addr host addr) eqn:Ht; simpl in Hcon; [|done].
  unfold host_blocked in Hcon. destruct (reload_if_needed r' s1) as [s2|] eqn:Hre'; [|done].
  simpl in Hcon. pose proof (reload_state_ok _ _ _ Hr' Hs1 Hre') as [Hc _ _].
  case_bool_decide as Hd; [|done]. injection Hcon as <-.
  destruct (allow_local_binding (config s2)) eqn:Hb2; [by left|right]. split; [done|].
  destruct (decide_host_allowed _ _ _ _ Hc Hp Hd) as (h & Hh & _).
  destruct (decide_host_checks lookup s2 _ port h Hc Hp Hh) as [Hdeny Hlocal]; [congruence..|].
  specialize (Hlocal Hb2). unfold local_ok in Hlocal.
  exists h. destruct (is_local_literal h) eqn:Hlit; [destruct Hlocal as (q & ? & ?); eauto|].
  exfalso. destruct host as [a|name]; simpl in *.
  - apply bool_decide_eq_true in Ht as ->. destruct (Hfmt addr eq_refl) as [Hpa Hho].
    assert (h = fmt_ip addr) as -> by congruence. rewrite Hpa in Hlocal. congruence.
  - apply andb_true_iff in Ht as [Ht _]. apply localhost_normal in Ht.
    unfold host_parse in Hh. rewrite Ht in Hh. simpl in Hh. injection Hh as <-. vm_compute in Hlit. done.
Qed.

Lemma broker_denied c k q :
  {| pattern := q; permission := PDeny |} ∈ entries_of (broker_config c k).1 ↔
  {| pattern := q; permission := PDeny |} ∈ entries_of c.
Proof.
  unfold broker_config. set (c1 := if bool_decide _ then _ else _).
  assert (entries_of c1 = entries_of c) as <- by (unfold c1; by case_bool_decide).
  destruct (credential_broker c1 && negb (enabled c1)); simpl; [|done].
  destruct (is_none _ && is_none _); [|done].
  unfold set_allowed_domains. rewrite set_domain_entries_elem. simpl. naive_solver.
Qed.

(** After a deny update an entry denies the host up to normalisation. *)
Lemma prepare_deny_entry h s o :
  normalize_host h = h → prepare_update DenyList h s = Ok o →
  ∃ e, {| pattern := e; permission := PDeny |} ∈ entries_of (config (default s o)) ∧
    normalize_host e = h.
Proof.
  intros Hn. unfold prepare_update. simpl. destruct (_ && _) eqn:Hc.
  - intros [= <-]. apply andb_true_iff in Hc as [Hc _]. unfold contains_host in Hc.
    apply existsb_elem in Hc as (e & He & Heq). apply bool_decide_eq_true in Heq.
    apply denied_elem in He. eauto.
  - destruct (validate_policy_against_constraints _ _); [|done]. simpl.
    destruct (build_config_state _ _) as [b|] eqn:Hb; [|done]. simpl. intros [= <-]. simpl.
    apply build_config_state_inv in Hb as (-> & _). exists h. split; [|done].
    apply broker_denied, upsert_elem. by right.
Qed.

Lemma denied_entry_blocks `{!GlobLaws} lookup s host port h e :
  compiled s → plain_config (config s) → host_parse host = Ok h → host_normal h →
  {| pattern := e; permission := PDeny |} ∈ entries_of (config s) → normalize_host e = h →
  decide_host lookup s host port = Blocked Denied.
Proof.
  intros Hc Hp Hh Hn He Heq. unfold decide_host. rewrite Hh.
  assert (host_listed (config s) PDeny h) as Hl.
  { exists e, h. split_and!; [done|left|]. apply host_entry_covers; [done| |done].
    by eapply host_parse_nonempty. }
  by rewrite (proj2 (deny_set_listed s h Hc Hp) Hl).
Qed.

(** A domain added to the denylist is denied from then on: after
    [add_denied_domain] on a reachable state, every host that normalises to the
    added one is blocked as denied, whatever it resolves to and whatever the
    allowlist says. *)
Theorem add_denied_takes_effect `{!GlobLaws} w r host h s lookup host' port :
  reachable w → reload_ok r → add_denied_domain r host (shared w) = Ok s →
  host_parse host = Ok h → host_normal h → plain_config (config s) →
  host_parse host' = Ok h → decide_host lookup s host' port = Blocked Denied.
Proof.
  intros [Hs _]%reachable_ok Hr. unfold add_denied_domain, update_domain_list. intros Hadd Hh Hn Hp Hh'.
  rewrite Hh in Hadd. simpl in Hadd.
  destruct (reload_if_needed r (shared w)) as [s1|] eqn:Hre; [|done]. simpl in Hadd.
  pose proof (reload_state_ok _ _ _ Hr Hs Hre) as Hs1.
  destruct (prepare_update DenyList h s1) as [o|] eqn:Hu; [|done]. simpl in Hadd.
  injection Hadd as <-. destruct (prepare_deny_entry h s1 o) as (e & He & Heq); [apply Hn|done|].
  apply (denied_entry_blocks lookup _ host' port h e); [|done..].
  destruct o as [new|]; [|by destruct Hs1]. by apply (prepare_update_ok _ _ _ _ Hs1) in Hu as [].
Qed.

(** The log of blocked requests keeps the newest 200 entries in order, and
    counts every one of them up to the largest 64-bit number. *)
Theorem blocked_log_newest s es :
  length (blocked s) ≤ MAX_BLOCKED_EVENTS → (blocked_total s ≤ u64_max)%N →
  let s' := foldl (λ s e, push_blocked e s) s es in
  blocked s' = drop (length (blocked s) + length es - MAX_BLOCKED_EVENTS) (blocked s ++ es) ∧
  blocked_total s' = N.min u64_max (blocked_total s + N.of_nat (length es)) ∧
  config s' = config s ∧ allow_set s' = allow_set s ∧ deny_set s' = deny_set s.
Proof.
  intros Hl Ht. induction es as [|e es IH] using rev_ind; simpl.
  { rewrite app_nil_r. replace (_ + 0 - _) with 0 by lia. split_and!; [done|lia|done..]. }
  rewrite foldl_snoc. destruct IH as (Hb & Htot & Hc & Ha & Hd).
  set (s1 := foldl _ s es) in *. unfold push_blocked. simpl.
  split_and!; [|rewrite Htot, length_app; simpl; lia|done..].
  rewrite pop_excess_drop by lia. rewrite Hb, !length_app, !length_drop, !length_app. simpl.
  set (n := length (blocked s) + length es - MAX_BLOCKED_EVENTS).
  rewrite <- (drop_app_le (blocked s ++ es) [e] n) by (rewrite length_app; lia).
  rewrite drop_drop, <- app_assoc. f_equal. lia.
Qed.
End theorems.
