(* ===== verification/NetSpec.v ===== *)
(** * Where the proxy's configuration comes from

    [codex-rs/core/src/config/network_proxy_spec.rs] with the managed network
    requirements of [config/src/config_requirements.rs] and the policy of an
    execution environment ([network-proxy/src/environment_policy.rs]): the
    managed requirements, the owner's policy and the network rules of the
    execution policy are merged into the configuration the proxy runs with. *)

From S2P Require Import Prelude RustStr UnixPath Permissions ExecRule ExecPolicy.
From S2P Require Import NetAddr NetHost NetConfig NetProxy.

(** ** Managed requirements *)

Inductive NetworkDomainPermissionToml := TomlAllow | TomlDeny.
#[global] Instance NetworkDomainPermissionToml_eq_dec : EqDecision NetworkDomainPermissionToml.
Proof. solve_decision. Defined.

(** The keys of a [BTreeMap] with a value, in order. *)
Definition keys_with {A} `{EqDecision A} (m : gmap str A) (v : A) : list str :=
  fst <$> base.filter (λ e, e.2 = v) (btree_entries m).

(** [NetworkDomainPermissionsToml::allowed_domains] and [denied_domains]. *)
Definition toml_allowed_domains (m : gmap str NetworkDomainPermissionToml) : option (list str) :=
  nonempty (keys_with m TomlAllow).
Definition toml_denied_domains (m : gmap str NetworkDomainPermissionToml) : option (list str) :=
  nonempty (keys_with m TomlDeny).

(** [NetworkUnixSocketPermissionsToml::allow_unix_sockets]. *)
Definition toml_allow_unix_sockets (m : gmap str NetworkDomainPermissionToml) : list str :=
  keys_with m TomlAllow.

Record NetworkConstraints := {
  n_enabled : option bool;
  n_http_port : option N;
  n_socks_port : option N;
  n_allow_upstream_proxy : option bool;
  n_non_loopback_proxy : option bool;
  n_all_unix_sockets : option bool;
  n_domains : option (gmap str NetworkDomainPermissionToml);
  n_managed_allowed_domains_only : option bool;
  n_unix_sockets : option (gmap str NetworkDomainPermissionToml);
  n_allow_local_binding : option bool;
}.

Definition managed_sandbox_active {uri} (p : PermissionProfile uri) : bool :=
  match p with Managed _ _ => true | _ => false end.

Definition allowlist_expansion_enabled {uri} (p : PermissionProfile uri)
    (hard_deny_allowlist_misses : bool) : bool :=
  managed_sandbox_active p && negb hard_deny_allowlist_misses.

Definition denylist_expansion_enabled {uri} (p : PermissionProfile uri) : bool :=
  managed_sandbox_active p.

Definition managed_allowed_domains_only (n : NetworkConstraints) : bool :=
  default false (n_managed_allowed_domains_only n).

Definition merge_domain_lists (managed user_entries : list str) : list str :=
  foldl (λ managed entry,
    if existsb (λ m, eq_ignore_ascii_case m entry) managed then managed else managed ++ [entry])
    managed user_entries.

Section spec.
Context `{Externals, MitmHooks, GlobUrl} {uri : Type}.
Implicit Types (c : NetworkProxyConfig) (k : NetworkProxyConstraints).

(** Assign a field when the requirement is set. *)
Definition when_some {A B} (o : option A) (f : A → B → B) (b : B) : B :=
  match o with Some a => f a b | None => b end.

Definition loopback_url (port : N) : str := lit "http://127.0.0.1:" ++ fmt_N port.

Definition apply_requirements c (n : NetworkConstraints) (p : PermissionProfile uri)
    (hard_deny_allowlist_misses : bool) : NetworkProxyConfig * NetworkProxyConstraints :=
  let expand_allow := allowlist_expansion_enabled p hard_deny_allowlist_misses in
  let expand_deny := denylist_expansion_enabled p in
  let c := when_some (n_enabled n) (λ v c, set_enabled c v) c in
  let c := when_some (n_http_port n) (λ v c, set_proxy_url c (loopback_url v)) c in
  let c := when_some (n_socks_port n) (λ v c, set_socks_url c (loopback_url v)) c in
  let c := when_some (n_allow_upstream_proxy n) (λ v c, set_allow_upstream_proxy c v) c in
  let c := when_some (n_non_loopback_proxy n)
             (λ v c, set_dangerously_allow_non_loopback_proxy c v) c in
  let c := when_some (n_all_unix_sockets n)
             (λ v c, set_dangerously_allow_all_unix_sockets c v) c in
  let managed_allowed :=
    if hard_deny_allowlist_misses then Some (default [] (n_domains n ≫= toml_allowed_domains))
    else n_domains n ≫= toml_allowed_domains in
  let c := when_some managed_allowed (λ managed c,
             set_allowed_domains c
               (if expand_allow then merge_domain_lists managed (default [] (allowed_domains c))
                else managed)) c in
  let managed_denied := n_domains n ≫= toml_denied_domains in
  let c := when_some managed_denied (λ managed c,
             set_denied_domains c
               (if expand_deny then merge_domain_lists managed (default [] (denied_domains c))
                else managed)) c in
  let managed_sockets := toml_allow_unix_sockets <$> n_unix_sockets n in
  let c := when_some managed_sockets (λ sockets c, set_allow_unix_sockets c sockets) c in
  let c := when_some (n_allow_local_binding n) (λ v c, set_allow_local_binding c v) c in
  (c, {| k_enabled := n_enabled n; k_mode := None;
         k_allow_upstream_proxy := n_allow_upstream_proxy n;
         k_non_loopback_proxy := n_non_loopback_proxy n;
         k_all_unix_sockets := n_all_unix_sockets n;
         k_allowed_domains := managed_allowed;
         k_allowlist_expansion_enabled := (λ _, expand_allow) <$> managed_allowed;
         k_denied_domains := managed_denied;
         k_denylist_expansion_enabled := (λ _, expand_deny) <$> managed_denied;
         k_allow_unix_sockets := managed_sockets;
         k_allow_local_binding := n_allow_local_binding n |}).

Record NetworkProxySpec := {
  base_config : NetworkProxyConfig;
  requirements : option NetworkConstraints;
  spec_config : NetworkProxyConfig;
  spec_constraints : NetworkProxyConstraints;
  hard_deny_allowlist_misses : bool;
}.

(** Errors are [std::io::Error]s with a message. *)
Definition from_config_and_constraints c (requirements : option NetworkConstraints)
    (p : PermissionProfile uri) : result NetworkProxySpec str :=
  let hard := is_some_and requirements managed_allowed_domains_only in
  let '(config, constraints) :=
    match requirements with
    | Some n => apply_requirements c n p hard
    | None => (c, default_constraints)
    end in
  let? _ := rmap_err (λ e, lit "network proxy constraints are invalid: " ++ fmt_constraint_error e)
              (validate_policy_against_constraints config constraints) in
  Ok {| base_config := c; requirements := requirements; spec_config := config;
        spec_constraints := constraints; hard_deny_allowlist_misses := hard |}.

Definition recompute_for_permission_profile (spec : NetworkProxySpec) (p : PermissionProfile uri)
  : result NetworkProxySpec str :=
  from_config_and_constraints (base_config spec) (requirements spec) p.

(** ** The network rules of the execution policy *)

(** The loop of [upsert_network_domains] with the hosts already seen. *)
Fixpoint upsert_loop c (hosts : list str) (p : NetworkDomainPermission) (incoming : gset str)
  : NetworkProxyConfig :=
  match hosts with
  | [] => c
  | host :: hosts =>
      if bool_decide (host ∈ incoming) then upsert_loop c hosts p incoming
      else
        upsert_loop (upsert_domain_permission c host p normalize_host) hosts p
          ({[host]} ∪ incoming)
  end.

Definition upsert_network_domains c (hosts : list str) (allow : bool) : NetworkProxyConfig :=
  upsert_loop c hosts (if allow then PAllow else PDeny) ∅.

Definition apply_exec_policy_network_rules c '((allowed, denied) : list str * list str)
  : NetworkProxyConfig :=
  upsert_network_domains (upsert_network_domains c allowed true) denied false.

Definition with_config (spec : NetworkProxySpec) c : NetworkProxySpec :=
  {| base_config := base_config spec; requirements := requirements spec; spec_config := c;
     spec_constraints := spec_constraints spec;
     hard_deny_allowlist_misses := hard_deny_allowlist_misses spec |}.

Definition with_exec_policy_network_rules {abs_path} (spec : NetworkProxySpec)
    (exec_policy : Policy (abs_path:=abs_path)) : result NetworkProxySpec str :=
  let spec :=
    with_config spec
      (apply_exec_policy_network_rules (spec_config spec) (compiled_network_domains exec_policy)) in
  let? _ := rmap_err (λ e, lit "network proxy constraints are invalid: " ++ fmt_constraint_error e)
              (validate_policy_against_constraints (spec_config spec) (spec_constraints spec)) in
  Ok spec.

Definition build_config_state_for_spec (spec : NetworkProxySpec) : result ConfigState anyhow :=
  context (lit "failed to build network proxy state")
    (build_config_state (spec_config spec) (spec_constraints spec)).

(** ** The policy of an environment *)

Record EnvironmentNetworkPolicy := {
  env_domains : option NetworkDomainPermissions;
  env_unix_sockets : option NetworkUnixSocketPermissions;
  env_allow_upstream_proxy : bool;
  env_all_unix_sockets : bool;
  env_allow_local_binding : bool;
  env_managed_allowed_domains_only : bool;
}.

(** [EnvironmentNetworkPolicy::from_config]. *)
Definition env_from_config c (managed_only : bool) : EnvironmentNetworkPolicy := {|
  env_domains := domains c; env_unix_sockets := unix_sockets c;
  env_allow_upstream_proxy := allow_upstream_proxy c;
  env_all_unix_sockets := dangerously_allow_all_unix_sockets c;
  env_allow_local_binding := allow_local_binding c;
  env_managed_allowed_domains_only := managed_only |}.

(** No socket is denied. *)
Definition no_socket_denied (m : NetworkUnixSocketPermissions) : bool :=
  forallb (λ e, bool_decide (e.2 ≠ SocketDeny)) (map_to_list m).

Definition effective_sockets (inherited owner : NetworkUnixSocketPermissions)
    (inherited_all owner_all : bool) : NetworkUnixSocketPermissions :=
  let kept := base.filter (λ e, e.2 = SocketDeny ∨ inherited_all = true ∨
                             inherited !! e.1 = Some SocketAllow) owner in
  foldl (λ m e, if (owner_all || bool_decide (e.2 = SocketDeny)) then <[e.1 := e.2]> m else m)
    kept (btree_entries inherited).

(** [EnvironmentNetworkPolicy::apply_to]. *)
Definition env_apply_to (e : EnvironmentNetworkPolicy) c : NetworkProxyConfig :=
  let inherited_denials := default [] (denied_domains c) in
  let inherited := default ∅ (unix_sockets c) in
  let owner := default ∅ (env_unix_sockets e) in
  let inherited_all := dangerously_allow_all_unix_sockets c && no_socket_denied inherited in
  let owner_all := env_all_unix_sockets e && no_socket_denied owner in
  let c' := foldl (λ c domain, upsert_domain_permission c domain PDeny normalize_host)
              (set_domains c (env_domains e)) inherited_denials in
  let c' := set_unix_sockets c'
              (nonempty_map (effective_sockets inherited owner inherited_all owner_all)) in
  let c' := set_dangerously_allow_all_unix_sockets c' (inherited_all && owner_all) in
  let c' := set_allow_upstream_proxy c' (allow_upstream_proxy c && env_allow_upstream_proxy e) in
  set_allow_local_binding c' (allow_local_binding c && env_allow_local_binding e).

(** The configuration that leaves every ceiling to the owner. *)
Definition owner_config : NetworkProxyConfig :=
  set_allow_local_binding
    (set_dangerously_allow_all_unix_sockets (set_enabled default_config true) true) true.

Definition set_k_allowed k (v : option (list str)) (expansion : option bool) : NetworkProxyConstraints :=
  {| k_enabled := k_enabled k; k_mode := k_mode k; k_allow_upstream_proxy := k_allow_upstream_proxy k;
     k_non_loopback_proxy := k_non_loopback_proxy k; k_all_unix_sockets := k_all_unix_sockets k;
     k_allowed_domains := v; k_allowlist_expansion_enabled := expansion;
     k_denied_domains := k_denied_domains k;
     k_denylist_expansion_enabled := k_denylist_expansion_enabled k;
     k_allow_unix_sockets := k_allow_unix_sockets k;
     k_allow_local_binding := k_allow_local_binding k |}.

Definition set_k_denied k (v : option (list str)) (expansion : option bool) : NetworkProxyConstraints :=
  {| k_enabled := k_enabled k; k_mode := k_mode k; k_allow_upstream_proxy := k_allow_upstream_proxy k;
     k_non_loopback_proxy := k_non_loopback_proxy k; k_all_unix_sockets := k_all_unix_sockets k;
     k_allowed_domains := k_allowed_domains k;
     k_allowlist_expansion_enabled := k_allowlist_expansion_enabled k;
     k_denied_domains := v; k_denylist_expansion_enabled := expansion;
     k_allow_unix_sockets := k_allow_unix_sockets k;
     k_allow_local_binding := k_allow_local_binding k |}.

Definition for_environment {abs_path} (controller : option NetworkProxySpec)
    (policy : EnvironmentNetworkPolicy) (p : PermissionProfile uri)
    (exec_policy : Policy (abs_path:=abs_path)) : result NetworkProxySpec str :=
  if match p with Disabled => true | _ => false end
  then Err (lit "environment network policy requires managed network enforcement")
  else if is_some_and controller (λ spec, negb (enabled (spec_config spec)))
  then Err (lit "environment network policy cannot override a disabled controller proxy")
  else
    let? spec := match controller with
                 | Some controller => recompute_for_permission_profile controller p
                 | None => from_config_and_constraints owner_config None p
                 end in
    let config := env_apply_to policy (spec_config spec) in
    let protected_denials := default [] (denied_domains config) in
    let fixed_allowlist :=
      hard_deny_allowlist_misses spec ||
      bool_decide (k_allowlist_expansion_enabled (spec_constraints spec) = Some false) in
    let hard :=
      hard_deny_allowlist_misses spec || env_managed_allowed_domains_only policy
      || negb (managed_sandbox_active p) in
    let allow_owner_grants := negb hard && negb fixed_allowlist in
    let constraints :=
      if fixed_allowlist
      then set_k_allowed (spec_constraints spec) (k_allowed_domains (spec_constraints spec)) None
      else set_k_allowed (spec_constraints spec) (Some (default [] (allowed_domains config)))
             (Some allow_owner_grants) in
    let '(allowed, denied) := compiled_network_domains exec_policy in
    let config := if allow_owner_grants then upsert_network_domains config allowed true else config in
    let config := upsert_network_domains config denied false in
    let config := upsert_network_domains config protected_denials false in
    let constraints := set_k_denied constraints (denied_domains config) (Some true) in
    let? _ := rmap_err (λ e, lit "environment network policy violates managed requirements: "
                              ++ fmt_constraint_error e)
                (validate_policy_against_constraints config constraints) in
    Ok {| base_config := base_config spec; requirements := requirements spec;
          spec_config := config; spec_constraints := constraints;
          hard_deny_allowlist_misses := hard |}.
End spec.

(** ** Denials survive every merge *)

Section denials.
Context `{Externals, MitmHooks, GlobUrl}.
Implicit Types (c : NetworkProxyConfig) (k : NetworkProxyConstraints).

(** An entry denies the host up to normalisation. *)
Definition denies c (h : str) : Prop :=
  ∃ e, {| NetHost.pattern := e; permission := PDeny |} ∈ entries_of c ∧
    normalize_host e = normalize_host h.

Lemma upsert_deny_denies c h : denies (upsert_domain_permission c h PDeny normalize_host) h.
Proof. exists h. split; [|done]. apply upsert_elem. by right. Qed.

Lemma upsert_deny_keeps c h g : denies c g → denies (upsert_domain_permission c h PDeny normalize_host) g.
Proof.
  intros (e & He & Heq). destruct (decide (normalize_host g = normalize_host h)) as [Hg|Hg].
  - exists h. split; [|by rewrite Hg]. apply upsert_elem. by right.
  - exists e. split; [|done]. apply upsert_elem. left. simpl. by rewrite Heq.
Qed.

Lemma upsert_loop_deny c hosts incoming :
  (∀ h, h ∈ incoming → denies c h) →
  (∀ h, denies c h → denies (upsert_loop c hosts PDeny incoming) h) ∧
  ∀ h, h ∈ hosts → denies (upsert_loop c hosts PDeny incoming) h.
Proof.
  revert c incoming; induction hosts as [|x hosts IH]; intros c incoming Hin; simpl; [set_solver|].
  case_bool_decide as Hx.
  - destruct (IH c incoming Hin) as [Hk Hn2]. split; [done|].
    intros h [->|Hh]%elem_of_cons; [by apply Hk, Hin|by apply Hn2].
  - destruct (IH (upsert_domain_permission c x PDeny normalize_host) ({[x]} ∪ incoming)) as [Hk Hn2].
    { intros h [->%elem_of_singleton|Hh]%elem_of_union; [apply upsert_deny_denies|].
      by apply upsert_deny_keeps, Hin. }
    split; [intros h Hh; by apply Hk, upsert_deny_keeps|].
    intros h [->|Hh]%elem_of_cons; [apply Hk, upsert_deny_denies|by apply Hn2].
Qed.

Lemma upsert_denied c hosts :
  (∀ h, denies c h → denies (upsert_network_domains c hosts false) h) ∧
  ∀ h, h ∈ hosts → denies (upsert_network_domains c hosts false) h.
Proof. apply upsert_loop_deny. set_solver. Qed.

Lemma denied_denies c h : h ∈ default [] (denied_domains c) → denies c h.
Proof. rewrite denied_elem. intros Hh. by exists h. Qed.

Lemma denies_denied c h :
  denies c h ↔ ∃ e, e ∈ default [] (denied_domains c) ∧ normalize_host e = normalize_host h.
Proof. unfold denies. by setoid_rewrite denied_elem. Qed.

Lemma env_apply_denies e c h :
  denies c h ∨ denies (set_domains c (env_domains e)) h → denies (env_apply_to e c) h.
Proof.
  assert (∀ l c0, (∀ g, denies c0 g → denies (foldl (λ c domain,
            upsert_domain_permission c domain PDeny normalize_host) c0 l) g) ∧
          ∀ g, g ∈ l → denies (foldl (λ c domain,
            upsert_domain_permission c domain PDeny normalize_host) c0 l) g) as Hl.
  { induction l as [|x l IH]; intros c0; simpl; [set_solver|].
    destruct (IH (upsert_domain_permission c0 x PDeny normalize_host)) as [Hk Hn2]. split.
    - intros g Hg. by apply Hk, upsert_deny_keeps.
    - intros g [->|Hg]%elem_of_cons; [apply Hk, upsert_deny_denies|by apply Hn2]. }
  destruct (Hl (default [] (denied_domains c)) (set_domains c (env_domains e))) as [Hk Hn2].
  intros [Hh|Hh]; [|exact (Hk h Hh)].
  apply denies_denied in Hh as (d & Hd & Heq). destruct (Hn2 d Hd) as (e' & He & Heq').
  exists e'. split; [exact He|congruence].
Qed.

(** Where a denial ends: the proxy's decision. *)
Lemma denies_blocks `{!GlobLaws} spec s h host lookup port :
  build_config_state_for_spec spec = Ok s → denies (spec_config spec) h →
  host_normal h → plain_config (config s) → host_parse host = Ok h →
  decide_host lookup s host port = Blocked Denied.
Proof.
  unfold build_config_state_for_spec. destruct (build_config_state _ _) as [s'|] eqn:Hb; [|done].
  intros [= ->] (e & He & Heq) Hn Hp Hh.
  apply build_config_state_inv in Hb as (Hc & _ & _ & _ & Ha & Hd).
  apply (denied_entry_blocks lookup s host port h e); [done..| |].
  - rewrite Hc. by apply broker_denied.
  - by rewrite Heq; destruct Hn.
Qed.
End denials.

(** ** Sockets of an environment *)

Section sockets.
Context `{Externals, MitmHooks, GlobUrl}.
Implicit Types c : NetworkProxyConfig.

Definition sockets_of c : NetworkUnixSocketPermissions := default ∅ (unix_sockets c).

Lemma no_socket_denied_spec m : no_socket_denied m = true ↔ ∀ p, m !! p ≠ Some SocketDeny.
Proof.
  unfold no_socket_denied. rewrite forallb_forall. split.
  - intros Hf p Hp. apply elem_of_map_to_list in Hp. apply list_elem_of_In in Hp.
    specialize (Hf _ Hp). by apply bool_decide_eq_true in Hf.
  - intros Hm [p v] Hp%list_elem_of_In%elem_of_map_to_list. apply bool_decide_eq_true. simpl.
    intros ->. by apply (Hm p).
Qed.

Lemma btree_entries_map {A} (m : gmap str A) :
  NoDup (btree_entries m).*1 ∧ list_to_map (btree_entries m) = m.
Proof.
  assert (NoDup (btree_entries m).*1) as Hnd.
  { unfold btree_entries. rewrite merge_sort_Permutation. apply NoDup_fst_map_to_list. }
  split; [done|]. rewrite <- (list_to_map_to_list m) at 2.
  apply list_to_map_proper; [done|]. unfold btree_entries. apply merge_sort_Permutation.
Qed.

(** Inserting the entries that pass a test. *)
Lemma insert_entries_lookup (t : NetworkUnixSocketPermission → bool)
    (l : list (str * NetworkUnixSocketPermission)) (m : NetworkUnixSocketPermissions) p :
  NoDup l.*1 →
  foldl (λ m e, if t e.2 then <[e.1 := e.2]> m else m) m l !! p =
  match (list_to_map l : NetworkUnixSocketPermissions) !! p with
  | Some v => if t v then Some v else m !! p
  | None => m !! p
  end.
Proof.
  revert m; induction l as [|[q v] l IH]; intros m Hnd; simpl; [done|].
  apply NoDup_cons in Hnd as [Hq Hnd]. rewrite (IH _ Hnd).
  destruct (decide (p = q)) as [->|Hne].
  - rewrite lookup_insert_eq. rewrite not_elem_of_list_to_map_1 by done.
    destruct (t v); [by rewrite lookup_insert_eq|done].
  - rewrite lookup_insert_ne by done.
    destruct (t v); [by rewrite lookup_insert_ne|done].
Qed.

Lemma effective_sockets_lookup inherited owner ia oa p :
  (ia = true → no_socket_denied inherited = true) → (oa = true → no_socket_denied owner = true) →
  effective_sockets inherited owner ia oa !! p =
  match inherited !! p, owner !! p with
  | Some SocketDeny, _ | _, Some SocketDeny => Some SocketDeny
  | Some SocketAllow, Some SocketAllow => Some SocketAllow
  | Some SocketAllow, None => if oa then Some SocketAllow else None
  | None, Some SocketAllow => if ia then Some SocketAllow else None
  | None, None => None
  end.
Proof.
  intros Hia Hoa. unfold effective_sockets.
  destruct (btree_entries_map inherited) as [Hnd Hmap].
  etrans; [exact (insert_entries_lookup (λ v, oa || bool_decide (v = SocketDeny)) _ _ p Hnd)|].
  rewrite Hmap.
  rewrite map_lookup_filter. setoid_rewrite no_socket_denied_spec in Hoa.
  destruct (inherited !! p) as [[]|] eqn:Hi, (owner !! p) as [[]|] eqn:Ho, oa, ia; simpl;
    repeat case_guard; try naive_solver.
  all: try (exfalso; by apply (Hoa eq_refl p)).
Qed.

(** The policy of an environment only narrows the sockets and settings of
    the controller: a socket is denied if either denies it and allowed if each
    allows it or, having denied none, allows every socket; every socket, the
    upstream proxy and local binding are allowed only if both allow them. *)
Theorem env_policy_narrows e c :
  let c' := env_apply_to e c in
  let inherited := sockets_of c in
  let owner := default ∅ (env_unix_sockets e) in
  let inherited_all := dangerously_allow_all_unix_sockets c && no_socket_denied inherited in
  let owner_all := env_all_unix_sockets e && no_socket_denied owner in
  (∀ p, sockets_of c' !! p = Some SocketDeny ↔
        inherited !! p = Some SocketDeny ∨ owner !! p = Some SocketDeny) ∧
  (∀ p, sockets_of c' !! p = Some SocketAllow ↔
        inherited !! p = Some SocketAllow ∧ owner !! p = Some SocketAllow ∨
        inherited !! p = Some SocketAllow ∧ owner_all = true ∨
        inherited_all = true ∧ owner !! p = Some SocketAllow) ∧
  dangerously_allow_all_unix_sockets c' = inherited_all && owner_all ∧
  allow_upstream_proxy c' = allow_upstream_proxy c && env_allow_upstream_proxy e ∧
  allow_local_binding c' = allow_local_binding c && env_allow_local_binding e.
Proof.
  intros c' inherited owner ia oa.
  assert (sockets_of c' = effective_sockets inherited owner ia oa) as Hs.
  { unfold sockets_of, c', env_apply_to. simpl. unfold nonempty_map. by case_bool_decide. }
  assert (dangerously_allow_all_unix_sockets c' = ia && oa ∧
    allow_upstream_proxy c' = allow_upstream_proxy c && env_allow_upstream_proxy e ∧
    allow_local_binding c' = allow_local_binding c && env_allow_local_binding e) as Hf by done.
  assert (ia = true → no_socket_denied inherited = true) as Hia by (by intros [_ ?]%andb_true_iff).
  assert (oa = true → no_socket_denied owner = true) as Hoa by (by intros [_ ?]%andb_true_iff).
  rewrite Hs. setoid_rewrite (effective_sockets_lookup inherited owner ia oa _ Hia Hoa).
  setoid_rewrite no_socket_denied_spec in Hia. setoid_rewrite no_socket_denied_spec in Hoa.
  clearbody ia oa. split; [|split; [|exact Hf]]; intros p.
  - destruct (inherited !! p) as [[]|], (owner !! p) as [[]|], ia, oa; naive_solver.
  - destruct (inherited !! p) as [[]|] eqn:Hi, (owner !! p) as [[]|] eqn:Ho, ia, oa; naive_solver.
Qed.
End sockets.

Section theorems.
Context `{Externals, MitmHooks, GlobUrl}.

(** The last network rule about a host that is not a prompt forbids it. *)
Definition forbidden_by {abs_path} (p : Policy (abs_path:=abs_path)) (h : str) : Prop :=
  last_decision (network_rules p) h = Some Forbidden.

Lemma forbidden_denied {abs_path} (p : Policy (abs_path:=abs_path)) h :
  forbidden_by p h → h ∈ (compiled_network_domains p).2.
Proof.
  unfold forbidden_by, compiled_network_domains. intros Hf.
  pose proof (compile_rules_spec (network_rules p)) as Hs.
  destruct (foldl compile_rule ([], []) (network_rules p)) as [al de].
  destruct Hs as (_ & _ & Hs). by apply Hs.
Qed.

(** A host the execution policy forbids is blocked by the proxy: after the
    network rules of the policy are merged into the proxy's specification and
    the state is built from it, every host that normalises to one whose last
    rule forbids it is denied, whatever the configuration allowed before. *)
Theorem exec_policy_denials_enforced `{!GlobLaws} {abs_path} spec (p : Policy (abs_path:=abs_path))
    spec' s h host lookup port :
  with_exec_policy_network_rules spec p = Ok spec' → build_config_state_for_spec spec' = Ok s →
  forbidden_by p h → host_normal h → plain_config (config s) → host_parse host = Ok h →
  decide_host lookup s host port = Blocked Denied.
Proof.
  unfold with_exec_policy_network_rules. intros Hw Hb Hf. revert Hb.
  destruct (validate_policy_against_constraints _ _); [|done]. simpl in Hw. injection Hw as <-.
  intros Hb. apply (denies_blocks _ _ _ _ _ _ Hb). simpl.
  apply forbidden_denied in Hf. destruct (compiled_network_domains p) as [al de]. simpl in *.
  by apply upsert_denied.
Qed.

(** No denial is lost when an execution environment brings its own network
    policy: a host denied by the controller's configuration, by the owner's
    policy or by the execution policy is denied by the proxy built for the
    environment, whatever the saved grants allow. *)
Theorem environment_denials_enforced `{!GlobLaws} {abs_path uri} controller policy
    (profile : PermissionProfile uri) (p : Policy (abs_path:=abs_path)) spec' s h host lookup port :
  for_environment controller policy profile p = Ok spec' →
  build_config_state_for_spec spec' = Ok s →
  (∃ ctl spec, controller = Some ctl ∧ recompute_for_permission_profile ctl profile = Ok spec ∧
     denies (spec_config spec) h) ∨
  {| NetHost.pattern := h; permission := PDeny |} ∈ default [] (env_domains policy) ∨
  forbidden_by p h →
  host_normal h → plain_config (config s) → host_parse host = Ok h →
  decide_host lookup s host port = Blocked Denied.
Proof.
  unfold for_environment. destruct (match profile with Disabled => true | _ => false end); [done|]. destruct (is_some_and _ _); [done|].
  set (base := match controller with Some _ => _ | None => _ end).
  destruct base as [spec|] eqn:Hbase; [|done]. simpl.
  set (config := env_apply_to policy (spec_config spec)).
  set (grants := negb _ && negb _). set (ks := if _ || _ then _ else _).
  pose proof (forbidden_denied p h) as Hforb.
  destruct (compiled_network_domains p) as [al de]. simpl in Hforb.
  set (config1 := if grants then _ else _). set (config2 := upsert_network_domains config1 de false).
  destruct (validate_policy_against_constraints _ _); [|done]. simpl. intros [= <-] Hb Hden.
  apply (denies_blocks _ _ _ _ _ _ Hb). simpl.
  destruct (upsert_denied config2 (default [] (denied_domains config))) as [Hkeep Hnew].
  assert (denies config h → denies (upsert_network_domains config2
    (default [] (denied_domains config)) false) h) as Hprot.
  { intros (d & Hd & Heq)%denies_denied. destruct (Hnew d Hd) as (e' & He & Heq').
    exists e'. split; [done|congruence]. }
  destruct Hden as [(ctl & spec0 & -> & Hre & Hh)|[Hown|Hf]].
  - apply Hprot, env_apply_denies. left. unfold base in Hbase. rewrite Hre in Hbase.
    by injection Hbase as <-.
  - apply Hprot, env_apply_denies. right. exists h. split; [|done]. done.
  - apply Hkeep. by apply upsert_denied, Hforb.
Qed.
End theorems.
