(* ===== verification/NetWitnesses.v ===== *)
(** * The network proxy at work

    Concrete instances of what the proxy relies on, a configuration, runs of the
    proxy, and the network theorems applied to them. *)

From S2P Require Import Prelude RustStr UnixPath Permissions ExecRule ExecPolicy.
From S2P Require Import NetAddr NetHost NetConfig NetProxy NetSpec.

(** ** Instances *)

(** Globs on the patterns the proxy builds. *)
Definition demo_glob_match (p h : str) : bool :=
  if bool_decide (p = lit "*") then true
  else
    match strip_prefix (lit "?*.") p with
    | Some d =>
        ends_with (to_ascii_lowercase h) (dot :: to_ascii_lowercase d)
        && (length d + 1 <? length h)
    | None => bool_decide (to_ascii_lowercase h = to_ascii_lowercase p)
    end.

#[local] Instance demo_globs : GlobUrl := {|
  glob_valid _ := true; glob_match := demo_glob_match; 
  url_host_parse host := if contains_char host 91 then None else Some host |}.

#[local] Instance demo_externals : Externals := {|
  url_parse _ := None; fmt_debug s := s; from_absolute_path := Some |}.

#[local] Instance demo_hooks : MitmHooks := {|
  MitmHookConfig := Empty_set; validate_hook _ _ := Ok ();
  MitmHooksByHost := (); compile_hooks _ := Ok (); MitmState := ();
  mitm_state_new _ := Ok () |}.

Lemma plain_head c d : plain (c :: d) → c ∉ glob_meta.
Proof. by intros [? _]%Forall_cons. Qed.

#[local] Instance demo_glob_laws : GlobLaws.
Proof.
  split.
  - intros d h Hd. split; [done|]. simpl. unfold demo_glob_match.
    assert (bool_decide (d = lit "*") = false) as ->.
    { apply bool_decide_eq_false. intros ->. apply plain_head in Hd. by vm_compute in Hd; set_solver. }
    assert (strip_prefix (lit "?*.") d = None) as ->.
    { destruct d as [|c d]; [done|]. apply plain_head in Hd.
      change (lit "?*.") with [63; 42; 46]%N. rewrite strip_prefix_cons.
      destruct (N.eqb_spec 63 c) as [<-|]; [|done]. destruct Hd. left. }
    by rewrite bool_decide_eq_true.
  - intros d h Hd. split; [done|]. simpl. unfold demo_glob_match.
    assert (bool_decide (sub_glob d = lit "*") = false) as -> by done.
    assert (strip_prefix (lit "?*.") (sub_glob d) = Some d) as -> by done.
    rewrite andb_true_iff, ends_with_spec, Nat.ltb_lt. split.
    + intros [(x & Hx) Hl]. exists x. split; [|done]. intros ->.
      apply (f_equal length) in Hx. unfold to_ascii_lowercase in Hx. simpl in Hx.
      rewrite !length_fmap in Hx. lia.
    + intros (x & Hne & Hx). split; [by exists x|].
      apply (f_equal length) in Hx. unfold to_ascii_lowercase in Hx.
      rewrite length_app in Hx. simpl in Hx. rewrite !length_fmap in Hx.
      destruct x; [done|]. simpl in Hx. lia.
  - done.
Qed.

(** ** A configuration *)

Definition entry (p : str) (perm : NetworkDomainPermission) : NetworkDomainPermissionEntry :=
  {| NetHost.pattern := p; permission := perm |}.

Definition demo_config : NetworkProxyConfig :=
  set_domains (set_enabled default_config true)
    (Some [entry (lit "**.example.com") PAllow; entry (lit "bad.example.com") PDeny;
           entry (lit "localhost") PAllow; entry (lit "bad.example.com") PAllow]).

Definition demo_constraints : NetworkProxyConstraints := {|
  k_enabled := None; k_mode := Some Full; k_allow_upstream_proxy := None;
  k_non_loopback_proxy := Some false; k_all_unix_sockets := None;
  k_allowed_domains := Some [lit "*.EXAMPLE.com"; lit "example.com"; lit "**.example.com"; lit "localhost"];
  k_allowlist_expansion_enabled := None; k_denied_domains := Some [lit "BAD.example.com"];
  k_denylist_expansion_enabled := Some true; k_allow_unix_sockets := Some [];
  k_allow_local_binding := Some false |}.

Definition demo_state : ConfigState :=
  match build_config_state demo_config demo_constraints with
  | Ok s => s
  | Err _ =>
      {| config := demo_config; brokerage_created_default_allowlist := false; allow_set := [];
         deny_set := []; mitm_state := None; compiled_hooks := (); constraints := demo_constraints;
         blocked := []; blocked_total := 0 |}
  end.

Lemma demo_supplied : supplied demo_state.
Proof. exists demo_config, demo_constraints. by vm_compute. Qed.

Definition demo_world : World := {| shared := demo_state; tasks := [] |}.

Lemma demo_reachable : reachable demo_world.
Proof. apply reachable_init, demo_supplied. Qed.

Lemma demo_no_reload : reload_ok (Ok None).
Proof. by intros new. Qed.

(** [plain_pattern] computed. *)
Definition plain_str (s : str) : bool := forallb (λ c, negb (bool_decide (c ∈ glob_meta))) s.

Lemma plain_str_spec s : plain_str s = true → plain s.
Proof.
  unfold plain_str, plain. rewrite forallb_forall, Forall_forall. intros Hs c Hc.
  apply list_elem_of_In in Hc. specialize (Hs c Hc). apply negb_true_iff in Hs.
  by apply bool_decide_eq_false in Hs.
Qed.

Definition plain_patternb (p : str) : bool :=
  match pattern_parse (normalize_pattern p) with
  | Exact d => bool_decide (d = lit "*") || plain_str d
  | SubdomainsOnly d | ApexAndSubdomains d => plain_str d
  end.

Lemma plain_patterns_spec ps : forallb plain_patternb ps = true → Forall plain_pattern ps.
Proof.
  rewrite forallb_forall, Forall_forall. intros Hs p Hp%list_elem_of_In. specialize (Hs p Hp).
  unfold plain_patternb, plain_pattern in *. destruct (pattern_parse _).
  - by apply plain_str_spec.
  - by apply plain_str_spec.
  - apply orb_true_iff in Hs as [Hs|Hs]; [left; by apply bool_decide_eq_true in Hs|].
    right. by apply plain_str_spec.
Qed.

Ltac solve_plain := split; apply plain_patterns_spec; vm_compute; reflexivity.

(** ** The theorems applied *)

(** Bound to every interface, but with a unix socket to proxy. *)
Definition socket_config : NetworkProxyConfig :=
  set_allow_unix_sockets
    (set_dangerously_allow_non_loopback_proxy
       (set_proxy_url default_config (lit "http://0.0.0.0:3129/")) true)
    [lit "/var/run/docker.sock"].

Lemma resolve_runtime_loopback_witness :
  let '(http_addr, socks_addr) := (localhost_v4 3129, localhost_v4 8081) in
  resolve_runtime socket_config = Ok (http_addr, socks_addr) ∧
  is_loopback (ip http_addr) = true ∧ is_loopback (ip socks_addr) = true.
Proof.
  assert (resolve_runtime socket_config = Ok (localhost_v4 3129, localhost_v4 8081)) as Hr
    by (vm_compute; reflexivity).
  split; [exact Hr|].
  destruct (resolve_runtime_loopback socket_config _ _ Hr) as (? & ? & _);
    [right; left; apply is_empty_false; vm_compute; reflexivity|split; assumption].
Defined.

(** Two different glob patterns that are no hosts. *)
Definition glob_config : NetworkProxyConfig :=
  set_domains default_config (Some [entry (lit "evil[a-z].com") PAllow]).
Definition glob_constraints : NetworkProxyConstraints := {|
  k_enabled := None; k_mode := None; k_allow_upstream_proxy := None; k_non_loopback_proxy := None;
  k_all_unix_sockets := None; k_allowed_domains := Some [lit "host[0-9].corp.example"];
  k_allowlist_expansion_enabled := None; k_denied_domains := None;
  k_denylist_expansion_enabled := None; k_allow_unix_sockets := None; k_allow_local_binding := None |}.

(** Entries that [UrlHost::parse] refuses all become the empty domain when they
    are compared with the managed ones, while the compiled allowlist keeps their
    glob: a managed entry of that kind admits every other one. *)
Theorem unparsable_entries_are_equal :
  validate_policy_against_constraints glob_config glob_constraints = Ok () ∧
  compile_allowlist_globset (default [] (allowed_domains glob_config)) = Ok [lit "evil[a-z].com"].
Proof. vm_compute. done. Qed.

Lemma proxy_invariant_witness :
  reachable demo_world ∧
  validate_policy_against_constraints (config demo_state) (constraints demo_state) = Ok ().
Proof.
  split; [exact demo_reachable|]. apply (proxy_invariant demo_world demo_reachable).
Defined.

Definition demo_lookup : Lookup :=
  λ host _, if bool_decide (host = lit "api.example.com")
            then Some [{| ip := V4 (ipv4 93 184 216 34); port := 443 |}] else None.

Definition demo_request (host : str) : NetworkPolicyRequest := {|
  protocol := HttpsConnect; req_host := host; req_port := 443; environment_id := None;
  client_addr := None; method := None; command := None; exec_policy_hint := None;
  execution_id := None; disconnect := None |}.

Definition demo_handle : ProxyHandle :=
  {| handle_environment_id := None; handle_execution_id := None |}.

(** The decisions of the demo policy. *)
Definition demo_decision (host : str) : HostBlockDecision := decide_host demo_lookup demo_state host 443.

Example demo_decisions :
  demo_decision (lit "API.example.com.:443") = Allowed ∧
  demo_decision (lit "bad.example.com") = Blocked Denied ∧
  demo_decision (lit "unknown.example.com") = Blocked NotAllowedLocal ∧
  demo_decision (lit "127.0.0.1") = Blocked NotAllowedLocal ∧
  demo_decision (lit "localhost:80") = Allowed ∧
  demo_decision (lit "8.8.8.8") = Blocked NotAllowed ∧ demo_decision [] = Blocked NotAllowed.
Proof. vm_compute. done. Qed.

Lemma allowed_requests_safe_witness :
  ¬ host_matched (config demo_state) PDeny (lit "api.example.com") ∧
  local_ok demo_lookup (config demo_state) (lit "api.example.com") 443 ∧
  host_matched (config demo_state) PAllow (lit "api.example.com").
Proof.
  assert (∃ ev, evaluate_host_policy (Ok None) demo_lookup (lit "now") None demo_handle
            (demo_request (lit "API.example.com:443")) demo_state = Ok (NetAllow, ev, demo_state) ∧
            ev_policy_override ev = false) as (ev & Hev & Ho)
    by (eexists; split; vm_compute; reflexivity).
  pose proof (allowed_requests_safe demo_world (Ok None) demo_lookup (lit "now") None demo_handle
    (demo_request (lit "API.example.com:443")) ev demo_state demo_reachable demo_no_reload Hev)
    as [_ Hs].
  rewrite Ho in Hs.
  replace (host_parse (req_host (demo_request (lit "API.example.com:443"))))
    with (@Ok str str (lit "api.example.com")) in Hs by (vm_compute; reflexivity).
  destruct Hs as (H1 & H2 & H3). split; [exact H1|]. split; [apply H2; vm_compute; reflexivity|exact H3].
Defined.

Lemma connect_checks_address_witness :
  target_matches_non_public_addr (Name (lit "LocalHost")) (V4 (ipv4 127 0 0 1)) = true ∧
  ∃ h q, host_parse (lit "LocalHost") = Ok h ∧ ¬ host_listed (config demo_state) PDeny h ∧
    entry q PAllow ∈ entries_of (config demo_state) ∧ normalize_host (trim q) ∈ names h.
Proof.
  destruct (connect_checks_address demo_world (Ok None) (Ok None) demo_lookup
    (Name (lit "LocalHost")) 80 (V4 (ipv4 127 0 0 1)) demo_state) as [Hb|Hm].
  - exact demo_reachable.
  - exact demo_no_reload.
  - exact demo_no_reload.
  - vm_compute. reflexivity.
  - vm_compute. reflexivity.
  - solve_plain.
  - intros a Ha. discriminate.
  - vm_compute in Hb. discriminate.
  - exact Hm.
Defined.

Definition after_deny : ConfigState :=
  match add_denied_domain (Ok None) (lit "Api.Example.com") demo_state with
  | Ok s => s
  | Err _ => demo_state
  end.

Lemma add_denied_takes_effect_witness :
  decide_host demo_lookup demo_state (lit "api.example.com") 443 = Allowed ∧
  decide_host demo_lookup after_deny (lit "API.example.com.:8443") 8443 = Blocked Denied.
Proof.
  split; [vm_compute; reflexivity|].
  apply (add_denied_takes_effect demo_world (Ok None) (lit "Api.Example.com") (lit "api.example.com")).
  - exact demo_reachable.
  - exact demo_no_reload.
  - vm_compute. reflexivity.
  - vm_compute. reflexivity.
  - split; [vm_compute; reflexivity|]. split; [vm_compute; reflexivity|].
    apply plain_str_spec. vm_compute. reflexivity.
  - solve_plain.
  - vm_compute. reflexivity.
Defined.

Definition demo_blocked (n : nat) : BlockedRequest := {|
  blocked_host := fmt_nat n; blocked_reason := lit "denied"; blocked_client := None;
  blocked_method := None; blocked_mode := None; blocked_protocol := lit "http";
  blocked_execution_id := None; blocked_decision := None; blocked_source := None;
  blocked_port := None; blocked_timestamp := 0 |}.

Lemma blocked_log_newest_witness :
  let s := foldl (λ s e, push_blocked e s) demo_state (demo_blocked <$> seq 0 203) in
  blocked s = demo_blocked <$> seq 3 200 ∧ blocked_total s = 203%N.
Proof.
  destruct (blocked_log_newest demo_state (demo_blocked <$> seq 0 203)) as (Hb & Ht & _).
  - apply Nat.leb_le. vm_compute. reflexivity.
  - apply N.leb_le. vm_compute. reflexivity.
  - split; [rewrite Hb|rewrite Ht]; vm_compute; reflexivity.
Defined.

(** ** Specifications *)

(** A policy that allows a host and later forbids it. *)
Definition demo_exec_policy : Policy (abs_path:=()) := {|
  rules_by_program := ∅;
  network_rules :=
    [{| host := lit "api.example.com"; ExecRule.protocol := Https; net_decision := Allow;
        net_justification := None |};
     {| host := lit "api.example.com"; ExecRule.protocol := Https; net_decision := Forbidden;
        net_justification := None |}];
  host_executables_by_name := ∅ |}.

Definition demo_spec : NetworkProxySpec := {|
  base_config := demo_config; requirements := None; spec_config := demo_config;
  spec_constraints := default_constraints; hard_deny_allowlist_misses := false |}.

Definition demo_rules_spec : NetworkProxySpec :=
  match with_exec_policy_network_rules demo_spec demo_exec_policy with
  | Ok spec => spec
  | Err _ => demo_spec
  end.

(** The state built for a specification. *)
Definition spec_state (spec : NetworkProxySpec) : ConfigState :=
  match build_config_state_for_spec spec with Ok s => s | Err _ => demo_state end.

Lemma demo_host_normal : host_normal (lit "api.example.com").
Proof.
  split; [vm_compute; reflexivity|]. split; [vm_compute; reflexivity|].
  apply plain_str_spec. vm_compute. reflexivity.
Defined.

Lemma exec_policy_denials_enforced_witness :
  decide_host demo_lookup (spec_state demo_spec) (lit "API.example.com") 443 = Allowed ∧
  decide_host demo_lookup (spec_state demo_rules_spec) (lit "API.example.com") 443 = Blocked Denied.
Proof.
  split; [vm_compute; reflexivity|].
  apply (exec_policy_denials_enforced demo_spec demo_exec_policy demo_rules_spec _ (lit "api.example.com")).
  - vm_compute. reflexivity.
  - vm_compute. reflexivity.
  - vm_compute. reflexivity.
  - exact demo_host_normal.
  - solve_plain.
  - vm_compute. reflexivity.
Defined.

(** An owner that allows everything the controller denies. *)
Definition demo_env_policy : EnvironmentNetworkPolicy := {|
  env_domains := Some [entry (lit "BAD.example.com") PAllow; entry (lit "**.example.com") PAllow];
  env_unix_sockets := None; env_allow_upstream_proxy := true; env_all_unix_sockets := true;
  env_allow_local_binding := true; env_managed_allowed_domains_only := false |}.

Definition demo_profile : PermissionProfile str := Managed ManagedUnrestricted NetworkRestricted.

Definition demo_env_spec : NetworkProxySpec :=
  match for_environment (Some demo_spec) demo_env_policy demo_profile demo_exec_policy with
  | Ok spec => spec
  | Err _ => demo_spec
  end.

Lemma environment_denials_enforced_witness :
  decide_host demo_lookup (spec_state demo_env_spec) (lit "bad.example.com") 443 = Blocked Denied.
Proof.
  apply (environment_denials_enforced (Some demo_spec) demo_env_policy demo_profile demo_exec_policy
           demo_env_spec _ (lit "bad.example.com")).
  - vm_compute. reflexivity.
  - vm_compute. reflexivity.
  - left. exists demo_spec. eexists. split; [reflexivity|]. split; [vm_compute; reflexivity|].
    exists (lit "bad.example.com"). split; [|reflexivity].
    apply denied_elem. vm_compute. apply elem_of_cons. left. reflexivity.
  - split; [vm_compute; reflexivity|]. split; [vm_compute; reflexivity|].
    apply plain_str_spec. vm_compute. reflexivity.
  - solve_plain.
  - vm_compute. reflexivity.
Defined.

(** ** Races and resets of the log *)

(** A forced reload keeps the log and resets its counter: the counter no longer
    bounds the log. *)
Example force_reload_resets_total :
  ∃ w, reachable w ∧ length (blocked (shared w)) = 1 ∧ blocked_total (shared w) = 0%N.
Proof.
  exists {| shared := set_blocked demo_state [demo_blocked 0] 0; tasks := [] |}.
  split; [|done].
  apply (reachable_step {| shared := push_blocked (demo_blocked 0) demo_state; tasks := [] |}).
  - eapply reachable_step; [exact demo_reachable|]. apply step_record.
  - apply (step_force_reload _ _ demo_state); [exact demo_supplied|]. by vm_compute.
Qed.

(** A reload writes back the log it read before: a request recorded between its
    two locks is lost. *)
Example reload_loses_record :
  ∃ w1 w2 w3, step demo_world w1 ∧
    step w1 w2 ∧ shared w2 = push_blocked (demo_blocked 0) (shared w1) ∧
    step w2 w3 ∧ blocked (shared w3) = [] ∧ blocked_total (shared w3) = 0%N.
Proof.
  eexists _, _, _. split_and!.
  - apply (step_reload_read _ _ demo_state), demo_supplied.
  - apply (step_record _ _ (demo_blocked 0)).
  - done.
  - apply (step_reload_write _ []).
  - done.
  - done.
Qed.
