(* ===== verification/Readiness.v ===== *)
(** * The readiness flag

    [codex-rs/utils/readiness/src/lib.rs]: a flag that becomes ready once a
    subscribed token marks it, with waiters.  Each operation is given as the
    atomic sections between which other tasks run; a task is the section it is
    at.  The closures run under the lock of the tokens are atomic.  The watch
    channel is tokio's: an interface with its documented laws. *)

From S2P Require Import Prelude.

(** ** The watch channel *)

(** A channel of a boolean: its value, the version that every accepted send
    raises, and the number of receivers.  A receiver is the version it has
    seen. *)
Class Watch (W : Type) := {
  w_new : W;
  w_send : bool → W → W;
  w_subscribe : W → W;
  w_drop : W → W;
  w_value : W → bool;
  w_version : W → nat;
  w_receivers : W → nat;
}.

(** [Sender::send] fails, and keeps the old value, when there is no receiver. *)
Class WatchLaws W `{Watch W} : Prop := {
  new_value : w_value w_new = false;
  new_receivers : w_receivers w_new = 0;
  send_dropped v c : w_receivers c = 0 → w_send v c = c;
  send_value v c : w_receivers c ≠ 0 → w_value (w_send v c) = v;
  send_version v c : w_receivers c ≠ 0 → w_version (w_send v c) = S (w_version c);
  send_receivers v c : w_receivers (w_send v c) = w_receivers c;
  subscribe_value c : w_value (w_subscribe c) = w_value c;
  subscribe_version c : w_version (w_subscribe c) = w_version c;
  subscribe_receivers c : w_receivers (w_subscribe c) = S (w_receivers c);
  drop_value c : w_value (w_drop c) = w_value c;
  drop_version c : w_version (w_drop c) = w_version c;
  drop_receivers c : w_receivers (w_drop c) = pred (w_receivers c);
}.

(** ** The flag *)

Abbreviation Token := Z.

Inductive ReadinessError := TokenLockFailed | FlagAlreadyReady.

Record Flag := { ready : bool; next_id : Z; tokens : gset Token }.

Definition new_flag : Flag := {| ready := false; next_id := 1; tokens := ∅ |}.

(** [AtomicI32::fetch_add] wraps. *)
Definition fetch_add (id : Z) : Z := wrap_i32 (id + 1).

(** The loop of [subscribe] under the lock: the token and the next id. *)
Fixpoint alloc_token (fuel : nat) (id : Z) (ts : gset Token) : option (Token * Z) :=
  match fuel with
  | 0 => None
  | S fuel =>
      if negb (id =? 0)%Z && bool_decide (id ∉ ts) then Some (id, fetch_add id)
      else alloc_token fuel (fetch_add id) ts
  end.

(** Where a call of [is_ready] continues: it returns, or it is the check of
    [wait_ready]. *)
Inductive After := ReturnBool | ThenWait.

Inductive Ret := RBool (b : bool) | RToken (t : Token) | RErr (e : ReadinessError) | RUnit.

(** The sections of the operations, in the order of the code. *)
Inductive Pc :=
| IsReadyLoad (k : After)
| IsReadyLock (k : After)
| IsReadySend (k : After)
| IsReadyReload (k : After)
| SubscribeLoad
| SubscribeLock
| MarkLoad (t : Token)
| MarkLock (t : Token)
| MarkSend
| WaitSubscribe
| WaitBorrow (seen : nat)
| WaitChanged (seen : nat)
| Returned (r : Ret).

(** What is worth remembering of a run. *)
Inductive Event := Subscribed (t : Token) | Marked (t : Token) | AutoReady.

Definition after (k : After) (b : bool) : Pc :=
  match k with
  | ReturnBool => Returned (RBool b)
  | ThenWait => if b then Returned RUnit else WaitSubscribe
  end.

Definition set_ready (f : Flag) : Flag :=
  {| ready := true; next_id := next_id f; tokens := tokens f |}.

Section tasks.
Context `{Watch W}.

(** What one section can do: the new flag and channel, where the task goes on,
    and the events.  A section under the lock may also time out; [try_lock] may
    fail.  A section with no outcome waits. *)
Definition tstep (f : Flag) (c : W) (pc : Pc) : list (Flag * W * Pc * list Event) :=
  match pc with
  | IsReadyLoad k =>
      [(f, c, if ready f then after k true else IsReadyLock k, [])]
  | IsReadyLock k =>
      let failed := (f, c, IsReadyReload k, []) in
      let locked :=
        if bool_decide (tokens f = ∅)
        then (set_ready f, c, if ready f then after k true else IsReadySend k,
              if ready f then [] else [AutoReady])
        else (f, c, IsReadyReload k, []) in
      [locked; failed]
  | IsReadySend k => [(f, w_send true c, after k true, [])]
  | IsReadyReload k => [(f, c, after k (ready f), [])]
  | SubscribeLoad =>
      [(f, c, if ready f then Returned (RErr FlagAlreadyReady) else SubscribeLock, [])]
  | SubscribeLock =>
      let timeout := (f, c, Returned (RErr TokenLockFailed), []) in
      if ready f then [(f, c, Returned (RErr FlagAlreadyReady), []); timeout]
      else
        match alloc_token (S (S (size (tokens f)))) (next_id f) (tokens f) with
        | Some (t, id) =>
            [({| ready := ready f; next_id := id; tokens := {[t]} ∪ tokens f |}, c,
              Returned (RToken t), [Subscribed t]); timeout]
        | None => [timeout]
        end
  | MarkLoad t =>
      [(f, c, if ready f || (t =? 0)%Z then Returned (RBool false) else MarkLock t, [])]
  | MarkLock t =>
      let timeout := (f, c, Returned (RErr TokenLockFailed), []) in
      if bool_decide (t ∈ tokens f)
      then [({| ready := true; next_id := next_id f; tokens := ∅ |}, c, MarkSend, [Marked t]); timeout]
      else [(f, c, Returned (RBool false), []); timeout]
  | MarkSend => [(f, w_send true c, Returned (RBool true), [])]
  | WaitSubscribe => [(f, w_subscribe c, WaitBorrow (w_version c), [])]
  | WaitBorrow seen =>
      [if w_value c then (f, w_drop c, Returned RUnit, []) else (f, c, WaitChanged seen, [])]
  | WaitChanged seen =>
      if w_version c =? seen then [] else [(f, c, WaitBorrow (w_version c), [])]
  | Returned _ => []
  end.

Record World := {
  flag : Flag;
  chan : W;
  pcs : gmap nat Pc;
  history : list Event;
}.

Definition new_world : World :=
  {| flag := new_flag; chan := w_new; pcs := ∅; history := [] |}.

(** The calls a task can make. *)
Inductive call : Pc → Prop :=
| call_is_ready : call (IsReadyLoad ReturnBool)
| call_subscribe : call SubscribeLoad
| call_mark t : call (MarkLoad t)
| call_wait : call (IsReadyLoad ThenWait).

Inductive step : World → World → Prop :=
| step_call w i pc :
    pcs w !! i = None → call pc →
    step w {| flag := flag w; chan := chan w; pcs := <[i := pc]> (pcs w); history := history w |}
| step_task w i pc f c pc' evs :
    pcs w !! i = Some pc → (f, c, pc', evs) ∈ tstep (flag w) (chan w) pc →
    step w {| flag := f; chan := c; pcs := <[i := pc']> (pcs w); history := history w ++ evs |}.

(** Executable runs: a call, or the section of a task with the outcome chosen. *)
Inductive Action := Call (i : nat) (pc : Pc) | Run (i outcome : nat).

Definition act (w : World) (a : Action) : option World :=
  match a with
  | Call i pc =>
      match pcs w !! i with
      | None =>
          Some {| flag := flag w; chan := chan w; pcs := <[i := pc]> (pcs w); history := history w |}
      | Some _ => None
      end
  | Run i outcome =>
      pc ← pcs w !! i;
      '(f, c, pc', evs) ← tstep (flag w) (chan w) pc !! outcome;
      Some {| flag := f; chan := c; pcs := <[i := pc']> (pcs w); history := history w ++ evs |}
  end.

Fixpoint acts (w : World) (l : list Action) : option World :=
  match l with [] => Some w | a :: l => w ← act w a; acts w l end.

Definition steps : World → World → Prop := rtc step.
Definition reachable (w : World) : Prop := steps new_world w.
End tasks.

(** ** Tokens can always be allocated *)

Lemma wrap_i32_succ z : wrap_i32 (wrap_i32 z + 1) = wrap_i32 (z + 1).
Proof.
  unfold wrap_i32. pose proof (Z.div_mod (z + 2147483648) 4294967296).
  replace ((z + 2147483648) mod 4294967296 - 2147483648 + 1 + 2147483648)%Z
    with (z + 1 + 2147483648 + (- ((z + 2147483648) / 4294967296)) * 4294967296)%Z by lia.
  by rewrite Z.mod_add.
Qed.

Lemma wrap_i32_inj a b :
  wrap_i32 a = wrap_i32 b → (Z.abs (a - b) < 4294967296)%Z → a = b.
Proof.
  unfold wrap_i32. intros Heq Hab.
  pose proof (Z.div_mod (a + 2147483648) 4294967296).
  pose proof (Z.div_mod (b + 2147483648) 4294967296). lia.
Qed.

(** The ids the loop tries. *)
Definition tried (id : Z) (j : nat) : Z := wrap_i32 (id + Z.of_nat j).

Lemma alloc_token_None fuel id ts :
  wrap_i32 id = id → alloc_token fuel id ts = None → ∀ j, j < fuel → tried id j ∈ {[0%Z]} ∪ ts.
Proof.
  revert id; induction fuel as [|fuel IH]; intros id Hid; simpl; [lia|].
  destruct (negb (id =? 0)%Z && bool_decide (id ∉ ts)) eqn:Ht; [done|]. intros Hnone j Hj.
  destruct j as [|j].
  - unfold tried. rewrite Z.add_0_r, Hid. apply andb_false_iff in Ht as [Ht|Ht].
    + apply negb_false_iff, Z.eqb_eq in Ht. set_solver.
    + apply bool_decide_eq_false in Ht. destruct (decide (id ∈ ts)); [set_solver|done].
  - assert (tried id (S j) = tried (fetch_add id) j) as ->.
    { unfold tried, fetch_add. clear. induction j as [|j IH].
      - rewrite Z.add_0_r. change (Z.of_nat 1) with 1%Z. symmetry. apply wrap_i32_id, wrap_i32_range.
      - replace (id + Z.of_nat (S (S j)))%Z with ((id + Z.of_nat (S j)) + 1)%Z by lia.
        rewrite <- wrap_i32_succ, IH, wrap_i32_succ. f_equal. lia. }
    apply IH; [apply wrap_i32_id, wrap_i32_range|done|lia].
Qed.

Lemma alloc_token_Some fuel id ts t id' :
  wrap_i32 id = id → alloc_token fuel id ts = Some (t, id') →
  t ≠ 0%Z ∧ t ∉ ts ∧ wrap_i32 t = t ∧ wrap_i32 id' = id'.
Proof.
  revert id; induction fuel as [|fuel IH]; intros id Hid; simpl; [done|].
  destruct (negb (id =? 0)%Z && bool_decide (id ∉ ts)) eqn:Ht.
  - intros [= <- <-]. apply andb_true_iff in Ht as [H0 Hn].
    apply negb_true_iff, Z.eqb_neq in H0. apply bool_decide_eq_true in Hn.
    split_and!; [done..|]. apply wrap_i32_id, wrap_i32_range.
  - apply IH, wrap_i32_id, wrap_i32_range.
Qed.

(** C31: the loop that looks for a fresh token ends: with fewer than 2^32 - 1
    tokens subscribed it finds, after at most one try per token and two more, a
    token that is not zero and not subscribed, also when the counter wraps
    around. *)
Theorem alloc_token_total id (ts : gset Token) :
  (i32_min ≤ id ≤ i32_max)%Z → (Z.of_nat (size ts) < 4294967295)%Z →
  ∃ t id', alloc_token (S (S (size ts))) id ts = Some (t, id') ∧ t ≠ 0%Z ∧ t ∉ ts ∧
    (i32_min ≤ t ≤ i32_max)%Z ∧ (i32_min ≤ id' ≤ i32_max)%Z.
Proof.
  intros Hid Hsize. assert (wrap_i32 id = id) as Hw by by apply wrap_i32_id.
  destruct (alloc_token (S (S (size ts))) id ts) as [[t id']|] eqn:Ha.
  - destruct (alloc_token_Some _ _ _ _ _ Hw Ha) as (? & ? & Ht & Hid').
    pose proof (wrap_i32_range t) as Hrt. pose proof (wrap_i32_range id') as Hri.
    rewrite Ht in Hrt. rewrite Hid' in Hri. by exists t, id'.
  - exfalso. pose proof (alloc_token_None _ _ _ Hw Ha) as Hall.
    assert (NoDup (tried id <$> seq 0 (S (S (size ts))))) as Hnd.
    { apply NoDup_fmap_2_strong; [|apply NoDup_seq]. intros x y Hx%elem_of_seq Hy%elem_of_seq Heq.
      apply wrap_i32_inj in Heq; lia. }
    assert ((list_to_set (tried id <$> seq 0 (S (S (size ts)))) : gset Z) ⊆ {[0%Z]} ∪ ts) as Hsub.
    { intros z. rewrite elem_of_list_to_set, list_elem_of_fmap.
      intros (j & -> & Hj%elem_of_seq). apply Hall. lia. }
    apply subseteq_size in Hsub. rewrite size_list_to_set in Hsub by done.
    rewrite length_fmap, length_seq in Hsub.
    pose proof (size_union_alt ({[0%Z]} : gset Z) ts) as Hu. rewrite size_singleton in Hu.
    pose proof (subseteq_size (ts ∖ {[0%Z]}) ts ltac:(set_solver)). lia.
Qed.

#[local] Arguments alloc_token : simpl never.

(** ** The flag as an atomic object *)

(** What a section does to the flag. *)
Inductive fstep : Flag → list Event → Flag → Prop :=
| f_same f : fstep f [] f
| f_auto f : ready f = false → tokens f = ∅ → fstep f [AutoReady] (set_ready f)
| f_subscribe f t id :
    ready f = false → alloc_token (S (S (size (tokens f)))) (next_id f) (tokens f) = Some (t, id) →
    fstep f [Subscribed t] {| ready := ready f; next_id := id; tokens := {[t]} ∪ tokens f |}
| f_mark f t :
    t ∈ tokens f → fstep f [Marked t] {| ready := true; next_id := next_id f; tokens := ∅ |}.

(** The events that make the flag ready. *)
Definition is_flip (e : Event) : bool := match e with Subscribed _ => false | _ => true end.
Definition flips (h : list Event) : nat := length (base.filter (λ e, is_flip e = true) h).

Record flag_ok (f : Flag) (h : list Event) : Prop := {
  fo_ready : ready f = true → tokens f = ∅;
  fo_tokens t : t ∈ tokens f → t ≠ 0%Z ∧ wrap_i32 t = t ∧ Subscribed t ∈ h;
  fo_next : wrap_i32 (next_id f) = next_id f;
  fo_flips : flips h = if ready f then 1 else 0;
  fo_marked h1 t h2 : h = h1 ++ (Marked t :: h2) → t ≠ 0%Z ∧ Subscribed t ∈ h1;
}.

Lemma flips_snoc h e : flips (h ++ [e]) = flips h + if is_flip e then 1 else 0.
Proof. unfold flips. rewrite filter_app, length_app. by destruct e. Qed.

(** A marked event of a longer history. *)
Lemma marked_snoc (P : list Event → Token → Prop) h e :
  (∀ h1 t h2, h = h1 ++ Marked t :: h2 → P h1 t) → (∀ t, e = Marked t → P h t) →
  ∀ h1 t h2, h ++ [e] = h1 ++ Marked t :: h2 → P h1 t.
Proof.
  intros Hh He h1 t h2 Heq. destruct (list_snoc_cases h2) as [->|(h2' & x & ->)].
  - apply app_inj_2 in Heq as [<- [= ->]]; [|done]. auto.
  - rewrite app_comm_cons, app_assoc in Heq. apply app_inj_2 in Heq as [-> _]; [|done]. eauto.
Qed.

Lemma fstep_ok f h evs f' : fstep f evs f' → flag_ok f h → flag_ok f' (h ++ evs).
Proof.
  intros Hstep [Hr Ht Hn Hf Hm]. destruct Hstep as [f|f Hready He|f t id Hready Ha|f t Hin].
  - rewrite app_nil_r. by split.
  - split; simpl; [done| |done| |].
    + rewrite He. set_solver.
    + by rewrite flips_snoc, Hf, Hready.
    + apply (marked_snoc (λ h1 t, t ≠ 0%Z ∧ Subscribed t ∈ h1)); [done|by intros t].
  - destruct (alloc_token_Some _ _ _ _ _ Hn Ha) as (Ht0 & _ & Htw & Hid).
    split; simpl; [by rewrite Hready| |done| |].
    + intros t' [->%elem_of_singleton|Ht']%elem_of_union; [set_solver|].
      destruct (Ht t' Ht') as (? & ? & ?). set_solver.
    + rewrite flips_snoc, Hf. simpl. lia.
    + apply (marked_snoc (λ h1 t, t ≠ 0%Z ∧ Subscribed t ∈ h1)); [done|by intros t'].
  - destruct (Ht t Hin) as (Ht0 & _ & Hs).
    assert (ready f = false) as Hready.
    { destruct (ready f); [|done]. rewrite Hr in Hin by done. set_solver. }
    split; simpl; [done|set_solver|done| |].
    + by rewrite flips_snoc, Hf, Hready.
    + apply (marked_snoc (λ h1 t, t ≠ 0%Z ∧ Subscribed t ∈ h1)); [done|]. by intros t' [= <-].
Qed.

Section safety.
Context `{Watch W}.

Lemma tstep_fstep f (c : W) pc f' c' pc' evs :
  (f', c', pc', evs) ∈ tstep f c pc → fstep f evs f'.
Proof.
  assert (ready f = true → fstep f [] (set_ready f)) as Hset.
  { intros Hr. replace (set_ready f) with f; [constructor|]. destruct f. simpl in *. by subst. }
  destruct pc; simpl; intros Hin; repeat case_match;
    repeat (apply elem_of_cons in Hin as [[= -> -> -> ->]|Hin]);
    try (by apply not_elem_of_nil in Hin); try apply f_same; try (by apply Hset); bool_prop.
  - by apply f_auto.
  - match goal with H : ready f = false |- _ => rewrite <- H; by apply f_subscribe end.
  - by apply f_mark.
Qed.

Lemma reachable_flag_ok w : reachable w → flag_ok (flag w) (history w).
Proof.
  unfold reachable, steps. remember new_world as w0 eqn:Hw0.
  assert (flag_ok (flag w0) (history w0)) as H0.
  { subst. split; simpl; [done|set_solver|done|done|]. by intros []. }
  clear Hw0. induction 1 as [w|w w1 w2 Hstep _ IH]; [done|]. apply IH.
  destruct Hstep as [w i pc _ _|w i pc f c pc' evs _ Hin]; [done|].
  eapply fstep_ok; [by eapply tstep_fstep|done].
Qed.

(** In every run, however the tasks interleave: the flag becomes ready at
    most once and stays ready; when it is ready no token is left; a token is
    never zero; and it was marked ready only with a token that had been handed
    out before, or by itself when no token was subscribed. *)
Theorem readiness_invariant w :
  reachable w →
  (ready (flag w) = true → tokens (flag w) = ∅) ∧
  (∀ t, t ∈ tokens (flag w) → t ≠ 0%Z ∧ (i32_min ≤ t ≤ i32_max)%Z ∧ Subscribed t ∈ history w) ∧
  flips (history w) = (if ready (flag w) then 1 else 0) ∧
  (∀ h1 t h2, history w = h1 ++ Marked t :: h2 → t ≠ 0%Z ∧ Subscribed t ∈ h1) ∧
  ∀ w', steps w w' → ready (flag w) = true → ready (flag w') = true.
Proof.
  intros Hw. pose proof (reachable_flag_ok w Hw) as [Hr Ht Hn Hf Hm].
  split_and!; [done| |done|done|].
  - intros t (H0 & Hwrap & Hs)%Ht. split; [done|]. split; [|done].
    rewrite <- Hwrap. apply wrap_i32_range.
  - intros w' Hs Hready. pose proof (reachable_flag_ok w' (transitivity Hw Hs)) as [_ _ _ Hf' _].
    assert (flips (history w) ≤ flips (history w')) as Hle.
    { clear -Hs. induction Hs as [|w w1 w2 Hstep _ IH]; [done|]. etrans; [|exact IH].
      destruct Hstep; simpl; [done|]. unfold flips. rewrite filter_app, length_app. lia. }
    rewrite Hf, Hready, Hf' in Hle. destruct (ready (flag w')); [done|lia].
Qed.
End safety.

(** ** Waiters *)

Definition waiting (pc : Pc) : bool :=
  match pc with WaitBorrow _ | WaitChanged _ => true | _ => false end.

(** The tasks that hold a receiver. *)
Definition n_waiting (m : gmap nat Pc) : nat :=
  size (base.filter (λ e, waiting e.2 = true) m).

Lemma n_waiting_fresh m i pc :
  m !! i = None → n_waiting (<[i := pc]> m) = n_waiting m + if waiting pc then 1 else 0.
Proof.
  intros Hi. unfold n_waiting. rewrite map_filter_insert. simpl.
  destruct (waiting pc); simpl.
  - rewrite map_size_insert_None; [lia|]. rewrite map_lookup_filter, Hi. done.
  - rewrite delete_id by done. lia.
Qed.

Lemma n_waiting_insert m i pc pc' :
  m !! i = Some pc →
  n_waiting (<[i := pc']> m) + (if waiting pc then 1 else 0) =
  n_waiting m + if waiting pc' then 1 else 0.
Proof.
  intros Hi. rewrite <- (insert_delete_id m i pc Hi) at 2.
  rewrite <- insert_delete_eq, !n_waiting_fresh by apply lookup_delete_eq. lia.
Qed.

Lemma n_waiting_pos m i pc : m !! i = Some pc → waiting pc = true → n_waiting m ≠ 0.
Proof.
  intros Hi Hw Hn. rewrite <- (insert_delete_id m i pc Hi), n_waiting_fresh, Hw in Hn
    by apply lookup_delete_eq. lia.
Qed.

Section liveness.
Context `{WatchLaws W}.

Record chan_ok (c : W) (m : gmap nat Pc) : Prop := {
  co_receivers : w_receivers c = n_waiting m;
  co_borrow i seen : m !! i = Some (WaitBorrow seen) → seen ≤ w_version c;
  co_changed i seen : m !! i = Some (WaitChanged seen) →
    seen < w_version c ∨ seen = w_version c ∧ w_value c = false;
}.

(** The channel of a step: unchanged, a send, a receiver more or less. *)
Lemma tstep_chan f (c : W) pc f' c' pc' evs :
  (f', c', pc', evs) ∈ tstep f c pc →
  c' = c ∧ waiting pc' = waiting pc ∨
  c' = w_send true c ∧ waiting pc = false ∧ waiting pc' = false ∨
  c' = w_subscribe c ∧ waiting pc = false ∧ pc' = WaitBorrow (w_version c) ∨
  c' = w_drop c ∧ waiting pc = true ∧ waiting pc' = false.
Proof.
  assert (∀ k b, waiting (after k b) = false) as Hafter by by intros [] [].
  destruct pc; simpl; intros Hin; repeat case_match;
    repeat (apply elem_of_cons in Hin as [[= -> -> -> ->]|Hin]);
    try (by apply not_elem_of_nil in Hin); rewrite ?Hafter; naive_solver.
Qed.

Lemma send_mono b (c : W) :
  w_version c ≤ w_version (w_send b c) ∧
  (w_receivers c = 0 → w_send b c = c) ∧
  (w_receivers c ≠ 0 → w_version c < w_version (w_send b c)).
Proof.
  destruct (decide (w_receivers c = 0)) as [Hc|Hc].
  - by rewrite (send_dropped b c Hc).
  - rewrite (send_version b c Hc). split_and!; [lia|done|lia].
Qed.

(** What a waiting section knows of the channel. *)
Definition pc_ok (c : W) (pc : Pc) : Prop :=
  match pc with
  | WaitBorrow seen => seen ≤ w_version c
  | WaitChanged seen => seen < w_version c ∨ seen = w_version c ∧ w_value c = false
  | _ => True
  end.

Lemma chan_ok_pc c m :
  chan_ok c m ↔ w_receivers c = n_waiting m ∧ ∀ i pc, m !! i = Some pc → pc_ok c pc.
Proof.
  split.
  - intros [Hr Hb Hc]. split; [done|]. intros i [] Hi; simpl; eauto.
  - intros [Hr Hpc]. split; [done|intros i seen Hi; by apply (Hpc _ _ Hi)..].
Qed.

Lemma tstep_pc_ok f (c : W) pc f' c' pc' evs :
  (f', c', pc', evs) ∈ tstep f c pc → pc_ok c pc → pc_ok c' pc'.
Proof.
  assert (∀ k b, pc_ok c (after k b) ∧ pc_ok (w_send true c) (after k b)) as Hafter by by intros [] [].
  destruct pc; simpl; intros Hin Hok; repeat case_match;
    repeat (apply elem_of_cons in Hin as [[= -> -> -> ->]|Hin]);
    try (by apply not_elem_of_nil in Hin); try done; try apply Hafter; simpl;
    rewrite ?subscribe_version; try lia.
  apply Nat.lt_eq_cases in Hok as [?|?]; auto.
Qed.

(** The other tasks. *)
Lemma pc_ok_mono f (c : W) pc f' c' pc' evs q :
  (f', c', pc', evs) ∈ tstep f c pc → pc_ok c q → (waiting q = true → w_receivers c ≠ 0) →
  pc_ok c' q.
Proof.
  intros [[-> _]|[[-> _]|[[-> _]|[-> _]]]]%tstep_chan Hq Hr; [done|..].
  - destruct (send_mono true c) as (Hle & _ & Hlt). destruct q; simpl in *; try done; [lia|].
    left. specialize (Hlt (Hr eq_refl)). lia.
  - destruct q; simpl in *; try done; by rewrite subscribe_version, ?subscribe_value.
  - destruct q; simpl in *; try done; by rewrite drop_version, ?drop_value.
Qed.

Lemma tstep_receivers f (c : W) pc f' c' pc' evs :
  (f', c', pc', evs) ∈ tstep f c pc → (waiting pc = true → w_receivers c ≠ 0) →
  w_receivers c' + (if waiting pc then 1 else 0) = w_receivers c + if waiting pc' then 1 else 0.
Proof.
  intros [[-> ->]|[(-> & -> & ->)|[(-> & -> & ->)|(-> & Hw & ->)]]]%tstep_chan Hr.
  - done.
  - by rewrite send_receivers.
  - rewrite subscribe_receivers. simpl. lia.
  - rewrite drop_receivers, Hw. specialize (Hr Hw). lia.
Qed.

Lemma step_chan_ok w w' : step w w' → chan_ok (chan w) (pcs w) → chan_ok (chan w') (pcs w').
Proof.
  rewrite !chan_ok_pc. intros Hstep [Hr Hpc]. destruct Hstep as [w i pc Hi Hcall|w i pc f c pc' evs Hi Hin]; simpl.
  - assert (waiting pc = false ∧ ∀ c, pc_ok c pc) as [Hw Hok] by by destruct Hcall. split.
    + rewrite n_waiting_fresh, Hw by done. lia.
    + intros j q. destruct (decide (j = i)) as [->|Hne].
      * rewrite lookup_insert_eq. intros [= <-]. apply Hok.
      * rewrite lookup_insert_ne by done. apply Hpc.
  - assert (∀ j q, pcs w !! j = Some q → waiting q = true → w_receivers (chan w) ≠ 0) as Hpos.
    { intros j q Hj Hq. rewrite Hr. by eapply n_waiting_pos. }
    split.
    + pose proof (tstep_receivers _ _ _ _ _ _ _ Hin (Hpos i pc Hi)).
      pose proof (n_waiting_insert (pcs w) i pc pc' Hi). lia.
    + intros j q. destruct (decide (j = i)) as [->|Hne].
      * rewrite lookup_insert_eq. intros [= <-]. eapply tstep_pc_ok; [exact Hin|]. by eapply Hpc.
      * rewrite lookup_insert_ne by done. intros Hj.
        eapply pc_ok_mono; [exact Hin|by eapply Hpc|by eapply Hpos].
Qed.

Lemma reachable_chan_ok w : reachable w → chan_ok (chan w) (pcs w).
Proof.
  unfold reachable, steps. remember new_world as w0 eqn:Hw0.
  assert (chan_ok (chan w0) (pcs w0)) as H0'.
  { subst. apply chan_ok_pc. split; [apply new_receivers|]. by intros i pc. }
  clear Hw0. induction 1 as [w|w w1 w2 Hstep _ IH]; [done|]. by apply IH, (step_chan_ok w).
Qed.

(** ** Runs *)

Definition is_call (a : Action) : Prop := match a with Call _ pc => call pc | Run _ _ => True end.

Lemma act_step w a w' : act w a = Some w' → is_call a → step w w'.
Proof.
  destruct a as [i pc|i outcome]; simpl; intros Ha Hc.
  - destruct (pcs w !! i) eqn:Hi; [done|]. injection Ha as <-. by apply step_call.
  - apply bind_Some in Ha as (pc & Hpc & Ha).
    destruct (tstep (flag w) (chan w) pc !! outcome) as [[[[f c] pc'] evs]|] eqn:Ho; [|done].
    injection Ha as <-. eapply step_task; [done|]. by eapply list_elem_of_lookup_2.
Qed.

Lemma acts_steps w l w' : acts w l = Some w' → Forall is_call l → steps w w'.
Proof.
  revert w; induction l as [|a l IH]; intros w Ha Hl; simpl in Ha; [by simplify_eq|].
  apply Forall_cons in Hl as [Hc Hl]. apply bind_Some in Ha as (w1 & Ha & Hr).
  eapply rtc_l; [by eapply act_step|by apply IH].
Qed.

(** The sections that a run gives to a task. *)
Definition is_run (j : nat) (a : Action) : bool :=
  match a with Run i _ => i =? j | Call _ _ => false end.
Definition runs_of (j : nat) (l : list Action) : nat := length (List.filter (is_run j) l).

(** The sections that broadcast. *)
Definition sending (pc : Pc) : bool :=
  match pc with MarkSend | IsReadySend _ => true | _ => false end.

(** How many sections a waiter is from its return, once the channel holds true. *)
Definition sections_left (pc : Pc) : option nat :=
  match pc with
  | Returned RUnit => Some 0
  | WaitBorrow _ => Some 1
  | WaitChanged _ => Some 2
  | _ => None
  end.

(** The channel holds true, and the task [j] is at most [n] sections from its
    return, none of which blocks. *)
Record waking (j n : nat) (w : World) : Prop := {
  wk_chan : chan_ok (chan w) (pcs w);
  wk_value : w_value (chan w) = true;
  wk_task : ∃ pc k, pcs w !! j = Some pc ∧ sections_left pc = Some k ∧ k ≤ n;
}.

(** A value that is true is never taken back. *)
Lemma step_value w w' : step w w' → w_value (chan w) = true → w_value (chan w') = true.
Proof.
  intros [|w0 i pc f c pc' evs _ Hin] Hv; [done|]. simpl.
  apply tstep_chan in Hin as [[-> _]|[[-> _]|[[-> _]|[-> _]]]].
  - done.
  - destruct (decide (w_receivers (chan w0) = 0)) as [Hz|Hz];
      [by rewrite send_dropped|by rewrite send_value].
  - by rewrite subscribe_value.
  - by rewrite drop_value.
Qed.

(** A section of the waiter brings it nearer to its return. *)
Lemma waiter_section (c : W) f pc f' c' pc' evs k :
  w_value c = true → (f', c', pc', evs) ∈ tstep f c pc → sections_left pc = Some k →
  sections_left pc' = Some (pred k) ∧ k ≠ 0.
Proof.
  intros Hv Hin Hk. destruct pc as [| | | | | | | | | |seen|seen|[]]; try done; simpl in *;
    injection Hk as <-; rewrite ?Hv in Hin; repeat case_match;
    repeat (apply elem_of_cons in Hin as [[= -> -> -> ->]|Hin]); try (by apply not_elem_of_nil in Hin);
    by simplify_eq.
Qed.

(** A waiter is not blocked. *)
Lemma waiter_enabled j n w :
  waking j n w → pcs w !! j = Some (Returned RUnit) ∨ ∃ w', act w (Run j 0) = Some w'.
Proof.
  intros [Hc Hv (pc & k & Hj & Hk & _)]. apply chan_ok_pc in Hc as [_ Hpc]. specialize (Hpc j pc Hj).
  simpl. rewrite Hj. simpl. destruct pc as [| | | | | | | | | |seen|seen|[]]; try done; simpl in *; auto.
  - rewrite Hv. simpl. eauto.
  - destruct Hpc as [Hlt|[_ Hf]]; [|congruence].
    destruct (Nat.eqb_spec (w_version (chan w)) seen); [lia|]. simpl. eauto.
Qed.

Lemma waking_act j n w a w' :
  act w a = Some w' → is_call a → waking j n w → waking j (n - runs_of j [a]) w'.
Proof.
  intros Ha Hc [Hok Hv (pc & k & Hj & Hk & Hle)]. pose proof (act_step w a w' Ha Hc) as Hstep.
  split; [by eapply step_chan_ok|by eapply step_value|].
  destruct a as [i q|i outcome]; simpl in Ha.
  - destruct (pcs w !! i) eqn:Hi; [done|]. injection Ha as <-. simpl.
    exists pc, k. rewrite lookup_insert_ne by congruence. split_and!; [done|done|].
    unfold runs_of. simpl. lia.
  - apply bind_Some in Ha as (q & Hq & Ha).
    destruct (tstep (flag w) (chan w) q !! outcome) as [[[[f c] q'] evs]|] eqn:Ho; [|done].
    injection Ha as <-. simpl. apply list_elem_of_lookup_2 in Ho. unfold runs_of. simpl.
    destruct (decide (i = j)) as [->|Hne].
    + rewrite Nat.eqb_refl. assert (q = pc) as -> by congruence.
      destruct (waiter_section _ _ _ _ _ _ _ _ Hv Ho Hk) as [Hk' Hk0].
      exists q', (pred k). rewrite lookup_insert_eq. simpl.
      split_and!; [done|done|lia].
    + rewrite (proj2 (Nat.eqb_neq i j)) by done. exists pc, k. rewrite lookup_insert_ne by done. simpl.
      split_and!; [done|done|lia].
Qed.

Lemma waking_acts j n w l w' :
  acts w l = Some w' → Forall is_call l → waking j n w → waking j (n - runs_of j l) w'.
Proof.
  revert n w; induction l as [|a l IH]; intros n w Ha Hl Hw; simpl in Ha.
  { simplify_eq. by rewrite Nat.sub_0_r. }
  apply Forall_cons in Hl as [Hc Hl]. apply bind_Some in Ha as (w1 & Ha & Hr).
  replace (n - runs_of j (a :: l)) with (n - runs_of j [a] - runs_of j l).
  - apply (IH _ w1 Hr Hl). by apply (waking_act j n w a w1).
  - change (a :: l) with ([a] ++ l). unfold runs_of. rewrite List.filter_app, length_app. lia.
Qed.

(** A broadcast that a waiter can hear. *)
Lemma broadcast_wakes w i pc j pc' outcome w1 :
  reachable w → pcs w !! i = Some pc → sending pc = true →
  pcs w !! j = Some pc' → waiting pc' = true →
  act w (Run i outcome) = Some w1 → waking j 2 w1.
Proof.
  intros Hw Hi Hsend Hj Hwait Ha. pose proof (reachable_chan_ok w Hw) as Hok.
  assert (i ≠ j) as Hij by (intros ->; assert (pc = pc') as -> by congruence; by destruct pc').
  assert (w_receivers (chan w) ≠ 0) as Hrec.
  { destruct Hok as [-> _ _]. by eapply n_waiting_pos. }
  pose proof (act_step w (Run i outcome) w1 Ha I) as Hstep.
  split; [by eapply step_chan_ok| |].
  - simpl in Ha. rewrite Hi in Ha. simpl in Ha.
    destruct pc, outcome; try done; simpl in Ha; injection Ha as <-; simpl; by apply send_value.
  - simpl in Ha. rewrite Hi in Ha. simpl in Ha.
    destruct (tstep (flag w) (chan w) pc !! outcome) as [[[[f c] q'] evs]|]; [|done].
    injection Ha as <-. simpl. rewrite lookup_insert_ne by done.
    destruct pc'; try done; simpl; eauto 6 with lia.
Qed.

(** C40: waiters that have registered wake up, whatever the others do.  A task
    that is about to broadcast is not blocked.  Once it has broadcast, a waiter
    that held a receiver is never blocked again in any continuation, with any
    calls and any interleaving: the channel keeps its value, the waiter can take
    its next section or has returned, and it has returned as soon as the run has
    given it two sections.  A waiter that registers only after the broadcast is
    not covered: it can wait for ever ([wakeup_can_be_lost]). *)
Theorem registered_waiters_wake w i pc j pc' :
  reachable w → pcs w !! i = Some pc → sending pc = true →
  pcs w !! j = Some pc' → waiting pc' = true →
  (∃ w1, act w (Run i 0) = Some w1) ∧
  ∀ outcome w1 l w2, act w (Run i outcome) = Some w1 → acts w1 l = Some w2 → Forall is_call l →
    w_value (chan w2) = true ∧
    (pcs w2 !! j = Some (Returned RUnit) ∨ ∃ w3, act w2 (Run j 0) = Some w3) ∧
    (2 ≤ runs_of j l → pcs w2 !! j = Some (Returned RUnit)).
Proof.
  intros Hw Hi Hsend Hj Hwait. split.
  { simpl. rewrite Hi. destruct pc; try done; simpl; eauto. }
  intros outcome w1 l w2 Ha Hrun Hl.
  pose proof (broadcast_wakes w i pc j pc' outcome w1 Hw Hi Hsend Hj Hwait Ha) as Hwake.
  pose proof (waking_acts j 2 w1 l w2 Hrun Hl Hwake) as Hwake2.
  split_and!; [apply Hwake2|by eapply waiter_enabled|]. intros Htwo.
  destruct Hwake2 as [_ _ (q & k & Hq & Hk & Hle)]. assert (k = 0) as -> by lia.
  destruct q as [| | | | | | | | | | | |[]]; try done.
Qed.

(** ** A wakeup that is lost *)

(** Nothing will be sent any more, and the task has seen all there is. *)
Record stuck (i : nat) (w : World) : Prop := {
  st_ready : ready (flag w) = true;
  st_tokens : tokens (flag w) = ∅;
  st_value : w_value (chan w) = false;
  st_waiter : pcs w !! i = Some (WaitChanged (w_version (chan w)));
  st_sending j pc : pcs w !! j = Some pc → sending pc = false;
}.

Lemma stuck_step i w w' : step w w' → stuck i w → stuck i w'.
Proof.
  intros Hstep [Hr Ht Hv Hi Hs]. destruct Hstep as [w j pc Hj Hcall|w j pc f c pc' evs Hj Hin]; simpl in *.
  - assert (j ≠ i) by congruence. split; simpl; try done.
    + by rewrite lookup_insert_ne.
    + intros j' q. destruct (decide (j' = j)) as [->|Hne].
      * rewrite lookup_insert_eq. intros [= <-]. by destruct Hcall.
      * rewrite lookup_insert_ne by done. apply Hs.
  - assert (j ≠ i) as Hji.
    { intros ->. assert (pc = WaitChanged (w_version (chan w))) as -> by congruence. simpl in Hin.
      rewrite Nat.eqb_refl in Hin. by apply not_elem_of_nil in Hin. }
    pose proof (Hs j pc Hj) as Hsj.
    assert (ready f = true ∧ tokens f = ∅ ∧ w_value c = false ∧ w_version c = w_version (chan w) ∧
            sending pc' = false) as (? & ? & ? & Hver & Hs').
    { assert (∀ k b, sending (after k b) = false) as Hafter by by intros [] [].
      destruct pc; simpl in Hin; try done;
        rewrite ?Hr, ?Ht, ?Hv in Hin; repeat case_match;
        repeat (apply elem_of_cons in Hin as [[= -> -> -> ->]|Hin]);
        try (by apply not_elem_of_nil in Hin);
        rewrite ?subscribe_value, ?subscribe_version, ?Hafter; simpl; try done.
      all: bool_prop; set_solver. }
    split; simpl; try done.
    + rewrite lookup_insert_ne, Hver by done. done.
    + intros j' q. destruct (decide (j' = j)) as [->|Hne].
      * rewrite lookup_insert_eq. by intros [= <-].
      * rewrite lookup_insert_ne by done. intros Hq. by eapply Hs.
Qed.

(** A waiter finds the flag not ready; before it registers, the flag is marked
    ready, and the broadcast finds no receiver. *)
Definition lost_run : list Action :=
  [Call 0 SubscribeLoad; Run 0 0; Run 0 0;
   Call 1 (IsReadyLoad ThenWait); Run 1 0; Run 1 0; Run 1 0;
   Call 2 (MarkLoad 1); Run 2 0; Run 2 0; Run 2 0;
   Run 1 0].

Lemma lost_run_stuck :
  ∃ w, reachable w ∧ history w = [Subscribed 1; Marked 1] ∧
    pcs w !! 2 = Some (Returned (RBool true)) ∧ stuck 1 w.
Proof.
  assert (∃ w, acts new_world lost_run = Some w ∧ history w = [Subscribed 1; Marked 1]%Z ∧
    pcs w = <[1 := WaitBorrow (w_version (w_send true w_new))]>
              (<[2 := Returned (RBool true)]> {[0 := Returned (RToken 1); 1 := WaitSubscribe]}) ∧
    flag w = {| ready := true; next_id := 2; tokens := ∅ |} ∧
    chan w = w_subscribe (w_send true w_new)) as (w & Ha & Hh & Hp & Hf & Hc).
  { eexists. split; [vm_compute; reflexivity|]. split_and!; vm_compute; reflexivity. }
  rewrite (send_dropped true w_new new_receivers) in Hp, Hc.
  exists {| flag := flag w; chan := chan w; pcs := <[1 := WaitChanged (w_version w_new)]> (pcs w);
            history := history w ++ [] |}.
  assert (w_value (chan w) = false) as Hv by by rewrite Hc, subscribe_value, new_value.
  split_and!; simpl.
  - eapply rtc_r.
    + apply (acts_steps _ lost_run); [exact Ha|]. repeat constructor.
    + apply (step_task w 1 (WaitBorrow (w_version w_new))); [by rewrite Hp|].
      simpl. rewrite Hv. left.
  - by rewrite Hh.
  - by rewrite Hp.
  - split; simpl; [by rewrite Hf|by rewrite Hf|done| |].
    + by rewrite lookup_insert_eq, Hc, subscribe_version.
    + intros j pc. rewrite Hp. clear. intros Hj.
      repeat (apply lookup_insert_Some in Hj as [[_ <-]|[_ Hj]]; [done|]).
      by apply lookup_singleton_Some in Hj as [_ <-].
Qed.

(** A wakeup can be lost: there is a run in which a token marks the flag
    ready, the call returns true, and a waiter that had called before never
    returns: in no continuation of the run does it leave its wait. *)
Theorem wakeup_can_be_lost :
  ∃ w i, reachable w ∧ ready (flag w) = true ∧ history w = [Subscribed 1; Marked 1] ∧
    ∀ w', steps w w' → ∃ seen, pcs w' !! i = Some (WaitChanged seen).
Proof.
  destruct lost_run_stuck as (w & Hw & Hh & _ & Hst). exists w, 1.
  split_and!; [done|apply Hst|done|]. intros w' Hs.
  assert (stuck 1 w') as [_ _ _ Hi _]; [|eauto].
  clear Hw Hh. induction Hs as [w|w w1 w2 Hstep _ IH]; [done|]. by apply IH, (stuck_step 1 w).
Qed.
End liveness.

(** ** A channel, and the theorems applied *)

Record WatchState := { ws_value : bool; ws_version : nat; ws_receivers : nat }.

#[global] Instance watch_state : Watch WatchState := {|
  w_new := {| ws_value := false; ws_version := 0; ws_receivers := 0 |};
  w_send v c :=
    if ws_receivers c =? 0 then c
    else {| ws_value := v; ws_version := S (ws_version c); ws_receivers := ws_receivers c |};
  w_subscribe c :=
    {| ws_value := ws_value c; ws_version := ws_version c; ws_receivers := S (ws_receivers c) |};
  w_drop c :=
    {| ws_value := ws_value c; ws_version := ws_version c; ws_receivers := pred (ws_receivers c) |};
  w_value := ws_value; w_version := ws_version; w_receivers := ws_receivers |}.

#[global] Instance watch_state_laws : WatchLaws WatchState.
Proof. split; try done; intros v [x ver [|n]]; simpl; done. Qed.

(** The counter has wrapped around to the last id before zero. *)
Lemma alloc_token_total_witness :
  ∃ t id', alloc_token 4 (-1) {[(-1)%Z; 1%Z]} = Some (t, id') ∧ t ≠ 0%Z ∧ t ∉ ({[(-1)%Z; 1%Z]} : gset Token).
Proof.
  destruct (alloc_token_total (-1) {[(-1)%Z; 1%Z]}) as (t & id' & Ha & H0 & Hn & _).
  - unfold i32_min, i32_max. lia.
  - vm_compute. reflexivity.
  - exists t, id'. split; [exact Ha|]. split; [exact H0|exact Hn].
Defined.

(** The world after a run. *)
Definition after_run (l : list Action) : World (W:=WatchState) := default new_world (acts new_world l).

Lemma after_run_reachable l : Forall is_call l → acts new_world l ≠ None → reachable (after_run l).
Proof.
  intros Hl Ha. unfold after_run. destruct (acts new_world l) as [w|] eqn:Hw; [|done].
  by apply (acts_steps _ l).
Qed.

(** Two tokens, one marked. *)
Definition marked_run : list Action :=
  [Call 0 SubscribeLoad; Run 0 0; Run 0 0; Call 1 SubscribeLoad; Run 1 0; Run 1 0;
   Call 2 (MarkLoad 2); Run 2 0; Run 2 0].

Lemma readiness_invariant_witness :
  tokens (flag (after_run marked_run)) = ∅ ∧ flips (history (after_run marked_run)) = 1.
Proof.
  destruct (readiness_invariant (after_run marked_run)) as (Ht & _ & Hf & _).
  - apply after_run_reachable; [repeat constructor|vm_compute; discriminate].
  - split; [apply Ht; vm_compute; reflexivity|rewrite Hf; vm_compute; reflexivity].
Defined.

(** A waiter that registered before the mark. *)
Definition waiting_run : list Action :=
  [Call 0 SubscribeLoad; Run 0 0; Run 0 0;
   Call 1 (IsReadyLoad ThenWait); Run 1 0; Run 1 0; Run 1 0; Run 1 0; Run 1 0;
   Call 2 (MarkLoad 1); Run 2 0; Run 2 0].

(** After the broadcast other tasks ask, subscribe and mark again before the
    waiter gets its two sections. *)
Definition busy_run : list Action :=
  [Call 3 (IsReadyLoad ReturnBool); Run 3 0; Call 4 SubscribeLoad; Run 1 0; Run 4 0;
   Call 5 (MarkLoad 1); Run 5 0; Run 1 0].

Lemma registered_waiters_wake_witness :
  pcs (after_run (waiting_run ++ [Run 2 0] ++ busy_run)) !! 1 = Some (Returned RUnit).
Proof.
  destruct (registered_waiters_wake (after_run waiting_run) 2 MarkSend 1 (WaitChanged 0))
    as [_ Hall].
  - apply after_run_reachable; [repeat constructor|vm_compute; discriminate].
  - vm_compute. reflexivity.
  - reflexivity.
  - vm_compute. reflexivity.
  - reflexivity.
  - destruct (Hall 0 (after_run (waiting_run ++ [Run 2 0])) busy_run
      (after_run (waiting_run ++ [Run 2 0] ++ busy_run))) as (_ & _ & H).
    + vm_compute. reflexivity.
    + vm_compute. reflexivity.
    + repeat constructor.
    + apply H. vm_compute. lia.
Defined.

Lemma wakeup_can_be_lost_witness :
  ∃ (w : World (W:=WatchState)) i, reachable w ∧ ready (flag w) = true ∧
    ∀ w', steps w w' → pcs w' !! i ≠ Some (Returned RUnit).
Proof.
  destruct (wakeup_can_be_lost (W:=WatchState)) as (w & i & Hw & Hr & _ & Hs).
  exists w, i. split; [exact Hw|]. split; [exact Hr|].
  intros w' Hw' Hret. destruct (Hs w' Hw') as (seen & Hp). congruence.
Defined.

(** With no token subscribed the first question makes the flag ready. *)
Example auto_ready :
  let w := after_run [Call 0 (IsReadyLoad ReturnBool); Run 0 0; Run 0 0; Run 0 0] in
  pcs w !! 0 = Some (Returned (RBool true)) ∧ history w = [AutoReady].
Proof. vm_compute. done. Qed.
