(* ===== verification/ReverseScanner.v ===== *)
(** * Reading a rollout from its end

    [codex-rs/rollout/src/reverse_jsonl_scanner.rs]: the records of a JSONL file
    in reverse order, read in chunks from the end of a prefix of the file,
    skipping blank records and records over a limit. *)

From S2P Require Import Prelude RustStr.

Definition READ_CHUNK_SIZE : nat := N.to_nat 65536.

(** [u8::is_ascii_whitespace]. *)
Definition is_ascii_ws (b : N) : bool :=
  ((b =? 32) || (b =? 9) || (b =? 10) || (b =? 12) || (b =? 13))%N.

Section scanner.
(** The type that is read and [serde_json::from_slice]; the error of the reader. *)
Context {T E IoError : Type} (from_slice : bytes → result T E).

Inductive ScanOutcome := Parsed (v : T) | Rejected (e : E).

(** [seek] and [read_exact]: the bytes at an offset. *)
Definition Reader : Type := nat → nat → result bytes IoError.

(** [chunk] is the part of the buffer that was read. *)
Record Scanner := {
  next_chunk_end : nat;
  chunk_position : nat;
  chunk : bytes;
  record_reversed : bytes;
  max_record_bytes : option N;
  discarding_oversized_record : bool;
}.

Definition set_chunk s (next position : nat) (c : bytes) : Scanner :=
  {| next_chunk_end := next; chunk_position := position; chunk := c;
     record_reversed := record_reversed s; max_record_bytes := max_record_bytes s;
     discarding_oversized_record := discarding_oversized_record s |}.

Definition set_record s (r : bytes) (discarding : bool) : Scanner :=
  {| next_chunk_end := next_chunk_end s; chunk_position := chunk_position s; chunk := chunk s;
     record_reversed := r; max_record_bytes := max_record_bytes s;
     discarding_oversized_record := discarding |}.

(** [ReverseJsonlScanner::new_at]: [None] is the error of an end past the file. *)
Definition new_at (file_len end_byte_offset : nat) : option Scanner :=
  if file_len <? end_byte_offset then None
  else Some {| next_chunk_end := end_byte_offset; chunk_position := 0; chunk := [];
               record_reversed := []; max_record_bytes := None;
               discarding_oversized_record := false |}.

Definition with_max_record_bytes s (max : N) : Scanner :=
  {| next_chunk_end := next_chunk_end s; chunk_position := chunk_position s; chunk := chunk s;
     record_reversed := record_reversed s; max_record_bytes := Some max;
     discarding_oversized_record := discarding_oversized_record s |}.

Definition outcome_of (record : bytes) : option ScanOutcome :=
  if forallb is_ascii_ws record then None
  else Some (match from_slice record with Ok v => Parsed v | Err e => Rejected e end).

Definition finish_record s : option ScanOutcome * Scanner :=
  (outcome_of (reverse (record_reversed s)), set_record s [] (discarding_oversized_record s)).

(** [rposition] of a newline. *)
Fixpoint rposition_nl (l : bytes) : option nat :=
  match l with
  | [] => None
  | b :: l =>
      match rposition_nl l with
      | Some i => Some (S i)
      | None => if (b =? nl)%N then Some 0 else None
      end
  end.

(** Adding a fragment in front of the record, unless it grows over the limit. *)
Definition exceeds (max : option N) (a b : nat) : bool :=
  is_some_and max (λ max, max <? sat_add (N.of_nat a) (N.of_nat b))%N.

Definition add_fragment s (fragment : bytes) : Scanner :=
  if discarding_oversized_record s then s
  else if exceeds (max_record_bytes s) (length (record_reversed s)) (length fragment)
  then set_record s [] true
  else set_record s (record_reversed s ++ reverse fragment) false.

(** The part of the loop that looks at the chunk; [continue] is the next round. *)
Definition process_chunk {R} (found : option ScanOutcome → Scanner → R) (continue : Scanner → R) s : R :=
  let c := take (chunk_position s) (chunk s) in
  match rposition_nl c with
  | Some p =>
      let s := add_fragment s (drop (p + 1) c) in
      let s := set_chunk s (next_chunk_end s) p (chunk s) in
      if discarding_oversized_record s
      then continue (set_record s (record_reversed s) false)
      else
        match finish_record s with
        | (Some outcome, s) => found (Some outcome) s
        | (None, s) => continue s
        end
  | None =>
      let s := add_fragment s c in
      continue (set_chunk s (next_chunk_end s) 0 (chunk s))
  end.

(** [scan_next] with the state after it; the result is [None] when the fuel runs
    out. *)
Fixpoint scan_loop (chunk_size : nat) (read : Reader) (fuel : nat) s
  : option (result (option ScanOutcome) IoError * Scanner) :=
  match fuel with
  | 0 => None
  | S fuel =>
      let process := process_chunk (λ o s, Some (Ok o, s)) (scan_loop chunk_size read fuel) in
      if chunk_position s =? 0 then
        if next_chunk_end s =? 0 then
          if discarding_oversized_record s
          then Some (Ok None, set_record s (record_reversed s) false)
          else let '(o, s) := finish_record s in Some (Ok o, s)
        else
          let read_size := next_chunk_end s `min` chunk_size in
          let next := next_chunk_end s - read_size in
          match read next read_size with
          | Err e => Some (Err e, set_chunk s next (chunk_position s) (chunk s))
          | Ok bytes => process (set_chunk s next read_size bytes)
          end
      else process s
  end.

(** The bytes not looked at yet bound the rounds of the loop. *)
Definition remaining s : nat := next_chunk_end s + chunk_position s.

Definition scan_next (read : Reader) s : option (result (option ScanOutcome) IoError * Scanner) :=
  scan_loop READ_CHUNK_SIZE read (S (remaining s)) s.

(** The caller's loop: all records until the first [None]. *)
Fixpoint scan_all (chunk_size : nat) (read : Reader) (calls : nat) s
  : option (result (list ScanOutcome) IoError) :=
  match calls with
  | 0 => None
  | S calls =>
      match scan_loop chunk_size read (S (remaining s)) s with
      | None => None
      | Some (Err e, _) => Some (Err e)
      | Some (Ok None, _) => Some (Ok [])
      | Some (Ok (Some o), s) =>
          match scan_all chunk_size read calls s with
          | Some (Ok os) => Some (Ok (o :: os))
          | r => r
          end
      end
  end.
End scanner.

(** ** Lines *)

Lemma split_on_snoc_sep c a b : c ∉ b → split_on c (a ++ c :: b) = split_on c a ++ [b].
Proof.
  intros Hb. induction a as [|x a IH]; simpl.
  - rewrite N.eqb_refl. f_equal. induction b as [|y b IH]; [done|]. simpl.
    destruct (N.eqb_spec y c) as [->|]; [set_solver|]. by rewrite IH by set_solver.
  - destruct (N.eqb_spec x c) as [->|Hx]; [by rewrite IH|]. rewrite IH.
    destruct (split_on c a) as [|l ls] eqn:Hs; [by destruct (split_on_nonempty c a)|done].
Qed.

Lemma split_on_snoc_line c a b :
  c ∉ b → ∃ ls l, split_on c a = ls ++ [l] ∧ split_on c (a ++ b) = ls ++ [l ++ b].
Proof.
  intros Hb. induction a as [|x a (ls & l & Ha & Hab)]; simpl.
  - exists [], []. split; [done|]. simpl. induction b as [|y b IH]; [done|]. simpl.
    destruct (N.eqb_spec y c) as [->|]; [set_solver|]. by rewrite IH by set_solver.
  - destruct (N.eqb_spec x c) as [->|Hx].
    + exists ([] :: ls), l. by rewrite Ha, Hab.
    + rewrite Ha, Hab. destruct ls as [|l' ls]; simpl; [by exists [], (x :: l)|].
      by exists ((x :: l') :: ls), l.
Qed.

Lemma rposition_nl_spec l :
  match rposition_nl l with
  | Some p => l = take p l ++ nl :: drop (p + 1) l ∧ nl ∉ drop (p + 1) l ∧ p < length l
  | None => nl ∉ l
  end.
Proof.
  induction l as [|b l IH]; simpl; [set_solver|]. destruct (rposition_nl l) as [p|].
  - destruct IH as (Heq & Hn & Hp). simpl. split_and!; [by f_equal|done|lia].
  - destruct (N.eqb_spec b nl) as [->|Hb]; [|set_solver]. simpl. rewrite drop_0.
    split_and!; [done..|lia].
Qed.

(** ** What is still to come *)

Section spec.
Context {T E IoError : Type} (from_slice : bytes → result T E).
Context (file : bytes) (read : Reader (IoError:=IoError)) (chunk_size : nat).

(** The outcome of a whole record: none for a blank or oversized one. *)
Definition keep (max : option N) (record : bytes) : option (ScanOutcome (T:=T) (E:=E)) :=
  if is_some_and max (λ m, m <? N.of_nat (length record))%N then None
  else outcome_of from_slice record.

(** The records of a prefix of a file, the last first. *)
Definition records (max : option N) (prefix : bytes) : list ScanOutcome :=
  omap (keep max) (reverse (split_on nl prefix)).

(** The bytes not looked at yet. *)
Definition rest_of s : bytes := take (next_chunk_end s) file ++ take (chunk_position s) (chunk s).

(** The record under construction and the records before it. *)
Definition todo s : list ScanOutcome :=
  match reverse (split_on nl (rest_of s)) with
  | [] => []
  | l :: ls =>
      option_list (if discarding_oversized_record s then None
                   else keep (max_record_bytes s) (l ++ reverse (record_reversed s)))
      ++ omap (keep (max_record_bytes s)) ls
  end.

Record scanner_ok s : Prop := {
  so_chunk : chunk_position s ≤ length (chunk s);
  so_next : next_chunk_end s ≤ length file;
  so_discarding : discarding_oversized_record s = true → record_reversed s = [];
  so_max : is_some_and (max_record_bytes s) (λ m, m <? N.of_nat (length (record_reversed s)))%N = false;
  so_size : (N.of_nat (remaining s + length (record_reversed s)) ≤ usize_max)%N;
}.

(** The reader reads the file. *)
Hypothesis read_file : ∀ off n, off + n ≤ length file → read off n = Ok (take n (drop off file)).
Hypothesis chunk_size_pos : chunk_size ≠ 0.

Lemma todo_rest s s' :
  rest_of s' = rest_of s → record_reversed s' = record_reversed s →
  max_record_bytes s' = max_record_bytes s →
  discarding_oversized_record s' = discarding_oversized_record s → todo s' = todo s.
Proof. unfold todo. by intros -> -> -> ->. Qed.

(** Reading a chunk. *)
Definition next_read s : nat := next_chunk_end s `min` chunk_size.

Lemma read_chunk s :
  scanner_ok s → chunk_position s = 0 → next_chunk_end s ≠ 0 →
  ∃ bytes, read (next_chunk_end s - next_read s) (next_read s) = Ok bytes ∧
    let s' := set_chunk s (next_chunk_end s - next_read s) (next_read s) bytes in
    scanner_ok s' ∧ todo s' = todo s ∧ remaining s' = remaining s ∧ chunk_position s' ≠ 0.
Proof.
  intros [Hc Hn Hd Hm Hs] Hp Hne. unfold next_read. set (n := next_chunk_end s `min` chunk_size).
  exists (take n (drop (next_chunk_end s - n) file)).
  assert (length (take n (drop (next_chunk_end s - n) file)) = n) as Hlen.
  { rewrite length_take, length_drop. lia. }
  split; [apply read_file; lia|]. cbv zeta. split_and!.
  - split; simpl; [lia|lia|done|done|]. unfold remaining in *. simpl. lia.
  - apply todo_rest; [|done..]. unfold rest_of. simpl. rewrite Hp. simpl. rewrite app_nil_r.
    rewrite take_take, Nat.min_id, take_drop_commute.
    replace (next_chunk_end s - n + n) with (next_chunk_end s) by lia.
    rewrite <- (take_drop (next_chunk_end s - n) (take (next_chunk_end s) file)) at 2.
    rewrite take_take. by replace ((next_chunk_end s - n) `min` next_chunk_end s)
      with (next_chunk_end s - n) by lia.
  - unfold remaining. simpl. lia.
  - simpl. lia.
Qed.

Lemma todo_fresh s :
  record_reversed s = [] → discarding_oversized_record s = false →
  todo s = records (max_record_bytes s) (rest_of s).
Proof.
  intros Hr Hd. unfold todo, records. rewrite Hr, Hd. destruct (reverse _) as [|l ls]; [done|].
  simpl. rewrite app_nil_r. by destruct (keep _ l).
Qed.

(** The record under construction followed by a line. *)
Definition pending s (l : bytes) : option ScanOutcome :=
  if discarding_oversized_record s then None
  else keep (max_record_bytes s) (l ++ reverse (record_reversed s)).

Lemma add_fragment_ok s fr :
  scanner_ok s → (N.of_nat (length (record_reversed s) + length fr) ≤ usize_max)%N →
  let s' := add_fragment s fr in
  next_chunk_end s' = next_chunk_end s ∧ chunk_position s' = chunk_position s ∧
  chunk s' = chunk s ∧ max_record_bytes s' = max_record_bytes s ∧
  length (record_reversed s') ≤ length (record_reversed s) + length fr ∧
  (discarding_oversized_record s' = true → record_reversed s' = []) ∧
  is_some_and (max_record_bytes s) (λ m, m <? N.of_nat (length (record_reversed s')))%N = false ∧
  ∀ l, pending s' l = pending s (l ++ fr).
Proof.
  intros [_ _ Hd Hm _] Hs. unfold add_fragment, pending.
  destruct (discarding_oversized_record s) eqn:Hdis.
  { rewrite Hdis. split_and!; try done. lia. }
  destruct (exceeds (max_record_bytes s) _ _) eqn:Hex; unfold exceeds, sat_add in Hex; simpl.
  - split_and!; try done; [lia|..].
    + destruct (max_record_bytes s); [|done]. simpl. by apply N.ltb_ge, N.le_0_l.
    + intros l. unfold keep. destruct (max_record_bytes s) as [m|]; [|done]. simpl in *.
      apply N.ltb_lt in Hex. rewrite (proj2 (N.ltb_lt _ _)); [done|].
      rewrite !length_app, length_reverse. lia.
  - rewrite length_app, length_reverse. split_and!; try done.
    + destruct (max_record_bytes s) as [m|]; [|done]. simpl in *. apply N.ltb_ge in Hex.
      apply N.ltb_ge. lia.
    + intros l. by rewrite reverse_app, reverse_involutive, <- app_assoc.
Qed.

Lemma todo_pending s ls l :
  split_on nl (rest_of s) = ls ++ [l] →
  todo s = option_list (pending s l) ++ omap (keep (max_record_bytes s)) (reverse ls).
Proof. intros Hs. unfold todo, pending. by rewrite Hs, reverse_snoc. Qed.

(** A chunk without a newline joins the record. *)
Lemma process_line_ok s c :
  scanner_ok s → chunk_position s ≠ 0 → take (chunk_position s) (chunk s) = c → nl ∉ c →
  let s1 := add_fragment s c in
  let s' := set_chunk s1 (next_chunk_end s1) 0 (chunk s1) in
  scanner_ok s' ∧ todo s' = todo s ∧ remaining s' < remaining s.
Proof.
  intros Hok Hp Hc Hnl. cbv zeta. pose proof Hok as [Hcp Hn _ _ Hsz].
  assert (length c = chunk_position s) as Hlen by (subst; rewrite length_take; lia).
  destruct (add_fragment_ok s c Hok) as (Hn' & _ & _ & Hm & Hle & Hd & Hmax & Hpend);
    [unfold remaining in Hsz; lia|].
  set (s1 := add_fragment s c) in *. split_and!.
  - split; simpl; [lia|by rewrite Hn'|done|by rewrite Hm|]. unfold remaining in *. simpl.
    rewrite Hn'. lia.
  - destruct (split_on_snoc_line nl (take (next_chunk_end s) file) c Hnl) as (ls & l & Ha & Hab).
    rewrite (todo_pending s ls (l ++ c)) by (unfold rest_of; by rewrite Hc).
    rewrite (todo_pending _ ls l) by (unfold rest_of; simpl; by rewrite Hn', app_nil_r).
    simpl. rewrite Hm. by rewrite <- (Hpend l).
  - unfold remaining. simpl. rewrite Hn'. lia.
Qed.

(** A newline ends the record. *)
Lemma process_newline s p :
  scanner_ok s → rposition_nl (take (chunk_position s) (chunk s)) = Some p →
  let s1 := add_fragment s (drop (p + 1) (take (chunk_position s) (chunk s))) in
  let s2 := set_chunk s1 (next_chunk_end s1) p (chunk s1) in
  let s' := set_record s2 [] false in
  scanner_ok s' ∧ remaining s' < remaining s ∧
  (discarding_oversized_record s2 = true → record_reversed s2 = []) ∧
  todo s = option_list (if discarding_oversized_record s2 then None
                        else outcome_of from_slice (reverse (record_reversed s2))) ++ todo s'.
Proof.
  intros Hok Hp. cbv zeta. pose proof Hok as [Hcp Hn _ _ Hsz].
  pose proof (rposition_nl_spec (take (chunk_position s) (chunk s))) as Hsp. rewrite Hp in Hsp.
  set (c := take (chunk_position s) (chunk s)) in *. destruct Hsp as (Hc & Hnl & Hlt).
  assert (length c = chunk_position s) as Hlen by (unfold c; rewrite length_take; lia).
  assert (length (drop (p + 1) c) ≤ chunk_position s) as Hfr by (rewrite length_drop; lia).
  destruct (add_fragment_ok s (drop (p + 1) c) Hok) as (Hn' & _ & Hch & Hm & Hle & Hd & Hmax & Hpend);
    [unfold remaining in Hsz; lia|].
  set (s1 := add_fragment s (drop (p + 1) c)) in *. split_and!.
  - split; simpl; [rewrite Hch; lia|by rewrite Hn'|done| |].
    + rewrite Hm. destruct (max_record_bytes s); [|done]. simpl. by apply N.ltb_ge, N.le_0_l.
    + unfold remaining in *. simpl. rewrite Hn'. lia.
  - unfold remaining. simpl. rewrite Hn'. lia.
  - done.
  - set (pre := take (next_chunk_end s) file).
    assert (rest_of s = (pre ++ take p c) ++ nl :: drop (p + 1) c) as Hrest.
    { unfold rest_of. fold c pre. rewrite <- app_assoc. f_equal. exact Hc. }
    rewrite (todo_pending s (split_on nl (pre ++ take p c)) (drop (p + 1) c))
      by (rewrite Hrest; by apply split_on_snoc_sep).
    rewrite (todo_fresh (set_record _ _ _)) by done. unfold records. simpl.
    unfold rest_of. simpl. rewrite Hn', Hch, Hm. fold pre.
    replace (take p (chunk s)) with (take p c)
      by (unfold c; rewrite take_take; f_equal; lia).
    f_equal. f_equal. specialize (Hpend []). simpl in Hpend. rewrite <- Hpend.
    unfold pending. destruct (discarding_oversized_record s1); [done|].
    unfold keep. rewrite Hm. rewrite app_nil_l, length_reverse. by rewrite Hmax.
Qed.

(** With fuel for every byte left, a scan returns the next of what is to come. *)
Definition scan_result s (o : option ScanOutcome) s' : Prop :=
  scanner_ok s' ∧ todo s = option_list o ++ todo s' ∧ (o = None → todo s = []).

Lemma todo_end s : scanner_ok s → remaining s = 0 →
  todo s = option_list (if discarding_oversized_record s then None
                        else outcome_of from_slice (reverse (record_reversed s))).
Proof.
  intros [_ _ _ Hm _] Hr. unfold remaining in Hr.
  rewrite (todo_pending s [] []).
  - simpl. rewrite app_nil_r. unfold pending, keep. simpl. rewrite length_reverse.
    destruct (discarding_oversized_record s); [done|]. by rewrite Hm.
  - unfold rest_of. replace (next_chunk_end s) with 0 by lia.
    by replace (chunk_position s) with 0 by lia.
Qed.

Lemma scan_loop_spec fuel s :
  scanner_ok s → remaining s < fuel →
  ∃ o s', scan_loop from_slice chunk_size read fuel s = Some (Ok o, s') ∧ scan_result s o s'.
Proof.
  revert s; induction fuel as [|fuel IH]; intros s Hok Hf; [lia|].
  set (process := process_chunk from_slice (λ o s, Some (Ok o, s))
                    (scan_loop from_slice chunk_size read fuel)).
  assert (∀ s, scanner_ok s → chunk_position s ≠ 0 → remaining s < S fuel →
    ∃ o s', process s = Some (Ok o, s') ∧ scan_result s o s') as Hproc.
  { clear s Hok Hf. intros s Hok Hp Hf. unfold process, process_chunk. cbv zeta.
    destruct (rposition_nl (take (chunk_position s) (chunk s))) as [p|] eqn:Hr.
    - destruct (process_newline s p Hok Hr) as (Hok' & Hlt & Hd & Htodo). cbv zeta in *.
      set (s1 := add_fragment s _) in *. set (s2 := set_chunk s1 _ _ _) in *.
      assert (∃ o s', scan_loop from_slice chunk_size read fuel (set_record s2 [] false)
        = Some (Ok o, s') ∧ scan_result (set_record s2 [] false) o s') as (o & s' & Hs & Hres)
        by (apply IH; [done|lia]).
      destruct (discarding_oversized_record s2) eqn:Hdis.
      + rewrite Hd by done. exists o, s'. split; [done|]. unfold scan_result. by rewrite Htodo.
      + unfold finish_record. rewrite Hdis.
        destruct (outcome_of from_slice (reverse (record_reversed s2))) as [x|].
        * eexists _, _. split; [done|]. split_and!; [done|by rewrite Htodo|done].
        * exists o, s'. split; [done|]. unfold scan_result. by rewrite Htodo.
    - pose proof (rposition_nl_spec (take (chunk_position s) (chunk s))) as Hnl. rewrite Hr in Hnl.
      destruct (process_line_ok s _ Hok Hp eq_refl Hnl) as (Hok' & Htodo & Hlt). cbv zeta in *.
      destruct (IH _ Hok' ltac:(lia)) as (o & s' & Hs & Hres). exists o, s'. split; [done|].
      unfold scan_result. by rewrite <- Htodo. }
  cbn [scan_loop]. cbv zeta. fold process.
  destruct (Nat.eqb_spec (chunk_position s) 0) as [Hp|Hp]; [|by apply Hproc].
  destruct (Nat.eqb_spec (next_chunk_end s) 0) as [Hn|Hn].
  - assert (remaining s = 0) as Hr by (unfold remaining; lia).
    pose proof (todo_end s Hok Hr) as Hend. pose proof Hok as [? ? Hd Hm Hsz].
    destruct (discarding_oversized_record s) eqn:Hdis.
    + rewrite Hd by done. eexists _, _. split; [done|].
      assert (scanner_ok (set_record s [] false)) as Hok'.
      { split; simpl; try done; [by rewrite Hd in Hm|]. unfold remaining in *. simpl. lia. }
      split_and!; [done| |done]. by rewrite Hend, (todo_end _ Hok').
    + unfold finish_record. rewrite Hdis. eexists _, _. split; [done|].
      assert (scanner_ok (set_record s [] false)) as Hok'.
      { split; simpl; try done.
        - destruct (max_record_bytes s); [|done]. simpl. by apply N.ltb_ge, N.le_0_l.
        - unfold remaining in *. simpl. lia. }
      split_and!; [done| |by intros Ho; rewrite Hend, Ho].
      rewrite Hend, (todo_end _ Hok') by done. simpl. by rewrite app_nil_r.
  - destruct (read_chunk s Hok Hp Hn) as (bytes & Hread & Hok' & Htodo & Hrem & Hp').
    unfold next_read in *. rewrite Hread.
    destruct (Hproc _ Hok' Hp' ltac:(lia)) as (o & s' & Hs & Hres). exists o, s'.
    split; [done|]. unfold scan_result in *. by rewrite <- Htodo.
Qed.

Lemma scan_all_spec calls s :
  scanner_ok s → length (todo s) < calls →
  scan_all from_slice chunk_size read calls s = Some (Ok (todo s)).
Proof.
  revert s; induction calls as [|calls IH]; intros s Hok Hlt; [lia|]. cbn [scan_all].
  destruct (scan_loop_spec (S (remaining s)) s Hok ltac:(lia)) as (o & s' & -> & Hok' & Htodo & Hnone).
  destruct o as [x|]; [|by rewrite Hnone].
  simpl in Htodo. rewrite Htodo in *. simpl in Hlt. by rewrite IH by (done || lia).
Qed.
End spec.

(** ** Properties *)

Section theorems.
Context {T E IoError : Type} (from_slice : bytes → result T E).
Implicit Types read : Reader (IoError:=IoError).

(** Every call of the scanner returns, whatever the reader answers and
    however it is chunked: the loop makes at most one round per byte left, and
    one more; an error it returns is an error of the reader, for bytes before
    the end of the scan. *)
Theorem scan_next_total chunk_size read fuel s :
  chunk_size ≠ 0 → remaining s < fuel →
  ∃ r s', scan_loop from_slice chunk_size read fuel s = Some (r, s') ∧
    ∀ e, r = Err e → ∃ off n, read off n = Err e ∧ off + n ≤ next_chunk_end s.
Proof.
  intros Hcs. revert s; induction fuel as [|fuel IH]; intros s Hf; [lia|]. cbn [scan_loop]. cbv zeta.
  assert (∀ s, chunk_position s ≠ 0 → remaining s < S fuel →
    ∃ r s', process_chunk from_slice (λ o s, Some (Ok o, s)) (scan_loop from_slice chunk_size read fuel) s
      = Some (r, s') ∧ ∀ e, r = Err e → ∃ off n, read off n = Err e ∧ off + n ≤ next_chunk_end s) as Hproc.
  { clear s Hf. intros s Hp Hf. unfold process_chunk. cbv zeta.
    pose proof (rposition_nl_spec (take (chunk_position s) (chunk s))) as Hsp.
    set (c := take (chunk_position s) (chunk s)) in *.
    assert (length c ≤ chunk_position s) as Hc by (unfold c; rewrite length_take; lia).
    destruct (rposition_nl c) as [p|].
    - set (s1 := set_chunk (add_fragment s (drop (p + 1) c)) _ _ _).
      assert (next_chunk_end s1 = next_chunk_end s ∧ chunk_position s1 = p) as [Hn1 Hp1].
      { unfold s1, add_fragment. by repeat case_match. }
      clearbody s1.
      destruct (discarding_oversized_record s1); [|unfold finish_record; destruct (outcome_of _ _)].
      + destruct (IH (set_record s1 (record_reversed s1) false)) as (r & s' & Hs & He);
          [unfold remaining in *; simpl; lia|]. exists r, s'. by rewrite <- Hn1.
      + eexists _, _. by split.
      + destruct (IH (set_record s1 [] (discarding_oversized_record s1))) as (r & s' & Hs & He);
          [unfold remaining in *; simpl; lia|]. exists r, s'. by rewrite <- Hn1.
    - set (s1 := set_chunk (add_fragment s c) _ _ _).
      assert (next_chunk_end s1 = next_chunk_end s ∧ chunk_position s1 = 0) as [Hn1 Hp1].
      { unfold s1, add_fragment. by repeat case_match. }
      clearbody s1.
      rewrite <- Hn1. apply IH. unfold remaining in *. lia. }
  destruct (Nat.eqb_spec (chunk_position s) 0) as [Hp|Hp]; [|by apply Hproc].
  destruct (Nat.eqb_spec (next_chunk_end s) 0) as [Hn|Hn].
  { destruct (discarding_oversized_record s); [|unfold finish_record]; eexists _, _; by split. }
  set (n := next_chunk_end s `min` chunk_size).
  destruct (read (next_chunk_end s - n) n) as [bytes|e] eqn:Hread.
  - destruct (Hproc (set_chunk s (next_chunk_end s - n) n bytes)) as (r & s' & Hs & He);
      [simpl; lia|unfold remaining in *; simpl; lia|].
    exists r, s'. split; [done|]. intros e Hr. destruct (He e Hr) as (off & m & ? & Hle).
    exists off, m. split; [done|]. simpl in Hle. lia.
  - eexists _, _. split; [done|]. intros e' [= <-]. exists (next_chunk_end s - n), n. split; [done|lia].
Qed.

(** C26: the scanner reads the file backwards: for every prefix of a file, every
    limit on records and every chunk size, the records it returns until it ends
    are the lines of the prefix from the last to the first, without the blank
    ones and the ones over the limit, each parsed or rejected as a whole. *)
Theorem scan_all_records (file : bytes) read chunk_size n s max calls :
  (∀ off n, off + n ≤ length file → read off n = Ok (take n (drop off file))) →
  chunk_size ≠ 0 → (N.of_nat (length file) ≤ usize_max)%N →
  new_at (length file) n = Some s →
  length (records from_slice max (take n file)) < calls →
  scan_all from_slice chunk_size read calls
    (match max with Some m => with_max_record_bytes s m | None => s end)
  = Some (Ok (records from_slice max (take n file))).
Proof.
  intros Hread Hcs Hsz Hnew Hcalls. unfold new_at in Hnew.
  destruct (Nat.ltb_spec (length file) n) as [|Hn]; [done|]. injection Hnew as <-.
  set (s := match max with Some m => _ | None => _ end).
  assert (rest_of file s = take n file ∧ record_reversed s = [] ∧ max_record_bytes s = max ∧
    discarding_oversized_record s = false ∧ remaining s = n ∧ next_chunk_end s = n ∧
    chunk_position s = 0) as (Hrest & Hrec & Hmax & Hdis & Hrem & Hne & Hp).
  { unfold s, rest_of, remaining. destruct max; simpl; by rewrite app_nil_r, Nat.add_0_r. }
  assert (todo from_slice file s = records from_slice max (take n file)) as Htodo.
  { rewrite todo_fresh by done. by rewrite Hmax, Hrest. }
  rewrite <- Htodo in *. apply scan_all_spec; [done|done| |done].
  split; rewrite ?Hp, ?Hne, ?Hrec, ?Hrem; simpl; [lia|done|done| |lia].
  destruct (max_record_bytes s); [|done]. simpl. by apply N.ltb_ge, N.le_0_l.
Qed.
End theorems.

(** ** The theorems applied *)

Definition demo_file : bytes := lit "one" ++ [nl] ++ [nl] ++ lit "two!" ++ [nl] ++ lit "  " ++ [nl]
  ++ lit "too long" ++ [nl] ++ lit "end".

Definition demo_read : Reader (IoError:=()) := λ off n, Ok (take n (drop off demo_file)).

(** Records that start with a vowel are accepted. *)
Definition demo_from_slice (b : bytes) : result bytes nat :=
  match b with (101 | 111)%N :: _ => Ok b | _ => Err (length b) end.

Definition demo_scanner : Scanner :=
  default {| next_chunk_end := 0; chunk_position := 0; chunk := []; record_reversed := [];
             max_record_bytes := None; discarding_oversized_record := false |}
    (new_at (length demo_file) (length demo_file)).

Lemma scan_next_total_witness :
  ∃ r s', scan_loop demo_from_slice 3 demo_read (S (remaining demo_scanner)) demo_scanner = Some (r, s').
Proof.
  destruct (scan_next_total demo_from_slice 3 demo_read (S (remaining demo_scanner)) demo_scanner)
    as (r & s' & Hs & _); [lia|lia|]. exists r, s'. exact Hs.
Defined.

Lemma scan_all_records_witness :
  scan_all demo_from_slice 3 demo_read 5 (with_max_record_bytes demo_scanner 4)
  = Some (Ok [Parsed (lit "end"); Rejected 4; Parsed (lit "one")]).
Proof.
  assert (records demo_from_slice (Some 4%N) (take (length demo_file) demo_file)
          = [Parsed (lit "end"); Rejected 4; Parsed (lit "one")]) as Hr by (vm_compute; reflexivity).
  rewrite <- Hr.
  apply (scan_all_records demo_from_slice demo_file demo_read 3 (length demo_file) demo_scanner (Some 4%N)).
  - intros off n _. reflexivity.
  - lia.
  - vm_compute. discriminate.
  - vm_compute. reflexivity.
  - rewrite Hr. simpl. lia.
Defined.

(** The chunk a failed read was for is not read again. *)
Example failed_read_skips_chunk :
  let failing : Reader (IoError:=()) := λ _ _, Err () in
  match scan_loop demo_from_slice 3 failing 100 demo_scanner with
  | Some (Err _, s) => next_chunk_end s = length demo_file - 3 ∧ chunk_position s = 0
  | _ => False
  end.
Proof. vm_compute. done. Qed.
