(* ===== verification/AbsolutePath.v ===== *)
(** * Absolute paths

    [codex-rs/utils/absolute-path] on a Unix target: home expansion, lexical
    normalisation and the constructors of [AbsolutePathBuf].  A path is the
    string of a [Path]; the home directory, the current directory and the
    links of the file system are parameters. *)

From S2P Require Import Prelude RustStr UnixPath ExecFs.

(** ** [PathBuf] *)

Definition component_str (c : component) : str :=
  match c with
  | RootDir => lit "/"
  | CurDir => lit "."
  | ParentDir => lit ".."
  | Normal s => s
  end.

(** [PathBuf::push] and [Path::join]: an absolute path replaces the buffer. *)
Definition pathbuf_push (buf path : str) : str :=
  if is_absolute path then path else path_push buf path.

(** The path with these components. *)
Definition render (cs : list component) : str :=
  foldl (λ buf c, pathbuf_push buf (component_str c)) [] cs.

(** [Path::parent]; the buffers it is used on were built by [push]. *)
Definition path_parent_of (path : str) : option str := render <$> parent_components path.

(** [PathBuf::pop]. *)
Definition pathbuf_pop (buf : str) : str := default buf (path_parent_of buf).

(** [Path::starts_with] and [Path::strip_prefix], by components. *)
Definition path_starts_with (path base : str) : bool :=
  bool_decide (components base `prefix_of` components path).

Definition path_strip_prefix (path base : str) : option str :=
  if path_starts_with path base
  then Some (render (drop (length (components base)) (components path))) else None.

(** [Path::ancestors]: the path, its parent and so on. *)
Fixpoint ancestors_loop (fuel : nat) (path : str) : list str :=
  match fuel with
  | 0 => []
  | S fuel => path :: match path_parent_of path with Some p => ancestors_loop fuel p | None => [] end
  end.
Definition path_ancestors (path : str) : list str :=
  ancestors_loop (S (length (components path))) path.

(** ** Lexical normalisation ([absolutize.rs]) *)

Definition normalize_step (buf : str) (c : component) : str :=
  match c with
  | CurDir => buf
  | ParentDir => pathbuf_pop buf
  | RootDir | Normal _ => pathbuf_push buf (component_str c)
  end.

Definition normalize_path (path : str) : str :=
  let normalized := foldl normalize_step [] (components path) in
  if is_empty normalized then lit "." else normalized.

Definition path_with_base (path base_path : str) : str :=
  if is_absolute path then path else pathbuf_push base_path path.

Definition absolutize_from (path base_path : str) : str :=
  normalize_path (path_with_base path base_path).

(** ** [AbsolutePathBuf] *)

Section absolute.
(** [ABSOLUTE_PATH_HOME] or [dirs::home_dir], and [std::env::current_dir]. *)
Context (home_dir : option str) (current_dir : result str io_error).

Definition absolutize (path : str) : result str io_error :=
  if is_absolute path then Ok (normalize_path path)
  else let? cwd := current_dir in Ok (absolutize_from path cwd).

Definition maybe_expand_home_directory (path : str) : str :=
  match strip_prefix (lit "~") path, home_dir with
  | Some rest, Some home =>
      if is_empty rest then home
      else match strip_prefix (lit "/") rest with
           | Some rest => pathbuf_push home (trim_start_matches (λ c, c =? 47)%N rest)
           | None => path
           end
  | _, _ => path
  end.

Definition resolve_path_against_base (path base_path : str) : str :=
  absolutize_from (maybe_expand_home_directory path) base_path.

Definition from_absolute_path (path : str) : result str io_error :=
  absolutize (maybe_expand_home_directory path).

Definition from_absolute_path_checked (path : str) : result str io_error :=
  let expanded := maybe_expand_home_directory path in
  if negb (is_absolute expanded) then
    Err {| err_kind := InvalidInput; err_text := lit "path is not absolute: " ++ path |}
  else Ok (absolutize_from expanded (lit "/")).

(** [AbsolutePathBuf::join]. *)
Definition abs_join (self path : str) : str := resolve_path_against_base path self.

(** [AbsolutePathBuf::current_dir] and [relative_to_current_dir]. *)
Definition abs_current_dir : result str io_error :=
  let? cwd := current_dir in from_absolute_path cwd.
Definition relative_to_current_dir (path : str) : result str io_error :=
  let? cwd := current_dir in Ok (resolve_path_against_base path cwd).

(** [Deserialize], under the base path an [AbsolutePathBufGuard] has set. *)
Definition deserialize (base : option str) (path : str) : result str str :=
  match base with
  | Some base => Ok (resolve_path_against_base path base)
  | None =>
      if is_absolute path then rmap_err err_text (from_absolute_path path)
      else Err (lit "AbsolutePathBuf deserialized without a base path")
  end.

(** ** Canonical forms *)

(** [dunce::canonicalize] and the symlink flag of [symlink_metadata]. *)
Context (canonicalize : str → result str io_error)
  (symlink_metadata : str → result bool io_error).

Definition should_preserve_logical_path (logical : str) : bool :=
  existsb (λ ancestor,
    match symlink_metadata ancestor with
    | Err _ => false
    | Ok is_symlink =>
        is_symlink && negb (is_none (path_parent_of ancestor ≫= path_parent_of))
    end) (path_ancestors logical).

Definition canonicalize_preserving_symlinks (path : str) : result str io_error :=
  let? logical := from_absolute_path path in
  let preserve_logical_path := should_preserve_logical_path logical in
  match canonicalize path with
  | Ok canonical =>
      if preserve_logical_path && negb (path_eq canonical logical) then Ok logical
      else Ok canonical
  | Err _ => Ok logical
  end.

Definition canonicalize_existing_preserving_symlinks (path : str) : result str io_error :=
  let? logical := from_absolute_path path in
  let? canonical := canonicalize path in
  if should_preserve_logical_path logical && negb (path_eq canonical logical) then Ok logical
  else Ok canonical.

End absolute.

(** ** Normal absolute paths

    The names below the root are non-empty, contain no separator and are
    neither [.] nor [..]. *)

Definition name_ok (s : str) : Prop := s ≠ [] ∧ s ≠ lit "." ∧ s ≠ lit ".." ∧ 47%N ∉ s.

Definition abs_of (names : list str) : str := lit "/" ++ join (lit "/") names.

Definition normal_abs (path : str) : Prop := ∃ names, Forall name_ok names ∧ path = abs_of names.

(** What a component does to the names. *)
Definition names_step (names : list str) (c : component) : list str :=
  match c with
  | RootDir => []
  | CurDir => names
  | ParentDir => drop_last names
  | Normal s => names ++ [s]
  end.

(** The names of a normal path. *)
Definition names_of (path : str) : list str :=
  omap (λ c, match c with Normal s => Some s | _ => None end) (components path).

Lemma join_snoc sep ls x : ls ≠ [] → join sep (ls ++ [x]) = join sep ls ++ sep ++ x.
Proof.
  induction ls as [|l ls IH]; [done|]. intros _. destruct ls as [|l' ls]; [done|].
  rewrite <- app_comm_cons, !join_cons by (by destruct ls). by rewrite IH, !app_assoc.
Qed.

Lemma name_ok_component s : name_ok s → segment_component s = Some (Normal s).
Proof.
  intros (Hne & Hdot & Hdots & _). unfold segment_component.
  destruct s; [done|]. cbn [is_empty orb]. by rewrite !bool_decide_eq_false_2.
Qed.

Lemma components_name_ok path s : Normal s ∈ components path → name_ok s.
Proof.
  unfold components. intros [Hin|Hin]%elem_of_app; [repeat case_match; set_solver|].
  apply list_elem_of_omap in Hin as (seg & Hseg & Hs). unfold segment_component in Hs.
  destruct (is_empty seg) eqn:He; [done|]. apply is_empty_false in He.
  repeat case_match; simplify_eq/=. bool_prop.
  pose proof (split_on_no_sep 47 path) as Hno. rewrite Forall_forall in Hno.
  split_and!; auto.
Qed.

Lemma components_abs names :
  Forall name_ok names → components (abs_of names) = RootDir :: (Normal <$> names).
Proof.
  intros Hok. unfold components, abs_of. change (lit "/") with [47%N].
  cbn [app split_on N.eqb Pos.eqb].
  rewrite (proj2 (starts_with_spec (47%N :: _) [47%N])) by (by eexists). simpl. f_equal.
  destruct names as [|n names]; [done|].
  rewrite split_on_join by (done || (eapply Forall_impl; [exact Hok|by intros s (_ & _ & _ & ?)])).
  induction Hok as [|s l Hs Hl IH]; [done|]. simpl. rewrite name_ok_component by done.
  by rewrite IH.
Qed.

Lemma abs_ends_slash names : Forall name_ok names → ends_with (abs_of names) (lit "/") = is_empty names.
Proof.
  intros Hok. destruct (list_snoc_cases names) as [->|(l & x & ->)]; [done|].
  apply Forall_app in Hok as [_ [(Hne & _ & _ & Hx) _]%Forall_cons].
  transitivity false; [|by destruct l]. apply not_true_is_false. rewrite ends_with_spec.
  intros [a Ha]. destruct (list_snoc_cases x) as [->|(x' & c & ->)]; [done|].
  unfold abs_of in Ha. assert (∃ b, lit "/" ++ join (lit "/") (l ++ [x' ++ [c]]) = b ++ [c]) as [b Hb].
  { destruct l; [by exists (lit "/" ++ x'); rewrite <- app_assoc|].
    rewrite join_snoc by done. exists (lit "/" ++ join (lit "/") (l :: l0) ++ lit "/" ++ x').
    by rewrite !app_assoc. }
  rewrite Hb in Ha. change (lit "/") with [47%N] in Ha. apply app_inj_tail in Ha as [_ ->].
  set_solver.
Qed.

Lemma name_relative s : name_ok s → is_absolute s = false.
Proof.
  intros (_ & _ & _ & Hs). unfold is_absolute. apply not_true_is_false.
  rewrite starts_with_spec. change (lit "/") with [47%N]. intros [t ->]. set_solver.
Qed.

Lemma push_abs names s :
  Forall name_ok names → name_ok s → pathbuf_push (abs_of names) s = abs_of (names ++ [s]).
Proof.
  intros Hok Hs. unfold pathbuf_push. rewrite name_relative by done. unfold path_push.
  change (is_empty (abs_of names)) with false. cbv iota. rewrite abs_ends_slash by done.
  destruct names as [|n names]; [done|]. cbn [is_empty]. unfold abs_of.
  by rewrite join_snoc, !app_assoc by done.
Qed.

Lemma render_abs names : Forall name_ok names → render (RootDir :: (Normal <$> names)) = abs_of names.
Proof.
  induction names as [|s names IH] using rev_ind; [done|].
  intros [Hok [Hs _]%Forall_cons]%Forall_app. unfold render in *.
  rewrite fmap_app, app_comm_cons, foldl_app, IH by done. by apply push_abs.
Qed.

Lemma parent_abs names :
  Forall name_ok names →
  path_parent_of (abs_of names) =
    if is_empty names then None else Some (abs_of (drop_last names)).
Proof.
  intros Hok. unfold path_parent_of, parent_components. rewrite components_abs by done.
  destruct (list_snoc_cases names) as [->|(l & x & ->)]; [done|].
  rewrite fmap_app, app_comm_cons. change (Normal <$> [x]) with [Normal x].
  rewrite last_snoc, !drop_last_snoc. apply Forall_app in Hok as [Hok _].
  destruct (l ++ [x]) eqn:E; [by destruct l|]. simpl. by rewrite render_abs.
Qed.

Lemma normalize_step_abs names c :
  Forall name_ok names → (∀ s, c = Normal s → name_ok s) →
  normalize_step (abs_of names) c = abs_of (names_step names c) ∧ Forall name_ok (names_step names c).
Proof.
  intros Hok Hc. destruct c as [| | |s]; simpl; auto.
  - unfold pathbuf_pop. rewrite parent_abs by done. split.
    + by destruct names.
    + unfold drop_last. by apply Forall_take.
  - specialize (Hc s eq_refl). rewrite push_abs by done. split; [done|].
    apply Forall_app. by split; [|apply Forall_singleton].
Qed.

Lemma normalize_fold_abs cs names :
  Forall name_ok names → (∀ s, Normal s ∈ cs → name_ok s) →
  foldl normalize_step (abs_of names) cs = abs_of (foldl names_step names cs)
  ∧ Forall name_ok (foldl names_step names cs).
Proof.
  revert names; induction cs as [|c cs IH]; intros names Hok Hcs; [done|]. simpl.
  destruct (normalize_step_abs names c Hok) as [-> Hok']; [intros s ->; apply Hcs; set_solver|].
  apply IH; [done|]. intros s Hs. apply Hcs. set_solver.
Qed.

Lemma components_rooted path :
  is_absolute path = true →
  components path = RootDir :: omap segment_component (split_on 47 path).
Proof. unfold is_absolute, components. by intros ->. Qed.

Lemma components_absolute path :
  is_absolute path = true → ∃ cs, components path = RootDir :: cs.
Proof. unfold is_absolute, components. intros ->. simpl. eauto. Qed.

(** Normalising an absolute path: each component acts on the names. *)
Lemma normalize_absolute path :
  is_absolute path = true →
  normalize_path path = abs_of (foldl names_step [] (components path))
  ∧ Forall name_ok (foldl names_step [] (components path)).
Proof.
  intros (cs & Hcs)%components_absolute.
  destruct (normalize_fold_abs cs [] ltac:(done)) as [Heq Hok].
  { intros s Hs. apply (components_name_ok path). rewrite Hcs. set_solver. }
  unfold normalize_path. rewrite Hcs. cbn [foldl names_step]. split; [|done].
  change (normalize_step [] RootDir) with (abs_of []). by rewrite Heq.
Qed.

Lemma split_on_app_sep c a b : split_on c (a ++ c :: b) = split_on c a ++ split_on c b.
Proof.
  induction a as [|x a IH]; simpl; [by rewrite N.eqb_refl|].
  destruct (x =? c)%N; [by rewrite IH|]. rewrite IH.
  destruct (split_on c a) as [|l ls] eqn:E; [by apply split_on_nonempty in E|done].
Qed.

(** The segments of a path act on the names like its components. *)
Lemma relative_fold names path :
  is_absolute path = false →
  foldl names_step names (omap segment_component (split_on 47 path)) =
  foldl names_step names (components path).
Proof.
  unfold is_absolute, components. intros ->. rewrite foldl_app. f_equal. by case_bool_decide.
Qed.

Lemma names_of_fold names : foldl names_step [] (RootDir :: (Normal <$> names)) = names.
Proof.
  simpl. induction names as [|s names IH] using rev_ind; [done|].
  by rewrite fmap_app, foldl_app, IH.
Qed.

Lemma abs_of_absolute names s : is_absolute (abs_of names ++ s) = true.
Proof. apply starts_with_spec. exists (join (lit "/") names ++ s). by unfold abs_of; rewrite app_assoc. Qed.

(** Joining a relative path to a normal one runs its components from the
    names of the base. *)
Lemma join_fold names path :
  Forall name_ok names → is_absolute path = false →
  absolutize_from path (abs_of names) = abs_of (foldl names_step names (components path))
  ∧ Forall name_ok (foldl names_step names (components path)).
Proof.
  intros Hok Hrel. unfold absolutize_from, path_with_base, pathbuf_push. rewrite Hrel.
  rewrite <- relative_fold by done.
  assert (∃ t, path_push (abs_of names) path = abs_of names ++ t
    ∧ foldl names_step [] (components (abs_of names ++ t)) =
      foldl names_step names (omap segment_component (split_on 47 path))) as (t & Ht & Hfold).
  { unfold path_push. change (is_empty (abs_of names)) with false. cbv iota.
    rewrite abs_ends_slash by done. destruct names as [|n names].
    - exists path. split; [done|]. unfold components.
      change (starts_with _ _) with (is_absolute (abs_of [] ++ path)).
      rewrite abs_of_absolute. done.
    - exists (lit "/" ++ path). split; [done|]. set (ns := n :: names) in *. clearbody ns.
      pose proof (components_abs ns Hok) as Hc. rewrite components_rooted in Hc by done.
      apply (f_equal tail) in Hc. cbn [tail] in Hc. rewrite components_rooted by apply abs_of_absolute.
      change (lit "/" ++ path) with (47%N :: path). rewrite split_on_app_sep, omap_app, Hc.
      rewrite app_comm_cons, foldl_app. by rewrite names_of_fold. }
  rewrite Ht. destruct (normalize_absolute (abs_of names ++ t)) as [Heq Hall];
    [apply abs_of_absolute|]. rewrite Hfold in Heq, Hall. by rewrite Heq.
Qed.

Lemma absolutize_from_normal path base :
  is_absolute base = true → normal_abs (absolutize_from path base).
Proof.
  intros Hb. unfold absolutize_from.
  assert (is_absolute (path_with_base path base) = true) as Ha.
  { unfold path_with_base, pathbuf_push. destruct (is_absolute path) eqn:Hp; [done|].
    apply starts_with_spec in Hb as [b Hb]. apply starts_with_spec.
    unfold path_push. rewrite Hb. simpl. case_match; rewrite ?app_comm_cons; eexists; reflexivity. }
  destruct (normalize_absolute _ Ha) as [-> Hok]. by eexists.
Qed.

Lemma normalize_normal path : normal_abs path → normalize_path path = path.
Proof.
  intros (names & Hok & ->).
  destruct (normalize_absolute (abs_of names)) as [-> _];
    [done|].
  by rewrite components_abs, names_of_fold.
Qed.

Lemma normal_absolute path : normal_abs path → is_absolute path = true.
Proof. by intros (names & _ & ->). Qed.

Lemma expand_absolute home path : is_absolute path = true → maybe_expand_home_directory home path = path.
Proof.
  unfold is_absolute. rewrite starts_with_spec. intros [t ->].
  unfold maybe_expand_home_directory. by destruct (strip_prefix _ _) eqn:E.
Qed.

(** ** The values of the type *)

(** An absolute directory, when there is one. *)
Definition dir_ok {E} (dir : result str E) : Prop := ∀ d, dir = Ok d → is_absolute d = true.

(** The values the constructors and methods of [AbsolutePathBuf] make, under
    whatever home, current and base directory is in force at each call
    ([parent], [ancestors] and [canonicalize] work on an earlier value). *)
Inductive path_value (canonicalize : str → result str io_error) : str → Prop :=
| value_absolute home cwd path q :
    dir_ok cwd → from_absolute_path home cwd path = Ok q → path_value canonicalize q
| value_checked home path q :
    from_absolute_path_checked home path = Ok q → path_value canonicalize q
| value_current home cwd q :
    dir_ok cwd → abs_current_dir home cwd = Ok q → path_value canonicalize q
| value_relative home cwd path q :
    dir_ok cwd → relative_to_current_dir home cwd path = Ok q → path_value canonicalize q
| value_resolved home path base :
    is_absolute base = true → path_value canonicalize (resolve_path_against_base home path base)
| value_deserialized home cwd base path q :
    dir_ok cwd → (∀ d, base = Some d → is_absolute d = true) →
    deserialize home cwd base path = Ok q → path_value canonicalize q
| value_joined home self path :
    path_value canonicalize self → path_value canonicalize (abs_join home self path)
| value_canonical self q :
    path_value canonicalize self → canonicalize self = Ok q → path_value canonicalize q
| value_parent self q :
    path_value canonicalize self → path_parent_of self = Some q → path_value canonicalize q
| value_ancestor self q :
    path_value canonicalize self → q ∈ path_ancestors self → path_value canonicalize q.

Lemma from_absolute_normal home cwd path q :
  dir_ok cwd → from_absolute_path home cwd path = Ok q → normal_abs q.
Proof.
  intros Hcwd. unfold from_absolute_path, absolutize.
  destruct (is_absolute (maybe_expand_home_directory home path)) eqn:Ha.
  - intros [= <-]. destruct (normalize_absolute _ Ha) as [-> Hok]. by eexists.
  - destruct cwd as [d|]; [|done]. intros [= <-]. by apply absolutize_from_normal, Hcwd.
Qed.

Lemma parent_normal path q : normal_abs path → path_parent_of path = Some q → normal_abs q.
Proof.
  intros (names & Hok & ->). rewrite parent_abs by done. destruct (is_empty names); [done|].
  intros [= <-]. exists (drop_last names). split; [by apply Forall_take|done].
Qed.

Lemma ancestors_normal fuel path q : normal_abs path → q ∈ ancestors_loop fuel path → normal_abs q.
Proof.
  revert path; induction fuel as [|fuel IH]; intros path Hn; simpl; [by intros ?%elem_of_nil|].
  intros [->|Hq]%elem_of_cons; [done|].
  destruct (path_parent_of path) as [p|] eqn:Hp; [|by apply elem_of_nil in Hq].
  eapply IH; [by eapply parent_normal|done].
Qed.

(** C35: Every value of [AbsolutePathBuf], by whichever constructor it is made
    and whatever home directory is in force, is an absolute path without empty,
    [.] or [..] components, as its documentation says; the parent, the ancestors
    and the joins of a value are values.  The base and current directories have to
    be absolute (the constructor that takes a base does not check it, see
    [relative_base]), and the operating system's canonical paths are taken to be
    of that form.  A path that is already of that form is returned unchanged. *)
Theorem absolute_paths_normal (canonicalize : str → result str io_error) :
  (∀ path q, canonicalize path = Ok q → normal_abs q) →
  (∀ path, path_value canonicalize path → normal_abs path)
  ∧ (∀ home cwd path, normal_abs path →
       from_absolute_path_checked home path = Ok path
       ∧ from_absolute_path home cwd path = Ok path).
Proof.
  intros Hcan. split.
  - induction 1 as [home cwd path q Hcwd Hq|home path q Hq|home cwd q Hcwd Hq|home cwd path q Hcwd Hq
      |home path base Hb|home cwd base path q Hcwd Hbase Hq|home self path _ IH|self q _ _ Hq
      |self q _ IH Hq|self q _ IH Hq].
    + by eapply from_absolute_normal.
    + revert Hq. unfold from_absolute_path_checked. case_match; [done|]. intros [= <-].
      by apply absolutize_from_normal.
    + unfold abs_current_dir in Hq. destruct cwd as [d|]; [|done].
      by eapply (from_absolute_normal home (Ok d)).
    + unfold relative_to_current_dir in Hq. destruct cwd as [d|]; [|done]. injection Hq as <-.
      by apply absolutize_from_normal, Hcwd.
    + by apply absolutize_from_normal.
    + unfold deserialize in Hq. destruct base as [d|].
      * injection Hq as <-. by apply absolutize_from_normal, Hbase.
      * destruct (is_absolute path); [|done].
        destruct (from_absolute_path home cwd path) eqn:E; [|done]. injection Hq as <-.
        by eapply from_absolute_normal.
    + by apply absolutize_from_normal, normal_absolute.
    + by eapply Hcan.
    + by eapply parent_normal.
    + by eapply ancestors_normal.
  - intros home cwd path Hn. pose proof (normal_absolute _ Hn) as Ha.
    unfold from_absolute_path_checked, from_absolute_path, absolutize, absolutize_from, path_with_base.
    rewrite expand_absolute, Ha by done. simpl. by rewrite normalize_normal.
Qed.

(** A file system with one link. *)
Definition one_link (path : str) : result str io_error :=
  if bool_decide (path = lit "/home/me/y") then Ok (lit "/data/y")
  else Err {| err_kind := NotFound; err_text := [] |}.

Lemma absolute_paths_normal_witness :
  path_value one_link (lit "/data/y") ∧ path_value one_link (lit "/data")
  ∧ normal_abs (lit "/data/y") ∧ normal_abs (lit "/data").
Proof.
  assert (path_value one_link (lit "/data/y")) as Hy.
  { apply (value_canonical _ (lit "/home/me/y")); [|reflexivity].
    by apply (value_checked _ (Some (lit "/home/me")) (lit "~/x/.././y")). }
  assert (path_value one_link (lit "/data")) as Hd
    by (by apply (value_parent _ (lit "/data/y"))).
  split; [exact Hy|]. split; [exact Hd|].
  assert (∀ path q, one_link path = Ok q → normal_abs q) as Hcan.
  { intros path q. unfold one_link. case_bool_decide; [|done]. intros [= <-].
    exists [lit "data"; lit "y"]. split; [|reflexivity].
    repeat constructor; try (vm_compute; congruence); vm_compute; set_solver. }
  split; apply (absolute_paths_normal one_link Hcan); assumption.
Defined.

(** A relative base makes an [AbsolutePathBuf] that is not absolute. *)
Example relative_base :
  resolve_path_against_base None (lit "a/../b") (lit "base") = lit "base/b"
  ∧ is_absolute (lit "base/b") = false.
Proof. vm_compute. done. Qed.

Lemma fold_names_below cs names :
  ParentDir ∉ cs → RootDir ∉ cs → names `prefix_of` foldl names_step names cs.
Proof.
  revert names; induction cs as [|c cs IH]; intros names Hp Hr; [done|]. simpl.
  destruct c as [| | |s]; [set_solver|apply IH; set_solver|set_solver|].
  etransitivity; [|apply IH; set_solver]. by apply prefix_app_r.
Qed.
