(* ===== verification/PathUri.v ===== *)
(** * Path URIs

    [codex-rs/utils/path-uri]: [file:] URIs that name paths of POSIX and
    Windows hosts, with their lexical operations.  The crates [url],
    [urlencoding] and [base64] are the operations of a class; the process runs
    on a Unix host, so its native convention is [Posix]. *)

From S2P Require Import Prelude RustStr Utf8 UnixPath ExecFs AbsolutePath.

#[local] Arguments lit : simpl never.

(** ** The [url], [urlencoding] and [base64] crates *)

Class UrlOps (Url : Type) := {
  url_scheme : Url → str;
  url_username : Url → str;
  url_has_password : Url → bool;
  url_port : Url → option N;
  url_query : Url → option str;
  url_fragment : Url → option str;
  url_as_str : Url → str;
  url_host_str : Url → option str;
  url_path : Url → str;
  url_path_segments : Url → option (list str);
  url_parse : str → result Url str;
  url_set_host : Url → option str → option Url;
  url_set_path : Url → str → Url;
  (* [path_segments_mut]: [clear], [pop_if_empty], [pop] and [push]. *)
  segments_clear : Url → Url;
  segments_pop_if_empty : Url → Url;
  segments_pop : Url → Url;
  segments_push : Url → str → Url;
  url_from_file_path : str → option Url;
  url_to_file_path : Url → option str;
  decode_binary : str → bytes;
  encode_binary : bytes → str;
  base64_encode : bytes → str;
  base64_decode : str → option bytes;
  (* Stands for the value of an expression that is [unreachable!]. *)
  url_unreachable : Url;
}.

Inductive PathUriParseError :=
| InvalidUri (error : str)
| UnsupportedScheme (scheme : str)
| InvalidFileUriPath (path : str)
| CredentialsNotAllowed
| PortNotAllowed
| QueryNotAllowed
| FragmentNotAllowed
| JoinPathMustBeDescendant (path : str).

(** [std::env::consts::OS]: the messages are those of a Linux build. *)
Definition OS : str := lit "linux".

(** The [Display] of the errors. *)
Definition parse_error_text (e : PathUriParseError) : str :=
  match e with
  | InvalidUri error => lit "invalid URI: " ++ error
  | UnsupportedScheme scheme => lit "unsupported path URI scheme `" ++ scheme ++ lit "`"
  | InvalidFileUriPath path => lit "'" ++ path ++ lit "' is invalid on '" ++ OS ++ lit "'"
  | CredentialsNotAllowed => lit "credentials are not allowed in path URIs"
  | PortNotAllowed => lit "ports are not allowed in path URIs"
  | QueryNotAllowed => lit "query parameters are not allowed in path URIs"
  | FragmentNotAllowed => lit "fragments are not allowed in path URIs"
  | JoinPathMustBeDescendant path =>
      lit "path `" ++ path ++ lit "` must resolve to a relative descendant when joining a path URI"
  end.

Definition FILE_SCHEME : str := lit "file".
Definition BAD_PATH_URI_PREFIX : str := lit "file:///%00/bad/path/".

(** [PathConvention::native] on a Unix host. *)
Definition native : PathConvention := Posix.

Definition is_windows_separator_char (c : char) : bool := ((c =? 92) || (c =? 47))%N.

Definition is_windows_drive_uri_segment (segment : str) : bool :=
  match segment with
  | [drive; colon] => (colon =? 58)%N && is_ascii_alphabetic drive
  | [drive; percent; three; a] =>
      (percent =? 37)%N && (three =? 51)%N && ((a =? 65) || (a =? 97))%N
      && is_ascii_alphabetic drive
  | _ => false
  end.

Definition infer_opaque_path_convention (path_bytes : bytes) : option PathConvention :=
  if starts_with path_bytes [47%N] then Some Posix
  else if negb (Nat.even (length path_bytes)) then None
  else
    match from_le_bytes path_bytes with
    | first :: second :: _ =>
        let has_drive := (first <? 256)%N && is_ascii_alphabetic first && (second =? 58)%N in
        let has_unc_prefix := (first =? 92)%N && (second =? 92)%N in
        if has_drive || has_unc_prefix then Some Windows else None
    | _ => None
    end.

(** The number of leading segments that [..] cannot remove. *)
Definition anchor_depth (convention : PathConvention) : nat :=
  match convention with Posix => 0 | Windows => 1 end.

(** [path.replace('\\', "/")]. *)
Definition slashes (path : str) : str := (λ c, if (c =? 92)%N then 47%N else c) <$> path.

Definition nonempty (s : str) : bool := negb (is_empty s).

Section path_uri.
Context {Url : Type} `{!EqDecision Url} `{!UrlOps Url}.
Implicit Types (u base self : Url).

(** ** Opaque fallbacks and the inferred convention *)

Definition decode_bad_path_uri u : option bytes :=
  encoded_path ← strip_prefix BAD_PATH_URI_PREFIX (url_as_str u);
  if is_empty encoded_path || contains_char encoded_path 47 then None
  else
    path_bytes ← base64_decode encoded_path;
    if bool_decide (base64_encode path_bytes = encoded_path) then Some path_bytes else None.

Definition opaque_fallback_bytes u : option bytes := decode_bad_path_uri u.

Definition is_opaque u : bool := negb (is_none (opaque_fallback_bytes u)).

(** The first non-empty segment. *)
Definition first_segment u : option str :=
  segments ← url_path_segments u; List.find nonempty segments.

Definition infer_path_convention u : option PathConvention :=
  match opaque_fallback_bytes u with
  | Some path_bytes => infer_opaque_path_convention path_bytes
  | None =>
      if negb (is_none (url_host_str u)) then Some Windows
      else if is_some_and (first_segment u) is_windows_drive_uri_segment then Some Windows
      else Some Posix
  end.

(** ** Equality *)

Definition windows_identity_path_bytes u : option bytes :=
  if negb (bool_decide (infer_path_convention u = Some Windows)) || is_opaque u then None
  else
    segments ← url_path_segments u;
    if existsb (λ segment, existsb is_windows_separator_char (decode_binary segment)) segments
    then None else Some (decode_binary (url_path u)).

Definition uri_eq u v : bool :=
  bool_decide (u = v) ||
  match windows_identity_path_bytes u, windows_identity_path_bytes v with
  | Some path, Some other_path =>
      bool_decide (url_host_str u = url_host_str v) && eq_ignore_ascii_case path other_path
  | _, _ => false
  end.

Lemma uri_eq_refl u : uri_eq u u = true.
Proof. unfold uri_eq. by rewrite bool_decide_eq_true_2. Qed.

(** ** Construction *)

Definition validate_common_known_uri u : result unit PathUriParseError :=
  if nonempty (url_username u) || url_has_password u then Err CredentialsNotAllowed
  else if negb (is_none (url_port u)) then Err PortNotAllowed
  else if negb (is_none (url_query u)) then Err QueryNotAllowed
  else if negb (is_none (url_fragment u)) then Err FragmentNotAllowed
  else Ok ().

Definition validate_file_url u : result unit PathUriParseError :=
  let? _ := validate_common_known_uri u in
  if bool_decide (0%N ∈ decode_binary (url_path u)) && is_none (decode_bad_path_uri u)
  then Err (InvalidFileUriPath (url_as_str u))
  else Ok ().

Definition without_localhost_authority u : Url :=
  if bool_decide (url_host_str u = Some (lit "localhost"))
  then default url_unreachable (url_set_host u None) else u.

Definition with_normalized_windows_drive_letter u : Url :=
  if negb (is_none (url_host_str u)) then u
  else
    let path := url_path u in
    match position (λ c, negb (c =? 47)%N) path with
    | None => u
    | Some drive_start =>
        match head (split_on 47 (drop drive_start path)) with
        | None => u
        | Some drive =>
            match drive with
            | letter :: _ =>
                if negb (is_windows_drive_uri_segment drive) || is_ascii_uppercase letter then u
                else
                  let drive_letter := (letter - 32)%N in
                  url_set_path u (take drive_start path ++ drive_letter :: drop (S drive_start) path)
            | [] => u
            end
        end
    end.

(** [TryFrom<Url> for PathUri]. *)
Definition try_from u : result Url PathUriParseError :=
  if negb (bool_decide (url_scheme u = FILE_SCHEME)) then Err (UnsupportedScheme (url_scheme u))
  else
    let? _ := validate_file_url u in
    Ok (with_normalized_windows_drive_letter (without_localhost_authority u)).

(** [PathUri::parse]. *)
Definition parse_uri (uri : str) : result Url PathUriParseError :=
  let? url := rmap_err InvalidUri (url_parse uri) in try_from url.

Definition from_opaque_path_bytes (path_bytes : bytes) : Url :=
  match parse_uri (BAD_PATH_URI_PREFIX ++ base64_encode path_bytes) with
  | Ok uri => uri
  | Err _ => url_unreachable
  end.

Definition windows_opaque_path_uri (path : str) : Url :=
  from_opaque_path_bytes (to_le_bytes (encode_utf16 path)).

(** [PathUri::from_abs_path] on a Unix host. *)
Definition from_abs_path (path : str) : Url :=
  let fallback := from_opaque_path_bytes (encode path) in
  match url_from_file_path path with
  | None => fallback
  | Some url =>
      match try_from url with
      | Err _ => fallback
      | Ok uri =>
          if negb (bool_decide (url_host_str uri = Some []))
             && bool_decide (infer_path_convention uri = Some native)
          then uri else fallback
      end
  end.

(** ** Native path text *)

(** The loop of [path_uri_from_segments]: depth, kept segments and whether the
    text ended with a separator. *)
Definition normalize_segment (anchor : nat) (st : nat * list str * bool) (segment : str)
    : nat * list str * bool :=
  let '(depth, kept, _) := st in
  if is_empty segment then (depth, kept, true)
  else if bool_decide (segment = lit ".") then (depth, kept, false)
  else if bool_decide (segment = lit "..") then
    if anchor <? depth then (depth - 1, drop_last kept, false) else (depth, kept, false)
  else (S depth, kept ++ [segment], false).

Definition path_uri_from_segments (convention : PathConvention) (host : option str)
    (segments : list str) : option Url :=
  url ← match url_parse (lit "file:///") with Ok url => Some url | Err _ => None end;
  url ← match host with Some host => url_set_host url (Some host) | None => Some url end;
  let '(depth, kept, has_trailing_separator) :=
    foldl (normalize_segment (anchor_depth convention)) (0, [], false) segments in
  let kept :=
    if has_trailing_separator
       || (bool_decide (convention = Windows) && is_none host
           && (depth =? anchor_depth convention))
    then kept ++ [[]] else kept in
  _ ← url_path_segments url;
  match try_from (foldl segments_push (segments_clear url) kept) with
  | Ok uri => Some uri
  | Err _ => None
  end.

Definition parse_posix_path (path : str) : option Url :=
  path ← strip_prefix (lit "/") path;
  if contains_char path 0 then Some (from_opaque_path_bytes (encode (lit "/" ++ path)))
  else path_uri_from_segments Posix None (split_on 47 path).

(** [normalize_windows_device_path] of [codex-rs/utils/absolute-path]. *)
Definition is_windows_drive_absolute_path (path : str) : bool :=
  match path with
  | drive :: colon :: sep :: _ =>
      is_ascii_alphabetic drive && (colon =? 58)%N && is_windows_separator_char sep
  | _ => false
  end.

Definition normalize_windows_device_path (path : str) : option str :=
  match strip_prefix (lit "\\?\UNC\") path with
  | Some unc => Some (lit "\\" ++ unc)
  | None =>
  match strip_prefix (lit "\\.\UNC\") path with
  | Some unc => Some (lit "\\" ++ unc)
  | None =>
  match strip_prefix (lit "\\?\") path with
  | Some path' =>
      if is_windows_drive_absolute_path path' then Some path'
      else None
  | None =>
      path' ← strip_prefix (lit "\\.\") path;
      if is_windows_drive_absolute_path path' then Some path' else None
  end end end.

(** The prefix of a device or verbatim namespace. *)
Definition uses_namespace (path : str) : bool :=
  match path with
  | first :: second :: namespace :: separator :: _ =>
      is_windows_separator_char first && is_windows_separator_char second
      && ((namespace =? 46) || (namespace =? 63))%N && is_windows_separator_char separator
  | _ => false
  end.

Definition parse_unnormalized_windows_path (path : str) : option Url :=
  if uses_namespace path || contains_char path 0 then Some (windows_opaque_path_uri path)
  else if is_windows_drive_absolute_path path then
    path_uri_from_segments Windows None (take 2 path :: path_segments Windows (drop 3 path))
  else
    match path with
    | first :: second :: rest =>
        if is_windows_separator_char first && is_windows_separator_char second then
          match path_segments Windows rest with
          | host :: share :: components =>
              if is_empty host || is_empty share then None
              else
                match path_uri_from_segments Windows (Some host) (share :: components) with
                | Some uri => Some uri
                | None => Some (windows_opaque_path_uri path)
                end
          | _ => None
          end
        else None
    | _ => None
    end.

(** A host or share that is missing or a dot segment. *)
Definition bad_unc_component (component : option str) : bool :=
  match component with
  | None => true
  | Some s => is_empty s || bool_decide (s = lit ".") || bool_decide (s = lit "..")
  end.

Definition parse_windows_path (path : str) : option Url :=
  match normalize_windows_device_path path with
  | Some normalized_path =>
      let bad_unc :=
        match strip_prefix (lit "\\") normalized_path with
        | Some unc_path =>
            let components := path_segments Windows unc_path in
            bad_unc_component (components !! 0) || bad_unc_component (components !! 1)
        | None => false
        end in
      if bad_unc then Some (windows_opaque_path_uri path)
      else
        let accepted uri :=
          bool_decide (infer_path_convention uri = Some Windows)
          && negb (is_opaque uri)
          && (negb (starts_with normalized_path (lit "\\"))
              || is_some_and (url_host_str uri) nonempty) in
        Some (match parse_unnormalized_windows_path normalized_path with
              | Some uri => if accepted uri then uri else windows_opaque_path_uri path
              | None => windows_opaque_path_uri path
              end)
  | None => parse_unnormalized_windows_path path
  end.

Definition from_absolute_native_path (path : str) (convention : PathConvention) : option Url :=
  uri ← match convention with
        | Posix => parse_posix_path path
        | Windows => parse_windows_path path
        end;
  if negb (bool_decide (url_host_str uri = Some []))
     && bool_decide (infer_path_convention uri = Some convention)
  then Some uri
  else
    Some (match convention with
          | Posix => from_opaque_path_bytes (encode path)
          | Windows => windows_opaque_path_uri path
          end).

(** ** Rendering ([api_path_string.rs]) *)

Inductive LegacyAppPathStringError :=
| OpaqueFallback (path : str)
| IncompatibleConvention (path : str) (convention : PathConvention)
| InvalidNativePath (path : str) (convention : option PathConvention).

Definition decode_native_segment (segment : str) : str := from_utf8_lossy (decode_binary segment).

Definition legacy_segments u : list str := default [] (url_path_segments u).

Definition render_posix_path u : result str LegacyAppPathStringError :=
  if negb (is_none (url_host_str u)) then Err (IncompatibleConvention (url_as_str u) Posix)
  else Ok (concat ((λ segment, 47%N :: decode_native_segment segment) <$> legacy_segments u)).

Definition render_windows_path u : result str LegacyAppPathStringError :=
  let failed := Err (IncompatibleConvention (url_as_str u) Windows) in
  match legacy_segments u with
  | [] => failed
  | first :: segments =>
      let first := decode_native_segment first in
      let? rendered :=
        match url_host_str u with
        | Some host =>
            if is_empty first then failed else Ok (lit "\\" ++ host ++ 92%N :: first)
        | None =>
            match first with
            | [letter; colon] =>
                if is_ascii_alphabetic letter && (colon =? 58)%N then Ok first else failed
            | _ => failed
            end
        end in
      let rendered :=
        rendered ++ concat ((λ segment, 92%N :: decode_native_segment segment) <$> segments) in
      Ok (match rendered with
          | [_; colon] => if (colon =? 58)%N then rendered ++ [92%N] else rendered
          | _ => rendered
          end)
  end.

Definition is_windows_separator (c : N) : bool := ((c =? 92) || (c =? 47))%N.

Definition render_windows_opaque_fallback (path_bytes : bytes) : option str :=
  if negb (Nat.even (length path_bytes)) then None
  else
    let path_wide := from_le_bytes path_bytes in
    let has_drive_root :=
      match path_wide with
      | drive :: colon :: separator :: _ =>
          is_ascii_alphabetic drive && (colon =? 58)%N && is_windows_separator separator
      | _ => false
      end in
    let has_namespace_or_unc_root :=
      match path_wide with
      | first :: second :: _ => is_windows_separator first && is_windows_separator second
      | _ => false
      end in
    if has_drive_root || has_namespace_or_unc_root then Some (from_utf16_lossy path_wide) else None.

Definition render_opaque_fallback u (path_bytes : bytes) (convention : PathConvention)
    : result str LegacyAppPathStringError :=
  ok_or (match convention with
         | Posix => if starts_with path_bytes [47%N] then Some (from_utf8_lossy path_bytes) else None
         | Windows => render_windows_opaque_fallback path_bytes
         end) (OpaqueFallback (url_as_str u)).

Definition from_path_uri u (convention : PathConvention) : result str LegacyAppPathStringError :=
  match opaque_fallback_bytes u with
  | Some path_bytes => render_opaque_fallback u path_bytes convention
  | None => match convention with Posix => render_posix_path u | Windows => render_windows_path u end
  end.

Definition to_path_uri (self : str) (convention : PathConvention)
    : result Url LegacyAppPathStringError :=
  ok_or (from_absolute_native_path self convention) (InvalidNativePath self (Some convention)).

Definition infer_absolute_path_convention (self : str) : option PathConvention :=
  if is_windows_drive_absolute_path self || starts_with self (lit "\\") then Some Windows
  else if starts_with self (lit "/") then Some Posix
  else None.

(** [TryFrom<LegacyAppPathString> for PathUri]. *)
Definition try_from_legacy (path : str) : result Url LegacyAppPathStringError :=
  match infer_absolute_path_convention path with
  | None => Err (InvalidNativePath path None)
  | Some convention => to_path_uri path convention
  end.

Definition inferred_native_path_string u : str :=
  match infer_path_convention u with
  | Some convention =>
      match from_path_uri u convention with Ok s => s | Err _ => url_as_str u end
  | None => url_as_str u
  end.

Definition render_for_ui (self : str) : str :=
  match try_from_legacy self with
  | Ok path => inferred_native_path_string path
  | Err _ => self
  end.

(** ** Lexical operations *)

Definition containment_path_segments u (convention : PathConvention) : option (list str) :=
  segments ← url_path_segments u;
  let segments := List.filter nonempty segments in
  if existsb (λ segment,
       existsb (λ byte, (byte =? 47)%N || (bool_decide (convention = Windows) && (byte =? 92)%N))
         (decode_binary segment)) segments
  then None else Some segments.

Definition decode_uri_path (path : str) : str :=
  match from_utf8 (decode_binary path) with Ok s => s | Err _ => path end.

Definition same_segment (convention : PathConvention) (path base : str) : bool :=
  match convention with
  | Posix => bool_decide (decode_binary path = decode_binary base)
  | Windows =>
      eq_ignore_ascii_case path base
      || eq_ignore_ascii_case (decode_uri_path path) (decode_uri_path base)
  end.

Definition native_path_segments_start_with (path_segments base_segments : list str)
    (convention : PathConvention) : bool :=
  (length base_segments <=? length path_segments)
  && forallb (λ '(path, base), same_segment convention path base)
       (zip path_segments base_segments).

Definition uri_starts_with self base : bool :=
  uri_eq self base ||
  (negb (is_opaque self || is_opaque base)
   && bool_decide (url_host_str self = url_host_str base)
   && bool_decide (infer_path_convention self = infer_path_convention base)
   && (let convention := default Posix (infer_path_convention self) in
       match containment_path_segments self convention,
             containment_path_segments base convention with
       | Some path_segments, Some base_segments =>
           native_path_segments_start_with path_segments base_segments convention
       | _, _ => false
       end)).

Definition lexical_depth u : option nat :=
  if is_opaque u then None
  else
    convention ← infer_path_convention u;
    length <$> containment_path_segments u convention.

Definition overlaps self other : option bool :=
  if uri_eq self other then Some true
  else
    _ ← lexical_depth self;
    _ ← lexical_depth other;
    Some (uri_starts_with self other || uri_starts_with other self).

Definition relative_path_from self base : option str :=
  if uri_eq self base then Some []
  else if is_opaque self || is_opaque base
          || negb (bool_decide (url_host_str self = url_host_str base))
          || negb (bool_decide (infer_path_convention self = infer_path_convention base))
  then None
  else
    convention ← infer_path_convention self;
    path_segments ← containment_path_segments self convention;
    base_segments ← containment_path_segments base convention;
    if negb (native_path_segments_start_with path_segments base_segments convention) then None
    else
      let separator := match convention with Posix => lit "/" | Windows => lit "\" end in
      Some (join separator (decode_uri_path <$> drop (length base_segments) path_segments)).

Definition basename u : option str :=
  if is_opaque u then None
  else
    segments ← url_path_segments u;
    decode_uri_path <$> last (List.filter nonempty segments).

(** The number of non-empty segments. *)
Definition segment_count u : nat :=
  length (List.filter nonempty (default [] (url_path_segments u))).

Definition uri_parent u : option Url :=
  if is_opaque u then None
  else
    convention ← infer_path_convention u;
    _ ← url_path_segments u;
    if segment_count u <=? anchor_depth convention then None
    else Some (segments_pop (segments_pop_if_empty u)).

(** [PathUri::ancestors].  Each parent has fewer segments. *)
Fixpoint uri_ancestors_loop (fuel : nat) u : list Url :=
  match fuel with
  | 0 => []
  | S fuel => u :: match uri_parent u with Some p => uri_ancestors_loop fuel p | None => [] end
  end.
Definition uri_ancestors u : list Url :=
  uri_ancestors_loop (S (length (default [] (url_path_segments u)))) u.

(** ** Joining *)

(** The text after the drive of a drive-relative Windows path. *)
Definition same_drive_text self (convention : PathConvention) (path : str)
    : result str PathUriParseError :=
  match convention, path with
  | Windows, drive :: colon :: rest =>
      if (colon =? 58)%N && is_ascii_alphabetic drive then
        let same_drive :=
          is_some_and (first_segment self) (λ segment,
            is_windows_drive_uri_segment segment
            && match segment with
               | letter :: _ => (ascii_lower letter =? ascii_lower drive)%N
               | [] => false
               end) in
        if same_drive then Ok rest else Err (InvalidFileUriPath path)
      else Ok path
  | _, _ => Ok path
  end.

Definition windows_root_relative (convention : PathConvention) (path : str) : bool :=
  match convention, path with
  | Windows, c :: rest =>
      is_windows_separator_char c
      && negb (match rest with c' :: _ => is_windows_separator_char c' | [] => false end)
  | _, _ => false
  end.

Definition join_component (anchor : nat) (st : Url * nat) (component : str) : Url * nat :=
  let '(url, depth) := st in
  if is_empty component || bool_decide (component = lit ".") then (url, depth)
  else if bool_decide (component = lit "..") then
    if anchor <? depth then (segments_pop url, depth - 1) else (url, depth)
  else (segments_push url component, S depth).

Definition join_relative self (convention : PathConvention) (path : str) : Url :=
  let anchor := anchor_depth convention in
  let depth := segment_count self in
  let url := segments_pop_if_empty self in
  let '(url, depth) :=
    if windows_root_relative convention path
    then (Nat.iter (depth - anchor) segments_pop url, depth - (depth - anchor))
    else (url, depth) in
  let path := match convention with Posix => path | Windows => slashes path end in
  (foldl (join_component anchor) (url, depth) (split_on 47 path)).1.

Definition uri_join self (path : str) : result Url PathUriParseError :=
  if contains_char path 0 then Err (InvalidFileUriPath path)
  else if is_empty path then Ok self
  else
    match infer_path_convention self with
    | None => Err (InvalidFileUriPath (url_as_str self))
    | Some convention =>
        match from_absolute_native_path path convention with
        | Some absolute => Ok absolute
        | None =>
            let? path := same_drive_text self convention path in
            if is_opaque self then Err (InvalidFileUriPath (url_as_str self))
            else try_from (join_relative self convention path)
        end
    end.

Definition join_descendant self (path : str) : result Url PathUriParseError :=
  let? descendant := uri_join self path in
  let windows := bool_decide (infer_path_convention self = Some Windows) in
  if starts_with path (lit "/")
     || (windows && (starts_with path (lit "\")
                     || existsb (λ segment, contains_char segment 58) (path_segments Windows path)))
     || negb (uri_starts_with descendant self)
  then Err (JoinPathMustBeDescendant path)
  else Ok descendant.

(** [PathUri::join_native_bytes] ([native_path_bytes.rs]). *)
Definition native_byte_step (segments : list str) (component : bytes) : list str :=
  if is_empty component || bool_decide (component = lit ".") then segments
  else if bool_decide (component = lit "..") then drop_last segments
  else segments ++ [encode_binary component].

Definition join_native_bytes self (path : bytes) : result Url PathUriParseError :=
  match from_utf8 path with
  | Ok path => uri_join self path
  | Err _ =>
      if negb (bool_decide (infer_path_convention self = Some Posix)) || is_opaque self
         || contains_char path 0
      then Err (InvalidFileUriPath (url_as_str self))
      else
        let segments :=
          if starts_with path [47%N] then []
          else List.filter nonempty (split_on 47 (url_path self)) in
        let segments := foldl native_byte_step segments (split_on 47 path) in
        let? uri := try_from (url_set_path self (lit "/" ++ join (lit "/") segments)) in
        if negb (bool_decide (infer_path_convention uri = Some Posix))
        then Err (InvalidFileUriPath (url_as_str uri))
        else Ok uri
  end.

(** ** Conversion to host paths

    Paths of the host are taken to be valid UTF-8. *)

Context (home_dir : option str).

Definition invalid_path u : io_error :=
  {| err_kind := InvalidInput; err_text := parse_error_text (InvalidFileUriPath (url_as_str u)) |}.

Definition to_abs_path u : result str io_error :=
  if negb (bool_decide (infer_path_convention u = Some native)) then Err (invalid_path u)
  else
    match decode_bad_path_uri u with
    | Some path_bytes =>
        match from_utf8 path_bytes with
        | Err _ => Err (invalid_path u)
        | Ok decoded_path =>
            match from_absolute_path_checked home_dir decoded_path with
            | Ok path => if uri_eq (from_abs_path path) u then Ok path else Err (invalid_path u)
            | Err _ => Err (invalid_path u)
            end
        end
    | None =>
        match url_to_file_path u with
        | None => Err (invalid_path u)
        | Some path =>
            rmap_err (λ _, invalid_path u) (from_absolute_path_checked home_dir path)
        end
    end.

(** [PathUri::from_host_native_path]. *)
Definition from_host_native_path (path : str) : result Url io_error :=
  rmap from_abs_path (from_absolute_path_checked home_dir path).

End path_uri.
