(* ===== verification/PathUriFacts.v ===== *)
(** * Facts about path URIs

    Containment of POSIX URIs is the prefix order on their decoded names; the
    laws of the [url], [urlencoding] and [base64] crates that the constructors
    rely on, and what the constructors and [join] do under them. *)

From S2P Require Import Prelude RustStr Utf8 UnixPath ExecFs AbsolutePath PathUri.

#[local] Arguments lit : simpl never.
#[local] Set Default Proof Using "Type".

Section containment.
Context {Url : Type} `{!EqDecision Url} `{!UrlOps Url}.
Implicit Types (u v base : Url).

(** The decoded non-empty segments. *)
Definition names u : list bytes :=
  decode_binary <$> List.filter nonempty (default [] (url_path_segments u)).

(** A POSIX URI whose components are unambiguous. *)
Definition lexical u : Prop := infer_path_convention u = Some Posix ∧ is_Some (lexical_depth u).

#[global] Instance lexical_dec u : Decision (lexical u).
Proof. unfold lexical. apply _. Defined.

Lemma is_opaque_false u : is_opaque u = false ↔ opaque_fallback_bytes u = None.
Proof. unfold is_opaque. by destruct (opaque_fallback_bytes u). Qed.

Lemma lexical_facts u :
  lexical u →
  is_opaque u = false ∧ url_host_str u = None ∧ lexical_depth u = Some (length (names u))
  ∧ containment_path_segments u Posix
    = Some (List.filter nonempty (default [] (url_path_segments u))).
Proof.
  intros [Hc [d Hd]]. unfold lexical_depth in *. destruct (is_opaque u) eqn:Ho; [done|].
  rewrite Hc in *. cbn [mbind option_bind] in *. apply fmap_Some in Hd as (segs & Hs & ->).
  split; [done|]. rewrite is_opaque_false in Ho. unfold infer_path_convention in Hc.
  rewrite Ho in Hc. split; [by destruct (url_host_str u)|].
  unfold containment_path_segments in Hs. apply bind_Some in Hs as (l & Hl & Hs).
  unfold names, containment_path_segments. rewrite Hl. cbn [mbind option_bind from_option id].
  destruct (existsb _ _); simplify_eq. by rewrite length_fmap.
Qed.

Lemma posix_eq u v : infer_path_convention u = Some Posix → uri_eq u v = bool_decide (u = v).
Proof.
  intros Hu. unfold uri_eq, windows_identity_path_bytes. rewrite Hu. simpl. by rewrite orb_false_r.
Qed.

Lemma segments_start_with_prefix ps bs :
  native_path_segments_start_with ps bs Posix = true ↔
  (decode_binary <$> bs) `prefix_of` (decode_binary <$> ps).
Proof.
  unfold native_path_segments_start_with. revert bs.
  induction ps as [|p ps IH]; intros [|b bs]; simpl.
  - split; [intros _; apply prefix_nil|done].
  - split; [done|]. intros H%prefix_nil_inv. done.
  - split; [intros _; apply prefix_nil|done].
  - specialize (IH bs). rewrite andb_true_iff in *. rewrite andb_true_iff, bool_decide_eq_true.
    split.
    + intros (Hl & -> & Hz). by apply prefix_cons, IH.
    + intros H. pose proof (prefix_cons_inv_1 _ _ _ _ H) as ->.
      apply prefix_cons_inv_2, IH in H as [Hl Hz]. split_and!; [done|done|exact Hz].
Qed.

Lemma starts_with_prefix u base :
  lexical u → lexical base → uri_starts_with u base = true ↔ names base `prefix_of` names u.
Proof.
  intros Hu Hb. destruct (lexical_facts u Hu) as (Ho & Hh & Hd & Hs).
  destruct (lexical_facts base Hb) as (Ho' & Hh' & _ & Hs').
  destruct Hu as [Hc _], Hb as [Hc' _].
  unfold uri_starts_with. rewrite posix_eq by done. rewrite Ho, Ho', Hh, Hh', Hc, Hc'.
  rewrite (bool_decide_eq_true_2 (@None str = None)),
    (bool_decide_eq_true_2 (Some Posix = Some Posix)) by done.
  cbn [negb orb andb from_option id].
  rewrite Hs, Hs', orb_true_iff, bool_decide_eq_true, segments_start_with_prefix.
  unfold names. naive_solver.
Qed.

Lemma depth_names u d : lexical u → lexical_depth u = Some d → d = length (names u).
Proof. intros (_ & _ & Hd & _)%lexical_facts. congruence. Qed.

(** An ancestor at least as deep as another is below it. *)
Lemma prefix_chain {A} (a b l : list A) :
  a `prefix_of` l → b `prefix_of` l → length a ≤ length b → a `prefix_of` b.
Proof.
  intros Ha Hb Hlen. destruct (prefix_weak_total _ _ _ Ha Hb) as [|H]; [done|].
  by rewrite (prefix_length_eq _ _ H Hlen).
Qed.

End containment.

(** ** Laws of the crates *)

Section local.
Context {Url : Type} `{!EqDecision Url} `{!UrlOps Url}.
Implicit Types (u : Url).

(** A [file:] URL without authority, query or fragment. *)
Definition local u : Prop :=
  url_scheme u = FILE_SCHEME ∧ url_username u = [] ∧ url_has_password u = false
  ∧ url_port u = None ∧ url_host_str u = None ∧ url_query u = None ∧ url_fragment u = None.

Definition segs u : list str := default [] (url_path_segments u).

(** File names that [push] percent-encodes as they are: control characters and
    the separators of the URL syntax are left out. *)
Definition plain_name (s : str) : Prop :=
  s ≠ [] ∧ s ≠ lit "." ∧ s ≠ lit ".." ∧ Forall (λ c, 32 ≤ c ∧ c ≠ 47 ∧ c ≠ 124)%N s.

#[global] Instance plain_name_dec s : Decision (plain_name s).
Proof. unfold plain_name. apply _. Defined.

End local.

Class UrlLaws (Url : Type) `{!EqDecision Url} `{!UrlOps Url} := {
  (* The path of a [file:] URL starts with a slash and is split at slashes. *)
  path_split : ∀ u : Url, local u →
    ∃ s, url_path u = 47%N :: s ∧ url_path_segments u = Some (split_on 47 s);
  local_as_str : ∀ u : Url, local u → url_as_str u = lit "file://" ++ url_path u;
  (* Percent-decoding. *)
  decode_nil : decode_binary [] = [];
  decode_slash : ∀ a b, decode_binary (a ++ 47%N :: b) = decode_binary a ++ 47%N :: decode_binary b;
  decode_null : decode_binary (lit "%00") = [0%N];
  decode_drive : ∀ s, is_windows_drive_uri_segment s = true → ∃ c, decode_binary s = [c; 58%N];
  (* Base64 in the URL-safe alphabet. *)
  base64_inverse : ∀ b, base64_decode (base64_encode b) = Some b;
  base64_alphabet : ∀ b, 47%N ∉ base64_encode b;
  base64_empty : ∀ b, base64_encode b = [] → b = [];
  (* Parsing. *)
  parse_root : ∃ u : Url, url_parse (lit "file:///") = Ok u ∧ local u ∧ url_path u = lit "/";
  parse_opaque : ∀ b, ∃ u : Url, url_parse (BAD_PATH_URI_PREFIX ++ base64_encode b) = Ok u
    ∧ local u ∧ url_path u = lit "/%00/bad/path/" ++ base64_encode b;
  (* File paths. *)
  from_file_path_some : ∀ ns, Forall name_ok ns → is_Some (url_from_file_path (abs_of ns));
  from_file_path_url : ∀ ns (u : Url), Forall name_ok ns → url_from_file_path (abs_of ns) = Some u →
    local u ∧ names u = encode <$> ns ∧ url_to_file_path u = Some (abs_of ns);
  to_file_path_names : ∀ (u : Url) p, local u → Forall (λ n, 47%N ∉ n) (names u) →
    url_to_file_path u = Some p →
    ∃ ns, Forall name_ok ns ∧ components p = RootDir :: (Normal <$> ns) ∧ names u = encode <$> ns;
  (* Setting the path with one letter in upper case. *)
  set_path_upper : ∀ (u : Url) a c b, local u → url_path u = a ++ c :: b → is_ascii_lowercase c = true →
    local (url_set_path u (a ++ (c - 32)%N :: b))
    ∧ url_path (url_set_path u (a ++ (c - 32)%N :: b)) = a ++ (c - 32)%N :: b;
  (* Editing the segments. *)
  edit_local : ∀ u : Url, local u →
    local (segments_clear u) ∧ local (segments_pop_if_empty u) ∧ local (segments_pop u)
    ∧ ∀ s, local (segments_push u s);
  clear_segs : ∀ u : Url, local u → segs (segments_clear u) = [[]];
  pop_if_empty_segs : ∀ (u : Url) l x, local u → segs u = l ++ [x] →
    segs (segments_pop_if_empty u) = if is_empty x && negb (is_empty l) then l else l ++ [x];
  pop_segs : ∀ (u : Url) l x, local u → segs u = l ++ [x] →
    segs (segments_pop u) = if is_empty l then [[]] else l;
  push_segs : ∀ (u : Url) s, local u → plain_name s →
    ∃ e, e ≠ [] ∧ decode_binary e = encode s
      ∧ segs (segments_push u s) = if bool_decide (segs u = [[]]) then [e] else segs u ++ [e];
}.

Section laws.
Context {Url : Type} `{!EqDecision Url} `{Hops : !UrlOps Url} `{Hlaws : !UrlLaws Url}.
#[local] Set Default Proof Using "Hlaws".
Implicit Types (u v base : Url).

Lemma local_segs u : local u → ∃ s, url_path u = 47%N :: s ∧ segs u = split_on 47 s
  ∧ url_path_segments u = Some (segs u).
Proof. intros (s & Hp & Hs)%path_split. exists s. unfold segs. by rewrite Hs. Qed.

Lemma encode_ascii s b : b ∈ encode s → (b < 128)%N → b ∈ s.
Proof using Type.
  induction s as [|c s IH]; [done|]. rewrite encode_cons, elem_of_app, elem_of_cons.
  intros [Hb|Hb] Hlt; [left|right; auto]. unfold encode_char in Hb.
  assert (∀ k x, b = k + x → 128 ≤ k → b = c)%N as Hbig by (intros; lia).
  repeat case_m_in Hb; rewrite ?N.ltb_lt, ?N.ltb_ge in *; rewrite !elem_of_cons, elem_of_nil in Hb;
    destruct_or? Hb; try done; by eapply Hbig.
Qed.

(** The decoded path is the decoded segments between slashes. *)
Lemma decode_split s : decode_binary s = join [47%N] (decode_binary <$> split_on 47 s).
Proof.
  rewrite <- (join_split_on 47 s) at 1. generalize (split_on 47 s) as l.
  induction l as [|a l IH]; [apply decode_nil|]. destruct l as [|b l]; [done|].
  rewrite join_cons by done. cbn [app]. rewrite decode_slash, IH. done.
Qed.

(** A null byte in the path comes from a segment. *)
Definition no_null u : Prop := Forall (λ s, 0%N ∉ decode_binary s) (segs u).

Lemma no_null_path u : local u → no_null u ↔ 0%N ∉ decode_binary (url_path u).
Proof.
  intros (s & Hp & Hs & _)%local_segs. unfold no_null. rewrite Hp, Hs.
  change (47%N :: s) with ([] ++ 47%N :: s). rewrite decode_slash, decode_nil, decode_split.
  cbn [app]. generalize (split_on 47 s) as l. intros l. clear.
  assert (0%N ∈ 47%N :: join [47%N] (decode_binary <$> l) ↔
          Exists (λ s, 0%N ∈ decode_binary s) l) as H.
  { rewrite elem_of_cons. transitivity (0%N ∈ join [47%N] (decode_binary <$> l)); [naive_solver|].
    induction l as [|a l IH]; [by rewrite Exists_nil, elem_of_nil|]. rewrite Exists_cons, <- IH.
    destruct l as [|b l]; [cbn; rewrite elem_of_nil; naive_solver|].
    rewrite fmap_cons, join_cons by done. rewrite !elem_of_app, list_elem_of_singleton.
    naive_solver. }
  rewrite H, Forall_Exists_neg. done.
Qed.

Lemma no_null_not_opaque u : local u → no_null u → decode_bad_path_uri u = None.
Proof.
  intros Hl Hn. unfold decode_bad_path_uri. rewrite local_as_str by done.
  destruct (local_segs u Hl) as (s & Hp & Hs & _). rewrite Hp.
  destruct (strip_prefix BAD_PATH_URI_PREFIX _) as [e|] eqn:He; [|done].
  apply strip_prefix_Some in He. change BAD_PATH_URI_PREFIX with
    (lit "file://" ++ 47%N :: lit "%00" ++ 47%N :: lit "bad/path/") in He.
  rewrite <- app_assoc in He. apply app_inv_head in He.
  apply (f_equal tail) in He. cbn [tail app] in He. subst s.
  unfold no_null in Hn. rewrite Hs, <- app_assoc in Hn. cbn [app] in Hn.
  rewrite split_on_app_nosep in Hn by (vm_compute; set_solver).
  apply Forall_cons in Hn as [Hn _]. rewrite decode_null in Hn. set_solver.
Qed.

Lemma first_segment_position s n :
  position (λ c, negb (c =? 47)%N) s = Some n →
  head (split_on 47 (drop n s)) = List.find nonempty (split_on 47 s).
Proof using Type.
  revert n; induction s as [|c s IH]; intros n; simpl; [done|].
  destruct (c =? 47)%N eqn:Hc; simpl.
  - intros (m & Hm & ->)%fmap_Some. by apply IH.
  - intros [= <-]. simpl. rewrite Hc. by destruct (split_on 47 s).
Qed.

Lemma local_posix u :
  local u → no_null u →
  (infer_path_convention u = Some Posix ↔
   is_some_and (first_segment u) is_windows_drive_uri_segment = false).
Proof.
  intros Hl Hn. unfold infer_path_convention, opaque_fallback_bytes.
  rewrite no_null_not_opaque by done. destruct Hl as (_ & _ & _ & _ & -> & _).
  by destruct (is_some_and _ _).
Qed.

(** A local URL that names a POSIX path is accepted unchanged. *)
Lemma try_from_local u :
  local u → no_null u → infer_path_convention u = Some Posix → try_from u = Ok u.
Proof.
  intros Hl Hn Hc. apply local_posix in Hc; [|done..].
  pose proof (no_null_path u Hl) as Hnull. destruct (local_segs u Hl) as (s & Hp & Hs & Hsegs).
  destruct Hl as (Hsc & Hus & Hpw & Hport & Hhost & Hq & Hf).
  unfold try_from, validate_file_url, validate_common_known_uri.
  rewrite Hsc, bool_decide_eq_true_2 by done. cbn [negb]. rewrite Hus, Hpw, Hport, Hq, Hf.
  cbn [nonempty is_empty negb orb is_none rbind].
  rewrite (bool_decide_eq_false_2 (0%N ∈ _)) by (by apply Hnull). cbn [andb rbind]. f_equal.
  unfold without_localhost_authority. rewrite Hhost. cbv iota beta.
  rewrite bool_decide_eq_false_2 by done.
  unfold with_normalized_windows_drive_letter. rewrite Hhost, Hp. cbn [is_none negb position].
  cbn [N.eqb Pos.eqb negb]. destruct (position _ s) as [n|] eqn:Hpos; [|done]. cbn [fmap option_fmap option_map drop].
  rewrite (first_segment_position s n Hpos). unfold first_segment in Hc. rewrite Hsegs, Hs in Hc.
  cbn [mbind option_bind] in Hc. destruct (List.find _ _) as [d|]; [|done]. simpl in Hc.
  rewrite Hc. by destruct d.
Qed.

(** ** Opaque fallbacks *)

Lemma opaque_uri b :
  b ≠ [] →
  local (from_opaque_path_bytes b) ∧ opaque_fallback_bytes (from_opaque_path_bytes b) = Some b.
Proof.
  intros Hb. destruct (parse_opaque b) as (u & Hparse & Hl & Hp).
  assert (decode_bad_path_uri u = Some b) as Hbad.
  { unfold decode_bad_path_uri. rewrite local_as_str, Hp by done.
    rewrite app_assoc, (strip_prefix_app BAD_PATH_URI_PREFIX). cbn [mbind option_bind].
    destruct (base64_encode b) as [|c e] eqn:He; [by apply base64_empty in He|].
    rewrite <- He. unfold contains_char. rewrite bool_decide_eq_false_2 by apply base64_alphabet.
    rewrite base64_inverse. rewrite He at 1. cbn [is_empty orb mbind option_bind].
    by rewrite bool_decide_eq_true_2. }
  assert (try_from u = Ok u) as Htry.
  { pose proof Hl as (Hsc & Hus & Hpw & Hport & Hhost & Hq & Hf).
    unfold try_from, validate_file_url, validate_common_known_uri.
    rewrite Hsc, bool_decide_eq_true_2 by done. cbn [negb]. rewrite Hus, Hpw, Hport, Hq, Hf, Hbad.
    cbn [nonempty is_empty negb orb is_none rbind]. rewrite andb_false_r. cbn [rbind]. f_equal.
    unfold without_localhost_authority. rewrite Hhost, bool_decide_eq_false_2 by done.
    unfold with_normalized_windows_drive_letter. rewrite Hhost, Hp. done. }
  unfold from_opaque_path_bytes, parse_uri. rewrite Hparse. cbn [rmap_err rbind]. by rewrite Htry.
Qed.

Lemma opaque_convention b :
  b ≠ [] → infer_path_convention (from_opaque_path_bytes b) = infer_opaque_path_convention b.
Proof. intros Hb. unfold infer_path_convention. by rewrite (proj2 (opaque_uri b Hb)). Qed.

Lemma encode_slash s : encode (47%N :: s) = 47%N :: encode s.
Proof using Type. done. Qed.

(** A POSIX path text becomes a URI that is inferred to be a POSIX path
    again: where the ordinary spelling would read as a Windows path, the bytes
    are kept in an opaque URI. *)
Theorem posix_text_stays_posix (path : str) u :
  from_absolute_native_path path Posix = Some u → infer_path_convention u = Some Posix.
Proof.
  unfold from_absolute_native_path. intros (uri & Hparse & Hu)%bind_Some.
  assert (∃ rest, path = 47%N :: rest) as [rest ->].
  { unfold parse_posix_path in Hparse. apply bind_Some in Hparse as (rest & Hrest & _).
    apply strip_prefix_Some in Hrest. by exists rest. }
  case_match eqn:Hok; simplify_eq; [by bool_prop|].
  rewrite encode_slash, opaque_convention by done. done.
Qed.

(** ** Joining POSIX paths *)

(** After [pop_if_empty]: the root, or segments that are not empty. *)
Definition solid u : Prop := segs u = [[]] ∨ (segs u ≠ [] ∧ Forall (λ s, s ≠ []) (segs u)).

(** At most the last segment is empty. *)
Definition tidy u : Prop :=
  ∃ ns, Forall (λ s, s ≠ []) ns ∧ (segs u = ns ++ [[]] ∨ (ns ≠ [] ∧ segs u = ns)).

Lemma filter_solid ns : Forall (λ s : str, s ≠ []) ns → List.filter nonempty ns = ns.
Proof using Type.
  induction 1 as [|s ns Hs _ IH]; [done|]. simpl. destruct s; [done|]. simpl. by rewrite IH.
Qed.

Lemma names_segs u : names u = decode_binary <$> List.filter nonempty (segs u).
Proof using Type. done. Qed.

Lemma filter_snoc_empty ns : List.filter nonempty (ns ++ [[]]) = List.filter nonempty ns.
Proof using Type. by rewrite List.filter_app, app_nil_r. Qed.

Lemma pop_if_empty_solid u :
  local u → tidy u → solid (segments_pop_if_empty u) ∧ names (segments_pop_if_empty u) = names u
  ∧ (no_null u → no_null (segments_pop_if_empty u)).
Proof.
  intros Hl (ns & Hns & Hsegs). unfold solid, no_null. rewrite !names_segs.
  destruct Hsegs as [Hs|[Hne Hs]].
  - rewrite (pop_if_empty_segs u ns []), Hs by done. cbn [is_empty andb].
    destruct ns as [|n ns]; cbn [is_empty negb]; [naive_solver|].
    split_and!; [naive_solver|by rewrite filter_snoc_empty|]. by intros [? _]%Forall_app.
  - destruct (list_snoc_cases ns) as [->|(l & x & ->)]; [done|].
    rewrite (pop_if_empty_segs u l x) by done. apply Forall_app in Hns as Hns'.
    destruct Hns' as [_ [Hx _]%Forall_cons]. rewrite Hs. destruct x; [done|]. cbn [is_empty andb].
    split_and!; naive_solver.
Qed.

(** What the loop of [join] keeps. *)
Definition join_state (st : Url * nat) (ns : list str) : Prop :=
  local st.1 ∧ solid st.1 ∧ no_null st.1 ∧ names st.1 = encode <$> ns ∧ st.2 = length ns
  ∧ Forall (λ n, 47%N ∉ encode n) ns.

Definition plain_segment (s : str) : Prop :=
  s = [] ∨ s = lit "." ∨ s = lit ".." ∨ plain_name s.

Lemma pop_names u x l :
  local u → solid u → no_null u → names u = encode <$> (l ++ [x]) →
  solid (segments_pop u) ∧ no_null (segments_pop u) ∧ names (segments_pop u) = encode <$> l.
Proof.
  intros Hl Hs Hn Hnames. rewrite names_segs in *. destruct Hs as [Hs|[Hne Hs]].
  { rewrite Hs in Hnames. by destruct l. }
  rewrite (filter_solid (segs u)) in Hnames by done.
  destruct (list_snoc_cases (segs u)) as [?|(k & y & Hk)]; [done|].
  unfold solid, no_null in *. rewrite (pop_segs u k y) by done. rewrite Hk in *.
  rewrite !fmap_app in Hnames. apply app_inj_tail in Hnames as [Hnames _].
  apply Forall_app in Hs as [Hs _], Hn as [Hn _]. destruct k as [|a k]; cbn [is_empty].
  - split_and!; [by left| |by destruct l].
    apply Forall_singleton. rewrite decode_nil. apply not_elem_of_nil.
  - split_and!; [by right|done|by rewrite filter_solid].
Qed.

Lemma plain_encode s : plain_name s → 0%N ∉ encode s ∧ 47%N ∉ encode s.
Proof using Type.
  intros (_ & _ & _ & Hs). rewrite Forall_forall in Hs.
  split; intros Hin%encode_ascii; try lia; apply Hs in Hin; lia.
Qed.

Lemma push_names u s ns :
  local u → solid u → no_null u → names u = encode <$> ns → plain_name s →
  solid (segments_push u s) ∧ no_null (segments_push u s)
  ∧ names (segments_push u s) = encode <$> (ns ++ [s]).
Proof.
  intros Hl Hs Hn Hnames Hp. destruct (push_segs u s Hl Hp) as (e & Hne & Hdec & Hsegs).
  pose proof (proj1 (plain_encode s Hp)) as Hz. rewrite <- Hdec in Hz.
  rewrite names_segs in *. unfold solid, no_null in *. rewrite Hsegs, fmap_app, <- Hnames. clear Hsegs.
  destruct Hs as [Hs|[Hne' Hs]].
  - rewrite Hs, bool_decide_eq_true_2 by done.
    split_and!; [right; split; [done|by constructor]|by constructor|].
    rewrite filter_solid by (by constructor). simpl. by rewrite Hdec.
  - rewrite bool_decide_eq_false_2 by (intros Heq; rewrite Heq in Hs; by apply Forall_cons in Hs as [? _]).
    split_and!.
    + right. split; [by destruct (segs u)|]. apply Forall_app. by repeat constructor.
    + apply Forall_app. by repeat constructor.
    + rewrite !filter_solid by (try apply Forall_app; repeat constructor; done).
      rewrite fmap_app. simpl. by rewrite Hdec.
Qed.

Lemma join_component_names st ns c :
  join_state st ns → plain_segment c →
  join_state (join_component 0 st c) (foldl names_step ns (option_list (segment_component c))).
Proof.
  intros (Hl & Hs & Hn & Hnames & Hd & Hsep) Hc. destruct st as [url depth]. simpl in *. subst depth.
  destruct (edit_local url Hl) as (_ & _ & Hpop & Hpush).
  unfold join_component, segment_component. destruct Hc as [->|[->|[->|Hp]]]; try done.
  - change (is_empty (lit "..")) with false. cbn [orb].
    rewrite bool_decide_eq_false_2, bool_decide_eq_true_2 by done.
    change (foldl names_step ns _) with (drop_last ns).
    destruct (list_snoc_cases ns) as [->|(l & x & ->)]; [done|].
    rewrite length_app, drop_last_snoc. cbn [length]. rewrite (proj2 (Nat.ltb_lt _ _)) by lia.
    destruct (pop_names url x l) as (? & ? & ?); [done..|].
    split_and!; try done; [simpl; lia|]. by apply Forall_app in Hsep as [? _].
  - pose proof Hp as (Hne & Hdot & Hdots & _). destruct c; [done|]. cbn [is_empty orb].
    rewrite !bool_decide_eq_false_2 by done.
    change (foldl names_step ns _) with (ns ++ [n :: c]).
    destruct (push_names url (n :: c) ns) as (? & ? & ?); [done..|].
    split_and!; try done; [apply Hpush|rewrite length_app; simpl; lia|].
    apply Forall_app. split; [done|]. by apply Forall_singleton, plain_encode.
Qed.

Lemma join_fold_names cs st ns :
  join_state st ns → Forall plain_segment cs →
  join_state (foldl (join_component 0) st cs) (foldl names_step ns (omap segment_component cs)).
Proof.
  intros Hst Hcs. revert st ns Hst. induction Hcs as [|c cs Hc _ IH]; intros st ns Hst; [done|].
  cbn [foldl]. pose proof (join_component_names st ns c Hst Hc) as Hstep.
  apply IH in Hstep. simpl. by destruct (segment_component c).
Qed.

Lemma lexical_intro u :
  local u → no_null u → infer_path_convention u = Some Posix → Forall (λ n, 47%N ∉ n) (names u) →
  lexical u.
Proof.
  intros Hl Hn Hc Hsep. split; [done|]. unfold lexical_depth, is_opaque, opaque_fallback_bytes.
  rewrite no_null_not_opaque by done. cbn [is_none negb]. rewrite Hc. cbn [mbind option_bind].
  unfold containment_path_segments. destruct (local_segs u Hl) as (s & _ & _ & ->).
  cbn [mbind option_bind]. rewrite names_segs in Hsep.
  destruct (existsb _ _) eqn:He; [|by eexists].
  apply existsb_exists in He as (seg & Hseg & (b & Hb & H47)%existsb_exists).
  rewrite orb_false_r in H47. apply N.eqb_eq in H47 as ->.
  rewrite Forall_fmap, Forall_forall in Hsep. exfalso. apply (Hsep seg); by apply list_elem_of_In.
Qed.

(** A name that reads as a Windows drive. *)
Definition drive_name (n : str) : Prop := ∃ c, encode n = [c; 58%N].

Lemma head_filter_find (l : list str) : head (List.filter nonempty l) = List.find nonempty l.
Proof using Type. induction l as [|x l IH]; simpl; [done|]. by destruct (nonempty x). Qed.

Lemma no_drive_posix u ns :
  local u → no_null u → names u = encode <$> ns → (∀ n, head ns = Some n → ¬ drive_name n) →
  infer_path_convention u = Some Posix.
Proof.
  intros Hl Hn Hnames Hdrive. apply local_posix; [done..|]. unfold first_segment.
  destruct (local_segs u Hl) as (s & _ & _ & ->). cbn [mbind option_bind].
  rewrite <- head_filter_find. rewrite names_segs in Hnames.
  destruct (List.filter nonempty (segs u)) as [|e l]; [done|]. simpl.
  destruct ns as [|n ns]; [done|]. injection Hnames as He _.
  destruct (is_windows_drive_uri_segment e) eqn:Hd; [|done].
  apply decode_drive in Hd as [c Hc]. exfalso. apply (Hdrive n eq_refl). exists c. congruence.
Qed.

(** A POSIX URI with the given names. *)
Definition posix_uri u (ns : list str) : Prop :=
  local u ∧ no_null u ∧ tidy u ∧ lexical u ∧ names u = encode <$> ns.

Lemma lexical_sep u : local u → lexical u → Forall (λ n, 47%N ∉ n) (names u).
Proof.
  intros Hl Hlex. destruct (lexical_facts u Hlex) as (_ & _ & _ & Hc).
  unfold containment_path_segments in Hc. destruct (local_segs u Hl) as (s & _ & _ & Hs).
  rewrite Hs in Hc. cbn [mbind option_bind from_option id] in Hc.
  destruct (existsb _ _) eqn:He; [done|].
  rewrite names_segs, Forall_fmap, Forall_forall. intros seg Hseg%list_elem_of_In Hin.
  apply not_true_iff_false in He. apply He, existsb_exists. exists seg. split; [done|].
  apply existsb_exists. exists 47%N. split; [by apply list_elem_of_In|done].
Qed.

Lemma posix_uri_sep u ns : posix_uri u ns → Forall (λ n, 47%N ∉ encode n) ns.
Proof.
  intros (Hl & _ & _ & Hlex & Hnames). pose proof (lexical_sep u Hl Hlex) as Hsep.
  by rewrite Hnames, Forall_fmap in Hsep.
Qed.

Lemma solid_tidy u : local u → solid u → tidy u.
Proof.
  intros Hl [Hs|[Hne Hs]].
  - exists []. split; [done|]. by left.
  - exists (segs u). split; [done|]. by right.
Qed.

Lemma uri_join_names u ns path :
  posix_uri u ns →
  path ≠ [] → 0%N ∉ path → is_absolute path = false → Forall plain_segment (split_on 47 path) →
  (∀ n, head (foldl names_step ns (components path)) = Some n → ¬ drive_name n) →
  ∃ v, uri_join u path = Ok v ∧ posix_uri v (foldl names_step ns (components path)).
Proof.
  intros Hu Hne Hnull Hrel Hplain Hdrive. pose proof (posix_uri_sep u ns Hu) as Hsep.
  destruct Hu as (Hl & Hn & Ht & Hlex & Hnames). pose proof (proj1 Hlex) as Hc.
  destruct (lexical_facts u Hlex) as (Hop & _ & _).
  unfold uri_join, contains_char. rewrite bool_decide_eq_false_2 by done.
  rewrite (proj2 (is_empty_false path)) by done. rewrite Hc.
  unfold from_absolute_native_path, parse_posix_path.
  destruct (strip_prefix (lit "/") path) eqn:Hsp.
  { apply strip_prefix_Some in Hsp. unfold is_absolute in Hrel. apply not_true_iff_false in Hrel.
    exfalso. apply Hrel, starts_with_spec. by eexists. }
  cbn [mbind option_bind same_drive_text rbind]. rewrite Hop. unfold join_relative.
  cbn [windows_root_relative anchor_depth].
  destruct (pop_if_empty_solid u Hl Ht) as (Hsol & Hnm & Hnn).
  assert (join_state (segments_pop_if_empty u, segment_count u) ns) as Hst.
  { split_and!; try done; [apply (edit_local u Hl)|auto|cbn [fst]; by rewrite Hnm|].
    unfold segment_count. simpl. apply (f_equal length) in Hnames. rewrite names_segs in Hnames.
    by rewrite !length_fmap in Hnames. }
  apply (join_fold_names (split_on 47 path)) in Hst; [|exact Hplain]. rewrite relative_fold in Hst by done.
  destruct (foldl (join_component 0) _ _) as [v d]. destruct Hst as (Hl' & Hs' & Hn' & Hnm' & _ & Hsep').
  cbn [fst] in *. assert (infer_path_convention v = Some Posix) as Hc' by (by eapply no_drive_posix).
  exists v. split; [by apply try_from_local|]. split_and!; try done; [by apply solid_tidy|].
  apply lexical_intro; try done. by rewrite Hnm', Forall_fmap.
Qed.

(** ** Host paths *)

Lemma names_no_null u ns :
  names u = encode <$> ns → Forall (λ n, 0%N ∉ n) ns → no_null u.
Proof.
  intros Hnames Hns. unfold no_null. rewrite names_segs in Hnames. apply Forall_forall. intros s Hs.
  destruct (decide (s = [])) as [->|Hne]; [rewrite decode_nil; apply not_elem_of_nil|].
  assert (decode_binary s ∈ encode <$> ns) as Hin.
  { rewrite <- Hnames. apply list_elem_of_fmap. exists s. split; [done|].
    apply list_elem_of_In, filter_In. split; [by apply list_elem_of_In|by destruct s]. }
  apply list_elem_of_fmap in Hin as (n & -> & Hn). intros H0%encode_ascii; [|lia].
  rewrite Forall_forall in Hns. by apply (Hns n).
Qed.

(** The URI of a normal host path: its names, or its bytes in an opaque URI
    when the first name reads as a drive. *)
Lemma from_abs_path_names ns :
  Forall name_ok ns → Forall (λ n, 0%N ∉ n) ns → (∀ n, head ns = Some n → ¬ drive_name n) →
  local (from_abs_path (abs_of ns)) ∧ no_null (from_abs_path (abs_of ns))
  ∧ lexical (from_abs_path (abs_of ns)) ∧ names (from_abs_path (abs_of ns)) = encode <$> ns
  ∧ url_to_file_path (from_abs_path (abs_of ns)) = Some (abs_of ns).
Proof.
  intros Hok Hnull Hdrive. destruct (from_file_path_some ns Hok) as [u Hu].
  destruct (from_file_path_url ns u Hok Hu) as (Hl & Hnames & Hto).
  pose proof (names_no_null u ns Hnames Hnull) as Hn.
  assert (infer_path_convention u = Some Posix) as Hc by (by eapply no_drive_posix).
  unfold from_abs_path. rewrite Hu, try_from_local by done.
  pose proof Hl as (_ & _ & _ & _ & Hhost & _). rewrite Hhost, Hc.
  rewrite bool_decide_eq_false_2, bool_decide_eq_true_2 by done. cbn [negb andb].
  split_and!; try done. apply lexical_intro; try done. rewrite Hnames, Forall_fmap.
  eapply Forall_impl; [exact Hok|]. intros n (_ & _ & _ & H47) Hin. simpl in Hin.
  apply encode_ascii in Hin; [done|lia].
Qed.

(** A drive in first place makes the URI a Windows one. *)
Lemma drive_first u :
  local u → is_some_and (first_segment u) is_windows_drive_uri_segment = true →
  infer_path_convention u = Some Windows.
Proof.
  intros Hl Hd. unfold infer_path_convention, opaque_fallback_bytes.
  assert (decode_bad_path_uri u = None) as ->; [|by destruct Hl as (_ & _ & _ & _ & -> & _); rewrite Hd].
  unfold decode_bad_path_uri. rewrite local_as_str by done.
  destruct (local_segs u Hl) as (s & Hp & Hs & Hsegs). rewrite Hp.
  destruct (strip_prefix BAD_PATH_URI_PREFIX _) as [e|] eqn:He; [|done].
  apply strip_prefix_Some in He. change BAD_PATH_URI_PREFIX with
    (lit "file://" ++ 47%N :: lit "%00" ++ 47%N :: lit "bad/path/") in He.
  rewrite <- app_assoc in He. apply app_inv_head in He.
  apply (f_equal tail) in He. cbn [tail app] in He. subst s.
  unfold first_segment in Hd. rewrite Hsegs, Hs, <- app_assoc in Hd. cbn [app mbind option_bind] in Hd.
  rewrite split_on_app_nosep in Hd by (vm_compute; set_solver). done.
Qed.

Lemma first_letter s m L :
  position (λ c, negb (c =? 47)%N) s = Some m → L ≠ 47%N →
  ∃ letter l, List.find nonempty (split_on 47 s) = Some (letter :: l)
    ∧ s = take m s ++ letter :: drop (S m) s
    ∧ List.find nonempty (split_on 47 (take m s ++ L :: drop (S m) s)) = Some (L :: l).
Proof using Type.
  intros Hm HL. revert m Hm; induction s as [|c s IH]; intros m; simpl; [done|].
  destruct (N.eqb_spec c 47) as [->|Hc]; simpl.
  - intros (k & Hk & ->)%fmap_Some. destruct (IH k Hk) as (letter & l & ? & ? & ?).
    exists letter, l. simpl. split_and!; [done|by f_equal|done].
  - intros [= <-]. cbn [take drop app split_on]. rewrite (proj2 (N.eqb_neq L 47)) by done.
    destruct (split_on 47 s) as [|l ls] eqn:E; [by apply split_on_nonempty in E|]. exists c, l.
    rewrite drop_0, E. by split_and!.
Qed.

Lemma drive_letter_case c L l :
  is_windows_drive_uri_segment (c :: l) = true → is_ascii_alphabetic L = true →
  is_windows_drive_uri_segment (L :: l) = true.
Proof using Type.
  unfold is_windows_drive_uri_segment. intros H HL.
  destruct l as [|? [|? [|? [|]]]]; try done; by rewrite HL, !andb_true_iff in *; destruct_and?.
Qed.

Lemma normalized_drive u :
  local u → is_some_and (first_segment u) is_windows_drive_uri_segment = true →
  infer_path_convention (with_normalized_windows_drive_letter u) = Some Windows.
Proof.
  intros Hl Hd. pose proof (drive_first u Hl Hd) as Hw.
  destruct (local_segs u Hl) as (s & Hp & Hs & Hsegs). pose proof Hl as (_ & _ & _ & _ & Hhost & _).
  unfold with_normalized_windows_drive_letter. rewrite Hhost. cbn [is_none negb].
  unfold first_segment in Hd. rewrite Hsegs, Hs in Hd. cbn [mbind option_bind] in Hd.
  rewrite Hp. cbn [position]. cbn [N.eqb Pos.eqb negb].
  destruct (position _ s) as [m|] eqn:Hm; [|done]. cbn [fmap option_fmap option_map drop take].
  rewrite (first_segment_position s m Hm).
  destruct (first_letter s m 65%N Hm) as (letter & l & Hf & Hsplit & _); [done|].
  rewrite Hf in *. cbn [is_some_and] in Hd. rewrite Hd. cbn [negb orb].
  destruct (is_ascii_uppercase letter) eqn:Hup; [done|].
  assert (is_ascii_lowercase letter = true) as Hlow.
  { destruct l as [|? [|? [|? [|]]]]; simpl in Hd; try done; unfold is_ascii_alphabetic in Hd;
      rewrite !andb_true_iff, Hup in Hd; by destruct_and?. }
  assert ((letter - 32)%N ≠ 47%N ∧ is_ascii_alphabetic (letter - 32) = true) as [H47 Halpha].
  { unfold is_ascii_lowercase, is_ascii_alphabetic, is_ascii_uppercase in *. bool_prop.
    rewrite !N.leb_le in *. split; [lia|]. apply orb_true_iff. left.
    apply andb_true_iff. rewrite !N.leb_le. lia. }
  destruct (set_path_upper u (47%N :: take m s) letter (drop (S m) s) Hl) as [Hl' Hp'];
    [by rewrite Hp; simpl; f_equal|done|].
  apply drive_first; [done|]. destruct (local_segs _ Hl') as (s' & Hps & Hs' & Hsegs').
  rewrite Hp' in Hps. injection Hps as <-. unfold first_segment. rewrite Hsegs', Hs'.
  cbn [mbind option_bind]. destruct (first_letter s m _ Hm H47) as (letter' & l' & Hf' & _ & Hf2).
  rewrite Hf' in Hf. simplify_eq. rewrite Hf2. cbn [is_some_and]. by eapply drive_letter_case.
Qed.

Lemma elem_of_abs_of c ns n : c ∈ n → n ∈ ns → c ∈ abs_of ns.
Proof using Type.
  intros Hc Hn. clear -Hc Hn. unfold abs_of. apply elem_of_app. right.
  induction ns as [|x ns IH]; [set_solver|]. destruct ns as [|y ns]; [set_solver|].
  rewrite join_cons by done. rewrite !elem_of_app. set_solver.
Qed.

(** The URI of a host path spells its names, or keeps its bytes. *)
Lemma from_abs_path_cases ns :
  Forall name_ok ns → 0%N ∉ abs_of ns →
  from_abs_path (abs_of ns) = from_opaque_path_bytes (encode (abs_of ns))
  ∨ (local (from_abs_path (abs_of ns)) ∧ no_null (from_abs_path (abs_of ns))
     ∧ lexical (from_abs_path (abs_of ns)) ∧ names (from_abs_path (abs_of ns)) = encode <$> ns
     ∧ url_to_file_path (from_abs_path (abs_of ns)) = Some (abs_of ns)).
Proof.
  intros Hok Hnull. destruct (from_file_path_some ns Hok) as [u Hu].
  destruct (from_file_path_url ns u Hok Hu) as (Hl & Hnames & Hto).
  assert (Forall (λ n, 0%N ∉ n) ns) as Hns
    by (apply Forall_forall; intros n Hn H0; by eapply Hnull, elem_of_abs_of).
  pose proof (names_no_null u ns Hnames Hns) as Hn. pose proof Hl as (_ & _ & _ & _ & Hh & _).
  destruct (is_some_and (first_segment u) is_windows_drive_uri_segment) eqn:Hd; [left|right].
  - unfold from_abs_path. rewrite Hu. destruct (try_from u) as [uri|] eqn:Htry; [|done].
    assert (uri = with_normalized_windows_drive_letter u) as ->.
    { unfold try_from, without_localhost_authority in Htry. case_match; [done|].
      destruct (validate_file_url u); simplify_eq/=. by rewrite Hh. }
    rewrite normalized_drive by done. by rewrite andb_false_r.
  - apply local_posix in Hd as Hc; [|done..].
    assert (from_abs_path (abs_of ns) = u) as ->.
    { unfold from_abs_path. rewrite Hu, try_from_local, Hh, Hc by done. done. }
    split_and!; try done. apply lexical_intro; try done. rewrite Hnames, Forall_fmap.
    eapply Forall_impl; [exact Hok|]. intros n (_ & _ & _ & H47) Hin. simpl in Hin.
    apply encode_ascii in Hin; [done|lia].
Qed.

Lemma from_abs_path_unambiguous p :
  normal_abs p → 0%N ∉ p →
  is_Some (lexical_depth (from_abs_path p)) ∨ is_opaque (from_abs_path p) = true.
Proof.
  intros (ns & Hok & ->) Hnull.
  destruct (from_abs_path_cases ns Hok Hnull) as [->|(_ & _ & [_ ?] & _)]; [right|by left].
  unfold is_opaque. by rewrite (proj2 (opaque_uri (encode (abs_of ns)) ltac:(done))).
Qed.

Lemma checked_normal home p : normal_abs p → from_absolute_path_checked home p = Ok p.
Proof using Type.
  intros Hnorm. pose proof (normal_absolute _ Hnorm) as Ha.
  unfold from_absolute_path_checked, absolutize_from, path_with_base.
  rewrite expand_absolute, Ha by done. simpl. by rewrite normalize_normal.
Qed.

Lemma to_from_abs_path (home : option str) (p : str) :
  normal_abs p → Forall scalar p → 0%N ∉ p → to_abs_path home (from_abs_path p) = Ok p.
Proof.
  intros Hnorm Hsc Hnull. pose proof (checked_normal home p Hnorm) as Hchk.
  destruct Hnorm as (ns & Hok & ->).
  destruct (from_abs_path_cases ns Hok Hnull) as [Heq|(Hl & Hn & Hlex & _ & Hto)].
  - destruct (opaque_uri (encode (abs_of ns)) ltac:(done)) as [_ Hb].
    unfold to_abs_path. rewrite Heq, opaque_convention by done. unfold opaque_fallback_bytes in Hb.
    rewrite Hb. change (infer_opaque_path_convention (encode (abs_of ns))) with (Some Posix).
    cbn [native]. rewrite bool_decide_eq_true_2 by done. cbn [negb].
    pose proof (from_utf8_encode (abs_of ns) [] Hsc ltac:(by left)) as Hutf. rewrite app_nil_r in Hutf.
    rewrite Hutf. cbn [is_empty]. rewrite Hchk, Heq. unfold uri_eq. by rewrite bool_decide_eq_true_2.
  - unfold to_abs_path. rewrite (proj1 Hlex), no_null_not_opaque, Hto by done. cbn [native].
    rewrite bool_decide_eq_true_2 by done. cbn [negb]. by rewrite Hchk.
Qed.

(** C34: Every normal host path (valid UTF-8, no null character) survives the
    way to a URI and back, also where its bytes have to be kept in an opaque
    URI; so different paths have different URIs. *)
Theorem abs_path_roundtrip (home : option str) (p q : str) :
  normal_abs p → normal_abs q → Forall scalar p → Forall scalar q → 0%N ∉ p → 0%N ∉ q →
  to_abs_path home (from_abs_path p) = Ok p
  ∧ (from_abs_path (Url:=Url) p = from_abs_path q ↔ p = q).
Proof.
  intros. split; [by apply to_from_abs_path|]. split; [|by intros ->]. intros Heq.
  pose proof (to_from_abs_path home p) as Hp. pose proof (to_from_abs_path home q) as Hq.
  rewrite Heq in Hp. rewrite Hq in Hp by done. by injection Hp.
Qed.

(** A device path that is written with slashes loses its convention: the
    UTF-16 bytes of its opaque URI start with the byte of a slash. *)
Theorem slash_device_path_is_posix (path : str) :
  uses_namespace path = true → head path = Some 47%N →
  ∃ u : Url, from_absolute_native_path path Windows = Some u
    ∧ infer_path_convention u = Some Posix.
Proof.
  intros Hns Hhead. destruct path as [|c path]; [done|]. injection Hhead as ->.
  set (full := 47%N :: path) in *.
  assert (normalize_windows_device_path full = None) as Hnorm by done.
  assert (infer_path_convention (Url:=Url) (windows_opaque_path_uri full) = Some Posix) as Hc.
  { unfold windows_opaque_path_uri. rewrite opaque_convention by done. done. }
  exists (windows_opaque_path_uri full). split; [|done].
  unfold from_absolute_native_path, parse_windows_path, parse_unnormalized_windows_path.
  rewrite Hnorm, Hns. cbn [orb mbind option_bind]. by destruct (negb _ && _).
Qed.

Lemma from_abs_path_posix p :
  normal_abs p → infer_path_convention (from_abs_path p) = Some Posix.
Proof.
  intros Hp. unfold from_abs_path.
  assert (infer_path_convention (from_opaque_path_bytes (encode p)) = Some Posix) as Hfall.
  { destruct Hp as (ns & _ & ->). change (abs_of ns) with (47%N :: join (lit "/") ns).
    rewrite encode_slash, opaque_convention by done. done. }
  repeat case_match; try done. by bool_prop.
Qed.

(** A URI that converts to a host path has the names of that path. *)
Lemma to_abs_path_names home u p :
  local u → lexical u → to_abs_path home u = Ok p →
  ∃ ns, Forall name_ok ns ∧ p = abs_of ns ∧ names u = encode <$> ns.
Proof.
  intros Hl Hlex. destruct (lexical_facts u Hlex) as (Hop & _).
  unfold to_abs_path. rewrite (proj1 Hlex). cbn [native].
  rewrite bool_decide_eq_true_2 by done. cbn [negb].
  apply is_opaque_false in Hop. unfold opaque_fallback_bytes in Hop. rewrite Hop.
  destruct (url_to_file_path u) as [q|] eqn:Hq; [|done].
  destruct (to_file_path_names u q Hl (lexical_sep u Hl Hlex) Hq) as (ns & Hok & Hcomp & Hnames).
  assert (is_absolute q = true) as Ha.
  { unfold is_absolute, components in *. destruct (starts_with q _); [done|]. simpl in Hcomp.
    case_bool_decide; simplify_eq/=. apply (f_equal head) in Hcomp. simpl in Hcomp.
    destruct (omap segment_component (split_on 47 q)) as [|c l] eqn:Ho; [done|]. simplify_eq/=.
    assert (RootDir ∈ omap segment_component (split_on 47 q)) as Hin by (rewrite Ho; set_solver).
    apply list_elem_of_omap in Hin as (seg & _ & Hseg). unfold segment_component in Hseg.
    repeat case_match; simplify_eq. }
  unfold from_absolute_path_checked. rewrite expand_absolute, Ha by done. cbn [negb rmap_err].
  intros [= <-]. exists ns. split; [done|]. split; [|done].
  unfold absolutize_from, path_with_base. rewrite Ha.
  destruct (normalize_absolute q Ha) as [-> _]. by rewrite Hcomp, names_of_fold.
Qed.

(** Joining one plain name goes one level down. *)
Lemma join_descendant_name u ns name :
  posix_uri u ns → plain_name name → is_absolute name = false →
  (∀ n, head (ns ++ [name]) = Some n → ¬ drive_name n) →
  ∃ v, join_descendant u name = Ok v ∧ posix_uri v (ns ++ [name]).
Proof.
  intros Hu Hp Hrel Hdrive. pose proof Hp as (Hne & Hdot & Hdots & Hchars).
  assert (47%N ∉ name ∧ 0%N ∉ name) as [H47 H0].
  { rewrite Forall_forall in Hchars. split; intros Hin%Hchars; lia. }
  assert (components name = [Normal name]) as Hcomp.
  { unfold components. unfold is_absolute in Hrel. rewrite Hrel, split_on_nosep by done.
    simpl. rewrite bool_decide_eq_false_2 by congruence.
    unfold segment_component. destruct name; [done|]. by rewrite !bool_decide_eq_false_2. }
  destruct (uri_join_names u ns name) as (v & Hj & Hv); try done.
  { rewrite split_on_nosep by done. apply Forall_singleton. by do 3 right. }
  { by rewrite Hcomp. }
  rewrite Hcomp in Hv. exists v. split; [|done]. unfold join_descendant. rewrite Hj. cbn [rbind].
  destruct Hu as (_ & _ & _ & Hlex & Hnames), Hv as (_ & _ & _ & Hlex' & Hnames').
  unfold is_absolute in Hrel. rewrite Hrel, (proj1 Hlex). cbn [orb].
  rewrite bool_decide_eq_false_2 by done. cbn [andb orb].
  assert (uri_starts_with v u = true) as ->; [|done].
  apply starts_with_prefix; [done..|]. rewrite Hnames, Hnames'. simpl. rewrite fmap_app.
  by apply prefix_app_r.
Qed.

End laws.
