(* ===== verification/SandboxPolicy.v ===== *)
(** * File-system sandbox policies

    [codex-rs/protocol/src/permissions.rs]: which access a policy gives to a
    path, which metadata stays protected, the matcher of denied reads, and the
    operations that derive one policy from another.  The queries of the host
    (home, current and temporary directories, what is on disk) and the glob
    matcher are parameters. *)

From S2P Require Import Prelude RustStr Utf8 UnixPath Permissions ExecFs.
From S2P Require Import AbsolutePath PathUri.

#[local] Arguments lit : simpl never.

(** What the code asks the host for. *)
Record Host := {
  host_home : option str;
  host_cwd : result str io_error;
  host_tmpdir : option str;
  host_is_dir : str → bool;
  host_is_file : str → bool;
  host_exists : str → bool;
  host_read : str → result str io_error;
  host_canonicalize : str → result str io_error;
  host_symlink : str → result bool io_error;
}.

Definition PROTECTED_METADATA_PATH_NAMES : list str := [lit ".git"; lit ".agents"; lit ".codex"].

Definition is_protected_metadata_name (name : str) : bool :=
  existsb (λ metadata_name, bool_decide (name = metadata_name)) PROTECTED_METADATA_PATH_NAMES.

Definition PROJECT_ROOTS_GLOB_PATTERN_PREFIX : str := lit "codex-project-roots://".

Definition project_roots_glob_pattern (subpath : str) : str :=
  PROJECT_ROOTS_GLOB_PATTERN_PREFIX ++ subpath.

Definition parse_project_roots_glob_pattern (pattern : str) : option str :=
  strip_prefix PROJECT_ROOTS_GLOB_PATTERN_PREFIX pattern.

(** [Iterator::find_map] and [Iterator::max_by_key] (the last maximum). *)
Fixpoint find_map_opt {A B} (f : A → option B) (l : list A) : option B :=
  match l with
  | [] => None
  | x :: l => match f x with Some y => Some y | None => find_map_opt f l end
  end.

Definition keep_max {A} (key_le : A → A → bool) (best : option A) (x : A) : option A :=
  match best with
  | Some b => if key_le b x then Some x else Some b
  | None => Some x
  end.
Definition max_by {A} (key_le : A → A → bool) (l : list A) : option A :=
  foldl (keep_max key_le) None l.

(** The derived order on [(depth, access)]. *)
Definition specificity_le {A} (a b : A * FileSystemAccessMode * nat) : bool :=
  let '(_, access_a, depth_a) := a in
  let '(_, access_b, depth_b) := b in
  (depth_a <? depth_b) || ((depth_a =? depth_b) && (access_rank access_a <=? access_rank access_b)).

Record FileSystemSandboxPolicyContext (Url : Type) := {
  ctx_cwd : Url;
  ctx_workspace_roots : list Url;
  ctx_user_home_dir : option Url;
  ctx_temporary_directories : option (list Url);
}.
Arguments ctx_cwd {Url}.
Arguments ctx_workspace_roots {Url}.
Arguments ctx_user_home_dir {Url}.
Arguments ctx_temporary_directories {Url}.

Inductive InvalidDenyReadGlobBehavior := FailClosed | ReturnError.

Definition ok {A E} (r : result A E) : option A :=
  match r with Ok a => Some a | Err _ => None end.

Section sandbox_policy.
Context {Url : Type} `{!EqDecision Url} `{!UrlOps Url}.
Abbreviation policy := (FileSystemSandboxPolicy Url).
Abbreviation entry := (FileSystemSandboxEntry Url).
Abbreviation context := (FileSystemSandboxPolicyContext Url).
Implicit Types (self : policy) (e : entry) (ctx : context) (path root : Url).

(** Derived equality of entries: URIs are compared by [uri_eq]. *)
Definition fs_path_eq (a b : FileSystemPath Url) : bool :=
  match a, b with
  | PathEntry a, PathEntry b => uri_eq a b
  | GlobPattern a, GlobPattern b => bool_decide (a = b)
  | Special a, Special b => bool_decide (a = b)
  | _, _ => false
  end.
Definition entry_eq (a b : entry) : bool :=
  fs_path_eq (entry_path a) (entry_path b) && bool_decide (access a = access b)
  && bool_decide (missing_path_behavior a = missing_path_behavior b).

Definition is_deny (m : FileSystemAccessMode) : bool := bool_decide (m = Deny).

(** ** The whole disk *)

Definition has_root_access self (predicate : FileSystemAccessMode → bool) : bool :=
  is_restricted self
  && existsb (λ e, match entry_path e with Special Root => predicate (access e) | _ => false end)
       (fs_entries self).

(** On a Unix host every denied entry restricts reads. *)
Definition has_denied_read_restrictions self : bool :=
  is_restricted self && existsb (λ e, is_deny (access e)) (fs_entries self).

Definition special_paths_share_target (a b : FileSystemSpecialPath) : bool :=
  match a, b with
  | Root, Root | Minimal, Minimal | Tmpdir, Tmpdir | SlashTmp, SlashTmp => true
  | ProjectRoots a, ProjectRoots b => bool_decide (a = b)
  | Unknown a sub_a, Unknown b sub_b =>
      bool_decide (a = b) && bool_decide (sub_a = sub_b)
  | _, _ => false
  end.

Definition special_path_matches_absolute_path (value : FileSystemSpecialPath) (p : str) : bool :=
  match value with
  | Root => is_none (path_parent_of p)
  | SlashTmp => path_eq p (lit "/tmp")
  | _ => false
  end.

Context (h : Host).

Definition file_system_paths_share_target (a b : FileSystemPath Url) : bool :=
  match a, b with
  | PathEntry a, PathEntry b => uri_eq a b
  | Special a, Special b => special_paths_share_target a b
  | PathEntry path, Special value | Special value, PathEntry path =>
      is_some_and (ok (to_abs_path (host_home h) path)) (special_path_matches_absolute_path value)
  | GlobPattern a, GlobPattern b => bool_decide (a = b)
  | GlobPattern _, _ | _, GlobPattern _ => false
  end.

Definition has_same_target_write_override self e : bool :=
  existsb (λ candidate,
    can_write (access candidate)
    && (access_rank (access e) <? access_rank (access candidate))
    && file_system_paths_share_target (entry_path candidate) (entry_path e)) (fs_entries self).

Definition narrows_write self e : bool :=
  if can_write (access e) then false
  else
    match entry_path e with
    | PathEntry _ => negb (has_same_target_write_override self e)
    | GlobPattern _ => true
    | Special Root => is_deny (access e)
    | Special (Minimal | Unknown _ _) => false
    | Special (ProjectRoots _ | Tmpdir | SlashTmp) => negb (has_same_target_write_override self e)
    end.

Definition has_write_narrowing_entries self : bool :=
  is_restricted self && existsb (narrows_write self) (fs_entries self).

Definition has_full_disk_read_access self : bool :=
  match fs_kind self with
  | Unrestricted | ExternalSandbox => true
  | Restricted => has_root_access self can_read && negb (has_denied_read_restrictions self)
  end.

Definition has_full_disk_write_access self : bool :=
  match fs_kind self with
  | Unrestricted | ExternalSandbox => true
  | Restricted => has_root_access self can_write && negb (has_write_narrowing_entries self)
  end.

Definition include_platform_defaults self : bool :=
  negb (has_full_disk_read_access self) && is_restricted self
  && existsb (λ e, match entry_path e with Special Minimal => can_read (access e) | _ => false end)
       (fs_entries self).

(** ** Resolving entries *)

Definition file_system_root ctx : option Url :=
  _ ← lexical_depth (ctx_cwd ctx);
  last (uri_ancestors (ctx_cwd ctx)).

(** The roots one entry stands for. *)
Definition entry_roots ctx (p : FileSystemPath Url) : list Url :=
  match p with
  | PathEntry path => [path]
  | GlobPattern _ => []
  | Special value =>
      match value with
      | Root => option_list (file_system_root ctx)
      | ProjectRoots subpath =>
          omap (λ root, match subpath with
                        | Some subpath => ok (uri_join root subpath)
                        | None => Some root
                        end) (ctx_workspace_roots ctx)
      | Tmpdir => default [] (ctx_temporary_directories ctx)
      | SlashTmp =>
          if bool_decide (infer_path_convention (ctx_cwd ctx) = Some Posix)
          then option_list (ok (uri_join (ctx_cwd ctx) (lit "/tmp"))) else []
      | Minimal | Unknown _ _ => []
      end
  end.

Definition resolved_entry ctx e : list (Url * FileSystemAccessMode) :=
  (λ path, (path, access e)) <$>
    List.filter (λ path, bool_decide (infer_path_convention path
                                      = infer_path_convention (ctx_cwd ctx)))
      (entry_roots ctx (entry_path e)).

Definition resolved_entries self ctx : list (Url * FileSystemAccessMode) :=
  mjoin (resolved_entry ctx <$> fs_entries self).

(** The entries with their depths; [None] when one has ambiguous components. *)
Fixpoint with_depths (entries : list (Url * FileSystemAccessMode))
    : option (list (Url * FileSystemAccessMode * nat)) :=
  match entries with
  | [] => Some []
  | (root, access) :: entries =>
      match lexical_depth root with
      | Some depth => cons (root, access, depth) <$> with_depths entries
      | None => if is_opaque root then with_depths entries else None
      end
  end.

(** A path of the context's convention with unambiguous components. *)
Definition comparable path ctx : bool :=
  match infer_path_convention (ctx_cwd ctx) with
  | None => false
  | Some convention =>
      bool_decide (infer_path_convention path = Some convention)
      && negb (is_none (lexical_depth path)) && negb (is_none (lexical_depth (ctx_cwd ctx)))
  end.

Definition resolve_access self path ctx : FileSystemAccessMode :=
  match fs_kind self with
  | Unrestricted | ExternalSandbox => Write
  | Restricted =>
      if negb (comparable path ctx) then Deny
      else
        match with_depths (resolved_entries self ctx) with
        | None => Deny
        | Some entries =>
            match max_by specificity_le
                    (List.filter (λ '(root, _, _), uri_starts_with path root) entries) with
            | Some (_, access, _) => access
            | None => Deny
            end
        end
  end.

(** ** Protected metadata *)

(** The first writable root and metadata name that [path] is under. *)
Definition protecting_root path (entries : list (Url * FileSystemAccessMode))
    : option (Url * str) :=
  find_map_opt (λ '(root, _),
    find_map_opt (λ metadata_name,
      protected ← ok (join_descendant root metadata_name);
      if uri_starts_with path protected then Some (protected, metadata_name) else None)
      PROTECTED_METADATA_PATH_NAMES)
    (List.filter (λ '(_, access), can_write access) entries).

Definition metadata_write_denial self path ctx : option str :=
  if negb (is_restricted self) then None
  else
    let entries := resolved_entries self ctx in
    '(protected, metadata_name) ← protecting_root path entries;
    if existsb (λ '(root, access),
         can_write access && uri_starts_with path root && uri_starts_with root protected) entries
    then None else Some metadata_name.

Definition can_write_path self path ctx : bool :=
  can_write (resolve_access self path ctx)
  && (has_full_disk_write_access self || is_none (metadata_write_denial self path ctx)).

(** ** Host paths *)

Definition absolute (p : str) : option str :=
  ok (from_absolute_path (host_home h) (host_cwd h) p).

Definition host_join (self p : str) : str := abs_join (host_home h) self p.

Definition resolve_candidate_path (p cwd : str) : option str :=
  if is_absolute p then absolute p
  else cwd ← absolute cwd; Some (host_join cwd p).

Definition local_temporary_directories : list Url :=
  match host_tmpdir h with
  | None | Some [] => []
  | Some tmpdir => option_list (from_abs_path <$> absolute tmpdir)
  end.

Definition local_context (cwd : str) : context :=
  {| ctx_cwd := from_abs_path cwd; ctx_workspace_roots := [from_abs_path cwd];
     ctx_user_home_dir := ok (from_host_native_path (host_home h) (lit "~"));
     ctx_temporary_directories := Some local_temporary_directories |}.

Definition with_local_policy_context {T} (p cwd : str) (evaluate : Url → context → T) : option T :=
  cwd ← absolute cwd;
  p ← resolve_candidate_path p cwd;
  Some (evaluate (from_abs_path p) (local_context cwd)).

Definition resolve_access_with_cwd self (p cwd : str) : FileSystemAccessMode :=
  default Deny (with_local_policy_context p cwd (resolve_access self)).

Definition can_read_path_with_cwd self (p cwd : str) : bool :=
  can_read (resolve_access_with_cwd self p cwd).

Definition can_write_path_with_cwd self (p cwd : str) : bool :=
  default false (with_local_policy_context p cwd (can_write_path self)).

Definition forbidden_agent_metadata_write (p cwd : str) self : option str :=
  if negb (is_restricted self) then None
  else
    denial ← with_local_policy_context p cwd (λ path ctx,
      name ← metadata_write_denial self path ctx;
      if negb (can_write_path self path ctx) then Some name else None);
    denial.

(** The source panics where the default is; a working directory has a root and
    the default is never used ([root_of_cwd]). *)
Definition absolute_root_path_for_cwd (cwd : str) : str :=
  default (lit "/") (last (path_ancestors cwd) ≫= absolute).

Definition resolve_file_system_special_path (value : FileSystemSpecialPath) (cwd : option str)
    : option str :=
  match value with
  | Root | Minimal | Unknown _ _ => None
  | ProjectRoots subpath =>
      cwd ← cwd;
      match subpath with
      | Some subpath => Some (resolve_path_against_base (host_home h) subpath cwd)
      | None => Some cwd
      end
  | Tmpdir => match host_tmpdir h with None | Some [] => None | Some tmpdir => absolute tmpdir end
  | SlashTmp =>
      slash_tmp ← absolute (lit "/tmp");
      if host_is_dir h slash_tmp then Some slash_tmp else None
  end.

Definition resolve_file_system_path (p : FileSystemPath Url) (cwd : option str) : option str :=
  match p with
  | PathEntry path => ok (to_abs_path (host_home h) path)
  | GlobPattern _ => None
  | Special value => resolve_file_system_special_path value cwd
  end.

Definition resolve_entry_path (p : FileSystemPath Url) (cwd : option str) : option str :=
  match p with
  | Special Root => absolute_root_path_for_cwd <$> cwd
  | _ => resolve_file_system_path p cwd
  end.

Definition resolved_entries_with_cwd self (cwd : str) : list (str * FileSystemAccessMode) :=
  let cwd_absolute := absolute cwd in
  omap (λ e, (λ p, (p, access e)) <$> resolve_entry_path (entry_path e) cwd_absolute)
    (fs_entries self).

Definition has_explicit_non_write_entry_for_path_with_cwd self (p cwd : str) : bool :=
  match resolve_candidate_path p cwd with
  | None => false
  | Some p =>
      existsb (λ e, negb (skips_missing_path e) && negb (can_write (access e))
                    && bool_decide (resolve_entry_path (entry_path e) (absolute cwd) = Some p))
        (fs_entries self)
  end.

Definition has_writable_roots_with_cwd self (cwd : str) : bool :=
  negb (has_full_disk_write_access self)
  && existsb (λ '(p, access), can_write access && can_write_path_with_cwd self p cwd)
       (resolved_entries_with_cwd self cwd).

(** ** Denied reads *)

Section globs.
(** [globset]: building a matcher with the options of [build_glob_matcher]
    (literal separators; backslash escapes on POSIX, case folding on Windows)
    and matching the bytes of a path. *)
Context {Glob : Type} (glob_build : PathConvention → str → result Glob str)
  (glob_match : Glob → bytes → bool).

Definition build_glob_matcher (pattern : str) (convention : PathConvention) : result Glob str :=
  glob_build convention
    (match convention with Windows => slashes pattern | Posix => pattern end).

(** The pattern of one denied glob entry, resolved against the executor. *)
Definition deny_read_glob ctx (pattern : str) : result str str :=
  let is_windows := bool_decide (infer_path_convention (ctx_cwd ctx) = Some Windows) in
  let home_relative :=
    match strip_prefix (lit "~/") pattern with
    | Some suffix => Some suffix
    | None => if is_windows then strip_prefix (lit "~\") pattern else None
    end in
  let? '(root, pattern) :=
    match home_relative with
    | Some suffix =>
        match ctx_user_home_dir ctx with
        | Some home =>
            Ok (home, trim_start_matches (λ c, (c =? 47)%N || (is_windows && (c =? 92)%N)) suffix)
        | None =>
            Err (lit "unable to resolve deny-read glob pattern `" ++ pattern
                 ++ lit "` without executor home")
        end
    | None => Ok (ctx_cwd ctx, pattern)
    end in
  match uri_join root pattern with
  | Ok path => Ok (inferred_native_path_string path)
  | Err _ => Err (lit "unable to resolve deny-read glob pattern `" ++ pattern ++ lit "`")
  end.

Definition deny_read_globs self ctx : result (list str) str :=
  rmapM (deny_read_glob ctx)
    (omap (λ e, match entry_path e with
                | GlobPattern pattern => if is_deny (access e) then Some pattern else None
                | _ => None
                end) (fs_entries self)).

(** The loop that builds the matchers. *)
Fixpoint build_matchers (behavior : InvalidDenyReadGlobBehavior) (convention : PathConvention)
    (patterns : list str) : result (list Glob * bool) str :=
  match patterns with
  | [] => Ok ([], false)
  | pattern :: patterns =>
      match build_glob_matcher pattern convention with
      | Ok matcher =>
          let? '(matchers, invalid_pattern) := build_matchers behavior convention patterns in
          Ok (matcher :: matchers, invalid_pattern)
      | Err err =>
          match behavior with
          | FailClosed =>
              let? '(matchers, _) := build_matchers behavior convention patterns in
              Ok (matchers, true)
          | ReturnError =>
              Err (lit "invalid deny-read glob pattern `" ++ pattern ++ lit "`: " ++ err)
          end
      end
  end.

(** Both URIs contain each other. *)
Definition same_location (a b : Url) : bool := uri_starts_with a b && uri_starts_with b a.

Definition denied_roots self ctx : list Url :=
  fst <$> List.filter (λ '(root, access),
    is_deny access && negb (is_some_and (file_system_root ctx) (same_location root)))
    (resolved_entries self ctx).

Definition prepare_deny_read_matcher self ctx (behavior : InvalidDenyReadGlobBehavior)
    : result (list Url * list Glob * bool) str :=
  match infer_path_convention (ctx_cwd ctx) with
  | None => Ok (denied_roots self ctx, [], true)
  | Some convention =>
      match deny_read_globs self ctx with
      | Err err =>
          match behavior with
          | FailClosed => Ok (denied_roots self ctx, [], true)
          | ReturnError => Err err
          end
      | Ok patterns =>
          let? '(matchers, invalid_pattern) := build_matchers behavior convention patterns in
          Ok (denied_roots self ctx, matchers, invalid_pattern)
      end
  end.

(** The bytes a glob is matched against. *)
Definition glob_candidate (convention : PathConvention) path : bytes :=
  match convention with
  | Posix => decode_binary (url_path path)
  | Windows => encode (slashes (inferred_native_path_string path))
  end.

Definition matches_prepared_read_deny path ctx (roots : list Url) (matchers : list Glob)
    (invalid_pattern : bool) : bool :=
  match infer_path_convention (ctx_cwd ctx) with
  | None => true
  | Some convention =>
      if negb (comparable path ctx) then true
      else if invalid_pattern then true
      else existsb (uri_starts_with path) roots
           || existsb (λ matcher, glob_match matcher (glob_candidate convention path)) matchers
  end.

Record ReadDenyMatcher := {
  matcher_cwd : str;
  matcher_user_home_dir : option Url;
  matcher_temporary_directories : list Url;
  matcher_denied_roots : list Url;
  matcher_globs : list Glob;
  matcher_invalid_pattern : bool;
}.

(** [ReadDenyMatcher::build]. *)
Definition build_read_deny_matcher self (cwd : str) (behavior : InvalidDenyReadGlobBehavior)
    : result (option ReadDenyMatcher) str :=
  if negb (has_denied_read_restrictions self) then Ok None
  else
    let? cwd := rmap_err (λ err, lit "invalid read-deny cwd: " ++ err_text err)
                  (from_absolute_path (host_home h) (host_cwd h) cwd) in
    let ctx := local_context cwd in
    let? '(roots, matchers, invalid_pattern) := prepare_deny_read_matcher self ctx behavior in
    Ok (Some {| matcher_cwd := cwd; matcher_user_home_dir := ctx_user_home_dir ctx;
                matcher_temporary_directories := local_temporary_directories;
                matcher_denied_roots := roots; matcher_globs := matchers;
                matcher_invalid_pattern := invalid_pattern |}).

(** [ReadDenyMatcher::new] and [try_new]; an error of the former is
    [unreachable!]. *)
Definition new_read_deny_matcher self (cwd : str) : outcome (option ReadDenyMatcher) unit :=
  match build_read_deny_matcher self cwd FailClosed with Ok m => Done m | Err _ => Panic end.
Definition try_new_read_deny_matcher self (cwd : str) : result (option ReadDenyMatcher) str :=
  build_read_deny_matcher self cwd ReturnError.

Definition is_read_denied (m : ReadDenyMatcher) (p : str) : bool :=
  match resolve_candidate_path p (matcher_cwd m) with
  | None => true
  | Some p =>
      let cwd := from_abs_path (matcher_cwd m) in
      let ctx := {| ctx_cwd := cwd; ctx_workspace_roots := [cwd];
                    ctx_user_home_dir := matcher_user_home_dir m;
                    ctx_temporary_directories := Some (matcher_temporary_directories m) |} in
      matches_prepared_read_deny (from_abs_path p) ctx (matcher_denied_roots m)
        (matcher_globs m) (matcher_invalid_pattern m)
  end.

Definition is_read_denied_with_canonical_path (m : ReadDenyMatcher) (p canonical_path : str) : bool :=
  is_read_denied m p || is_read_denied m canonical_path.

End globs.

(** ** Deriving policies *)

Definition with_depth (p : policy) (depth : option N) : policy :=
  {| fs_kind := fs_kind p; fs_glob_scan_max_depth := depth; fs_entries := fs_entries p |}.

(** The loop that appends the denied entries of [existing] that are missing. *)
Definition append_missing (entries : list entry) (e : entry) : list entry :=
  if existsb (λ e', entry_eq e' e) entries then entries else entries ++ [e].

Definition deny_entries (p : policy) : list entry :=
  List.filter (λ e, is_deny (access e)) (fs_entries p).

Definition append_deny_entries (entries : list entry) (existing : policy) : list entry :=
  foldl append_missing entries (deny_entries existing).

Definition preserve_deny_read_restrictions_from self (existing : policy) : policy :=
  let has_deny_read_entries := existsb (λ e, is_deny (access e)) (fs_entries existing) in
  let self :=
    match fs_kind self with
    | Unrestricted =>
        if has_deny_read_entries then restricted [new_entry (Special Root) Write] else self
    | _ => self
    end in
  if negb (is_restricted self) then self
  else
    let self :=
      if is_none (fs_glob_scan_max_depth self)
      then with_depth self (fs_glob_scan_max_depth existing) else self in
    with_entries self (append_deny_entries (fs_entries self) existing).

Definition remove_skip_missing_path_entries self : policy :=
  with_entries self (List.filter (λ e, negb (skips_missing_path e)) (fs_entries self)).

Definition append_default_read_only_entry_if_no_explicit_rule (entries : list entry)
    (p : FileSystemPath Url) : list entry :=
  if existsb (λ e, file_system_paths_share_target (entry_path e) p) entries then entries
  else entries ++ [skip_missing_path p Read].

Definition append_default_read_only_path_if_no_explicit_rule (entries : list entry) (p : str)
    : list entry :=
  append_default_read_only_entry_if_no_explicit_rule entries (PathEntry (from_abs_path p)).

Definition append_default_read_only_project_root_subpath_if_no_explicit_rule
    (entries : list entry) (subpath : str) : list entry :=
  append_default_read_only_entry_if_no_explicit_rule entries
    (Special (ProjectRoots (Some subpath))).

(** [dedup_absolute_paths]: paths are compared by their components. *)
Definition normalize_effective_absolute_path (p : str) : str :=
  default p (find_map_opt (λ ancestor,
    match host_symlink h ancestor with
    | Err _ => None
    | Ok _ =>
        normalized_ancestor ←
          ok (canonicalize_preserving_symlinks (host_home h) (host_cwd h)
                (host_canonicalize h) (host_symlink h) ancestor);
        suffix ← path_strip_prefix p ancestor;
        absolute (pathbuf_push normalized_ancestor suffix)
    end) (path_ancestors p)).

Fixpoint dedup_paths (seen : list str) (paths : list str) : list str :=
  match paths with
  | [] => []
  | p :: paths =>
      if existsb (path_eq p) seen then dedup_paths seen paths
      else p :: dedup_paths (p :: seen) paths
  end.
Definition dedup_absolute_paths (paths : list str) (normalize_effective_paths : bool) : list str :=
  dedup_paths [] (if normalize_effective_paths
                  then normalize_effective_absolute_path <$> paths else paths).

Definition is_git_pointer_file (p : str) : bool :=
  host_is_file h p && bool_decide (path_file_name p = Some (lit ".git")).

Definition resolve_gitdir_from_file (dot_git : str) : option str :=
  contents ← ok (host_read h dot_git);
  '(prefix, gitdir_raw) ← split_once 58 (trim contents);
  if negb (bool_decide (trim prefix = lit "gitdir")) then None
  else
    let gitdir_raw := trim gitdir_raw in
    if is_empty gitdir_raw then None
    else
      base ← path_parent_of dot_git;
      let gitdir_path := resolve_path_against_base (host_home h) gitdir_raw base in
      if host_exists h gitdir_path then Some gitdir_path else None.

Definition default_read_only_subpaths_for_writable_root (writable_root : str)
    (protect_missing_dot_codex : bool) : list str :=
  let top_level_git := host_join writable_root (lit ".git") in
  let top_level_git_is_file := host_is_file h top_level_git in
  let top_level_git_is_dir := host_is_dir h top_level_git in
  let git :=
    if top_level_git_is_dir || top_level_git_is_file then
      (if top_level_git_is_file && is_git_pointer_file top_level_git
       then option_list (resolve_gitdir_from_file top_level_git) else [])
      ++ [top_level_git]
    else [] in
  let top_level_agents := host_join writable_root (lit ".agents") in
  let agents := if host_is_dir h top_level_agents then [top_level_agents] else [] in
  let top_level_codex := host_join writable_root (lit ".codex") in
  let codex :=
    if protect_missing_dot_codex || host_is_dir h top_level_codex then [top_level_codex] else [] in
  dedup_absolute_paths (git ++ agents ++ codex) false.

(** Protecting the default subpaths of a root. *)
Definition protect_root (protect_missing_dot_codex : bool) (entries : list entry) (root : str)
    : list entry :=
  foldl append_default_read_only_path_if_no_explicit_rule entries
    (default_read_only_subpaths_for_writable_root root protect_missing_dot_codex).

Definition path_entries (mode : FileSystemAccessMode) (paths : list str) : list entry :=
  (λ p, new_entry (PathEntry (from_abs_path p)) mode) <$> paths.

(** The grants of the workspace-write mode. *)
Definition workspace_grants (writable_roots : list str)
    (exclude_tmpdir_env_var exclude_slash_tmp : bool) : list entry :=
  [new_entry (Special Root) Read; new_entry (Special (ProjectRoots None)) Write]
  ++ (if exclude_slash_tmp then [] else [new_entry (Special SlashTmp) Write])
  ++ (if exclude_tmpdir_env_var then [] else [new_entry (Special Tmpdir) Write])
  ++ path_entries Write writable_roots.

Definition workspace_write (writable_roots : list str)
    (exclude_tmpdir_env_var exclude_slash_tmp : bool) : policy :=
  let entries := workspace_grants writable_roots exclude_tmpdir_env_var exclude_slash_tmp in
  let entries :=
    foldl append_default_read_only_project_root_subpath_if_no_explicit_rule entries
      [lit ".git"; lit ".agents"; lit ".codex"] in
  restricted (foldl (protect_root false) entries writable_roots).

(** ** Workspace roots *)

Definition resolve_project_roots_glob_pattern (subpath root : str) : str :=
  resolve_path_against_base (host_home h) subpath root.

Definition set_entry_path e (p : FileSystemPath Url) : entry :=
  mk_entry p (access e) (missing_path_behavior e).

Definition materialize_project_roots_with_cwd self (cwd : str) : policy :=
  let cwd := absolute cwd in
  with_entries self ((λ e,
    match entry_path e with
    | Special (ProjectRoots _) =>
        match resolve_file_system_path (entry_path e) cwd with
        | Some p => set_entry_path e (PathEntry (from_abs_path p))
        | None => e
        end
    | GlobPattern pattern =>
        match cwd, parse_project_roots_glob_pattern pattern with
        | Some cwd, Some subpath =>
            set_entry_path e (GlobPattern (resolve_project_roots_glob_pattern subpath cwd))
        | _, _ => e
        end
    | Special _ | PathEntry _ => e
    end) <$> fs_entries self).

Definition materialize_entry (workspace_roots : list str) e : list entry :=
  match entry_path e with
  | Special (ProjectRoots subpath) =>
      (λ root : str,
        set_entry_path e (PathEntry (from_abs_path
          match subpath with
          | Some subpath => resolve_path_against_base (host_home h) subpath root
          | None => root
          end))) <$> workspace_roots
  | GlobPattern pattern =>
      match parse_project_roots_glob_pattern pattern with
      | Some subpath =>
          (λ root : str, set_entry_path e (GlobPattern (resolve_project_roots_glob_pattern subpath root)))
            <$> workspace_roots
      | None => [e]
      end
  | PathEntry _ | Special _ => [e]
  end.

Definition materialize_project_roots_with_workspace_roots self (workspace_roots : list str) : policy :=
  with_entries self (mjoin (materialize_entry workspace_roots <$> fs_entries self)).

Definition resolve_scoped_workspace_path root (subpath : str) : option Url :=
  convention ← infer_path_convention root;
  if starts_with subpath (lit "/")
     || (bool_decide (convention = Windows) && starts_with subpath (lit "\"))
     || existsb (λ segment, bool_decide (segment = lit ".") || bool_decide (segment = lit ".."))
          (path_segments convention subpath)
     || (bool_decide (convention = Windows)
         && existsb (λ segment, contains_char segment 58) (path_segments convention subpath))
  then None
  else
    path ← ok (uri_join root subpath);
    if uri_starts_with path root then Some path else None.

Definition scoped_entry e (subpath : option str) (is_glob : bool) root : option entry :=
  let path :=
    match subpath with
    | None => Some root
    | Some subpath => resolve_scoped_workspace_path root subpath
    end in
  match path with
  | Some path =>
      Some (set_entry_path e
        (if is_glob then GlobPattern (inferred_native_path_string path) else PathEntry path))
  | None =>
      if negb (can_write (access e))
      then Some (mk_entry (PathEntry root) Deny (missing_path_behavior e)) else None
  end.

Definition materialize_uri_entry (workspace_roots : list Url) e : list entry :=
  match entry_path e with
  | Special (ProjectRoots subpath) => omap (scoped_entry e subpath false) workspace_roots
  | GlobPattern pattern =>
      match parse_project_roots_glob_pattern pattern with
      | Some subpath => omap (scoped_entry e (Some subpath) true) workspace_roots
      | None => [e]
      end
  | _ => [e]
  end.

Definition materialize_project_roots_with_path_uris self (workspace_roots : list Url) : policy :=
  match rmapM (to_abs_path (host_home h)) workspace_roots with
  | Ok native_workspace_roots =>
      materialize_project_roots_with_workspace_roots self native_workspace_roots
  | Err _ => with_entries self (mjoin (materialize_uri_entry workspace_roots <$> fs_entries self))
  end.

Definition with_materialized_project_roots_for_workspace_roots self (workspace_roots : list str)
    : policy :=
  let materialized := materialize_project_roots_with_workspace_roots self workspace_roots in
  with_entries self (foldl append_missing (fs_entries self) (fs_entries materialized)).

(** ** Additional roots *)

Definition push_entry self e : policy := with_entries self (fs_entries self ++ [e]).

Definition with_additional_readable_roots self (cwd : str) (roots : list str) : policy :=
  if has_full_disk_read_access self then self
  else
    foldl (λ self p,
      if can_read_path_with_cwd self p cwd then self
      else push_entry self (new_entry (PathEntry (from_abs_path p)) Read)) self roots.

Definition with_additional_writable_roots self (cwd : str) (roots : list str) : policy :=
  foldl (λ self p,
    if can_write_path_with_cwd self p cwd then self
    else push_entry self (new_entry (PathEntry (from_abs_path p)) Write)) self roots.

Definition with_additional_legacy_workspace_writable_roots self (roots : list str) : policy :=
  if negb (is_restricted self) then self
  else
    with_entries self
      (foldl (λ entries p,
         let entries :=
           if existsb (λ e, can_write (access e)
                            && match entry_path e with
                               | PathEntry existing => uri_eq existing (from_abs_path p)
                               | _ => false
                               end) entries
           then entries else entries ++ [new_entry (PathEntry (from_abs_path p)) Write] in
         protect_root false entries p) (fs_entries self) roots).

End sandbox_policy.
