(* ===== verification/LegacySandbox.v ===== *)
(** * Writable roots and legacy sandbox policies

    The rest of [codex-rs/protocol/src/permissions.rs] and [SandboxPolicy] of
    [protocol.rs]: the roots a platform sandbox is given, the conversions
    between split policies and the legacy modes, and the comparison that
    decides whether the legacy mode can enforce a policy. *)

From S2P Require Import Prelude RustStr Utf8 UnixPath Permissions ExecFs.
From S2P Require Import AbsolutePath PathUri SandboxPolicy.

#[local] Arguments lit : simpl never.

(** ** Legacy policies ([protocol.rs]) *)

Inductive NetworkAccess := AccessRestricted | AccessEnabled.

#[global] Instance NetworkAccess_eq_dec : EqDecision NetworkAccess.
Proof. solve_decision. Defined.

Definition access_is_enabled (a : NetworkAccess) : bool :=
  match a with AccessEnabled => true | AccessRestricted => false end.

Definition network_is_enabled (p : NetworkSandboxPolicy) : bool :=
  match p with NetworkEnabled => true | NetworkRestricted => false end.

Inductive SandboxPolicy :=
| DangerFullAccess
| ReadOnly (network_access : bool)
| ExternalSandboxPolicy (network_access : NetworkAccess)
| WorkspaceWrite (writable_roots : list str)
    (network_access exclude_tmpdir_env_var exclude_slash_tmp : bool).

#[global] Instance SandboxPolicy_eq_dec : EqDecision SandboxPolicy.
Proof. solve_decision. Defined.

Definition has_full_network_access (p : SandboxPolicy) : bool :=
  match p with
  | DangerFullAccess => true
  | ExternalSandboxPolicy network_access => access_is_enabled network_access
  | ReadOnly network_access | WorkspaceWrite _ network_access _ _ => network_access
  end.

Definition legacy_full_disk_write_access (p : SandboxPolicy) : bool :=
  match p with
  | DangerFullAccess | ExternalSandboxPolicy _ => true
  | ReadOnly _ | WorkspaceWrite _ _ _ _ => false
  end.

(** [From<&SandboxPolicy> for NetworkSandboxPolicy]. *)
Definition network_policy_of (p : SandboxPolicy) : NetworkSandboxPolicy :=
  if has_full_network_access p then NetworkEnabled else NetworkRestricted.

Record WritableRoot := {
  wr_root : str;
  wr_read_only_subpaths : list str;
  wr_protected_metadata_names : list str;
}.

Definition path_contains_protected_metadata_name (r : WritableRoot) (p : str) : bool :=
  match path_strip_prefix p (wr_root r) with
  | None => false
  | Some relative_path =>
      match components relative_path with
      | [] => false
      | first_component :: _ =>
          existsb (λ name, bool_decide (component_str first_component = name))
            (wr_protected_metadata_names r)
      end
  end.

Definition is_path_writable (r : WritableRoot) (p : str) : bool :=
  path_starts_with p (wr_root r)
  && negb (existsb (path_starts_with p) (wr_read_only_subpaths r))
  && negb (path_contains_protected_metadata_name r p).

(** ** Sorting paths: the order of their components *)

Definition component_rank (c : component) : N :=
  match c with RootDir => 0 | CurDir => 1 | ParentDir => 2 | Normal _ => 3 end%N.

Definition component_compare (a b : component) : comparison :=
  match a, b with
  | Normal a, Normal b => str_compare a b
  | _, _ => N.compare (component_rank a) (component_rank b)
  end.

Definition path_le (a b : str) : bool :=
  match list_compare component_compare (components a) (components b) with Gt => false | _ => true end.
Definition str_le (a b : str) : bool :=
  match str_compare a b with Gt => false | _ => true end.

Fixpoint insert_sorted {A} (le : A → A → bool) (x : A) (l : list A) : list A :=
  match l with
  | [] => [x]
  | y :: l => if le x y then x :: y :: l else y :: insert_sorted le x l
  end.
(** [slice::sort_by], which is stable. *)
Definition sort_by {A} (le : A → A → bool) (l : list A) : list A := foldr (insert_sorted le) [] l.

Definition sorted_absolute_paths (paths : list str) : list str := sort_by path_le paths.

Definition sorted_writable_roots (roots : list WritableRoot) : list WritableRoot :=
  sort_by (λ a b, path_le (wr_root a) (wr_root b))
    ((λ r, {| wr_root := wr_root r;
              wr_read_only_subpaths := sorted_absolute_paths (wr_read_only_subpaths r);
              wr_protected_metadata_names := dedup (sort_by str_le (wr_protected_metadata_names r)) |})
       <$> roots).

Section legacy.
Context {Url : Type} `{!EqDecision Url} `{!UrlOps Url} (h : Host).
Abbreviation policy := (FileSystemSandboxPolicy Url).
Abbreviation entry := (FileSystemSandboxEntry Url).
Implicit Types (self : policy).

(** [SandboxPolicy::get_writable_roots_with_cwd]. *)
Definition legacy_writable_roots (p : SandboxPolicy) (cwd : str) : list WritableRoot :=
  match p with
  | DangerFullAccess | ExternalSandboxPolicy _ | ReadOnly _ => []
  | WorkspaceWrite writable_roots _ exclude_tmpdir_env_var exclude_slash_tmp =>
      let cwd_root := absolute h cwd in
      let slash_tmp :=
        if exclude_slash_tmp then []
        else match absolute h (lit "/tmp") with
             | Some slash_tmp => if host_is_dir h slash_tmp then [slash_tmp] else []
             | None => []
             end in
      let tmpdir :=
        if exclude_tmpdir_env_var then []
        else match host_tmpdir h with
             | None | Some [] => []
             | Some tmpdir => option_list (absolute h tmpdir)
             end in
      (λ writable_root,
        {| wr_root := writable_root;
           wr_read_only_subpaths :=
             default_read_only_subpaths_for_writable_root h writable_root
               (is_some_and cwd_root (λ cwd_root, path_eq cwd_root writable_root));
           wr_protected_metadata_names := [] |})
        <$> writable_roots ++ option_list cwd_root ++ slash_tmp ++ tmpdir
  end.

(** [From<&SandboxPolicy> for FileSystemSandboxPolicy]. *)
Definition fs_policy_of (p : SandboxPolicy) : policy :=
  match p with
  | DangerFullAccess => unrestricted
  | ExternalSandboxPolicy _ => external_sandbox
  | ReadOnly _ => restricted [new_entry (Special Root) Read]
  | WorkspaceWrite writable_roots _ exclude_tmpdir_env_var exclude_slash_tmp =>
      workspace_write h writable_roots exclude_tmpdir_env_var exclude_slash_tmp
  end.

Definition from_legacy_sandbox_policy_for_cwd (p : SandboxPolicy) (cwd : str) : policy :=
  let file_system_policy := fs_policy_of p in
  match p with
  | WorkspaceWrite writable_roots _ _ _ =>
      let entries := fs_entries file_system_policy in
      let entries :=
        match absolute h cwd with
        | Some cwd_root => protect_root h true entries cwd_root
        | None => entries
        end in
      with_entries file_system_policy (foldl (protect_root h false) entries writable_roots)
  | _ => file_system_policy
  end.

Definition from_legacy_sandbox_policy_preserving_deny_entries (p : SandboxPolicy) (cwd : str)
    (existing : policy) : policy :=
  let rebuilt := from_legacy_sandbox_policy_for_cwd p cwd in
  if negb (is_restricted rebuilt) then rebuilt
  else
    with_entries (with_depth rebuilt (fs_glob_scan_max_depth existing))
      (append_deny_entries (fs_entries rebuilt) existing).

(** ** To a legacy policy *)

Record bridge := {
  workspace_root_writable : bool;
  bridged_roots : list str;
  tmpdir_writable : bool;
  slash_tmp_writable : bool;
  unbridgeable_root_write : bool;
}.

Definition no_writes : bridge :=
  {| workspace_root_writable := false; bridged_roots := []; tmpdir_writable := false;
     slash_tmp_writable := false; unbridgeable_root_write := false |}.

Definition set_workspace (b : bridge) : bridge :=
  {| workspace_root_writable := true; bridged_roots := bridged_roots b;
     tmpdir_writable := tmpdir_writable b; slash_tmp_writable := slash_tmp_writable b;
     unbridgeable_root_write := unbridgeable_root_write b |}.
Definition add_root (p : str) (b : bridge) : bridge :=
  {| workspace_root_writable := workspace_root_writable b; bridged_roots := bridged_roots b ++ [p];
     tmpdir_writable := tmpdir_writable b; slash_tmp_writable := slash_tmp_writable b;
     unbridgeable_root_write := unbridgeable_root_write b |}.
Definition set_tmpdir (b : bridge) : bridge :=
  {| workspace_root_writable := workspace_root_writable b; bridged_roots := bridged_roots b;
     tmpdir_writable := true; slash_tmp_writable := slash_tmp_writable b;
     unbridgeable_root_write := unbridgeable_root_write b |}.
Definition set_slash_tmp (b : bridge) : bridge :=
  {| workspace_root_writable := workspace_root_writable b; bridged_roots := bridged_roots b;
     tmpdir_writable := tmpdir_writable b; slash_tmp_writable := true;
     unbridgeable_root_write := unbridgeable_root_write b |}.
Definition set_unbridgeable (b : bridge) : bridge :=
  {| workspace_root_writable := workspace_root_writable b; bridged_roots := bridged_roots b;
     tmpdir_writable := tmpdir_writable b; slash_tmp_writable := slash_tmp_writable b;
     unbridgeable_root_write := true |}.

(** The body of the loop over the entries: only writes matter. *)
Definition bridge_entry (cwd_absolute : option str) (b : bridge) (e : entry)
    : result bridge io_error :=
  if negb (can_write (access e)) then Ok b
  else
    match entry_path e with
    | GlobPattern _ => Ok b
    | PathEntry path =>
        let? path := to_abs_path (host_home h) path in
        if is_some_and cwd_absolute (λ cwd, path_eq cwd path) then Ok (set_workspace b)
        else Ok (add_root path b)
    | Special Root => Ok (set_unbridgeable b)
    | Special (Minimal | Unknown _ _) => Ok b
    | Special (ProjectRoots subpath as value) =>
        if is_none subpath then Ok (set_workspace b)
        else
          match resolve_file_system_special_path h value cwd_absolute with
          | Some path => Ok (add_root path b)
          | None => Ok b
          end
    | Special Tmpdir => Ok (set_tmpdir b)
    | Special SlashTmp => Ok (set_slash_tmp b)
    end.

Fixpoint bridge_entries (cwd_absolute : option str) (b : bridge) (entries : list entry)
    : result bridge io_error :=
  match entries with
  | [] => Ok b
  | e :: entries => let? b := bridge_entry cwd_absolute b e in bridge_entries cwd_absolute b entries
  end.

Definition writes_outside_workspace : io_error :=
  {| err_kind := InvalidInput;
     err_text := lit "permissions profile requests filesystem writes outside the workspace root, which is not supported until the runtime enforces FileSystemSandboxPolicy directly" |}.

Definition network_access_of (network_policy : NetworkSandboxPolicy) : NetworkAccess :=
  if network_is_enabled network_policy then AccessEnabled else AccessRestricted.

Definition full_access_policy (network_policy : NetworkSandboxPolicy) : SandboxPolicy :=
  if network_is_enabled network_policy then DangerFullAccess
  else ExternalSandboxPolicy AccessRestricted.

Definition to_legacy_sandbox_policy self (network_policy : NetworkSandboxPolicy) (cwd : str)
    : result SandboxPolicy io_error :=
  match fs_kind self with
  | ExternalSandbox => Ok (ExternalSandboxPolicy (network_access_of network_policy))
  | Unrestricted => Ok (full_access_policy network_policy)
  | Restricted =>
      let? b := bridge_entries (absolute h cwd) no_writes (fs_entries self) in
      if has_full_disk_write_access h self then Ok (full_access_policy network_policy)
      else if workspace_root_writable b then
        Ok (WorkspaceWrite (dedup_absolute_paths h (bridged_roots b) false)
              (network_is_enabled network_policy)
              (negb (tmpdir_writable b)) (negb (slash_tmp_writable b)))
      else if unbridgeable_root_write b || negb (is_empty (bridged_roots b))
              || tmpdir_writable b || slash_tmp_writable b
      then Err writes_outside_workspace
      else Ok (ReadOnly (network_is_enabled network_policy))
  end.

(** What the legacy runtime enforces for a policy. *)
Definition legacy_runtime_file_system_policy_for_cwd (p : SandboxPolicy) (cwd : str) : policy :=
  match p with
  | WorkspaceWrite writable_roots _ exclude_tmpdir_env_var exclude_slash_tmp =>
      let entries := workspace_grants writable_roots exclude_tmpdir_env_var exclude_slash_tmp in
      let entries :=
        match absolute h cwd with
        | Some cwd_root => protect_root h true entries cwd_root
        | None => entries
        end in
      restricted (foldl (protect_root h false) entries writable_roots)
  | _ => fs_policy_of p
  end.

(** ** Roots for the platform sandbox *)

Inductive WritableRootPathResolution := Effective | PreserveMutableComponents.

(** [/name] at the top of a path. *)
Definition normalize_trusted_top_level_alias (p : str) : str :=
  let top_level :=
    List.find (λ ancestor,
      negb (is_none (path_parent_of ancestor))
      && is_none (path_parent_of ancestor ≫= path_parent_of)) (path_ancestors p) in
  default p
    (top_level ← top_level;
     match host_symlink h top_level with
     | Ok true =>
         canonical_top_level ← ok (host_canonicalize h top_level);
         suffix ← path_strip_prefix p top_level;
         absolute h (pathbuf_push canonical_top_level suffix)
     | _ => None
     end).

Definition resolve_root (resolution : WritableRootPathResolution) (p : str) : str :=
  match resolution with
  | Effective => normalize_effective_absolute_path h p
  | PreserveMutableComponents => normalize_trusted_top_level_alias p
  end.

Definition has_explicit_resolved_path_entry (entries : list (str * FileSystemAccessMode)) (p : str)
    : bool :=
  existsb (λ '(entry, _), path_eq entry p) entries.

Definition protected_metadata_names_for_writable_root self (root : str)
    (raw_writable_roots : list str) (cwd : str) : list str :=
  List.filter (λ metadata_name,
    forallb (λ metadata_path, negb (can_write_path_with_cwd h self metadata_path cwd))
      ((λ r, host_join h r metadata_name) <$> root :: raw_writable_roots))
    PROTECTED_METADATA_PATH_NAMES.

(** The path under [root] that masks a read-only entry. *)
Definition carveout (resolution : WritableRootPathResolution) (root : str)
    (raw_writable_roots : list str) (p : str) : option str :=
  let effective_path := resolve_root resolution p in
  let raw_carveout_path :=
    if is_none (path_parent_of root) then None
    else if path_eq p root then None
    else if path_starts_with p root then Some p
    else find_map_opt (λ raw_root,
           suffix ← path_strip_prefix p raw_root;
           if is_empty suffix then None else Some (host_join h root suffix)) raw_writable_roots in
  match raw_carveout_path with
  | Some p => Some p
  | None =>
      if path_eq effective_path root || negb (path_starts_with effective_path root) then None
      else Some effective_path
  end.

Definition writable_entries self (cwd : str) : list str :=
  fst <$> List.filter (λ '(p, access), can_write access && can_write_path_with_cwd h self p cwd)
            (resolved_entries_with_cwd h self cwd).

Definition writable_root self (cwd : str) (resolution : WritableRootPathResolution) (root : str)
    : WritableRoot :=
  let resolved := resolved_entries_with_cwd h self cwd in
  let raw_writable_roots :=
    List.filter (λ p, path_eq (resolve_root resolution p) root) (writable_entries self cwd) in
  let protect_missing_dot_codex :=
    is_some_and (absolute h cwd) (λ cwd, path_eq (resolve_root resolution cwd) root) in
  let defaults :=
    List.filter (λ p, negb (has_explicit_resolved_path_entry resolved p))
      (default_read_only_subpaths_for_writable_root h root protect_missing_dot_codex) in
  let carveouts :=
    omap (λ '(p, access),
      if can_write access || can_write_path_with_cwd h self p cwd then None
      else carveout resolution root raw_writable_roots p) resolved in
  {| wr_root := root;
     wr_read_only_subpaths := dedup_absolute_paths h (defaults ++ carveouts) false;
     wr_protected_metadata_names :=
       protected_metadata_names_for_writable_root self root raw_writable_roots cwd |}.

Definition get_writable_roots_with_cwd_impl self (cwd : str)
    (resolution : WritableRootPathResolution) : list WritableRoot :=
  if has_full_disk_write_access h self then []
  else
    writable_root self cwd resolution
      <$> dedup_absolute_paths h (resolve_root resolution <$> writable_entries self cwd) false.

Definition get_writable_roots_with_cwd self (cwd : str) : list WritableRoot :=
  get_writable_roots_with_cwd_impl self cwd Effective.
Definition get_writable_roots_with_cwd_preserving_mutable_paths self (cwd : str)
    : list WritableRoot :=
  get_writable_roots_with_cwd_impl self cwd PreserveMutableComponents.

Definition get_readable_roots_with_cwd self (cwd : str) : list str :=
  if has_full_disk_read_access self then []
  else
    dedup_absolute_paths h
      (fst <$> List.filter (λ '(p, access), can_read access && can_read_path_with_cwd h self p cwd)
                 (resolved_entries_with_cwd h self cwd)) true.

Definition get_unreadable_roots_with_cwd self (cwd : str) : list str :=
  if negb (is_restricted self) then []
  else
    let root := absolute_root_path_for_cwd h <$> absolute h cwd in
    dedup_absolute_paths h
      (fst <$> List.filter (λ '(p, access),
                 is_deny access && negb (can_read_path_with_cwd h self p cwd)
                 && negb (is_some_and root (λ root, path_eq root p)))
                 (resolved_entries_with_cwd h self cwd)) true.

Definition get_unreadable_globs_with_cwd self (cwd : str) : list str :=
  if negb (is_restricted self) then []
  else
    dedup (sort_by str_le
      (omap (λ e, match entry_path e with
                  | GlobPattern pattern =>
                      if is_deny (access e)
                      then Some (resolve_path_against_base (host_home h) pattern cwd) else None
                  | PathEntry _ | Special _ => None
                  end) (fs_entries self))).

(** ** Comparing policies *)

Record FileSystemSemanticSignature := {
  sig_full_disk_read_access : bool;
  sig_full_disk_write_access : bool;
  sig_include_platform_defaults : bool;
  sig_readable_roots : list str;
  sig_writable_roots : list WritableRoot;
  sig_unreadable_roots : list str;
  sig_unreadable_globs : list str;
}.

Definition semantic_signature self (cwd : str) : FileSystemSemanticSignature :=
  {| sig_full_disk_read_access := has_full_disk_read_access self;
     sig_full_disk_write_access := has_full_disk_write_access h self;
     sig_include_platform_defaults := include_platform_defaults self;
     sig_readable_roots := sorted_absolute_paths (get_readable_roots_with_cwd self cwd);
     sig_writable_roots := sorted_writable_roots (get_writable_roots_with_cwd self cwd);
     sig_unreadable_roots := sorted_absolute_paths (get_unreadable_roots_with_cwd self cwd);
     sig_unreadable_globs := get_unreadable_globs_with_cwd self cwd |}.

(** Derived equality: paths by components. *)
Fixpoint all2 {A} (eq : A → A → bool) (a b : list A) : bool :=
  match a, b with
  | [], [] => true
  | x :: a, y :: b => eq x y && all2 eq a b
  | _, _ => false
  end.

Definition writable_root_eq (a b : WritableRoot) : bool :=
  path_eq (wr_root a) (wr_root b)
  && all2 path_eq (wr_read_only_subpaths a) (wr_read_only_subpaths b)
  && bool_decide (wr_protected_metadata_names a = wr_protected_metadata_names b).

Definition signature_eq (a b : FileSystemSemanticSignature) : bool :=
  eqb (sig_full_disk_read_access a) (sig_full_disk_read_access b)
  && eqb (sig_full_disk_write_access a) (sig_full_disk_write_access b)
  && eqb (sig_include_platform_defaults a) (sig_include_platform_defaults b)
  && all2 path_eq (sig_readable_roots a) (sig_readable_roots b)
  && all2 writable_root_eq (sig_writable_roots a) (sig_writable_roots b)
  && all2 path_eq (sig_unreadable_roots a) (sig_unreadable_roots b)
  && bool_decide (sig_unreadable_globs a = sig_unreadable_globs b).

Definition is_semantically_equivalent_to self (other : policy) (cwd : str) : bool :=
  signature_eq (semantic_signature self cwd) (semantic_signature other cwd).

Definition protected_metadata_names_need_direct_runtime_enforcement self
    (legacy_policy : SandboxPolicy) (cwd : str) : bool :=
  let legacy_roots := legacy_writable_roots legacy_policy cwd in
  existsb (λ r,
    match List.find (λ candidate, path_eq (wr_root candidate) (wr_root r)) legacy_roots with
    | None => negb (is_empty (wr_protected_metadata_names r))
    | Some legacy_root =>
        existsb (λ metadata_name,
          negb (existsb (λ subpath, path_eq subpath (host_join h (wr_root r) metadata_name))
                  (wr_read_only_subpaths legacy_root)))
          (wr_protected_metadata_names r)
    end) (get_writable_roots_with_cwd self cwd).

Definition needs_direct_runtime_enforcement self (network_policy : NetworkSandboxPolicy)
    (cwd : str) : bool :=
  if negb (is_restricted self) then false
  else
    match to_legacy_sandbox_policy self network_policy cwd with
    | Err _ => true
    | Ok legacy_policy =>
        protected_metadata_names_need_direct_runtime_enforcement self legacy_policy cwd
        || negb (signature_eq (semantic_signature self cwd)
                   (semantic_signature (legacy_runtime_file_system_policy_for_cwd legacy_policy cwd)
                      cwd))
    end.

End legacy.
