(* ===== verification/SandboxAccess.v ===== *)
(** * What a sandbox policy grants

    The access of a path is that of the most specific entry that covers it;
    deriving one policy from another only removes, or only adds, access. *)

From S2P Require Import Prelude RustStr Utf8 UnixPath Permissions ExecFs.
From S2P Require Import AbsolutePath PathUri PathUriFacts SandboxPolicy.

#[local] Arguments lit : simpl never.
#[local] Set Default Proof Using "Type".

(** ** Maxima *)

Section maxima.
Context {A : Type} (le : A → A → bool).
Hypothesis le_trans : ∀ x y z, le x y = true → le y z = true → le x z = true.
Hypothesis le_total : ∀ x y, le x y = true ∨ le y x = true.

Lemma max_by_loop l best :
  match foldl (keep_max le) best l with
  | Some m => (best = Some m ∨ m ∈ l)
              ∧ (∀ b, best = Some b → le b m = true) ∧ ∀ x, x ∈ l → le x m = true
  | None => best = None ∧ l = []
  end.
Proof using le_trans le_total.
  revert best; induction l as [|x l IH]; intros best.
  { simpl. destruct best as [b|]; [|done]. split; [by left|]. split; [|set_solver].
    intros b' [= <-]. by destruct (le_total b b). }
  cbn [foldl]. specialize (IH (keep_max le best x)).
  destruct (foldl (keep_max le) _ l) as [m|].
  - destruct IH as (Hin & Hb & Hl). unfold keep_max in *. destruct best as [b|].
    + destruct (le b x) eqn:Hle.
      * split; [set_solver|]. specialize (Hb x eq_refl). split; [naive_solver|]. set_solver.
      * assert (le x b = true) by (destruct (le_total b x); congruence).
        specialize (Hb b eq_refl). split; [set_solver|]. split; [naive_solver|].
        intros y [->|Hy]%elem_of_cons; eauto.
    + specialize (Hb x eq_refl). split; [set_solver|]. split; [done|]. set_solver.
  - destruct IH as [IH _]. unfold keep_max in IH. destruct best; [by destruct (le _ _)|done].
Qed.

Lemma max_by_Some l m : max_by le l = Some m → m ∈ l ∧ ∀ x, x ∈ l → le x m = true.
Proof using le_trans le_total.
  intros H. pose proof (max_by_loop l None) as Hl. unfold max_by in H. rewrite H in Hl. naive_solver.
Qed.

Lemma max_by_None l : max_by le l = None → l = [].
Proof using le_trans le_total.
  intros H. pose proof (max_by_loop l None) as Hl. unfold max_by in H. rewrite H in Hl. naive_solver.
Qed.
End maxima.

Lemma specificity_le_spec {A} (r s : A) a b d d' :
  specificity_le (r, a, d) (s, b, d') = true ↔
  d < d' ∨ (d = d' ∧ access_rank a ≤ access_rank b).
Proof.
  unfold specificity_le. rewrite orb_true_iff, andb_true_iff, Nat.ltb_lt, Nat.eqb_eq, Nat.leb_le. done.
Qed.

Lemma specificity_trans {A} (x y z : A * FileSystemAccessMode * nat) :
  specificity_le x y = true → specificity_le y z = true → specificity_le x z = true.
Proof.
  destruct x as [[??]?], y as [[??]?], z as [[??]?]. rewrite !specificity_le_spec. lia.
Qed.

Lemma specificity_total {A} (x y : A * FileSystemAccessMode * nat) :
  specificity_le x y = true ∨ specificity_le y x = true.
Proof. destruct x as [[??]?], y as [[??]?]. rewrite !specificity_le_spec. lia. Qed.

Lemma access_rank_inj a b : access_rank a = access_rank b → a = b.
Proof. by destruct a, b. Qed.

Section access.
Context {Url : Type} `{!EqDecision Url} `{!UrlOps Url}.
Implicit Types (self existing : FileSystemSandboxPolicy Url)
  (ctx : FileSystemSandboxPolicyContext Url) (path root : Url)
  (entries : list (Url * FileSystemAccessMode)).

(** ** The specification of access

    An entry covers a path when the path is at or below its root. *)

Definition covers entries path root (m : FileSystemAccessMode) (d : nat) : Prop :=
  (root, m) ∈ entries ∧ lexical_depth root = Some d ∧ uri_starts_with path root = true.

(** No root but opaque ones has ambiguous components. *)
Definition unambiguous entries : Prop :=
  ∀ root m, (root, m) ∈ entries → is_Some (lexical_depth root) ∨ is_opaque root = true.

(** [m] is the mode of the deepest covering entries, the strictest of them on a
    tie. *)
Definition most_specific entries path (m : FileSystemAccessMode) : Prop :=
  ∃ root d, covers entries path root m d
    ∧ ∀ root' m' d', covers entries path root' m' d' →
        d' < d ∨ (d' = d ∧ access_rank m' ≤ access_rank m).

Definition access_spec entries path ctx (m : FileSystemAccessMode) : Prop :=
  if bool_decide (comparable path ctx = true) then
    (unambiguous entries ∧ most_specific entries path m)
    ∨ (m = Deny ∧ (¬ unambiguous entries ∨ ∀ root m' d, ¬ covers entries path root m' d))
  else m = Deny.

Lemma with_depths_Some entries l :
  with_depths entries = Some l →
  unambiguous entries ∧
  ∀ root m d, (root, m, d) ∈ l ↔ (root, m) ∈ entries ∧ lexical_depth root = Some d.
Proof.
  revert l; induction entries as [|[r a] entries IH]; intros l; simpl.
  { intros [= <-]. split; [intros ??; set_solver|]. intros. set_solver. }
  destruct (lexical_depth r) as [dr|] eqn:Hd.
  - intros (l' & Hl & ->)%fmap_Some. destruct (IH l' Hl) as [Hu Hin]. split.
    + intros root m [[= -> ->]|H]%elem_of_cons; [left; by eexists|eauto].
    + intros root m d. rewrite !elem_of_cons, Hin. naive_solver.
  - destruct (is_opaque r) eqn:Ho; [|done]. intros Hl. destruct (IH l Hl) as [Hu Hin]. split.
    + intros root m [[= -> ->]|H]%elem_of_cons; [by right|eauto].
    + intros root m d. rewrite elem_of_cons, Hin. naive_solver.
Qed.

Lemma with_depths_None entries : with_depths entries = None → ¬ unambiguous entries.
Proof.
  induction entries as [|[r a] entries IH]; simpl; [done|].
  destruct (lexical_depth r) as [dr|] eqn:Hd.
  - destruct (with_depths entries); [done|]. intros _ Hu. apply IH; [done|].
    intros root m H. apply (Hu root m). set_solver.
  - destruct (is_opaque r) eqn:Ho.
    + intros H Hu. apply (IH H). intros root m Hin. apply (Hu root m). set_solver.
    + intros _ Hu. destruct (Hu r a ltac:(set_solver)) as [[d Hd']|]; congruence.
Qed.

Lemma max_covering entries l path :
  with_depths entries = Some l →
  match max_by specificity_le (List.filter (λ '(root, _, _), uri_starts_with path root) l) with
  | Some (_, m, _) => most_specific entries path m
  | None => ∀ root m' d, ¬ covers entries path root m' d
  end.
Proof.
  intros (Hu & Hin)%with_depths_Some.
  assert (∀ root m d, (root, m, d) ∈ List.filter (λ '(root, _, _), uri_starts_with path root) l
          ↔ covers entries path root m d) as Hf.
  { intros root m d. rewrite list_elem_of_In, filter_In, <- list_elem_of_In, Hin. unfold covers.
    naive_solver. }
  destruct (max_by _ _) as [[[root m] d]|] eqn:Hm.
  - apply max_by_Some in Hm as [Hm Hmax]; [|apply specificity_trans|apply specificity_total].
    exists root, d. split; [by apply Hf|]. intros root' m' d' Hc%Hf%Hmax.
    by apply specificity_le_spec in Hc.
  - apply max_by_None in Hm; [|apply specificity_trans|apply specificity_total].
    intros root m d Hc%Hf. rewrite Hm in Hc. set_solver.
Qed.

Lemma resolve_access_meets_spec self path ctx :
  fs_kind self = Restricted →
  access_spec (resolved_entries self ctx) path ctx (resolve_access self path ctx).
Proof.
  intros Hk. unfold access_spec, resolve_access. rewrite Hk.
  destruct (comparable path ctx) eqn:Hc; [|done]. cbn [negb]. rewrite bool_decide_eq_true_2 by done.
  destruct (with_depths _) as [l|] eqn:Hd.
  - pose proof (max_covering _ _ path Hd) as Hm. apply with_depths_Some in Hd as [Hu _].
    destruct (max_by _ _) as [[[root m] d]|]; [by left|right]. auto.
  - right. split; [done|]. left. by apply with_depths_None.
Qed.

Lemma most_specific_unique entries path m m' :
  most_specific entries path m → most_specific entries path m' → m = m'.
Proof.
  intros (r & d & Hc & Hmax) (r' & d' & Hc' & Hmax').
  apply Hmax in Hc' as H. apply Hmax' in Hc as H'. apply access_rank_inj. lia.
Qed.

Lemma access_spec_unique entries path ctx m m' :
  access_spec entries path ctx m → access_spec entries path ctx m' → m = m'.
Proof.
  unfold access_spec. case_bool_decide; [|by intros -> ->].
  intros [[Hu Hm]|[-> Hm]] [[Hu' Hm']|[-> Hm']]; try done;
    [by eapply most_specific_unique|..].
  - destruct Hm' as [|Hno]; [done|]. destruct Hm as (r & d & Hc & _). by apply Hno in Hc.
  - destruct Hm as [|Hno]; [done|]. destruct Hm' as (r & d & Hc & _). by apply Hno in Hc.
Qed.

(** C3: A restricted policy gives a path the mode of the deepest entry that
    covers it, with Deny above Write above Read on a tie, and Deny when nothing
    covers it, when an entry has ambiguous components, or when the path is not
    of the executor's convention; and there is exactly one such mode. *)
Theorem access_is_most_specific self path ctx m :
  fs_kind self = Restricted →
  resolve_access self path ctx = m ↔ access_spec (resolved_entries self ctx) path ctx m.
Proof.
  intros Hk. split; [intros <-; by apply resolve_access_meets_spec|].
  intros Hm. eapply access_spec_unique; [by apply resolve_access_meets_spec|done].
Qed.

(** Access depends on the set of resolved entries only. *)
Lemma access_spec_ext entries entries' path ctx m :
  (∀ x, x ∈ entries ↔ x ∈ entries') → access_spec entries path ctx m → access_spec entries' path ctx m.
Proof.
  intros Heq. unfold access_spec.
  assert (∀ root m d, covers entries path root m d ↔ covers entries' path root m d) as Hc
    by (intros; unfold covers; by rewrite Heq).
  assert (unambiguous entries ↔ unambiguous entries') as Hu
    by (unfold unambiguous; by setoid_rewrite Heq).
  assert (∀ m, most_specific entries path m ↔ most_specific entries' path m) as Hm
    by (intros; unfold most_specific; by setoid_rewrite Hc).
  case_bool_decide; [|done]. rewrite Hu, Hm. by setoid_rewrite Hc.
Qed.

Lemma elem_of_resolved self ctx root m :
  (root, m) ∈ resolved_entries self ctx ↔
  ∃ e, e ∈ fs_entries self ∧ access e = m ∧ root ∈ entry_roots ctx (entry_path e)
       ∧ infer_path_convention root = infer_path_convention (ctx_cwd ctx).
Proof.
  unfold resolved_entries. rewrite list_elem_of_join. setoid_rewrite list_elem_of_fmap. split.
  - intros (l & Hin & e & -> & He). unfold resolved_entry in Hin.
    apply list_elem_of_fmap in Hin as (p & [= -> ->] & Hp).
    apply list_elem_of_In, filter_In in Hp as [Hp Hc%bool_decide_eq_true].
    apply list_elem_of_In in Hp. eauto 10.
  - intros (e & He & <- & Hr & Hc). exists (resolved_entry ctx e). split; [|eauto].
    unfold resolved_entry. apply list_elem_of_fmap. exists root. split; [done|].
    apply list_elem_of_In, filter_In. split; [by apply list_elem_of_In|].
    by apply bool_decide_eq_true.
Qed.

(** The order in which a policy lists its entries, and repeating an entry,
    do not change the access of any path. *)
Theorem access_ignores_order self self' path ctx :
  fs_kind self = fs_kind self' →
  (∀ e, e ∈ fs_entries self ↔ e ∈ fs_entries self') →
  resolve_access self path ctx = resolve_access self' path ctx.
Proof.
  intros Hk He. destruct (fs_kind self) eqn:Hk1.
  2-3: unfold resolve_access; by rewrite Hk1, <- Hk.
  eapply access_spec_unique; [|by apply resolve_access_meets_spec].
  eapply access_spec_ext; [|by apply resolve_access_meets_spec].
  intros [root m]. rewrite !elem_of_resolved. by setoid_rewrite He.
Qed.

(** ** Keeping denied reads *)

Lemma is_deny_spec m : is_deny m = true ↔ m = Deny.
Proof. unfold is_deny. by rewrite bool_decide_eq_true. Qed.

Lemma elem_of_deny_entries existing e :
  e ∈ deny_entries existing ↔ e ∈ fs_entries existing ∧ access e = Deny.
Proof.
  unfold deny_entries. rewrite list_elem_of_In, filter_In, <- list_elem_of_In, is_deny_spec. done.
Qed.

Lemma append_missing_spec extra (entries : list (FileSystemSandboxEntry Url)) :
  (∀ e, e ∈ entries → e ∈ foldl append_missing entries extra)
  ∧ (∀ e, e ∈ foldl append_missing entries extra → e ∈ entries ∨ e ∈ extra)
  ∧ (∀ e, e ∈ extra → ∃ e', e' ∈ foldl append_missing entries extra ∧ (e' = e ∨ entry_eq e' e = true)).
Proof.
  revert entries; induction extra as [|x extra IH]; intros entries; [simpl; set_solver|].
  cbn [foldl]. destruct (IH (append_missing entries x)) as (Hk & Hi & Hd).
  assert (∃ e', e' ∈ append_missing entries x ∧ (e' = x ∨ entry_eq e' x = true)) as (e' & He' & Hx).
  { unfold append_missing. destruct (existsb _ _) eqn:E; [|set_solver].
    apply existsb_exists in E as (e' & He' & Heq). exists e'. rewrite list_elem_of_In. auto. }
  assert (∀ e, e ∈ entries → e ∈ append_missing entries x) as Hsub
    by (intros; unfold append_missing; case_match; set_solver).
  assert (∀ e, e ∈ append_missing entries x → e ∈ entries ∨ e = x) as Hsup
    by (intros e; unfold append_missing; case_match; set_solver).
  split_and!; [by auto| |].
  { intros e He. destruct (Hi e He) as [He2|?]; [apply Hsup in He2|]; set_solver. }
  intros e [->|He]%elem_of_cons; [eauto|auto].
Qed.

(** Equal entries resolve alike on a POSIX executor. *)
Lemma entry_eq_roots ctx e e' root :
  entry_eq e' e = true → infer_path_convention root = Some Posix →
  root ∈ entry_roots ctx (entry_path e) → root ∈ entry_roots ctx (entry_path e') ∧ access e' = access e.
Proof.
  unfold entry_eq. rewrite !andb_true_iff, !bool_decide_eq_true. intros [[Hp Ha] _] Hc Hr.
  split; [|done]. destruct (entry_path e), (entry_path e'); simpl in Hp; try done;
    [|by apply bool_decide_eq_true in Hp as ->].
  simpl in Hr. apply list_elem_of_singleton in Hr as ->. simpl. apply list_elem_of_singleton.
  unfold uri_eq in Hp. apply orb_true_iff in Hp as [Hp%bool_decide_eq_true|Hp]; [done|].
  unfold windows_identity_path_bytes in Hp. rewrite Hc in Hp. simpl in Hp. by case_match.
Qed.

(** Adding denied entries keeps the mode or turns it into Deny. *)
Lemma access_spec_add_deny entries entries' path ctx m m' :
  (∀ x, x ∈ entries → x ∈ entries') →
  (∀ root a, (root, a) ∈ entries' → (root, a) ∈ entries ∨ a = Deny) →
  access_spec entries path ctx m → access_spec entries' path ctx m' → m' = m ∨ m' = Deny.
Proof.
  intros Hsub Hsup Hm Hm'. unfold access_spec in *. case_bool_decide; [|naive_solver].
  destruct Hm' as [[Hu' Hm']|[-> _]]; [|by right]. destruct (decide (m' = Deny)) as [|Hne]; [by right|left].
  assert (unambiguous entries) as Hu by (intros root a Hin; eapply Hu'; eauto).
  assert (most_specific entries path m') as Hms.
  { destruct Hm' as (root & d & (Hin & Hd & Hs) & Hmax). exists root, d. split.
    - destruct (Hsup _ _ Hin); [by split_and!|done].
    - intros r a d' (Hin' & Hd' & Hs'). apply (Hmax r). split_and!; eauto. }
  destruct Hm as [[_ Hm]|[-> [?|Hno]]]; [by eapply most_specific_unique|done|].
  destruct Hms as (root & d & Hc & _). by apply Hno in Hc.
Qed.

Definition denies_any existing : bool := existsb (λ e, is_deny (access e)) (fs_entries existing).

(** The entries of a preserved policy. *)
Lemma preserve_entries self existing :
  let new := preserve_deny_read_restrictions_from self existing in
  (fs_kind self = Restricted →
     fs_kind new = Restricted ∧ fs_entries new = append_deny_entries (fs_entries self) existing)
  ∧ (fs_kind self = Unrestricted →
     if denies_any existing
     then fs_kind new = Restricted
          ∧ fs_entries new = append_deny_entries [new_entry (Special Root) Write] existing
     else new = self)
  ∧ (fs_kind self = ExternalSandbox → new = self).
Proof.
  unfold preserve_deny_read_restrictions_from, is_restricted, denies_any.
  destruct (fs_kind self) eqn:Hk.
  - rewrite Hk. cbn [negb]. split; [|done]. intros _. by destruct (is_none _).
  - split_and!; [done| |done]. intros _.
    destruct (existsb _ _); [|by rewrite Hk]. cbn. done.
  - split_and!; [done|done|]. by rewrite Hk.
Qed.

Lemma preserve_cases self existing :
  fs_kind self ≠ ExternalSandbox →
  let new := preserve_deny_read_restrictions_from self existing in
  (denies_any existing = true ∨ fs_kind self = Restricted →
    fs_kind new = Restricted ∧ ∃ es, fs_entries new = append_deny_entries es existing
      ∧ ((es = fs_entries self ∧ fs_kind self = Restricted)
         ∨ (es = [new_entry (Special Root) Write] ∧ fs_kind self = Unrestricted)))
  ∧ (¬ (denies_any existing = true ∨ fs_kind self = Restricted) → new = self).
Proof.
  intros Hk new. destruct (preserve_entries self existing) as (HR & HU & _). fold new in HR, HU.
  destruct (fs_kind self); [| |done]; (split; [intros Hd|intros Hn]).
  - destruct (HR eq_refl) as [HkN Hes]. split; [done|]. eexists. split; [exact Hes|]. by left.
  - destruct Hn. by right.
  - destruct Hd as [Hd|?]; [|done]. specialize (HU eq_refl). rewrite Hd in HU.
    destruct HU as [HkN Hes]. split; [done|]. eexists. split; [exact Hes|]. by right.
  - specialize (HU eq_refl). destruct (denies_any existing); [|done]. destruct Hn. by left.
Qed.

Lemma append_deny_resolved self existing (entries : list (FileSystemSandboxEntry Url)) ctx :
  fs_entries self = append_deny_entries entries existing →
  (∀ e root, e ∈ entries → root ∈ entry_roots ctx (entry_path e) →
     infer_path_convention root = infer_path_convention (ctx_cwd ctx) →
     (root, access e) ∈ resolved_entries self ctx)
  ∧ (∀ root m, (root, m) ∈ resolved_entries self ctx →
     (∃ e, e ∈ entries ∧ access e = m ∧ root ∈ entry_roots ctx (entry_path e)
           ∧ infer_path_convention root = infer_path_convention (ctx_cwd ctx)) ∨ m = Deny)
  ∧ (infer_path_convention (ctx_cwd ctx) = Some Posix →
     ∀ root, (root, Deny) ∈ resolved_entries existing ctx → (root, Deny) ∈ resolved_entries self ctx).
Proof.
  intros Heq. destruct (append_missing_spec (deny_entries existing) entries) as (Hk & Hi & Hd).
  fold (append_deny_entries entries existing) in *. rewrite <- Heq in *. split_and!.
  - intros e root He Hr Hc. apply elem_of_resolved. eauto 10.
  - intros root m (e & He & Ha & Hr & Hc)%elem_of_resolved.
    destruct (Hi e He) as [|[_ Hdeny]%elem_of_deny_entries]; [left; eauto 10|right; congruence].
  - intros Hp root (e & He & Ha & Hr & Hc)%elem_of_resolved. apply elem_of_resolved.
    destruct (Hd e) as (e' & He' & Heq'); [by apply elem_of_deny_entries|].
    destruct Heq' as [->|Heq']; [eauto 10|].
    destruct (entry_eq_roots ctx e e' root Heq') as [Hr' Ha']; [congruence|done|].
    exists e'. split_and!; congruence.
Qed.

(** Keeping the denied reads of an earlier policy never adds access: every
    path keeps its mode or becomes denied.  On a POSIX executor a path that an
    earlier denied root covers is denied unless a deeper entry of the new
    policy covers it. *)
Theorem preserved_denials self existing path ctx :
  fs_kind self ≠ ExternalSandbox →
  let new := preserve_deny_read_restrictions_from self existing in
  (resolve_access new path ctx = resolve_access self path ctx ∨ resolve_access new path ctx = Deny)
  ∧ (infer_path_convention (ctx_cwd ctx) = Some Posix →
     ∀ root d, covers (resolved_entries existing ctx) path root Deny d →
       (∀ root' m d', covers (resolved_entries new ctx) path root' m d' → m ≠ Deny → d' ≤ d) →
       resolve_access new path ctx = Deny).
Proof.
  intros Hk new. pose proof (preserve_cases self existing Hk) as Hnew. fold new in Hnew.
  split.
  - destruct (decide (denies_any existing = true ∨ fs_kind self = Restricted)) as [Hd|Hd].
    2: { left. by rewrite (proj2 Hnew Hd). }
    destruct (proj1 Hnew Hd) as (HkN & es & Hes & Hcase).
    destruct (append_deny_resolved new existing es ctx Hes) as (Hkeep & Hsup & _).
    pose proof (resolve_access_meets_spec new path ctx HkN) as Hspec.
    destruct Hcase as [[-> HkS]|[-> HkS]].
    + eapply access_spec_add_deny; [..|exact Hspec]; [| |by apply resolve_access_meets_spec].
      * intros [root m] (e & He & <- & Hr & Hc)%elem_of_resolved. by apply Hkeep.
      * intros root m Hin. destruct (Hsup _ _ Hin) as [?|?]; [left|by right].
        by apply elem_of_resolved.
    + assert (resolve_access self path ctx = Write) as -> by (unfold resolve_access; by rewrite HkS).
      unfold access_spec in Hspec. case_bool_decide; [|by right].
      destruct Hspec as [[_ (root & d & (Hin & _) & _)]|[? _]]; [|by right].
      destruct (Hsup _ _ Hin) as [(e & He & <- & _)|]; [left|by right].
      by apply list_elem_of_singleton in He as ->.
  - intros Hp root d Hcov Hdeep.
    assert (denies_any existing = true) as Hd.
    { destruct Hcov as [(e & He & Ha & _)%elem_of_resolved _]. unfold denies_any.
      apply existsb_exists. exists e. rewrite <- list_elem_of_In. by rewrite is_deny_spec. }
    destruct (proj1 Hnew (or_introl Hd)) as (HkN & es & Hes & _).
    destruct (append_deny_resolved new existing es ctx Hes) as (_ & _ & Hden).
    assert (covers (resolved_entries new ctx) path root Deny d) as HcovN.
    { destruct Hcov as (Hin & ?). split; [by apply Hden|done]. }
    pose proof (resolve_access_meets_spec new path ctx HkN) as Hspec.
    unfold access_spec in Hspec. case_bool_decide; [|done].
    destruct Hspec as [[_ (r & d' & Hc & Hmax)]|[? _]]; [|done].
    destruct (decide (resolve_access new path ctx = Deny)) as [|Hne]; [done|].
    pose proof (Hdeep _ _ _ Hc Hne). destruct (Hmax _ _ _ HcovN) as [?|[_ Hrank]]; [lia|].
    by destruct (resolve_access new path ctx); simpl in Hrank; lia || done.
Qed.

(** ** Adding grants *)

Lemma comparable_lexical path ctx :
  infer_path_convention (ctx_cwd ctx) = Some Posix → comparable path ctx = true ↔
  lexical path ∧ lexical (ctx_cwd ctx).
Proof.
  intros Hp. unfold comparable, lexical. rewrite Hp, !andb_true_iff, bool_decide_eq_true, !negb_true_iff.
  assert (∀ (o : option nat), is_none o = false ↔ is_Some o) as Hs
    by (intros [?|]; simpl; split; try done; intros [? [=]]).
  rewrite !Hs. naive_solver.
Qed.

Lemma covers_lexical self ctx path root m d :
  infer_path_convention (ctx_cwd ctx) = Some Posix →
  covers (resolved_entries self ctx) path root m d → lexical root ∧ d = length (names root).
Proof.
  intros Hp (Hin & Hd & _). apply elem_of_resolved in Hin as (_ & _ & _ & _ & Hc).
  assert (lexical root) as Hl by (split; [congruence|by eexists]). split; [done|].
  by apply depth_names.
Qed.

(** The mode at a path is that at a point between the path and its most
    specific entry. *)
Lemma access_between self ctx path root m d r :
  fs_kind self = Restricted → infer_path_convention (ctx_cwd ctx) = Some Posix →
  lexical path → lexical (ctx_cwd ctx) → lexical r → uri_starts_with path r = true →
  unambiguous (resolved_entries self ctx) →
  covers (resolved_entries self ctx) path root m d → d ≤ length (names r) →
  (∀ root' m' d', covers (resolved_entries self ctx) path root' m' d' →
     d' < d ∨ (d' = d ∧ access_rank m' ≤ access_rank m)) →
  resolve_access self r ctx = m.
Proof.
  intros Hk Hp Hlp Hlc Hlr Hpr Hu Hcov Hle Hmax.
  destruct (covers_lexical self ctx path root m d Hp Hcov) as [Hlroot Hd].
  assert (∀ root' m' d', covers (resolved_entries self ctx) r root' m' d' →
    covers (resolved_entries self ctx) path root' m' d') as Hup.
  { intros root' m' d' Hc. destruct (covers_lexical _ _ _ _ _ _ Hp Hc) as [Hl' _].
    destruct Hc as (Hin & Hd' & Hs). split_and!; [done..|].
    apply starts_with_prefix in Hs, Hpr; [|done..]. apply starts_with_prefix; [done..|].
    by etransitivity. }
  assert (covers (resolved_entries self ctx) r root m d) as Hr.
  { destruct Hcov as (Hin & Hd' & Hs). split_and!; [done..|].
    apply starts_with_prefix in Hs, Hpr; [|done..]. apply starts_with_prefix; [done..|].
    eapply prefix_chain; [done..|lia]. }
  eapply access_spec_unique; [by apply resolve_access_meets_spec|].
  unfold access_spec. rewrite bool_decide_eq_true_2 by (by apply comparable_lexical).
  left. split; [done|]. exists root, d. split; [done|]. intros root' m' d' Hc%Hup. by eapply Hmax.
Qed.

Lemma elem_of_push_entry self r a ctx root m :
  (root, m) ∈ resolved_entries (push_entry self (new_entry (PathEntry r) a)) ctx ↔
  (root, m) ∈ resolved_entries self ctx
  ∨ (root = r ∧ m = a ∧ infer_path_convention r = infer_path_convention (ctx_cwd ctx)).
Proof.
  rewrite !elem_of_resolved. unfold push_entry. cbn [with_entries fs_entries].
  setoid_rewrite elem_of_app. setoid_rewrite list_elem_of_singleton. split.
  - intros (e & [He| ->] & Ha & Hr & Hc); [left; eauto 10|right]. simpl in *.
    apply list_elem_of_singleton in Hr as ->. auto.
  - intros [(e & He & Ha & Hr & Hc)|(-> & -> & Hc)]; [eauto 10|].
    exists (new_entry (PathEntry r) a). simpl. rewrite list_elem_of_singleton. auto.
Qed.

(** Granting a read to a root that is denied keeps every other access. *)
Lemma push_read_keeps self r path ctx :
  fs_kind self = Restricted → infer_path_convention (ctx_cwd ctx) = Some Posix →
  is_Some (lexical_depth r) ∨ is_opaque r = true →
  resolve_access self r ctx = Deny → resolve_access self path ctx ≠ Deny →
  resolve_access (push_entry self (new_entry (PathEntry r) Read)) path ctx = resolve_access self path ctx.
Proof.
  intros Hk Hp Hr Hdeny Hne. set (new := push_entry self _).
  pose proof (resolve_access_meets_spec self path ctx Hk) as Hspec.
  unfold access_spec in Hspec. case_bool_decide as Hcomp; [|done].
  destruct Hspec as [[Hu (root & d & Hcov & Hmax)]|[? _]]; [|done].
  eapply access_spec_unique; [by apply resolve_access_meets_spec|].
  unfold access_spec. rewrite bool_decide_eq_true_2 by done. left. split.
  { intros root' m [Hin|(-> & _)]%elem_of_push_entry; [by eapply Hu|done]. }
  exists root, d. split.
  { destruct Hcov as (Hin & ?). split; [|done]. apply elem_of_push_entry. by left. }
  intros root' m' d' Hc. pose proof Hc as (Hin & Hd' & Hs).
  apply elem_of_push_entry in Hin as [Hin|(-> & -> & Hconv)]; [by apply (Hmax root')|].
  assert (lexical r) as Hlr by (split; [congruence|by eexists]).
  apply comparable_lexical in Hcomp as [Hlp Hlc]; [|done].
  rewrite (depth_names r d' Hlr Hd'). destruct (decide (d < length (names r))) as [Hlt|].
  - destruct Hne. rewrite <- Hdeny. symmetry.
    apply (access_between self ctx path root _ d r); try done. lia.
  - simpl. lia.
Qed.

(** ** Protected metadata *)

Lemma find_map_opt_Some {A B} (f : A → option B) l y :
  find_map_opt f l = Some y → ∃ x, x ∈ l ∧ f x = Some y.
Proof.
  induction l as [|x l IH]; simpl; [done|]. destruct (f x) eqn:Hf.
  - intros [= ->]. exists x. set_solver.
  - intros H. destruct (IH H) as (x' & ? & ?). exists x'. set_solver.
Qed.

Lemma find_map_opt_None {A B} (f : A → option B) l :
  find_map_opt f l = None ↔ ∀ x, x ∈ l → f x = None.
Proof.
  induction l as [|x l IH]; simpl; [set_solver|]. destruct (f x) eqn:Hf.
  - split; [done|]. intros H. specialize (H x). set_solver.
  - rewrite IH. set_solver.
Qed.

(** A metadata directory of a writable root. *)
Definition metadata_dir entries (protected : Url) : Prop :=
  ∃ root name, (root, Write) ∈ entries ∧ name ∈ PROTECTED_METADATA_PATH_NAMES
    ∧ join_descendant root name = Ok protected.

Lemma can_write_spec m : can_write m = true ↔ m = Write.
Proof. by destruct m. Qed.

Lemma protecting_root_Some entries path protected name :
  protecting_root path entries = Some (protected, name) →
  metadata_dir entries protected ∧ uri_starts_with path protected = true.
Proof.
  unfold protecting_root. intros ([root m] & Hin & Hf)%find_map_opt_Some.
  apply list_elem_of_In, filter_In in Hin as [Hin ->%can_write_spec]. apply list_elem_of_In in Hin.
  apply find_map_opt_Some in Hf as (n & Hn & Hf). apply bind_Some in Hf as (p & Hp & Hf).
  destruct (uri_starts_with path p) eqn:Hs; simplify_eq. split; [|done].
  exists root, name. split_and!; [done..|]. by destruct (join_descendant root name); simplify_eq/=.
Qed.

Lemma protecting_root_None entries path protected :
  protecting_root path entries = None → metadata_dir entries protected →
  uri_starts_with path protected = false.
Proof.
  unfold protecting_root. rewrite find_map_opt_None. intros Hno (root & name & Hin & Hn & Hj).
  assert ((root, Write) ∈ List.filter (λ '(_, a), can_write a) entries) as Hin'.
  { apply list_elem_of_In, filter_In. by rewrite <- list_elem_of_In. }
  apply Hno in Hin'. rewrite find_map_opt_None in Hin'. apply Hin' in Hn. rewrite Hj in Hn.
  cbn in Hn. by destruct (uri_starts_with path protected).
Qed.

(** C17: Unless writes are unrestricted, a path inside a metadata directory
    ([.git], [.agents], [.codex]) of a writable root cannot be written, however
    the entries are listed, when no writable entry inside a metadata directory
    covers it. *)
Theorem metadata_is_protected (h : Host) self path ctx protected :
  has_full_disk_write_access h self = false →
  metadata_dir (resolved_entries self ctx) protected →
  uri_starts_with path protected = true →
  (∀ root dir, (root, Write) ∈ resolved_entries self ctx → uri_starts_with path root = true →
     metadata_dir (resolved_entries self ctx) dir → uri_starts_with root dir = false) →
  can_write_path h self path ctx = false
  ∧ ∃ name, name ∈ PROTECTED_METADATA_PATH_NAMES ∧ metadata_write_denial self path ctx = Some name.
Proof.
  intros Hfull Hdir Hpath Hgrant.
  assert (is_restricted self = true) as Hr.
  { unfold has_full_disk_write_access, is_restricted in *. by destruct (fs_kind self). }
  assert (∃ name, name ∈ PROTECTED_METADATA_PATH_NAMES
    ∧ metadata_write_denial self path ctx = Some name) as (name & Hn & Hden).
  { unfold metadata_write_denial. rewrite Hr. cbn [negb].
    destruct (protecting_root path _) as [[p n]|] eqn:Hp.
    - pose proof (protecting_root_Some _ _ _ _ Hp) as [Hd _].
      assert (n ∈ PROTECTED_METADATA_PATH_NAMES) as Hn.
      { unfold protecting_root in Hp. apply find_map_opt_Some in Hp as ([??] & _ & Hf).
        apply find_map_opt_Some in Hf as (n' & Hn' & Hf). apply bind_Some in Hf as (q & _ & Hf).
        by case_match; simplify_eq. }
      exists n. split; [done|]. cbn [mbind option_bind].
      destruct (existsb _ _) eqn:He; [|done]. exfalso.
      apply existsb_exists in He as ([root m] & Hin & Hc). apply list_elem_of_In in Hin.
      rewrite !andb_true_iff in Hc. destruct Hc as [[->%can_write_spec Hs] Hs'].
      rewrite (Hgrant root p) in Hs'; done.
    - by rewrite (protecting_root_None _ _ _ Hp Hdir) in Hpath. }
  split; [|eauto]. unfold can_write_path. by rewrite Hfull, Hden, andb_false_r.
Qed.

End access.
