(* ===== verification/SandboxLocal.v ===== *)
(** * Sandbox policies on a POSIX executor

    Consequences of the access rules under the laws of the URL crates: a policy
    with full write access writes everywhere, extra readable roots keep what
    was granted, denied reads are found by the matcher. *)

From S2P Require Import Prelude RustStr Utf8 UnixPath Permissions ExecFs.
From S2P Require Import AbsolutePath PathUri PathUriFacts SandboxPolicy SandboxAccess.

#[local] Arguments lit : simpl never.

Section posix.
Context {Url : Type} `{!EqDecision Url} `{Hops : !UrlOps Url} `{Hlaws : !UrlLaws Url}.
#[local] Set Default Proof Using "Hlaws".
Implicit Types (self : FileSystemSandboxPolicy Url) (ctx : FileSystemSandboxPolicyContext Url)
  (path root u v : Url).

(** ** The root of the file system *)

Lemma find_prefix_nonempty (a b : list str) :
  List.find nonempty a = List.find nonempty (a ++ b) ∨ List.find nonempty a = None.
Proof using Type.
  induction a as [|x a IH]; simpl; [by right|]. destruct (nonempty x); [by left|done].
Qed.

(** Removing segments at the end keeps a POSIX URI one. *)
Lemma segs_prefix_posix u v k :
  local u → no_null u → infer_path_convention u = Some Posix →
  local v → (segs v = [[]] ∨ segs u = segs v ++ k) →
  no_null v ∧ infer_path_convention v = Some Posix.
Proof.
  intros Hl Hn Hc Hl' Hs. assert (no_null v) as Hn'.
  { unfold no_null in *. destruct Hs as [->|Hs].
    - apply Forall_singleton. rewrite decode_nil. apply not_elem_of_nil.
    - rewrite Hs in Hn. by apply Forall_app in Hn as [? _]. }
  split; [done|]. apply local_posix in Hc; [|done..]. apply local_posix; [done..|].
  unfold first_segment in *. destruct (local_segs u Hl) as (? & _ & _ & Hsu).
  destruct (local_segs v Hl') as (? & _ & _ & Hsv). rewrite Hsu in Hc. rewrite Hsv.
  cbn [mbind option_bind] in *. destruct Hs as [->|Hs]; [done|]. rewrite Hs in Hc.
  by destruct (find_prefix_nonempty (segs v) k) as [->| ->].
Qed.

Lemma uri_parent_step u p :
  local u → no_null u → infer_path_convention u = Some Posix → uri_parent u = Some p →
  local p ∧ no_null p ∧ infer_path_convention p = Some Posix
  ∧ (segs p = [[]] ∨ length (segs p) < length (segs u)).
Proof.
  intros Hl Hn Hc Hp. unfold uri_parent, is_opaque, opaque_fallback_bytes in Hp.
  rewrite no_null_not_opaque in Hp by done. cbn [is_none negb] in Hp. rewrite Hc in Hp.
  destruct (local_segs u Hl) as (s & _ & Hs & Hsegs). rewrite Hsegs in Hp.
  cbn [mbind option_bind anchor_depth] in Hp. case_match; [done|]. simplify_eq.
  destruct (edit_local u Hl) as (_ & Hpe & _). destruct (edit_local _ Hpe) as (_ & _ & Hpop & _).
  destruct (list_snoc_cases (segs u)) as [He|(l & x & He)].
  { rewrite Hs in He. by apply split_on_nonempty in He. }
  assert (∃ l' y k, segs (segments_pop_if_empty u) = l' ++ [y] ∧ segs u = (l' ++ [y]) ++ k)
    as (l' & y & k & Hpe' & Hk).
  { rewrite (pop_if_empty_segs u l x) by done. destruct (is_empty x && negb (is_empty l)) eqn:E.
    - bool_prop. destruct (list_snoc_cases l) as [->|(l' & y & ->)]; [done|]. exists l', y, [x]. done.
    - exists l, x, []. by rewrite app_nil_r. }
  pose proof (pop_segs _ l' y Hpe Hpe') as Hpop'.
  destruct (segs_prefix_posix u (segments_pop (segments_pop_if_empty u)) ([y] ++ k)) as [Hn' Hc']; try done.
  { rewrite Hpop'. destruct l' as [|a l']; [by left|right]. by rewrite Hk, <- app_assoc. }
  split_and!; try done. rewrite Hpop', Hk, !length_app. destruct l' as [|a l']; [by left|right].
  simpl. lia.
Qed.

Lemma ancestors_root fuel u :
  local u → no_null u → infer_path_convention u = Some Posix →
  (segs u = [[]] ∧ 0 < fuel) ∨ length (segs u) < fuel →
  ∃ r, last (uri_ancestors_loop fuel u) = Some r ∧ lexical r ∧ names r = [].
Proof.
  revert u; induction fuel as [|fuel IH]; intros u Hl Hn Hc Hf; [lia|].
  cbn [uri_ancestors_loop]. destruct (uri_parent u) as [p|] eqn:Hp.
  - destruct (uri_parent_step u p Hl Hn Hc Hp) as (Hl' & Hn' & Hc' & Hlen).
    destruct (IH p Hl' Hn' Hc') as (r & Hr & Hlex & Hnames).
    + destruct (local_segs u Hl) as (s & _ & Hs & Hsegs).
      destruct Hf as [[Hroot _]|Hf].
      * exfalso. unfold uri_parent, is_opaque, opaque_fallback_bytes in Hp.
        rewrite no_null_not_opaque in Hp by done. cbn [is_none negb] in Hp. rewrite Hc, Hsegs in Hp.
        cbn [mbind option_bind] in Hp. unfold segment_count in Hp. rewrite Hsegs, Hroot in Hp. done.
      * destruct Hlen as [Hz|Hz]; [left|right; lia]. split; [done|].
        destruct (segs u) eqn:E; [by symmetry in Hs; apply split_on_nonempty in Hs|].
        simpl in Hf. lia.
    + exists r. split; [|done]. rewrite last_cons, Hr. done.
  - exists u. split; [done|]. assert (names u = []) as Hnames.
    { unfold uri_parent, is_opaque, opaque_fallback_bytes in Hp.
      rewrite no_null_not_opaque in Hp by done. cbn [is_none negb] in Hp. rewrite Hc in Hp.
      destruct (local_segs u Hl) as (s & _ & Hs & Hsegs). rewrite Hsegs in Hp.
      cbn [mbind option_bind anchor_depth] in Hp. case_match eqn:Hz; [|done]. bool_prop.
      unfold segment_count in Hz. rewrite Hsegs in Hz. cbn [from_option id] in Hz. rewrite names_segs.
      destruct (List.filter nonempty (segs u)); [done|]. simpl in Hz. lia. }
    split; [|done]. apply lexical_intro; try done. by rewrite Hnames.
Qed.

(** The working directory of a POSIX executor. *)
Definition posix_context ctx : Prop :=
  local (ctx_cwd ctx) ∧ no_null (ctx_cwd ctx) ∧ lexical (ctx_cwd ctx).

Lemma file_system_root_spec ctx :
  posix_context ctx → ∃ r, file_system_root ctx = Some r ∧ lexical r ∧ names r = [].
Proof.
  intros (Hl & Hn & Hlex). destruct (lexical_facts _ Hlex) as (_ & _ & Hd & _).
  unfold file_system_root. rewrite Hd. cbn [mbind option_bind]. unfold uri_ancestors.
  apply ancestors_root; [done|done|apply Hlex|]. right. unfold segs. lia.
Qed.

(** ** [/tmp] *)

Lemma slash_tmp_uri u :
  infer_path_convention u = Some Posix →
  ∃ t, uri_join u (lit "/tmp") = Ok t ∧ lexical t ∧ names t = [encode (lit "tmp")].
Proof.
  intros Hc. destruct parse_root as (r & Hparse & Hl & Hp).
  destruct (edit_local r Hl) as (Hlc & _). pose proof (clear_segs r Hl) as Hcs.
  assert (plain_name (lit "tmp")) as Hplain by (by apply (bool_decide_unpack _); vm_compute).
  assert (solid (segments_clear r)) as Hsol by (by left).
  assert (no_null (segments_clear r)) as Hnc.
  { unfold no_null. rewrite Hcs. apply Forall_singleton. rewrite decode_nil. apply not_elem_of_nil. }
  destruct (push_names (segments_clear r) (lit "tmp") []) as (Hs & Hn & Hnames); try done.
  { rewrite names_segs, Hcs. done. }
  destruct (edit_local _ Hlc) as (_ & _ & _ & Hpush). set (t := segments_push (segments_clear r) (lit "tmp")) in *.
  assert (infer_path_convention t = Some Posix) as Hct.
  { eapply no_drive_posix; [apply Hpush|done|exact Hnames|]. intros n [= <-] [c Hdr]. done. }
  exists t. split; [|split; [|done]].
  - unfold uri_join, from_absolute_native_path, parse_posix_path, path_uri_from_segments.
    change (contains_char (lit "/tmp") 0) with false. change (is_empty (lit "/tmp")) with false.
    cbv iota. rewrite Hc.
    change (strip_prefix (lit "/") (lit "/tmp")) with (Some (lit "tmp")). cbn [mbind option_bind].
    change (contains_char (lit "tmp") 0) with false. cbv iota.
    rewrite Hparse. cbn [mbind option_bind]. change (split_on 47 (lit "tmp")) with [lit "tmp"].
    destruct (local_segs r Hl) as (s & _ & _ & Hrs).
    change (foldl (normalize_segment (anchor_depth Posix)) (0, [], false) [lit "tmp"])
      with (1, [lit "tmp"], false). cbn [is_none negb orb andb]. rewrite Hrs. cbn [mbind option_bind].
    rewrite bool_decide_eq_false_2 by done. cbn [andb orb foldl]. fold t.
    rewrite try_from_local by (done || apply Hpush). cbn [mbind option_bind]. rewrite Hct.
    destruct (Hpush (lit "tmp")) as (_ & _ & _ & _ & Hh & _). fold t in Hh. rewrite Hh.
    by rewrite bool_decide_eq_false_2, bool_decide_eq_true_2.
  - apply lexical_intro; [apply Hpush|done|done|]. rewrite Hnames. apply Forall_singleton.
    by apply plain_encode.
Qed.

(** ** Full write access *)

Lemma covers_names self ctx path root m :
  posix_context ctx → lexical path → (root, m) ∈ resolved_entries self ctx → lexical root →
  names root `prefix_of` names path →
  covers (resolved_entries self ctx) path root m (length (names root)).
Proof using Type.
  intros Hctx Hp Hin Hr Hpre. split; [done|]. split.
  - by destruct (lexical_facts root Hr) as (_ & _ & ? & _).
  - by apply starts_with_prefix.
Qed.

(** Roots of equal special paths are equal. *)
Lemma share_special_roots ctx (a b : FileSystemSpecialPath) :
  special_paths_share_target a b = true → entry_roots ctx (Special a) = entry_roots ctx (Special b).
Proof using Type.
  destruct a, b; simpl; try done; rewrite ?andb_true_iff, ?bool_decide_eq_true; try done.
  by intros ->.
Qed.

Lemma path_eq_names ns : Forall name_ok ns → path_eq (abs_of ns) (lit "/tmp") = true → ns = [lit "tmp"].
Proof using Type.
  intros Hok H. unfold path_eq in H. apply bool_decide_eq_true in H. rewrite components_abs in H by done.
  change (components (lit "/tmp")) with [RootDir; Normal (lit "tmp")] in H.
  destruct ns as [|n [|n' ns]]; simplify_eq/=. done.
Qed.

(** What the constructors of [PathUri] check of the URL. *)
Definition valid_uri u : Prop :=
  url_scheme u = FILE_SCHEME ∧ url_username u = [] ∧ url_has_password u = false
  ∧ url_port u = None ∧ url_query u = None ∧ url_fragment u = None.

Lemma valid_local u : valid_uri u → lexical u → local u.
Proof using Type.
  intros (? & ? & ? & ? & ? & ?) Hlex. destruct (lexical_facts u Hlex) as (_ & ? & _).
  by split_and!.
Qed.

Lemma to_abs_path_infer home u p : to_abs_path home u = Ok p → infer_path_convention u = Some Posix.
Proof using Type.
  unfold to_abs_path. cbn [native]. destruct (bool_decide _) eqn:Hc; [|done]. by bool_prop.
Qed.

(** A path entry that stands for [/] or [/tmp] has the names of that path. *)
Lemma special_match_names (h : Host) u (value : FileSystemSpecialPath) p :
  valid_uri u → is_Some (lexical_depth u) ∨ is_opaque u = true →
  to_abs_path (host_home h) u = Ok p → special_path_matches_absolute_path value p = true →
  lexical u
  ∧ ((value = Root ∧ names u = []) ∨ (value = SlashTmp ∧ names u = [encode (lit "tmp")])).
Proof.
  intros Hv Hd Hp Hm. pose proof (to_abs_path_infer _ _ _ Hp) as Hc.
  assert (∀ ns, Forall name_ok ns → p = abs_of ns →
    (value = Root ∧ ns = []) ∨ (value = SlashTmp ∧ ns = [lit "tmp"])) as Hns.
  { intros ns Hok ->. destruct value; simpl in Hm; try done.
    - left. rewrite parent_abs in Hm by done. by destruct ns.
    - right. by apply path_eq_names in Hm as ->. }
  assert (lexical u) as Hlex.
  { destruct Hd as [Hd|Ho]; [by split|exfalso]. unfold is_opaque in Ho.
    unfold to_abs_path in Hp. rewrite Hc in Hp. cbn [native] in Hp.
    rewrite bool_decide_eq_true_2 in Hp by done. cbn [negb] in Hp.
    unfold opaque_fallback_bytes in Ho. destruct (decode_bad_path_uri u) as [b|] eqn:Hb; [|done].
    destruct (from_utf8 b) as [d|]; [|done].
    destruct (from_absolute_path_checked _ d) as [q|] eqn:Hq; [|done].
    destruct (uri_eq (from_abs_path q) u) eqn:He; simplify_eq.
    assert (normal_abs p) as (ns & Hok & Hpn).
    { unfold from_absolute_path_checked in Hq. case_match; simplify_eq. by apply absolutize_from_normal. }
    rewrite posix_eq in He by (apply from_abs_path_posix; by exists ns). bool_prop. subst u.
    destruct (from_abs_path_names ns) as (_ & _ & Hlex & _); [done|..].
    - destruct (Hns ns Hok Hpn) as [[_ ->]|[_ ->]]; [done|]. apply Forall_singleton. vm_compute. set_solver.
    - destruct (Hns ns Hok Hpn) as [[_ ->]|[_ ->]]; [done|]. intros n [= <-] [c Hdr]. done.
    - rewrite <- Hpn in Hlex. destruct (lexical_facts _ Hlex) as (Hop & _).
      apply is_opaque_false in Hop. unfold opaque_fallback_bytes in Hop. congruence. }
  split; [done|]. destruct (to_abs_path_names _ u p (valid_local u Hv Hlex) Hlex Hp) as (ns & Hok & Hpn & ->).
  destruct (Hns ns Hok Hpn) as [[? ->]|[? ->]]; [by left|by right].
Qed.

Lemma override_spec (h : Host) self e :
  has_same_target_write_override h self e = true →
  access e = Read ∧ ∃ c, c ∈ fs_entries self ∧ access c = Write
    ∧ file_system_paths_share_target h (entry_path c) (entry_path e) = true.
Proof using Type.
  intros (c & Hc & Hs)%existsb_exists. apply list_elem_of_In in Hc.
  rewrite !andb_true_iff in Hs. destruct Hs as [[Hw%can_write_spec Hr] Hs].
  rewrite Hw in Hr. split; [by destruct (access e)|]. by exists c.
Qed.

(** A write entry at the target of an entry covers what that entry covers, at
    the same depth. *)
Lemma override_covers (h : Host) self ctx path e c root d :
  posix_context ctx → lexical path → unambiguous (resolved_entries self ctx) →
  Forall (λ e, ∀ u, entry_path e = PathEntry u → valid_uri u) (fs_entries self) →
  e ∈ fs_entries self → root ∈ entry_roots ctx (entry_path e) →
  covers (resolved_entries self ctx) path root (access e) d →
  c ∈ fs_entries self → access c = Write →
  file_system_paths_share_target h (entry_path c) (entry_path e) = true →
  ∃ root', covers (resolved_entries self ctx) path root' Write d.
Proof.
  intros Hctx Hpath Hu Hvalid He Hin Hcov Hc Hw Hshare.
  pose proof (proj1 (proj2 (proj2 Hctx))) as Hposix. rewrite Forall_forall in Hvalid.
  destruct (covers_lexical self ctx path root _ d Hposix Hcov) as [Hlr Hd].
  pose proof Hcov as (Hre & Hdep & Hs). pose proof (proj1 (starts_with_prefix _ _ Hpath Hlr) Hs) as Hpre.
  assert (∀ u, entry_path c = PathEntry u → infer_path_convention u = Some Posix →
    (u, Write) ∈ resolved_entries self ctx) as Hres.
  { intros u Hu' Hcu. apply elem_of_resolved. exists c. rewrite Hu', Hcu, Hposix. simpl. by rewrite Hw; set_solver. }
  destruct (entry_path c) as [u|g|v] eqn:Ec, (entry_path e) as [u'|g'|v'] eqn:Ee; simpl in Hshare; try done;
    simpl in Hin.
  - apply list_elem_of_singleton in Hin as ->. assert (u = u') as ->.
    { unfold uri_eq in Hshare. apply orb_true_iff in Hshare as [?%bool_decide_eq_true|Hwin]; [done|].
      unfold windows_identity_path_bytes at 2 in Hwin. rewrite (proj1 Hlr) in Hwin. simpl in Hwin.
      by case_match. }
    exists u'. split; [|by split]. apply Hres; [done|apply Hlr].
  - destruct (to_abs_path _ u) as [p|] eqn:Hp; [|done]. simpl in Hshare.
    pose proof (to_abs_path_infer _ _ _ Hp) as Hcu. specialize (Hres u eq_refl Hcu).
    destruct (special_match_names h u v' p) as [Hlu Hcase]; try done; [by apply (Hvalid c)|by eapply Hu|].
    assert (names root = names u) as Hnames.
    { destruct Hcase as [[-> ->]|[-> ->]]; simpl in Hin.
      - destruct (file_system_root_spec ctx Hctx) as (r & Hr & _ & Hn). rewrite Hr in Hin.
        apply list_elem_of_singleton in Hin as ->. done.
      - rewrite bool_decide_eq_true_2 in Hin by done.
        destruct (slash_tmp_uri (ctx_cwd ctx) Hposix) as (t & Ht & _ & Hn). rewrite Ht in Hin.
        apply list_elem_of_singleton in Hin as ->. done. }
    exists u. rewrite Hd, Hnames. apply covers_names; try done. by rewrite <- Hnames.
  - by apply elem_of_nil in Hin.
  - apply list_elem_of_singleton in Hin as ->. destruct (to_abs_path _ u') as [p|] eqn:Hp; [|done].
    simpl in Hshare. destruct (special_match_names h u' v p) as [_ Hcase]; try done;
      [by apply (Hvalid e)|left; by eexists|].
    destruct Hcase as [[-> Hn]|[-> Hn]].
    + destruct (file_system_root_spec ctx Hctx) as (r & Hr & Hlroot & Hn').
      exists r. rewrite Hd, Hn, <- Hn'. apply covers_names; try done; [|rewrite Hn'; apply prefix_nil].
      apply elem_of_resolved. exists c. rewrite Ec. simpl. rewrite Hr, (proj1 Hlroot), Hposix. simpl. set_solver.
    + destruct (slash_tmp_uri (ctx_cwd ctx) Hposix) as (t & Ht & Hlt & Hn').
      exists t. rewrite Hd, Hn, <- Hn'. apply covers_names; try done; [|by rewrite Hn', <- Hn].
      apply elem_of_resolved. exists c. rewrite Ec. simpl. rewrite bool_decide_eq_true_2 by done.
      rewrite Ht, (proj1 Hlt), Hposix. simpl. set_solver.
  - exists root. split; [|by split]. apply elem_of_resolved. exists c. rewrite Ec.
    rewrite (share_special_roots ctx v v' Hshare). split_and!; try done. by rewrite Hposix, (proj1 Hlr).
Qed.

(** Where the policy has full write access, every path of a POSIX executor
    resolves to Write, whatever read entries the policy lists as well. *)
Theorem full_write_access_is_total (h : Host) self path ctx :
  has_full_disk_write_access h self = true →
  posix_context ctx → lexical path → unambiguous (resolved_entries self ctx) →
  Forall (λ e, ∀ u, entry_path e = PathEntry u → valid_uri u) (fs_entries self) →
  resolve_access self path ctx = Write ∧ can_write_path h self path ctx = true.
Proof.
  intros Hfull Hctx Hpath Hu Hvalid. assert (resolve_access self path ctx = Write) as Hw;
    [|unfold can_write_path; by rewrite Hw, Hfull].
  unfold has_full_disk_write_access in Hfull. destruct (fs_kind self) eqn:Hk;
    [|unfold resolve_access; by rewrite Hk..].
  apply andb_true_iff in Hfull as [Hroot Hnarrow%negb_true_iff].
  pose proof (proj1 (proj2 (proj2 Hctx))) as Hposix.
  destruct (file_system_root_spec ctx Hctx) as (r & Hr & Hlr & Hnr).
  assert (covers (resolved_entries self ctx) path r Write 0) as Hcovroot.
  { replace 0 with (length (names r)) by (by rewrite Hnr). apply covers_names; try done;
      [|rewrite Hnr; apply prefix_nil]. apply elem_of_resolved.
    unfold has_root_access in Hroot. apply andb_true_iff in Hroot as [_ He].
    apply existsb_exists in He as (e & He & Hm). apply list_elem_of_In in He. exists e.
    destruct (entry_path e) as [| |[]]; try done. apply can_write_spec in Hm. simpl.
    rewrite Hr, (proj1 Hlr), Hposix. simpl. set_solver. }
  pose proof (resolve_access_meets_spec self path ctx Hk) as Hspec. unfold access_spec in Hspec.
  rewrite bool_decide_eq_true_2 in Hspec by (apply comparable_lexical; [done|by split; [|apply Hctx]]).
  destruct Hspec as [[_ (root & d & Hcov & Hmax)]|[_ [?|Hno]]]; [|done|by apply Hno in Hcovroot].
  destruct (decide (resolve_access self path ctx = Write)) as [|Hne]; [done|exfalso].
  pose proof Hcov as (Hin & _). apply elem_of_resolved in Hin as (e & He & Ha & Hroots & _).
  assert (narrows_write h self e = false) as Hnw.
  { unfold has_write_narrowing_entries, is_restricted in Hnarrow. rewrite Hk in Hnarrow. cbn [andb] in Hnarrow.
    apply not_true_iff_false. intros Htrue. apply not_true_iff_false in Hnarrow. apply Hnarrow.
    apply existsb_exists. exists e. by rewrite <- list_elem_of_In. }
  assert (∃ root', covers (resolved_entries self ctx) path root' Write d ∧ access e = Read) as (r' & Hc' & Hread).
  { unfold narrows_write in Hnw. destruct (can_write (access e)) eqn:Hcw;
      [apply can_write_spec in Hcw; congruence|].
    assert (has_same_target_write_override h self e = true →
      ∃ root', covers (resolved_entries self ctx) path root' Write d ∧ access e = Read) as Hover.
    { intros (Hread & c & Hc & Hw & Hshare)%override_spec. rewrite <- Ha in Hcov.
      destruct (override_covers h self ctx path e c root d) as [r' Hr']; try done. by exists r'. }
    destruct (entry_path e) as [u|g|[]] eqn:Ep; simpl in Hroots; try (by apply elem_of_nil in Hroots);
      try (apply Hover; by apply negb_false_iff).
    exists r. rewrite Hr in Hroots. apply list_elem_of_singleton in Hroots as ->.
    destruct (covers_lexical self ctx path r _ d Hposix Hcov) as [_ ->]. rewrite Hnr. split; [done|].
    by destruct (access e). }
  destruct (Hmax _ _ _ Hc') as [?|[_ Hrank]]; [lia|]. rewrite <- Ha, Hread in Hrank. simpl in Hrank. lia.
Qed.

(** ** Additional readable roots *)

Lemma absolute_normal (h : Host) p : normal_abs p → absolute h p = Some p.
Proof using Type.
  intros Hn. unfold absolute, from_absolute_path, absolutize.
  rewrite expand_absolute, (normal_absolute p Hn) by (by apply normal_absolute).
  by rewrite normalize_normal.
Qed.

Lemma push_read_keeps_local (h : Host) self p r cwd :
  is_ok (host_cwd h) = true → (∀ d, host_cwd h = Ok d → is_absolute d = true) →
  fs_kind self = Restricted → normal_abs r → 0%N ∉ r →
  can_read_path_with_cwd h self r cwd = false → resolve_access_with_cwd h self p cwd ≠ Deny →
  resolve_access_with_cwd h (push_entry self (new_entry (PathEntry (from_abs_path r)) Read)) p cwd
  = resolve_access_with_cwd h self p cwd.
Proof.
  intros Hok Habs Hk Hr Hnull Hread Hne.
  unfold can_read_path_with_cwd, resolve_access_with_cwd, with_local_policy_context in *.
  destruct (absolute h cwd) as [cwd'|] eqn:Hcwd; [|done]. cbn [mbind option_bind] in *.
  assert (normal_abs cwd') as Hcn.
  { unfold absolute in Hcwd. destruct (from_absolute_path _ _ cwd) as [c|] eqn:Hc; simplify_eq/=.
    destruct (host_cwd h) as [d|]; [|done].
    unfold from_absolute_path, absolutize in Hc. cbn [rbind] in Hc.
    destruct (is_absolute (maybe_expand_home_directory (host_home h) cwd)) eqn:Ha; simplify_eq.
    - destruct (normalize_absolute _ Ha) as [-> Hall]. by eexists.
    - apply absolutize_from_normal. by apply Habs. }
  assert (resolve_candidate_path h r cwd' = Some r) as Hcand.
  { unfold resolve_candidate_path. rewrite (normal_absolute r Hr). by apply absolute_normal. }
  rewrite Hcand in Hread. cbn [mbind option_bind from_option id] in Hread.
  destruct (resolve_candidate_path h p cwd') as [q|]; [|done].
  cbn [mbind option_bind from_option id] in *.
  apply push_read_keeps; try done; [by apply from_abs_path_posix|by apply from_abs_path_unambiguous|].
  by destruct (resolve_access self _ _).
Qed.

(** Adding readable roots never takes access away: a path that could be read
    or written keeps its mode. *)
Theorem readable_roots_keep_access (h : Host) self p cwd roots :
  is_ok (host_cwd h) = true → (∀ d, host_cwd h = Ok d → is_absolute d = true) →
  Forall (λ r, normal_abs r ∧ 0%N ∉ r) roots →
  resolve_access_with_cwd h self p cwd ≠ Deny →
  resolve_access_with_cwd h (with_additional_readable_roots h self cwd roots) p cwd
  = resolve_access_with_cwd h self p cwd.
Proof.
  intros Hok Habs Hroots Hne. unfold with_additional_readable_roots.
  destruct (has_full_disk_read_access self) eqn:Hfull; [done|].
  assert (fs_kind self = Restricted) as Hk
    by (unfold has_full_disk_read_access in Hfull; by destruct (fs_kind self)).
  clear Hfull. revert self Hk Hne. induction Hroots as [|r roots [Hr Hnull] _ IH]; intros self Hk Hne;
    [done|]. cbn [foldl]. destruct (can_read_path_with_cwd h self r cwd) eqn:Hread; [by apply IH|].
  pose proof (push_read_keeps_local h self p r cwd Hok Habs Hk Hr Hnull Hread Hne) as Hkeep.
  rewrite <- Hkeep. apply IH; [done|]. by rewrite Hkeep.
Qed.

(** ** Scoped workspace entries *)

(** When symbolic workspace entries are bound to the roots of an executor, a
    path entry stays below its root, no restriction is dropped (one whose
    subpath does not resolve denies the whole root), and a grant whose subpath
    does not resolve is dropped. *)
Theorem scoped_entries_stay_inside e subpath is_glob root :
  match scoped_entry e subpath is_glob root with
  | Some e' =>
      (∀ u, entry_path e' = PathEntry u → uri_starts_with u root = true)
      ∧ ((access e' = access e ∧ access e' ≠ Write) ∨ access e' = Deny
         ∨ (access e' = Write ∧ access e = Write))
  | None => access e = Write
  end.
Proof using Type.
  assert (uri_starts_with root root = true) as Hrefl
    by (unfold uri_starts_with, uri_eq; by rewrite bool_decide_eq_true_2).
  unfold scoped_entry. destruct subpath as [sub|].
  - destruct (resolve_scoped_workspace_path root sub) as [q|] eqn:Hq.
    + split; [|simpl; by destruct (access e); auto]. intros u Hu. destruct is_glob; simplify_eq/=.
      unfold resolve_scoped_workspace_path in Hq. apply bind_Some in Hq as (c & _ & Hq).
      case_match; [done|]. apply bind_Some in Hq as (q & _ & Hq). by case_match; simplify_eq.
    + destruct (access e) eqn:Ha; simpl; try done; (split; [by intros u [= <-]|by auto]).
  - split; [|simpl; by destruct (access e); auto]. intros u Hu. by destruct is_glob; simplify_eq/=.
Qed.

End posix.

(** ** Denied reads *)

Section denied.
Context {Url : Type} `{!EqDecision Url} `{!UrlOps Url} (h : Host)
  {Glob : Type} (glob_build : PathConvention → str → result Glob str)
  (glob_match : Glob → bytes → bool).
#[local] Set Default Proof Using "Type".
Implicit Types (self : FileSystemSandboxPolicy Url) (ctx : FileSystemSandboxPolicyContext Url).

Lemma build_matchers_closed convention patterns :
  ∃ l b, build_matchers glob_build FailClosed convention patterns = Ok (l, b)
    ∧ ((∃ p, p ∈ patterns ∧ is_ok (build_glob_matcher glob_build p convention) = false) → b = true)
    ∧ ∀ p g, p ∈ patterns → build_glob_matcher glob_build p convention = Ok g → g ∈ l.
Proof.
  clear glob_match h. induction patterns as [|p ps (l & b & IH & Hbad & Hall)]; simpl.
  { exists [], false. split_and!; [done|set_solver|set_solver]. }
  rewrite IH. destruct (build_glob_matcher glob_build p convention) as [g|err] eqn:Hp; cbn [rbind].
  - exists (g :: l), b. split_and!; [done| |].
    + intros (q & [->|Hq]%elem_of_cons & Hok); [by rewrite Hp in Hok|eauto].
    + intros q g' [->|Hq]%elem_of_cons Hg; [rewrite Hp in Hg; simplify_eq; set_solver|].
      apply elem_of_cons. right. eauto.
  - exists l, true. split_and!; [done|done|].
    intros q g' [->|Hq]%elem_of_cons Hg; [congruence|eauto].
Qed.

Lemma prepare_closed self ctx :
  ∃ l b, prepare_deny_read_matcher glob_build self ctx FailClosed = Ok (denied_roots self ctx, l, b)
    ∧ (infer_path_convention (ctx_cwd ctx) = None ∨ is_ok (deny_read_globs self ctx) = false → b = true)
    ∧ ∀ c ps, infer_path_convention (ctx_cwd ctx) = Some c → deny_read_globs self ctx = Ok ps →
       ((∃ p, p ∈ ps ∧ is_ok (build_glob_matcher glob_build p c) = false) → b = true)
       ∧ ∀ p g, p ∈ ps → build_glob_matcher glob_build p c = Ok g → g ∈ l.
Proof.
  clear glob_match h. unfold prepare_deny_read_matcher. destruct (infer_path_convention (ctx_cwd ctx)) as [c|] eqn:Hc.
  - destruct (deny_read_globs self ctx) as [ps|] eqn:Hg.
    + destruct (build_matchers_closed c ps) as (l & b & -> & Hbad & Hall). cbn [rbind].
      exists l, b. split_and!; [done|by intros [?|?]|]. intros c' ps' [= <-] [= <-]. done.
    + exists [], true. by split_and!.
  - exists [], true. by split_and!.
Qed.

(** The fail-closed constructor of the read-deny matcher panics exactly when
    the policy denies reads and the working directory cannot be made absolute,
    although its error branch is marked unreachable. *)
Theorem read_deny_matcher_panics self cwd :
  new_read_deny_matcher h glob_build self cwd = Panic ↔
  has_denied_read_restrictions self = true
  ∧ is_ok (from_absolute_path (host_home h) (host_cwd h) cwd) = false.
Proof.
  clear glob_match. unfold new_read_deny_matcher, build_read_deny_matcher.
  destruct (has_denied_read_restrictions self); cbn [negb]; [|naive_solver].
  destruct (from_absolute_path _ _ cwd) as [c|err]; cbn [rmap_err rbind]; [|naive_solver].
  destruct (prepare_closed self (local_context h c)) as (l & b & -> & _). cbn [rbind]. naive_solver.
Qed.

(** C29: The matcher denies every path below a denied root (the file-system root
    apart), every path a denied glob matches, and every path at all when a
    denied glob cannot be resolved or compiled. *)
Theorem read_deny_matcher_sound self cwd m p q :
  new_read_deny_matcher h glob_build self cwd = Done (Some m) →
  resolve_candidate_path h p (matcher_cwd m) = Some q →
  let ctx := local_context h (matcher_cwd m) in
  let path := from_abs_path q in
  (∀ root, (root, Deny) ∈ resolved_entries self ctx →
     is_some_and (file_system_root ctx) (same_location root) = false →
     uri_starts_with path root = true → is_read_denied h glob_match m p = true)
  ∧ (is_ok (deny_read_globs self ctx) = false → is_read_denied h glob_match m p = true)
  ∧ (∀ c ps pattern, infer_path_convention (ctx_cwd ctx) = Some c → deny_read_globs self ctx = Ok ps →
     pattern ∈ ps →
     match build_glob_matcher glob_build pattern c with
     | Ok g => glob_match g (glob_candidate c path) = true
     | Err _ => True
     end → is_read_denied h glob_match m p = true).
Proof.
  intros Hnew Hq. unfold new_read_deny_matcher, build_read_deny_matcher in Hnew.
  destruct (has_denied_read_restrictions self); cbn [negb] in Hnew; [|done].
  destruct (from_absolute_path _ _ cwd) as [cw|err]; cbn [rmap_err rbind] in Hnew; [|done].
  destruct (prepare_closed self (local_context h cw)) as (l & b & Hprep & Hb & Hg).
  rewrite Hprep in Hnew. cbn [rbind] in Hnew. injection Hnew as <-. cbn [matcher_cwd] in Hq.
  intros ctx path. unfold is_read_denied. cbn [matcher_cwd]. rewrite Hq.
  match goal with |- context [matches_prepared_read_deny ?gm _ _ _ _ _] =>
    change (matches_prepared_read_deny gm _ _ _ _ _)
      with (matches_prepared_read_deny glob_match path ctx (denied_roots self ctx) l b) end.
  unfold matches_prepared_read_deny.
  destruct (infer_path_convention (ctx_cwd ctx)) as [c|] eqn:Hc; [|done].
  destruct (comparable path ctx); cbn [negb]; [|done]. destruct b; [done|].
  split_and!.
  - intros root Hin Hroot Hs. apply orb_true_iff. left. apply existsb_exists. exists root.
    split; [|done]. unfold denied_roots. apply list_elem_of_In, list_elem_of_fmap. exists (root, Deny).
    split; [done|]. apply list_elem_of_In, filter_In. rewrite <- list_elem_of_In. by rewrite Hroot.
  - intros Hbad. specialize (Hb (or_intror Hbad)). done.
  - intros c' ps pattern [= <-] Hps Hin Hm. destruct (Hg c ps Hc Hps) as [Hbad Hall].
    destruct (build_glob_matcher glob_build pattern c) as [g|] eqn:Hbuild.
    + apply orb_true_iff. right. apply existsb_exists. exists g. split; [|done].
      apply list_elem_of_In. by eapply Hall.
    + discriminate Hbad. exists pattern. by rewrite Hbuild.
Qed.

End denied.
