(* ===== verification/LegacyRoundtrip.v ===== *)
(** * Legacy policies survive the translation

    [from_legacy_sandbox_policy_for_cwd] followed by
    [to_legacy_sandbox_policy]: the read-only carveouts that the first adds do
    not disturb the second, and the writable roots come back through their
    URIs. *)

From S2P Require Import Prelude RustStr Utf8 UnixPath Permissions ExecFs.
From S2P Require Import AbsolutePath PathUri PathUriFacts SandboxPolicy LegacySandbox.

#[local] Arguments lit : simpl never.

Section roundtrip.
Context {Url : Type} `{!EqDecision Url} `{Hops : !UrlOps Url} `{Hlaws : !UrlLaws Url} (h : Host).
#[local] Set Default Proof Using "Type".
Implicit Types (entries : list (FileSystemSandboxEntry Url)).

(** ** The carveouts only add reads *)

(** [entries'] is [entries] with read entries at the end. *)
Definition adds_reads entries entries' : Prop :=
  ∃ extra, entries' = entries ++ extra ∧ Forall (λ e, access e = Read) extra.

#[local] Instance adds_reads_preorder : PreOrder adds_reads.
Proof.
  split.
  - intros l. exists []. by rewrite app_nil_r.
  - intros a b c (x & -> & Hx) (y & -> & Hy). exists (x ++ y). rewrite app_assoc.
    split; [done|]. by apply Forall_app.
Qed.

Lemma foldl_adds_reads {A} (f : list (FileSystemSandboxEntry Url) → A → _) (l : list A) entries :
  (∀ entries x, adds_reads entries (f entries x)) → adds_reads entries (foldl f entries l).
Proof.
  intros Hf. revert entries; induction l as [|x l IH]; intros entries; [reflexivity|].
  simpl. etransitivity; [apply Hf|apply IH].
Qed.

Lemma append_default_adds_reads entries p :
  adds_reads entries (append_default_read_only_entry_if_no_explicit_rule h entries p).
Proof.
  unfold append_default_read_only_entry_if_no_explicit_rule. case_match; [reflexivity|].
  exists [skip_missing_path p Read]. split; [done|]. by apply Forall_singleton.
Qed.

Lemma protect_root_adds_reads b entries root : adds_reads entries (protect_root h b entries root).
Proof. apply foldl_adds_reads. intros. apply append_default_adds_reads. Qed.

Lemma from_legacy_entries roots n t s cwd :
  ∃ entries,
    from_legacy_sandbox_policy_for_cwd (Url:=Url) h (WorkspaceWrite roots n t s) cwd
      = restricted entries
    ∧ adds_reads (workspace_grants roots t s) entries.
Proof.
  eexists. split; [reflexivity|]. etransitivity; [|apply foldl_adds_reads, protect_root_adds_reads].
  assert (adds_reads (workspace_grants roots t s)
            (fs_entries (fs_policy_of (Url:=Url) h (WorkspaceWrite roots n t s)))) as Hp.
  { cbn [fs_policy_of workspace_write restricted fs_entries].
    etransitivity; [|apply foldl_adds_reads, protect_root_adds_reads].
    apply foldl_adds_reads. intros. apply append_default_adds_reads. }
  destruct (absolute h cwd); [|done]. etransitivity; [exact Hp|apply protect_root_adds_reads].
Qed.

(** ** Reading them back *)

Lemma bridge_entries_app cwd b l l' :
  bridge_entries h cwd b (l ++ l') =
  (let? b := bridge_entries (Url:=Url) h cwd b l in bridge_entries h cwd b l').
Proof.
  revert b; induction l as [|e l IH]; intros b; [done|]. cbn [app bridge_entries].
  destruct (bridge_entry h cwd b e); [apply IH|done].
Qed.

Lemma bridge_reads cwd b l :
  Forall (λ e, access e = Read) l → bridge_entries (Url:=Url) h cwd b l = Ok b.
Proof.
  induction 1 as [|e l He _ IH]; [done|]. cbn [bridge_entries]. unfold bridge_entry at 1.
  by rewrite He.
Qed.

(** The roots other than the working directory are collected in order. *)
Definition not_cwd (cwd : option str) (p : str) : bool :=
  negb (is_some_and cwd (λ cwd, path_eq cwd p)).

Lemma bridge_roots cwd b roots :
  Forall (λ r, normal_abs r ∧ Forall scalar r ∧ 0%N ∉ r) roots →
  workspace_root_writable b = true →
  bridge_entries (Url:=Url) h cwd b (path_entries Write roots) =
  Ok {| workspace_root_writable := true;
        bridged_roots := bridged_roots b ++ List.filter (not_cwd cwd) roots;
        tmpdir_writable := tmpdir_writable b; slash_tmp_writable := slash_tmp_writable b;
        unbridgeable_root_write := unbridgeable_root_write b |}.
Proof using Hlaws.
  intros Hroots. revert b; induction Hroots as [|r roots (Hn & Hs & H0) _ IH]; intros b Hb.
  { simpl. rewrite app_nil_r. destruct b. simpl in *. by subst. }
  cbn [path_entries fmap list_fmap bridge_entries]. unfold bridge_entry at 1.
  cbn [new_entry access entry_path can_write negb].
  rewrite to_from_abs_path by done. cbn [rbind List.filter]. unfold not_cwd at 1.
  destruct (is_some_and cwd _); cbn [rbind negb]; fold (path_entries (Url:=Url) Write roots).
  - rewrite IH by done. done.
  - rewrite IH by done. cbn. by rewrite <- app_assoc.
Qed.

Lemma grants_not_full roots t s entries :
  adds_reads (workspace_grants roots t s) entries →
  has_full_disk_write_access h (restricted entries) = false.
Proof.
  intros (extra & -> & Hextra). unfold has_full_disk_write_access, has_root_access.
  cbn [fs_kind restricted is_restricted fs_entries andb]. apply andb_false_iff. left.
  apply not_true_iff_false. rewrite existsb_exists. intros (e & He & Hroot).
  apply in_app_or in He as [He|He].
  - apply list_elem_of_In in He. unfold workspace_grants in He. rewrite !elem_of_app in He.
    destruct He as [He|[He|[He|He]]].
    + rewrite !elem_of_cons, elem_of_nil in He. by destruct He as [->|[->|?]].
    + destruct s; [by apply elem_of_nil in He|]. apply list_elem_of_singleton in He as ->. done.
    + destruct t; [by apply elem_of_nil in He|]. apply list_elem_of_singleton in He as ->. done.
    + apply list_elem_of_fmap in He as (p & -> & _). done.
  - apply list_elem_of_In in He. rewrite Forall_forall in Hextra.
    destruct (entry_path e) as [| |[]]; try done. by rewrite (Hextra e He) in Hroot.
Qed.

Lemma dedup_paths_distinct seen paths :
  NoDup (components <$> paths) → (∀ p q, p ∈ paths → q ∈ seen → components p ≠ components q) →
  dedup_paths seen paths = paths.
Proof.
  revert seen; induction paths as [|p paths IH]; intros seen Hnd Hseen; [done|].
  apply NoDup_cons in Hnd as [Hp Hnd]. cbn [dedup_paths].
  assert (existsb (path_eq p) seen = false) as ->.
  { apply not_true_iff_false. rewrite existsb_exists. intros (q & Hq & Heq).
    apply list_elem_of_In in Hq. unfold path_eq in Heq. apply bool_decide_eq_true in Heq.
    by apply (Hseen p q); [apply elem_of_cons; by left|..]. }
  f_equal. apply IH; [done|]. intros x q Hx [->|Hq]%elem_of_cons Heq.
  - apply Hp. rewrite <- Heq. apply list_elem_of_fmap. by exists x.
  - apply (Hseen x q); [apply elem_of_cons; by right|done|done].
Qed.

(** C33: A legacy policy that is translated to a split policy and back is the
    policy again; of the writable roots of the workspace-write mode, the ones
    that repeat an earlier root or the working directory are dropped. *)
Theorem legacy_policy_roundtrip (p : SandboxPolicy) (cwd : str) :
  (∀ roots n t s, p = WorkspaceWrite roots n t s →
     Forall (λ r, normal_abs r ∧ Forall scalar r ∧ 0%N ∉ r) roots) →
  let back := to_legacy_sandbox_policy h
                (from_legacy_sandbox_policy_for_cwd (Url:=Url) h p cwd) (network_policy_of p) cwd in
  match p with
  | WorkspaceWrite roots n t s =>
      back = Ok (WorkspaceWrite
                   (dedup_absolute_paths h (List.filter (not_cwd (absolute h cwd)) roots) false)
                   n t s)
      ∧ (NoDup (components <$> roots) → forallb (not_cwd (absolute h cwd)) roots = true → back = Ok p)
  | _ => back = Ok p
  end.
Proof using Hlaws.
  intros Hroots back. destruct p as [|n|[]|roots n t s]; [done|by destruct n|done|done|].
  specialize (Hroots roots n t s eq_refl).
  destruct (from_legacy_entries roots n t s cwd) as (entries & Hfrom & Hadds).
  assert (back = Ok (WorkspaceWrite
    (dedup_absolute_paths h (List.filter (not_cwd (absolute h cwd)) roots) false) n t s)) as Hback.
  { unfold back, to_legacy_sandbox_policy. rewrite Hfrom. cbn [restricted fs_kind fs_entries].
    fold (restricted entries). rewrite (grants_not_full _ _ _ _ Hadds).
    destruct Hadds as (extra & -> & Hextra). rewrite bridge_entries_app. unfold workspace_grants.
    rewrite !app_assoc, bridge_entries_app.
    assert (bridge_entries (Url:=Url) h (absolute h cwd) no_writes
      (([new_entry (Special Root) Read; new_entry (Special (ProjectRoots None)) Write]
        ++ (if s then [] else [new_entry (Special SlashTmp) Write]))
       ++ (if t then [] else [new_entry (Special Tmpdir) Write])) =
      Ok {| workspace_root_writable := true; bridged_roots := []; tmpdir_writable := negb t;
            slash_tmp_writable := negb s; unbridgeable_root_write := false |}) as ->
      by (by destruct s, t).
    cbn [rbind]. rewrite bridge_roots by done. cbn [rbind]. rewrite bridge_reads by done.
    cbn [rbind workspace_root_writable bridged_roots tmpdir_writable slash_tmp_writable app].
    rewrite !negb_involutive. by destruct n. }
  split; [done|]. intros Hnd Hcwd. rewrite Hback. do 2 f_equal.
  assert (List.filter (not_cwd (absolute h cwd)) roots = roots) as ->.
  { clear -Hcwd. induction roots as [|r roots IH]; [done|]. simpl in *.
    apply andb_true_iff in Hcwd as [-> Hcwd]. by rewrite IH. }
  apply dedup_paths_distinct; [done|]. intros ? ? _ []%elem_of_nil.
Qed.

End roundtrip.
