(* ===== verification/PatchSafety.v ===== *)
(** * Approval of patches

    [codex-rs/core/src/safety.rs]: whether a verified patch is applied without
    asking, needs the user, or is rejected.  The checks of the sandbox policy
    are those of [SandboxPolicy]; [target_os] is the platform the program is
    built for. *)

From stdpp Require Import gmap.
From S2P Require Import Prelude RustStr UnixPath Permissions ExecFs AbsolutePath PathUri.
From S2P Require Import SandboxPolicy SeekSequence FileUpdate PatchParser ApplyPatch Invocation ExecApproval.

#[local] Arguments lit : simpl never.

Inductive TargetOs := Macos | Linux | WindowsOs | OtherOs.

Inductive SandboxType := NoSandbox | MacosSeatbelt | LinuxSeccomp | WindowsRestrictedToken.

#[global] Instance SandboxType_eq_dec : EqDecision SandboxType.
Proof. solve_decision. Defined.

(** [sandboxing/src/manager.rs]. *)
Definition get_platform_sandbox (target_os : TargetOs) (windows_sandbox_enabled : bool)
    : option SandboxType :=
  match target_os with
  | Macos => Some MacosSeatbelt
  | Linux => Some LinuxSeccomp
  | WindowsOs => if windows_sandbox_enabled then Some WindowsRestrictedToken else None
  | OtherOs => None
  end.

Inductive WindowsSandboxLevel := LevelDisabled | RestrictedToken | Elevated.

#[global] Instance WindowsSandboxLevel_eq_dec : EqDecision WindowsSandboxLevel.
Proof. solve_decision. Defined.

Inductive SafetyCheck := AutoApprove | AskUser | Reject (reason : str).

Definition PATCH_REJECTED_OUTSIDE_PROJECT_REASON : str :=
  lit "writing outside of the project; rejected by user approval settings".
Definition PATCH_REJECTED_READ_ONLY_REASON : str :=
  lit "writing is blocked by read-only sandbox; rejected by user approval settings".

(** [PathUri] as the paths of a patch. *)
Definition path_uri_ops {Url} `{!EqDecision Url} `{!UrlOps Url} : PathUriOps Url :=
  {| eq_uri := uri_eq; eq_uri_refl := uri_eq_refl;
     path_join := λ base path, rmap_err parse_error_text (uri_join base path);
     path_parent := uri_parent; path_native := inferred_native_path_string |}.

(** The local function [normalize]. *)
Definition normalize (path : str) : option str :=
  Some (foldl (λ out comp,
    match comp with
    | ParentDir => pathbuf_pop out
    | CurDir => out
    | other => pathbuf_push out (component_str other)
    end) [] (components path)).

Section safety.
Context {Url : Type} `{!EqDecision Url} `{!Countable Url} `{!UrlOps Url} (h : Host)
  (target_os : TargetOs).
Implicit Types (action : ApplyPatchAction Url) (profile : PermissionProfile Url)
  (fs : FileSystemSandboxPolicy Url) (cwd path : Url).

(** The closure [is_path_writable]. *)
Definition is_uri_writable fs (native_cwd : str) path : bool :=
  match to_abs_path (host_home h) path with
  | Err _ => false
  | Ok abs =>
      match normalize abs with
      | None => false
      | Some abs => can_write_path_with_cwd h fs abs native_cwd
      end
  end.

Definition is_change_writable fs (native_cwd : str) (entry : Url * ApplyPatchFileChange Url) : bool :=
  let '(path, change) := entry in
  match change with
  | ChangeAdd _ | ChangeDelete _ => is_uri_writable fs native_cwd path
  | ChangeUpdate _ move_path _ =>
      is_uri_writable fs native_cwd path
      && match move_path with Some dest => is_uri_writable fs native_cwd dest | None => true end
  end.

Definition is_write_patch_constrained_to_writable_paths action fs cwd : bool :=
  if has_full_disk_write_access h fs then true
  else
    match to_abs_path (host_home h) cwd with
    | Err _ => false
    | Ok native_cwd =>
        forallb (is_change_writable fs native_cwd) (map_to_list (action_changes action))
    end.

Definition patch_rejection_reason profile fs cwd : str :=
  let has_no_writable_roots :=
    match to_abs_path (host_home h) cwd with
    | Ok cwd => negb (has_writable_roots_with_cwd h fs cwd)
    | Err _ => false
    end in
  match profile with
  | Managed _ _ =>
      if negb (has_full_disk_write_access h fs) && has_no_writable_roots
      then PATCH_REJECTED_READ_ONLY_REASON else PATCH_REJECTED_OUTSIDE_PROJECT_REASON
  | Disabled | External _ => PATCH_REJECTED_OUTSIDE_PROJECT_REASON
  end.

Definition rejects_sandbox_approval (policy : AskForApproval) : bool :=
  match policy with
  | Never => true
  | Granular granular_config => negb (sandbox_approval granular_config)
  | UnlessTrusted | OnRequest => false
  end.

Definition assess_patch_safety action (policy : AskForApproval) profile fs cwd
    (windows_sandbox_level : WindowsSandboxLevel) : SafetyCheck :=
  if bool_decide (action_changes action = ∅) then Reject (lit "empty patch")
  else
    match policy with
    | UnlessTrusted => AskUser
    | Never | OnRequest | Granular _ =>
        let otherwise :=
          if rejects_sandbox_approval policy
          then Reject (patch_rejection_reason profile fs cwd) else AskUser in
        if is_write_patch_constrained_to_writable_paths action fs cwd then
          match profile with
          | Disabled | External _ => AutoApprove
          | Managed _ _ =>
              match get_platform_sandbox target_os
                      (negb (bool_decide (windows_sandbox_level = LevelDisabled))) with
              | Some _ => AutoApprove
              | None => otherwise
              end
          end
        else otherwise
    end.

(** ** What is decided *)

(** The paths a change writes. *)
Definition written (p : Url) (c : ApplyPatchFileChange Url) (q : Url) : Prop :=
  q = p ∨ move_target c = Some q.

(** A path the policy lets a patch write. *)
Definition may_write fs cwd (q : Url) : Prop :=
  has_full_disk_write_access h fs = true
  ∨ ∃ native_cwd abs, to_abs_path (host_home h) cwd = Ok native_cwd
      ∧ to_abs_path (host_home h) q = Ok abs
      ∧ can_write_path_with_cwd h fs (normalize_path abs) native_cwd = true.

Lemma to_abs_path_normal q abs : to_abs_path (host_home h) q = Ok abs → normal_abs abs.
Proof.
  unfold to_abs_path. intros H. repeat (case_match; try done); simplify_eq/=.
  - unfold from_absolute_path_checked in *. case_match; simplify_eq.
    by apply absolutize_from_normal.
  - unfold from_absolute_path_checked in H. case_match; simplify_eq/=.
    by apply absolutize_from_normal.
Qed.

(** [normalize] does nothing to the paths it is given. *)
Lemma normalize_is_normal abs : normal_abs abs → normalize abs = Some (normalize_path abs).
Proof.
  intros Hn. pose proof (normalize_normal abs Hn) as Heq. unfold normalize. f_equal.
  rewrite Heq. unfold normalize_path in Heq.
  assert (foldl normalize_step [] (components abs) = abs) as Hfold.
  { destruct (is_empty _) eqn:E; [|done]. destruct Hn as (ns & _ & ->). by injection Heq. }
  rewrite <- Hfold at 2. generalize (@nil char) as buf. generalize (components abs) as cs.
  clear. induction cs as [|c cs IH]; intros buf; [done|]. simpl. rewrite IH. by destruct c.
Qed.

Lemma uri_writable_may fs cwd native_cwd q :
  to_abs_path (host_home h) cwd = Ok native_cwd →
  is_uri_writable fs native_cwd q = true → may_write fs cwd q.
Proof.
  intros Hcwd. unfold is_uri_writable. destruct (to_abs_path _ q) as [abs|] eqn:Hq; [|done].
  rewrite normalize_is_normal by (by eapply to_abs_path_normal). intros Hw. right. eauto 6.
Qed.

Lemma constrained_writes action fs cwd p c q :
  is_write_patch_constrained_to_writable_paths action fs cwd = true →
  action_changes action !! p = Some c → written p c q → may_write fs cwd q.
Proof.
  unfold is_write_patch_constrained_to_writable_paths.
  destruct (has_full_disk_write_access h fs) eqn:Hfull; [by left|].
  destruct (to_abs_path _ cwd) as [native_cwd|] eqn:Hcwd; [|done].
  rewrite forallb_forall. intros Hall Hp. specialize (Hall (p, c)).
  rewrite <- list_elem_of_In, elem_of_map_to_list in Hall. specialize (Hall Hp). simpl in Hall.
  intros Hq. eapply uri_writable_may; [done|].
  destruct c as [| |? [dest|] ?]; simpl in *; rewrite ?andb_true_iff in Hall; unfold written in Hq;
    simpl in Hq; naive_solver.
Qed.

Lemma auto_approved action policy profile fs cwd level :
  assess_patch_safety action policy profile fs cwd level = AutoApprove →
  action_changes action ≠ ∅ ∧ policy ≠ UnlessTrusted
  ∧ is_write_patch_constrained_to_writable_paths action fs cwd = true
  ∧ ((∃ network, profile = External network) ∨ profile = Disabled
     ∨ get_platform_sandbox target_os (negb (bool_decide (level = LevelDisabled))) ≠ None).
Proof.
  unfold assess_patch_safety. case_bool_decide; [done|].
  destruct policy; [done|..]; (destruct (is_write_patch_constrained_to_writable_paths _ _ _);
    [|by destruct (rejects_sandbox_approval _)]);
    (destruct profile; [destruct (get_platform_sandbox _ _); [|by destruct (rejects_sandbox_approval _)]|..]);
    intros _; split_and!; try done; eauto.
Qed.

(** A patch is applied without asking only when it changes something, the
    approval setting is not the one that trusts nothing, every file it writes
    and every target of a move may be written under the policy, and the patch
    runs in a platform sandbox or the profile asks for none. *)
Theorem auto_approved_patch_is_confined action policy profile fs cwd level :
  assess_patch_safety action policy profile fs cwd level = AutoApprove →
  action_changes action ≠ ∅ ∧ policy ≠ UnlessTrusted
  ∧ (∀ p c q, action_changes action !! p = Some c → written p c q → may_write fs cwd q)
  ∧ ((∃ network, profile = External network) ∨ profile = Disabled
     ∨ get_platform_sandbox target_os (negb (bool_decide (level = LevelDisabled))) ≠ None).
Proof.
  intros (Hne & Hpol & Hcon & Hsb)%auto_approved. split_and!; try done. intros. by eapply constrained_writes.
Qed.

(** The decision on a patch agrees with the approval setting: an empty
    patch is rejected; a setting that rejects sandbox approvals never asks; the
    others never reject a patch that changes something; and the setting that
    trusts nothing always asks. *)
Theorem patch_decision_follows_setting action policy profile fs cwd level :
  let check := assess_patch_safety action policy profile fs cwd level in
  (action_changes action = ∅ → check = Reject (lit "empty patch"))
  ∧ (rejects_sandbox_approval policy = true → check ≠ AskUser)
  ∧ (rejects_sandbox_approval policy = false → action_changes action ≠ ∅ →
     check = AutoApprove ∨ check = AskUser)
  ∧ (policy = UnlessTrusted → action_changes action ≠ ∅ → check = AskUser)
  ∧ (check = Reject PATCH_REJECTED_READ_ONLY_REASON →
     has_full_disk_write_access h fs = false
     ∧ ∃ native_cwd, to_abs_path (host_home h) cwd = Ok native_cwd
         ∧ has_writable_roots_with_cwd h fs native_cwd = false).
Proof.
  cbv zeta. unfold assess_patch_safety.
  assert (PATCH_REJECTED_READ_ONLY_REASON ≠ lit "empty patch") as Hne by done.
  assert (patch_rejection_reason profile fs cwd = PATCH_REJECTED_READ_ONLY_REASON →
    has_full_disk_write_access h fs = false
    ∧ ∃ native_cwd, to_abs_path (host_home h) cwd = Ok native_cwd
        ∧ has_writable_roots_with_cwd h fs native_cwd = false) as Hreason.
  { unfold patch_rejection_reason. destruct profile; [|done..].
    destruct (_ && _) eqn:E; [|done]. intros _. apply andb_true_iff in E as [E1%negb_true_iff E2].
    split; [done|]. destruct (to_abs_path _ cwd) as [c|]; [|done]. exists c. by apply negb_true_iff in E2. }
  case_bool_decide as He; [by split_and!; intros; simplify_eq|].
  split; [done|].
  destruct policy as [| |g|]; [by split_and!; eauto|..];
    cbn [rejects_sandbox_approval]; try destruct (negb (sandbox_approval g));
    (destruct (is_write_patch_constrained_to_writable_paths _ _ _);
      [destruct profile; [destruct (get_platform_sandbox _ _)|..]|]);
    split_and!; intros; simplify_eq; eauto.
Qed.

End safety.

(** ** What an approved patch writes *)

Section frame.
Context {W path : Type} `{!EqDecision path} `{!Countable path}
  `{!ExecutorFileSystem W path} `{!PathUriOps path} `{!FileSystemLaws W path}.
Context (text_diff : str → str → nat → str) (m : ApplyPatchFileUpdateMode) (cwd : path).
Abbreviation options := {| opt_update_file_mode := m; opt_follow_symlinks := true |}.

(** A hunk changes its file, the target of its move, and what else these are
    names of. *)
Lemma apply_hunk_frame w w1 w2 p hunk c (d d' : AppliedPatchDelta path) aff aff' q :
  resolve_path cwd hunk = Ok p → verify_hunk text_diff m w cwd p hunk = Done c →
  apply_hunk options cwd w1 d aff hunk = (w2, d', Done aff') →
  (∀ x, x = p ∨ move_target c = Some x → q ≠ x ∧ ¬ touches w1 x q) →
  entry_at w2 q = entry_at w1 q ∧ ∀ a b, touches w2 a b → touches w1 a b.
Proof.
  intros Hp Hv Happ Hout. unfold apply_hunk in Happ. rewrite Hp in Happ. simpl in Happ.
  destruct (Hout p (or_introl eq_refl)) as [Hne Hnt].
  destruct hunk as [? s|?|? mv chunks]; simpl in Happ, Hv.
  - unfold apply_add in Happ. destruct (read_optional_file_text_for_delta _ _ _ _).
    destruct (write_file_with_missing_parent_retry w1 p s true) as [w3 [[]|]] eqn:Hwr; [|done].
    apply write_retry_ok in Hwr as (_ & Hf & Hm). simplify_eq. split; [by apply Hf|done].
  - unfold apply_delete in Happ. destruct (ensure_not_directory w1 p true); [|done].
    destruct (remove w1 p true) as [w3 [[]|]] eqn:Hrm; [|done].
    apply remove_ok in Hrm as (_ & Hf & Hm). simplify_eq. split; [by apply Hf|done].
  - unfold apply_update in Happ.
    destruct (derive_new_contents_from_chunks w1 p chunks m true) as [ap| |]; [|done..].
    destruct (unified_diff_from_chunks_with_mode _ _ _ _ _); [|done..].
    destruct mv as [dest|]; simpl in Hv.
    + unfold apply_move in Happ. destruct (path_join cwd dest) as [dst|]; [|done].
      simpl in Hv. simplify_eq. destruct (Hout dst (or_intror eq_refl)) as [Hne' Hnt'].
      destruct (read_optional_file_text_for_delta _ _ _ _).
      destruct (write_file_with_missing_parent_retry w1 dst _ true) as [w3 [[]|]] eqn:Hwr; [|done].
      destruct (ensure_not_directory w3 p true); [|done].
      destruct (remove w3 p true) as [w4 [[]|]] eqn:Hrm; [|done].
      apply write_retry_ok in Hwr as (_ & Hf & Hm). apply remove_ok in Hrm as (_ & Hg & Hm').
      simplify_eq. split; [|by auto]. rewrite Hg, Hf; auto.
    + destruct (write_file w1 p _ true) as [w3 [[]|]] eqn:Hwr; [|done].
      apply write_ok in Hwr as (_ & Hf & Hm). simplify_eq. split; [by apply Hf|done].
Qed.

Lemma apply_loop_frame w hs : ∀ cs cs' w1 w2 (d d' : AppliedPatchDelta path) aff aff' q,
  verify_loop text_diff m w cwd hs cs = Done cs' →
  apply_hunks_loop options cwd w1 d aff hs = (w2, d', Done aff') →
  (∀ p c x, cs' !! p = Some c → x = p ∨ move_target c = Some x → q ≠ x ∧ ¬ touches w1 x q) →
  entry_at w2 q = entry_at w1 q.
Proof.
  induction hs as [|hunk hs IH]; intros cs cs' w1 w2 d d' aff aff' q Hl Happ Hout; simpl in *.
  { by simplify_eq. }
  destruct (resolve_path cwd hunk) as [p|] eqn:Hp; [|done]. destruct (contains_key cs p); [done|].
  destruct (verify_hunk text_diff m w cwd p hunk) as [c| |] eqn:Hv; [|done..]. simpl in Hl.
  destruct (apply_hunk options cwd w1 d aff hunk) as [[w3 d3] [aff3| |]] eqn:Hh; [|done..].
  assert (cs' !! p = Some c) as Hpc.
  { eapply lookup_weaken; [|by eapply verify_loop_extends]. apply lookup_insert_eq. }
  destruct (apply_hunk_frame _ _ _ _ _ _ _ _ _ _ q Hp Hv Hh) as [<- Hm];
    [intros x; by eapply Hout|].
  eapply IH; [done..|]. intros p' c' x Hp' Hx. destruct (Hout p' c' x Hp' Hx). auto.
Qed.
End frame.

Section end_to_end.
Context {Url : Type} `{!EqDecision Url} `{!Countable Url} `{!UrlOps Url} (h : Host)
  (target_os : TargetOs).
#[local] Instance url_path_ops : PathUriOps Url := path_uri_ops.
Context {W : Type} `{!ExecutorFileSystem W Url} `{!FileSystemLaws W Url}.
Context (text_diff : str → str → nat → str).

(** C2: From the text of a patch to the disk: when a parsed patch is verified,
    approved without asking, and its hunks are applied successfully, then every
    file the sandbox policy does not let the patch write is what it was before,
    unless one of the paths the patch writes is another name of that file: a
    symbolic link to it, a hard link, a path through a linked directory.  The
    decision looks at paths only, and such names are what the platform sandbox is
    for ([link_escapes_approval]). *)
Theorem approved_patch_leaves_protected_files args (cwd turn_cwd q : Url) mode (w w' : W) action
    policy (profile : PermissionProfile Url) (fs : FileSystemSandboxPolicy Url) level
    (d : AppliedPatchDelta Url) aff :
  try_verify_apply_patch_args text_diff args cwd mode w = Done action →
  assess_patch_safety h target_os action policy profile fs turn_cwd level = AutoApprove →
  apply_hunks_to_files
    {| opt_update_file_mode := action_update_file_mode action; opt_follow_symlinks := true |}
    (action_cwd action) w (args_hunks args) empty_delta = (w', d, Done aff) →
  ¬ may_write h fs turn_cwd q →
  (∀ p c x, action_changes action !! p = Some c → written p c x → ¬ touches w x q) →
  entry_at w' q = entry_at w q.
Proof.
  intros Hv (_ & _ & Hcon & _)%auto_approved Happ Hq Hnames.
  unfold try_verify_apply_patch_args in Hv.
  destruct (join_opt cwd (args_workdir args)) as [wd| |]; simpl in Hv; [|done..].
  destruct (verify_loop _ _ _ _ _ _) as [cs| |] eqn:Hl; simpl in Hv; [|done..]. simplify_eq/=.
  unfold apply_hunks_to_files in Happ. destruct (is_empty (args_hunks args)); [done|].
  eapply apply_loop_frame; [done..|]. intros p c x Hp Hx. split; [|by eapply Hnames].
  intros ->. apply Hq. by eapply constrained_writes.
Qed.
End end_to_end.
