(* ===== verification/PermissionProfiles.v ===== *)
(** * Permission profiles and overlays

    The operations of [PermissionProfile], [FileSystemPermissions] and
    [AdditionalPermissionProfile] in [codex-rs/protocol/src/models.rs].
    [NonZeroUsize] is a depth that is not zero; an arm that is
    [unreachable!] is [Panic]. *)

From S2P Require Import Prelude RustStr UnixPath Permissions ExecFs.
From S2P Require Import AbsolutePath PathUri PathUriFacts SandboxPolicy LegacySandbox.
From S2P Require Import SandboxAccess SandboxLocal.

#[local] Arguments lit : simpl never.
#[local] Set Default Proof Using "Type".

(** [NonZeroUsize::new]. *)
Definition non_zero (n : N) : option N := if (n =? 0)%N then None else Some n.

Record NetworkPermissions := { network_enabled : option bool }.

Definition network_permissions_is_empty (p : NetworkPermissions) : bool :=
  is_none (network_enabled p).

Record FileSystemPermissions (uri : Type) := {
  fsp_entries : list (FileSystemSandboxEntry uri);
  fsp_glob_scan_max_depth : option N;
}.
Arguments fsp_entries {uri}.
Arguments fsp_glob_scan_max_depth {uri}.

Definition fsp_is_empty {uri} (p : FileSystemPermissions uri) : bool := is_empty (fsp_entries p).

Record AdditionalPermissionProfile (uri : Type) := {
  app_network : option NetworkPermissions;
  app_file_system : option (FileSystemPermissions uri);
}.
Arguments app_network {uri}.
Arguments app_file_system {uri}.

Definition app_is_empty {uri} (p : AdditionalPermissionProfile uri) : bool :=
  is_none (app_network p) && is_none (app_file_system p).

Record LegacyReadWriteRoots := { legacy_read : option (list str); legacy_write : option (list str) }.

Inductive SandboxEnforcement := EnforcementManaged | EnforcementDisabled | EnforcementExternal.

#[global] Instance SandboxEnforcement_eq_dec : EqDecision SandboxEnforcement.
Proof. solve_decision. Defined.

Definition enforcement_of_legacy (p : SandboxPolicy) : SandboxEnforcement :=
  match p with
  | DangerFullAccess => EnforcementDisabled
  | ExternalSandboxPolicy _ => EnforcementExternal
  | ReadOnly _ | WorkspaceWrite _ _ _ _ => EnforcementManaged
  end.

Section profiles.
Context {Url : Type} `{!EqDecision Url} `{!UrlOps Url} (h : Host).
Abbreviation policy := (FileSystemSandboxPolicy Url).
Abbreviation profile := (PermissionProfile Url).
Abbreviation entry := (FileSystemSandboxEntry Url).

(** ** Read and write roots *)

Definition from_paths {P} (into : P → FileSystemPath Url) (read write : option (list P))
    : FileSystemPermissions Url :=
  {| fsp_entries :=
       ((λ path, new_entry (into path) Read) <$> default [] read)
       ++ ((λ path, new_entry (into path) Write) <$> default [] write);
     fsp_glob_scan_max_depth := None |}.

Definition from_read_write_roots (read write : option (list str)) : FileSystemPermissions Url :=
  from_paths (λ path, PathEntry (from_abs_path path)) read write.
Definition from_read_write_path_uris (read write : option (list Url)) : FileSystemPermissions Url :=
  from_paths PathEntry read write.

(** The loop of [as_legacy_permissions]. *)
Fixpoint split_roots (entries : list entry) : option (list str * list str) :=
  match entries with
  | [] => Some ([], [])
  | e :: entries =>
      match entry_path e with
      | PathEntry path =>
          path ← ok (to_abs_path (host_home h) path);
          match access e with
          | Read => '(read, write) ← split_roots entries; Some (path :: read, write)
          | Write => '(read, write) ← split_roots entries; Some (read, path :: write)
          | Deny => None
          end
      | _ => None
      end
  end.

Definition non_empty {A} (l : list A) : option (list A) := if is_empty l then None else Some l.

Definition as_legacy_permissions (p : FileSystemPermissions Url) : option LegacyReadWriteRoots :=
  if negb (is_none (fsp_glob_scan_max_depth p)) then None
  else
    '(read, write) ← split_roots (fsp_entries p);
    Some {| legacy_read := non_empty read; legacy_write := non_empty write |}.

(** ** Profiles *)

Definition managed_from_sandbox_policy (p : policy)
    : outcome (ManagedFileSystemPermissions Url) Empty_set :=
  match fs_kind p with
  | Restricted =>
      Done (ManagedRestricted (fs_entries p) (fs_glob_scan_max_depth p ≫= non_zero))
  | Unrestricted => Done ManagedUnrestricted
  | ExternalSandbox => Panic
  end.

Definition from_runtime_permissions_with_enforcement (enforcement : SandboxEnforcement)
    (p : policy) (network : NetworkSandboxPolicy) : outcome profile Empty_set :=
  let managed :=
    let! file_system := managed_from_sandbox_policy p in Done (Managed file_system network) in
  match fs_kind p with
  | ExternalSandbox => Done (External network)
  | Unrestricted =>
      if bool_decide (enforcement = EnforcementDisabled) then Done Disabled else managed
  | Restricted => managed
  end.

Definition from_runtime_permissions (p : policy) (network : NetworkSandboxPolicy)
    : outcome profile Empty_set :=
  let enforcement :=
    match fs_kind p with
    | Restricted | Unrestricted => EnforcementManaged
    | ExternalSandbox => EnforcementExternal
    end in
  from_runtime_permissions_with_enforcement enforcement p network.

Definition profile_enforcement (p : profile) : SandboxEnforcement :=
  match p with
  | Managed _ _ => EnforcementManaged
  | Disabled => EnforcementDisabled
  | External _ => EnforcementExternal
  end.

Definition to_runtime_permissions (p : profile) : policy * NetworkSandboxPolicy :=
  (file_system_sandbox_policy p, network_sandbox_policy p).

Definition profile_of_legacy (p : SandboxPolicy) : outcome profile Empty_set :=
  from_runtime_permissions_with_enforcement (enforcement_of_legacy p) (fs_policy_of h p)
    (network_policy_of p).

Definition profile_of_legacy_for_cwd (p : SandboxPolicy) (cwd : str) : outcome profile Empty_set :=
  from_runtime_permissions_with_enforcement (enforcement_of_legacy p)
    (from_legacy_sandbox_policy_for_cwd h p cwd) (network_policy_of p).

Definition profile_to_legacy (p : profile) (cwd : str) : result SandboxPolicy io_error :=
  match p with
  | Managed file_system network =>
      to_legacy_sandbox_policy h (to_sandbox_policy file_system) network cwd
  | Disabled => Ok DangerFullAccess
  | External network =>
      Ok (ExternalSandboxPolicy
            (if network_is_enabled network then AccessEnabled else AccessRestricted))
  end.

Definition workspace_write_with (writable_roots : list str) (network : NetworkSandboxPolicy)
    (exclude_tmpdir_env_var exclude_slash_tmp : bool) : outcome profile Empty_set :=
  let! file_system :=
    managed_from_sandbox_policy
      (workspace_write h writable_roots exclude_tmpdir_env_var exclude_slash_tmp) in
  Done (Managed file_system network).

Definition profile_materialize_with (p : profile) (materialize : policy → policy)
    : outcome profile Empty_set :=
  match p with
  | Managed file_system network =>
      let! file_system :=
        managed_from_sandbox_policy (materialize (to_sandbox_policy file_system)) in
      Done (Managed file_system network)
  | Disabled => Done Disabled
  | External network => Done (External network)
  end.

Definition profile_materialize_with_workspace_roots (p : profile) (workspace_roots : list str)
    : outcome profile Empty_set :=
  profile_materialize_with p
    (λ policy, materialize_project_roots_with_workspace_roots h policy workspace_roots).
Definition profile_materialize_with_path_uris (p : profile) (workspace_roots : list Url)
    : outcome profile Empty_set :=
  profile_materialize_with p
    (λ policy, materialize_project_roots_with_path_uris h policy workspace_roots).

Definition read_only_access (m : FileSystemAccessMode) : FileSystemAccessMode :=
  match m with Read | Write => Read | Deny => Deny end.

Definition read_only_entry (e : entry) : entry :=
  mk_entry (entry_path e) (read_only_access (access e)) (missing_path_behavior e).

Definition intersect_with_read_only (p : profile) : outcome (option profile) Empty_set :=
  let file_system := file_system_sandbox_policy p in
  match fs_kind file_system with
  | ExternalSandbox => Done None
  | kind =>
      let file_system :=
        match kind with
        | Restricted => with_entries file_system (read_only_entry <$> fs_entries file_system)
        | _ => read_only
        end in
      let! profile := from_runtime_permissions file_system NetworkRestricted in
      Done (Some profile)
  end.

(** ** What the conversions do *)

(** A policy with a depth of zero has no depth once it is in a profile. *)
Definition with_valid_depth (p : policy) : policy :=
  match fs_kind p with
  | Restricted => with_depth p (fs_glob_scan_max_depth p ≫= non_zero)
  | Unrestricted => unrestricted
  | ExternalSandbox => external_sandbox
  end.

Lemma from_runtime_done enforcement p network :
  ∃ q, from_runtime_permissions_with_enforcement enforcement p network = Done q
    ∧ file_system_sandbox_policy q = with_valid_depth p
    ∧ (network_sandbox_policy q = network
       ∨ (q = Disabled ∧ fs_kind p = Unrestricted ∧ enforcement = EnforcementDisabled)).
Proof.
  unfold from_runtime_permissions_with_enforcement, managed_from_sandbox_policy, with_valid_depth.
  destruct (fs_kind p) eqn:Hk; [|case_bool_decide|]; eexists; (split; [reflexivity|]);
    unfold with_depth; simpl; rewrite ?Hk; (split; [done|]); auto.
Qed.

(** Materialising does not change the kind, so it stays total. *)
Lemma with_entries_kind (p : policy) entries : fs_kind (with_entries p entries) = fs_kind p.
Proof. done. Qed.

Lemma materialize_kind (p : policy) roots :
  fs_kind (materialize_project_roots_with_path_uris h p roots) = fs_kind p.
Proof. unfold materialize_project_roots_with_path_uris. by destruct (rmapM _ _). Qed.

Lemma to_sandbox_policy_kind (p : ManagedFileSystemPermissions Url) :
  fs_kind (to_sandbox_policy p) ≠ ExternalSandbox.
Proof. by destruct p. Qed.

Lemma managed_done (p : policy) :
  fs_kind p ≠ ExternalSandbox →
  ∃ fs, managed_from_sandbox_policy p = Done fs ∧ to_sandbox_policy fs = with_valid_depth p.
Proof.
  unfold managed_from_sandbox_policy, with_valid_depth, with_depth.
  destruct (fs_kind p) eqn:Hk; [| |done]; eauto.
Qed.

(** No operation on profiles reaches the arm that is marked unreachable,
    and a profile built from runtime permissions gives the same runtime
    permissions back (a scan depth of zero apart); a disabled profile allows
    the network whatever was asked. *)
Theorem profile_operations_total (p : profile) (fs : policy) enforcement network
    (legacy : SandboxPolicy) (cwd : str) (roots : list str) (uris : list Url) (t s : bool) :
  (∃ q, from_runtime_permissions_with_enforcement enforcement fs network = Done q
     ∧ to_runtime_permissions q
       = (with_valid_depth fs,
          if bool_decide (fs_kind fs = Unrestricted ∧ enforcement = EnforcementDisabled)
          then NetworkEnabled else network))
  ∧ from_runtime_permissions fs network ≠ Panic
  ∧ profile_of_legacy legacy ≠ Panic ∧ profile_of_legacy_for_cwd legacy cwd ≠ Panic
  ∧ workspace_write_with roots network t s ≠ Panic
  ∧ profile_materialize_with_workspace_roots p roots ≠ Panic
  ∧ profile_materialize_with_path_uris p uris ≠ Panic
  ∧ intersect_with_read_only p ≠ Panic.
Proof.
  assert (∀ e f n, from_runtime_permissions_with_enforcement e f n ≠ Panic) as Hrt.
  { intros e f n. destruct (from_runtime_done e f n) as (? & -> & _). done. }
  split_and!; try apply Hrt; try done.
  - destruct (from_runtime_done enforcement fs network) as (q & Hq & Hfs & Hnet). exists q.
    split; [done|]. unfold to_runtime_permissions. rewrite Hfs. f_equal.
    revert Hq. unfold from_runtime_permissions_with_enforcement, managed_from_sandbox_policy.
    destruct (fs_kind fs); [|case_bool_decide|]; intros [= <-]; by rewrite ?bool_decide_eq_true_2,
      ?bool_decide_eq_false_2 by naive_solver.
  - unfold profile_materialize_with_workspace_roots, profile_materialize_with.
    destruct p as [fsp| |]; [|done..].
    destruct (managed_done (materialize_project_roots_with_workspace_roots h (to_sandbox_policy fsp) roots))
      as (? & -> & _); [apply to_sandbox_policy_kind|done].
  - unfold profile_materialize_with_path_uris, profile_materialize_with.
    destruct p as [fsp| |]; [|done..].
    destruct (managed_done (materialize_project_roots_with_path_uris h (to_sandbox_policy fsp) uris))
      as (? & -> & _); [rewrite materialize_kind; apply to_sandbox_policy_kind|done].
  - unfold intersect_with_read_only, from_runtime_permissions.
    destruct (fs_kind (file_system_sandbox_policy p)) eqn:Hk; [| |done];
      match goal with |- context[from_runtime_permissions_with_enforcement ?e ?f ?n] =>
        by destruct (from_runtime_done e f n) as (? & -> & _) end.
Qed.

(** ** Read-only profiles *)

Lemma resolved_read_only (p : policy) ctx :
  resolved_entries (with_entries p (read_only_entry <$> fs_entries p)) ctx
  = prod_map id read_only_access <$> resolved_entries p ctx.
Proof.
  unfold resolved_entries. cbn [fs_entries with_entries].
  induction (fs_entries p) as [|e es IH]; [done|].
  change (mjoin (resolved_entry ctx <$> e :: es))
    with (resolved_entry ctx e ++ mjoin (resolved_entry ctx <$> es)).
  change (mjoin (resolved_entry ctx <$> (read_only_entry <$> e :: es)))
    with (resolved_entry ctx (read_only_entry e) ++ mjoin (resolved_entry ctx <$> (read_only_entry <$> es))).
  rewrite fmap_app, <- IH. f_equal. unfold resolved_entry. cbn [entry_path access read_only_entry].
  by rewrite <- list_fmap_compose.
Qed.

Lemma covers_read_only entries path root (m : FileSystemAccessMode) d :
  covers (prod_map id read_only_access <$> entries) path root m d ↔
  ∃ m', m = read_only_access m' ∧ covers (Url:=Url) entries path root m' d.
Proof.
  unfold covers. rewrite list_elem_of_fmap. split.
  - intros ([[r m'] [[= -> ->] Hin]] & Hd & Hs). exists m'. by split_and!.
  - intros (m' & -> & Hin & Hd & Hs). split_and!; try done. by exists (root, m').
Qed.

Lemma access_spec_read_only entries path ctx m :
  access_spec (Url:=Url) entries path ctx m →
  access_spec (prod_map id read_only_access <$> entries) path ctx (read_only_access m).
Proof.
  unfold access_spec. case_bool_decide; [|by intros ->].
  assert (unambiguous (prod_map id read_only_access <$> entries) ↔ unambiguous (Url:=Url) entries) as Hu.
  { unfold unambiguous. setoid_rewrite list_elem_of_fmap. split.
    - intros Hall root m' Hin. apply (Hall root (read_only_access m')). by exists (root, m').
    - intros Hall root m' ([r m''] & [= -> ->] & Hin). by eapply Hall. }
  rewrite Hu. intros [[Hun (root & d & Hc & Hmax)]|[-> [Hno|Hno]]].
  - left. split; [done|]. exists root, d. split; [apply covers_read_only; eauto|].
    intros root' m1 d1 (m2 & -> & Hc')%covers_read_only. destruct (Hmax _ _ _ Hc') as [|[-> Hr]]; [by left|].
    right. split; [done|]. destruct m, m2; simpl in *; lia.
  - right. by split; [|left].
  - right. split; [done|]. right. intros root m1 d (m2 & _ & Hc)%covers_read_only. by apply Hno in Hc.
Qed.

End profiles.

Section read_only_profiles.
Context {Url : Type} `{!EqDecision Url} `{Hops : !UrlOps Url} `{Hlaws : !UrlLaws Url}.

(** Intersecting a profile with read-only access keeps exactly its reads:
    a path that could be read or written can be read, a denied path stays
    denied, the network is off; only a profile that an external caller
    enforces has no such intersection. *)
Theorem read_only_intersection (p : PermissionProfile Url) path
    (ctx : FileSystemSandboxPolicyContext Url) :
  posix_context ctx → lexical path →
  match intersect_with_read_only p with
  | Done (Some q) =>
      network_sandbox_policy q = NetworkRestricted
      ∧ resolve_access (file_system_sandbox_policy q) path ctx
        = read_only_access (resolve_access (file_system_sandbox_policy p) path ctx)
  | Done None => ∃ network, p = External network
  | _ => False
  end.
Proof using Hlaws.
  intros Hctx Hpath. unfold intersect_with_read_only, from_runtime_permissions.
  set (fs := file_system_sandbox_policy p).
  destruct (fs_kind fs) eqn:Hk.
  - match goal with |- context[from_runtime_permissions_with_enforcement ?e ?f ?n] =>
      destruct (from_runtime_done e f n) as (q & -> & Hfs & Hnet) end.
    cbn [obind]. split; [by destruct Hnet as [|(_ & Hu & _)]; [|rewrite with_entries_kind, Hk in Hu]|].
    rewrite Hfs. unfold with_valid_depth.
    cbn [with_entries fs_kind]. rewrite Hk.
    eapply access_spec_unique; [|by apply access_spec_read_only, resolve_access_meets_spec].
    rewrite <- resolved_read_only.
    match goal with |- access_spec _ _ _ (resolve_access ?p _ _) =>
      exact (resolve_access_meets_spec p path ctx Hk) end.
  - match goal with |- context[from_runtime_permissions_with_enforcement ?e ?f ?n] =>
      destruct (from_runtime_done e f n) as (q & -> & Hfs & Hnet) end.
    cbn [obind]. split; [by destruct Hnet as [|(_ & Hu & _)]|]. rewrite Hfs.
    assert (resolve_access fs path ctx = Write) as -> by (unfold resolve_access; by rewrite Hk).
    destruct (file_system_root_spec ctx Hctx) as (r & Hr & Hlex & Hnames).
    destruct Hctx as (Hl & Hn & Hcwd).
    eapply access_spec_unique; [by apply resolve_access_meets_spec|].
    assert (resolved_entries (with_valid_depth (read_only (uri:=Url))) ctx = [(r, Read)]) as ->.
    { unfold resolved_entries. simpl. unfold resolved_entry, entry_roots. simpl. rewrite Hr. simpl.
      rewrite bool_decide_eq_true_2; [done|]. by rewrite (proj1 Hlex), (proj1 Hcwd). }
    unfold access_spec. rewrite bool_decide_eq_true_2.
    2:{ unfold comparable. destruct Hpath as [-> [? ->]], Hcwd as [-> [? ->]]. done. }
    left. split; [intros ? ? [= -> ->]%list_elem_of_singleton; left; apply Hlex|].
    exists r, (length (names r)). split.
    + split; [by apply list_elem_of_singleton|]. split; [by destruct (lexical_facts r Hlex) as (_ & _ & ? & _)|].
      apply starts_with_prefix; [done..|]. rewrite Hnames. apply prefix_nil.
    + intros ? ? ? ([= -> ->]%list_elem_of_singleton & Hd & _). right.
      split; [by eapply depth_names in Hd|done].
  - unfold fs in Hk. destruct p as [[]| |]; try done. eauto.
Qed.
End read_only_profiles.
