(* ===== verification/PolicyTransforms.v ===== *)
(** * Additional permissions

    [codex-rs/sandboxing/src/policy_transforms.rs] on a Unix target:
    normalising, merging and intersecting the additional permissions of a
    command, and the policies that are in force with them. *)

From S2P Require Import Prelude RustStr UnixPath Permissions ExecFs.
From S2P Require Import AbsolutePath PathUri SandboxPolicy LegacySandbox PermissionProfiles.

#[local] Arguments lit : simpl never.

Inductive GlobScanDepth := Bounded (depth : N) | Unbounded.

Section transforms.
Context {Url : Type} `{!EqDecision Url} `{!UrlOps Url} (h : Host).
Context {Glob : Type} (glob_build : PathConvention → str → result Glob str)
  (glob_match : Glob → bytes → bool).
Abbreviation policy := (FileSystemSandboxPolicy Url).
Abbreviation entry := (FileSystemSandboxEntry Url).
Abbreviation fs_permissions := (FileSystemPermissions Url).
Abbreviation overlay := (AdditionalPermissionProfile Url).

(** ** Resolving entries *)

Definition resolve_permission_path (path : FileSystemPath Url) (cwd : str) : option str :=
  match path with
  | PathEntry path => ok (to_abs_path (host_home h) path)
  | GlobPattern _ => None
  | Special value =>
      match value with
      | Root => root ← last (path_ancestors cwd); absolute h root
      | ProjectRoots subpath =>
          cwd ← absolute h cwd;
          Some match subpath with
               | Some subpath => resolve_path_against_base (host_home h) subpath cwd
               | None => cwd
               end
      | Tmpdir => match host_tmpdir h with None | Some [] => None | Some tmpdir => absolute h tmpdir end
      | SlashTmp =>
          path ← absolute h (lit "/tmp");
          if host_is_dir h path then Some path else None
      | Minimal | Unknown _ _ => None
      end
  end.

Definition materialize_cwd_dependent_entry (cwd : str) (e : entry) : entry :=
  match entry_path e with
  | Special (ProjectRoots _) =>
      match resolve_permission_path (entry_path e) cwd with
      | Some path => set_entry_path e (PathEntry (from_abs_path path))
      | None => e
      end
  | GlobPattern pattern =>
      set_entry_path e (GlobPattern (resolve_path_against_base (host_home h) pattern cwd))
  | PathEntry _ | Special _ => e
  end.

(** ** Normalising *)

Definition is_glob (path : FileSystemPath Url) : bool :=
  match path with GlobPattern _ => true | _ => false end.

Definition normalize_entry_path (path : FileSystemPath Url) : FileSystemPath Url :=
  match path with
  | PathEntry path =>
      PathEntry
        (default path
           (native ← ok (to_abs_path (host_home h) path);
            native ← ok (canonicalize_preserving_symlinks (host_home h) (host_cwd h)
                           (host_canonicalize h) (host_symlink h) native);
            from_abs_path <$> absolute h native))
  | GlobPattern pattern => GlobPattern pattern
  | Special value => Special value
  end.

Fixpoint normalize_entries (normalized entries : list entry) : result (list entry) str :=
  match entries with
  | [] => Ok normalized
  | e :: entries =>
      if is_glob (entry_path e) && negb (is_deny (access e)) then
        Err (lit "glob file system permissions only support deny-read entries")
      else
        normalize_entries
          (append_missing normalized (set_entry_path e (normalize_entry_path (entry_path e)))) entries
  end.

(** [Option::filter]. *)
Definition option_filter {A} (keep : A → bool) (o : option A) : option A :=
  a ← o; if keep a then Some a else None.

Definition normalize_additional_permissions (p : overlay) : result overlay str :=
  let network := option_filter (λ n, negb (network_permissions_is_empty n)) (app_network p) in
  let? file_system :=
    match app_file_system p with
    | Some file_system =>
        let? entries := normalize_entries [] (fsp_entries file_system) in
        Ok (option_filter (λ fs, negb (fsp_is_empty fs))
              (Some {| fsp_entries := entries;
                       fsp_glob_scan_max_depth := fsp_glob_scan_max_depth file_system |}))
    | None => Ok None
    end in
  Ok {| app_network := network; app_file_system := file_system |}.

Definition materialize_additional_permissions (p : overlay) (cwd : str) : result overlay str :=
  normalize_additional_permissions
    {| app_network := app_network p;
       app_file_system :=
         (λ fs, {| fsp_entries := materialize_cwd_dependent_entry cwd <$> fsp_entries fs;
                   fsp_glob_scan_max_depth := fsp_glob_scan_max_depth fs |})
         <$> app_file_system p |}.

(** ** Merging *)

Definition effective_glob_scan_depth (entries : list entry) (depth : option N)
    : option GlobScanDepth :=
  if existsb (λ e, is_deny (access e) && is_glob (entry_path e)) entries
  then Some match depth with Some depth => Bounded depth | None => Unbounded end
  else None.

Definition merge_glob_scan_max_depth (left_entries : list entry) (left_depth : option N)
    (right_entries : list entry) (right_depth : option N) : option N :=
  match effective_glob_scan_depth left_entries left_depth,
        effective_glob_scan_depth right_entries right_depth with
  | Some Unbounded, _ | _, Some Unbounded => None
  | Some (Bounded a), Some (Bounded b) => Some (N.max a b)
  | Some (Bounded depth), None | None, Some (Bounded depth) => Some depth
  | None, None => None
  end.

Definition merge_permission_entries (base permissions : list entry) : list entry :=
  foldl append_missing [] (base ++ permissions).

Definition asks_network (n : option NetworkPermissions) : bool :=
  match n with Some {| network_enabled := Some true |} => true | _ => false end.

Definition merge_file_systems (base permissions : option fs_permissions) : option fs_permissions :=
  match base, permissions with
  | Some base, Some permissions =>
      option_filter (λ fs, negb (fsp_is_empty fs))
        (Some {| fsp_entries := merge_permission_entries (fsp_entries base) (fsp_entries permissions);
                 fsp_glob_scan_max_depth :=
                   merge_glob_scan_max_depth (fsp_entries base) (fsp_glob_scan_max_depth base)
                     (fsp_entries permissions) (fsp_glob_scan_max_depth permissions)
                   ≫= non_zero |})
  | Some base, None => Some base
  | None, permissions => permissions
  end.

Definition merge_permission_profiles (base permissions : option overlay) : option overlay :=
  match permissions with
  | None => base
  | Some permissions =>
      match base with
      | Some base =>
          option_filter (λ p, negb (app_is_empty p))
            (Some {| app_network :=
                       if asks_network (app_network base) || asks_network (app_network permissions)
                       then Some {| network_enabled := Some true |} else None;
                     app_file_system :=
                       merge_file_systems (app_file_system base) (app_file_system permissions) |})
      | None => option_filter (λ p, negb (app_is_empty p)) (Some permissions)
      end
  end.

(** ** The policies in force *)

Definition merge_file_system_policy_with_additional_permissions (p : policy) (extra : fs_permissions)
    : policy :=
  match fs_kind p with
  | Restricted =>
      with_depth (with_entries p (foldl append_missing (fs_entries p) (fsp_entries extra)))
        (merge_glob_scan_max_depth (fs_entries p) (fs_glob_scan_max_depth p)
           (fsp_entries extra) (fsp_glob_scan_max_depth extra))
  | Unrestricted | ExternalSandbox => p
  end.

Definition effective_file_system_sandbox_policy (p : policy) (extra : option overlay) : policy :=
  match extra ≫= app_file_system with
  | None => p
  | Some file_system =>
      if fsp_is_empty file_system then p
      else merge_file_system_policy_with_additional_permissions p file_system
  end.

Definition merge_network_access (base_network_access : bool) (extra : overlay) : bool :=
  base_network_access || default false (app_network extra ≫= network_enabled).

Definition effective_network_sandbox_policy (network : NetworkSandboxPolicy)
    (extra : option overlay) : NetworkSandboxPolicy :=
  if is_some_and extra (merge_network_access (network_is_enabled network)) then NetworkEnabled
  else if negb (is_none extra) then NetworkRestricted
  else network.

Definition effective_permission_profile (p : PermissionProfile Url) (extra : option overlay)
    : outcome (PermissionProfile Url) Empty_set :=
  let '(file_system_policy, network_policy) := to_runtime_permissions p in
  from_runtime_permissions_with_enforcement (profile_enforcement p)
    (effective_file_system_sandbox_policy file_system_policy extra)
    (effective_network_sandbox_policy network_policy extra).

Definition should_require_platform_sandbox (p : policy) (network : NetworkSandboxPolicy)
    (has_managed_network_requirements : bool) : bool :=
  if has_managed_network_requirements then true
  else if negb (network_is_enabled network) then
    match fs_kind p with ExternalSandbox => false | _ => true end
  else
    match fs_kind p with
    | Restricted => negb (has_full_disk_write_access h p)
    | Unrestricted | ExternalSandbox => false
    end.

(** [with_managed_mitm_ca_readable_root] of [manager.rs]. *)
Definition with_managed_mitm_ca_readable_root (p : PermissionProfile Url)
    (managed_mitm_ca_trust_bundle_path : option str) (cwd : str)
    : outcome (PermissionProfile Url) Empty_set :=
  match managed_mitm_ca_trust_bundle_path with
  | None => Done p
  | Some path =>
      let '(file_system_policy, network_policy) := to_runtime_permissions p in
      from_runtime_permissions_with_enforcement (profile_enforcement p)
        (with_additional_readable_roots h file_system_policy cwd [path]) network_policy
  end.

(** ** Intersecting *)

Definition access_covers (requested granted : FileSystemAccessMode) : bool :=
  match granted with
  | Read => can_read requested
  | Write => can_write requested
  | Deny => false
  end.

Definition granted_file_system_entry_within_request (requested : fs_permissions)
    (requested_policy : policy) (requested_read_deny_matcher : option ReadDenyMatcher)
    (cwd : str) (granted_entry : entry) : bool :=
  if negb (can_read (access granted_entry)) then false
  else
    match resolve_permission_path (entry_path granted_entry) cwd with
    | Some path =>
        if is_some_and requested_read_deny_matcher (λ m, is_read_denied h glob_match m path)
        then false
        else access_covers (resolve_access_with_cwd h requested_policy path cwd)
               (access granted_entry)
    | None =>
        existsb (λ requested_entry,
          access_covers (access requested_entry) (access granted_entry)
          && fs_path_eq (entry_path requested_entry) (entry_path granted_entry))
          (fsp_entries requested)
    end.

Definition paths_may_overlap (left right : str) : bool :=
  default true (overlaps (from_abs_path (Url:=Url) left) (from_abs_path right)).

(** The characters that start the dynamic part of a glob. *)
Definition is_glob_char (c : char) : bool :=
  ((c =? 42) || (c =? 63) || (c =? 91) || (c =? 93))%N.

Definition glob_static_prefix_path (pattern cwd : str) : option str :=
  let resolved_pattern := resolve_path_against_base (host_home h) pattern cwd in
  prefix ←
    match position is_glob_char resolved_pattern with
    | Some 0 => None
    | Some index =>
        let prefix := take index resolved_pattern in
        if ends_with prefix (lit "/") || ends_with prefix (lit "\") then Some prefix
        else path_parent_of prefix
    | None => Some resolved_pattern
    end;
  absolute h prefix.

Definition deny_entry_constrains_accepted_grant (cwd : str) (accepted_entries : list entry)
    (deny_entry : entry) : bool :=
  existsb (λ e,
    can_read (access e)
    && match resolve_permission_path (entry_path e) cwd with
       | None => false
       | Some grant_path =>
           match entry_path deny_entry with
           | GlobPattern pattern =>
               is_some_and (glob_static_prefix_path pattern cwd)
                 (λ prefix, paths_may_overlap prefix grant_path)
           | PathEntry _ | Special _ =>
               is_some_and (resolve_permission_path (entry_path deny_entry) cwd)
                 (λ deny_path, paths_may_overlap deny_path grant_path)
           end
       end) accepted_entries.

(** The retained entries; the caller appends those that are missing. *)
Definition retained_deny_entries (cwd : str) (source_entries accepted_entries : list entry)
    : list entry :=
  materialize_cwd_dependent_entry cwd
    <$> List.filter (deny_entry_constrains_accepted_grant cwd accepted_entries)
          (List.filter (λ e, is_deny (access e)) source_entries).

Definition intersect_file_systems (requested granted : fs_permissions) (cwd : str)
    : outcome fs_permissions unit :=
  let requested_policy := restricted (fsp_entries requested) in
  let! requested_read_deny_matcher := new_read_deny_matcher h glob_build requested_policy cwd in
  let accepted_entries :=
    foldl append_missing []
      (materialize_cwd_dependent_entry cwd
         <$> List.filter (granted_file_system_entry_within_request requested requested_policy
                            requested_read_deny_matcher cwd) (fsp_entries granted)) in
  let requested_retained := retained_deny_entries cwd (fsp_entries requested) accepted_entries in
  let entries := foldl append_missing accepted_entries requested_retained in
  let granted_retained := retained_deny_entries cwd (fsp_entries granted) accepted_entries in
  let entries := foldl append_missing entries granted_retained in
  Done {| fsp_entries := entries;
          fsp_glob_scan_max_depth :=
            merge_glob_scan_max_depth requested_retained (fsp_glob_scan_max_depth requested)
              granted_retained (fsp_glob_scan_max_depth granted) ≫= non_zero |}.

Definition intersect_permission_profiles (requested granted : overlay) (cwd : str)
    : outcome overlay unit :=
  let! file_system :=
    match app_file_system requested with
    | None => Done None
    | Some requested_file_system =>
        let granted_file_system :=
          default {| fsp_entries := []; fsp_glob_scan_max_depth := None |} (app_file_system granted) in
        let! fs := intersect_file_systems requested_file_system granted_file_system cwd in
        Done (option_filter (λ fs, negb (fsp_is_empty fs)) (Some fs))
    end in
  Done {| app_network :=
            if asks_network (app_network requested) && asks_network (app_network granted)
            then Some {| network_enabled := Some true |} else None;
          app_file_system := file_system |}.

End transforms.
