(* ===== verification/PolicyTransformFacts.v ===== *)
(** * What additional permissions change

    Merging overlays is the same as applying one after the other, and an
    overlay decides only the paths it covers. *)

From S2P Require Import Prelude RustStr UnixPath Permissions ExecFs.
From S2P Require Import AbsolutePath PathUri PathUriFacts SandboxPolicy SandboxAccess.
From S2P Require Import LegacySandbox PermissionProfiles PolicyTransforms.

#[local] Arguments lit : simpl never.
#[local] Set Default Proof Using "Type".

Section facts.
Context {Url : Type} `{!EqDecision Url} `{!UrlOps Url}.
Abbreviation policy := (FileSystemSandboxPolicy Url).
Abbreviation entry := (FileSystemSandboxEntry Url).
Abbreviation overlay := (AdditionalPermissionProfile Url).
Implicit Types (l k : list entry) (e x y : entry) (p : policy) (a b : overlay).

(** ** Equality of entries is an equivalence *)

Definition same_entry x y : Prop := entry_eq x y = true.

Lemma uri_eq_spec (u v : Url) :
  uri_eq u v = true ↔
  u = v ∨ ∃ s t, windows_identity_path_bytes u = Some s ∧ windows_identity_path_bytes v = Some t
                 ∧ url_host_str u = url_host_str v ∧ eq_ignore_ascii_case s t = true.
Proof.
  unfold uri_eq. rewrite orb_true_iff, bool_decide_eq_true.
  destruct (windows_identity_path_bytes u), (windows_identity_path_bytes v);
    rewrite ?andb_true_iff, ?bool_decide_eq_true; naive_solver.
Qed.

Definition same_uri (u v : Url) : Prop := uri_eq u v = true.

#[local] Instance same_uri_equiv : Equivalence same_uri.
Proof.
  unfold same_uri. split.
  - intros u. apply uri_eq_spec. by left.
  - intros u v. rewrite !uri_eq_spec. intros [->|(s & t & Hs & Ht & Hh & He)]; [by left|right].
    exists t, s. split_and!; try done. unfold eq_ignore_ascii_case in *.
    by rewrite bool_decide_eq_true in *.
  - intros u v w. rewrite !uri_eq_spec.
    intros [->|(s & t & Hs & Ht & Hh & He)] [->|(s' & t' & Hs' & Ht' & Hh' & He')]; try (right; eauto 10; fail);
      [by left|]. right. rewrite Ht in Hs'. injection Hs' as ->. exists s, t'.
    split_and!; [done|done|congruence|]. unfold eq_ignore_ascii_case in *.
    rewrite bool_decide_eq_true in *. congruence.
Qed.

Lemma fs_path_eq_refl (q : FileSystemPath Url) : fs_path_eq q q = true.
Proof. destruct q as [u| |]; simpl; [by change (same_uri u u)|by case_bool_decide..]. Qed.

#[local] Instance same_entry_equiv : Equivalence same_entry.
Proof.
  assert (∀ q r : FileSystemPath Url, fs_path_eq q r = true → fs_path_eq r q = true) as Hsym.
  { intros [u| |] [v| |]; simpl; try done; [intros H; change (same_uri v u); by symmetry|case_bool_decide; subst; by case_bool_decide..]. }
  assert (∀ q r t : FileSystemPath Url,
    fs_path_eq q r = true → fs_path_eq r t = true → fs_path_eq q t = true) as Htrans.
  { intros [u|?|?] [v|?|?] [w|?|?]; simpl; try done; [|rewrite !bool_decide_eq_true; congruence..].
    intros H H'. change (same_uri u w). by transitivity v. }
  unfold same_entry, entry_eq. split; intros x; [|intros y|intros y z];
    rewrite !andb_true_iff, !bool_decide_eq_true.
  - by rewrite fs_path_eq_refl.
  - intros [[H ?] ?]. by rewrite (Hsym _ _ H).
  - intros [[H ?] ?] [[H' ?] ?]. rewrite (Htrans _ _ _ H H'). split_and!; congruence.
Qed.

Lemma append_missing_cases l x :
  (append_missing l x = l ∧ ∃ y, y ∈ l ∧ same_entry y x)
  ∨ (append_missing l x = l ++ [x] ∧ ∀ y, y ∈ l → ¬ same_entry y x).
Proof.
  unfold append_missing. destruct (existsb _ _) eqn:E; [left|right]; (split; [done|]).
  - apply existsb_exists in E as (y & Hy & Hxy). exists y. by rewrite list_elem_of_In.
  - intros y Hy Hxy. apply not_true_iff_false in E. apply E, existsb_exists. exists y.
    by rewrite <- list_elem_of_In.
Qed.

Lemma append_missing_known l x : (∃ y, y ∈ l ∧ same_entry y x) → append_missing l x = l.
Proof.
  intros (y & Hy & Hxy). destruct (append_missing_cases l x) as [[-> _]|[_ Hno]]; [done|].
  by destruct (Hno y Hy).
Qed.

(** Adding the entries of a deduplicated list adds those of the list. *)
Lemma append_missing_comm l k x :
  foldl append_missing l (append_missing k x) = append_missing (foldl append_missing l k) x.
Proof.
  destruct (append_missing_cases k x) as [[-> (y & Hy & Hxy)]|[-> _]]; [|by rewrite foldl_app].
  symmetry. apply append_missing_known.
  destruct (append_missing_spec k l) as (_ & _ & Hall). destruct (Hall y Hy) as (z & Hz & Hzy).
  exists z. split; [done|]. destruct Hzy as [->|Hzy]; [done|]. by transitivity y.
Qed.

Lemma append_missing_fold l k k' :
  foldl append_missing l (foldl append_missing k k') = foldl append_missing (foldl append_missing l k) k'.
Proof.
  revert k; induction k' as [|x k' IH]; intros k; [done|]. simpl. by rewrite IH, append_missing_comm.
Qed.

(** ** Scan depths *)

Definition denies_glob e : bool := is_deny (access e) && is_glob (entry_path e).

Lemma same_entry_denies_glob x y : same_entry x y → denies_glob x = denies_glob y.
Proof.
  unfold same_entry, entry_eq, denies_glob. rewrite !andb_true_iff, !bool_decide_eq_true.
  intros [[Hp ->] _]. by destruct (entry_path x), (entry_path y).
Qed.

Lemma append_missing_denies_glob l k :
  existsb denies_glob (foldl append_missing l k) = existsb denies_glob l || existsb denies_glob k.
Proof.
  revert l; induction k as [|x k IH]; intros l; simpl; [by rewrite orb_false_r|]. rewrite IH, orb_assoc.
  f_equal. destruct (append_missing_cases l x) as [[-> (y & Hy & Hxy)]|[-> _]].
  - rewrite <- (same_entry_denies_glob _ _ Hxy). destruct (denies_glob y) eqn:Hd;
      [|by rewrite orb_false_r]. rewrite orb_true_r. apply existsb_exists. exists y.
    by rewrite <- list_elem_of_In.
  - rewrite existsb_app. simpl. by rewrite orb_false_r.
Qed.

(** [NonZeroUsize]. *)
Definition depth_ok (a : option overlay) : Prop :=
  ∀ fs, a ≫= app_file_system = Some fs → fsp_glob_scan_max_depth fs ≠ Some 0%N.

Lemma non_zero_max m n : m ≠ 0%N → non_zero (N.max m n) = Some (N.max m n).
Proof. intros Hm. unfold non_zero. destruct (N.eqb_spec (N.max m n) 0); [lia|done]. Qed.

Lemma non_zero_id n : n ≠ 0%N → non_zero n = Some n.
Proof. intros Hn. unfold non_zero. by destruct (N.eqb_spec n 0). Qed.

(** The depth of three lists of entries does not depend on the grouping. *)
Lemma merge_depth_assoc l k k' dl dk dk' :
  dk ≠ Some 0%N → dk' ≠ Some 0%N →
  merge_glob_scan_max_depth l dl (foldl append_missing [] (k ++ k'))
    (merge_glob_scan_max_depth k dk k' dk' ≫= non_zero)
  = merge_glob_scan_max_depth (foldl append_missing l k) (merge_glob_scan_max_depth l dl k dk) k' dk'.
Proof.
  intros Hk Hk'. unfold merge_glob_scan_max_depth, effective_glob_scan_depth.
  change (λ e, is_deny (access e) && is_glob (entry_path e)) with denies_glob.
  rewrite !append_missing_denies_glob, existsb_app. cbn [existsb orb].
  assert (∀ n, dk = Some n → n ≠ 0%N) as Hn by congruence.
  assert (∀ n, dk' = Some n → n ≠ 0%N) as Hn' by congruence.
  destruct (existsb denies_glob l), (existsb denies_glob k), (existsb denies_glob k');
    destruct dl, dk as [nk|], dk' as [nk'|]; cbn [orb mbind option_bind];
    try rewrite non_zero_max by (by apply Hn); try rewrite non_zero_id by (by auto);
    try done; by rewrite N.max_assoc.
Qed.

(** Without further entries the depth stays. *)
Lemma merge_depth_left l dl k dk dk' :
  merge_glob_scan_max_depth l (merge_glob_scan_max_depth l dl [] dk') k dk
  = merge_glob_scan_max_depth (Url:=Url) l dl k dk.
Proof.
  unfold merge_glob_scan_max_depth, effective_glob_scan_depth. cbn [existsb].
  destruct (existsb _ l); [|done]. by destruct dl.
Qed.

Lemma merge_depth_right l dl k dk dk' :
  merge_glob_scan_max_depth (foldl append_missing l k) (merge_glob_scan_max_depth l dl k dk) [] dk'
  = merge_glob_scan_max_depth (Url:=Url) l dl k dk.
Proof.
  unfold merge_glob_scan_max_depth, effective_glob_scan_depth. cbn [existsb].
  change (λ e, is_deny (access e) && is_glob (entry_path e)) with denies_glob.
  rewrite append_missing_denies_glob.
  destruct (existsb denies_glob l), (existsb denies_glob k), dl, dk; done.
Qed.

Lemma fold_append_missing_nil l k : is_empty (foldl append_missing l k) = is_empty l && is_empty k.
Proof.
  assert (∀ (m : list entry) z, z ∈ m → is_empty m = false) as Hne by (intros [|? ?] z; set_solver).
  destruct (append_missing_spec k l) as (Hl & _ & Hk). destruct l as [|x l].
  - destruct k as [|y k]; [done|]. destruct (Hk y ltac:(set_solver)) as (z & Hz & _).
    by rewrite (Hne _ z Hz).
  - by rewrite (Hne _ x (Hl x ltac:(set_solver))).
Qed.

Lemma fold_append_missing_ne k : k ≠ [] → foldl append_missing [] k ≠ [].
Proof. intros Hk E. pose proof (fold_append_missing_nil [] k) as Hn. rewrite E in Hn. by destruct k. Qed.

(** ** Composition *)

Lemma merge_file_system_part (a b : option overlay) :
  merge_permission_profiles a b ≫= app_file_system
  = merge_file_systems (a ≫= app_file_system) (b ≫= app_file_system).
Proof.
  assert (∀ o : overlay, option_filter (λ q : overlay, negb (app_is_empty q)) (Some o) ≫= app_file_system
                         = app_file_system o) as Hf.
  { intros o. unfold option_filter, app_is_empty. simpl.
    destruct (app_network o), (app_file_system o) eqn:E; simpl; congruence. }
  destruct b as [b|]; unfold merge_permission_profiles; [|by destruct (a ≫= _)].
  destruct a as [a|]; by rewrite Hf.
Qed.

Definition apply_overlay p (fs : option (FileSystemPermissions Url)) : policy :=
  match fs with
  | None => p
  | Some fs => if fsp_is_empty fs then p else merge_file_system_policy_with_additional_permissions p fs
  end.

Lemma apply_overlay_free p fs : fs_kind p ≠ Restricted → apply_overlay p fs = p.
Proof.
  intros Hk. unfold apply_overlay, merge_file_system_policy_with_additional_permissions.
  destruct fs; [|done]. case_match; [done|]. by destruct (fs_kind p).
Qed.

Lemma apply_overlay_restricted p fs :
  fs_kind p = Restricted → fsp_entries fs ≠ [] →
  apply_overlay p (Some fs) =
  {| fs_kind := Restricted;
     fs_glob_scan_max_depth :=
       merge_glob_scan_max_depth (fs_entries p) (fs_glob_scan_max_depth p) (fsp_entries fs)
         (fsp_glob_scan_max_depth fs);
     fs_entries := foldl append_missing (fs_entries p) (fsp_entries fs) |}.
Proof.
  intros Hk Hne. unfold apply_overlay, fsp_is_empty.
  destruct (fsp_entries fs) eqn:E; [done|]. cbn [is_empty]. rewrite <- E.
  unfold merge_file_system_policy_with_additional_permissions, with_depth, with_entries. simpl.
  rewrite Hk. done.
Qed.

Lemma apply_overlay_compose p fa fb :
  (∀ fs, fa = Some fs → fsp_glob_scan_max_depth fs ≠ Some 0%N) →
  (∀ fs, fb = Some fs → fsp_glob_scan_max_depth fs ≠ Some 0%N) →
  apply_overlay (apply_overlay p fa) fb = apply_overlay p (merge_file_systems fa fb).
Proof.
  intros Ha Hb. destruct (decide (fs_kind p = Restricted)) as [Hk|Hk];
    [|by rewrite !apply_overlay_free by (by rewrite ?apply_overlay_free)].
  destruct fa as [[ka da]|]; [|by destruct fb]. destruct fb as [[kb db]|]; [|done].
  specialize (Ha _ eq_refl). specialize (Hb _ eq_refl). simpl in Ha, Hb.
  unfold merge_file_systems, option_filter, fsp_is_empty, merge_permission_entries.
  cbn [mbind option_bind fsp_entries fsp_glob_scan_max_depth]. rewrite fold_append_missing_nil.
  cbn [is_empty andb]. destruct ka as [|ea ka], kb as [|eb kb]; [done|..]; cbn [app is_empty negb].
  - change (apply_overlay p (Some {| fsp_entries := []; fsp_glob_scan_max_depth := da |})) with p.
    rewrite !apply_overlay_restricted by (done || by apply fold_append_missing_ne).
    cbn [fsp_entries fsp_glob_scan_max_depth].
    rewrite (append_missing_fold (fs_entries p) [] (eb :: kb)). f_equal.
    rewrite (merge_depth_assoc (fs_entries p) [] (eb :: kb)) by done. cbn [foldl].
    by rewrite merge_depth_left.
  - rewrite !app_nil_r.
    change (apply_overlay ?q (Some {| fsp_entries := []; fsp_glob_scan_max_depth := db |})) with q.
    rewrite !apply_overlay_restricted by (done || by apply fold_append_missing_ne).
    cbn [fsp_entries fsp_glob_scan_max_depth].
    rewrite (append_missing_fold (fs_entries p) [] (ea :: ka)). f_equal.
    pose proof (merge_depth_assoc (fs_entries p) (ea :: ka) [] (fs_glob_scan_max_depth p) da db Ha Hb) as H.
    rewrite app_nil_r in H. by rewrite H, merge_depth_right.
  - rewrite (apply_overlay_restricted p {| fsp_entries := ea :: ka; fsp_glob_scan_max_depth := da |}) by done.
    rewrite !apply_overlay_restricted by (done || by apply fold_append_missing_ne).
    cbn [fsp_entries fsp_glob_scan_max_depth fs_entries fs_glob_scan_max_depth]. f_equal.
    + symmetry. by apply (merge_depth_assoc (fs_entries p) (ea :: ka) (eb :: kb)).
    + change (ea :: ka ++ eb :: kb) with ((ea :: ka) ++ eb :: kb).
      rewrite (append_missing_fold (fs_entries p) [] ((ea :: ka) ++ eb :: kb)). by rewrite foldl_app.
Qed.

(** Merging two overlays and applying the result is applying one after the
    other: the same entries, the same scan depth, the same network access. *)
Theorem overlays_compose p (network : NetworkSandboxPolicy) (a b : option overlay) :
  depth_ok a → depth_ok b →
  effective_file_system_sandbox_policy (effective_file_system_sandbox_policy p a) b
  = effective_file_system_sandbox_policy p (merge_permission_profiles a b)
  ∧ effective_network_sandbox_policy (effective_network_sandbox_policy network a) b
    = effective_network_sandbox_policy network (merge_permission_profiles a b).
Proof.
  intros Ha Hb. split.
  - pose proof (apply_overlay_compose p _ _ Ha Hb) as H. unfold apply_overlay in H.
    unfold effective_file_system_sandbox_policy. by rewrite merge_file_system_part.
  - assert (∀ o : overlay, default false (app_network o ≫= network_enabled) = asks_network (app_network o)) as Hn.
    { intros o. by destruct (app_network o) as [[[[]|]]|]. }
    unfold effective_network_sandbox_policy, merge_network_access.
    destruct b as [b|]; [|done].
    destruct a as [a|].
    + unfold merge_permission_profiles, option_filter, app_is_empty. cbn [mbind option_bind].
      rewrite ?Hn. cbn [app_network is_some_and is_none negb].
      destruct (merge_file_systems _ _), (asks_network (app_network a)) eqn:E1,
        (asks_network (app_network b)) eqn:E2, network; simpl; rewrite ?Hn, ?E1, ?E2; simpl;
        rewrite ?Hn, ?E1, ?E2; done.
    + unfold merge_permission_profiles, option_filter, app_is_empty. cbn [mbind option_bind].
      destruct (app_network b) as [n|] eqn:E, (app_file_system b), network; simpl; rewrite ?E; done.
Qed.

(** ** The policy in force *)

(** On a POSIX executor the roots of a merged policy are those of both. *)
Lemma resolved_overlay p fs ctx root m :
  fs_kind p = Restricted → infer_path_convention (ctx_cwd ctx) = Some Posix →
  (root, m) ∈ resolved_entries (apply_overlay p (Some fs)) ctx ↔
  (root, m) ∈ resolved_entries p ctx ∨ (root, m) ∈ resolved_entries (restricted (fsp_entries fs)) ctx.
Proof.
  intros Hk Hp. destruct (decide (fsp_entries fs = [])) as [He|He].
  { assert (apply_overlay p (Some fs) = p) as -> by (unfold apply_overlay, fsp_is_empty; by rewrite He).
    rewrite He. cbn [restricted]. unfold resolved_entries at 3. simpl. set_solver. }
  rewrite apply_overlay_restricted by done. rewrite !elem_of_resolved. cbn [fs_entries restricted].
  destruct (append_missing_spec (fsp_entries fs) (fs_entries p)) as (Hl & Hi & Hx). split.
  - intros (e & He' & Ha & Hr & Hc). destruct (Hi e He'); [left|right]; eauto 10.
  - intros [(e & He' & Ha & Hr & Hc)|(e & He' & Ha & Hr & Hc)]; [eauto 10|].
    destruct (Hx e He') as (e' & Hin & [->|Heq]); [eauto 10|].
    destruct (entry_eq_roots ctx e e' root Heq) as [Hr' Ha']; [congruence|done|].
    exists e'. split_and!; congruence.
Qed.

(** With additional permissions a path has the mode of the most specific
    entry of the policy and the overlay together; a path that no entry of the
    overlay covers keeps its mode, and a policy that restricts nothing stays as
    it is. *)
Theorem overlay_decides_what_it_covers p (o : overlay) fs path ctx m :
  app_file_system o = Some fs → infer_path_convention (ctx_cwd ctx) = Some Posix →
  let extra := resolved_entries (restricted (fsp_entries fs)) ctx in
  let effective := effective_file_system_sandbox_policy p (Some o) in
  (fs_kind p = Restricted →
     (resolve_access effective path ctx = m
        ↔ access_spec (resolved_entries p ctx ++ extra) path ctx m)
     ∧ (unambiguous extra → (∀ root m' d, ¬ covers extra path root m' d) →
        resolve_access effective path ctx = resolve_access p path ctx))
  ∧ (fs_kind p ≠ Restricted → effective = p).
Proof.
  intros Hfs Hposix extra effective.
  assert (effective = apply_overlay p (Some fs)) as Heff
    by (unfold effective, effective_file_system_sandbox_policy; simpl; by rewrite Hfs).
  split; [|intros Hk; rewrite Heff; by apply apply_overlay_free]. intros Hk.
  assert (fs_kind effective = Restricted) as Hke.
  { rewrite Heff. destruct (decide (fsp_entries fs = [])) as [He|He].
    - unfold apply_overlay, fsp_is_empty. by rewrite He.
    - by rewrite apply_overlay_restricted. }
  assert (∀ r, r ∈ resolved_entries effective ctx ↔ r ∈ resolved_entries p ctx ++ extra) as Hin.
  { intros [root m']. rewrite elem_of_app, Heff. by apply resolved_overlay. }
  pose proof (resolve_access_meets_spec effective path ctx Hke) as Hspec.
  apply (access_spec_ext _ (resolved_entries p ctx ++ extra)) in Hspec; [|done].
  split; [split; [by intros <-|intros Hm; by eapply access_spec_unique]|].
  intros Hun Hno. eapply access_spec_unique; [exact Hspec|].
  pose proof (resolve_access_meets_spec p path ctx Hk) as Hp.
  assert (∀ root m' d, covers (resolved_entries p ctx ++ extra) path root m' d
    ↔ covers (resolved_entries p ctx) path root m' d) as Hcov.
  { intros root m' d. unfold covers. rewrite elem_of_app. split; [|naive_solver].
    intros ([Hx|Hx] & Hd & Hs); [done|]. destruct (Hno root m' d). by split_and!. }
  assert (unambiguous (resolved_entries p ctx ++ extra) ↔ unambiguous (resolved_entries p ctx)) as Hua.
  { unfold unambiguous. setoid_rewrite elem_of_app. naive_solver. }
  unfold access_spec in *. case_bool_decide; [|done]. unfold most_specific in *.
  rewrite Hua. setoid_rewrite Hcov. done.
Qed.

(** A command runs without the platform sandbox only when nothing is left to
    enforce: managed network requirements are absent, and either an external
    sandbox is in charge, or the network is allowed and the policy restricts no
    write. *)
Theorem unsandboxed_only_if_unrestricted (h : Host) p (network : NetworkSandboxPolicy) (managed : bool) :
  should_require_platform_sandbox h p network managed = false ↔
  managed = false
  ∧ (fs_kind p = ExternalSandbox
     ∨ (network = NetworkEnabled ∧ has_full_disk_write_access h p = true)).
Proof.
  unfold should_require_platform_sandbox, has_full_disk_write_access.
  destruct managed, network, (fs_kind p); simpl; rewrite ?negb_false_iff; naive_solver.
Qed.

End facts.
