(* ===== verification/IntersectFacts.v ===== *)
(** * What an intersection of permissions grants

    [intersect_permission_profiles]: every grant in the result is one the
    request covers, and what the request denies stays denied. *)

From S2P Require Import Prelude RustStr Utf8 UnixPath Permissions ExecFs.
From S2P Require Import AbsolutePath PathUri PathUriFacts SandboxPolicy SandboxAccess SandboxLocal.
From S2P Require Import LegacySandbox PermissionProfiles PolicyTransforms.

#[local] Arguments lit : simpl never.
#[local] Set Default Proof Using "Type".

Section intersect.
Context {Url : Type} `{!EqDecision Url} `{Hops : !UrlOps Url} (h : Host)
  {Glob : Type} (glob_build : PathConvention → str → result Glob str)
  (glob_match : Glob → bytes → bool).
Abbreviation entry := (FileSystemSandboxEntry Url).
Abbreviation fs_permissions := (FileSystemPermissions Url).
Implicit Types (requested granted : fs_permissions) (cwd : str) (e g : entry).

(** The granted entries that the request covers. *)
Definition accepted requested m cwd granted : list entry :=
  List.filter (granted_file_system_entry_within_request h glob_match requested
    (restricted (fsp_entries requested)) m cwd) (fsp_entries granted).

Lemma access_materialized cwd e : access (materialize_cwd_dependent_entry h cwd e) = access e.
Proof.
  unfold materialize_cwd_dependent_entry. destruct (entry_path e) as [| |[]]; try done.
  by destruct (resolve_permission_path _ _ _).
Qed.

Lemma elem_of_accepted requested m cwd granted e :
  e ∈ foldl append_missing []
        (materialize_cwd_dependent_entry h cwd <$> accepted requested m cwd granted) →
  ∃ g, g ∈ fsp_entries granted ∧ e = materialize_cwd_dependent_entry h cwd g
    ∧ granted_file_system_entry_within_request h glob_match requested
        (restricted (fsp_entries requested)) m cwd g = true.
Proof.
  intros He. destruct (append_missing_spec
    (materialize_cwd_dependent_entry h cwd <$> accepted requested m cwd granted) []) as (_ & Hi & _).
  destruct (Hi e He) as [[]%elem_of_nil|Hx]. apply list_elem_of_fmap in Hx as (g & -> & Hg).
  apply list_elem_of_In, filter_In in Hg as [Hg Hok]. exists g. by rewrite list_elem_of_In.
Qed.

Lemma retained_are_denied cwd l l' e : e ∈ retained_deny_entries h cwd l l' → access e = Deny.
Proof.
  unfold retained_deny_entries. intros (d & -> & Hd)%list_elem_of_fmap. rewrite access_materialized.
  apply list_elem_of_In, filter_In in Hd as [Hd _]. apply filter_In in Hd as [_ Hd].
  by apply is_deny_spec.
Qed.

(** The parts of an intersection. *)
Lemma intersection_entries requested granted cwd fs :
  intersect_file_systems h glob_build glob_match requested granted cwd = Done fs →
  ∃ m, new_read_deny_matcher h glob_build (restricted (fsp_entries requested)) cwd = Done m
    ∧ let acc := foldl append_missing []
                   (materialize_cwd_dependent_entry h cwd <$> accepted requested m cwd granted) in
      fsp_entries fs = foldl append_missing
        (foldl append_missing acc (retained_deny_entries h cwd (fsp_entries requested) acc))
        (retained_deny_entries h cwd (fsp_entries granted) acc).
Proof.
  unfold intersect_file_systems. destruct (new_read_deny_matcher _ _ _ _) as [m| |]; [|done..].
  cbn [obind]. intros [= <-]. by exists m.
Qed.

(** A grant of the result is a grant that was accepted. *)
Lemma intersection_grant requested granted cwd fs m e :
  new_read_deny_matcher h glob_build (restricted (fsp_entries requested)) cwd = Done m →
  intersect_file_systems h glob_build glob_match requested granted cwd = Done fs →
  e ∈ fsp_entries fs → access e ≠ Deny →
  e ∈ foldl append_missing []
        (materialize_cwd_dependent_entry h cwd <$> accepted requested m cwd granted).
Proof.
  intros Hm (m' & Hm' & Hfs)%intersection_entries He Hne. rewrite Hm in Hm'. injection Hm' as <-.
  rewrite Hfs in He.
  match type of He with e ∈ foldl _ ?l ?x => destruct (append_missing_spec x l) as (_ & Hi & _) end.
  destruct (Hi e He) as [He'|?%retained_are_denied]; [|done]. clear Hi.
  match type of He' with e ∈ foldl _ ?l ?x => destruct (append_missing_spec x l) as (_ & Hi & _) end.
  destruct (Hi e He') as [|?%retained_are_denied]; done.
Qed.

(** Intersecting what was requested with what was granted gives nothing that
    was not requested: every read or write entry of the result is a granted
    entry; where its path is known, the request gives that path at least the
    same access and denies no read of it; otherwise the request lists the same
    path with at least the same access.  The network is on only if both ask for
    it. *)
Theorem intersection_within_request (requested granted result : AdditionalPermissionProfile Url) cwd :
  intersect_permission_profiles h glob_build glob_match requested granted cwd = Done result →
  (∀ fs e, app_file_system result = Some fs → e ∈ fsp_entries fs → access e ≠ Deny →
     ∃ rfs gfs g m, app_file_system requested = Some rfs ∧ app_file_system granted = Some gfs
       ∧ new_read_deny_matcher h glob_build (restricted (fsp_entries rfs)) cwd = Done m
       ∧ g ∈ fsp_entries gfs ∧ e = materialize_cwd_dependent_entry h cwd g
       ∧ match resolve_permission_path h (entry_path g) cwd with
         | Some p =>
             access_covers (resolve_access_with_cwd h (restricted (fsp_entries rfs)) p cwd) (access g) = true
             ∧ is_some_and m (λ m, is_read_denied h glob_match m p) = false
         | None => ∃ r, r ∈ fsp_entries rfs ∧ fs_path_eq (entry_path r) (entry_path g) = true
                     ∧ access_covers (access r) (access g) = true
         end)
  ∧ (app_network result = Some {| network_enabled := Some true |}
     ↔ asks_network (app_network requested) = true ∧ asks_network (app_network granted) = true)
  ∧ (app_network result = None ∨ app_network result = Some {| network_enabled := Some true |}).
Proof.
  unfold intersect_permission_profiles. intros Hres.
  destruct (app_file_system requested) as [rfs|] eqn:Hr; cbn [obind] in Hres.
  2:{ simplify_eq. cbn [app_file_system app_network].
      destruct (asks_network (app_network requested)), (asks_network (app_network granted)); naive_solver. }
  set (gfs := default {| fsp_entries := []; fsp_glob_scan_max_depth := None |} (app_file_system granted)) in Hres.
  destruct (intersect_file_systems h glob_build glob_match rfs gfs cwd) as [fs'| |] eqn:Hi; [|done..].
  cbn [obind] in Hres. injection Hres as <-. cbn [app_file_system app_network]. split.
  - intros fs e Hfs He Hne. unfold option_filter in Hfs. cbn [mbind option_bind] in Hfs.
    case_match; simplify_eq. destruct (intersection_entries _ _ _ _ Hi) as (m & Hm & _).
    destruct (elem_of_accepted _ _ _ _ _ (intersection_grant _ _ _ _ _ _ Hm Hi He Hne)) as (g & Hg & -> & Hok).
    assert (app_file_system granted = Some gfs) as Hgr.
    { unfold gfs in *. destruct (app_file_system granted); [done|]. by apply elem_of_nil in Hg. }
    exists rfs, gfs, g, m. split_and!; try done.
    unfold granted_file_system_entry_within_request in Hok.
    destruct (can_read (access g)); cbn [negb] in Hok; [|done].
    destruct (resolve_permission_path h (entry_path g) cwd) as [p|].
    + destruct (is_some_and m _); done.
    + apply existsb_exists in Hok as (r & Hr' & [Hc Hp]%andb_true_iff). exists r.
      by rewrite list_elem_of_In.
  - destruct (asks_network (app_network requested)), (asks_network (app_network granted)); naive_solver.
Qed.

End intersect.

(** ** Denials survive *)

Lemma last_ancestor_abs fuel ns :
  Forall name_ok ns → length ns < fuel → last (ancestors_loop fuel (abs_of ns)) = Some (lit "/").
Proof.
  revert ns; induction fuel as [|fuel IH]; intros ns Hok Hlen; [lia|]. cbn [ancestors_loop].
  rewrite parent_abs by done. destruct ns as [|n ns]; [done|].
  assert (last (ancestors_loop fuel (abs_of (drop_last (n :: ns)))) = Some (lit "/")) as Hl.
  { apply IH; [by apply Forall_take|]. unfold drop_last. rewrite length_take. simpl in *. lia. }
  rewrite last_cons. cbn [is_empty]. by rewrite Hl.
Qed.

Lemma last_ancestor cwd : normal_abs cwd → last (path_ancestors cwd) = Some (lit "/").
Proof.
  intros (ns & Hok & ->). unfold path_ancestors. apply last_ancestor_abs; [done|].
  rewrite components_abs by done. simpl. rewrite length_fmap. lia.
Qed.

(** The working directory has a root, so [absolute_root_path_for_cwd], which
    panics without one, always returns it. *)
Lemma root_of_cwd (h : Host) cwd :
  normal_abs cwd → last (path_ancestors cwd) ≫= absolute h = Some (lit "/").
Proof. intros Hcwd. rewrite last_ancestor by done. apply absolute_normal. by exists []. Qed.

Section denials.
Context {Url : Type} `{!EqDecision Url} `{Hops : !UrlOps Url} `{Hlaws : !UrlLaws Url} (h : Host)
  {Glob : Type} (glob_build : PathConvention → str → result Glob str)
  (glob_match : Glob → bytes → bool).
#[local] Set Default Proof Using "Hlaws".
Abbreviation entry := (FileSystemSandboxEntry Url).
Abbreviation fs_permissions := (FileSystemPermissions Url).
Implicit Types (requested granted : fs_permissions) (cwd p q D : str) (e g : entry).

(** A normal path of the host in valid UTF-8. *)
Definition host_path p : Prop := normal_abs p ∧ Forall scalar p ∧ 0%N ∉ p.

(** The entries of a grant name paths of the host. *)
Definition host_grant cwd g : Prop :=
  (∀ u, entry_path g = PathEntry u → ∃ p, host_path p ∧ u = from_abs_path p)
  ∧ (∀ p, resolve_permission_path h (entry_path g) cwd = Some p → host_path p).

Lemma host_path_names p :
  host_path p → lexical (from_abs_path (Url:=Url) p) →
  ∃ ns, Forall name_ok ns ∧ p = abs_of ns ∧ names (from_abs_path (Url:=Url) p) = encode <$> ns.
Proof.
  intros ((ns & Hok & ->) & _ & H0) Hlex. exists ns. split_and!; try done.
  destruct (from_abs_path_cases (Url:=Url) ns Hok H0) as [Heq|(_ & _ & _ & ? & _)]; [|done].
  destruct (lexical_facts _ Hlex) as (Hop & _). rewrite Heq in Hop. unfold is_opaque in Hop.
  by rewrite (proj2 (opaque_uri (encode (abs_of ns)) ltac:(done))) in Hop.
Qed.

(** Plain paths of the root are lexical. *)
Lemma plain_path_lexical ns :
  Forall name_ok ns → Forall (λ n, 0%N ∉ n) ns → (∀ n, head ns = Some n → ¬ drive_name n) →
  lexical (from_abs_path (Url:=Url) (abs_of ns)) ∧ names (from_abs_path (Url:=Url) (abs_of ns)) = encode <$> ns.
Proof. intros. by destruct (from_abs_path_names (Url:=Url) ns) as (_ & _ & ? & ? & _). Qed.

Lemma local_posix_context cwd :
  host_path cwd → lexical (from_abs_path (Url:=Url) cwd) → posix_context (local_context (Url:=Url) h cwd).
Proof.
  intros ((ns & Hok & ->) & _ & H0) Hlex. unfold posix_context. cbn [ctx_cwd local_context].
  destruct (from_abs_path_cases (Url:=Url) ns Hok H0) as [Heq|(? & ? & ? & _)]; [|done].
  destruct (lexical_facts _ Hlex) as (Hop & _). rewrite Heq in Hop. unfold is_opaque in Hop.
  by rewrite (proj2 (opaque_uri (encode (abs_of ns)) ltac:(done))) in Hop.
Qed.

(** What a materialised grant stands for is the path it was checked at. *)
Lemma grant_root cwd g root :
  host_path cwd → lexical (from_abs_path (Url:=Url) cwd) → host_is_dir h (lit "/tmp") = true →
  host_grant cwd g →
  root ∈ entry_roots (local_context h cwd) (entry_path (materialize_cwd_dependent_entry h cwd g)) →
  ∃ p, resolve_permission_path h (entry_path g) cwd = Some p
    ∧ resolve_permission_path h (entry_path (materialize_cwd_dependent_entry h cwd g)) cwd = Some p
    ∧ host_path p
    ∧ (lexical root → lexical (from_abs_path (Url:=Url) p) ∧ names (from_abs_path (Url:=Url) p) = names root).
Proof.
  intros Hcwd Hlex Hdir [Hpath Hres] Hroot. pose proof Hcwd as (Hn & _).
  pose proof (absolute_normal h cwd Hn) as Habs.
  pose proof (local_posix_context cwd Hcwd Hlex) as Hctx.
  unfold materialize_cwd_dependent_entry in *. destruct (entry_path g) as [u|pat|value] eqn:Ep.
  - rewrite Ep in Hroot. apply list_elem_of_singleton in Hroot as ->.
    destruct (Hpath u eq_refl) as (p & Hp & ->). rewrite Ep. cbn [resolve_permission_path].
    pose proof Hp as (? & ? & ?). rewrite to_from_abs_path by done. exists p. by split_and!.
  - by apply elem_of_nil in Hroot.
  - destruct value as [| |sub| | |]; cbn [resolve_permission_path] in Hroot, Hres |- *;
      rewrite ?Ep in Hroot |- *; cbn [resolve_permission_path entry_roots] in Hroot |- *;
      try (by apply elem_of_nil in Hroot).
    + rewrite last_ancestor in Hres |- * by done. cbn [mbind option_bind] in Hres |- *.
      assert (absolute h (lit "/") = Some (lit "/")) as Hr by (apply absolute_normal; by exists []).
      rewrite Hr in Hres |- *. exists (lit "/"). split_and!; [done|done|by apply Hres|]. intros _.
      destruct (file_system_root_spec (local_context h cwd) Hctx) as (r & Hfr & _ & Hnames).
      rewrite Hfr in Hroot. apply list_elem_of_singleton in Hroot as ->. rewrite Hnames.
      by apply (plain_path_lexical []).
    + rewrite Habs in Hroot, Hres |- *. cbn [mbind option_bind entry_path set_entry_path] in *.
      apply list_elem_of_singleton in Hroot as ->. eexists. split; [done|].
      specialize (Hres _ eq_refl). pose proof Hres as (? & ? & ?).
      cbn [resolve_permission_path]. rewrite to_from_abs_path by done. by split_and!.
    + cbn [ctx_temporary_directories local_context from_option id] in Hroot.
      unfold local_temporary_directories in Hroot.
      destruct (host_tmpdir h) as [[|c t]|]; try (by apply elem_of_nil in Hroot).
      destruct (absolute h (c :: t)) as [p|]; [|by apply elem_of_nil in Hroot].
      apply list_elem_of_singleton in Hroot as ->. exists p. by split_and!; auto.
    + assert (absolute h (lit "/tmp") = Some (lit "/tmp")) as Ht.
      { apply absolute_normal. exists [lit "tmp"]. split; [|done].
        apply Forall_singleton. by apply (bool_decide_unpack _). }
      rewrite Ht in Hres |- *. cbn [mbind option_bind] in Hres |- *. rewrite Hdir in Hres |- *.
      exists (lit "/tmp"). split_and!; [done|done|by apply Hres|]. intros _.
      destruct Hctx as (_ & _ & Hcx). rewrite bool_decide_eq_true_2 in Hroot by apply Hcx.
      destruct (slash_tmp_uri (ctx_cwd (local_context h cwd))) as (t & Htu & _ & Hnt); [apply Hcx|].
      rewrite Htu in Hroot. apply list_elem_of_singleton in Hroot as ->. rewrite Hnt.
      apply (plain_path_lexical [lit "tmp"]); [..|by intros n [= <-] [c Hc]];
        apply Forall_singleton; by apply (bool_decide_unpack _).
Qed.

(** The matcher of a request denies what is below a denied root. *)
Lemma matcher_denies_root self cwd m p D :
  host_path cwd → lexical (from_abs_path (Url:=Url) cwd) →
  new_read_deny_matcher h glob_build self cwd = Done (Some m) → normal_abs p →
  (from_abs_path D, Deny) ∈ resolved_entries self (local_context h cwd) →
  lexical (from_abs_path (Url:=Url) D) → names (from_abs_path (Url:=Url) D) ≠ [] →
  is_read_denied h glob_match m p = false →
  uri_starts_with (from_abs_path p) (from_abs_path (Url:=Url) D) = false.
Proof.
  intros Hcwd Hlex Hnew Hp Hin HlexD HD Hfalse. pose proof Hcwd as (Hn & _).
  apply not_true_iff_false. intros Hs.
  unfold new_read_deny_matcher, build_read_deny_matcher in Hnew.
  destruct (has_denied_read_restrictions self); cbn [negb] in Hnew; [|done].
  pose proof (absolute_normal h cwd Hn) as Habs. unfold absolute in Habs.
  destruct (from_absolute_path _ _ cwd) as [cw|err]; cbn [ok] in Habs; [|done]. injection Habs as ->.
  cbn [rmap_err rbind] in Hnew.
  destruct (prepare_closed glob_build self (local_context h cwd)) as (l & b & Hprep & _).
  rewrite Hprep in Hnew. cbn [rbind] in Hnew. injection Hnew as <-.
  assert (resolve_candidate_path h p cwd = Some p) as Hcand.
  { unfold resolve_candidate_path. rewrite (normal_absolute p Hp). by apply absolute_normal. }
  unfold is_read_denied in Hfalse. cbn [matcher_cwd] in Hfalse. rewrite Hcand in Hfalse.
  match type of Hfalse with context [matches_prepared_read_deny ?gm _ _ _ _ _] =>
    change (matches_prepared_read_deny gm (from_abs_path p) (local_context h cwd)
              (denied_roots self (local_context h cwd)) l b = false) in Hfalse end.
  unfold matches_prepared_read_deny in Hfalse. destruct (infer_path_convention _); [|done].
  destruct (comparable _ _); [|done]. destruct b; [done|]. cbn [negb] in Hfalse.
  apply orb_false_iff in Hfalse as [Hroots _]. apply not_true_iff_false in Hroots.
  apply Hroots, existsb_exists. exists (from_abs_path D). split; [|done].
  unfold denied_roots. apply list_elem_of_In, list_elem_of_fmap. exists (from_abs_path D, Deny).
  split; [done|]. apply list_elem_of_In, filter_In. rewrite <- list_elem_of_In. split; [done|].
  destruct (file_system_root_spec _ (local_posix_context cwd Hcwd Hlex)) as (r & -> & Hlr & Hnr).
  change (is_deny Deny) with true. cbn [is_some_and]. unfold same_location. cbn [andb].
  apply negb_true_iff, andb_false_iff. right. apply not_true_iff_false. intros Hsub.
  apply starts_with_prefix in Hsub; [|done..]. rewrite Hnr in Hsub. by apply prefix_nil_inv in Hsub.
Qed.

(** The denied entries that overlap an accepted grant are in the result. *)
Lemma intersection_retains requested granted cwd fs m deny e p D :
  intersect_file_systems h glob_build glob_match requested granted cwd = Done fs →
  new_read_deny_matcher h glob_build (restricted (fsp_entries requested)) cwd = Done m →
  deny ∈ fsp_entries requested → access deny = Deny → entry_path deny = PathEntry (from_abs_path D) →
  host_path D →
  e ∈ foldl append_missing []
        (materialize_cwd_dependent_entry h cwd
           <$> accepted h glob_match requested m cwd granted) →
  access e ≠ Deny → resolve_permission_path h (entry_path e) cwd = Some p →
  paths_may_overlap (Url:=Url) D p = true →
  ∃ e', e' ∈ fsp_entries fs ∧ (e' = deny ∨ entry_eq e' deny = true).
Proof.
  intros Hi Hm Hdeny Hacc Hpath (HnD & HsD & H0D) He Hne Hres Hover.
  destruct (intersection_entries _ _ _ _ _ _ _ Hi) as (m' & Hm' & Hfs). rewrite Hm in Hm'.
  injection Hm' as <-. cbv zeta in Hfs.
  set (acc := foldl append_missing [] _) in Hfs. fold acc in He.
  assert (deny ∈ retained_deny_entries h cwd (fsp_entries requested) acc) as Hret.
  { unfold retained_deny_entries. apply list_elem_of_fmap. exists deny. split.
    - unfold materialize_cwd_dependent_entry. by rewrite Hpath.
    - apply list_elem_of_In, filter_In. split.
      + apply filter_In. rewrite <- list_elem_of_In. split; [done|]. by apply is_deny_spec.
      + unfold deny_entry_constrains_accepted_grant. apply existsb_exists. exists e.
        rewrite <- list_elem_of_In. split; [done|]. rewrite Hres, Hpath. cbn [resolve_permission_path].
        rewrite to_from_abs_path by done. cbn [ok is_some_and]. rewrite Hover, andb_true_r.
        by destruct (access e). }
  rewrite Hfs.
  destruct (append_missing_spec (retained_deny_entries h cwd (fsp_entries requested) acc) acc) as (_ & _ & Hr).
  destruct (Hr deny Hret) as (e' & He' & Heq). exists e'. split; [|done].
  by apply append_missing_spec.
Qed.

Lemma subpath_names nsD nsq :
  Forall name_ok nsD → Forall name_ok nsq → path_starts_with (abs_of nsq) (abs_of nsD) = true →
  nsD `prefix_of` nsq.
Proof using Type.
  intros HokD Hokq Hsub. unfold path_starts_with in Hsub. apply bool_decide_eq_true in Hsub.
  rewrite !components_abs in Hsub by done. apply prefix_cons_inv_2 in Hsub as [k Hk].
  apply (f_equal (omap (λ c, match c with Normal s => Some s | _ => None end))) in Hk.
  rewrite omap_app in Hk.
  assert (∀ l : list str, omap (λ c, match c with Normal s => Some s | _ => None end) (Normal <$> l) = l) as Hid
    by (clear; induction l as [|x l IH]; [done|]; simpl; by f_equal).
  rewrite !Hid in Hk. rewrite Hk. by apply prefix_app_r.
Qed.

Lemma denying_matcher self cwd m deny :
  new_read_deny_matcher h glob_build self cwd = Done m → fs_kind self = Restricted →
  deny ∈ fs_entries self → access deny = Deny → is_Some m.
Proof using Type.
  unfold new_read_deny_matcher, build_read_deny_matcher. intros Hm Hk Hdeny Hacc.
  assert (has_denied_read_restrictions self = true) as Hden.
  { unfold has_denied_read_restrictions, is_restricted. rewrite Hk. apply existsb_exists. exists deny.
    rewrite <- list_elem_of_In, is_deny_spec. done. }
  rewrite Hden in Hm. cbn [negb] in Hm. destruct (from_absolute_path _ _ cwd) as [cw|]; [|done].
  cbn [rmap_err rbind] in Hm.
  destruct (prepare_closed glob_build self (local_context h cw)) as (l & b & Hprep & _).
  rewrite Hprep in Hm. cbn [rbind] in Hm. simplify_eq. by eexists.
Qed.

Lemma prefixes_overlap (a b : Url) : lexical a → lexical b → names b `prefix_of` names a →
  overlaps a b = Some true.
Proof using Type.
  intros Ha Hb Hpre. unfold overlaps. destruct (uri_eq a b); [done|].
  assert (uri_starts_with a b = true) as -> by (by apply starts_with_prefix).
  destruct Ha as [_ [? ->]], Hb as [_ [? ->]]. done.
Qed.

(** An accepted grant above a path below a denied directory is above the
    directory. *)
Lemma accepted_above_denied requested m cwd g root deny D path :
  host_path cwd → lexical (from_abs_path (Url:=Url) cwd) → host_is_dir h (lit "/tmp") = true →
  host_grant cwd g →
  new_read_deny_matcher h glob_build (restricted (fsp_entries requested)) cwd = Done m →
  granted_file_system_entry_within_request h glob_match requested
    (restricted (fsp_entries requested)) m cwd g = true →
  deny ∈ fsp_entries requested → access deny = Deny → entry_path deny = PathEntry (from_abs_path D) →
  lexical (from_abs_path (Url:=Url) D) → names (from_abs_path (Url:=Url) D) ≠ [] →
  root ∈ entry_roots (local_context h cwd) (entry_path (materialize_cwd_dependent_entry h cwd g)) →
  lexical root → names root `prefix_of` names path →
  names (from_abs_path (Url:=Url) D) `prefix_of` names path →
  length (names root) < length (names (from_abs_path (Url:=Url) D))
  ∧ ∃ p, resolve_permission_path h (entry_path (materialize_cwd_dependent_entry h cwd g)) cwd = Some p
      ∧ paths_may_overlap (Url:=Url) D p = true.
Proof.
  intros Hcwd Hlex Hdir Hg Hm Hok Hdeny Hacc Hpath HlexD HneD Hroot Hlr Hrp HDp.
  destruct (grant_root cwd g root Hcwd Hlex Hdir Hg Hroot) as (p & Hres & Hres' & Hp & Hnm).
  destruct (Hnm Hlr) as [Hlexp Hnp].
  destruct (denying_matcher _ _ _ deny Hm eq_refl Hdeny Hacc) as [m' ->].
  assert (uri_starts_with (from_abs_path p) (from_abs_path (Url:=Url) D) = false) as Hout.
  { eapply (matcher_denies_root _ cwd m' p D); [done|done|exact Hm|apply Hp| |done|done|].
    - apply elem_of_resolved. exists deny. rewrite Hpath, (proj1 HlexD).
      split_and!; [done|done|by apply list_elem_of_singleton|]. symmetry. apply Hlex.
    - unfold granted_file_system_entry_within_request in Hok. rewrite Hres in Hok.
      destruct (can_read _); [|done]. cbn [negb is_some_and] in Hok. by destruct (is_read_denied _ _ _ _). }
  assert (length (names root) < length (names (from_abs_path (Url:=Url) D))) as Hlt.
  { destruct (decide (length (names (from_abs_path (Url:=Url) D)) ≤ length (names root))) as [Hle|]; [|lia].
    pose proof (prefix_chain _ _ _ HDp Hrp Hle) as Hbad. rewrite <- Hnp in Hbad.
    apply starts_with_prefix in Hbad; [|done..]. congruence. }
  split; [done|]. exists p. split; [done|]. unfold paths_may_overlap.
  rewrite prefixes_overlap; [done..|]. rewrite Hnp. eapply prefix_chain; [exact Hrp|done|lia].
Qed.

(** What the request denies stays denied: below a denied directory of the
    request (the root apart) the intersection gives no access, whatever was
    granted. *)
Theorem intersection_keeps_denials requested granted cwd fs deny D q :
  intersect_file_systems h glob_build glob_match requested granted cwd = Done fs →
  host_path cwd → host_is_dir h (lit "/tmp") = true →
  Forall (host_grant cwd) (fsp_entries granted) →
  deny ∈ fsp_entries requested → access deny = Deny → entry_path deny = PathEntry (from_abs_path D) →
  host_path D → is_Some (lexical_depth (from_abs_path (Url:=Url) D)) → D ≠ lit "/" →
  host_path q → path_starts_with q D = true →
  resolve_access_with_cwd h (restricted (fsp_entries fs)) q cwd = Deny.
Proof.
  intros Hi Hcwd Hdir Hgrants Hdeny Hacc Hpath HD HdepthD HDroot Hq Hsub.
  pose proof Hcwd as (Hn & _). pose proof Hq as (Hnq & _). pose proof HD as (HnD & _).
  unfold resolve_access_with_cwd, with_local_policy_context, resolve_candidate_path.
  rewrite (absolute_normal h cwd Hn). cbn [mbind option_bind].
  rewrite (normal_absolute q Hnq), (absolute_normal h q Hnq).
  cbn [mbind option_bind from_option id]. set (ctx := local_context h cwd).
  assert (infer_path_convention (ctx_cwd ctx) = Some Posix) as Hposix by (by apply from_abs_path_posix).
  pose proof (resolve_access_meets_spec (restricted (fsp_entries fs)) (from_abs_path q) ctx eq_refl) as Hspec.
  unfold access_spec in Hspec. case_bool_decide as Hcomp; [|done].
  apply comparable_lexical in Hcomp as [Hlexq Hlex]; [|done].
  destruct Hspec as [[_ (root & d & Hcov & Hmax)]|[? _]]; [|done].
  destruct (decide (resolve_access (restricted (fsp_entries fs)) (from_abs_path q) ctx = Deny)) as [|Hne]; [done|].
  assert (lexical (from_abs_path (Url:=Url) D)) as HlexD by (split; [by apply from_abs_path_posix|done]).
  destruct (host_path_names D HD HlexD) as (nsD & HokD & -> & HnamesD).
  destruct (host_path_names q Hq Hlexq) as (nsq & Hokq & -> & Hnamesq).
  assert (names (from_abs_path (Url:=Url) (abs_of nsD)) `prefix_of` names (from_abs_path (Url:=Url) (abs_of nsq))) as HDq.
  { rewrite HnamesD, Hnamesq. destruct (subpath_names nsD nsq HokD Hokq Hsub) as [k ->].
    rewrite fmap_app. by apply prefix_app_r. }
  destruct (intersection_entries _ _ _ _ _ _ _ Hi) as (m & Hm & _).
  destruct (covers_lexical _ ctx _ root _ d Hposix Hcov) as [Hlr ->].
  pose proof Hcov as (Hin & _ & Hstart). apply starts_with_prefix in Hstart; [|done..].
  apply elem_of_resolved in Hin as (e & He & Ha & Hroot & _).
  rewrite <- Ha in Hne. cbn [fs_entries restricted] in He.
  pose proof (intersection_grant _ _ _ _ _ _ _ _ _ Hm Hi He Hne) as Hacce.
  destruct (elem_of_accepted _ _ _ _ _ _ _ Hacce) as (g & Hg & -> & Hok). rewrite Forall_forall in Hgrants.
  destruct (accepted_above_denied requested m cwd g root deny (abs_of nsD) (from_abs_path (abs_of nsq)))
    as (Hlt & p & Hres & Hover); try done; [by apply Hgrants|rewrite HnamesD; by destruct nsD|].
  destruct (intersection_retains requested granted cwd fs m deny
              (materialize_cwd_dependent_entry h cwd g) p (abs_of nsD)) as (e' & He' & Heq); try done.
  assert (∀ x, x = deny ∨ entry_eq x deny = true →
    from_abs_path (abs_of nsD) ∈ entry_roots ctx (entry_path x) ∧ access x = Deny) as Hsame.
  { intros x [->|Hx]; [by rewrite Hpath; split; [apply list_elem_of_singleton|]|]. rewrite <- Hacc.
    apply (entry_eq_roots ctx deny x (from_abs_path (abs_of nsD)) Hx); [apply HlexD|].
    rewrite Hpath. by apply list_elem_of_singleton. }
  destruct (Hsame e' Heq) as [Hr' Ha'].
  destruct (Hmax _ _ _ (covers_names (restricted (fsp_entries fs)) ctx (from_abs_path (abs_of nsq))
    (from_abs_path (abs_of nsD)) Deny (local_posix_context cwd Hcwd Hlex) Hlexq
    ltac:(apply elem_of_resolved; exists e'; rewrite Hposix; split_and!; [done|done|done|apply HlexD])
    HlexD HDq)) as [?|[? _]]; lia.
Qed.

End denials.
