(* ===== verification/ProfileIntersection.v ===== *)
(** * Intersecting profiles

    [codex-rs/protocol/src/permission_profile_intersection.rs] on a Unix
    target: the permissions two effective profiles have in common.  The
    [Debug] forms that appear in error texts and order the denied entries are
    parameters. *)

From S2P Require Import Prelude RustStr UnixPath Permissions ExecFs.
From S2P Require Import AbsolutePath PathUri SandboxPolicy LegacySandbox PermissionProfiles.

#[local] Arguments lit : simpl never.

Inductive PermissionIntersectionError :=
| ExternalSandboxError
| PlatformDefaults
| UnsupportedPath (text : str).

Definition intersect_access (l r : FileSystemAccessMode) : FileSystemAccessMode :=
  match l, r with
  | Deny, _ | _, Deny => Deny
  | Write, Write => Write
  | Read, _ | Write, _ => Read
  end.

(** [Vec::dedup]: the first of each run of equal elements. *)
Fixpoint dedup_by {A} (eq : A → A → bool) (l : list A) : list A :=
  match l with
  | [] => []
  | x :: l =>
      match dedup_by eq l with
      | y :: l' => if eq x y then x :: l' else x :: y :: l'
      | [] => [x]
      end
  end.

Section intersection.
Context {Url : Type} `{!EqDecision Url} `{!UrlOps Url} (h : Host).
Context {Glob : Type} (glob_build : PathConvention → str → result Glob str)
  (glob_match : Glob → bytes → bool).
Context (debug_path : FileSystemPath Url → str) (debug_special : FileSystemSpecialPath → str).
Abbreviation policy := (FileSystemSandboxPolicy Url).
Abbreviation profile := (PermissionProfile Url).
Abbreviation entry := (FileSystemSandboxEntry Url).
Abbreviation error := PermissionIntersectionError.
Implicit Types (cwd : str) (p authority requested : policy).

Definition unsupported {A} (text : str) : result A error := Err (UnsupportedPath text).

Definition native_path (path : Url) : result str error :=
  rmap_err (λ e, UnsupportedPath (err_text e)) (to_abs_path (host_home h) path).

Definition checked_path (path : str) : result str error :=
  rmap_err (λ e, UnsupportedPath (err_text e)) (from_absolute_path_checked (host_home h) path).

(** The first loop: the shapes that are refused. *)
Definition validate_entry (e : entry) : result unit error :=
  match entry_path e with
  | PathEntry path => let? _ := native_path path in Ok ()
  | Special (ProjectRoots _) => unsupported (lit "workspace permissions must already be materialized")
  | GlobPattern pattern =>
      if starts_with pattern (project_roots_glob_pattern []) then unsupported pattern else Ok ()
  | Special _ => Ok ()
  end.

Definition physical_path (path : str) : result str error :=
  match find_map_opt (λ ancestor,
          physical ← ok (host_canonicalize h ancestor);
          suffix ← path_strip_prefix path ancestor;
          Some (host_join h physical suffix)) (path_ancestors path) with
  | Some path => Ok path
  | None => unsupported path
  end.

(** The path with its symbolic links kept. *)
Definition logical_path (path : str) : option str :=
  find_map_opt (λ ancestor,
    _ ← ok (host_symlink h ancestor);
    preserved ← ok (canonicalize_preserving_symlinks (host_home h) (host_cwd h)
                      (host_canonicalize h) (host_symlink h) ancestor);
    suffix ← path_strip_prefix path ancestor;
    preserved ← ok (from_absolute_path_checked (host_home h) preserved);
    Some (host_join h preserved suffix)) (path_ancestors path).

Definition normalize_policy_entry (e : entry) : result entry error :=
  match entry_path e with
  | PathEntry path =>
      let? path := native_path path in
      let? physical :=
        if can_write (access e)
           || (bool_decide (access e = Read) && negb (skips_missing_path e))
        then rmap_err (λ error, UnsupportedPath (path ++ lit ": " ++ err_text error))
               (host_canonicalize h path)
        else physical_path path in
      if negb (can_write (access e))
         && negb (is_some_and (logical_path path) (λ logical, path_eq logical physical))
      then unsupported (lit "symlinked restriction: " ++ path)
      else Ok (set_entry_path e (PathEntry (from_abs_path physical)))
  | GlobPattern pattern =>
      if negb (is_deny (access e)) || skips_missing_path e
      then unsupported (lit "glob permissions: " ++ pattern) else Ok e
  | Special (Root | Tmpdir) => Ok e
  | Special SlashTmp =>
      let? tmp := checked_path (lit "/tmp") in
      let? path := physical_path tmp in
      Ok (set_entry_path e (PathEntry (from_abs_path path)))
  | Special Minimal => Err PlatformDefaults
  | Special ((ProjectRoots _ | Unknown _ _) as value) => unsupported (debug_special value)
  end.

Definition normalize_policy p : result policy error :=
  if include_platform_defaults p then Err PlatformDefaults
  else let? entries := rmapM normalize_policy_entry (fs_entries p) in Ok (with_entries p entries).

(** ** Temporary directories *)

Definition is_tmpdir (e : entry) : bool := fs_path_eq (entry_path e) (Special Tmpdir).

Definition plain_write (e : entry) : bool := can_write (access e) && negb (skips_missing_path e).

Definition tmpdir_restrictions : error :=
  UnsupportedPath (lit ":tmpdir restrictions require executor-local bindings").

Definition common_tmpdir authority requested : result (option entry) error :=
  match List.filter is_tmpdir (fs_entries authority), List.filter is_tmpdir (fs_entries requested) with
  | [a], [b] =>
      if plain_write a && plain_write b
      then Ok (Some (new_entry (Special Tmpdir) (access a))) else Err tmpdir_restrictions
  | [], [] => Ok None
  | [e], [] | [], [e] => if plain_write e then Ok None else Err tmpdir_restrictions
  | _, _ => Err tmpdir_restrictions
  end.

Definition without_tmpdir p : policy :=
  with_entries p (List.filter (λ e, negb (is_tmpdir e)) (fs_entries p)).

(** The normalised policies and the temporary directory they share. *)
Definition prepare authority requested : result (policy * policy * option entry) error :=
  let? authority := normalize_policy authority in
  let? requested := normalize_policy requested in
  let? common_temp := common_tmpdir authority requested in
  Ok (without_tmpdir authority, without_tmpdir requested, common_temp).

(** ** Candidate paths *)

(** The function [entry_path]. *)
Definition concrete_path cwd (e : entry) : result (option str) error :=
  match entry_path e with
  | PathEntry path => rmap Some (native_path path)
  | Special Root =>
      match last (path_ancestors cwd) ≫= (λ root, ok (from_absolute_path_checked (host_home h) root)) with
      | Some root => Ok (Some root)
      | None => unsupported cwd
      end
  | Special (Tmpdir | SlashTmp) => Ok None
  | Special value => unsupported (debug_special value)
  | GlobPattern _ => Ok None
  end.

(** The path of an optional entry is metadata of a writable root. *)
Definition is_optional_metadata (writable_roots : list WritableRoot) (path : str) : bool :=
  existsb (λ root,
    existsb (λ subpath, path_eq subpath path) (wr_read_only_subpaths root)
    || existsb (λ subpath, path_eq subpath path)
         (default_read_only_subpaths_for_writable_root h (wr_root root) false)
    || (is_some_and (path_parent_of path) (λ parent, path_eq parent (wr_root root))
        && existsb (λ name, bool_decide (path_file_name path = Some name))
             PROTECTED_METADATA_PATH_NAMES)) writable_roots.

Record candidates := {
  cand_paths : list str;
  cand_denies : list entry;
  cand_glob_depth : option (option N);
}.

Definition note_glob_depth p (depth : option (option N)) : option (option N) :=
  Some match depth with
       | None => fs_glob_scan_max_depth p
       | Some (Some previous) => N.max previous <$> fs_glob_scan_max_depth p
       | Some None => None
       end.

Definition candidate_entry p cwd (writable_roots : list WritableRoot) (c : candidates) (e : entry)
    : result candidates error :=
  let c :=
    {| cand_paths := cand_paths c;
       cand_denies :=
         if is_deny (access e) then append_missing (cand_denies c) e else cand_denies c;
       cand_glob_depth :=
         match entry_path e with
         | GlobPattern _ => note_glob_depth p (cand_glob_depth c)
         | _ => cand_glob_depth c
         end |} in
  let? path := concrete_path cwd e in
  match path with
  | None => Ok c
  | Some path =>
      if skips_missing_path e
         && (negb (bool_decide (access e = Read)) || negb (is_optional_metadata writable_roots path))
      then unsupported (lit "non-metadata optional permissions")
      else Ok {| cand_paths := cand_paths c ++ [path]; cand_denies := cand_denies c;
                 cand_glob_depth := cand_glob_depth c |}
  end.

Fixpoint candidate_entries p cwd (writable_roots : list WritableRoot) (c : candidates)
    (entries : list entry) : result candidates error :=
  match entries with
  | [] => Ok c
  | e :: entries =>
      let? c := candidate_entry p cwd writable_roots c e in
      candidate_entries p cwd writable_roots c entries
  end.

Definition candidate_policy cwd (c : candidates) p : result candidates error :=
  let writable_roots := get_writable_roots_with_cwd h p cwd in
  let? c := candidate_entries p cwd writable_roots c (fs_entries p) in
  Ok {| cand_paths :=
          cand_paths c ++ get_readable_roots_with_cwd h p cwd
          ++ mjoin ((λ root,
               wr_root root :: ((host_join h (wr_root root)) <$> PROTECTED_METADATA_PATH_NAMES)
               ++ wr_read_only_subpaths root) <$> writable_roots);
        cand_denies := cand_denies c; cand_glob_depth := cand_glob_depth c |}.

(** Shallow paths first. *)
Definition candidate_le (a b : str) : bool :=
  (length (components a) <? length (components b))
  || ((length (components a) =? length (components b)) && path_le a b).

(** ** The intersection *)

Definition effective_access p (denies : option ReadDenyMatcher) (path cwd : str)
    : FileSystemAccessMode :=
  if is_some_and denies (λ m, is_read_denied h glob_match m path) then Deny
  else if can_write_path_with_cwd h p path cwd then Write
  else if can_read_path_with_cwd h p path cwd then Read
  else Deny.

(** An entry whose concrete path is [path] and that satisfies [f]. *)
Definition names_path cwd (path : str) (f : entry → bool) p : bool :=
  existsb (λ e, f e && is_some_and (ok (concrete_path cwd e) ≫= id) (λ q, path_eq q path))
    (fs_entries p).

Definition lists_root p : bool :=
  existsb (λ e, fs_path_eq (entry_path e) (Special Root)) (fs_entries p).

Section sources.
Context (authority requested : policy)
  (authority_denies requested_denies intersection_denies : option (@ReadDenyMatcher Url Glob))
  (cwd : str).

(** A restriction that does not depend on what is on disk. *)
Definition restricts (e : entry) : bool := negb (skips_missing_path e) && negb (can_write (access e)).

(** The mode both sources allow at a path. *)
Definition common_access (path : str) : FileSystemAccessMode :=
  intersect_access (effective_access authority authority_denies path cwd)
    (effective_access requested requested_denies path cwd).

Definition path_target (path : str) : FileSystemPath Url :=
  if is_none (path_parent_of path) && path_starts_with cwd path
     && lists_root authority && lists_root requested
  then Special Root else PathEntry (from_abs_path path).

(** The body of the last loop. *)
Definition intersect_path (intersection : policy) (path : str) : policy :=
  let mode := common_access path in
  let current := effective_access intersection intersection_denies path cwd in
  let optional_metadata :=
    names_path cwd path skips_missing_path authority
    || names_path cwd path skips_missing_path requested in
  let required_restriction :=
    names_path cwd path restricts authority || names_path cwd path restricts requested in
  if bool_decide (mode = current) && negb optional_metadata && negb required_restriction
  then intersection
  else
    let e :=
      if optional_metadata && negb required_restriction && bool_decide (mode = Read)
      then skip_missing_path (path_target path) mode else new_entry (path_target path) mode in
    with_entries intersection (append_missing (fs_entries intersection) e).
End sources.

Definition of_result {A E} (r : result A E) : outcome A E :=
  match r with Ok a => Done a | Err e => Fail e end.

Definition never_fails {A E} (r : outcome A Empty_set) : outcome A E :=
  match r with Done a => Done a | Fail e => match e with end | Panic => Panic end.

Definition try_matcher p cwd : result (option ReadDenyMatcher) error :=
  rmap_err UnsupportedPath (try_new_read_deny_matcher h glob_build p cwd).

(** The denied entries of both sources. *)
Definition shared_denies (c : candidates) : policy :=
  with_depth
    (restricted (sort_by (λ a b, str_le (debug_path (entry_path a)) (debug_path (entry_path b)))
                   (cand_denies c)))
    (cand_glob_depth c ≫= id).

Definition intersect_prepared authority requested (common_temp : option entry) cwd
    (network : NetworkSandboxPolicy) : outcome profile error :=
  let! authority_denies := of_result (try_matcher authority cwd) in
  let! requested_denies := of_result (try_matcher requested cwd) in
  let! c := of_result (candidate_policy cwd
              {| cand_paths := []; cand_denies := []; cand_glob_depth := None |} authority) in
  let! c := of_result (candidate_policy cwd c requested) in
  let paths := dedup_by path_eq (sort_by candidate_le (cand_paths c)) in
  let intersection := shared_denies c in
  let! intersection_denies :=
    match new_read_deny_matcher h glob_build intersection cwd with
    | Done m => Done m
    | _ => Panic
    end in
  let intersection :=
    foldl (intersect_path authority requested authority_denies requested_denies
             intersection_denies cwd) intersection paths in
  let intersection :=
    match common_temp with
    | Some temp => with_entries intersection (fs_entries intersection ++ [temp])
    | None => intersection
    end in
  never_fails (from_runtime_permissions intersection network).

(** Derived equality of policies. *)
Definition policy_eq p q : bool :=
  bool_decide (fs_kind p = fs_kind q)
  && bool_decide (fs_glob_scan_max_depth p = fs_glob_scan_max_depth q)
  && all2 entry_eq (fs_entries p) (fs_entries q).

Definition is_external (p : profile) : bool := match p with External _ => true | _ => false end.
Definition is_disabled (p : profile) : bool := match p with Disabled => true | _ => false end.

Definition intersect_effective_permission_profiles (authority requested : profile) cwd
    : outcome profile error :=
  if is_external authority || is_external requested then Fail ExternalSandboxError
  else
    let! _ := of_result (checked_path cwd) in
    let! _ := of_result (rmapM validate_entry
                (fs_entries (file_system_sandbox_policy authority)
                 ++ fs_entries (file_system_sandbox_policy requested))) in
    let authority_policy := file_system_sandbox_policy authority in
    let requested_policy := file_system_sandbox_policy requested in
    let network :=
      if network_is_enabled (network_sandbox_policy authority)
         && network_is_enabled (network_sandbox_policy requested)
      then NetworkEnabled else NetworkRestricted in
    if is_disabled authority && is_disabled requested then Done Disabled
    else if policy_eq authority_policy requested_policy
    then never_fails (from_runtime_permissions authority_policy network)
    else if bool_decide (fs_kind authority_policy = Unrestricted)
    then never_fails (from_runtime_permissions requested_policy network)
    else if bool_decide (fs_kind requested_policy = Unrestricted)
    then never_fails (from_runtime_permissions authority_policy network)
    else
      let! '(authority_policy, requested_policy, common_temp) :=
        of_result (prepare authority_policy requested_policy) in
      intersect_prepared authority_policy requested_policy common_temp cwd network.

End intersection.
