(* ===== verification/ProfileIntersectionFacts.v ===== *)
(** * What the intersection of two profiles allows

    [intersect_effective_permission_profiles] never panics, turns on nothing
    that one of the profiles turns off, and keeps every denied entry. *)

From S2P Require Import Prelude RustStr UnixPath Permissions ExecFs.
From S2P Require Import AbsolutePath PathUri SandboxPolicy SandboxAccess SandboxLocal.
From S2P Require Import LegacySandbox PermissionProfiles PolicyTransforms ProfileIntersection.

#[local] Arguments lit : simpl never.
#[local] Set Default Proof Using "Type".

Lemma elem_of_insert_sorted {A} (le : A → A → bool) x y l :
  x ∈ insert_sorted le y l ↔ x = y ∨ x ∈ l.
Proof.
  induction l as [|z l IH]; simpl; [by rewrite list_elem_of_singleton, elem_of_nil; naive_solver|].
  destruct (le y z); rewrite !elem_of_cons, ?IH; naive_solver.
Qed.

Lemma elem_of_sort_by {A} (le : A → A → bool) x l : x ∈ sort_by le l ↔ x ∈ l.
Proof.
  induction l as [|y l IH]; [done|]. cbn [sort_by foldr].
  fold (sort_by le l). by rewrite elem_of_insert_sorted, IH, elem_of_cons.
Qed.

(** The mode of an intersection is the greatest one both sides allow. *)
Lemma intersect_access_covers l r m :
  m ≠ Deny → access_covers (intersect_access l r) m = true ↔
  access_covers l m = true ∧ access_covers r m = true.
Proof. destruct l, r, m; simpl; naive_solver. Qed.

Lemma access_covers_refl m : m ≠ Deny → access_covers m m = true.
Proof. by destruct m. Qed.

Section facts.
Context {Url : Type} `{!EqDecision Url} `{!UrlOps Url} (h : Host).
Context {Glob : Type} (glob_build : PathConvention → str → result Glob str)
  (glob_match : Glob → bytes → bool).
Context (debug_path : FileSystemPath Url → str) (debug_special : FileSystemSpecialPath → str).
Abbreviation policy := (FileSystemSandboxPolicy Url).
Abbreviation profile := (PermissionProfile Url).
Abbreviation entry := (FileSystemSandboxEntry Url).
Implicit Types (cwd : str) (p authority requested : policy).

(** ** Panics *)

Lemma checked_absolute cwd q :
  checked_path h cwd = Ok q → is_ok (from_absolute_path (host_home h) (host_cwd h) cwd) = true.
Proof.
  unfold checked_path, from_absolute_path_checked, from_absolute_path, absolutize.
  by destruct (is_absolute _).
Qed.

Lemma matcher_total self cwd :
  is_ok (from_absolute_path (host_home h) (host_cwd h) cwd) = true →
  ∃ m, new_read_deny_matcher h glob_build self cwd = Done m.
Proof.
  clear glob_match debug_path debug_special.
  unfold new_read_deny_matcher, build_read_deny_matcher.
  destruct (has_denied_read_restrictions self); cbn [negb]; [|by eexists].
  destruct (from_absolute_path _ _ cwd) as [c|err]; cbn [rmap_err rbind]; [|done]. intros _.
  destruct (prepare_closed glob_build self (local_context h c)) as (l & b & -> & _). by eexists.
Qed.

Lemma from_runtime_never_panics p network :
  ∃ q, never_fails (E:=PermissionIntersectionError) (from_runtime_permissions p network) = Done q
    ∧ file_system_sandbox_policy q = with_valid_depth p ∧ network_sandbox_policy q = network.
Proof.
  unfold from_runtime_permissions.
  match goal with |- context[from_runtime_permissions_with_enforcement ?e _ _] =>
    destruct (from_runtime_done e p network) as (q & -> & Hfs & Hnet) end.
  exists q. split_and!; [done|done|]. destruct Hnet as [?|(_ & Hu & He)]; [done|]. by rewrite Hu in He.
Qed.

(** ** The entries of the result *)

Section sources.
Context (authority requested : policy)
  (da dr di : option (@ReadDenyMatcher Url Glob)) (cwd : str).
Abbreviation step := (intersect_path h glob_match debug_special authority requested da dr di cwd).
Abbreviation common := (common_access h glob_match authority requested da dr cwd).

Lemma intersect_path_entries p path :
  fs_kind (step p path) = fs_kind p
  ∧ (∀ e, e ∈ fs_entries p → e ∈ fs_entries (step p path))
  ∧ (∀ e, e ∈ fs_entries (step p path) → e ∈ fs_entries p
       ∨ (entry_path e = path_target authority requested cwd path ∧ access e = common path)).
Proof.
  unfold intersect_path.
  match goal with |- context [if ?c then p else _] => destruct c; [by auto|] end.
  cbn [with_entries fs_kind fs_entries].
  match goal with |- context [append_missing (fs_entries p) ?x] =>
    destruct (append_missing_spec [x] (fs_entries p)) as (Hk & Hi & _); cbn [foldl] in Hk, Hi end.
  split_and!; [done|done|]. intros e He. destruct (Hi e He) as [|Hx%list_elem_of_singleton]; [by left|right].
  subst e. by case_match.
Qed.

Lemma intersect_paths_entries paths p :
  let r := foldl step p paths in
  fs_kind r = fs_kind p
  ∧ (∀ e, e ∈ fs_entries p → e ∈ fs_entries r)
  ∧ (∀ e, e ∈ fs_entries r → e ∈ fs_entries p
       ∨ ∃ path, entry_path e = path_target authority requested cwd path ∧ access e = common path).
Proof.
  revert p; induction paths as [|path paths IH]; intros p; [simpl; auto|].
  cbn [foldl]. destruct (IH (step p path)) as (Hk & Hl & Hr).
  destruct (intersect_path_entries p path) as (Hk' & Hl' & Hr'). split_and!; [congruence|auto|].
  intros e He. destruct (Hr e He) as [He'|?]; [|by right]. destruct (Hr' e He'); [by left|right; eauto].
Qed.
End sources.

(** ** Denied entries are collected *)

Definition collected (c : candidates (Url:=Url)) (e : entry) : Prop :=
  ∃ e', e' ∈ cand_denies c ∧ (e' = e ∨ entry_eq e' e = true).

Lemma candidate_entries_denies p cwd roots l c c' :
  candidate_entries h debug_special p cwd roots c l = Ok c' →
  (∀ e, e ∈ cand_denies c → e ∈ cand_denies c')
  ∧ (∀ e, e ∈ cand_denies c' → e ∈ cand_denies c ∨ access e = Deny)
  ∧ (∀ e, e ∈ l → access e = Deny → collected c' e).
Proof.
  clear glob_match. revert c; induction l as [|x l IH]; intros c; cbn [candidate_entries].
  { intros [= <-]. split_and!; [done|by left|]. intros e []%elem_of_nil. }
  destruct (candidate_entry h debug_special p cwd roots c x) as [c1|] eqn:Hx; [|done]. cbn [rbind].
  intros (Hk & Hd & Hall)%IH.
  assert (cand_denies c1 = if is_deny (access x) then append_missing (cand_denies c) x else cand_denies c) as Hc1.
  { unfold candidate_entry in Hx. destruct (concrete_path _ _ _ _) as [[path|]|]; cbn [rbind] in Hx;
      [|by simplify_eq|done]. case_match; [done|]. by simplify_eq. }
  destruct (append_missing_spec [x] (cand_denies c)) as (Hk1 & Hi1 & Hx1). cbn [foldl] in Hk1, Hi1, Hx1.
  split_and!.
  - intros e He. apply Hk. rewrite Hc1. destruct (is_deny _); auto.
  - intros e He. destruct (Hd e He) as [He'|]; [|by right]. rewrite Hc1 in He'.
    destruct (is_deny (access x)) eqn:Hdx; [|by left].
    destruct (Hi1 e He') as [|Hex]; [by left|right]. apply list_elem_of_singleton in Hex as ->.
    by apply is_deny_spec.
  - intros e [->|He]%elem_of_cons Ha; [|by apply Hall].
    rewrite (proj2 (is_deny_spec (access x)) Ha) in Hc1.
    destruct (Hx1 x ltac:(by apply list_elem_of_singleton)) as (e' & He' & Heq).
    exists e'. split; [|done]. apply Hk. by rewrite Hc1.
Qed.

Lemma candidate_policy_denies p cwd c c' :
  candidate_policy h debug_special cwd c p = Ok c' →
  (∀ e, e ∈ cand_denies c → e ∈ cand_denies c')
  ∧ (∀ e, e ∈ cand_denies c' → e ∈ cand_denies c ∨ access e = Deny)
  ∧ (∀ e, e ∈ fs_entries p → access e = Deny → collected c' e).
Proof.
  unfold candidate_policy. destruct (candidate_entries _ _ _ _ _ _ _) as [c1|] eqn:Hc; [|done].
  cbn [rbind]. intros [= <-]. by apply (candidate_entries_denies _ _ _ _ _ _ Hc).
Qed.

(** ** The whole intersection *)

Abbreviation intersect_prepared' :=
  (intersect_prepared h glob_build glob_match debug_path debug_special).
Abbreviation intersect_profiles :=
  (intersect_effective_permission_profiles h glob_build glob_match debug_path debug_special).

(** What is known of the result of [intersect_prepared]. *)
Definition sound_intersection a r (temp : option entry) cwd (q : profile) : Prop :=
  ∃ da dr, try_matcher h glob_build a cwd = Ok da ∧ try_matcher h glob_build r cwd = Ok dr
    ∧ (∀ e, e ∈ fs_entries (file_system_sandbox_policy q) → access e ≠ Deny →
         temp = Some e
         ∨ ∃ path, entry_path e = path_target a r cwd path
             ∧ access_covers (effective_access h glob_match a da path cwd) (access e) = true
             ∧ access_covers (effective_access h glob_match r dr path cwd) (access e) = true)
    ∧ (∀ e, e ∈ fs_entries a ++ fs_entries r → access e = Deny →
         ∃ e', e' ∈ fs_entries (file_system_sandbox_policy q) ∧ (e' = e ∨ entry_eq e' e = true)).

Lemma intersect_prepared_total a r temp cwd network :
  is_ok (from_absolute_path (host_home h) (host_cwd h) cwd) = true →
  intersect_prepared' a r temp cwd network ≠ Panic.
Proof.
  intros Hcwd. unfold intersect_prepared.
  destruct (try_matcher _ _ a _); [|done]. cbn [of_result obind].
  destruct (try_matcher _ _ r _); [|done]. cbn [of_result obind].
  destruct (candidate_policy _ _ _ _ a); [|done]. cbn [of_result obind].
  destruct (candidate_policy _ _ _ _ r) as [c|]; [|done]. cbn [of_result obind].
  destruct (matcher_total (shared_denies debug_path c) cwd Hcwd) as [m ->]. cbn [obind].
  match goal with |- never_fails (from_runtime_permissions ?p ?n) ≠ _ =>
    by destruct (from_runtime_never_panics p n) as (? & -> & _) end.
Qed.

Lemma intersect_prepared_sound a r temp cwd network q :
  intersect_prepared' a r temp cwd network = Done q →
  network_sandbox_policy q = network ∧ sound_intersection a r temp cwd q.
Proof.
  unfold intersect_prepared.
  destruct (try_matcher _ _ a _) as [da|] eqn:Hda; [|done]. cbn [of_result obind].
  destruct (try_matcher _ _ r _) as [dr|] eqn:Hdr; [|done]. cbn [of_result obind].
  destruct (candidate_policy _ _ _ _ a) as [ca|] eqn:Hca; [|done]. cbn [of_result obind].
  destruct (candidate_policy _ _ _ _ r) as [c|] eqn:Hc; [|done]. cbn [of_result obind].
  destruct (new_read_deny_matcher _ _ _ _) as [di| |]; [|done..]. cbn [obind].
  apply candidate_policy_denies in Hca as (_ & Hda1 & Hall1).
  apply candidate_policy_denies in Hc as (Hk2 & Hda2 & Hall2).
  match goal with |- context [foldl ?f ?i ?l] =>
    pose proof (intersect_paths_entries a r da dr di cwd l i) as (Hkind & Hkeep & Hnew) end.
  set (merged := foldl _ _ _) in *.
  set (final := match temp with Some _ => _ | None => merged end).
  destruct (from_runtime_never_panics final network) as (q' & -> & Hfs & Hnet).
  intros [= <-]. split; [done|]. exists da, dr. split_and!; [done|done|..]; rewrite Hfs.
  all: assert (fs_entries (with_valid_depth final)
         = fs_entries merged ++ option_list temp) as Hent by
    (unfold with_valid_depth; replace (fs_kind final) with Restricted
       by (unfold final; destruct temp; rewrite ?with_entries_kind, Hkind; done);
     unfold final; destruct temp; [done|]; cbn; by rewrite app_nil_r).
  all: rewrite Hent; setoid_rewrite elem_of_app.
  - intros e [He|He] Hne; [right|left; destruct temp; simpl in He;
      [by apply list_elem_of_singleton in He as ->|by apply elem_of_nil in He]].
    destruct (Hnew e He) as [Hden|(path & Hpath & Hacc)].
    + cbn [shared_denies with_depth restricted fs_entries] in Hden. apply elem_of_sort_by in Hden.
      destruct (Hda2 e Hden) as [Hd|]; [|done]. destruct (Hda1 e Hd) as [Hd'|]; [|done].
      by apply elem_of_nil in Hd'.
    + exists path. split; [done|]. apply intersect_access_covers; [done|].
      fold (common_access h glob_match a r da dr cwd path). rewrite <- Hacc. by apply access_covers_refl.
  - intros e He Hden.
    assert (collected c e) as (e' & He' & Heq).
    { destruct He as [He|He]; [|by apply Hall2]. destruct (Hall1 e He Hden) as (e' & ? & ?). exists e'. auto. }
    exists e'. split; [left|done]. apply Hkeep.
    cbn [shared_denies with_depth restricted fs_entries]. by apply elem_of_sort_by.
Qed.

Lemma common_tmpdir_write p p' t :
  common_tmpdir p p' = Ok (Some t) → entry_path t = Special Tmpdir ∧ access t = Write.
Proof.
  clear. unfold common_tmpdir.
  destruct (List.filter is_tmpdir (fs_entries p)) as [|x [|]],
    (List.filter is_tmpdir (fs_entries p')) as [|y [|]]; try done; try (by case_match).
  destruct (plain_write x) eqn:Hx; [|done]. destruct (plain_write y); [|done]. intros [= <-].
  split; [done|]. unfold plain_write in Hx. cbn [new_entry access]. by destruct (access x).
Qed.

(** Intersecting two profiles never panics: the matcher of the denied reads
    is only built after the working directory was found to be absolute; and
    profiles that an external caller enforces are refused. *)
Theorem profile_intersection_total (authority requested : profile) cwd :
  intersect_profiles authority requested cwd ≠ Panic
  ∧ ((is_external authority || is_external requested) = true →
     intersect_profiles authority requested cwd = Fail ExternalSandboxError).
Proof.
  unfold intersect_effective_permission_profiles.
  destruct (is_external authority || is_external requested) eqn:Hext; [done|]. split; [|done].
  destruct (checked_path h cwd) as [cw|] eqn:Hcwd; cbn [of_result obind]; [|done].
  destruct (rmapM _ _); cbn [of_result obind]; [|done].
  assert (∀ p n, never_fails (E:=PermissionIntersectionError) (from_runtime_permissions (Url:=Url) p n) ≠ Panic) as Hrt.
  { intros p n. by destruct (from_runtime_never_panics p n) as (? & -> & _). }
  repeat (case_match; [done || apply Hrt|]).
  destruct (prepare _ _ _ _) as [[[pa pr] temp]|]; cbn [of_result obind]; [|done].
  apply intersect_prepared_total. by eapply checked_absolute.
Qed.

(** C12: The intersection of two profiles allows nothing that one of them does
    not: the network only if both allow it; when one policy is unrestricted, or
    both are equal, the other's policy; otherwise every read or write entry is
    at a path where both sources (after normalisation) have at least that mode,
    or is the temporary directory both may write, and every denied entry of
    either source is kept. *)
Theorem profile_intersection_sound (authority requested : profile) cwd (q : profile) :
  intersect_profiles authority requested cwd = Done q →
  let A := file_system_sandbox_policy authority in
  let R := file_system_sandbox_policy requested in
  let Q := file_system_sandbox_policy q in
  (network_sandbox_policy q = NetworkEnabled →
     network_sandbox_policy authority = NetworkEnabled
     ∧ network_sandbox_policy requested = NetworkEnabled)
  ∧ ((fs_kind A = Unrestricted ∧ Q = with_valid_depth R)
     ∨ (fs_kind R = Unrestricted ∧ Q = with_valid_depth A)
     ∨ (policy_eq A R = true ∧ Q = with_valid_depth A)
     ∨ ∃ a r temp, prepare h debug_special A R = Ok (a, r, temp) ∧ sound_intersection a r temp cwd q
         ∧ (∀ t, temp = Some t → entry_path t = Special Tmpdir ∧ access t = Write)).
Proof.
  unfold intersect_effective_permission_profiles.
  destruct (is_external authority || is_external requested); [done|].
  destruct (checked_path h cwd); cbn [of_result obind]; [|done].
  destruct (rmapM _ _); cbn [of_result obind]; [|done].
  set (network := if network_is_enabled _ && network_is_enabled _ then NetworkEnabled else NetworkRestricted).
  assert (network = NetworkEnabled → network_sandbox_policy authority = NetworkEnabled
    ∧ network_sandbox_policy requested = NetworkEnabled) as Hnet.
  { unfold network. by destruct (network_sandbox_policy authority), (network_sandbox_policy requested). }
  destruct (is_disabled authority && is_disabled requested) eqn:Hdis.
  { apply andb_true_iff in Hdis as [Ha Hr]. destruct authority, requested; try done. intros [= <-]. auto. }
  destruct (policy_eq _ _) eqn:Heq.
  { match goal with |- never_fails (from_runtime_permissions ?p ?n) = _ → _ =>
      destruct (from_runtime_never_panics p n) as (q' & -> & Hfs & Hn) end.
    intros [= <-]. rewrite Hn. auto 6. }
  case_bool_decide as HkA.
  { match goal with |- never_fails (from_runtime_permissions ?p ?n) = _ → _ =>
      destruct (from_runtime_never_panics p n) as (q' & -> & Hfs & Hn) end.
    intros [= <-]. rewrite Hn. auto. }
  case_bool_decide as HkR.
  { match goal with |- never_fails (from_runtime_permissions ?p ?n) = _ → _ =>
      destruct (from_runtime_never_panics p n) as (q' & -> & Hfs & Hn) end.
    intros [= <-]. rewrite Hn. auto. }
  destruct (prepare _ _ _ _) as [[[pa pr] temp]|] eqn:Hprep; cbn [of_result obind]; [|done].
  intros (Hn & Hsound)%intersect_prepared_sound. rewrite Hn. split; [done|]. do 3 right.
  exists pa, pr, temp. split_and!; [done|done|]. intros t ->. unfold prepare in Hprep.
  destruct (normalize_policy h debug_special (file_system_sandbox_policy authority)) as [na|]; [|done].
  destruct (normalize_policy h debug_special (file_system_sandbox_policy requested)) as [nr|]; [|done].
  cbn [rbind] in Hprep. destruct (common_tmpdir na nr) as [ct|] eqn:Hct; [|done]. cbn [rbind] in Hprep.
  simplify_eq. by apply common_tmpdir_write in Hct.
Qed.

End facts.
