(* ===== verification/SandboxWitnesses.v ===== *)
(** * Instances of the sandbox theorems

    A concrete URL type that satisfies the laws that the facts about path URIs are
    proved from, and the theorems about paths, sandbox policies, permissions and
    the approval of patches at concrete inputs, with these URLs, a small host and
    globs that match one path. *)

From S2P Require Import Prelude RustStr Utf8 UnixPath ExecFs AbsolutePath PathUri PathUriFacts.
From S2P Require Import Permissions SandboxPolicy LegacySandbox SandboxAccess SandboxLocal.
From S2P Require Import LegacyRoundtrip PermissionProfiles PolicyTransforms.
From S2P Require Import PolicyTransformFacts IntersectFacts ProfileIntersection.
From S2P Require Import ProfileIntersectionFacts SeekSequence FileUpdate PatchParser.
From S2P Require Import ApplyPatch Invocation MemFs ExecApproval PatchSafety.

(** ** A concrete URL type

    [file:] URLs without authority as the text after [file:///], with a
    percent-encoding that escapes only the percent sign and a unary code in
    place of base64. *)

#[local] Arguments lit : simpl never.

Record demo_url := du { du_rest : str }.

#[global] Instance demo_url_eq_dec : EqDecision demo_url.
Proof. solve_decision. Defined.

#[global] Instance demo_url_countable : Countable demo_url.
Proof. by apply (inj_countable' du_rest du); intros []. Defined.

(** ** Percent-encoding *)

Definition hex_value (c : char) : option N :=
  if ((48 <=? c) && (c <=? 57))%N then Some (c - 48)%N
  else if ((65 <=? c) && (c <=? 70))%N then Some (c - 55)%N
  else if ((97 <=? c) && (c <=? 102))%N then Some (c - 87)%N
  else None.

(** The byte of an escape [%XY]. *)
Definition escape_byte (c x y : char) : option N :=
  if (c =? 37)%N then a ← hex_value x; b ← hex_value y; Some (16 * a + b)%N else None.

Fixpoint pct_decode (s : str) : bytes :=
  match s with
  | [] => []
  | c :: r =>
      match r with
      | x :: y :: r' =>
          match escape_byte c x y with
          | Some b => b :: pct_decode r'
          | None => encode_char c ++ pct_decode r
          end
      | _ => encode_char c ++ pct_decode r
      end
  end.

(** The same on characters; [None] at an escape that is not ASCII. *)
Fixpoint pct_chars (s : str) : option str :=
  match s with
  | [] => Some []
  | c :: r =>
      match r with
      | x :: y :: r' =>
          match escape_byte c x y with
          | Some b => if (b <? 128)%N then cons b <$> pct_chars r' else None
          | None => cons c <$> pct_chars r
          end
      | _ => cons c <$> pct_chars r
      end
  end.

Definition pct_encode (s : str) : str :=
  mjoin ((λ c, if (c =? 37)%N then lit "%25" else [c]) <$> s).

(** ** A code for bytes *)

Definition unary_encode (b : bytes) : str :=
  mjoin ((λ n, replicate (N.to_nat n) 97%N ++ [98%N]) <$> b).

Fixpoint unary_decode (n : N) (s : str) : option bytes :=
  match s with
  | [] => if (n =? 0)%N then Some [] else None
  | c :: s =>
      if (c =? 97)%N then unary_decode (N.succ n) s
      else if (c =? 98)%N then cons n <$> unary_decode 0 s
      else None
  end.

(** ** The operations *)

Definition du_segments (u : demo_url) : list str := split_on 47 (du_rest u).
Definition of_segments (l : list str) : demo_url := du (join [47%N] l).

Definition name_okb (s : str) : bool := bool_decide (name_ok s).

Definition du_to_file_path (u : demo_url) : option str :=
  ns ← mapM pct_chars (List.filter nonempty (du_segments u));
  if forallb name_okb ns then Some (abs_of ns) else None.

#[global] Instance demo_url_ops : UrlOps demo_url := {|
  url_scheme := λ _, FILE_SCHEME;
  url_username := λ _, [];
  url_has_password := λ _, false;
  url_port := λ _, None;
  url_query := λ _, None;
  url_fragment := λ _, None;
  url_as_str := λ u, lit "file:///" ++ du_rest u;
  url_host_str := λ _, None;
  url_path := λ u, 47%N :: du_rest u;
  url_path_segments := λ u, Some (du_segments u);
  url_parse := λ s,
    match strip_prefix (lit "file:///") s with
    | Some rest => Ok (du rest)
    | None => Err (lit "relative URL without a base")
    end;
  url_set_host := λ u _, Some u;
  url_set_path := λ _ path, du (tail path);
  segments_clear := λ _, of_segments [[]];
  segments_pop_if_empty := λ u,
    match last (du_segments u) with
    | Some [] => if 1 <? length (du_segments u) then of_segments (drop_last (du_segments u)) else u
    | _ => u
    end;
  segments_pop := λ u,
    if 1 <? length (du_segments u) then of_segments (drop_last (du_segments u)) else of_segments [[]];
  segments_push := λ u s,
    of_segments (if bool_decide (du_segments u = [[]]) then [pct_encode s]
                 else du_segments u ++ [pct_encode s]);
  url_from_file_path := λ path,
    if is_absolute path
    then Some (of_segments (pct_encode <$> List.filter nonempty (split_on 47 path))) else None;
  url_to_file_path := du_to_file_path;
  decode_binary := pct_decode;
  encode_binary := id;
  base64_encode := unary_encode;
  base64_decode := unary_decode 0;
  url_unreachable := du [];
|}.

(** ** The laws *)

Lemma escape_byte_sep c x y : x = 47%N ∨ y = 47%N → escape_byte c x y = None.
Proof.
  intros H. unfold escape_byte. destruct (c =? 37)%N; [|done].
  destruct H as [->| ->]; [done|]. by destruct (hex_value x).
Qed.

Lemma pct_decode_cons c r :
  (∀ x y r', r = x :: y :: r' → escape_byte c x y = None) →
  pct_decode (c :: r) = encode_char c ++ pct_decode r.
Proof. intros H. destruct r as [|x [|y r']]; [done..|]. cbn [pct_decode]. by rewrite (H x y r'). Qed.

Lemma pct_decode_slash a b : pct_decode (a ++ 47%N :: b) = pct_decode a ++ 47%N :: pct_decode b.
Proof.
  remember (length a) as n eqn:Hn. revert a Hn. induction n as [n IH] using lt_wf_ind. intros a ->.
  destruct a as [|c r].
  { cbn [app]. rewrite pct_decode_cons; [done|]. intros. unfold escape_byte. done. }
  destruct r as [|x [|y r]].
  - cbn [app]. rewrite (pct_decode_cons c (47%N :: b)), (pct_decode_cons c []), (pct_decode_cons 47 b); try done.
    + cbn [pct_decode app]. by rewrite app_nil_r.
    + intros x y r' [= <- ->]. apply escape_byte_sep. by left.
  - cbn [app]. rewrite !(pct_decode_cons c).
    + rewrite <- app_assoc. f_equal. by apply (IH 1 ltac:(simpl; lia) [x]).
    + done.
    + intros x' y' r' [= <- <- <-]. apply escape_byte_sep. by right.
  - cbn [app]. destruct (escape_byte c x y) as [byte|] eqn:He.
    + cbn [pct_decode]. rewrite He. cbn [app]. f_equal. by apply (IH (length r) ltac:(simpl; lia)).
    + rewrite !(pct_decode_cons c) by (by intros ? ? ? [= <- <- <-]). rewrite <- app_assoc. f_equal.
      by apply (IH (S (S (length r))) ltac:(simpl; lia) (x :: y :: r)).
Qed.

Lemma pct_encode_cons c s :
  pct_encode (c :: s) = (if (c =? 37)%N then lit "%25" else [c]) ++ pct_encode s.
Proof. done. Qed.

Lemma escape_plain c x y : (c =? 37)%N = false → escape_byte c x y = None.
Proof. unfold escape_byte. by intros ->. Qed.

Lemma pct_decode_encode s : pct_decode (pct_encode s) = encode s.
Proof.
  induction s as [|c s IH]; [done|]. rewrite pct_encode_cons, encode_cons, <- IH.
  destruct (N.eqb_spec c 37) as [->|Hc]; [done|]. cbn [app]. apply pct_decode_cons. intros.
  apply escape_plain. by apply N.eqb_neq.
Qed.

Lemma pct_chars_encode s : pct_chars (pct_encode s) = Some s.
Proof.
  induction s as [|c s IH]; [done|]. rewrite pct_encode_cons.
  destruct (N.eqb_spec c 37) as [->|Hc]; 
    [change (pct_chars _) with (cons 37%N <$> pct_chars (pct_encode s)); by rewrite IH|].
  apply N.eqb_neq in Hc. cbn [app].
  destruct (pct_encode s) as [|x [|y r]] eqn:E; cbn [pct_chars]; rewrite ?escape_plain by done;
    cbn [pct_chars] in IH; by rewrite IH.
Qed.

Lemma pct_encode_sep s : 47%N ∉ s → 47%N ∉ pct_encode s.
Proof.
  induction s as [|c s IH]; intros Hs; [apply not_elem_of_nil|]. rewrite pct_encode_cons, elem_of_app.
  destruct (c =? 37)%N; [|set_solver]. intros [H|H]; [|set_solver].
  by apply (bool_decide_unpack (47%N ∉ lit "%25")).
Qed.

Lemma pct_encode_ne s : s ≠ [] → pct_encode s ≠ [].
Proof. destruct s as [|c s]; [done|]. rewrite pct_encode_cons. by destruct (c =? 37)%N. Qed.

Lemma pct_chars_decode s t : pct_chars s = Some t → pct_decode s = encode t.
Proof.
  remember (length s) as n eqn:Hn. revert s t Hn. induction n as [n IH] using lt_wf_ind. intros s t ->.
  destruct s as [|c r]; [by intros [= <-]|].
  assert (∀ o, cons c <$> pct_chars r = Some o → pct_decode r = encode (tail o) ∧ o = c :: tail o) as Hplain.
  { intros o (t' & Ht & ->)%fmap_Some. split; [|done]. by apply (IH (length r) ltac:(simpl; lia)). }
  destruct r as [|x [|y r]].
  - intros [Hd ->]%Hplain. rewrite encode_cons, <- Hd. by apply pct_decode_cons.
  - intros [Hd ->]%Hplain. rewrite encode_cons, <- Hd. by apply pct_decode_cons.
  - cbn [pct_chars pct_decode] in *. destruct (escape_byte c x y) as [b|].
    + destruct (b <? 128)%N eqn:Hb; [|done]. intros (t' & Ht & ->)%fmap_Some. rewrite encode_cons.
      assert (encode_char b = [b]) as -> by (unfold encode_char; by rewrite Hb).
      cbn [app]. f_equal. by apply (IH (length r) ltac:(simpl; lia)).
    + intros [Hd ->]%Hplain. by rewrite encode_cons, <- Hd.
Qed.

Lemma unary_decode_run n k s :
  unary_decode n (replicate k 97%N ++ 98%N :: s) = cons (n + N.of_nat k)%N <$> unary_decode 0 s.
Proof.
  revert n; induction k as [|k IH]; intros n; [simpl; by rewrite N.add_0_r|].
  cbn [replicate app unary_decode]. cbn [N.eqb Pos.eqb]. rewrite IH. do 2 f_equal. lia.
Qed.

Lemma unary_encode_cons n b :
  unary_encode (n :: b) = replicate (N.to_nat n) 97%N ++ 98%N :: unary_encode b.
Proof. unfold unary_encode. cbn. by rewrite <- app_assoc. Qed.

Lemma unary_inverse b : unary_decode 0 (unary_encode b) = Some b.
Proof.
  induction b as [|n b IH]; [done|]. rewrite unary_encode_cons, unary_decode_run, IH. simpl.
  by rewrite N2Nat.id.
Qed.

Lemma unary_alphabet b : 47%N ∉ unary_encode b.
Proof.
  induction b as [|n b IH]; [apply not_elem_of_nil|]. rewrite unary_encode_cons, elem_of_app, elem_of_cons.
  intros [[H _]%elem_of_replicate|[H|H]]; [discriminate|discriminate|by apply IH].
Qed.

Lemma demo_local (u : demo_url) : local u.
Proof. by repeat split. Qed.

Lemma segments_of l : l ≠ [] → Forall (λ s, 47%N ∉ s) l → du_segments (of_segments l) = l.
Proof. intros. by apply split_on_join. Qed.

Lemma segments_sep u : Forall (λ s, 47%N ∉ s) (du_segments u).
Proof. apply split_on_no_sep. Qed.

Lemma filter_split_abs ns :
  Forall name_ok ns → List.filter nonempty (split_on 47 (abs_of ns)) = ns.
Proof.
  intros Hok. unfold abs_of. change (lit "/") with [47%N]. cbn [app split_on N.eqb Pos.eqb].
  assert (List.filter nonempty (split_on 47 (join [47%N] ns)) = ns) as H; [|by rewrite <- H at 2].
  destruct ns as [|n ns]; [done|]. rewrite split_on_join.
  - induction Hok as [|x l Hx _ IH]; [done|]. cbn [List.filter]. destruct Hx as (Hne & _).
    destruct x; [done|]. cbn. by rewrite IH.
  - done.
  - eapply Forall_impl; [exact Hok|]. by intros x (_ & _ & _ & ?).
Qed.

Lemma demo_names_file ns :
  Forall name_ok ns →
  List.filter nonempty (du_segments (of_segments (pct_encode <$> ns))) = pct_encode <$> ns.
Proof.
  intros Hok. destruct ns as [|n ns]; [done|]. rewrite segments_of; [|done|].
  - generalize (n :: ns) Hok. clear. induction 1 as [|x l (Hne & _) _ IH]; [done|].
    cbn [fmap list_fmap List.filter]. apply pct_encode_ne in Hne.
    unfold nonempty at 1. destruct (pct_encode x) as [|c e]; [done|]. cbn [is_empty negb]. by f_equal.
  - apply Forall_fmap. eapply Forall_impl; [exact Hok|]. intros x (_ & _ & _ & ?). by apply pct_encode_sep.
Qed.

Lemma alphabetic_ascii d : is_ascii_alphabetic d = true → (d <? 128)%N = true.
Proof.
  unfold is_ascii_alphabetic, is_ascii_uppercase, is_ascii_lowercase.
  rewrite orb_true_iff, !andb_true_iff, !N.leb_le, N.ltb_lt. lia.
Qed.

Lemma last_segments (u : demo_url) l x :
  du_segments u = l ++ [x] → last (du_segments u) = Some x ∧ drop_last (du_segments u) = l
  ∧ (1 <? length (du_segments u)) = negb (is_empty l) ∧ Forall (λ s, 47%N ∉ s) l.
Proof.
  intros Hu. pose proof (segments_sep u) as Hs. rewrite Hu in *. rewrite last_snoc, drop_last_snoc, length_app.
  apply Forall_app in Hs as [Hs _]. split_and!; try done. destruct l as [|? [|]]; done.
Qed.

#[global] Instance demo_url_laws : UrlLaws demo_url.
Proof.
  split.
  - intros u _. by exists (du_rest u).
  - done.
  - done.
  - apply pct_decode_slash.
  - done.
  - intros s Hs. destruct s as [|d [|c [|x [|y [|]]]]]; try done; simpl in Hs.
    + apply andb_true_iff in Hs as [->%N.eqb_eq Hd]. exists d.
      assert (d <? 128)%N as Hlt by (by apply Is_true_true, alphabetic_ascii).
      cbn [decode_binary demo_url_ops pct_decode]. unfold encode_char at 1.
      apply Is_true_true in Hlt. by rewrite Hlt.
    + rewrite !andb_true_iff, orb_true_iff in Hs. destruct Hs as [[[->%N.eqb_eq ->%N.eqb_eq] Hy] Hd].
      exists d. apply alphabetic_ascii in Hd as Hlt.
      assert (escape_byte d 37 51 = None) as Hesc by (unfold escape_byte; by destruct (d =? 37)%N).
      cbn [decode_binary demo_url_ops pct_decode]. rewrite Hesc. unfold encode_char at 1. rewrite Hlt.
      by destruct Hy as [->%N.eqb_eq| ->%N.eqb_eq].
  - apply unary_inverse.
  - apply unary_alphabet.
  - intros [|n b]; [done|]. change (base64_encode (n :: b)) with (unary_encode (n :: b)).
    rewrite unary_encode_cons. by destruct (N.to_nat n).
  - eexists. split; [reflexivity|]. by split; [apply demo_local|].
  - intros b. exists (du (lit "%00/bad/path/" ++ unary_encode b)). split_and!; [|apply demo_local|done].
    cbn [url_parse demo_url_ops]. change (BAD_PATH_URI_PREFIX ++ base64_encode b)
      with (lit "file:///" ++ lit "%00/bad/path/" ++ unary_encode b). by rewrite strip_prefix_app.
  - intros ns _. eexists. cbn [url_from_file_path demo_url_ops]. done.
  - intros ns u Hok Hu. cbn [url_from_file_path demo_url_ops] in Hu.
    change (is_absolute (abs_of ns)) with true in Hu. cbv iota in Hu.
    rewrite filter_split_abs in Hu by done. injection Hu as <-. split; [apply demo_local|].
    pose proof (demo_names_file ns Hok) as Hf. split.
    + unfold names. cbn [url_path_segments demo_url_ops from_option id decode_binary]. rewrite Hf.
      rewrite <- list_fmap_compose. apply list_fmap_ext. intros i x _. apply pct_decode_encode.
    + cbn [url_to_file_path demo_url_ops]. unfold du_to_file_path. rewrite Hf.
      assert (mapM pct_chars (pct_encode <$> ns) = Some ns) as ->.
      { clear. induction ns as [|n ns IH]; [done|]. cbn. by rewrite pct_chars_encode, IH. }
      cbn [mbind option_bind]. assert (forallb name_okb ns = true) as ->; [|done].
      apply forallb_forall. intros x Hx%list_elem_of_In. apply bool_decide_eq_true.
      rewrite Forall_forall in Hok. auto.
  - intros u p _ _ Hp. cbn [url_to_file_path demo_url_ops] in Hp. unfold du_to_file_path in Hp.
    apply bind_Some in Hp as (ns & Hns & Hp). case_match eqn:Hok; [|done]. injection Hp as <-.
    assert (Forall name_ok ns) as Hall.
    { apply Forall_forall. intros x Hx%list_elem_of_In. rewrite forallb_forall in Hok.
      by apply (bool_decide_unpack _), Is_true_true, Hok. }
    exists ns. split_and!; [done|by apply components_abs|].
    unfold names. cbn [url_path_segments demo_url_ops from_option id decode_binary].
    apply mapM_Some in Hns. clear -Hns. induction Hns as [|x t l l' Hx _ IH]; [done|].
    rewrite !fmap_cons, IH. f_equal. by apply pct_chars_decode.
  - intros u a c b _ Hpath Hc. split; [apply demo_local|]. cbn [url_path url_set_path demo_url_ops du_rest] in *.
    destruct a as [|x a]; [by injection Hpath as <- <-|].
    cbn [app] in Hpath. injection Hpath as <- _. done.
  - intros u _. split_and!; intros; apply demo_local.
  - done.
  - intros u l x _ Hu. change (segs u) with (du_segments u) in Hu.
    destruct (last_segments u l x Hu) as (Hlast & Hdrop & Hlen & Hs).
    change (segs (segments_pop_if_empty u)) with (du_segments (segments_pop_if_empty u)).
    cbn [segments_pop_if_empty demo_url_ops]. rewrite Hlast, Hlen, Hdrop.
    destruct x as [|c x]; cbn [is_empty andb]; [|done]. destruct l as [|y l]; cbn [is_empty negb]; [done|].
    by rewrite segments_of.
  - intros u l x _ Hu. change (segs u) with (du_segments u) in Hu.
    destruct (last_segments u l x Hu) as (_ & Hdrop & Hlen & Hs).
    change (segs (segments_pop u)) with (du_segments (segments_pop u)).
    cbn [segments_pop demo_url_ops]. rewrite Hlen, Hdrop.
    destruct l as [|y l]; cbn [is_empty negb]; [done|]. by rewrite segments_of.
  - intros u s _ (Hne & _ & _ & Hchars). exists (pct_encode s).
    split_and!; [by apply pct_encode_ne|apply pct_decode_encode|].
    assert (47%N ∉ pct_encode s) as Hsep.
    { apply pct_encode_sep. intros Hin. rewrite Forall_forall in Hchars. by destruct (Hchars _ Hin) as (_ & ? & _). }
    change (segs (segments_push u s)) with (du_segments (segments_push u s)).
    change (segs u) with (du_segments u). cbn [segments_push demo_url_ops].
    case_bool_decide; rewrite segments_of; try done.
    + by apply Forall_singleton.
    + by destruct (du_segments u).
    + apply Forall_app. split; [apply segments_sep|by apply Forall_singleton].
Qed.

(** ** Instances of the theorems *)

(** ** The host *)

Definition no_file : io_error := {| err_kind := NotFound; err_text := lit "no such file" |}.

Definition demo_host : Host := {|
  host_home := Some (lit "/home/me");
  host_cwd := Ok (lit "/ws");
  host_tmpdir := Some (lit "/var/t");
  host_is_dir := λ p, bool_decide (p = lit "/tmp");
  host_is_file := λ _, false;
  host_exists := λ _, false;
  host_read := λ _, Err no_file;
  host_canonicalize := Ok;
  host_symlink := λ _, Ok false;
|}.

Definition uri (p : str) : demo_url := from_abs_path p.
Definition demo_ctx : FileSystemSandboxPolicyContext demo_url := local_context demo_host (lit "/ws").

Definition at_path (p : str) (m : FileSystemAccessMode) : FileSystemSandboxEntry demo_url :=
  new_entry (PathEntry (uri p)) m.

(** The workspace is writable, one directory of it is denied. *)
Definition ws_entries : list (FileSystemSandboxEntry demo_url) :=
  [new_entry (Special Root) Read; at_path (lit "/ws") Write; at_path (lit "/ws/secret") Deny].
Definition ws_policy : FileSystemSandboxPolicy demo_url := restricted ws_entries.

Definition any_glob (_ : PathConvention) (pattern : str) : result str str := Ok pattern.
Definition exact_glob (pattern : str) (path : bytes) : bool := bool_decide (encode pattern = path).

Ltac by_computation := vm_compute; reflexivity.

Lemma host_path_intro ns :
  bool_decide (Forall name_ok ns) && bool_decide (Forall scalar (abs_of ns))
  && bool_decide (0%N ∉ abs_of ns) = true → host_path (abs_of ns).
Proof.
  rewrite !andb_true_iff, !bool_decide_eq_true. intros [[? ?] ?]. split_and!; [by exists ns|done|done].
Qed.

Lemma ws_context : posix_context demo_ctx.
Proof.
  split; [apply demo_local|]. split.
  - apply (bool_decide_eq_true_1 (Forall (λ s, 0%N ∉ decode_binary s) (segs (ctx_cwd demo_ctx)))).
    by_computation.
  - apply (bool_decide_eq_true_1 (lexical (ctx_cwd demo_ctx))). by_computation.
Qed.

Lemma demo_lexical p : bool_decide (lexical (uri p)) = true → lexical (uri p).
Proof. apply bool_decide_eq_true_1. Qed.

Lemma demo_unambiguous (entries : list (demo_url * FileSystemAccessMode)) :
  forallb (λ '(root, _), negb (is_none (lexical_depth root)) || is_opaque root) entries = true →
  unambiguous entries.
Proof.
  rewrite forallb_forall. intros Hall root m Hin%list_elem_of_In%Hall. apply orb_true_iff in Hin as [Hd|]; [left|by right].
  destruct (lexical_depth root); [by eexists|done].
Qed.

(** ** Paths *)

Lemma abs_path_roundtrip_witness :
  to_abs_path (Some (lit "/home/me")) (uri (lit "/ws/a b")) = Ok (lit "/ws/a b")
  ∧ (uri (lit "/ws/a b") = uri (lit "/C:/x") ↔ lit "/ws/a b" = lit "/C:/x").
Proof.
  destruct (host_path_intro [lit "ws"; lit "a b"]) as (Hn & Hs & H0); [by_computation|].
  destruct (host_path_intro [lit "C:"; lit "x"]) as (Hn' & Hs' & H0'); [by_computation|].
  exact (abs_path_roundtrip (Some (lit "/home/me")) (lit "/ws/a b") (lit "/C:/x") Hn Hn' Hs Hs' H0 H0').
Defined.

Lemma posix_text_stays_posix_witness :
  ∃ u : demo_url, from_absolute_native_path (lit "/C:/x") Posix = Some u
    ∧ infer_path_convention u = Some Posix.
Proof.
  destruct (from_absolute_native_path (lit "/C:/x") Posix) as [u|] eqn:Hu;
    [|exfalso; vm_compute in Hu; discriminate Hu].
  exists u. split; [reflexivity|]. exact (posix_text_stays_posix (lit "/C:/x") u Hu).
Defined.

(** A Windows device path that is written with slashes is taken for a POSIX
    path. *)
Example slash_device_path :
  ∃ u : demo_url, from_absolute_native_path (lit "//./pipe/x") Windows = Some u
    ∧ infer_path_convention u = Some Posix.
Proof. by apply (slash_device_path_is_posix (lit "//./pipe/x")). Qed.

(** ** Access *)

Lemma access_is_most_specific_witness :
  resolve_access ws_policy (uri (lit "/ws/src")) demo_ctx = Write
  ∧ access_spec (resolved_entries ws_policy demo_ctx) (uri (lit "/ws/src")) demo_ctx Write
  ∧ resolve_access ws_policy (uri (lit "/ws/secret/k")) demo_ctx = Deny
  ∧ resolve_access ws_policy (uri (lit "/etc/x")) demo_ctx = Read.
Proof.
  assert (resolve_access ws_policy (uri (lit "/ws/src")) demo_ctx = Write) as H by by_computation.
  split; [exact H|]. split; [|split; by_computation].
  exact (proj1 (access_is_most_specific ws_policy (uri (lit "/ws/src")) demo_ctx Write eq_refl) H).
Defined.

Lemma preserved_denials_witness :
  let new := preserve_deny_read_restrictions_from unrestricted ws_policy in
  resolve_access new (uri (lit "/ws/secret/k")) demo_ctx = Deny
  ∧ resolve_access new (uri (lit "/etc/x")) demo_ctx = Write
  ∧ (resolve_access new (uri (lit "/etc/x")) demo_ctx
     = resolve_access unrestricted (uri (lit "/etc/x")) demo_ctx
     ∨ resolve_access new (uri (lit "/etc/x")) demo_ctx = Deny).
Proof.
  split; [by_computation|]. split; [by_computation|].
  exact (proj1 (preserved_denials unrestricted ws_policy (uri (lit "/etc/x")) demo_ctx ltac:(discriminate))).
Defined.

Lemma metadata_is_protected_witness :
  can_write_path demo_host ws_policy (uri (lit "/ws/.git/config")) demo_ctx = false
  ∧ can_write_path demo_host ws_policy (uri (lit "/ws/src")) demo_ctx = true
  ∧ ∃ name, name ∈ PROTECTED_METADATA_PATH_NAMES
      ∧ metadata_write_denial ws_policy (uri (lit "/ws/.git/config")) demo_ctx = Some name.
Proof.
  assert (∀ root m, (root, m) ∈ resolved_entries ws_policy demo_ctx → m = Write → root = uri (lit "/ws")) as Hw.
  { intros root m Hin Hm.
    assert (resolved_entries ws_policy demo_ctx
            = [(uri (lit "/"), Read); (uri (lit "/ws"), Write); (uri (lit "/ws/secret"), Deny)]) as E by by_computation.
    rewrite E, !elem_of_cons, elem_of_nil in Hin. destruct Hin as [[= -> ->]|[[= -> ->]|[[= -> ->]|[]]]]; done. }
  assert (metadata_dir (resolved_entries ws_policy demo_ctx) (uri (lit "/ws/.git"))) as Hdir.
  { exists (uri (lit "/ws")), (lit ".git"). split_and!; [|left|by_computation].
    apply list_elem_of_In. vm_compute. right. left. reflexivity. }
  destruct (metadata_is_protected demo_host ws_policy (uri (lit "/ws/.git/config")) demo_ctx (uri (lit "/ws/.git")))
    as [Hno Hname]; [by_computation|exact Hdir|by_computation| |].
  { intros root dir Hin _ (root' & name & Hin' & Hn & Hj).
    rewrite (Hw root Write Hin eq_refl). rewrite (Hw root' Write Hin' eq_refl) in Hj.
    unfold PROTECTED_METADATA_PATH_NAMES in Hn. rewrite !elem_of_cons, elem_of_nil in Hn.
    destruct Hn as [->|[->|[->|[]]]]; vm_compute in Hj; injection Hj as <-; by_computation. }
  split; [exact Hno|]. split; [by_computation|exact Hname].
Defined.

(** A writable root inside the metadata directory of another: whether the inner
    metadata directory is protected depends on the order of the entries. *)
Definition nested_roots (flip : bool) : FileSystemSandboxPolicy demo_url :=
  let outer := at_path (lit "/ws") Write in
  let inner := at_path (lit "/ws/.git/a") Write in
  restricted (if flip then [inner; outer] else [outer; inner]).

Theorem metadata_denial_depends_on_order :
  let path := uri (lit "/ws/.git/a/.git/x") in
  can_write_path demo_host (nested_roots false) path demo_ctx = true
  ∧ can_write_path demo_host (nested_roots true) path demo_ctx = false.
Proof. split; by_computation. Qed.

Definition tmp_override : FileSystemSandboxPolicy demo_url :=
  restricted [new_entry (Special Root) Write; at_path (lit "/tmp") Read;
              new_entry (Special SlashTmp) Write].

Lemma full_write_access_is_total_witness :
  has_full_disk_write_access demo_host tmp_override = true
  ∧ resolve_access tmp_override (uri (lit "/tmp/x")) demo_ctx = Write
  ∧ can_write_path demo_host tmp_override (uri (lit "/tmp/x")) demo_ctx = true.
Proof.
  assert (has_full_disk_write_access demo_host tmp_override = true) as Hfull by by_computation.
  split; [exact Hfull|].
  refine (full_write_access_is_total demo_host tmp_override (uri (lit "/tmp/x")) demo_ctx
            Hfull ws_context _ _ _).
  - apply demo_lexical. by_computation.
  - apply demo_unambiguous. by_computation.
  - apply Forall_forall. intros e _ u _. by repeat split.
Defined.

Lemma read_deny_matcher_sound_witness :
  ∃ m, new_read_deny_matcher demo_host any_glob ws_policy (lit "/ws") = Done (Some m)
    ∧ is_read_denied demo_host exact_glob m (lit "/ws/secret/k") = true
    ∧ is_read_denied demo_host exact_glob m (lit "/ws/src") = false.
Proof.
  destruct (new_read_deny_matcher demo_host any_glob ws_policy (lit "/ws")) as [[m|]|e|] eqn:Hm;
    try (exfalso; vm_compute in Hm; discriminate Hm).
  exists m. split; [reflexivity|]. split; [|vm_compute in Hm; injection Hm as <-; by_computation].
  assert (matcher_cwd m = lit "/ws") as Hcwd by (vm_compute in Hm; injection Hm as <-; reflexivity).
  refine (proj1 (read_deny_matcher_sound demo_host any_glob exact_glob ws_policy (lit "/ws") m
            (lit "/ws/secret/k") (lit "/ws/secret/k") Hm _) (uri (lit "/ws/secret")) _ _ _);
    rewrite ?Hcwd; [by_computation| |by_computation|by_computation].
  apply list_elem_of_In. vm_compute. right. right. left. reflexivity.
Defined.

Lemma readable_roots_keep_access_witness :
  resolve_access_with_cwd demo_host
    (with_additional_readable_roots demo_host ws_policy (lit "/ws") [lit "/ws/secret"]) (lit "/ws/src") (lit "/ws")
  = Write.
Proof.
  transitivity (resolve_access_with_cwd demo_host ws_policy (lit "/ws/src") (lit "/ws")); [|by_computation].
  refine (readable_roots_keep_access demo_host ws_policy (lit "/ws/src") (lit "/ws") [lit "/ws/secret"] eq_refl _ _ _).
  - intros d [= <-]. by_computation.
  - apply Forall_singleton. destruct (host_path_intro [lit "ws"; lit "secret"]) as (? & _ & ?); [by_computation|].
    by split.
  - vm_compute. discriminate.
Defined.

(** ** Legacy policies *)

Definition legacy_ws : SandboxPolicy := WorkspaceWrite [lit "/data"; lit "/ws"] true false true.

Lemma legacy_policy_roundtrip_witness :
  to_legacy_sandbox_policy demo_host
    (from_legacy_sandbox_policy_for_cwd (Url:=demo_url) demo_host legacy_ws (lit "/ws"))
    (network_policy_of legacy_ws) (lit "/ws")
  = Ok (WorkspaceWrite [lit "/data"] true false true).
Proof.
  refine (proj1 (legacy_policy_roundtrip (Url:=demo_url) demo_host legacy_ws (lit "/ws") _)).
  intros roots n t s [= <- <- <- <-].
  destruct (host_path_intro [lit "data"]) as (? & ? & ?); [by_computation|].
  destruct (host_path_intro [lit "ws"]) as (? & ? & ?); [by_computation|].
  repeat (apply Forall_cons; split; [by split_and!|]). by apply Forall_nil.
Defined.

(** ** Profiles and overlays *)

Definition ws_profile : PermissionProfile demo_url :=
  Managed (ManagedRestricted ws_entries None) NetworkEnabled.

Lemma read_only_intersection_witness :
  match intersect_with_read_only ws_profile with
  | Done (Some q) =>
      network_sandbox_policy q = NetworkRestricted
      ∧ resolve_access (file_system_sandbox_policy q) (uri (lit "/ws/src")) demo_ctx = Read
  | _ => False
  end.
Proof.
  assert (lexical (uri (lit "/ws/src"))) as Hlex by (apply demo_lexical; by_computation).
  exact (read_only_intersection ws_profile (uri (lit "/ws/src")) demo_ctx ws_context Hlex).
Defined.

Definition overlay_of (network : option bool) (entries : list (FileSystemSandboxEntry demo_url))
    (depth : option N) : AdditionalPermissionProfile demo_url :=
  {| app_network := (λ b, {| network_enabled := Some b |}) <$> network;
     app_file_system := Some {| fsp_entries := entries; fsp_glob_scan_max_depth := depth |} |}.

Definition data_overlay : AdditionalPermissionProfile demo_url :=
  overlay_of None [at_path (lit "/data") Write; new_entry (GlobPattern (lit "/data/*.key")) Deny] (Some 3%N).
Definition cache_overlay : AdditionalPermissionProfile demo_url :=
  overlay_of (Some true) [at_path (lit "/cache") Read; at_path (lit "/data") Write] None.

Lemma overlays_compose_witness :
  effective_file_system_sandbox_policy
    (effective_file_system_sandbox_policy ws_policy (Some data_overlay)) (Some cache_overlay)
  = effective_file_system_sandbox_policy ws_policy
      (merge_permission_profiles (Some data_overlay) (Some cache_overlay))
  ∧ effective_network_sandbox_policy
      (effective_network_sandbox_policy NetworkRestricted (Some data_overlay)) (Some cache_overlay)
    = effective_network_sandbox_policy NetworkRestricted
        (merge_permission_profiles (Some data_overlay) (Some cache_overlay)).
Proof.
  refine (overlays_compose ws_policy NetworkRestricted (Some data_overlay) (Some cache_overlay) _ _);
    intros fs [= <-]; discriminate.
Defined.

Lemma overlay_decides_what_it_covers_witness :
  let effective := effective_file_system_sandbox_policy ws_policy (Some cache_overlay) in
  resolve_access effective (uri (lit "/data/x")) demo_ctx = Write
  ∧ resolve_access effective (uri (lit "/ws/secret/k")) demo_ctx
    = resolve_access ws_policy (uri (lit "/ws/secret/k")) demo_ctx.
Proof.
  split; [by_computation|].
  set (fs := {| fsp_entries := [at_path (lit "/cache") Read; at_path (lit "/data") Write];
                fsp_glob_scan_max_depth := None |}).
  refine (proj2 (proj1 (overlay_decides_what_it_covers ws_policy cache_overlay fs
            (uri (lit "/ws/secret/k")) demo_ctx Deny eq_refl _) eq_refl) _ _).
  - by_computation.
  - apply demo_unambiguous. by_computation.
  - intros root m d (Hin & _ & Hs).
    assert (resolved_entries (restricted (fsp_entries fs)) demo_ctx
            = [(uri (lit "/cache"), Read); (uri (lit "/data"), Write)]) as E by by_computation.
    rewrite E, !elem_of_cons, elem_of_nil in Hin.
    destruct Hin as [[= -> ->]|[[= -> ->]|[]]]; vm_compute in Hs; discriminate Hs.
Defined.

(** ** Intersections *)

Definition request : FileSystemPermissions demo_url :=
  {| fsp_entries := [at_path (lit "/data") Write; at_path (lit "/data/private") Deny];
     fsp_glob_scan_max_depth := None |}.
Definition grant : FileSystemPermissions demo_url :=
  {| fsp_entries := [at_path (lit "/data") Write; at_path (lit "/data/private/k") Write;
                     at_path (lit "/etc") Read];
     fsp_glob_scan_max_depth := None |}.
Definition request_overlay : AdditionalPermissionProfile demo_url :=
  {| app_network := Some {| network_enabled := Some true |}; app_file_system := Some request |}.
Definition grant_overlay : AdditionalPermissionProfile demo_url :=
  {| app_network := Some {| network_enabled := Some true |}; app_file_system := Some grant |}.

Lemma intersection_within_request_witness :
  ∃ result fs,
    intersect_permission_profiles demo_host any_glob exact_glob request_overlay grant_overlay (lit "/ws")
      = Done result
    ∧ app_file_system result = Some fs ∧ fsp_entries fs = fsp_entries request
    ∧ (app_network result = Some {| network_enabled := Some true |}
       ↔ asks_network (app_network request_overlay) = true
         ∧ asks_network (app_network grant_overlay) = true).
Proof.
  destruct (intersect_permission_profiles demo_host any_glob exact_glob request_overlay grant_overlay (lit "/ws"))
    as [result|e|] eqn:Hr; [|exfalso; vm_compute in Hr; discriminate Hr..].
  destruct (app_file_system result) as [fs|] eqn:Hfs.
  - exists result, fs. split; [reflexivity|]. split; [exact Hfs|].
    split; [vm_compute in Hr; injection Hr as <-; vm_compute in Hfs; injection Hfs as <-; by_computation|].
    exact (proj1 (proj2 (intersection_within_request demo_host any_glob exact_glob request_overlay
             grant_overlay result (lit "/ws") Hr))).
  - exfalso. vm_compute in Hr. injection Hr as <-. discriminate Hfs.
Defined.

Lemma intersection_keeps_denials_witness :
  ∃ fs, intersect_file_systems demo_host any_glob exact_glob request grant (lit "/ws") = Done fs
    ∧ resolve_access_with_cwd demo_host (restricted (fsp_entries fs)) (lit "/data/private/k") (lit "/ws") = Deny
    ∧ resolve_access_with_cwd demo_host (restricted (fsp_entries fs)) (lit "/data/x") (lit "/ws") = Write.
Proof.
  destruct (intersect_file_systems demo_host any_glob exact_glob request grant (lit "/ws"))
    as [fs|e|] eqn:Hr; [|exfalso; vm_compute in Hr; discriminate Hr..].
  exists fs. split; [reflexivity|].
  split; [|vm_compute in Hr; injection Hr as <-; by_computation].
  refine (intersection_keeps_denials demo_host any_glob exact_glob request grant (lit "/ws") fs
            (at_path (lit "/data/private") Deny) (lit "/data/private") (lit "/data/private/k")
            Hr _ _ _ _ _ _ _ _ _ _ _).
  - apply (host_path_intro [lit "ws"]). by_computation.
  - by_computation.
  - assert (∀ ns m, bool_decide (Forall name_ok ns) && bool_decide (Forall scalar (abs_of ns))
                      && bool_decide (0%N ∉ abs_of ns) = true →
      host_grant demo_host (lit "/ws") (at_path (abs_of ns) m)) as Hg.
    { intros ns m Hns%host_path_intro. split; [intros u [= <-]; eauto|].
      intros p Hp. cbn [entry_path at_path new_entry resolve_permission_path] in Hp.
      destruct Hns as (Hn & Hs & H0). unfold uri in Hp. rewrite to_from_abs_path in Hp by done.
      injection Hp as <-. by split_and!. }
    apply Forall_cons; split; [apply (Hg [lit "data"]); by_computation|].
    apply Forall_cons; split; [apply (Hg [lit "data"; lit "private"; lit "k"]); by_computation|].
    apply Forall_singleton. apply (Hg [lit "etc"]). by_computation.
  - right. left.
  - reflexivity.
  - reflexivity.
  - apply (host_path_intro [lit "data"; lit "private"]). by_computation.
  - vm_compute. eauto.
  - vm_compute. discriminate.
  - apply (host_path_intro [lit "data"; lit "private"; lit "k"]). by_computation.
  - by_computation.
Defined.

(** A directory that the request has read-only below a writable one becomes
    writable when the writable one is granted. *)
Theorem intersection_widens_read_only :
  let request := {| fsp_entries := [at_path (lit "/data") Write; at_path (lit "/data/ro") Read];
                    fsp_glob_scan_max_depth := None |} in
  let grant := {| fsp_entries := [at_path (lit "/data") Write]; fsp_glob_scan_max_depth := None |} in
  match intersect_file_systems demo_host any_glob exact_glob request grant (lit "/ws") with
  | Done fs =>
      resolve_access_with_cwd demo_host (restricted (fsp_entries request)) (lit "/data/ro/x") (lit "/ws") = Read
      ∧ resolve_access_with_cwd demo_host (restricted (fsp_entries fs)) (lit "/data/ro/x") (lit "/ws") = Write
  | _ => False
  end.
Proof. vm_compute. done. Qed.

(** The legacy form of overlay permissions forgets that an entry may be missing
    on disk. *)
Theorem legacy_roots_forget_missing_paths :
  let p := {| fsp_entries := [skip_missing_path (PathEntry (uri (lit "/data"))) Read];
              fsp_glob_scan_max_depth := None |} in
  match as_legacy_permissions demo_host p with
  | Some roots =>
      fsp_entries (from_read_write_roots (legacy_read roots) (legacy_write roots))
      = [at_path (lit "/data") Read]
  | None => False
  end.
Proof. vm_compute. done. Qed.

Definition debug_text (_ : FileSystemPath demo_url) : str := [].
Definition debug_special_text (_ : FileSystemSpecialPath) : str := [].

Definition reader_profile : PermissionProfile demo_url :=
  Managed (ManagedRestricted [new_entry (Special Root) Read; at_path (lit "/ws/src") Write] None) NetworkEnabled.

Definition common_profile : PermissionProfile demo_url :=
  match intersect_effective_permission_profiles demo_host any_glob exact_glob debug_text debug_special_text
          ws_profile reader_profile (lit "/ws") with
  | Done q => q
  | _ => Disabled
  end.

Lemma profile_intersection_sound_witness :
  (network_sandbox_policy common_profile = NetworkEnabled →
     network_sandbox_policy ws_profile = NetworkEnabled
     ∧ network_sandbox_policy reader_profile = NetworkEnabled)
  ∧ resolve_access (file_system_sandbox_policy common_profile) (uri (lit "/ws/src/a")) demo_ctx = Write
  ∧ resolve_access (file_system_sandbox_policy common_profile) (uri (lit "/ws/a")) demo_ctx = Read
  ∧ resolve_access (file_system_sandbox_policy common_profile) (uri (lit "/ws/secret/k")) demo_ctx = Deny.
Proof.
  assert (intersect_effective_permission_profiles demo_host any_glob exact_glob debug_text debug_special_text
            ws_profile reader_profile (lit "/ws") = Done common_profile) as Hq by by_computation.
  split; [|split_and!; by_computation].
  exact (proj1 (profile_intersection_sound demo_host any_glob exact_glob debug_text debug_special_text
           ws_profile reader_profile (lit "/ws") common_profile Hq)).
Defined.

(** ** Patches *)

#[local] Instance demo_path_ops : PathUriOps demo_url := path_uri_ops.

Definition ws_files : gmap demo_url (fs_entry demo_url) :=
  {[ uri (lit "/ws/a.txt") := FsText (lit "one" ++ [nl] ++ lit "two" ++ [nl]);
     uri (lit "/ws/c.txt") := FsText (lit "bye"); uri (lit "/etc/passwd") := FsText (lit "root") ]}.

Definition plain_diff (_ _ : str) (_ : nat) : str := [].

Definition ws_args : ApplyPatchArgs :=
  {| args_patch := demo_patch; args_hunks := demo_hunks; args_workdir := None;
     args_environment_id := None |}.

(** The verified patch, and its application. *)
Definition ws_action : ApplyPatchAction demo_url :=
  match try_verify_apply_patch_args plain_diff ws_args (uri (lit "/ws")) NormalizeToLf ws_files with
  | Done action => action
  | _ => {| action_changes := ∅; action_update_file_mode := NormalizeToLf; action_patch := [];
            action_cwd := du [] |}
  end.

Definition ws_applied :=
  apply_hunks_to_files
    {| opt_update_file_mode := action_update_file_mode ws_action; opt_follow_symlinks := true |}
    (action_cwd ws_action) ws_files (args_hunks ws_args) (@empty_delta demo_url).

Definition ws_affected : AffectedPaths := match ws_applied.2 with Done aff => aff | _ => no_paths end.

Lemma ws_verified :
  try_verify_apply_patch_args plain_diff ws_args (uri (lit "/ws")) NormalizeToLf ws_files = Done ws_action.
Proof. by_computation. Qed.

Lemma ws_approved :
  assess_patch_safety demo_host Linux ws_action Never ws_profile ws_policy (uri (lit "/ws")) LevelDisabled
  = AutoApprove.
Proof. by_computation. Qed.

Lemma ws_done : ws_applied = (ws_applied.1.1, ws_applied.1.2, Done ws_affected).
Proof. by_computation. Qed.

Lemma passwd_protected : ¬ may_write demo_host ws_policy (uri (lit "/ws")) (uri (lit "/etc/passwd")).
Proof.
  assert (has_full_disk_write_access demo_host ws_policy = false) as Hfull by by_computation.
  assert (to_abs_path (host_home demo_host) (uri (lit "/ws")) = Ok (lit "/ws")) as Hc by by_computation.
  assert (to_abs_path (host_home demo_host) (uri (lit "/etc/passwd")) = Ok (lit "/etc/passwd")) as Hq
    by by_computation.
  assert (can_write_path_with_cwd demo_host ws_policy (normalize_path (lit "/etc/passwd")) (lit "/ws") = false)
    as Hw by by_computation.
  intros [H|(cwd & abs & H1 & H2 & H3)]; [congruence|]. rewrite Hc in H1. rewrite Hq in H2.
  injection H1 as <-. injection H2 as <-. congruence.
Qed.

Lemma auto_approved_patch_is_confined_witness :
  action_changes ws_action ≠ ∅
  ∧ ∀ p c q, action_changes ws_action !! p = Some c → written p c q →
      may_write demo_host ws_policy (uri (lit "/ws")) q.
Proof.
  split; [vm_compute; discriminate|].
  exact (proj1 (proj2 (proj2 (auto_approved_patch_is_confined demo_host Linux ws_action Never ws_profile
           ws_policy (uri (lit "/ws")) LevelDisabled ws_approved)))).
Defined.

(** The same patch is rejected under a read-only policy, and needs the user when
    approval may be asked for. *)
Example rejected_patch :
  assess_patch_safety demo_host Linux ws_action Never ws_profile read_only (uri (lit "/ws")) LevelDisabled
    = Reject PATCH_REJECTED_READ_ONLY_REASON
  ∧ assess_patch_safety demo_host Linux ws_action OnRequest ws_profile read_only (uri (lit "/ws")) LevelDisabled
    = AskUser
  ∧ assess_patch_safety demo_host OtherOs ws_action Never ws_profile ws_policy (uri (lit "/ws")) LevelDisabled
    = Reject PATCH_REJECTED_OUTSIDE_PROJECT_REASON.
Proof. split_and!; by_computation. Qed.

Lemma ws_names p c x :
  action_changes ws_action !! p = Some c → written p c x → is_link (ws_files !! x) = false.
Proof.
  assert (forallb (λ '(p, c), negb (is_link (ws_files !! p))
    && negb (is_some_and (move_target c) (λ q, is_link (ws_files !! q))))
    (map_to_list (action_changes ws_action)) = true) as Hall by by_computation.
  rewrite forallb_forall in Hall. specialize (Hall (p, c)).
  rewrite <- list_elem_of_In, elem_of_map_to_list in Hall. intros Hp Hx.
  apply Hall, andb_true_iff in Hp as [H1%negb_true_iff H2%negb_true_iff].
  destruct Hx as [->|Hx]; [done|]. by rewrite Hx in H2.
Qed.

Lemma approved_patch_leaves_protected_files_witness :
  entry_at ws_applied.1.1 (uri (lit "/etc/passwd")) = entry_at ws_files (uri (lit "/etc/passwd"))
  ∧ entry_at ws_applied.1.1 (uri (lit "/ws/new.txt")) = Some (FsText (lit "hello" ++ [nl])).
Proof.
  split; [|by_computation].
  apply (approved_patch_leaves_protected_files demo_host Linux plain_diff ws_args
           (uri (lit "/ws")) (uri (lit "/ws")) (uri (lit "/etc/passwd")) NormalizeToLf ws_files
           ws_applied.1.1 ws_action Never ws_profile ws_policy LevelDisabled ws_applied.1.2 ws_affected
           ws_verified ws_approved ws_done passwd_protected).
  intros p c x Hp Hx Ht. pose proof (constrained_writes demo_host ws_action ws_policy (uri (lit "/ws")) p c x)
    as Hmay. apply passwd_protected.
  assert (uri (lit "/etc/passwd") = x) as -> by (by eapply touches_no_link, Ht; eapply ws_names).
  apply Hmay; [by_computation|done|done].
Defined.

(** A symbolic link inside the workspace to a protected file: the patch that
    writes through it is approved all the same, and without a platform sandbox
    the protected file changes. *)
Definition linked_files : gmap demo_url (fs_entry demo_url) :=
  <[uri (lit "/ws/new.txt") := FsLink (uri (lit "/etc/passwd"))]> ws_files.

Example link_escapes_approval :
  match try_verify_apply_patch_args plain_diff ws_args (uri (lit "/ws")) NormalizeToLf linked_files with
  | Done action =>
      assess_patch_safety demo_host Linux action Never ws_profile ws_policy (uri (lit "/ws")) LevelDisabled
        = AutoApprove
      ∧ (apply_hunks_to_files
           {| opt_update_file_mode := action_update_file_mode action; opt_follow_symlinks := true |}
           (action_cwd action) linked_files (args_hunks ws_args) (@empty_delta demo_url)).1.1
          !! uri (lit "/etc/passwd") = Some (FsText (lit "hello" ++ [nl]))
  | _ => False
  end.
Proof. vm_compute. split; reflexivity. Qed.
