(* ===== verification/ContextFragments.v ===== *)
(** * Context fragments

    Text that the harness adds to the conversation is recognised by its markers:
    [codex-rs/context-fragments/src/fragment.rs] and [additional_context.rs],
    the fragments of [codex-rs/core/src/context], the classification of messages
    in [contextual_user_message.rs] and [event_mapping.rs], and the merging of
    fragments into messages ([context_manager/updates.rs]).  The XML reader of
    hook prompts and fresh identifiers are parameters. *)

From S2P Require Import Prelude RustStr Truncation ResponseItems.

(** ** Markers ([fragment.rs]) *)

(** [s.get(..n)] and [s.get(n..)] are [slice_to] and [slice_from]. *)
Definition starts_with_ignore_case (s p : str) : bool :=
  match slice_to s (byte_len p) with
  | Some candidate => eq_ignore_ascii_case candidate p
  | None => false
  end.

Definition ends_with_ignore_case (s p : str) : bool :=
  match slice_from s (byte_len s - byte_len p) with
  | Some candidate => eq_ignore_ascii_case candidate p
  | None => false
  end.

Definition matches_marked_text (start_marker end_marker text : str) : bool :=
  if is_empty start_marker || is_empty end_marker then false
  else
    let trimmed := trim_start text in
    starts_with_ignore_case trimmed start_marker
    && ends_with_ignore_case (trim_end trimmed) end_marker.

(** [ContextualUserFragment::render]. *)
Definition render_marked (start_marker end_marker body : str) : str :=
  if is_empty start_marker && is_empty end_marker then body
  else start_marker ++ body ++ end_marker.

(** The [type_markers] of the fragments that are recognised by them. *)
Definition user_instructions_markers : str * str :=
  (lit "# AGENTS.md instructions", lit "</INSTRUCTIONS>").
Definition environment_context_markers : str * str :=
  (lit "<environment_context>", lit "</environment_context>").
Definition skill_instructions_markers : str * str := (lit "<skill>", lit "</skill>").
Definition user_shell_command_markers : str * str :=
  (lit "<user_shell_command>", lit "</user_shell_command>").
Definition turn_aborted_markers : str * str := (lit "<turn_aborted>", lit "</turn_aborted>").
Definition subagent_notification_markers : str * str :=
  (lit "<subagent_notification>", lit "</subagent_notification>").
Definition recommended_plugins_markers : str * str :=
  (lit "<recommended_plugins>", lit "</recommended_plugins>").
Definition model_switch_markers : str * str := (lit "<model_switch>", lit "</model_switch>").
Definition persistent_mode_markers : str * str :=
  (lit "<persistent_mode>", lit "</persistent_mode>").

Definition matches_markers (markers : str * str) (text : str) : bool :=
  matches_marked_text markers.1 markers.2 text.

(** ** Additional context ([additional_context.rs]) *)

Definition MAX_ADDITIONAL_CONTEXT_VALUE_TOKENS : N := 1000.
Definition ADDITIONAL_CONTEXT_START_MARKER_PREFIX : str := lit "<external_".

(** [AdditionalContextUserFragment::matches_text]; its end marker is [>]. *)
Definition additional_context_matches_text (text : str) : bool :=
  match strip_prefix ADDITIONAL_CONTEXT_START_MARKER_PREFIX (trim text) with
  | None => false
  | Some rest =>
      match split_once 62 rest with
      | None => false
      | Some (key, value_and_close) =>
          ends_with value_and_close (lit "</external_" ++ key ++ lit ">")
      end
  end.

Definition additional_context_body (key value : str) : option str :=
  '(value, _) ← truncate_middle_with_token_budget value MAX_ADDITIONAL_CONTEXT_VALUE_TOKENS;
  Some (key ++ lit ">" ++ value ++ lit "</external_" ++ key).

(** ** Internal context ([internal_model_context.rs]) *)

Definition CONTEXT_START_MARKER : str := lit "<codex_internal_context".
Definition CONTEXT_END_MARKER : str := lit "</codex_internal_context>".
Definition quote : char := 34%N.
Definition SOURCE_ATTR_START : str := lit " source=" ++ [quote].
Definition SOURCE_ATTR_END : str := quote :: lit ">".

Definition matches_legacy_goal_context (text : str) : bool :=
  starts_with text (lit "<goal_context>") && ends_with text (lit "</goal_context>").

Definition is_valid_source (source : str) : bool :=
  match source with
  | [] => false
  | first :: chars =>
      is_ascii_lowercase first
      && forallb (λ ch, is_ascii_lowercase ch || is_ascii_digit ch || (ch =? 95)%N) chars
  end.

(** [str::split_once] with a string. *)
Definition split_once_str (sep s : str) : option (str * str) :=
  i ← find_str sep s; Some (take i s, drop (i + length sep) s).

(** [InternalModelContextFragment::matches_text]. *)
Definition internal_context_matches_text (text : str) : bool :=
  let trimmed := trim text in
  if matches_legacy_goal_context trimmed then true
  else
    match strip_prefix CONTEXT_START_MARKER trimmed ≫= strip_prefix SOURCE_ATTR_START with
    | None => false
    | Some rest =>
        match split_once_str SOURCE_ATTR_END rest with
        | None => false
        | Some (source, body_and_close) =>
            is_valid_source source && ends_with body_and_close CONTEXT_END_MARKER
        end
    end.

Definition internal_context_body (source body : str) : str :=
  SOURCE_ATTR_START ++ source ++ SOURCE_ATTR_END ++ [nl] ++ body ++ [nl].

(** ** Warnings of old sessions *)

Definition legacy_process_limit_matches_text (text : str) : bool :=
  starts_with (trim text)
    (lit "Warning: The maximum number of unified exec processes you can keep open is").

Definition legacy_apply_patch_matches_text (text : str) : bool :=
  let trimmed := trim text in
  starts_with trimmed (lit "Warning: apply_patch was requested via ")
  && ends_with trimmed (lit "Use the apply_patch tool instead of exec_command.").

Definition legacy_model_mismatch_matches_text (text : str) : bool :=
  starts_with (trim text)
    (lit "Warning: Your account was flagged for potentially high-risk cyber activity").

(** ** Contextual messages ([contextual_user_message.rs], [event_mapping.rs]) *)

Definition CONTEXTUAL_USER_FRAGMENT_MATCHERS : list (str → bool) :=
  [matches_markers user_instructions_markers; matches_markers environment_context_markers;
   additional_context_matches_text; matches_markers skill_instructions_markers;
   matches_markers user_shell_command_markers; matches_markers turn_aborted_markers;
   matches_markers subagent_notification_markers; internal_context_matches_text;
   matches_markers recommended_plugins_markers; legacy_process_limit_matches_text;
   legacy_apply_patch_matches_text; legacy_model_mismatch_matches_text].

Definition is_standard_contextual_user_text (text : str) : bool :=
  existsb (λ matches_text, matches_text text) CONTEXTUAL_USER_FRAGMENT_MATCHERS.

Definition CONTEXTUAL_DEVELOPER_PREFIXES : list str :=
  lit <$> ["<permissions instructions>"; "Approved command prefix saved:"; "<model_switch>";
           "<managed_developer_instructions>"; "<persistent_mode>"; "<apps_instructions>";
           "<collaboration_mode>"; "<multi_agent_role>"; "<multi_agent_mode>";
           "<environments_instructions>"; "<git_attribution>"; "<plugins_instructions>";
           "<realtime_conversation>"; "<skills_instructions>"; "<tools>"; "<personality_spec>";
           "<token_budget>"; "<context_window>"; "<context_window_guidance>"; "<rollout_budget>"]%string.

Definition is_contextual_dev_fragment (content_item : ContentItem) : bool :=
  match content_item with
  | CInputText text =>
      existsb (starts_with_ignore_case (trim_start text)) CONTEXTUAL_DEVELOPER_PREFIXES
  | _ => false
  end.

Definition is_contextual_dev_message_content (message : list ContentItem) : bool :=
  existsb is_contextual_dev_fragment message.

Definition has_non_contextual_dev_message_content (message : list ContentItem) : bool :=
  existsb (λ content_item, negb (is_contextual_dev_fragment content_item)) message.

Record HookPromptFragment := { hook_text : str; hook_run_id : str }.
Record HookPromptItem := { hook_item_id : str; hook_fragments : list HookPromptFragment }.

(** ** The items shown to the user

    [TurnItem] with the variants that [parse_turn_item] makes. *)
Inductive UserInput :=
| UText (text : str)
| UImage (image_url : str) (detail : option ImageDetail)
| UAudio (audio_url : str).

Inductive TurnItem :=
| TUserMessage (id : str) (content : list UserInput)
| THookPrompt (hook : HookPromptItem)
| TAgentMessage (id : str) (content : list str) (phase : option MessagePhase)
| TReasoning (id : str) (summary_text raw_content : list str)
| TWebSearch (id query : str) (action : WebSearchAction)
| TImageGeneration (id status : str) (revised_prompt : option str) (result : str).

(** [protocol/src/models.rs]: the tags around attached media. *)
Definition is_image_open_tag_text (text : str) : bool := bool_decide (text = lit "<image>").
Definition is_image_close_tag_text (text : str) : bool := bool_decide (text = lit "</image>").
Definition is_audio_open_tag_text (text : str) : bool := bool_decide (text = lit "<audio>").
Definition is_audio_close_tag_text (text : str) : bool := bool_decide (text = lit "</audio>").
Definition is_local_image_open_tag_text (text : str) : bool :=
  is_some_and (strip_prefix (lit "<image name=") text) (λ rest, ends_with rest (lit ">")).
Definition is_local_audio_open_tag_text (text : str) : bool :=
  is_some_and (strip_prefix (lit "<audio name=") text) (λ rest, ends_with rest (lit ">")).
Definition is_local_image_close_tag_text (text : str) : bool := is_image_close_tag_text text.
Definition is_local_audio_close_tag_text (text : str) : bool := is_audio_close_tag_text text.

Definition is_image_item (c : option ContentItem) : bool :=
  match c with Some (CInputImage _ _) => true | _ => false end.
Definition is_audio_item (c : option ContentItem) : bool :=
  match c with Some (CInputAudio _) => true | _ => false end.

(** A text that only labels the attachment after or before it. *)
Definition is_media_label (text : str) (prev next : option ContentItem) : bool :=
  ((is_local_image_open_tag_text text || is_image_open_tag_text text) && is_image_item next)
  || ((is_local_image_close_tag_text text || is_image_close_tag_text text) && is_image_item prev)
  || ((is_local_audio_open_tag_text text || is_audio_open_tag_text text) && is_audio_item next)
  || ((is_local_audio_close_tag_text text || is_audio_close_tag_text text) && is_audio_item prev).

(** The loop over the content of a message; [prev] is the item before. *)
Fixpoint user_inputs (prev : option ContentItem) (message : list ContentItem) : list UserInput :=
  match message with
  | [] => []
  | content_item :: message =>
      match content_item with
      | CInputText text =>
          if is_media_label text prev (head message) then [] else [UText text]
      | CInputImage image_url detail => [UImage image_url detail]
      | CInputAudio audio_url => [UAudio audio_url]
      | COutputText _ => []
      end ++ user_inputs (Some content_item) message
  end.

Definition agent_texts (message : list ContentItem) : list str :=
  omap (λ content_item,
    match content_item with CInputText text | COutputText text => Some text | _ => None end) message.

(** [web_search.rs]. *)
Definition search_action_detail (query : option str) (queries : option (list str)) : str :=
  match query with
  | Some (_ :: _ as q) => q
  | _ =>
      let first := default [] (queries ≫= head) in
      if is_some_and queries (λ queries, 1 <? length queries) && negb (is_empty first)
      then first ++ lit " ..." else first
  end.

Definition web_search_action_detail (action : WebSearchAction) : str :=
  match action with
  | Search query queries => search_action_detail query queries
  | OpenPage url => default [] url
  | FindInPage (Some url) (Some pattern) => lit "'" ++ pattern ++ lit "' in " ++ url
  | FindInPage None (Some pattern) => lit "'" ++ pattern ++ lit "'"
  | FindInPage (Some url) None => url
  | FindInPage None None => []
  | WOther => []
  end.

Section classification.
Context {J : JsonTypes}.
(** [quick_xml]: the attribute and the text of a [hook_prompt] element. *)
Context (from_xml : str → option HookPromptFragment).

Definition parse_hook_prompt_fragment (text : str) : option HookPromptFragment :=
  fragment ← from_xml (trim text);
  if is_empty (trim (hook_run_id fragment)) then None else Some fragment.

Definition is_contextual_user_fragment (content_item : ContentItem) : bool :=
  match content_item with
  | CInputText text =>
      negb (is_none (parse_hook_prompt_fragment text)) || is_standard_contextual_user_text text
  | _ => false
  end.

Definition is_contextual_user_message_content (message : list ContentItem) : bool :=
  existsb is_contextual_user_fragment message.

(** A kind that may stand for input of the user. *)
Definition is_user_kind (kind : str) : bool :=
  starts_with kind (lit "user.")
  || existsb (λ k, bool_decide (kind = k))
       [[]; lit "unknown"; lit "images.preparation_error"; lit "images.unsupported";
        lit "audio.unsupported"].

Definition is_user_authorization_message (i : ResponseItem) : bool :=
  match i with
  | Message _ role content _ meta =>
      bool_decide (role = lit "user")
      && match meta ≫= content_item_kinds with
         | None => true
         | Some kinds =>
             is_empty kinds || negb (length kinds =? length content) || existsb is_user_kind kinds
         end
  | _ => false
  end.

(** The loop of [parse_visible_hook_prompt_message]. *)
Fixpoint visible_hook_fragments (content : list ContentItem) : option (list HookPromptFragment) :=
  match content with
  | [] => Some []
  | CInputText text :: content =>
      match parse_hook_prompt_fragment text with
      | Some fragment => cons fragment <$> visible_hook_fragments content
      | None =>
          if is_standard_contextual_user_text text then visible_hook_fragments content else None
      end
  | _ :: _ => None
  end.

(** [new_id] is the identifier a new item gets. *)
Definition parse_visible_hook_prompt_message (new_id : str) (id : option str)
    (content : list ContentItem) : option HookPromptItem :=
  fragments ← visible_hook_fragments content;
  if is_empty fragments then None
  else Some {| hook_item_id := default new_id id; hook_fragments := fragments |}.

Definition parse_user_message (new_id : str) (message : list ContentItem) : option TurnItem :=
  if is_contextual_user_message_content message then None
  else Some (TUserMessage new_id (user_inputs None message)).

Definition parse_agent_message (new_id : str) (id : option str) (message : list ContentItem)
    (phase : option MessagePhase) : TurnItem :=
  TAgentMessage (default new_id id) (agent_texts message) phase.

Definition parse_turn_item (new_id : str) (i : ResponseItem) : option TurnItem :=
  match i with
  | Message id role content phase _ =>
      if bool_decide (role = lit "user") then
        match parse_visible_hook_prompt_message new_id id content with
        | Some hook => Some (THookPrompt hook)
        | None => parse_user_message new_id content
        end
      else if bool_decide (role = lit "assistant")
      then Some (parse_agent_message new_id id content phase)
      else None
  | Reasoning id summary content _ _ =>
      Some (TReasoning (default [] id)
              ((λ '(SummaryText text), text) <$> summary)
              ((λ entry, match entry with ReasoningText text | RText text => text end)
                 <$> default [] content))
  | WebSearchCall id _ action _ =>
      let '(action, query) :=
        match action with
        | Some action => (action, web_search_action_detail action)
        | None => (WOther, [])
        end in
      Some (TWebSearch (default [] id) query action)
  | ImageGenerationCall id status revised_prompt result _ =>
      id ← id; Some (TImageGeneration id status revised_prompt result)
  | _ => None
  end.

(** ** Merging fragments into messages ([updates.rs]) *)

Record RenderedFragment := { rf_role : str; rf_content : AnnotatedContent }.

(** A fragment as the merge sees it. *)
Record fragment := { fragment_rendered : RenderedFragment; requires_separate_message : bool }.

Inductive MessageGroup := Standalone | Mergeable.

#[global] Instance MessageGroup_eq_dec : EqDecision MessageGroup.
Proof. solve_decision. Defined.

Definition build_rendered_message (fragments : list RenderedFragment) : option ResponseItem :=
  first ← head fragments;
  Some (Message None (rf_role first) (ac_content ∘ rf_content <$> fragments) None
          (Some (set_kinds (Some (ac_kind ∘ rf_content <$> fragments)) default_passthrough))).

Definition group_of (f : fragment) : MessageGroup :=
  if requires_separate_message f then Standalone else Mergeable.

(** The loop body; the messages are kept with the last one first. *)
Definition merge_fragment (messages : list (str * MessageGroup * list RenderedFragment)) (f : fragment)
    : list (str * MessageGroup * list RenderedFragment) :=
  let group := group_of f in
  let rendered := fragment_rendered f in
  let role := rf_role rendered in
  match messages with
  | (previous_role, previous_group, rendered_fragments) :: rest =>
      if bool_decide (previous_role = role) && bool_decide (previous_group = Mergeable)
         && bool_decide (group = Mergeable)
      then (previous_role, previous_group, rendered_fragments ++ [rendered]) :: rest
      else (role, group, [rendered]) :: messages
  | [] => [(role, group, [rendered])]
  end.

Definition merge_contextual_fragments (fragments : list fragment) : list ResponseItem :=
  omap (λ '(_, _, fragments), build_rendered_message fragments)
    (reverse (foldl merge_fragment [] fragments)).
End classification.

(** ** Rendered fragments are recognised *)

Lemma eq_ignore_ascii_case_refl s : eq_ignore_ascii_case s s = true.
Proof. unfold eq_ignore_ascii_case. by apply bool_decide_eq_true. Qed.

Lemma starts_with_ignore_case_app p s : starts_with_ignore_case (p ++ s) p = true.
Proof. unfold starts_with_ignore_case. rewrite slice_to_app. apply eq_ignore_ascii_case_refl. Qed.

Lemma ends_with_ignore_case_app p s : ends_with_ignore_case (s ++ p) p = true.
Proof.
  unfold ends_with_ignore_case. rewrite byte_len_app, N.add_sub, slice_from_app.
  apply eq_ignore_ascii_case_refl.
Qed.

(** A marker that [trim] leaves alone on both sides. *)
Definition marker_ok (m : str) : Prop := m ≠ [] ∧ trim_start m = m ∧ trim_end m = m.

Lemma trim_start_app_keep m s : trim_start m = m → m ≠ [] → trim_start (m ++ s) = m ++ s.
Proof.
  destruct m as [|c m]; [done|]. intros H _. destruct (is_whitespace c) eqn:Hc.
  - unfold trim_start in H. simpl in H. rewrite Hc in H.
    destruct (trim_start_matches_suffix is_whitespace m) as (l & Hl & _). rewrite H in Hl.
    apply (f_equal length) in Hl. rewrite length_app in Hl. simpl in Hl. lia.
  - by apply trim_start_cons.
Qed.

Lemma trim_marked a body b : marker_ok a → marker_ok b → trim (a ++ body ++ b) = a ++ body ++ b.
Proof.
  intros (Ha & Ha' & _) (Hb & _ & Hb'). unfold trim. rewrite trim_start_app_keep by done.
  rewrite app_assoc. by apply trim_end_app_keep.
Qed.

Lemma render_marked_eq a b body : a ≠ [] → render_marked a b body = a ++ body ++ b.
Proof. intros Ha. unfold render_marked. by rewrite (proj2 (is_empty_false a)). Qed.

Lemma marked_text_matches a body b :
  marker_ok a → marker_ok b → matches_marked_text a b (render_marked a b body) = true.
Proof.
  intros Ha Hb. assert (a ≠ []) as Ha1 by apply Ha. assert (b ≠ []) as Hb1 by apply Hb.
  rewrite render_marked_eq by done. unfold matches_marked_text.
  rewrite !(proj2 (is_empty_false _)) by done. simpl.
  pose proof (trim_marked a body b Ha Hb) as Ht. unfold trim in Ht.
  rewrite trim_start_app_keep in * by apply Ha. rewrite Ht.
  rewrite starts_with_ignore_case_app, app_assoc. apply ends_with_ignore_case_app.
Qed.

Lemma split_once_app c a b : c ∉ a → split_once c (a ++ c :: b) = Some (a, b).
Proof.
  induction a as [|x a IH]; intros Hc; simpl.
  { by rewrite N.eqb_refl. }
  apply not_elem_of_cons in Hc as [Hx Hc].
  destruct (N.eqb_spec x c) as [->|]; [done|]. by rewrite IH.
Qed.

Lemma find_str_unfold p c s :
  find_str p (c :: s) = if starts_with (c :: s) p then Some 0 else S <$> find_str p s.
Proof. done. Qed.

Lemma find_str_first c p a b : c ∉ a → find_str (c :: p) (a ++ (c :: p) ++ b) = Some (length a).
Proof.
  induction a as [|x a IH]; intros Hc.
  { change ([] ++ (c :: p) ++ b) with (c :: p ++ b). rewrite find_str_unfold.
    by rewrite (proj2 (starts_with_spec _ _)) by by exists b. }
  apply not_elem_of_cons in Hc as [Hx Hc]. rewrite <- app_comm_cons, find_str_unfold.
  assert (starts_with (x :: a ++ (c :: p) ++ b) (c :: p) = false) as ->.
  { apply not_true_is_false. intros (r & Hr)%starts_with_spec. by injection Hr as -> _. }
  by rewrite IH.
Qed.

(** The fragments of user messages that are known by their markers. *)
Definition user_fragment_markers : list (str * str) :=
  [user_instructions_markers; environment_context_markers; skill_instructions_markers;
   user_shell_command_markers; turn_aborted_markers; subagent_notification_markers;
   recommended_plugins_markers].

(** Those of developer messages that a rollback rebuilds. *)
Definition rebuilt_developer_markers : list (str * str) :=
  [model_switch_markers; persistent_mode_markers].

Lemma user_fragment_markers_ok :
  Forall (λ m, marker_ok m.1 ∧ marker_ok m.2) user_fragment_markers.
Proof. repeat constructor; by vm_compute. Qed.

Lemma user_markers_matched m text :
  m ∈ user_fragment_markers → matches_markers m text = true →
  is_standard_contextual_user_text text = true.
Proof.
  intros Hm Ht. apply existsb_exists. exists (matches_markers m). split; [|done].
  unfold user_fragment_markers in Hm. rewrite !elem_of_cons, elem_of_nil in Hm.
  apply list_elem_of_In. unfold CONTEXTUAL_USER_FRAGMENT_MATCHERS. rewrite !elem_of_cons.
  destruct_or! Hm; subst; tauto.
Qed.

Lemma additional_context_recognised key value body :
  62%N ∉ key → additional_context_body key value = Some body →
  additional_context_matches_text
    (render_marked ADDITIONAL_CONTEXT_START_MARKER_PREFIX (lit ">") body) = true.
Proof.
  intros Hkey Hbody. unfold additional_context_body in Hbody.
  destruct (truncate_middle_with_token_budget _ _) as [[v o]|]; [|done]. injection Hbody as <-.
  rewrite render_marked_eq by done. unfold additional_context_matches_text.
  rewrite trim_marked by (repeat split; by vm_compute). rewrite strip_prefix_app.
  rewrite <- !app_assoc. change (lit ">") with [62%N]. simpl.
  rewrite split_once_app by done. apply ends_with_spec. exists v. by rewrite <- !app_assoc.
Qed.

Lemma valid_source_no_quote source : is_valid_source source = true → quote ∉ source.
Proof.
  destruct source as [|c source]; [done|]. simpl. intros [Hc Hs]%andb_true_iff.
  rewrite forallb_forall in Hs. intros [<-|Hin]%elem_of_cons; [by vm_compute in Hc|].
  apply list_elem_of_In, Hs in Hin. by vm_compute in Hin.
Qed.

Lemma internal_context_recognised source body :
  is_valid_source source = true →
  internal_context_matches_text
    (render_marked CONTEXT_START_MARKER CONTEXT_END_MARKER (internal_context_body source body)) = true.
Proof.
  intros Hs. rewrite render_marked_eq by done.
  unfold internal_context_matches_text, internal_context_body. rewrite trim_marked by (repeat split; by vm_compute).
  destruct (matches_legacy_goal_context _); [done|]. rewrite strip_prefix_app.
  change (Some ?x ≫= ?f) with (f x). cbv beta. rewrite <- !app_assoc, strip_prefix_app.
  unfold split_once_str. unfold SOURCE_ATTR_END.
  rewrite find_str_first by by apply valid_source_no_quote.
  change (Some ?x ≫= ?f) with (f x). cbv beta.
  rewrite take_app_length, Hs, drop_app_add.
  rewrite (drop_app_length (quote :: lit ">")). apply ends_with_spec.
  exists ([nl] ++ body ++ [nl]). by rewrite <- !app_assoc.
Qed.

(** Context that the harness renders is recognised when the history is read
    again, whatever its body is: fragments with markers, external context whose
    key has no [>], internal context with a valid source, and the developer
    fragments that a rollback takes out. *)
Theorem rendered_context_recognised {J : JsonTypes} from_xml :
  (∀ m body, m ∈ user_fragment_markers →
     is_contextual_user_fragment from_xml (CInputText (render_marked m.1 m.2 body)) = true)
  ∧ (∀ key value body, 62%N ∉ key → additional_context_body key value = Some body →
     is_contextual_user_fragment from_xml
       (CInputText (render_marked ADDITIONAL_CONTEXT_START_MARKER_PREFIX (lit ">") body)) = true)
  ∧ (∀ source body, is_valid_source source = true →
     is_contextual_user_fragment from_xml
       (CInputText (render_marked CONTEXT_START_MARKER CONTEXT_END_MARKER
                      (internal_context_body source body))) = true)
  ∧ (∀ m body, m ∈ rebuilt_developer_markers →
     matches_markers m (render_marked m.1 m.2 body) = true
     ∧ is_contextual_dev_fragment (CInputText (render_marked m.1 m.2 body)) = true).
Proof.
  assert (∀ text, is_standard_contextual_user_text text = true →
    is_contextual_user_fragment from_xml (CInputText text) = true) as Hstd
    by (intros text H; simpl; by rewrite H, orb_true_r).
  split_and!.
  - intros m body Hm. apply Hstd. eapply user_markers_matched; [done|].
    pose proof user_fragment_markers_ok as Hok. rewrite Forall_forall in Hok.
    destruct (Hok m Hm). by apply marked_text_matches.
  - intros key value body Hkey Hbody. apply Hstd, existsb_exists.
    exists additional_context_matches_text. split; [simpl; tauto|].
    by eapply additional_context_recognised.
  - intros source body Hs. apply Hstd, existsb_exists.
    exists internal_context_matches_text. split; [simpl; tauto|].
    by apply internal_context_recognised.
  - intros m body Hm. unfold rebuilt_developer_markers in Hm.
    rewrite !elem_of_cons, elem_of_nil in Hm. destruct Hm as [->|[->|[]]].
    + split; [apply marked_text_matches; repeat split; by vm_compute|].
      apply existsb_exists. exists (lit "<model_switch>"). split; [simpl; tauto|].
      rewrite render_marked_eq, trim_start_app_keep by by vm_compute.
      apply starts_with_ignore_case_app.
    + split; [apply marked_text_matches; repeat split; by vm_compute|].
      apply existsb_exists. exists (lit "<persistent_mode>"). split; [simpl; tauto|].
      rewrite render_marked_eq, trim_start_app_keep by by vm_compute.
      apply starts_with_ignore_case_app.
Qed.

(** ** What the user is shown *)

Section shown.
Context {J : JsonTypes} (from_xml : str → option HookPromptFragment).

Lemma visible_hook_contextual content fragments :
  visible_hook_fragments from_xml content = Some fragments → fragments ≠ [] →
  is_contextual_user_message_content from_xml content = true.
Proof.
  destruct content as [|[text|? ?|?|?] content]; simpl; intros H Hne; try done;
    [by injection H as <-|].
  destruct (parse_hook_prompt_fragment _ _); [done|].
  by destruct (is_standard_contextual_user_text text).
Qed.

(** A message of the user is shown as such exactly when it is not contextual. *)
Lemma user_message_shown new_id id content phase meta :
  (∃ inputs, parse_turn_item from_xml new_id (Message id (lit "user") content phase meta)
             = Some (TUserMessage new_id inputs))
  ↔ is_contextual_user_message_content from_xml content = false.
Proof.
  unfold parse_turn_item. rewrite bool_decide_eq_true_2 by done.
  unfold parse_visible_hook_prompt_message, parse_user_message.
  destruct (visible_hook_fragments from_xml content) as [[|f fs]|] eqn:Hv; simpl.
  - destruct (is_contextual_user_message_content _ _); naive_solver.
  - rewrite (visible_hook_contextual _ _ Hv) by done. naive_solver.
  - destruct (is_contextual_user_message_content _ _); naive_solver.
Qed.
End shown.

(** ** Merged messages *)

Section merging.
Abbreviation group := (str * MessageGroup * list RenderedFragment)%type.

(** A group is a run of fragments of one role; a standalone fragment is alone. *)
Definition group_ok (g : group) : Prop :=
  let '(role, tag, frs) := g in
  frs ≠ [] ∧ Forall (λ r, rf_role r = role) frs ∧ (tag = Standalone → length frs = 1).

Definition flatten (gs : list group) : list (RenderedFragment * MessageGroup) :=
  mjoin ((λ '(_, tag, frs), (λ r, (r, tag)) <$> frs) <$> gs).

(** Two neighbours that could have been one message. *)
Definition mergeable (a b : group) : Prop :=
  a.1.1 = b.1.1 ∧ a.1.2 = Mergeable ∧ b.1.2 = Mergeable.

Definition not_mergeable (gs : list group) : Prop :=
  ∀ i a b, gs !! i = Some a → gs !! S i = Some b → ¬ mergeable a b.

Lemma merge_fragment_ok gs f :
  Forall group_ok gs → not_mergeable (reverse gs) →
  let gs' := merge_fragment gs f in
  Forall group_ok gs' ∧ not_mergeable (reverse gs')
  ∧ flatten (reverse gs') = flatten (reverse gs) ++ [(fragment_rendered f, group_of f)].
Proof.
  intros Hok Hadj. unfold merge_fragment.
  assert (∀ l, flatten (reverse gs ++ l) = flatten (reverse gs) ++ flatten l) as Hflat
    by (intros l; unfold flatten; by rewrite fmap_app, join_app).
  assert (not_mergeable (reverse gs ++ [(rf_role (fragment_rendered f), group_of f, [fragment_rendered f])])
          ∨ ∃ frs rest, gs = (rf_role (fragment_rendered f), Mergeable, frs) :: rest
                        ∧ group_of f = Mergeable) as Hcase.
  { destruct gs as [|[[role tag] frs] rest].
    { left. intros i a b _ Hb. by apply lookup_lt_Some in Hb; simpl in Hb; lia. }
    destruct (decide (role = rf_role (fragment_rendered f) ∧ tag = Mergeable ∧ group_of f = Mergeable))
      as [(-> & -> & ?)|Hno]; [right; eauto|]. left. rewrite reverse_cons in *.
    intros i a b Ha Hb Hm. destruct (decide (S i = length (reverse rest ++ [(role, tag, frs)]))) as [Hi|Hi].
    - rewrite list_lookup_middle in Hb by done. injection Hb as <-.
      rewrite length_app in Hi. simpl in Hi. rewrite lookup_app_l in Ha by (rewrite length_app; simpl; lia).
      rewrite list_lookup_middle in Ha by lia. injection Ha as <-. destruct Hm as (? & ? & ?). simpl in *. naive_solver.
    - assert (S i < length (reverse rest ++ [(role, tag, frs)])).
      { apply lookup_lt_Some in Hb. rewrite !length_app in *. simpl in *. lia. }
      rewrite lookup_app_l in Ha, Hb by lia. exact (Hadj i a b Ha Hb Hm). }
  destruct Hcase as [Hnew|(frs & rest & -> & Hg)].
  - assert (Forall group_ok ((rf_role (fragment_rendered f), group_of f, [fragment_rendered f]) :: gs))
      as Hok' by (constructor; [|done]; split_and!; [done|by constructor|done]).
    destruct gs as [|[[role tag] frs] rest].
    { split_and!; [done|by rewrite reverse_singleton|done]. }
    destruct (_ && _) eqn:Hc.
    + exfalso. rewrite !andb_true_iff, !bool_decide_eq_true in Hc. destruct Hc as [[-> ->] Hg].
      rewrite reverse_cons, Hg in Hnew.
      apply (Hnew (length (reverse rest)) (rf_role (fragment_rendered f), Mergeable, frs)
               (rf_role (fragment_rendered f), Mergeable, [fragment_rendered f])); [| |done].
      * by rewrite lookup_app_l, list_lookup_middle by (rewrite ?length_app; simpl; lia).
      * rewrite list_lookup_middle; [done|]. rewrite length_app. simpl. lia.
    + split_and!; [done|by rewrite reverse_cons|]. rewrite reverse_cons, Hflat. done.
  - rewrite Hg, !bool_decide_eq_true_2 by done. simpl. apply Forall_cons in Hok as [(Hne & Hrole & _) Hok].
    split_and!.
    + constructor; [|done]. split_and!; [by destruct frs| |done]. by apply Forall_app; split; [|constructor].
    + rewrite reverse_cons in *. intros i a b Ha Hb Hm.
      destruct (decide (S i = length (reverse rest))) as [Hi|Hi].
      * rewrite list_lookup_middle in Hb by done. injection Hb as <-.
        rewrite lookup_app_l in Ha by lia.
        apply (Hadj i a (rf_role (fragment_rendered f), Mergeable, frs)); [|by rewrite list_lookup_middle|done].
        by rewrite lookup_app_l by lia.
      * assert (S i < length (reverse rest)).
        { apply lookup_lt_Some in Hb. rewrite !length_app in *. simpl in *. lia. }
        rewrite lookup_app_l in Ha, Hb by lia. apply (Hadj i a b); [..|done]; by rewrite lookup_app_l by lia.
    + rewrite !reverse_cons. unfold flatten. rewrite !fmap_app, !join_app. simpl.
      by rewrite !app_nil_r, fmap_app, app_assoc.
Qed.

Lemma merge_fragments_ok fragments gs :
  Forall group_ok gs → not_mergeable (reverse gs) →
  let gs' := foldl merge_fragment gs fragments in
  Forall group_ok gs' ∧ not_mergeable (reverse gs')
  ∧ flatten (reverse gs')
    = flatten (reverse gs) ++ ((λ f, (fragment_rendered f, group_of f)) <$> fragments).
Proof.
  revert gs; induction fragments as [|f fragments IH]; intros gs Hok Hadj; simpl.
  { by rewrite app_nil_r. }
  destruct (merge_fragment_ok gs f Hok Hadj) as (Hok' & Hadj' & Hf).
  destruct (IH _ Hok' Hadj') as (? & ? & ->). split_and!; [done..|]. by rewrite Hf, <- app_assoc.
Qed.

Lemma build_rendered_group {J : JsonTypes} role tag frs :
  group_ok (role, tag, frs) →
  build_rendered_message frs
  = Some (Message None role (ac_content ∘ rf_content <$> frs) None
            (Some (set_kinds (Some (ac_kind ∘ rf_content <$> frs)) default_passthrough))).
Proof.
  intros (Hne & Hrole & _). destruct frs as [|r frs]; [done|]. unfold build_rendered_message. simpl.
  by apply Forall_cons in Hrole as [-> _].
Qed.

(** Merging context fragments keeps every fragment with its classification,
    in order: the messages are consecutive runs of fragments of one role, a
    standalone fragment is a message of its own, and no two neighbours that may
    be merged are left apart. *)
Theorem merged_fragments {J : JsonTypes} (fragments : list fragment) :
  ∃ gs, merge_contextual_fragments fragments
        = (λ '(role, _, frs),
             Message None role (ac_content ∘ rf_content <$> frs) None
               (Some (set_kinds (Some (ac_kind ∘ rf_content <$> frs)) default_passthrough))) <$> gs
    ∧ flatten gs = (λ f, (fragment_rendered f, group_of f)) <$> fragments
    ∧ Forall group_ok gs ∧ not_mergeable gs.
Proof.
  destruct (merge_fragments_ok fragments []) as (Hok & Hadj & Hflat); [done|by intros i a b|].
  exists (reverse (foldl merge_fragment [] fragments)). split_and!; [|done| |done].
  - unfold merge_contextual_fragments. apply Forall_reverse in Hok. clear Hadj Hflat. revert Hok.
    generalize (reverse (foldl merge_fragment [] fragments)). intros l Hok.
    induction Hok as [|[[role tag] frs] gs Hg _ IH]; [done|]. simpl.
    rewrite (build_rendered_group role tag) by done. simpl. by f_equal.
  - by apply Forall_reverse.
Qed.
End merging.
