(* ===== verification/TokenEstimates.v ===== *)
(** * Token usage and estimates

    The token counts of [codex-rs/protocol/src/protocol.rs] and the estimates of
    [codex-rs/core/src/context_manager/history.rs]: how many tokens an item of
    the history costs, with the payloads of inline media replaced by estimates.
    The length of an item's JSON, base64, the image decoder and the audio
    estimate are parameters; the caches of the source return what the functions
    they remember return. *)

From S2P Require Import Prelude RustStr Utf8 Truncation ResponseItems.

#[local] Open Scope Z_scope.

(** ** [i64] *)

Definition i64_min : Z := -9223372036854775808.

(** [i64::saturating_add] and the like. *)
Definition sat_i64 (z : Z) : Z := Z.max i64_min (Z.min i64_max z).

(** [i64::try_from(n).unwrap_or(i64::MAX)] of a [usize]. *)
Definition to_i64 (n : N) : Z := Z.min i64_max (Z.of_N n).

Definition wrap_i64 (z : Z) : Z :=
  (z + 9223372036854775808) mod 18446744073709551616 - 9223372036854775808.

Definition in_i64 (z : Z) : bool := (i64_min <=? z) && (z <=? i64_max).

(** The operators [+] and [-]: an overflow panics in builds with overflow
    checks and wraps in others. *)
Definition checked_i64 (overflow_checks : bool) (z : Z) : option Z :=
  if in_i64 z then Some z else if overflow_checks then None else Some (wrap_i64 z).

(** ** Usage reported by the provider *)

Section usage.
Context {J : JsonTypes} (overflow_checks : bool).

Record TokenUsage := {
  input_tokens : Z;
  cached_input_tokens : Z;
  cache_write_input_tokens : Z;
  output_tokens : Z;
  reasoning_output_tokens : Z;
  total_tokens : Z;
  codex_rollout_budget_units : option Number;
}.

Definition no_usage : TokenUsage :=
  {| input_tokens := 0; cached_input_tokens := 0; cache_write_input_tokens := 0;
     output_tokens := 0; reasoning_output_tokens := 0; total_tokens := 0;
     codex_rollout_budget_units := None |}.

(** [TokenUsage { total_tokens, ..TokenUsage::default() }]. *)
Definition total_only (total : Z) : TokenUsage :=
  {| input_tokens := 0; cached_input_tokens := 0; cache_write_input_tokens := 0;
     output_tokens := 0; reasoning_output_tokens := 0; total_tokens := total;
     codex_rollout_budget_units := None |}.

Definition is_zero (u : TokenUsage) : bool := total_tokens u =? 0.
Definition cached_input (u : TokenUsage) : Z := Z.max (cached_input_tokens u) 0.
Definition non_cached_input (u : TokenUsage) : option Z :=
  d ← checked_i64 overflow_checks (input_tokens u - cached_input u); Some (Z.max d 0).
Definition blended_total (u : TokenUsage) : option Z :=
  n ← non_cached_input u;
  s ← checked_i64 overflow_checks (n + Z.max (output_tokens u) 0); Some (Z.max s 0).

Definition add_assign (a b : TokenUsage) : option TokenUsage :=
  i ← checked_i64 overflow_checks (input_tokens a + input_tokens b);
  c ← checked_i64 overflow_checks (cached_input_tokens a + cached_input_tokens b);
  w ← checked_i64 overflow_checks (cache_write_input_tokens a + cache_write_input_tokens b);
  o ← checked_i64 overflow_checks (output_tokens a + output_tokens b);
  r ← checked_i64 overflow_checks (reasoning_output_tokens a + reasoning_output_tokens b);
  t ← checked_i64 overflow_checks (total_tokens a + total_tokens b);
  Some {| input_tokens := i; cached_input_tokens := c; cache_write_input_tokens := w;
          output_tokens := o; reasoning_output_tokens := r; total_tokens := t;
          codex_rollout_budget_units := codex_rollout_budget_units a |}.

Record TokenUsageInfo := {
  total_token_usage : TokenUsage;
  last_token_usage : TokenUsage;
  model_context_window : option Z;
}.

Definition append_last_usage (info : TokenUsageInfo) (last : TokenUsage) : option TokenUsageInfo :=
  total ← add_assign (total_token_usage info) last;
  Some {| total_token_usage := total; last_token_usage := last;
          model_context_window := model_context_window info |}.

Definition new_or_append (info : option TokenUsageInfo) (last : option TokenUsage)
    (window : option Z) : option (option TokenUsageInfo) :=
  match info, last with
  | None, None => Some None
  | _, _ =>
      let info :=
        default {| total_token_usage := no_usage; last_token_usage := no_usage;
                   model_context_window := window |} info in
      info ← match last with Some last => append_last_usage info last | None => Some info end;
      Some (Some (match window with
                  | Some _ =>
                      {| total_token_usage := total_token_usage info;
                         last_token_usage := last_token_usage info; model_context_window := window |}
                  | None => info
                  end))
  end.

Definition fill_to_context_window (info : TokenUsageInfo) (context_window : Z)
    : option TokenUsageInfo :=
  let previous_total := total_tokens (total_token_usage info) in
  delta ← checked_i64 overflow_checks (context_window - previous_total);
  Some {| total_token_usage := total_only context_window;
          last_token_usage := total_only (Z.max delta 0);
          model_context_window := Some context_window |}.

Definition full_context_window (context_window : Z) : option TokenUsageInfo :=
  fill_to_context_window
    {| total_token_usage := no_usage; last_token_usage := no_usage;
       model_context_window := Some context_window |} context_window.
End usage.
Arguments TokenUsage {J}.
Arguments TokenUsageInfo {J}.

(** ** Estimates of one item *)

Definition estimate_reasoning_length (encoded_len : N) : N := sat_mul encoded_len 3 / 4 - 650.

Definition estimate_encrypted_function_output_length (encoded_len : N) : N :=
  let n := sat_mul encoded_len 9 in
  (n / 16 + if n mod 16 =? 0 then 0 else 1)%N.

Definition RESIZED_IMAGE_BYTES_ESTIMATE : Z := 7373.
Definition ORIGINAL_IMAGE_PATCH_SIZE : Z := 32.
Definition ORIGINAL_IMAGE_MAX_PATCHES : N := 10000.

(** The payload of a base64 data URL of the media type.  Once the text starts
    with [data:] the first comma comes after it. *)
Definition parse_base64_data_url (url media_type_prefix : str) : option str :=
  match slice_to url (byte_len (lit "data:")) with
  | None => None
  | Some prefix =>
      if negb (eq_ignore_ascii_case prefix (lit "data:")) then None
      else
        '(metadata, payload) ← split_once 44 url;
        let metadata_parts := split_on 59 (drop (length (lit "data:")) metadata) in
        let mime_type := default [] (head metadata_parts) in
        let has_base64_marker :=
          existsb (λ part, eq_ignore_ascii_case part (lit "base64")) (tail metadata_parts) in
        match slice_to mime_type (byte_len media_type_prefix) with
        | None => None
        | Some prefix =>
            if negb (eq_ignore_ascii_case prefix media_type_prefix) then None
            else if has_base64_marker then Some payload else None
        end
  end.

Definition parse_base64_image_data_url (url : str) : option str :=
  parse_base64_data_url url (lit "image/").
Definition parse_base64_audio_data_url (url : str) : option str :=
  parse_base64_data_url url (lit "audio/").

Section estimates.
Context {J : JsonTypes}.
(** [serialized_json_bytes], [base64] and the width and height of an image that
    [image::load_from_memory] decodes ([u32] each). *)
Context (serialized_json_bytes : ResponseItem → option N) (base64_decode : str → option bytes)
  (image_size : bytes → option (N * N)) (estimate_audio_token_count : str → N).

Definition estimate_original_image_bytes (image_url : str) : option Z :=
  payload ← parse_base64_image_data_url image_url;
  decoded ← base64_decode payload;
  '(w, h) ← image_size decoded;
  let patch_size := ORIGINAL_IMAGE_PATCH_SIZE in
  let patches_wide := sat_i64 (Z.of_N w + sat_i64 (patch_size - 1)) / patch_size in
  let patches_high := sat_i64 (Z.of_N h + sat_i64 (patch_size - 1)) / patch_size in
  let patch_count := sat_i64 (patches_wide * patches_high) in
  let patch_count := if patch_count <? 0 then usize_max else Z.to_N patch_count in
  let patch_count := N.min patch_count ORIGINAL_IMAGE_MAX_PATCHES in
  Some (to_i64 (approx_bytes_for_tokens patch_count)).

Definition estimate_image_bytes (image_url : str) (detail : option ImageDetail) : Z :=
  match detail with
  | Some Original => default RESIZED_IMAGE_BYTES_ESTIMATE (estimate_original_image_bytes image_url)
  | _ => RESIZED_IMAGE_BYTES_ESTIMATE
  end.

(** The closures [accumulate]: payload and replacement bytes. *)
Definition accumulate_image (acc : Z * Z) (image_url : str) (detail : option ImageDetail) : Z * Z :=
  let '(payload_bytes, replacement_bytes) := acc in
  match parse_base64_image_data_url image_url with
  | Some payload =>
      (sat_i64 (payload_bytes + to_i64 (byte_len payload)),
       sat_i64 (replacement_bytes + estimate_image_bytes image_url detail))
  | None => acc
  end.

Definition accumulate_audio (acc : Z * Z) (audio_url : str) : Z * Z :=
  let '(payload_bytes, replacement_bytes) := acc in
  match parse_base64_audio_data_url audio_url with
  | Some payload =>
      (sat_i64 (payload_bytes + to_i64 (byte_len payload)),
       sat_i64 (replacement_bytes
                + to_i64 (approx_bytes_for_tokens (estimate_audio_token_count audio_url))))
  | None => acc
  end.

Definition accumulate_encrypted (acc : Z * Z) (encrypted_content : str) : Z * Z :=
  let '(payload_bytes, replacement_bytes) := acc in
  (sat_i64 (payload_bytes + to_i64 (byte_len encrypted_content)),
   sat_i64 (replacement_bytes
            + to_i64 (estimate_encrypted_function_output_length (byte_len encrypted_content)))).

(** The content items of a tool output. *)
Definition output_items (output : FunctionCallOutputPayload) : list FunctionCallOutputContentItem :=
  match body output with ContentItems items => items | OutputText _ => [] end.

Definition image_data_url_estimate_adjustment (i : ResponseItem) : Z * Z :=
  match i with
  | Message _ _ content _ _ =>
      foldl (λ acc c, match c with CInputImage url detail => accumulate_image acc url detail | _ => acc end)
        (0, 0) content
  | FunctionCallOutput _ _ _ _ output _ | CustomToolCallOutput _ _ _ output _ =>
      foldl (λ acc c, match c with InputImage url detail => accumulate_image acc url detail | _ => acc end)
        (0, 0) (output_items output)
  | _ => (0, 0)
  end.

Definition audio_data_url_estimate_adjustment (i : ResponseItem) : Z * Z :=
  match i with
  | Message _ _ content _ _ =>
      foldl (λ acc c, match c with CInputAudio url => accumulate_audio acc url | _ => acc end)
        (0, 0) content
  | FunctionCallOutput _ _ _ _ output _ | CustomToolCallOutput _ _ _ output _ =>
      foldl (λ acc c, match c with InputAudio url => accumulate_audio acc url | _ => acc end)
        (0, 0) (output_items output)
  | _ => (0, 0)
  end.

Definition encrypted_function_output_estimate_adjustment (i : ResponseItem) : Z * Z :=
  match i with
  | FunctionCallOutput _ _ _ _ output _ =>
      foldl (λ acc c, match c with EncryptedContent e => accumulate_encrypted acc e | _ => acc end)
        (0, 0) (output_items output)
  | AgentMessage _ _ _ content _ =>
      foldl (λ acc c, match c with AEncryptedContent e => accumulate_encrypted acc e | _ => acc end)
        (0, 0) content
  | _ => (0, 0)
  end.

(** Payload bytes are replaced by an estimate. *)
Definition adjust (raw : Z) (adjustment : Z * Z) : Z :=
  sat_i64 (sat_i64 (raw - adjustment.1) + adjustment.2).

Definition estimate_response_item_model_visible_bytes (i : ResponseItem) : Z :=
  match i with
  | Reasoning _ _ _ (Some content) _ | Compaction _ content _
  | ContextCompaction _ (Some content) _ =>
      to_i64 (estimate_reasoning_length (byte_len content))
  | _ =>
      let raw := default 0 (to_i64 <$> serialized_json_bytes i) in
      adjust (adjust (adjust raw (image_data_url_estimate_adjustment i))
                (audio_data_url_estimate_adjustment i))
        (encrypted_function_output_estimate_adjustment i)
  end.

Definition estimate_item_token_count (i : ResponseItem) : Z :=
  approx_tokens_from_byte_count_i64 (estimate_response_item_model_visible_bytes i).

(** [fold(0i64, i64::saturating_add)] over the estimates of items. *)
Definition total_estimate (items : list ResponseItem) : Z :=
  foldl (λ acc i, sat_i64 (acc + estimate_item_token_count i)) 0 items.
End estimates.

(** ** Sums of estimates *)

Lemma sat_i64_id z : i64_min ≤ z ≤ i64_max → sat_i64 z = z.
Proof. unfold sat_i64. lia. Qed.

Lemma approx_tokens_range n : 0 ≤ approx_tokens_from_byte_count_i64 n ≤ i64_max.
Proof. unfold approx_tokens_from_byte_count_i64, i64_max. destruct (n <=? 0); lia. Qed.

Section estimate_facts.
Context {J : JsonTypes}.
Context (serialized_json_bytes : ResponseItem → option N) (base64_decode : str → option bytes)
  (image_size : bytes → option (N * N)) (estimate_audio_token_count : str → N).

Abbreviation estimate := (estimate_item_token_count serialized_json_bytes base64_decode image_size
  estimate_audio_token_count).
Abbreviation total := (total_estimate serialized_json_bytes base64_decode image_size
  estimate_audio_token_count).

(** The exact sum. *)
Definition exact_total (items : list ResponseItem) : Z := foldr (λ i n, estimate i + n) 0 items.

Lemma estimate_range i : 0 ≤ estimate i ≤ i64_max.
Proof. apply approx_tokens_range. Qed.

Lemma exact_total_nonneg items : 0 ≤ exact_total items.
Proof. induction items as [|i items IH]; simpl; [done|]. pose proof (estimate_range i). lia. Qed.

Lemma total_from acc items :
  0 ≤ acc ≤ i64_max →
  foldl (λ acc i, sat_i64 (acc + estimate i)) acc items = Z.min i64_max (acc + exact_total items).
Proof.
  revert acc; induction items as [|i items IH]; intros acc Hacc; simpl; [lia|].
  pose proof (estimate_range i). pose proof (exact_total_nonneg items).
  rewrite IH; unfold sat_i64, i64_min, i64_max in *; lia.
Qed.

Lemma total_exact items : total items = Z.min i64_max (exact_total items).
Proof. unfold total_estimate. rewrite total_from; [done|]. by vm_compute. Qed.

(** ** What an item costs

    A reference without accumulators and without saturation: the inline media
    and the encrypted parts of an item, the bytes of each part's payload, and
    the bytes that are counted in its place. *)

Definition part : Type := N * Z.

(** An image costs 7373 bytes; one sent in its original size costs 4 bytes for
    each patch of 32 by 32 pixels, up to 10000 patches, when it can be decoded. *)
Definition image_cost (url : str) (detail : option ImageDetail) : Z :=
  let decoded :=
    payload ← parse_base64_image_data_url url; data ← base64_decode payload; image_size data in
  match detail, decoded with
  | Some Original, Some (w, h) => Z.of_N (4 * N.min 10000 ((w + 31) / 32 * ((h + 31) / 32)))
  | _, _ => 7373
  end.

Definition image_part (image : str * option ImageDetail) : list part :=
  match parse_base64_image_data_url image.1 with
  | Some payload => [(byte_len payload, image_cost image.1 image.2)]
  | None => []
  end.

Definition audio_part (url : str) : list part :=
  match parse_base64_audio_data_url url with
  | Some payload => [(byte_len payload, Z.of_N (4 * estimate_audio_token_count url))]
  | None => []
  end.

(** Nine sixteenths of the encoding, rounded up. *)
Definition encrypted_part (e : str) : list part :=
  [(byte_len e, Z.of_N ((9 * byte_len e + 15) / 16))].

Definition images (i : ResponseItem) : list (str * option ImageDetail) :=
  match i with
  | Message _ _ content _ _ =>
      omap (λ c, match c with CInputImage url detail => Some (url, detail) | _ => None end) content
  | FunctionCallOutput _ _ _ _ output _ | CustomToolCallOutput _ _ _ output _ =>
      omap (λ c, match c with InputImage url detail => Some (url, detail) | _ => None end)
        (output_items output)
  | _ => []
  end.

Definition audios (i : ResponseItem) : list str :=
  match i with
  | Message _ _ content _ _ =>
      omap (λ c, match c with CInputAudio url => Some url | _ => None end) content
  | FunctionCallOutput _ _ _ _ output _ | CustomToolCallOutput _ _ _ output _ =>
      omap (λ c, match c with InputAudio url => Some url | _ => None end) (output_items output)
  | _ => []
  end.

Definition encrypted (i : ResponseItem) : list str :=
  match i with
  | FunctionCallOutput _ _ _ _ output _ =>
      omap (λ c, match c with EncryptedContent e => Some e | _ => None end) (output_items output)
  | AgentMessage _ _ _ content _ =>
      omap (λ c, match c with AEncryptedContent e => Some e | _ => None end) content
  | _ => []
  end.

Definition parts (i : ResponseItem) : list part :=
  (images i ≫= image_part) ++ (audios i ≫= audio_part) ++ (encrypted i ≫= encrypted_part).

Definition payload_bytes (l : list part) : Z := foldr (λ p n, Z.of_N p.1 + n) 0 l.
Definition counted_bytes (l : list part) : Z := foldr (λ p n, p.2 + n) 0 l.

(** The content of an item that is encrypted as a whole. *)
Definition sealed (i : ResponseItem) : option str :=
  match i with
  | Reasoning _ _ _ content _ | ContextCompaction _ content _ => content
  | Compaction _ content _ => Some content
  | _ => None
  end.

Definition json_bytes (i : ResponseItem) : Z := Z.of_N (default 0%N (serialized_json_bytes i)).

Definition visible_bytes (i : ResponseItem) : Z :=
  match sealed i with
  | Some content => 3 * Z.of_N (byte_len content) / 4 - 650
  | None => json_bytes i - payload_bytes (parts i) + counted_bytes (parts i)
  end.

(** Four bytes to a token, rounded up. *)
Definition item_tokens (i : ResponseItem) : Z := (Z.max 0 (visible_bytes i) + 3) / 4.

(** Sizes below half an exbibyte, where nothing saturates before the sum. *)
Definition max_size : Z := 2 ^ 59.

Definition measurable (i : ResponseItem) : Prop :=
  match sealed i with
  | Some content => Z.of_N (byte_len content) ≤ max_size
  | None => json_bytes i ≤ max_size ∧ payload_bytes (parts i) ≤ max_size
            ∧ counted_bytes (parts i) ≤ max_size
  end.

Lemma image_cost_range url detail : 0 ≤ image_cost url detail ≤ 40000.
Proof.
  unfold image_cost. cbn zeta. destruct detail as [[]|]; try lia.
  destruct (payload ← _; _) as [[w h]|]; [|lia].
  generalize ((w + 31) / 32 * ((h + 31) / 32))%N. lia.
Qed.

(** The patches of an image, saturating or not. *)
Lemma patches_saturate (a b : Z) :
  0 ≤ a → 0 ≤ b →
  Z.min 10000 (sat_i64 (sat_i64 (a + 31) / 32 * (sat_i64 (b + 31) / 32)))
  = Z.min 10000 ((a + 31) / 32 * ((b + 31) / 32)).
Proof.
  intros Ha Hb.
  assert (∀ c, 0 ≤ c → sat_i64 (c + 31) / 32 = (c + 31) / 32
    ∨ 10000 ≤ sat_i64 (c + 31) / 32 ∧ 10000 ≤ (c + 31) / 32) as Hc
    by (intros c Hc; unfold sat_i64, i64_min, i64_max;
        destruct (decide (c + 31 ≤ 9223372036854775807)); [left; f_equal; lia|right];
        split; apply Z.div_le_lower_bound; lia).
  pose proof (Hc a Ha) as HA. pose proof (Hc b Hb) as HB.
  assert (0 ≤ sat_i64 (a + 31) / 32 ∧ 0 ≤ sat_i64 (b + 31) / 32) as [HA0 HB0]
    by (unfold sat_i64, i64_min, i64_max; split; apply Z.div_pos; lia).
  assert (0 ≤ (a + 31) / 32 ∧ 0 ≤ (b + 31) / 32) as [HA1 HB1] by (split; apply Z.div_pos; lia).
  revert HA HB HA0 HB0 HA1 HB1.
  generalize (sat_i64 (a + 31) / 32) as x, ((a + 31) / 32) as x',
    (sat_i64 (b + 31) / 32) as y, ((b + 31) / 32) as y'.
  intros x x' y y' HA HB HA0 HB0 HA1 HB1.
  assert (x = x' ∧ y = y' ∨ 10000 ≤ x * y ∧ 10000 ≤ x' * y' ∨ x * y = 0 ∧ x' * y' = 0) as Hprod.
  { destruct HA as [->|HA], HB as [->|HB]; [by left|..].
    - destruct (decide (x' = 0)) as [->|]; right; [right|left]; nia.
    - destruct (decide (y' = 0)) as [->|]; right; [right|left]; nia.
    - right. left. nia. }
  assert (0 ≤ x * y) by nia. unfold sat_i64, i64_min, i64_max.
  destruct Hprod as [[-> ->]|[[? ?]|[-> ->]]]; lia.
Qed.

Lemma image_bytes_cost url detail :
  estimate_image_bytes base64_decode image_size url detail = image_cost url detail.
Proof.
  unfold estimate_image_bytes, image_cost, estimate_original_image_bytes. cbn zeta.
  destruct detail as [[]|]; try done.
  destruct (parse_base64_image_data_url url) as [payload|]; [|done]. simpl.
  destruct (base64_decode payload) as [decoded|]; [|done]. simpl.
  destruct (image_size decoded) as [[w h]|]; [|done]. simpl.
  pose proof (patches_saturate (Z.of_N w) (Z.of_N h) ltac:(lia) ltac:(lia)) as Hp.
  assert (sat_i64 (ORIGINAL_IMAGE_PATCH_SIZE - 1) = 31) as -> by done.
  change ORIGINAL_IMAGE_PATCH_SIZE with 32. set (n := sat_i64 _) in *.
  assert (0 ≤ n) as Hn by (apply Z.max_le_iff; right; apply Z.min_glb; [done|];
    apply Z.mul_nonneg_nonneg; apply Z.div_pos; unfold sat_i64, i64_min, i64_max; lia).
  assert (Z.of_N ((w + 31) / 32 * ((h + 31) / 32)) = (Z.of_N w + 31) / 32 * ((Z.of_N h + 31) / 32))
    as Hm by by rewrite N2Z.inj_mul, !N2Z.inj_div, !N2Z.inj_add.
  rewrite <- Hm in Hp. clear Hm. revert Hp. generalize ((w + 31) / 32 * ((h + 31) / 32))%N.
  intros m Hp. rewrite (proj2 (Z.ltb_ge n 0)) by done.
  unfold to_i64, approx_bytes_for_tokens, sat_mul, ORIGINAL_IMAGE_MAX_PATCHES, APPROX_BYTES_PER_TOKEN,
    usize_max, i64_max. lia.
Qed.

(** *** The accumulators *)

Lemma payload_bytes_app l k : payload_bytes (l ++ k) = payload_bytes l + payload_bytes k.
Proof. induction l as [|p l IH]; simpl; lia. Qed.
Lemma counted_bytes_app l k : counted_bytes (l ++ k) = counted_bytes l + counted_bytes k.
Proof. induction l as [|p l IH]; simpl; lia. Qed.
Lemma payload_bytes_nonneg l : 0 ≤ payload_bytes l.
Proof. induction l as [|p l IH]; simpl; lia. Qed.

Definition counted_nonneg {C} (part_of : C → list part) : Prop := ∀ c, 0 ≤ counted_bytes (part_of c).

Lemma counted_bind_nonneg {C} (part_of : C → list part) l :
  counted_nonneg part_of → 0 ≤ counted_bytes (l ≫= part_of).
Proof.
  intros Hp. induction l as [|c l IH]; csimpl; [done|]. rewrite counted_bytes_app.
  specialize (Hp c). lia.
Qed.

Lemma image_part_nonneg : counted_nonneg image_part.
Proof.
  intros [url detail]. unfold image_part. simpl. destruct (parse_base64_image_data_url url); simpl; [|lia].
  pose proof (image_cost_range url detail). lia.
Qed.
Lemma audio_part_nonneg : counted_nonneg audio_part.
Proof. intros url. unfold audio_part. destruct (parse_base64_audio_data_url url); simpl; lia. Qed.
Lemma encrypted_part_nonneg : counted_nonneg encrypted_part.
Proof. intros e. unfold encrypted_part. cbn [counted_bytes foldr snd]. rewrite Z.add_0_r. apply N2Z.is_nonneg. Qed.

(** A step that adds the parts of an element, as long as the sums are small. *)
Definition adds_parts {C} (step : Z * Z → C → Z * Z) (part_of : C → list part) : Prop :=
  ∀ c a b, 0 ≤ a → 0 ≤ b → a + payload_bytes (part_of c) ≤ max_size →
    b + counted_bytes (part_of c) ≤ max_size →
    step (a, b) c = (a + payload_bytes (part_of c), b + counted_bytes (part_of c)).

Lemma fold_parts {C} step (part_of : C → list part) l a b :
  adds_parts step part_of → counted_nonneg part_of → 0 ≤ a → 0 ≤ b →
  a + payload_bytes (l ≫= part_of) ≤ max_size → b + counted_bytes (l ≫= part_of) ≤ max_size →
  foldl step (a, b) l = (a + payload_bytes (l ≫= part_of), b + counted_bytes (l ≫= part_of)).
Proof.
  intros Hadd Hpos. revert a b; induction l as [|c l IH]; intros a b Ha Hb; csimpl.
  { intros _ _. f_equal; lia. }
  rewrite payload_bytes_app, counted_bytes_app. intros HP HC.
  pose proof (payload_bytes_nonneg (part_of c)). pose proof (payload_bytes_nonneg (l ≫= part_of)).
  pose proof (Hpos c). pose proof (counted_bind_nonneg part_of l Hpos).
  rewrite Hadd, IH by lia. f_equal; lia.
Qed.

Lemma images_add_parts :
  adds_parts (λ acc im, accumulate_image base64_decode image_size acc im.1 im.2) image_part.
Proof.
  intros [url detail] a b Ha Hb. unfold image_part, accumulate_image. simpl.
  rewrite image_bytes_cost. destruct (parse_base64_image_data_url url); simpl; [|intros; f_equal; lia].
  pose proof (image_cost_range url detail).
  unfold sat_i64, to_i64, max_size, i64_min, i64_max. intros; f_equal; lia.
Qed.

Lemma audios_add_parts : adds_parts (accumulate_audio estimate_audio_token_count) audio_part.
Proof.
  intros url a b Ha Hb. unfold audio_part, accumulate_audio.
  destruct (parse_base64_audio_data_url url); simpl; [|intros; f_equal; lia].
  unfold approx_bytes_for_tokens, sat_mul, APPROX_BYTES_PER_TOKEN, usize_max, sat_i64, to_i64,
    max_size, i64_min, i64_max. intros; f_equal; lia.
Qed.

Lemma encrypted_length n :
  (n ≤ 2 ^ 59)%N → estimate_encrypted_function_output_length n = ((9 * n + 15) / 16)%N.
Proof.
  intros Hn. unfold estimate_encrypted_function_output_length, sat_mul, usize_max.
  replace (N.min 18446744073709551615 (n * 9)) with (9 * n)%N by lia.
  pose proof (N.div_mod (9 * n) 16 ltac:(done)). pose proof (N.mod_lt (9 * n) 16 ltac:(done)).
  set (q := (9 * n / 16)%N) in *. set (r := ((9 * n) mod 16)%N) in *. clearbody q r.
  destruct (N.eqb_spec r 0).
  - apply (N.div_unique _ _ _ 15); lia.
  - apply (N.div_unique _ _ _ (r - 1)); lia.
Qed.

Lemma encrypted_add_parts : adds_parts accumulate_encrypted encrypted_part.
Proof.
  intros e a b Ha Hb. unfold encrypted_part, accumulate_encrypted.
  cbn [counted_bytes payload_bytes foldr snd fst]. unfold max_size. intros HP HC.
  rewrite encrypted_length by lia. revert HC. generalize ((9 * byte_len e + 15) / 16)%N. intros n HC.
  unfold sat_i64, to_i64, i64_min, i64_max. f_equal; lia.
Qed.

(** A fold that uses only some of the elements. *)
Lemma foldl_omap {C D} (step : Z * Z → C → Z * Z) (use : Z * Z → D → Z * Z) (g : C → option D) l acc :
  (∀ acc c, step acc c = match g c with Some d => use acc d | None => acc end) →
  foldl step acc l = foldl use acc (omap g l).
Proof.
  intros Hstep. revert acc; induction l as [|c l IH]; intros acc; csimpl; [done|].
  rewrite Hstep. destruct (g c); apply IH.
Qed.

Lemma image_adjustment i :
  image_data_url_estimate_adjustment base64_decode image_size i
  = foldl (λ acc im, accumulate_image base64_decode image_size acc im.1 im.2) (0, 0) (images i).
Proof. destruct i; try done; apply foldl_omap; by intros acc []. Qed.

Lemma audio_adjustment i :
  audio_data_url_estimate_adjustment estimate_audio_token_count i
  = foldl (accumulate_audio estimate_audio_token_count) (0, 0) (audios i).
Proof. destruct i; try done; apply foldl_omap; by intros acc []. Qed.

Lemma encrypted_adjustment i :
  encrypted_function_output_estimate_adjustment i = foldl accumulate_encrypted (0, 0) (encrypted i).
Proof. destruct i; try done; apply foldl_omap; by intros acc []. Qed.

Lemma tokens_of_bytes z : z ≤ i64_max → approx_tokens_from_byte_count_i64 z = (Z.max 0 z + 3) / 4.
Proof.
  intros Hz. unfold approx_tokens_from_byte_count_i64, approx_tokens_from_byte_count, sat_add,
    APPROX_BYTES_PER_TOKEN, usize_max, i64_max in *. destruct (Z.leb_spec z 0).
  - by rewrite Z.max_l.
  - rewrite Z.max_r by lia. change (4 - 1)%N with 3%N.
    rewrite (N.min_r 18446744073709551615) by lia. rewrite N2Z.inj_div, N2Z.inj_add, Z2N.id by lia.
    apply Z.min_r, Z.div_le_upper_bound; lia.
Qed.

Abbreviation model_visible_bytes := (estimate_response_item_model_visible_bytes serialized_json_bytes
  base64_decode image_size estimate_audio_token_count).

Lemma sealed_bytes i content :
  sealed i = Some content → Z.of_N (byte_len content) ≤ max_size →
  model_visible_bytes i = Z.max 0 (visible_bytes i) ∧ visible_bytes i ≤ i64_max.
Proof.
  intros Hs Hm. unfold visible_bytes. rewrite Hs.
  assert (model_visible_bytes i = to_i64 (estimate_reasoning_length (byte_len content))) as ->
    by (destruct i; simpl in *; by simplify_eq).
  unfold to_i64, estimate_reasoning_length, sat_mul, usize_max, max_size, i64_max in *.
  replace (N.min 18446744073709551615 (byte_len content * 3)) with (3 * byte_len content)%N by lia.
  assert (Z.of_N (3 * byte_len content / 4) = 3 * Z.of_N (byte_len content) / 4) as Hd
    by by rewrite N2Z.inj_div, N2Z.inj_mul.
  assert (3 * Z.of_N (byte_len content) / 4 ≤ 2 ^ 60) by (apply Z.div_le_upper_bound; lia).
  revert Hd. generalize (3 * byte_len content / 4)%N. intros q Hd. split; lia.
Qed.

(** The bytes of an item that is not encrypted as a whole. *)
Lemma open_bytes i :
  sealed i = None → measurable i →
  model_visible_bytes i = visible_bytes i ∧ visible_bytes i ≤ i64_max.
Proof.
  intros Hs Hm. unfold measurable, visible_bytes in *. rewrite Hs in *. destruct Hm as (Hj & Hp & Hc).
  unfold parts in *. rewrite !payload_bytes_app, !counted_bytes_app in *.
  assert (0 ≤ json_bytes i) by apply N2Z.is_nonneg.
  pose proof (payload_bytes_nonneg (images i ≫= image_part)).
  pose proof (payload_bytes_nonneg (audios i ≫= audio_part)).
  pose proof (payload_bytes_nonneg (encrypted i ≫= encrypted_part)).
  pose proof (counted_bind_nonneg image_part (images i) image_part_nonneg).
  pose proof (counted_bind_nonneg audio_part (audios i) audio_part_nonneg).
  pose proof (counted_bind_nonneg encrypted_part (encrypted i) encrypted_part_nonneg).
  assert (model_visible_bytes i
    = adjust (adjust (adjust (default 0 (to_i64 <$> serialized_json_bytes i))
        (image_data_url_estimate_adjustment base64_decode image_size i))
        (audio_data_url_estimate_adjustment estimate_audio_token_count i))
        (encrypted_function_output_estimate_adjustment i)) as ->
    by (destruct i; simpl in *; by simplify_eq).
  rewrite image_adjustment, audio_adjustment, encrypted_adjustment.
  rewrite (fold_parts _ image_part) by (apply images_add_parts || apply image_part_nonneg || lia).
  rewrite (fold_parts _ audio_part) by (apply audios_add_parts || apply audio_part_nonneg || lia).
  rewrite (fold_parts _ encrypted_part)
    by (apply encrypted_add_parts || apply encrypted_part_nonneg || lia).
  assert (default 0 (to_i64 <$> serialized_json_bytes i) = json_bytes i) as ->.
  { unfold json_bytes, to_i64, max_size, i64_max in *.
    destruct (serialized_json_bytes i); simpl in *; lia. }
  unfold adjust, sat_i64, max_size, i64_min, i64_max in *. simpl. split; lia.
Qed.

(** An item whose sizes are reasonable costs what the reference says. *)
Lemma estimate_exact i : measurable i → estimate i = item_tokens i.
Proof.
  intros Hm. unfold estimate_item_token_count, item_tokens. destruct (sealed i) as [content|] eqn:Hs.
  - destruct (sealed_bytes i content Hs) as [Hb Hle]; [by unfold measurable in Hm; rewrite Hs in Hm|].
    rewrite Hb, tokens_of_bytes by (unfold i64_max in *; lia). f_equal. lia.
  - destruct (open_bytes i Hs Hm) as [Hb Hle]. by rewrite Hb, tokens_of_bytes by exact Hle.
Qed.

Lemma exact_total_reference items :
  Forall measurable items → exact_total items = foldr (λ i n, item_tokens i + n) 0 items.
Proof. induction 1 as [|i items Hi _ IH]; simpl; [done|]. by rewrite estimate_exact, IH. Qed.
End estimate_facts.

(** ** Totals of usage *)

Section usage_facts.
Context {J : JsonTypes} (overflow_checks : bool).

(** No count is negative. *)
Definition usage_ok (u : TokenUsage) : Prop :=
  0 ≤ input_tokens u ∧ 0 ≤ cached_input_tokens u ∧ 0 ≤ cache_write_input_tokens u
  ∧ 0 ≤ output_tokens u ∧ 0 ≤ reasoning_output_tokens u ∧ 0 ≤ total_tokens u.

(** The sums of a list of reports. *)
Definition sum_of (f : TokenUsage → Z) (us : list TokenUsage) : Z := foldr (λ u n, f u + n) 0 us.

Definition counts_of (us : list TokenUsage) : list Z :=
  (λ f, sum_of f us) <$> [input_tokens; cached_input_tokens; cache_write_input_tokens;
                          output_tokens; reasoning_output_tokens; total_tokens].

Definition counts_in (u : TokenUsage) : list Z :=
  (λ f, f u) <$> [input_tokens; cached_input_tokens; cache_write_input_tokens;
                  output_tokens; reasoning_output_tokens; total_tokens].

(** Reporting usage after usage ([ContextManager::update_token_info]). *)
Fixpoint report (info : option TokenUsageInfo) (reports : list (TokenUsage * option Z))
    : option (option TokenUsageInfo) :=
  match reports with
  | [] => Some info
  | (u, window) :: reports =>
      info ← new_or_append overflow_checks info (Some u) window; report info reports
  end.

Lemma sum_of_nonneg f us : Forall (λ u, 0 ≤ f u) us → 0 ≤ sum_of f us.
Proof. induction 1; simpl; lia. Qed.

Lemma sum_of_snoc f us u : sum_of f (us ++ [u]) = sum_of f us + f u.
Proof. induction us as [|v us IH]; simpl; lia. Qed.
(** The state after the reports [us]. *)
Definition info_ok (us : list (TokenUsage * option Z)) (info : option TokenUsageInfo) : Prop :=
  match info with
  | None => us = []
  | Some info =>
      counts_in (total_token_usage info) = counts_of (fst <$> us)
      ∧ Some (last_token_usage info) = last (fst <$> us)
      ∧ model_context_window info = last (omap snd us)
  end.

Definition sums_fit (us : list TokenUsage) : Prop :=
  Forall usage_ok us ∧ Forall (λ z, z ≤ i64_max) (counts_of us).

Lemma checked_i64_ok z : 0 ≤ z ≤ i64_max → checked_i64 overflow_checks z = Some z.
Proof.
  intros Hz. unfold checked_i64, in_i64, i64_min.
  by rewrite !(proj2 (Z.leb_le _ _)) by (unfold i64_max in *; lia).
Qed.

Lemma add_assign_sum us total u :
  counts_in total = counts_of us → sums_fit (us ++ [u]) →
  ∃ total', add_assign overflow_checks total u = Some total' ∧ counts_in total' = counts_of (us ++ [u]).
Proof.
  intros Htotal [Hok Hmax]. apply Forall_app in Hok as [Hus Hu].
  apply Forall_cons in Hu as [(? & ? & ? & ? & ? & ?) _].
  unfold counts_in, counts_of in *. simpl in *. rewrite !sum_of_snoc in *.
  injection Htotal as E1 E2 E3 E4 E5 E6.
  rewrite !Forall_cons in Hmax. destruct Hmax as (? & ? & ? & ? & ? & ? & _).
  assert (∀ f, (∀ v, usage_ok v → 0 ≤ f v) → 0 ≤ sum_of f us) as Hpos.
  { intros f Hf. apply sum_of_nonneg. eapply Forall_impl; [exact Hus|]. exact Hf. }
  pose proof (Hpos input_tokens ltac:(by intros ? (? & ?))).
  pose proof (Hpos cached_input_tokens ltac:(by intros ? (? & ? & ?))).
  pose proof (Hpos cache_write_input_tokens ltac:(by intros ? (? & ? & ? & ?))).
  pose proof (Hpos output_tokens ltac:(by intros ? (? & ? & ? & ? & ?))).
  pose proof (Hpos reasoning_output_tokens ltac:(by intros ? (? & ? & ? & ? & ? & ?))).
  pose proof (Hpos total_tokens ltac:(by intros ? (? & ? & ? & ? & ? & ?))).
  unfold add_assign. rewrite !checked_i64_ok by lia. simpl. eexists. split; [done|]. simpl.
  by rewrite E1, E2, E3, E4, E5, E6.
Qed.

Lemma report_step us info u window :
  info_ok us info → sums_fit (fst <$> (us ++ [(u, window)])) →
  ∃ info', new_or_append overflow_checks info (Some u) window = Some (Some info')
    ∧ info_ok (us ++ [(u, window)]) (Some info').
Proof.
  intros Hinfo Hfit. rewrite fmap_app in Hfit. simpl in Hfit.
  set (start := default {| total_token_usage := no_usage; last_token_usage := no_usage;
                           model_context_window := window |} info).
  assert (counts_in (total_token_usage start) = counts_of (fst <$> us)) as Hc
    by (destruct info; [apply Hinfo|by rewrite Hinfo]).
  destruct (add_assign_sum _ _ _ Hc Hfit) as (total' & Hadd & Hsum).
  unfold new_or_append. assert (∀ X, match info, Some u with None, None => Some None | _, _ => X end = X)
    as -> by (by destruct info).
  fold start. unfold append_last_usage. rewrite Hadd. simpl.
  eexists. split; [done|]. unfold info_ok. rewrite fmap_app, omap_app. simpl. rewrite last_snoc.
  destruct window as [w|]; simpl; split_and!; try done.
  - by rewrite last_snoc.
  - rewrite app_nil_r. destruct info; [apply Hinfo|]. by rewrite Hinfo.
Qed.

Lemma sums_fit_prefix us vs : sums_fit (us ++ vs) → sums_fit us.
Proof.
  intros [Hok Hmax]. apply Forall_app in Hok as [Hus Hvs]. split; [done|].
  assert (∀ f, (∀ v, usage_ok v → 0 ≤ f v) → sum_of f us ≤ sum_of f (us ++ vs)) as Hle.
  { intros f Hf. assert (sum_of f (us ++ vs) = sum_of f us + sum_of f vs) as ->
      by (clear; induction us; simpl; lia).
    assert (0 ≤ sum_of f vs); [|lia]. apply sum_of_nonneg. eapply Forall_impl; [exact Hvs|]. exact Hf. }
  unfold counts_of in *. simpl in *. rewrite !Forall_cons in *.
  destruct Hmax as (H1 & H2 & H3 & H4 & H5 & H6 & _).
  split_and!; [etrans; [apply Hle|done]; by intros ? (? & ? & ? & ? & ? & ?)..|done].
Qed.

Lemma report_ok us info reports :
  info_ok us info → sums_fit (fst <$> (us ++ reports)) →
  ∃ info', report info reports = Some info' ∧ info_ok (us ++ reports) info'.
Proof.
  revert us info; induction reports as [|[u window] reports IH]; intros us info Hinfo Hfit; simpl.
  { exists info. by rewrite app_nil_r. }
  change ((u, window) :: reports) with ([(u, window)] ++ reports) in *. rewrite app_assoc in *.
  destruct (report_step us info u window Hinfo) as (info' & Hstep & Hinfo').
  { rewrite fmap_app in Hfit. by eapply sums_fit_prefix. }
  rewrite Hstep. simpl. by apply IH.
Qed.

(** As long as the sums fit an [i64], reporting usage never fails and keeps
    exact totals: each count is the sum of the reports, the last report is kept
    as such, and the context window is the last one that was given. *)
Theorem usage_totals reports :
  reports ≠ [] → sums_fit (fst <$> reports) →
  ∃ info, report None reports = Some (Some info)
  ∧ counts_in (total_token_usage info) = counts_of (fst <$> reports)
  ∧ Some (last_token_usage info) = last (fst <$> reports)
  ∧ model_context_window info = last (omap snd reports).
Proof.
  intros Hne Hfit. destruct (report_ok [] None reports eq_refl Hfit) as ([info|] & Hrun & Hinfo).
  - by exists info.
  - done.
Qed.
End usage_facts.
