(* ===== verification/HistoryManager.v ===== *)
(** * Recording and rolling back the conversation

    The rest of [ContextManager] ([codex-rs/core/src/context_manager/history.rs]):
    recording items, dropping the last turns, and the token counts of the whole
    history.  The JSON reader of messages between agents is a parameter; the
    sections of the world state are not modelled. *)

From S2P Require Import Prelude RustStr Utf8 Truncation ResponseItems History ContextFragments TokenEstimates.

(** ** [TruncationPolicy * f64] ([protocol.rs])

    A positive [f64] is [m * 2^e] with at most 53 bits in [m]; products are
    rounded to the nearest, ties to even. *)

(** [m] without its [k] low bits, rounded. *)
Definition round_bits (m k : N) : N :=
  let q := N.shiftr m k in
  let r := (m - N.shiftl q k)%N in
  let half := N.shiftl 1 (k - 1) in
  if (k =? 0)%N then m
  else if (r <? half)%N then q
  else if (half <? r)%N then (q + 1)%N
  else if N.even q then q else (q + 1)%N.

(** The [f64] next to 1.2 is this number times [2^-52]. *)
Definition mantissa_1_2 : N := 5404319552844595.

(** [(n as f64 * 1.2).ceil() as usize]. *)
Definition scale_1_2 (n : N) : N :=
  let k1 := (N.size n - 53)%N in
  let p := (round_bits n k1 * mantissa_1_2)%N in
  let k2 := (N.size p - 53)%N in
  let q := round_bits p k2 in
  let e := (k1 + k2)%N in
  N.min usize_max
    (if (52 <=? e)%N then N.shiftl q (e - 52)
     else ((q + (N.shiftl 1 (52 - e) - 1)) / N.shiftl 1 (52 - e))%N).

Definition policy_mul_1_2 (p : TruncationPolicy) : TruncationPolicy :=
  match p with Bytes n => Bytes (scale_1_2 n) | Tokens n => Tokens (scale_1_2 n) end.

Example scaled : scale_1_2 <$> [0; 1; 5; 10; 1000; 10000]%N = [0; 2; 6; 12; 1200; 12000]%N.
Proof. by vm_compute. Qed.

(** ** Kinds of items *)

Section kinds.
Context {J : JsonTypes}.

Definition is_api_message (message : ResponseItem) : bool :=
  match message with
  | Message _ role _ _ _ => negb (bool_decide (role = lit "system"))
  | CompactionTrigger | Other => false
  | _ => true
  end.

Definition is_model_generated_item (i : ResponseItem) : bool :=
  match i with
  | Message _ role _ _ _ => bool_decide (role = lit "assistant")
  | Reasoning _ _ _ _ _ | FunctionCall _ _ _ _ _ _ _ | ToolSearchCall _ _ _ _ _ _
  | WebSearchCall _ _ _ _ | ImageGenerationCall _ _ _ _ _ | CustomToolCall _ _ _ _ _ _ _
  | LocalShellCall _ _ _ _ _ | Compaction _ _ _ | ContextCompaction _ _ _ => true
  | CompactionTrigger | AdditionalTools _ _ _ | FunctionCallOutput _ _ _ _ _ _
  | ToolSearchOutput _ _ _ _ _ _ | CustomToolCallOutput _ _ _ _ _ | AgentMessage _ _ _ _ _
  | Other => false
  end.

(** [ResponseItem::turn_id] ([protocol/src/models.rs]): an empty one is none. *)
Definition item_meta (i : ResponseItem) : option InternalChatMessageMetadataPassthrough :=
  match i with
  | Message _ _ _ _ meta | AgentMessage _ _ _ _ meta | Reasoning _ _ _ _ meta
  | LocalShellCall _ _ _ _ meta | FunctionCall _ _ _ _ _ _ meta | ToolSearchCall _ _ _ _ _ meta
  | FunctionCallOutput _ _ _ _ _ meta | CustomToolCall _ _ _ _ _ _ meta
  | CustomToolCallOutput _ _ _ _ meta | ToolSearchOutput _ _ _ _ _ meta | WebSearchCall _ _ _ meta
  | ImageGenerationCall _ _ _ _ meta | Compaction _ _ meta | ContextCompaction _ _ meta => meta
  | CompactionTrigger | AdditionalTools _ _ _ | Other => None
  end.

Definition item_turn_id (i : ResponseItem) : option str :=
  id ← item_meta i ≫= turn_id; if is_empty id then None else Some id.

Definition is_developer_message (i : ResponseItem) : bool :=
  match i with Message _ role _ _ _ => bool_decide (role = lit "developer") | _ => false end.

(** The texts of the next step's model and effort. *)
Definition is_rebuilt_content (c : ContentItem) : bool :=
  match c with
  | CInputText text =>
      matches_markers model_switch_markers text || matches_markers persistent_mode_markers text
  | _ => false
  end.
End kinds.

(** ** The manager *)

Section manager.
Context {J : JsonTypes} {TurnContextItem WorldStateSnapshot : Type}.
(** [from_xml] reads hook prompts; [is_inter_agent] tells whether a text is the
    JSON of an [InterAgentCommunication]. *)
Context (from_xml : str → option HookPromptFragment) (is_inter_agent : str → bool)
  (overflow_checks : bool).

Abbreviation manager := (@ContextManager J TokenUsageInfo TurnContextItem WorldStateSnapshot).
Abbreviation envelope := ResponseItemEnvelope.

Definition with_items (h : manager) (items : list envelope) : manager :=
  {| cm_items := items; history_version := history_version h;
     user_message_revision := user_message_revision h; token_info := token_info h;
     reference_context_item := reference_context_item h;
     world_state_baseline := world_state_baseline h |}.

Definition with_revision (h : manager) (revision : N) : manager :=
  {| cm_items := cm_items h; history_version := history_version h;
     user_message_revision := revision; token_info := token_info h;
     reference_context_item := reference_context_item h;
     world_state_baseline := world_state_baseline h |}.

Definition set_token_info (h : manager) (info : option TokenUsageInfo) : manager :=
  {| cm_items := cm_items h; history_version := history_version h;
     user_message_revision := user_message_revision h; token_info := info;
     reference_context_item := reference_context_item h;
     world_state_baseline := world_state_baseline h |}.

Definition set_reference_context_item (h : manager) (item : option TurnContextItem) : manager :=
  {| cm_items := cm_items h; history_version := history_version h;
     user_message_revision := user_message_revision h; token_info := token_info h;
     reference_context_item := item; world_state_baseline := world_state_baseline h |}.

Definition set_world_state_baseline (h : manager) (snapshot : WorldStateSnapshot) : manager :=
  {| cm_items := cm_items h; history_version := history_version h;
     user_message_revision := user_message_revision h; token_info := token_info h;
     reference_context_item := reference_context_item h; world_state_baseline := Some snapshot |}.

Definition new_manager : manager :=
  {| cm_items := []; history_version := 0; user_message_revision := 0; token_info := None;
     reference_context_item := None; world_state_baseline := None |}.

Definition update_token_info (h : manager) (usage : TokenUsage) (window : option Z) : option manager :=
  info ← new_or_append overflow_checks (token_info h) (Some usage) window;
  Some (set_token_info h info).

Definition set_token_usage_full (h : manager) (context_window : Z) : option manager :=
  info ← match token_info h with
         | Some info => fill_to_context_window overflow_checks info context_window
         | None => full_context_window overflow_checks context_window
         end;
  Some (set_token_info h (Some info)).

(** *** Recording *)

Section recording.
Context (estimate_audio_token_count : str → N).

Definition recording_policy (meta : option CodexHarnessMetadata) (policy : TruncationPolicy)
    : TruncationPolicy :=
  match meta ≫= fallback_token_limit_override with
  | Some limit => Tokens limit
  | None => policy_mul_1_2 policy
  end.

Definition truncate_item (policy : TruncationPolicy) (i : ResponseItem) : option ResponseItem :=
  match i with
  | FunctionCallOutput id call_id name namespace output meta =>
      output ← truncate_function_output_payload estimate_audio_token_count policy output;
      Some (FunctionCallOutput id call_id name namespace output meta)
  | CustomToolCallOutput id call_id name output meta =>
      output ← truncate_function_output_payload estimate_audio_token_count policy output;
      Some (CustomToolCallOutput id call_id name output meta)
  | _ => Some i
  end.

Definition record_item (policy : TruncationPolicy) (h : manager)
    (entry : ResponseItem * option CodexHarnessMetadata) : option manager :=
  let '(i, meta) := entry in
  if negb (is_api_message i) then Some h
  else
    processed ← truncate_item (recording_policy meta policy) i;
    let h := with_items h (cm_items h ++ [{| item := processed; metadata := meta |}]) in
    Some (if is_user_authorization_message i
          then with_revision h (sat_add (user_message_revision h) 1) else h).

Fixpoint record_items_with_metadata (policy : TruncationPolicy)
    (entries : list (ResponseItem * option CodexHarnessMetadata)) (h : manager) : option manager :=
  match entries with
  | [] => Some h
  | entry :: entries => h ← record_item policy h entry; record_items_with_metadata policy entries h
  end.

Definition record_items (policy : TruncationPolicy) (items : list ResponseItem) (h : manager)
    : option manager :=
  record_items_with_metadata policy ((λ i, (i, None)) <$> items) h.

Definition record_annotated_items (policy : TruncationPolicy) (items : list envelope) (h : manager)
    : option manager :=
  record_items_with_metadata policy ((λ e, (item e, metadata e)) <$> items) h.
End recording.

(** *** Turns *)

Definition is_inter_agent_instruction_content (content : list ContentItem) : bool :=
  match content with
  | [CInputText text] | [COutputText text] => is_inter_agent text
  | _ => false
  end.

Definition is_user_turn_boundary (i : ResponseItem) : bool :=
  match i with
  | AgentMessage _ _ _ _ _ => true
  | Message _ role content _ _ =>
      (bool_decide (role = lit "user") && negb (is_contextual_user_message_content from_xml content))
      || (bool_decide (role = lit "assistant") && is_inter_agent_instruction_content content)
  | _ => false
  end.

Fixpoint positions_from (idx : nat) (items : list envelope) : list nat :=
  match items with
  | [] => []
  | e :: items =>
      (if is_user_turn_boundary (item e) then [idx] else []) ++ positions_from (S idx) items
  end.

Definition user_message_positions (items : list envelope) : list nat := positions_from 0 items.

(** *** Rollback *)

(** What the walk does at an item: go on, with whether the baseline is lost, or
    stop. *)
Definition trim_item (i : ResponseItem) : option bool :=
  match i with
  | Message _ role content _ _ =>
      if bool_decide (role = lit "developer") && is_contextual_dev_message_content content
      then Some (has_non_contextual_dev_message_content content)
      else if bool_decide (role = lit "user") && is_contextual_user_message_content from_xml content
      then Some false
      else None
  | _ => None
  end.

(** The loop of [trim_pre_turn_context_updates]: the cut and whether the
    reference context is cleared; [None] is an index out of range. *)
Fixpoint trim_pre_turn_context_updates (snapshot : list envelope) (first_instruction_turn_idx cut_idx : nat)
    (clears : bool) : option (nat * bool) :=
  match cut_idx with
  | O => Some (O, clears)
  | S previous =>
      if first_instruction_turn_idx <? cut_idx then
        e ← snapshot !! previous;
        match trim_item (item e) with
        | Some mixed =>
            trim_pre_turn_context_updates snapshot first_instruction_turn_idx previous (mixed || clears)
        | None => Some (cut_idx, clears)
        end
      else Some (cut_idx, clears)
  end.

(** The closure of [retain_mut]: the item that stays. *)
Definition retain_first_turn (first_turn_id : str) (e : envelope) : option envelope :=
  if bool_decide (item_turn_id (item e) = Some first_turn_id) && is_developer_message (item e)
  then
    '(content, emptied) ← to_annotated_content (item e);
    let content := List.filter (λ c, negb (is_rebuilt_content (ac_content c))) content in
    if is_empty content then None
    else i ← set_annotated_content emptied content; Some {| item := i; metadata := metadata e |}
  else Some e.

Definition drop_last_n_user_turns (num_turns : N) (h : manager) : option manager :=
  if (num_turns =? 0)%N then Some h
  else
    let snapshot := cm_items h in
    let user_positions := user_message_positions snapshot in
    match user_positions with
    | [] => Some (replace_annotated snapshot h)
    | first_instruction_turn_idx :: _ =>
        let n_from_end := N.to_nat num_turns in
        cut_idx ← if length user_positions <=? n_from_end then Some first_instruction_turn_idx
                  else user_positions !! (length user_positions - n_from_end);
        '(cut_idx, clears) ← trim_pre_turn_context_updates snapshot first_instruction_turn_idx cut_idx false;
        let h := if (clears : bool) then set_reference_context_item h None else h in
        if length snapshot <? cut_idx then None
        else
          let retained_items := take cut_idx snapshot in
          first ← snapshot !! first_instruction_turn_idx;
          let retained_items :=
            match item_turn_id (item first) with
            | Some first_turn_id =>
                if cut_idx =? first_instruction_turn_idx
                then omap (retain_first_turn first_turn_id) retained_items else retained_items
            | None => retained_items
            end in
          Some (replace_annotated retained_items h)
    end.

(** *** Token counts of the history *)

Section counts.
Context (serialized_json_bytes : ResponseItem → option N) (base64_decode : str → option bytes)
  (image_size : bytes → option (N * N)) (estimate_audio_token_count : str → N).

Definition sum_estimates : list ResponseItem → Z :=
  total_estimate serialized_json_bytes base64_decode image_size estimate_audio_token_count.

Definition estimate_token_count_with_base_instructions (h : manager) (base_instructions : str) : option Z :=
  let base_tokens := to_i64 (approx_token_count base_instructions) in
  Some (sat_i64 (base_tokens + sum_estimates (item <$> cm_items h))%Z).

(** [rposition]. *)
Fixpoint rposition (f : ResponseItem → bool) (items : list ResponseItem) : option nat :=
  match items with
  | [] => None
  | i :: items =>
      match rposition f items with
      | Some n => Some (S n)
      | None => if f i then Some 0 else None
      end
  end.

Definition is_encrypted_reasoning (i : ResponseItem) : bool :=
  match i with Reasoning _ _ _ (Some _) _ => true | _ => false end.

Definition get_non_last_reasoning_items_tokens (h : manager) : Z :=
  match rposition is_user_turn_boundary (item <$> cm_items h) with
  | None => 0%Z
  | Some last_user_index =>
      sum_estimates (List.filter is_encrypted_reasoning (take last_user_index (item <$> cm_items h)))
  end.

Definition items_after_last_model_generated_item (h : manager) : list ResponseItem :=
  let items := item <$> cm_items h in
  let start := match rposition is_model_generated_item items with
               | Some index => S index
               | None => length items
               end in
  drop start items.

Definition estimated_tokens_after_last_model_generated_item (h : manager) : Z :=
  sum_estimates (items_after_last_model_generated_item h).

Definition get_total_token_usage (h : manager) (server_reasoning_included : bool) : Z :=
  let last_tokens := match token_info h with
                     | Some info => total_tokens (last_token_usage info)
                     | None => 0%Z
                     end in
  let after := sum_estimates (items_after_last_model_generated_item h) in
  if server_reasoning_included then sat_i64 (last_tokens + after)%Z
  else sat_i64 (sat_i64 (last_tokens + get_non_last_reasoning_items_tokens h) + after)%Z.
End counts.

(** [SharedConversationHistory::items]: the items of a snapshot. *)
Definition snapshot_items (h : manager) : list ResponseItem :=
  List.filter (λ i,
    match i with
    | Message _ role content _ _ =>
        negb (bool_decide (role = lit "user") && is_contextual_user_message_content from_xml content)
    | _ => true
    end) (item <$> cm_items h).
End manager.
