(* ===== verification/HistoryTurns.v ===== *)
(** * What recording and rolling back do to the conversation

    A history is a prelude followed by turns, each of which starts at an
    instruction of the user or of another agent.  Rolling back drops whole turns
    and the context that was injected for them; recording appends; the two
    revision counters tell when the history was rewritten. *)

From S2P Require Import Prelude RustStr Utf8 Truncation ResponseItems History ContextFragments TokenEstimates HistoryManager.

Section turns.
Context {J : JsonTypes} {TurnContextItem WorldStateSnapshot : Type}.
Context (from_xml : str → option HookPromptFragment) (is_inter_agent : str → bool)
  (overflow_checks : bool).

Abbreviation manager := (@ContextManager J TokenUsageInfo TurnContextItem WorldStateSnapshot).
Abbreviation envelope := ResponseItemEnvelope.
Abbreviation boundary e := (is_user_turn_boundary from_xml is_inter_agent (item e)).
Abbreviation positions_from := (positions_from from_xml is_inter_agent).
Abbreviation user_message_positions := (user_message_positions from_xml is_inter_agent).

(** ** Turns *)

(** The items before the first turn, and the turns. *)
Fixpoint split_turns (items : list envelope) : list envelope * list (list envelope) :=
  match items with
  | [] => ([], [])
  | e :: items =>
      let '(rest, turns) := split_turns items in
      if boundary e then ([], (e :: rest) :: turns) else (e :: rest, turns)
  end.

(** Context that a rollback takes off the end of the last turn it keeps. *)
Definition is_context (e : envelope) : bool := negb (is_none (trim_item from_xml (item e))).
Definition is_mixed (e : envelope) : bool := bool_decide (trim_item from_xml (item e) = Some true).

Fixpoint strip_context (items : list envelope) : list envelope :=
  match items with
  | [] => []
  | e :: items =>
      match strip_context items with
      | [] => if is_context e then [] else [e]
      | kept => e :: kept
      end
  end.

(** The reference: whole turns are dropped; context at the end of what is kept
    goes with them; when no turn is left, the prelude loses the model and mode
    instructions of the first turn. *)
Definition kept_turns (n : nat) (turns : list (list envelope)) : list (list envelope) :=
  take (length turns - n) turns.

Definition rollback_items (n : nat) (items : list envelope) : list envelope :=
  let '(prelude, turns) := split_turns items in
  match turns, kept_turns n turns with
  | (first :: _) :: _, [] =>
      match item_turn_id (item first) with
      | Some id => omap (retain_first_turn id) prelude
      | None => prelude
      end
  | _, kept => prelude ++ strip_context (concat kept)
  end.

(** The items that are taken off as context. *)
Definition trimmed_context (n : nat) (items : list envelope) : list envelope :=
  let kept := concat (kept_turns n (split_turns items).2) in
  drop (length (strip_context kept)) kept.

(** ** Turns and positions *)

Definition turn_ok (turn : list envelope) : Prop :=
  ∃ e rest, turn = e :: rest ∧ boundary e = true ∧ Forall (λ e, boundary e = false) rest.

Lemma split_turns_spec items prelude turns :
  split_turns items = (prelude, turns) →
  items = prelude ++ concat turns ∧ Forall (λ e, boundary e = false) prelude ∧ Forall turn_ok turns.
Proof.
  revert prelude turns; induction items as [|e items IH]; simpl; intros prelude turns H.
  { injection H as <- <-. by split_and!. }
  destruct (split_turns items) as [rest ts]. destruct (IH rest ts eq_refl) as (-> & Hrest & Hts).
  destruct (boundary e) eqn:He; injection H as <- <-; split_and!; try done.
  - constructor; [|done]. by exists e, rest.
  - by constructor.
Qed.

Fixpoint turn_starts (idx : nat) (turns : list (list envelope)) : list nat :=
  match turns with [] => [] | t :: turns => idx :: turn_starts (idx + length t) turns end.

Lemma positions_split items idx prelude turns :
  split_turns items = (prelude, turns) →
  positions_from idx items = turn_starts (idx + length prelude) turns.
Proof.
  revert idx prelude turns; induction items as [|e items IH]; simpl; intros idx prelude turns H.
  { by injection H as <- <-. }
  destruct (split_turns items) as [rest ts]. specialize (IH (S idx) rest ts eq_refl).
  destruct (boundary e); injection H as <- <-; rewrite IH; simpl; repeat (f_equal; try lia).
Qed.

Lemma turn_starts_length idx turns : length (turn_starts idx turns) = length turns.
Proof. revert idx; induction turns as [|t turns IH]; intros idx; simpl; [done|]. by rewrite IH. Qed.

Lemma turn_starts_lookup idx turns j :
  j < length turns → turn_starts idx turns !! j = Some (idx + length (concat (take j turns))).
Proof.
  revert idx j; induction turns as [|t turns IH]; intros idx j; simpl; [lia|].
  destruct j as [|j]; simpl; intros Hj; [by rewrite Nat.add_0_r|].
  rewrite IH by lia. rewrite length_app. f_equal. lia.
Qed.

(** ** The walk over the context *)

Lemma boundary_not_context e : boundary e = true → is_context e = false.
Proof.
  unfold is_context, trim_item. destruct (item e); try done. simpl.
  destruct (bool_decide (role = lit "user")) eqn:Hu; simpl.
  - apply bool_decide_eq_true in Hu as ->. rewrite (bool_decide_eq_false_2 (lit "user" = lit "developer")) by done.
    rewrite (bool_decide_eq_false_2 (lit "user" = lit "assistant")) by done. simpl. rewrite orb_false_r.
    by intros ->%negb_true_iff.
  - intros [->%bool_decide_eq_true _]%andb_true_iff.
    by rewrite (bool_decide_eq_false_2 (lit "assistant" = lit "developer")).
Qed.

Lemma strip_context_snoc items e :
  strip_context (items ++ [e]) = if is_context e then strip_context items else items ++ [e].
Proof.
  induction items as [|x items IH]; simpl; [done|]. rewrite IH. destruct (is_context e); [done|].
  by destruct (items ++ [e]) eqn:He; [apply app_nil in He as [_ ?]|].
Qed.

Lemma strip_context_prefix items : ∃ rest, items = strip_context items ++ rest ∧ Forall (λ e, is_context e = true) rest.
Proof.
  induction items as [|x items IH] using rev_ind; [by exists []|]. rewrite strip_context_snoc.
  destruct (is_context x) eqn:Hx.
  - destruct IH as (rest & Heq & Hrest). exists (rest ++ [x]).
    split; [by rewrite app_assoc, <- Heq|]. apply Forall_app; auto.
  - exists []. by rewrite app_nil_r.
Qed.

Lemma strip_context_head e items : is_context e = false → ∃ rest, strip_context (e :: items) = e :: rest.
Proof. intros He. simpl. destruct (strip_context items); [rewrite He|]; eauto. Qed.

Lemma trim_walk prelude R rest clears :
  trim_pre_turn_context_updates from_xml (prelude ++ R ++ rest) (length prelude)
    (length prelude + length R) clears
  = Some (length prelude + length (strip_context R),
          existsb is_mixed (drop (length (strip_context R)) R) || clears).
Proof.
  revert rest clears; induction R as [|x R IH] using rev_ind; intros rest clears.
  { rewrite Nat.add_0_r. simpl. destruct (length prelude) eqn:Hl; simpl; [done|].
    by rewrite Nat.ltb_irrefl, Nat.add_0_r. }
  rewrite length_app, Nat.add_1_r, Nat.add_succ_r. simpl.
  rewrite (proj2 (Nat.ltb_lt _ _)) by lia.
  rewrite <- app_assoc. simpl.
  rewrite lookup_app_r, Nat.add_comm, Nat.add_sub, lookup_app_r, Nat.sub_diag by lia. simpl.
  rewrite strip_context_snoc. unfold is_context at 1 2.
  destruct (trim_item from_xml (item x)) as [mixed|] eqn:Hx; simpl.
  - rewrite (Nat.add_comm (length R)), IH. do 2 f_equal.
    destruct (strip_context_prefix R) as (tl & Heq & _).
    assert (length (strip_context R) ≤ length R) by (rewrite Heq at 2; rewrite length_app; lia).
    rewrite drop_app_le by done. rewrite existsb_app. simpl. unfold is_mixed at 3. rewrite Hx.
    rewrite orb_false_r, <- orb_assoc. f_equal.
    by destruct mixed, clears.
  - rewrite drop_ge by done. simpl. rewrite length_app. simpl. do 2 f_equal. lia.
Qed.

(** ** Counting turns *)

Definition turn_count (items : list envelope) : nat := length (List.filter (λ e, boundary e) items).

Lemma turn_count_app a b : turn_count (a ++ b) = turn_count a + turn_count b.
Proof. unfold turn_count. by rewrite List.filter_app, length_app. Qed.

Lemma turn_count_none items : Forall (λ e, boundary e = false) items → turn_count items = 0.
Proof. unfold turn_count. induction 1 as [|e items He _ IH]; simpl; [done|]. by rewrite He. Qed.

Lemma positions_count idx items : length (positions_from idx items) = turn_count items.
Proof.
  revert idx; induction items as [|e items IH]; intros idx; [done|].
  unfold turn_count in *. simpl. rewrite length_app, IH. by destruct (boundary e).
Qed.

Lemma turn_count_turns turns : Forall turn_ok turns → turn_count (concat turns) = length turns.
Proof.
  induction 1 as [|t turns (e & rest & -> & He & Hrest) _ IH]; [done|]. simpl.
  change (e :: rest ++ concat turns) with ((e :: rest) ++ concat turns). rewrite turn_count_app, IH.
  unfold turn_count at 1. simpl. rewrite He. simpl. fold (turn_count rest).
  by rewrite turn_count_none.
Qed.

Lemma turn_count_strip items : turn_count (strip_context items) = turn_count items.
Proof.
  destruct (strip_context_prefix items) as (rest & Heq & Hrest). rewrite Heq at 2.
  rewrite turn_count_app, (turn_count_none rest); [lia|].
  eapply Forall_impl; [done|]. intros e He. apply not_true_is_false. intros Hb.
  apply boundary_not_context in Hb. congruence.
Qed.

Lemma developer_not_boundary e : is_developer_message (item e) = true → boundary e = false.
Proof.
  unfold is_developer_message. destruct (item e); try done. by intros ->%bool_decide_eq_true.
Qed.

Lemma retained_not_boundary id e e' :
  boundary e = false → retain_first_turn id e = Some e' → boundary e' = false.
Proof.
  unfold retain_first_turn. intros He. destruct (_ && _) eqn:Hc; [|by intros [= <-]].
  apply andb_true_iff in Hc as [_ Hdev]. destruct (item e) eqn:Hi; try done. simpl.
  destruct (is_empty _); [done|]. intros [= <-]. by apply developer_not_boundary.
Qed.

Lemma turn_count_retained id items :
  Forall (λ e, boundary e = false) items → turn_count (omap (retain_first_turn id) items) = 0.
Proof.
  intros Hall. apply turn_count_none, Forall_forall. intros e' (e & He & Hr)%list_elem_of_omap.
  rewrite Forall_forall in Hall. eapply retained_not_boundary; eauto.
Qed.

(** ** Rollback *)

Lemma kept_turns_ok n turns : Forall turn_ok turns → Forall turn_ok (kept_turns n turns).
Proof. apply Forall_take. Qed.

Lemma kept_turns_length n turns : length (kept_turns n turns) = length turns - n.
Proof. unfold kept_turns. rewrite length_take. lia. Qed.

Lemma take_prefix_app (l a b x : list envelope) : l = a ++ b → take (length a) (l ++ x) = a.
Proof. intros ->. rewrite <- app_assoc. apply take_app_length. Qed.

(** Where the history is cut. *)
Lemma rollback_cut n (prelude : list envelope) turns :
  0 < n →
  (if length (turn_starts (length prelude) turns) <=? n then Some (length prelude)
   else turn_starts (length prelude) turns !! (length (turn_starts (length prelude) turns) - n))
  = Some (length prelude + length (concat (kept_turns n turns))).
Proof.
  intros Hn. rewrite turn_starts_length. unfold kept_turns.
  destruct (Nat.leb_spec (length turns) n).
  - replace (length turns - n) with 0 by lia. simpl. by rewrite Nat.add_0_r.
  - apply turn_starts_lookup. lia.
Qed.

Definition baseline_cleared (n : nat) (h : manager) : bool :=
  existsb is_mixed (trimmed_context n (cm_items h)).

Definition rolled_back (n : nat) (h : manager) : manager :=
  replace_annotated (rollback_items n (cm_items h))
    (if baseline_cleared n h then set_reference_context_item h None else h).

Lemma drop_last_rolls_back num_turns h :
  num_turns ≠ 0%N →
  drop_last_n_user_turns from_xml is_inter_agent num_turns h = Some (rolled_back (N.to_nat num_turns) h).
Proof.
  intros Hn. unfold drop_last_n_user_turns, rolled_back, baseline_cleared, trimmed_context, rollback_items.
  rewrite (proj2 (N.eqb_neq _ _)) by done. set (n := N.to_nat num_turns).
  assert (0 < n) as Hn0 by lia. clearbody n. clear Hn num_turns.
  destruct (split_turns (cm_items h)) as [prelude turns] eqn:Hs.
  destruct (split_turns_spec _ _ _ Hs) as (Hitems & Hpre & Hturns).
  unfold HistoryManager.user_message_positions. rewrite (positions_split _ 0 _ _ Hs). simpl.
  destruct turns as [|t0 turns].
  { simpl in *. rewrite app_nil_r in *. by rewrite Hitems. }
  destruct (turn_starts (length prelude) (t0 :: turns)) as [|first starts] eqn:Hst; [done|].
  assert (first = length prelude) as -> by (simpl in Hst; congruence). rewrite <- Hst.
  rewrite (rollback_cut n prelude (t0 :: turns)) by done. simpl.
  apply Forall_cons in Hturns as Ht. destruct Ht as [(e & rest & -> & He & Hrest) _].
  pose proof (kept_turns_ok n _ Hturns) as Hkept.
  set (kept := kept_turns n ((e :: rest) :: turns)) in *.
  assert (∃ tl, (e :: rest) :: turns = kept ++ tl) as [tl Htl]
    by (exists (drop (length ((e :: rest) :: turns) - n) ((e :: rest) :: turns));
        symmetry; apply take_drop).
  assert (cm_items h = prelude ++ concat kept ++ concat tl) as Hcut
    by (rewrite Hitems, Htl, concat_app; done).
  rewrite Hcut, trim_walk. simpl. rewrite orb_false_r.
  destruct (strip_context_prefix (concat kept)) as (stripped & Hstrip & _).
  assert (length (strip_context (concat kept)) ≤ length (concat kept))
    by (rewrite Hstrip at 2; rewrite length_app; lia).
  rewrite (proj2 (Nat.ltb_ge _ _)) by (rewrite !length_app; lia).
  assert ((prelude ++ concat kept ++ concat tl) !! length prelude = Some e) as Hfirst.
  { rewrite <- concat_app, <- Htl. simpl. by apply list_lookup_middle. }
  rewrite Hfirst. simpl. do 2 f_equal.
  replace (take (length prelude + length (strip_context (concat kept)))
             (prelude ++ concat kept ++ concat tl))
    with (prelude ++ strip_context (concat kept)).
  2: { rewrite take_app_add' by done. by rewrite (take_prefix_app _ _ _ _ Hstrip). }
  destruct kept as [|t kept'] eqn:Hk.
  { simpl. rewrite Nat.add_0_r, Nat.eqb_refl, app_nil_r. by destruct (item_turn_id (item e)). }
  apply Forall_cons in Hkept as [(e' & rest' & -> & He' & _) _].
  destruct (strip_context_head e' (rest' ++ concat kept') (boundary_not_context _ He')) as [r Hr].
  simpl concat in *. rewrite <- app_comm_cons, Hr in *. simpl length.
  assert ((length prelude + S (length r) =? length prelude) = false) as -> by (apply Nat.eqb_neq; lia).
  by destruct (item_turn_id (item e)).
Qed.

Lemma rollback_turn_count n items :
  turn_count (rollback_items n items) = turn_count items - n.
Proof.
  unfold rollback_items. destruct (split_turns items) as [prelude turns] eqn:Hs.
  destruct (split_turns_spec _ _ _ Hs) as (-> & Hpre & Hturns).
  rewrite turn_count_app, (turn_count_none prelude), (turn_count_turns turns) by done. simpl.
  pose proof (kept_turns_ok n _ Hturns) as Hkept. pose proof (kept_turns_length n turns) as Hlen.
  assert (turn_count (prelude ++ strip_context (concat (kept_turns n turns))) = length turns - n) as Hgen.
  { rewrite turn_count_app, turn_count_none, turn_count_strip, turn_count_turns by done. lia. }
  destruct turns as [|[|e rest] turns]; [done|done|].
  destruct (kept_turns n _) eqn:Hk; [|done]. etransitivity; [|exact Hlen].
  destruct (item_turn_id (item e)); [by apply turn_count_retained|by apply turn_count_none].
Qed.

(** Without turns there is nothing to drop. *)
Lemma rollback_no_turns n items :
  user_message_positions items = [] →
  rollback_items n items = items ∧ trimmed_context n items = [].
Proof.
  unfold HistoryManager.user_message_positions, rollback_items, trimmed_context.
  destruct (split_turns items) as [prelude turns] eqn:Hs. rewrite (positions_split _ _ _ _ Hs).
  destruct (split_turns_spec _ _ _ Hs) as (-> & _ & _). destruct turns; [|done]. intros _.
  unfold kept_turns. simpl. by rewrite app_nil_r.
Qed.

(** C13: Rolling back never panics, and what it does depends on the turns there
    are.  Rolling back no turn changes nothing.  Otherwise the rollback counts as
    a rewrite: both counters are bumped and the world state is forgotten.  If
    the history has no turn its items and the reference context stay (the
    documentation calls this a no-op, which it is for the items only).  If it has
    turns, the last [num_turns] of them, or all, are gone, and with them the
    context that was injected at the end of what is kept; when no turn is left,
    the prelude also loses the model and mode instructions that carry the id of
    the first turn.  The reference context is forgotten exactly when a message
    that mixed context with other text was taken off. *)
Theorem rollback_drops_turns num_turns (h : manager) :
  ∃ h', drop_last_n_user_turns from_xml is_inter_agent num_turns h = Some h'
  ∧ length (user_message_positions (cm_items h'))
    = length (user_message_positions (cm_items h)) - N.to_nat num_turns
  ∧ (num_turns = 0%N → h' = h)
  ∧ (num_turns ≠ 0%N →
     history_version h' = sat_add (history_version h) 1
     ∧ user_message_revision h' = sat_add (user_message_revision h) 1
     ∧ world_state_baseline h' = None ∧ token_info h' = token_info h)
  ∧ (user_message_positions (cm_items h) = [] →
     cm_items h' = cm_items h ∧ reference_context_item h' = reference_context_item h)
  ∧ (num_turns ≠ 0%N → user_message_positions (cm_items h) ≠ [] →
     cm_items h' = rollback_items (N.to_nat num_turns) (cm_items h)
     ∧ reference_context_item h'
       = if existsb is_mixed (trimmed_context (N.to_nat num_turns) (cm_items h)) then None
         else reference_context_item h).
Proof.
  destruct (decide (num_turns = 0%N)) as [->|Hn].
  { exists h. split; [done|]. split; [simpl; lia|]. done. }
  exists (rolled_back (N.to_nat num_turns) h). split; [by apply drop_last_rolls_back|].
  split.
  { unfold HistoryManager.user_message_positions. rewrite !positions_count.
    apply rollback_turn_count. }
  split; [done|]. unfold rolled_back, baseline_cleared.
  split; [by destruct (existsb _ _)|]. split; [|by destruct (existsb _ _)].
  intros Hp. destruct (rollback_no_turns (N.to_nat num_turns) _ Hp) as [-> ->]. done.
Qed.

(** ** Rolling back one turn *)

Lemma split_turns_plain c : Forall (λ e, boundary e = false) c → split_turns c = (c, []).
Proof. induction 1 as [|e c He _ IH]; simpl; [done|]. by rewrite IH, He. Qed.

Lemma split_turns_app_plain a c prelude turns :
  split_turns a = (prelude, turns) → Forall (λ e, boundary e = false) c →
  ∃ prelude' turns', split_turns (a ++ c) = (prelude', turns')
  ∧ (turns = [] → prelude' = prelude ++ c ∧ turns' = [])
  ∧ (turns ≠ [] → prelude' = prelude ∧ turns' ≠ [] ∧ concat turns' = concat turns ++ c).
Proof.
  intros Ha Hc. revert prelude turns Ha.
  induction a as [|e a IH]; simpl; intros prelude turns Ha.
  { injection Ha as <- <-. exists c, []. rewrite split_turns_plain by done. done. }
  destruct (split_turns a) as [rest ts]. destruct (IH rest ts eq_refl) as (p' & ts' & -> & Hnil & Hcons).
  destruct (boundary e); injection Ha as <- <-.
  - eexists _, _. split; [done|]. split; [done|]. intros _. split_and!; [done|done|]. simpl. f_equal.
    destruct (decide (ts = [])) as [->|Hne].
    + destruct (Hnil eq_refl) as [-> ->]. simpl. by rewrite !app_nil_r.
    + destruct (Hcons Hne) as (-> & _ & ->). by rewrite app_assoc.
  - eexists _, _. split; [done|]. split.
    + intros Hts. by destruct (Hnil Hts) as [-> ->].
    + intros Hts. by destruct (Hcons Hts) as (-> & ? & ?).
Qed.

Lemma split_turns_app_turn a t prelude turns :
  split_turns a = (prelude, turns) → turn_ok t → split_turns (a ++ t) = (prelude, turns ++ [t]).
Proof.
  intros Ha (b & rest & -> & Hb & Hrest). revert prelude turns Ha.
  induction a as [|e a IH]; simpl; intros prelude turns Ha.
  { injection Ha as <- <-. by rewrite (split_turns_plain rest), Hb. }
  destruct (split_turns a) as [p ts]. rewrite (IH p ts eq_refl).
  by destruct (boundary e); injection Ha as <- <-.
Qed.

(** A fragment that is recognised when it is read again. *)
Definition fragment_contextual (f : fragment) : Prop :=
  let r := fragment_rendered f in
  (rf_role r = lit "user" ∧ is_contextual_user_fragment from_xml (ac_content (rf_content r)) = true)
  ∨ (rf_role r = lit "developer" ∧ is_contextual_dev_fragment (ac_content (rf_content r)) = true).

Lemma group_contextual (g : str * MessageGroup * list RenderedFragment) meta :
  group_ok g →
  Forall (λ r, (rf_role r = lit "user" ∧ is_contextual_user_fragment from_xml (ac_content (rf_content r)) = true)
               ∨ (rf_role r = lit "developer" ∧ is_contextual_dev_fragment (ac_content (rf_content r)) = true)) g.2 →
  negb (is_none (trim_item from_xml
    (Message None g.1.1 (ac_content ∘ rf_content <$> g.2) None meta))) = true.
Proof.
  destruct g as [[role tag] [|r frs]]; [by intros [? _]|]. intros (_ & Hrole & _) Hall. simpl in *.
  apply Forall_cons in Hrole as [<- _]. apply Forall_cons in Hall as [[[-> Hr]|[-> Hr]] _].
  - rewrite (bool_decide_eq_false_2 (lit "user" = lit "developer")) by done. simpl. by rewrite Hr.
  - unfold is_contextual_dev_message_content. simpl. by rewrite Hr.
Qed.

Lemma merged_are_context (fragments : list fragment) (context : list envelope) :
  Forall fragment_contextual fragments →
  item <$> context = merge_contextual_fragments fragments →
  Forall (λ e, is_context e = true) context.
Proof.
  intros Hfr Hctx.
  destruct (merge_fragments_ok fragments []) as (Hok & _ & Hflat); [done|by intros i a b|].
  unfold merge_contextual_fragments in Hctx. apply Forall_reverse in Hok. revert Hok Hflat Hctx.
  generalize (reverse (foldl merge_fragment [] fragments)). intros gs Hok Hflat Hctx.
  assert (Forall (λ x, (rf_role x.1 = lit "user" ∧ is_contextual_user_fragment from_xml (ac_content (rf_content x.1)) = true)
    ∨ (rf_role x.1 = lit "developer" ∧ is_contextual_dev_fragment (ac_content (rf_content x.1)) = true)) (flatten gs)) as Hall.
  { rewrite Hflat. simpl. by apply Forall_fmap. }
  clear Hfr Hflat. revert context Hctx. induction Hok as [|[[role tag] frs] gs Hg _ IH]; intros context Hctx.
  { by destruct context. }
  simpl in Hctx. rewrite (build_rendered_group role tag frs Hg) in Hctx.
  destruct context as [|e context]; [done|]. injection Hctx as He Hctx.
  unfold flatten in Hall. simpl in Hall. apply Forall_app in Hall as [H1 H2]. apply Forall_fmap in H1.
  constructor; [|by apply IH]. unfold is_context. rewrite He.
  by apply (group_contextual (role, tag, frs)).
Qed.

Lemma strip_context_app a c : Forall (λ e, is_context e = true) c → strip_context (a ++ c) = strip_context a.
Proof.
  induction c as [|e c IH] using rev_ind; [by rewrite app_nil_r|].
  intros [Hc He]%Forall_app. rewrite app_assoc, strip_context_snoc, IH by done.
  by apply Forall_cons in He as [-> _].
Qed.

Lemma strip_context_last a : (∀ e, last a = Some e → is_context e = false) → strip_context a = a.
Proof.
  destruct a as [|x a] using rev_ind; [done|]. rewrite last_snoc, strip_context_snoc.
  intros H. by rewrite (H x eq_refl).
Qed.

(** Rolling back one turn undoes it: a turn together with the context that
    was rendered, merged and recorded for it disappears, and the history is what
    it was before, if it had a turn and did not end in context itself. *)
Theorem rollback_undoes_turn (h : manager) before context turn (fragments : list fragment) :
  cm_items h = before ++ context ++ turn →
  0 < length (user_message_positions before) →
  (∀ e, last before = Some e → is_context e = false) →
  Forall fragment_contextual fragments → item <$> context = merge_contextual_fragments fragments →
  turn_ok turn →
  ∃ h', drop_last_n_user_turns from_xml is_inter_agent 1 h = Some h' ∧ cm_items h' = before.
Proof.
  intros Hitems Hturns Hlast Hfr Hctx Hturn.
  pose proof (merged_are_context _ _ Hfr Hctx) as Hcontext.
  exists (rolled_back 1 h). split; [by apply drop_last_rolls_back|].
  assert (cm_items (rolled_back 1 h) = rollback_items 1 (cm_items h)) as -> by done.
  assert (Forall (λ e, boundary e = false) context) as Hplain.
  { eapply Forall_impl; [exact Hcontext|]. intros e He. apply not_true_is_false.
    intros Hb. apply boundary_not_context in Hb. congruence. }
  destruct (split_turns before) as [prelude turns] eqn:Hs.
  destruct (split_turns_spec _ _ _ Hs) as (Hbefore & _ & _).
  unfold HistoryManager.user_message_positions in Hturns.
  rewrite (positions_split _ 0 _ _ Hs), turn_starts_length in Hturns.
  assert (turns ≠ []) as Hne by (by destruct turns; simpl in *; [lia|]).
  destruct (split_turns_app_plain _ context _ _ Hs Hplain) as (p & ts & Hs2 & _ & Hcons).
  destruct (Hcons Hne) as (-> & Hts & Hconcat).
  unfold rollback_items. rewrite Hitems, app_assoc, (split_turns_app_turn _ turn _ _ Hs2 Hturn).
  cbv beta iota.
  assert (kept_turns 1 (ts ++ [turn]) = ts) as Hkept.
  { unfold kept_turns. rewrite length_app. simpl. rewrite Nat.add_sub. apply take_app_length. }
  assert (prelude ++ strip_context (concat ts) = before) as Hgoal.
  { rewrite Hconcat, strip_context_app, Hbefore by done. f_equal. apply strip_context_last.
    intros e He. apply Hlast. by rewrite Hbefore, last_app, He. }
  destruct ts as [|[|e t] ts]; [done|..];
    rewrite <- app_comm_cons in *; cbv beta iota; by rewrite Hkept.
Qed.
End turns.
