(* ===== verification/HistoryRevisions.v ===== *)
(** * Recording, revisions and token counts

    Recording appends every item that goes to the model, with tool outputs cut
    to their budgets; the history version and the user revision tell whether the
    history was rewritten and whether the user's authorization may have changed;
    token totals are sums and estimates never overflow. *)

From S2P Require Import Prelude RustStr Utf8 Truncation ResponseItems History ContextFragments TokenEstimates HistoryManager HistoryTurns.

Section revisions.
Context {J : JsonTypes} {TurnContextItem WorldStateSnapshot : Type}.
Context (from_xml : str → option HookPromptFragment) (is_inter_agent : str → bool)
  (overflow_checks : bool) (estimate_audio_token_count : str → N).

Abbreviation manager := (@ContextManager J TokenUsageInfo TurnContextItem WorldStateSnapshot).
Abbreviation envelope := ResponseItemEnvelope.
Abbreviation entry := (ResponseItem * option CodexHarnessMetadata)%type.

(** ** Recording *)

(** The strings of tool outputs are shorter than the address space. *)
Definition payload_fits (output : FunctionCallOutputPayload) : Prop :=
  match body output with
  | OutputText text => (byte_len text ≤ usize_max)%N
  | ContentItems items => ∀ t, InputText t ∈ items → (byte_len t ≤ usize_max)%N
  end.

Definition item_fits (i : ResponseItem) : Prop :=
  match i with
  | FunctionCallOutput _ _ _ _ output _ | CustomToolCallOutput _ _ _ output _ => payload_fits output
  | _ => True
  end.

Lemma truncate_payload_total policy output :
  payload_fits output →
  is_Some (truncate_function_output_payload estimate_audio_token_count policy output).
Proof.
  unfold payload_fits, truncate_function_output_payload. destruct (body output) as [text|items]; intros Hf.
  - by destruct (truncate_text_total text policy Hf) as [t ->].
  - unfold truncate_function_output_items_with_policy.
    destruct (items_loop_ok estimate_audio_token_count policy items
      {| remaining := item_budget policy; omitted_text := 0; omitted_audio := 0 |} Hf)
      as (kept & st & -> & _). simpl. by destruct st.
Qed.

Lemma truncate_item_total policy i :
  item_fits i → is_Some (truncate_item estimate_audio_token_count policy i).
Proof.
  intros Hf. destruct i; try done; simpl;
    by destruct (truncate_payload_total policy output Hf) as [o ->].
Qed.

(** The entries that are recorded, and how many of them may carry the user's
    authorization. *)
Definition recorded (entries : list entry) : list entry :=
  List.filter (λ entry, is_api_message entry.1) entries.
Definition authorizing (entries : list entry) : nat :=
  length (List.filter (λ entry, is_user_authorization_message entry.1) (recorded entries)).

Lemma sat_add_add a m n : sat_add (sat_add a m) n = sat_add a (m + n).
Proof. unfold sat_add. lia. Qed.

(** An entry and the envelope it becomes. *)
Definition recorded_as (policy : TruncationPolicy) (entry : entry) (e : envelope) : Prop :=
  metadata e = entry.2
  ∧ truncate_item estimate_audio_token_count (recording_policy entry.2 policy) entry.1 = Some (item e).

Lemma record_appends policy entries (h h' : manager) :
  (user_message_revision h ≤ usize_max)%N →
  record_items_with_metadata estimate_audio_token_count policy entries h = Some h' →
  ∃ new, cm_items h' = cm_items h ++ new
  ∧ Forall2 (recorded_as policy) (recorded entries) new
  ∧ user_message_revision h' = sat_add (user_message_revision h) (N.of_nat (authorizing entries))
  ∧ history_version h' = history_version h.
Proof.
  revert h; induction entries as [|[i meta] entries IH]; intros h Hrev; simpl.
  { intros [= <-]. exists []. rewrite app_nil_r. split_and!; [done|by constructor| |done].
    unfold sat_add, authorizing. simpl. lia. }
  unfold record_item, recorded, authorizing, recorded.
  simpl List.filter. destruct (is_api_message i); simpl; [|by apply IH].
  destruct (truncate_item _ _ i) as [p|] eqn:Hp; [|done]. simpl.
  set (h2 := if is_user_authorization_message i then _ else _).
  assert (cm_items h2 = cm_items h ++ [{| item := p; metadata := meta |}]
          ∧ history_version h2 = history_version h
          ∧ user_message_revision h2
            = sat_add (user_message_revision h) (if is_user_authorization_message i then 1 else 0)) as (H1 & H2 & H3).
  { subst h2. destruct (is_user_authorization_message i); split_and!; try done.
    simpl. unfold sat_add. lia. }
  intros Hrun. destruct (IH h2) as (new & Hit & Hall & Hr & Hv); [|exact Hrun|].
  { rewrite H3. unfold sat_add. lia. }
  exists ({| item := p; metadata := meta |} :: new). split_and!.
  - by rewrite Hit, H1, <- app_assoc.
  - by constructor.
  - rewrite Hr, H3, sat_add_add. f_equal. unfold authorizing, recorded.
    destruct (is_user_authorization_message i); simpl; lia.
  - by rewrite Hv, H2.
Qed.

Lemma record_total policy entries (h : manager) :
  Forall (λ entry, item_fits entry.1) entries →
  is_Some (record_items_with_metadata estimate_audio_token_count policy entries h).
Proof.
  intros Hfits. revert h. induction Hfits as [|[i meta] entries Hi _ IH]; intros h; simpl; [done|].
  unfold record_item. destruct (is_api_message i); simpl; [|apply IH].
  destruct (truncate_item_total (recording_policy meta policy) i Hi) as [p ->]. simpl. apply IH.
Qed.

(** Recording never panics.  It appends the items that go to the model, in
    order and with their metadata, and changes nothing that was there; each is
    the item that was given, except that a tool output is cut to its own limit
    or else to 1.2 times the policy.  The user revision counts the messages that
    may carry the user's authorization. *)
Theorem recorded_items policy entries (h : manager) :
  (user_message_revision h ≤ usize_max)%N →
  Forall (λ entry, item_fits entry.1) entries →
  ∃ h' new, record_items_with_metadata estimate_audio_token_count policy entries h = Some h'
  ∧ cm_items h' = cm_items h ++ new
  ∧ Forall2 (recorded_as policy) (recorded entries) new
  ∧ user_message_revision h' = sat_add (user_message_revision h) (N.of_nat (authorizing entries))
  ∧ history_version h' = history_version h.
Proof.
  intros Hrev Hfits. destruct (record_total policy entries h Hfits) as [h' Hrun].
  destruct (record_appends _ _ _ _ Hrev Hrun) as (new & ?). by exists h', new.
Qed.

(** ** Revisions *)

(** The operations that change a history. *)
Inductive op :=
| ORecord (policy : TruncationPolicy) (entries : list entry)
| OCompact (items : list envelope)
| OReplace (items : list envelope)
| ORollback (num_turns : N)
| ORemoveFirst
| OUsage (usage : TokenUsage) (window : option Z)
| OFull (window : Z)
| OSetTokens (info : option TokenUsageInfo)
| OSetContext (item : option TurnContextItem)
| OSetWorld (snapshot : WorldStateSnapshot).

Definition run_op (o : op) (h : manager) : option manager :=
  match o with
  | ORecord policy entries => record_items_with_metadata estimate_audio_token_count policy entries h
  | OCompact items => Some (replace_compacted items h)
  | OReplace items => Some (replace_annotated items h)
  | ORollback n => drop_last_n_user_turns from_xml is_inter_agent n h
  | ORemoveFirst => Some (remove_first_item h)
  | OUsage usage window => update_token_info overflow_checks h usage window
  | OFull window => set_token_usage_full overflow_checks h window
  | OSetTokens info => Some (set_token_info h info)
  | OSetContext item => Some (set_reference_context_item h item)
  | OSetWorld snapshot => Some (set_world_state_baseline h snapshot)
  end.

Fixpoint run_ops (ops : list op) (h : manager) : option manager :=
  match ops with [] => Some h | o :: ops => h ← run_op o h; run_ops ops h end.

(** An operation that replaces the items, and one that may change what the user
    has authorized. *)
Definition rewrites (o : op) : bool :=
  match o with OCompact _ | OReplace _ => true | ORollback n => negb (n =? 0)%N | _ => false end.
Definition resets (o : op) : bool :=
  match o with
  | OReplace _ => true
  | ORollback n => negb (n =? 0)%N
  | ORecord _ entries => negb (authorizing entries =? 0)
  | _ => false
  end.
Definition removes_first (o : op) : bool := match o with ORemoveFirst => true | _ => false end.

Definition counters_ok (h : manager) : Prop :=
  (history_version h ≤ u64_max)%N ∧ (user_message_revision h ≤ u64_max)%N.

(** What one operation does to a counter: it grows if [changes], and a counter
    below its maximum grows strictly. *)
Definition counts (changes : bool) (before after : N) : Prop :=
  (before ≤ after ≤ u64_max)%N ∧ (changes = false → after = before)
  ∧ (changes = true → (before < u64_max)%N → (before < after)%N).

Lemma counts_same n : (n ≤ u64_max)%N → counts false n n.
Proof. unfold counts. lia. Qed.

Lemma counts_bump n : (n ≤ u64_max)%N → counts true n (sat_add n 1).
Proof. unfold counts, sat_add, usize_max, u64_max. lia. Qed.

Lemma counts_add n k : (n ≤ u64_max)%N → counts (negb (k =? 0)) n (sat_add n (N.of_nat k)).
Proof. unfold counts, sat_add, usize_max, u64_max. destruct (Nat.eqb_spec k 0); simpl; lia. Qed.

Lemma run_op_counts o h h' :
  counters_ok h → run_op o h = Some h' →
  counts (rewrites o) (history_version h) (history_version h')
  ∧ counts (resets o) (user_message_revision h) (user_message_revision h')
  ∧ (rewrites o = false → removes_first o = false → cm_items h `prefix_of` cm_items h').
Proof.
  intros [Hv Hr] Hrun. destruct o; simpl in Hrun |- *; try (injection Hrun as <-).
  - destruct (record_appends _ _ _ _ Hr Hrun) as (new & Hit & _ & -> & ->).
    split_and!; [by apply counts_same|by apply counts_add|]. intros _ _. rewrite Hit. by apply prefix_app_r.
  - split_and!; [by apply counts_bump|by apply counts_same|done].
  - split_and!; [by apply counts_bump|by apply counts_bump|done].
  - destruct (N.eqb_spec num_turns 0) as [->|Hn]; simpl.
    + injection Hrun as <-. split_and!; [by apply counts_same|by apply counts_same|done].
    + rewrite drop_last_rolls_back in Hrun by done. injection Hrun as <-. unfold rolled_back.
      destruct (baseline_cleared _ _ _ _); split_and!; try done; by apply counts_bump.
  - unfold remove_first_item. destruct (cm_items h); split_and!; try done; by apply counts_same.
  - unfold update_token_info in Hrun. destruct (new_or_append _ _ _ _); [|done].
    injection Hrun as <-. split_and!; [by apply counts_same|by apply counts_same|done].
  - unfold set_token_usage_full in Hrun. destruct (match token_info h with Some _ => _ | None => _ end); [|done].
    injection Hrun as <-. split_and!; [by apply counts_same|by apply counts_same|done].
  - split_and!; [by apply counts_same|by apply counts_same|done].
  - split_and!; [by apply counts_same|by apply counts_same|done].
  - split_and!; [by apply counts_same|by apply counts_same|done].
Qed.

(** The same for a sequence of operations. *)
Lemma counts_trans a b x y z : counts a x y → counts b y z → counts (a || b) x z.
Proof. unfold counts. destruct a, b; simpl; lia. Qed.

Lemma run_ops_counts ops h h' :
  counters_ok h → run_ops ops h = Some h' →
  counts (existsb rewrites ops) (history_version h) (history_version h')
  ∧ counts (existsb resets ops) (user_message_revision h) (user_message_revision h')
  ∧ (existsb rewrites ops = false → existsb removes_first ops = false →
     cm_items h `prefix_of` cm_items h').
Proof.
  revert h; induction ops as [|o ops IH]; intros h Hok; simpl.
  { intros [= <-]. destruct Hok. split_and!; [by apply counts_same|by apply counts_same|done]. }
  destruct (run_op o h) as [h1|] eqn:Ho; [|done]. simpl. intros Hrun.
  destruct (run_op_counts _ _ _ Hok Ho) as (Hv & Hr & Hp).
  destruct (IH h1) as (Hv' & Hr' & Hp'); [|done|].
  { destruct Hv as [? _], Hr as [? _]. split; lia. }
  split_and!; [by eapply counts_trans|by eapply counts_trans|].
  intros [??]%orb_false_iff [??]%orb_false_iff. etrans; [by apply Hp|by apply Hp'].
Qed.

(** The counters tell what happened to a history.  Whatever operations ran
    (removing the first item apart), an unchanged version below its maximum
    means that no operation replaced the items and that the old items are a
    prefix of the new ones; an unchanged user revision below its maximum means
    that no reset, rollback or message that may carry the user's authorization
    was recorded in between.  Neither counter ever decreases. *)
Theorem revisions_track_history ops (h h' : manager) :
  counters_ok h → run_ops ops h = Some h' →
  (history_version h ≤ history_version h')%N
  ∧ (user_message_revision h ≤ user_message_revision h')%N
  ∧ counters_ok h'
  ∧ (existsb removes_first ops = false →
     (history_version h < u64_max)%N → history_version h' = history_version h →
     cm_items h `prefix_of` cm_items h' ∧ Forall (λ o, rewrites o = false) ops)
  ∧ ((user_message_revision h < u64_max)%N → user_message_revision h' = user_message_revision h →
     Forall (λ o, resets o = false) ops).
Proof.
  intros Hok Hrun. destruct (run_ops_counts _ _ _ Hok Hrun) as ((Hv & _ & Hv') & (Hr & _ & Hr') & Hp).
  assert (∀ f : op → bool, existsb f ops = false → Forall (λ o, f o = false) ops) as Hall.
  { intros f Hf. apply Forall_forall. intros o Ho. apply not_true_is_false. intros Hfo.
    assert (existsb f ops = true) by (apply existsb_exists; exists o; by rewrite <- list_elem_of_In).
    congruence. }
  split_and!; [lia|lia|split; lia| |].
  - intros Hfirst Hlt Heq. destruct (existsb rewrites ops) eqn:He.
    + specialize (Hv' eq_refl Hlt). lia.
    + split; [by apply Hp|by apply Hall].
  - intros Hlt Heq. apply Hall. destruct (existsb resets ops) eqn:He; [|done].
    specialize (Hr' eq_refl Hlt). lia.
Qed.
End revisions.

(** ** Token counts *)

Section token_counts.
Context {J : JsonTypes} {TurnContextItem WorldStateSnapshot : Type}.
Context (from_xml : str → option HookPromptFragment) (is_inter_agent : str → bool).
Context (serialized_json_bytes : ResponseItem → option N) (base64_decode : str → option bytes)
  (image_size : bytes → option (N * N)) (estimate_audio_token_count : str → N).
#[local] Open Scope Z_scope.

Abbreviation manager := (@ContextManager J TokenUsageInfo TurnContextItem WorldStateSnapshot).
Abbreviation measurable := (measurable serialized_json_bytes base64_decode image_size
  estimate_audio_token_count).
Abbreviation item_tokens := (item_tokens serialized_json_bytes base64_decode image_size
  estimate_audio_token_count).
Abbreviation sums := (sum_estimates serialized_json_bytes base64_decode image_size
  estimate_audio_token_count).

Definition tokens_of (items : list ResponseItem) : Z := foldr (λ i n, item_tokens i + n) 0 items.

(** The last item with a property, what comes before it and what comes after;
    nothing when there is none. *)
Definition around_last (f : ResponseItem → bool) (items before after : list ResponseItem) : Prop :=
  (∃ i, items = before ++ i :: after ∧ f i = true ∧ Forall (λ i, f i = false) after)
  ∨ Forall (λ i, f i = false) items ∧ before = [] ∧ after = [].

Lemma rposition_none f items : Forall (λ i, f i = false) items → rposition f items = None.
Proof. induction 1 as [|i items Hi _ IH]; simpl; [done|]. by rewrite IH, Hi. Qed.

Lemma rposition_last f before i after :
  f i = true → Forall (λ i, f i = false) after → rposition f (before ++ i :: after) = Some (length before).
Proof.
  intros Hi Ha. induction before as [|j before IH]; simpl; [by rewrite rposition_none, Hi|]. by rewrite IH.
Qed.

Lemma tokens_of_nonneg items : 0 ≤ tokens_of items.
Proof.
  induction items as [|i items IH]; simpl; [done|].
  assert (0 ≤ item_tokens i) by (apply Z.div_pos; lia). lia.
Qed.

Lemma sums_exact items : Forall measurable items → sums items = Z.min i64_max (tokens_of items).
Proof. intros Hm. unfold sum_estimates. by rewrite total_exact, exact_total_reference. Qed.

Lemma reported_after (h : manager) before after :
  around_last is_model_generated_item (item <$> cm_items h) before after →
  items_after_last_model_generated_item h = after.
Proof.
  unfold items_after_last_model_generated_item. cbn zeta. intros [(i & -> & Hi & Ha)|(Hn & _ & ->)].
  - rewrite rposition_last by done. rewrite (cons_middle i), app_assoc. apply drop_app_length'.
    rewrite length_app. simpl. lia.
  - rewrite rposition_none by done. apply drop_ge. done.
Qed.

Lemma reasoning_before (h : manager) before after :
  around_last (is_user_turn_boundary from_xml is_inter_agent) (item <$> cm_items h) before after →
  get_non_last_reasoning_items_tokens from_xml is_inter_agent serialized_json_bytes base64_decode
    image_size estimate_audio_token_count h
  = sums (List.filter is_encrypted_reasoning before).
Proof.
  unfold get_non_last_reasoning_items_tokens. intros [(i & -> & Hi & Ha)|(Hn & -> & _)].
  - rewrite rposition_last by done. by rewrite take_app_length.
  - by rewrite rposition_none.
Qed.

Lemma around_last_forall (P : ResponseItem → Prop) f items before after :
  around_last f items before after → Forall P items → Forall P before ∧ Forall P after.
Proof.
  intros [(i & -> & _)|(_ & -> & ->)] HP; [|done].
  apply Forall_app in HP as [? HP]. by apply Forall_cons in HP as [_ ?].
Qed.

(** C38: What a conversation is taken to cost.  Every item costs a token for
    four bytes the model sees, rounded up: its JSON, in which the payload of each
    inline image, each inline audio and each encrypted part is replaced by an
    estimate, or three quarters of its encoding less 650 bytes where the whole
    item is encrypted.  The estimate of a history is the cost of the base
    instructions and of all items; the usage that is shown is what the server
    reported last, the items after the last one the model generated and, unless
    the server counts them, the encrypted reasoning before the last user turn.
    Both are the exact sums, cut off at the largest [i64].  Sizes are below 2^59
    bytes and the server's report is not negative. *)
Theorem history_estimate (h : manager) base_instructions server_reasoning_included
    pre post seen unseen :
  let last := match token_info h with Some info => total_tokens (last_token_usage info) | None => 0 end in
  Forall measurable (item <$> cm_items h) →
  Z.of_N (byte_len base_instructions) ≤ max_size →
  0 ≤ last ≤ i64_max →
  around_last (is_user_turn_boundary from_xml is_inter_agent) (item <$> cm_items h) pre post →
  around_last is_model_generated_item (item <$> cm_items h) seen unseen →
  estimate_token_count_with_base_instructions serialized_json_bytes base64_decode image_size
    estimate_audio_token_count h base_instructions
  = Some (Z.min i64_max ((Z.of_N (byte_len base_instructions) + 3) / 4 + tokens_of (item <$> cm_items h)))
  ∧ get_total_token_usage from_xml is_inter_agent serialized_json_bytes base64_decode image_size
      estimate_audio_token_count h server_reasoning_included
    = Z.min i64_max (last + tokens_of unseen
        + if server_reasoning_included then 0 else tokens_of (List.filter is_encrypted_reasoning pre)).
Proof.
  intros last Hm Hb Hlast Hpre Hseen.
  destruct (around_last_forall _ _ _ _ _ Hpre Hm) as [Hmpre _].
  destruct (around_last_forall _ _ _ _ _ Hseen Hm) as [_ Hmun]. split.
  - unfold estimate_token_count_with_base_instructions. cbn zeta. rewrite sums_exact by done. f_equal.
    pose proof (tokens_of_nonneg (item <$> cm_items h)).
    assert (to_i64 (approx_token_count base_instructions) = (Z.of_N (byte_len base_instructions) + 3) / 4)
      as ->.
    { unfold approx_token_count, sat_add, APPROX_BYTES_PER_TOKEN, usize_max, to_i64, max_size, i64_max in *.
      change (4 - 1)%N with 3%N. rewrite N.min_r by lia. rewrite N2Z.inj_div, N2Z.inj_add.
      apply Z.min_r, Z.div_le_upper_bound; lia. }
    assert (0 ≤ (Z.of_N (byte_len base_instructions) + 3) / 4) by (apply Z.div_pos; lia).
    unfold sat_i64, i64_min, i64_max. lia.
  - unfold get_total_token_usage. fold last. clearbody last. rewrite (reported_after h seen unseen) by done.
    assert (Forall measurable (List.filter is_encrypted_reasoning pre)) as Hmr
      by (eapply List.incl_Forall; [apply List.incl_filter|done]).
    rewrite (reasoning_before h pre post), !sums_exact by done.
    pose proof (tokens_of_nonneg unseen).
    pose proof (tokens_of_nonneg (List.filter is_encrypted_reasoning pre)).
    destruct server_reasoning_included; unfold sat_i64, i64_min, i64_max in *; lia.
Qed.
End token_counts.
