(* ===== verification/Fields.v ===== *)
(** * Ordered maps

    The maps of [serde_json] and [toml] as lists of fields: lookup, insertion in
    place or at the end, and removal.  The keys of a map are distinct. *)

From S2P Require Import Prelude RustStr.

Section fields.
Context {A : Type}.

Abbreviation fields := (list (str * A)).
Abbreviation keys fs := (fst <$> (fs : fields)).

Fixpoint get (k : str) (fs : fields) : option A :=
  match fs with
  | [] => None
  | (k', v) :: fs => if bool_decide (k' = k) then Some v else get k fs
  end.

Fixpoint insert_field (k : str) (v : A) (fs : fields) : fields :=
  match fs with
  | [] => [(k, v)]
  | (k', v') :: fs => if bool_decide (k' = k) then (k, v) :: fs else (k', v') :: insert_field k v fs
  end.

Definition remove_field (k : str) (fs : fields) : fields :=
  List.filter (λ f, negb (bool_decide (f.1 = k))) fs.

Definition contains_key (k : str) (fs : fields) : bool := negb (is_none (get k fs)).

(** ** Lookups *)

Lemma get_elem k v (fs : fields) : get k fs = Some v → (k, v) ∈ fs.
Proof.
  induction fs as [|[k' v'] fs IH]; simpl; [done|]. case_bool_decide as E; [|by right; apply IH].
  intros [= ->]. subst. left.
Qed.

Lemma get_is_Some k (fs : fields) : is_Some (get k fs) ↔ k ∈ keys fs.
Proof.
  induction fs as [|[k' v'] fs IH]; simpl.
  - split; [by intros [? ?]|by intros ?%elem_of_nil].
  - rewrite elem_of_cons, <- IH. case_bool_decide; [|naive_solver].
    split; [by left|by eauto].
Qed.

Lemma get_None k (fs : fields) : get k fs = None ↔ k ∉ keys fs.
Proof. rewrite <- get_is_Some. destruct (get k fs); naive_solver. Qed.

Lemma elem_get k v (fs : fields) : NoDup (keys fs) → (k, v) ∈ fs → get k fs = Some v.
Proof.
  induction fs as [|[k' v'] fs IH]; simpl; [by intros _ ?%elem_of_nil|].
  intros [Hk HN]%NoDup_cons [[= -> ->]|Hin]%elem_of_cons; [by rewrite bool_decide_true|].
  case_bool_decide as E; [|auto]. subst. destruct Hk. apply (list_elem_of_fmap_2 fst) in Hin. done.
Qed.

Lemma get_insert k v k' (fs : fields) :
  get k' (insert_field k v fs) = if bool_decide (k = k') then Some v else get k' fs.
Proof.
  induction fs as [|[k0 v0] fs IH]; simpl; [done|].
  destruct (decide (k0 = k)) as [->|E]; [by rewrite bool_decide_true; simpl; repeat case_bool_decide|].
  rewrite (bool_decide_false (k0 = k)) by done. simpl. rewrite IH.
  repeat case_bool_decide; naive_solver.
Qed.

Lemma get_remove k k' (fs : fields) :
  get k' (remove_field k fs) = if bool_decide (k = k') then None else get k' fs.
Proof.
  unfold remove_field. induction fs as [|[k0 v0] fs IH]; simpl; [by case_bool_decide|].
  destruct (decide (k0 = k)) as [->|E].
  - rewrite bool_decide_true by done. simpl. rewrite IH. by repeat case_bool_decide.
  - rewrite (bool_decide_false (k0 = k)) by done. simpl. rewrite IH. repeat case_bool_decide; naive_solver.
Qed.

Lemma keys_insert k v k' (fs : fields) :
  k' ∈ keys (insert_field k v fs) ↔ k' = k ∨ k' ∈ keys fs.
Proof. rewrite <- !get_is_Some, get_insert. case_bool_decide; naive_solver. Qed.

Lemma NoDup_insert k v (fs : fields) : NoDup (keys fs) → NoDup (keys (insert_field k v fs)).
Proof.
  induction fs as [|[k0 v0] fs IH]; simpl; [intros _; apply NoDup_singleton|].
  intros [Hk HN]%NoDup_cons. case_bool_decide as E; simpl; apply NoDup_cons.
  - by subst.
  - split; [|auto]. rewrite keys_insert. naive_solver.
Qed.

Lemma NoDup_remove k (fs : fields) : NoDup (keys fs) → NoDup (keys (remove_field k fs)).
Proof.
  induction fs as [|[k0 v0] fs IH]; simpl; [done|].
  intros [Hk HN]%NoDup_cons. unfold remove_field in *. simpl. case_bool_decide; simpl; [by apply IH|].
  apply NoDup_cons. split; [|by apply IH]. rewrite <- get_is_Some.
  change (List.filter _ fs) with (remove_field k fs). rewrite get_remove.
  case_bool_decide; [congruence|]. by rewrite get_is_Some.
Qed.

(** Properties of all the values. *)
Lemma Forall_get (P : A → Prop) k v (fs : fields) :
  Forall (λ f, P f.2) fs → get k fs = Some v → P v.
Proof. intros HF Hg%get_elem. by rewrite Forall_forall in HF; apply (HF _ Hg). Qed.

Lemma Forall_insert (P : A → Prop) k v (fs : fields) :
  P v → Forall (λ f, P f.2) fs → Forall (λ f, P f.2) (insert_field k v fs).
Proof.
  intros Hv. induction 1 as [|[k0 v0] fs ? ? IH]; simpl; [by repeat constructor|].
  case_bool_decide; by constructor.
Qed.

Lemma Forall_remove (P : A → Prop) k (fs : fields) :
  Forall (λ f, P f.2) fs → Forall (λ f, P f.2) (remove_field k fs).
Proof.
  unfold remove_field. induction 1 as [|[k0 v0] fs ? ? IH]; simpl; [done|].
  case_bool_decide; simpl; [done|by constructor].
Qed.

Lemma keys_remove k k' (fs : fields) : k' ∈ keys (remove_field k fs) ↔ k' ≠ k ∧ k' ∈ keys fs.
Proof. rewrite <- !get_is_Some, get_remove. case_bool_decide; naive_solver. Qed.

Lemma insert_fresh k v (fs : fields) : k ∉ keys fs → insert_field k v fs = fs ++ [(k, v)].
Proof.
  induction fs as [|[k0 v0] fs IH]; simpl; [done|]. rewrite elem_of_cons. intros Hk.
  rewrite bool_decide_false by naive_solver. rewrite IH by naive_solver. done.
Qed.

(** Inserting the fields of a map one by one, each made from what was there. *)
Lemma get_insert_all {B} (f : str → option A → B → A) (o : list (str * B)) : ∀ (b : fields) k,
  NoDup (fst <$> o) →
  get k (foldl (λ b e, insert_field e.1 (f e.1 (get e.1 b) e.2) b) b o)
  = match List.find (λ e, bool_decide (e.1 = k)) o with
    | Some e => Some (f k (get k b) e.2)
    | None => get k b
    end.
Proof.
  induction o as [|[k0 x] o IH]; intros b k HN; [done|]. apply NoDup_cons in HN as [Hk HN].
  cbn [foldl List.find fst snd]. rewrite IH by done. clear IH.
  rewrite get_insert. case_bool_decide as E; [|done]. subst.
  destruct (List.find _ o) as [[k1 y]|] eqn:F; [|done].
  apply List.find_some in F as [Hin Hb]. apply bool_decide_eq_true in Hb. simpl in Hb. subst k1.
  destruct Hk. apply list_elem_of_In in Hin. by apply (list_elem_of_fmap_2 fst) in Hin.
Qed.
End fields.

(** Lookup by [find]. *)
Lemma find_get {A} k (fs : list (str * A)) :
  snd <$> List.find (λ e, bool_decide (e.1 = k)) fs = get k fs.
Proof. induction fs as [|[k0 v0] fs IH]; [done|]. simpl. by case_bool_decide. Qed.

Lemma get_map {A B} (f : str → A → B) k (fs : list (str * A)) :
  get k ((λ e, (e.1, f e.1 e.2)) <$> fs) = f k <$> get k fs.
Proof. induction fs as [|[k0 v0] fs IH]; [done|]. simpl. case_bool_decide; by subst. Qed.

Lemma keys_map {A B} (f : str → A → B) (fs : list (str * A)) :
  fst <$> ((λ e, (e.1, f e.1 e.2)) <$> fs) = fst <$> fs.
Proof. rewrite <- list_fmap_compose. by apply list_fmap_ext. Qed.
