(* ===== verification/WorldState.v ===== *)
(** * The world state and its merge patches

    [codex-rs/core/src/context/world_state/mod.rs]: what the model was last told
    about its environment is kept as JSON snapshots; changes are persisted as
    merge patches (RFC 7386) and replayed when a session is resumed
    ([session/rollout_reconstruction.rs]).  An object is the list of its fields;
    the order of the fields is not observed: equality ignores it.  The sections
    are the trait objects of the source, records of their methods. *)

From S2P Require Import Prelude RustStr Fields ResponseItems ContextFragments.

(** The equality of [serde_json::Number], an equivalence (zero has two signs). *)
Class NumberEq {J : JsonTypes} := {
  number_eq : Number → Number → bool;
  number_eq_refl n : number_eq n n = true;
  number_eq_trans a b c : number_eq a b = true → number_eq b c = true → number_eq a c = true;
}.

Section world_state.
Context {J : JsonTypes} {NE : NumberEq}.

(** ** JSON values ([serde_json::Value]) *)

#[local] Unset Elimination Schemes.
Inductive Json :=
| JNull
| JBool (b : bool)
| JNumber (n : Number)
| JString (s : str)
| JArray (l : list Json)
| JObject (fields : list (str * Json)).
#[local] Set Elimination Schemes.

Abbreviation fields := (list (str * Json)).

Lemma Json_ind (P : Json → Prop) :
  P JNull → (∀ b, P (JBool b)) → (∀ n, P (JNumber n)) → (∀ s, P (JString s)) →
  (∀ l, Forall P l → P (JArray l)) →
  (∀ fs, Forall (λ f, P f.2) fs → P (JObject fs)) → ∀ j, P j.
Proof.
  intros Hn Hb Hnum Hs Ha Ho. fix IH 1. intros [|b|n|s|l|fs]; [done|done|done|done| |].
  - apply Ha. induction l as [|j l IHl]; constructor; [apply IH|exact IHl].
  - apply Ho. induction fs as [|[k j] fs IHl]; constructor; [apply IH|exact IHl].
Qed.

Definition is_null (j : Json) : bool := match j with JNull => true | _ => false end.
Definition as_object (j : Json) : option fields := match j with JObject fs => Some fs | _ => None end.

(** Equality of values: fields are compared by key. *)
Fixpoint json_eq (a b : Json) : bool :=
  match a, b with
  | JNull, JNull => true
  | JBool a, JBool b => Bool.eqb a b
  | JNumber a, JNumber b => number_eq a b
  | JString a, JString b => bool_decide (a = b)
  | JArray a, JArray b =>
      (fix eq_all (a b : list Json) : bool :=
         match a, b with
         | [], [] => true
         | x :: a, y :: b => json_eq x y && eq_all a b
         | _, _ => false
         end) a b
  | JObject a, JObject b =>
      (length a =? length b)
      && forallb (λ f, match get f.1 b with Some v => json_eq f.2 v | None => false end) a
  | _, _ => false
  end.

(** ** Merge patches *)

Fixpoint remove_null_object_fields (j : Json) : Json :=
  match j with
  | JObject fs =>
      JObject
        ((fix retain (fs : fields) : fields :=
            match fs with
            | [] => []
            | (k, v) :: fs =>
                if is_null v then retain fs else (k, remove_null_object_fields v) :: retain fs
            end) fs)
  | _ => j
  end.

(** The keys of [previous] that [current] lacks, with null. *)
Definition removals (previous current : fields) : fields :=
  foldl (λ patch f, if contains_key f.1 current then patch else insert_field f.1 JNull patch)
    [] previous.

Fixpoint create_merge_patch (previous current : Json) {struct current} : option Json :=
  if json_eq previous current then None
  else
    match current with
    | JObject current =>
        let previous := as_object previous in
        let patch := match previous with Some previous => removals previous current | None => [] end in
        Some (JObject
          ((fix go (fs : fields) (patch : fields) : fields :=
              match fs with
              | [] => patch
              | (key, current_value) :: fs =>
                  go fs (match previous ≫= get key with
                         | None => insert_field key current_value patch
                         | Some previous_value =>
                             match create_merge_patch previous_value current_value with
                             | Some value_patch => insert_field key value_patch patch
                             | None => patch
                             end
                         end)
              end) current patch))
    | _ => Some current
    end.

Fixpoint apply_merge_patch_value (target patch : Json) {struct patch} : Json :=
  match patch with
  | JObject patch =>
      let target := default [] (as_object target) in
      JObject
        ((fix go (patch : fields) (target : fields) : fields :=
            match patch with
            | [] => target
            | (key, value) :: patch =>
                go patch
                  (if is_null value then remove_field key target
                   else match get key target with
                        | Some current =>
                            insert_field key (apply_merge_patch_value current value) target
                        | None => insert_field key (apply_merge_patch_value JNull value) target
                        end)
            end) patch target)
  | _ => patch
  end.

(** The two loops with their bodies named. *)
Definition patch_field (previous : option fields) (patch : fields) (f : str * Json) : fields :=
  match previous ≫= get f.1 with
  | None => insert_field f.1 f.2 patch
  | Some previous_value =>
      match create_merge_patch previous_value f.2 with
      | Some value_patch => insert_field f.1 value_patch patch
      | None => patch
      end
  end.

Definition patch_fields (previous : option fields) (current : fields) : fields :=
  foldl (patch_field previous)
    (match previous with Some previous => removals previous current | None => [] end) current.

Definition apply_field (target : fields) (f : str * Json) : fields :=
  if is_null f.2 then remove_field f.1 target
  else match get f.1 target with
       | Some current => insert_field f.1 (apply_merge_patch_value current f.2) target
       | None => insert_field f.1 (apply_merge_patch_value JNull f.2) target
       end.

Definition apply_fields (target patch : fields) : fields := foldl apply_field target patch.

Lemma create_object previous current :
  create_merge_patch previous (JObject current)
  = if json_eq previous (JObject current) then None
    else Some (JObject (patch_fields (as_object previous) current)).
Proof.
  cbn [create_merge_patch]. destruct (json_eq previous (JObject current)); [done|]. do 2 f_equal.
  unfold patch_fields. generalize (match as_object previous with Some p => removals p current | None => [] end).
  generalize (as_object previous). clear previous. intros previous.
  induction current as [|[k v] current IH]; intros patch; [done|]. simpl. by rewrite IH.
Qed.

Lemma apply_object target patch :
  apply_merge_patch_value target (JObject patch)
  = JObject (apply_fields (default [] (as_object target)) patch).
Proof.
  cbn [apply_merge_patch_value]. f_equal. unfold apply_fields.
  generalize (default [] (as_object target)). clear target.
  induction patch as [|[k v] patch IH]; intros target; [done|]. simpl. by rewrite IH.
Qed.

(** ** Snapshots and sections *)

(** [WorldStateSnapshot]: the JSON of the sections by identifier. *)
Definition WorldStateSnapshot := fields.

Definition merge_patch_from (self previous : WorldStateSnapshot) : option fields :=
  let patch := patch_fields (Some previous) self in
  if is_empty patch then None else Some patch.

Definition apply_merge_patch (self : WorldStateSnapshot) (patch : fields) : WorldStateSnapshot :=
  apply_fields self patch.

Inductive PreviousSectionState := Absent | UnknownState | Known (snapshot : Json).

(** [ErasedWorldStateSection].  [serialized] is the JSON of the section's own
    snapshot: none when it is not persisted or does not serialize. *)
Record section := {
  section_id : str;
  serialized : option Json;
  matches_legacy_fragment : str → str → bool;
  has_retained_fragment_matcher : bool;
  matches_retained_fragment : str → str → bool;
  section_render_diff : PreviousSectionState → option fragment;
}.

Definition section_snapshot (s : section) : option Json :=
  j ← remove_null_object_fields <$> serialized s;
  if is_null j then None else Some j.

(** [IndexMap]: the sections in the order they were added. *)
Definition WorldState := list section.

Definition has_section (id : str) (w : WorldState) : bool :=
  existsb (λ s, bool_decide (section_id s = id)) w.

(** The assertion against duplicates is [None]. *)
Definition add_section (s : section) (w : WorldState) : option WorldState :=
  if has_section (section_id s) w then None else Some (w ++ [s]).

(** Skills of the host come before the permissions. *)
Fixpoint insert_before (id : str) (s : section) (w : WorldState) : option WorldState :=
  match w with
  | [] => None
  | s' :: w =>
      if bool_decide (section_id s' = id) then Some (s :: s' :: w) else cons s' <$> insert_before id s w
  end.

Definition add_extension_section (s : section) (w : WorldState) : option WorldState :=
  if has_section (section_id s) w then None
  else if bool_decide (section_id s = lit "host_skills")
  then Some (default (w ++ [s]) (insert_before (lit "permissions") s w))
  else Some (w ++ [s]).

Definition world_snapshot (w : WorldState) : WorldStateSnapshot :=
  omap (λ s, (λ j, (section_id s, j)) <$> section_snapshot s) w.

(** A message with a text that the section recognises. *)
Definition has_fragment (matches : str → str → bool) (items : list ResponseItem) : bool :=
  existsb (λ i,
    match i with
    | Message _ role content _ _ =>
        existsb (λ c, match c with CInputText text => matches role text | _ => false end) content
    | _ => false
    end) items.

Definition has_retained_fragment (items : list ResponseItem) (s : section) : bool :=
  has_fragment (matches_retained_fragment s) items.
Definition has_legacy_fragment (items : list ResponseItem) (s : section) : bool :=
  has_fragment (matches_legacy_fragment s) items.

Definition render_with (w : WorldState) (previous : section → PreviousSectionState) : list fragment :=
  omap (λ s, section_render_diff s (previous s)) w.

Definition render_full (w : WorldState) : list fragment := render_with w (λ _, Absent).

Definition render_diff (w : WorldState) (previous : WorldStateSnapshot) : list fragment :=
  render_with w (λ s, match get (section_id s) previous with Some p => Known p | None => Absent end).

Definition render_history_diff (w : WorldState) (previous : option WorldStateSnapshot)
    (items : list ResponseItem) : list fragment :=
  render_with w (λ s,
    match previous ≫= get (section_id s) with
    | Some p =>
        if has_retained_fragment_matcher s && negb (has_retained_fragment items s)
        then Absent else Known p
    | None => if has_legacy_fragment items s then UnknownState else Absent
    end).

(** [WorldStateItem]. *)
Record WorldStateItem := { full : bool; state : fields }.

(** [ContextManager::update_world_state] on the baseline: the fragments, the
    item for the rollout and the new baseline. *)
Definition update_world_state (w : WorldState) (baseline : option WorldStateSnapshot)
    (items : list ResponseItem)
    : list fragment * option WorldStateItem * WorldStateSnapshot :=
  let snapshot := world_snapshot w in
  let fragments := render_history_diff w baseline items in
  let rollout_item :=
    match baseline with
    | None => Some {| full := true; state := snapshot |}
    | Some previous => (λ patch, {| full := false; state := patch |}) <$> merge_patch_from snapshot previous
    end in
  (fragments, rollout_item, snapshot).

(** The records of a rollout that matter to the world state, and their replay. *)
Inductive replay_item := Compacted | Persisted (i : WorldStateItem).

Definition replay_step (baseline : option WorldStateSnapshot) (i : replay_item)
    : option WorldStateSnapshot :=
  match i with
  | Compacted => None
  | Persisted i =>
      if full i then Some (state i)
      else match baseline with
           | None => None
           | Some b => Some (apply_merge_patch b (state i))
           end
  end.

Definition replay (items : list replay_item) : option WorldStateSnapshot :=
  foldl replay_step None items.

(** What a compaction does to the baseline and persists about it
    ([replace_compacted_history]). *)
Definition replace_compacted_history (world : option WorldState)
    : option WorldStateSnapshot * list replay_item :=
  match world with
  | None => (None, [Compacted])
  | Some w =>
      (Some (world_snapshot w), [Compacted; Persisted {| full := true; state := world_snapshot w |}])
  end.

(** A full initial context resets the baseline
    ([record_context_updates_and_set_reference_context_item]). *)
Definition inject_full_context (w : WorldState) : WorldStateItem * WorldStateSnapshot :=
  ({| full := true; state := world_snapshot w |}, world_snapshot w).

(** [record_step_world_state_if_changed]: the fragments and the patch of a step
    are made against the world of the step before, not against the baseline. *)
Definition record_step_world_state_if_changed (previous w : WorldState)
    : list fragment * option WorldStateItem * WorldStateSnapshot :=
  let previous_snapshot := world_snapshot previous in
  let world_state_snapshot := world_snapshot w in
  let world_state_item :=
    (λ patch, {| full := false; state := patch |})
      <$> merge_patch_from world_state_snapshot previous_snapshot in
  (render_diff w previous_snapshot, world_state_item, world_state_snapshot).

(** A session on the world state: the baseline, what was persisted so far, and
    the world that the running turn owns ([run_turn]). *)
Record world_session := {
  ses_baseline : option WorldStateSnapshot;
  ses_persisted : list replay_item;
  ses_live : option WorldState;
}.

(** A turn begins with the full context or with an update, goes on by steps, and
    compactions come between; one that injects no context is followed by a new
    beginning before there are steps again. *)
Inductive world_op :=
| Inject (w : WorldState)
| Update (w : WorldState) (items : list ResponseItem)
| Step (w : WorldState)
| Compact (world : option WorldState).

Definition persist (st : world_session) (items : list replay_item)
    (baseline : option WorldStateSnapshot) (live : option WorldState) : world_session :=
  {| ses_baseline := baseline; ses_persisted := ses_persisted st ++ items; ses_live := live |}.

Definition world_step (st : world_session) (op : world_op) : world_session :=
  match op with
  | Inject w =>
      let '(item, baseline) := inject_full_context w in
      persist st [Persisted item] (Some baseline) (Some w)
  | Update w items =>
      let '(_, item, baseline) := update_world_state w (ses_baseline st) items in
      persist st (option_list (Persisted <$> item)) (Some baseline) (Some w)
  | Step w =>
      match ses_live st with
      | None => st
      | Some previous =>
          let '(_, item, baseline) := record_step_world_state_if_changed previous w in
          persist st (option_list (Persisted <$> item)) (Some baseline) (Some w)
      end
  | Compact world =>
      let '(baseline, items) := replace_compacted_history world in
      persist st items baseline world
  end.

Definition new_session : world_session :=
  {| ses_baseline := None; ses_persisted := []; ses_live := None |}.

Definition run_world (ops : list world_op) : world_session := foldl world_step new_session ops.
End world_state.
