(* ===== verification/WorldStateFacts.v ===== *)
(** * Merge patches and the replay of the world state

    The patch computed between two snapshots takes the first to the second, and
    replaying what a session persisted gives the snapshot it holds. *)

From S2P Require Import Prelude RustStr Fields ResponseItems ContextFragments WorldState.

Section facts.
Context {J : JsonTypes} {NE : NumberEq}.

Abbreviation fields := (list (str * Json)).
Abbreviation keys fs := (fst <$> (fs : fields)).

(** Keys are distinct in every object, as in [serde_json::Map]. *)
Fixpoint wf_json (j : Json) : bool :=
  match j with
  | JArray l => forallb wf_json l
  | JObject fs => bool_decide (NoDup (fst <$> fs)) && forallb (λ f, wf_json f.2) fs
  | _ => true
  end.

(** No object (outside arrays) has a null field. *)
Fixpoint stripped (j : Json) : bool :=
  match j with
  | JObject fs => forallb (λ f, negb (is_null f.2) && stripped f.2) fs
  | _ => true
  end.

(** ** Equality *)

Definition opt_eq (a b : option Json) : Prop :=
  match a, b with
  | Some x, Some y => json_eq x y = true
  | None, None => True
  | _, _ => False
  end.

Lemma json_eq_trans a b c : json_eq a b = true → json_eq b c = true → json_eq a c = true.
Proof.
  revert b c. induction a as [|x|x|x|l IH|fs IH]; intros b c;
    destruct b as [| | | |lb|fb]; try done; destruct c as [| | | |lc|fc]; try done.
  - by intros ->%Bool.eqb_prop.
  - simpl. apply number_eq_trans.
  - simpl. by intros ->%bool_decide_eq_true.
  - revert lb lc. induction IH as [|x l Hx _ IHl]; intros [|y m] [|z n]; try done.
    simpl. intros [Ha Hb]%andb_prop [Hc Hd]%andb_prop. apply andb_true_intro.
    split; [by eapply Hx|]. by eapply (IHl m n).
  - simpl. intros [L1 H1]%andb_prop [L2 H2]%andb_prop. apply andb_true_intro. split.
    { apply Nat.eqb_eq in L1, L2. apply Nat.eqb_eq. congruence. }
    rewrite !forallb_forall in H1, H2 |- *. intros f Hf.
    specialize (H1 f Hf). destruct (get f.1 fb) as [v|] eqn:G; [|done].
    apply get_elem, list_elem_of_In in G. specialize (H2 _ G). simpl in H2.
    destruct (get f.1 fc) as [w|]; [|done].
    rewrite Forall_forall in IH. apply list_elem_of_In in Hf. exact (IH f Hf v w H1 H2).
Qed.

Lemma keys_eq_length (a b : fields) :
  NoDup (keys a) → NoDup (keys b) → (∀ k, k ∈ keys a ↔ k ∈ keys b) → length a = length b.
Proof.
  intros Ha Hb Hk. rewrite <- (length_fmap fst a), <- (length_fmap fst b).
  apply Permutation_length, NoDup_Permutation; done.
Qed.

Lemma keys_incl (a b : fields) :
  NoDup (keys a) → length a = length b → (∀ k, k ∈ keys a → k ∈ keys b) →
  ∀ k, k ∈ keys b → k ∈ keys a.
Proof.
  intros Ha HL Hk k. rewrite !list_elem_of_In.
  apply (NoDup_length_incl (l := keys a) (l' := keys b)).
  - by apply NoDup_ListNoDup.
  - rewrite !length_fmap. lia.
  - intros x. rewrite <- !list_elem_of_In. apply Hk.
Qed.

Lemma json_eq_objects (a b : fields) :
  NoDup (keys a) → NoDup (keys b) →
  json_eq (JObject a) (JObject b) = true ↔ ∀ k, opt_eq (get k a) (get k b).
Proof.
  intros Ha Hb. simpl. rewrite andb_true_iff, Nat.eqb_eq, forallb_forall. split.
  - intros [HL HF] k.
    assert (∀ k v, get k a = Some v → opt_eq (Some v) (get k b)) as Hv.
    { intros k' v G%get_elem%list_elem_of_In. specialize (HF _ G). simpl in HF. by destruct (get k' b). }
    destruct (get k a) as [v|] eqn:G; [by apply Hv|].
    destruct (get k b) as [w|] eqn:G'; [|done]. apply get_None in G. destruct G.
    apply (keys_incl a b); [done|done| |apply get_is_Some; eauto].
    intros k' [v' G]%get_is_Some. specialize (Hv _ _ G). rewrite <- get_is_Some.
    by destruct (get k' b).
  - intros H. split.
    + apply keys_eq_length; [done|done|]. intros k. specialize (H k).
      rewrite <- !get_is_Some. destruct (get k a), (get k b); naive_solver.
    + intros [k v] Hin. specialize (H k). apply list_elem_of_In, elem_get in Hin; [|done].
      rewrite Hin in H. simpl. by destruct (get k b).
Qed.

Lemma wf_object (fs : fields) :
  wf_json (JObject fs) = true ↔ NoDup (keys fs) ∧ Forall (λ f, wf_json f.2 = true) fs.
Proof.
  simpl. rewrite andb_true_iff, bool_decide_eq_true, forallb_forall, Forall_forall.
  setoid_rewrite list_elem_of_In. done.
Qed.

Lemma stripped_object (fs : fields) :
  stripped (JObject fs) = true
  ↔ Forall (λ f, is_null f.2 = false ∧ stripped f.2 = true) fs.
Proof.
  simpl. rewrite forallb_forall, Forall_forall. setoid_rewrite list_elem_of_In.
  setoid_rewrite andb_true_iff. setoid_rewrite negb_true_iff. done.
Qed.

Lemma json_eq_refl j : wf_json j = true → json_eq j j = true.
Proof.
  induction j as [|x|x|x|l IH|fs IH]; intros W; [done|by destruct x|apply number_eq_refl| | |].
  - simpl. by apply bool_decide_true.
  - simpl in *. induction IH as [|x l Hx _ IHl]; [done|]. simpl in *.
    apply andb_prop in W as [W1 W2]. rewrite Hx; [|done]. by apply IHl.
  - apply wf_object in W as [HN HW]. apply json_eq_objects; [done|done|]. intros k.
    destruct (get k fs) as [v|] eqn:G; [|done]. simpl.
    apply (Forall_get (λ j, wf_json j = true → json_eq j j = true) k v fs IH G).
    by apply (Forall_get (λ j, wf_json j = true) k v fs HW).
Qed.

(** ** Applying a patch *)

Lemma create_not_null previous current patch :
  create_merge_patch previous current = Some patch → is_null current = false → is_null patch = false.
Proof.
  destruct current; simpl; destruct (json_eq _ _); try done; by intros [= <-].
Qed.

Lemma get_apply k (patch target : fields) :
  NoDup (keys patch) →
  get k (apply_fields target patch)
  = match get k patch with
    | None => get k target
    | Some v =>
        if is_null v then None
        else Some (apply_merge_patch_value (default JNull (get k target)) v)
    end.
Proof.
  unfold apply_fields. revert target.
  induction patch as [|[k0 v0] patch IH]; intros target; simpl; [done|].
  intros [Hk HN]%NoDup_cons. rewrite IH by done.
  assert (get k (apply_field target (k0, v0))
          = if bool_decide (k0 = k)
            then if is_null v0 then None
                 else Some (apply_merge_patch_value (default JNull (get k0 target)) v0)
            else get k target) as E.
  { unfold apply_field. simpl. destruct (is_null v0); [by rewrite get_remove|].
    destruct (get k0 target); by rewrite get_insert. }
  rewrite E. case_bool_decide as Ek; [|done]. subst.
  apply get_None in Hk. by rewrite Hk.
Qed.

Lemma NoDup_apply (patch target : fields) :
  NoDup (keys target) → NoDup (keys (apply_fields target patch)).
Proof.
  unfold apply_fields. revert target. induction patch as [|[k0 v0] patch IH]; intros target HN; [done|].
  apply IH. unfold apply_field. destruct (is_null _); [by apply NoDup_remove|].
  destruct (get _ _); by apply NoDup_insert.
Qed.

Lemma wf_apply patch : ∀ target,
  wf_json patch = true → wf_json target = true → wf_json (apply_merge_patch_value target patch) = true.
Proof.
  induction patch as [|x|x|x|l _|fs IH]; intros target Wp Wt; try done.
  rewrite apply_object. apply wf_object in Wp as [_ Wp].
  assert (wf_json (JObject (default [] (as_object target))) = true) as W0 by by destruct target.
  apply wf_object in W0 as [N0 W0]. apply wf_object. split; [by apply NoDup_apply|]. clear N0 Wt.
  unfold apply_fields. revert W0. generalize (default [] (as_object target)). clear target.
  induction fs as [|[k v] fs IHf]; intros target W0; [done|].
  apply Forall_cons in IH as [Hv IH], Wp as [Wv Wp]. apply IHf; [done|done|]. clear IHf IH Wp.
  unfold apply_field. simpl in *. destruct (is_null v); [by apply (Forall_remove (λ j, wf_json j = true))|].
  destruct (get k target) as [c|] eqn:G; apply (Forall_insert (λ j, wf_json j = true)); try done.
  - apply Hv; [done|]. by apply (Forall_get (λ j, wf_json j = true) k c target).
  - by apply Hv.
Qed.

Lemma stripped_get (fs : fields) k v :
  stripped (JObject fs) = true → get k fs = Some v → is_null v = false ∧ stripped v = true.
Proof. intros H%stripped_object. by apply (Forall_get (λ j, is_null j = false ∧ stripped j = true)). Qed.

Lemma wf_get (fs : fields) k v : wf_json (JObject fs) = true → get k fs = Some v → wf_json v = true.
Proof. intros [_ H]%wf_object. by apply (Forall_get (λ j, wf_json j = true)). Qed.

(** A value without nulls, as a patch of nothing, is itself. *)
Lemma apply_to_null j :
  wf_json j = true → stripped j = true → json_eq (apply_merge_patch_value JNull j) j = true.
Proof.
  induction j as [|x|x|x|l _|fs IH]; intros W S; try by apply json_eq_refl.
  rewrite apply_object. pose proof (proj1 (wf_object fs) W) as [HN _].
  apply json_eq_objects; [apply NoDup_apply; constructor|done|]. intros k.
  rewrite get_apply by done. destruct (get k fs) as [v|] eqn:G; [|done].
  destruct (stripped_get _ _ _ S G) as [-> Sv]. simpl.
  apply (Forall_get (λ j, wf_json j = true → stripped j = true →
           json_eq (apply_merge_patch_value JNull j) j = true) k v fs IH G); [|done].
  by apply (wf_get fs k).
Qed.

(** ** Computing a patch *)

Lemma get_removals (previous current : fields) k :
  get k (removals previous current)
  = if contains_key k previous && negb (contains_key k current) then Some JNull else None.
Proof.
  unfold removals.
  assert (∀ start, get k (foldl (λ patch f,
            if contains_key f.1 current then patch else insert_field f.1 JNull patch) start previous)
          = if contains_key k previous && negb (contains_key k current) then Some JNull
            else get k start) as H; [|by rewrite H].
  induction previous as [|[k0 v0] previous IH]; intros start; [done|]. simpl. rewrite IH. clear IH.
  unfold contains_key. simpl. destruct (decide (k0 = k)) as [->|Hk].
  - rewrite (bool_decide_true (k = k)) by done. simpl.
    destruct (get k current); simpl; [by rewrite andb_false_r|].
    rewrite get_insert, bool_decide_true by done. by destruct (negb _).
  - rewrite (bool_decide_false (k0 = k)) by done.
    destruct (get k0 current); simpl; [done|]. by rewrite get_insert, bool_decide_false.
Qed.

Lemma NoDup_removals (previous current : fields) : NoDup (keys (removals previous current)).
Proof.
  unfold removals. assert (NoDup (keys [])) as H by constructor. revert H. generalize ([] : fields).
  induction previous as [|f previous IH]; intros start HN; [done|]. apply IH.
  destruct (contains_key _ _); [done|]. by apply NoDup_insert.
Qed.

Definition start_patch (previous : option fields) (current : fields) : fields :=
  match previous with Some previous => removals previous current | None => [] end.

Lemma NoDup_patch (previous : option fields) (current : fields) :
  NoDup (keys (patch_fields previous current)).
Proof.
  unfold patch_fields. change (match previous with Some _ => _ | None => _ end) with (start_patch previous current).
  assert (NoDup (keys (start_patch previous current))) as H
    by (destruct previous; [apply NoDup_removals|constructor]).
  revert H. generalize (start_patch previous current).
  induction current as [|[k v] current IH]; intros start HN; [done|]. apply IH.
  unfold patch_field. destruct (previous ≫= _) as [pv|]; [|by apply NoDup_insert].
  destruct (create_merge_patch pv _); [by apply NoDup_insert|done].
Qed.

Definition field_patch (previous : option fields) (k : str) (v : Json) : option Json :=
  match previous ≫= get k with
  | None => Some v
  | Some previous_value => create_merge_patch previous_value v
  end.

Lemma get_patch_field previous patch k v k' :
  get k' (patch_field previous patch (k, v))
  = if bool_decide (k = k') then
      match field_patch previous k v with Some p => Some p | None => get k' patch end
    else get k' patch.
Proof.
  unfold patch_field, field_patch. simpl.
  destruct (previous ≫= get k) as [pv|]; [destruct (create_merge_patch pv v)|];
    rewrite ?get_insert; by case_bool_decide.
Qed.

Lemma get_patch (previous : option fields) (current : fields) k :
  NoDup (keys current) →
  get k (patch_fields previous current)
  = match get k current with
    | Some v => field_patch previous k v
    | None => _ ← previous ≫= get k; Some JNull
    end.
Proof.
  intros HN.
  assert (∀ start, get k (foldl (patch_field previous) start current)
          = match get k current with
            | Some v => match field_patch previous k v with Some p => Some p | None => get k start end
            | None => get k start
            end) as H.
  { induction current as [|[k0 v0] current IH]; intros start; simpl; [done|].
    apply NoDup_cons in HN as [Hk HN]. rewrite IH by done. rewrite get_patch_field.
    case_bool_decide as E; [|done]. subst. apply get_None in Hk. simpl in Hk. by rewrite Hk. }
  unfold patch_fields. rewrite H. clear H.
  destruct (get k current) as [v|] eqn:G; destruct previous as [previous|]; simpl;
    rewrite ?get_removals; unfold contains_key; rewrite ?G; simpl; rewrite ?andb_false_r; try done.
  - by destruct (field_patch (Some previous) k v).
  - by destruct (get k previous).
Qed.

(** ** The patch takes the first value to the second *)

Definition patches_to (cur : Json) : Prop := ∀ prev base,
  wf_json cur = true → stripped cur = true → wf_json prev = true → wf_json base = true →
  json_eq base prev = true →
  match create_merge_patch prev cur with
  | None => json_eq base cur = true
  | Some patch => json_eq (apply_merge_patch_value base patch) cur = true
  end.

Lemma patch_fields_to (previous : option fields) (current base : fields) :
  Forall (λ f, patches_to f.2) current →
  wf_json (JObject current) = true → stripped (JObject current) = true →
  wf_json (JObject (default [] previous)) = true → wf_json (JObject base) = true →
  (∀ k, opt_eq (get k base) (previous ≫= get k)) →
  ∀ k, opt_eq (get k (apply_fields base (patch_fields previous current))) (get k current).
Proof.
  intros HF Wc Sc Wp Wb Hb k. pose proof (proj1 (wf_object current) Wc) as [HN _].
  rewrite get_apply by apply NoDup_patch. rewrite get_patch by done. unfold field_patch.
  specialize (Hb k). destruct (get k current) as [v|] eqn:G.
  - destruct (stripped_get _ _ _ Sc G) as [Nv Sv]. pose proof (wf_get _ _ _ Wc G) as Wv.
    destruct (previous ≫= get k) as [pv|] eqn:P; destruct (get k base) as [bv|] eqn:B; try done.
    + pose proof (Forall_get patches_to _ _ _ HF G pv bv Wv Sv) as Hv.
      assert (wf_json pv = true) as Wpv.
      { destruct previous as [p|]; [|done]. by apply (wf_get p k). }
      specialize (Hv Wpv (wf_get _ _ _ Wb B) Hb).
      destruct (create_merge_patch pv v) as [patch|] eqn:C; [|done].
      by rewrite (create_not_null _ _ _ C Nv).
    + rewrite Nv. by apply apply_to_null.
  - destruct (previous ≫= get k); [done|]. by destruct (get k base).
Qed.

Lemma merge_patches_to cur : patches_to cur.
Proof.
  induction cur as [|x|x|x|l _|fs IH]; intros prev base Wc Sc Wp Wb E.
  6: { rewrite create_object. destruct (json_eq prev (JObject fs)) eqn:E'; [by eapply json_eq_trans|].
    rewrite apply_object.
    assert (wf_json (JObject (default [] (as_object base))) = true) as Wb' by by destruct base.
    apply json_eq_objects.
    - apply NoDup_apply. by apply wf_object in Wb' as [? _].
    - by apply wf_object in Wc as [? _].
    - apply patch_fields_to; try done; [by destruct prev|]. intros k.
      destruct base, prev; try done. simpl as_object. simpl.
      apply wf_object in Wb as [? _], Wp as [? _]. by apply json_eq_objects. }
  all: unfold create_merge_patch; destruct (json_eq prev _) eqn:E'; [by eapply json_eq_trans|].
  all: by apply json_eq_refl.
Qed.
(** ** Snapshots *)

Definition snapshot_eq (a b : WorldStateSnapshot) : bool := json_eq (JObject a) (JObject b).
Definition wf_snapshot (s : WorldStateSnapshot) : bool := wf_json (JObject s) && stripped (JObject s).

Lemma wf_snapshot_spec s :
  wf_snapshot s = true → wf_json (JObject s) = true ∧ stripped (JObject s) = true.
Proof. by intros [? ?]%andb_prop. Qed.

Lemma snapshot_eq_refl s : wf_json (JObject s) = true → snapshot_eq s s = true.
Proof. apply json_eq_refl. Qed.

Lemma fields_empty (fs : fields) : (∀ k, get k fs = None) → fs = [].
Proof. destruct fs as [|[k v] fs]; [done|]. intros H. specialize (H k). simpl in H. by rewrite bool_decide_true in H. Qed.

(** What is patched is [previous] or an equal snapshot. *)
Lemma snapshot_patched (current previous base : WorldStateSnapshot) :
  wf_snapshot current = true → wf_json (JObject previous) = true → wf_json (JObject base) = true →
  snapshot_eq base previous = true →
  snapshot_eq (apply_merge_patch base (patch_fields (Some previous) current)) current = true.
Proof.
  intros [Wc Sc]%wf_snapshot_spec Wp Wb E.
  pose proof (proj1 (wf_object _) Wc) as [Nc _]. pose proof (proj1 (wf_object _) Wp) as [Np _].
  pose proof (proj1 (wf_object _) Wb) as [Nb _].
  apply json_eq_objects; [by apply NoDup_apply|done|].
  apply patch_fields_to; try done.
  - apply Forall_forall. intros f _. apply merge_patches_to.
  - by apply json_eq_objects.
Qed.

Lemma patch_empty (current previous : WorldStateSnapshot) :
  wf_snapshot current = true → wf_json (JObject previous) = true →
  patch_fields (Some previous) current = [] ↔ snapshot_eq previous current = true.
Proof.
  intros W Wp. split.
  - intros E. pose proof (snapshot_patched current previous previous W Wp Wp (json_eq_refl _ Wp)) as H.
    by rewrite E in H.
  - intros E. apply wf_snapshot_spec in W as [Wc _].
    pose proof (proj1 (wf_object _) Wc) as [Nc _]. pose proof (proj1 (wf_object _) Wp) as [Np _].
    unfold snapshot_eq in E. rewrite json_eq_objects in E by done.
    apply fields_empty. intros k. rewrite get_patch by done. specialize (E k).
    unfold field_patch. simpl. destruct (get k current) as [v|], (get k previous) as [p|]; try done.
    simpl in E. destruct v; simpl; simpl in E; by rewrite E.
Qed.

(** C23: merge patches advance snapshots.  Between snapshots without null fields
    there is no patch exactly when they are equal; otherwise the patch is not
    empty and, applied to the previous snapshot or to any equal one, gives the
    current snapshot. *)
Theorem merge_patch_advances (current previous base : WorldStateSnapshot) :
  wf_snapshot current = true → wf_json (JObject previous) = true → wf_json (JObject base) = true →
  snapshot_eq base previous = true →
  match merge_patch_from current previous with
  | None => snapshot_eq previous current = true ∧ snapshot_eq base current = true
  | Some patch =>
      snapshot_eq previous current = false ∧ patch ≠ []
      ∧ snapshot_eq (apply_merge_patch base patch) current = true
  end.
Proof.
  intros Wc Wp Wb E. pose proof (snapshot_patched current previous base Wc Wp Wb E) as Hp.
  pose proof (patch_empty current previous Wc Wp) as He. unfold merge_patch_from.
  destruct (patch_fields (Some previous) current) as [|f patch]; simpl.
  - split; [by apply He|done].
  - split_and!; [|done|done]. apply not_true_is_false. rewrite <- He. done.
Qed.

(** ** Worlds and their snapshots *)

Lemma remove_null_stripped j : stripped (remove_null_object_fields j) = true.
Proof.
  induction j as [|x|x|x|l _|fs IH]; try done. cbn [remove_null_object_fields].
  apply stripped_object. induction IH as [|[k v] fs Hv _ IH]; [constructor|]. simpl in *.
  destruct (is_null v) eqn:N; [done|]. constructor; [|done]. simpl. split; [by destruct v|done].
Qed.

Lemma remove_null_wf j : wf_json j = true → wf_json (remove_null_object_fields j) = true.
Proof.
  induction j as [|x|x|x|l _|fs IH]; try done. intros [HN HW]%wf_object.
  cbn [remove_null_object_fields]. apply wf_object.
  set (retain := fix retain (fs : fields) : fields :=
     match fs with
     | [] => []
     | (k, v) :: fs => if is_null v then retain fs else (k, remove_null_object_fields v) :: retain fs
     end).
  assert (∀ fs k, k ∈ keys (retain fs) → k ∈ keys fs) as Hr.
  { clear. intros fs k. induction fs as [|[k0 v0] fs IH]; [done|]. simpl. rewrite elem_of_cons.
    destruct (is_null v0); [auto|]. rewrite fmap_cons, elem_of_cons. intros [->|Hk]; auto. }
  induction IH as [|[k v] fs Hv _ IH]; [by split; constructor|]. simpl.
  apply NoDup_cons in HN as [Hk HN]. apply Forall_cons in HW as [Wv HW]. simpl in *.
  destruct (IH HN HW) as [HN' HW'].
  destruct (is_null v); [done|]. split; [|by constructor; auto]. apply NoDup_cons. split; [|done].
  intros Hin. by apply Hk, (Hr fs).
Qed.

(** The worlds that adding sections makes. *)
Inductive built : WorldState → Prop :=
| built_nil : built []
| built_add s w w' : built w → add_section s w = Some w' → built w'
| built_extension s w w' : built w → add_extension_section s w = Some w' → built w'.

Lemma has_section_spec id w : has_section id w = false → id ∉ section_id <$> w.
Proof.
  unfold has_section. induction w as [|s w IH]; simpl; [by intros _ ?%elem_of_nil|].
  intros [H1 H2]%orb_false_elim. apply bool_decide_eq_false in H1.
  rewrite elem_of_cons. naive_solver.
Qed.

Lemma insert_before_perm id s w w' : insert_before id s w = Some w' → w' ≡ₚ s :: w.
Proof.
  revert w'. induction w as [|s0 w IH]; intros w'; simpl; [done|].
  case_bool_decide; [by intros [= <-]|]. destruct (insert_before id s w) as [l|]; [|done].
  intros [= <-]. rewrite (IH l) by done. apply perm_swap.
Qed.

Lemma built_distinct w : built w → NoDup (section_id <$> w).
Proof.
  assert (∀ s w w', NoDup (section_id <$> w) → has_section (section_id s) w = false → w' ≡ₚ s :: w →
            NoDup (section_id <$> w')) as Hadd.
  { intros s w0 w' HN Hs%has_section_spec ->. simpl. by apply NoDup_cons. }
  assert (∀ s (w : WorldState), w ++ [s] ≡ₚ s :: w) as Happ by (intros; by rewrite Permutation_app_comm).
  induction 1 as [|s w w' _ IH E|s w w' _ IH E]; [constructor| |].
  - unfold add_section in E. destruct (has_section _ _) eqn:Hs; [done|]. injection E as <-. by eapply Hadd.
  - unfold add_extension_section in E. destruct (has_section _ _) eqn:Hs; [done|].
    eapply Hadd; [done|done|]. case_bool_decide; [|by injection E as <-]. injection E as <-.
    destruct (insert_before _ _ _) eqn:I; simpl; [by eapply insert_before_perm|done].
Qed.

Definition serializes_well (s : section) : bool :=
  match serialized s with Some j => wf_json j | None => true end.

Lemma snapshot_keys (w : WorldState) k : k ∈ keys (world_snapshot w) → k ∈ section_id <$> w.
Proof.
  unfold world_snapshot. induction w as [|s w IH]; [done|]. simpl. rewrite elem_of_cons.
  destruct (section_snapshot s); simpl; [|auto]. rewrite elem_of_cons. naive_solver.
Qed.

Lemma world_snapshot_wf w :
  built w → forallb serializes_well w = true → wf_snapshot (world_snapshot w) = true.
Proof.
  intros HN%built_distinct HS. apply andb_true_intro. rewrite wf_object, stripped_object.
  induction w as [|s w IH]; [by repeat constructor|]. simpl in HS, HN.
  apply andb_prop in HS as [Hs HS]. apply NoDup_cons in HN as [Hk HN].
  destruct (IH HN HS) as [[HN' HW] HS']. unfold world_snapshot in *. simpl.
  destruct (section_snapshot s) as [j|] eqn:E; [|done]. simpl.
  unfold section_snapshot, serializes_well in *. destruct (serialized s) as [j0|]; [|done]. simpl in E.
  destruct (is_null (remove_null_object_fields j0)) eqn:N; [done|]. injection E as <-.
  split_and!; [|by constructor; [apply remove_null_wf|]|].
  - apply NoDup_cons. split; [|done]. intros Hin. by apply Hk, snapshot_keys.
  - constructor; [|done]. simpl. split; [done|apply remove_null_stripped].
Qed.
(** ** Replay *)

Lemma removals_wf (previous current : fields) :
  Forall (λ f, wf_json f.2 = true) (removals previous current).
Proof.
  unfold removals. assert (Forall (λ f : str * Json, wf_json f.2 = true) []) as H by constructor.
  revert H. generalize ([] : fields).
  induction previous as [|f previous IH]; intros start HN; [done|]. apply IH.
  destruct (contains_key _ _); [done|]. by apply (Forall_insert (λ j, wf_json j = true)).
Qed.

Lemma patch_fields_wf (previous : option fields) (current : fields) :
  Forall (λ f, wf_json f.2 = true) current →
  Forall (λ f, ∀ prev p, create_merge_patch prev f.2 = Some p → wf_json p = true) current →
  wf_json (JObject (patch_fields previous current)) = true.
Proof.
  intros HW HC. apply wf_object. split; [apply NoDup_patch|].
  unfold patch_fields. change (match previous with Some _ => _ | None => _ end) with (start_patch previous current).
  assert (Forall (λ f, wf_json f.2 = true) (start_patch previous current)) as H
    by (destruct previous; [apply removals_wf|constructor]).
  revert H. generalize (start_patch previous current).
  induction current as [|[k v] current IH]; intros start HS; [done|].
  apply Forall_cons in HW as [Wv HW], HC as [Cv HC]. apply IH; [done|done|]. simpl in *.
  unfold patch_field. simpl. destruct (previous ≫= _) as [pv|];
    [|by apply (Forall_insert (λ j, wf_json j = true))].
  destruct (create_merge_patch pv v) as [q|] eqn:E; [|done].
  apply (Forall_insert (λ j, wf_json j = true)); [|done]. by eapply Cv.
Qed.

Lemma create_wf current :
  wf_json current = true →
  ∀ previous patch, create_merge_patch previous current = Some patch → wf_json patch = true.
Proof.
  induction current as [|x|x|x|l _|fs IH]; intros W previous patch.
  6: { rewrite create_object. destruct (json_eq _ _); [done|]. intros [= <-].
    apply wf_object in W as [_ W]. apply patch_fields_wf; [done|].
    apply Forall_forall. intros f Hf. rewrite Forall_forall in IH, W. by apply IH, W. }
  all: unfold create_merge_patch; destruct (json_eq _ _); [done|by intros [= <-]].
Qed.

Lemma patched_wf (current previous base : WorldStateSnapshot) :
  wf_json (JObject current) = true → wf_json (JObject base) = true →
  wf_json (JObject (apply_merge_patch base (patch_fields (Some previous) current))) = true.
Proof.
  intros Wc Wb. pose proof (wf_apply (JObject (patch_fields (Some previous) current)) (JObject base)) as H.
  rewrite apply_object in H. apply H; [|done]. apply wf_object in Wc as [_ Wc].
  apply patch_fields_wf; [done|]. apply Forall_forall. intros f Hf. apply create_wf.
  by rewrite Forall_forall in Wc; apply Wc.
Qed.

Definition world_ok (w : WorldState) : Prop := built w ∧ forallb serializes_well w = true.

Definition op_ok (op : world_op) : Prop :=
  match op with
  | Inject w | Update w _ | Step w | Compact (Some w) => world_ok w
  | Compact None => True
  end.

(** The replayed baseline and the session's agree. *)
Definition agrees (replayed live : option WorldStateSnapshot) : Prop :=
  match replayed, live with
  | Some r, Some l =>
      snapshot_eq r l = true ∧ wf_json (JObject r) = true ∧ wf_json (JObject l) = true
  | None, None => True
  | _, _ => False
  end.

Lemma agrees_refl s : wf_snapshot s = true → agrees (Some s) (Some s).
Proof. intros [W _]%wf_snapshot_spec. split_and!; [by apply snapshot_eq_refl|done|done]. Qed.

Lemma update_agrees w items baseline replayed :
  world_ok w → agrees replayed baseline →
  let '(_, item, baseline') := update_world_state w baseline items in
  agrees (foldl replay_step replayed (option_list (Persisted <$> item))) (Some baseline').
Proof.
  intros [Hb Hs] Ha. pose proof (world_snapshot_wf w Hb Hs) as W. unfold update_world_state.
  pose proof (proj1 (wf_snapshot_spec _ W)) as Wc.
  destruct baseline as [l|], replayed as [r|]; try done; [|by apply agrees_refl].
  destruct Ha as (E & Wr & Wl). unfold merge_patch_from.
  pose proof (snapshot_patched _ _ _ W Wl Wr E) as Hp. pose proof (patched_wf _ l r Wc Wr) as Wa.
  destruct (patch_fields (Some l) (world_snapshot w)) as [|f patch]; simpl; by split_and!.
Qed.

Lemma compact_agrees world replayed :
  match world with Some w => world_ok w | None => True end →
  let '(baseline, items) := replace_compacted_history world in
  agrees (foldl replay_step replayed items) baseline.
Proof. destruct world as [w|]; [|done]. intros [Hb Hs]. by apply agrees_refl, world_snapshot_wf. Qed.

(** What holds of a session: replaying gives the baseline, and the world the
    turn owns is the one the baseline was taken from. *)
Record session_ok (st : world_session) : Prop := {
  so_agrees : agrees (replay (ses_persisted st)) (ses_baseline st);
  so_live w : ses_live st = Some w → ses_baseline st = Some (world_snapshot w);
}.

Lemma persist_ok st items baseline live :
  agrees (foldl replay_step (replay (ses_persisted st)) items) baseline →
  (∀ w, live = Some w → baseline = Some (world_snapshot w)) →
  session_ok (persist st items baseline live).
Proof. intros Ha Hl. split; [|done]. unfold replay. simpl. by rewrite foldl_app. Qed.

Lemma world_step_ok st op : op_ok op → session_ok st → session_ok (world_step st op).
Proof.
  intros Hop Hok. pose proof Hok as [Ha Hl]. destruct op as [w|w items|w|world]; simpl.
  - apply persist_ok; [|by intros ? [= <-]]. destruct Hop as [Hb Hs]. by apply agrees_refl, world_snapshot_wf.
  - pose proof (update_agrees w items _ _ Hop Ha) as H. by apply persist_ok; [|intros ? [= <-]].
  - destruct (ses_live st) as [previous|] eqn:Hlive; [|exact Hok].
    rewrite (Hl previous eq_refl) in Ha. pose proof (update_agrees w [] _ _ Hop Ha) as H.
    by apply persist_ok; [|intros ? [= <-]].
  - pose proof (compact_agrees world (replay (ses_persisted st))) as H.
    destruct world as [w|]; simpl; apply persist_ok; [by apply H|by intros ? [= <-]|by apply H|done].
Qed.

(** C15: resuming restores the world state.  Whatever a session does (full
    contexts, updates that persist a full snapshot or a merge patch, steps that
    patch against the world of the step before, compactions that start over),
    replaying the records it persisted gives a baseline exactly when the session
    holds one, and then one equal to the session's. *)
Theorem replay_restores_baseline ops :
  Forall op_ok ops →
  match replay (ses_persisted (run_world ops)), ses_baseline (run_world ops) with
  | Some restored, Some live => snapshot_eq restored live = true
  | None, None => True
  | _, _ => False
  end.
Proof.
  intros HF. assert (session_ok (run_world ops)) as [H _].
  { unfold run_world. assert (session_ok new_session) as H0 by done.
    revert H0. generalize new_session.
    induction HF as [|op ops Hop _ IH]; intros st H0; [done|]. simpl. by apply IH, world_step_ok. }
  unfold agrees in H. by destruct (replay _), (ses_baseline (run_world ops)); try destruct H.
Qed.
End facts.
