(* ===== verification/HistoryWitnesses.v ===== *)
(** * The conversation at work

    A small conversation, and the theorems on context fragments, recording,
    rollback, token counts and the world state applied to it. *)

From S2P Require Import Prelude RustStr Utf8 Truncation ResponseItems History ContextFragments TokenEstimates HistoryManager HistoryTurns HistoryRevisions WorldState WorldStateFacts.

#[local] Instance plain_json : JsonTypes := {| Value := unit; Number := unit |}.

(** No hook prompts, no messages between agents. *)
Definition no_xml (_ : str) : option HookPromptFragment := None.
Definition no_agent (_ : str) : bool := false.

Definition message (role : String.string) (text : str) : ResponseItem :=
  Message None (lit role) [CInputText text] None None.
Definition tool_output (text : str) : ResponseItem :=
  FunctionCallOutput None (Some (lit "c1")) None None (from_text text) None.

Definition context_text : str :=
  render_marked turn_aborted_markers.1 turn_aborted_markers.2 (lit "interrupted").

Definition aborted_fragment : fragment :=
  {| fragment_rendered := {| rf_role := lit "user";
       rf_content := {| ac_content := CInputText context_text; ac_kind := lit "turn.aborted" |} |};
     requires_separate_message := false |}.

Abbreviation conversation := (@ContextManager plain_json TokenUsageInfo unit unit).

Definition first_turn : list ResponseItemEnvelope :=
  new_envelope <$> [message "developer" (lit "rules"); message "user" (lit "hello");
                    message "assistant" (lit "hi")].
Definition injected : list ResponseItemEnvelope :=
  new_envelope <$> merge_contextual_fragments [aborted_fragment].
Definition second_turn : list ResponseItemEnvelope :=
  new_envelope <$> [message "user" (lit "again"); message "assistant" (lit "ok")].

Definition history_of (items : list ResponseItemEnvelope) : conversation :=
  {| cm_items := items; history_version := 3; user_message_revision := 5; token_info := None;
     reference_context_item := Some tt; world_state_baseline := Some tt |}.

(** Witness: a fragment with markers, external context and internal context. *)
Lemma rendered_context_recognised_witness :
  is_contextual_user_fragment no_xml (CInputText context_text) = true
  ∧ is_contextual_user_fragment no_xml (CInputText (lit "<external_k>v</external_k>")) = true
  ∧ is_valid_source (lit "goal_1") = true.
Proof.
  destruct (rendered_context_recognised no_xml) as (H1 & H2 & _). split_and!; [| |by vm_compute].
  - apply (H1 turn_aborted_markers). apply list_elem_of_In. simpl. tauto.
  - apply (H2 (lit "k") (lit "v") (lit "k>v</external_k")); [|by vm_compute].
    intros H. by apply list_elem_of_singleton in H.
Defined.

(** Witness: rolling back the second turn and the context before it. *)
Lemma rollback_undoes_turn_witness :
  ∃ h', drop_last_n_user_turns no_xml no_agent 1 (history_of (first_turn ++ injected ++ second_turn))
        = Some h' ∧ cm_items h' = first_turn.
Proof.
  apply (rollback_undoes_turn no_xml no_agent (history_of (first_turn ++ injected ++ second_turn))
           first_turn injected second_turn [aborted_fragment]).
  - done.
  - vm_compute. lia.
  - intros e He. vm_compute in He. injection He as <-. by vm_compute.
  - constructor; [|done]. left. split; [done|]. by vm_compute.
  - by vm_compute.
  - eexists _, _. split; [done|]. split; [by vm_compute|]. constructor; [by vm_compute|done].
Defined.

(** The developer message of the first turn stays when all turns are dropped. *)
Example rollback_everything :
  cm_items <$> drop_last_n_user_turns no_xml no_agent 7 (history_of (first_turn ++ injected ++ second_turn))
  = Some [new_envelope (message "developer" (lit "rules"))].
Proof. by vm_compute. Qed.

Definition demo_entries : list (ResponseItem * option CodexHarnessMetadata) :=
  [(message "user" (lit "run it"), None); (message "system" (lit "hidden"), None);
   (tool_output (lit "0123456789abcdef"), None)].

(** Witness: a user message, a system message that is not recorded, and a tool
    output over a budget of 1.2 times 5 bytes. *)
Lemma recorded_items_witness :
  ∃ h' new, record_items_with_metadata (λ _, 0%N) (Bytes 5) demo_entries (history_of first_turn) = Some h'
  ∧ cm_items h' = first_turn ++ new ∧ length new = 2 ∧ user_message_revision h' = 6%N.
Proof.
  destruct (recorded_items (λ _, 0%N) (Bytes 5) demo_entries (history_of first_turn))
    as (h' & new & Hrun & Hit & Hall & Hrev & _).
  - by vm_compute.
  - repeat constructor. by vm_compute.
  - exists h', new. split_and!; [exact Hrun|exact Hit| |by rewrite Hrev].
    apply Forall2_length in Hall. by rewrite <- Hall.
Defined.

Definition demo_ops : list (@op plain_json unit unit) :=
  [ORecord (Bytes 5) demo_entries; OSetContext None; ORollback 0].

(** Witness: the version is unchanged, so the old items are a prefix. *)
Lemma revisions_track_history_witness :
  ∃ h', run_ops no_xml no_agent true (λ _, 0%N) demo_ops (history_of first_turn) = Some h'
  ∧ first_turn `prefix_of` cm_items h'.
Proof.
  eexists. split; [by vm_compute|].
  apply (revisions_track_history no_xml no_agent true (λ _, 0%N) demo_ops (history_of first_turn) _).
  - by split; vm_compute.
  - by vm_compute.
  - by vm_compute.
  - by vm_compute.
  - by vm_compute.
Defined.

Definition image_url : str := lit "data:image/png;base64,AAAA".
Definition image_message : ResponseItem :=
  Message None (lit "user") [CInputImage image_url None] None None.

Definition usage (n : Z) : TokenUsage :=
  {| input_tokens := n; cached_input_tokens := 0; cache_write_input_tokens := 0; output_tokens := 1;
     reasoning_output_tokens := 0; total_tokens := n + 1; codex_rollout_budget_units := None |}.

Definition thoughts : ResponseItem := Reasoning None [] None (Some (replicate 1000 97%N)) None.

(** A turn that was answered and reported, and a second one with an image. *)
Definition costly_turn : list ResponseItem :=
  [message "user" (lit "hello"); thoughts; message "assistant" (lit "hi")].
Definition new_turn : list ResponseItem := [message "user" (lit "look"); image_message].

Definition costly_history : conversation :=
  {| cm_items := new_envelope <$> (costly_turn ++ new_turn); history_version := 0;
     user_message_revision := 0;
     token_info := Some {| total_token_usage := usage 40; last_token_usage := usage 40;
                           model_context_window := None |};
     reference_context_item := None; world_state_baseline := None |}.

(** Witness: every JSON has 104 bytes, four of which are the payload of the
    image.  The reasoning is 25 tokens, the image message 1869. *)
Lemma history_estimate_witness :
  estimate_token_count_with_base_instructions (λ _, Some 104%N) (λ _, None) (λ _, None) (λ _, 0%N)
    costly_history (lit "rules") = Some (2 + (26 + 25 + 26 + 26 + 1869))%Z
  ∧ get_total_token_usage no_xml no_agent (λ _, Some 104%N) (λ _, None) (λ _, None) (λ _, 0%N)
      costly_history false = (41 + (26 + 1869) + 25)%Z.
Proof.
  destruct (history_estimate no_xml no_agent (λ _, Some 104%N) (λ _, None) (λ _, None) (λ _, 0%N)
    costly_history (lit "rules") false (costly_turn ++ [message "user" (lit "look")]) []
    (take 2 costly_turn) new_turn) as [He Hu].
  - repeat constructor; by vm_compute.
  - by vm_compute.
  - by vm_compute.
  - left. exists image_message. split_and!; [by vm_compute..|constructor].
  - left. exists (message "assistant" (lit "hi")). split_and!; [by vm_compute..|].
    repeat constructor; by vm_compute.
  - split; [etrans; [exact He|]|etrans; [exact Hu|]]; by vm_compute.
Defined.

(** Witness: two reports. *)
Lemma usage_totals_witness :
  ∃ info, report true None [(usage 10, Some 200%Z); (usage 30, None)] = Some (Some info)
  ∧ counts_in (total_token_usage info) = [40; 0; 0; 2; 0; 42]%Z
  ∧ model_context_window info = Some 200%Z.
Proof.
  destruct (usage_totals true [(usage 10, Some 200%Z); (usage 30, None)]) as (info & Hrun & Hc & _ & Hw).
  - done.
  - split; repeat constructor; vm_compute; done.
  - exists info. split_and!; [exact Hrun|by rewrite Hc|by rewrite Hw].
Defined.

(** ** What the counters do not tell *)

(** Removing the first item rewrites the history under the same version. *)
Example remove_first_keeps_version :
  let h := history_of first_turn in
  history_version (remove_first_item h) = history_version h
  ∧ ¬ cm_items h `prefix_of` cm_items (remove_first_item h).
Proof. split; [done|]. intros [k Hk]. by apply (f_equal length) in Hk. Qed.

(** Rolling back a history without turns is not a no-op: the counters move and
    the world state is forgotten. *)
Example rollback_without_turns :
  let h := history_of (take 1 first_turn) in
  drop_last_n_user_turns no_xml no_agent 1 h
  = Some {| cm_items := cm_items h; history_version := 4; user_message_revision := 6; token_info := None;
            reference_context_item := Some tt; world_state_baseline := None |}.
Proof. by vm_compute. Qed.

(** ** A world that changes *)

#[local] Instance unit_numbers : @NumberEq plain_json.
Proof. refine {| number_eq := λ _ _, true |}; done. Defined.

Definition silent_section (id : String.string) (value : Json) : section :=
  {| section_id := lit id; serialized := Some value;
     matches_legacy_fragment := λ _ _, false; has_retained_fragment_matcher := false;
     matches_retained_fragment := λ _ _, false; section_render_diff := λ _, None |}.

Definition cwd (path : String.string) : Json :=
  JObject [(lit "cwd", JString (lit path)); (lit "shell", JString (lit "zsh")); (lit "note", JNull)].

Definition old_world : WorldState :=
  [silent_section "host_skills" (JArray [JNull]); silent_section "permissions" (JBool true);
   silent_section "environment" (cwd "/a")].
Definition new_world : WorldState :=
  [silent_section "environment" (cwd "/b"); silent_section "model" (JString (lit "m"))].

Definition world_log : list world_op :=
  [Inject old_world; Step new_world; Update new_world []; Compact None; Update old_world [];
   Compact (Some old_world); Step new_world].

Lemma built_section s w : built w → has_section (section_id s) w = false → built (w ++ [s]).
Proof. intros Hw Hs. apply (built_add s w); [done|]. unfold add_section. by rewrite Hs. Qed.

Lemma worlds_ok : world_ok old_world ∧ world_ok new_world.
Proof.
  split; (split; [|by vm_compute]).
  - apply (built_extension (silent_section "host_skills" (JArray [JNull]))
             ([] ++ [silent_section "permissions" (JBool true)]
                ++ [silent_section "environment" (cwd "/a")])); [|by vm_compute].
    rewrite (assoc_L (++)). by repeat apply built_section; [constructor| |].
  - apply (built_section (silent_section "model" (JString (lit "m"))) [_]); [|done].
    apply (built_section _ []); [constructor|done].
Defined.

(** The steps persist patches and the first update nothing. *)
Example world_log_items : length (ses_persisted (run_world world_log)) = 7.
Proof. by vm_compute. Qed.

Lemma merge_patch_advances_witness :
  match merge_patch_from (world_snapshot new_world) (world_snapshot old_world) with
  | None => False
  | Some patch =>
      snapshot_eq (apply_merge_patch (world_snapshot old_world) patch) (world_snapshot new_world) = true
  end.
Proof.
  pose proof (merge_patch_advances (world_snapshot new_world) (world_snapshot old_world)
                (world_snapshot old_world) eq_refl eq_refl eq_refl eq_refl) as H.
  destruct (merge_patch_from _ _); [exact (proj2 (proj2 H))|].
  destruct H as [H _]. by vm_compute in H.
Defined.

Lemma replay_restores_baseline_witness :
  match replay (ses_persisted (run_world world_log)), ses_baseline (run_world world_log) with
  | Some restored, Some live => snapshot_eq restored live = true
  | _, _ => False
  end.
Proof.
  pose proof (replay_restores_baseline world_log) as H.
  assert (Forall op_ok world_log) as Hok.
  { destruct worlds_ok as [Ho Hn]. repeat apply Forall_cons_2; [..|apply Forall_nil_2]; done. }
  assert (is_Some (ses_baseline (run_world world_log))) as [live E] by by vm_compute; eauto.
  specialize (H Hok). rewrite E in *. by destruct (replay _).
Defined.
