(* ===== verification/Compaction.v ===== *)
(** * Compacting the conversation

    The local part of [codex-rs/core/src/compact.rs]: the user messages that a
    compaction keeps within a budget of tokens, the summary after them, and the
    place of the initial context in the new history. *)

From S2P Require Import Prelude RustStr Utf8 Truncation ResponseItems ContextFragments.

(** [prompts/templates/compact/summary_prefix.md]. *)
Definition SUMMARY_PREFIX : str := lit "Another language model started to solve this problem and produced a summary of its thinking process. You also have access to the state of the tools that were used by that language model. Use this to build on the work that has already been done and avoid duplicating work. Here is the summary produced by the other language model, use the information in this summary to assist with your own analysis:".

Definition COMPACT_USER_MESSAGE_MAX_TOKENS : N := 20000.

Definition is_summary_message (message : str) : bool := starts_with message (SUMMARY_PREFIX ++ [10%N]).

Section compaction.
Context {J : JsonTypes} (from_xml : str → option HookPromptFragment).

Abbreviation envelope := ResponseItemEnvelope.

Record CompactedUserMessage := {
  message : str;
  message_passthrough : option InternalChatMessageMetadataPassthrough;
  harness_metadata : option CodexHarnessMetadata;
}.

(** [UserMessageItem::message] ([protocol/src/items.rs]). *)
Definition user_text (content : list UserInput) : str :=
  concat ((λ c, match c with UText text => text | _ => [] end) <$> content).

(** The text of an item that is a message of the user; the identifier that
    [parse_turn_item] makes up is not used. *)
Definition user_message_text (i : ResponseItem) : option str :=
  match parse_turn_item from_xml [] i with
  | Some (TUserMessage _ content) => Some (user_text content)
  | _ => None
  end.

Definition compacted_user_message (i : ResponseItem) (meta : option CodexHarnessMetadata)
    : option CompactedUserMessage :=
  text ← user_message_text i;
  if is_summary_message text then None
  else Some {| message := text;
               message_passthrough := match i with Message _ _ _ _ m => m | _ => None end;
               harness_metadata := meta |}.

Definition collect_annotated_user_messages (items : list envelope) : list CompactedUserMessage :=
  omap (λ e, compacted_user_message (item e) (metadata e)) items.

(** The loop over the messages, the newest first. *)
Fixpoint select_messages (remaining : N) (newest_first : list CompactedUserMessage)
    : option (list CompactedUserMessage) :=
  match newest_first with
  | [] => Some []
  | m :: rest =>
      if (remaining =? 0)%N then Some []
      else
        let tokens := approx_token_count (message m) in
        if (tokens <=? remaining)%N then cons m <$> select_messages (remaining - tokens) rest
        else
          truncated ← truncate_text (message m) (Tokens remaining);
          Some [{| message := truncated; message_passthrough := message_passthrough m;
                   harness_metadata := harness_metadata m |}]
  end.

Definition message_item (m : CompactedUserMessage) : ResponseItem :=
  let i := Message None (lit "user") [CInputText (message m)] None (message_passthrough m) in
  match message_passthrough m ≫= content_item_kinds with
  | Some _ =>
      default i (set_annotated_content i
        [{| ac_content := CInputText (message m); ac_kind := lit "user.text" |}])
  | None => i
  end.

(** [CompactionSummary] as an item. *)
Definition summary_item (summary_text : str) : ResponseItem :=
  Message None (lit "user") [CInputText (render_marked [] [] summary_text)] None
    (Some (set_kinds (Some [lit "compaction.summary"]) default_passthrough)).

Definition build_compacted_history_with_limit (history : list envelope)
    (user_messages : list CompactedUserMessage) (summary_text : str) (max_tokens : N)
    : option (list envelope) :=
  selected_messages ← if (0 <? max_tokens)%N
                      then reverse <$> select_messages max_tokens (reverse user_messages)
                      else Some [];
  let summary_text := if is_empty summary_text then lit "(no summary available)" else summary_text in
  Some (history
        ++ ((λ m, {| item := message_item m; metadata := harness_metadata m |}) <$> selected_messages)
        ++ [new_envelope (summary_item summary_text)]).

Definition build_compacted_history (initial_context : list envelope)
    (user_messages : list CompactedUserMessage) (summary_text : str) : option (list envelope) :=
  build_compacted_history_with_limit initial_context user_messages summary_text
    COMPACT_USER_MESSAGE_MAX_TOKENS.

(** ** The place of the initial context *)

Definition is_agent_instruction (i : ResponseItem) : bool :=
  match i with
  | AgentMessage _ _ _ content _ =>
      match head content with
      | Some (AInputText text) =>
          negb (starts_with text (lit "Message Type: FINAL_ANSWER" ++ [10%N]))
      | _ => true
      end
  | _ => false
  end.

(** The loop from the end: the indices of the last real user message and of the
    last message of either kind. *)
Fixpoint last_user_indices (items : list (nat * envelope)) (user_or_summary : option nat)
    : option nat * option nat :=
  match items with
  | [] => (None, user_or_summary)
  | (i, e) :: items =>
      if is_agent_instruction (item e) then (Some i, user_or_summary)
      else
        match user_message_text (item e) with
        | None => last_user_indices items user_or_summary
        | Some text =>
            let user_or_summary := Some (default i user_or_summary) in
            if is_summary_message text then last_user_indices items user_or_summary
            else (Some i, user_or_summary)
        end
  end.

Definition is_compaction (i : ResponseItem) : bool :=
  match i with Compaction _ _ _ | ContextCompaction _ _ _ => true | _ => false end.

Definition first_some {A} (a b : option A) : option A :=
  match a with Some x => Some x | None => b end.

Definition insertion_index (compacted_history : list envelope) : option nat :=
  let newest_first := reverse (imap pair compacted_history) in
  let '(last_real_user_index, last_user_or_summary_index) := last_user_indices newest_first None in
  let last_compaction_index :=
    fst <$> List.find (λ p, is_compaction (item p.2)) newest_first in
  first_some last_real_user_index (first_some last_user_or_summary_index last_compaction_index).

Definition insert_initial_context_before_last_real_user_or_summary
    (compacted_history initial_context : list envelope) : list envelope :=
  match insertion_index compacted_history with
  | Some i => take i compacted_history ++ initial_context ++ drop i compacted_history
  | None => compacted_history ++ initial_context
  end.
(** ** The messages that are kept *)

Definition message_tokens (messages : list CompactedUserMessage) : N :=
  foldr (λ m n, approx_token_count (message m) + n)%N 0%N messages.

Lemma message_tokens_app a b : message_tokens (a ++ b) = (message_tokens a + message_tokens b)%N.
Proof. induction a as [|m a IH]; simpl; [done|]. fold (message_tokens (a ++ b)). rewrite IH. simpl. fold (message_tokens a). lia. Qed.

Lemma message_tokens_reverse a : message_tokens (reverse a) = message_tokens a.
Proof. induction a as [|m a IH]; [done|]. rewrite reverse_cons, message_tokens_app, IH. simpl. fold (message_tokens a). lia. Qed.

(** A message cut to what remains. *)
Definition is_cut (m cut : CompactedUserMessage) (remaining : N) : Prop :=
  truncate_text (message m) (Tokens remaining) = Some (message cut)
  ∧ message_passthrough cut = message_passthrough m
  ∧ harness_metadata cut = harness_metadata m.

(** What follows the kept messages: nothing, or the next message cut. *)
Definition stops (kept rest : list CompactedUserMessage) (cut : option CompactedUserMessage) (budget : N)
    : Prop :=
  (message_tokens kept ≤ budget)%N
  ∧ match cut with
    | None => rest = [] ∨ message_tokens kept = budget
    | Some c =>
        let remaining := (budget - message_tokens kept)%N in
        ∃ m, head rest = Some m ∧ (0 < remaining < approx_token_count (message m))%N
             ∧ is_cut m c remaining
    end.

Lemma select_spec l : ∀ budget,
  Forall (λ m, byte_len (message m) ≤ usize_max)%N l →
  ∃ kept rest cut, l = kept ++ rest ∧ stops kept rest cut budget
    ∧ select_messages budget l = Some (kept ++ option_list cut).
Proof.
  induction l as [|m l IH]; intros budget HF; cbn [select_messages].
  { exists [], [], None. split_and!; [done| |done]. split; [simpl; lia|by left]. }
  apply Forall_cons in HF as [Hm HF].
  destruct (N.eqb_spec budget 0) as [->|Hb].
  { exists [], (m :: l), None. split_and!; [done| |done]. split; [simpl; lia|by right]. }
  destruct (N.leb_spec (approx_token_count (message m)) budget) as [Hle|Hgt].
  - destruct (IH (budget - approx_token_count (message m))%N HF) as (kept & rest & cut & -> & [Hk Hc] & ->).
    exists (m :: kept), rest, cut. split_and!; [done| |done].
    unfold stops. simpl. fold (message_tokens kept). split; [lia|]. destruct cut as [c|].
    + destruct Hc as (m' & Hh & Hr & Hcut). exists m'.
      replace (budget - (approx_token_count (message m) + message_tokens kept))%N
        with (budget - approx_token_count (message m) - message_tokens kept)%N by lia. done.
    + destruct Hc as [Hc|Hc]; [by left|right; lia].
  - destruct (truncate_text_total (message m) (Tokens budget) Hm) as [t Ht]. rewrite Ht. simpl.
    set (c := {| message := t; message_passthrough := message_passthrough m;
                 harness_metadata := harness_metadata m |}).
    exists [], (m :: l), (Some c). split_and!; [done| |done]. split; [simpl; lia|].
    exists m. simpl. rewrite N.sub_0_r. split_and!; [done|lia|lia|]. done.
Qed.

Definition entry (m : CompactedUserMessage) : envelope :=
  {| item := message_item m; metadata := harness_metadata m |}.

Definition summary_entry (summary_text : str) : envelope :=
  new_envelope (summary_item
    (if is_empty summary_text then lit "(no summary available)" else summary_text)).

(** C28: a compaction keeps the newest messages.  The new history is the initial
    context, the newest user messages that fit the budget in their order and the
    summary; when the budget ends inside a message, that message comes first, cut
    to the tokens that remain, and when nothing is cut every message was kept or
    the budget is used up. *)
Theorem compaction_keeps_newest history messages summary_text max_tokens :
  (0 < max_tokens)%N → Forall (λ m, byte_len (message m) ≤ usize_max)%N messages →
  ∃ older kept cut,
    messages = older ++ kept
    ∧ stops kept (reverse older) cut max_tokens
    ∧ build_compacted_history_with_limit history messages summary_text max_tokens
      = Some (history ++ (entry <$> option_list cut ++ kept) ++ [summary_entry summary_text]).
Proof.
  intros Hm HF. rewrite <- (Forall_reverse _ messages) in HF.
  destruct (select_spec (reverse messages) max_tokens HF) as (kept & rest & cut & Hl & [Hk Hs] & Hsel).
  exists (reverse rest), (reverse kept), cut. split_and!.
  - by rewrite <- reverse_app, <- Hl, reverse_involutive.
  - unfold stops. rewrite message_tokens_reverse, reverse_involutive. split; [done|].
    destruct cut; [done|]. exact Hs.
  - unfold build_compacted_history_with_limit. rewrite (proj2 (N.ltb_lt _ _)) by done.
    rewrite Hsel. simpl. rewrite reverse_app. by destruct cut.
Qed.

(** ** Compacting again *)

(** A text that stands for itself: no context fragment and no summary. *)
Definition plain_text (text : str) : bool :=
  negb (is_contextual_user_fragment from_xml (CInputText text)) && negb (is_summary_message text).

Lemma user_message_text_plain i m text :
  (i = Message None (lit "user") [CInputText text] None m) →
  is_contextual_user_fragment from_xml (CInputText text) = false → user_message_text i = Some text.
Proof.
  intros -> Hc. unfold user_message_text, parse_turn_item. rewrite bool_decide_true by done.
  unfold parse_visible_hook_prompt_message, parse_user_message, is_contextual_user_message_content.
  cbn [existsb]. rewrite Hc. unfold is_contextual_user_fragment in Hc.
  apply orb_false_elim in Hc as [Hh Hs]. cbn [visible_hook_fragments].
  destruct (parse_hook_prompt_fragment from_xml text); [done|]. rewrite Hs. simpl.
  unfold is_media_label. simpl. rewrite !andb_false_r. simpl. unfold user_text. simpl. by rewrite app_nil_r.
Qed.

Lemma message_item_shape m :
  ∃ meta, message_item m = Message None (lit "user") [CInputText (message m)] None meta.
Proof. unfold message_item. destruct (_ ≫= content_item_kinds); simpl; by eexists. Qed.

Lemma collect_app a b :
  collect_annotated_user_messages (a ++ b)
  = collect_annotated_user_messages a ++ collect_annotated_user_messages b.
Proof. apply omap_app. Qed.

Lemma collect_entries messages :
  Forall (λ m, plain_text (message m) = true) messages →
  message <$> collect_annotated_user_messages (entry <$> messages) = message <$> messages.
Proof.
  unfold collect_annotated_user_messages. induction 1 as [|m l Hm _ IH]; [done|].
  apply andb_prop in Hm as [Hc%negb_true_iff Hs%negb_true_iff].
  destruct (message_item_shape m) as [meta E]. rewrite fmap_cons.
  cbn [omap list_omap item entry metadata]. unfold compacted_user_message at 1.
  rewrite (user_message_text_plain _ _ _ E Hc). cbn [mbind option_bind]. rewrite Hs.
  rewrite !fmap_cons. cbn [message]. f_equal. exact IH.
Qed.

Lemma summary_not_collected summary : collect_annotated_user_messages
  [summary_entry (SUMMARY_PREFIX ++ 10%N :: summary)] = [].
Proof.
  unfold collect_annotated_user_messages, summary_entry. cbn [omap list_omap].
  rewrite (proj2 (is_empty_false (SUMMARY_PREFIX ++ 10%N :: summary))) by done.
  unfold compacted_user_message, user_message_text, parse_turn_item, summary_item.
  cbn [item new_envelope]. rewrite bool_decide_true by done.
  destruct (parse_visible_hook_prompt_message _ _ _ _); [done|].
  unfold parse_user_message. destruct (is_contextual_user_message_content _ _); [done|].
  cbn [user_inputs head]. unfold is_media_label, is_image_item, is_audio_item.
  rewrite !andb_false_r. cbn [orb app]. unfold user_text. cbn [fmap list_fmap concat].
  rewrite !app_nil_r. unfold render_marked. cbn [is_empty andb mbind option_bind].
  unfold is_summary_message. rewrite (proj2 (starts_with_spec _ _)); [done|].
  exists summary. by rewrite <- (assoc_L (++)).
Qed.

Lemma select_all l : ∀ budget,
  Forall (λ m, 0 < approx_token_count (message m))%N l → (message_tokens l ≤ budget)%N →
  select_messages budget l = Some l.
Proof.
  induction l as [|m l IH]; intros budget HF Hb; [done|]. cbn [select_messages].
  apply Forall_cons in HF as [Hm HF]. simpl in Hb. fold (message_tokens l) in Hb.
  destruct (N.eqb_spec budget 0); [lia|]. rewrite (proj2 (N.leb_le _ _)) by lia.
  rewrite IH; [done|done|lia].
Qed.

(** Compacting is stable.  The messages of the user that a compaction kept
    whole are the ones that the next compaction collects, and the summary is not
    taken for one of them. *)
Theorem compaction_stable messages summary :
  Forall (λ m, plain_text (message m) = true) messages →
  Forall (λ m, 0 < approx_token_count (message m))%N messages →
  (message_tokens messages ≤ COMPACT_USER_MESSAGE_MAX_TOKENS)%N →
  ∃ history,
    build_compacted_history [] messages (SUMMARY_PREFIX ++ 10%N :: summary) = Some history
    ∧ message <$> collect_annotated_user_messages history = message <$> messages.
Proof.
  intros Hp Ht Hb. unfold build_compacted_history, build_compacted_history_with_limit.
  rewrite (proj2 (N.ltb_lt _ _)) by done.
  rewrite select_all by (rewrite ?message_tokens_reverse; by rewrite ?Forall_reverse).
  cbn [fmap option_fmap option_map mbind option_bind]. rewrite reverse_involutive.
  eexists. split; [done|]. change (new_envelope _) with (summary_entry (SUMMARY_PREFIX ++ 10%N :: summary)).
  change ([] ++ ?l) with l. rewrite collect_app, fmap_app, summary_not_collected, app_nil_r. by apply collect_entries.
Qed.
(** ** Where the initial context goes *)

(** The index of the last item with a property. *)
Fixpoint last_index {A} (f : A → bool) (l : list A) : option nat :=
  match l with
  | [] => None
  | x :: l =>
      match last_index f l with
      | Some i => Some (S i)
      | None => if f x then Some 0 else None
      end
  end.

Lemma last_index_snoc {A} (f : A → bool) l x :
  last_index f (l ++ [x]) = if f x then Some (length l) else last_index f l.
Proof. induction l as [|y l IH]; simpl; [done|]. rewrite IH. by destruct (f x). Qed.

Lemma last_index_Some {A} (f : A → bool) l i :
  last_index f l = Some i →
  ∃ x rest, l = take i l ++ x :: rest ∧ drop i l = x :: rest ∧ f x = true ∧ forallb (negb ∘ f) rest = true.
Proof.
  revert i. induction l as [|y l IH]; intros i; simpl; [done|].
  destruct (last_index f l) as [j|] eqn:E.
  - intros [= <-]. destruct (IH j eq_refl) as (x & rest & H1 & H2 & H3 & H4).
    exists x, rest. simpl. split_and!; [by rewrite <- H1|done|done|done].
  - destruct (f y) eqn:Fy; [|done]. intros [= <-]. exists y, l. split_and!; [done|done|done|].
    clear -E. induction l as [|z l IH]; [done|]. simpl in *.
    destruct (last_index f l); [done|]. destruct (f z); [done|]. by apply IH.
Qed.

Lemma last_index_None {A} (f : A → bool) l : last_index f l = None ↔ forallb (negb ∘ f) l = true.
Proof.
  induction l as [|y l IH]; simpl; [done|]. rewrite andb_true_iff, negb_true_iff.
  destruct (last_index f l), (f y); naive_solver.
Qed.

(** A message of the user or of an agent that asks for something. *)
Definition is_real (e : envelope) : bool :=
  is_agent_instruction (item e)
  || match user_message_text (item e) with Some text => negb (is_summary_message text) | None => false end.
Definition is_user_like (e : envelope) : bool := negb (is_none (user_message_text (item e))).

Lemma last_user_indices_spec (h : list envelope) s :
  let r := last_user_indices (reverse (imap pair h)) s in
  r.1 = last_index is_real h
  ∧ (r.1 = None → r.2 = first_some s (last_index is_user_like h)).
Proof.
  revert s. induction h as [|e h IH] using rev_ind; intros s; [by destruct s|].
  rewrite imap_app, reverse_app. cbn [imap]. rewrite reverse_singleton. cbn [app]. rewrite Nat.add_0_r.
  rewrite !last_index_snoc. cbn [last_user_indices]. unfold is_real at 1, is_user_like at 1.
  destruct (is_agent_instruction (item e)); [split; [done|discriminate]|]. cbn [orb].
  destruct (user_message_text (item e)) as [text|]; [|by apply IH].
  destruct (is_summary_message text); [|split; [done|discriminate]]. simpl.
  destruct (IH (Some (default (length h) s))) as [H1 H2]. split; [done|].
  intros E. rewrite H2 by done. by destruct s.
Qed.

Lemma find_reverse {A} (f : A → bool) (h : list A) :
  fst <$> List.find (λ p, f p.2) (reverse (imap pair h)) = last_index f h.
Proof.
  induction h as [|e h IH] using rev_ind; [done|]. rewrite imap_app, reverse_app. cbn [imap].
  rewrite reverse_singleton. cbn [app]. rewrite Nat.add_0_r, last_index_snoc. cbn [List.find]. simpl.
  by destruct (f e).
Qed.

Lemma insertion_index_spec h :
  insertion_index h
  = first_some (last_index is_real h)
      (first_some (last_index is_user_like h) (last_index (is_compaction ∘ item) h)).
Proof.
  unfold insertion_index. pose proof (last_user_indices_spec h None) as [H1 H2].
  pose proof (find_reverse (is_compaction ∘ item) h) as H3.
  destruct (last_user_indices (reverse (imap pair h)) None) as [a b]. simpl in H1, H2, H3 |- *.
  rewrite H3. subst a. destruct (last_index is_real h); [done|]. by rewrite H2.
Qed.

(** [after] begins with the last item of [h] that has the property. *)
Definition begins_at_last (f : envelope → bool) (after : list envelope) : Prop :=
  ∃ e rest, after = e :: rest ∧ f e = true ∧ forallb (negb ∘ f) rest = true.
Definition none_is (f : envelope → bool) (h : list envelope) : Prop := forallb (negb ∘ f) h = true.

(** Where a compacted history gets the initial context: right before the
    last message of the user (or request of an agent); without one, before the
    last message that stands for the user, the summary; without one, before the
    last compaction item; and at the end when there is none of them.  Nothing
    else of the history changes. *)
Theorem initial_context_placement h ctx :
  ∃ before after,
    h = before ++ after
    ∧ insert_initial_context_before_last_real_user_or_summary h ctx = before ++ ctx ++ after
    ∧ (begins_at_last is_real after
       ∨ none_is is_real h ∧ begins_at_last is_user_like after
       ∨ none_is is_real h ∧ none_is is_user_like h ∧ begins_at_last (is_compaction ∘ item) after
       ∨ none_is is_real h ∧ none_is is_user_like h ∧ none_is (is_compaction ∘ item) h ∧ after = []).
Proof.
  assert (∀ f i, last_index f h = Some i →
            h = take i h ++ drop i h ∧ begins_at_last f (drop i h)) as Hsplit.
  { intros f i Hi. split; [by rewrite take_drop|].
    apply last_index_Some in Hi as (e & rest & _ & -> & ? & ?). by exists e, rest. }
  assert (∀ f, last_index f h = None → none_is f h) as Hnone by (intros f; apply last_index_None).
  unfold insert_initial_context_before_last_real_user_or_summary. rewrite insertion_index_spec.
  destruct (last_index is_real h) as [i|] eqn:E1; simpl.
  { destruct (Hsplit _ _ E1) as [? ?]. eexists _, _. split_and!; [done|done|by left]. }
  destruct (last_index is_user_like h) as [i|] eqn:E2; simpl.
  { destruct (Hsplit _ _ E2) as [? ?]. eexists _, _. split_and!; [done|done|]. right; left; auto. }
  destruct (last_index (is_compaction ∘ item) h) as [i|] eqn:E3; simpl.
  { destruct (Hsplit _ _ E3) as [? ?]. eexists _, _. split_and!; [done|done|]. right; right; left; auto. }
  exists h, []. rewrite !app_nil_r. split_and!; [done|done|]. right; right; right; auto.
Qed.
End compaction.
