(* ===== verification/RolloutReconstruction.v ===== *)
(** * Rebuilding a session from its rollout

    [codex-rs/core/src/session/rollout_reconstruction.rs] and the items of a
    rollout ([codex-rs/history/src/lib.rs], [protocol/src/protocol.rs]): the
    records of a session are read from the newest to the oldest, turn by turn,
    rolled back turns are skipped, and the items after the last checkpoint are
    replayed to give the history.  [uuid] is a parameter, and so are the parts
    of a turn's context that are only stored. *)

From S2P Require Import Prelude RustStr Utf8 Truncation ResponseItems History ContextFragments TokenEstimates HistoryManager WorldState Compaction.

(** ** The items of a rollout *)

Section items.
Context {J : JsonTypes}.

(** [AgentPath] is a wrapper of a string. *)
Record InterAgentCommunication := {
  ia_id : option str;
  author : str;
  recipient : str;
  other_recipients : list str;
  ia_content : str;
  ia_encrypted_content : option str;
  ia_passthrough : option InternalChatMessageMetadataPassthrough;
  trigger_turn : bool;
}.

Definition to_model_input_item (c : InterAgentCommunication) : ResponseItem :=
  let content :=
    match ia_encrypted_content c with
    | Some encrypted_content =>
        let message_type := if trigger_turn c then lit "NEW_TASK" else lit "MESSAGE" in
        [AInputText (lit "Message Type: " ++ message_type ++ [10%N] ++ lit "Task name: " ++ recipient c
                     ++ [10%N] ++ lit "Sender: " ++ author c ++ [10%N] ++ lit "Payload:" ++ [10%N]);
         AEncryptedContent encrypted_content]
    | None => [AInputText (ia_content c)]
    end in
  AgentMessage (ia_id c) (author c) (recipient c) content (ia_passthrough c).

(** The checkpoint of MCP resources is not read. *)
Record CompactedItem := {
  compacted_message : str;
  replacement_history : option (list ResponseItemEnvelope);
  window_number : option N;
  first_window_id : option str;
  previous_window_id : option str;
  window_id : option str;
}.

(** [TurnContextItem]; what replay only passes on is in [tc_rest]. *)
Record TurnContextItem {TurnRest : Type} := {
  tc_turn_id : option str;
  tc_model : str;
  tc_comp_hash : option str;
  tc_realtime_active : option bool;
  tc_rest : TurnRest;
}.

(** The events that replay looks at. *)
Inductive EventMsg :=
| ThreadRolledBack (num_turns : N)
| TurnStarted (turn_id : str)
| TurnComplete (turn_id : str)
| TurnAborted (turn_id : option str)
| UserMessageEvent
| OtherEvent.

(** A session's meta line carries the identifier of its first window. *)
Inductive RolloutItem {TurnRest : Type} :=
| RSessionMeta (context_window_id : option str)
| RResponseItem (e : ResponseItemEnvelope)
| RInterAgentCommunication (c : InterAgentCommunication)
| RInterAgentCommunicationMetadata (trigger : bool)
| RCompacted (c : CompactedItem)
| RTurnContext (c : @TurnContextItem TurnRest)
| RWorldState (s : WorldStateItem)
| RSecurityRiskScore
| REventMsg (e : EventMsg)
| RRealtimeItem.
End items.

Section reconstruction.
Context {J : JsonTypes} {TurnRest Uuid : Type}.
Context (parse_str : str → option Uuid) (get_version_num : Uuid → N).
Context (from_xml : str → option HookPromptFragment) (is_inter_agent : str → bool)
  (estimate_audio_token_count : str → N) (truncation_policy : TruncationPolicy).

Abbreviation rollout_item := (@RolloutItem J TurnRest).
Abbreviation turn_context := (@TurnContextItem TurnRest).
Abbreviation envelope := ResponseItemEnvelope.
Abbreviation manager := (@ContextManager J TokenUsageInfo turn_context WorldStateSnapshot).

Definition parse_uuid_v7 (value : str) : option Uuid :=
  uuid ← parse_str value; if (get_version_num uuid =? 7)%N then Some uuid else None.

Record ReconstructedWindow := {
  number : N;
  first_id : option Uuid;
  previous_id : option Uuid;
  id : option Uuid;
}.

Record PreviousTurnSettings := {
  settings_model : str;
  settings_comp_hash : option str;
  settings_realtime_active : option bool;
}.

Inductive TurnReferenceContextItem := NeverSet | Cleared | Latest (c : turn_context).

Definition never_set (r : TurnReferenceContextItem) : bool :=
  match r with NeverSet => true | _ => false end.

(** The world-state records are the ones that [WorldState.replay_item] has; they
    are kept newest first. *)
Record ActiveReplaySegment := {
  seg_turn_id : option str;
  counts_as_user_turn : bool;
  seg_settings : option PreviousTurnSettings;
  seg_reference : TurnReferenceContextItem;
  seg_world : list replay_item;
  seg_base : option (list envelope);
  seg_window : option ReconstructedWindow;
}.

Definition default_segment : ActiveReplaySegment :=
  {| seg_turn_id := None; counts_as_user_turn := false; seg_settings := None;
     seg_reference := NeverSet; seg_world := []; seg_base := None; seg_window := None |}.

Definition turn_ids_are_compatible (active_turn_id item_turn_id : option str) : bool :=
  match active_turn_id, item_turn_id with
  | Some a, Some b => bool_decide (b = a)
  | _, _ => true
  end.

(** ** What an item does to the segment *)

Definition with_turn_id (id : option str) (s : ActiveReplaySegment) : ActiveReplaySegment :=
  {| seg_turn_id := id; counts_as_user_turn := counts_as_user_turn s; seg_settings := seg_settings s;
     seg_reference := seg_reference s; seg_world := seg_world s; seg_base := seg_base s;
     seg_window := seg_window s |}.

Definition with_user_turn (b : bool) (s : ActiveReplaySegment) : ActiveReplaySegment :=
  {| seg_turn_id := seg_turn_id s; counts_as_user_turn := b; seg_settings := seg_settings s;
     seg_reference := seg_reference s; seg_world := seg_world s; seg_base := seg_base s;
     seg_window := seg_window s |}.

Definition push_world (i : replay_item) (s : ActiveReplaySegment) : ActiveReplaySegment :=
  {| seg_turn_id := seg_turn_id s; counts_as_user_turn := counts_as_user_turn s;
     seg_settings := seg_settings s; seg_reference := seg_reference s;
     seg_world := seg_world s ++ [i]; seg_base := seg_base s; seg_window := seg_window s |}.

Definition window_of (c : CompactedItem) : option ReconstructedWindow :=
  n ← window_number c;
  Some {| number := n; first_id := first_window_id c ≫= parse_uuid_v7;
          previous_id := previous_window_id c ≫= parse_uuid_v7; id := window_id c ≫= parse_uuid_v7 |}.

Definition on_compacted (c : CompactedItem) (s : ActiveReplaySegment) : ActiveReplaySegment :=
  {| seg_turn_id := seg_turn_id s; counts_as_user_turn := counts_as_user_turn s;
     seg_settings := seg_settings s;
     seg_reference := if never_set (seg_reference s) then Cleared else seg_reference s;
     seg_world := seg_world s ++ [Compacted];
     seg_base := first_some (seg_base s) (replacement_history c);
     seg_window := first_some (seg_window s) (window_of c) |}.

Definition settings_of (c : turn_context) : PreviousTurnSettings :=
  {| settings_model := tc_model c; settings_comp_hash := tc_comp_hash c;
     settings_realtime_active := tc_realtime_active c |}.

Definition on_turn_context (c : turn_context) (s : ActiveReplaySegment) : ActiveReplaySegment :=
  let s := if is_none (seg_turn_id s) then with_turn_id (tc_turn_id c) s else s in
  if turn_ids_are_compatible (seg_turn_id s) (tc_turn_id c) then
    {| seg_turn_id := seg_turn_id s; counts_as_user_turn := counts_as_user_turn s;
       seg_settings := Some (settings_of c);
       seg_reference := if never_set (seg_reference s) then Latest c else seg_reference s;
       seg_world := seg_world s; seg_base := seg_base s; seg_window := seg_window s |}
  else s.

(** The segment after an item that does not end it; [get_or_insert_with] starts
    one, except for an aborted turn without an identifier. *)
Definition segment_step (active : option ActiveReplaySegment) (i : rollout_item)
    : option ActiveReplaySegment :=
  let inserted := default default_segment active in
  match i with
  | RCompacted c => Some (on_compacted c inserted)
  | REventMsg (TurnComplete turn_id) =>
      Some (if is_none (seg_turn_id inserted) then with_turn_id (Some turn_id) inserted else inserted)
  | REventMsg (TurnAborted turn_id) =>
      match active with
      | Some s =>
          Some (if is_none (seg_turn_id s) && negb (is_none turn_id) then with_turn_id turn_id s else s)
      | None => id ← turn_id; Some (with_turn_id (Some id) default_segment)
      end
  | REventMsg UserMessageEvent | RInterAgentCommunication _ => Some (with_user_turn true inserted)
  | RTurnContext c => Some (on_turn_context c inserted)
  | RWorldState s => Some (push_world (Persisted s) inserted)
  | RResponseItem e =>
      Some (with_user_turn
              (counts_as_user_turn inserted || is_user_turn_boundary from_xml is_inter_agent (item e))
              inserted)
  | REventMsg (ThreadRolledBack _) | REventMsg (TurnStarted _) | REventMsg OtherEvent
  | RSessionMeta _ | RRealtimeItem | RSecurityRiskScore | RInterAgentCommunicationMetadata _ => active
  end.

(** ** The scan *)

Record scan_state := {
  base_replacement_history : option (list envelope);
  previous_turn_settings : option PreviousTurnSettings;
  scan_reference : TurnReferenceContextItem;
  world_state_replay : list replay_item;
  window : option ReconstructedWindow;
  pending_rollback_turns : N;
  rollout_suffix : list rollout_item;
  active_segment : option ActiveReplaySegment;
}.

Definition is_full_world (i : replay_item) : bool :=
  match i with Persisted s => full s | Compacted => false end.
Definition is_compacted (i : replay_item) : bool := match i with Compacted => true | _ => false end.

(** [take_while] and [any]. *)
Fixpoint full_before_compaction (l : list replay_item) : bool :=
  match l with
  | [] => false
  | i :: l => if is_compacted i then false else is_full_world i || full_before_compaction l
  end.

Definition has_context_baseline (s : ActiveReplaySegment) : bool :=
  counts_as_user_turn s || full_before_compaction (seg_world s).

Definition is_cleared (r : TurnReferenceContextItem) : bool :=
  match r with Cleared => true | _ => false end.

Definition finalize_active_segment (s : ActiveReplaySegment) (st : scan_state) : scan_state :=
  if (0 <? pending_rollback_turns st)%N then
    {| base_replacement_history := base_replacement_history st;
       previous_turn_settings := previous_turn_settings st; scan_reference := scan_reference st;
       world_state_replay := world_state_replay st; window := window st;
       pending_rollback_turns :=
         if counts_as_user_turn s then (pending_rollback_turns st - 1)%N else pending_rollback_turns st;
       rollout_suffix := rollout_suffix st; active_segment := None |}
  else
    {| base_replacement_history := first_some (base_replacement_history st) (seg_base s);
       previous_turn_settings :=
         if is_none (previous_turn_settings st) && has_context_baseline s then seg_settings s
         else previous_turn_settings st;
       scan_reference :=
         if never_set (scan_reference st) && (has_context_baseline s || is_cleared (seg_reference s))
         then seg_reference s else scan_reference st;
       world_state_replay := world_state_replay st ++ seg_world s;
       window := first_some (window st) (seg_window s);
       pending_rollback_turns := pending_rollback_turns st;
       rollout_suffix := rollout_suffix st; active_segment := None |}.

Definition with_active (a : option ActiveReplaySegment) (st : scan_state) : scan_state :=
  {| base_replacement_history := base_replacement_history st;
     previous_turn_settings := previous_turn_settings st; scan_reference := scan_reference st;
     world_state_replay := world_state_replay st; window := window st;
     pending_rollback_turns := pending_rollback_turns st; rollout_suffix := rollout_suffix st;
     active_segment := a |}.

Definition with_suffix (suffix : list rollout_item) (st : scan_state) : scan_state :=
  {| base_replacement_history := base_replacement_history st;
     previous_turn_settings := previous_turn_settings st; scan_reference := scan_reference st;
     world_state_replay := world_state_replay st; window := window st;
     pending_rollback_turns := pending_rollback_turns st; rollout_suffix := suffix;
     active_segment := active_segment st |}.

Definition add_rollback (n : N) (st : scan_state) : scan_state :=
  {| base_replacement_history := base_replacement_history st;
     previous_turn_settings := previous_turn_settings st; scan_reference := scan_reference st;
     world_state_replay := world_state_replay st; window := window st;
     pending_rollback_turns := sat_add (pending_rollback_turns st) n;
     rollout_suffix := rollout_suffix st; active_segment := active_segment st |}.

(** Whether a compaction is the segment's checkpoint. *)
Definition is_checkpoint (active : option ActiveReplaySegment) (c : CompactedItem) : bool :=
  is_none (active ≫= seg_base) && negb (is_none (replacement_history c)).

(** The loop body; [newer] are the items after this one. *)
Definition scan_item (newer : list rollout_item) (st : scan_state) (i : rollout_item) : scan_state :=
  match i with
  | REventMsg (ThreadRolledBack n) => add_rollback n st
  | REventMsg (TurnStarted turn_id) =>
      match active_segment st with
      | Some s =>
          if turn_ids_are_compatible (seg_turn_id s) (Some turn_id)
          then finalize_active_segment s (with_active None st) else st
      | None => st
      end
  | RCompacted c =>
      let st' := if is_checkpoint (active_segment st) c then with_suffix newer st else st in
      with_active (segment_step (active_segment st) i) st'
  | _ => with_active (segment_step (active_segment st) i) st
  end.

Definition all_known (st : scan_state) : bool :=
  negb (is_none (base_replacement_history st)) && negb (is_none (previous_turn_settings st))
  && negb (never_set (scan_reference st)).

(** The items from the newest to the oldest. *)
Fixpoint scan (older newer : list rollout_item) (st : scan_state) : scan_state :=
  match older with
  | [] => st
  | i :: older =>
      let st := scan_item newer st i in
      if all_known st then st else scan older (i :: newer) st
  end.

Definition initial_scan (rollout_items : list rollout_item) : scan_state :=
  {| base_replacement_history := None; previous_turn_settings := None; scan_reference := NeverSet;
     world_state_replay := []; window := None; pending_rollback_turns := 0;
     rollout_suffix := rollout_items; active_segment := None |}.

Definition finish_scan (st : scan_state) : scan_state :=
  match active_segment st with
  | Some s => finalize_active_segment s (with_active None st)
  | None => st
  end.

Definition scan_rollout (rollout_items : list rollout_item) : scan_state :=
  finish_scan (scan (reverse rollout_items) [] (initial_scan rollout_items)).

(** ** The history *)

(** An item of the suffix; the flag tells of compactions without a checkpoint. *)
Definition replay_rollout_item (st : manager * bool) (i : rollout_item) : option (manager * bool) :=
  let '(history, saw_legacy) := st in
  match i with
  | RResponseItem e =>
      h ← record_annotated_items estimate_audio_token_count truncation_policy [e] history;
      Some (h, saw_legacy)
  | RInterAgentCommunication c =>
      h ← record_items estimate_audio_token_count truncation_policy [to_model_input_item c] history;
      Some (h, saw_legacy)
  | RCompacted c =>
      match replacement_history c with
      | Some replacement => Some (replace_annotated replacement history, saw_legacy)
      | None =>
          rebuilt ← build_compacted_history []
                      (collect_annotated_user_messages from_xml (cm_items history)) (compacted_message c);
          Some (replace_annotated rebuilt history, true)
      end
  | REventMsg (ThreadRolledBack n) =>
      h ← drop_last_n_user_turns from_xml is_inter_agent n history; Some (h, saw_legacy)
  | _ => Some (history, saw_legacy)
  end.

Fixpoint replay_items (items : list rollout_item) (st : manager * bool) : option (manager * bool) :=
  match items with
  | [] => Some st
  | i :: items => st ← replay_rollout_item st i; replay_items items st
  end.

(** ** The result *)

Record RolloutReconstruction := {
  rr_history : list envelope;
  rr_previous_turn_settings : option PreviousTurnSettings;
  rr_reference_context_item : option turn_context;
  rr_world_state_baseline : option WorldStateSnapshot;
  rr_window : ReconstructedWindow;
}.

Definition reconstructed_window_from_session_context_window (window_id : str) : option ReconstructedWindow :=
  id ← parse_uuid_v7 window_id;
  Some {| number := 0; first_id := Some id; previous_id := None; id := Some id |}.

Definition has_legacy_compaction_without_window_number (items : list rollout_item) : bool :=
  existsb (λ i, match i with RCompacted c => is_none (window_number c) | _ => false end) items.

(** [find_map]. *)
Fixpoint session_window (items : list rollout_item) : option ReconstructedWindow :=
  match items with
  | [] => None
  | RSessionMeta context_window :: items =>
      match context_window ≫= reconstructed_window_from_session_context_window with
      | Some w => Some w
      | None => session_window items
      end
  | _ :: items => session_window items
  end.

Definition initial_window (items : list rollout_item) : option ReconstructedWindow :=
  if has_legacy_compaction_without_window_number items then None else session_window items.

Definition fallback_window (items : list rollout_item) : ReconstructedWindow :=
  {| number := N.of_nat (length (List.filter (λ i, match i with RCompacted _ => true | _ => false end) items));
     first_id := None; previous_id := None; id := None |}.

Definition reconstruct_history_from_rollout (rollout_items : list rollout_item)
    : option RolloutReconstruction :=
  let st := scan_rollout rollout_items in
  let history := match base_replacement_history st with
                 | Some base => replace_annotated base new_manager
                 | None => new_manager
                 end in
  '(history, saw_legacy) ← replay_items (rollout_suffix st) (history, false);
  Some {| rr_history := cm_items history;
          rr_previous_turn_settings := previous_turn_settings st;
          rr_reference_context_item :=
            if (saw_legacy : bool) then None
            else match scan_reference st with Latest c => Some c | _ => None end;
          rr_world_state_baseline := replay (reverse (world_state_replay st));
          rr_window :=
            default (fallback_window rollout_items)
              (first_some (window st) (initial_window rollout_items)) |}.
End reconstruction.
