(* ===== verification/RolloutFacts.v ===== *)
(** * What a rebuilt session is

    The scan from the newest item back finds what the surviving turns say, and
    the replay of the items after the checkpoint gives the history that the
    replay of all items gives. *)

From S2P Require Import Prelude RustStr Utf8 Truncation ResponseItems History ContextFragments TokenEstimates HistoryManager HistoryTurns WorldState Compaction RolloutReconstruction.

Section facts.
Context {J : JsonTypes} {TurnRest Uuid : Type}.
Context (parse_str : str → option Uuid) (get_version_num : Uuid → N).
Context (from_xml : str → option HookPromptFragment) (is_inter_agent : str → bool)
  (estimate_audio_token_count : str → N) (truncation_policy : TruncationPolicy).

Abbreviation rollout_item := (@RolloutItem J TurnRest).
Abbreviation envelope := ResponseItemEnvelope.
Abbreviation manager := (@ContextManager J TokenUsageInfo (@TurnContextItem TurnRest) WorldStateSnapshot).
Abbreviation segment := (@ActiveReplaySegment J TurnRest Uuid).
Abbreviation state := (@scan_state J TurnRest Uuid).
Abbreviation segment_step := (segment_step parse_str get_version_num from_xml is_inter_agent).
Abbreviation scan_item := (scan_item parse_str get_version_num from_xml is_inter_agent).
Abbreviation scan := (scan parse_str get_version_num from_xml is_inter_agent).
Abbreviation scan_rollout := (scan_rollout parse_str get_version_num from_xml is_inter_agent).

(** ** Turns and rollbacks, the newest first *)

Inductive replay_event := Segment (s : segment) | Rollback (n : N).

Definition event_step (active : option segment) (i : rollout_item)
    : option segment * list replay_event :=
  match i with
  | REventMsg (ThreadRolledBack n) => (active, [Rollback n])
  | REventMsg (TurnStarted turn_id) =>
      match active with
      | Some s =>
          if turn_ids_are_compatible (seg_turn_id s) (Some turn_id) then (None, [Segment s])
          else (active, [])
      | None => (None, [])
      end
  | _ => (segment_step active i, [])
  end.

Fixpoint events (active : option segment) (older : list rollout_item) : list replay_event :=
  match older with
  | [] => option_list (Segment <$> active)
  | i :: older => (event_step active i).2 ++ events (event_step active i).1 older
  end.

(** The segments in the order of the session: a rollback takes the newest
    segments off until it has taken that many turns of the user. *)
Fixpoint pop_user_turns (n : N) (segments : list segment) : list segment :=
  match segments with
  | [] => []
  | s :: rest =>
      if (n =? 0)%N then segments
      else pop_user_turns (if counts_as_user_turn s then n - 1 else n)%N rest
  end.

Fixpoint surviving (newest_first : list replay_event) : list segment :=
  match newest_first with
  | [] => []
  | Segment s :: older => s :: surviving older
  | Rollback n :: older => pop_user_turns n (surviving older)
  end.

Definition surviving_segments (items : list rollout_item) : list segment :=
  surviving (events None (reverse items)).

(** What the newest segments with an answer say. *)
Definition newest {A} (f : segment → option A) (segments : list segment) : option A :=
  head (omap f segments).

Definition baseline_settings (s : segment) : option PreviousTurnSettings :=
  if has_context_baseline s then seg_settings s else None.

Definition baseline_reference (s : segment) : option TurnReferenceContextItem :=
  if (has_context_baseline s || is_cleared (seg_reference s)) && negb (never_set (seg_reference s))
  then Some (seg_reference s) else None.

(** ** Rollbacks add up *)

Lemma pop_zero segments : pop_user_turns 0 segments = segments.
Proof. by destruct segments. Qed.

Lemma pop_pop m n segments :
  pop_user_turns m (pop_user_turns n segments) = pop_user_turns (m + n) segments.
Proof.
  revert n. induction segments as [|s segments IH]; intros n; [done|]. cbn [pop_user_turns].
  destruct (N.eqb_spec n 0) as [->|Hn].
  - rewrite N.add_0_r. done.
  - rewrite (proj2 (N.eqb_neq (m + n) 0)) by lia. rewrite IH. f_equal.
    destruct (counts_as_user_turn s); lia.
Qed.

(** ** The scan reads the events *)

Definition apply_event (st : state) (e : replay_event) : state :=
  match e with Segment s => finalize_active_segment s st | Rollback n => add_rollback n st end.

(** The state without what the events do not say. *)
Definition strip (st : state) : state := with_suffix [] (with_active None st).

Lemma strip_finalize s st : strip (finalize_active_segment s st) = finalize_active_segment s (strip st).
Proof. unfold finalize_active_segment. simpl. by destruct (0 <? _)%N. Qed.

Lemma strip_active a st : strip (with_active a st) = strip st.
Proof. done. Qed.
Lemma strip_suffix l st : strip (with_suffix l st) = strip st.
Proof. done. Qed.

Lemma strip_scan_item newer st i :
  strip (scan_item newer st i) = foldl apply_event (strip st) (event_step (active_segment st) i).2
  ∧ active_segment (scan_item newer st i) = (event_step (active_segment st) i).1.
Proof.
  destruct i as [| | | |c| | | |e|]; try done.
  - simpl. by destruct (is_checkpoint _ _).
  - destruct e as [n|id|id|id| |]; try done. simpl. destruct (active_segment st) as [s|] eqn:E; [|done].
    destruct (turn_ids_are_compatible _ _); simpl; [|by rewrite E].
    rewrite strip_finalize. split; [done|]. unfold finalize_active_segment. by destruct (0 <? _)%N.
Qed.

(** The scan that never stops early. *)
Fixpoint scan_all (older newer : list rollout_item) (st : state) : state :=
  match older with
  | [] => st
  | i :: older => scan_all older (i :: newer) (scan_item newer st i)
  end.

Lemma strip_finish st :
  strip (finish_scan st) = foldl apply_event (strip st) (option_list (Segment <$> active_segment st)).
Proof. unfold finish_scan. destruct (active_segment st); [|done]. simpl. by rewrite strip_finalize. Qed.

Lemma scan_all_events older newer st :
  strip (finish_scan (scan_all older newer st))
  = foldl apply_event (strip st) (events (active_segment st) older).
Proof.
  revert newer st. induction older as [|i older IH]; intros newer st; simpl; [apply strip_finish|].
  destruct (strip_scan_item newer st i) as [H1 H2]. by rewrite IH, foldl_app, H1, H2.
Qed.

(** ** Skipping turns is dropping them *)

Definition rolled_back_turns (l : list replay_event) : N :=
  foldr (λ e n, match e with Rollback k => k + n | Segment _ => n end)%N 0%N l.

Definition with_pending (n : N) (st : state) : state :=
  {| base_replacement_history := base_replacement_history st;
     previous_turn_settings := previous_turn_settings st; scan_reference := scan_reference st;
     world_state_replay := world_state_replay st; window := window st;
     pending_rollback_turns := n; rollout_suffix := rollout_suffix st;
     active_segment := active_segment st |}.

Lemma finalize_active (s : segment) (st : state) : active_segment (finalize_active_segment s st) = None.
Proof. unfold finalize_active_segment. by destruct (0 <? _)%N. Qed.

Lemma finalize_skips (s : segment) (st : state) :
  active_segment st = None → pending_rollback_turns st ≠ 0%N →
  with_pending 0 (finalize_active_segment s st) = with_pending 0 st
  ∧ pending_rollback_turns (finalize_active_segment s st)
    = (if counts_as_user_turn s then pending_rollback_turns st - 1 else pending_rollback_turns st)%N.
Proof.
  intros Ha Hp. unfold finalize_active_segment. rewrite (proj2 (N.ltb_lt _ _)) by lia.
  unfold with_pending. simpl. by rewrite Ha.
Qed.

Lemma finalize_takes (s : segment) (st : state) :
  pending_rollback_turns st = 0%N →
  with_pending 0 (finalize_active_segment s st) = finalize_active_segment s (with_pending 0 st)
  ∧ pending_rollback_turns (finalize_active_segment s st) = 0%N.
Proof. intros Hp. unfold finalize_active_segment. by rewrite Hp. Qed.

Lemma events_survive l : ∀ st : state,
  active_segment st = None → (pending_rollback_turns st + rolled_back_turns l ≤ usize_max)%N →
  with_pending 0 (foldl apply_event st l)
  = foldl (λ st s, finalize_active_segment s st) (with_pending 0 st)
      (pop_user_turns (pending_rollback_turns st) (surviving l)).
Proof.
  induction l as [|[s|n] l IH]; intros st Ha Hn; cbn [foldl apply_event surviving] in *.
  - done.
  - cbn [pop_user_turns]. change (rolled_back_turns (Segment s :: l)) with (rolled_back_turns l) in Hn.
    destruct (N.eqb_spec (pending_rollback_turns st) 0) as [Hp|Hp].
    + destruct (finalize_takes s st Hp) as [H1 H2].
      rewrite IH; [|apply finalize_active|lia]. by rewrite H1, H2, pop_zero.
    + destruct (finalize_skips s st Ha Hp) as [H1 H2].
      rewrite IH; [by rewrite H1, H2|apply finalize_active|].
      rewrite H2. destruct (counts_as_user_turn s); lia.
  - change (rolled_back_turns (Rollback n :: l)) with (n + rolled_back_turns l)%N in Hn.
    assert (pending_rollback_turns (add_rollback n st) = (pending_rollback_turns st + n)%N) as E.
    { simpl. unfold sat_add. lia. }
    rewrite IH; [|done|lia]. by rewrite E, pop_pop.
Qed.

(** ** What the surviving segments say *)

Lemma newest_cons {A} (f : segment → option A) s segments :
  newest f (s :: segments) = first_some (f s) (newest f segments).
Proof. unfold newest. simpl. by destruct (f s). Qed.

Lemma first_some_assoc {A} (a b c : option A) : first_some (first_some a b) c = first_some a (first_some b c).
Proof. by destruct a. Qed.

Definition reference_answer (r : @TurnReferenceContextItem TurnRest) : option TurnReferenceContextItem :=
  if never_set r then None else Some r.

Lemma finalized (segments : list segment) : ∀ st : state,
  pending_rollback_turns st = 0%N →
  let st' := foldl (λ st s, finalize_active_segment s st) st segments in
  base_replacement_history st' = first_some (base_replacement_history st) (newest seg_base segments)
  ∧ previous_turn_settings st'
    = first_some (previous_turn_settings st) (newest baseline_settings segments)
  ∧ scan_reference st'
    = default NeverSet (first_some (reference_answer (scan_reference st))
                          (newest baseline_reference segments))
  ∧ world_state_replay st' = world_state_replay st ++ concat (seg_world <$> segments)
  ∧ window st' = first_some (window st) (newest seg_window segments).
Proof.
  induction segments as [|s segments IH]; intros st Hp; cbn [foldl].
  { rewrite app_nil_r. unfold newest. simpl.
    destruct (base_replacement_history st), (previous_turn_settings st), (scan_reference st), (window st); done. }
  destruct (finalize_takes s st Hp) as [_ Hp']. destruct (IH _ Hp') as (H1 & H2 & H3 & H4 & H5).
  cbv zeta. rewrite H1, H2, H3, H4, H5, !newest_cons. clear H1 H2 H3 H4 H5.
  unfold finalize_active_segment, baseline_settings, baseline_reference. rewrite Hp. simpl.
  rewrite <- !first_some_assoc, <- (assoc_L (++)). split_and!; try done.
  - by destruct (previous_turn_settings st), (has_context_baseline s).
  - by destruct (scan_reference st), (has_context_baseline s), (seg_reference s).
Qed.
(** ** Stopping early changes nothing *)

Section early.
(** Whether every compaction carries the number of its window. *)
Context (numbered : bool).

Definition item_numbered (i : rollout_item) : Prop :=
  match i with RCompacted c => numbered = true → window_number c ≠ None | _ => True end.

(** A checkpoint comes with the record of its compaction and with its window. *)
Definition checkpoint_ok (base : option (list envelope)) (world : list replay_item)
    (w : option (@ReconstructedWindow Uuid)) : Prop :=
  base ≠ None → existsb is_compacted world = true ∧ (numbered = true → w ≠ None).

Definition segment_ok (s : segment) : Prop := checkpoint_ok (seg_base s) (seg_world s) (seg_window s).

Definition state_ok (st : state) : Prop :=
  checkpoint_ok (base_replacement_history st) (world_state_replay st) (window st)
  ∧ ∀ s, active_segment st = Some s → segment_ok s.

Lemma segment_step_ok active i s :
  item_numbered i → (∀ s, active = Some s → segment_ok s) →
  segment_step active i = Some s → segment_ok s.
Proof.
  intros Hi Ha. assert (segment_ok (default default_segment active)) as Hd.
  { destruct active as [a|]; [by apply Ha|done]. }
  destruct i as [| |c0| |c|c|w| |e|]; simpl; try (by intros [= <-]); try (by apply Ha).
  - intros [= <-] Hb. simpl in *. rewrite existsb_app. simpl. rewrite orb_true_r. split; [done|].
    intros Hn. destruct (seg_window _); [done|]. unfold window_of. simpl.
    specialize (Hi Hn). by destruct (window_number c).
  - intros [= <-]. unfold on_turn_context.
    destruct (turn_ids_are_compatible _ _); by destruct (is_none _).
  - intros [= <-] Hb. simpl in *. destruct (Hd Hb) as [H1 H2]. split; [|done].
    by rewrite existsb_app, H1.
  - destruct e as [n|id|id|id| |]; simpl; try (by apply Ha).
    + intros [= <-]. by destruct (is_none _).
    + destruct active as [a|]; [|destruct id as [id|]; simpl; [by intros [= <-]|done]].
      intros [= <-]. by destruct (_ && _).
    + by intros [= <-].
Qed.

Lemma finalize_ok s st : segment_ok s → state_ok st → state_ok (finalize_active_segment s st).
Proof.
  intros Hs [H1 H2]. split; [|by rewrite finalize_active].
  unfold finalize_active_segment. destruct (0 <? _)%N; [done|]. intros Hb. simpl in *.
  rewrite existsb_app. destruct (base_replacement_history st) as [b|].
  - destruct H1 as [-> Hw]; [done|]. split; [done|]. intros Hn. by destruct (window st); [|destruct Hw].
  - destruct (Hs Hb) as [-> Hw]. split; [apply orb_true_r|]. intros Hn.
    destruct (window st); [done|]. by apply Hw.
Qed.

Lemma scan_item_ok newer st i : item_numbered i → state_ok st → state_ok (scan_item newer st i).
Proof.
  intros Hi Hok. pose proof Hok as [H1 H2].
  assert (∀ st', active_segment st' = segment_step (active_segment st) i →
            base_replacement_history st' = base_replacement_history st →
            world_state_replay st' = world_state_replay st → window st' = window st → state_ok st') as Hgen.
  { intros st' E1 E2 E3 E4. split; [by rewrite E2, E3, E4|]. intros s. rewrite E1. by apply segment_step_ok. }
  destruct i as [| | | |c| | | |e|]; try (by apply Hgen).
  - apply Hgen; simpl; by destruct (is_checkpoint (active_segment st) c).
  - destruct e as [n|id|id|id| |]; try (by apply Hgen).
    simpl. destruct (active_segment st) as [s|]; [|done].
    destruct (turn_ids_are_compatible _ _); [|done]. apply finalize_ok; [by apply H2|]. by split.
Qed.

Lemma replay_compacted l a b :
  existsb is_compacted l = true → foldl replay_step a l = foldl replay_step b l.
Proof. revert a b. induction l as [|[|i] l IH]; intros a b; simpl; [done|done|]. apply IH. Qed.

Lemma replay_known world older :
  existsb is_compacted world = true → replay (reverse (world ++ older)) = replay (reverse world).
Proof.
  intros H. unfold replay. rewrite reverse_app, foldl_app. apply replay_compacted.
  rewrite existsb_exists in H |- *. destruct H as (x & Hx & Hc). exists x. split; [|done].
  by rewrite <- list_elem_of_In, elem_of_reverse, list_elem_of_In.
Qed.

(** The parts of the state that are read at the end. *)
Definition same_answers (a b : state) : Prop :=
  base_replacement_history a = base_replacement_history b
  ∧ previous_turn_settings a = previous_turn_settings b ∧ scan_reference a = scan_reference b
  ∧ replay (reverse (world_state_replay a)) = replay (reverse (world_state_replay b))
  ∧ (numbered = true → window a = window b).

(** Only older records of the world are added. *)
Definition extends (st st' : state) : Prop :=
  ∃ older, world_state_replay st' = world_state_replay st ++ older
  ∧ base_replacement_history st' = base_replacement_history st
  ∧ previous_turn_settings st' = previous_turn_settings st
  ∧ scan_reference st' = scan_reference st
  ∧ (numbered = true → window st' = window st).

Lemma extends_trans a b c : extends a b → extends b c → extends a c.
Proof.
  intros (o1 & W & B & S & R & Wi) (o2 & W2 & B2 & S2 & R2 & Wi2). exists (o1 ++ o2).
  rewrite W2, W, B2, B, S2, S, R2, R, (assoc_L (++)). split_and!; try done.
  intros Hn. by rewrite Wi2, Wi.
Qed.

Lemma extends_known st st' : extends st st' → all_known st = true → all_known st' = true.
Proof. intros (o & W & B & S & R & Wi). unfold all_known. by rewrite B, S, R. Qed.

Lemma extends_ok st st' :
  extends st st' → active_segment st' = None → state_ok st → state_ok st'.
Proof.
  intros (o & W & B & _ & _ & Wi) Ha [Hb _]. split; [|by rewrite Ha]. intros Hx. rewrite B in Hx.
  destruct (Hb Hx) as [H1 H2]. rewrite W, existsb_app, H1. split; [done|]. intros Hn.
  rewrite Wi by done. by apply H2.
Qed.

Lemma event_extends st e :
  all_known st = true → state_ok st → active_segment st = None →
  extends st (apply_event st e) ∧ active_segment (apply_event st e) = None.
Proof.
  intros Hk [Hb _] Ha. unfold all_known in Hk.
  destruct e as [s|n]; [|split; [exists []; by rewrite app_nil_r|done]].
  split; [|apply finalize_active]. simpl. unfold checkpoint_ok in Hb.
  destruct (base_replacement_history st) as [b|] eqn:Eb; [|done].
  destruct Hb as [_ Hw]; [done|]. destruct (previous_turn_settings st) as [x|] eqn:Es; [|done].
  destruct (never_set (scan_reference st)) eqn:Er; [done|].
  unfold finalize_active_segment, extends. destruct (0 <? _)%N; simpl.
  - exists []. by rewrite app_nil_r.
  - exists (seg_world s). rewrite Eb, Es, Er. split_and!; try done.
    intros Hn. specialize (Hw Hn). by destruct (window st).
Qed.

Lemma known_stable evs : ∀ st,
  all_known st = true → state_ok st → active_segment st = None →
  extends st (foldl apply_event st evs).
Proof.
  induction evs as [|e evs IH]; intros st Hk Hok Ha.
  { exists []. by rewrite app_nil_r. }
  destruct (event_extends st e Hk Hok Ha) as [He Ha']. cbn [foldl].
  eapply extends_trans; [exact He|].
  apply IH; [by eapply extends_known|by eapply extends_ok|done].
Qed.

Lemma extends_answers st st' : all_known st = true → state_ok st → extends st st' → same_answers st' st.
Proof.
  intros Hk [Hb _] (o & W & B & S & R & Wi). unfold same_answers. rewrite W, B, S, R. split_and!; try done.
  apply replay_known, Hb. unfold all_known in Hk. by destruct (base_replacement_history st).
Qed.

Lemma scan_stops_early older : ∀ newer st,
  Forall item_numbered older → state_ok st →
  same_answers (strip (finish_scan (scan older newer st))) (strip (finish_scan (scan_all older newer st))).
Proof.
  induction older as [|i older IH]; intros newer st HF Hok; [by split_and!|].
  apply Forall_cons in HF as [Hi HF]. cbn [RolloutReconstruction.scan scan_all].
  pose proof (scan_item_ok newer st i Hi Hok) as Hok'.
  destruct (all_known (scan_item newer st i)) eqn:Hk; [|by apply IH].
  set (st' := scan_item newer st i) in *.
  assert (state_ok (strip st')) as Hs by (destruct Hok'; by split).
  assert (∀ evs, same_answers (foldl apply_event (strip st') evs) (strip st')) as Hsame.
  { intros evs. apply extends_answers; [done|done|]. by apply known_stable. }
  rewrite strip_finish, scan_all_events.
  destruct (Hsame (option_list (Segment <$> active_segment st'))) as (A1 & A2 & A3 & A4 & A5).
  destruct (Hsame (events (active_segment st') older)) as (B1 & B2 & B3 & B4 & B5).
  unfold same_answers. rewrite A1, A2, A3, A4, B1, B2, B3, B4. split_and!; try done.
  intros Hn. by rewrite A5, B5.
Qed.
End early.
(** ** The scan and the surviving turns *)

Definition rollback_count (i : rollout_item) : N :=
  match i with REventMsg (ThreadRolledBack n) => n | _ => 0%N end.

(** All the turns that the rollout's rollbacks ask for. *)
Definition requested_rollbacks (items : list rollout_item) : N :=
  foldr (λ i n, rollback_count i + n)%N 0%N items.

Lemma requested_app a b : requested_rollbacks (a ++ b) = (requested_rollbacks a + requested_rollbacks b)%N.
Proof. unfold requested_rollbacks. induction a as [|i a IH]; simpl; [done|]. rewrite IH. lia. Qed.

Lemma requested_reverse l : requested_rollbacks (reverse l) = requested_rollbacks l.
Proof.
  induction l as [|i l IH]; [done|]. rewrite reverse_cons, requested_app, IH.
  unfold requested_rollbacks. simpl. lia.
Qed.

Lemma rolled_back_app a b : rolled_back_turns (a ++ b) = (rolled_back_turns a + rolled_back_turns b)%N.
Proof. unfold rolled_back_turns. induction a as [|[s|n] a IH]; simpl; [done|done|]. rewrite IH. lia. Qed.

Lemma rolled_back_events older : ∀ active,
  rolled_back_turns (events active older) = requested_rollbacks older.
Proof.
  induction older as [|i older IH]; intros active; [by destruct active|].
  cbn [events]. rewrite rolled_back_app, IH. unfold requested_rollbacks. simpl.
  assert (rolled_back_turns (event_step active i).2 = rollback_count i) as ->; [|done].
  destruct i as [| | | | | | | |e|]; try done. destruct e; try done; simpl; [unfold rolled_back_turns; simpl; lia|].
  destruct active as [s|]; [|done]. by destruct (turn_ids_are_compatible _ _).
Qed.

Definition windows_numbered (items : list rollout_item) : bool :=
  negb (has_legacy_compaction_without_window_number items).

Lemma windows_numbered_all items :
  Forall (item_numbered (windows_numbered items)) (reverse items).
Proof.
  apply Forall_forall. intros i Hi. rewrite elem_of_reverse in Hi. destruct i as [| | | |c| | | | |]; try done.
  simpl. unfold windows_numbered. intros Hn%negb_true_iff Hc.
  assert (has_legacy_compaction_without_window_number items = true) as E; [|congruence].
  apply existsb_exists. exists (RCompacted c). rewrite <- list_elem_of_In, Hc. done.
Qed.

Lemma survivors_found items :
  (requested_rollbacks items ≤ usize_max)%N →
  let st := finish_scan (scan_all (reverse items) [] (initial_scan items)) in
  let segments := surviving_segments items in
  base_replacement_history st = newest seg_base segments
  ∧ previous_turn_settings st = newest baseline_settings segments
  ∧ scan_reference st = default NeverSet (newest baseline_reference segments)
  ∧ world_state_replay st = concat (seg_world <$> segments)
  ∧ window st = newest seg_window segments.
Proof.
  intros Hr. cbv zeta. set (start := strip (initial_scan items) : state).
  pose proof (scan_all_events (reverse items) [] (initial_scan items)) as E. fold start in E.
  pose proof (events_survive (events None (reverse items)) start eq_refl) as S.
  rewrite rolled_back_events, requested_reverse in S. specialize (S Hr).
  cbn [active_segment initial_scan] in E. rewrite <- E in S.
  change (pending_rollback_turns start) with 0%N in S. rewrite pop_zero in S.
  destruct (finalized (surviving_segments items) (with_pending 0 start) eq_refl) as (H1 & H2 & H3 & H4 & H5).
  unfold surviving_segments in *. rewrite <- S in H1, H2, H3, H4, H5. done.
Qed.

(** C10: rebuilding skips exactly what was rolled back.  However the rollout
    mixes turns, compactions and rollbacks, and although the scan goes backwards,
    counts turns to skip and stops early, it finds what the turns that survive
    the rollbacks say: the newest checkpoint, the newest settings and reference
    of a turn that has a baseline (or a compaction that cleared it), the baseline
    of the world state that their records replay to and, if every compaction is
    numbered, the newest window. *)
Theorem scan_finds_survivors items :
  (requested_rollbacks items ≤ usize_max)%N →
  let st := scan_rollout items in
  let segments := surviving_segments items in
  base_replacement_history st = newest seg_base segments
  ∧ previous_turn_settings st = newest baseline_settings segments
  ∧ scan_reference st = default NeverSet (newest baseline_reference segments)
  ∧ replay (reverse (world_state_replay st)) = replay (reverse (concat (seg_world <$> segments)))
  ∧ (has_legacy_compaction_without_window_number items = false → window st = newest seg_window segments).
Proof.
  intros Hr. cbv zeta.
  destruct (survivors_found items Hr) as (H1 & H2 & H3 & H4 & H5).
  pose proof (scan_stops_early (windows_numbered items) (reverse items) [] (initial_scan items)
                (windows_numbered_all items)) as (A1 & A2 & A3 & A4 & A5); [by split|].
  unfold RolloutReconstruction.scan_rollout. cbn -[RolloutReconstruction.scan scan_all finish_scan reverse initial_scan replay] in A1, A2, A3, A4, A5.
  rewrite A1, A2, A3, A4, H1, H2, H3, H4. split_and!; try done.
  intros Hl. rewrite A5, H5; [done|]. unfold windows_numbered. by rewrite Hl.
Qed.
End facts.
