(* ===== verification/RolloutHistory.v ===== *)
(** * The history of a rebuilt session

    Rebuilding replays only the items after a checkpoint.  That gives the history
    that replaying the whole rollout gives, as long as some checkpoint survives
    the rollbacks. *)

From S2P Require Import Prelude RustStr Utf8 Truncation ResponseItems History ContextFragments TokenEstimates HistoryManager HistoryTurns HistoryRevisions WorldState Compaction RolloutReconstruction RolloutFacts.

Section history.
Context {J : JsonTypes} {TurnRest Uuid : Type}.
Context (parse_str : str → option Uuid) (get_version_num : Uuid → N).
Context (from_xml : str → option HookPromptFragment) (is_inter_agent : str → bool)
  (estimate_audio_token_count : str → N) (truncation_policy : TruncationPolicy).

Abbreviation rollout_item := (@RolloutItem J TurnRest).
Abbreviation envelope := ResponseItemEnvelope.
Abbreviation manager := (@ContextManager J TokenUsageInfo (@TurnContextItem TurnRest) WorldStateSnapshot).
Abbreviation segment := (@ActiveReplaySegment J TurnRest Uuid).
Abbreviation state := (@scan_state J TurnRest Uuid).
Abbreviation segment_step := (segment_step parse_str get_version_num from_xml is_inter_agent).
Abbreviation scan_item := (scan_item parse_str get_version_num from_xml is_inter_agent).
Abbreviation scan := (scan parse_str get_version_num from_xml is_inter_agent).
Abbreviation scan_rollout := (scan_rollout parse_str get_version_num from_xml is_inter_agent).
Abbreviation replay_rollout_item :=
  (replay_rollout_item from_xml is_inter_agent estimate_audio_token_count truncation_policy).
Abbreviation replay_items :=
  (replay_items from_xml is_inter_agent estimate_audio_token_count truncation_policy).
Abbreviation reconstruct :=
  (reconstruct_history_from_rollout parse_str get_version_num from_xml is_inter_agent
     estimate_audio_token_count truncation_policy).

(** ** Replaying acts on the items *)

(** An item that replaces the history. *)
Definition replaces (i : rollout_item) : bool :=
  match i with RCompacted c => negb (is_none (replacement_history c)) | _ => false end.

(** Compactions carry a checkpoint, and strings fit the address space. *)
Definition replayable (i : rollout_item) : Prop :=
  match i with
  | RCompacted c => replacement_history c ≠ None
  | RResponseItem e => item_fits (item e)
  | _ => True
  end.


Lemma record_acts entries :
  Forall (λ e, item_fits e.1) entries →
  ∃ f, ∀ h : manager, ∃ h',
    record_items_with_metadata estimate_audio_token_count truncation_policy entries h = Some h'
    ∧ cm_items h' = f (cm_items h).
Proof.
  induction 1 as [|[i meta] entries Hi _ [f IH]].
  { exists (λ l, l). intros h. by exists h. }
  cbn [record_items_with_metadata]. unfold record_item. destruct (is_api_message i); cbn [negb].
  - destruct (truncate_item_total estimate_audio_token_count
                (recording_policy meta truncation_policy) i Hi) as [p ->].
    exists (λ l, f (l ++ [{| item := p; metadata := meta |}])). intros h. simpl.
    destruct (is_user_authorization_message i);
      match goal with |- context [record_items_with_metadata _ _ _ ?x] => 
        destruct (IH x) as (h' & -> & Hh) end;
      exists h'; by rewrite Hh.
  - exists f. intros h. simpl. apply IH.
Qed.

Lemma drop_acts n : ∃ f, ∀ h : manager, ∃ h',
  drop_last_n_user_turns from_xml is_inter_agent n h = Some h' ∧ cm_items h' = f (cm_items h).
Proof.
  destruct (decide (n = 0%N)) as [->|Hn].
  - exists (λ l, l). intros h. by exists h.
  - exists (rollback_items from_xml is_inter_agent (N.to_nat n)). intros h.
    rewrite drop_last_rolls_back by done. by eexists.
Qed.

Lemma item_acts i :
  replayable i →
  ∃ f, (replaces i = true → ∀ x y, f x = f y) ∧
  ∀ (h : manager) b, ∃ h' b', replay_rollout_item (h, b) i = Some (h', b') ∧ cm_items h' = f (cm_items h).
Proof.
  intros Hi. destruct i as [|e|c| |c|c|w| |e|];
    try (exists (λ l, l); split; [done|]; intros h b; by exists h, b).
  - destruct (record_acts [(item e, metadata e)]) as [f Hf]; [by repeat constructor|].
    exists f. split; [done|]. intros h b. destruct (Hf h) as (h' & E & ?). exists h', b.
    unfold RolloutReconstruction.replay_rollout_item, record_annotated_items. simpl fmap. by rewrite E.
  - destruct (record_acts [(to_model_input_item c, None)]) as [f Hf]; [by repeat constructor|].
    exists f. split; [done|]. intros h b. destruct (Hf h) as (h' & E & ?). exists h', b.
    unfold RolloutReconstruction.replay_rollout_item, record_items. simpl fmap. by rewrite E.
  - simpl in *. destruct (replacement_history c) as [r|]; [|done]. exists (λ _, r). split; [done|].
    intros h b. by eexists _, _.
  - destruct e as [n|id|id|id| |]; try (exists (λ l, l); split; [done|]; intros h b; by exists h, b).
    destruct (drop_acts n) as [f Hf]. exists f. split; [done|]. intros h b.
    destruct (Hf h) as (h' & E & ?). exists h', b. simpl. by rewrite E.
Qed.

Lemma items_act items :
  Forall replayable items →
  ∃ f, (existsb replaces items = true → ∀ x y, f x = f y) ∧
  ∀ (h : manager) b, ∃ h' b', replay_items items (h, b) = Some (h', b') ∧ cm_items h' = f (cm_items h).
Proof.
  induction 1 as [|i items Hi _ (g & Hg & IH)].
  { exists (λ l, l). split; [done|]. intros h b. by exists h, b. }
  destruct (item_acts i Hi) as (f & Hf & Hstep). exists (λ l, g (f l)). split.
  - simpl. intros [H|H]%orb_prop x y; [by rewrite (Hf H x y)|by apply Hg].
  - intros h b. destruct (Hstep h b) as (h1 & b1 & E1 & H1). destruct (IH h1 b1) as (h2 & b2 & E2 & H2).
    exists h2, b2. cbn [RolloutReconstruction.replay_items]. rewrite E1. simpl. by rewrite E2, H2, H1.
Qed.
(** ** Where the suffix begins *)

Definition active_base (st : state) : option (list envelope) := active_segment st ≫= seg_base.

(** Either no checkpoint was met, or the suffix follows one, and the base is that
    checkpoint unless a newer one is in the suffix. *)
Definition suffix_ok (items newer : list rollout_item) (st : state) : Prop :=
  (rollout_suffix st = items ∧ base_replacement_history st = None ∧ active_base st = None)
  ∨ ∃ before c r mid,
      items = before ++ RCompacted c :: rollout_suffix st
      ∧ newer = mid ++ RCompacted c :: rollout_suffix st
      ∧ replacement_history c = Some r
      ∧ ∀ b, base_replacement_history st = Some b ∨ active_base st = Some b →
             b = r ∨ existsb replaces (rollout_suffix st) = true.

Lemma segment_base (active : option segment) (i : rollout_item) :
  (∀ c, i ≠ RCompacted c) → segment_step active i ≫= seg_base = active ≫= seg_base.
Proof.
  intros Hc. assert (seg_base (default default_segment active : segment) = active ≫= seg_base) as Hd
    by by destruct active.
  destruct i as [| |c0| |c|c|w| |e|]; simpl; try done; [by edestruct Hc| |].
  - unfold on_turn_context. destruct (is_none _); simpl; by destruct (turn_ids_are_compatible _ _).
  - destruct e as [n|id|id|id| |]; simpl; try done; [by destruct (is_none _)|].
    destruct active as [s|]; simpl; [by destruct (_ && _)|]. by destruct id.
Qed.

Lemma suffix_ok_same items newer i (st st' : state) :
  rollout_suffix st' = rollout_suffix st →
  base_replacement_history st' = base_replacement_history st → active_base st' = active_base st →
  suffix_ok items newer st → suffix_ok items (i :: newer) st'.
Proof.
  intros E1 E2 E3 [(H1 & H2 & H3)|(before & c & r & mid & H1 & H2 & H3 & H4)].
  - left. by rewrite E1, E2, E3.
  - right. exists before, c, r, (i :: mid). rewrite E1, E2, E3, H2. done.
Qed.

Lemma suffix_ok_finalize items newer (s : segment) st :
  active_segment st = Some s → suffix_ok items newer st →
  suffix_ok items newer (finalize_active_segment s (with_active None st)).
Proof.
  intros Ha H. assert (active_base st = seg_base s) as Hb by (unfold active_base; by rewrite Ha).
  destruct H as [(H1 & H2 & H3)|(before & c & r & mid & H1 & H2 & H3 & H4)].
  - left. rewrite Hb in H3. unfold finalize_active_segment. simpl.
    destruct (0 <? _)%N; [done|]. simpl. by rewrite H2, H3.
  - right. exists before, c, r, mid. unfold finalize_active_segment. simpl.
    destruct (0 <? _)%N; simpl; split_and!; try done; intros b [E|E]; try done; [by apply H4; left|].
    destruct (base_replacement_history st); simpl in E; apply H4; [by left|right; by rewrite Hb].
Qed.

Lemma suffix_ok_checkpoint items older newer st c :
  items = reverse (RCompacted c :: older) ++ newer → suffix_ok items newer st →
  suffix_ok items (RCompacted c :: newer) (scan_item newer st (RCompacted c)).
Proof.
  intros Hi H. cbn [RolloutReconstruction.scan_item]. unfold is_checkpoint.
  fold (active_base st). destruct (active_base st) as [b0|] eqn:Eb; simpl.
  { apply (suffix_ok_same _ _ _ st); [done|done| |done].
    unfold active_base in *. simpl. destruct (active_segment st); simpl in *; [|done]. by rewrite Eb. }
  destruct (replacement_history c) as [r|] eqn:Er; simpl.
  - right. rewrite reverse_cons, <- (assoc_L (++)) in Hi. simpl in Hi.
    exists (reverse older), c, r, []. split_and!; [done|done|done|]. simpl. intros b [E|E].
    + destruct H as [(_ & H2 & _)|(before & c' & r' & mid & _ & H2 & H3 & _)]; [congruence|].
      right. rewrite H2, existsb_app. simpl. rewrite H3. simpl. by rewrite orb_true_r.
    + left. unfold active_base in *. simpl in E. rewrite Er in E.
      destruct (active_segment st); simpl in *; [rewrite Eb in E; simpl in E|]; congruence.
  - apply (suffix_ok_same _ _ _ st); [done|done| |done].
    unfold active_base in *. simpl. rewrite Er.
    by destruct (active_segment st); simpl in *; [rewrite Eb|].
Qed.

Lemma suffix_ok_item items older newer st i :
  items = reverse (i :: older) ++ newer → suffix_ok items newer st →
  suffix_ok items (i :: newer) (scan_item newer st i).
Proof.
  intros Hi H.
  assert (∀ st', (∀ c, i ≠ RCompacted c) → st' = with_active (segment_step (active_segment st) i) st →
            suffix_ok items (i :: newer) st') as Hgen.
  { intros st' Hc ->. apply (suffix_ok_same _ _ _ st); [done|done| |done].
    unfold active_base. simpl. by apply segment_base. }
  destruct i as [| | | |c| | | |e|]; try (by apply Hgen); [by eapply suffix_ok_checkpoint|].
  destruct e as [n|id|id|id| |]; try (by apply Hgen); simpl.
  - by apply (suffix_ok_same _ _ _ st).
  - destruct (active_segment st) as [s|] eqn:Ha; [|by apply (suffix_ok_same _ _ _ st)].
    destruct (turn_ids_are_compatible _ _); [|by apply (suffix_ok_same _ _ _ st)].
    apply suffix_ok_finalize; [done|]. by apply (suffix_ok_same _ _ _ st).
Qed.

Lemma scan_suffix_ok items older : ∀ newer st,
  items = reverse older ++ newer → suffix_ok items newer st →
  ∃ newer', suffix_ok items newer' (scan older newer st).
Proof.
  induction older as [|i older IH]; intros newer st Hi H; [by exists newer|].
  pose proof (suffix_ok_item items older newer st i Hi H) as H'. cbn [RolloutReconstruction.scan].
  destruct (all_known _); [by eexists|]. apply IH; [|done].
  by rewrite reverse_cons, <- (assoc_L (++)) in Hi.
Qed.

Lemma scan_rollout_suffix items : ∃ newer, suffix_ok items newer (scan_rollout items).
Proof.
  unfold RolloutReconstruction.scan_rollout.
  destruct (scan_suffix_ok items (reverse items) [] (initial_scan items)) as [newer H].
  { by rewrite reverse_involutive, app_nil_r. }
  { by left. }
  unfold finish_scan. destruct (active_segment _) as [s|] eqn:E; [|by exists newer].
  exists newer. by apply suffix_ok_finalize.
Qed.

Lemma replay_items_app (a b : list rollout_item) (st : manager * bool) :
  replay_items (a ++ b) st = st' ← replay_items a st; replay_items b st'.
Proof.
  revert st. induction a as [|i a IH]; intros st; [done|]. simpl.
  destruct (replay_rollout_item st i); [apply IH|done].
Qed.

(** C11: rebuilding restores the history.  If every compaction of the rollout has
    a checkpoint, and a checkpoint survives the rollbacks (or there is none), the
    rebuilt history, made from the checkpoint and the items after it, is what
    replaying every item from the beginning gives. *)
Theorem rebuilt_history items :
  Forall replayable items →
  base_replacement_history (scan_rollout items) ≠ None ∨ existsb replaces items = false →
  ∃ r h legacy,
    reconstruct items = Some r
    ∧ replay_items items (new_manager, false) = Some (h, legacy)
    ∧ rr_history r = cm_items h.
Proof.
  intros HF Hbase. unfold reconstruct_history_from_rollout.
  destruct (scan_rollout_suffix items) as [newer [(H1 & H2 & _)|(before & c & r & mid & H1 & _ & H3 & H4)]].
  - rewrite H1, H2. destruct (items_act items HF) as (f & _ & Hf).
    destruct (Hf new_manager false) as (h & b & E & _). rewrite E. by eexists _, h, b.
  - set (suffix := rollout_suffix (scan_rollout items)) in *.
    destruct (base_replacement_history (scan_rollout items)) as [base|] eqn:Eb.
    2:{ exfalso. destruct Hbase as [?|Hn]; [done|]. rewrite H1, existsb_app in Hn. simpl in Hn.
        rewrite H3 in Hn. simpl in Hn. by rewrite orb_true_r in Hn. }
    specialize (H4 base (or_introl eq_refl)).
    assert (Forall replayable before ∧ Forall replayable suffix) as [HFb HFs].
    { rewrite H1 in HF. apply Forall_app in HF as [? [_ ?]%Forall_cons]. done. }
    destruct (items_act before HFb) as (fb & _ & Hb). destruct (items_act suffix HFs) as (f & Hc & Hf).
    destruct (Hb new_manager false) as (h0 & b0 & E0 & _).
    destruct (Hf (replace_annotated base new_manager) false) as (h1 & b1 & E1 & Hh1).
    destruct (Hf (replace_annotated r h0) b0) as (h2 & b2 & E2 & Hh2).
    rewrite E1. eexists _, h2, b2. split; [done|]. split.
    + rewrite H1, replay_items_app, E0. cbn [mbind option_bind RolloutReconstruction.replay_items].
      simpl. rewrite H3. exact E2.
    + simpl. rewrite Hh1, Hh2. destruct H4 as [->|H4]; [done|by apply Hc].
Qed.
End history.
