(* ===== verification/RolloutTruncation.v ===== *)
(** * Cutting a rollout for a fork

    [codex-rs/core/src/thread_rollout_truncation.rs]: where the turns of the user
    and the turns a fork can start at begin in a rollout, with its rollbacks
    applied, and the prefix or suffix that a fork takes.  The JSON reader of
    messages between agents is a parameter: it gives the [trigger_turn] of a
    text.  The cuts at a turn's identifier are not modelled: they use the app
    server's projection of a rollout to turns. *)

From S2P Require Import Prelude RustStr Utf8 Truncation ResponseItems History ContextFragments HistoryManager WorldState Compaction RolloutReconstruction.

Section truncation.
Context {J : JsonTypes} {TurnRest : Type}.
Context (from_xml : str → option HookPromptFragment) (inter_agent_trigger : str → option bool).

Abbreviation rollout_item := (@RolloutItem J TurnRest).

Definition is_inter_agent (text : str) : bool := negb (is_none (inter_agent_trigger text)).
Abbreviation is_user_turn_boundary := (is_user_turn_boundary from_xml is_inter_agent).

Definition rollout_item_is_user_turn_boundary (i : rollout_item) : bool :=
  match i with
  | RResponseItem e => is_user_turn_boundary (item e)
  | RInterAgentCommunication _ => true
  | _ => false
  end.

Definition is_real_user_message_boundary (i : ResponseItem) : bool :=
  negb (is_none (user_message_text from_xml i)).

Definition is_message (i : ResponseItem) : bool :=
  match i with Message _ _ _ _ _ => true | _ => false end.
Definition is_agent_message (i : ResponseItem) : bool :=
  match i with AgentMessage _ _ _ _ _ => true | _ => false end.

(** [InterAgentCommunication::from_message_content] and its flag. *)
Definition message_trigger (content : list ContentItem) : option bool :=
  match content with
  | [CInputText text] | [COutputText text] => inter_agent_trigger text
  | _ => None
  end.

Definition is_trigger_turn_boundary (i : ResponseItem) : bool :=
  match i with
  | Message _ role content _ _ =>
      bool_decide (role = lit "assistant") && default false (message_trigger content)
  | _ => false
  end.

(** The loop of [user_message_positions_in_rollout]. *)
Fixpoint user_positions_loop (idx : nat) (items : list rollout_item) (user_positions : list nat) : list nat :=
  match items with
  | [] => user_positions
  | i :: items =>
      user_positions_loop (S idx) items
        match i with
        | RResponseItem e =>
            if is_message (item e) && is_real_user_message_boundary (item e)
            then user_positions ++ [idx] else user_positions
        | REventMsg (ThreadRolledBack n) =>
            take (length user_positions - N.to_nat n) user_positions
        | _ => user_positions
        end
  end.

Definition user_message_positions_in_rollout (items : list rollout_item) : list nat :=
  user_positions_loop 0 items [].

(** The state of [fork_turn_positions_in_rollout]: the positions of turns and of
    fork turns. *)
Definition fork_state := (list nat * list nat)%type.

Definition is_delivery_metadata (previous : option rollout_item) : bool :=
  match previous with Some (RInterAgentCommunicationMetadata _) => true | _ => false end.

(** Whether a turn, and whether a fork turn, begins at an item. *)
Definition begins_turn (previous : option rollout_item) (i : rollout_item) : bool :=
  match i with
  | RResponseItem e =>
      is_user_turn_boundary (item e) && negb (is_agent_message (item e) && is_delivery_metadata previous)
  | RInterAgentCommunication _ | RInterAgentCommunicationMetadata _ => true
  | _ => false
  end.

Definition begins_fork_turn (i : rollout_item) : bool :=
  match i with
  | RResponseItem e => is_real_user_message_boundary (item e) || is_trigger_turn_boundary (item e)
  | RInterAgentCommunication c => trigger_turn c
  | RInterAgentCommunicationMetadata trigger => trigger
  | _ => false
  end.

Definition push_if (b : bool) (idx : nat) (l : list nat) : list nat := if b then l ++ [idx] else l.

Definition roll_back (n : N) (st : fork_state) : fork_state :=
  let '(rollback_turn_positions, fork_turn_positions) := st in
  let num_turns := N.to_nat n in
  if num_turns =? 0 then st
  else
    let start :=
      if num_turns <=? length rollback_turn_positions
      then rollback_turn_positions !! (length rollback_turn_positions - num_turns)
      else head rollback_turn_positions in
    match start with
    | None => st
    | Some rollback_start_idx =>
        (take (length rollback_turn_positions - num_turns) rollback_turn_positions,
         List.filter (λ position, position <? rollback_start_idx) fork_turn_positions)
    end.

(** The loop body; [items] is the whole rollout. *)
Definition fork_item (items : list rollout_item) (st : fork_state) (idx : nat) (i : rollout_item) : fork_state :=
  match i with
  | REventMsg (ThreadRolledBack n) => roll_back n st
  | _ =>
      let previous := match idx with O => None | S previous_idx => items !! previous_idx end in
      (push_if (begins_turn previous i) idx st.1, push_if (begins_fork_turn i) idx st.2)
  end.

Fixpoint fork_loop (items : list rollout_item) (idx : nat) (rest : list rollout_item) (st : fork_state)
    : fork_state :=
  match rest with
  | [] => st
  | i :: rest => fork_loop items (S idx) rest (fork_item items st idx i)
  end.

Definition fork_turn_positions_in_rollout (items : list rollout_item) : list nat :=
  (fork_loop items 0 items ([], [])).2.

(** [usize::MAX] asks for the whole rollout. *)
Definition truncate_rollout_before_nth_user_message_from_start (items : list rollout_item)
    (n_from_start : N) : option (list rollout_item) :=
  if (n_from_start =? usize_max)%N then Some items
  else
    let user_positions := user_message_positions_in_rollout items in
    if (N.of_nat (length user_positions) <=? n_from_start)%N then Some items
    else cut_idx ← user_positions !! N.to_nat n_from_start; Some (take cut_idx items).

(** [split_off] panics out of range. *)
Definition truncate_rollout_to_last_n_fork_turns (items : list rollout_item) (n_from_end : nat)
    : option (list rollout_item) :=
  if n_from_end =? 0 then Some []
  else
    let fork_turn_positions := fork_turn_positions_in_rollout items in
    let keep :=
      if n_from_end <=? length fork_turn_positions
      then fork_turn_positions !! (length fork_turn_positions - n_from_end)
      else head fork_turn_positions in
    match keep with
    | None => Some []
    | Some keep_idx => if keep_idx <=? length items then Some (drop keep_idx items) else None
    end.

(** ** Fork turns are turns that survive *)

(** The positions of the turns that survive the rollbacks. *)
Definition surviving_turn_positions (items : list rollout_item) : list nat :=
  (fork_loop items 0 items ([], [])).1.

(** Whether the item at a position begins a fork turn. *)
Definition is_fork_at (items : list rollout_item) (p : nat) : bool :=
  match items !! p with Some i => begins_fork_turn i | None => false end.

Lemma real_user_is_boundary i : is_real_user_message_boundary i = true → is_user_turn_boundary i = true.
Proof.
  unfold is_real_user_message_boundary, user_message_text. destruct i as [|id role content phase m| | | | | | | | | | | | | | |];
    try done; simpl.
  - case_bool_decide as Hr; simpl; [|by case_bool_decide].
    destruct (parse_visible_hook_prompt_message _ _ _ _); [done|]. unfold parse_user_message.
    by destruct (is_contextual_user_message_content from_xml content).
  - destruct action as [a|]; done.
  - by destruct id.
Qed.

Lemma trigger_is_boundary i : is_trigger_turn_boundary i = true → is_user_turn_boundary i = true.
Proof.
  destruct i as [|id role content phase m| | | | | | | | | | | | | | |]; try done. simpl.
  intros [Hr Ht]%andb_prop. rewrite Hr. simpl. apply orb_true_intro. right.
  destruct content as [|[t|? ?|?|t] [|? ?]]; try done; simpl in *; unfold is_inter_agent;
    by destruct (inter_agent_trigger t).
Qed.

Lemma fork_turn_is_turn previous i : begins_fork_turn i = true → begins_turn previous i = true.
Proof.
  destruct i as [|e|c|t| | | | | |]; try done. simpl. intros [H|H]%orb_prop.
  - rewrite real_user_is_boundary by done. unfold is_real_user_message_boundary, user_message_text in H.
    by destruct (item e).
  - rewrite trigger_is_boundary by done. by destruct (item e).
Qed.
(** Positions in increasing order, below a bound. *)
Fixpoint increasing (bound : nat) (l : list nat) : Prop :=
  match l with
  | [] => True
  | p :: l => p < bound ∧ Forall (λ q, p < q) l ∧ increasing bound l
  end.

Lemma increasing_snoc bound l :
  increasing bound l → increasing (S bound) (l ++ [bound]).
Proof.
  induction l as [|p l IH]; simpl; [by repeat constructor; lia|]. intros (H1 & H2 & H3).
  split_and!; [lia| |auto]. apply Forall_app. split; [done|]. by constructor.
Qed.

Lemma increasing_weaken bound l : increasing bound l → increasing (S bound) l.
Proof. induction l as [|p l IH]; simpl; [done|]. intros (? & ? & ?). split_and!; [lia|done|auto]. Qed.

Lemma increasing_take bound n l : increasing bound l → increasing bound (take n l).
Proof.
  revert n. induction l as [|p l IH]; intros [|n]; simpl; try done. intros (? & ? & ?).
  split_and!; [done|by apply Forall_take|auto].
Qed.

Lemma increasing_filter bound f l : increasing bound l → increasing bound (List.filter f l).
Proof.
  induction l as [|p l IH]; simpl; [done|]. intros (H1 & H2 & H3).
  destruct (f p); [|auto]. split_and!; [done| |auto].
  rewrite Forall_forall in H2 |- *. intros q Hq. apply H2.
  by apply list_elem_of_In in Hq; apply List.filter_In in Hq as [?%list_elem_of_In _].
Qed.

Lemma increasing_lt bound l p : increasing bound l → p ∈ l → p < bound.
Proof.
  induction l as [|q l IH]; simpl; [by intros _ ?%elem_of_nil|].
  intros (H1 & _ & H3) [->|Hp]%elem_of_cons; auto.
Qed.

(** What comes before the [k]-th position is what is smaller than it. *)
Lemma increasing_before bound f l k start :
  increasing bound l → l !! k = Some start →
  List.filter (λ p, p <? start) (List.filter f l) = List.filter f (take k l).
Proof.
  revert k. induction l as [|p l IH]; intros k; [done|]. simpl. intros (H1 & H2 & H3).
  destruct k as [|k]; simpl.
  - intros [= <-]. assert (Forall (λ q, p ≤ q) l) as Hle.
    { eapply Forall_impl; [exact H2|]. simpl. lia. }
    assert (∀ l, Forall (λ q, p ≤ q) l → List.filter (λ q, q <? p) (List.filter f l) = []) as Hnil.
    { clear. induction 1 as [|q l Hq _ IH]; simpl; [done|]. destruct (f q); simpl; [|done].
      by rewrite (proj2 (Nat.ltb_ge _ _)). }
    destruct (f p); simpl; [rewrite Nat.ltb_irrefl|]; by apply Hnil.
  - intros Hk. pose proof Hk as Hin%list_elem_of_lookup_2. rewrite Forall_forall in H2.
    specialize (H2 _ Hin). specialize (IH k H3 Hk).
    destruct (f p); simpl; [rewrite (proj2 (Nat.ltb_lt _ _)) by lia; by rewrite IH|done].
Qed.

(** The loop's state: sorted positions, and the fork turns are those of the turns
    that the state still has. *)
Definition positions_ok (items : list rollout_item) (idx : nat) (st : fork_state) : Prop :=
  increasing idx st.1 ∧ st.2 = List.filter (is_fork_at items) st.1.

Lemma roll_back_ok items idx n st :
  positions_ok items idx st → positions_ok items (S idx) (roll_back n st).
Proof.
  destruct st as [turns forks]. intros [H1 H2]. simpl in *. unfold roll_back.
  assert (positions_ok items (S idx) (turns, forks)) as Hsame.
  { split; [by apply increasing_weaken|done]. }
  destruct (Nat.eqb_spec (N.to_nat n) 0) as [Hn|Hn]; [done|].
  set (k := length turns - N.to_nat n).
  assert (∀ start, (if N.to_nat n <=? length turns then turns !! k else head turns) = Some start →
            turns !! k = Some start) as Hk.
  { intros start. destruct (Nat.leb_spec (N.to_nat n) (length turns)) as [Hle|Hgt]; [done|].
    unfold k. replace (length turns - N.to_nat n) with 0 by lia. by destruct turns. }
  destruct (if _ <=? _ then _ else _) as [start|]; [|done]. specialize (Hk start eq_refl).
  split; simpl; [by apply increasing_weaken, increasing_take|].
  rewrite H2. by eapply increasing_before.
Qed.

Lemma fork_item_ok items idx i st :
  items !! idx = Some i → positions_ok items idx st → positions_ok items (S idx) (fork_item items st idx i).
Proof.
  intros Hi Hok.
  assert (∀ previous, positions_ok items (S idx)
            (push_if (begins_turn previous i) idx st.1, push_if (begins_fork_turn i) idx st.2)) as Hpush.
  { intros previous. destruct Hok as [H1 H2]. unfold push_if. split; simpl.
    - destruct (begins_turn previous i); [by apply increasing_snoc|by apply increasing_weaken].
    - pose proof (fork_turn_is_turn previous i) as Hf. rewrite H2.
      destruct (begins_fork_turn i) eqn:Ef; [rewrite Hf by done|destruct (begins_turn previous i); [|done]];
        rewrite List.filter_app; simpl; unfold is_fork_at at 3; by rewrite Hi, Ef, ?app_nil_r. }
  unfold fork_item. destruct i as [| | | | | | | |e|]; try apply Hpush.
  destruct e; try apply Hpush. by apply roll_back_ok.
Qed.
Lemma fork_loop_ok items rest : ∀ idx before st,
  items = before ++ rest → length before = idx → positions_ok items idx st →
  positions_ok items (length items) (fork_loop items idx rest st).
Proof.
  induction rest as [|i rest IH]; intros idx before st Hi Hl Hok.
  - rewrite app_nil_r in Hi. subst. done.
  - cbn [fork_loop]. apply (IH (S idx) (before ++ [i])).
    + by rewrite <- (assoc_L (++)).
    + rewrite length_app. simpl. lia.
    + apply fork_item_ok; [|done]. rewrite Hi, <- Hl. by apply list_lookup_middle.
Qed.

Lemma positions_survive items :
  positions_ok items (length items) (fork_loop items 0 items ([], [])).
Proof. by apply (fork_loop_ok items items 0 []). Qed.

Lemma increasing_drop bound k start l :
  increasing bound l → l !! k = Some start →
  List.filter (λ p, start <=? p) l = drop k l.
Proof.
  revert k. induction l as [|p l IH]; intros k; [done|]. simpl. intros (H1 & H2 & H3).
  destruct k as [|k]; simpl.
  - intros [= <-]. rewrite Nat.leb_refl. f_equal. clear -H2.
    induction H2 as [|q l Hq _ IH]; simpl; [done|]. rewrite (proj2 (Nat.leb_le _ _)) by lia. by rewrite IH.
  - intros Hk. pose proof Hk as Hin%list_elem_of_lookup_2. rewrite Forall_forall in H2.
    specialize (H2 _ Hin). rewrite (proj2 (Nat.leb_gt _ _)) by lia. by apply IH.
Qed.

(** A fork starts at a turn that is still there.  The positions of the fork
    turns are those of the turns that survive the rollbacks, in the order of the
    rollout, at which a message of the user or a triggering message of an agent
    begins; taking the last [n] of them never panics and keeps the rollout from
    one of them on, with exactly [n] fork turns, or with all when there are
    fewer, and nothing when there is none. *)
Theorem fork_turns_survive items n :
  let turns := surviving_turn_positions items in
  let forks := fork_turn_positions_in_rollout items in
  increasing (length items) turns
  ∧ forks = List.filter (is_fork_at items) turns
  ∧ (n = 0 ∨ forks = [] → truncate_rollout_to_last_n_fork_turns items n = Some [])
  ∧ (n ≠ 0 → forks ≠ [] → ∃ p,
       p ∈ forks ∧ truncate_rollout_to_last_n_fork_turns items n = Some (drop p items)
       ∧ length (List.filter (λ q, p <=? q) forks) = n `min` length forks).
Proof.
  cbv zeta. destruct (positions_survive items) as [H1 H2].
  fold (surviving_turn_positions items) (fork_turn_positions_in_rollout items) in H1, H2.
  assert (increasing (length items) (fork_turn_positions_in_rollout items)) as Hinc.
  { rewrite H2. by apply increasing_filter. }
  split_and!; [done|done| |].
  - unfold truncate_rollout_to_last_n_fork_turns. intros [-> | ->]; [done|].
    destruct (n =? 0); [done|]. by destruct (n <=? _).
  - intros Hn Hf. unfold truncate_rollout_to_last_n_fork_turns. rewrite (proj2 (Nat.eqb_neq n 0)) by done.
    set (forks := fork_turn_positions_in_rollout items) in *. set (k := length forks - n).
    assert (0 < length forks) as Hlen by (destruct forks; simpl; [done|lia]).
    assert ((if n <=? length forks then forks !! k else head forks) = forks !! k) as ->.
    { destruct (Nat.leb_spec n (length forks)) as [Hle|Hgt]; [done|].
      unfold k. replace (length forks - n) with 0 by lia. by destruct forks. }
    destruct (lookup_lt_is_Some_2 forks k) as [p Hp]; [unfold k; lia|]. rewrite Hp.
    exists p. pose proof (list_elem_of_lookup_2 _ _ _ Hp) as Hin.
    pose proof (increasing_lt _ _ _ Hinc Hin). rewrite (proj2 (Nat.leb_le _ _)) by lia.
    split_and!; [done|done|]. rewrite (increasing_drop _ _ _ _ Hinc Hp), length_drop. unfold k. lia.
Qed.

(** ** Cutting before a message of the user *)

Lemma user_positions_increasing rest : ∀ idx l,
  increasing idx l → increasing (idx + length rest) (user_positions_loop idx rest l).
Proof.
  induction rest as [|i rest IH]; intros idx l Hl; simpl; [by rewrite Nat.add_0_r|].
  rewrite <- Nat.add_succ_comm. apply IH.
  destruct i as [|e| | | | | | |v|]; try (by apply increasing_weaken);
    [|destruct v as [n| | | | |]; try (by apply increasing_weaken)].
  - destruct (_ && _); [by apply increasing_snoc|by apply increasing_weaken].
  - by apply increasing_weaken, increasing_take.
Qed.

Lemma cut_before_total items n :
  is_Some (truncate_rollout_before_nth_user_message_from_start items n).
Proof.
  unfold truncate_rollout_before_nth_user_message_from_start.
  destruct (_ =? _)%N; [done|]. destruct (N.leb_spec (N.of_nat (length (user_message_positions_in_rollout items))) n);
    [done|].
  destruct (lookup_lt_is_Some_2 (user_message_positions_in_rollout items) (N.to_nat n)) as [p ->]; [lia|done].
Qed.
End truncation.
