(* ===== verification/RolloutWitnesses.v ===== *)
(** * A session that is compacted, rolled back and rebuilt

    The theorems on compaction, rebuilding and forking at concrete rollouts, and
    a rollout whose history is lost. *)

From S2P Require Import Prelude RustStr Utf8 Truncation ResponseItems History ContextFragments TokenEstimates HistoryManager HistoryTurns HistoryRevisions WorldState Compaction RolloutReconstruction RolloutFacts RolloutHistory RolloutTruncation.

#[local] Instance small_json : JsonTypes := {| Value := unit; Number := unit |}.

(** No hook prompts, no messages between agents, identifiers that are numbers of
    bytes, all of version 7. *)
Definition no_hooks (_ : str) : option HookPromptFragment := None.
Definition no_agents (_ : str) : bool := false.
Definition no_triggers (_ : str) : option bool := None.
Definition short_uuid (s : str) : option nat := Some (length s).
Definition version_7 (_ : nat) : N := 7.
Definition no_audio (_ : str) : N := 0.

Definition said (role : String.string) (text : String.string) : ResponseItemEnvelope :=
  new_envelope (Message None (lit role) [CInputText (lit text)] None None).

Abbreviation rollout := (list (@RolloutItem small_json unit)).

Definition turn (turn_id : String.string) (body : rollout) : rollout :=
  [REventMsg (TurnStarted (lit turn_id)); REventMsg UserMessageEvent]
  ++ body ++ [REventMsg (TurnComplete (lit turn_id))].

Definition context (turn_id : String.string) : @RolloutItem small_json unit :=
  RTurnContext {| tc_turn_id := Some (lit turn_id); tc_model := lit "m"; tc_comp_hash := None;
                  tc_realtime_active := None; tc_rest := tt |}.

Definition compacted (replacement : list ResponseItemEnvelope) : @RolloutItem small_json unit :=
  RCompacted {| compacted_message := []; replacement_history := Some replacement;
                window_number := Some 1%N; first_window_id := None; previous_window_id := None;
                window_id := None |}.

Definition exchange (question answer : String.string) : rollout :=
  [RResponseItem (said "user" question); RResponseItem (said "assistant" answer)].

Definition checkpoint : list ResponseItemEnvelope := [said "user" "one"; said "user" "a summary"].

(** Two turns, a compaction in the second, a third turn that is rolled back. *)
Definition rebuilt : rollout :=
  turn "t1" (context "t1" :: exchange "one" "first")
  ++ turn "t2" (compacted checkpoint :: context "t2" :: exchange "two" "second")
  ++ turn "t3" (context "t3" :: exchange "three" "third")
  ++ [REventMsg (ThreadRolledBack 1)].

Abbreviation scanned := (scan_rollout short_uuid version_7 no_hooks no_agents).
Abbreviation rebuild :=
  (reconstruct_history_from_rollout short_uuid version_7 no_hooks no_agents no_audio (Tokens 100)).
Abbreviation replayed items :=
  (replay_items no_hooks no_agents no_audio (Tokens 100) items (new_manager, false)).

Lemma scan_finds_survivors_witness :
  base_replacement_history (scanned rebuilt)
  = newest seg_base (surviving_segments short_uuid version_7 no_hooks no_agents rebuilt).
Proof.
  assert (requested_rollbacks rebuilt ≤ usize_max)%N as H by by vm_compute.
  exact (proj1 (scan_finds_survivors short_uuid version_7 no_hooks no_agents rebuilt H)).
Defined.

Lemma rebuilt_replayable : Forall replayable rebuilt.
Proof. by repeat constructor. Defined.

Lemma rebuilt_history_witness : ∃ r h legacy,
  rebuild rebuilt = Some r ∧ replayed rebuilt = Some (h, legacy) ∧ rr_history r = cm_items h.
Proof.
  apply (rebuilt_history short_uuid version_7 no_hooks no_agents no_audio (Tokens 100) rebuilt
           rebuilt_replayable).
  left. by vm_compute.
Defined.

(** The third turn is gone and the settings are those of the second. *)
Example rebuilt_result :
  (λ r, (rr_history r, rr_reference_context_item r ≫= tc_turn_id)) <$> rebuild rebuilt
  = Some (checkpoint ++ [said "user" "two"; said "assistant" "second"], Some (lit "t2")).
Proof. by vm_compute. Qed.

(** The only checkpoint is in the turn that is rolled back: replaying everything
    keeps the compacted history, rebuilding from the scan gives nothing at all. *)
Definition lost : rollout :=
  turn "t1" (context "t1" :: exchange "one" "first")
  ++ turn "t2" (compacted checkpoint :: context "t2" :: exchange "two" "second")
  ++ [REventMsg (ThreadRolledBack 1)].

Example rolled_back_checkpoint_loses_history :
  (λ p, cm_items p.1) <$> replayed lost = Some checkpoint
  ∧ rr_history <$> rebuild lost = Some [].
Proof. by vm_compute. Qed.

(** ** Compaction *)

Definition user_says (text : str) : CompactedUserMessage :=
  {| message := text; message_passthrough := None; harness_metadata := None |}.
Definition three_messages : list CompactedUserMessage :=
  user_says <$> [lit "the first message"; lit "the second message"; lit "third"].

Lemma compaction_keeps_newest_witness : ∃ older kept cut,
  three_messages = older ++ kept ∧ stops kept (reverse older) cut 4
  ∧ build_compacted_history_with_limit [] three_messages (lit "s") 4
    = Some ([] ++ (entry <$> option_list cut ++ kept) ++ [summary_entry (lit "s")]).
Proof. apply (compaction_keeps_newest [] three_messages (lit "s") 4); [lia|]. by repeat constructor. Defined.

Lemma compaction_stable_witness : ∃ history,
  build_compacted_history [] three_messages (SUMMARY_PREFIX ++ 10%N :: lit "s") = Some history
  ∧ message <$> collect_annotated_user_messages no_hooks history = message <$> three_messages.
Proof.
  apply (compaction_stable no_hooks three_messages (lit "s")); [by repeat constructor| |by vm_compute].
  by repeat constructor.
Defined.

(** ** Forking *)

Lemma fork_turns_survive_witness :
  fork_turn_positions_in_rollout no_hooks no_triggers rebuilt ≠ []
  ∧ ∃ p, p ∈ fork_turn_positions_in_rollout no_hooks no_triggers rebuilt
    ∧ truncate_rollout_to_last_n_fork_turns no_hooks no_triggers rebuilt 1 = Some (drop p rebuilt)
    ∧ length (List.filter (λ q, p <=? q) (fork_turn_positions_in_rollout no_hooks no_triggers rebuilt))
      = 1 `min` length (fork_turn_positions_in_rollout no_hooks no_triggers rebuilt).
Proof.
  assert (fork_turn_positions_in_rollout no_hooks no_triggers rebuilt ≠ []) as H by by vm_compute.
  split; [exact H|].
  exact (proj2 (proj2 (proj2 (fork_turns_survive no_hooks no_triggers rebuilt 1))) (Nat.neq_succ_0 0) H).
Defined.
