(* ===== verification/ConfigMerge.v ===== *)
(** * Merging configuration

    [codex-rs/config/src/merge.rs], [key_aliases.rs] and [overrides.rs]: how a
    table of higher precedence is merged into one of lower precedence, which keys
    are renamed on the way, and how dotted overrides of the command line become a
    table.  The target is not Windows.  Floats and dates are parameters, and so
    is the lower case of Unicode strings. *)

From S2P Require Import Prelude RustStr Fields NetAddr NetHost.

Class TomlTypes := { Float : Type; Datetime : Type }.

(** ** Values ([toml::Value]) *)

Section values.
Context {T : TomlTypes}.

#[local] Unset Elimination Schemes.
Inductive TomlValue :=
| TString (s : str)
| TInteger (n : Z)
| TFloat (f : Float)
| TBoolean (b : bool)
| TDatetime (d : Datetime)
| TArray (items : list TomlValue)
| TTable (table : list (str * TomlValue)).
#[local] Set Elimination Schemes.

Lemma TomlValue_ind (P : TomlValue → Prop) :
  (∀ s, P (TString s)) → (∀ n, P (TInteger n)) → (∀ f, P (TFloat f)) → (∀ b, P (TBoolean b)) →
  (∀ d, P (TDatetime d)) → (∀ l, Forall P l → P (TArray l)) →
  (∀ fs, Forall (λ f, P f.2) fs → P (TTable fs)) → ∀ v, P v.
Proof.
  intros Hs Hn Hf Hb Hd Ha Ht. fix IH 1. intros [s|n|f|b|d|l|fs]; [done|done|done|done|done| |].
  - apply Ha. induction l as [|v l IHl]; constructor; [apply IH|exact IHl].
  - apply Ht. induction fs as [|[k v] fs IHl]; constructor; [apply IH|exact IHl].
Qed.

Definition is_table (v : TomlValue) : bool := match v with TTable _ => true | _ => false end.
Definition as_table (v : TomlValue) : option (list (str * TomlValue)) :=
  match v with TTable t => Some t | _ => None end.
End values.

Abbreviation table := (list (str * TomlValue)).

(** ** Aliases of keys ([key_aliases.rs]) *)

Record ConfigKeyAlias := { table_path : list str; legacy_key : str; canonical_key : str }.

Definition CONFIG_KEY_ALIASES : list ConfigKeyAlias :=
  [{| table_path := [lit "memories"]; legacy_key := lit "no_memories_if_mcp_or_web_search";
      canonical_key := lit "disable_on_external_context" |};
   {| table_path := [lit "agents"]; legacy_key := lit "max_threads";
      canonical_key := lit "max_concurrent_threads_per_session" |}].

(** The loop body; [entry] and [or_insert] keep what is there. *)
Definition normalize_alias {A} (path : list str) (table : list (str * A)) (alias : ConfigKeyAlias)
    : list (str * A) :=
  if bool_decide (path = table_path alias) then
    match get (legacy_key alias) table with
    | Some value =>
        let table := remove_field (legacy_key alias) table in
        if contains_key (canonical_key alias) table then table
        else insert_field (canonical_key alias) value table
    | None => table
    end
  else table.

Definition normalize_key_aliases {A} (path : list str) (table : list (str * A)) : list (str * A) :=
  foldl (normalize_alias path) table CONFIG_KEY_ALIASES.

Section merge.
Context {T : TomlTypes} (to_lowercase : str → str).

Fixpoint normalized_with_key_aliases (value : TomlValue) (path : list str) : TomlValue :=
  match value with
  | TTable t =>
      TTable (normalize_key_aliases path
        ((fix go (t : table) (normalized : table) : table :=
            match t with
            | [] => normalized
            | (key, child) :: t =>
                go t (insert_field key (normalized_with_key_aliases child (path ++ [key])) normalized)
            end) t []))
  | TArray items => TArray ((λ item, normalized_with_key_aliases item path) <$> items)
  | _ => value
  end.

(** ** The filters of the shell environment *)

Inductive ShellEnvironmentPolicyFilterRepresentation := Filters | Legacy.

Definition from_policy (policy : TomlValue) : option ShellEnvironmentPolicyFilterRepresentation :=
  policy ← as_table policy;
  if contains_key (lit "filters") policy then Some Filters
  else if contains_key (lit "exclude") policy || contains_key (lit "include_only") policy
  then Some Legacy else None.

Definition from_path (path : list str) : option ShellEnvironmentPolicyFilterRepresentation :=
  match path with
  | policy :: field :: _ =>
      if bool_decide (policy = lit "shell_environment_policy") then
        if bool_decide (field = lit "filters") then Some Filters
        else if bool_decide (field = lit "exclude") || bool_decide (field = lit "include_only")
        then Some Legacy else None
      else None
  | _ => None
  end.

Definition from_edit (path : list str) (value : TomlValue)
    : option ShellEnvironmentPolicyFilterRepresentation :=
  if bool_decide (path = [lit "shell_environment_policy"]) then from_policy value else from_path path.

Definition displaced_fields (r : ShellEnvironmentPolicyFilterRepresentation) : list str :=
  match r with Filters => [lit "exclude"; lit "include_only"] | Legacy => [lit "filters"] end.

Definition replace_shell_environment_policy_filter_representation (base overlay : TomlValue)
    (path : list str) : TomlValue :=
  if negb (bool_decide (path = [lit "shell_environment_policy"])) then base
  else
    match from_policy overlay, base with
    | Some representation, TTable t =>
        TTable (foldl (λ t field, remove_field field t) t (displaced_fields representation))
    | _, _ => base
    end.

(** ** Paths with rules of their own *)

Definition is_structured_feature (features feature : str) : bool :=
  bool_decide (features = lit "features")
  && (bool_decide (feature = lit "multi_agent_v2") || bool_decide (feature = lit "network_proxy")
      || bool_decide (feature = lit "sleep_tool")).

Definition is_structured_feature_path (path : list str) : bool :=
  match path with
  | [profiles; _; features; feature] =>
      bool_decide (profiles = lit "profiles") && is_structured_feature features feature
  | [features; feature] => is_structured_feature features feature
  | _ => false
  end.

Definition is_shell_environment_filters_path (path : list str) : bool :=
  bool_decide (path = [lit "shell_environment_policy"; lit "filters"]).

Definition is_permission_network_domains_path (path : list str) : bool :=
  match path with
  | [permissions; _; network; domains] =>
      bool_decide (permissions = lit "permissions") && bool_decide (network = lit "network")
      && bool_decide (domains = lit "domains")
  | _ => false
  end.

(** A table with its keys rewritten; a later entry wins. *)
Definition rekey {A} (f : str → str) (entries : list (str * A)) : list (str * A) :=
  foldl (λ t e, insert_field (f e.1) e.2 t) [] entries.

Definition normalize_network_domain_keys {A} : list (str * A) → list (str * A) := rekey normalize_host.
Definition normalize_case_insensitive_keys {A} : list (str * A) → list (str * A) := rekey to_lowercase.

(** What is done to both tables before they are merged. *)
Definition normalize_tables {A} (path : list str) (t : list (str * A)) : list (str * A) :=
  let t := normalize_key_aliases path t in
  let t := if is_permission_network_domains_path path then normalize_network_domain_keys t else t in
  if is_shell_environment_filters_path path then normalize_case_insensitive_keys t else t.

Definition enabled_table (enabled : bool) : TomlValue := TTable [(lit "enabled", TBoolean enabled)].

(** A feature that is a flag or a table: the value of an early return, or the base
    to go on with. *)
Definition structured_feature_base (path : list str) (base overlay : TomlValue) : TomlValue + TomlValue :=
  if is_structured_feature_path path then
    match base, overlay with
    | TBoolean enabled, TTable _ => inr (enabled_table enabled)
    | TTable t, TBoolean enabled => inl (TTable (insert_field (lit "enabled") (TBoolean enabled) t))
    | _, _ => inr base
    end
  else inr base.

(** The merge; each value of the overlay goes with its own merge. *)
Fixpoint merge_at (overlay : TomlValue) (path : list str) (base : TomlValue) : TomlValue :=
  let base := replace_shell_environment_policy_filter_representation base overlay path in
  match structured_feature_base path base overlay with
  | inl result => result
  | inr base =>
      match overlay, base with
      | TTable overlay_table, TTable base_table =>
          TTable
            (foldl
               (λ t e,
                 insert_field e.1
                   (match get e.1 t with
                    | Some existing => e.2.2 (path ++ [e.1]) existing
                    | None => normalized_with_key_aliases e.2.1 (path ++ [e.1])
                    end) t)
               (normalize_tables path base_table)
               (normalize_tables path ((λ f, (f.1, (f.2, merge_at f.2))) <$> overlay_table)))
      | _, _ => normalized_with_key_aliases overlay path
      end
  end.

Definition merge_toml_values_at_path (base overlay : TomlValue) (path : list str) : TomlValue :=
  merge_at overlay path base.
Definition merge_toml_values (base overlay : TomlValue) : TomlValue :=
  merge_toml_values_at_path base overlay [].

Definition shell_environment_filter_entry (root : TomlValue) (path : list str) : option (str * TomlValue) :=
  match path with
  | [policy; filters; pattern] =>
      if bool_decide (policy = lit "shell_environment_policy") && bool_decide (filters = lit "filters") then
        root ← as_table root;
        policy ← get policy root;
        policy ← as_table policy;
        filters ← get filters policy;
        t ← as_table filters;
        List.find (λ e, bool_decide (to_lowercase e.1 = to_lowercase pattern)) t
      else None
  | _ => None
  end.

(** ** Overrides of the command line ([overrides.rs]) *)

Definition dot_char : char := 46%N.
Definition default_empty_table : TomlValue := TTable [].

(** The last segment. *)
Definition override_last (traversed : list str) (segment : str) (value current : TomlValue) : TomlValue :=
  match current with
  | TTable t =>
      let existing := if is_structured_feature_path traversed then get segment t else None in
      let new_value :=
        match existing, value with
        | Some (TTable feature), TBoolean enabled =>
            TTable (insert_field (lit "enabled") (TBoolean enabled) feature)
        | Some (TBoolean enabled), TTable _ => merge_toml_values (enabled_table enabled) value
        | Some (TTable feature), TTable _ => merge_toml_values (TTable feature) value
        | _, _ => value
        end in
      TTable (insert_field segment new_value t)
  | _ => TTable [(segment, value)]
  end.

Fixpoint override_at (traversed segments : list str) (value current : TomlValue) : TomlValue :=
  match segments with
  | [] => current
  | [segment] => override_last (traversed ++ [segment]) segment value current
  | segment :: rest =>
      let traversed := traversed ++ [segment] in
      match current with
      | TTable t =>
          let child := default default_empty_table (get segment t) in
          let child :=
            match child with
            | TBoolean enabled =>
                if is_structured_feature_path traversed then enabled_table enabled else child
            | _ => child
            end in
          TTable (insert_field segment (override_at traversed rest value child) t)
      | _ => TTable [(segment, override_at traversed rest value default_empty_table)]
      end
  end.

Definition apply_toml_override (root : TomlValue) (path : str) (value : TomlValue) : TomlValue :=
  override_at [] (split_on dot_char path) value root.

Definition build_cli_overrides_layer (cli_overrides : list (str * TomlValue)) : TomlValue :=
  foldl (λ root o, apply_toml_override root o.1 o.2) default_empty_table cli_overrides.
End merge.
