(* ===== verification/ConfigMergeFacts.v ===== *)
(** * What merging configuration does to a setting

    A setting of a merged table is that of the overlay, or else that of the base:
    for every path outside the tables whose keys are rewritten, after the legacy
    names of keys were replaced.  An override of the command line sets the value
    at its path and leaves every other path alone. *)

From S2P Require Import Prelude RustStr Fields NetAddr NetHost ConfigMerge.

Section facts.
Context {T : TomlTypes} (to_lowercase : str → str).

Abbreviation merge_at := (merge_at to_lowercase).
Abbreviation normalize_tables := (normalize_tables to_lowercase).
Abbreviation normalized := normalized_with_key_aliases.

(** ** Distinct keys, as in [toml::map::Map] *)

Fixpoint wf_toml (v : TomlValue) : bool :=
  match v with
  | TArray l => forallb wf_toml l
  | TTable t => bool_decide (NoDup (fst <$> t)) && forallb (λ f, wf_toml f.2) t
  | _ => true
  end.

Lemma wf_table (t : table) :
  wf_toml (TTable t) = true ↔ NoDup (fst <$> t) ∧ Forall (λ f, wf_toml f.2 = true) t.
Proof.
  simpl. rewrite andb_true_iff, bool_decide_eq_true, forallb_forall, Forall_forall.
  by setoid_rewrite list_elem_of_In.
Qed.

Lemma wf_toml_get (t : table) k v : wf_toml (TTable t) = true → get k t = Some v → wf_toml v = true.
Proof. intros [_ HF]%wf_table Hg. exact (Forall_get (λ v, wf_toml v = true) k v t HF Hg). Qed.

(** ** The rewriting of keys is natural *)

Lemma insert_map {A B} (g : A → B) k v (t : list (str * A)) :
  insert_field k (g v) ((λ e, (e.1, g e.2)) <$> t) = (λ e, (e.1, g e.2)) <$> insert_field k v t.
Proof. induction t as [|[k0 v0] t IH]; [done|]. csimpl. case_bool_decide; [done|]. csimpl. by rewrite IH. Qed.

Lemma remove_map {A B} (g : A → B) k (t : list (str * A)) :
  remove_field k ((λ e, (e.1, g e.2)) <$> t) = (λ e, (e.1, g e.2)) <$> remove_field k t.
Proof.
  unfold remove_field. induction t as [|[k0 v0] t IH]; [done|]. csimpl.
  case_bool_decide; csimpl; by rewrite IH.
Qed.

Lemma contains_map {A B} (g : A → B) k (t : list (str * A)) :
  contains_key k ((λ e, (e.1, g e.2)) <$> t) = contains_key k t.
Proof. unfold contains_key. rewrite (get_map (λ _, g)). by destruct (get k t). Qed.

Lemma normalize_alias_map {A B} (g : A → B) path (t : list (str * A)) alias :
  normalize_alias path ((λ e, (e.1, g e.2)) <$> t) alias
  = (λ e, (e.1, g e.2)) <$> normalize_alias path t alias.
Proof.
  unfold normalize_alias. case_bool_decide; [|done]. rewrite (get_map (λ _, g)).
  destruct (get (legacy_key alias) t) as [v|]; [|done]. simpl.
  rewrite remove_map, contains_map. case_match; [done|]. by rewrite insert_map.
Qed.

Lemma normalize_key_aliases_map {A B} (g : A → B) path (t : list (str * A)) :
  normalize_key_aliases path ((λ e, (e.1, g e.2)) <$> t)
  = (λ e, (e.1, g e.2)) <$> normalize_key_aliases path t.
Proof.
  unfold normalize_key_aliases. revert t. induction CONFIG_KEY_ALIASES as [|a l IH]; intros t; [done|].
  cbn [foldl]. by rewrite normalize_alias_map, IH.
Qed.

Lemma rekey_map {A B} (g : A → B) f (t : list (str * A)) :
  rekey f ((λ e, (e.1, g e.2)) <$> t) = (λ e, (e.1, g e.2)) <$> rekey f t.
Proof.
  unfold rekey. change [] with ((λ e : str * A, (e.1, g e.2)) <$> []) at 1.
  generalize (@nil (str * A)) as acc. induction t as [|[k v] t IH]; intros acc; [done|].
  cbn [fmap list_fmap foldl fst snd]. change (list_fmap _ _ ?f ?l) with (f <$> l).
  by rewrite insert_map, IH.
Qed.

Lemma normalize_tables_map {A B} (g : A → B) path (t : list (str * A)) :
  normalize_tables path ((λ e, (e.1, g e.2)) <$> t) = (λ e, (e.1, g e.2)) <$> normalize_tables path t.
Proof.
  unfold normalize_tables, ConfigMerge.normalize_tables, normalize_network_domain_keys,
    normalize_case_insensitive_keys.
  rewrite normalize_key_aliases_map. repeat case_match; by rewrite ?rekey_map.
Qed.

(** ** Merging, read off the source *)

Definition merge_field (path : list str) (k : str) (existing : option TomlValue) (v : TomlValue) : TomlValue :=
  match existing with
  | Some b => merge_at v (path ++ [k]) b
  | None => normalized v (path ++ [k])
  end.

Definition merge_tables (path : list str) (bt ot : table) : table :=
  foldl (λ t e, insert_field e.1 (merge_field path e.1 (get e.1 t) e.2) t)
    (normalize_tables path bt) (normalize_tables path ot).

Lemma merge_eq o path b :
  merge_at o path b =
  match structured_feature_base path (replace_shell_environment_policy_filter_representation b o path) o with
  | inl r => r
  | inr b =>
      match o, b with
      | TTable ot, TTable bt => TTable (merge_tables path bt ot)
      | _, _ => normalized o path
      end
  end.
Proof.
  destruct o as [| | | | | |ot]; try reflexivity. cbn [ConfigMerge.merge_at].
  destruct (structured_feature_base _ _ _) as [r|b']; [done|]. destruct b' as [| | | | | |bt]; try done.
  f_equal. unfold merge_tables.
  rewrite (normalize_tables_map (λ v, (v, merge_at v)) path ot).
  generalize (normalize_tables path bt). induction (normalize_tables path ot) as [|[k v] l IH]; [done|].
  intros t. cbn [fmap list_fmap foldl fst snd]. apply IH.
Qed.

(** ** Key aliases *)

Lemma in_aliases alias :
  alias ∈ CONFIG_KEY_ALIASES →
  table_path alias = [lit "memories"] ∧ legacy_key alias = lit "no_memories_if_mcp_or_web_search"
    ∧ canonical_key alias = lit "disable_on_external_context"
  ∨ table_path alias = [lit "agents"] ∧ legacy_key alias = lit "max_threads"
    ∧ canonical_key alias = lit "max_concurrent_threads_per_session".
Proof. unfold CONFIG_KEY_ALIASES. rewrite !elem_of_cons. intros [-> | [-> | ?%elem_of_nil]]; auto; done. Qed.

(** Only tables at the top level have aliases. *)
Lemma normalize_elsewhere {A} path (t : list (str * A)) :
  length path ≠ 1 → normalize_key_aliases path t = t.
Proof.
  intros Hp. unfold normalize_key_aliases, CONFIG_KEY_ALIASES, normalize_alias. cbn [foldl table_path].
  rewrite !bool_decide_false by (intros ->; done). done.
Qed.

Lemma normalize_absent {A} path (t : list (str * A)) :
  (∀ alias, alias ∈ CONFIG_KEY_ALIASES → table_path alias = path → get (legacy_key alias) t = None) →
  normalize_key_aliases path t = t.
Proof.
  unfold normalize_key_aliases. induction CONFIG_KEY_ALIASES as [|a l IH]; intros Ha; [done|]. cbn [foldl].
  assert (normalize_alias path t a = t) as ->.
  { unfold normalize_alias. case_bool_decide; [|done]. rewrite Ha; [done|left|done]. }
  apply IH. intros alias Hin. apply Ha. by right.
Qed.

(** An invariant of single steps is one of the whole. *)
Lemma normalize_ind {A} (P : list (str * A) → Prop) path t :
  P t → (∀ t alias, alias ∈ CONFIG_KEY_ALIASES → P t → P (normalize_alias path t alias)) →
  P (normalize_key_aliases path t).
Proof.
  intros H0 Hs. unfold normalize_key_aliases. revert t H0.
  induction CONFIG_KEY_ALIASES as [|a l IH]; intros t H0; [done|]. cbn [foldl].
  apply IH; [|apply Hs; [left|done]]. intros t' alias Hin. apply Hs. by right.
Qed.

Lemma NoDup_normalize {A} path (t : list (str * A)) :
  NoDup (fst <$> t) → NoDup (fst <$> normalize_key_aliases path t).
Proof.
  intros HN. apply (normalize_ind (λ t, NoDup (fst <$> t))); [done|]. clear t HN. intros t alias _ HN.
  unfold normalize_alias. case_bool_decide; [|done]. case_match; [|done].
  case_match; [|apply NoDup_insert]; by apply NoDup_remove.
Qed.

Lemma Forall_normalize {A} (P : A → Prop) path (t : list (str * A)) :
  Forall (λ f, P f.2) t → Forall (λ f, P f.2) (normalize_key_aliases path t).
Proof.
  intros HF. apply (normalize_ind (λ t, Forall (λ f, P f.2) t)); [done|]. clear t HF. intros t alias _ HF.
  unfold normalize_alias. case_bool_decide; [|done]. case_match eqn:G; [|done].
  case_match; [by apply Forall_remove|]. apply Forall_insert; [|by apply Forall_remove].
  by eapply (Forall_get P).
Qed.

Lemma Forall_rekey {A} (P : A → Prop) f (t : list (str * A)) :
  Forall (λ f, P f.2) t → Forall (λ f, P f.2) (rekey f t).
Proof.
  intros HF. unfold rekey. assert (Forall (λ f : str * A, P f.2) []) as H0 by constructor. revert H0.
  generalize (@nil (str * A)). induction HF as [|[k v] t Hv _ IH]; intros acc H0; [done|].
  cbn [foldl]. apply IH. by apply Forall_insert.
Qed.

Lemma NoDup_rekey {A} f (t : list (str * A)) : NoDup (fst <$> rekey f t).
Proof.
  unfold rekey. assert (NoDup (fst <$> @nil (str * A))) as H0 by constructor. revert H0.
  generalize (@nil (str * A)). induction t as [|[k v] t IH]; intros acc H0; [done|].
  cbn [foldl]. apply IH. by apply NoDup_insert.
Qed.

Lemma Forall_normalize_tables {A} (P : A → Prop) path (t : list (str * A)) :
  Forall (λ f, P f.2) t → Forall (λ f, P f.2) (normalize_tables path t).
Proof.
  intros HF%(Forall_normalize P path). unfold normalize_tables, ConfigMerge.normalize_tables.
  repeat case_match; repeat apply Forall_rekey; done.
Qed.

Lemma NoDup_normalize_tables {A} path (t : list (str * A)) :
  NoDup (fst <$> t) → NoDup (fst <$> normalize_tables path t).
Proof.
  intros HN%(NoDup_normalize path). unfold normalize_tables, ConfigMerge.normalize_tables.
  repeat case_match; try apply NoDup_rekey; done.
Qed.

(** ** Values with their keys renamed *)

Lemma normalized_table (t : table) path :
  NoDup (fst <$> t) →
  normalized (TTable t) path
  = TTable (normalize_key_aliases path ((λ e, (e.1, normalized e.2 (path ++ [e.1]))) <$> t)).
Proof.
  intros HN. cbn [normalized_with_key_aliases]. do 2 f_equal.
  set (g := λ e : str * TomlValue, (e.1, normalized e.2 (path ++ [e.1]))).
  enough (∀ t acc, NoDup (fst <$> (acc ++ t)) →
    (fix go (t normalized : table) : table :=
       match t with
       | [] => normalized
       | (key, child) :: t =>
           go t (insert_field key (normalized_with_key_aliases child (path ++ [key])) normalized)
       end) t acc = acc ++ (g <$> t)) as Hgo by (by apply (Hgo t [])).
  clear t HN. induction t as [|[k v] t IH]; intros acc HN; [by rewrite app_nil_r|].
  rewrite fmap_app in HN. apply NoDup_app in HN as (Ha & Hk & Ht).
  rewrite insert_fresh by (intros Hin; apply (Hk k Hin); left).
  rewrite IH; [by rewrite <- app_assoc|].
  rewrite !fmap_app. apply NoDup_cons in Ht as [Hkt Ht].
  rewrite <- app_assoc. apply NoDup_app. split_and!; [done| |by constructor].
  intros x Hx. exact (Hk x Hx).
Qed.

(** Nothing is renamed below the second level. *)
Lemma normalized_deep v : ∀ path, wf_toml v = true → 2 ≤ length path → normalized v path = v.
Proof.
  induction v as [| | | | |l IH|t IH]; intros path Hw Hp; try done.
  - simpl. f_equal. simpl in Hw. rewrite forallb_forall in Hw.
    transitivity (id <$> l); [|apply list_fmap_id]. apply list_fmap_ext. intros i v Hv%list_elem_of_lookup_2.
    rewrite Forall_forall in IH. apply IH; [done| |done]. apply Hw. by apply list_elem_of_In.
  - apply wf_table in Hw as [HN HF]. rewrite normalized_table, normalize_elsewhere by (done || lia). f_equal.
    transitivity (id <$> t); [|apply list_fmap_id]. apply list_fmap_ext.
    intros i [k v] Hv%list_elem_of_lookup_2. simpl. f_equal. rewrite Forall_forall in IH, HF.
    apply (IH _ Hv); [exact (HF _ Hv)|]. rewrite length_app. simpl. lia.
Qed.

(** The fields of a renamed table. *)
Lemma get_normalized (t : table) path :
  wf_toml (TTable t) = true →
  ∃ t', normalized (TTable t) path = TTable t' ∧
    ∀ k, get k t' = (λ v, normalized v (path ++ [k])) <$> get k (normalize_key_aliases path t).
Proof.
  intros Hw. pose proof Hw as [HN HF]%wf_table. rewrite normalized_table by done. eexists. split; [done|].
  intros k. destruct path as [|h path].
  - rewrite !normalize_elsewhere by done. apply (get_map (λ k v, normalized v ([] ++ [k]))).
  - assert (∀ (t : table) k, Forall (λ f, wf_toml f.2 = true) t →
      (λ v, normalized v ((h :: path) ++ [k])) <$> get k t = get k t) as Hid.
    { intros u j Hu. destruct (get j u) as [v|] eqn:G; [|done]. simpl. f_equal. apply normalized_deep.
      - exact (Forall_get (λ v, wf_toml v = true) j v u Hu G).
      - simpl. rewrite length_app. simpl. lia. }
    rewrite Hid by (by apply (Forall_normalize (λ v, wf_toml v = true))). f_equal. f_equal.
    transitivity (id <$> t); [|apply list_fmap_id]. apply list_fmap_ext.
    intros i [j v] Hv%list_elem_of_lookup_2. simpl. f_equal. rewrite Forall_forall in HF.
    apply normalized_deep; [exact (HF _ Hv)|]. simpl. rewrite length_app. simpl. lia.
Qed.

Lemma normalized_wf v : ∀ path, wf_toml v = true → wf_toml (normalized v path) = true.
Proof.
  induction v as [| | | | |l IH|t IH]; intros path Hw; try done.
  - simpl in *. rewrite forallb_forall in Hw |- *. intros x Hx%list_elem_of_In.
    apply list_elem_of_fmap in Hx as (y & -> & Hy). rewrite Forall_forall in IH. apply IH; [done|].
    apply Hw. by apply list_elem_of_In.
  - apply wf_table in Hw as [HN HF]. rewrite normalized_table by done. apply wf_table. split.
    + apply NoDup_normalize. by rewrite (keys_map (λ k v, normalized v (path ++ [k]))).
    + apply (Forall_normalize (λ v, wf_toml v = true)). apply Forall_fmap, Forall_forall.
      intros [k v] Hv. simpl. rewrite Forall_forall in IH, HF. exact (IH _ Hv _ (HF _ Hv)).
Qed.

(** ** Merging keeps keys distinct *)

Lemma replace_wf b o path :
  wf_toml b = true →
  wf_toml (replace_shell_environment_policy_filter_representation b o path) = true.
Proof.
  intros Hb. unfold replace_shell_environment_policy_filter_representation.
  case_match; [done|]. destruct (from_policy o) as [r|]; [|done]. destruct b as [| | | | | |t]; try done.
  revert t Hb. induction (displaced_fields r) as [|f fs IH]; intros t Hb; [done|]. cbn [foldl].
  apply IH. apply wf_table in Hb as [HN HF]. apply wf_table. split; [by apply NoDup_remove|].
  by apply (Forall_remove (λ v, wf_toml v = true)).
Qed.

Lemma structured_wf path b o :
  wf_toml b = true →
  match structured_feature_base path b o with inl r => wf_toml r | inr b => wf_toml b end = true.
Proof.
  intros Hb. unfold structured_feature_base. destruct (is_structured_feature_path path); [|done].
  destruct b as [| | | | | |t], o; try done.
  apply wf_table in Hb as [HN HF]. apply wf_table. split; [by apply NoDup_insert|].
  by apply (Forall_insert (λ v, wf_toml v = true)).
Qed.

Lemma merge_wf o : ∀ path b,
  wf_toml o = true → wf_toml b = true → wf_toml (merge_at o path b) = true.
Proof.
  induction o as [?|?|?|x|?|? _|ot IH]; intros path b Ho Hb; rewrite merge_eq;
    match goal with |- context [structured_feature_base ?p ?b ?o] =>
      pose proof (structured_wf p b o (replace_wf _ _ _ Hb)) as Hs;
      destruct (structured_feature_base p b o) as [r|b'] end;
    try done; try (by apply normalized_wf).
  destruct b' as [| | | | | |bt]; try (by apply normalized_wf).
  unfold merge_tables. apply wf_table in Ho as [HN HF].
  assert (Forall (λ f, ∀ path b, wf_toml b = true → wf_toml (merge_at f.2 path b) = true) ot) as Hm.
  { apply Forall_forall. intros f Hf p' b' Hb'. rewrite Forall_forall in IH, HF. by apply IH; [|apply HF|]. }
  apply (Forall_normalize_tables (λ v, wf_toml v = true) path) in HF.
  apply (Forall_normalize_tables
    (λ v, ∀ path b, wf_toml b = true → wf_toml (merge_at v path b) = true) path) in Hm.
  assert (wf_toml (TTable (normalize_tables path bt)) = true) as Hn.
  { apply wf_table in Hs as [HNb HFb]. apply wf_table. split; [by apply NoDup_normalize_tables|].
    by apply (Forall_normalize_tables (λ v, wf_toml v = true)). }
  revert Hn. generalize (normalize_tables path bt). clear IH HN Hs bt.
  induction (normalize_tables path ot) as [|[k v] l IHl]; intros t Ht; [done|].
  apply Forall_cons in HF as [Hv HF], Hm as [Hmv Hm]. simpl in Hv, Hmv.
  cbn [foldl fst snd]. apply IHl; [done|done|]. pose proof Ht as [HNt HFt]%wf_table.
  apply wf_table. split; [by apply NoDup_insert|]. apply (Forall_insert (λ v, wf_toml v = true)); [|done].
  unfold merge_field. destruct (get k t) as [c|] eqn:G; [|by apply normalized_wf].
  apply Hmv. by eapply wf_toml_get.
Qed.

(** The fields of a merged table. *)
Lemma get_merge_tables path (bt ot : table) k :
  NoDup (fst <$> ot) →
  get k (merge_tables path bt ot)
  = match get k (normalize_tables path ot) with
    | Some v => Some (merge_field path k (get k (normalize_tables path bt)) v)
    | None => get k (normalize_tables path bt)
    end.
Proof.
  intros HN%(NoDup_normalize_tables path). unfold merge_tables.
  rewrite (get_insert_all (merge_field path)) by done.
  rewrite <- (find_get k (normalize_tables path ot)). by destruct (List.find _ _) as [e|].
Qed.

(** ** Settings *)

Fixpoint lookup_path (p : list str) (v : TomlValue) : option TomlValue :=
  match p with
  | [] => Some v
  | k :: p => match v with TTable t => get k t ≫= lookup_path p | _ => None end
  end.

(** What a table says of a path: nothing, a setting that is not a table, or
    something else that leaves no room for one. *)
Inductive verdict := Silent | Hidden | Set_to (x : TomlValue).

(** [fin] judges the value at the end of the path. *)
Fixpoint says_with (fin : TomlValue → verdict) (p : list str) (v : TomlValue) : verdict :=
  match p with
  | [] => fin v
  | k :: p =>
      match v with
      | TTable t => match get k t with Some c => says_with fin p c | None => Silent end
      | _ => Hidden
      end
  end.

Definition says_value (v : TomlValue) : verdict := if is_table v then Hidden else Set_to v.
Definition says : list str → TomlValue → verdict := says_with says_value.

(** A structured feature is a flag, or a table with the flag in it. *)
Definition says_flag (v : TomlValue) : verdict :=
  match v with
  | TBoolean _ => Set_to v
  | TTable t => match get (lit "enabled") t with Some x => says_value x | None => Silent end
  | _ => Hidden
  end.

Definition or_else (a b : verdict) : verdict := match a with Silent => b | _ => a end.

(** The setting that a verdict leaves. *)
Definition setting (v : verdict) : option TomlValue := match v with Set_to x => Some x | _ => None end.

Lemma says_lookup p : ∀ v, setting (says p v) = (lookup_path p v ≫= λ x, setting (says_value x)).
Proof.
  unfold says. induction p as [|k p IH]; intros v; simpl; [done|].
  destruct v as [| | | | | |t]; try done. destruct (get k t); simpl; [apply IH|done].
Qed.

(** Paths outside the tables with rules of their own: no structured feature, no
    domain of a permission profile and no filter of the shell environment. *)
Definition ordinary_key (path : list str) (k : str) : bool :=
  negb (is_permission_network_domains_path path) && negb (is_shell_environment_filters_path path)
  && negb (bool_decide (path = [lit "shell_environment_policy"])
           && bool_decide (k ∈ [lit "filters"; lit "exclude"; lit "include_only"])).

Fixpoint ordinary_from (path p : list str) : bool :=
  match p with
  | [] => true
  | k :: p =>
      negb (is_structured_feature_path path) && ordinary_key path k && ordinary_from (path ++ [k]) p
  end.
Definition ordinary (p : list str) : bool := ordinary_from [] p && negb (is_structured_feature_path p).

(** The legacy names are gone from the tables at and below a path. *)
Definition clean (path : list str) (v : TomlValue) : Prop :=
  ∀ alias q, alias ∈ CONFIG_KEY_ALIASES → table_path alias = path ++ q →
    lookup_path (q ++ [legacy_key alias]) v = None.

Lemma clean_child path (t : table) k v :
  clean path (TTable t) → get k t = Some v → clean (path ++ [k]) v.
Proof.
  intros Hc Hg alias q Ha Hp. rewrite <- app_assoc in Hp. specialize (Hc alias (k :: q) Ha Hp).
  simpl in Hc. by rewrite Hg in Hc.
Qed.

Lemma clean_normalize path (t : table) :
  clean path (TTable t) → normalize_key_aliases path t = t.
Proof.
  intros Hc. apply normalize_absent. intros alias Ha Hp.
  specialize (Hc alias [] Ha). rewrite app_nil_r in Hc. specialize (Hc Hp).
  simpl in Hc. by destruct (get (legacy_key alias) t).
Qed.

Lemma get_replaced (t : table) o path k :
  ordinary_key path k = true →
  ∃ t', replace_shell_environment_policy_filter_representation (TTable t) o path = TTable t'
    ∧ get k t' = get k t ∧ ∀ j v, get j t' = Some v → get j t = Some v.
Proof.
  intros Hk. unfold replace_shell_environment_policy_filter_representation.
  case_bool_decide as Ep; [|by eexists]. simpl. destruct (from_policy o) as [r|]; [|by eexists].
  eexists. split; [done|]. unfold ordinary_key in Hk. rewrite (bool_decide_true _ Ep) in Hk.
  apply andb_prop in Hk as [_ Hk]. simpl in Hk. apply negb_true_iff, bool_decide_eq_false in Hk.
  assert (k ∉ displaced_fields r) as Hf by (destruct r; set_solver). clear Hk.
  revert t. induction (displaced_fields r) as [|f fs IH]; intros t; [done|]. cbn [foldl].
  apply not_elem_of_cons in Hf as [Hkf Hf]. destruct (IH Hf (remove_field f t)) as [-> Hj]. split.
  - rewrite get_remove. by rewrite bool_decide_false.
  - intros j v Hg%Hj. rewrite get_remove in Hg. by case_bool_decide.
Qed.

(** ** Legacy names do not come back *)

Lemma normalize_alias_gone {A} alias (t : list (str * A)) :
  legacy_key alias ≠ canonical_key alias →
  get (legacy_key alias) (normalize_alias (table_path alias) t alias) = None.
Proof.
  intros Hn. unfold normalize_alias. rewrite bool_decide_true by done.
  destruct (get (legacy_key alias) t) eqn:G; [|done].
  case_match; rewrite ?get_insert, get_remove, (bool_decide_true (legacy_key _ = _)) by done; [done|].
  by rewrite bool_decide_false.
Qed.

Lemma normalize_alias_other {A} path alias (t : list (str * A)) :
  path ≠ table_path alias → normalize_alias path t alias = t.
Proof. intros Hp. unfold normalize_alias. by rewrite bool_decide_false. Qed.

Lemma normalize_gone {A} alias (t : list (str * A)) :
  alias ∈ CONFIG_KEY_ALIASES →
  get (legacy_key alias) (normalize_key_aliases (table_path alias) t) = None.
Proof.
  unfold normalize_key_aliases, CONFIG_KEY_ALIASES. cbn [foldl]. rewrite !elem_of_cons.
  intros [-> | [-> | ?%elem_of_nil]]; [| |done].
  - rewrite (normalize_alias_other _ {| table_path := [lit "agents"] |}) by done.
    by apply normalize_alias_gone.
  - by apply normalize_alias_gone.
Qed.

Lemma lookup_not_table p k v : is_table v = false → lookup_path (p ++ [k]) v = None.
Proof. by destruct p, v. Qed.

Lemma clean_normalized o path : wf_toml o = true → clean path (normalized o path).
Proof.
  intros Hw alias q Ha. revert o path Hw. induction q as [|k q IH]; intros o path Hw Hp;
    (destruct o as [| | | | | |t]; try done);
    destruct (get_normalized t path Hw) as (t' & -> & Ht'); simpl; rewrite Ht'.
  - rewrite app_nil_r in Hp. rewrite <- Hp. by rewrite normalize_gone.
  - destruct (get k (normalize_key_aliases path t)) as [v|] eqn:G; [|done]. simpl. apply IH.
    + apply wf_table in Hw as [_ HF]. apply (Forall_normalize (λ v, wf_toml v = true) path) in HF.
      exact (Forall_get (λ v, wf_toml v = true) k v _ HF G).
    + by rewrite <- app_assoc.
Qed.

Lemma merge_plain o path b :
  is_structured_feature_path path = false →
  merge_at o path b =
  match o, replace_shell_environment_policy_filter_representation b o path with
  | TTable ot, TTable bt => TTable (merge_tables path bt ot)
  | _, _ => normalized o path
  end.
Proof. intros Hs. rewrite merge_eq. unfold structured_feature_base. rewrite Hs. by destruct o. Qed.

(** At a table with aliases, whatever the base is. *)
Lemma merge_alias_table o b alias :
  wf_toml o = true → alias ∈ CONFIG_KEY_ALIASES →
  lookup_path [legacy_key alias] (merge_at o (table_path alias) b) = None.
Proof.
  intros Ho Ha.
  pose proof (clean_normalized o (table_path alias) Ho alias [] Ha) as Hn.
  rewrite app_nil_r in Hn. specialize (Hn eq_refl).
  assert (∀ A (t : list (str * A)),
    normalize_tables (table_path alias) t = normalize_key_aliases (table_path alias) t) as Ht.
  { intros A t. unfold normalize_tables, ConfigMerge.normalize_tables.
    by destruct (in_aliases alias Ha) as [(-> & _)|(-> & _)]. }
  rewrite merge_plain by (by destruct (in_aliases alias Ha) as [(-> & _)|(-> & _)]).
  destruct o as [| | | | | |ot]; try done. destruct (replace_shell_environment_policy_filter_representation _ _ _)
    as [| | | | | |bt]; try done.
  apply wf_table in Ho as [HN _]. simpl. rewrite get_merge_tables by done. rewrite !Ht.
  by rewrite !normalize_gone.
Qed.

Lemma clean_merge o path b :
  wf_toml o = true → clean path b → clean path (merge_at o path b).
Proof.
  intros Ho Hb alias q Ha Hp.
  destruct path as [|h path]; cycle 1.
  { assert (q = [] ∧ table_path alias = h :: path) as [-> <-].
    { assert (length (table_path alias) = 1) as Hl.
      { by destruct (in_aliases alias Ha) as [(-> & _)|(-> & _)]. }
      rewrite Hp in Hl |- *. simpl in Hl. rewrite length_app in Hl.
      destruct q; [by rewrite app_nil_r|simpl in Hl; lia]. }
    by apply merge_alias_table. }
  pose proof (clean_normalized o [] Ho alias q Ha Hp) as Hn.
  rewrite merge_plain by done. unfold replace_shell_environment_policy_filter_representation.
  rewrite bool_decide_false by done. cbn [negb].
  destruct o as [| | | | | |ot]; try done. destruct b as [| | | | | |bt]; try done. simpl in Hp. subst q.
  specialize (Hb alias _ Ha eq_refl). clear Hn. pose proof Ho as [HN _]%wf_table.
  assert (∃ k, table_path alias = [k]) as [k Hk].
  { destruct (in_aliases alias Ha) as [(-> & _)|(-> & _)]; eauto. }
  rewrite Hk in Hb |- *. simpl in Hb |- *. rewrite get_merge_tables by done.
  change (normalize_tables [] ?t) with (normalize_key_aliases [] t). rewrite !normalize_elsewhere by done.
  destruct (get k ot) as [v|] eqn:G; [|exact Hb]. pose proof (wf_toml_get _ _ _ Ho G) as Hv. simpl.
  unfold merge_field. destruct (get k bt) as [c|]; rewrite <- Hk.
  - by apply merge_alias_table.
  - apply (clean_normalized v (table_path alias) Hv alias [] Ha). by rewrite app_nil_r.
Qed.

(** ** The overlay decides, or else the base *)

(** A table that replaced a value forgets that there was one. *)
Definition agrees (m f : verdict) : Prop := m = f ∨ m = Silent ∧ f = Hidden.

Lemma agrees_setting m f : agrees m f → setting m = setting f.
Proof. by intros [->|[-> ->]]. Qed.

Lemma ordinary_tables {A} path k (t : list (str * A)) :
  ordinary_key path k = true → normalize_tables path t = normalize_key_aliases path t.
Proof.
  unfold ordinary_key, normalize_tables, ConfigMerge.normalize_tables.
  intros [[->%negb_true_iff ->%negb_true_iff]%andb_prop _]%andb_prop. done.
Qed.

Lemma merge_replaces o path b :
  is_structured_feature_path path = false → is_table o && is_table b = false →
  merge_at o path b = normalized o path.
Proof.
  intros Hs Hob. rewrite merge_plain by done. destruct o as [| | | | | |ot]; try done.
  destruct b as [| | | | | |bt]; try done; unfold replace_shell_environment_policy_filter_representation;
    by repeat case_match.
Qed.

Lemma replaced_normalize (bt bt' : table) path :
  (∀ j v, get j bt' = Some v → get j bt = Some v) → clean path (TTable bt) →
  normalize_key_aliases path bt' = bt'.
Proof.
  intros Hsub Hc. apply normalize_absent. intros alias Ha Hp.
  specialize (Hc alias [] Ha). rewrite app_nil_r in Hc. specialize (Hc Hp). simpl in Hc.
  destruct (get (legacy_key alias) bt') as [v|] eqn:G; [|done]. apply Hsub in G. by rewrite G in Hc.
Qed.

(** The values that a path ends in may be merged in their own way. *)
Definition merges_at (fin : TomlValue → verdict) (path : list str) : Prop :=
  ∀ o b f, wf_toml o = true → agrees (fin b) f →
    agrees (fin (merge_at o path b)) (or_else (fin (normalized o path)) f).

Lemma merge_says fin p : ∀ path,
  merges_at fin (path ++ p) → ordinary_from path p = true →
  ∀ o b f, wf_toml o = true → clean path b → agrees (says_with fin p b) f →
  agrees (says_with fin p (merge_at o path b)) (or_else (says_with fin p (normalized o path)) f).
Proof.
  induction p as [|k p IH]; intros path Hm Hp o b f Ho Hc Hf.
  { rewrite app_nil_r in Hm. by apply Hm. }
  simpl in Hp. apply andb_prop in Hp as [[Hs%negb_true_iff Hk]%andb_prop Hp].
  destruct o as [| | | | | |ot]; try (by rewrite merge_replaces by done; left).
  destruct (get_normalized ot path Ho) as (t' & Hn & Ht').
  destruct b as [| | | | | |bt]; try (rewrite merge_replaces by done; rewrite Hn; simpl in *;
    destruct Hf as [<- |[? _]]; [|done]; destruct (get k t') as [c|];
      [destruct (says_with fin p c); [by right|by left|by left]|by right]).
  rewrite Hn, merge_plain by done.
  destruct (get_replaced bt (TTable ot) path k Hk) as (bt' & -> & Hg & Hsub).
  pose proof Ho as [HN HF]%wf_table. simpl. rewrite get_merge_tables, !(ordinary_tables path k) by done.
  rewrite (replaced_normalize bt bt'), Hg, Ht' by done. simpl in Hf.
  destruct (get k (normalize_key_aliases path ot)) as [v|] eqn:G; [|exact Hf]. simpl.
  assert (wf_toml v = true) as Hv.
  { apply (Forall_normalize (λ v, wf_toml v = true) path) in HF.
    exact (Forall_get (λ v, wf_toml v = true) k v _ HF G). }
  unfold merge_field. destruct (get k bt) as [c|] eqn:Gb.
  - apply IH; [by rewrite <- app_assoc|done|done|by eapply clean_child|done].
  - destruct (says_with fin p (normalized v (path ++ [k]))); [|by left|by left]. exact Hf.
Qed.

Lemma normalized_is_table v path : is_table (normalized v path) = is_table v.
Proof. by destruct v. Qed.

(** Values are replaced unless both are tables. *)
Lemma value_merges path : is_structured_feature_path path = false → merges_at says_value path.
Proof.
  intros Hs o b f Ho Hf. destruct (is_table o && is_table b) eqn:Hob.
  - destruct o as [| | | | | |ot]; try done; destruct b as [| | | | | |bt]; try done.
    rewrite merge_plain by done. left.
    unfold replace_shell_environment_policy_filter_representation. by repeat case_match.
  - rewrite merge_replaces by done. left. unfold says_value. rewrite normalized_is_table. by case_match.
Qed.

Lemma structured_path path :
  is_structured_feature_path path = true →
  (∃ f, path = [lit "features"; f]) ∨ (∃ n f, path = [lit "profiles"; n; lit "features"; f]).
Proof.
  unfold is_structured_feature_path, is_structured_feature.
  destruct path as [|a [|b [|c [|d [|]]]]]; try done.
  - intros [->%bool_decide_eq_true _]%andb_prop. eauto.
  - intros [->%bool_decide_eq_true [->%bool_decide_eq_true _]%andb_prop]%andb_prop. eauto.
Qed.

(** At a structured feature nothing is renamed and no field is displaced. *)
Lemma structured_tables path :
  is_structured_feature_path path = true →
  2 ≤ length path ∧ (∀ A (t : list (str * A)), normalize_tables path t = t)
  ∧ (∀ b o, replace_shell_environment_policy_filter_representation b o path = b)
  ∧ is_structured_feature_path (path ++ [lit "enabled"]) = false.
Proof.
  intros [(f & ->)|(n & f & ->)]%structured_path; (split_and!; [simpl; lia| | |done]).
  - intros A t. unfold normalize_tables, ConfigMerge.normalize_tables. by rewrite normalize_elsewhere.
  - done.
  - intros A t. unfold normalize_tables, ConfigMerge.normalize_tables. by rewrite normalize_elsewhere.
  - done.
Qed.

Lemma flag_merges path : is_structured_feature_path path = true → merges_at says_flag path.
Proof.
  intros Hs o b f Ho Hf. destruct (structured_tables path Hs) as (Hl & Hn & Hr & He).
  rewrite merge_eq, Hr. rewrite normalized_deep by done.
  unfold structured_feature_base. rewrite Hs.
  destruct o as [| | |e| | |ot]; try (by left; destruct b); try (left; simpl; by rewrite ?normalized_deep).
  - destruct b; left; simpl; by rewrite ?get_insert.
  - pose proof Ho as [HN _]%wf_table.
    assert (∀ (bt : table) f, agrees (says_flag (TTable bt)) f →
      agrees (says_flag (TTable (merge_tables path bt ot))) (or_else (says_flag (TTable ot)) f)) as Htt.
    { clear b f Hf. intros bt f Hf. simpl in Hf |- *. rewrite get_merge_tables, !Hn by done.
      destruct (get (lit "enabled") ot) as [x|] eqn:G; [|exact Hf].
      pose proof (wf_toml_get _ _ _ Ho G) as Hx. unfold merge_field.
      assert (normalized x (path ++ [lit "enabled"]) = x) as Hnx
        by (apply normalized_deep; [done|rewrite length_app; simpl; lia]).
      destruct (get (lit "enabled") bt) as [c|]; [|by rewrite Hnx; left; unfold says_value; case_match].
      pose proof (value_merges _ He x c (says_value c) Hx (or_introl eq_refl)) as Hv.
      rewrite Hnx in Hv. unfold says_value in Hv |- *. by destruct (is_table x). }
    assert (∀ v, says_flag v = Hidden → agrees (says_flag v) f →
      agrees (says_flag (TTable ot)) (or_else (says_flag (TTable ot)) f)) as Hh.
    { intros v -> [<- |[? _]]; [|done]. destruct (says_flag (TTable ot)); [by right|by left|by left]. }
    destruct b as [| | |e| | |bt]; rewrite ?normalized_deep by done; try (by eapply Hh; [|exact Hf]).
    + by apply Htt.
    + by apply Htt.
Qed.
End facts.

(** ** Overrides of the command line *)

Section overrides.
Context {T : TomlTypes} (to_lowercase : str → str).

Abbreviation override_at := (override_at to_lowercase).

(** No table on the way, nor the setting itself, is a structured feature. *)
Fixpoint plain_from (traversed segments : list str) : bool :=
  match segments with
  | [] => true
  | segment :: rest =>
      negb (is_structured_feature_path (traversed ++ [segment])) && plain_from (traversed ++ [segment]) rest
  end.
Definition plain_path (segments : list str) : bool := plain_from [] segments.

(** Neither path goes through the other. *)
Definition apart (p q : list str) : Prop := ¬ (p `prefix_of` q) ∧ ¬ (q `prefix_of` p).

Lemma apart_cons k p q : apart (k :: p) (k :: q) → apart p q.
Proof. intros [H1 H2]. split; intros H; [apply H1|apply H2]; by apply prefix_cons. Qed.

Lemma apart_nil p : ¬ apart p [] ∧ ¬ apart [] p.
Proof. split; intros [H1 H2]; [apply H2|apply H1]; apply prefix_nil. Qed.

Lemma lookup_insert_field k v (t : table) q :
  lookup_path (k :: q) (TTable (insert_field k v t)) = lookup_path q v.
Proof. simpl. by rewrite get_insert, bool_decide_true. Qed.

Lemma lookup_insert_other k j v (t : table) q :
  k ≠ j → lookup_path (j :: q) (TTable (insert_field k v t)) = lookup_path (j :: q) (TTable t).
Proof. intros Hn. simpl. by rewrite get_insert, bool_decide_false. Qed.

(** The last segment of a plain path. *)
Lemma override_last_plain traversed segment v current :
  is_structured_feature_path traversed = false →
  override_last to_lowercase traversed segment v current
  = TTable (insert_field segment v (default [] (as_table current))).
Proof. intros Hs. unfold override_last. by destruct current; rewrite ?Hs. Qed.

(** A segment before the last one. *)
Lemma override_step traversed segment next rest v current :
  is_structured_feature_path (traversed ++ [segment]) = false →
  override_at traversed (segment :: next :: rest) v current
  = TTable (insert_field segment
      (override_at (traversed ++ [segment]) (next :: rest) v
         (default default_empty_table (get segment (default [] (as_table current)))))
      (default [] (as_table current))).
Proof.
  intros Hs. destruct current as [| | | | | |t]; try done. change (default [] (as_table (TTable t))) with t. cbn [ConfigMerge.override_at].
  rewrite Hs. destruct (get segment t) as [[]|]; reflexivity.
Qed.

Lemma override_at_spec segments v : ∀ traversed current,
  segments ≠ [] → plain_from traversed segments = true →
  lookup_path segments (override_at traversed segments v current) = Some v
  ∧ ∀ q, apart segments q →
      lookup_path q (override_at traversed segments v current) = lookup_path q current.
Proof.
  induction segments as [|segment rest IH]; intros traversed current Hn Hp; [done|]. clear Hn.
  simpl in Hp. apply andb_prop in Hp as [Hs%negb_true_iff Hp].
  assert (∀ j q, lookup_path (j :: q) (TTable (default [] (as_table current))) = lookup_path (j :: q) current)
    as Hc by (intros j q; by destruct current).
  destruct rest as [|next rest].
  - cbn [ConfigMerge.override_at]. rewrite override_last_plain by done. split; [by rewrite lookup_insert_field|].
    intros [|j q] Hq; [by apply apart_nil in Hq|]. destruct (decide (segment = j)) as [->|Hj].
    + apply apart_cons in Hq. by apply apart_nil in Hq.
    + by rewrite lookup_insert_other, Hc.
  - rewrite override_step by done. set (c := default default_empty_table _).
    destruct (IH (traversed ++ [segment]) c) as [IHv IHq]; [done|done|]. split; [by rewrite lookup_insert_field|].
    intros [|j q] Hq; [by apply apart_nil in Hq|]. destruct (decide (segment = j)) as [->|Hj].
    + apply apart_cons in Hq. rewrite lookup_insert_field, IHq by done. rewrite <- (Hc j q). unfold c. simpl.
      destruct (get j (default [] (as_table current))); simpl; [done|].
      destruct q; [by apply apart_nil in Hq|done].
    + by rewrite lookup_insert_other, Hc.
Qed.

(** Of a list of overrides, the last one has its value at its path, and every path
    that neither leads to nor through it has what the overrides before it gave. *)
Theorem last_override_wins overrides path v :
  plain_path (split_on dot_char path) = true →
  lookup_path (split_on dot_char path) (build_cli_overrides_layer to_lowercase (overrides ++ [(path, v)])) = Some v
  ∧ ∀ q, apart (split_on dot_char path) q →
      lookup_path q (build_cli_overrides_layer to_lowercase (overrides ++ [(path, v)]))
      = lookup_path q (build_cli_overrides_layer to_lowercase overrides).
Proof.
  intros Hp. unfold build_cli_overrides_layer. rewrite foldl_app. cbn [foldl fst snd].
  apply override_at_spec; [apply split_on_nonempty|done].
Qed.
End overrides.
