(* ===== verification/ShellEnvironment.v ===== *)
(** * The environment of shell commands

    [codex-rs/config/src/shell_environment_policy.rs], [protocol/src/
    config_types.rs] and [protocol/src/shell_environment.rs]: how the policy is
    read from the configuration, and which variables a command gets; the
    variables that [core/src/exec_env.rs] adds.  The target is not Windows.
    Wild-card patterns are those of the [wildmatch] crate, a parameter, and so
    are serde's readers of the single fields; when several fields are malformed,
    which error comes first is not modelled. *)

From S2P Require Import Prelude RustStr Fields NetAddr NetHost ConfigMerge.

Inductive ShellEnvironmentPolicyInherit := InheritCore | InheritAll | InheritNone.
Inductive ShellEnvironmentPolicyFilter := Include | Exclude.
#[global] Instance ShellEnvironmentPolicyFilter_eq_dec : EqDecision ShellEnvironmentPolicyFilter.
Proof. solve_decision. Defined.

Abbreviation env := (gmap str str).

(** ** The policy in the configuration *)

Record ShellEnvironmentPolicyToml := {
  t_inherit : option ShellEnvironmentPolicyInherit;
  t_ignore_default_excludes : option bool;
  t_exclude : option (list str);
  t_set : option env;
  t_include_only : option (list str);
  t_filters : option (list (str * ShellEnvironmentPolicyFilter));
  t_experimental_use_profile : option bool;
}.

(** The readers of the fields. *)
Class FieldReaders {T : TomlTypes} := {
  read_inherit : TomlValue → result ShellEnvironmentPolicyInherit str;
  read_bool : TomlValue → result bool str;
  read_strings : TomlValue → result (list str) str;
  read_set : TomlValue → result env str;
  read_filters : TomlValue → result (list (str * ShellEnvironmentPolicyFilter)) str;
  read_root : TomlValue → result unit str;
}.

Section policy.
Context {T : TomlTypes} {R : FieldReaders} (to_lowercase : str → str).

(** An [Option] field of a struct. *)
Definition read_field {A} (reader : TomlValue → result A str) (field : str) (t : table) : result (option A) str :=
  match get field t with
  | None => Ok None
  | Some v => rmap Some (reader v)
  end.

(** A pattern that the set has already, ignoring case. *)
Fixpoint duplicate_pattern (patterns : list str) (keys : list str) : option str :=
  match keys with
  | [] => None
  | pattern :: keys =>
      if bool_decide (to_lowercase pattern ∈ patterns) then Some pattern
      else duplicate_pattern (to_lowercase pattern :: patterns) keys
  end.

Definition deserialize_policy (t : table) : result ShellEnvironmentPolicyToml str :=
  let? inherit := read_field read_inherit (lit "inherit") t in
  let? ignore_default_excludes := read_field read_bool (lit "ignore_default_excludes") t in
  let? exclude := read_field read_strings (lit "exclude") t in
  let? set := read_field read_set (lit "set") t in
  let? include_only := read_field read_strings (lit "include_only") t in
  let? filters := read_field read_filters (lit "filters") t in
  let? experimental_use_profile := read_field read_bool (lit "experimental_use_profile") t in
  if negb (is_none filters) && (negb (is_none exclude) || negb (is_none include_only)) then
    Err (lit "cannot mix `filters` with legacy `exclude` or `include_only`")
  else
    match filters ≫= λ filters, duplicate_pattern [] filters.*1 with
    | Some pattern => Err (lit "duplicate shell environment filter `" ++ pattern ++ lit "` ignoring case")
    | None =>
        Ok {| t_inherit := inherit; t_ignore_default_excludes := ignore_default_excludes;
              t_exclude := exclude; t_set := set; t_include_only := include_only;
              t_filters := filters; t_experimental_use_profile := experimental_use_profile |}
    end.

(** ** The check of a raw layer *)

Definition filter_field_names : list str := [lit "exclude"; lit "include_only"; lit "filters"].

Definition filter_fields (policy : table) : table :=
  foldl (λ fields field,
    match get field policy with Some value => insert_field field value fields | None => fields end)
    [] filter_field_names.

Definition deserialize_shell_environment_policy_filters (value : TomlValue) : result unit str :=
  match as_table value with
  | None => Ok ()
  | Some policy => rmap (λ _, ()) (deserialize_policy (filter_fields policy))
  end.

(** A document is a table; [read_root] says what happens otherwise. *)
Definition validate_shell_environment_policy_filter_config (value : TomlValue) : result unit str :=
  match value with
  | TTable t =>
      match get (lit "shell_environment_policy") t with
      | Some policy => deserialize_shell_environment_policy_filters policy
      | None => Ok ()
      end
  | _ => read_root value
  end.
End policy.

(** ** The environment of a command *)

(** The patterns of the [wildmatch] crate. *)
Class WildMatch := {
  EnvironmentVariablePattern : Type;
  new_case_insensitive : str → EnvironmentVariablePattern;
  matches : EnvironmentVariablePattern → str → bool;
}.

Section environment.
Context {W : WildMatch}.

Record ShellEnvironmentPolicy := {
  inherit : ShellEnvironmentPolicyInherit;
  ignore_default_excludes : bool;
  exclude : list EnvironmentVariablePattern;
  set_vars : env;
  include_only : list EnvironmentVariablePattern;
  use_profile : bool;
}.

Definition default_policy : ShellEnvironmentPolicy :=
  {| inherit := InheritAll; ignore_default_excludes := true; exclude := []; set_vars := ∅;
     include_only := []; use_profile := false |}.

(** The patterns of the filters, in the order of the map. *)
Definition split_filters (filters : list (str * ShellEnvironmentPolicyFilter)) : list str * list str :=
  foldl (λ acc f, match f.2 with
                  | Include => (acc.1, acc.2 ++ [f.1])
                  | Exclude => (acc.1 ++ [f.1], acc.2)
                  end) ([], []) filters.

Definition policy_from_toml (toml : ShellEnvironmentPolicyToml) : ShellEnvironmentPolicy :=
  let '(ex, inc) :=
    match t_filters toml with
    | Some filters => split_filters filters
    | None => (default [] (t_exclude toml), default [] (t_include_only toml))
    end in
  {| inherit := default InheritAll (t_inherit toml);
     ignore_default_excludes := default true (t_ignore_default_excludes toml);
     exclude := new_case_insensitive <$> ex;
     set_vars := default ∅ (t_set toml);
     include_only := new_case_insensitive <$> inc;
     use_profile := default false (t_experimental_use_profile toml) |}.

Definition CODEX_SESSION_ID_ENV_VAR : str := lit "CODEX_SESSION_ID".
Definition CODEX_THREAD_ID_ENV_VAR : str := lit "CODEX_THREAD_ID".
Definition CODEX_PERMISSION_PROFILE_ENV_VAR : str := lit "CODEX_PERMISSION_PROFILE".

Definition NON_INHERITABLE_ENV_VARS : list str :=
  [lit "CODEX_EXEC_SERVER_NOISE_AUTH_TOKEN"; lit "NODE_REPL_AUTH_TOKEN";
   lit "OPENAI_FEDERATION_RULE_ID"; lit "OPENAI_IDENTITY_TOKEN_FILE";
   lit "OPENAI_WORKLOAD_IDENTITY_CONTEXT"; lit "TINYFISH_API_KEY"].

Definition is_non_inheritable_env_var (name : str) : bool :=
  existsb (λ restricted, eq_ignore_ascii_case restricted name) NON_INHERITABLE_ENV_VARS.

Definition UNIX_CORE_ENV_VARS : list str :=
  [lit "PATH"; lit "SHELL"; lit "TMPDIR"; lit "TEMP"; lit "TMP"; lit "HOME"; lit "LANG"; lit "LC_ALL";
   lit "LC_CTYPE"; lit "LOGNAME"; lit "USER"].

Definition is_core (name : str) : bool :=
  existsb (λ allowed, eq_ignore_ascii_case allowed name) UNIX_CORE_ENV_VARS.

(** [collect] into a map: a later variable replaces an earlier one. *)
Definition collect_env (vars : list (str * str)) : env := foldl (λ m kv, <[kv.1 := kv.2]> m) ∅ vars.

(** [retain], by name. *)
Definition retain (keep : str → bool) (m : env) : env := base.filter (λ kv, keep kv.1 = true) m.

Definition matches_any (name : str) (patterns : list EnvironmentVariablePattern) : bool :=
  existsb (λ pattern, matches pattern name) patterns.

Definition default_excludes : list EnvironmentVariablePattern :=
  [new_case_insensitive (lit "*KEY*"); new_case_insensitive (lit "*SECRET*");
   new_case_insensitive (lit "*TOKEN*")].

Definition populate_env (vars : list (str * str)) (policy : ShellEnvironmentPolicy)
    (thread_id : option str) : env :=
  let env_map :=
    match inherit policy with
    | InheritAll => collect_env vars
    | InheritNone => ∅
    | InheritCore => collect_env (List.filter (λ kv, is_core kv.1) vars)
    end in
  let env_map :=
    if negb (ignore_default_excludes policy)
    then retain (λ k, negb (matches_any k default_excludes)) env_map else env_map in
  let env_map :=
    match exclude policy with
    | [] => env_map
    | _ => retain (λ k, negb (matches_any k (exclude policy))) env_map
    end in
  let env_map := map_fold (λ key val m, <[key := val]> m) env_map (set_vars policy) in
  let env_map :=
    match include_only policy with
    | [] => env_map
    | _ => retain (λ k, matches_any k (include_only policy)) env_map
    end in
  let env_map :=
    match thread_id with
    | Some thread_id => <[CODEX_THREAD_ID_ENV_VAR := thread_id]> env_map
    | None => env_map
    end in
  retain (λ name, negb (is_non_inheritable_env_var name)) env_map.

Definition create_env_from_vars := populate_env.

(** ** What the session adds ([exec_env.rs]) *)

Definition inject_session_id_env (m : env) (session_id : str) : env :=
  <[CODEX_SESSION_ID_ENV_VAR := session_id]> m.

Definition inject_permission_profile_env (m : env) (active_permission_profile : option str) : env :=
  let m := delete CODEX_PERMISSION_PROFILE_ENV_VAR m in
  match active_permission_profile with
  | Some id => <[CODEX_PERMISSION_PROFILE_ENV_VAR := id]> m
  | None => m
  end.

Definition CODEX_APPLY_PATCH_PRESERVE_LINE_ENDINGS_ENV_VAR : str :=
  lit "CODEX_APPLY_PATCH_PRESERVE_LINE_ENDINGS".

(** [enabled] is the state of the feature. *)
Definition inject_apply_patch_env (m : env) (enabled : bool) : env :=
  let m := retain (λ key, negb (eq_ignore_ascii_case key CODEX_APPLY_PATCH_PRESERVE_LINE_ENDINGS_ENV_VAR)) m in
  if enabled then <[CODEX_APPLY_PATCH_PRESERVE_LINE_ENDINGS_ENV_VAR := lit "1"]> m else m.

(** ** Commands ([std::process::Command])

    A command sets and removes variables of the environment it inherits, unless
    that is cleared.  Names of variables are valid UTF-8. *)
Record Command := { env_cleared : bool; env_changes : gmap str (option str) }.

Definition env_remove (command : Command) (name : str) : Command :=
  {| env_cleared := env_cleared command;
     env_changes := if env_cleared command then delete name (env_changes command)
                    else <[name := None]> (env_changes command) |}.

(** What the child sees. *)
Definition child_var (parent : env) (command : Command) (name : str) : option str :=
  match env_changes command !! name with
  | Some change => change
  | None => if env_cleared command then None else parent !! name
  end.

Definition scrub_non_inheritable_env_vars (parent : env) (command : Command) : Command :=
  let configured_names := (map_to_list (env_changes command)).*1 in
  let command := foldl env_remove command NON_INHERITABLE_ENV_VARS in
  foldl (λ command name, if is_non_inheritable_env_var name then env_remove command name else command)
    command ((map_to_list parent).*1 ++ configured_names).

(** ** One variable at a time *)

(** The value a variable is inherited with: the last one, if the strategy takes
    it. *)
Definition inherited (vars : list (str * str)) (policy : ShellEnvironmentPolicy) (name : str) : option str :=
  match inherit policy with
  | InheritNone => None
  | InheritCore => if is_core name then last (List.filter (λ kv, bool_decide (kv.1 = name)) vars).*2 else None
  | InheritAll => last (List.filter (λ kv, bool_decide (kv.1 = name)) vars).*2
  end.

Definition is_excluded (policy : ShellEnvironmentPolicy) (name : str) : bool :=
  negb (ignore_default_excludes policy) && matches_any name default_excludes
  || matches_any name (exclude policy).

Definition is_included (policy : ShellEnvironmentPolicy) (name : str) : bool :=
  bool_decide (include_only policy = []) || matches_any name (include_only policy).

Lemma lookup_retain (keep : str → bool) (m : env) (name : str) :
  retain keep m !! name = if keep name then m !! name else None.
Proof.
  unfold retain. destruct (keep name) eqn:K.
  - destruct (m !! name) as [v|] eqn:E.
    + by apply map_lookup_filter_Some.
    + apply map_lookup_filter_None. by left.
  - apply map_lookup_filter_None. right. intros v _. simpl. congruence.
Qed.

Lemma lookup_collect vars name :
  collect_env vars !! name = last (List.filter (λ kv, bool_decide (kv.1 = name)) vars).*2.
Proof.
  unfold collect_env. induction vars as [|[k v] vars IH] using rev_ind; [done|].
  rewrite foldl_app, List.filter_app, fmap_app. cbn [foldl List.filter fst snd].
  destruct (decide (k = name)) as [->|Hk].
  - rewrite lookup_insert_eq, bool_decide_true by done. csimpl. by rewrite last_snoc.
  - rewrite lookup_insert_ne, bool_decide_false by done. csimpl. by rewrite app_nil_r.
Qed.

Lemma filter_core vars name :
  List.filter (λ kv, bool_decide (kv.1 = name)) (List.filter (λ kv : str * str, is_core kv.1) vars)
  = if is_core name then List.filter (λ kv, bool_decide (kv.1 = name)) vars else [].
Proof.
  induction vars as [|[k v] vars IH]; simpl; [by case_match|].
  destruct (is_core k) eqn:K; simpl; rewrite ?IH; case_bool_decide; subst; rewrite ?K; by try case_match.
Qed.

Lemma lookup_set_vars (s m : env) name :
  map_fold (λ key val m, <[key := val]> m) m s !! name
  = match s !! name with Some v => Some v | None => m !! name end.
Proof.
  revert name. apply (map_fold_weak_ind (λ (r : env) (s : env), ∀ name,
    r !! name = match s !! name with Some v => Some v | None => m !! name end)); [done|].
  intros k v s' r Hk IH name. destruct (decide (k = name)) as [->|Hn].
  - by rewrite !lookup_insert_eq.
  - rewrite !lookup_insert_ne by done. apply IH.
Qed.

(** C14: Which variables a command gets: a variable that must not be inherited is never
    there, whatever the policy sets; the identifier of the thread is there when
    there is one; any other variable is there when the include patterns, if there
    are any, take it, with the value that the policy sets or else, unless a pattern
    excludes it, with the inherited one. *)
Theorem environment_per_variable vars policy thread_id name :
  create_env_from_vars vars policy thread_id !! name
  = if is_non_inheritable_env_var name then None
    else if bool_decide (name = CODEX_THREAD_ID_ENV_VAR ∧ thread_id ≠ None) then thread_id
    else if is_included policy name then
      match set_vars policy !! name with
      | Some v => Some v
      | None => if is_excluded policy name then None else inherited vars policy name
      end
    else None.
Proof.
  unfold create_env_from_vars, populate_env.
  set (m0 := match inherit policy with InheritCore => _ | InheritAll => _ | InheritNone => _ end).
  set (m1 := if negb (ignore_default_excludes policy) then _ else _).
  set (m2 := match exclude policy with [] => _ | _ => _ end).
  set (m3 := map_fold _ _ _).
  set (m4 := match include_only policy with [] => _ | _ => _ end).
  assert (m0 !! name = inherited vars policy name) as H0.
  { unfold m0, inherited. destruct (inherit policy); rewrite ?lookup_collect, ?filter_core; [|done|done].
    by destruct (is_core name). }
  assert (m2 !! name = if is_excluded policy name then None else inherited vars policy name) as H2.
  { unfold m2, m1, is_excluded. destruct (exclude policy) as [|x xs];
      destruct (ignore_default_excludes policy); cbn [negb andb]; rewrite ?lookup_retain, H0;
      change (matches_any name []) with false; destruct (matches_any name default_excludes);
      try destruct (matches_any name (x :: xs)); done. }
  assert (m4 !! name = if is_included policy name then m3 !! name else None) as H4.
  { unfold m4, is_included. destruct (include_only policy) eqn:E; [done|]. rewrite lookup_retain.
    by rewrite bool_decide_false. }
  rewrite lookup_retain. destruct (is_non_inheritable_env_var name); [done|]. cbn [negb].
  destruct thread_id as [t|]; cycle 1.
  { rewrite bool_decide_false by naive_solver. rewrite H4. unfold m3. by rewrite lookup_set_vars, H2. }
  destruct (decide (name = CODEX_THREAD_ID_ENV_VAR)) as [->|Hn].
  - by rewrite lookup_insert_eq, bool_decide_true.
  - rewrite lookup_insert_ne, bool_decide_false by naive_solver. rewrite H4. unfold m3.
    by rewrite lookup_set_vars, H2.
Qed.

(** ** Variables that must not be inherited *)

Lemma child_remove parent command n name :
  child_var parent (env_remove command n) name
  = if bool_decide (n = name) then None else child_var parent command name.
Proof.
  unfold child_var, env_remove. simpl. destruct (env_cleared command); case_bool_decide; subst.
  - by rewrite lookup_delete_eq.
  - by rewrite lookup_delete_ne.
  - by rewrite lookup_insert_eq.
  - by rewrite lookup_insert_ne.
Qed.

Lemma child_remove_all parent (keep : str → bool) names : ∀ command name,
  child_var parent (foldl (λ c n, if keep n then env_remove c n else c) command names) name
  = if keep name && bool_decide (name ∈ names) then None else child_var parent command name.
Proof.
  induction names as [|n names IH]; intros command name; cbn [foldl].
  { rewrite bool_decide_false by apply not_elem_of_nil. by rewrite andb_false_r. }
  rewrite IH. destruct (keep name) eqn:K; cbn [andb]; cycle 1.
  { destruct (keep n) eqn:Kn; [|done]. rewrite child_remove, bool_decide_false; [done|congruence]. }
  destruct (decide (name ∈ names)) as [H|H].
  - rewrite !bool_decide_true; [done|by right|done].
  - rewrite (bool_decide_false (name ∈ names)) by done. destruct (decide (n = name)) as [->|Hn].
    + rewrite K, child_remove, !bool_decide_true; [done|left|done].
    + rewrite (bool_decide_false (name ∈ n :: names)) by (by apply not_elem_of_cons).
      destruct (keep n); [|done]. by rewrite child_remove, bool_decide_false.
Qed.

Lemma child_unmentioned parent command name :
  name ∉ (map_to_list parent).*1 → name ∉ (map_to_list (env_changes command)).*1 →
  child_var parent command name = None.
Proof.
  intros Hp Hc. unfold child_var.
  destruct (env_changes command !! name) as [x|] eqn:E.
  { destruct Hc. apply elem_of_map_to_list in E. by apply (list_elem_of_fmap_2 fst) in E. }
  destruct (env_cleared command); [done|]. destruct (parent !! name) as [x|] eqn:P; [|done].
  destruct Hp. apply elem_of_map_to_list in P. by apply (list_elem_of_fmap_2 fst) in P.
Qed.

Lemma listed_non_inheritable name : name ∈ NON_INHERITABLE_ENV_VARS → is_non_inheritable_env_var name = true.
Proof.
  unfold NON_INHERITABLE_ENV_VARS. rewrite !elem_of_cons, elem_of_nil.
  by intros [-> |[-> |[-> |[-> |[-> |[-> |[]]]]]]].
Qed.

(** A scrubbed command passes no variable on that must not be inherited, neither
    from its parent nor from what was set on the command, in any spelling of its
    name, and passes every other variable on as before. *)
Theorem scrubbed_command parent command name :
  child_var parent (scrub_non_inheritable_env_vars parent command) name
  = if is_non_inheritable_env_var name then None else child_var parent command name.
Proof.
  unfold scrub_non_inheritable_env_vars. rewrite child_remove_all.
  assert (child_var parent (foldl env_remove command NON_INHERITABLE_ENV_VARS) name
    = if bool_decide (name ∈ NON_INHERITABLE_ENV_VARS) then None else child_var parent command name) as ->
    by exact (child_remove_all parent (λ _, true) NON_INHERITABLE_ENV_VARS command name).
  destruct (is_non_inheritable_env_var name) eqn:R; cbn [andb]; cycle 1.
  { rewrite bool_decide_false; [done|]. intros H%listed_non_inheritable. congruence. }
  case_bool_decide as Hn; [done|]. case_bool_decide; [done|].
  rewrite elem_of_app in Hn. apply child_unmentioned; tauto.
Qed.

(** What a session adds to the environment never brings back a variable that must
    not be inherited. *)
Lemma injected_restricted m session_id profile enabled name :
  is_non_inheritable_env_var name = true → m !! name = None →
  inject_apply_patch_env (inject_permission_profile_env (inject_session_id_env m session_id) profile) enabled
    !! name = None.
Proof.
  intros R Hm. unfold inject_apply_patch_env, inject_permission_profile_env, inject_session_id_env.
  assert (∀ n : str, is_non_inheritable_env_var n = false → n ≠ name) as Hne by congruence.
  assert (∀ id (m : env), m !! name = None → (<[CODEX_PERMISSION_PROFILE_ENV_VAR := id]> m) !! name = None) as Hp.
  { intros id m' Hm'. by rewrite lookup_insert_ne by (by apply Hne). }
  assert (retain (λ key, negb (eq_ignore_ascii_case key CODEX_APPLY_PATCH_PRESERVE_LINE_ENDINGS_ENV_VAR))
    (match profile with
     | Some id => <[CODEX_PERMISSION_PROFILE_ENV_VAR := id]>
         (delete CODEX_PERMISSION_PROFILE_ENV_VAR (<[CODEX_SESSION_ID_ENV_VAR := session_id]> m))
     | None => delete CODEX_PERMISSION_PROFILE_ENV_VAR (<[CODEX_SESSION_ID_ENV_VAR := session_id]> m)
     end) !! name = None) as Hr.
  { rewrite lookup_retain. case_match; [|done].
    assert (delete CODEX_PERMISSION_PROFILE_ENV_VAR (<[CODEX_SESSION_ID_ENV_VAR := session_id]> m) !! name = None) as Hd
      by (rewrite lookup_delete_ne, lookup_insert_ne by (by apply Hne); done).
    destruct profile; [by apply Hp|done]. }
  destruct enabled; [|done]. by rewrite lookup_insert_ne by (by apply Hne).
Qed.
End environment.
