(* ===== verification/ConfigLayers.v ===== *)
(** * The layers of the configuration

    [codex-rs/config/src/state.rs], [config_layer_source.rs] and
    [fingerprint.rs]: a stack of layers from the packaged defaults to managed
    settings, its checks, the replacement of user layers, the merged
    configuration and the origins of its settings.  The requirements that go with
    a stack are opaque here; the conversion to JSON, its serialisation and SHA-256
    are parameters.  All errors are of kind [InvalidData] and are their texts. *)

From S2P Require Import Prelude RustStr UnixPath AbsolutePath Fields ResponseItems WorldState.
From S2P Require Import ExecPolicyManager NetAddr NetHost ConfigMerge ShellEnvironment.

(** ** Precedence ([config_layer_source.rs]) *)

Definition precedence (source : ConfigLayerSource) : Z :=
  match source with
  | PackagedDefaults _ => -10
  | Mdm _ _ => 0
  | System _ => 10
  | EnterpriseManaged _ _ => 15
  | User _ profile => if is_none profile then 20 else 21
  | Project _ => 25
  | SessionFlags => 30
  | LegacyManagedConfigTomlFromFile _ => 40
  | LegacyManagedConfigTomlFromMdm => 50
  end%Z.

Definition format_config_layer_source (source : ConfigLayerSource) (config_toml_file : str) : str :=
  match source with
  | PackagedDefaults file => lit "packaged defaults (" ++ file ++ lit ")"
  | Mdm domain key => lit "MDM (" ++ domain ++ lit ":" ++ key ++ lit ")"
  | System file => lit "system (" ++ file ++ lit ")"
  | EnterpriseManaged id name => lit "enterprise-managed (" ++ name ++ lit ", " ++ id ++ lit ")"
  | User file _ => lit "user (" ++ file ++ lit ")"
  | Project dot_codex_folder =>
      lit "project (" ++ dot_codex_folder ++ lit "/" ++ config_toml_file ++ lit ")"
  | SessionFlags => lit "session-flags"
  | LegacyManagedConfigTomlFromFile file => lit "legacy managed_config.toml (" ++ file ++ lit ")"
  | LegacyManagedConfigTomlFromMdm => lit "legacy managed_config.toml (MDM)"
  end.

Definition is_user (source : ConfigLayerSource) : bool :=
  match source with User _ _ => true | _ => false end.

(** A user layer of a file; paths are compared by components. *)
Definition is_user_file (config_toml : str) (source : ConfigLayerSource) : bool :=
  match source with User file _ => path_eq file config_toml | _ => false end.

(** [ProfileV2Name::from_str]. *)
Definition parse_profile_name (value : str) : option str :=
  if negb (bool_decide (value = []))
     && forallb (λ c, is_ascii_alphanumeric c || (c =? 95)%N || (c =? 45)%N) value
  then Some value else None.

Definition CONFIG_TOML_FILE : str := lit "config.toml".

(** ** Versions ([fingerprint.rs]) *)

Section version.
Context {J : JsonTypes} {T : TomlTypes} (to_value : TomlValue → option Json)
  (to_vec : Json → option (list N)) (sha256 : list N → list N).

Fixpoint canonical_json (value : Json) : Json :=
  match value with
  | JObject map =>
      let children := (λ f, (f.1, canonical_json f.2)) <$> map in
      JObject (foldl (λ sorted key,
        match get key children with Some val => insert_field key val sorted | None => sorted end)
        [] (merge_sort (λ a b, str_compare a b ≠ Gt) map.*1))
  | JArray items => JArray (canonical_json <$> items)
  | other => other
  end.

Definition hex_byte (byte : N) : str := [hex_digit (byte / 16); hex_digit (byte mod 16)]%N.

Definition version_for_toml (value : TomlValue) : str :=
  let json := default JNull (to_value value) in
  let serialized := default [] (to_vec (canonical_json json)) in
  lit "sha256:" ++ concat (hex_byte <$> sha256 serialized).
End version.

Record ConfigLayerMetadata := { meta_name : ConfigLayerSource; meta_version : str }.
Record RawTomlLayer := { raw_contents : str; raw_base_dir : str }.

Section layers.
Context {T : TomlTypes} {R : FieldReaders} (to_lowercase : str → str)
  (version_of : TomlValue → str) {ConfigRequirements ConfigRequirementsToml : Type}.

(** ** Entries *)

Record ConfigLayerEntry := {
  name : ConfigLayerSource;
  config : TomlValue;
  version : str;
  disabled_reason : option str;
  raw_toml : option RawTomlLayer;
  hooks_config_folder_override : option str;
}.

Definition new_layer_entry (name : ConfigLayerSource) (config : TomlValue) : ConfigLayerEntry :=
  {| name := name; config := config; version := version_of config; disabled_reason := None;
     raw_toml := None; hooks_config_folder_override := None |}.

Definition new_with_raw_toml (name : ConfigLayerSource) (config : TomlValue)
    (raw_toml raw_toml_base_dir : str) : ConfigLayerEntry :=
  {| name := name; config := config; version := version_of config; disabled_reason := None;
     raw_toml := Some {| raw_contents := raw_toml; raw_base_dir := raw_toml_base_dir |};
     hooks_config_folder_override := None |}.

Definition new_disabled (name : ConfigLayerSource) (config : TomlValue) (reason : str) : ConfigLayerEntry :=
  {| name := name; config := config; version := version_of config; disabled_reason := Some reason;
     raw_toml := None; hooks_config_folder_override := None |}.

Definition layer_is_disabled (layer : ConfigLayerEntry) : bool := negb (is_none (disabled_reason layer)).

Definition with_hooks_config_folder_override (layer : ConfigLayerEntry) (folder : option str)
    : ConfigLayerEntry :=
  {| name := name layer; config := config layer; version := version layer;
     disabled_reason := disabled_reason layer; raw_toml := raw_toml layer;
     hooks_config_folder_override := folder |}.

Definition layer_metadata (layer : ConfigLayerEntry) : ConfigLayerMetadata :=
  {| meta_name := name layer; meta_version := version layer |}.

Definition config_folder (layer : ConfigLayerEntry) : option str :=
  match name layer with
  | System file | User file _ => path_parent_of file
  | Project dot_codex_folder => Some dot_codex_folder
  | _ => None
  end.

Definition hooks_config_folder (layer : ConfigLayerEntry) : option str :=
  match hooks_config_folder_override layer with
  | Some folder => Some folder
  | None => config_folder layer
  end.

(** ** Checks *)

Definition validate_layer (layer : ConfigLayerEntry) : result unit str :=
  rmap_err (λ error, lit "invalid shell environment policy in "
                     ++ format_config_layer_source (name layer) CONFIG_TOML_FILE ++ lit ": " ++ error)
    (validate_shell_environment_policy_filter_config to_lowercase (config layer)).

Definition validate_enabled_config_layers (layers : list ConfigLayerEntry) : result unit str :=
  rmap (λ _, ()) (rmapM validate_layer (List.filter (λ layer, negb (layer_is_disabled layer)) layers)).

Fixpoint is_sorted (sources : list ConfigLayerSource) : bool :=
  match sources with
  | a :: ((b :: _) as rest) => (precedence a <=? precedence b)%Z && is_sorted rest
  | _ => true
  end.

(** Project layers go from the root of the project to the current directory. *)
Fixpoint verify_project_layers (previous : option str) (layers : list ConfigLayerEntry) : result unit str :=
  match layers with
  | [] => Ok ()
  | layer :: layers =>
      match name layer with
      | Project current =>
          let? _ :=
            match previous with
            | None => Ok ()
            | Some previous =>
                match path_parent_of previous with
                | None => Err (lit "project layer has no parent directory")
                | Some parent =>
                    if path_eq previous current
                       || negb (existsb (λ ancestor, path_eq ancestor parent) (path_ancestors current))
                    then Err (lit "project layers are not ordered from root to cwd")
                    else Ok ()
                end
            end in
          verify_project_layers (Some current) layers
      | _ => verify_project_layers previous layers
      end
  end.

Definition verify_layer_ordering (layers : list ConfigLayerEntry) : result unit str :=
  if negb (is_sorted (name <$> layers)) then Err (lit "config layers are not in correct precedence order")
  else verify_project_layers None layers.

(** ** Stacks *)

Record ConfigLayerStack := {
  layers : list ConfigLayerEntry;
  requirements : ConfigRequirements;
  requirements_toml : ConfigRequirementsToml;
  ignore_user_and_project_exec_policy_rules : bool;
  startup_warnings : option (list str);
}.

Definition new_stack (layers : list ConfigLayerEntry) (requirements : ConfigRequirements)
    (requirements_toml : ConfigRequirementsToml) : result ConfigLayerStack str :=
  let? _ := validate_enabled_config_layers layers in
  let? _ := verify_layer_ordering layers in
  Ok {| layers := layers; requirements := requirements; requirements_toml := requirements_toml;
        ignore_user_and_project_exec_policy_rules := false; startup_warnings := None |}.

Definition with_layers (stack : ConfigLayerStack) (layers : list ConfigLayerEntry) : ConfigLayerStack :=
  {| layers := layers; requirements := requirements stack; requirements_toml := requirements_toml stack;
     ignore_user_and_project_exec_policy_rules := ignore_user_and_project_exec_policy_rules stack;
     startup_warnings := startup_warnings stack |}.

Definition with_user_and_project_exec_policy_rules_ignored (stack : ConfigLayerStack) (ignored : bool)
    : ConfigLayerStack :=
  {| layers := layers stack; requirements := requirements stack; requirements_toml := requirements_toml stack;
     ignore_user_and_project_exec_policy_rules := ignored; startup_warnings := startup_warnings stack |}.

Definition with_startup_warnings (stack : ConfigLayerStack) (warnings : list str) : ConfigLayerStack :=
  {| layers := layers stack; requirements := requirements stack; requirements_toml := requirements_toml stack;
     ignore_user_and_project_exec_policy_rules := ignore_user_and_project_exec_policy_rules stack;
     startup_warnings := Some warnings |}.

Definition layers_low_to_high (stack : ConfigLayerStack) : list ConfigLayerEntry :=
  List.filter (λ layer, negb (layer_is_disabled layer)) (layers stack).
Definition layers_high_to_low (stack : ConfigLayerStack) : list ConfigLayerEntry :=
  rev (layers_low_to_high stack).

Definition get_active_user_layer (stack : ConfigLayerStack) : option ConfigLayerEntry :=
  List.find (λ layer, is_user (name layer)) (rev (layers stack)).

Definition get_user_config_file (stack : ConfigLayerStack) : option str :=
  layer ← get_active_user_layer stack;
  match name layer with User file _ => Some file | _ => None end.

(** ** Replacing user layers *)

(** Before the first layer of higher precedence, or at the end. *)
Definition insert_layer (layers : list ConfigLayerEntry) (user_layer : ConfigLayerEntry)
    : list ConfigLayerEntry :=
  match position (λ layer, (precedence (name user_layer) <? precedence (name layer))%Z) layers with
  | Some index => take index layers ++ user_layer :: drop index layers
  | None => layers ++ [user_layer]
  end.

Definition with_user_config_profile (stack : ConfigLayerStack) (config_toml : str) (profile : option str)
    (user_config : TomlValue) : result ConfigLayerStack str :=
  let user_layer := new_layer_entry (User config_toml profile) user_config in
  let? _ := validate_enabled_config_layers [user_layer] in
  let remaining :=
    match position (λ layer, is_user_file config_toml (name layer)) (layers stack) with
    | Some index => take index (layers stack) ++ drop (S index) (layers stack)
    | None => layers stack
    end in
  Ok (with_layers stack (insert_layer remaining user_layer)).

(** The profile of the first layer of the file that has a valid one. *)
Definition user_profile (config_toml : str) (layers : list ConfigLayerEntry) : option str :=
  head (omap (λ layer, match name layer with
                       | User file profile =>
                           if path_eq file config_toml then profile ≫= parse_profile_name else None
                       | _ => None
                       end) layers).

Definition with_user_config (stack : ConfigLayerStack) (config_toml : str) (user_config : TomlValue)
    : result ConfigLayerStack str :=
  with_user_config_profile stack config_toml (user_profile config_toml (layers stack)) user_config.

Definition with_user_layer_from (stack other : ConfigLayerStack) : ConfigLayerStack :=
  with_layers stack
    (foldl insert_layer (List.filter (λ layer, negb (is_user (name layer))) (layers stack))
       (List.filter (λ layer, is_user (name layer)) (layers other))).

(** ** The merged configuration and its origins *)

Abbreviation merge := (merge_toml_values to_lowercase).

Definition effective_config (stack : ConfigLayerStack) : TomlValue :=
  foldl (λ merged layer, merge merged (config layer)) (TTable []) (layers_low_to_high stack).

Definition effective_user_config (stack : ConfigLayerStack) : option TomlValue :=
  match List.filter (λ layer, is_user (name layer)) (layers_low_to_high stack) with
  | [] => None
  | user_layers => Some (foldl (λ merged layer, merge merged (config layer)) (TTable []) user_layers)
  end.

Definition path_name (path : list str) : str := join (lit ".") path.

Definition record_leaf (value : TomlValue) (meta : ConfigLayerMetadata) (path : list str)
    (origins : gmap str ConfigLayerMetadata) : gmap str ConfigLayerMetadata :=
  if bool_decide (path = []) then origins
  else if match value with TBoolean _ => true | _ => false end && is_structured_feature_path path then
    let origins :=
      if bool_decide (last path = Some (lit "network_proxy"))
      then <[path_name path := meta]> origins else origins in
    <[path_name (path ++ [lit "enabled"]) := meta]> origins
  else <[path_name path := meta]> origins.

Fixpoint record_origins (value : TomlValue) (meta : ConfigLayerMetadata) (path : list str)
    (origins : gmap str ConfigLayerMetadata) : gmap str ConfigLayerMetadata :=
  match value with
  | TTable t =>
      (fix go (t : table) (origins : gmap str ConfigLayerMetadata) :=
         match t with
         | [] => origins
         | (key, val) :: t => go t (record_origins val meta (path ++ [key]) origins)
         end) t origins
  | TArray items =>
      (fix go (idx : nat) (items : list TomlValue) (origins : gmap str ConfigLayerMetadata) :=
         match items with
         | [] => origins
         | item :: items => go (S idx) items (record_origins item meta (path ++ [fmt_nat idx]) origins)
         end) 0 items origins
  | _ => record_leaf value meta path origins
  end.

Definition origins (stack : ConfigLayerStack) : gmap str ConfigLayerMetadata :=
  foldl (λ origins layer,
    record_origins (normalized_with_key_aliases (config layer) []) (layer_metadata layer) [] origins)
    ∅ (layers_low_to_high stack).
End layers.
