(* ===== verification/ConfigLayerFacts.v ===== *)
(** * What a stack of layers promises

    The highest layer that has an opinion decides a setting, the origins name that
    layer, stacks stay ordered and checked when user layers are replaced, and the
    two ways to write the filters of the shell environment are never mixed. *)

From S2P Require Import Prelude RustStr UnixPath AbsolutePath Fields ResponseItems WorldState.
From S2P Require Import ExecPolicyManager NetAddr NetHost ConfigMerge ConfigMergeFacts.
From S2P Require Import ShellEnvironment ConfigLayers.

Section facts.
Context {T : TomlTypes} {R : FieldReaders} (to_lowercase : str → str)
  (version_of : TomlValue → str) {Requirements RequirementsToml : Type}.

Abbreviation stack := (@ConfigLayerStack T Requirements RequirementsToml).
Abbreviation effective := (@effective_config T to_lowercase Requirements RequirementsToml).
Abbreviation entry := ConfigLayerEntry.

(** The tables of all layers have distinct keys. *)
Definition wf_layers (ls : list entry) : Prop := Forall (λ l, wf_toml (config l) = true) ls.

Definition merge_all (ls : list entry) : TomlValue :=
  foldl (λ merged layer, merge_toml_values to_lowercase merged (config layer)) (TTable []) ls.

Lemma merge_all_snoc ls l :
  merge_all (ls ++ [l]) = merge_at to_lowercase (config l) [] (merge_all ls).
Proof. unfold merge_all. by rewrite foldl_app. Qed.

Lemma wf_enabled (s : stack) : wf_layers (layers s) → wf_layers (layers_low_to_high s).
Proof.
  unfold wf_layers. rewrite !Forall_forall. intros Hw l Hl. apply Hw.
  apply list_elem_of_In in Hl. apply List.filter_In in Hl as [Hl _]. by apply list_elem_of_In.
Qed.

(** ** Merged layers are well formed and use the current names *)

Lemma merge_all_wf ls : wf_layers ls → wf_toml (merge_all ls) = true.
Proof.
  induction ls as [|l ls IH] using rev_ind; [done|]. intros [Hls Hl]%Forall_app.
  rewrite merge_all_snoc. apply merge_wf; [by inversion Hl|auto].
Qed.

Lemma merge_all_clean ls : wf_layers ls → clean [] (merge_all ls).
Proof.
  induction ls as [|l ls IH] using rev_ind.
  { intros _ alias q Ha Hp. simpl in Hp. subst q. by destruct (in_aliases alias Ha) as [(-> & _)|(-> & _)]. }
  intros [Hls Hl]%Forall_app. rewrite merge_all_snoc. apply clean_merge; [by inversion Hl|auto].
Qed.

(** ** The highest layer wins *)

(** The first opinion, from the highest layer to the lowest; a layer is read with
    the current names of its keys. *)
Definition deciding (judge : TomlValue → verdict) (high_to_low : list entry) : verdict :=
  foldr (λ l v, or_else (judge (normalized_with_key_aliases (config l) [])) v) Silent high_to_low.

Lemma merge_all_says fin p ls :
  wf_layers ls → merges_at to_lowercase fin p → ordinary_from [] p = true → (fin (TTable []) = Silent ∨ p ≠ []) →
  agrees (says_with fin p (merge_all ls)) (deciding (says_with fin p) (rev ls)).
Proof.
  intros Hw Hm Hp H0. induction ls as [|l ls IH] using rev_ind.
  { destruct p as [|k p]; [|by left]. destruct H0 as [H0|]; [|done]. left. exact H0. }
  apply Forall_app in Hw as [Hls Hl]. rewrite merge_all_snoc, rev_app_distr. cbn [rev app deciding foldr].
  apply merge_says; [done|done|by inversion Hl|by apply merge_all_clean|by apply IH].
Qed.

Lemma structured_ordinary p : is_structured_feature_path p = true → ordinary_from [] p = true ∧ p ≠ [].
Proof. by intros [(f & ->)|(n & f & ->)]%structured_path. Qed.

(** C9: For every path outside the tables with rules of their own, the merged
    configuration has the setting of the highest enabled layer that says anything
    about the path, or none when that layer leaves no room for it; and for every
    structured feature, it has the flag of the highest enabled layer that gives it,
    be it a flag or a field of a table. *)
Theorem highest_layer_wins (s : stack) (p : list str) :
  wf_layers (layers s) →
  (ordinary p = true → p ≠ [] →
     setting (says p (effective s)) = setting (deciding (says p) (layers_high_to_low s)))
  ∧ (is_structured_feature_path p = true →
     setting (says_with says_flag p (effective s))
     = setting (deciding (says_with says_flag p) (layers_high_to_low s))).
Proof.
  intros Hw%wf_enabled. split.
  - intros [Ho Hs%negb_true_iff]%andb_prop Hp. apply agrees_setting.
    apply merge_all_says; [done|by apply value_merges|done|by right].
  - intros Hs. destruct (structured_ordinary p Hs) as [Ho Hp]. apply agrees_setting.
    apply merge_all_says; [done|by apply flag_merges|done|by right].
Qed.

(** ** Stacks stay ordered and checked *)

Abbreviation validate := (validate_enabled_config_layers to_lowercase).

Lemma validate_ok ls :
  validate ls = Ok () ↔ Forall (λ l, layer_is_disabled l = false → validate_layer to_lowercase l = Ok ()) ls.
Proof.
  unfold validate_enabled_config_layers. induction ls as [|l ls IH]; [simpl; by rewrite Forall_nil|].
  rewrite Forall_cons, <- IH. cbn [List.filter]. destruct (layer_is_disabled l); cbn [negb rmapM].
  - naive_solver.
  - destruct (validate_layer to_lowercase l) as [[]|e]; cbn [rbind rmap]; [|naive_solver].
    destruct (rmapM _ _); cbn [rmap]; naive_solver.
Qed.

Lemma insert_layer_nil (u : entry) : insert_layer [] u = [u].
Proof. done. Qed.

Lemma insert_layer_cons (x u : entry) ls :
  insert_layer (x :: ls) u
  = if (precedence (name u) <? precedence (name x))%Z then u :: x :: ls else x :: insert_layer ls u.
Proof.
  unfold insert_layer. cbn [position]. destruct (Z.ltb _ _); [done|].
  by destruct (position _ ls) as [i|].
Qed.

Lemma insert_layer_perm (u : entry) ls : insert_layer ls u ≡ₚ u :: ls.
Proof.
  induction ls as [|x ls IH]; [done|]. rewrite insert_layer_cons. case_match; [done|].
  by rewrite IH, Permutation_swap.
Qed.

Lemma is_sorted_cons a l :
  is_sorted (a :: l) = true ↔ (∀ b, head l = Some b → precedence a ≤ precedence b)%Z ∧ is_sorted l = true.
Proof.
  destruct l as [|b l]; [naive_solver|]. cbn [is_sorted head].
  rewrite andb_true_iff, Z.leb_le. naive_solver.
Qed.

Lemma insert_layer_sorted (u : entry) ls :
  is_sorted (name <$> ls) = true → is_sorted (name <$> insert_layer ls u) = true.
Proof.
  induction ls as [|x ls IH]; [done|]. rewrite insert_layer_cons. rewrite fmap_cons, is_sorted_cons.
  intros [Hx Hs]. destruct (Z.ltb_spec (precedence (name u)) (precedence (name x))).
  - rewrite !fmap_cons, !is_sorted_cons. split_and!; [|done|done]. simpl. intros b [= <-]. lia.
  - rewrite fmap_cons, is_sorted_cons. split; [|auto]. destruct ls as [|y ls]; [simpl; intros b [= <-]; lia|].
    rewrite insert_layer_cons. case_match; simpl; intros b [= <-]; [lia|]. by apply Hx.
Qed.

(** Only the project layers matter for their order. *)
Definition is_project (l : entry) : bool := match name l with Project _ => true | _ => false end.

Lemma verify_projects ls : ∀ previous,
  verify_project_layers previous ls = verify_project_layers previous (List.filter is_project ls).
Proof.
  induction ls as [|l ls IH]; intros previous; [done|]. cbn [List.filter].
  destruct (is_project l) eqn:P; unfold is_project in P; cbn [verify_project_layers];
    destruct (name l); try done; try apply IH. by rewrite IH.
Qed.

Lemma insert_layer_projects (u : entry) ls :
  is_project u = false → List.filter is_project (insert_layer ls u) = List.filter is_project ls.
Proof.
  intros Hu. induction ls as [|x ls IH]; [simpl; by rewrite Hu|].
  rewrite insert_layer_cons. case_match; cbn [List.filter]; [by rewrite Hu|by rewrite IH].
Qed.

Lemma sorted_filter (P : entry → bool) ls :
  is_sorted (name <$> ls) = true → is_sorted (name <$> List.filter P ls) = true.
Proof.
  intros Hs. assert (StronglySorted (λ a b, precedence a ≤ precedence b)%Z (name <$> ls)) as HS.
  { apply Sorted_StronglySorted; [intros ???; lia|]. induction (name <$> ls) as [|a l IH]; [constructor|].
    apply is_sorted_cons in Hs as [Ha Hs]. constructor; [by apply IH|].
    destruct l; constructor. by apply Ha. }
  clear Hs. induction ls as [|x ls IH]; [done|]. rewrite fmap_cons in HS.
  apply StronglySorted_inv in HS as [HS HF]. cbn [List.filter]. destruct (P x); [|by apply IH].
  rewrite fmap_cons, is_sorted_cons. split; [|by apply IH]. intros b Hb.
  rewrite Forall_forall in HF. apply HF. destruct (List.filter P ls) as [|y l] eqn:E; [done|].
  injection Hb as <-. apply (list_elem_of_fmap_2 name). assert (y ∈ y :: l) as Hy by left.
  rewrite <- E in Hy. apply list_elem_of_In, List.filter_In in Hy as [Hy _]. by apply list_elem_of_In.
Qed.

Lemma filter_remove_at (P : entry → bool) (ls : list entry) i x :
  ls !! i = Some x → P x = false →
  List.filter P (take i ls ++ drop (S i) ls) = List.filter P ls.
Proof.
  intros Hi Hx. rewrite <- (take_drop_middle ls i x Hi) at 3. rewrite !List.filter_app. cbn [List.filter].
  by rewrite Hx.
Qed.

Lemma filter_projects_not_user ls :
  List.filter is_project (List.filter (λ l, negb (is_user (name l))) ls) = List.filter is_project ls.
Proof.
  induction ls as [|l ls IH]; [done|]. cbn [List.filter].
  destruct (is_user (name l)) eqn:U; cbn [negb List.filter]; rewrite IH; [|done].
  unfold is_project. by destruct (name l).
Qed.

Definition stack_ok (s : stack) : Prop :=
  validate (layers s) = Ok () ∧ verify_layer_ordering (layers s) = Ok ().

Lemma verify_ok (ls : list entry) :
  verify_layer_ordering ls = Ok () ↔
  is_sorted (name <$> ls) = true ∧ verify_project_layers None (List.filter is_project ls) = Ok ().
Proof.
  unfold verify_layer_ordering. rewrite (verify_projects ls). destruct (is_sorted _); simpl; naive_solver.
Qed.

(** Inserting a layer that is not of a project. *)
Lemma insert_ok (ls : list entry) u :
  is_project u = false → validate ls = Ok () → verify_layer_ordering ls = Ok () →
  (layer_is_disabled u = false → validate_layer to_lowercase u = Ok ()) →
  validate (insert_layer ls u) = Ok () ∧ verify_layer_ordering (insert_layer ls u) = Ok ().
Proof.
  rewrite !validate_ok, !verify_ok. intros Hu Hv [Hs Hp] Hu'. split_and!.
  - rewrite insert_layer_perm. by constructor.
  - by apply insert_layer_sorted.
  - by rewrite insert_layer_projects.
Qed.

Lemma Forall_List_filter {A} (P : A → Prop) (b : A → bool) l : Forall P l → Forall P (List.filter b l).
Proof.
  rewrite !Forall_forall. intros HF x Hx. apply HF. apply list_elem_of_In in Hx.
  apply List.filter_In in Hx as [Hx _]. by apply list_elem_of_In.
Qed.

(** Dropping layers that are not of a project. *)
Lemma filter_ok (P : entry → bool) ls :
  List.filter is_project (List.filter P ls) = List.filter is_project ls →
  validate ls = Ok () → verify_layer_ordering ls = Ok () →
  validate (List.filter P ls) = Ok () ∧ verify_layer_ordering (List.filter P ls) = Ok ().
Proof.
  rewrite !validate_ok, !verify_ok. intros HP Hv [Hs Hp]. split_and!.
  - by apply Forall_List_filter.
  - by apply sorted_filter.
  - by rewrite HP.
Qed.

(** ** The operations *)

Inductive built : stack → Prop :=
| built_new ls r rt s : new_stack to_lowercase ls r rt = Ok s → built s
| built_profile s file profile c s' :
    built s → with_user_config_profile to_lowercase version_of s file profile c = Ok s' → built s'
| built_user s file c s' :
    built s → with_user_config to_lowercase version_of s file c = Ok s' → built s'
| built_from s other : built s → built other → built (with_user_layer_from s other)
| built_ignored s b : built s → built (with_user_and_project_exec_policy_rules_ignored s b)
| built_warnings s w : built s → built (with_startup_warnings s w).

Lemma position_holds (p : entry → bool) (ls : list entry) i :
  position p ls = Some i → ∃ x, ls !! i = Some x ∧ p x = true.
Proof. intros Hi%position_Some. naive_solver. Qed.

Lemma remove_sorted (ls : list entry) : ∀ i,
  is_sorted (name <$> ls) = true → is_sorted (name <$> (take i ls ++ drop (S i) ls)) = true.
Proof.
  induction ls as [|x ls IH]; intros i Hs; [by destruct i|].
  pose proof Hs as [Hx Hs']%is_sorted_cons. destruct i as [|i]; [done|].
  cbn [take drop app]. rewrite fmap_cons, is_sorted_cons. split; [|by apply IH].
  destruct ls as [|y ls]; [by destruct i|]. destruct i as [|i]; cbn [take drop app]; cycle 1.
  { intros b [= <-]. by apply Hx. }
  destruct ls as [|z ls]; [done|]. intros b [= <-]. specialize (Hx _ eq_refl).
  apply is_sorted_cons in Hs' as [Hy _]. specialize (Hy _ eq_refl). lia.
Qed.

Lemma with_profile_ok s file profile c s' :
  stack_ok s → with_user_config_profile to_lowercase version_of s file profile c = Ok s' → stack_ok s'.
Proof.
  intros [Hv Ho] Hw. unfold with_user_config_profile in Hw.
  set (u := new_layer_entry version_of (User file profile) c) in *.
  destruct (validate [u]) as [[]|] eqn:Hu; [|done]. simpl in Hw. injection Hw as <-.
  rewrite validate_ok, Forall_singleton in Hu. unfold stack_ok. simpl.
  apply insert_ok; [done| | |exact Hu]; destruct (position _ (layers s)) as [i|] eqn:P; try done.
  - apply validate_ok in Hv. apply validate_ok. apply Forall_app. split; [by apply Forall_take|by apply Forall_drop].
  - apply verify_ok in Ho as [Hs Hp]. apply verify_ok. split; [by apply remove_sorted|].
    apply position_holds in P as (x & Hx & Hf). rewrite (filter_remove_at _ _ _ x); [done|done|].
    unfold is_project. unfold is_user_file in Hf. by destruct (name x).
Qed.

Lemma built_ok s : built s → stack_ok s.
Proof.
  induction 1 as [ls r rt s Hn|s file profile c s' _ IH Hw|s file c s' _ IH Hw|s o _ IHs _ IHo|s b _ IH|s w _ IH];
    [|by eapply with_profile_ok|by eapply with_profile_ok| |exact IH|exact IH].
  - unfold new_stack in Hn. destruct (validate ls) as [[]|] eqn:Hv; [|done]. simpl in Hn.
    destruct (verify_layer_ordering ls) as [[]|] eqn:Ho; [|done]. by injection Hn as <-.
  - destruct IHs as [Hv Ho]. unfold stack_ok, with_user_layer_from. simpl.
    destruct (filter_ok (λ l, negb (is_user (name l))) (layers s)) as [Hv' Ho'];
      [by apply filter_projects_not_user|done|done|].
    destruct IHo as [Hvo _]. apply validate_ok in Hvo.
    assert (Forall (λ l, is_project l = false) (List.filter (λ l, is_user (name l)) (layers o))) as Hnp.
    { apply Forall_forall. intros l Hl%list_elem_of_In. apply List.filter_In in Hl as [_ Hl].
      unfold is_project. by destruct (name l). }
    apply (Forall_List_filter _ (λ l, is_user (name l))) in Hvo.
    revert Hv' Ho'. generalize (List.filter (λ l, negb (is_user (name l))) (layers s)).
    induction (List.filter _ (layers o)) as [|u us IHu]; intros ls Hls Hos; [done|].
    apply Forall_cons in Hvo as [Hu Hvo], Hnp as [Hnu Hnp]. cbn [foldl].
    destruct (insert_ok ls u Hnu Hls Hos Hu). by apply IHu.
Qed.

(** *** Taking over user layers *)

Lemma sorted_Forall (x : entry) ls :
  is_sorted (name <$> (x :: ls)) = true →
  Forall (λ l, precedence (name x) ≤ precedence (name l))%Z ls.
Proof.
  revert x. induction ls as [|y ls IH]; intros x Hs; [constructor|].
  rewrite fmap_cons in Hs. apply is_sorted_cons in Hs as [Hx Hs]. specialize (Hx _ eq_refl).
  constructor; [done|]. eapply Forall_impl; [by apply IH|]. simpl. intros l Hl. lia.
Qed.

Lemma insert_layer_front (u : entry) ls :
  Forall (λ l, precedence (name u) < precedence (name l))%Z ls → insert_layer ls u = u :: ls.
Proof.
  destruct ls as [|x ls]; [done|]. intros [Hx _]%Forall_cons. rewrite insert_layer_cons.
  by rewrite (proj2 (Z.ltb_lt _ _) Hx).
Qed.

Lemma insert_layer_back (u : entry) ls :
  Forall (λ l, precedence (name l) ≤ precedence (name u))%Z ls → insert_layer ls u = ls ++ [u].
Proof.
  induction 1 as [|x ls Hx _ IH]; [done|]. rewrite insert_layer_cons.
  destruct (Z.ltb_spec (precedence (name u)) (precedence (name x))); [lia|]. by rewrite IH.
Qed.

Lemma filter_insert_layer (P : entry → bool) (u : entry) ls :
  is_sorted (name <$> ls) = true →
  List.filter P (insert_layer ls u)
  = if P u then insert_layer (List.filter P ls) u else List.filter P ls.
Proof.
  induction ls as [|x ls IH]; intros Hs; [done|].
  pose proof (sorted_Forall x ls Hs) as HF. pose proof Hs as [_ Hs']%is_sorted_cons.
  rewrite insert_layer_cons. destruct (Z.ltb_spec (precedence (name u)) (precedence (name x))).
  - cbn [List.filter]. destruct (P u); [|done]. symmetry. apply insert_layer_front.
    assert (Forall (λ l, precedence (name u) < precedence (name l))%Z (List.filter P (x :: ls))) as HP; [|done].
    apply Forall_List_filter. constructor; [done|]. eapply Forall_impl; [exact HF|]. simpl. intros l ?. lia.
  - cbn [List.filter]. rewrite (IH Hs'). destruct (P x), (P u); try done. rewrite insert_layer_cons.
    destruct (Z.ltb_spec (precedence (name u)) (precedence (name x))); [lia|done].
Qed.

Lemma insert_layers_sorted (us : list entry) : ∀ ls,
  is_sorted (name <$> ls) = true → is_sorted (name <$> foldl insert_layer ls us) = true.
Proof. induction us as [|u us IH]; intros ls Hs; [done|]. apply IH. by apply insert_layer_sorted. Qed.

Lemma filter_insert_layers (P : entry → bool) (us : list entry) : ∀ ls,
  is_sorted (name <$> ls) = true →
  List.filter P (foldl insert_layer ls us) = foldl insert_layer (List.filter P ls) (List.filter P us).
Proof.
  induction us as [|u us IH]; intros ls Hs; [done|]. cbn [foldl List.filter].
  rewrite IH by (by apply insert_layer_sorted). rewrite filter_insert_layer by done. by destruct (P u).
Qed.

Lemma insert_layers_append (us : list entry) : ∀ ls,
  is_sorted (name <$> (ls ++ us)) = true → foldl insert_layer ls us = ls ++ us.
Proof.
  induction us as [|u us IH]; intros ls Hs; [by rewrite app_nil_r|]. cbn [foldl].
  rewrite insert_layer_back.
  - rewrite IH; rewrite <- app_assoc; done.
  - clear IH. induction ls as [|x ls IHl]; [constructor|]. constructor.
    + apply (sorted_Forall x (ls ++ u :: us)) in Hs. rewrite Forall_app, Forall_cons in Hs. naive_solver.
    + apply IHl. by apply is_sorted_cons in Hs as [_ Hs].
Qed.

Lemma filter_twice {A} (P Q : A → bool) l :
  List.filter P (List.filter Q l) = List.filter (λ x, Q x && P x) l.
Proof. induction l as [|x l IH]; [done|]. simpl. destruct (Q x) eqn:Hq; simpl; rewrite ?IH; done. Qed.

Lemma filter_none {A} (P : A → bool) l : (∀ x, P x = false) → List.filter P l = [].
Proof. intros HP. induction l as [|x l IH]; [done|]. simpl. by rewrite HP. Qed.

Lemma user_layers_taken (s other : stack) :
  is_sorted (name <$> layers s) = true → is_sorted (name <$> layers other) = true →
  List.filter (λ l, is_user (name l)) (layers (with_user_layer_from s other))
    = List.filter (λ l, is_user (name l)) (layers other)
  ∧ List.filter (λ l, negb (is_user (name l))) (layers (with_user_layer_from s other))
    = List.filter (λ l, negb (is_user (name l))) (layers s).
Proof.
  intros Hs Ho. cbn [with_user_layer_from with_layers layers].
  rewrite !filter_insert_layers by (by apply sorted_filter). rewrite !filter_twice. split.
  - rewrite filter_none by (intros x; by destruct (is_user (name x))).
    rewrite (List.filter_ext _ (λ l : entry, is_user (name l))) by (intros x; by destruct (is_user (name x))).
    apply (insert_layers_append _ []). by apply sorted_filter.
  - rewrite (filter_none _ (layers other)) by (intros x; by destruct (is_user (name x))). simpl.
    apply List.filter_ext. intros x. by destruct (is_user (name x)).
Qed.

(** C20: Whatever is done to a stack, its enabled layers have valid shell environment
    policies, its layers are in the order of their precedence and its project
    layers go from the root to the current directory; and a stack that took over
    the user layers of another one has exactly these and its own other layers, both
    in order. *)
Theorem stacks_stay_ordered (s : stack) :
  built s →
  stack_ok s
  ∧ ∀ other, built other →
      List.filter (λ l, is_user (name l)) (layers (with_user_layer_from s other))
        = List.filter (λ l, is_user (name l)) (layers other)
      ∧ List.filter (λ l, negb (is_user (name l))) (layers (with_user_layer_from s other))
        = List.filter (λ l, negb (is_user (name l))) (layers s).
Proof.
  intros Hs. split; [by apply built_ok|]. intros other Ho.
  destruct (built_ok s Hs) as [_ [Hs1 _]%verify_ok]. destruct (built_ok other Ho) as [_ [Ho1 _]%verify_ok].
  by apply user_layers_taken.
Qed.
End facts.

(** ** The origins of settings

    [ConfigLayerStack::origins] names, for every setting, the layer that decides
    it. *)

(** ** Names of paths *)

Definition dot : char := 46%N.

Lemma path_name_inj p q :
  p ≠ [] → q ≠ [] → Forall (λ k, dot ∉ k) p → Forall (λ k, dot ∉ k) q → path_name p = path_name q → p = q.
Proof.
  intros Hp Hq HFp HFq E. unfold path_name in E. change (lit ".") with [dot] in E.
  rewrite <- (split_on_join dot p), <- (split_on_join dot q) by done. by rewrite E.
Qed.

Lemma digit_not_dot (d : N) : Ascii.N_of_ascii (pretty_N_char d) ≠ dot.
Proof. unfold pretty_N_char. by repeat case_match. Qed.

Lemma fmt_nat_dotless n : dot ∉ fmt_nat n.
Proof.
  unfold fmt_nat, fmt_N. generalize (N.of_nat n). clear n. intros n.
  enough (∀ x s, dot ∉ lit s → dot ∉ lit (pretty_N_go x s)) as Hgo.
  { unfold pretty, pretty_N. case_decide; [vm_compute; set_solver|]. apply Hgo. vm_compute. set_solver. }
  clear n. induction x as [x IH] using (well_founded_induction N.lt_wf_0). intros s Hs.
  destruct (decide (0 < x)%N) as [Hx|Hx]; cycle 1.
  { assert (x = 0%N) as -> by lia. by rewrite pretty_N_go_0. }
  rewrite pretty_N_go_step by done. apply IH; [apply N.div_lt; lia|].
  unfold lit in *. simpl. apply not_elem_of_cons. split; [|done]. intros E. by eapply digit_not_dot.
Qed.

(** ** What a layer records *)

Section origins.
Context {T : TomlTypes}.

(** No key has a dot. *)
Fixpoint dotless (v : TomlValue) : bool :=
  match v with
  | TTable t => forallb (λ f, bool_decide (dot ∉ f.1) && dotless f.2) t
  | TArray l => forallb dotless l
  | _ => true
  end.

Definition leaf_names (v : TomlValue) (path : list str) : list str :=
  if bool_decide (path = []) then []
  else if match v with TBoolean _ => true | _ => false end && is_structured_feature_path path then
    (if bool_decide (last path = Some (lit "network_proxy")) then [path_name path] else [])
    ++ [path_name (path ++ [lit "enabled"])]
  else [path_name path].

(** The names that are recorded, in order. *)
Fixpoint recorded (v : TomlValue) (path : list str) : list str :=
  match v with
  | TTable t => concat ((λ f, recorded f.2 (path ++ [f.1])) <$> t)
  | TArray l =>
      (fix go (idx : nat) (l : list TomlValue) : list str :=
         match l with [] => [] | item :: l => recorded item (path ++ [fmt_nat idx]) ++ go (S idx) l end) 0 l
  | _ => leaf_names v path
  end.

Definition record_all (meta : ConfigLayerMetadata) (names : list str) (m : gmap str ConfigLayerMetadata) :=
  foldl (λ m s, <[s := meta]> m) m names.

Lemma record_origins_names v meta : ∀ path m,
  record_origins v meta path m = record_all meta (recorded v path) m.
Proof.
  unfold record_all. induction v as [| | | | |l IH|t IH]; intros path m;
    try (cbn [record_origins recorded]; unfold record_leaf, leaf_names; by repeat case_match).
  - cbn [record_origins recorded]. generalize 0 as idx. revert m.
    induction IH as [|v l Hv _ IHl]; intros m idx; [done|]. rewrite foldl_app, Hv. apply IHl.
  - cbn [record_origins recorded]. revert m.
    induction IH as [|[k v] t Hv _ IHt]; intros m; [done|]. csimpl. rewrite foldl_app. simpl in Hv.
    rewrite Hv. apply IHt.
Qed.

Lemma record_all_lookup meta names : ∀ m s,
  record_all meta names m !! s = if bool_decide (s ∈ names) then Some meta else m !! s.
Proof.
  unfold record_all. induction names as [|n names IH]; intros m s; cbn [foldl].
  { by rewrite bool_decide_false by (apply not_elem_of_nil). }
  rewrite IH. destruct (decide (s ∈ names)) as [H|H].
  - rewrite !bool_decide_true; [done|by right|done].
  - rewrite (bool_decide_false (s ∈ names)) by done. destruct (decide (n = s)) as [->|Hn].
    + rewrite lookup_insert_eq, bool_decide_true; [done|left].
    + rewrite lookup_insert_ne, bool_decide_false; [done|by apply not_elem_of_cons|done].
Qed.

(** The leaves of a value; arrays are walked by index. *)
Inductive leaf_at : list str → TomlValue → Prop :=
| leaf_here v : match v with TTable _ | TArray _ => False | _ => True end → leaf_at [] v
| leaf_field k c p t : (k, c) ∈ t → leaf_at p c → leaf_at (k :: p) (TTable t)
| leaf_item i c p l : l !! i = Some c → leaf_at p c → leaf_at (fmt_nat i :: p) (TArray l).

Lemma leaf_names_leaf s v path :
  s ∈ leaf_names v path →
  path ≠ [] ∧ (s = path_name path
    ∨ is_structured_feature_path path = true ∧ s = path_name (path ++ [lit "enabled"])).
Proof.
  unfold leaf_names. case_bool_decide as Hp; [by intros ?%elem_of_nil|]. intros Hs. split; [done|]. revert Hs.
  destruct (_ && is_structured_feature_path path) eqn:E; [|intros ->%list_elem_of_singleton; by left].
  apply andb_prop in E as [_ E]. intros [H| ->%list_elem_of_singleton]%elem_of_app; [|by right].
  left. revert H. case_bool_decide; [by intros ->%list_elem_of_singleton|by intros ?%elem_of_nil].
Qed.

Lemma recorded_leaf v : ∀ path s,
  s ∈ recorded v path →
  ∃ q, leaf_at q v ∧ path ++ q ≠ [] ∧
    (s = path_name (path ++ q)
     ∨ is_structured_feature_path (path ++ q) = true ∧ s = path_name (path ++ q ++ [lit "enabled"])).
Proof.
  induction v as [x|x|x|x|x|l IH|t IH]; intros path s Hs;
    try (exists []; rewrite !app_nil_r; split; [by constructor|]; exact (leaf_names_leaf _ _ _ Hs)).
  - cbn [recorded] in Hs.
    assert (∃ i v, l !! i = Some v ∧ s ∈ recorded v (path ++ [fmt_nat i])) as (i & v & Hi & Hv).
    { change l with ([] ++ l) at 1. change 0 with (length (@nil TomlValue)) in Hs. revert Hs.
      generalize (@nil TomlValue) as pre. clear IH. induction l as [|v l IHl]; intros pre; [by intros ?%elem_of_nil|].
      intros [Hv|Hv]%elem_of_app.
      - exists (length pre), v. split; [by rewrite list_lookup_middle|done].
      - destruct (IHl (pre ++ [v])) as (i & w & Hi & Hw); [by rewrite length_app, Nat.add_comm|].
        exists i, w. by rewrite <- app_assoc in Hi. }
    rewrite Forall_forall in IH. destruct (IH v (list_elem_of_lookup_2 _ _ _ Hi) _ _ Hv) as (q & Hq & Hn & Hs').
    exists (fmt_nat i :: q). rewrite <- app_assoc in Hn; rewrite <- app_assoc in Hs'; rewrite <- app_assoc in Hs'. split; [by econstructor|exact (conj Hn Hs')].
  - cbn [recorded] in Hs. apply list_elem_of_In, List.in_concat in Hs as (names & Hin & Hs).
    apply list_elem_of_In, list_elem_of_fmap in Hin as ([k c] & -> & Hkc). apply list_elem_of_In in Hs.
    rewrite Forall_forall in IH. destruct (IH _ Hkc _ _ Hs) as (q & Hq & Hn & Hs').
    exists (k :: q). rewrite <- app_assoc in Hn; rewrite <- app_assoc in Hs'; rewrite <- app_assoc in Hs'. split; [by econstructor|exact (conj Hn Hs')].
Qed.

Lemma leaf_dotless p v : leaf_at p v → dotless v = true → Forall (λ k, dot ∉ k) p.
Proof.
  induction 1 as [v Hv|k c p t Hin _ IH|i c p l Hi _ IH]; intros Hd; [constructor| |].
  - simpl in Hd. rewrite forallb_forall in Hd. apply list_elem_of_In in Hin. specialize (Hd _ Hin).
    apply andb_prop in Hd as [Hk%bool_decide_eq_true Hc]. constructor; auto.
  - simpl in Hd. rewrite forallb_forall in Hd. constructor; [apply fmt_nat_dotless|]. apply IH, Hd.
    apply list_elem_of_In. by eapply list_elem_of_lookup_2.
Qed.

Lemma leaf_says p : ∀ q v, leaf_at (p ++ q) v → wf_toml v = true → says p v ≠ Silent.
Proof.
  unfold says. induction p as [|k p IH]; intros q v Hl Hw; simpl.
  { unfold says_value. by destruct (is_table v). }
  inversion Hl as [|k' c p' t Hin Hc|i c p' l Hi Hc]; subst; [|done].
  pose proof Hw as [HN HF]%wf_table. rewrite (elem_get k c) by done. apply (IH q); [done|].
  rewrite Forall_forall in HF. exact (HF _ Hin).
Qed.

(** The leaves of a setting are leaves of the table. *)
Lemma set_leaf p q : ∀ v x, says p v = Set_to x → leaf_at q x → leaf_at (p ++ q) v.
Proof.
  unfold says. induction p as [|k p IH]; intros v x Hs Hx.
  - simpl in Hs. unfold says_value in Hs. destruct (is_table v) eqn:E; [done|]. by injection Hs as ->.
  - destruct v as [| | | | | |t]; try done. simpl in Hs. destruct (get k t) as [c|] eqn:G; [|done].
    econstructor; [by apply get_elem|by eapply IH].
Qed.

Lemma recorded_item n l i c path :
  l !! i = Some c → n ∈ recorded c (path ++ [fmt_nat i]) → n ∈ recorded (TArray l) path.
Proof.
  cbn [recorded]. change (fmt_nat i) with (fmt_nat (0 + i)). generalize 0 as base. revert i.
  induction l as [|v l IH]; intros i base Hi Hn; [done|]. apply elem_of_app.
  destruct i as [|i]; simpl in Hi.
  - simplify_eq. rewrite Nat.add_0_r in Hn. by left.
  - right. apply (IH i (S base)); [done|]. by rewrite Nat.add_succ_comm.
Qed.

(** A leaf is recorded under the name of its path, and a layer that is silent
    about a path records nothing under that name or below it. *)
Lemma leaf_recorded q v : leaf_at q v → ∀ path,
  path ++ q ≠ [] → is_structured_feature_path (path ++ q) = false →
  path_name (path ++ q) ∈ recorded v path.
Proof.
  induction 1 as [v Hv|k c q t Hin _ IH|i c q l Hi _ IH]; intros path Hn Hf.
  - rewrite app_nil_r in *. assert (path_name path ∈ leaf_names v path) as Hin.
    { unfold leaf_names. rewrite bool_decide_false by done. rewrite Hf, andb_false_r. left. }
    by destruct v.
  - cbn [recorded]. apply list_elem_of_In, List.in_concat. exists (recorded c (path ++ [k])). split.
    + apply list_elem_of_In, list_elem_of_fmap. by exists (k, c).
    + apply list_elem_of_In. change (path ++ k :: q) with (path ++ [k] ++ q) in *.
      rewrite app_assoc in *. by apply IH.
  - change (path ++ fmt_nat i :: q) with (path ++ [fmt_nat i] ++ q) in *.
    rewrite app_assoc in *. by eapply recorded_item; [|apply IH].
Qed.

Lemma ordinary_prefix path q k : ordinary_from path (q ++ [k]) = true → is_structured_feature_path (path ++ q) = false.
Proof.
  revert path. induction q as [|h q IH]; intros path Hp.
  - rewrite app_nil_r. simpl in Hp. by destruct (is_structured_feature_path path).
  - change (path ++ h :: q) with (path ++ [h] ++ q). rewrite app_assoc. apply IH.
    simpl in Hp. apply andb_prop in Hp as [_ Hp]. done.
Qed.

Lemma silent_not_recorded p q v :
  says p v = Silent → wf_toml v = true → dotless v = true → ordinary p = true →
  p ≠ [] → Forall (λ k, dot ∉ k) (p ++ q) → path_name (p ++ q) ∉ recorded v [].
Proof.
  intros Hs Hw Hd [Ho _]%andb_prop Hp HF Hin.
  assert (p ++ q ≠ []) as Hpq by (by destruct p).
  apply recorded_leaf in Hin as (r & Hr & Hn & [E|[Hf E]]); simpl in *;
    pose proof (leaf_dotless r v Hr Hd) as HFr.
  - apply path_name_inj in E; [|done|done|done|done]. subst r. by apply (leaf_says p q v Hr Hw).
  - apply path_name_inj in E; [|done|by destruct r|done|]; cycle 1.
    { apply Forall_app. split; [done|]. apply Forall_singleton. vm_compute. set_solver. }
    destruct (list_snoc_cases q) as [->|(q' & k & ->)].
    + rewrite app_nil_r in E. subst p. apply (ordinary_prefix [] r) in Ho. simpl in Ho. congruence.
    + rewrite app_assoc in E. apply app_inj_tail in E as [<- _]. by apply (leaf_says p q' v Hr Hw).
Qed.

Context {R : FieldReaders} (to_lowercase : str → str) {Requirements RequirementsToml : Type}.

Lemma deciding_set (judge : TomlValue → verdict) ls x :
  deciding judge ls = Set_to x →
  ∃ hi l lo, ls = hi ++ l :: lo ∧ judge (normalized_with_key_aliases (config l) []) = Set_to x
    ∧ Forall (λ l, judge (normalized_with_key_aliases (config l) []) = Silent) hi.
Proof.
  induction ls as [|l ls IH]; [done|]. simpl. destruct (judge _) eqn:E; [|done|].
  - intros (hi & l' & lo & -> & Hl & Hhi)%IH. exists (l :: hi), l', lo. split_and!; [done|done|by constructor].
  - intros [= ->]. exists [], l, ls. by split_and!.
Qed.

(** C27: When the merged configuration has a setting at an ordinary path (not a
    structured feature, a permission domain or a filter of the shell environment,
    which have rules of their own) and no key contains the dot that separates
    the keys of a path, then some enabled layer has this very setting, and that
    layer is the origin of every value of the setting: of the setting itself, or,
    since origins are kept per element, of each value inside an array (except a
    path that reads as that of a structured feature). *)
Theorem origins_tell_truth (s : @ConfigLayerStack T Requirements RequirementsToml) p x :
  wf_layers (layers s) →
  Forall (λ l, dotless (normalized_with_key_aliases (config l) []) = true) (layers s) →
  ordinary p = true → p ≠ [] →
  says p (effective_config to_lowercase s) = Set_to x →
  ∃ l, l ∈ layers_low_to_high s
    ∧ says p (normalized_with_key_aliases (config l) []) = Set_to x
    ∧ ∀ q, leaf_at q x → is_structured_feature_path (p ++ q) = false →
        origins s !! path_name (p ++ q) = Some (layer_metadata l).
Proof.
  intros Hw Hd Ho Hp Hx. pose proof Ho as [Hof Hs%negb_true_iff]%andb_prop.
  pose proof (merge_all_says to_lowercase says_value p (layers_low_to_high s) (wf_enabled s Hw)
    (value_merges to_lowercase p Hs) Hof (or_intror Hp)) as Hm.
  change (agrees (says p (effective_config to_lowercase s)) (deciding (says p) (rev (layers_low_to_high s)))) in Hm.
  rewrite Hx in Hm. destruct Hm as [Hm|[? _]]; [|done]. symmetry in Hm.
  apply deciding_set in Hm as (hi & l & lo & E & Hl & Hhi).
  apply (f_equal (@rev _)) in E. rewrite rev_involutive, rev_app_distr in E. cbn [rev] in E.
  rewrite <- app_assoc in E. cbn [app] in E.
  apply (Forall_List_filter _ (λ layer, negb (layer_is_disabled layer))) in Hd.
  change (List.filter _ (layers s)) with (layers_low_to_high s) in Hd.
  pose proof (wf_enabled s Hw) as Hwe. unfold wf_layers in Hwe.
  rewrite E in Hd, Hwe. apply Forall_app in Hd as [_ [Hdl Hd]%Forall_cons], Hwe as [_ [Hwl Hwe]%Forall_cons].
  exists l. split_and!; [rewrite E; set_solver|done|]. intros q Hq Hf.
  assert (p ++ q ≠ []) as Hpq by (by destruct p).
  pose proof (set_leaf p q _ x Hl Hq) as Hleaf.
  unfold origins. rewrite E, foldl_app. cbn [foldl]. rewrite record_origins_names.
  set (m := foldl _ ∅ (rev lo)). clearbody m.
  assert (record_all (layer_metadata l) (recorded (normalized_with_key_aliases (config l) []) []) m
    !! path_name (p ++ q) = Some (layer_metadata l)) as H0.
  { rewrite record_all_lookup, bool_decide_true; [done|]. by apply (leaf_recorded (p ++ q) _ Hleaf []). }
  revert H0. generalize (record_all (layer_metadata l) (recorded (normalized_with_key_aliases (config l) []) []) m).
  pose proof (leaf_dotless (p ++ q) _ Hleaf Hdl) as HF.
  apply Forall_rev in Hhi. clear E. induction (rev hi) as [|h hs IH]; intros m' H0; [done|].
  apply Forall_cons in Hd as [Hdh Hd], Hwe as [Hwh Hwe], Hhi as [Hh Hhi]. cbn [foldl].
  apply IH; [done|done|done|]. rewrite record_origins_names, record_all_lookup, bool_decide_false; [done|].
  apply silent_not_recorded; try done. by apply normalized_wf.
Qed.
End origins.

(** ** Filters of the shell environment across layers

    A policy writes its filters as a table of patterns or as two legacy arrays.
    Each layer is checked to use one form; so does the merged configuration, and
    no pattern is in it twice. *)

Section filters.
Context {T : TomlTypes} {R : FieldReaders} (to_lowercase : str → str).

Abbreviation merge_at := (merge_at to_lowercase).
Abbreviation sep := (lit "shell_environment_policy").
Abbreviation filters_key := (lit "filters").

(** What the library calls promise: lower case is stable, and a map is read from a
    table, entry by entry. *)
Class LibraryLaws := {
  lowercase_idem s : to_lowercase (to_lowercase s) = to_lowercase s;
  filters_from_table v m :
    read_filters v = Ok m → ∃ t : table, v = TTable t ∧ fst <$> m ≡ₚ fst <$> t;
}.
Context {L : LibraryLaws}.

(** ** Policies in one form, without duplicates *)

Definition one_form (policy : table) : Prop :=
  contains_key filters_key policy = true →
  contains_key (lit "exclude") policy = false ∧ contains_key (lit "include_only") policy = false.

Definition distinct_patterns (v : TomlValue) : Prop :=
  match v with TTable t => NoDup (to_lowercase <$> (fst <$> t)) | _ => True end.

Definition good_policy (v : TomlValue) : Prop :=
  match v with
  | TTable policy => one_form policy ∧ ∀ v, get filters_key policy = Some v → distinct_patterns v
  | _ => True
  end.

Definition good_config (v : TomlValue) : Prop :=
  ∀ policy, lookup_path [sep] v = Some policy → good_policy policy.

(** ** The check of a layer *)

Lemma duplicate_none keys : ∀ seen,
  duplicate_pattern to_lowercase seen keys = None →
  NoDup (to_lowercase <$> keys) ∧ ∀ k, k ∈ keys → to_lowercase k ∉ seen.
Proof.
  induction keys as [|k keys IH]; intros seen; [intros _; split; [constructor|by intros ? ?%elem_of_nil]|].
  simpl. case_bool_decide as Hk; [done|]. intros [HN Hs]%IH. split.
  - csimpl. apply NoDup_cons. split; [|done]. intros (k' & E & Hk')%list_elem_of_fmap.
    apply (Hs k' Hk'). rewrite <- E. left.
  - intros k' [->|Hk']%elem_of_cons; [done|]. specialize (Hs k' Hk'). set_solver.
Qed.

Lemma get_filter_fields (policy : table) k :
  k ∈ filter_field_names → get k (filter_fields policy) = get k policy.
Proof.
  intros Hk. unfold filter_fields, filter_field_names in *. cbn [foldl].
  rewrite !elem_of_cons, elem_of_nil in Hk.
  destruct (get (lit "exclude") policy) eqn:E1, (get (lit "include_only") policy) eqn:E2,
    (get (lit "filters") policy) eqn:E3;
    destruct Hk as [-> |[-> |[-> |[]]]]; rewrite ?E1, ?E2, ?E3; reflexivity.
Qed.

Lemma read_field_inv {A} (reader : TomlValue → result A str) (policy : table) k o :
  k ∈ filter_field_names → read_field reader k (filter_fields policy) = Ok o →
  is_none o = negb (contains_key k policy)
  ∧ ∀ v, get k policy = Some v → ∃ a, o = Some a ∧ reader v = Ok a.
Proof.
  intros Hk. unfold read_field, contains_key. rewrite get_filter_fields by done.
  destruct (get k policy) as [v|]; [|by intros [= <-]]. destruct (reader v) as [a|] eqn:Hr; [|done].
  intros [= <-]. split; [done|]. intros v' [= <-]. by exists a.
Qed.

Lemma validated_policy (policy : table) :
  deserialize_shell_environment_policy_filters to_lowercase (TTable policy) = Ok () →
  good_policy (TTable policy).
Proof.
  intros Hd. cbn [deserialize_shell_environment_policy_filters as_table] in Hd.
  destruct (deserialize_policy to_lowercase (filter_fields policy)) as [p|] eqn:E; [|done]. clear Hd.
  unfold deserialize_policy in E.
  destruct (read_field read_inherit _ _); cbn [rbind] in E; [|done].
  destruct (read_field read_bool (lit "ignore_default_excludes") _); cbn [rbind] in E; [|done].
  destruct (read_field read_strings (lit "exclude") _) as [ex|] eqn:Hex; cbn [rbind] in E; [|done].
  destruct (read_field read_set _ _); cbn [rbind] in E; [|done].
  destruct (read_field read_strings (lit "include_only") _) as [inc|] eqn:Hinc; cbn [rbind] in E; [|done].
  destruct (read_field read_filters _ _) as [fl|] eqn:Hfl; cbn [rbind] in E; [|done].
  destruct (read_field read_bool (lit "experimental_use_profile") _); cbn [rbind] in E; [|done].
  apply read_field_inv in Hex as [Hex _]; [|unfold filter_field_names; set_solver].
  apply read_field_inv in Hinc as [Hinc _]; [|unfold filter_field_names; set_solver].
  apply read_field_inv in Hfl as [Hfl Hfr]; [|unfold filter_field_names; set_solver].
  rewrite Hex, Hinc, Hfl, !negb_involutive in E. split.
  - intros Hc. rewrite Hc in E.
    destruct (contains_key (lit "exclude") policy), (contains_key (lit "include_only") policy); done.
  - destruct (contains_key filters_key policy && _); [done|].
    intros v Hv. destruct (Hfr v Hv) as (m & -> & Hm). cbn [option_bind mbind] in E.
    destruct (duplicate_pattern to_lowercase [] (fst <$> m)) eqn:D; [done|].
    apply duplicate_none in D as [HN _]. apply filters_from_table in Hm as (t & -> & Ht).
    simpl. by rewrite <- Ht.
Qed.

(** ** Merging *)

Lemma keys_rekey {A} f (t : list (str * A)) k : k ∈ fst <$> rekey f t → ∃ k0, k = f k0.
Proof.
  unfold rekey. assert (k ∈ fst <$> @nil (str * A) → ∃ k0, k = f k0) as H0 by (by intros ?%elem_of_nil).
  revert H0. generalize (@nil (str * A)). induction t as [|[k1 v] t IH]; intros acc H0; [done|].
  cbn [foldl]. apply IH. intros [-> |Hk]%keys_insert; [by eexists|by apply H0].
Qed.

Lemma merged_patterns o b :
  wf_toml o = true → wf_toml b = true → distinct_patterns o →
  distinct_patterns (merge_at o [sep; filters_key] b).
Proof.
  intros Ho Hb Hd. pose proof (merge_wf to_lowercase o [sep; filters_key] b Ho Hb) as Hw.
  destruct (is_table o && is_table b) eqn:Hob; cycle 1.
  { rewrite merge_replaces by done. by rewrite normalized_deep. }
  destruct o as [| | | | | |ot]; try done. destruct b as [| | | | | |bt]; try done.
  rewrite merge_plain in Hw |- * by done.
  change (replace_shell_environment_policy_filter_representation (TTable bt) _ _) with (TTable bt) in *.
  cbn iota in *. apply wf_table in Hw as [HN _]. pose proof Ho as [HNo _]%wf_table.
  assert (to_lowercase <$> (fst <$> merge_tables to_lowercase [sep; filters_key] bt ot)
    = fst <$> merge_tables to_lowercase [sep; filters_key] bt ot) as E; [|unfold distinct_patterns; by rewrite E].
  rewrite <- list_fmap_id. apply list_fmap_ext. intros i k Hk%list_elem_of_lookup_2.
  enough (∃ k0, k = to_lowercase k0) as [k0 ->] by apply lowercase_idem.
  apply get_is_Some in Hk. rewrite get_merge_tables in Hk by done.
  assert (∀ t : table, is_Some (get k (normalize_tables to_lowercase [sep; filters_key] t)) → ∃ k0, k = to_lowercase k0)
    as Hn by (intros t Ht; apply get_is_Some, keys_rekey in Ht; done).
  destruct (get k (normalize_tables to_lowercase [sep; filters_key] ot)) eqn:G; [apply (Hn ot); by rewrite G|].
  by apply (Hn bt).
Qed.

Lemma normalize_sep {A} (t : list (str * A)) : normalize_key_aliases [sep] t = t.
Proof.
  apply normalize_absent. intros alias Ha Hp.
  destruct (in_aliases alias Ha) as [(E & _)|(E & _)]; rewrite E in Hp; done.
Qed.

Lemma tables_sep {A} (t : list (str * A)) : normalize_tables to_lowercase [sep] t = t.
Proof. unfold normalize_tables. simpl. apply normalize_sep. Qed.

Lemma good_normalized v : wf_toml v = true → good_policy v → good_policy (normalized_with_key_aliases v [sep]).
Proof.
  intros Hw Hg. destruct v as [| | | | | |t]; try done.
  destruct (get_normalized t [sep] Hw) as (t' & -> & Ht'). rewrite normalize_sep in Ht'.
  assert (∀ k, get k t' = get k t) as Hget.
  { intros k. rewrite Ht'. destruct (get k t) as [c|] eqn:G; [|done]. simpl. f_equal.
    apply normalized_deep; [by eapply wf_toml_get|simpl; lia]. }
  unfold good_policy, one_form, contains_key in *. by rewrite !Hget.
Qed.

(** The fields of the base that the overlay does not displace. *)
Lemma get_kept (bt : table) o k :
  ∃ bt', replace_shell_environment_policy_filter_representation (TTable bt) o [sep] = TTable bt'
    ∧ get k bt' = if bool_decide (k ∈ from_option displaced_fields [] (from_policy o)) then None else get k bt.
Proof.
  unfold replace_shell_environment_policy_filter_representation. rewrite bool_decide_true by done. simpl.
  destruct (from_policy o) as [r|]; simpl; [|by eexists]. eexists. split; [done|].
  revert bt. induction (displaced_fields r) as [|f fs IH]; intros bt; [done|]. cbn [foldl]. rewrite IH, get_remove.
  destruct (decide (k ∈ fs)) as [H|H].
  - rewrite !bool_decide_true; [done|by right|done].
  - rewrite (bool_decide_false (k ∈ fs)) by done. destruct (decide (f = k)) as [->|Hn].
    + rewrite !bool_decide_true; [done|left|done].
    + rewrite !bool_decide_false; [done|by apply not_elem_of_cons|done].
Qed.

Definition kept (o : TomlValue) (k : str) : bool :=
  negb (bool_decide (k ∈ from_option displaced_fields [] (from_policy o))).

Lemma get_merged_policy (ot bt : table) k :
  wf_toml (TTable ot) = true →
  ∃ mt, merge_at (TTable ot) [sep] (TTable bt) = TTable mt
    ∧ get k mt = match get k ot with
                 | Some v => Some (merge_field to_lowercase [sep] k
                                     (if kept (TTable ot) k then get k bt else None) v)
                 | None => if kept (TTable ot) k then get k bt else None
                 end.
Proof.
  intros Hw. rewrite merge_plain by done. destruct (get_kept bt (TTable ot) k) as (bt' & -> & Hg).
  eexists. split; [done|]. apply wf_table in Hw as [HN _].
  rewrite get_merge_tables, !tables_sep, Hg by done. unfold kept. by case_bool_decide.
Qed.

Lemma contains_merged (ot bt mt : table) k :
  wf_toml (TTable ot) = true → merge_at (TTable ot) [sep] (TTable bt) = TTable mt →
  contains_key k mt = contains_key k ot || kept (TTable ot) k && contains_key k bt.
Proof.
  intros Hw Hm. destruct (get_merged_policy ot bt k Hw) as (mt' & Hm' & Hg).
  rewrite Hm in Hm'. injection Hm' as <-. unfold contains_key. rewrite Hg.
  destruct (get k ot); [done|]. by destruct (kept _ k).
Qed.

Lemma kept_spec (ot : table) :
  kept (TTable ot) filters_key = contains_key filters_key ot
    || negb (contains_key (lit "exclude") ot || contains_key (lit "include_only") ot)
  ∧ kept (TTable ot) (lit "exclude") = negb (contains_key filters_key ot)
  ∧ kept (TTable ot) (lit "include_only") = negb (contains_key filters_key ot).
Proof.
  unfold kept, from_policy. cbn [as_table mbind option_bind].
  destruct (contains_key filters_key ot), (contains_key (lit "exclude") ot || contains_key (lit "include_only") ot);
    done.
Qed.

Lemma good_merge o b :
  wf_toml o = true → wf_toml b = true → good_policy o → good_policy b →
  good_policy (merge_at o [sep] b).
Proof.
  intros Ho Hb Hgo Hgb. destruct (is_table o && is_table b) eqn:Hob; cycle 1.
  { rewrite merge_replaces by done. by apply good_normalized. }
  destruct o as [| | | | | |ot]; try done. destruct b as [| | | | | |bt]; try done.
  destruct (get_merged_policy ot bt filters_key Ho) as (mt & Hm & Hg). rewrite Hm.
  destruct (kept_spec ot) as (Kf & Ke & Ki), Hgo as [Hfo Hdo], Hgb as [Hfb Hdb]. split.
  - unfold one_form in *. rewrite !(contains_merged ot bt mt) by done. rewrite Kf, Ke, Ki.
    destruct (contains_key filters_key ot) eqn:F.
    + destruct Hfo as [-> ->]; [done|]. done.
    + destruct (contains_key (lit "exclude") ot), (contains_key (lit "include_only") ot); done.
  - intros v. rewrite Hg. destruct (get filters_key ot) as [vo|] eqn:Go.
    + pose proof (wf_toml_get _ _ _ Ho Go) as Hvo. intros [= <-]. unfold merge_field.
      destruct (kept (TTable ot) filters_key); [destruct (get filters_key bt) as [vb|] eqn:Gb|].
      * apply merged_patterns; [done|by eapply wf_toml_get|by apply Hdo].
      * rewrite normalized_deep by (done || simpl; lia). by apply Hdo.
      * rewrite normalized_deep by (done || simpl; lia). by apply Hdo.
    + destruct (kept (TTable ot) filters_key); [|done]. apply Hdb.
Qed.

Lemma good_config_merge o b :
  wf_toml o = true → wf_toml b = true → good_config o → good_config b → good_config (merge_at o [] b).
Proof.
  intros Ho Hb Hgo Hgb. assert (good_config (normalized_with_key_aliases o [])) as Hn.
  { destruct o as [| | | | | |ot]; try done. destruct (get_normalized ot [] Ho) as (t' & -> & Ht').
    intros v. simpl. rewrite Ht', normalize_elsewhere by done. destruct (get sep ot) as [c|] eqn:G; [|done].
    intros [= <-]. apply good_normalized; [by eapply wf_toml_get|]. apply Hgo. simpl. by rewrite G. }
  destruct (is_table o && is_table b) eqn:Hob; [|by rewrite merge_replaces by done].
  destruct o as [| | | | | |ot]; try done. destruct b as [| | | | | |bt]; try done.
  rewrite merge_plain by done.
  change (replace_shell_environment_policy_filter_representation (TTable bt) _ _) with (TTable bt).
  pose proof Ho as [HN _]%wf_table. intros v. simpl. rewrite get_merge_tables by done.
  change (normalize_tables to_lowercase [] ?t) with (normalize_key_aliases [] t).
  rewrite !normalize_elsewhere by done.
  assert (∀ c, get sep bt = Some c → good_policy c) as Hb' by (intros c Hc; apply Hgb; simpl; by rewrite Hc).
  destruct (get sep ot) as [vo|] eqn:Go; cycle 1.
  { destruct (get sep bt) as [vb|]; [|done]. intros [= <-]. by apply Hb'. }
  assert (good_policy vo) as Hvo by (apply Hgo; simpl; by rewrite Go).
  intros [= <-]. pose proof (wf_toml_get _ _ _ Ho Go). unfold merge_field.
  destruct (get sep bt) as [vb|] eqn:Gb; [|by apply good_normalized].
  apply good_merge; [done|by eapply wf_toml_get|done|by apply Hb'].
Qed.

Context {Requirements RequirementsToml : Type}.

(** C24: When every enabled layer passes its check, the merged shell environment policy
    never has the table of filters together with one of the legacy arrays, whatever
    forms the layers use, and no two of its patterns are equal up to case. *)
Theorem filter_forms_never_mixed (s : @ConfigLayerStack T Requirements RequirementsToml) :
  wf_layers (layers s) → Forall (λ l, is_table (config l) = true) (layers s) →
  validate_enabled_config_layers to_lowercase (layers s) = Ok () →
  ∀ policy, lookup_path [sep] (effective_config to_lowercase s) = Some (TTable policy) →
    one_form policy ∧ ∀ v, get filters_key policy = Some v → distinct_patterns v.
Proof.
  intros Hw Ht Hv policy. enough (good_config (effective_config to_lowercase s)) as Hg by (intros Hp; exact (Hg _ Hp)).
  clear policy.
  rewrite validate_ok in Hv.
  assert (Forall (λ l, wf_toml (config l) = true ∧ good_config (config l)) (layers_low_to_high s)) as HF.
  { unfold wf_layers in Hw. rewrite Forall_forall in Hw, Ht, Hv |- *. intros l Hl%list_elem_of_In.
    apply List.filter_In in Hl as [Hl He%negb_true_iff]. apply list_elem_of_In in Hl.
    split; [by apply Hw|]. specialize (Hv l Hl He). specialize (Ht l Hl).
    unfold validate_layer in Hv. destruct (config l) as [| | | | | |t]; try done.
    cbn [validate_shell_environment_policy_filter_config] in Hv. intros policy Hp. simpl in Hp.
    destruct (get sep t) as [v|]; [|done]. injection Hp as ->. destruct policy as [| | | | | |pt]; try done.
    apply validated_policy. by destruct (deserialize_shell_environment_policy_filters _ _) as [[]|]. }
  clear Hw Ht Hv. change (good_config (merge_all to_lowercase (layers_low_to_high s))).
  induction (layers_low_to_high s) as [|l ls IH] using rev_ind; [by intros v [=]|].
  apply Forall_app in HF as [HF Hl]. rewrite Forall_singleton in Hl. destruct Hl as [Hwl Hgl].
  rewrite merge_all_snoc. apply good_config_merge; [done| |done|by apply IH].
  apply merge_all_wf. eapply Forall_impl; [exact HF|]. naive_solver.
Qed.
End filters.
