(* ===== verification/Constrained.v ===== *)
(** * Constrained settings

    [codex-rs/config/src/constraint.rs]: a setting with a validator, and maybe a
    normalizer, that requirements install; the session may change the setting only
    to values that the validator accepts.  Values, errors and the texts in them are
    parameters. *)

From S2P Require Import Prelude.

Section constrained.
Context {A E : Type} `{EqDecision A} (invalid_value : A → A → E).

Record Constrained := {
  value : A;
  validator : A → result unit E;
  normalizer : option (A → A);
}.

Definition new_constrained (initial_value : A) (validator : A → result unit E) : result Constrained E :=
  let? _ := validator initial_value in
  Ok {| value := initial_value; validator := validator; normalizer := None |}.

Definition normalized_constrained (initial_value : A) (normalizer : A → A) : result Constrained E :=
  let validator := λ _ : A, Ok () in
  let normalized := normalizer initial_value in
  let? _ := validator normalized in
  Ok {| value := normalized; validator := validator; normalizer := Some normalizer |}.

Definition allow_any (initial_value : A) : Constrained :=
  {| value := initial_value; validator := λ _, Ok (); normalizer := None |}.

Definition allow_only (only_value : A) : Constrained :=
  {| value := only_value;
     validator := λ candidate, if bool_decide (candidate = only_value) then Ok ()
                               else Err (invalid_value candidate only_value);
     normalizer := None |}.

Definition can_set (self : Constrained) (candidate : A) : result unit E := validator self candidate.

(** The state stays as it was when an operation fails. *)
Definition add_validator (self : Constrained) (v : A → result unit E) : Constrained * result unit E :=
  let combined := λ candidate, let? _ := validator self candidate in v candidate in
  match combined (value self) with
  | Ok _ => ({| value := value self; validator := combined; normalizer := normalizer self |}, Ok ())
  | Err e => (self, Err e)
  end.

Definition set (self : Constrained) (x : A) : Constrained * result unit E :=
  let x := match normalizer self with Some normalizer => normalizer x | None => x end in
  match validator self x with
  | Ok _ => ({| value := x; validator := validator self; normalizer := normalizer self |}, Ok ())
  | Err e => (self, Err e)
  end.

(** ** Sequences of operations *)

Inductive op := SetTo (x : A) | AddValidator (v : A → result unit E).

Definition step (self : Constrained) (o : op) : Constrained * result unit E :=
  match o with SetTo x => set self x | AddValidator v => add_validator self v end.

Definition run (self : Constrained) (ops : list op) : Constrained := foldl (λ s o, (step s o).1) self ops.

(** The validators that were installed on the way. *)
Fixpoint installed (self : Constrained) (ops : list op) : list (A → result unit E) :=
  match ops with
  | [] => []
  | o :: ops =>
      match o, (step self o).2 with
      | AddValidator v, Ok _ => [v]
      | _, _ => []
      end ++ installed (step self o).1 ops
  end.

Inductive created : Constrained → Prop :=
| created_new x v c : new_constrained x v = Ok c → created c
| created_normalized x f c : normalized_constrained x f = Ok c → created c
| created_any x : created (allow_any x)
| created_only x : created (allow_only x).

Definition accepts (v : A → result unit E) (x : A) : Prop := v x = Ok ().

Lemma created_accepts c : created c → accepts (validator c) (value c).
Proof.
  unfold accepts. destruct 1 as [x v c Hc|x f c Hc|x|x]; simpl; try done.
  - unfold new_constrained in Hc. destruct (v x) as [[]|] eqn:Hv; [|done]. by injection Hc as <-.
  - by injection Hc as <-.
  - by rewrite bool_decide_true.
Qed.

(** One operation keeps the value acceptable and only narrows what is accepted. *)
Lemma step_accepts c o :
  accepts (validator c) (value c) →
  accepts (validator (step c o).1) (value (step c o).1)
  ∧ (∀ x, accepts (validator (step c o).1) x → accepts (validator c) x)
  ∧ (∀ v, o = AddValidator v → (step c o).2 = Ok () → ∀ x, accepts (validator (step c o).1) x → accepts v x)
  ∧ (∀ e, (step c o).2 = Err e → (step c o).1 = c).
Proof.
  unfold accepts. intros Hc. destruct o as [x|v]; simpl.
  - unfold set. generalize (match normalizer c with Some f => f x | None => x end) as y. intros y.
    destruct (validator c y) as [[]|] eqn:E1; simpl; by split_and!.
  - unfold add_validator. destruct (validator c (value c)) as [[]|] eqn:E1; [|done]. simpl.
    destruct (v (value c)) as [[]|] eqn:E2; simpl.
    + split_and!; [by rewrite E1| | |done].
      * intros x. by destruct (validator c x) as [[]|].
      * intros w [= ->] _ x. by destruct (validator c x) as [[]|].
    + by split_and!.
Qed.

Lemma run_narrows c ops x :
  accepts (validator c) (value c) → accepts (validator (run c ops)) x → accepts (validator c) x.
Proof.
  unfold run. revert c. induction ops as [|o ops IH]; intros c Hc Hx; [done|]. cbn [foldl] in Hx.
  destruct (step_accepts c o Hc) as (H1 & H2 & _). by apply H2, IH.
Qed.

(** C37: Whatever is done to a setting, its value is accepted by the validator it was
    created with and by every validator installed since; and what an operation
    refuses leaves no trace. *)
Theorem constraints_always_hold c ops :
  created c →
  accepts (validator c) (value (run c ops))
  ∧ Forall (λ v, accepts v (value (run c ops))) (installed c ops)
  ∧ ∀ o e, (step (run c ops) o).2 = Err e → (step (run c ops) o).1 = run c ops.
Proof.
  intros Hc%created_accepts.
  assert (accepts (validator (run c ops)) (value (run c ops))) as Hr.
  { revert c Hc. induction ops as [|o ops IH]; intros c Hc; [done|]. apply IH.
    by destruct (step_accepts c o Hc). }
  split_and!.
  - by eapply run_narrows.
  - revert c Hc Hr. induction ops as [|o ops IH]; intros c Hc Hr; [constructor|]. cbn [installed run foldl] in *.
    destruct (step_accepts c o Hc) as (H1 & _ & H3 & _). apply Forall_app. split; [|by apply IH].
    destruct o as [x|v]; [constructor|]. destruct ((step c (AddValidator v)).2) as [[]|] eqn:E1; [|constructor].
    constructor; [|constructor]. eapply H3; [done|done|]. by eapply run_narrows.
  - intros o e. apply step_accepts. exact Hr.
Qed.
End constrained.
