(* ===== verification/ConfigWitnesses.v ===== *)
(** * The theorems on configuration at work

    Concrete layers, readers and overrides, with the parameters instantiated. *)

From S2P Require Import Prelude RustStr UnixPath AbsolutePath Fields ResponseItems WorldState.
From S2P Require Import ExecPolicyManager NetAddr NetHost ConfigMerge ConfigMergeFacts.
From S2P Require Import ShellEnvironment ConfigLayers ConfigLayerFacts Constrained.

(** Floats and dates by their texts. *)
#[local] Instance demo_types : TomlTypes := {| Float := str; Datetime := str |}.

(** Readers of strings, and of tables of strings. *)
Definition demo_read_filter (v : TomlValue) : result ShellEnvironmentPolicyFilter str :=
  match v with
  | TString s =>
      if bool_decide (s = lit "include") then Ok Include
      else if bool_decide (s = lit "exclude") then Ok Exclude else Err (lit "unknown variant")
  | _ => Err (lit "invalid type")
  end.

Definition demo_read_string (v : TomlValue) : result str str :=
  match v with TString s => Ok s | _ => Err (lit "invalid type") end.

Definition demo_read_table {A} (f : TomlValue → result A str) (v : TomlValue) : result (list (str * A)) str :=
  match v with
  | TTable t => rmapM (λ e, rmap (pair e.1) (f e.2)) t
  | _ => Err (lit "invalid type")
  end.

#[local] Instance demo_readers : FieldReaders := {|
  read_inherit v := Err (lit "invalid type");
  read_bool v := match v with TBoolean b => Ok b | _ => Err (lit "invalid type") end;
  read_strings v := match v with TArray l => rmapM demo_read_string l | _ => Err (lit "invalid type") end;
  read_set v := rmap list_to_map (demo_read_table demo_read_string v);
  read_filters := demo_read_table demo_read_filter;
  read_root _ := Err (lit "invalid type");
|}.

Lemma ascii_lower_idem c : ascii_lower (ascii_lower c) = ascii_lower c.
Proof.
  unfold ascii_lower, is_ascii_uppercase.
  destruct ((65 <=? c)%N && (c <=? 90)%N) eqn:E; [|by rewrite E].
  apply andb_prop in E as [E1%N.leb_le E2%N.leb_le].
  destruct (c + 32 <=? 90)%N eqn:E3; [apply N.leb_le in E3; lia|]. by rewrite andb_false_r.
Qed.

Lemma demo_read_table_keys {A} (f : TomlValue → result A str) (t : table) m :
  rmapM (λ e, rmap (pair e.1) (f e.2)) t = Ok m → fst <$> m = fst <$> t.
Proof.
  revert m. induction t as [|[k v] t IH]; intros m; [by intros [= <-]|]. simpl.
  destruct (f v) as [a|]; [|done]. simpl. destruct (rmapM _ t) as [m'|]; [|done].
  intros [= <-]. csimpl. f_equal. by apply IH.
Qed.

#[local] Instance demo_laws : LibraryLaws to_ascii_lowercase.
Proof.
  split.
  - intros s. unfold to_ascii_lowercase. rewrite <- list_fmap_compose. apply list_fmap_ext.
    intros i c _. apply ascii_lower_idem.
  - intros [| | | | | |t] m Hm; try done. exists t. split; [done|]. by rewrite (demo_read_table_keys demo_read_filter t m Hm).
Qed.

(** ** A stack: defaults, the user and a project *)

Definition demo_version (v : TomlValue) : str := lit "v1".

Definition demo_defaults : TomlValue :=
  TTable [(lit "model", TString (lit "base"));
          (lit "tools", TTable [(lit "web_search", TBoolean true)]);
          (lit "memories", TTable [(lit "no_memories_if_mcp_or_web_search", TBoolean true)]);
          (lit "shell_environment_policy", TTable [(lit "exclude", TArray [TString (lit "AWS_*")])])].
Definition demo_user : TomlValue :=
  TTable [(lit "model", TString (lit "large"));
          (lit "features", TTable [(lit "network_proxy", TBoolean true)]);
          (lit "shell_environment_policy",
             TTable [(lit "filters", TTable [(lit "Secret_*", TString (lit "exclude"))])])].
Definition demo_project : TomlValue :=
  TTable [(lit "tools", TTable [(lit "view_image", TBoolean false)]);
          (lit "features", TTable [(lit "network_proxy", TTable [(lit "mode", TString (lit "full"))])]);
          (lit "shell_environment_policy",
             TTable [(lit "filters", TTable [(lit "SECRET_*", TString (lit "include"))])])].

Definition demo_layers : list ConfigLayerEntry :=
  [new_layer_entry demo_version (PackagedDefaults (lit "/opt/defaults.toml")) demo_defaults;
   new_layer_entry demo_version (User (lit "/home/u/.codex/config.toml") None) demo_user;
   new_layer_entry demo_version (Project (lit "/repo/.codex")) demo_project].

Definition demo_stack : @ConfigLayerStack demo_types unit unit :=
  {| layers := demo_layers; requirements := (); requirements_toml := ();
     ignore_user_and_project_exec_policy_rules := false; startup_warnings := None |}.

Lemma demo_wf : wf_layers demo_layers.
Proof. repeat constructor. Qed.

(** The user's model, the legacy name of a memory setting and the flag of a feature
    that the project made a table. *)
Lemma highest_layer_wins_witness :
  setting (says [lit "model"] (effective_config to_ascii_lowercase demo_stack)) = Some (TString (lit "large"))
  ∧ setting (says [lit "memories"; lit "disable_on_external_context"]
               (effective_config to_ascii_lowercase demo_stack)) = Some (TBoolean true)
  ∧ setting (says_with says_flag [lit "features"; lit "network_proxy"]
               (effective_config to_ascii_lowercase demo_stack)) = Some (TBoolean true).
Proof.
  split_and!.
  - rewrite (proj1 (highest_layer_wins to_ascii_lowercase demo_stack [lit "model"] demo_wf));
      [reflexivity|reflexivity|done].
  - rewrite (proj1 (highest_layer_wins to_ascii_lowercase demo_stack
      [lit "memories"; lit "disable_on_external_context"] demo_wf)); [reflexivity|reflexivity|done].
  - rewrite (proj2 (highest_layer_wins to_ascii_lowercase demo_stack
      [lit "features"; lit "network_proxy"] demo_wf)); reflexivity.
Defined.

Lemma demo_built : built to_ascii_lowercase demo_version demo_stack.
Proof. by apply (built_new _ _ demo_layers () ()). Qed.

(** A new user configuration goes to its place. *)
Lemma stacks_stay_ordered_witness :
  stack_ok to_ascii_lowercase demo_stack
  ∧ List.filter (λ l, is_user (name l)) (layers (with_user_layer_from demo_stack demo_stack))
    = [new_layer_entry demo_version (User (lit "/home/u/.codex/config.toml") None) demo_user].
Proof.
  destruct (stacks_stay_ordered to_ascii_lowercase demo_version demo_stack demo_built) as [Hok Htaken].
  split; [exact Hok|]. destruct (Htaken demo_stack demo_built) as [E _]. rewrite E. reflexivity.
Defined.

Lemma origins_tell_truth_witness :
  ∃ l, l ∈ layers_low_to_high demo_stack
    ∧ says [lit "tools"; lit "web_search"] (normalized_with_key_aliases (config l) [])
      = Set_to (TBoolean true)
    ∧ origins demo_stack !! path_name [lit "tools"; lit "web_search"] = Some (layer_metadata l).
Proof.
  destruct (origins_tell_truth to_ascii_lowercase demo_stack [lit "tools"; lit "web_search"] (TBoolean true))
    as (l & Hl & Hs & Ho).
  - exact demo_wf.
  - repeat constructor.
  - reflexivity.
  - done.
  - reflexivity.
  - exists l. split; [exact Hl|]. split; [exact Hs|]. apply (Ho []); [by constructor|reflexivity].
Defined.

(** Both forms are used, and a pattern in two spellings. *)
Lemma filter_forms_never_mixed_witness :
  ∃ policy,
    lookup_path [lit "shell_environment_policy"] (effective_config to_ascii_lowercase demo_stack)
      = Some (TTable policy)
    ∧ get (lit "filters") policy = Some (TTable [(lit "secret_*", TString (lit "include"))])
    ∧ one_form policy.
Proof.
  eexists. split; [reflexivity|]. split; [reflexivity|].
  apply (filter_forms_never_mixed to_ascii_lowercase demo_stack); [exact demo_wf| | |reflexivity].
  - repeat constructor.
  - reflexivity.
Defined.

(** Three overrides of a command line. *)
Definition demo_overrides : list (str * TomlValue) :=
  [(lit "model", TString (lit "small")); (lit "tools.web_search", TBoolean false)].

Lemma last_override_wins_witness :
  let layer := build_cli_overrides_layer to_ascii_lowercase (demo_overrides ++ [(lit "model", TString (lit "big"))]) in
  lookup_path [lit "model"] layer = Some (TString (lit "big"))
  ∧ lookup_path [lit "tools"; lit "web_search"] layer = Some (TBoolean false).
Proof.
  destruct (last_override_wins to_ascii_lowercase demo_overrides (lit "model") (TString (lit "big")) eq_refl)
    as [Hv Hq].
  split; [exact Hv|]. rewrite (Hq [lit "tools"; lit "web_search"]); [reflexivity|].
  split; intros H; apply prefix_cons_inv_1 in H; discriminate H.
Defined.

(** A bound, a second bound and two attempts to set a value. *)
Definition at_least (low x : Z) : result unit str := if (low <=? x)%Z then Ok () else Err (lit "too small").
Definition at_most (high x : Z) : result unit str := if (x <=? high)%Z then Ok () else Err (lit "too big").

Definition demo_constrained : Constrained :=
  {| value := 5%Z; validator := at_least 0; normalizer := None |}.

Lemma constraints_always_hold_witness :
  let ops := [SetTo 12%Z; AddValidator (at_most 10); SetTo 7%Z; AddValidator (at_most 10); SetTo 11%Z] in
  accepts (at_least 0) (value (run demo_constrained ops)) ∧ value (run demo_constrained ops) = 7%Z
  ∧ Forall (λ v, accepts v (value (run demo_constrained ops))) (installed demo_constrained ops).
Proof.
  intros ops.
  destruct (constraints_always_hold (λ _ _, lit "invalid") demo_constrained ops) as (H1 & H2 & _);
    [by apply (created_new _ 5%Z (at_least 0))|].
  split; [exact H1|]. split; [reflexivity|exact H2].
Defined.

(** ** Origins of what is no longer there

    A layer that replaces a table by a value leaves the origins of the fields of the
    table behind. *)
Definition replacing_stack : @ConfigLayerStack demo_types unit unit :=
  {| layers := [new_layer_entry demo_version (User (lit "/home/u/.codex/config.toml") None)
                  (TTable [(lit "tools", TTable [(lit "web_search", TBoolean true)])]);
                new_layer_entry demo_version SessionFlags (TTable [(lit "tools", TBoolean false)])];
     requirements := (); requirements_toml := ();
     ignore_user_and_project_exec_policy_rules := false; startup_warnings := None |}.

Example stale_origin :
  effective_config to_ascii_lowercase replacing_stack = TTable [(lit "tools", TBoolean false)]
  ∧ meta_name <$> origins replacing_stack !! lit "tools.web_search"
    = Some (User (lit "/home/u/.codex/config.toml") None).
Proof. split; reflexivity. Qed.
